(* ===== verification/_CoqProject ===== *)
-Q . S2P
Prelude.v
Order.v
Crc.v
Core.v
Format.v
FormatSpec.v
RecordSpec.v
Codec.v
CatalogCodec.v
CatalogCodecSpec.v
Catalog.v
CatalogSpec.v
RocksCatalog.v
RocksSpec.v
RocksReads.v
RocksRefinement.v
RocksValidate.v
Chunk.v
ChunkSpec.v
RecoverySpec.v
ReadSpec.v
CatalogInterface.v
Disk.v
DiskSpec.v
Store.v
WriterSpec.v
ReconcileSpec.v
StoreSpec.v
Rotation.v
RotationSpec.v
Rebuild.v
RebuildSpec.v
Git.v
GitSpec.v
Reader.v
Snapshot.v
SnapshotSpec.v
PublicationSpec.v
Import.v
ImportSpec.v
Mark.v
Generation.v
CompactionSpec.v
LeaseSpec.v
Backup.v
BackupSpec.v
BackupTree.v
BackupTreeSpec.v
Cache.v
CacheSpec.v
Checkout.v
CheckoutSpec.v
MaterializeSpec.v
Workspace.v
WorkspaceSpec.v
WorkspaceStore.v
WorkspaceStoreSpec.v
WorkspaceReconcileSpec.v
ColdSource.v
PlanSpec.v
RestoreSpec.v
DurableCheckoutSpec.v
Jobs.v
JobsSpec.v
DirectorySpec.v
JobsQueueSpec.v
JobsOpsSpec.v
JobsLiveSpec.v
JobJournal.v
StateFile.v
Scrub.v
Migration.v
Btrfs.v
BtrfsSpec.v
BtrfsDiagnostics.v
Service.v
Workers.v
WorkersSpec.v
OperationLog.v
Lifecycle.v
