(* ===== verification/Prelude.v ===== *)
(** * Reflink Forest: a verification development

    Reflink Forest imports Git repositories into append-only chunk files and
    serves workspaces from them. This library models the program from bytes up
    to the checkout of an imported commit, and proves what each part promises
    the next.

    ** The program and the files that model it

    The crates are under [src/crates/reflink-forest-<name>/src/lib.rs].

    - [core] (identities): module [Core]. [ContentId], [GitOid], the domain
      separated preimages and the streaming [GitOidHasher]. SHA-1 and SHA-256
      are code of other packages: the class [Digests] takes them as
      parameters.
    - [format] (on-disk encodings): [Crc] (CRC-32C, and that a burst of up to
      four bytes always changes it), [Format] (chunk header, sealed footer,
      object record), [FormatSpec], [RecordSpec], and [Codec] (payload codecs,
      the validating writer). zstd is a parameter, class [Zstd], whose laws
      [ZstdLaws] are the documented behaviour of a frame codec.
    - [index] (the catalog): [CatalogCodec] (catalog-v1 keys and values),
      [Catalog] (batches, the [Catalog] and [ObjectLocationRebuildCatalog]
      traits as classes, their default methods, the in-memory catalog),
      [CatalogSpec] (what a catalog promises, as an abstract map from keys to
      values), [RocksCatalog] (the RocksDB catalog over an abstract ordered
      key-value engine with failing calls), [RocksSpec], [RocksReads],
      [RocksRefinement] and [RocksValidate].
    - [store] (chunk files): [Chunk] (scanning, recovery, sealed verification
      and reads of one file's bytes), [ChunkSpec], [RecoverySpec], [ReadSpec];
      [Disk] (files, names and directories with failing calls and crashes),
      [DiskSpec]; [Store] (the chunk writer, sealing, reconciliation),
      [WriterSpec], [ReconcileSpec], [StoreSpec]; [Rotation], [RotationSpec]
      (the rotating writer); [Rebuild], [RebuildSpec] (the locations-only
      catalog rebuild).
    - [CatalogInterface] states, as the class [CatalogLaws], what the clients
      of a catalog need; both catalogs discharge it, so the theorems of store,
      import, maintenance and workspace hold over either. [SinkSpec], in
      [ReadSpec], relates decoding into different sinks.
    - [git] (reading repositories): [Git] (parsers of commits, trees and tags,
      the walk over reachable objects, and the two backends, over libgit2 and
      over the git program, whose answers are parameters), [GitSpec].
    - [import]: [Reader] (the cursor parsers of the manifest codecs, with the
      calculus of exact parsers), [Snapshot] (snapshot manifests, their files
      and the publication protocol), [SnapshotSpec], [PublicationSpec];
      [Import] (the trait [GitBackend] and the import loop), [ImportSpec], where
      the class [BackendLaws] says what the import needs of a backend and both
      backends discharge it.
    - [maintenance]: [Mark] with its module [MarkSpec] (the mark phase over
      manifests and retained objects), [Generation] (compaction, publication of a
      generation, leases, retirement), [CompactionSpec], [LeaseSpec].
    - [backup]: [Backup] (path rules, manifest and descriptor codecs, the check
      of cold chunks), [BackupSpec], [BackupTree] (checkpoint, verification and
      restore of directory trees), [BackupTreeSpec] with its module
      [AuthoritySpec] (the digest of authoritative entries).
    - [cache]: [Cache] (reserve policy, leaves, hydration, reconciliation,
      eviction and the capacity coordinator), [CacheSpec]; the module [Reserve]
      of [Workers] (import and compaction behind reserve admission).
    - [checkout]: [Checkout] (names, paths, the plan builder, materialization,
      publication of a staged tree), [CheckoutSpec], [MaterializeSpec].
    - [workspace]: [Workspace] (manifests and their files), [WorkspaceSpec];
      [WorkspaceStore] (ready records, withdrawal, deletion, startup
      reconciliation), [WorkspaceStoreSpec], [WorkspaceReconcileSpec];
      [ColdSource] (planning and checkout from cold records, the durable
      checkout), [PlanSpec], [RestoreSpec], [DurableCheckoutSpec].
    - [daemon]: [Jobs] (job records, the file-backed queue, its state machine,
      startup recovery and execution), [JobsSpec] (the record codec),
      [JobsQueueSpec] with its module [JobsListSpec] (the queue's directory as a
      map), [JobsOpsSpec], [JobsLiveSpec]; [JobJournal] (the queue mirrored in
      the catalog); [StateFile] (one durable record in a file), used by [Scrub]
      with its module [ScrubSpec] (the schedule of scrubs) and [Migration] with
      its module [MigrationSpec] (the checkpoint of a format migration); [DirectorySpec] (what crashes leave of
      a directory whose files are replaced by renaming, shared by the queue and
      the state files); [Service] with its module [ServiceSpec] (requests,
      responses, status, events and metrics); [Workers], [WorkersSpec] (the
      workers that carry out jobs by collection, cache maintenance, imports and
      checkouts, and their startup); [OperationLog] with its module
      [OperationLogSpec] (the log of operations, [structured_log.rs]);
      [Lifecycle] with its module [LifecycleSpec] (private directories, locks,
      the socket, start and end of a daemon, and the start of the production
      service, [production.rs]).
    - [btrfs]: [Btrfs] (command plans, the privileged executor, initialization
      of an image, instance markers, probes), [BtrfsSpec]; [BtrfsDiagnostics]
      (reports of quotas, trimming and free space). The image file of
      [create_sparse_image] of [core] is part of [Btrfs].
    - [Prelude] (this file) and [Order] hold what the others share: results,
      bytes and machine-width integers, decimal numbers, lists, comparison and
      sorting.

    ** How state and operations correspond to the code

    A Rust function that returns [Result] is a function to [result]; a method
    that mutates is a function from state to result and state, in the [ST]
    monad of [Disk] where the code threads a file system through many calls.
    A [?] after a failed call keeps the state the call left behind. Integers
    are [Z] with their width written out: [checked_add] and [u64_try_from] fail
    beyond [u64_max], [usize] is 64 bits. Bytes are [list byte]. A hash map or
    B-tree map is a [gmap], with the sorted listing written out where the code
    depends on order. A Rust panic is an outcome of its own in [Rotation].

    The disk of [Disk] gives every file a synced and a written content, and
    every name change a pending entry until its directory is synced. Each call
    consults a schedule of faults: it may fail with nothing done, or after
    part of a write reached the file. [crash] keeps any part of what was not
    synced. One bound is assumed of the host: a file holds at most
    [MAX_FILE_BYTES] bytes. Directories are not objects of the disk: creating
    one is a call that may fail, and an absent one has no entries.

    Other parts of the file system are values of their own with their own
    fault lists: the staging directory of a checkout ([Stage], nodes by
    relative path), the directories of published and retired workspaces
    ([Shelf]), the leaves of the cache by content ID ([Cache]), and whole trees
    in [BackupTree], where no call fails. FICLONE is a copy of the contents. In
    [Lifecycle] the host has entries with owner, mode and links, and the files
    that are locked; a path stands for one entry, and links are followed at its
    end, as often as the kernel follows them. A lock inside a process is the
    atomicity of the step it guards. Random and clock-based names
    are lists of candidates given to the operation.

    The code of [btrfs] acts on the host through commands and system calls. Each
    function is a tree, [Btrfs.Prog], of calls with a branch per answer; a
    history is a path of the tree, and the theorems range over all of them, so
    they assume nothing of the host.

    ** What the theorems show

    Many of them are about records of at most 64 MiB, the recovery ceiling
    [MAX_RECOVERY_RECORD_BYTES], also where a history of the store is meant: the
    writer accepts larger records, and [oversized_record_lost] shows that
    recovery then loses them. Each theorem names this and its other conditions.

    - Encodings: decoders accept exactly what encoders produce, and damaged
      bytes are reported ([RecordSpec], [FormatSpec], [CatalogCodecSpec]).
    - Payloads: decoding delivers at most the declared length, and on success
      the object that the [ContentId] names ([Codec], [ReadSpec]).
    - Catalog: batches are atomic, aliases are never rebound, the rebuild fails
      closed, garbage-collection roots are exact ([CatalogSpec]); the RocksDB
      catalog refines the in-memory one call by call and read by read.
    - Chunks, within the ceiling: recovery keeps every complete record and cuts a
      torn one; a chunk verifies as sealed exactly when it is one; reads by
      location succeed exactly when the record is there ([RecoverySpec],
      [ReadSpec]).
    - Store, within the ceiling: in every state reachable by writer calls,
      failing calls and crashes, each located object can be read back
      ([StoreSpec]); the rotating writer only takes such steps
      ([RotationSpec]); reconciliation of a chunk leaves its file, its name and
      its catalog entry in agreement, and so does the locations-only rebuild.
    - Git and import: the walk ends and returns exactly what is reached
      ([GitSpec]); after an import within the ceiling every reached object can
      be recovered after any crash ([ImportSpec]); a snapshot is ready only with a durable manifest
      ([PublicationSpec]).
    - Collection: marking and compaction keep every reachable object located at
      a verified record ([CompactionSpec]); leases and pins block retirement
      ([LeaseSpec]).
    - Backup: a checkpoint restores the tree it was made from
      ([BackupTreeSpec]); equal digest streams mean equal trees
      ([AuthoritySpec]).
    - Cache: hydration delivers content with the requested ID; admitted work
      keeps the positive reserves, and admission succeeds whenever eviction can
      make room ([CacheSpec]).
    - Checkout: plans are well formed ([CheckoutSpec]); materialization leaves
      exactly the plan and publication is atomic ([MaterializeSpec]).
    - Workspaces: manifests decode exactly what they encode ([WorkspaceSpec]);
      a workspace becomes ready whole ([WorkspaceStoreSpec]), is deleted without
      unpinning what is visible, and startup makes visibility and readiness
      agree ([WorkspaceReconcileSpec]); a durable checkout is all or nothing
      ([DurableCheckoutSpec]).
    - Jobs: whatever fails, in every state a crash may find, each job follows
      the state machine and a reported job is not lost ([JobsOpsSpec]); startup
      recovers the queue and claimed jobs end ([JobsLiveSpec]).
    - Schedules and migrations: reported records survive crashes, interrupted
      scrubs become due, the active format never goes back ([ScrubSpec],
      [MigrationSpec]).
    - Requests: any bytes from a peer change at most the queue, by one of its
      operations; the commands the protocol can express are exactly described
      ([ServiceSpec]).
    - Workers: a collection job keeps every reachable object and moves nothing
      that is pinned or leased; jobs created over the socket start no trusted
      import or checkout, and a collection only when one is asked for; startup
      settles snapshots and workspaces ([WorkersSpec]).
    - Log: the line of every accepted event is in the file after any crash,
      behind what earlier appends left, and without failed appends the lines
      determine the events ([OperationLogSpec]).
    - Daemons: through any starts, failures, ends and kills, live daemons share
      no root, a refused start changes nothing of them, and a production daemon
      serves only after its checks ([LifecycleSpec]).
    - Devices: for every host, privileged commands follow the checks that
      justify them, and only an image created in the same run is formatted
      ([BtrfsSpec]).
    - End to end: a checkout of an imported commit shows exactly the tree the
      commit has in the original repository ([RestoreSpec]).
    - Behaviour the code does not intend is proved too:
      [oversized_record_lost], [torn_append_spoils_seal],
      [gitlink_breaks_walk], [dead_location_dangles],
      [checkpoint_order_mismatch], [sealed_chunk_rejected],
      [shortfall_omits_excess], [replacement_fails_after_exchange],
      [abandoned_manifest_hides_ready], [failed_claim_blocks_scrubs],
      [failed_publish_reports_published], [long_fraction_rejected],
      [torn_append_spoils_line], and the empty payload of
      [commands_expressible].

    ** Fuel

    Loops that are not structural carry fuel that is enough by construction:
    the record scan has one unit per byte of the scanned range plus one, and
    every record takes at least one byte; copying a payload has one unit per
    byte of the file; [write_all] one per byte of its buffer, as the code stops
    at a write that makes no progress; slicing into batches one per element;
    parsing a tree one per byte of the object; reading cold chunks of a backup
    one per byte of the file; expanding a tree one per component a path may
    have ([expansion_depth_bounded]); decimal numbers one per digit, 20 for a
    64-bit and 39 for a 128-bit integer. The walks over Git objects and over marked
    references return [None] when their fuel ends; [reachable_objects_exact]
    and [mark_terminates] give fuel that is enough. Links are followed 40 times,
    the bound of the kernel, beyond which the call fails.

    ** What is not modelled

    File modes other than those of checked-out files and of the daemon's roots
    and socket, ownership and symbolic links outside a checkout and the daemon's
    roots; the writer gate of the store (a lock around modelled calls); opening
    a RocksDB database and the variants of the backup that create RocksDB
    checkpoints, with the calls of the production service that use them; the
    waiting of concurrent hydrations; free space as the host reports it, which
    is a parameter; most error messages. Of [daemon]: accepting a connection and
    moving bytes over the socket. Of [btrfs]: how a process is started
    ([SystemCommandRunner]). The [probe] program and the fuzz targets only call
    what is modelled. *)

From Stdlib Require Import ZArith Lia Strings.Byte Sorting.Sorted.
From stdpp Require Import base tactics list gmap countable.

#[local] Open Scope Z_scope.

(** ** Results: Rust's [Result<A, E>] and the [?] operator *)

Inductive result (E A : Type) : Type :=
| Ok (a : A)
| Err (e : E).
Arguments Ok {E A} _.
Arguments Err {E A} _.

#[export] Instance result_ret E : MRet (result E) := λ A a, Ok a.
#[export] Instance result_bind E : MBind (result E) := λ A B f r,
  match r with Ok a => f a | Err e => Err e end.
#[export] Instance result_eq_dec `{EqDecision E, EqDecision A} : EqDecision (result E A).
Proof. solve_decision. Defined.

(** [Result::map_err], which also models the implicit [From] conversion of [?]. *)
Definition map_err {E F A} (f : E → F) (r : result E A) : result F A :=
  match r with Ok a => Ok a | Err e => Err (f e) end.

(** [Option::ok_or]. *)
Definition ok_or {E A} (o : option A) (e : E) : result E A :=
  match o with Some a => Ok a | None => Err e end.

(** [Result::ok]. *)
Definition ok {E A} (r : result E A) : option A :=
  match r with Ok a => Some a | Err _ => None end.

Definition is_ok {E A} (r : result E A) : bool :=
  match r with Ok _ => true | Err _ => false end.

(** A guard [if !c { return Err(e) }]. *)
Definition ensure {E} (c : bool) (e : E) : result E unit :=
  if c then Ok () else Err e.

Lemma bind_Ok {E A B} (a : A) (k : A → result E B) : (Ok a ≫= k) = k a.
Proof. done. Qed.
Lemma bind_Err {E A B} (e : E) (k : A → result E B) : (Err e ≫= k) = Err e.
Proof. done. Qed.
Lemma Ok_inj {E A} (a b : A) : @Ok E A a = Ok b → a = b.
Proof. by intros [= ->]. Qed.
Lemma ensure_true {E} (c : bool) (e : E) : c = true → ensure c e = Ok ().
Proof. by intros ->. Qed.
Lemma bind_ensure {E B} (c : bool) (e : E) (k : unit → result E B) :
  c = true → (ensure c e ≫= k) = k ().
Proof. by intros ->. Qed.
Lemma bind_ensure_decide {E B} P `{Decision P} (e : E) (k : unit → result E B) :
  P → (ensure (bool_decide P) e ≫= k) = k ().
Proof. intros. by rewrite bool_decide_eq_true_2. Qed.
Lemma bind_ensure_fail {E B} P `{Decision P} (e : E) (k : unit → result E B) :
  ¬ P → (ensure (bool_decide P) e ≫= k) = Err e.
Proof. intros. by rewrite bool_decide_eq_false_2. Qed.
Lemma bind_Ok_inv {E A B} (r : result E A) (k : A → result E B) b :
  (r ≫= k) = Ok b → ∃ a, r = Ok a ∧ k a = Ok b.
Proof. destruct r; naive_solver. Qed.
Lemma ensure_Ok_inv {E} (c : bool) (e : E) u : ensure c e = Ok u → c = true.
Proof. by destruct c. Qed.
Lemma ok_or_Ok_inv {E A} (o : option A) (e : E) a : ok_or o e = Ok a → o = Some a.
Proof. by destruct o; intros [= ->]. Qed.
Lemma map_err_Ok_inv {E F A} (f : E → F) (r : result E A) a :
  map_err f r = Ok a → r = Ok a.
Proof. by destruct r; intros [= ->]. Qed.

(** [res_inv H] takes a successful run [H : m = Ok v] apart into the successful
    runs of its stages, turning guards into their boolean conditions. *)
Ltac res_inv H :=
  lazymatch type of H with
  | (_ ≫= _) = Ok _ =>
      let a := fresh "r" in let H1 := fresh "Hr" in let H2 := fresh "Hk" in
      apply bind_Ok_inv in H as (a & H1 & H2); res_inv H1; res_inv H2
  | ensure _ _ = Ok _ => apply ensure_Ok_inv in H
  | ok_or _ _ = Ok _ => apply ok_or_Ok_inv in H
  | map_err _ _ = Ok _ => apply map_err_Ok_inv in H; res_inv H
  | Ok _ = Ok _ => injection H as H
  | mret _ = Ok _ => unfold mret, result_ret in H; injection H as H
  | (let '_ := ?x in _) = Ok _ => destruct x; res_inv H
  | _ => idtac
  end.

(** ** Machine integers: [u8], [u16], [u32], [u64] and a 64-bit [usize] *)

Definition in_width (bits z : Z) : Prop := 0 ≤ z < 2 ^ bits.
Abbreviation is_u8 := (in_width 8).
Abbreviation is_u16 := (in_width 16).
Abbreviation is_u32 := (in_width 32).
Abbreviation is_u64 := (in_width 64).

#[export] Instance in_width_dec bits z : Decision (in_width bits z).
Proof. unfold in_width. apply _. Defined.

Definition u64_max : Z := 2 ^ 64 - 1.
Definition u32_max : Z := 2 ^ 32 - 1.
Definition u16_max : Z := 2 ^ 16 - 1.
(** The code targets 64-bit Linux, so [usize] has 64 bits. *)
Definition usize_max : Z := 2 ^ 64 - 1.

(** [checked_add] of [u64] and [usize]: [None] on overflow. *)
Definition checked_add (a b : Z) : option Z :=
  if decide (a + b ≤ u64_max) then Some (a + b) else None.
Definition checked_sub (a b : Z) : option Z :=
  if decide (b ≤ a) then Some (a - b) else None.
(** [usize::try_from(u64)]: narrowing that fails above [usize::MAX]. *)
Definition usize_try_from (a : Z) : option Z :=
  if decide (a ≤ usize_max) then Some a else None.
(** [u64::try_from(usize)]. *)
Definition u64_try_from (a : Z) : option Z :=
  if decide (a ≤ u64_max) then Some a else None.
Definition u32_try_from (a : Z) : option Z :=
  if decide (a ≤ u32_max) then Some a else None.
Definition u16_try_from (a : Z) : option Z :=
  if decide (a ≤ u16_max) then Some a else None.
(** [saturating_mul] of [u64]. *)
Definition saturating_mul (a b : Z) : Z := Z.min (a * b) u64_max.

Lemma checked_add_Some a b : a + b ≤ u64_max → checked_add a b = Some (a + b).
Proof. intros. unfold checked_add. by rewrite decide_True. Qed.
Lemma checked_add_None a b : u64_max < a + b → checked_add a b = None.
Proof. intros. unfold checked_add. rewrite decide_False; [done|lia]. Qed.
Lemma checked_add_inv a b c : checked_add a b = Some c → c = a + b ∧ a + b ≤ u64_max.
Proof. unfold checked_add. case_decide; naive_solver. Qed.
Lemma checked_sub_Some a b : b ≤ a → checked_sub a b = Some (a - b).
Proof. intros. unfold checked_sub. by rewrite decide_True. Qed.
Lemma checked_sub_inv a b c : checked_sub a b = Some c → c = a - b ∧ b ≤ a.
Proof. unfold checked_sub. case_decide; naive_solver. Qed.
Lemma usize_try_from_Some a : a ≤ usize_max → usize_try_from a = Some a.
Proof. intros. unfold usize_try_from. by rewrite decide_True. Qed.
Lemma u64_try_from_Some a : a ≤ u64_max → u64_try_from a = Some a.
Proof. intros. unfold u64_try_from. by rewrite decide_True. Qed.

(** ** Bytes *)

Abbreviation bytes := (list byte).

Definition byte_to_Z (b : byte) : Z := Z.of_N (Byte.to_N b).
(** [z as u8]: truncation modulo 256. *)
Definition byte_of_Z (z : Z) : byte :=
  default x00 (Byte.of_N (Z.to_N (z mod 256))).

Lemma byte_to_Z_range b : 0 ≤ byte_to_Z b < 256.
Proof.
  unfold byte_to_Z. pose proof (Byte.to_N_bounded b). lia.
Qed.
Lemma byte_of_to_Z b : byte_of_Z (byte_to_Z b) = b.
Proof.
  unfold byte_of_Z. rewrite Z.mod_small by apply byte_to_Z_range.
  unfold byte_to_Z. by rewrite N2Z.id, Byte.of_to_N.
Qed.
Lemma byte_to_of_Z z : byte_to_Z (byte_of_Z z) = z mod 256.
Proof.
  unfold byte_of_Z. pose proof (Z.mod_pos_bound z 256 ltac:(lia)) as Hz.
  destruct (Byte.of_N _) as [b|] eqn:Hb; simpl.
  - apply Byte.to_of_N in Hb. unfold byte_to_Z. rewrite Hb. lia.
  - apply Byte.of_N_None_iff in Hb. lia.
Qed.
#[export] Instance byte_to_Z_inj : Inj (=) (=) byte_to_Z.
Proof. intros a b H. by rewrite <-(byte_of_to_Z a), <-(byte_of_to_Z b), H. Qed.

#[export] Instance byte_eq_dec : EqDecision byte.
Proof. intros a b. destruct (Byte.byte_eq_dec a b); [left|right]; done. Defined.
#[export] Instance byte_countable : Countable byte :=
  inj_countable Byte.to_N Byte.of_N Byte.of_to_N.

(** ** Big-endian integers: [to_be_bytes] and [from_be_bytes] *)

Fixpoint be_decode_acc (acc : Z) (bs : bytes) : Z :=
  match bs with
  | [] => acc
  | b :: bs => be_decode_acc (256 * acc + byte_to_Z b) bs
  end.
Definition be_decode (bs : bytes) : Z := be_decode_acc 0 bs.

Fixpoint be_encode (n : nat) (z : Z) : bytes :=
  match n with
  | O => []
  | S n => byte_of_Z (z / 256 ^ Z.of_nat n) :: be_encode n z
  end.

Lemma length_be_encode n z : length (be_encode n z) = n.
Proof. induction n; simpl; congruence. Qed.

Lemma be_decode_acc_spec acc bs :
  be_decode_acc acc bs = acc * 256 ^ Z.of_nat (length bs) + be_decode bs.
Proof.
  unfold be_decode. revert acc. induction bs as [|b bs IH]; intros acc; cbn [be_decode_acc length].
  - cbn. lia.
  - rewrite (IH (256 * acc + byte_to_Z b)), (IH (256 * 0 + byte_to_Z b)).
    rewrite Nat2Z.inj_succ, Z.pow_succ_r by lia. ring.
Qed.
Lemma be_decode_cons b bs :
  be_decode (b :: bs) = byte_to_Z b * 256 ^ Z.of_nat (length bs) + be_decode bs.
Proof. unfold be_decode at 1. cbn [be_decode_acc]. by rewrite be_decode_acc_spec. Qed.

Lemma pow256 n : 256 ^ Z.of_nat n = 2 ^ (8 * Z.of_nat n).
Proof. by rewrite Z.pow_mul_r by lia. Qed.

Lemma be_decode_range bs : in_width (8 * Z.of_nat (length bs)) (be_decode bs).
Proof.
  unfold in_width. rewrite <-pow256.
  induction bs as [|b bs IH]; [done|].
  rewrite be_decode_cons. pose proof (byte_to_Z_range b).
  cbn [length]. rewrite Nat2Z.inj_succ, Z.pow_succ_r by lia. nia.
Qed.

Lemma be_decode_encode_mod n z :
  be_decode (be_encode n z) = z mod 256 ^ Z.of_nat n.
Proof.
  induction n as [|n IH].
  - by rewrite Z.mod_1_r.
  - cbn [be_encode]. rewrite be_decode_cons, IH, length_be_encode, byte_to_of_Z.
    rewrite Nat2Z.inj_succ, Z.pow_succ_r by lia.
    rewrite (Z.mul_comm 256), Z.rem_mul_r by lia. lia.
Qed.

Lemma be_decode_encode n z :
  in_width (8 * Z.of_nat n) z → be_decode (be_encode n z) = z.
Proof.
  intros Hz. rewrite be_decode_encode_mod. apply Z.mod_small.
  by rewrite pow256.
Qed.

Lemma be_decode_inj a b :
  length a = length b → be_decode a = be_decode b → a = b.
Proof.
  revert b. induction a as [|x a IH]; intros [|y b]; intros Hlen Heq; try done.
  injection Hlen as Hlen. rewrite !be_decode_cons, Hlen in Heq.
  pose proof (be_decode_range a) as Ha. pose proof (be_decode_range b) as Hb.
  unfold in_width in *. rewrite <-pow256 in *. rewrite Hlen in Ha.
  assert (byte_to_Z x = byte_to_Z y) as Hxy by nia.
  rewrite Hxy in Heq. f_equal; [by apply (inj byte_to_Z)|].
  apply IH; [done|lia].
Qed.

Lemma be_encode_decode bs n :
  length bs = n → be_encode n (be_decode bs) = bs.
Proof.
  intros <-. apply be_decode_inj; [by rewrite length_be_encode|].
  apply be_decode_encode, be_decode_range.
Qed.

Lemma be_encode_inj n a b :
  in_width (8 * Z.of_nat n) a → in_width (8 * Z.of_nat n) b →
  be_encode n a = be_encode n b → a = b.
Proof.
  intros Ha Hb Heq. rewrite <-(be_decode_encode n a), <-(be_decode_encode n b) by done.
  by rewrite Heq.
Qed.

(** ** Slices and in-place writes *)

(** [&bytes[off .. off + n]]; the callers establish that the range is in bounds. *)
Definition slice {A} (off n : nat) (l : list A) : list A := take n (drop off l).

(** [dst[off .. off + src.len()].copy_from_slice(src)] for an in-bounds range. *)
Definition put {A} (l : list A) (off : nat) (v : list A) : list A :=
  take off l ++ v ++ drop (off + length v) l.

Definition zeros (n : nat) : bytes := replicate n x00.

(** [l.iter().all(|&b| b == 0)]. *)
Definition all_zero (l : bytes) : bool := forallb (λ b, bool_decide (b = x00)) l.

Lemma length_slice {A} off n (l : list A) :
  (off + n ≤ length l)%nat → length (slice off n l) = n.
Proof. intros. unfold slice. rewrite length_take, length_drop. lia. Qed.
Lemma length_put {A} (l v : list A) off :
  (off + length v ≤ length l)%nat → length (put l off v) = length l.
Proof.
  intros. unfold put. rewrite !length_app, length_take, length_drop. lia.
Qed.
Lemma length_zeros n : length (zeros n) = n.
Proof. apply length_replicate. Qed.

Lemma slice_app_exact {A} (a b : list A) n : length a = n → slice 0 n (a ++ b) = a.
Proof. intros <-. unfold slice. by rewrite drop_0, take_app_length. Qed.
Lemma slice_exact {A} (a : list A) n : length a = n → slice 0 n a = a.
Proof. intros <-. unfold slice. rewrite drop_0. by apply take_ge. Qed.
Lemma slice_app_skip {A} (a b : list A) off n :
  (length a ≤ off)%nat → slice off n (a ++ b) = slice (off - length a) n b.
Proof. intros. unfold slice. f_equal. by rewrite drop_app_ge. Qed.
Lemma slice_app_l {A} (a b : list A) off n :
  (off + n ≤ length a)%nat → slice off n (a ++ b) = slice off n a.
Proof.
  intros. unfold slice. rewrite drop_app_le by lia.
  by rewrite take_app_le by (rewrite length_drop; lia).
Qed.
Lemma slice_put_same {A} (l v : list A) off n :
  length v = n → (off + n ≤ length l)%nat → slice off n (put l off v) = v.
Proof.
  intros <- Hl. unfold put. rewrite slice_app_skip by (rewrite length_take; lia).
  rewrite length_take. replace (off - off `min` length l)%nat with 0%nat by lia.
  by apply slice_app_exact.
Qed.
Lemma slice_put_before {A} (l v : list A) off o n :
  (o + n ≤ off)%nat → (off + length v ≤ length l)%nat →
  slice o n (put l off v) = slice o n l.
Proof.
  intros. unfold put. rewrite slice_app_l by (rewrite length_take; lia).
  unfold slice. rewrite !take_drop_commute, take_take. do 2 f_equal. lia.
Qed.
Lemma slice_put_after {A} (l v : list A) off o n :
  (off + length v ≤ o)%nat → (off + length v ≤ length l)%nat →
  slice o n (put l off v) = slice o n l.
Proof.
  intros. unfold put. rewrite app_assoc.
  rewrite slice_app_skip by (rewrite length_app, length_take; lia).
  rewrite length_app, length_take. unfold slice. rewrite drop_drop. do 2 f_equal. lia.
Qed.
Lemma put_put {A} (l v w : list A) off :
  length v = length w → (off + length v ≤ length l)%nat →
  put (put l off v) off w = put l off w.
Proof.
  intros Hvw Hl. unfold put at 1.
  rewrite <-Hvw. unfold put. rewrite take_app_le, take_take by (rewrite length_take; lia).
  rewrite Nat.min_id. do 2 f_equal. rewrite Hvw.
  rewrite app_assoc. rewrite drop_app_ge; rewrite ?length_app, ?length_take; [|lia].
  rewrite drop_drop. f_equal. lia.
Qed.
Lemma put_id {A} (l : list A) off n :
  (off + n ≤ length l)%nat → put l off (slice off n l) = l.
Proof.
  intros. unfold put. rewrite length_slice by done. unfold slice.
  rewrite <-(take_drop off l) at 4. f_equal.
  rewrite <-drop_drop. apply take_drop.
Qed.

(** Writing into a buffer whose tail is still zero extends its written prefix. *)
Lemma put_extend (a v : bytes) off n :
  (length a ≤ off)%nat → (off + length v ≤ length a + n)%nat →
  put (a ++ zeros n) off v =
    (a ++ zeros (off - length a) ++ v) ++ zeros (length a + n - off - length v).
Proof.
  intros Ha Hn. unfold put, zeros.
  rewrite take_app_ge, drop_app_ge by lia.
  rewrite take_replicate, drop_replicate, <-!app_assoc.
  do 2 f_equal; [f_equal; lia|]. do 2 f_equal; lia.
Qed.

Lemma all_zero_spec l : all_zero l = true ↔ l = zeros (length l).
Proof.
  unfold all_zero, zeros. induction l as [|b l IH]; [done|]. cbn.
  rewrite andb_true_iff, IH, bool_decide_eq_true. split.
  - by intros [-> <-].
  - intros [= -> Hl]. done.
Qed.
Lemma all_zero_zeros n : all_zero (zeros n) = true.
Proof. apply all_zero_spec. by rewrite length_zeros. Qed.

(** [solve_len] compares lengths of byte-string expressions; [slice_simpl] reads a
    field out of a concatenation of fields of known length. *)
Create Rewrite HintDb len.
#[export] Hint Rewrite @length_app @length_zeros @length_be_encode @length_replicate
  @length_take @length_drop @length_map @length_cons @length_nil : len.
Ltac solve_len := autorewrite with len; cbn [length]; lia.
Ltac slice_simpl :=
  repeat (rewrite slice_app_skip by solve_len);
  autorewrite with len; cbn [length Nat.sub];
  first [ rewrite slice_app_exact by solve_len | rewrite slice_exact by solve_len ].

(** ** Lexicographic order on byte strings: [Ord] for [[u8]] *)

Fixpoint bytes_compare (a b : bytes) : comparison :=
  match a, b with
  | [], [] => Eq
  | [], _ :: _ => Lt
  | _ :: _, [] => Gt
  | x :: a, y :: b =>
      match Z.compare (byte_to_Z x) (byte_to_Z y) with
      | Eq => bytes_compare a b
      | c => c
      end
  end.
Definition bytes_ltb (a b : bytes) : bool :=
  match bytes_compare a b with Lt => true | _ => false end.
Definition bytes_lt (a b : bytes) : Prop := bytes_compare a b = Lt.

Lemma bytes_compare_Eq a b : bytes_compare a b = Eq ↔ a = b.
Proof.
  revert b. induction a as [|x a IH]; intros [|y b]; cbn; try done.
  destruct (Z.compare_spec (byte_to_Z x) (byte_to_Z y)) as [H|H|H].
  - apply (inj byte_to_Z) in H as ->. rewrite IH. split; [by intros ->|by intros [=]].
  - split; [done|]. intros [= -> ->]. lia.
  - split; [done|]. intros [= -> ->]. lia.
Qed.
Lemma bytes_compare_antisym a b : bytes_compare b a = CompOpp (bytes_compare a b).
Proof.
  revert b. induction a as [|x a IH]; intros [|y b]; cbn; try done.
  rewrite Z.compare_antisym. destruct (Z.compare _ _); cbn; auto.
Qed.
#[export] Instance bytes_lt_transitive : Transitive bytes_lt.
Proof.
  unfold bytes_lt. intros a. induction a as [|x a IH]; intros [|y b] [|z c]; cbn; try done.
  destruct (Z.compare_spec (byte_to_Z x) (byte_to_Z y)) as [H|H|H]; try done;
  destruct (Z.compare_spec (byte_to_Z y) (byte_to_Z z)) as [H'|H'|H']; try done;
  destruct (Z.compare_spec (byte_to_Z x) (byte_to_Z z)) as [H''|H''|H'']; try done;
  try lia; eauto.
Qed.
#[export] Instance bytes_lt_irreflexive : Irreflexive bytes_lt.
Proof. intros a H. unfold bytes_lt in H. by rewrite (proj2 (bytes_compare_Eq a a)) in H. Qed.
Lemma bytes_ltb_spec a b : bytes_ltb a b = true ↔ bytes_lt a b.
Proof. unfold bytes_ltb, bytes_lt. by destruct (bytes_compare a b). Qed.
Lemma bytes_lt_trichotomy a b : bytes_lt a b ∨ a = b ∨ bytes_lt b a.
Proof.
  unfold bytes_lt. rewrite (bytes_compare_antisym a b).
  destruct (bytes_compare a b) eqn:E; [right; left|left|right; right]; try done.
  by apply bytes_compare_Eq.
Qed.

(** ** Reading and splitting fixed layouts *)

(** [bytes[i]] as an integer, for an in-bounds index. *)
Definition index (l : bytes) (i : nat) : Z := byte_to_Z (default x00 (l !! i)).

Lemma index_slice l i : (i < length l)%nat → slice i 1 l = [byte_of_Z (index l i)].
Proof.
  intros Hi. destruct (lookup_lt_is_Some_2 l i Hi) as [b Hb].
  unfold index, slice. rewrite Hb. cbn [default]. rewrite byte_of_to_Z.
  by rewrite (drop_S l b i Hb).
Qed.
Lemma index_of_slice l i b : slice i 1 l = [b] → index l i = byte_to_Z b.
Proof.
  unfold index, slice. intros H.
  destruct (l !! i) as [c|] eqn:Hc.
  - rewrite (drop_S l c i Hc) in H. cbn in H. by injection H as ->.
  - apply lookup_ge_None in Hc. by rewrite drop_ge in H.
Qed.
Lemma index_of_slice_Z l i z :
  is_u8 z → slice i 1 l = [byte_of_Z z] → index l i = z.
Proof.
  intros Hz H%index_of_slice. by rewrite H, byte_to_of_Z, Z.mod_small.
Qed.

Lemma slice_split {A} off n m (l : list A) :
  slice off (n + m) l = slice off n l ++ slice (off + n) m l.
Proof. unfold slice. by rewrite <-take_take_drop, drop_drop. Qed.
Lemma take_slice {A} n (l : list A) : take n l = slice 0 n l.
Proof. unfold slice. by rewrite drop_0. Qed.
Lemma slice_take {A} off n k (l : list A) :
  (off + n ≤ k)%nat → slice off n (take k l) = slice off n l.
Proof. intros. unfold slice. rewrite !take_drop_commute, take_take. do 2 f_equal. lia. Qed.
Lemma drop_slice_end {A} off n (l : list A) :
  length l = (off + n)%nat → drop off l = slice off n l.
Proof. intros. unfold slice. symmetry. apply take_ge. rewrite length_drop. lia. Qed.
Lemma slice_slice {A} o1 n1 o2 n2 (l : list A) :
  (o2 + n2 ≤ n1)%nat → slice o2 n2 (slice o1 n1 l) = slice (o1 + o2) n2 l.
Proof.
  intros. unfold slice at 2. rewrite slice_take by done.
  unfold slice. by rewrite drop_drop.
Qed.

(** [read_uN] and [put_uN] of the source, all big-endian. *)
Definition read_be (n : nat) (l : bytes) (off : nat) : Z := be_decode (slice off n l).
Abbreviation read_u16 := (read_be 2).
Abbreviation read_u32 := (read_be 4).
Abbreviation read_u64 := (read_be 8).
Definition put_be (n : nat) (l : bytes) (off : nat) (v : Z) : bytes := put l off (be_encode n v).
Abbreviation put_u16 := (put_be 2).
Abbreviation put_u32 := (put_be 4).
Abbreviation put_u64 := (put_be 8).

Lemma read_be_of_slice n l off v :
  in_width (8 * Z.of_nat n) v → slice off n l = be_encode n v → read_be n l off = v.
Proof. intros Hv Hs. unfold read_be. rewrite Hs. by apply be_decode_encode. Qed.
Lemma slice_of_read_be n l off :
  (off + n ≤ length l)%nat → slice off n l = be_encode n (read_be n l off).
Proof.
  intros. unfold read_be. symmetry. apply be_encode_decode. by apply length_slice.
Qed.
Lemma read_be_range n l off :
  (off + n ≤ length l)%nat → in_width (8 * Z.of_nat n) (read_be n l off).
Proof.
  intros H. unfold read_be. rewrite <-(length_slice off n l H) at 1. apply be_decode_range.
Qed.
#[export] Hint Rewrite @length_slice using lia : len.

(** ** Splitting writes over concatenations *)

Lemma put_app_l {A} (a b v : list A) off :
  (off + length v ≤ length a)%nat → put (a ++ b) off v = put a off v ++ b.
Proof.
  intros. unfold put. rewrite take_app_le, drop_app_le by lia.
  by rewrite <-!app_assoc.
Qed.
Lemma put_app_r {A} (a b v : list A) off :
  (length a ≤ off)%nat → put (a ++ b) off v = a ++ put b (off - length a) v.
Proof.
  intros. unfold put. rewrite take_app_ge, drop_app_ge, <-!app_assoc by lia.
  do 4 f_equal. lia.
Qed.
Lemma put_comm {A} (l v w : list A) o1 o2 :
  (o1 + length v ≤ o2)%nat → (o2 + length w ≤ length l)%nat →
  put (put l o1 v) o2 w = put (put l o2 w) o1 v.
Proof.
  intros. rewrite <-(take_drop o2 l).
  assert (length (take o2 l) = o2) by (rewrite length_take; lia).
  assert (length (put (take o2 l) o1 v) = o2) as Hp by (rewrite length_put; lia).
  rewrite (put_app_l (take o2 l) (drop o2 l) v), (put_app_r (take o2 l) (drop o2 l) w) by lia.
  rewrite put_app_r, put_app_l by lia. by rewrite Hp, H1.
Qed.
Lemma put_next (a v : bytes) off n :
  off = length a → (length v ≤ n)%nat →
  put (a ++ zeros n) off v = (a ++ v) ++ zeros (n - length v).
Proof.
  intros -> Hn. rewrite put_extend by lia. rewrite Nat.sub_diag. cbn [zeros replicate app].
  do 2 f_equal. lia.
Qed.
Lemma zeros_app n m : zeros (n + m) = zeros n ++ zeros m.
Proof. apply replicate_add. Qed.
Lemma slice_full {A} (l : list A) n : length l = n → slice 0 n l = l.
Proof. intros <-. unfold slice. rewrite drop_0. by apply take_ge. Qed.
Lemma put_split {A} (l w : list A) off :
  (off + length w ≤ length l)%nat →
  l = take off l ++ slice off (length w) l ++ drop (off + length w) l.
Proof.
  intros. unfold slice. rewrite <-drop_drop, take_drop. by rewrite take_drop.
Qed.

(** ** Decimal text *)

Definition is_ascii_digit (b : byte) : bool := bool_decide (48 ≤ byte_to_Z b ≤ 57).
(** [u64::to_string]: 20 digits are enough. *)
Fixpoint dec_digits (fuel : nat) (z : Z) (acc : bytes) : bytes :=
  match fuel with
  | O => acc
  | S fuel =>
      let acc := byte_of_Z (48 + z mod 10) :: acc in
      if decide (z < 10) then acc else dec_digits fuel (z / 10) acc
  end.
Definition to_string (z : Z) : bytes := dec_digits 20 z [].
Fixpoint digits_value (acc : Z) (b : bytes) : Z :=
  match b with [] => acc | x :: b => digits_value (acc * 10 + (byte_to_Z x - 48)) b end.
(** [str::parse::<u64>]: a plus sign may precede the digits. *)
Definition parse_u64 (b : bytes) : option Z :=
  let d := match b with x2b :: (_ :: _) as d => tail d | _ => b end in
  if bool_decide (d ≠ []) && forallb is_ascii_digit d
  then let v := digits_value 0 d in if decide (v ≤ u64_max) then Some v else None
  else None.

Lemma digits_value_app a b : ∀ acc, digits_value acc (a ++ b) = digits_value (digits_value acc a) b.
Proof. induction a as [|x a IH]; intros acc; cbn; [done|]. by rewrite IH. Qed.
Lemma digits_value_acc b : ∀ acc, digits_value acc b = acc * 10 ^ Z.of_nat (length b) + digits_value 0 b.
Proof.
  induction b as [|x b IH]; intros acc; cbn [digits_value length]; [cbn; lia|].
  rewrite IH, (IH (0 * 10 + _)), Nat2Z.inj_succ, Z.pow_succ_r by lia. lia.
Qed.
Lemma digits_value_bounds b : forallb is_ascii_digit b = true → 0 ≤ digits_value 0 b < 10 ^ Z.of_nat (length b).
Proof.
  induction b as [|x b IH]; cbn [forallb digits_value length]; [cbn; lia|].
  intros [Hx%bool_decide_eq_true Hb]%andb_true_iff. specialize (IH Hb). rewrite digits_value_acc.
  rewrite Nat2Z.inj_succ, Z.pow_succ_r by lia. nia.
Qed.
Lemma digit_byte z : 0 ≤ z < 10 → byte_to_Z (byte_of_Z (48 + z)) = 48 + z.
Proof. intros. rewrite byte_to_of_Z. apply Z.mod_small. lia. Qed.
Lemma digits_spec fuel : ∀ z acc, 0 ≤ z < 10 ^ Z.of_nat fuel → (0 < fuel)%nat →
  ∃ d, dec_digits fuel z acc = d ++ acc ∧ d ≠ [] ∧ forallb is_ascii_digit d = true ∧ digits_value 0 d = z.
Proof.
  induction fuel as [|fuel IH]; intros z acc Hz Hf; [lia|]. cbn [dec_digits].
  set (x := byte_of_Z (48 + z mod 10)). pose proof (Z.mod_pos_bound z 10 ltac:(lia)) as Hm.
  assert (byte_to_Z x = 48 + z mod 10) as Hx by (by apply digit_byte).
  assert (is_ascii_digit x = true) as Hd by (apply bool_decide_eq_true; lia).
  case_decide as Hlt.
  - exists [x]. cbn. rewrite Hd, Hx. split_and!; [done|done|done|]. rewrite (Z.mod_small z) by lia. lia.
  - rewrite Nat2Z.inj_succ, Z.pow_succ_r in Hz by lia.
    destruct (IH (z / 10) (x :: acc)) as (d & -> & Hne & Hall & Hv).
    { split; [apply Z.div_pos; lia|]. apply Z.div_lt_upper_bound; lia. }
    { destruct fuel; [cbn in Hz; lia|lia]. }
    exists (d ++ [x]). rewrite <-app_assoc. split_and!; [done|by destruct d|by rewrite forallb_app, Hall; cbn; rewrite Hd|].
    rewrite digits_value_app, Hv. cbn. rewrite Hx. pose proof (Z.div_mod z 10). lia.
Qed.
Lemma parse_u64_digits d : d ≠ [] → forallb is_ascii_digit d = true →
  parse_u64 d = if decide (digits_value 0 d ≤ u64_max) then Some (digits_value 0 d) else None.
Proof.
  intros Hne Hall. unfold parse_u64.
  assert (match d with x2b :: (_ :: _) as d' => tail d' | _ => d end = d) as ->.
  { destruct d as [|x d]; [done|]. cbn in Hall. by destruct x. }
  by rewrite bool_decide_eq_true_2, Hall.
Qed.
(** Every [u64] is read back from its decimal digits. *)
Lemma parse_to_string z : is_u64 z → parse_u64 (to_string z) = Some z.
Proof.
  intros Hz. destruct (digits_spec 20 z []) as (d & Hd & Hne & Hall & Hv); [unfold in_width in Hz; cbn; lia|lia|].
  unfold to_string. rewrite Hd, app_nil_r, parse_u64_digits, Hv, decide_True by (unfold in_width, u64_max in *; done || lia). done.
Qed.
Lemma parse_u64_bound b v : parse_u64 b = Some v → is_u64 v.
Proof.
  unfold parse_u64. set (d := match b with x2b :: (_ :: _) as d => tail d | _ => b end). clearbody d.
  destruct (bool_decide (d ≠ []) && forallb is_ascii_digit d) eqn:Hd; [|done]. apply andb_true_iff in Hd as [_ Hd%digits_value_bounds].
  cbv zeta. case_decide; [|done]. intros [= <-]. unfold in_width, u64_max in *. lia.
Qed.
