(* ===== verification/Order.v ===== *)
(** * Comparators and sorting

    Rust's derived [Ord] instances as comparison functions with their laws,
    [sort_unstable_by] as a merge sort, and the fact that a list of distinct
    elements has exactly one sorted arrangement. *)

From Stdlib Require Import ZArith Lia Strings.Byte Sorting.Sorted.
From stdpp Require Import base tactics list sorting gmap.
From S2P Require Import Prelude.

#[local] Open Scope Z_scope.

(** A lawful [Ord]. *)
Class Ord {A} (cmp : A → A → comparison) : Prop := {
  ord_eq a b : cmp a b = Eq ↔ a = b;
  ord_antisym a b : cmp b a = CompOpp (cmp a b);
  ord_trans a b c : cmp a b = Lt → cmp b c = Lt → cmp a c = Lt;
}.

Definition cmp_on {A B} (f : A → B) (cmp : B → B → comparison) (a b : A) : comparison :=
  cmp (f a) (f b).
(** [a.cmp(b).then_with(...)] on pairs, the derived order of a struct. *)
Definition cmp_pair {A B} (c1 : A → A → comparison) (c2 : B → B → comparison)
    (p q : A * B) : comparison :=
  match c1 p.1 q.1 with Eq => c2 p.2 q.2 | c => c end.

#[export] Instance bytes_ord : Ord bytes_compare.
Proof.
  split.
  - apply bytes_compare_Eq.
  - apply bytes_compare_antisym.
  - apply bytes_lt_transitive.
Qed.
#[export] Instance Z_ord : Ord Z.compare.
Proof.
  split.
  - apply Z.compare_eq_iff.
  - apply Z.compare_antisym.
  - intros a b c. rewrite !Z.compare_lt_iff. lia.
Qed.
#[export] Instance pair_ord {A B} (c1 : A → A → comparison) (c2 : B → B → comparison) :
  Ord c1 → Ord c2 → Ord (cmp_pair c1 c2).
Proof.
  intros H1 H2. split; unfold cmp_pair.
  - intros [a b] [a' b']; cbn. destruct (c1 a a') eqn:E.
    + apply ord_eq in E as ->. rewrite ord_eq. naive_solver.
    + split; [done|]. intros [= -> _]. by rewrite (proj2 (ord_eq a' a')) in E.
    + split; [done|]. intros [= -> _]. by rewrite (proj2 (ord_eq a' a')) in E.
  - intros [a b] [a' b']; cbn. rewrite (ord_antisym a a'). destruct (c1 a a'); cbn; auto.
    apply ord_antisym.
  - intros [a b] [a' b'] [a'' b'']; cbn.
    destruct (c1 a a') eqn:E; [apply ord_eq in E as ->| |done].
    + destruct (c1 a' a''); eauto using ord_trans.
    + intros _. destruct (c1 a' a'') eqn:E'; [apply ord_eq in E' as ->; by rewrite E| |done].
      by rewrite (ord_trans _ _ _ E E').
Qed.
Lemma cmp_on_ord {A B} (f : A → B) (cmp : B → B → comparison) :
  Inj (=) (=) f → Ord cmp → Ord (cmp_on f cmp).
Proof.
  intros Hf Hc. split; unfold cmp_on.
  - intros a b. rewrite ord_eq. split; [apply Hf|by intros ->].
  - intros. apply ord_antisym.
  - intros. by eapply ord_trans.
Qed.

(** The derived order of [Vec]. *)
Fixpoint list_compare {A} (cmp : A → A → comparison) (a b : list A) : comparison :=
  match a, b with
  | [], [] => Eq
  | [], _ => Lt
  | _, [] => Gt
  | x :: a, y :: b => match cmp x y with Eq => list_compare cmp a b | c => c end
  end.
#[export] Instance list_ord {A} (cmp : A → A → comparison) : Ord cmp → Ord (list_compare cmp).
Proof.
  intros Hc. split.
  - intros a. induction a as [|x a IH]; intros [|y b]; cbn; try done.
    destruct (cmp x y) eqn:E.
    + apply ord_eq in E as ->. rewrite IH. split; [by intros ->|by intros [=]].
    + split; [done|]. intros [= -> _]. by rewrite (proj2 (ord_eq y y)) in E.
    + split; [done|]. intros [= -> _]. by rewrite (proj2 (ord_eq y y)) in E.
  - intros a. induction a as [|x a IH]; intros [|y b]; cbn; try done.
    rewrite (ord_antisym x y). destruct (cmp x y); cbn; [apply IH|done|done].
  - intros a. induction a as [|x a IH]; intros [|y b] [|z c]; cbn; try done.
    destruct (cmp x y) eqn:Hxy; [apply ord_eq in Hxy as ->| |done].
    + destruct (cmp y z); [|done|done]. apply IH.
    + intros _. destruct (cmp y z) eqn:Hyz; [apply ord_eq in Hyz as ->; by rewrite Hxy| |done].
      by rewrite (ord_trans _ _ _ Hxy Hyz).
Qed.

(** ** Sorting *)

Definition cmp_le {A} (cmp : A → A → comparison) (a b : A) : Prop := cmp a b ≠ Gt.
Definition cmp_lt {A} (cmp : A → A → comparison) (a b : A) : Prop := cmp a b = Lt.
#[export] Instance cmp_le_dec {A} (cmp : A → A → comparison) : RelDecision (cmp_le cmp).
Proof. intros a b. unfold cmp_le. destruct (cmp a b); [left|left|right]; congruence. Defined.

(** [sort_unstable_by]: on elements that compare distinct the result does not
    depend on the algorithm ([sort_by_unique]). *)
Definition sort_by {A} (cmp : A → A → comparison) (l : list A) : list A :=
  merge_sort (cmp_le cmp) l.

Section Sorting.
Context {A} (cmp : A → A → comparison) `{!Ord cmp}.

#[export] Instance cmp_le_total : Total (cmp_le cmp).
Proof.
  intros a b. unfold cmp_le. rewrite (ord_antisym (cmp:=cmp) a b). destruct (cmp a b); cbn; auto.
Qed.
#[export] Instance cmp_le_trans : Transitive (cmp_le cmp).
Proof.
  intros a b c. unfold cmp_le. destruct (cmp a b) eqn:E; [|intros _|done].
  - apply (ord_eq (cmp:=cmp)) in E as ->. done.
  - destruct (cmp b c) eqn:E'; [|intros _|done].
    + apply (ord_eq (cmp:=cmp)) in E' as ->. by rewrite E.
    + by rewrite (ord_trans (cmp:=cmp) _ _ _ E E').
Qed.
#[export] Instance cmp_le_antisymm : AntiSymm (=) (cmp_le cmp).
Proof.
  intros a b. unfold cmp_le. rewrite (ord_antisym (cmp:=cmp) a b). destruct (cmp a b) eqn:E; cbn; try done.
  intros. by apply (ord_eq (cmp:=cmp)).
Qed.

Lemma sort_by_perm l : sort_by cmp l ≡ₚ l.
Proof. apply merge_sort_Permutation. Qed.
Lemma sort_by_sorted l : StronglySorted (cmp_le cmp) (sort_by cmp l).
Proof. apply StronglySorted_merge_sort; apply _. Qed.
Lemma elem_of_sort_by x l : x ∈ sort_by cmp l ↔ x ∈ l.
Proof. by rewrite sort_by_perm. Qed.

(** Any sorted arrangement is the one [sort_by] returns. *)
Lemma sort_by_unique l k :
  StronglySorted (cmp_le cmp) k → k ≡ₚ l → sort_by cmp l = k.
Proof.
  intros Hk Hp. apply (StronglySorted_unique (cmp_le cmp)); [apply sort_by_sorted|done|].
  by rewrite sort_by_perm.
Qed.
Lemma sort_by_permutation l k : l ≡ₚ k → sort_by cmp l = sort_by cmp k.
Proof. intros Hp. apply sort_by_unique; [apply sort_by_sorted|]. by rewrite sort_by_perm. Qed.

Lemma sort_by_strict l : NoDup l → StronglySorted (cmp_lt cmp) (sort_by cmp l).
Proof.
  intros Hnd. assert (NoDup (sort_by cmp l)) as Hnd' by (by rewrite sort_by_perm).
  pose proof (sort_by_sorted l) as Hs. induction Hs as [|x k Hs IH Hx]; [constructor|].
  apply NoDup_cons in Hnd' as [Hnin Hnd']. constructor; [by apply IH|].
  apply List.Forall_forall. intros y Hy%list_elem_of_In.
  rewrite List.Forall_forall in Hx. specialize (Hx y (proj1 (list_elem_of_In _ _) Hy)).
  unfold cmp_le, cmp_lt in *. destruct (cmp x y) eqn:E; try done.
  apply (ord_eq (cmp:=cmp)) in E as ->. by destruct Hnin.
Qed.
End Sorting.

(** ** Sorting by a key *)

Section SortOn.
Context {A B} (f : A → B) (cmp : B → B → comparison) `{!Ord cmp}.

#[export] Instance cmp_on_le_total : Total (cmp_le (cmp_on f cmp)).
Proof. intros a b. apply (cmp_le_total cmp (f a) (f b)). Qed.
#[export] Instance cmp_on_le_trans : Transitive (cmp_le (cmp_on f cmp)).
Proof. intros a b c. apply (cmp_le_trans cmp (f a) (f b) (f c)). Qed.

Lemma sort_on_perm l : sort_by (cmp_on f cmp) l ≡ₚ l.
Proof. apply merge_sort_Permutation. Qed.
Lemma sort_on_sorted l : StronglySorted (cmp_le (cmp_on f cmp)) (sort_by (cmp_on f cmp) l).
Proof. apply StronglySorted_merge_sort; apply _. Qed.

(** Elements with distinct keys have one arrangement in key order. *)
Lemma sort_on_unique l k :
  NoDup (map f l) → StronglySorted (cmp_le (cmp_on f cmp)) k → k ≡ₚ l →
  sort_by (cmp_on f cmp) l = k.
Proof.
  intros Hnd Hk Hp. apply (StronglySorted_unique_strong (cmp_le (cmp_on f cmp)));
    [|apply sort_on_sorted|done|by rewrite sort_on_perm].
  intros x y Hx Hy Hxy Hyx.
  assert (f x = f y) as Hf by (by apply (cmp_le_antisymm cmp)).
  rewrite sort_on_perm in Hx. rewrite Hp in Hy.
  apply list_elem_of_lookup_1 in Hx as [i Hi], Hy as [j Hj].
  assert (i = j) as ->; [|congruence].
  eapply (NoDup_lookup (map f l)); [done|..]; rewrite list_lookup_fmap; [by rewrite Hi|].
  rewrite Hj. cbn. by rewrite Hf.
Qed.
End SortOn.

(** A map that preserves the order maps sorted lists to sorted lists. *)
Lemma StronglySorted_map {A B} (R : A → A → Prop) (S : B → B → Prop) (f : A → B) l :
  (∀ x y, x ∈ l → y ∈ l → R x y → S (f x) (f y)) → StronglySorted R l → StronglySorted S (map f l).
Proof.
  intros Hf Hs. induction Hs as [|x l Hs IH Hx]; [constructor|]. cbn. constructor.
  - apply IH. intros a b Ha Hb. apply Hf; by right.
  - rewrite List.Forall_forall in *. intros b Hb%list_elem_of_In.
    apply list_elem_of_fmap in Hb as (y & -> & Hy). apply Hf; [by left|by right|].
    apply Hx. by apply list_elem_of_In.
Qed.

(** Big-endian encodings compare as the numbers they encode. *)
Lemma bytes_compare_app a b a' b' :
  length a = length a' →
  bytes_compare (a ++ b) (a' ++ b') =
    match bytes_compare a a' with Eq => bytes_compare b b' | c => c end.
Proof.
  revert a'. induction a as [|x a IH]; intros [|y a'] Hl; try done.
  injection Hl as Hl. cbn. destruct (Z.compare _ _); try done. by apply IH.
Qed.
Lemma bytes_compare_be_decode a b :
  length a = length b → bytes_compare a b = Z.compare (be_decode a) (be_decode b).
Proof.
  revert b. induction a as [|x a IH]; intros [|y b] Hl; try done.
  injection Hl as Hl. cbn [bytes_compare]. rewrite !be_decode_cons, IH, Hl by done.
  pose proof (be_decode_range a) as Ha. pose proof (be_decode_range b) as Hb.
  unfold in_width in *. rewrite <-pow256 in *. rewrite Hl in Ha.
  destruct (Z.compare_spec (byte_to_Z x) (byte_to_Z y)) as [Hxy|Hxy|Hxy];
    destruct (Z.compare_spec (be_decode a) (be_decode b)); symmetry;
    first [apply Z.compare_eq_iff; nia|apply Z.compare_lt_iff; nia|apply Z.compare_gt_iff; nia].
Qed.
Lemma bytes_compare_be n a b :
  in_width (8 * Z.of_nat n) a → in_width (8 * Z.of_nat n) b →
  bytes_compare (be_encode n a) (be_encode n b) = Z.compare a b.
Proof.
  intros Ha Hb. rewrite bytes_compare_be_decode by (by rewrite !length_be_encode).
  by rewrite !be_decode_encode.
Qed.
