(* ===== verification/Crc.v ===== *)
(** * CRC-32C (Castagnoli), the checksum of every cold-store structure

    Models [Crc32c], [crc32c] and [crc32c_with_zeroed_field] of
    [reflink-forest-format/src/lib.rs] on 32-bit words, and shows what the
    record format relies on: the incremental checksum does not depend on how
    the input is split, and a corruption confined to four consecutive bytes is
    always detected. *)

From Stdlib Require Import ZArith Lia Strings.Byte.
From stdpp Require Import base tactics list.
From S2P Require Import Prelude.

#[local] Open Scope Z_scope.

Module Crc.

Definition POLY : Z := 0x82f63b78.

(** [u32::wrapping_sub]. *)
Definition wrapping_sub32 (a b : Z) : Z := (a - b) mod 2 ^ 32.

(** One iteration of the inner loop of [Crc32c::update]. *)
Definition crc_bit (c : Z) : Z :=
  Z.lxor (Z.shiftr c 1) (Z.land POLY (wrapping_sub32 0 (Z.land c 1))).

(** One iteration of its outer loop: fold a byte in, then eight bit steps. *)
Definition crc_byte (c : Z) (b : byte) : Z :=
  Nat.iter 8 crc_bit (Z.lxor c (byte_to_Z b)).

(** [Crc32c::new], [Crc32c::update], [Crc32c::finalize]; the state is the [u32]. *)
Definition new : Z := 2 ^ 32 - 1.
Definition update (c : Z) (bs : bytes) : Z := fold_left crc_byte bs c.
Definition finalize (c : Z) : Z := Z.lxor c (2 ^ 32 - 1).

Definition crc32c (bs : bytes) : Z := finalize (update new bs).

(** The checksum of [bs] with [len] bytes at [off] replaced by zero. *)
Definition crc32c_with_zeroed_field (bs : bytes) (off len : nat) : Z :=
  crc32c (put bs off (zeros len)).

(** The check value of the CRC catalogue, pinned by the unit test of the crate. *)
Example crc32c_known_vector :
  crc32c [x31; x32; x33; x34; x35; x36; x37; x38; x39] = 0xe3069283.
Proof. vm_compute. reflexivity. Qed.

Lemma crc_bit_odd c : crc_bit c = Z.lxor (Z.shiftr c 1) (if Z.odd c then POLY else 0).
Proof.
  unfold crc_bit. f_equal. change 1 with (Z.ones 1) at 1.
  rewrite Z.land_ones, Z.pow_1_r, Zmod_odd by lia. by destruct (Z.odd c).
Qed.

Lemma in_width_testbit w z :
  0 ≤ w → in_width w z ↔ 0 ≤ z ∧ ∀ i, w ≤ i → Z.testbit z i = false.
Proof.
  intros Hw. unfold in_width. split.
  - intros [H0 H1]. split; [done|]. intros i Hi.
    rewrite <-(Z.mod_small z (2 ^ w)) by lia. by apply Z.mod_pow2_bits_high.
  - intros [H0 Hi]. split; [done|].
    destruct (decide (z = 0)) as [->|]; [by apply Z.pow_pos_nonneg|].
    apply Z.log2_lt_pow2; [lia|]. apply Z.nle_gt. intros Hl.
    specialize (Hi _ Hl). rewrite Z.bit_log2 in Hi by lia. done.
Qed.

Lemma lxor_in_width w a b : 0 ≤ w → in_width w a → in_width w b → in_width w (Z.lxor a b).
Proof.
  intros Hw [Ha Ha']%in_width_testbit [Hb Hb']%in_width_testbit; try done.
  apply in_width_testbit; [done|]. split; [apply Z.lxor_nonneg; tauto|].
  intros i Hi. by rewrite Z.lxor_spec, Ha', Hb'.
Qed.
Lemma in_width_mono w w' z : 0 ≤ w ≤ w' → in_width w z → in_width w' z.
Proof.
  unfold in_width. intros. pose proof (Z.pow_le_mono_r 2 w w'). lia.
Qed.
Lemma byte_in_width w b : 8 ≤ w → in_width w (byte_to_Z b).
Proof. intros. apply (in_width_mono 8); [lia|]. apply byte_to_Z_range. Qed.

Lemma shiftr1_in_width w c : 0 < w → in_width w c → in_width (w - 1) (Z.shiftr c 1).
Proof.
  intros Hw Hc. unfold in_width in *. rewrite Z.shiftr_div_pow2, Z.pow_1_r by lia.
  replace w with (Z.succ (w - 1)) in Hc by lia. rewrite Z.pow_succ_r in Hc by lia.
  split; [apply Z.div_pos; lia|]. apply Z.div_lt_upper_bound; lia.
Qed.

Lemma crc_bit_range c : is_u32 c → is_u32 (crc_bit c).
Proof.
  intros Hc. rewrite crc_bit_odd. apply lxor_in_width; [done| |].
  - apply (in_width_mono 31); [done|]. by apply (shiftr1_in_width 32).
  - by destruct (Z.odd c).
Qed.

(** A bit step puts the bit it shifts out into bit 31, so it is invertible. *)
Lemma crc_bit_top c : is_u32 c → Z.testbit (crc_bit c) 31 = Z.odd c.
Proof.
  intros Hc. rewrite crc_bit_odd, Z.lxor_spec, Z.shiftr_spec by done.
  apply in_width_testbit in Hc as [_ Hc]; [|done].
  rewrite (Hc (31 + 1)) by done. by destruct (Z.odd c).
Qed.
Lemma crc_bit_inj c d : is_u32 c → is_u32 d → crc_bit c = crc_bit d → c = d.
Proof.
  intros Hc Hd Heq.
  assert (Z.odd c = Z.odd d) as Ho by (rewrite <-!crc_bit_top by done; by rewrite Heq).
  rewrite !crc_bit_odd, Ho in Heq.
  apply (f_equal (λ x, Z.lxor x (if Z.odd d then POLY else 0))) in Heq.
  rewrite !Z.lxor_assoc, !Z.lxor_nilpotent, !Z.lxor_0_r in Heq.
  rewrite (Z.div_mod c 2), (Z.div_mod d 2), !Zmod_odd, Ho by lia.
  rewrite !Z.shiftr_div_pow2, Z.pow_1_r in Heq by lia. lia.
Qed.

(** ** Linearity over [xor] *)

Lemma crc_bit_lxor c d : crc_bit (Z.lxor c d) = Z.lxor (crc_bit c) (crc_bit d).
Proof.
  rewrite !crc_bit_odd, Z.shiftr_lxor.
  assert (Z.odd (Z.lxor c d) = xorb (Z.odd c) (Z.odd d)) as ->
    by (rewrite <-!Z.bit0_odd; apply Z.lxor_spec).
  apply Z.bits_inj'. intros i Hi. rewrite !Z.lxor_spec.
  destruct (Z.odd c), (Z.odd d); cbn [xorb]; rewrite ?Z.testbit_0_l;
    destruct (Z.testbit _ i), (Z.testbit _ i); try destruct (Z.testbit POLY i); done.
Qed.

Lemma iter_lxor n c d :
  Nat.iter n crc_bit (Z.lxor c d) = Z.lxor (Nat.iter n crc_bit c) (Nat.iter n crc_bit d).
Proof. induction n as [|n IH]; [done|]. by rewrite !Nat.iter_succ, IH, crc_bit_lxor. Qed.
Lemma iter_range n c : is_u32 c → is_u32 (Nat.iter n crc_bit c).
Proof. intros. induction n; rewrite ?Nat.iter_succ; auto using crc_bit_range. Qed.
Lemma iter_inj n c d :
  is_u32 c → is_u32 d → Nat.iter n crc_bit c = Nat.iter n crc_bit d → c = d.
Proof.
  intros Hc Hd. induction n as [|n IH]; [done|].
  rewrite !Nat.iter_succ. intros H. apply IH, crc_bit_inj; auto using iter_range.
Qed.

(** Running [n] bit steps backwards from a word with [n] clear top bits is a shift. *)
Lemma crc_bit_shiftl r : 0 ≤ r → crc_bit (Z.shiftl r 1) = r.
Proof.
  intros. rewrite crc_bit_odd, Z.shiftr_shiftl_l, Z.shiftl_0_r by lia.
  rewrite <-Z.bit0_odd, Z.shiftl_spec_low by lia. apply Z.lxor_0_r.
Qed.
Lemma iter_shiftl n r : 0 ≤ r → Nat.iter n crc_bit (Z.shiftl r (Z.of_nat n)) = r.
Proof.
  revert r. induction n as [|n IH]; intros r Hr; [apply Z.shiftl_0_r|].
  rewrite Nat.iter_succ_r. replace (Z.of_nat (S n)) with (Z.of_nat n + 1) by lia.
  rewrite <-Z.shiftl_shiftl by lia.
  rewrite crc_bit_shiftl by (apply Z.shiftl_nonneg; lia). auto.
Qed.

(** ** The byte-level checksum *)

Lemma crc_byte_eq c b : crc_byte c b = Nat.iter 8 crc_bit (Z.lxor c (byte_to_Z b)).
Proof. reflexivity. Qed.
Lemma update_nil c : update c [] = c.
Proof. reflexivity. Qed.
Lemma update_cons c b bs : update c (b :: bs) = update (crc_byte c b) bs.
Proof. reflexivity. Qed.
#[global] Opaque crc_byte update.

Lemma crc_byte_range c b : is_u32 c → is_u32 (crc_byte c b).
Proof.
  intros. rewrite crc_byte_eq. apply (iter_range 8).
  apply lxor_in_width; [done|done|by apply byte_in_width].
Qed.
Lemma update_app c a b : update c (a ++ b) = update (update c a) b.
Proof.
  revert c. induction a as [|x a IH]; intros c; [by rewrite update_nil|].
  by rewrite <-app_comm_cons, !update_cons, IH.
Qed.
Lemma update_range c bs : is_u32 c → is_u32 (update c bs).
Proof.
  revert c. induction bs as [|b bs IH]; intros c Hc; [by rewrite update_nil|].
  rewrite update_cons. auto using crc_byte_range.
Qed.
Lemma new_range : is_u32 new.
Proof. done. Qed.
Lemma finalize_range c : is_u32 c → is_u32 (finalize c).
Proof. intros. by apply lxor_in_width. Qed.
Lemma crc32c_range bs : is_u32 (crc32c bs).
Proof. apply finalize_range, update_range, new_range. Qed.
Lemma finalize_inj c d : finalize c = finalize d → c = d.
Proof.
  unfold finalize. intros H.
  apply (f_equal (λ x, Z.lxor x (2 ^ 32 - 1))) in H.
  by rewrite !Z.lxor_assoc, !Z.lxor_nilpotent, !Z.lxor_0_r in H.
Qed.

Lemma crc_byte_inj c d b : is_u32 c → is_u32 d → crc_byte c b = crc_byte d b → c = d.
Proof.
  intros Hc Hd H. rewrite !crc_byte_eq in H. apply (iter_inj 8) in H.
  - apply (f_equal (λ x, Z.lxor x (byte_to_Z b))) in H.
    by rewrite !Z.lxor_assoc, !Z.lxor_nilpotent, !Z.lxor_0_r in H.
  - apply lxor_in_width; [done|done|by apply byte_in_width].
  - apply lxor_in_width; [done|done|by apply byte_in_width].
Qed.
Lemma update_inj c d bs : is_u32 c → is_u32 d → update c bs = update d bs → c = d.
Proof.
  revert c d. induction bs as [|b bs IH]; intros c d Hc Hd H; [by rewrite !update_nil in H|].
  rewrite !update_cons in H. apply IH in H; [|by apply crc_byte_range..]. by apply crc_byte_inj in H.
Qed.

(** *** Burst errors *)

(** The evolution of the difference of two runs, on the differences of their inputs. *)
Definition diff_update (ds : list Z) : Z :=
  fold_left (λ D d, Nat.iter 8 crc_bit (Z.lxor D d)) ds 0.

Lemma diff_update_snoc ds d :
  diff_update (ds ++ [d]) = Nat.iter 8 crc_bit (Z.lxor (diff_update ds) d).
Proof. unfold diff_update. by rewrite fold_left_app. Qed.

Lemma diff_update_range ds : Forall is_u8 ds → is_u32 (diff_update ds).
Proof.
  induction ds as [|d ds IH] using rev_ind; [done|].
  rewrite Forall_app, Forall_singleton. intros [Hds Hd]. rewrite diff_update_snoc.
  apply (iter_range 8), lxor_in_width; [done|by auto|by apply (in_width_mono 8)].
Qed.

Lemma diff_update_zero ds k :
  Forall is_u8 ds → (k + length ds ≤ 4)%nat →
  in_width (8 * Z.of_nat k) (diff_update ds) →
  Forall (λ d, d = 0) ds ∧ diff_update ds = 0.
Proof.
  revert k. induction ds as [|d ds IH] using rev_ind; intros k Hds Hk Hr; [done|].
  rewrite length_app in Hk; cbn in Hk.
  apply Forall_app in Hds as [Hds Hd]. rewrite Forall_singleton in Hd.
  rewrite diff_update_snoc in *.
  set (D := diff_update ds) in *. set (r := Nat.iter 8 crc_bit (Z.lxor D d)) in *.
  assert (in_width (8 * Z.of_nat (S k)) (Z.shiftl r 8)) as Hr8.
  { unfold in_width in *. rewrite Z.shiftl_mul_pow2 by lia.
    replace (8 * Z.of_nat (S k)) with (8 * Z.of_nat k + 8) by lia.
    rewrite Z.pow_add_r by lia. nia. }
  assert (is_u32 (Z.shiftl r 8)) by (apply (in_width_mono (8 * Z.of_nat (S k))); [lia|done]).
  assert (Z.lxor D d = Z.shiftl r 8) as Heq.
  { apply (iter_inj 8); [|done|].
    - apply lxor_in_width; [done|by apply diff_update_range|].
      apply (in_width_mono 8); [lia|done].
    - rewrite (iter_shiftl 8); [done|]. apply Hr. }
  assert (D = Z.lxor (Z.shiftl r 8) d) as HD.
  { by rewrite <-Heq, Z.lxor_assoc, Z.lxor_nilpotent, Z.lxor_0_r. }
  destruct (IH (S k)) as [Hz HDz]; [done|lia| |].
  { fold D. rewrite HD. apply lxor_in_width; [lia|done|].
    apply (in_width_mono 8); [lia|done]. }
  fold D in HDz. rewrite HDz, Z.lxor_0_l in Heq.
  assert (r = 0) as Hr0.
  { rewrite Z.shiftl_mul_pow2 in Heq by lia. destruct Hd. destruct Hr. nia. }
  rewrite Hr0, Z.shiftl_0_l in Heq. split; [|exact Hr0].
  apply Forall_app. by rewrite Forall_singleton.
Qed.

Definition byte_diff (a b : byte) : Z := Z.lxor (byte_to_Z a) (byte_to_Z b).

Lemma update_diff c v w :
  length v = length w →
  Z.lxor (update c v) (update c w) = diff_update (zip_with byte_diff v w).
Proof.
  revert w. induction v as [|x v IH] using rev_ind; intros w Hlen.
  - destruct w; [|done]. apply Z.lxor_nilpotent.
  - destruct w as [|y w _] using rev_ind; [rewrite length_app in Hlen; cbn in Hlen; lia|].
    rewrite !length_app in Hlen; cbn in Hlen.
    rewrite zip_with_app by lia. cbn [zip_with]. rewrite diff_update_snoc, <-IH by lia.
    rewrite !update_app, !update_cons, !update_nil.
    rewrite !crc_byte_eq, <-iter_lxor. f_equal.
    unfold byte_diff. apply Z.bits_inj'. intros i _. rewrite !Z.lxor_spec.
    destruct (Z.testbit _ i), (Z.testbit _ i), (Z.testbit _ i), (Z.testbit _ i); done.
Qed.

Lemma crc32c_burst_inj a v w b :
  length v = length w → (length v ≤ 4)%nat →
  crc32c (a ++ v ++ b) = crc32c (a ++ w ++ b) → v = w.
Proof.
  intros Hlen Hv H. apply finalize_inj in H. rewrite !update_app in H.
  apply update_inj in H; [|by auto using update_range, new_range..].
  set (c := update new a) in *.
  assert (diff_update (zip_with byte_diff v w) = 0) as Hd
    by (rewrite <-(update_diff c), H by done; apply Z.lxor_nilpotent).
  assert (Forall is_u8 (zip_with byte_diff v w)) as Hu8.
  { apply Forall_lookup. intros i d (x & y & Hd' & ? & ?)%lookup_zip_with_Some. subst d.
    apply lxor_in_width; [done|apply byte_to_Z_range..]. }
  assert (Forall (λ d, d = 0) (zip_with byte_diff v w)) as Hz.
  { apply (diff_update_zero _ 0); [done| |by rewrite Hd].
    rewrite length_zip_with. lia. }
  clear -Hz Hlen. revert w Hlen Hz. induction v as [|x v IH]; intros [|y w] Hlen Hz; try done.
  cbn in Hz. apply Forall_cons in Hz as [Hxy Hz]. f_equal; [|by apply IH; [injection Hlen|]].
  apply Z.lxor_eq in Hxy. by apply (inj byte_to_Z).
Qed.

End Crc.
