(* ===== verification/Core.v ===== *)
(** * Object identities: [reflink-forest-core/src/lib.rs]

    Object kinds, hash algorithms, native Git object IDs and the internal
    [ContentId]. The SHA-1 and SHA-256 implementations are third-party crates:
    they are the [Digests] interface, functions from the hashed byte string to
    a digest of fixed length. *)

From Stdlib Require Import ZArith Lia Strings.Byte.
From stdpp Require Import base tactics list gmap countable.
From S2P Require Import Prelude.

#[local] Open Scope Z_scope.

Module Core.

(** ** Tags *)

Inductive ObjectKind := Commit | Tree | Blob | Tag.
#[export] Instance ObjectKind_eq_dec : EqDecision ObjectKind.
Proof. solve_decision. Defined.

Definition kind_tag (k : ObjectKind) : Z :=
  match k with Commit => 1 | Tree => 2 | Blob => 3 | Tag => 4 end.
Definition kind_from_tag (t : Z) : option ObjectKind :=
  match t with
  | 1 => Some Commit | 2 => Some Tree | 3 => Some Blob | 4 => Some Tag
  | _ => None
  end.

Inductive HashAlgorithm := Sha1 | Sha256.
#[export] Instance HashAlgorithm_eq_dec : EqDecision HashAlgorithm.
Proof. solve_decision. Defined.

Definition alg_tag (a : HashAlgorithm) : Z :=
  match a with Sha1 => 1 | Sha256 => 2 end.
Definition oid_len (a : HashAlgorithm) : Z :=
  match a with Sha1 => 20 | Sha256 => 32 end.
Definition alg_from_tag (t : Z) : option HashAlgorithm :=
  match t with 1 => Some Sha1 | 2 => Some Sha256 | _ => None end.

Lemma kind_from_to_tag k : kind_from_tag (kind_tag k) = Some k.
Proof. by destruct k. Qed.
Lemma kind_from_tag_inv t k : kind_from_tag t = Some k → t = kind_tag k.
Proof. unfold kind_from_tag. intros. repeat case_match; naive_solver. Qed.
Lemma kind_tag_u8 k : is_u8 (kind_tag k).
Proof. by destruct k. Qed.
Lemma alg_from_to_tag a : alg_from_tag (alg_tag a) = Some a.
Proof. by destruct a. Qed.
Lemma alg_from_tag_inv t a : alg_from_tag t = Some a → t = alg_tag a.
Proof. unfold alg_from_tag. intros. repeat case_match; naive_solver. Qed.
Lemma alg_tag_u8 a : is_u8 (alg_tag a).
Proof. by destruct a. Qed.
Lemma oid_len_bounds a : 20 ≤ oid_len a ≤ 32.
Proof. by destruct a. Qed.
#[export] Instance kind_tag_inj : Inj (=) (=) kind_tag.
Proof. by intros [] []. Qed.
#[export] Instance alg_tag_inj : Inj (=) (=) alg_tag.
Proof. by intros [] []. Qed.

#[export] Instance HashAlgorithm_countable : Countable HashAlgorithm :=
  inj_countable alg_tag alg_from_tag alg_from_to_tag.

(** ** Native Git object IDs *)

Record InvalidGitOidLength := { bad_algorithm : HashAlgorithm; bad_actual : Z }.

(** The fields are private in the source; [GitOid_new] is the only constructor
    and establishes [GitOid_wf]. *)
Record GitOid := mkGitOid { algorithm : HashAlgorithm; len : Z; raw : bytes }.
#[export] Instance GitOid_eq_dec : EqDecision GitOid.
Proof. solve_decision. Defined.
#[export] Instance GitOid_countable : Countable GitOid.
Proof.
  refine (inj_countable' (λ o, (algorithm o, len o, raw o))
            (λ '(a, l, r), mkGitOid a l r) _).
  by intros [].
Defined.

Definition GitOid_new (a : HashAlgorithm) (oid : bytes) : result InvalidGitOidLength GitOid :=
  if decide (Z.of_nat (length oid) ≠ oid_len a) then
    Err {| bad_algorithm := a; bad_actual := Z.of_nat (length oid) |}
  else Ok {| algorithm := a; len := oid_len a; raw := put (zeros 32) 0 oid |}.

Definition oid_as_bytes (o : GitOid) : bytes := take (Z.to_nat (len o)) (raw o).

(** [GitOid::encode_canonical]. *)
Definition encode_canonical (o : GitOid) : bytes :=
  byte_of_Z (alg_tag (algorithm o)) :: byte_of_Z (len o) :: oid_as_bytes o.

(** The invariant of the type: length per algorithm, unused tail zero. *)
Definition GitOid_wf (o : GitOid) : Prop :=
  len o = oid_len (algorithm o) ∧ length (raw o) = 32%nat ∧
  drop (Z.to_nat (len o)) (raw o) = zeros (32 - Z.to_nat (len o)).
#[export] Instance GitOid_wf_dec o : Decision (GitOid_wf o).
Proof. unfold GitOid_wf. apply _. Defined.

Lemma GitOid_new_wf a b o :
  GitOid_new a b = Ok o → GitOid_wf o ∧ algorithm o = a ∧ oid_as_bytes o = b.
Proof.
  unfold GitOid_new. case_decide as Hlen; [done|]. intros [= <-].
  pose proof (oid_len_bounds a).
  unfold GitOid_wf, oid_as_bytes, put, zeros. cbn [algorithm len raw Nat.add].
  rewrite take_0, app_nil_l, drop_replicate. replace (Z.to_nat (oid_len a)) with (length b) by lia.
  split_and!; try done.
  - rewrite length_app, length_replicate. lia.
  - by rewrite drop_app_length.
  - apply take_app_length.
Qed.

Lemma GitOid_new_ok a b :
  Z.of_nat (length b) = oid_len a → ∃ o, GitOid_new a b = Ok o.
Proof. intros H. unfold GitOid_new. rewrite decide_False by tauto. eauto. Qed.

Lemma length_oid_as_bytes o :
  GitOid_wf o → Z.of_nat (length (oid_as_bytes o)) = oid_len (algorithm o).
Proof.
  intros (Hl & Hr & _). pose proof (oid_len_bounds (algorithm o)).
  unfold oid_as_bytes. rewrite length_take. lia.
Qed.

Lemma GitOid_new_as_bytes o :
  GitOid_wf o → GitOid_new (algorithm o) (oid_as_bytes o) = Ok o.
Proof.
  intros Hwf. pose proof (length_oid_as_bytes o Hwf) as Hlen.
  destruct Hwf as (Hl & Hr & Ht). pose proof (oid_len_bounds (algorithm o)).
  unfold GitOid_new. rewrite decide_False by tauto.
  assert (put (zeros 32) 0 (oid_as_bytes o) = raw o) as ->.
  { unfold put, zeros. rewrite take_0, app_nil_l, drop_replicate. cbn [Nat.add].
    rewrite <-(take_drop (Z.to_nat (len o)) (raw o)), Ht. unfold zeros.
    fold (oid_as_bytes o). do 2 f_equal. lia. }
  rewrite <-Hl. by destruct o.
Qed.

Lemma GitOid_ext o o' :
  GitOid_wf o → GitOid_wf o' → algorithm o = algorithm o' →
  oid_as_bytes o = oid_as_bytes o' → o = o'.
Proof.
  intros H H' Ha Hb.
  apply GitOid_new_as_bytes in H, H'. rewrite Ha, Hb in H. congruence.
Qed.

(** ** Digests *)

Class Digests := {
  sha1 : bytes → bytes;
  sha256 : bytes → bytes;
  length_sha1 b : length (sha1 b) = 20%nat;
  length_sha256 b : length (sha256 b) = 32%nat;
}.

(** A digest that keeps the last bytes of its input: the interface is inhabited. *)
Definition fold_digest (n : nat) (b : bytes) : bytes := take n (rev b ++ zeros n).
Lemma length_fold_digest n b : length (fold_digest n b) = n.
Proof. unfold fold_digest. rewrite length_take, length_app, length_zeros. lia. Qed.
Definition toy_digests : Digests := {|
  sha1 := fold_digest 20; sha256 := fold_digest 32;
  length_sha1 := length_fold_digest 20; length_sha256 := length_fold_digest 32;
|}.

Definition git_object_kind_name (k : ObjectKind) : bytes :=
  match k with
  | Commit => [x63; x6f; x6d; x6d; x69; x74]
  | Tree => [x74; x72; x65; x65]
  | Blob => [x62; x6c; x6f; x62]
  | Tag => [x74; x61; x67]
  end.

Definition git_object_header (k : ObjectKind) (raw_length : Z) : bytes :=
  git_object_kind_name k ++ [x20] ++ to_string raw_length ++ [x00].

Definition CONTENT_ID_DOMAIN : bytes :=
  [x72; x65; x66; x6c; x69; x6e; x6b; x2d; x66; x6f; x72; x65; x73; x74; x2d;
   x6f; x62; x6a; x65; x63; x74; x2d; x76; x31; x00].

Record ContentId := mkContentId { cid_bytes : bytes }.
#[export] Instance ContentId_eq_dec : EqDecision ContentId.
Proof. solve_decision. Defined.
#[export] Instance ContentId_countable : Countable ContentId.
Proof. refine (inj_countable' cid_bytes mkContentId _). by intros []. Defined.
(** [[u8; 32]]. *)
Definition ContentId_wf (c : ContentId) : Prop := length (cid_bytes c) = 32%nat.

Section Hashing.
Context `{Digests}.

(** The incremental hashers keep the bytes fed so far; [finalize] hashes them. *)
Record GitOidHasher := { goh_algorithm : HashAlgorithm; goh_fed : bytes }.

Definition digest (a : HashAlgorithm) (b : bytes) : bytes :=
  match a with Sha1 => sha1 b | Sha256 => sha256 b end.

Definition GitOidHasher_new (a : HashAlgorithm) (k : ObjectKind) (raw_length : Z) : GitOidHasher :=
  {| goh_algorithm := a; goh_fed := git_object_header k raw_length |}.
(** [Write::write] of [GitOidHasher]: accepts every byte. *)
Definition GitOidHasher_write (h : GitOidHasher) (b : bytes) : GitOidHasher :=
  {| goh_algorithm := goh_algorithm h; goh_fed := goh_fed h ++ b |}.
Definition GitOidHasher_finish (h : GitOidHasher) : result InvalidGitOidLength GitOid :=
  GitOid_new (goh_algorithm h) (digest (goh_algorithm h) (goh_fed h)).

(** [GitOid::for_object]; the [expect] of the source is the [Ok] of this result. *)
Definition GitOid_for_object (a : HashAlgorithm) (k : ObjectKind) (raw_payload : bytes)
    : result InvalidGitOidLength GitOid :=
  let header := git_object_kind_name k ++ [x20] ++
                to_string (Z.of_nat (length raw_payload)) ++ [x00] in
  match a with
  | Sha1 => GitOid_new Sha1 (sha1 (header ++ raw_payload))
  | Sha256 => GitOid_new Sha256 (sha256 (header ++ raw_payload))
  end.

(** [ContentHasher]. *)
Definition ContentHasher_new (k : ObjectKind) (raw_length : Z) : bytes :=
  CONTENT_ID_DOMAIN ++ [byte_of_Z (kind_tag k)] ++ be_encode 8 raw_length.
Definition ContentHasher_update (fed : bytes) (b : bytes) : bytes := fed ++ b.
Definition ContentHasher_finalize (fed : bytes) : ContentId := mkContentId (sha256 fed).

Definition ContentId_for_object (k : ObjectKind) (raw_payload : bytes) : ContentId :=
  ContentHasher_finalize
    (ContentHasher_update (ContentHasher_new k (Z.of_nat (length raw_payload))) raw_payload).

Lemma length_digest a b : Z.of_nat (length (digest a b)) = oid_len a.
Proof. destruct a; cbn; rewrite ?length_sha1, ?length_sha256; done. Qed.

Lemma GitOid_for_object_digest a k p :
  GitOid_for_object a k p =
    GitOid_new a (digest a (git_object_header k (Z.of_nat (length p)) ++ p)).
Proof. unfold GitOid_for_object, git_object_header. by destruct a. Qed.

(** The [expect]s of [GitOid::for_object] never fire, and its result is a
    well-formed ID of the requested algorithm. *)
Lemma GitOid_for_object_ok a k p :
  ∃ o, GitOid_for_object a k p = Ok o ∧ GitOid_wf o ∧ algorithm o = a.
Proof.
  rewrite GitOid_for_object_digest.
  destruct (GitOid_new_ok a (digest a (git_object_header k (Z.of_nat (length p)) ++ p)))
    as [o Ho]; [apply length_digest|].
  exists o. split; [done|]. by apply GitOid_new_wf in Ho as (? & ? & _).
Qed.

Lemma GitOidHasher_writes h parts :
  fold_left GitOidHasher_write parts h =
    {| goh_algorithm := goh_algorithm h; goh_fed := goh_fed h ++ concat parts |}.
Proof.
  revert h. induction parts as [|p parts IH]; intros h; cbn.
  - destruct h; cbn. by rewrite app_nil_r.
  - rewrite IH. cbn. by rewrite app_assoc.
Qed.

Lemma ContentHasher_updates fed parts :
  fold_left ContentHasher_update parts fed = fed ++ concat parts.
Proof.
  revert fed. induction parts as [|p parts IH]; intros fed; cbn.
  - by rewrite app_nil_r.
  - by rewrite IH, app_assoc.
Qed.

Lemma ContentId_for_object_wf k p : ContentId_wf (ContentId_for_object k p).
Proof. unfold ContentId_wf. apply length_sha256. Qed.

End Hashing.

(** ** The hashed byte strings are unambiguous *)

Definition content_preimage (k : ObjectKind) (p : bytes) : bytes :=
  ContentHasher_update (ContentHasher_new k (Z.of_nat (length p))) p.

Lemma content_preimage_inj k p k' p' :
  content_preimage k p = content_preimage k' p' → k = k' ∧ p = p'.
Proof.
  unfold content_preimage, ContentHasher_update, ContentHasher_new.
  rewrite <-!app_assoc. intros H.
  apply app_inj_1 in H as [_ H]; [|done].
  apply app_inj_1 in H as [Hk H]; [|done].
  apply app_inj_1 in H as [_ H]; [|by rewrite !length_be_encode].
  split; [|done]. injection Hk as Hk. destruct k, k'; try done; vm_compute in Hk; done.
Qed.

(** No byte of a Git header before its terminator is NUL. *)
Lemma to_string_no_nul n : 0 ≤ n → Forall (λ b, b ≠ x00) (to_string n).
Proof.
  unfold to_string. generalize 20%nat. intros fuel Hn.
  assert (∀ acc, Forall (λ b, b ≠ x00) acc →
                 Forall (λ b, b ≠ x00) (dec_digits fuel n acc)) as Hacc; [|by apply Hacc].
  revert n Hn. induction fuel as [|fuel IH]; intros n Hn acc Hacc; cbn; [done|].
  pose proof (Z.mod_pos_bound n 10 ltac:(lia)).
  assert (byte_of_Z (48 + n mod 10) ≠ x00) as Hd.
  { intros Hd. apply (f_equal byte_to_Z) in Hd. rewrite byte_to_of_Z in Hd.
    rewrite Z.mod_small in Hd by lia. change (byte_to_Z x00) with 0 in Hd. lia. }
  case_decide; [by constructor|]. apply IH; [apply Z.div_pos; lia|]. by constructor.
Qed.

Lemma nul_split_inj (a b s t : bytes) :
  Forall (λ c, c ≠ x00) a → Forall (λ c, c ≠ x00) b →
  a ++ x00 :: s = b ++ x00 :: t → a = b ∧ s = t.
Proof.
  intros Ha. revert b. induction Ha as [|x a Hx Ha IH]; intros b Hb H.
  - destruct Hb as [|y b Hy Hb]; cbn in H; [by injection H as ->|].
    injection H as H1 H2. by destruct Hy.
  - destruct Hb as [|y b Hy Hb]; cbn in H; injection H as H1 H2; [by destruct Hx|].
    apply IH in H2 as [-> ->]; [|done]. by rewrite H1.
Qed.

Lemma git_header_preimage_inj k p k' p' :
  git_object_header k (Z.of_nat (length p)) ++ p =
  git_object_header k' (Z.of_nat (length p')) ++ p' → k = k' ∧ p = p'.
Proof.
  unfold git_object_header. intros H.
  assert (∀ k n s, 0 ≤ n →
    (git_object_kind_name k ++ [x20] ++ to_string n ++ [x00]) ++ s =
    (git_object_kind_name k ++ [x20] ++ to_string n) ++ x00 :: s) as Hs
    by (intros; by rewrite <-!app_assoc).
  rewrite !Hs in H by lia.
  assert (∀ k n, 0 ≤ n →
    Forall (λ c, c ≠ x00) (git_object_kind_name k ++ [x20] ++ to_string n)) as Hn.
  { intros k0 n Hn. apply Forall_app. split; [destruct k0; repeat constructor; done|].
    apply Forall_app. split; [by repeat constructor|by apply to_string_no_nul]. }
  apply nul_split_inj in H as [Hk Hp]; [|apply Hn; lia..].
  split; [|done]. destruct k, k'; try done; injection Hk; done.
Qed.

(** ** [file_allocation] *)

Record Metadata := { md_is_file : bool; md_len : Z; md_blocks : Z }.
Record FileAllocation := { logical_bytes : Z; allocated_bytes : Z }.
Inductive IoErrorKind := NotFound | AlreadyExists | InvalidInput | InvalidData
  | UnexpectedEof | WriteZero | OtherIo.
#[export] Instance IoErrorKind_eq_dec : EqDecision IoErrorKind.
Proof. solve_decision. Defined.

Definition file_allocation (metadata : result IoErrorKind Metadata)
    : result IoErrorKind FileAllocation :=
  m ← metadata;
  if negb (md_is_file m) then Err InvalidInput
  else Ok {| logical_bytes := md_len m;
             allocated_bytes := saturating_mul (md_blocks m) 512 |}.

End Core.
