(* ===== verification/Format.v ===== *)
(** * The v1 on-disk format: [reflink-forest-format/src/lib.rs]

    Chunk headers, sealed footers and object records as byte strings. Every
    encoder writes its fields into a zeroed buffer exactly as the source does;
    the layout lemmas show what buffer results. *)

From Stdlib Require Import ZArith Lia Strings.Byte.
From stdpp Require Import base tactics list gmap.
From S2P Require Import Prelude Crc Core.
Import Crc Core.

#[local] Open Scope Z_scope.

Module Format.

Definition FORMAT_VERSION : Z := 1.
Definition CHUNK_HEADER_LEN : Z := 64.
Definition SEALED_CHUNK_FOOTER_LEN : Z := 64.
Definition RECORD_HEADER_LEN : Z := 128.
Definition RECORD_FOOTER_LEN : Z := 20.
Definition RECORD_ALIGNMENT : Z := 8.
Definition CHUNK_MAGIC : bytes := [x52; x46; x53; x43; x48; x4e; x4b; x00].
Definition SEALED_CHUNK_FOOTER_MAGIC : bytes := [x52; x46; x53; x53; x45; x41; x4c; x00].
Definition RECORD_MAGIC : bytes := [x52; x4f; x42; x4a].
Definition RECORD_END_MAGIC : bytes := [x52; x45; x4e; x44; x4f; x42; x4a; x00].
Definition CHUNK_CRC_OFFSET : nat := 36.
Definition SEALED_CHUNK_FOOTER_CRC_OFFSET : nat := 32.
Definition RECORD_CRC_OFFSET : nat := 94.

Record ChunkHeader := mkChunkHeader {
  ch_generation : Z; ch_chunk_id : Z; ch_created_unix_secs : Z; ch_flags : Z }.
#[export] Instance ChunkHeader_eq_dec : EqDecision ChunkHeader.
Proof. solve_decision. Defined.

Record SealedChunkFooter := mkSealedChunkFooter {
  sf_record_count : Z; sf_final_length : Z; sf_records_crc32c : Z }.
#[export] Instance SealedChunkFooter_eq_dec : EqDecision SealedChunkFooter.
Proof. solve_decision. Defined.

Inductive Codec := Raw | Zstd.
#[export] Instance Codec_eq_dec : EqDecision Codec.
Proof. solve_decision. Defined.
Definition codec_tag (c : Codec) : Z := match c with Raw => 0 | Zstd => 1 end.
Definition codec_from_tag (t : Z) : option Codec :=
  match t with 0 => Some Raw | 1 => Some Zstd | _ => None end.
Lemma codec_from_to_tag c : codec_from_tag (codec_tag c) = Some c.
Proof. by destruct c. Qed.
Lemma codec_from_tag_inv t c : codec_from_tag t = Some c → t = codec_tag c.
Proof. unfold codec_from_tag. intros. repeat case_match; naive_solver. Qed.
Lemma codec_tag_u8 c : is_u8 (codec_tag c).
Proof. by destruct c. Qed.

Record ObjectRecord := mkObjectRecord {
  or_kind : ObjectKind; or_codec : Codec; or_flags : Z; or_raw_length : Z;
  or_content_id : ContentId; or_primary_oid : GitOid; or_payload : bytes }.
#[export] Instance ObjectRecord_eq_dec : EqDecision ObjectRecord.
Proof. solve_decision. Defined.

Record RecordMetadata := mkRecordMetadata {
  rm_kind : ObjectKind; rm_codec : Codec; rm_flags : Z; rm_raw_length : Z;
  rm_stored_length : Z; rm_content_id : ContentId; rm_primary_oid : GitOid }.

Inductive FormatError :=
| Truncated | BadMagic | UnsupportedVersion (v : Z)
| InvalidHeaderLength (expected actual : Z)
| HeaderCrcMismatch | PayloadCrcMismatch | FooterMagicMismatch
| InvalidObjectKind (t : Z) | InvalidCodec (t : Z) | InvalidHashAlgorithm (t : Z)
| InvalidOidLength | InvalidRecordLength | NonZeroReserved | NonZeroPadding
| LengthOverflow.
#[export] Instance FormatError_eq_dec : EqDecision FormatError.
Proof. solve_decision. Defined.

(** [slice.len()] as the integer the source computes with. *)
Definition len (b : bytes) : Z := Z.of_nat (length b).

Definition check_version (v : Z) : result FormatError unit :=
  if decide (v = FORMAT_VERSION) then Ok () else Err (UnsupportedVersion v).
Definition check_header_len (actual expected : Z) : result FormatError unit :=
  if decide (actual = expected) then Ok () else Err (InvalidHeaderLength expected actual).

(** [align] and [align_u64] agree on a 64-bit target. *)
Definition align (value : Z) : result FormatError Z :=
  match checked_add value (RECORD_ALIGNMENT - 1) with
  | Some n => Ok (Z.land n (Z.lnot (RECORD_ALIGNMENT - 1)))
  | None => Err LengthOverflow
  end.

(** ** Chunk headers *)

Definition ChunkHeader_encode (h : ChunkHeader) : bytes :=
  let b := zeros 64 in
  let b := put b 0 CHUNK_MAGIC in
  let b := put_u16 b 8 FORMAT_VERSION in
  let b := put_u16 b 10 CHUNK_HEADER_LEN in
  let b := put_u32 b 12 (ch_generation h) in
  let b := put_u64 b 16 (ch_chunk_id h) in
  let b := put_u64 b 24 (ch_created_unix_secs h) in
  let b := put_u32 b 32 (ch_flags h) in
  let crc := crc32c_with_zeroed_field b CHUNK_CRC_OFFSET 4 in
  put_u32 b CHUNK_CRC_OFFSET crc.

Definition ChunkHeader_decode (input : bytes) : result FormatError ChunkHeader :=
  _ ← ensure (bool_decide (CHUNK_HEADER_LEN ≤ len input)) Truncated;
  let b := take 64 input in
  _ ← ensure (bool_decide (take 8 b = CHUNK_MAGIC)) BadMagic;
  _ ← check_version (read_u16 b 8);
  _ ← check_header_len (read_u16 b 10) CHUNK_HEADER_LEN;
  _ ← ensure (bool_decide (read_u32 b CHUNK_CRC_OFFSET =
                           crc32c_with_zeroed_field b CHUNK_CRC_OFFSET 4)) HeaderCrcMismatch;
  _ ← ensure (all_zero (drop 40 b)) NonZeroReserved;
  Ok {| ch_generation := read_u32 b 12; ch_chunk_id := read_u64 b 16;
        ch_created_unix_secs := read_u64 b 24; ch_flags := read_u32 b 32 |}.

(** ** Sealed footers *)

Definition SealedChunkFooter_encode (f : SealedChunkFooter) : bytes :=
  let b := zeros 64 in
  let b := put b 0 SEALED_CHUNK_FOOTER_MAGIC in
  let b := put_u16 b 8 FORMAT_VERSION in
  let b := put_u16 b 10 SEALED_CHUNK_FOOTER_LEN in
  let b := put_u64 b 12 (sf_record_count f) in
  let b := put_u64 b 20 (sf_final_length f) in
  let b := put_u32 b 28 (sf_records_crc32c f) in
  let crc := crc32c_with_zeroed_field b SEALED_CHUNK_FOOTER_CRC_OFFSET 4 in
  put_u32 b SEALED_CHUNK_FOOTER_CRC_OFFSET crc.

Definition SealedChunkFooter_decode (input : bytes) : result FormatError SealedChunkFooter :=
  _ ← ensure (bool_decide (SEALED_CHUNK_FOOTER_LEN ≤ len input)) Truncated;
  let b := take 64 input in
  _ ← ensure (bool_decide (take 8 b = SEALED_CHUNK_FOOTER_MAGIC)) BadMagic;
  _ ← check_version (read_u16 b 8);
  _ ← check_header_len (read_u16 b 10) SEALED_CHUNK_FOOTER_LEN;
  _ ← ensure (bool_decide (read_u32 b SEALED_CHUNK_FOOTER_CRC_OFFSET =
                crc32c_with_zeroed_field b SEALED_CHUNK_FOOTER_CRC_OFFSET 4)) HeaderCrcMismatch;
  _ ← ensure (all_zero (drop 36 b)) NonZeroReserved;
  Ok {| sf_record_count := read_u64 b 12; sf_final_length := read_u64 b 20;
        sf_records_crc32c := read_u32 b 28 |}.

(** ** Object records *)

(** [encode_oid_fixed(oid, output)] for the 34-byte field [output]. *)
Definition encode_oid_fixed (o : GitOid) (output : bytes) : bytes :=
  let output := put output 0 [byte_of_Z (alg_tag (algorithm o))] in
  let output := put output 1 [byte_of_Z (Core.len o)] in
  put output 2 (oid_as_bytes o).

Definition decode_oid_fixed (b : bytes) : result FormatError GitOid :=
  a ← ok_or (alg_from_tag (index b 0)) (InvalidHashAlgorithm (index b 0));
  _ ← ensure (bool_decide (index b 1 = oid_len a) &&
              all_zero (drop (2 + Z.to_nat (index b 1)) b)) InvalidOidLength;
  map_err (λ _, InvalidOidLength) (GitOid_new a (slice 2 (Z.to_nat (index b 1)) b)).

(** [RECORD_HEADER_LEN + stored + RECORD_FOOTER_LEN] with overflow checks. *)
Definition record_total (stored : Z) : option Z :=
  n ← checked_add RECORD_HEADER_LEN stored; checked_add n RECORD_FOOTER_LEN.

Definition encode_record (r : ObjectRecord) : result FormatError bytes :=
  stored_length ← ok_or (u64_try_from (len (or_payload r))) LengthOverflow;
  total ← ok_or (record_total (len (or_payload r))) LengthOverflow;
  total_u64 ← ok_or (u64_try_from total) LengthOverflow;
  padded ← align total;
  let b := zeros (Z.to_nat padded) in
  let b := put b 0 RECORD_MAGIC in
  let b := put_u16 b 4 FORMAT_VERSION in
  let b := put_u16 b 6 RECORD_HEADER_LEN in
  let b := put b 8 [byte_of_Z (kind_tag (or_kind r))] in
  let b := put b 9 [byte_of_Z (codec_tag (or_codec r))] in
  let b := put_u16 b 10 (or_flags r) in
  let b := put_u64 b 12 (or_raw_length r) in
  let b := put_u64 b 20 stored_length in
  let b := put b 28 (cid_bytes (or_content_id r)) in
  let b := put b 60 (encode_oid_fixed (or_primary_oid r) (slice 60 34 b)) in
  let header_crc := crc32c_with_zeroed_field (take 128 b) RECORD_CRC_OFFSET 4 in
  let b := put_u32 b RECORD_CRC_OFFSET header_crc in
  let b := put b 128 (or_payload r) in
  let footer := (128 + length (or_payload r))%nat in
  let b := put_u32 b footer (crc32c (or_payload r)) in
  let b := put_u64 b (footer + 4) total_u64 in
  let b := put b (footer + 12) RECORD_END_MAGIC in
  Ok b.

Definition decode_record_metadata (input : bytes) : result FormatError RecordMetadata :=
  _ ← ensure (bool_decide (RECORD_HEADER_LEN ≤ len input)) Truncated;
  let h := take 128 input in
  _ ← ensure (bool_decide (take 4 h = RECORD_MAGIC)) BadMagic;
  _ ← check_version (read_u16 h 4);
  _ ← check_header_len (read_u16 h 6) RECORD_HEADER_LEN;
  _ ← ensure (bool_decide (read_u32 h RECORD_CRC_OFFSET =
                           crc32c_with_zeroed_field h RECORD_CRC_OFFSET 4)) HeaderCrcMismatch;
  _ ← ensure (all_zero (drop 98 h)) NonZeroReserved;
  kind ← ok_or (kind_from_tag (index h 8)) (InvalidObjectKind (index h 8));
  codec ← ok_or (codec_from_tag (index h 9)) (InvalidCodec (index h 9));
  primary_oid ← decode_oid_fixed (slice 60 34 h);
  Ok {| rm_kind := kind; rm_codec := codec; rm_flags := read_u16 h 10;
        rm_raw_length := read_u64 h 12; rm_stored_length := read_u64 h 20;
        rm_content_id := mkContentId (slice 28 32 h); rm_primary_oid := primary_oid |}.

Definition decode_record (input : bytes) : result FormatError (ObjectRecord * Z) :=
  m ← decode_record_metadata input;
  stored ← ok_or (usize_try_from (rm_stored_length m)) LengthOverflow;
  total ← ok_or (record_total stored) LengthOverflow;
  total_footer ← ok_or (checked_sub total RECORD_FOOTER_LEN) LengthOverflow;
  _ ← ensure (bool_decide (total ≤ len input)) Truncated;
  total_u64 ← ok_or (u64_try_from total) LengthOverflow;
  _ ← ensure (bool_decide (read_u64 input (Z.to_nat total_footer + 4) = total_u64))
             InvalidRecordLength;
  _ ← ensure (bool_decide (slice (Z.to_nat total_footer + 12) 8 input = RECORD_END_MAGIC))
             FooterMagicMismatch;
  let payload := slice 128 (Z.to_nat stored) input in
  _ ← ensure (bool_decide (read_u32 input (Z.to_nat total_footer) = crc32c payload))
             PayloadCrcMismatch;
  consumed ← align total;
  _ ← ensure (bool_decide (consumed ≤ len input)) Truncated;
  _ ← ensure (all_zero (slice (Z.to_nat total) (Z.to_nat (consumed - total)) input))
             NonZeroPadding;
  Ok ({| or_kind := rm_kind m; or_codec := rm_codec m; or_flags := rm_flags m;
         or_raw_length := rm_raw_length m; or_content_id := rm_content_id m;
         or_primary_oid := rm_primary_oid m; or_payload := payload |}, consumed).

Definition encoded_record_len_from_header (input : bytes) : result FormatError Z :=
  m ← decode_record_metadata input;
  stored ← ok_or (usize_try_from (rm_stored_length m)) LengthOverflow;
  total ← ok_or (record_total stored) LengthOverflow;
  align total.

Definition encoded_record_len_from_metadata (m : RecordMetadata) : result FormatError Z :=
  total ← ok_or (record_total (rm_stored_length m)) LengthOverflow;
  align total.

Definition validate_record_footer (input : bytes) (payload_crc32c unpadded_record_length : Z)
    : result FormatError unit :=
  _ ← ensure (bool_decide (RECORD_FOOTER_LEN ≤ len input)) Truncated;
  let footer := take 20 input in
  _ ← ensure (bool_decide (read_u32 footer 0 = payload_crc32c)) PayloadCrcMismatch;
  _ ← ensure (bool_decide (read_u64 footer 4 = unpadded_record_length)) InvalidRecordLength;
  _ ← ensure (bool_decide (slice 12 8 footer = RECORD_END_MAGIC)) FooterMagicMismatch;
  Ok ().

End Format.
