(* ===== verification/FormatSpec.v ===== *)
(** * Properties of the v1 format

    Layout lemmas for the encoders, round trips, canonicity of the decoders
    (only the encoding of the decoded value is accepted) and the errors
    reported for damaged input. *)

From Stdlib Require Import ZArith Lia Strings.Byte.
From stdpp Require Import base tactics list gmap.
From S2P Require Import Prelude Crc Core Format.
Import Crc Core Format.

#[local] Open Scope Z_scope.

Module FormatSpec.

(** ** Chunk headers and sealed footers *)

(** The width invariants the Rust field types guarantee. *)
Definition header_wf (h : ChunkHeader) : Prop :=
  is_u32 (ch_generation h) ∧ is_u64 (ch_chunk_id h) ∧
  is_u64 (ch_created_unix_secs h) ∧ is_u32 (ch_flags h).
Definition footer_wf (f : SealedChunkFooter) : Prop :=
  is_u64 (sf_record_count f) ∧ is_u64 (sf_final_length f) ∧ is_u32 (sf_records_crc32c f).

Definition chunk_layout (h : ChunkHeader) (crc : Z) : bytes :=
  CHUNK_MAGIC ++ be_encode 2 FORMAT_VERSION ++ be_encode 2 CHUNK_HEADER_LEN ++
  be_encode 4 (ch_generation h) ++ be_encode 8 (ch_chunk_id h) ++
  be_encode 8 (ch_created_unix_secs h) ++ be_encode 4 (ch_flags h) ++
  be_encode 4 crc ++ zeros 24.

Definition footer_layout (f : SealedChunkFooter) (crc : Z) : bytes :=
  SEALED_CHUNK_FOOTER_MAGIC ++ be_encode 2 FORMAT_VERSION ++
  be_encode 2 SEALED_CHUNK_FOOTER_LEN ++ be_encode 8 (sf_record_count f) ++
  be_encode 8 (sf_final_length f) ++ be_encode 4 (sf_records_crc32c f) ++
  be_encode 4 crc ++ zeros 28.

Lemma length_chunk_layout h c : length (chunk_layout h c) = 64%nat.
Proof. reflexivity. Qed.
Lemma length_footer_layout f c : length (footer_layout f c) = 64%nat.
Proof. reflexivity. Qed.

Lemma chunk_layout_zeroed h c : put (chunk_layout h c) CHUNK_CRC_OFFSET (zeros 4) = chunk_layout h 0.
Proof. reflexivity. Qed.
Lemma footer_layout_zeroed f c :
  put (footer_layout f c) SEALED_CHUNK_FOOTER_CRC_OFFSET (zeros 4) = footer_layout f 0.
Proof. reflexivity. Qed.
Lemma chunk_layout_crc h c c' : put_u32 (chunk_layout h c) CHUNK_CRC_OFFSET c' = chunk_layout h c'.
Proof. reflexivity. Qed.
Lemma footer_layout_crc f c c' :
  put_u32 (footer_layout f c) SEALED_CHUNK_FOOTER_CRC_OFFSET c' = footer_layout f c'.
Proof. reflexivity. Qed.

Lemma ChunkHeader_encode_layout h :
  ChunkHeader_encode h = chunk_layout h (crc32c (chunk_layout h 0)).
Proof.
  unfold ChunkHeader_encode.
  set (b := put_u32 _ 32 (ch_flags h)).
  assert (b = chunk_layout h 0) as -> by reflexivity.
  cbv zeta. unfold crc32c_with_zeroed_field.
  by rewrite chunk_layout_zeroed, chunk_layout_crc.
Qed.
Lemma SealedChunkFooter_encode_layout f :
  SealedChunkFooter_encode f = footer_layout f (crc32c (footer_layout f 0)).
Proof.
  unfold SealedChunkFooter_encode.
  set (b := put_u32 _ 28 (sf_records_crc32c f)).
  assert (b = footer_layout f 0) as -> by reflexivity.
  cbv zeta. unfold crc32c_with_zeroed_field.
  by rewrite footer_layout_zeroed, footer_layout_crc.
Qed.

Lemma length_ChunkHeader_encode h : length (ChunkHeader_encode h) = 64%nat.
Proof. by rewrite ChunkHeader_encode_layout. Qed.
Lemma length_SealedChunkFooter_encode f : length (SealedChunkFooter_encode f) = 64%nat.
Proof. by rewrite SealedChunkFooter_encode_layout. Qed.

(** Decoding a laid-out header with any stored checksum: only the checksum decides. *)
Lemma ChunkHeader_decode_layout h c rest :
  header_wf h → is_u32 c →
  ChunkHeader_decode (chunk_layout h c ++ rest) =
    if decide (c = crc32c (chunk_layout h 0)) then Ok h else Err HeaderCrcMismatch.
Proof.
  intros (Hg & Hi & Hc & Hf) Hcrc. unfold ChunkHeader_decode.
  rewrite bind_ensure_decide
    by (unfold len, CHUNK_HEADER_LEN; rewrite length_app, length_chunk_layout; lia).
  rewrite (take_app_length' (chunk_layout h c)) by reflexivity.
  unfold crc32c_with_zeroed_field. rewrite chunk_layout_zeroed.
  generalize (crc32c (chunk_layout h 0)). intros crc.
  rewrite (read_be_of_slice 4 (chunk_layout h c) CHUNK_CRC_OFFSET c) by done.
  rewrite (read_be_of_slice 4 (chunk_layout h c) 12 (ch_generation h)) by done.
  rewrite (read_be_of_slice 8 (chunk_layout h c) 16 (ch_chunk_id h)) by done.
  rewrite (read_be_of_slice 8 (chunk_layout h c) 24 (ch_created_unix_secs h)) by done.
  rewrite (read_be_of_slice 4 (chunk_layout h c) 32 (ch_flags h)) by done.
  rewrite (read_be_of_slice 2 (chunk_layout h c) 8 FORMAT_VERSION) by done.
  rewrite (read_be_of_slice 2 (chunk_layout h c) 10 CHUNK_HEADER_LEN) by done.
  rewrite bind_ensure_decide by done.
  change (drop 40 (chunk_layout h c)) with (zeros 24).
  case_decide as Heq.
  - rewrite (bool_decide_eq_true_2 (c = crc)) by done.
    by destruct h.
  - by rewrite (bool_decide_eq_false_2 (c = crc)).
Qed.

Lemma SealedChunkFooter_decode_layout f c rest :
  footer_wf f → is_u32 c →
  SealedChunkFooter_decode (footer_layout f c ++ rest) =
    if decide (c = crc32c (footer_layout f 0)) then Ok f else Err HeaderCrcMismatch.
Proof.
  intros (Hn & Hl & Hr) Hcrc. unfold SealedChunkFooter_decode.
  rewrite bind_ensure_decide
    by (unfold len, SEALED_CHUNK_FOOTER_LEN; rewrite length_app, length_footer_layout; lia).
  rewrite (take_app_length' (footer_layout f c)) by reflexivity.
  unfold crc32c_with_zeroed_field. rewrite footer_layout_zeroed.
  generalize (crc32c (footer_layout f 0)). intros crc.
  rewrite (read_be_of_slice 4 (footer_layout f c) SEALED_CHUNK_FOOTER_CRC_OFFSET c) by done.
  rewrite (read_be_of_slice 8 (footer_layout f c) 12 (sf_record_count f)) by done.
  rewrite (read_be_of_slice 8 (footer_layout f c) 20 (sf_final_length f)) by done.
  rewrite (read_be_of_slice 4 (footer_layout f c) 28 (sf_records_crc32c f)) by done.
  rewrite (read_be_of_slice 2 (footer_layout f c) 8 FORMAT_VERSION) by done.
  rewrite (read_be_of_slice 2 (footer_layout f c) 10 SEALED_CHUNK_FOOTER_LEN) by done.
  rewrite bind_ensure_decide by done.
  change (drop 36 (footer_layout f c)) with (zeros 28).
  case_decide as Heq.
  - rewrite (bool_decide_eq_true_2 (c = crc)) by done.
    by destruct f.
  - by rewrite (bool_decide_eq_false_2 (c = crc)).
Qed.

Lemma ChunkHeader_decode_encode h rest :
  header_wf h → ChunkHeader_decode (ChunkHeader_encode h ++ rest) = Ok h.
Proof.
  intros Hh. rewrite ChunkHeader_encode_layout, ChunkHeader_decode_layout;
    [|done|apply crc32c_range]. by rewrite decide_True.
Qed.
Lemma SealedChunkFooter_decode_encode f rest :
  footer_wf f → SealedChunkFooter_decode (SealedChunkFooter_encode f ++ rest) = Ok f.
Proof.
  intros Hf. rewrite SealedChunkFooter_encode_layout, SealedChunkFooter_decode_layout;
    [|done|apply crc32c_range]. by rewrite decide_True.
Qed.


(** *** Canonicity: a decoder accepts nothing but the encoding of its result. *)

Lemma check_version_Ok v u : check_version v = Ok u → v = FORMAT_VERSION.
Proof. unfold check_version. by case_decide. Qed.
Lemma check_header_len_Ok a e u : check_header_len a e = Ok u → a = e.
Proof. unfold check_header_len. by case_decide. Qed.

Lemma ChunkHeader_decode_canonical b h :
  ChunkHeader_decode b = Ok h →
  header_wf h ∧ (64 ≤ length b)%nat ∧ take 64 b = ChunkHeader_encode h.
Proof.
  unfold ChunkHeader_decode. intros H. res_inv H. subst h.
  apply bool_decide_eq_true in Hr. unfold len, CHUNK_HEADER_LEN in Hr.
  assert (length (take 64 b) = 64%nat) as Hlen by (rewrite length_take; lia).
  split; [|split; [lia|]].
  { repeat split; apply read_be_range; rewrite Hlen; unfold CHUNK_CRC_OFFSET; lia. }
  set (l := take 64 b) in *. rewrite ChunkHeader_encode_layout.
  apply bool_decide_eq_true in Hr0. apply check_version_Ok in Hr1.
  apply check_header_len_Ok in Hr2. apply bool_decide_eq_true in Hr3.
  apply all_zero_spec in Hr4. rewrite length_drop, Hlen in Hr4.
  set (h := {| ch_generation := _ |}).
  assert (l = chunk_layout h (read_u32 l CHUNK_CRC_OFFSET)) as Hl.
  { rewrite <-(slice_full l 64) at 1 by done.
    change 64%nat with (8 + (2 + (2 + (4 + (8 + (8 + (4 + (4 + 24))))))))%nat at 1.
    rewrite !slice_split. cbn [Nat.add].
    rewrite <-take_slice, Hr0. rewrite (slice_of_read_be 2 l 8), (slice_of_read_be 2 l 10) by lia.
    rewrite Hr1, Hr2.
    rewrite (slice_of_read_be 4 l 12), (slice_of_read_be 8 l 16), (slice_of_read_be 8 l 24),
      (slice_of_read_be 4 l 32), (slice_of_read_be 4 l 36) by lia.
    rewrite <-(drop_slice_end 40 24 l), Hr4 by done. done. }
  rewrite Hl at 1. f_equal. rewrite Hr3. unfold crc32c_with_zeroed_field.
  rewrite Hl at 1. by rewrite chunk_layout_zeroed.
Qed.

Lemma SealedChunkFooter_decode_canonical b f :
  SealedChunkFooter_decode b = Ok f →
  footer_wf f ∧ (64 ≤ length b)%nat ∧ take 64 b = SealedChunkFooter_encode f.
Proof.
  unfold SealedChunkFooter_decode. intros H. res_inv H. subst f.
  apply bool_decide_eq_true in Hr. unfold len, SEALED_CHUNK_FOOTER_LEN in Hr.
  assert (length (take 64 b) = 64%nat) as Hlen by (rewrite length_take; lia).
  split; [|split; [lia|]].
  { repeat split; apply read_be_range; rewrite Hlen; lia. }
  set (l := take 64 b) in *. rewrite SealedChunkFooter_encode_layout.
  apply bool_decide_eq_true in Hr0. apply check_version_Ok in Hr1.
  apply check_header_len_Ok in Hr2. apply bool_decide_eq_true in Hr3.
  apply all_zero_spec in Hr4. rewrite length_drop, Hlen in Hr4.
  set (f := {| sf_record_count := _ |}).
  assert (l = footer_layout f (read_u32 l SEALED_CHUNK_FOOTER_CRC_OFFSET)) as Hl.
  { rewrite <-(slice_full l 64) at 1 by done.
    change 64%nat with (8 + (2 + (2 + (8 + (8 + (4 + (4 + 28)))))))%nat at 1.
    rewrite !slice_split. cbn [Nat.add].
    rewrite <-take_slice, Hr0. rewrite (slice_of_read_be 2 l 8), (slice_of_read_be 2 l 10) by lia.
    rewrite Hr1, Hr2.
    rewrite (slice_of_read_be 8 l 12), (slice_of_read_be 8 l 20), (slice_of_read_be 4 l 28),
      (slice_of_read_be 4 l 32) by lia.
    rewrite <-(drop_slice_end 36 28 l), Hr4 by done. done. }
  rewrite Hl at 1. f_equal. rewrite Hr3. unfold crc32c_with_zeroed_field.
  rewrite Hl at 1. by rewrite footer_layout_zeroed.
Qed.

(** *** Damage confined to four bytes is reported as a checksum mismatch. *)

Lemma crc32c_put_detects l off w :
  (off + length w ≤ length l)%nat → (length w ≤ 4)%nat →
  crc32c (put l off w) = crc32c l → w = slice off (length w) l.
Proof.
  intros Hl Hw H. rewrite (put_split l w off Hl) in H at 2. unfold put in H.
  apply crc32c_burst_inj in H; [done| |done]. by rewrite length_slice.
Qed.

Lemma ChunkHeader_decode_damaged h off w :
  header_wf h → (length w ≤ 4)%nat → (12 ≤ off)%nat →
  (off + length w ≤ 36 ∨ 40 ≤ off ∧ off + length w ≤ 64)%nat →
  w ≠ slice off (length w) (ChunkHeader_encode h) →
  ChunkHeader_decode (put (ChunkHeader_encode h) off w) = Err HeaderCrcMismatch.
Proof.
  intros Hh Hw Hoff Hrange Hne.
  pose proof (length_ChunkHeader_encode h) as Hlen.
  rewrite ChunkHeader_encode_layout in *. set (c := crc32c (chunk_layout h 0)) in *.
  assert (is_u32 c) by apply crc32c_range. set (l := chunk_layout h c) in *.
  assert (length (put l off w) = 64%nat) as Hlen' by (rewrite length_put; lia).
  unfold ChunkHeader_decode.
  rewrite bind_ensure_decide by (unfold len, CHUNK_HEADER_LEN; lia).
  rewrite (take_ge (put l off w)) by lia.
  rewrite bind_ensure_decide by (rewrite take_slice, slice_put_before by lia; reflexivity).
  unfold read_be.
  rewrite (slice_put_before l w off 8 2), (slice_put_before l w off 10 2) by lia.
  change (be_decode (slice 8 2 l)) with FORMAT_VERSION.
  change (be_decode (slice 10 2 l)) with CHUNK_HEADER_LEN.
  change (check_version _) with (@Ok FormatError unit ()). rewrite bind_Ok.
  change (check_header_len _ _) with (@Ok FormatError unit ()). rewrite bind_Ok. apply bind_ensure_fail. intros Hcrc.
  assert (slice CHUNK_CRC_OFFSET 4 (put l off w) = be_encode 4 c) as Hs.
  { unfold CHUNK_CRC_OFFSET. destruct Hrange.
    - by rewrite slice_put_after by lia.
    - by rewrite slice_put_before by lia. }
  rewrite Hs, be_decode_encode in Hcrc by done. unfold crc32c_with_zeroed_field in Hcrc.
  assert (put (put l off w) CHUNK_CRC_OFFSET (zeros 4) = put (chunk_layout h 0) off w) as Hp.
  { unfold CHUNK_CRC_OFFSET. destruct Hrange.
    - by rewrite put_comm by (rewrite ?length_zeros; lia).
    - by rewrite <-put_comm by (rewrite ?length_zeros; lia). }
  rewrite Hp in Hcrc. symmetry in Hcrc.
  apply crc32c_put_detects in Hcrc; [|rewrite length_chunk_layout; lia|done].
  apply Hne. rewrite Hcrc at 1. rewrite <-(chunk_layout_zeroed h c). fold l.
  unfold CHUNK_CRC_OFFSET. destruct Hrange.
  - by rewrite slice_put_before by (rewrite ?length_zeros; lia).
  - by rewrite slice_put_after by (rewrite ?length_zeros; lia).
Qed.

(** * Claims *)

(** Chunk headers and sealed footers round trip, and their decoders accept
    canonical encodings only: [ChunkHeader::decode] and
    [SealedChunkFooter::decode] return [v] exactly on the byte strings that
    start with the encoding of the well-typed value [v]. *)
Theorem header_footer_decode_exact b :
  (∀ h, ChunkHeader_decode b = Ok h ↔
        header_wf h ∧ take 64 b = ChunkHeader_encode h) ∧
  (∀ f, SealedChunkFooter_decode b = Ok f ↔
        footer_wf f ∧ take 64 b = SealedChunkFooter_encode f).
Proof.
  split; intros v; (split; [|intros [Hwf Ht]]).
  - intros (? & ? & ?)%ChunkHeader_decode_canonical. done.
  - rewrite <-(take_drop 64 b), Ht. by apply ChunkHeader_decode_encode.
  - intros (? & ? & ?)%SealedChunkFooter_decode_canonical. done.
  - rewrite <-(take_drop 64 b), Ht. by apply SealedChunkFooter_decode_encode.
Qed.

(** Header damage is detected: overwriting up to four consecutive bytes of
    a chunk header's fields or reserved bytes with different bytes makes the
    decoder fail with [HeaderCrcMismatch]. *)
Theorem chunk_header_damage_detected h off w :
  header_wf h → (length w ≤ 4)%nat → (12 ≤ off)%nat →
  (off + length w ≤ 36 ∨ 40 ≤ off ∧ off + length w ≤ 64)%nat →
  w ≠ slice off (length w) (ChunkHeader_encode h) →
  ChunkHeader_decode (put (ChunkHeader_encode h) off w) = Err HeaderCrcMismatch.
Proof. apply ChunkHeader_decode_damaged. Qed.

Definition sample_header : ChunkHeader := mkChunkHeader 7 9 11 13.

Lemma chunk_header_damage_detected_witness :
  ChunkHeader_decode (put (ChunkHeader_encode sample_header) 12 [x01]) = Err HeaderCrcMismatch.
Proof.
  apply (chunk_header_damage_detected sample_header 12 [x01]).
  - repeat split; vm_compute; congruence.
  - cbn. lia.
  - lia.
  - left. cbn. lia.
  - vm_compute. discriminate.
Defined.

End FormatSpec.
