(* ===== verification/RecordSpec.v ===== *)
(** * Properties of the object-record encoding

    The layout written by [encode_record], the round trip through
    [decode_record], canonicity of the decoder, agreement of the length
    functions, and detection of damaged payload bytes. *)

From Stdlib Require Import ZArith Lia Strings.Byte.
From stdpp Require Import base tactics list gmap.
From S2P Require Import Prelude Crc Core Format FormatSpec.
Import Crc Core Format FormatSpec.

#[local] Open Scope Z_scope.

Module RecordSpec.

(** What the Rust types of [ObjectRecord] guarantee. *)
Definition record_wf (r : ObjectRecord) : Prop :=
  is_u16 (or_flags r) ∧ is_u64 (or_raw_length r) ∧
  ContentId_wf (or_content_id r) ∧ GitOid_wf (or_primary_oid r).
Definition metadata_wf (m : RecordMetadata) : Prop :=
  is_u16 (rm_flags m) ∧ is_u64 (rm_raw_length m) ∧ is_u64 (rm_stored_length m) ∧
  ContentId_wf (rm_content_id m) ∧ GitOid_wf (rm_primary_oid m).

(** The payload is short enough for the padded record length to fit [u64]
    (any Rust slice is: it holds at most [isize::MAX] bytes). *)
Definition fits (n : Z) : Prop := 0 ≤ n ∧ n + 155 ≤ u64_max.

Definition metadata_of (r : ObjectRecord) : RecordMetadata := {|
  rm_kind := or_kind r; rm_codec := or_codec r; rm_flags := or_flags r;
  rm_raw_length := or_raw_length r; rm_stored_length := len (or_payload r);
  rm_content_id := or_content_id r; rm_primary_oid := or_primary_oid r |}.

(** ** Lengths *)

Definition padded (total : Z) : Z := 8 * ((total + 7) / 8).
Definition record_size (stored : Z) : Z := padded (stored + 148).

Lemma padded_bounds t : 0 ≤ t → t ≤ padded t < t + 8.
Proof.
  intros. unfold padded. pose proof (Z.div_mod (t + 7) 8).
  pose proof (Z.mod_pos_bound (t + 7) 8). lia.
Qed.
Lemma align_padded t : 0 ≤ t → t + 7 ≤ u64_max → align t = Ok (padded t).
Proof.
  intros Ht Hmax. unfold align, RECORD_ALIGNMENT. rewrite checked_add_Some by lia.
  f_equal. change (Z.lnot (8 - 1)) with (Z.lnot (Z.ones 3)).
  rewrite <-Z.ldiff_land, Z.ldiff_ones_r by lia.
  rewrite Z.shiftl_mul_pow2, Z.shiftr_div_pow2 by lia. unfold padded.
  change (2 ^ 3) with 8. rewrite Z.mul_comm. reflexivity.
Qed.
Lemma align_Ok_inv t p : 0 ≤ t → align t = Ok p → t + 7 ≤ u64_max ∧ p = padded t.
Proof.
  intros Ht H. unfold align in H. destruct (checked_add _ _) as [n|] eqn:E; [|done].
  apply checked_add_inv in E as [-> Hm]. unfold RECORD_ALIGNMENT in *.
  assert (t + 7 ≤ u64_max) as Hm' by lia. split; [done|].
  pose proof (align_padded t Ht Hm') as Ha. unfold align, RECORD_ALIGNMENT in Ha.
  rewrite checked_add_Some in Ha by lia. congruence.
Qed.
Lemma record_total_Some n : fits n → record_total n = Some (n + 148).
Proof.
  intros [H0 H]. unfold record_total, RECORD_HEADER_LEN, RECORD_FOOTER_LEN.
  rewrite checked_add_Some by lia. cbn [mbind option_bind].
  rewrite checked_add_Some by lia. f_equal. lia.
Qed.
Lemma record_total_inv n t : record_total n = Some t → t = n + 148 ∧ t ≤ u64_max.
Proof.
  unfold record_total, RECORD_HEADER_LEN, RECORD_FOOTER_LEN. intros H.
  destruct (checked_add 128 n) as [k|] eqn:E1; cbn in H; [|done].
  apply checked_add_inv in E1, H. lia.
Qed.
Lemma record_size_bounds n : 0 ≤ n → n + 148 ≤ record_size n < n + 156.
Proof. intros. unfold record_size. pose proof (padded_bounds (n + 148)). lia. Qed.
Lemma record_size_aligned n : record_size n mod 8 = 0.
Proof. unfold record_size, padded. rewrite Z.mul_comm. apply Z.mod_mul. lia. Qed.

(** ** Layout *)

Definition meta_prefix (m : RecordMetadata) : bytes :=
  RECORD_MAGIC ++ be_encode 2 FORMAT_VERSION ++ be_encode 2 RECORD_HEADER_LEN ++
  [byte_of_Z (kind_tag (rm_kind m))] ++ [byte_of_Z (codec_tag (rm_codec m))] ++
  be_encode 2 (rm_flags m) ++ be_encode 8 (rm_raw_length m) ++
  be_encode 8 (rm_stored_length m) ++ cid_bytes (rm_content_id m) ++
  [byte_of_Z (alg_tag (algorithm (rm_primary_oid m)))] ++
  [byte_of_Z (Core.len (rm_primary_oid m))] ++ raw (rm_primary_oid m).
Definition meta_layout (m : RecordMetadata) (crc : Z) : bytes :=
  meta_prefix m ++ be_encode 4 crc ++ zeros 30.
Definition record_footer (p : bytes) : bytes :=
  be_encode 4 (crc32c p) ++ be_encode 8 (len p + 148) ++ RECORD_END_MAGIC.
Definition record_padding (p : bytes) : bytes :=
  zeros (Z.to_nat (record_size (len p) - (len p + 148))).
Definition meta_crc (m : RecordMetadata) : Z := crc32c (meta_layout m 0).
Definition record_layout (r : ObjectRecord) : bytes :=
  meta_layout (metadata_of r) (meta_crc (metadata_of r)) ++
  or_payload r ++ record_footer (or_payload r) ++ record_padding (or_payload r).

Lemma GitOid_wf_length o : GitOid_wf o → length (raw o) = 32%nat.
Proof. by intros (_ & ? & _). Qed.
Lemma length_meta_prefix m :
  ContentId_wf (rm_content_id m) → GitOid_wf (rm_primary_oid m) →
  length (meta_prefix m) = 94%nat.
Proof.
  intros Hc Ho%GitOid_wf_length. unfold ContentId_wf in Hc. unfold meta_prefix.
  autorewrite with len. cbn [length]. rewrite Hc, Ho. reflexivity.
Qed.
Lemma length_meta_layout m c :
  ContentId_wf (rm_content_id m) → GitOid_wf (rm_primary_oid m) →
  length (meta_layout m c) = 128%nat.
Proof.
  intros. unfold meta_layout. rewrite !length_app, length_meta_prefix by done. done.
Qed.
Lemma length_record_footer p : length (record_footer p) = 20%nat.
Proof. reflexivity. Qed.
Lemma length_record_layout r :
  record_wf r → Z.of_nat (length (record_layout r)) = record_size (len (or_payload r)).
Proof.
  intros (_ & _ & Hc & Ho). unfold record_layout, record_padding.
  rewrite !length_app, length_meta_layout, length_record_footer, length_zeros by done.
  pose proof (record_size_bounds (len (or_payload r)) ltac:(unfold len; lia)).
  unfold len in *. lia.
Qed.

Lemma encode_oid_fixed_zeros o :
  GitOid_wf o →
  encode_oid_fixed o (zeros 34) =
    [byte_of_Z (alg_tag (algorithm o))] ++ [byte_of_Z (Core.len o)] ++ raw o.
Proof.
  intros Hwf. pose proof (length_oid_as_bytes o Hwf) as Hl.
  destruct Hwf as (Hlen & Hraw & Htail). pose proof (oid_len_bounds (algorithm o)).
  unfold encode_oid_fixed. change (zeros 34) with ([] ++ zeros 34).
  rewrite (put_next []), put_next, put_next by (autorewrite with len; cbn [length]; lia).
  rewrite app_nil_l, <-!app_assoc. do 2 f_equal.
  rewrite <-(take_drop (Z.to_nat (Core.len o)) (raw o)), Htail. unfold oid_as_bytes.
  do 2 f_equal. unfold oid_as_bytes in Hl. cbn [length]. lia.
Qed.

(** The metadata header as the encoder leaves it before the checksum. *)
Definition header_buffer (r : ObjectRecord) (n : nat) : bytes :=
  let b := zeros n in
  let b := put b 0 RECORD_MAGIC in
  let b := put_u16 b 4 FORMAT_VERSION in
  let b := put_u16 b 6 RECORD_HEADER_LEN in
  let b := put b 8 [byte_of_Z (kind_tag (or_kind r))] in
  let b := put b 9 [byte_of_Z (codec_tag (or_codec r))] in
  let b := put_u16 b 10 (or_flags r) in
  let b := put_u64 b 12 (or_raw_length r) in
  let b := put_u64 b 20 (len (or_payload r)) in
  let b := put b 28 (cid_bytes (or_content_id r)) in
  put b 60 (encode_oid_fixed (or_primary_oid r) (slice 60 34 b)).

Lemma header_buffer_prefix r n :
  record_wf r → (94 ≤ n)%nat →
  header_buffer r n = meta_prefix (metadata_of r) ++ zeros (n - 94).
Proof.
  intros (_ & _ & Hc & Ho) Hn. unfold ContentId_wf in Hc.
  pose proof (GitOid_wf_length _ Ho) as Hr.
  unfold header_buffer, put_be. change (zeros n) with ([] ++ zeros n).
  rewrite (put_next []) by (cbn [length RECORD_MAGIC]; lia). rewrite app_nil_l.
  do 8 (rewrite put_next by (autorewrite with len; cbn [length RECORD_MAGIC]; lia)).
  set (A := RECORD_MAGIC) in *.
  assert (length A = 4%nat) as HA by done.
  rewrite slice_app_skip by (autorewrite with len; cbn [length]; lia).
  match goal with |- context [zeros ?k] =>
    replace (slice _ 34 (zeros k)) with (zeros 34) end; cycle 1.
  { unfold slice, zeros. rewrite drop_replicate, take_replicate. f_equal.
    autorewrite with len; cbn [length]; lia. }
  rewrite encode_oid_fixed_zeros by done.
  rewrite put_next by (autorewrite with len; cbn [length]; lia).
  match goal with |- _ ++ zeros ?k = _ => replace k with (n - 94)%nat
    by (autorewrite with len; cbn [length]; lia) end.
  unfold meta_prefix. cbn [rm_kind rm_codec rm_flags rm_raw_length rm_stored_length
      rm_content_id rm_primary_oid metadata_of]. fold A. by rewrite <-!app_assoc.
Qed.

Lemma meta_layout_zeroed m c :
  ContentId_wf (rm_content_id m) → GitOid_wf (rm_primary_oid m) →
  put (meta_layout m c) RECORD_CRC_OFFSET (zeros 4) = meta_layout m 0.
Proof.
  intros Hc Ho. unfold meta_layout, RECORD_CRC_OFFSET.
  rewrite put_app_r by (rewrite length_meta_prefix; done || lia).
  rewrite length_meta_prefix by done. reflexivity.
Qed.

Lemma encode_record_layout r :
  record_wf r → fits (len (or_payload r)) → encode_record r = Ok (record_layout r).
Proof.
  intros Hwf Hfit. pose proof Hfit as [Hf0 Hf1]. unfold encode_record.
  rewrite u64_try_from_Some by (unfold len in *; lia). cbn [ok_or]. rewrite bind_Ok.
  rewrite record_total_Some by done. cbn [ok_or]. rewrite bind_Ok.
  rewrite u64_try_from_Some by lia. cbn [ok_or]. rewrite bind_Ok.
  rewrite align_padded by lia. rewrite bind_Ok. fold (record_size (len (or_payload r))).
  pose proof (record_size_bounds _ Hf0) as Hsz.
  set (N := Z.to_nat (record_size (len (or_payload r)))).
  match goal with |- context [put ?b 60 (encode_oid_fixed _ (slice 60 34 ?b))] =>
    change (put b 60 (encode_oid_fixed (or_primary_oid r) (slice 60 34 b)))
      with (header_buffer r N) end.
  assert (Hlen : len (or_payload r) = Z.of_nat (length (or_payload r))) by done.
  rewrite header_buffer_prefix by (done || lia). cbv zeta.
  pose proof Hwf as (_ & _ & Hc & Ho). set (m := metadata_of r) in *.
  assert (length (meta_prefix m) = 94%nat) as Hp by by apply length_meta_prefix.
  assert (take 128 (meta_prefix m ++ zeros (N - 94)) = meta_layout m 0) as ->.
  { rewrite take_app_ge, Hp by lia. unfold zeros. rewrite take_replicate.
    unfold meta_layout. f_equal. change (be_encode 4 0) with (zeros 4). rewrite <-zeros_app.
    unfold zeros. f_equal. lia. }
  unfold crc32c_with_zeroed_field. rewrite meta_layout_zeroed by done. fold (meta_crc m).
  unfold put_be, RECORD_CRC_OFFSET.
  rewrite put_next by (rewrite ?length_be_encode; lia).
  rewrite put_extend by (autorewrite with len; lia).
  do 2 (rewrite put_next by (autorewrite with len; lia)).
  rewrite put_next by (autorewrite with len; cbn [length RECORD_END_MAGIC]; lia).
  f_equal. unfold record_layout, meta_layout, record_footer, record_padding. fold m.
  rewrite <-!app_assoc.
  do 2 f_equal. f_equal; [f_equal; autorewrite with len; lia|].
  do 4 f_equal. f_equal. autorewrite with len; cbn [length RECORD_END_MAGIC]. lia.
Qed.

(** ** Round trip *)

Definition oid_field (o : GitOid) : bytes :=
  [byte_of_Z (alg_tag (algorithm o))] ++ [byte_of_Z (Core.len o)] ++ raw o.

Lemma decode_oid_field o : GitOid_wf o → decode_oid_fixed (oid_field o) = Ok o.
Proof.
  intros Hwf. pose proof (oid_len_bounds (algorithm o)) as Hb.
  pose proof Hwf as (Hlen & Hraw & Htail). unfold decode_oid_fixed.
  rewrite (index_of_slice_Z _ 0 (alg_tag (algorithm o))) by (apply alg_tag_u8 || done).
  rewrite alg_from_to_tag. cbn [ok_or]. rewrite bind_Ok.
  rewrite (index_of_slice_Z _ 1 (Core.len o)) by (done || (unfold in_width; lia)).
  rewrite (bool_decide_eq_true_2 _ Hlen), andb_true_l.
  assert (drop (2 + Z.to_nat (Core.len o)) (oid_field o) = zeros (32 - Z.to_nat (Core.len o))) as ->
    by exact Htail.
  rewrite bind_ensure by apply all_zero_zeros.
  change (slice 2 _ (oid_field o)) with (oid_as_bytes o).
  by rewrite GitOid_new_as_bytes.
Qed.

Section MetaFields.
Context (m : RecordMetadata) (c : Z) (Hwf : metadata_wf m) (Hc : is_u32 c).

Lemma meta_magic : slice 0 4 (meta_layout m c) = RECORD_MAGIC.
Proof. reflexivity. Qed.
Lemma meta_version : slice 4 2 (meta_layout m c) = be_encode 2 FORMAT_VERSION.
Proof. reflexivity. Qed.
Lemma meta_header_len : slice 6 2 (meta_layout m c) = be_encode 2 RECORD_HEADER_LEN.
Proof. reflexivity. Qed.
Lemma meta_kind : slice 8 1 (meta_layout m c) = [byte_of_Z (kind_tag (rm_kind m))].
Proof. reflexivity. Qed.
Lemma meta_codec : slice 9 1 (meta_layout m c) = [byte_of_Z (codec_tag (rm_codec m))].
Proof. reflexivity. Qed.
Lemma meta_flags : slice 10 2 (meta_layout m c) = be_encode 2 (rm_flags m).
Proof. reflexivity. Qed.
Lemma meta_raw_length : slice 12 8 (meta_layout m c) = be_encode 8 (rm_raw_length m).
Proof. reflexivity. Qed.
Lemma meta_stored_length : slice 20 8 (meta_layout m c) = be_encode 8 (rm_stored_length m).
Proof. reflexivity. Qed.

Lemma meta_after_stored n :
  slice 28 n (meta_layout m c) =
    take n (cid_bytes (rm_content_id m) ++ oid_field (rm_primary_oid m) ++
            be_encode 4 c ++ zeros 30).
Proof.
  unfold meta_layout, meta_prefix, oid_field, slice. by rewrite <-!app_assoc.
Qed.
Lemma meta_tail off n :
  (28 ≤ off)%nat →
  slice off n (meta_layout m c) =
    slice (off - 28) n (cid_bytes (rm_content_id m) ++ oid_field (rm_primary_oid m) ++
            be_encode 4 c ++ zeros 30).
Proof.
  intros. replace off with (28 + (off - 28))%nat at 1 by lia.
  rewrite <-(slice_slice 28 (off - 28 + n)) by lia. rewrite meta_after_stored.
  by rewrite slice_take by lia.
Qed.
Lemma meta_cid : slice 28 32 (meta_layout m c) = cid_bytes (rm_content_id m).
Proof.
  destruct Hwf as (_ & _ & _ & Hcid & _). rewrite meta_tail by lia.
  by apply slice_app_exact.
Qed.
Lemma length_oid_field o : GitOid_wf o → length (oid_field o) = 34%nat.
Proof. intros Ho%GitOid_wf_length. unfold oid_field. rewrite !length_app, Ho. done. Qed.
Lemma meta_oid : slice 60 34 (meta_layout m c) = oid_field (rm_primary_oid m).
Proof.
  destruct Hwf as (_ & _ & _ & Hcid & Hoid). unfold ContentId_wf in Hcid.
  rewrite meta_tail, slice_app_skip by lia. rewrite Hcid.
  apply slice_app_exact. by apply length_oid_field.
Qed.
Lemma meta_crc_field : slice RECORD_CRC_OFFSET 4 (meta_layout m c) = be_encode 4 c.
Proof.
  destruct Hwf as (_ & _ & _ & Hcid & Hoid). unfold ContentId_wf in Hcid.
  pose proof (length_oid_field _ Hoid).
  unfold RECORD_CRC_OFFSET. rewrite meta_tail, slice_app_skip, slice_app_skip by lia.
  rewrite Hcid, H. apply slice_app_exact. apply length_be_encode.
Qed.
Lemma meta_reserved : drop 98 (meta_layout m c) = zeros 30.
Proof.
  destruct Hwf as (_ & _ & _ & Hcid & Hoid).
  unfold meta_layout. rewrite app_assoc. apply drop_app_length'.
  rewrite length_app, length_meta_prefix by done. done.
Qed.

Lemma decode_meta_layout rest :
  decode_record_metadata (meta_layout m c ++ rest) =
    if decide (c = meta_crc m) then Ok m else Err HeaderCrcMismatch.
Proof.
  pose proof Hwf as (Hf & Hrl & Hsl & Hcid & Hoid).
  pose proof (length_meta_layout m c Hcid Hoid) as Hlen. unfold decode_record_metadata.
  rewrite bind_ensure_decide by (unfold Format.len, RECORD_HEADER_LEN; rewrite length_app; lia).
  rewrite (take_app_length' (meta_layout m c)) by done.
  unfold crc32c_with_zeroed_field. rewrite meta_layout_zeroed by done. fold (meta_crc m).
  rewrite (read_be_of_slice 4 _ RECORD_CRC_OFFSET c) by (done || apply meta_crc_field).
  rewrite (read_be_of_slice 2 _ 4 FORMAT_VERSION) by done.
  rewrite (read_be_of_slice 2 _ 6 RECORD_HEADER_LEN) by done.
  rewrite (read_be_of_slice 2 _ 10 (rm_flags m)) by done.
  rewrite (read_be_of_slice 8 _ 12 (rm_raw_length m)) by done.
  rewrite (read_be_of_slice 8 _ 20 (rm_stored_length m)) by done.
  rewrite (index_of_slice_Z _ 8 (kind_tag (rm_kind m))) by (done || apply kind_tag_u8).
  rewrite (index_of_slice_Z _ 9 (codec_tag (rm_codec m))) by (done || apply codec_tag_u8).
  rewrite meta_reserved, meta_cid, meta_oid, decode_oid_field by done.
  rewrite kind_from_to_tag, codec_from_to_tag.
  rewrite bind_ensure_decide by done.
  case_decide as Heq.
  - rewrite (bool_decide_eq_true_2 (c = meta_crc m)) by done. by destruct m as [? ? ? ? ? [] ?].
  - by rewrite (bool_decide_eq_false_2 (c = meta_crc m)).
Qed.
End MetaFields.

Lemma metadata_of_wf r : record_wf r → fits (len (or_payload r)) → metadata_wf (metadata_of r).
Proof.
  intros (Hf & Hr & Hc & Ho) [H0 H1]. refine (conj Hf (conj Hr (conj _ (conj Hc Ho)))).
  unfold in_width, u64_max in *. cbn [rm_stored_length metadata_of]. lia.
Qed.

Lemma decode_metadata_record r rest :
  record_wf r → fits (len (or_payload r)) →
  decode_record_metadata (record_layout r ++ rest) = Ok (metadata_of r).
Proof.
  intros Hwf Hfit. unfold record_layout. rewrite <-!app_assoc.
  rewrite decode_meta_layout by (apply crc32c_range || by apply metadata_of_wf).
  by rewrite decide_True.
Qed.

Lemma encoded_len_record r rest :
  record_wf r → fits (len (or_payload r)) →
  encoded_record_len_from_header (record_layout r ++ rest) = Ok (record_size (len (or_payload r))).
Proof.
  intros Hwf Hfit. pose proof Hfit as [H0 H1]. unfold encoded_record_len_from_header.
  rewrite decode_metadata_record by done. rewrite bind_Ok. cbn [rm_stored_length metadata_of].
  rewrite usize_try_from_Some by (unfold usize_max, u64_max in *; lia). cbn [ok_or].
  rewrite bind_Ok, record_total_Some by done. cbn [ok_or]. rewrite bind_Ok.
  by rewrite align_padded by lia.
Qed.

(** Reading behind the header of a laid-out record. *)
Lemma record_slice r rest off n :
  record_wf r → (128 ≤ off)%nat →
  slice off n (record_layout r ++ rest) =
    slice (off - 128) n (or_payload r ++ record_footer (or_payload r) ++
                         record_padding (or_payload r) ++ rest).
Proof.
  intros (_ & _ & Hc & Ho) Hoff. unfold record_layout. rewrite <-!app_assoc.
  rewrite slice_app_skip; rewrite length_meta_layout; done || lia.
Qed.

(** Decoding depends on the unpadded record only; what follows decides between
    success, [Truncated] padding and [NonZeroPadding]. *)
Lemma decode_record_body r b :
  record_wf r → fits (len (or_payload r)) →
  (let total := Z.to_nat (len (or_payload r) + 148) in
   take total b = take total (record_layout r)) →
  decode_record b =
    (_ ← ensure (bool_decide (record_size (len (or_payload r)) ≤ len b)) Truncated;
     _ ← ensure (all_zero (slice (Z.to_nat (len (or_payload r) + 148))
            (Z.to_nat (record_size (len (or_payload r)) - (len (or_payload r) + 148))) b))
            NonZeroPadding;
     Ok (r, record_size (len (or_payload r)))).
Proof.
  intros Hwf Hfit Htake. cbv zeta in Htake. pose proof Hfit as [H0 H1].
  pose proof (length_record_layout r Hwf) as Hlen.
  pose proof (record_size_bounds _ H0) as Hsz.
  set (p := or_payload r) in *. assert (len p = Z.of_nat (length p)) as Hp by done.
  set (total := Z.to_nat (len p + 148)) in *.
  assert (total ≤ length b)%nat as Hb.
  { apply (f_equal length) in Htake. rewrite !length_take in Htake. lia. }
  assert (∀ off n, (off + n ≤ total)%nat → slice off n b = slice off n (record_layout r)) as Hsl.
  { intros off n Hle. rewrite <-(slice_take off n total b), Htake by done. by apply slice_take. }
  assert (b = take total (record_layout r) ++ drop total b) as Hbd
    by by rewrite <-Htake, take_drop.
  assert (∀ off n, (128 ≤ off)%nat → (off + n ≤ total)%nat →
    slice off n b = slice (off - 128) n (p ++ record_footer p ++ record_padding p ++ [])) as Hrec.
  { intros off n Hoff Hle. rewrite Hsl by done. rewrite <-(app_nil_r (record_layout r)).
    by apply record_slice. }
  assert (decode_record_metadata b = Ok (metadata_of r)) as Hmd.
  { assert (take 128 b = meta_layout (metadata_of r) (meta_crc (metadata_of r))) as Ht.
    { rewrite take_slice, Hsl by lia. unfold record_layout. destruct Hwf as (_ & _ & ? & ?).
      by rewrite slice_app_exact by by apply length_meta_layout. }
    rewrite <-(take_drop 128 b), Ht.
    rewrite decode_meta_layout by (apply crc32c_range || by apply metadata_of_wf).
    by rewrite decide_True. }
  unfold decode_record. rewrite Hmd, bind_Ok. cbn [rm_stored_length metadata_of]. fold p.
  rewrite usize_try_from_Some by (unfold usize_max, u64_max in *; lia). cbn [ok_or].
  rewrite bind_Ok, record_total_Some by done. cbn [ok_or]. rewrite bind_Ok.
  rewrite checked_sub_Some by (unfold RECORD_FOOTER_LEN; lia). cbn [ok_or]. rewrite bind_Ok.
  rewrite bind_ensure_decide by (unfold len at 2; lia).
  rewrite u64_try_from_Some by lia. cbn [ok_or]. rewrite bind_Ok.
  replace (Z.to_nat (len p + 148 - RECORD_FOOTER_LEN)) with (128 + length p)%nat
    by (unfold RECORD_FOOTER_LEN; lia).
  assert (∀ k n, (k + n ≤ 20)%nat →
    slice (128 + length p + k) n b = slice k n (record_footer p)) as Hfoot.
  { intros k n Hk. rewrite Hrec by lia. rewrite slice_app_skip by lia.
    rewrite slice_app_l by (rewrite length_record_footer; lia). f_equal. lia. }
  rewrite (read_be_of_slice 8 _ _ (len p + 148)) by
    (by rewrite Hfoot by lia) || (unfold in_width, u64_max in *; lia).
  rewrite bind_ensure_decide by done.
  rewrite bind_ensure_decide by (by rewrite Hfoot by lia).
  rewrite (Hrec 128%nat) by lia. rewrite Nat.sub_diag, (slice_app_exact p) by lia.
  rewrite bind_ensure_decide by (apply read_be_of_slice; [apply crc32c_range|];
    rewrite <-(Nat.add_0_r (128 + length p)); by rewrite Hfoot by lia).
  rewrite align_padded by lia. rewrite bind_Ok. fold (record_size (len p)) total.
  by destruct r.
Qed.

Lemma decode_record_layout r rest :
  record_wf r → fits (len (or_payload r)) →
  decode_record (record_layout r ++ rest) = Ok (r, record_size (len (or_payload r))).
Proof.
  intros Hwf Hfit. pose proof Hfit as [H0 H1]. pose proof (length_record_layout r Hwf) as Hlen.
  pose proof (record_size_bounds _ H0) as Hsz. pose proof Hwf as (_ & _ & ? & ?).
  assert (len (or_payload r) = Z.of_nat (length (or_payload r))) as Hp by done.
  rewrite (decode_record_body r) by (done || (cbv zeta; rewrite take_app_le by lia; done)).
  rewrite bind_ensure_decide by (unfold len at 2; rewrite length_app; lia).
  rewrite record_slice by (done || lia).
  rewrite slice_app_skip, slice_app_skip by (rewrite ?length_record_footer; lia).
  replace (_ - _ - _ - _)%nat with 0%nat by (rewrite ?length_record_footer; lia).
  rewrite slice_app_exact by (unfold record_padding; rewrite length_zeros; lia).
  by rewrite bind_ensure by apply all_zero_zeros.
Qed.

Lemma decode_record_truncated r k :
  record_wf r → fits (len (or_payload r)) → (k < length (record_layout r))%nat →
  decode_record (take k (record_layout r)) = Err Truncated.
Proof.
  intros Hwf Hfit Hk. pose proof Hfit as [H0 H1]. pose proof (length_record_layout r Hwf) as Hlen.
  pose proof (record_size_bounds _ H0) as Hsz. pose proof Hwf as (_ & _ & Hc & Ho).
  pose proof (length_meta_layout (metadata_of r) (meta_crc (metadata_of r)) Hc Ho) as Hml.
  destruct (decide (k < 128)%nat) as [Hs|Hs].
  { unfold decode_record, decode_record_metadata.
    by rewrite bind_ensure_fail by (unfold len, RECORD_HEADER_LEN; rewrite length_take; lia). }
  destruct (decide (Z.of_nat k < len (or_payload r) + 148)) as [Ht|Ht].
  - assert (take k (record_layout r) = meta_layout (metadata_of r) (meta_crc (metadata_of r)) ++
      drop 128 (take k (record_layout r))) as ->.
    { rewrite <-(take_drop 128 (take k (record_layout r))) at 1. f_equal.
      rewrite take_take, Nat.min_l by lia. unfold record_layout. by apply take_app_length'. }
    unfold decode_record.
    rewrite decode_meta_layout by (apply crc32c_range || by apply metadata_of_wf).
    rewrite decide_True, bind_Ok by done. cbn [rm_stored_length metadata_of].
    rewrite usize_try_from_Some by (unfold usize_max, u64_max in *; lia). cbn [ok_or].
    rewrite bind_Ok, record_total_Some by done. cbn [ok_or]. rewrite bind_Ok.
    rewrite checked_sub_Some by (unfold RECORD_FOOTER_LEN; lia). cbn [ok_or]. rewrite bind_Ok.
    apply bind_ensure_fail. unfold len at 2. rewrite length_app, length_drop, length_take. lia.
  - rewrite (decode_record_body r) by
      (done || (cbv zeta; rewrite take_take, Nat.min_l by lia; done)).
    apply bind_ensure_fail. unfold len at 2. rewrite length_take. lia.
Qed.

(** ** Canonicity *)

Lemma decode_oid_fixed_canonical b o :
  length b = 34%nat → decode_oid_fixed b = Ok o → GitOid_wf o ∧ b = oid_field o.
Proof.
  intros Hlen H. unfold decode_oid_fixed in H. res_inv H.
  rename r into a. apply alg_from_tag_inv in Hr.
  apply andb_true_iff in Hr0 as [Hl Hz]. apply bool_decide_eq_true in Hl.
  apply all_zero_spec in Hz. rewrite length_drop, Hlen in Hz.
  pose proof (oid_len_bounds a) as Hb.
  destruct (GitOid_new_wf _ _ _ Hk0) as (Hwf & Ha & Hbytes). split; [done|].
  pose proof Hwf as (Hol & Hrl & Ht). rewrite Ha in Hol.
  unfold oid_field. rewrite <-(slice_full b 34) at 1 by done.
  change 34%nat with (1 + (1 + 32))%nat. rewrite !slice_split. cbn [Nat.add].
  rewrite !index_slice by lia. rewrite Hr, Hl, Ha, Hol. do 2 f_equal.
  replace 32%nat with (Z.to_nat (oid_len a) + (32 - Z.to_nat (oid_len a)))%nat by lia.
  rewrite slice_split, <-Hl, <-Hbytes.
  rewrite <-(take_drop (Z.to_nat (Core.len o)) (raw o)), Ht. unfold oid_as_bytes. f_equal.
  rewrite <-drop_slice_end by lia. rewrite Hz. f_equal. lia.
Qed.

Lemma decode_record_metadata_canonical b m :
  decode_record_metadata b = Ok m →
  metadata_wf m ∧ (128 ≤ length b)%nat ∧ take 128 b = meta_layout m (meta_crc m).
Proof.
  intros H. unfold decode_record_metadata in H. res_inv H. subst m.
  apply bool_decide_eq_true in Hr. unfold len, RECORD_HEADER_LEN in Hr.
  assert (length (take 128 b) = 128%nat) as Hlen by (rewrite length_take; lia).
  set (l := take 128 b) in *.
  apply bool_decide_eq_true in Hr0. apply check_version_Ok in Hr1.
  apply check_header_len_Ok in Hr2. apply bool_decide_eq_true in Hr3.
  apply all_zero_spec in Hr4. rewrite length_drop, Hlen in Hr4.
  apply kind_from_tag_inv in Hr5. apply codec_from_tag_inv in Hr6.
  apply decode_oid_fixed_canonical in Hr7 as [Hoid Hoidf]; [|by rewrite length_slice by lia].
  set (m := {| rm_kind := _ |}).
  assert (metadata_wf m) as Hwf.
  { refine (conj _ (conj _ (conj _ (conj _ Hoid)))); [apply read_be_range; lia..|].
    unfold ContentId_wf. cbn. apply length_slice. lia. }
  split; [done|]. split; [lia|].
  assert (l = meta_layout m (read_u32 l RECORD_CRC_OFFSET)) as Hl.
  { rewrite <-(slice_full l 128) at 1 by done.
    change 128%nat with
      (4 + (2 + (2 + (1 + (1 + (2 + (8 + (8 + (32 + (34 + (4 + 30)))))))))))%nat at 1.
    rewrite !slice_split. cbn [Nat.add].
    rewrite <-take_slice, Hr0.
    rewrite (slice_of_read_be 2 l 4), (slice_of_read_be 2 l 6), Hr1, Hr2 by lia.
    rewrite (index_slice l 8), (index_slice l 9), Hr5, Hr6 by lia.
    rewrite (slice_of_read_be 2 l 10), (slice_of_read_be 8 l 12), (slice_of_read_be 8 l 20),
      (slice_of_read_be 4 l 94) by lia.
    rewrite <-(drop_slice_end 98 30 l), Hr4, Hoidf by done.
    unfold meta_layout, meta_prefix, oid_field. by rewrite <-!app_assoc. }
  destruct Hwf as (_ & _ & _ & Hcid & _).
  rewrite Hl at 1. f_equal. rewrite Hr3. unfold crc32c_with_zeroed_field.
  rewrite Hl at 1. by rewrite meta_layout_zeroed.
Qed.

Lemma decode_record_canonical b r n :
  decode_record b = Ok (r, n) →
  record_wf r ∧ fits (len (or_payload r)) ∧ n = record_size (len (or_payload r)) ∧
  n ≤ len b ∧ take (Z.to_nat n) b = record_layout r.
Proof.
  intros H. unfold decode_record in H. res_inv H.
  rename r0 into m, r1 into stored, r2 into total, r3 into tf, r5 into total', r9 into cons.
  destruct (decode_record_metadata_canonical _ _ Hr) as (Hwf & Hb & Hh).
  pose proof Hwf as (_ & _ & [Hs0 _] & _).
  assert (stored = rm_stored_length m) as ->
    by (unfold usize_try_from in Hr0; case_decide; congruence).
  apply record_total_inv in Hr1 as [-> Htot].
  apply checked_sub_inv in Hr2 as [-> _]. unfold RECORD_FOOTER_LEN in *.
  apply bool_decide_eq_true in Hr3, Hr5, Hr6, Hr7, Hr9.
  assert (total' = rm_stored_length m + 148) as ->
    by (unfold u64_try_from in Hr4; case_decide; congruence).
  apply align_Ok_inv in Hr8 as [Hmax ->]; [|lia].
  apply all_zero_spec in Hr10. subst r n.
  fold (record_size (rm_stored_length m)) in *.
  pose proof (record_size_bounds _ Hs0) as Hsz. unfold len in Hr3, Hr9.
  set (st := rm_stored_length m) in *. set (p := slice 128 (Z.to_nat st) b) in *.
  assert (length p = Z.to_nat st) as Hplen by (apply length_slice; lia).
  assert (len p = st) as Hlp by (unfold len; lia).
  cbn [or_payload]. rewrite Hlp.
  assert (record_wf (mkObjectRecord (rm_kind m) (rm_codec m) (rm_flags m) (rm_raw_length m)
    (rm_content_id m) (rm_primary_oid m) p)) as Hrwf.
  { destruct Hwf as (? & ? & _ & ? & ?). done. }
  split; [done|]. split; [split; lia|]. split; [done|]. split; [done|].
  unfold record_layout. set (r := mkObjectRecord _ _ _ _ _ _ _).
  assert (metadata_of r = m) as -> by (unfold metadata_of; subst r; cbn; rewrite Hlp; by destruct m).
  rewrite <-Hh. rewrite !take_slice.
  replace (Z.to_nat (record_size st)) with
    (128 + (Z.to_nat st + (4 + (8 + (8 + Z.to_nat (record_size st - (st + 148)))))))%nat by lia.
  rewrite !slice_split. change (0 + 128)%nat with 128%nat. fold p. do 2 f_equal.
  unfold record_footer, record_padding. cbn [or_payload r]. rewrite Hlp.
  replace (Z.to_nat (st + 148 - 20)) with (128 + Z.to_nat st)%nat in * by lia.
  replace (128 + Z.to_nat st + 4 + 8)%nat with (128 + Z.to_nat st + 12)%nat by lia.
  replace (128 + Z.to_nat st + 12 + 8)%nat with (Z.to_nat (st + 148)) by lia.
  rewrite (slice_of_read_be 4), (slice_of_read_be 8 b (_ + 4)), Hr5, Hr6, Hr7, <-!app_assoc by lia.
  do 3 f_equal. by rewrite Hr10, length_slice by lia.
Qed.

(** ** Damage *)

Lemma decode_record_wrong_payload r q :
  record_wf r → fits (len (or_payload r)) → length q = length (or_payload r) →
  crc32c q ≠ crc32c (or_payload r) →
  decode_record (meta_layout (metadata_of r) (meta_crc (metadata_of r)) ++ q ++
    record_footer (or_payload r) ++ record_padding (or_payload r)) = Err PayloadCrcMismatch.
Proof.
  intros Hwf Hfit Hq Hcrc. pose proof Hfit as [H0 H1]. pose proof Hwf as (_ & _ & Hc & Ho).
  pose proof (length_meta_layout (metadata_of r) (meta_crc (metadata_of r)) Hc Ho) as Hml.
  set (p := or_payload r) in *. assert (len p = Z.of_nat (length p)) as Hp by done.
  unfold decode_record.
  rewrite decode_meta_layout by (apply crc32c_range || by apply metadata_of_wf).
  rewrite decide_True, bind_Ok by done. cbn [rm_stored_length metadata_of]. fold p.
  set (b := meta_layout _ _ ++ _).
  assert (∀ off n, (128 ≤ off)%nat → slice off n b =
    slice (off - 128) n (q ++ record_footer p ++ record_padding p)) as Hb.
  { intros off n Hoff. subst b. by rewrite slice_app_skip, Hml by lia. }
  assert (∀ k n, (k + n ≤ 20)%nat →
    slice (128 + length p + k) n b = slice k n (record_footer p)) as Hfoot.
  { intros k n Hk. rewrite Hb, slice_app_skip by lia.
    rewrite slice_app_l by (rewrite length_record_footer; lia). f_equal. lia. }
  rewrite usize_try_from_Some by (unfold usize_max, u64_max in *; lia). cbn [ok_or].
  rewrite bind_Ok, record_total_Some by done. cbn [ok_or]. rewrite bind_Ok.
  rewrite checked_sub_Some by (unfold RECORD_FOOTER_LEN; lia). cbn [ok_or]. rewrite bind_Ok.
  rewrite bind_ensure_decide by (unfold len at 2; subst b;
    rewrite !length_app, length_record_footer; lia).
  rewrite u64_try_from_Some by lia. cbn [ok_or]. rewrite bind_Ok.
  replace (Z.to_nat (len p + 148 - RECORD_FOOTER_LEN)) with (128 + length p)%nat
    by (unfold RECORD_FOOTER_LEN; lia).
  rewrite (read_be_of_slice 8 _ _ (len p + 148)) by
    (by rewrite Hfoot by lia) || (unfold in_width, u64_max in *; lia).
  rewrite bind_ensure_decide by done.
  rewrite bind_ensure_decide by (by rewrite Hfoot by lia).
  rewrite (Hb 128%nat) by lia. rewrite Nat.sub_diag, (slice_app_exact q) by lia.
  apply bind_ensure_fail.
  rewrite (read_be_of_slice 4 _ _ (crc32c p)); [by apply not_eq_sym|apply crc32c_range|].
  rewrite <-(Nat.add_0_r (128 + length p)). by rewrite Hfoot by lia.
Qed.

(** * Claims *)

(** Record round trip. A well-typed object record whose payload fits is
    encoded to a byte string of the documented padded length, a multiple of
    eight, and decoding that string, whatever bytes follow it in the chunk,
    returns exactly the record and the number of bytes to skip. *)
Theorem record_round_trip r :
  record_wf r → fits (len (or_payload r)) →
  ∃ b, encode_record r = Ok b ∧ len b = record_size (len (or_payload r)) ∧
       len b mod 8 = 0 ∧ ∀ rest, decode_record (b ++ rest) = Ok (r, len b).
Proof.
  intros Hwf Hfit. exists (record_layout r). split; [by apply encode_record_layout|].
  assert (len (record_layout r) = record_size (len (or_payload r))) as Hlen
    by by apply length_record_layout.
  rewrite Hlen. split; [done|]. split; [apply record_size_aligned|].
  intros rest. by apply decode_record_layout.
Qed.

(** C27. The record decoder accepts canonical encodings only. Whenever it
    succeeds on an arbitrary byte string, the record is well-typed and the
    consumed prefix is bit for bit what the encoder writes for it, so no two
    byte strings of the same length decode to the same record. *)
Theorem record_decode_canonical b r n :
  decode_record b = Ok (r, n) →
  record_wf r ∧ 0 ≤ n ≤ len b ∧ encode_record r = Ok (take (Z.to_nat n) b).
Proof.
  intros H. destruct (decode_record_canonical b r n H) as (Hwf & Hfit & -> & Hn & Ht).
  split; [done|]. split; [|by rewrite Ht; apply encode_record_layout].
  destruct Hfit as [H0 _]. pose proof (record_size_bounds _ H0). lia.
Qed.

(** An incomplete record is never accepted: every strict prefix of an
    encoded record is reported as [Truncated]. *)
Theorem record_prefix_truncated r b k :
  record_wf r → encode_record r = Ok b → fits (len (or_payload r)) → (k < length b)%nat →
  decode_record (take k b) = Err Truncated.
Proof.
  intros Hwf He Hfit Hk. rewrite encode_record_layout in He by done. injection He as <-.
  by apply decode_record_truncated.
Qed.

(** Payload damage is detected: overwriting up to four consecutive payload
    bytes of an encoded record with different bytes makes the decoder fail with
    [PayloadCrcMismatch]. *)
Theorem record_payload_damage_detected r b off w :
  record_wf r → fits (len (or_payload r)) → encode_record r = Ok b →
  (length w ≤ 4)%nat → (off + length w ≤ length (or_payload r))%nat →
  w ≠ slice off (length w) (or_payload r) →
  decode_record (put b (128 + off) w) = Err PayloadCrcMismatch.
Proof.
  intros Hwf Hfit He Hw Hoff Hne. rewrite encode_record_layout in He by done.
  injection He as <-. pose proof Hwf as (_ & _ & Hc & Ho).
  pose proof (length_meta_layout (metadata_of r) (meta_crc (metadata_of r)) Hc Ho) as Hml.
  unfold record_layout. rewrite put_app_r by lia. rewrite Hml.
  replace (128 + off - 128)%nat with off by lia. rewrite put_app_l by lia.
  apply decode_record_wrong_payload; [done..|by rewrite length_put by lia|].
  intros Heq. by apply crc32c_put_detects in Heq.
Qed.

(** A concrete record for the witnesses. *)
Definition sample_oid : GitOid := mkGitOid Sha1 20 (put (zeros 32) 0 (replicate 20 xa5)).
Definition sample_record : ObjectRecord := {|
  or_kind := Blob; or_codec := Raw; or_flags := 0; or_raw_length := 5;
  or_content_id := mkContentId (replicate 32 x11); or_primary_oid := sample_oid;
  or_payload := [x68; x65; x6c; x6c; x6f] |}.
Lemma sample_record_wf : record_wf sample_record.
Proof. by vm_compute. Qed.
Lemma sample_record_fits : fits (len (or_payload sample_record)).
Proof. by vm_compute. Qed.

Lemma record_round_trip_witness :
  ∃ b, encode_record sample_record = Ok b ∧ len b = record_size 5 ∧
       len b mod 8 = 0 ∧ ∀ rest, decode_record (b ++ rest) = Ok (sample_record, len b).
Proof.
  apply (record_round_trip sample_record); [apply sample_record_wf|apply sample_record_fits].
Defined.

Definition sample_bytes : bytes := record_layout sample_record.
Lemma sample_encode : encode_record sample_record = Ok sample_bytes.
Proof. vm_compute. reflexivity. Qed.

Lemma record_decode_canonical_witness :
  encode_record sample_record = Ok (take 160 (sample_bytes ++ [x01])).
Proof.
  apply (record_decode_canonical (sample_bytes ++ [x01]) sample_record 160).
  vm_compute. reflexivity.
Defined.

Lemma record_prefix_truncated_witness :
  decode_record (take 159 sample_bytes) = Err Truncated.
Proof.
  apply (record_prefix_truncated sample_record sample_bytes 159).
  - apply sample_record_wf.
  - apply sample_encode.
  - apply sample_record_fits.
  - vm_compute. lia.
Defined.

Lemma record_payload_damage_detected_witness :
  decode_record (put sample_bytes (128 + 1) [x01; x02]) = Err PayloadCrcMismatch.
Proof.
  apply (record_payload_damage_detected sample_record sample_bytes 1 [x01; x02]).
  - apply sample_record_wf.
  - apply sample_record_fits.
  - apply sample_encode.
  - cbn. lia.
  - cbn. lia.
  - vm_compute. discriminate.
Defined.

End RecordSpec.
