(* ===== verification/Codec.v ===== *)
(** * Object payload codecs: [reflink-forest-format/src/lib.rs], lines 430 to 597

    Encoding and decoding of stored object payloads through a validating
    writer. [Read] sources are modelled by the reads they deliver, [Write]
    sinks by an interface that allows short writes and errors, and the zstd
    library by the [Zstd] interface. *)

From Stdlib Require Import ZArith Lia Strings.Byte.
From stdpp Require Import base tactics list gmap.
From S2P Require Import Prelude Crc Core Format.
Import Crc Core Format.

#[local] Open Scope Z_scope.

Module Codec.

(** ** Readers and writers *)

(** A reader drained with a fixed buffer: the non-empty buffers its successful
    reads return, then end of file ([None]) or an error. *)
Record Reads := mkReads { rd_chunks : list bytes; rd_end : option IoErrorKind }.

(** [std::io::Write::write]: the number of bytes accepted, and the new sink. *)
Class Write (W : Type) := write : W → bytes → result IoErrorKind nat * W.

(** What a sink promises: it accepts a prefix of what it is given, and nothing
    when it reports an error. [accepted] is everything it has taken so far. *)
Class WriteLaws (W : Type) `{Write W} := {
  accepted : W → bytes;
  write_ok w b n w' :
    write w b = (Ok n, w') → (n ≤ length b)%nat ∧ accepted w' = accepted w ++ take n b;
  write_err w b e w' : write w b = (Err e, w') → accepted w' = accepted w;
}.

(** [Write::write_all]; every successful round accepts at least one byte, so
    [length b] rounds suffice. *)
Fixpoint write_all_loop `{Write W} (fuel : nat) (w : W) (b : bytes) : result IoErrorKind unit * W :=
  match b, fuel with
  | [], _ => (Ok (), w)
  | _, O => (Err OtherIo, w)
  | _, S fuel =>
      match write w b with
      | (Ok O, w') => (Err WriteZero, w')
      | (Ok n, w') => write_all_loop fuel w' (drop n b)
      | (Err e, w') => (Err e, w')
      end
  end.
Definition write_all `{Write W} (w : W) (b : bytes) := write_all_loop (length b) w b.

(** [Vec<u8>] takes everything; [io::sink()] takes and forgets everything. *)
#[export] Instance vec_write : Write bytes := λ w b, (Ok (length b), w ++ b).
Record Sink := mkSink { sunk : bytes }.
#[export] Instance sink_write : Write Sink := λ w b, (Ok (length b), mkSink (sunk w ++ b)).

#[export] Program Instance vec_write_laws : WriteLaws bytes := {| accepted := id |}.
Next Obligation. intros w b n w' [= <- <-]. by rewrite take_ge. Qed.
Next Obligation. done. Qed.
#[export] Program Instance sink_write_laws : WriteLaws Sink := {| accepted := sunk |}.
Next Obligation. intros w b n w' [= <- <-]. by rewrite take_ge. Qed.
Next Obligation. done. Qed.

(** ** The zstd library *)

(** [zstd_encode]: [Encoder::new] with the level, window and checksum of the
    source, [write_all] and [finish]. [zstd_decode data e]: the reads of a
    single-frame [Decoder] over a source that delivers [data] and then ends or
    fails with [e], and how many source bytes the frame used. *)
Class Zstd := {
  zstd_encode : bytes → result IoErrorKind bytes;
  zstd_decode : bytes → option IoErrorKind → Reads * nat;
}.

(** The documented contract: a frame decodes to what was encoded, whatever
    follows it, in non-empty reads, and only the frame is used. *)
Class ZstdLaws `{Zstd} := {
  zstd_roundtrip raw f rest e :
    zstd_encode raw = Ok f →
    ∃ chunks, zstd_decode (f ++ rest) e = (mkReads chunks None, length f) ∧
      concat chunks = raw ∧ Forall (λ c, c ≠ []) chunks;
}.

Definition CODEC_STREAM_BUFFER_BYTES : Z := 64 * 1024.

Inductive CodecError :=
| CodecIo (e : IoErrorKind)
| RawLengthMismatch (expected actual : Z)
| ContentMismatch (expected actual : ContentId)
| TrailingZstdData.
#[export] Instance CodecError_eq_dec : EqDecision CodecError.
Proof. solve_decision. Defined.

(** [Cursor::read] with the copy buffer: full buffers, then the rest. *)
Fixpoint cursor_chunks (fuel : nat) (b : bytes) : list bytes :=
  match fuel, b with
  | O, _ => []
  | _, [] => []
  | S fuel, _ =>
      let n := Z.to_nat CODEC_STREAM_BUFFER_BYTES in
      take n b :: cursor_chunks fuel (drop n b)
  end.
Definition Cursor_new (b : bytes) : Reads := mkReads (cursor_chunks (length b) b) None.

Section Codec.
Context `{Digests} `{Zstd}.

Definition encode_object_payload (codec : Format.Codec) (raw : bytes) : result CodecError bytes :=
  match codec with
  | Raw => Ok raw
  | Format.Zstd => map_err CodecIo (zstd_encode raw)
  end.

(** ** [ValidatingObjectWriter] *)

Record ValidatingObjectWriter (W : Type) := mkValidating {
  vw_writer : W; vw_expected_length : Z; vw_written : Z; vw_hasher : bytes }.
Arguments mkValidating {W}.
Arguments vw_writer {W}.
Arguments vw_expected_length {W}.
Arguments vw_written {W}.
Arguments vw_hasher {W}.

Definition Validating_new {W} (w : W) (kind : ObjectKind) (expected_length : Z)
    : ValidatingObjectWriter W :=
  mkValidating w expected_length 0 (ContentHasher_new kind expected_length).

Definition Validating_finish {W} (v : ValidatingObjectWriter W) (expected : ContentId)
    : result CodecError unit :=
  if decide (vw_written v ≠ vw_expected_length v) then
    Err (RawLengthMismatch (vw_expected_length v) (vw_written v))
  else
    let actual := ContentHasher_finalize (vw_hasher v) in
    if decide (actual ≠ expected) then Err (ContentMismatch expected actual) else Ok ().

#[export] Instance Validating_write `{Write W} : Write (ValidatingObjectWriter W) := λ v b,
  match u64_try_from (len b) with
  | None => (Err InvalidData, v)
  | Some additional =>
      match checked_add (vw_written v) additional with
      | None => (Err InvalidData, v)
      | Some next =>
          if decide (vw_expected_length v < next) then (Err InvalidData, v)
          else
            match write (vw_writer v) b with
            | (Err e, w) =>
                (Err e, mkValidating w (vw_expected_length v) (vw_written v) (vw_hasher v))
            | (Ok n, w) =>
                (Ok n, mkValidating w (vw_expected_length v) (vw_written v + Z.of_nat n)
                         (ContentHasher_update (vw_hasher v) (take n b)))
            end
      end
  end.

(** [copy_decoded]: a read of zero bytes is the end of the source. *)
Fixpoint copy_decoded_loop `{Write W} (chunks : list bytes) (e : option IoErrorKind) (w : W)
    : result CodecError unit * W :=
  match chunks with
  | [] => (match e with None => Ok () | Some e => Err (CodecIo e) end, w)
  | [] :: _ => (Ok (), w)
  | c :: chunks =>
      match write_all w c with
      | (Ok _, w') => copy_decoded_loop chunks e w'
      | (Err e, w') => (Err (CodecIo e), w')
      end
  end.
Definition copy_decoded `{Write W} (source : Reads) (w : W) :=
  copy_decoded_loop (rd_chunks source) (rd_end source) w.

Definition decode_object_payload_to_writer `{Write W} (kind : ObjectKind) (codec : Format.Codec)
    (raw_length : Z) (expected : ContentId) (source : Reads) (writer : W)
    : result CodecError unit * W :=
  let validated := Validating_new writer kind raw_length in
  let '(r, v) :=
    match codec with
    | Raw => copy_decoded source validated
    | Format.Zstd =>
        let data := concat (rd_chunks source) in
        let '(decoder, used) := zstd_decode data (rd_end source) in
        match copy_decoded decoder validated with
        | (Err e, v) => (Err e, v)
        | (Ok _, v) =>
            (if decide (used < length data)%nat then Err TrailingZstdData
             else match rd_end source with Some e => Err (CodecIo e) | None => Ok () end, v)
        end
    end in
  match r with
  | Err e => (Err e, vw_writer v)
  | Ok _ => (Validating_finish v expected, vw_writer v)
  end.

Definition decode_object_payload (r : ObjectRecord) : result CodecError bytes :=
  match decode_object_payload_to_writer (or_kind r) (or_codec r) (or_raw_length r)
          (or_content_id r) (Cursor_new (or_payload r)) ([] : bytes) with
  | (Ok _, raw) => Ok raw
  | (Err e, _) => Err e
  end.

Definition verify_object_record (r : ObjectRecord) : result CodecError unit :=
  (decode_object_payload_to_writer (or_kind r) (or_codec r) (or_raw_length r)
     (or_content_id r) (Cursor_new (or_payload r)) (mkSink [])).1.

End Codec.

(** ** Generic facts about writing *)

(** Whatever every single write preserves, [write_all] and [copy_decoded] preserve. *)
Section Preserved.
Context `{Write W} (I : W → Prop) (HI : ∀ w b, I w → I (write w b).2).

Lemma write_all_preserves fuel w b : I w → I (write_all_loop fuel w b).2.
Proof.
  revert w b. induction fuel as [|fuel IH]; intros w [|x b] Hw; cbn; try done.
  specialize (HI w (x :: b) Hw). destruct (write w (x :: b)) as [[[|n]|e] w']; cbn in *; auto.
Qed.
Lemma copy_decoded_preserves s w : I w → I (copy_decoded s w).2.
Proof.
  unfold copy_decoded. generalize (rd_chunks s). intros chunks. revert w.
  induction chunks as [|[|x c] chunks IH]; intros w Hw; cbn [copy_decoded_loop]; try done.
  pose proof (write_all_preserves (length (x :: c)) w (x :: c) Hw) as Hp.
  unfold write_all. destruct (write_all_loop _ w (x :: c)) as [[[]|e] w']; cbn in *; auto.
Qed.
End Preserved.

(** What the loops deliver when they succeed. *)
Section Delivered.
Context `{WriteLaws W}.

Lemma write_all_Ok fuel w b u w' :
  write_all_loop fuel w b = (Ok u, w') → accepted w' = accepted w ++ b.
Proof.
  revert w b. induction fuel as [|fuel IH]; intros w [|x b] Hw; cbn in Hw; try done.
  - injection Hw as _ <-. by rewrite app_nil_r.
  - injection Hw as _ <-. by rewrite app_nil_r.
  - destruct (write w (x :: b)) as [[[|n]|e] w1] eqn:E; try done.
    apply write_ok in E as [Hn E]. apply IH in Hw. rewrite Hw, E, <-app_assoc.
    f_equal. by rewrite take_drop.
Qed.

(** The fuel of [write_all] is enough: more of it changes nothing. *)
Lemma write_all_fuel fuel w b :
  (length b ≤ fuel)%nat → write_all_loop fuel w b = write_all w b.
Proof.
  unfold write_all. intros Hf.
  assert (∀ n f1 f2 w b, (length b ≤ n)%nat → (length b ≤ f1)%nat → (length b ≤ f2)%nat →
    write_all_loop f1 w b = write_all_loop f2 w b) as G; [|by eapply G].
  clear fuel w b Hf. induction n as [|n IH]; intros f1 f2 w [|x b] Hn H1 H2; cbn in *; try lia;
    destruct f1, f2; cbn in *; try done; try lia.
  destruct (write w (x :: b)) as [[[|k]|e] w1] eqn:E; try done.
  apply write_ok in E as [Hk _]. cbn in Hk.
  apply IH; cbn; rewrite length_drop; lia.
Qed.

Lemma copy_decoded_Ok s w u w' :
  Forall (λ c, c ≠ []) (rd_chunks s) → copy_decoded s w = (Ok u, w') →
  rd_end s = None ∧ accepted w' = accepted w ++ concat (rd_chunks s).
Proof.
  unfold copy_decoded. generalize (rd_chunks s). intros chunks Hne. revert w.
  induction Hne as [|[|x c] chunks Hc Hne IH]; intros w Hw; cbn [copy_decoded_loop] in Hw; try done.
  - destruct (rd_end s); [done|]. injection Hw as _ <-. by rewrite app_nil_r.
  - destruct (write_all w (x :: c)) as [[[]|e] w1] eqn:E; [|done].
    apply write_all_Ok in E. apply IH in Hw as [-> Hw]. split; [done|].
    rewrite Hw, E, <-app_assoc. done.
Qed.
End Delivered.

Section Validation.
Context `{Digests} `{Zstd} `{WriteLaws W}.

(** The validating writer over any lawful sink is itself a lawful sink. *)
#[export] Program Instance Validating_write_laws : WriteLaws (ValidatingObjectWriter W) :=
  {| accepted := λ v, accepted (vw_writer _ v) |}.
Next Obligation.
  intros v b n v'. unfold write at 1, Validating_write.
  repeat case_match; intros [=]; subst; cbn. by eapply write_ok.
Qed.
Next Obligation.
  intros v b e v'. unfold write at 1, Validating_write.
  repeat case_match; intros [=]; subst; cbn; try done. by eapply write_err.
Qed.

(** Its invariant: it has passed on [out], counted it and hashed it, and never
    passes on more than the declared length. *)
Definition vw_inv (kind : ObjectKind) (L : Z) (base : bytes) (v : ValidatingObjectWriter W) : Prop :=
  ∃ out, accepted (vw_writer _ v) = base ++ out ∧ vw_written _ v = len out ∧
    vw_hasher _ v = ContentHasher_new kind L ++ out ∧
    vw_expected_length _ v = L ∧ len out ≤ L.

Lemma vw_inv_write kind L base v b : vw_inv kind L base v → vw_inv kind L base (write v b).2.
Proof.
  intros (out & Ha & Hw & Hh & HL & Hle). unfold write, Validating_write.
  destruct (u64_try_from _) as [add|] eqn:Hadd; [|by exists out].
  destruct (checked_add _ _) as [next|] eqn:Hnext; [|by exists out].
  case_decide as Hd; [by exists out|].
  unfold u64_try_from in Hadd. case_decide; [|done]. injection Hadd as <-.
  apply checked_add_inv in Hnext as [-> _].
  destruct (write (vw_writer W v) b) as [[n|e] w'] eqn:E; cbn.
  - apply write_ok in E as [Hn E]. exists (out ++ take n b). cbn.
    unfold ContentHasher_update, len in *.
    rewrite E, Ha, Hh, Hw, HL, length_app, length_take, <-!app_assoc in *.
    split_and!; try done; lia.
  - apply write_err in E. exists out. cbn. by rewrite E.
Qed.

Lemma decode_inv kind codec L cid s (w : W) : 0 ≤ L →
  ∃ v, vw_inv kind L (accepted w) v ∧
    (decode_object_payload_to_writer kind codec L cid s w).2 = vw_writer _ v ∧
    ((decode_object_payload_to_writer kind codec L cid s w).1 = Ok () →
     Validating_finish v cid = Ok ()).
Proof.
  intros HL. unfold decode_object_payload_to_writer.
  assert (vw_inv kind L (accepted w) (Validating_new w kind L)) as Hi.
  { exists []. cbn. by rewrite !app_nil_r. }
  assert (∀ s0, vw_inv kind L (accepted w) (copy_decoded s0 (Validating_new w kind L)).2) as Hc.
  { intros s0. apply copy_decoded_preserves; [|done]. intros. by apply vw_inv_write. }
  destruct codec.
  - specialize (Hc s). destruct (copy_decoded s _) as [[[]|e] v]; cbn in Hc |- *; by exists v.
  - destruct (zstd_decode _ _) as [d used]. specialize (Hc d).
    destruct (copy_decoded d _) as [[[]|e] v]; cbn in Hc |- *; exists v; [|done].
    case_decide; [done|]. destruct (rd_end s); cbn; done.
Qed.

Lemma Validating_finish_Ok kind L base v cid :
  vw_inv kind L base v → Validating_finish v cid = Ok () →
  ∃ out, accepted (vw_writer _ v) = base ++ out ∧ len out = L ∧ ContentId_for_object kind out = cid.
Proof.
  intros (out & Ha & Hw & Hh & HL & Hle). unfold Validating_finish.
  case_decide as Hl; [done|]. case_decide as Hc; [done|]. intros _.
  exists out. split; [done|].
  assert (len out = L) as Hlen by congruence. split; [done|].
  unfold ContentId_for_object, ContentHasher_update. unfold len in Hlen.
  by rewrite Hlen, <-Hh.
Qed.

(** What a decoder run delivers, on success and on failure. *)
Lemma decode_output kind codec L cid s (w : W) r w' :
  0 ≤ L → decode_object_payload_to_writer kind codec L cid s w = (r, w') →
  ∃ out, accepted w' = accepted w ++ out ∧ len out ≤ L ∧
    (r = Ok () → len out = L ∧ ContentId_for_object kind out = cid).
Proof.
  intros HL Hd. destruct (decode_inv kind codec L cid s w HL) as (v & Hv & Hw & Hr).
  rewrite Hd in Hw, Hr. cbn in Hw, Hr. subst w'.
  destruct r as [[]|e].
  - destruct (Validating_finish_Ok _ _ _ _ _ Hv (Hr eq_refl)) as (out & Ho & Hl & Hc).
    exists out. split_and!; [done|lia|done].
  - destruct Hv as (out & Ha & _ & _ & _ & Hle). by exists out.
Qed.

End Validation.

(** ** Sinks that never fail: [Vec] and [io::sink] *)

Class TotalWrite (W : Type) `{Write W} := total_write w b : (write w b).1 = Ok (length b).
#[export] Instance vec_total : TotalWrite bytes.
Proof. done. Qed.
#[export] Instance sink_total : TotalWrite Sink.
Proof. done. Qed.

Lemma concat_cursor_chunks fuel b :
  (length b ≤ fuel)%nat → concat (cursor_chunks fuel b) = b.
Proof.
  revert b. induction fuel as [|fuel IH]; intros [|x b] Hf; try done; [cbn in Hf; lia|].
  cbn [cursor_chunks]. remember (Z.to_nat CODEC_STREAM_BUFFER_BYTES) as n eqn:En.
  destruct n as [|n]; [done|]. cbn [take drop concat].
  rewrite IH; [|rewrite length_drop; cbn in Hf; lia]. cbn. by rewrite take_drop.
Qed.
Lemma cursor_chunks_nonempty fuel b : Forall (λ c, c ≠ []) (cursor_chunks fuel b).
Proof.
  revert b. induction fuel as [|fuel IH]; intros [|x b]; try by constructor.
Qed.
Lemma concat_Cursor b : concat (rd_chunks (Cursor_new b)) = b.
Proof. by apply concat_cursor_chunks. Qed.

Section Total.
Context `{Digests} `{Zstd} `{WriteLaws W} `{!TotalWrite W}.

(** Writing [c] to a validating writer that still expects at least that much. *)
Lemma Validating_write_all L (v : ValidatingObjectWriter W) c :
  c ≠ [] → vw_expected_length _ v = L → L ≤ u64_max → vw_written _ v + len c ≤ L →
  0 ≤ vw_written _ v →
  ∃ v', write_all v c = (Ok (), v') ∧ vw_expected_length _ v' = L ∧
    vw_written _ v' = vw_written _ v + len c ∧ vw_hasher _ v' = vw_hasher _ v ++ c.
Proof.
  intros Hc HL Hmax Hle Hpos. unfold write_all. destruct c as [|x c]; [done|].
  assert (∃ w', write (vw_writer _ v) (x :: c) = (Ok (length (x :: c)), w')) as [w' Hw].
  { pose proof (total_write (vw_writer _ v) (x :: c)) as Ht.
    destruct (write (vw_writer _ v) _) as [r w']. exists w'. cbn in Ht. by rewrite Ht. }
  assert (write v (x :: c) = (Ok (length (x :: c)), mkValidating _ w' L
    (vw_written _ v + len (x :: c)) (vw_hasher _ v ++ (x :: c)))) as Hv.
  { unfold write at 1, Validating_write. rewrite u64_try_from_Some by lia.
    rewrite checked_add_Some by lia. rewrite decide_False by lia.
    rewrite Hw, HL, take_ge by done. done. }
  cbn [write_all_loop length]. rewrite Hv. cbn [length drop].
  rewrite drop_all. eexists. split; [by destruct (length c)|]. done.
Qed.

Lemma Validating_copy L chunks (v : ValidatingObjectWriter W) :
  Forall (λ c, c ≠ []) chunks → vw_expected_length _ v = L → L ≤ u64_max →
  vw_written _ v + len (concat chunks) ≤ L → 0 ≤ vw_written _ v →
  ∃ v', copy_decoded (mkReads chunks None) v = (Ok (), v') ∧
    vw_expected_length _ v' = L ∧ vw_written _ v' = vw_written _ v + len (concat chunks) ∧
    vw_hasher _ v' = vw_hasher _ v ++ concat chunks.
Proof.
  intros Hne. unfold copy_decoded. cbn [rd_chunks rd_end]. revert v.
  induction Hne as [|c chunks Hc Hne IH]; intros v HL Hmax Hle Hpos.
  { exists v. cbn. rewrite app_nil_r. split_and!; try done. unfold len. cbn. lia. }
  assert (len (concat (c :: chunks)) = len c + len (concat chunks)) as Hlen.
  { unfold len. cbn. rewrite length_app. lia. }
  rewrite Hlen in Hle. assert (0 ≤ len (concat chunks)) by (unfold len; lia).
  assert (0 ≤ len c) by (unfold len; lia).
  destruct (Validating_write_all L v c) as (v1 & Hw & HL1 & Hn1 & Hh1); try lia; try done.
  destruct (IH v1) as (v2 & Hc2 & HL2 & Hn2 & Hh2); try lia; try done.
  exists v2. destruct c as [|x c]; [done|]. cbn [copy_decoded_loop]. rewrite Hw, Hc2.
  split_and!; try done; [rewrite Hn2, Hn1; lia|]. by rewrite Hh2, Hh1, <-app_assoc.
Qed.

(** A payload written by [encode_object_payload] is accepted by the decoder. *)
Lemma decode_encoded `{!ZstdLaws} kind codec raw p s (w : W) :
  len raw ≤ u64_max → encode_object_payload codec raw = Ok p →
  Forall (λ c, c ≠ []) (rd_chunks s) → concat (rd_chunks s) = p → rd_end s = None →
  ∃ w', decode_object_payload_to_writer kind codec (len raw) (ContentId_for_object kind raw) s w
          = (Ok (), w') ∧ accepted w' = accepted w ++ raw.
Proof.
  intros Hmax Henc Hne Hp He. unfold decode_object_payload_to_writer.
  assert (∀ chunks, Forall (λ c, c ≠ []) chunks → concat chunks = raw → ∃ v,
    copy_decoded (mkReads chunks None) (Validating_new w kind (len raw)) = (Ok (), v) ∧
    Validating_finish v (ContentId_for_object kind raw) = Ok () ∧
    accepted (vw_writer _ v) = accepted w ++ raw) as Hcopy.
  { intros chunks Hch <-.
    destruct (Validating_copy (len (concat chunks)) chunks
      (Validating_new w kind (len (concat chunks)))) as (v & Hv & HL & Hw & Hh); try done.
    exists v. split_and!; [done| |].
    - unfold Validating_finish.
      rewrite decide_False by (rewrite HL, Hw; cbn; lia). rewrite decide_False; [done|].
      intros Hf. apply Hf. by rewrite Hh.
    - by apply copy_decoded_Ok in Hv as [_ Hv]. }
  destruct codec; cbn in Henc.
  - injection Henc as <-. destruct (Hcopy (rd_chunks s)) as (v & Hv & Hf & Ha); try done.
    destruct s as [chunks e]. cbn in He, Hv |- *. subst e. rewrite Hv, Hf. eauto.
  - apply map_err_Ok_inv in Henc.
    destruct (zstd_roundtrip raw p [] (rd_end s) Henc) as (chunks & Hd & Hc & Hne').
    rewrite app_nil_r in Hd. rewrite Hp, Hd.
    destruct (Hcopy chunks) as (v & Hv & Hf & Ha); try done. rewrite Hv.
    rewrite decide_False by lia. rewrite He, Hf. eauto.
Qed.

End Total.

(** ** Properties *)

(** Whatever the source and the sink do, decoding a stored payload never
    hands the sink more than the declared raw length; and when it succeeds the
    sink has received exactly one object, of the declared length and with the
    expected ContentId. *)
Theorem decode_delivers_validated `{Digests} `{Zstd} `{WriteLaws W} kind codec L cid s (w : W) r w' :
  0 ≤ L → decode_object_payload_to_writer kind codec L cid s w = (r, w') →
  ∃ out, accepted w' = accepted w ++ out ∧ len out ≤ L ∧
    (r = Ok () → len out = L ∧ ContentId_for_object kind out = cid).
Proof. apply decode_output. Qed.

Lemma decode_object_payload_Ok `{Digests} `{Zstd} r raw :
  0 ≤ or_raw_length r → decode_object_payload r = Ok raw →
  len raw = or_raw_length r ∧ ContentId_for_object (or_kind r) raw = or_content_id r.
Proof.
  unfold decode_object_payload. intros HL.
  destruct (decode_object_payload_to_writer _ _ _ _ _ _) as [[[]|e] w] eqn:E; [|done].
  intros [= <-].
  destruct (decode_inv (or_kind r) (or_codec r) (or_raw_length r) (or_content_id r)
    (Cursor_new (or_payload r)) ([] : bytes) HL) as (v & Hv & Hw & Hr).
  rewrite E in Hw, Hr. cbn in Hw, Hr.
  destruct (Validating_finish_Ok _ _ _ _ _ Hv (Hr eq_refl)) as (out & Ho & Hl & Hc).
  rewrite <-Hw in Ho. change (w = out) in Ho. by rewrite Ho.
Qed.

(** Storing an object and reading it back, with either codec: the record
    that holds its encoded payload decodes to the original bytes and passes
    verification. *)
Theorem codec_round_trip `{Digests} `{ZstdLaws} kind codec flags oid raw p :
  len raw ≤ u64_max → encode_object_payload codec raw = Ok p →
  let r := mkObjectRecord kind codec flags (len raw) (ContentId_for_object kind raw) oid p in
  decode_object_payload r = Ok raw ∧ verify_object_record r = Ok ().
Proof.
  intros Hmax Henc r. split.
  - destruct (decode_encoded kind codec raw p (Cursor_new p) ([] : bytes) Hmax Henc
      (cursor_chunks_nonempty _ _) (concat_Cursor p) eq_refl) as (w & Hw & Ha).
    unfold decode_object_payload, r. cbn [or_kind or_codec or_raw_length or_content_id or_payload].
    rewrite Hw. f_equal. apply Ha.
  - destruct (decode_encoded kind codec raw p (Cursor_new p) (mkSink []) Hmax Henc
      (cursor_chunks_nonempty _ _) (concat_Cursor p) eq_refl) as (w & Hw & _).
    unfold verify_object_record, r. cbn [or_kind or_codec or_raw_length or_content_id or_payload].
    by rewrite Hw.
Qed.

(** The ContentId identifies the object: two records with the same
    ContentId that both decode hold the same kind and the same bytes, or else
    exhibit a SHA-256 collision. *)
Theorem content_id_identifies `{Digests} `{Zstd} r1 r2 p1 p2 :
  0 ≤ or_raw_length r1 → 0 ≤ or_raw_length r2 → or_content_id r1 = or_content_id r2 →
  decode_object_payload r1 = Ok p1 → decode_object_payload r2 = Ok p2 →
  (or_kind r1 = or_kind r2 ∧ p1 = p2) ∨
  (content_preimage (or_kind r1) p1 ≠ content_preimage (or_kind r2) p2 ∧
   sha256 (content_preimage (or_kind r1) p1) = sha256 (content_preimage (or_kind r2) p2)).
Proof.
  intros HL1 HL2 Hcid H1 H2.
  apply decode_object_payload_Ok in H1 as [_ H1], H2 as [_ H2]; try done.
  destruct (decide (content_preimage (or_kind r1) p1 = content_preimage (or_kind r2) p2)) as [He|Hn].
  - left. by apply content_preimage_inj.
  - right. split; [done|]. rewrite <-H1, <-H2 in Hcid. by injection Hcid.
Qed.

(** ** A concrete codec: a length-prefixed frame, checked on decoding *)

Definition toy_zstd : Zstd := {|
  zstd_encode raw :=
    if decide (is_u64 (len raw)) then Ok (be_encode 8 (len raw) ++ raw) else Err OtherIo;
  zstd_decode data e :=
    let n := Z.to_nat (read_u64 data 0) in
    if decide (8 + n ≤ length data)%nat then
      (mkReads (if decide (n = 0%nat) then [] else [slice 8 n data]) None, (8 + n)%nat)
    else (mkReads [] (Some (default UnexpectedEof e)), 0%nat);
|}.

Lemma toy_zstd_laws : @ZstdLaws toy_zstd.
Proof.
  constructor. intros raw f rest e. cbn [zstd_encode zstd_decode toy_zstd].
  case_decide as Hw; [|done]. intros Hf.
  assert (f = be_encode 8 (len raw) ++ raw) as -> by congruence.
  assert (read_u64 ((be_encode 8 (len raw) ++ raw) ++ rest) 0 = len raw) as Hn.
  { apply read_be_of_slice; [done|]. rewrite <-app_assoc. by apply slice_app_exact. }
  rewrite Hn. assert (Z.to_nat (len raw) = length raw) as -> by (unfold len; lia).
  rewrite decide_True by solve_len.
  assert (length (be_encode 8 (len raw) ++ raw) = (8 + length raw)%nat) as -> by solve_len.
  eexists. split; [done|]. case_decide as Hz.
  - split; [|constructor]. by destruct raw.
  - rewrite <-app_assoc, slice_app_skip by solve_len. rewrite length_be_encode, Nat.sub_diag.
    rewrite slice_app_exact by done. cbn. rewrite app_nil_r. split; [done|].
    repeat constructor. by intros ->.
Qed.

Definition sample_raw : bytes := [x68; x65; x6c; x6c; x6f].
Definition sample_zstd_record : ObjectRecord :=
  mkObjectRecord Blob Format.Zstd 0 5 (@ContentId_for_object toy_digests Blob sample_raw)
    (mkGitOid Sha1 20 (zeros 32)) (be_encode 8 5 ++ sample_raw).

Lemma decode_delivers_validated_witness :
  ∃ out : bytes, accepted sample_raw = accepted ([] : bytes) ++ out ∧ len out ≤ 5 ∧
    (@Ok CodecError unit () = Ok () → len out = 5 ∧ @ContentId_for_object toy_digests Blob out =
       @ContentId_for_object toy_digests Blob sample_raw).
Proof.
  apply (@decode_delivers_validated toy_digests toy_zstd bytes _ _ Blob Format.Zstd 5
    (@ContentId_for_object toy_digests Blob sample_raw)
    (Cursor_new (be_encode 8 5 ++ sample_raw)) [] (Ok ()) sample_raw); [lia|vm_compute; reflexivity].
Defined.

Lemma codec_round_trip_witness :
  @decode_object_payload toy_digests toy_zstd sample_zstd_record = Ok sample_raw ∧
  @verify_object_record toy_digests toy_zstd sample_zstd_record = Ok ().
Proof.
  apply (@codec_round_trip toy_digests toy_zstd toy_zstd_laws Blob Format.Zstd 0
    (mkGitOid Sha1 20 (zeros 32)) sample_raw (be_encode 8 5 ++ sample_raw));
    vm_compute; [discriminate|reflexivity].
Defined.

Definition sample_raw_record : ObjectRecord :=
  mkObjectRecord Blob Raw 0 5 (@ContentId_for_object toy_digests Blob sample_raw)
    (mkGitOid Sha1 20 (zeros 32)) sample_raw.
Lemma content_id_identifies_witness :
  (Blob = Blob ∧ sample_raw = sample_raw) ∨
  (content_preimage Blob sample_raw ≠ content_preimage Blob sample_raw ∧
   @sha256 toy_digests (content_preimage Blob sample_raw) =
   @sha256 toy_digests (content_preimage Blob sample_raw)).
Proof.
  apply (@content_id_identifies toy_digests toy_zstd sample_zstd_record sample_raw_record
    sample_raw sample_raw); vm_compute; first [discriminate|reflexivity].
Defined.

End Codec.
