(* ===== verification/CatalogCodecSpec.v ===== *)
(** * Exactness of the catalog-v1 codecs

    For every codec of [CatalogCodec]: decoding inverts encoding on the values
    the Rust types allow, and every input that decodes is the encoding of the
    decoded value. Keys of different records therefore never collide. *)

From Stdlib Require Import ZArith Lia Strings.Byte.
From stdpp Require Import base tactics list gmap.
From S2P Require Import Prelude Core Format CatalogCodec.
Import Core Format CatalogCodec.

#[local] Open Scope Z_scope.

Module CatalogCodecSpec.

(** A codec is exact on the values satisfying [wf]. *)
Definition exact {A} (wf : A → Prop) (enc : A → bytes) (dec : bytes → result CatalogError A) : Prop :=
  (∀ a, wf a → dec (enc a) = Ok a) ∧ (∀ b a, dec b = Ok a → wf a ∧ enc a = b).

Lemma exact_inj {A} wf (enc : A → bytes) dec a a' :
  exact wf enc dec → wf a → wf a' → enc a = enc a' → a = a'.
Proof.
  intros [He _] Ha Ha' Heq. apply He in Ha, Ha'. rewrite Heq in Ha. congruence.
Qed.

Definition location_wf (l : ObjectLocation) : Prop :=
  is_u32 (ol_generation l) ∧ is_u64 (ol_chunk_id l) ∧ is_u64 (ol_offset l) ∧
  is_u64 (ol_record_length l) ∧ is_u64 (ol_stored_length l) ∧ is_u64 (ol_raw_length l) ∧
  is_u16 (ol_flags l) ∧ is_u32 (ol_payload_crc32c l).
Definition chunk_metadata_wf (m : ChunkMetadata) : Prop :=
  is_u64 (cm_size m) ∧ is_u64 (cm_record_count m).

(** ** Automation *)

Definition version_field : bytes := [byte_of_Z CATALOG_VERSION].

Lemma length_version_field : length version_field = 1%nat.
Proof. done. Qed.
#[export] Hint Rewrite length_version_field : len.

Lemma check_fixed_Ok n b : length b = n → slice 0 1 b = version_field → check_fixed n b = Ok ().
Proof.
  intros Hl Hv. unfold check_fixed. rewrite bind_ensure_decide by done.
  unfold check_version. by rewrite (index_of_slice_Z b 0 CATALOG_VERSION).
Qed.
Lemma check_version_inv v u : check_version v = Ok u → v = CATALOG_VERSION.
Proof. unfold check_version. by case_decide. Qed.
Lemma check_fixed_inv n b u :
  (0 < n)%nat → check_fixed n b = Ok u → length b = n ∧ slice 0 1 b = version_field.
Proof.
  intros Hn H. unfold check_fixed in H. res_inv H.
  apply bool_decide_eq_true in Hr. split; [done|].
  apply check_version_inv in Hk. rewrite index_slice, Hk; [done|lia].
Qed.

(** [layout]: an encoder that fills a zeroed buffer left to right is the
    concatenation of its fields. *)
Ltac layout :=
  cbv zeta; unfold put_be, version_field;
  match goal with |- context [zeros ?n] => rewrite <-(app_nil_l (zeros n)) end;
  repeat (rewrite put_next by solve_len);
  autorewrite with len; cbn [length Nat.sub zeros replicate];
  rewrite ?Nat.sub_diag; cbn [zeros replicate]; rewrite ?app_nil_r, <-?app_assoc; try reflexivity.

(** ** Single-identifier keys *)

Lemma version_id_exact {A} (f : A → bytes) (mk : bytes → A) (n : nat) (enc : A → bytes) :
  (∀ a, mk (f a) = a) → (∀ b, f (mk b) = b) →
  (∀ a, length (f a) = n → enc a = version_field ++ f a) →
  exact (λ a, length (f a) = n) enc (λ b, _ ← check_fixed (S n) b; Ok (mk (drop 1 b))).
Proof.
  intros Hmf Hfm Henc. split.
  - intros a Ha. rewrite Henc by done.
    rewrite check_fixed_Ok; [|cbn; by rewrite Ha|done]. cbn [drop app version_field].
    rewrite bind_Ok. by rewrite drop_0, Hmf.
  - intros b a H. res_inv H. subst a. apply check_fixed_inv in Hr as [Hl Hv]; [|lia].
    assert (length (f (mk (drop 1 b))) = n) as Hw by (rewrite Hfm, length_drop; lia).
    split; [done|]. rewrite Henc, Hfm by done. rewrite <-(take_drop 1 b) at 2.
    f_equal. by rewrite take_slice.
Qed.

(** [cut off n m b]: split the field of [n + m] bytes at [off]. *)
Ltac cut off n m b :=
  let H := fresh in pose proof (slice_split off n m b) as H; cbn [Nat.add] in H; rewrite H; clear H.
Ltac id_layout H := layout; rewrite H; cbn [Nat.sub zeros replicate]; by rewrite ?app_nil_r.

Lemma location_key_layout id :
  ContentId_wf id → encode_object_location_key id = version_field ++ cid_bytes id.
Proof. intros Hw. unfold encode_object_location_key, ContentId_wf in *. id_layout Hw. Qed.
Lemma location_key_exact :
  exact ContentId_wf encode_object_location_key decode_object_location_key.
Proof.
  apply (version_id_exact cid_bytes mkContentId 32); try by intros [].
  apply location_key_layout.
Qed.
Lemma repository_key_exact : exact RepoId_wf encode_repository_key decode_repository_key.
Proof.
  apply (version_id_exact repo_bytes mkRepoId 16); try by intros [].
  intros a Ha. unfold encode_repository_key. id_layout Ha.
Qed.
Lemma workspace_key_layout w : WorkspaceId_wf w → encode_workspace_key w = version_field ++ ws_bytes w.
Proof. intros Hw. unfold encode_workspace_key, WorkspaceId_wf in *. id_layout Hw. Qed.
Lemma workspace_key_exact : exact WorkspaceId_wf encode_workspace_key decode_workspace_key.
Proof.
  apply (version_id_exact ws_bytes mkWorkspaceId 16); try by intros [].
  apply workspace_key_layout.
Qed.
Lemma opaque_key_exact : exact (λ _, True) encode_opaque_key decode_opaque_key.
Proof.
  split; [done|]. intros [|v b] a H; [done|]. unfold decode_opaque_key in H. res_inv H.
  subst a. apply check_version_inv in Hr. split; [done|].
  unfold encode_opaque_key. by rewrite <-Hr, byte_of_to_Z.
Qed.

Lemma gc_pin_key_layout id : GcPinId_wf id →
  encode_gc_pin_key id = version_field ++ [byte_of_Z EXPLICIT_GC_PIN_KEY_TAG] ++ pin_bytes id.
Proof. intros Ha. unfold encode_gc_pin_key, GcPinId_wf in *. id_layout Ha. Qed.
Lemma gc_pin_key_exact : exact GcPinId_wf encode_gc_pin_key decode_gc_pin_key.
Proof.
  split.
  - intros a Ha. rewrite gc_pin_key_layout by done. unfold decode_gc_pin_key, GcPinId_wf in *.
    rewrite check_fixed_Ok; [|cbn; by rewrite Ha|done]. rewrite bind_Ok.
    rewrite bind_ensure_decide by done. cbn [drop app version_field].
    rewrite drop_0. by destruct a.
  - intros b a H. unfold decode_gc_pin_key in H. res_inv H. subst a.
    apply check_fixed_inv in Hr as [Hl Hv]; [|lia]. apply bool_decide_eq_true in Hr0.
    assert (GcPinId_wf (mkGcPinId (drop 2 b))) as Hw
      by (unfold GcPinId_wf; cbn [pin_bytes]; rewrite length_drop; lia).
    split; [done|]. rewrite gc_pin_key_layout by done. cbn [pin_bytes].
    rewrite <-(take_drop 2 b) at 2. rewrite app_assoc. f_equal.
    rewrite take_slice. cut 0%nat 1%nat 1%nat b. rewrite Hv. f_equal.
    cbn [Nat.add]. rewrite index_slice, Hr0; [done|lia].
Qed.

(** ** Composite keys and values *)

Definition repo_snapshot_wf (k : RepoId * SnapshotId) : Prop := RepoId_wf k.1 ∧ SnapshotId_wf k.2.
Lemma snapshot_key_layout r s : RepoId_wf r → SnapshotId_wf s →
  encode_repository_snapshot_key r s = version_field ++ repo_bytes r ++ snap_bytes s.
Proof.
  intros Hr Hs. unfold encode_repository_snapshot_key, RepoId_wf, SnapshotId_wf in *.
  layout. rewrite Hr, Hs. cbn [Nat.sub zeros replicate]. by rewrite app_nil_r.
Qed.
Lemma snapshot_key_exact :
  exact repo_snapshot_wf (uncurry encode_repository_snapshot_key) decode_repository_snapshot_key.
Proof.
  split.
  - intros [r s] [Hr Hs]. cbn [fst snd uncurry] in *. rewrite snapshot_key_layout by done.
    unfold decode_repository_snapshot_key, RepoId_wf, SnapshotId_wf in *.
    rewrite check_fixed_Ok; [|solve_len|done]. rewrite bind_Ok.
    cbn [app version_field]. unfold slice. cbn [drop]. rewrite drop_0.
    rewrite take_app_length' by done. rewrite drop_app_length' by done.
    by destruct r, s.
  - intros b [r s] H. unfold decode_repository_snapshot_key in H. res_inv H. subst.
    apply check_fixed_inv in Hr as [Hl Hv]; [|lia].
    assert (repo_snapshot_wf (mkRepoId (slice 1 16 b), mkSnapshotId (drop 17 b))) as Hw.
    { split; unfold RepoId_wf, SnapshotId_wf; cbn [fst snd repo_bytes snap_bytes]; solve_len. }
    split; [done|]. cbn [uncurry]. rewrite snapshot_key_layout by apply Hw.
    cbn [repo_bytes snap_bytes]. rewrite <-Hv, app_assoc, <-(slice_split 0 1 16).
    cbn [Nat.add]. by rewrite <-take_slice, take_drop.
Qed.

Lemma visibility_exact :
  exact (λ _, True) encode_snapshot_visibility_value decode_snapshot_visibility_value.
Proof.
  split; [by intros []|]. intros b v H. unfold decode_snapshot_visibility_value in H. res_inv H.
  apply check_fixed_inv in Hr as [Hl Hv]; [|lia].
  assert (index b 1 = visibility_tag v) as Ht.
  { revert Hk. unfold visibility_from_tag. repeat case_match; naive_solver. }
  split; [done|]. symmetry. rewrite <-(slice_full b 2) by done.
  cut 0%nat 1%nat 1%nat b. rewrite Hv, index_slice, Ht; [done|lia].
Qed.

Lemma generation_layout g : encode_current_generation_value g = version_field ++ be_encode 4 g.
Proof. unfold encode_current_generation_value. layout. Qed.
Lemma generation_exact :
  exact is_u32 encode_current_generation_value decode_current_generation_value.
Proof.
  split.
  - intros g Hg. rewrite generation_layout. unfold decode_current_generation_value.
    rewrite check_fixed_Ok by done. rewrite bind_Ok. f_equal. by apply read_be_of_slice.
  - intros b g H. unfold decode_current_generation_value in H. res_inv H. subst g.
    apply check_fixed_inv in Hr as [Hl Hv]; [|lia]. split; [apply read_be_range; lia|].
    rewrite generation_layout. symmetry. rewrite <-(slice_full b 5) at 1 by done.
    cut 0%nat 1%nat 4%nat b. rewrite Hv. f_equal. apply slice_of_read_be. lia.
Qed.

Lemma chunk_key_layout g c :
  encode_chunk_key g c = version_field ++ be_encode 4 g ++ be_encode 8 c.
Proof. unfold encode_chunk_key. layout. Qed.
Definition chunk_key_wf (k : Z * Z) : Prop := is_u32 k.1 ∧ is_u64 k.2.
Lemma chunk_key_exact : exact chunk_key_wf (uncurry encode_chunk_key) decode_chunk_key.
Proof.
  split.
  - intros [g c] [Hg Hc]. cbn [uncurry fst snd] in *. rewrite chunk_key_layout.
    unfold decode_chunk_key. rewrite check_fixed_Ok by done. rewrite bind_Ok.
    do 2 f_equal; by apply read_be_of_slice.
  - intros b [g c] H. unfold decode_chunk_key in H. res_inv H. subst g c.
    apply check_fixed_inv in Hr as [Hl Hv]; [|lia].
    split; [split; apply read_be_range; lia|].
    cbn [uncurry]. rewrite chunk_key_layout. symmetry. rewrite <-(slice_full b 13) at 1 by done.
    cut 0%nat 1%nat 12%nat b. cut 1%nat 4%nat 8%nat b. rewrite Hv, !slice_of_read_be by lia. done.
Qed.

Lemma chunk_value_layout m :
  encode_chunk_value m = version_field ++ [byte_of_Z (chunk_state_tag (cm_state m))] ++
    be_encode 8 (cm_size m) ++ be_encode 8 (cm_record_count m).
Proof. unfold encode_chunk_value. layout. Qed.
Lemma chunk_state_from_tag_inv t s : chunk_state_from_tag t = Some s → t = chunk_state_tag s.
Proof. unfold chunk_state_from_tag. intros. repeat case_match; naive_solver. Qed.
Lemma chunk_value_exact : exact chunk_metadata_wf encode_chunk_value decode_chunk_value.
Proof.
  split.
  - intros [st sz n] [Hs Hn]. cbn [cm_state cm_size cm_record_count] in *.
    rewrite chunk_value_layout. unfold decode_chunk_value. rewrite check_fixed_Ok by done.
    cbn [cm_state cm_size cm_record_count].
    rewrite (index_of_slice_Z _ 1 (chunk_state_tag st)); [|by destruct st|done].
    assert (chunk_state_from_tag (chunk_state_tag st) = Some st) as -> by (by destruct st).
    cbn [ok_or]. rewrite !bind_Ok. do 2 f_equal; by apply read_be_of_slice.
  - intros b [st sz n] H. unfold decode_chunk_value in H. res_inv H. subst.
    apply check_fixed_inv in Hr as [Hl Hv]; [|lia]. apply chunk_state_from_tag_inv in Hr0.
    split; [split; apply read_be_range; lia|].
    rewrite chunk_value_layout. cbn [cm_state cm_size cm_record_count].
    symmetry. rewrite <-(slice_full b 18) at 1 by done.
    cut 0%nat 1%nat 17%nat b. cut 1%nat 1%nat 16%nat b. cut 2%nat 8%nat 8%nat b.
    rewrite Hv, index_slice, Hr0, !slice_of_read_be by lia. done.
Qed.

Lemma location_value_layout v :
  encode_object_location_value v =
    version_field ++ be_encode 4 (ol_generation v) ++ be_encode 8 (ol_chunk_id v) ++
    be_encode 8 (ol_offset v) ++ be_encode 8 (ol_record_length v) ++
    be_encode 8 (ol_stored_length v) ++ be_encode 8 (ol_raw_length v) ++
    [byte_of_Z (kind_tag (ol_kind v))] ++ [byte_of_Z (codec_tag (ol_codec v))] ++
    be_encode 2 (ol_flags v) ++ be_encode 4 (ol_payload_crc32c v).
Proof. unfold encode_object_location_value. layout. Qed.
Lemma codec_Ok_inv t c : codec t = Ok c → t = codec_tag c.
Proof. unfold codec. intros. repeat case_match; naive_solver. Qed.
Lemma codec_of_tag c : codec (codec_tag c) = Ok c.
Proof. by destruct c. Qed.

Lemma location_value_decode v :
  location_wf v → decode_object_location_value (encode_object_location_value v) = Ok v.
Proof.
  intros (Hg & Hc & Ho & Hrl & Hsl & Hraw & Hf & Hcrc). rewrite location_value_layout.
  unfold decode_object_location_value. rewrite check_fixed_Ok by done.
  rewrite (index_of_slice_Z _ 45 (kind_tag (ol_kind v))); [|apply kind_tag_u8|done].
  rewrite (index_of_slice_Z _ 46 (codec_tag (ol_codec v))); [|apply codec_tag_u8|done].
  rewrite kind_from_to_tag, codec_of_tag. cbn [ok_or]. rewrite !bind_Ok.
  destruct v. cbn [ol_generation ol_chunk_id ol_offset ol_record_length ol_stored_length
    ol_raw_length ol_kind ol_codec ol_flags ol_payload_crc32c] in *.
  do 2 f_equal; by apply read_be_of_slice.
Qed.
Lemma location_value_exact :
  exact location_wf encode_object_location_value decode_object_location_value.
Proof.
  split; [exact location_value_decode|].
  intros b v H. unfold decode_object_location_value in H. res_inv H. subst v.
  apply check_fixed_inv in Hr as [Hl Hv]; [|lia].
  apply kind_from_tag_inv in Hr0. apply codec_Ok_inv in Hr1.
  split; [split_and!; apply read_be_range; lia|].
  rewrite location_value_layout.
  cbn [ol_generation ol_chunk_id ol_offset ol_record_length ol_stored_length ol_raw_length
       ol_kind ol_codec ol_flags ol_payload_crc32c].
  symmetry. rewrite <-(slice_full b 53) at 1 by done.
  cut 0%nat 1%nat 52%nat b. cut 1%nat 4%nat 48%nat b. cut 5%nat 8%nat 40%nat b.
  cut 13%nat 8%nat 32%nat b. cut 21%nat 8%nat 24%nat b. cut 29%nat 8%nat 16%nat b.
  cut 37%nat 8%nat 8%nat b. cut 45%nat 1%nat 7%nat b. cut 46%nat 1%nat 6%nat b.
  cut 47%nat 2%nat 4%nat b.
  rewrite Hv, !index_slice, Hr0, Hr1, !slice_of_read_be by lia. done.
Qed.

Definition alias_key_wf (k : RepoId * GitOid) : Prop := RepoId_wf k.1 ∧ GitOid_wf k.2.
Lemma alias_key_slices r o : RepoId_wf r → GitOid_wf o →
  let b := encode_oid_alias_key r o in
  Z.of_nat (length b) = 19 + oid_len (algorithm o) ∧ slice 0 1 b = version_field ∧
  slice 1 16 b = repo_bytes r ∧ slice 17 1 b = [byte_of_Z (alg_tag (algorithm o))] ∧
  slice 18 1 b = [byte_of_Z (oid_len (algorithm o))] ∧ drop 19 b = oid_as_bytes o.
Proof.
  intros Hr Ho b. pose proof (length_oid_as_bytes o Ho) as Hlen. destruct Ho as (Hl & _).
  unfold RepoId_wf in Hr. subst b. unfold encode_oid_alias_key. rewrite Hl.
  split_and!.
  - rewrite !length_app. cbn [length]. lia.
  - done.
  - rewrite slice_app_skip by done. by apply slice_app_exact.
  - rewrite app_assoc, slice_app_skip by solve_len. autorewrite with len. by rewrite Hr.
  - rewrite app_assoc, slice_app_skip by solve_len. autorewrite with len. by rewrite Hr.
  - rewrite !app_assoc, drop_app_length' by solve_len. done.
Qed.
Lemma alias_key_exact : exact alias_key_wf (uncurry encode_oid_alias_key) decode_oid_alias_key.
Proof.
  split.
  - intros [r o] [Hr Ho]. cbn [uncurry fst snd] in *.
    destruct (alias_key_slices r o Hr Ho) as (Hl & Hv & Hrepo & Ha & Hn & Hd).
    pose proof (oid_len_bounds (algorithm o)). unfold decode_oid_alias_key.
    rewrite bind_ensure_decide by (unfold REPO_ID_LEN; lia).
    rewrite (index_of_slice_Z _ 0 CATALOG_VERSION), Hrepo by done.
    rewrite (index_of_slice_Z _ 17 (alg_tag (algorithm o))); [|apply alg_tag_u8|done].
    rewrite (index_of_slice_Z _ 18 (oid_len (algorithm o))); [|unfold in_width; lia|done].
    rewrite alg_from_to_tag. unfold check_version. rewrite decide_True by done.
    cbn [ok_or]. rewrite !bind_Ok, bind_ensure by (by rewrite !bool_decide_eq_true_2).
    rewrite Hd, GitOid_new_as_bytes by done. by destruct r.
  - intros b [r o] H. unfold decode_oid_alias_key in H. res_inv H. subst r.
    apply bool_decide_eq_true in Hr. apply andb_true_iff in Hr2 as [Hn Hl].
    apply bool_decide_eq_true in Hn, Hl. apply check_version_inv in Hr0.
    apply alg_from_tag_inv in Hr1. apply GitOid_new_wf in Hr3 as (Ho & Ha & Hb). cbn in Hr.
    split; [split; [unfold RepoId_wf; cbn [fst repo_bytes]; solve_len|by subst]|].
    subst r4.     cbn [uncurry]. unfold encode_oid_alias_key. cbn [repo_bytes].
    rewrite Hb, (proj1 Ho), Ha, <-Hr1, <-Hn. symmetry. rewrite <-(take_drop 19 b) at 1.
    rewrite take_slice. cut 0%nat 1%nat 18%nat b. cut 1%nat 16%nat 2%nat b. cut 17%nat 1%nat 1%nat b.
    rewrite !index_slice, Hr0 by lia. by rewrite <-!app_assoc.
Qed.

(** The two kinds of keys of the [pins] column family never meet. *)
Lemma pin_keys_disjoint w p :
  WorkspaceId_wf w → GcPinId_wf p → encode_workspace_pin_key w ≠ encode_gc_pin_key p.
Proof.
  intros Hw Hp H. apply (f_equal length) in H. unfold WorkspaceId_wf, GcPinId_wf in *.
  rewrite gc_pin_key_layout in H by done.
  unfold encode_workspace_pin_key in H. rewrite workspace_key_layout in H by done.
  autorewrite with len in H. cbn [length] in H. lia.
Qed.

(** C28. Every catalog-v1 codec is exact: for all eleven key and value shapes,
    decoding inverts encoding on the values the types allow, and an input that
    decodes is the encoding of what it decodes to. *)
Theorem catalog_codecs_exact :
  exact ContentId_wf encode_object_location_key decode_object_location_key ∧
  exact location_wf encode_object_location_value decode_object_location_value ∧
  exact alias_key_wf (uncurry encode_oid_alias_key) decode_oid_alias_key ∧
  exact ContentId_wf encode_content_id_value decode_content_id_value ∧
  exact RepoId_wf encode_repository_key decode_repository_key ∧
  exact repo_snapshot_wf (uncurry encode_repository_snapshot_key) decode_repository_snapshot_key ∧
  exact (λ _, True) encode_snapshot_visibility_value decode_snapshot_visibility_value ∧
  exact chunk_key_wf (uncurry encode_chunk_key) decode_chunk_key ∧
  exact chunk_metadata_wf encode_chunk_value decode_chunk_value ∧
  exact is_u32 encode_current_generation_value decode_current_generation_value ∧
  exact WorkspaceId_wf encode_workspace_key decode_workspace_key ∧
  exact GcPinId_wf encode_gc_pin_key decode_gc_pin_key ∧
  exact (λ _, True) encode_opaque_key decode_opaque_key.
Proof.
  split_and!; auto using location_key_exact, location_value_exact, alias_key_exact,
    repository_key_exact, snapshot_key_exact, visibility_exact, chunk_key_exact,
    chunk_value_exact, generation_exact, workspace_key_exact, gc_pin_key_exact, opaque_key_exact.
Qed.

End CatalogCodecSpec.
