(* ===== verification/Catalog.v ===== *)
(** * The catalog: [reflink-forest-index/src/lib.rs], lines 585 to 1205

    Batches of catalog operations, the [Catalog] and
    [ObjectLocationRebuildCatalog] traits as classes, their default methods
    (repository deletion, garbage-collection roots, current generation), and
    the in-memory catalog, which is also the specification other backends
    refine. *)

From Stdlib Require Import ZArith Lia Strings.Byte Strings.String.
From stdpp Require Import base tactics list sorting gmap strings.
From S2P Require Import Prelude Order Core Format CatalogCodec.
Import Core Format CatalogCodec.

#[local] Open Scope Z_scope.

Module Catalog.

(** ** Records the catalog enumerates *)

Record RepositorySnapshot := mkRepositorySnapshot {
  rs_repository : RepoId; rs_snapshot : SnapshotId; rs_visibility : SnapshotVisibility }.
Record GcPin := mkGcPin { gp_id : GcPinId; gp_generation : Z }.
Inductive GcRoot :=
| GcRepositorySnapshot (repository : RepoId) (snapshot : SnapshotId)
| GcWorkspacePin (workspace : WorkspaceId) (generation : Z)
| GcExplicitPin (pin : GcPin).
Record ObjectLocationEntry := mkObjectLocationEntry {
  oe_content_id : ContentId; oe_location : ObjectLocation }.
Record OidAliasEntry := mkOidAliasEntry {
  ae_repository : RepoId; ae_oid : GitOid; ae_content_id : ContentId }.
Record ChunkEntry := mkChunkEntry {
  ce_generation : Z; ce_chunk_id : Z; ce_metadata : ChunkMetadata }.

(** The derived orders. *)
Definition RepositorySnapshot_cmp : RepositorySnapshot → RepositorySnapshot → comparison :=
  cmp_on (λ s, (repo_bytes (rs_repository s), (snap_bytes (rs_snapshot s),
                visibility_tag (rs_visibility s))))
         (cmp_pair bytes_compare (cmp_pair bytes_compare Z.compare)).
Definition GcPin_cmp : GcPin → GcPin → comparison :=
  cmp_on (λ p, (pin_bytes (gp_id p), gp_generation p)) (cmp_pair bytes_compare Z.compare).
Definition workspace_pin_cmp : WorkspaceId * Z → WorkspaceId * Z → comparison :=
  cmp_on (λ p, (ws_bytes p.1, p.2)) (cmp_pair bytes_compare Z.compare).
(** An enum compares by variant, then by the variant's fields in order. *)
Definition GcRoot_key (r : GcRoot) : Z * (bytes * (bytes * Z)) :=
  match r with
  | GcRepositorySnapshot r s => (0, (repo_bytes r, (snap_bytes s, 0)))
  | GcWorkspacePin w g => (1, (ws_bytes w, ([], g)))
  | GcExplicitPin p => (2, (pin_bytes (gp_id p), ([], gp_generation p)))
  end.
Definition GcRoot_cmp : GcRoot → GcRoot → comparison :=
  cmp_on GcRoot_key (cmp_pair Z.compare (cmp_pair bytes_compare (cmp_pair bytes_compare Z.compare))).
Definition location_entry_cmp : ObjectLocationEntry → ObjectLocationEntry → comparison :=
  cmp_on (λ e, cid_bytes (oe_content_id e)) bytes_compare.
Definition alias_entry_cmp : OidAliasEntry → OidAliasEntry → comparison :=
  cmp_on (λ e, (repo_bytes (ae_repository e), (alg_tag (algorithm (ae_oid e)),
                oid_as_bytes (ae_oid e))))
         (cmp_pair bytes_compare (cmp_pair Z.compare bytes_compare)).
Definition chunk_entry_cmp : ChunkEntry → ChunkEntry → comparison :=
  cmp_on (λ e, (ce_generation e, ce_chunk_id e)) (cmp_pair Z.compare Z.compare).

(** A visitor is a fold that may stop with an error. *)
Fixpoint try_fold {E A S} (f : S → A → result E S) (l : list A) (s : S) : result E S :=
  match l with
  | [] => Ok s
  | x :: l => s' ← f s x; try_fold f l s'
  end.

(** ** Batches *)

Inductive Operation :=
| OpObjectLocation (id : ContentId) (location : ObjectLocation)
| OpOidAlias (repo : RepoId) (oid : GitOid) (id : ContentId)
| OpRepository (id : RepoId) (record : bytes)
| OpDeleteRepository (id : RepoId)
| OpRepositorySnapshot (repository : RepoId) (snapshot : SnapshotId) (v : SnapshotVisibility)
| OpDeleteRepositorySnapshot (repository : RepoId) (snapshot : SnapshotId)
| OpChunkMetadata (generation chunk_id : Z) (m : ChunkMetadata)
| OpMeta (key value : bytes)
| OpWorkspace (id : WorkspaceId) (record : bytes)
| OpWorkspaceName (name : bytes) (id : WorkspaceId)
| OpWorkspacePin (id : WorkspaceId) (generation : Z)
| OpDeleteWorkspacePin (id : WorkspaceId)
| OpGcPin (id : GcPinId) (generation : Z)
| OpDeleteGcPin (id : GcPinId)
| OpJob (job_id record : bytes).

(** The batch in push order. *)
Definition CatalogBatch : Type := list Operation.
Definition batch_new : CatalogBatch := [].
Definition put_object_location (b : CatalogBatch) id l := b ++ [OpObjectLocation id l].
Definition put_oid_alias (b : CatalogBatch) repo oid id := b ++ [OpOidAlias repo oid id].
Definition put_repository (b : CatalogBatch) id record := b ++ [OpRepository id record].
Definition batch_delete_repository (b : CatalogBatch) id := b ++ [OpDeleteRepository id].
Definition put_repository_snapshot (b : CatalogBatch) r s v := b ++ [OpRepositorySnapshot r s v].
Definition delete_repository_snapshot (b : CatalogBatch) r s :=
  b ++ [OpDeleteRepositorySnapshot r s].
Definition put_chunk (b : CatalogBatch) g c m := b ++ [OpChunkMetadata g c m].
Definition put_meta (b : CatalogBatch) key value := b ++ [OpMeta key value].
Definition put_current_generation (b : CatalogBatch) (g : Z) :=
  b ++ [OpMeta CURRENT_GENERATION_META_KEY (be_encode 4 g)].
Definition put_workspace (b : CatalogBatch) id record := b ++ [OpWorkspace id record].
Definition put_workspace_name (b : CatalogBatch) name id := b ++ [OpWorkspaceName name id].
Definition put_workspace_pin (b : CatalogBatch) id g := b ++ [OpWorkspacePin id g].
Definition delete_workspace_pin (b : CatalogBatch) id := b ++ [OpDeleteWorkspacePin id].
Definition put_gc_pin (b : CatalogBatch) id g := b ++ [OpGcPin id g].
Definition delete_gc_pin (b : CatalogBatch) id := b ++ [OpDeleteGcPin id].
Definition put_job (b : CatalogBatch) id record := b ++ [OpJob id record].

Definition is_marker_write (op : Operation) : bool :=
  match op with
  | OpMeta key _ => bool_decide (key = OBJECT_LOCATION_REBUILD_META_KEY)
  | _ => false
  end.
Definition reject_direct_rebuild_marker_mutation (b : CatalogBatch) : result CatalogError unit :=
  if existsb is_marker_write b
  then Err (UnsupportedOperation "direct object-location rebuild metadata mutation")
  else Ok ().

(** ** The traits *)

Class Catalog (C : Type) := {
  apply : C → CatalogBatch → result CatalogError unit * C;
  object_location : C → ContentId → option ObjectLocation;
  object_location_rebuild_state : C → result CatalogError ObjectLocationRebuildState;
  visit_object_locations : ∀ {S}, C → (S → ObjectLocationEntry → result CatalogError S) →
    S → result CatalogError S;
  visit_oid_aliases : ∀ {S}, C → (S → OidAliasEntry → result CatalogError S) →
    S → result CatalogError S;
  visit_chunks : ∀ {S}, C → (S → ChunkEntry → result CatalogError S) →
    S → result CatalogError S;
  oid_alias : C → RepoId → GitOid → option ContentId;
  repository : C → RepoId → option bytes;
  repository_snapshot : C → RepoId → SnapshotId → option SnapshotVisibility;
  repository_snapshots : C → result CatalogError (list RepositorySnapshot);
  chunk : C → Z → Z → option ChunkMetadata;
  meta : C → bytes → option bytes;
  workspace : C → WorkspaceId → option bytes;
  workspace_name : C → bytes → option WorkspaceId;
  workspace_pin : C → WorkspaceId → option Z;
  workspace_pins : C → result CatalogError (list (WorkspaceId * Z));
  gc_pins : C → result CatalogError (list GcPin);
  job : C → bytes → option bytes;
}.

Class ObjectLocationRebuildCatalog (C : Type) := {
  begin_object_location_rebuild : C → result CatalogError unit * C;
  restart_object_location_rebuild : C → result CatalogError unit * C;
  append_rebuilt_object_locations :
    C → list ObjectLocationEntry → result CatalogError unit * C;
  finish_object_location_rebuild : C → result CatalogError unit * C;
}.

(** ** Default methods of the trait *)

Section Defaults.
Context `{Catalog C}.

(** The batch [Catalog::delete_repository] builds. *)
Definition delete_repository_batch (repo : RepoId) (snapshots : list RepositorySnapshot)
    : CatalogBatch :=
  fold_left (λ b s, if decide (rs_repository s = repo)
                    then delete_repository_snapshot b repo (rs_snapshot s) else b)
    snapshots (batch_delete_repository batch_new repo).

Definition delete_repository (c : C) (repo : RepoId) : result CatalogError unit * C :=
  match repository_snapshots c with
  | Err e => (Err e, c)
  | Ok snapshots => apply c (delete_repository_batch repo snapshots)
  end.

Definition current_generation (c : C) : option Z :=
  value ← meta c CURRENT_GENERATION_META_KEY;
  if decide (length value = 4%nat) then Some (be_decode value) else None.

Definition ready_roots (snapshots : list RepositorySnapshot) : list GcRoot :=
  omap (λ s, if decide (rs_visibility s = Ready)
             then Some (GcRepositorySnapshot (rs_repository s) (rs_snapshot s)) else None)
    snapshots.

Definition gc_roots (c : C) : result CatalogError (list GcRoot) :=
  snapshots ← repository_snapshots c;
  pins ← workspace_pins c;
  gpins ← gc_pins c;
  Ok (sort_by GcRoot_cmp
        (ready_roots snapshots ++ map (λ p, GcWorkspacePin p.1 p.2) pins ++
         map GcExplicitPin gpins)).
End Defaults.

(** ** The in-memory catalog *)

Record InMemoryCatalog := mkInMemoryCatalog {
  im_objects : gmap ContentId ObjectLocation;
  im_rebuild : bool;
  im_aliases : gmap (RepoId * GitOid) ContentId;
  im_repositories : gmap RepoId bytes;
  im_snapshots : gmap (RepoId * SnapshotId) SnapshotVisibility;
  im_chunks : gmap (Z * Z) ChunkMetadata;
  im_meta : gmap bytes bytes;
  im_workspaces : gmap WorkspaceId bytes;
  im_workspace_names : gmap bytes WorkspaceId;
  im_workspace_pins : gmap WorkspaceId Z;
  im_gc_pins : gmap GcPinId Z;
  im_jobs : gmap bytes bytes;
}.
Definition InMemoryCatalog_default : InMemoryCatalog :=
  mkInMemoryCatalog ∅ false ∅ ∅ ∅ ∅ ∅ ∅ ∅ ∅ ∅ ∅.

Definition set_objects (f : gmap ContentId ObjectLocation → gmap ContentId ObjectLocation)
    (c : InMemoryCatalog) : InMemoryCatalog :=
  let '(mkInMemoryCatalog o rb al re sn ch me ws wn wp gp jb) := c in
  mkInMemoryCatalog (f o) rb al re sn ch me ws wn wp gp jb.
Definition set_rebuild (r : bool) (c : InMemoryCatalog) : InMemoryCatalog :=
  let '(mkInMemoryCatalog o _ al re sn ch me ws wn wp gp jb) := c in
  mkInMemoryCatalog o r al re sn ch me ws wn wp gp jb.

(** One iteration of the loop of [apply], on the staged clone. *)
Definition apply_op (s : InMemoryCatalog) (op : Operation) : result CatalogError InMemoryCatalog :=
  let '(mkInMemoryCatalog o rb al re sn ch me ws wn wp gp jb) := s in
  match op with
  | OpObjectLocation id l =>
      Ok (mkInMemoryCatalog (<[id := l]> o) rb al re sn ch me ws wn wp gp jb)
  | OpChunkMetadata g c m =>
      Ok (mkInMemoryCatalog o rb al re sn (<[(g, c) := m]> ch) me ws wn wp gp jb)
  | OpRepository id r =>
      Ok (mkInMemoryCatalog o rb al (<[id := r]> re) sn ch me ws wn wp gp jb)
  | OpDeleteRepository id =>
      Ok (mkInMemoryCatalog o rb al (delete id re) sn ch me ws wn wp gp jb)
  | OpRepositorySnapshot r s v =>
      Ok (mkInMemoryCatalog o rb al re (<[(r, s) := v]> sn) ch me ws wn wp gp jb)
  | OpDeleteRepositorySnapshot r s =>
      Ok (mkInMemoryCatalog o rb al re (delete (r, s) sn) ch me ws wn wp gp jb)
  | OpMeta k v =>
      Ok (mkInMemoryCatalog o rb al re sn ch (<[k := v]> me) ws wn wp gp jb)
  | OpWorkspace id r =>
      Ok (mkInMemoryCatalog o rb al re sn ch me (<[id := r]> ws) wn wp gp jb)
  | OpWorkspaceName n id =>
      Ok (mkInMemoryCatalog o rb al re sn ch me ws (<[n := id]> wn) wp gp jb)
  | OpWorkspacePin id g =>
      Ok (mkInMemoryCatalog o rb al re sn ch me ws wn (<[id := g]> wp) gp jb)
  | OpDeleteWorkspacePin id =>
      Ok (mkInMemoryCatalog o rb al re sn ch me ws wn (delete id wp) gp jb)
  | OpGcPin id g =>
      Ok (mkInMemoryCatalog o rb al re sn ch me ws wn wp (<[id := g]> gp) jb)
  | OpDeleteGcPin id =>
      Ok (mkInMemoryCatalog o rb al re sn ch me ws wn wp (delete id gp) jb)
  | OpJob id r =>
      Ok (mkInMemoryCatalog o rb al re sn ch me ws wn wp gp (<[id := r]> jb))
  | OpOidAlias repo oid id =>
      match al !! (repo, oid) with
      | Some existing =>
          if decide (existing ≠ id) then Err (AliasConflict repo oid existing id)
          else Ok (mkInMemoryCatalog o rb (<[(repo, oid) := id]> al) re sn ch me ws wn wp gp jb)
      | None => Ok (mkInMemoryCatalog o rb (<[(repo, oid) := id]> al) re sn ch me ws wn wp gp jb)
      end
  end.

Definition im_apply (c : InMemoryCatalog) (b : CatalogBatch) : result CatalogError unit * InMemoryCatalog :=
  if im_rebuild c then (Err ObjectLocationRebuildInProgress, c)
  else match reject_direct_rebuild_marker_mutation b with
  | Err e => (Err e, c)
  | Ok _ =>
      match try_fold apply_op b c with
      | Ok staged => (Ok (), staged)
      | Err e => (Err e, c)
      end
  end.

Definition im_object_location (c : InMemoryCatalog) (id : ContentId) : option ObjectLocation :=
  if im_rebuild c then None else im_objects c !! id.

(** The sorted listings behind the visitors and enumerations. *)
Definition im_location_entries (c : InMemoryCatalog) : list ObjectLocationEntry :=
  sort_by location_entry_cmp
    (map (λ p, mkObjectLocationEntry p.1 p.2) (map_to_list (im_objects c))).
Definition im_alias_entries (c : InMemoryCatalog) : list OidAliasEntry :=
  sort_by alias_entry_cmp
    (map (λ p, mkOidAliasEntry p.1.1 p.1.2 p.2) (map_to_list (im_aliases c))).
Definition im_chunk_entries (c : InMemoryCatalog) : list ChunkEntry :=
  sort_by chunk_entry_cmp
    (map (λ p, mkChunkEntry p.1.1 p.1.2 p.2) (map_to_list (im_chunks c))).
Definition im_snapshot_list (c : InMemoryCatalog) : list RepositorySnapshot :=
  sort_by RepositorySnapshot_cmp
    (map (λ p, mkRepositorySnapshot p.1.1 p.1.2 p.2) (map_to_list (im_snapshots c))).
Definition im_workspace_pin_list (c : InMemoryCatalog) : list (WorkspaceId * Z) :=
  sort_by workspace_pin_cmp (map_to_list (im_workspace_pins c)).
Definition im_gc_pin_list (c : InMemoryCatalog) : list GcPin :=
  sort_by GcPin_cmp (map (λ p, mkGcPin p.1 p.2) (map_to_list (im_gc_pins c))).

#[export] Instance InMemoryCatalog_Catalog : Catalog InMemoryCatalog := {
  apply := im_apply;
  object_location := im_object_location;
  object_location_rebuild_state c := Ok (if im_rebuild c then InProgress else Idle);
  visit_object_locations S c f s :=
    if im_rebuild c then Err ObjectLocationRebuildInProgress
    else try_fold f (im_location_entries c) s;
  visit_oid_aliases S c f s := try_fold f (im_alias_entries c) s;
  visit_chunks S c f s :=
    if im_rebuild c then Err ObjectLocationRebuildInProgress
    else try_fold f (im_chunk_entries c) s;
  oid_alias c repo oid := im_aliases c !! (repo, oid);
  repository c id := im_repositories c !! id;
  repository_snapshot c r s := im_snapshots c !! (r, s);
  repository_snapshots c := Ok (im_snapshot_list c);
  chunk c g k := im_chunks c !! (g, k);
  meta c k := im_meta c !! k;
  workspace c id := im_workspaces c !! id;
  workspace_name c n := im_workspace_names c !! n;
  workspace_pin c id := im_workspace_pins c !! id;
  workspace_pins c := Ok (im_workspace_pin_list c);
  gc_pins c := Ok (im_gc_pin_list c);
  job c id := im_jobs c !! id;
}.

(** The duplicate check of [append_rebuilt_object_locations]. *)
Fixpoint check_rebuilt (seen : gset ContentId) (known : ContentId → bool)
    (entries : list ObjectLocationEntry) : result CatalogError unit :=
  match entries with
  | [] => Ok ()
  | e :: entries =>
      let id := oe_content_id e in
      if bool_decide (id ∈ seen) || known id then Err (DuplicateRebuiltObjectLocation id)
      else check_rebuilt ({[id]} ∪ seen) known entries
  end.
Definition insert_entries (entries : list ObjectLocationEntry)
    (m : gmap ContentId ObjectLocation) : gmap ContentId ObjectLocation :=
  fold_left (λ m e, <[oe_content_id e := oe_location e]> m) entries m.

Definition im_begin (c : InMemoryCatalog) : result CatalogError unit * InMemoryCatalog :=
  if im_rebuild c then (Err ObjectLocationRebuildInProgress, c)
  else (Ok (), set_rebuild true (set_objects (λ _, ∅) c)).
Definition im_restart (c : InMemoryCatalog) : result CatalogError unit * InMemoryCatalog :=
  if negb (im_rebuild c) then (Err ObjectLocationRebuildNotInProgress, c)
  else (Ok (), set_objects (λ _, ∅) c).
Definition im_append (c : InMemoryCatalog) (entries : list ObjectLocationEntry)
    : result CatalogError unit * InMemoryCatalog :=
  if negb (im_rebuild c) then (Err ObjectLocationRebuildNotInProgress, c)
  else match check_rebuilt ∅ (λ id, bool_decide (is_Some (im_objects c !! id))) entries with
  | Err e => (Err e, c)
  | Ok _ => (Ok (), set_objects (insert_entries entries) c)
  end.
Definition im_finish (c : InMemoryCatalog) : result CatalogError unit * InMemoryCatalog :=
  if negb (im_rebuild c) then (Err ObjectLocationRebuildNotInProgress, c)
  else (Ok (), set_rebuild false c).

#[export] Instance InMemoryCatalog_Rebuild : ObjectLocationRebuildCatalog InMemoryCatalog := {
  begin_object_location_rebuild := im_begin;
  restart_object_location_rebuild := im_restart;
  append_rebuilt_object_locations := im_append;
  finish_object_location_rebuild := im_finish;
}.

End Catalog.
