(* ===== verification/CatalogSpec.v ===== *)
(** * What the catalog promises

    The abstract catalog is one map from keys to values; a batch is a list of
    writes to it. The in-memory catalog implements it atomically, keeps alias
    bindings forever, runs the locations-only rebuild fail-closed, and
    enumerates exactly the live garbage-collection roots. *)

From Stdlib Require Import ZArith Lia Strings.Byte Strings.String.
From stdpp Require Import base tactics list sorting gmap strings relations.
From S2P Require Import Prelude Order Core Format CatalogCodec Catalog.
Import Core Format CatalogCodec Catalog.

#[local] Open Scope Z_scope.

Module CatalogSpec.

(** ** The abstract catalog *)

Inductive CatKey :=
| KObject (id : ContentId)
| KAlias (repo : RepoId) (oid : GitOid)
| KRepository (id : RepoId)
| KSnapshot (repo : RepoId) (snapshot : SnapshotId)
| KChunk (generation chunk_id : Z)
| KMeta (key : bytes)
| KWorkspace (id : WorkspaceId)
| KWorkspaceName (name : bytes)
| KWorkspacePin (id : WorkspaceId)
| KGcPin (id : GcPinId)
| KJob (id : bytes).
#[export] Instance CatKey_eq_dec : EqDecision CatKey.
Proof. solve_decision. Defined.

Inductive CatValue :=
| VLocation (l : ObjectLocation)
| VContent (id : ContentId)
| VVisibility (v : SnapshotVisibility)
| VChunk (m : ChunkMetadata)
| VWorkspace (id : WorkspaceId)
| VGeneration (g : Z)
| VOpaque (b : bytes).

(** What the in-memory catalog stores under a key. *)
Definition stored (c : InMemoryCatalog) (k : CatKey) : option CatValue :=
  match k with
  | KObject id => VLocation <$> im_objects c !! id
  | KAlias r o => VContent <$> im_aliases c !! (r, o)
  | KRepository id => VOpaque <$> im_repositories c !! id
  | KSnapshot r s => VVisibility <$> im_snapshots c !! (r, s)
  | KChunk g n => VChunk <$> im_chunks c !! (g, n)
  | KMeta k => VOpaque <$> im_meta c !! k
  | KWorkspace id => VOpaque <$> im_workspaces c !! id
  | KWorkspaceName n => VWorkspace <$> im_workspace_names c !! n
  | KWorkspacePin id => VGeneration <$> im_workspace_pins c !! id
  | KGcPin id => VGeneration <$> im_gc_pins c !! id
  | KJob id => VOpaque <$> im_jobs c !! id
  end.

(** The write an operation asks for: a key and its new value, [None] to delete. *)
Definition op_write (op : Operation) : CatKey * option CatValue :=
  match op with
  | OpObjectLocation id l => (KObject id, Some (VLocation l))
  | OpOidAlias r o id => (KAlias r o, Some (VContent id))
  | OpRepository id b => (KRepository id, Some (VOpaque b))
  | OpDeleteRepository id => (KRepository id, None)
  | OpRepositorySnapshot r s v => (KSnapshot r s, Some (VVisibility v))
  | OpDeleteRepositorySnapshot r s => (KSnapshot r s, None)
  | OpChunkMetadata g n m => (KChunk g n, Some (VChunk m))
  | OpMeta k v => (KMeta k, Some (VOpaque v))
  | OpWorkspace id b => (KWorkspace id, Some (VOpaque b))
  | OpWorkspaceName n id => (KWorkspaceName n, Some (VWorkspace id))
  | OpWorkspacePin id g => (KWorkspacePin id, Some (VGeneration g))
  | OpDeleteWorkspacePin id => (KWorkspacePin id, None)
  | OpGcPin id g => (KGcPin id, Some (VGeneration g))
  | OpDeleteGcPin id => (KGcPin id, None)
  | OpJob id b => (KJob id, Some (VOpaque b))
  end.

(** Performing the writes of a batch in order: the last one to a key wins. *)
Definition write_effect (f : CatKey → option CatValue) (op : Operation) : CatKey → option CatValue :=
  λ k, if decide (k = (op_write op).1) then (op_write op).2 else f k.
Definition batch_effect (f : CatKey → option CatValue) (b : CatalogBatch) : CatKey → option CatValue :=
  fold_left write_effect b f.

(** A batch is consistent when no alias write contradicts the binding in force. *)
Fixpoint aliases_agree (f : CatKey → option CatValue) (b : CatalogBatch) : Prop :=
  match b with
  | [] => True
  | op :: b =>
      match op with
      | OpOidAlias r o id => f (KAlias r o) = None ∨ f (KAlias r o) = Some (VContent id)
      | _ => True
      end ∧ aliases_agree (write_effect f op) b
  end.

(** Two abstract catalogs are the same when they agree on every key. *)
Definition same (f g : CatKey → option CatValue) : Prop := ∀ k, f k = g k.
#[export] Instance same_equivalence : Equivalence same.
Proof. split; [by intros f k|by intros f g H k|intros f g h H H' k; by rewrite (H k)]. Qed.
#[export] Instance write_effect_proper : Proper (same ==> eq ==> same) write_effect.
Proof. intros f g H op ? <- k. unfold write_effect. by case_decide. Qed.
#[export] Instance batch_effect_proper : Proper (same ==> eq ==> same) batch_effect.
Proof.
  intros f g H b ? <-. unfold batch_effect. revert f g H.
  induction b as [|op b IH]; intros f g H; [done|]. cbn. apply IH. by rewrite H.
Qed.
#[export] Instance aliases_agree_proper : Proper (same ==> eq ==> iff) aliases_agree.
Proof.
  intros f g H b ? <-. revert f g H. induction b as [|op b IH]; intros f g H; [done|]. cbn.
  rewrite (IH _ _ (write_effect_proper _ _ H _ _ eq_refl)). by destruct op; rewrite ?(H _).
Qed.

(** ** [apply] *)

Lemma apply_op_stored s op s' :
  apply_op s op = Ok s' → same (stored s') (write_effect (stored s) op).
Proof.
  intros H k. unfold write_effect.
  destruct s, op; cbn in H;
    repeat match type of H with context [match ?x with _ => _ end] => destruct x end;
    try discriminate H; injection H as <-; destruct k; cbn; try done;
    (case_decide as Hk; [simplify_eq; by rewrite ?lookup_insert_eq, ?lookup_delete_eq|]);
    first [by rewrite lookup_insert_ne by congruence|by rewrite lookup_delete_ne by congruence].
Qed.

Lemma apply_op_agree s op :
  is_ok (apply_op s op) = true ↔
    match op with
    | OpOidAlias r o id => stored s (KAlias r o) = None ∨ stored s (KAlias r o) = Some (VContent id)
    | _ => True
    end.
Proof.
  destruct s, op; cbn; try done.
  destruct (_ !! (repo, oid)) as [e|]; cbn; [|by split; [left|]].
  case_decide as Hd; cbn; [split; [done|]|split; [right; congruence|done]].
  intros [|[= ->]]; done.
Qed.

Lemma apply_ops_spec b s :
  match try_fold apply_op b s with
  | Ok s' => aliases_agree (stored s) b ∧ same (stored s') (batch_effect (stored s) b) ∧
             im_rebuild s' = im_rebuild s
  | Err e => ¬ aliases_agree (stored s) b
  end.
Proof.
  revert s. induction b as [|op b IH]; intros s; [done|].
  pose proof (apply_op_agree s op) as Ha. cbn [try_fold aliases_agree batch_effect fold_left].
  destruct (apply_op s op) as [s1|e] eqn:E; cbn in Ha |- *;
    [|intros [Hop _]; by apply Ha in Hop].
  assert (im_rebuild s1 = im_rebuild s) as Hrb.
  { clear Ha IH. destruct s, op; cbn in E; repeat case_match; by inversion E. }
  apply apply_op_stored in E. specialize (IH s1).
  destruct (try_fold apply_op b s1) as [s2|e2]; cbn.
  - destruct IH as (H1 & H2 & H3). rewrite E in H1, H2.
    split; [split; [by apply Ha|done]|]. split; [done|by rewrite H3].
  - rewrite <-E. by intros [_ ?].
Qed.

(** Marker writes are the batches the catalog refuses outright. *)
Definition writes_marker (b : CatalogBatch) : Prop :=
  ∃ v, OpMeta OBJECT_LOCATION_REBUILD_META_KEY v ∈ b.
Lemma existsb_marker b : existsb is_marker_write b = true ↔ writes_marker b.
Proof.
  rewrite existsb_exists. split.
  - intros (op & Hin%list_elem_of_In & Hm). destruct op; try done. cbn in Hm.
    apply bool_decide_eq_true in Hm as ->. by eexists.
  - intros (v & Hin). exists (OpMeta OBJECT_LOCATION_REBUILD_META_KEY v).
    split; [by apply list_elem_of_In|]. by apply bool_decide_eq_true.
Qed.

Lemma im_apply_spec c b :
  match im_apply c b with
  | (Ok _, c') =>
      im_rebuild c = false ∧ ¬ writes_marker b ∧ aliases_agree (stored c) b ∧
      same (stored c') (batch_effect (stored c) b) ∧ im_rebuild c' = false
  | (Err e, c') =>
      c' = c ∧ (im_rebuild c = true ∨ writes_marker b ∨ ¬ aliases_agree (stored c) b)
  end.
Proof.
  unfold im_apply, reject_direct_rebuild_marker_mutation.
  destruct (im_rebuild c) eqn:Hrb; [by auto|].
  destruct (existsb is_marker_write b) eqn:Hm; [apply existsb_marker in Hm; by auto|].
  assert (¬ writes_marker b) as Hnm by (rewrite <-existsb_marker; congruence).
  pose proof (apply_ops_spec b c) as Hs. destruct (try_fold apply_op b c) as [c'|e]; [|by auto].
  destruct Hs as (H1 & H2 & H3). split_and!; try done. by rewrite H3.
Qed.

(** ** Alias bindings are permanent *)

(** What one call on the catalog can do to its state. *)
Inductive catalog_step (c : InMemoryCatalog) : InMemoryCatalog → Prop :=
| step_apply b : catalog_step c (apply c b).2
| step_delete_repository r : catalog_step c (delete_repository c r).2
| step_begin : catalog_step c (begin_object_location_rebuild c).2
| step_restart : catalog_step c (restart_object_location_rebuild c).2
| step_append es : catalog_step c (append_rebuilt_object_locations c es).2
| step_finish : catalog_step c (finish_object_location_rebuild c).2.

Lemma batch_effect_alias f b r o id :
  aliases_agree f b → f (KAlias r o) = Some (VContent id) →
  batch_effect f b (KAlias r o) = Some (VContent id).
Proof.
  unfold batch_effect. revert f. induction b as [|op b IH]; intros f; [done|]. cbn.
  intros [Hop Hb] Hf. apply IH; [done|]. unfold write_effect.
  case_decide as Hk; [|done]. destruct op; try done. injection Hk as -> ->.
  cbn. destruct Hop; congruence.
Qed.

Lemma im_apply_alias c b r o id :
  im_aliases c !! (r, o) = Some id → im_aliases (im_apply c b).2 !! (r, o) = Some id.
Proof.
  intros Hid. pose proof (im_apply_spec c b) as Hs.
  destruct (im_apply c b) as [[u|e] c']; cbn; [|by destruct Hs as [-> _]].
  destruct Hs as (_ & _ & Ha & Hsame & _). specialize (Hsame (KAlias r o)).
  rewrite (batch_effect_alias _ _ _ _ id) in Hsame; [|done|by cbn; rewrite Hid].
  cbn in Hsame. by destruct (im_aliases c' !! (r, o)) as [x|]; simplify_eq/=.
Qed.

Lemma rebuild_other_fields c c' :
  c' = (im_begin c).2 ∨ c' = (im_restart c).2 ∨ c' = (im_finish c).2 ∨
    (∃ es, c' = (im_append c es).2) →
  (∀ k, match k with KObject _ => True | _ => stored c' k = stored c k end).
Proof.
  destruct c. unfold im_begin, im_restart, im_finish, im_append.
  intros [->|[->|[->|[es ->]]]] []; repeat case_match; simplify_eq/=; done.
Qed.

(** ** The locations-only rebuild *)

Lemma check_rebuilt_Ok seen known es u :
  check_rebuilt seen known es = Ok u →
  NoDup (map oe_content_id es) ∧
  (∀ e, e ∈ es → (oe_content_id e ∉ seen) ∧ known (oe_content_id e) = false).
Proof.
  revert seen. induction es as [|e es IH]; intros seen; cbn.
  { intros _. split; [constructor|]. by intros e Hin%elem_of_nil. }
  destruct (orb _ _) eqn:Hc; [done|]. apply orb_false_iff in Hc as [Hs Hk].
  apply bool_decide_eq_false in Hs. intros [Hnd Hall]%IH. split.
  - apply NoDup_cons. split; [|done]. intros (e' & He & Hin)%list_elem_of_fmap.
    destruct (Hall e' Hin) as [Hn _]. rewrite <-He in Hn. apply Hn. by apply elem_of_union_l, elem_of_singleton.
  - intros e' [->|Hin]%elem_of_cons; [done|]. destruct (Hall e' Hin) as [Hn Hk']. split; [|done]. intros Hin'. by apply Hn, elem_of_union_r.
Qed.

Lemma insert_entries_lookup es m id :
  NoDup (map oe_content_id es) →
  insert_entries es m !! id =
    match list_find (λ e, oe_content_id e = id) es with
    | Some (_, e) => Some (oe_location e)
    | None => m !! id
    end.
Proof.
  unfold insert_entries. revert m. induction es as [|e es IH]; intros m; [done|].
  intros [Hnin Hnd]%NoDup_cons. cbn [fold_left list_find]. rewrite IH by done.
  case_decide as He.
  - subst id. destruct (list_find _ es) as [[i e']|] eqn:Hf.
    + apply list_find_Some in Hf as (Hl & He & _). destruct Hnin.
      rewrite <-He. apply list_elem_of_In, in_map, list_elem_of_In. by eapply list_elem_of_lookup_2.
    + by rewrite lookup_insert_eq.
  - destruct (list_find _ es) as [[i e']|]; cbn; [done|]. by rewrite lookup_insert_ne.
Qed.

(** The states a rebuild of [c0] goes through, with the entries added since it
    was begun or last restarted. Calls that fail, batches included, leave the
    state as it is. *)
Inductive rebuilding (c0 : InMemoryCatalog) : list ObjectLocationEntry → InMemoryCatalog → Prop :=
| rebuild_begun c :
    begin_object_location_rebuild c0 = (Ok (), c) → rebuilding c0 [] c
| rebuild_restarted es c c' :
    rebuilding c0 es c → restart_object_location_rebuild c = (Ok (), c') → rebuilding c0 [] c'
| rebuild_appended es c new c' :
    rebuilding c0 es c → append_rebuilt_object_locations c new = (Ok (), c') →
    rebuilding c0 (es ++ new) c'.

Lemma rebuilding_inv c0 es c :
  rebuilding c0 es c →
  im_rebuild c = true ∧ NoDup (map oe_content_id es) ∧ im_objects c = insert_entries es ∅ ∧
  (∀ k, match k with KObject _ => True | _ => stored c k = stored c0 k end).
Proof.
  induction 1 as [c Hb|es c c' _ IH Hr|es c new c' _ IH Ha]; cbn in *.
  - unfold im_begin in Hb. destruct c0, im_rebuild0; [done|]. cbn in Hb. injection Hb as <-.
    split_and!; try done; [constructor|]. by intros [].
  - unfold im_restart in Hr. destruct IH as (Hrb & _ & _ & Ho). rewrite Hrb in Hr.
    injection Hr as <-. destruct c. cbn in *. split_and!; try done; [constructor|].
    intros k. specialize (Ho k). by destruct k.
  - unfold im_append in Ha. destruct IH as (Hrb & Hnd & Hobj & Ho). rewrite Hrb in Ha. cbn in Ha.
    destruct (check_rebuilt _ _ _) as [u|] eqn:Hc; [|done]. injection Ha as <-.
    apply check_rebuilt_Ok in Hc as [Hnd' Hall].
    assert (NoDup (map oe_content_id (es ++ new))) as Hnd2.
    { rewrite map_app. apply NoDup_app. split_and!; try done.
      intros id (e & -> & He)%list_elem_of_fmap (e' & Hee & He')%list_elem_of_fmap.
      destruct (Hall e' He') as [_ Hk]. apply bool_decide_eq_false in Hk. apply Hk.
      rewrite <-Hee, Hobj, insert_entries_lookup by done.
      destruct (list_find _ es) as [[]|] eqn:Hf; [by eexists|].
      eapply list_find_None, Forall_forall in Hf; [|done]. by destruct Hf. }
    split_and!; [by destruct c|done| |intros k; specialize (Ho k); by destruct c, k].
    destruct c. cbn in *. rewrite Hobj. unfold insert_entries. by rewrite fold_left_app.
Qed.

(** The locations-only rebuild fails closed and publishes exactly what was
    appended: in every intermediate state batches and enumerations are refused
    and no location is visible; finishing makes the appended locations, and no
    others, visible, and every other record is as it was before the rebuild. *)
Theorem rebuild_fails_closed c0 es c :
  rebuilding c0 es c →
  object_location_rebuild_state c = Ok InProgress ∧
  (∀ b, apply c b = (Err ObjectLocationRebuildInProgress, c)) ∧
  (∀ id, object_location c id = None) ∧
  (∀ S (f : S → ObjectLocationEntry → result CatalogError S) s,
     visit_object_locations c f s = Err ObjectLocationRebuildInProgress) ∧
  ∃ c', finish_object_location_rebuild c = (Ok (), c') ∧
    object_location_rebuild_state c' = Ok Idle ∧
    (∀ e, e ∈ es → object_location c' (oe_content_id e) = Some (oe_location e)) ∧
    (∀ id, id ∉ map oe_content_id es → object_location c' id = None) ∧
    (∀ k, match k with KObject _ => True | _ => stored c' k = stored c0 k end).
Proof.
  intros (Hrb & Hnd & Hobj & Ho)%rebuilding_inv. cbn. unfold im_apply, im_object_location, im_finish.
  rewrite Hrb. split_and!; try done. eexists. split; [done|].
  assert (∀ id, im_object_location (set_rebuild false c) id = insert_entries es ∅ !! id) as Hloc.
  { intros id. rewrite <-Hobj. by destruct c. }
  split_and!.
  - by destruct c.
  - intros e He. fold (im_object_location (set_rebuild false c) (oe_content_id e)).
    rewrite Hloc, insert_entries_lookup by done.
    destruct (list_find_elem_of (λ e', oe_content_id e' = oe_content_id e) es e He eq_refl)
      as [[i e'] Hf].
    rewrite Hf. apply list_find_Some in Hf as (Hl & Hid & _).
    apply list_elem_of_lookup_1 in He as [j Hj].
    assert (i = j) as ->; [|congruence].
    eapply (NoDup_lookup (map oe_content_id es)); [done|..];
      rewrite list_lookup_fmap; [by rewrite Hl|rewrite Hj; cbn; congruence].
  - intros id Hnin. fold (im_object_location (set_rebuild false c) id).
    rewrite Hloc, insert_entries_lookup by done.
    destruct (list_find _ es) as [[i e']|] eqn:Hf; [|done].
    apply list_find_Some in Hf as (Hl & Hid & _). destruct Hnin. rewrite <-Hid.
    apply list_elem_of_fmap. eexists. split; [done|]. by eapply list_elem_of_lookup_2.
  - intros k. specialize (Ho k). by destruct c, k.
Qed.

(** C22. Alias bindings are permanent: once a repository's Git object ID is
    bound to a content ID, no sequence of catalog calls (batches, repository
    deletion, location rebuilds; successful or not) ever rebinds or drops it. *)
Theorem alias_binding_permanent c c' repo oid id :
  oid_alias c repo oid = Some id → rtc catalog_step c c' → oid_alias c' repo oid = Some id.
Proof.
  cbn. intros Hid Hsteps. induction Hsteps as [|c1 c2 c3 Hstep _ IH]; [done|].
  apply IH. clear IH.
  assert (stored c1 (KAlias repo oid) = Some (VContent id)) as Hst by (by cbn; rewrite Hid).
  assert (stored c2 (KAlias repo oid) = Some (VContent id) →
          im_aliases c2 !! (repo, oid) = Some id) as Hback.
  { cbn. destruct (im_aliases c2 !! (repo, oid)); cbn; congruence. }
  destruct Hstep.
  - by apply im_apply_alias.
  - unfold delete_repository. cbn [repository_snapshots InMemoryCatalog_Catalog].
    by apply im_apply_alias.
  - apply Hback. exact (eq_trans (rebuild_other_fields c1 (im_begin c1).2 ltac:(auto) (KAlias repo oid)) Hst).
  - apply Hback. exact (eq_trans (rebuild_other_fields c1 (im_restart c1).2 ltac:(auto) (KAlias repo oid)) Hst).
  - apply Hback. exact (eq_trans (rebuild_other_fields c1 (im_append c1 es).2 ltac:(eauto) (KAlias repo oid)) Hst).
  - apply Hback. exact (eq_trans (rebuild_other_fields c1 (im_finish c1).2 ltac:(auto) (KAlias repo oid)) Hst).
Qed.

(** A catalog batch is atomic: [apply] either fails and changes nothing,
    because a rebuild is in progress, the batch writes the reserved rebuild
    marker, or an alias write contradicts the binding in force; or it succeeds,
    none of these is the case, and every key holds what the batch's last write
    to it says. *)
Theorem apply_atomic c b :
  match apply c b with
  | (Ok _, c') =>
      im_rebuild c = false ∧ ¬ writes_marker b ∧ aliases_agree (stored c) b ∧
      (∀ k, stored c' k = batch_effect (stored c) b k) ∧ im_rebuild c' = false
  | (Err e, c') =>
      c' = c ∧ (im_rebuild c = true ∨ writes_marker b ∨ ¬ aliases_agree (stored c) b)
  end.
Proof. exact (im_apply_spec c b). Qed.

(** ** Garbage-collection roots and repository deletion *)

#[export] Instance GcRoot_key_inj : Inj (=) (=) GcRoot_key.
Proof.
  intros [[r] [s]|[w] g|[[i] g]] [[r'] [s']|[w'] g'|[[i'] g']]; cbn; congruence.
Qed.
#[export] Instance GcRoot_ord : Ord GcRoot_cmp.
Proof. apply cmp_on_ord; apply _. Qed.

(** The records that keep data alive. *)
Definition root_live (c : InMemoryCatalog) (root : GcRoot) : Prop :=
  match root with
  | GcRepositorySnapshot r s => im_snapshots c !! (r, s) = Some Ready
  | GcWorkspacePin w g => im_workspace_pins c !! w = Some g
  | GcExplicitPin p => im_gc_pins c !! gp_id p = Some (gp_generation p)
  end.

Lemma elem_of_snapshot_list c x :
  x ∈ im_snapshot_list c ↔
    im_snapshots c !! (rs_repository x, rs_snapshot x) = Some (rs_visibility x).
Proof.
  unfold im_snapshot_list. rewrite elem_of_sort_by, list_elem_of_fmap. split.
  - intros ([[r s] v] & -> & Hin). by apply elem_of_map_to_list in Hin.
  - intros Hx. exists ((rs_repository x, rs_snapshot x), rs_visibility x).
    split; [by destruct x|by apply elem_of_map_to_list].
Qed.

Lemma gc_roots_eq c :
  gc_roots c = Ok (sort_by GcRoot_cmp
    (ready_roots (im_snapshot_list c) ++
     map (λ p, GcWorkspacePin p.1 p.2) (im_workspace_pin_list c) ++
     map GcExplicitPin (im_gc_pin_list c))).
Proof. done. Qed.

Lemma elem_of_ready_roots l root :
  root ∈ ready_roots l ↔
    ∃ x, x ∈ l ∧ rs_visibility x = Ready ∧
         root = GcRepositorySnapshot (rs_repository x) (rs_snapshot x).
Proof.
  unfold ready_roots. rewrite list_elem_of_omap. split.
  - intros (x & Hin & Hx). case_decide; [|done]. exists x. by injection Hx as <-.
  - intros (x & Hin & Hv & ->). exists x. by rewrite decide_True.
Qed.

Lemma elem_of_gc_roots c roots root :
  gc_roots c = Ok roots → root ∈ roots ↔ root_live c root.
Proof.
  rewrite gc_roots_eq. intros [= <-]. rewrite elem_of_sort_by, !elem_of_app, elem_of_ready_roots.
  unfold im_workspace_pin_list, im_gc_pin_list. rewrite !list_elem_of_fmap.
  setoid_rewrite elem_of_snapshot_list. setoid_rewrite elem_of_sort_by. split.
  - intros [(x & Hx & Hv & ->)|[([w g] & -> & Hin)|(p & -> & Hin)]]; cbn.
    + by rewrite <-Hv.
    + by apply elem_of_map_to_list in Hin.
    + apply list_elem_of_fmap in Hin as ([i g] & -> & Hin). by apply elem_of_map_to_list in Hin.
  - destruct root as [r s|w g|p]; cbn; intros Hl.
    + left. by exists (mkRepositorySnapshot r s Ready).
    + right; left. exists (w, g). split; [done|]. by apply elem_of_map_to_list.
    + right; right. exists p. split; [done|]. apply list_elem_of_fmap.
      exists (gp_id p, gp_generation p). split; [by destruct p|by apply elem_of_map_to_list].
Qed.

(** Root discovery is complete and exact: [gc_roots] always succeeds, lists
    exactly the ready snapshots, workspace pins and explicit pins in force, and
    lists them in ascending order. *)
Theorem gc_roots_exact c :
  ∃ roots, gc_roots c = Ok roots ∧ StronglySorted (cmp_le GcRoot_cmp) roots ∧
    ∀ root, root ∈ roots ↔ root_live c root.
Proof.
  eexists. split; [apply gc_roots_eq|]. split; [apply sort_by_sorted; apply _|].
  intros root. by apply elem_of_gc_roots.
Qed.

Lemma batch_effect_untouched f b k :
  (∀ op, op ∈ b → (op_write op).1 ≠ k) → batch_effect f b k = f k.
Proof.
  unfold batch_effect. revert f. induction b as [|op b IH]; intros f Hb; [done|]. cbn.
  rewrite IH by (intros; apply Hb; by right). unfold write_effect.
  rewrite decide_False; [done|]. intros ->. by eapply (Hb op); [left|].
Qed.
Lemma batch_effect_absent f b k :
  (∀ op, op ∈ b → (op_write op).2 = None) → f k = None → batch_effect f b k = None.
Proof.
  unfold batch_effect. revert f. induction b as [|op b IH]; intros f Hdel Hf; [done|]. cbn.
  apply IH; [intros; apply Hdel; by right|].
  unfold write_effect. case_decide; [apply Hdel; by left|done].
Qed.
Lemma batch_effect_deleted f b k :
  (∀ op, op ∈ b → (op_write op).2 = None) → (∃ op, op ∈ b ∧ (op_write op).1 = k) →
  batch_effect f b k = None.
Proof.
  intros Hdel (op & Hin & Hk). revert f. induction b as [|op' b IH]; intros f.
  { by apply elem_of_nil in Hin. }
  apply elem_of_cons in Hin as [<-|Hin].
  - apply (batch_effect_absent (write_effect f op)); [intros; apply Hdel; by right|].
    unfold write_effect. rewrite decide_True by done. apply Hdel. by left.
  - apply IH; [|done]. intros; apply Hdel; by right.
Qed.

(** The batch [delete_repository] builds: the repository, then its snapshots. *)
Lemma delete_batch_eq repo l :
  delete_repository_batch repo l =
    OpDeleteRepository repo ::
    map (λ x, OpDeleteRepositorySnapshot repo (rs_snapshot x))
        (filter (λ x, rs_repository x = repo) l).
Proof.
  unfold delete_repository_batch, batch_delete_repository, batch_new. cbn [app].
  assert (∀ acc, fold_left (λ b s, if decide (rs_repository s = repo)
      then delete_repository_snapshot b repo (rs_snapshot s) else b) l acc =
    acc ++ map (λ x, OpDeleteRepositorySnapshot repo (rs_snapshot x))
        (filter (λ x, rs_repository x = repo) l)) as Hacc; [|by rewrite Hacc].
  induction l as [|x l IH]; intros acc; [by rewrite app_nil_r|].
  cbn [fold_left]. rewrite IH, filter_cons. case_decide; [|done].
  unfold delete_repository_snapshot. by rewrite <-app_assoc.
Qed.

Lemma delete_batch_deletes repo l op :
  op ∈ delete_repository_batch repo l → (op_write op).2 = None.
Proof.
  rewrite delete_batch_eq, elem_of_cons, list_elem_of_fmap. by intros [->|(x & -> & _)].
Qed.
Lemma delete_batch_keys repo l op :
  op ∈ delete_repository_batch repo l →
  (op_write op).1 = KRepository repo ∨ ∃ s, (op_write op).1 = KSnapshot repo s.
Proof.
  rewrite delete_batch_eq, elem_of_cons, list_elem_of_fmap. intros [->|(x & -> & _)]; eauto.
Qed.
Lemma deletes_agree f b :
  (∀ op, op ∈ b → (op_write op).2 = None) → aliases_agree f b.
Proof.
  revert f. induction b as [|op b IH]; intros f Hb; [done|]. split.
  - specialize (Hb op ltac:(left)). by destruct op.
  - apply IH. intros; apply Hb; by right.
Qed.

(** Deleting a repository always succeeds outside a rebuild, removes its
    record and all its snapshots, and leaves every other record, other
    repositories' snapshots and alias bindings included, as it was. *)
Theorem delete_repository_exact c repo :
  im_rebuild c = false →
  ∃ c', delete_repository c repo = (Ok (), c') ∧
    repository c' repo = None ∧ (∀ s, repository_snapshot c' repo s = None) ∧
    (∀ k, (∀ s, k ≠ KSnapshot repo s) → k ≠ KRepository repo → stored c' k = stored c k).
Proof.
  intros Hrb. unfold delete_repository.
  cbn [repository_snapshots apply repository repository_snapshot InMemoryCatalog_Catalog].
  set (b := delete_repository_batch repo (im_snapshot_list c)).
  assert (∀ op, op ∈ b → (op_write op).2 = None) as Hdel by apply delete_batch_deletes.
  pose proof (im_apply_spec c b) as Hs. destruct (im_apply c b) as [[[]|e] c'].
  - destruct Hs as (_ & _ & _ & Hsame & _). exists c'. split; [done|].
    assert (∀ k, (∃ op, op ∈ b ∧ (op_write op).1 = k) → stored c' k = None) as Hgone.
    { intros k Hk. rewrite (Hsame k). by apply batch_effect_deleted. }
    split_and!.
    + apply (fmap_None VOpaque). apply (Hgone (KRepository repo)).
      exists (OpDeleteRepository repo). split; [|done]. unfold b. rewrite delete_batch_eq. by left.
    + intros s. apply (fmap_None VVisibility).
      destruct (im_snapshots c !! (repo, s)) as [v|] eqn:Hv.
      * apply (Hgone (KSnapshot repo s)). exists (OpDeleteRepositorySnapshot repo s).
        split; [|done]. unfold b. rewrite delete_batch_eq. right. apply list_elem_of_fmap.
        exists (mkRepositorySnapshot repo s v). split; [done|]. apply list_elem_of_filter.
        split; [done|]. by apply elem_of_snapshot_list.
      * change (stored c' (KSnapshot repo s) = None). rewrite (Hsame _).
        apply batch_effect_absent; [done|]. cbn. by rewrite Hv.
    + intros k Hns Hnr. rewrite (Hsame k). apply batch_effect_untouched.
      intros op Hop He. destruct (delete_batch_keys _ _ _ Hop) as [Hk|[s Hk]]; [|apply (Hns s)]; congruence.
  - destruct Hs as [_ [Hrb'|[[v Hm]|Hag]]]; [congruence| |].
    + destruct (delete_batch_keys _ _ _ Hm) as [Hk|[s Hk]]; done.
    + destruct Hag. by apply deletes_agree.
Qed.

(** ** Witnesses *)

Lemma pair_fst {A B} (p : A * B) a : p.1 = a → p = (a, p.2).
Proof. intros <-. apply surjective_pairing. Qed.

Definition sample_repo : RepoId := mkRepoId (replicate 16 x01).
Definition sample_snapshot : SnapshotId := mkSnapshotId (replicate 16 x02).
Definition sample_alias_oid : GitOid := mkGitOid Sha1 20 (zeros 32).
Definition sample_content : ContentId := mkContentId (replicate 32 x07).
Definition sample_location : ObjectLocation := mkObjectLocation 1 2 64 152 3 3 Blob Raw 0 9.
Definition sample_catalog : InMemoryCatalog :=
  (im_apply InMemoryCatalog_default
    [OpOidAlias sample_repo sample_alias_oid sample_content;
     OpRepositorySnapshot sample_repo sample_snapshot Ready]).2.
Definition sample_rebuilding : InMemoryCatalog :=
  (im_append (im_begin sample_catalog).2
    [mkObjectLocationEntry sample_content sample_location]).2.

Lemma alias_binding_permanent_witness :
  oid_alias (delete_repository sample_catalog sample_repo).2 sample_repo sample_alias_oid
    = Some sample_content.
Proof.
  apply (alias_binding_permanent sample_catalog); [vm_compute; reflexivity|].
  apply rtc_once, step_delete_repository.
Defined.

Lemma rebuild_fails_closed_witness :
  object_location sample_rebuilding sample_content = None ∧
  ∃ c', finish_object_location_rebuild sample_rebuilding = (Ok (), c') ∧
    object_location c' sample_content = Some sample_location.
Proof.
  destruct (rebuild_fails_closed sample_catalog
    [mkObjectLocationEntry sample_content sample_location] sample_rebuilding)
    as (_ & _ & Hnone & _ & c' & Hfin & _ & Hall & _).
  - apply (rebuild_appended _ [] (im_begin sample_catalog).2
      [mkObjectLocationEntry sample_content sample_location]).
    + apply rebuild_begun, pair_fst. vm_compute; reflexivity.
    + apply pair_fst. vm_compute; reflexivity.
  - split; [apply Hnone|]. exists c'. split; [exact Hfin|].
    apply (Hall (mkObjectLocationEntry sample_content sample_location)). left.
Defined.

Lemma delete_repository_exact_witness :
  ∃ c', delete_repository sample_catalog sample_repo = (Ok (), c') ∧
    repository_snapshot c' sample_repo sample_snapshot = None.
Proof.
  destruct (delete_repository_exact sample_catalog sample_repo) as (c' & Hd & _ & Hs & _).
  - vm_compute; reflexivity.
  - exists c'. split; [exact Hd|apply Hs].
Defined.

End CatalogSpec.
