(* ===== verification/RocksCatalog.v ===== *)
(** * The RocksDB catalog: [reflink-forest-index/src/lib.rs], lines 1205 to 1845

    The durable catalog over an ordered key-value engine with column families.
    The engine is third-party code: it is the [Engine] interface, whose calls
    may fail, and [EngineLaws] states its documented behaviour. *)

From Stdlib Require Import ZArith Lia Strings.Byte Strings.String.
From stdpp Require Import base tactics list sorting gmap strings.
From S2P Require Import Prelude Order Core Format CatalogCodec Catalog.
Import Core Format CatalogCodec Catalog.

#[local] Open Scope Z_scope.

Module RocksCatalog.

(** The column families of catalog format v1, by their names. *)
Inductive CF :=
| CF_OBJECT_LOCATIONS | CF_OID_ALIASES | CF_REPOSITORIES | CF_REPO_SNAPSHOTS | CF_REFS
| CF_CHUNKS | CF_CACHE_OBJECTS | CF_WORKSPACES | CF_WORKSPACE_NAMES | CF_PINS | CF_JOBS | CF_META.
#[export] Instance CF_eq_dec : EqDecision CF.
Proof. solve_decision. Defined.
Definition ROCKSDB_COLUMN_FAMILIES : list CF :=
  [CF_OBJECT_LOCATIONS; CF_OID_ALIASES; CF_REPOSITORIES; CF_REPO_SNAPSHOTS; CF_REFS; CF_CHUNKS;
   CF_CACHE_OBJECTS; CF_WORKSPACES; CF_WORKSPACE_NAMES; CF_PINS; CF_JOBS; CF_META].
Definition cf_name (f : CF) : string :=
  match f with
  | CF_OBJECT_LOCATIONS => "object_locations" | CF_OID_ALIASES => "oid_aliases"
  | CF_REPOSITORIES => "repositories" | CF_REPO_SNAPSHOTS => "repo_snapshots"
  | CF_REFS => "refs" | CF_CHUNKS => "chunks" | CF_CACHE_OBJECTS => "cache_objects"
  | CF_WORKSPACES => "workspaces" | CF_WORKSPACE_NAMES => "workspace_names"
  | CF_PINS => "pins" | CF_JOBS => "jobs" | CF_META => "meta"
  end.
Definition cf_index (f : CF) : nat :=
  match f with
  | CF_OBJECT_LOCATIONS => 0 | CF_OID_ALIASES => 1 | CF_REPOSITORIES => 2
  | CF_REPO_SNAPSHOTS => 3 | CF_REFS => 4 | CF_CHUNKS => 5 | CF_CACHE_OBJECTS => 6
  | CF_WORKSPACES => 7 | CF_WORKSPACE_NAMES => 8 | CF_PINS => 9 | CF_JOBS => 10 | CF_META => 11
  end.
#[export] Instance CF_countable : Countable CF.
Proof.
  refine (inj_countable cf_index (λ n, ROCKSDB_COLUMN_FAMILIES !! n) _). by intros [].
Defined.

(** ** The engine *)

(** The entries of a [WriteBatch]. *)
Inductive WriteOp :=
| WPut (f : CF) (key value : bytes)
| WDelete (f : CF) (key : bytes)
| WDeleteRange (f : CF) (from to : bytes).

Class Engine (DB : Type) := {
  cf_handle : DB → CF → bool;
  get_cf : DB → CF → bytes → result string (option bytes);
  write_opt : DB → list WriteOp → result string unit * DB;
  iterator_cf : DB → CF → list (result string (bytes * bytes));
}.

Abbreviation Store := (gmap (CF * bytes) bytes).

Definition perform (m : Store) (w : WriteOp) : Store :=
  match w with
  | WPut f k v => <[(f, k) := v]> m
  | WDelete f k => delete (f, k) m
  | WDeleteRange f from to =>
      filter (λ p, ¬ (p.1.1 = f ∧ bytes_ltb p.1.2 from = false ∧ bytes_ltb p.1.2 to = true)) m
  end.
Definition perform_all (m : Store) (ws : list WriteOp) : Store := fold_left perform ws m.

(** The entries of a family in key order. *)
Definition family_list (m : Store) (f : CF) : list (bytes * bytes) :=
  map (λ p, (p.1.2, p.2)) (map_to_list (filter (λ p, p.1.1 = f) m)).
Definition family_entries (m : Store) (f : CF) : list (bytes * bytes) :=
  sort_by (cmp_on fst bytes_compare) (family_list m f).

(** The documented behaviour: reads return what is stored or fail; a batch is
    performed in order and atomically, and a reported failure leaves either
    none or all of it; iteration is in key order and may break off with an
    error; every family named when the database was opened has a handle. *)
Class EngineLaws (DB : Type) `{Engine DB} := {
  contents : DB → Store;
  cf_opened db f : cf_handle db f = true;
  get_stored db f k v : get_cf db f k = Ok v → v = contents db !! (f, k);
  write_done db ws db' : write_opt db ws = (Ok (), db') → contents db' = perform_all (contents db) ws;
  write_failed db ws e db' : write_opt db ws = (Err e, db') →
    contents db' = contents db ∨ contents db' = perform_all (contents db) ws;
  iterator_stored db f :
    iterator_cf db f = map Ok (family_entries (contents db) f) ∨
    ∃ n e rest, iterator_cf db f = map Ok (take n (family_entries (contents db) f)) ++ Err e :: rest;
}.

(** ** The catalog *)

Section RocksDbCatalog.
Context {DB} `{Engine DB}.

Definition cf (db : DB) (f : CF) : result CatalogError CF :=
  if cf_handle db f then Ok f
  else Err (Backend ("missing RocksDB column family " ++ cf_name f)).

Definition get (db : DB) (f : CF) (key : bytes) : result CatalogError (option bytes) :=
  f ← cf db f; map_err Backend (get_cf db f key).

(** The readers' [.ok()??]: a failed read is no record. *)
Definition get_opt (db : DB) (f : CF) (key : bytes) : option bytes := ok (get db f key) ≫= id.

Definition write_sync (db : DB) (ws : list WriteOp) : result CatalogError unit * DB :=
  let '(r, db') := write_opt db ws in (map_err Backend r, db').

Definition read_object_location_rebuild_state (db : DB)
    : result CatalogError ObjectLocationRebuildState :=
  value ← get db CF_META (encode_meta_key OBJECT_LOCATION_REBUILD_META_KEY);
  match value with
  | None => Ok Idle
  | Some v => decode_object_location_rebuild_marker v
  end.

(** The loop over an iterator: stop at an engine error or at the body's. *)
Fixpoint iterate {S} (f : S → bytes * bytes → result CatalogError S)
    (it : list (result string (bytes * bytes))) (s : S) : result CatalogError S :=
  match it with
  | [] => Ok s
  | entry :: it =>
      kv ← map_err Backend entry;
      s' ← f s kv;
      iterate f it s'
  end.
Definition iterate_cf {S} (db : DB) (fam : CF) (f : S → bytes * bytes → result CatalogError S)
    (s : S) : result CatalogError S :=
  fam ← cf db fam; iterate f (iterator_cf db fam) s.

(** *** [apply] *)

Definition existing_alias (db : DB) (pending : gmap (RepoId * GitOid) ContentId)
    (repo : RepoId) (oid : GitOid) : result CatalogError (option ContentId) :=
  match pending !! (repo, oid) with
  | Some id => Ok (Some id)
  | None =>
      value ← get db CF_OID_ALIASES (encode_oid_alias_key repo oid);
      match value with
      | None => Ok None
      | Some v => id ← decode_content_id_value v; Ok (Some id)
      end
  end.

(** The first loop: reject alias conflicts before anything is written. *)
Fixpoint check_aliases (db : DB) (pending : gmap (RepoId * GitOid) ContentId) (b : CatalogBatch)
    : result CatalogError unit :=
  match b with
  | [] => Ok ()
  | OpOidAlias repo oid requested :: b =>
      existing ← existing_alias db pending repo oid;
      _ ← match existing with
          | Some existing =>
              if decide (existing ≠ requested)
              then Err (AliasConflict repo oid existing requested) else Ok ()
          | None => Ok ()
          end;
      check_aliases db (<[(repo, oid) := requested]> pending) b
  | _ :: b => check_aliases db pending b
  end.

(** The second loop: one engine write per operation. *)
Definition rocks_write (op : Operation) : WriteOp :=
  match op with
  | OpObjectLocation id l =>
      WPut CF_OBJECT_LOCATIONS (encode_object_location_key id) (encode_object_location_value l)
  | OpOidAlias repo oid id =>
      WPut CF_OID_ALIASES (encode_oid_alias_key repo oid) (encode_content_id_value id)
  | OpRepository id record =>
      WPut CF_REPOSITORIES (encode_repository_key id) (encode_opaque_value record)
  | OpDeleteRepository id => WDelete CF_REPOSITORIES (encode_repository_key id)
  | OpRepositorySnapshot r s v =>
      WPut CF_REPO_SNAPSHOTS (encode_repository_snapshot_key r s)
        (encode_snapshot_visibility_value v)
  | OpDeleteRepositorySnapshot r s =>
      WDelete CF_REPO_SNAPSHOTS (encode_repository_snapshot_key r s)
  | OpChunkMetadata g c m => WPut CF_CHUNKS (encode_chunk_key g c) (encode_chunk_value m)
  | OpMeta k v => WPut CF_META (encode_meta_key k) (encode_opaque_value v)
  | OpWorkspace id record =>
      WPut CF_WORKSPACES (encode_workspace_key id) (encode_opaque_value record)
  | OpWorkspaceName n id =>
      WPut CF_WORKSPACE_NAMES (encode_workspace_name_key n) (encode_workspace_id_value id)
  | OpWorkspacePin id g =>
      WPut CF_PINS (encode_workspace_pin_key id) (encode_workspace_pin_value g)
  | OpDeleteWorkspacePin id => WDelete CF_PINS (encode_workspace_pin_key id)
  | OpGcPin id g => WPut CF_PINS (encode_gc_pin_key id) (encode_gc_pin_value g)
  | OpDeleteGcPin id => WDelete CF_PINS (encode_gc_pin_key id)
  | OpJob id record => WPut CF_JOBS (encode_job_key id) (encode_opaque_value record)
  end.

(** Everything [apply] checks before it writes. *)
Definition rocks_check (db : DB) (b : CatalogBatch) : result CatalogError unit :=
  state ← read_object_location_rebuild_state db;
  _ ← ensure (bool_decide (state ≠ InProgress)) ObjectLocationRebuildInProgress;
  _ ← reject_direct_rebuild_marker_mutation b;
  _ ← cf db CF_OBJECT_LOCATIONS; _ ← cf db CF_OID_ALIASES; _ ← cf db CF_REPOSITORIES;
  _ ← cf db CF_REPO_SNAPSHOTS; _ ← cf db CF_CHUNKS; _ ← cf db CF_META; _ ← cf db CF_WORKSPACES;
  _ ← cf db CF_WORKSPACE_NAMES; _ ← cf db CF_PINS; _ ← cf db CF_JOBS;
  check_aliases db ∅ b.

Definition rocks_apply (db : DB) (b : CatalogBatch) : result CatalogError unit * DB :=
  match rocks_check db b with
  | Err e => (Err e, db)
  | Ok _ => write_sync db (map rocks_write b)
  end.

(** *** Reads *)

Definition rocks_object_location (db : DB) (id : ContentId) : option ObjectLocation :=
  state ← ok (read_object_location_rebuild_state db);
  if decide (state ≠ Idle) then None
  else value ← get_opt db CF_OBJECT_LOCATIONS (encode_object_location_key id);
       ok (decode_object_location_value value).
Definition rocks_visit_object_locations {S} (db : DB)
    (f : S → ObjectLocationEntry → result CatalogError S) (s : S) : result CatalogError S :=
  state ← read_object_location_rebuild_state db;
  _ ← ensure (bool_decide (state ≠ InProgress)) ObjectLocationRebuildInProgress;
  iterate_cf db CF_OBJECT_LOCATIONS (λ s kv,
    id ← decode_object_location_key kv.1;
    l ← decode_object_location_value kv.2;
    f s (mkObjectLocationEntry id l)) s.
Definition rocks_visit_oid_aliases {S} (db : DB)
    (f : S → OidAliasEntry → result CatalogError S) (s : S) : result CatalogError S :=
  iterate_cf db CF_OID_ALIASES (λ s kv,
    ro ← decode_oid_alias_key kv.1;
    id ← decode_content_id_value kv.2;
    f s (mkOidAliasEntry ro.1 ro.2 id)) s.
Definition rocks_visit_chunks {S} (db : DB)
    (f : S → ChunkEntry → result CatalogError S) (s : S) : result CatalogError S :=
  state ← read_object_location_rebuild_state db;
  _ ← ensure (bool_decide (state ≠ InProgress)) ObjectLocationRebuildInProgress;
  iterate_cf db CF_CHUNKS (λ s kv,
    gc ← decode_chunk_key kv.1;
    m ← decode_chunk_value kv.2;
    f s (mkChunkEntry gc.1 gc.2 m)) s.
Definition rocks_oid_alias (db : DB) (repo : RepoId) (oid : GitOid) : option ContentId :=
  value ← get_opt db CF_OID_ALIASES (encode_oid_alias_key repo oid);
  ok (decode_content_id_value value).
Definition rocks_repository (db : DB) (id : RepoId) : option bytes :=
  value ← get_opt db CF_REPOSITORIES (encode_repository_key id); ok (decode_opaque_value value).
Definition rocks_repository_snapshot (db : DB) (r : RepoId) (s : SnapshotId)
    : option SnapshotVisibility :=
  value ← get_opt db CF_REPO_SNAPSHOTS (encode_repository_snapshot_key r s);
  ok (decode_snapshot_visibility_value value).
Definition rocks_repository_snapshots (db : DB) : result CatalogError (list RepositorySnapshot) :=
  snapshots ← iterate_cf db CF_REPO_SNAPSHOTS (λ acc kv,
    rs ← decode_repository_snapshot_key kv.1;
    v ← decode_snapshot_visibility_value kv.2;
    Ok (acc ++ [mkRepositorySnapshot rs.1 rs.2 v])) [];
  Ok (sort_by RepositorySnapshot_cmp snapshots).
Definition rocks_chunk (db : DB) (g c : Z) : option ChunkMetadata :=
  value ← get_opt db CF_CHUNKS (encode_chunk_key g c); ok (decode_chunk_value value).
Definition rocks_meta (db : DB) (key : bytes) : option bytes :=
  if decide (key = OBJECT_LOCATION_REBUILD_META_KEY) then None
  else value ← get_opt db CF_META (encode_meta_key key); ok (decode_opaque_value value).
Definition rocks_workspace (db : DB) (id : WorkspaceId) : option bytes :=
  value ← get_opt db CF_WORKSPACES (encode_workspace_key id); ok (decode_opaque_value value).
Definition rocks_workspace_name (db : DB) (n : bytes) : option WorkspaceId :=
  value ← get_opt db CF_WORKSPACE_NAMES (encode_workspace_name_key n);
  ok (decode_workspace_id_value value).
Definition rocks_workspace_pin (db : DB) (id : WorkspaceId) : option Z :=
  value ← get_opt db CF_PINS (encode_workspace_pin_key id);
  ok (decode_workspace_pin_value value).
Definition rocks_workspace_pins (db : DB) : result CatalogError (list (WorkspaceId * Z)) :=
  pins ← iterate_cf db CF_PINS (λ acc kv,
    if decide (length kv.1 = 17%nat) then
      w ← decode_workspace_pin_key kv.1;
      g ← decode_workspace_pin_value kv.2;
      Ok (acc ++ [(w, g)])
    else if decide (length kv.1 ≠ 18%nat) then Err InvalidEncoding else Ok acc) [];
  Ok (sort_by workspace_pin_cmp pins).
Definition rocks_gc_pins (db : DB) : result CatalogError (list GcPin) :=
  pins ← iterate_cf db CF_PINS (λ acc kv,
    if decide (length kv.1 = 18%nat) then
      p ← decode_gc_pin_key kv.1;
      g ← decode_gc_pin_value kv.2;
      Ok (acc ++ [mkGcPin p g])
    else if decide (length kv.1 ≠ 17%nat) then Err InvalidEncoding else Ok acc) [];
  Ok (sort_by GcPin_cmp pins).
Definition rocks_job (db : DB) (id : bytes) : option bytes :=
  value ← get_opt db CF_JOBS (encode_job_key id); ok (decode_opaque_value value).

#[export] Instance RocksDbCatalog_Catalog : Catalog DB := {
  apply := rocks_apply;
  object_location := rocks_object_location;
  object_location_rebuild_state := read_object_location_rebuild_state;
  visit_object_locations S := rocks_visit_object_locations;
  visit_oid_aliases S := rocks_visit_oid_aliases;
  visit_chunks S := rocks_visit_chunks;
  oid_alias := rocks_oid_alias;
  repository := rocks_repository;
  repository_snapshot := rocks_repository_snapshot;
  repository_snapshots := rocks_repository_snapshots;
  chunk := rocks_chunk;
  meta := rocks_meta;
  workspace := rocks_workspace;
  workspace_name := rocks_workspace_name;
  workspace_pin := rocks_workspace_pin;
  workspace_pins := rocks_workspace_pins;
  gc_pins := rocks_gc_pins;
  job := rocks_job;
}.

(** *** The rebuild protocol *)

Definition clear_object_locations_and_mark_rebuild (db : DB) : result CatalogError unit * DB :=
  match (_ ← cf db CF_OBJECT_LOCATIONS; cf db CF_META) with
  | Err e => (Err e, db)
  | Ok _ =>
      write_sync db
        [WDeleteRange CF_OBJECT_LOCATIONS [byte_of_Z CATALOG_VERSION]
           [byte_of_Z (CATALOG_VERSION + 1)];
         WPut CF_META (encode_meta_key OBJECT_LOCATION_REBUILD_META_KEY)
           (encode_opaque_value [OBJECT_LOCATION_REBUILD_IN_PROGRESS_MARKER])]
  end.

(** [match self.read_object_location_rebuild_state()? ...] of the four calls. *)
Definition expect_rebuild (db : DB) (in_progress : bool) (e : CatalogError)
    : result CatalogError unit :=
  state ← read_object_location_rebuild_state db;
  ensure (bool_decide ((state = InProgress) ↔ (in_progress = true))) e.

Definition rocks_begin (db : DB) : result CatalogError unit * DB :=
  match expect_rebuild db false ObjectLocationRebuildInProgress with
  | Err e => (Err e, db)
  | Ok _ => clear_object_locations_and_mark_rebuild db
  end.
Definition rocks_restart (db : DB) : result CatalogError unit * DB :=
  match expect_rebuild db true ObjectLocationRebuildNotInProgress with
  | Err e => (Err e, db)
  | Ok _ => clear_object_locations_and_mark_rebuild db
  end.

Fixpoint rocks_check_rebuilt (db : DB) (seen : gset ContentId)
    (entries : list ObjectLocationEntry) : result CatalogError unit :=
  match entries with
  | [] => Ok ()
  | e :: entries =>
      let id := oe_content_id e in
      if decide (id ∈ seen) then Err (DuplicateRebuiltObjectLocation id)
      else
        value ← map_err Backend
                  (get_cf db CF_OBJECT_LOCATIONS (encode_object_location_key id));
        match value with
        | Some _ => Err (DuplicateRebuiltObjectLocation id)
        | None => rocks_check_rebuilt db ({[id]} ∪ seen) entries
        end
  end.
Definition rocks_append (db : DB) (entries : list ObjectLocationEntry)
    : result CatalogError unit * DB :=
  match (_ ← expect_rebuild db true ObjectLocationRebuildNotInProgress;
         _ ← cf db CF_OBJECT_LOCATIONS;
         rocks_check_rebuilt db ∅ entries) with
  | Err e => (Err e, db)
  | Ok _ =>
      write_sync db
        (map (λ e, WPut CF_OBJECT_LOCATIONS (encode_object_location_key (oe_content_id e))
                     (encode_object_location_value (oe_location e))) entries)
  end.
Definition rocks_finish (db : DB) : result CatalogError unit * DB :=
  match (_ ← expect_rebuild db true ObjectLocationRebuildNotInProgress; cf db CF_META) with
  | Err e => (Err e, db)
  | Ok _ => write_sync db [WDelete CF_META (encode_meta_key OBJECT_LOCATION_REBUILD_META_KEY)]
  end.

#[export] Instance RocksDbCatalog_Rebuild : ObjectLocationRebuildCatalog DB := {
  begin_object_location_rebuild := rocks_begin;
  restart_object_location_rebuild := rocks_restart;
  append_rebuilt_object_locations := rocks_append;
  finish_object_location_rebuild := rocks_finish;
}.

(** *** Validation of an opened database *)

Definition validate_pair {K V} (deck : bytes → result CatalogError K)
    (decv : bytes → result CatalogError V) (kv : bytes * bytes) : result CatalogError unit :=
  _ ← deck kv.1; _ ← decv kv.2; Ok ().
Definition validate_entries (db : DB) (f : CF) (v : bytes * bytes → result CatalogError unit)
    : result CatalogError unit :=
  iterate_cf db f (λ _ kv, v kv) ().
Definition validate_pin (kv : bytes * bytes) : result CatalogError unit :=
  if decide (length kv.1 = 17%nat) then
    validate_pair decode_workspace_pin_key decode_workspace_pin_value kv
  else if decide (length kv.1 = 18%nat) then
    validate_pair decode_gc_pin_key decode_gc_pin_value kv
  else Err InvalidEncoding.
Definition validate_meta (kv : bytes * bytes) : result CatalogError unit :=
  key ← decode_meta_key kv.1;
  if decide (key = CURRENT_GENERATION_META_KEY) then
    _ ← decode_current_generation_value kv.2; Ok ()
  else if decide (key = OBJECT_LOCATION_REBUILD_META_KEY) then
    _ ← decode_object_location_rebuild_marker kv.2; Ok ()
  else _ ← decode_opaque_value kv.2; Ok ().

Definition validate (db : DB) : result CatalogError unit :=
  _ ← validate_entries db CF_OBJECT_LOCATIONS
        (validate_pair decode_object_location_key decode_object_location_value);
  _ ← validate_entries db CF_OID_ALIASES
        (validate_pair decode_oid_alias_key decode_content_id_value);
  _ ← validate_entries db CF_REPOSITORIES
        (validate_pair decode_repository_key decode_opaque_value);
  _ ← validate_entries db CF_REPO_SNAPSHOTS
        (validate_pair decode_repository_snapshot_key decode_snapshot_visibility_value);
  _ ← validate_entries db CF_REFS (validate_pair decode_opaque_key decode_opaque_value);
  _ ← validate_entries db CF_CHUNKS (validate_pair decode_chunk_key decode_chunk_value);
  _ ← validate_entries db CF_CACHE_OBJECTS (validate_pair decode_opaque_key decode_opaque_value);
  _ ← validate_entries db CF_WORKSPACES (validate_pair decode_workspace_key decode_opaque_value);
  _ ← validate_entries db CF_WORKSPACE_NAMES
        (validate_pair decode_workspace_name_key decode_workspace_id_value);
  _ ← validate_entries db CF_PINS validate_pin;
  _ ← validate_entries db CF_JOBS (validate_pair decode_job_key decode_opaque_value);
  validate_entries db CF_META validate_meta.

(** [validate_checkpoint], from the result of opening the checkpoint read-only. *)
Definition validate_checkpoint (opened : result string DB) : result CatalogError (option Z) :=
  db ← map_err Backend opened;
  _ ← validate db;
  Ok (current_generation db).

End RocksDbCatalog.
End RocksCatalog.
