(* ===== verification/RocksSpec.v ===== *)
(** * The RocksDB catalog refines the in-memory catalog

    [represents m c]: the engine's contents [m] hold exactly the records of the
    in-memory catalog [c], under their catalog-v1 encodings, and the rebuild
    marker when [c] is being rebuilt. Every call of the RocksDB catalog keeps
    this relation, for any lawful engine, whatever engine calls fail. *)

From Stdlib Require Import ZArith Lia Strings.Byte Strings.String.
From stdpp Require Import base tactics list sorting gmap strings.
From S2P Require Import Prelude Order Core Format CatalogCodec CatalogCodecSpec Catalog CatalogSpec RocksCatalog.
Import Core Format CatalogCodec CatalogCodecSpec Catalog CatalogSpec RocksCatalog.

#[local] Open Scope Z_scope.

Module RocksSpec.

(** ** Encodings of abstract keys and values *)

Definition enc_key (k : CatKey) : CF * bytes :=
  match k with
  | KObject id => (CF_OBJECT_LOCATIONS, encode_object_location_key id)
  | KAlias r o => (CF_OID_ALIASES, encode_oid_alias_key r o)
  | KRepository id => (CF_REPOSITORIES, encode_repository_key id)
  | KSnapshot r s => (CF_REPO_SNAPSHOTS, encode_repository_snapshot_key r s)
  | KChunk g n => (CF_CHUNKS, encode_chunk_key g n)
  | KMeta k => (CF_META, encode_meta_key k)
  | KWorkspace id => (CF_WORKSPACES, encode_workspace_key id)
  | KWorkspaceName n => (CF_WORKSPACE_NAMES, encode_workspace_name_key n)
  | KWorkspacePin id => (CF_PINS, encode_workspace_pin_key id)
  | KGcPin id => (CF_PINS, encode_gc_pin_key id)
  | KJob id => (CF_JOBS, encode_job_key id)
  end.
Definition enc_value (v : CatValue) : bytes :=
  match v with
  | VLocation l => encode_object_location_value l
  | VContent id => encode_content_id_value id
  | VVisibility v => encode_snapshot_visibility_value v
  | VChunk m => encode_chunk_value m
  | VWorkspace id => encode_workspace_id_value id
  | VGeneration g => encode_workspace_pin_value g
  | VOpaque b => encode_opaque_value b
  end.

(** What the Rust types guarantee of keys and values. *)
Definition key_wf (k : CatKey) : Prop :=
  match k with
  | KObject id => ContentId_wf id
  | KAlias r o => RepoId_wf r ∧ GitOid_wf o
  | KRepository id => RepoId_wf id
  | KSnapshot r s => RepoId_wf r ∧ SnapshotId_wf s
  | KChunk g n => is_u32 g ∧ is_u64 n
  | KWorkspace id | KWorkspacePin id => WorkspaceId_wf id
  | KGcPin id => GcPinId_wf id
  | KMeta _ | KWorkspaceName _ | KJob _ => True
  end.
Definition value_wf (v : CatValue) : Prop :=
  match v with
  | VLocation l => location_wf l
  | VContent id => ContentId_wf id
  | VChunk m => chunk_metadata_wf m
  | VWorkspace id => WorkspaceId_wf id
  | VGeneration g => is_u32 g
  | VVisibility _ | VOpaque _ => True
  end.
Definition op_wf (op : Operation) : Prop :=
  key_wf (op_write op).1 ∧ ∀ v, (op_write op).2 = Some v → value_wf v.

Definition marker_key : CF * bytes := (CF_META, encode_meta_key OBJECT_LOCATION_REBUILD_META_KEY).
Definition marker_value : bytes := encode_opaque_value [OBJECT_LOCATION_REBUILD_IN_PROGRESS_MARKER].

Lemma enc_key_inj k k' : key_wf k → key_wf k' → enc_key k = enc_key k' → k = k'.
Proof.
  intros Hk Hk' He. pose proof (f_equal snd He) as Hb. apply (f_equal fst) in He.
  destruct k, k'; cbn [enc_key key_wf fst snd] in *; try discriminate He.
  - f_equal. by eapply (exact_inj _ _ _ _ _ location_key_exact).
  - assert ((repo, oid) = (repo0, oid0)) by (by eapply (exact_inj _ _ _ _ _ alias_key_exact)).
    congruence.
  - f_equal. by eapply (exact_inj _ _ _ _ _ repository_key_exact).
  - assert ((repo, snapshot) = (repo0, snapshot0))
      by (by eapply (exact_inj _ _ _ _ _ snapshot_key_exact)). congruence.
  - assert ((generation, chunk_id) = (generation0, chunk_id0))
      by (by eapply (exact_inj _ _ _ _ _ chunk_key_exact)). congruence.
  - f_equal. by eapply (exact_inj _ _ _ _ _ opaque_key_exact).
  - f_equal. by eapply (exact_inj _ _ _ _ _ workspace_key_exact).
  - f_equal. by eapply (exact_inj _ _ _ _ _ opaque_key_exact).
  - f_equal. by eapply (exact_inj _ _ _ _ _ workspace_key_exact).
  - by destruct (pin_keys_disjoint id id0).
  - by destruct (pin_keys_disjoint id0 id).
  - f_equal. by eapply (exact_inj _ _ _ _ _ gc_pin_key_exact).
  - f_equal. by eapply (exact_inj _ _ _ _ _ opaque_key_exact).
Qed.

Lemma rocks_write_enc op :
  rocks_write op =
    match (op_write op).2 with
    | Some v => WPut (enc_key (op_write op).1).1 (enc_key (op_write op).1).2 (enc_value v)
    | None => WDelete (enc_key (op_write op).1).1 (enc_key (op_write op).1).2
    end.
Proof. by destruct op. Qed.

(** ** The relation *)

(** The families the catalog itself writes. *)
Definition catalog_family (f : CF) : Prop := f ≠ CF_REFS ∧ f ≠ CF_CACHE_OBJECTS.

Record represents (m : Store) (c : InMemoryCatalog) : Prop := {
  rep_stored k v : stored c k = Some v → m !! enc_key k = Some (enc_value v);
  rep_only kk b : m !! kk = Some b → catalog_family kk.1 → kk ≠ marker_key →
    ∃ k v, stored c k = Some v ∧ kk = enc_key k ∧ b = enc_value v;
  rep_wf k v : stored c k = Some v → key_wf k ∧ value_wf v;
  rep_reserved : stored c (KMeta OBJECT_LOCATION_REBUILD_META_KEY) = None;
  rep_marker : m !! marker_key = if im_rebuild c then Some marker_value else None;
}.

Lemma represents_lookup m c k :
  represents m c → key_wf k → k ≠ KMeta OBJECT_LOCATION_REBUILD_META_KEY →
  m !! enc_key k = enc_value <$> stored c k.
Proof.
  intros Hr Hk Hm. destruct (stored c k) as [v|] eqn:Hs; cbn.
  - by apply (rep_stored _ _ Hr).
  - destruct (m !! enc_key k) as [b|] eqn:Hb; [|done].
    destruct (rep_only _ _ Hr _ _ Hb) as (k' & v & Hs' & He & _).
    { split; by destruct k. }
    { intros He. apply Hm. by apply (enc_key_inj k (KMeta OBJECT_LOCATION_REBUILD_META_KEY)). }
    apply enc_key_inj in He as <-; [congruence|done|]. by eapply rep_wf.
Qed.

(** One engine write does to the contents what the operation does to the catalog. *)
Lemma represents_write m c c' op :
  represents m c → op_wf op → is_marker_write op = false →
  same (stored c') (write_effect (stored c) op) → im_rebuild c' = im_rebuild c →
  represents (perform m (rocks_write op)) c'.
Proof.
  intros Hr [Hk Hv] Hm Hs Hrb. rewrite rocks_write_enc.
  set (k0 := (op_write op).1) in *. set (v0 := (op_write op).2) in *.
  assert (k0 ≠ KMeta OBJECT_LOCATION_REBUILD_META_KEY) as Hnm.
  { unfold k0. destruct op; cbn in *; try done. apply bool_decide_eq_false in Hm. congruence. }
  assert (enc_key k0 ≠ marker_key) as Hne.
  { intros He. apply Hnm. by apply (enc_key_inj k0 (KMeta OBJECT_LOCATION_REBUILD_META_KEY)). }
  assert (∀ k, stored c' k = if decide (k = k0) then v0 else stored c k) as Hst by exact Hs.
  assert (∀ kk, perform m (match v0 with
      | Some v => WPut (enc_key k0).1 (enc_key k0).2 (enc_value v)
      | None => WDelete (enc_key k0).1 (enc_key k0).2 end) !! kk =
      if decide (kk = enc_key k0) then enc_value <$> v0 else m !! kk) as Hlk.
  { intros kk. destruct v0; cbn; rewrite <-surjective_pairing; case_decide; subst;
      rewrite ?lookup_insert_eq, ?lookup_delete_eq, ?lookup_insert_ne, ?lookup_delete_ne; done. }
  split.
  - intros k v. rewrite Hst, Hlk. case_decide as Hd; [subst k; intros ->; by rewrite decide_True|].
    intros Hkv. rewrite decide_False; [by apply (rep_stored _ _ Hr)|].
    intros He. apply Hd, enc_key_inj; [by eapply rep_wf|done|done].
  - intros kk b. rewrite Hlk. case_decide as Hd.
    + subst kk. destruct v0 as [v|] eqn:Hv0; [|done]. intros [= <-] _ _. exists k0, v.
      rewrite Hst, decide_True by done. done.
    + intros Hb Hf Hmk. destruct (rep_only _ _ Hr _ _ Hb Hf Hmk) as (k & v & Hs' & -> & ->).
      exists k, v. rewrite Hst, decide_False; [done|congruence].
  - intros k v. rewrite Hst. case_decide; [subst k; intros; split; auto|by apply (rep_wf _ _ Hr)].
  - rewrite Hst, decide_False by congruence. apply (rep_reserved _ _ Hr).
  - rewrite Hlk, decide_False by congruence. rewrite Hrb. apply (rep_marker _ _ Hr).
Qed.

Lemma represents_batch b m c c' :
  represents m c → Forall op_wf b → existsb is_marker_write b = false →
  try_fold apply_op b c = Ok c' → represents (perform_all m (map rocks_write b)) c'.
Proof.
  unfold perform_all. revert m c. induction b as [|op b IH]; intros m c Hr Hwf Hm Hf.
  { by injection Hf as <-. }
  cbn [existsb] in Hm. apply orb_false_iff in Hm as [Hm1 Hm2]. apply Forall_cons in Hwf as [Hw Hwf].
  cbn [try_fold map fold_left] in *. destruct (apply_op c op) as [c1|] eqn:E; [|done].
  apply (IH _ c1); try done. apply (represents_write m c); try done; [by apply apply_op_stored|].
  destruct c, op; cbn in E; repeat case_match; by inversion E.
Qed.

(** ** Engine calls *)

Section Engine.
Context {DB} `{EngineLaws DB}.
Implicit Types (db : DB) (c : InMemoryCatalog).

(** Failures of the engine, as the catalog reports them. *)
Definition is_backend (e : CatalogError) : Prop := match e with Backend _ => True | _ => False end.

Lemma cf_Ok db f : cf db f = Ok f.
Proof. unfold cf. by rewrite cf_opened. Qed.

Inductive got db (f : CF) (k : bytes) : result CatalogError (option bytes) → Prop :=
| got_value : got db f k (Ok (contents db !! (f, k)))
| got_failure e : got db f k (Err (Backend e)).
Lemma get_spec db f k : got db f k (get db f k).
Proof.
  unfold get. rewrite cf_Ok, bind_Ok. destruct (get_cf db f k) as [v|e] eqn:E; cbn; [|constructor].
  apply get_stored in E as ->. constructor.
Qed.

(** Every catalog record can be fetched by its key. *)
Lemma get_represented db c k :
  represents (contents db) c → key_wf k → k ≠ KMeta OBJECT_LOCATION_REBUILD_META_KEY →
  get db (enc_key k).1 (enc_key k).2 = Ok (enc_value <$> stored c k) ∨
  ∃ e, get db (enc_key k).1 (enc_key k).2 = Err (Backend e).
Proof.
  intros Hr Hk Hm. destruct (get_spec db (enc_key k).1 (enc_key k).2); [left|eauto].
  by rewrite <-surjective_pairing, (represents_lookup _ c).
Qed.

Definition im_state c : ObjectLocationRebuildState := if im_rebuild c then InProgress else Idle.

Lemma read_state_spec db c :
  represents (contents db) c →
  read_object_location_rebuild_state db = Ok (im_state c) ∨
  ∃ e, read_object_location_rebuild_state db = Err (Backend e).
Proof.
  intros Hr. unfold read_object_location_rebuild_state, im_state.
  pose proof (rep_marker _ _ Hr) as Hm. unfold marker_key in Hm.
  destruct (get_spec db CF_META (encode_meta_key OBJECT_LOCATION_REBUILD_META_KEY));
    [rewrite Hm|by eauto]. rewrite bind_Ok. left. by destruct (im_rebuild c).
Qed.

(** *** [apply] *)

(** The alias check sees the bindings of the staged catalog. *)
Lemma existing_alias_spec db c pending staged repo oid :
  represents (contents db) c → RepoId_wf repo → GitOid_wf oid →
  im_aliases staged = pending ∪ im_aliases c →
  existing_alias db pending repo oid = Ok (im_aliases staged !! (repo, oid)) ∨
  ∃ e, existing_alias db pending repo oid = Err (Backend e).
Proof.
  intros Hr Hrepo Hoid Hst. unfold existing_alias. rewrite Hst.
  destruct (pending !! (repo, oid)) as [id|] eqn:Hp.
  { left. by rewrite (lookup_union_Some_l _ _ _ _ Hp). }
  rewrite lookup_union_r by done.
  destruct (get_represented db c (KAlias repo oid) Hr) as [He|[e He]]; [by split|done| |];
    cbn [enc_key fst snd] in He; rewrite He; [left|right; by exists e].
  rewrite bind_Ok. cbn [stored]. destruct (im_aliases c !! (repo, oid)) as [id|] eqn:Hid; [|done].
  cbn [fmap option_fmap option_map enc_value].
  assert (ContentId_wf id) as Hwf.
  { apply (rep_wf _ _ Hr (KAlias repo oid) (VContent id)). cbn. by rewrite Hid. }
  unfold decode_content_id_value, encode_content_id_value.
  by rewrite (proj1 location_key_exact id Hwf).
Qed.

Lemma apply_op_other s op :
  (∀ r o id, op ≠ OpOidAlias r o id) →
  ∃ s', apply_op s op = Ok s' ∧ im_aliases s' = im_aliases s.
Proof. intros Hop. destruct s, op; try by eexists. by destruct (Hop repo oid id). Qed.
Lemma op_alias_cases op :
  (∃ r o id, op = OpOidAlias r o id) ∨ (∀ r o id, op ≠ OpOidAlias r o id).
Proof. destruct op; eauto. Qed.
Lemma apply_op_alias s r o id :
  match im_aliases s !! (r, o) with
  | Some x => if decide (x ≠ id) then apply_op s (OpOidAlias r o id) = Err (AliasConflict r o x id)
              else ∃ s', apply_op s (OpOidAlias r o id) = Ok s' ∧
                         im_aliases s' = <[(r, o) := id]> (im_aliases s)
  | None => ∃ s', apply_op s (OpOidAlias r o id) = Ok s' ∧
                  im_aliases s' = <[(r, o) := id]> (im_aliases s)
  end.
Proof. destruct s. cbn. repeat case_match; eauto. Qed.

Lemma check_aliases_spec db c pending staged b :
  represents (contents db) c → Forall op_wf b → im_aliases staged = pending ∪ im_aliases c →
  match check_aliases db pending b with
  | Ok _ => is_ok (try_fold apply_op b staged) = true
  | Err e => is_backend e ∨ try_fold apply_op b staged = Err e
  end.
Proof.
  intros Hr Hwf. revert pending staged.
  induction Hwf as [|op b Hop Hwf IH]; intros pending staged Hst; [done|].
  destruct (op_alias_cases op) as [(r & o & id & ->)|Hn]; cbn [try_fold].
  - cbn [check_aliases]. destruct Hop as [[Hrepo Hoid] _].
    destruct (existing_alias_spec db c pending staged r o Hr Hrepo Hoid Hst) as [He|[e He]];
      rewrite He; [|by left].
    pose proof (apply_op_alias staged r o id) as Ha. rewrite bind_Ok.
    assert (∀ s', im_aliases s' = <[(r, o) := id]> (im_aliases staged) →
      im_aliases s' = <[(r, o) := id]> pending ∪ im_aliases c) as Hins.
    { intros s' ->. by rewrite Hst, insert_union_l. }
    destruct (im_aliases staged !! (r, o)) as [x|].
    + case_decide; [rewrite Ha; by right|]. destruct Ha as (s' & -> & Hs'). rewrite !bind_Ok.
      by apply IH, Hins.
    + destruct Ha as (s' & -> & Hs'). rewrite !bind_Ok. by apply IH, Hins.
  - destruct (apply_op_other staged op Hn) as (s' & -> & Hs'). rewrite bind_Ok.
    assert (check_aliases db pending (op :: b) = check_aliases db pending b) as ->.
    { destruct op; try done. by destruct (Hn repo oid id). }
    apply IH. by rewrite Hs'.
Qed.

(** The checks of [apply] decide as the in-memory catalog does. *)
Lemma rocks_check_spec db c b :
  represents (contents db) c → Forall op_wf b →
  match rocks_check db b with
  | Ok _ => ∃ c', im_apply c b = (Ok (), c') ∧ try_fold apply_op b c = Ok c' ∧
                  existsb is_marker_write b = false
  | Err e => is_backend e ∨ im_apply c b = (Err e, c)
  end.
Proof.
  intros Hr Hwf. unfold rocks_check.
  destruct (read_state_spec db c Hr) as [He|[e He]]; rewrite He; [|by left].
  rewrite bind_Ok. unfold im_apply, im_state.
  destruct (im_rebuild c); [by right|]. rewrite bind_ensure_decide by done.
  unfold reject_direct_rebuild_marker_mutation.
  destruct (existsb is_marker_write b) eqn:Hm; [by right|].
  rewrite !cf_Ok, !bind_Ok.
  pose proof (check_aliases_spec db c ∅ c b Hr Hwf ltac:(by rewrite (left_id_L ∅ (∪)))) as Hc.
  destruct (check_aliases db ∅ b) as [u|e].
  - destruct (try_fold apply_op b c) as [c'|]; [|done]. by exists c'.
  - destruct Hc as [Hc| ->]; auto.
Qed.

(** Outcomes of a call that ends in one engine write. *)
Lemma write_sync_spec db ws c' :
  represents (perform_all (contents db) ws) c' →
  match write_sync db ws with
  | (Ok _, db') => represents (contents db') c'
  | (Err e, db') => is_backend e ∧ (contents db' = contents db ∨ represents (contents db') c')
  end.
Proof.
  intros Hr. unfold write_sync. destruct (write_opt db ws) as [[[]|e] db'] eqn:E; cbn.
  - by rewrite (write_done _ _ _ E).
  - split; [done|]. destruct (write_failed _ _ _ _ E) as [Hu|Hd]; [by left|right]. by rewrite Hd.
Qed.

(** [refines db c r im]: the outcome [r] of a call on [db] is allowed by the
    outcome [im] of the same call on the in-memory catalog [c] it represents. A
    backend failure may leave the call done or not done, and nothing else. *)
Definition refines c (r : result CatalogError unit * DB)
    (im : result CatalogError unit * InMemoryCatalog) : Prop :=
  match r with
  | (Ok _, db') => im.1 = Ok () ∧ represents (contents db') im.2
  | (Err e, db') =>
      (is_backend e ∧ (represents (contents db') c ∨
                       im.1 = Ok () ∧ represents (contents db') im.2)) ∨
      (im = (Err e, c) ∧ represents (contents db') c)
  end.

Lemma rocks_apply_spec db c b :
  represents (contents db) c → Forall op_wf b → refines c (rocks_apply db b) (im_apply c b).
Proof.
  intros Hr Hwf. unfold rocks_apply. pose proof (rocks_check_spec db c b Hr Hwf) as Hc.
  destruct (rocks_check db b) as [u|e].
  - destruct Hc as (c' & -> & Hf & Hm).
    pose proof (write_sync_spec db (map rocks_write b) c' (represents_batch b _ _ _ Hr Hwf Hm Hf)) as Hw.
    destruct (write_sync db (map rocks_write b)) as [[[]|e] db']; cbn; [done|].
    left. destruct Hw as [? [Hw|Hw]]; split; auto. left. by rewrite Hw.
  - destruct Hc as [Hc| ->]; cbn; [left|right]; auto.
Qed.
End Engine.

End RocksSpec.
