(* ===== verification/RocksReads.v ===== *)
(** * Reads, enumerations and the rebuild of the RocksDB catalog

    The remaining calls of the RocksDB catalog against the in-memory catalog it
    represents: point reads, key-order enumerations, garbage-collection roots
    and the locations-only rebuild. *)

From Stdlib Require Import ZArith Lia Strings.Byte Strings.String.
From stdpp Require Import base tactics list sorting gmap strings.
From S2P Require Import Prelude Order Core Format CatalogCodec CatalogCodecSpec Catalog CatalogSpec RocksCatalog RocksSpec.
Import Core Format CatalogCodec CatalogCodecSpec Catalog CatalogSpec RocksCatalog RocksSpec.

#[local] Open Scope Z_scope.

Module RocksReads.

(** ** Families as lists *)

Lemma elem_of_family_list m f k v : (k, v) ∈ family_list m f ↔ m !! (f, k) = Some v.
Proof.
  unfold family_list. rewrite list_elem_of_fmap. split.
  - intros ([[f' k'] v'] & [= -> ->] & Hin). apply elem_of_map_to_list in Hin.
    apply map_lookup_filter_Some in Hin as [Hin Hf]. cbn in Hf. by subst f'.
  - intros Hm. exists ((f, k), v). split; [done|]. apply elem_of_map_to_list.
    by apply map_lookup_filter_Some.
Qed.
Lemma NoDup_family_keys m f : NoDup (map fst (family_list m f)).
Proof.
  unfold family_list. rewrite map_map. cbn [fst].
  apply NoDup_fmap_2_strong.
  - intros [[f1 k1] v1] [[f2 k2] v2] H1 H2 Hk. cbn in Hk. subst k2.
    apply elem_of_map_to_list in H1, H2.
    apply map_lookup_filter_Some in H1 as [H1 Hf1], H2 as [H2 Hf2]. cbn in Hf1, Hf2. subst.
    by rewrite H1 in H2; injection H2 as ->.
  - apply NoDup_map_to_list.
Qed.
Lemma NoDup_family_list m f : NoDup (family_list m f).
Proof. eapply NoDup_fmap_1, NoDup_family_keys. Qed.

(** A family whose entries are the encodings of [l], which is in key order, is
    enumerated as [l]. *)
Lemma family_entries_eq {A} m f (enc : A → bytes * bytes) (l : list A) :
  NoDup (map enc l) → (∀ k v, m !! (f, k) = Some v ↔ (k, v) ∈ map enc l) →
  StronglySorted (cmp_le (cmp_on fst bytes_compare)) (map enc l) →
  family_entries m f = map enc l.
Proof.
  intros Hnd Hl Hs. apply sort_on_unique; [apply _|apply NoDup_family_keys|done|].
  apply NoDup_Permutation; [done|apply NoDup_family_list|].
  intros [k v]. by rewrite elem_of_family_list, Hl.
Qed.

(** A family that holds the records of [l] under their keys and values. *)
Section Family.
Context {A : Type} (m : Store) (c : InMemoryCatalog) (fam : CF) (l : list A)
  (key : A → CatKey) (val : A → CatValue).
Context (Hr : represents m c) (Hfam : catalog_family fam) (Hmeta : fam ≠ CF_META)
  (Hnd : NoDup l) (Hinj : ∀ a b, key a = key b → val a = val b → a = b)
  (Hl : ∀ a, a ∈ l → (enc_key (key a)).1 = fam ∧ stored c (key a) = Some (val a))
  (Hall : ∀ k v, stored c k = Some v → (enc_key k).1 = fam → ∃ a, a ∈ l ∧ key a = k ∧ val a = v).

Definition enc_entry (a : A) : bytes * bytes := ((enc_key (key a)).2, enc_value (val a)).

Lemma family_lookup k v : m !! (fam, k) = Some v ↔ (k, v) ∈ map enc_entry l.
Proof.
  rewrite list_elem_of_fmap. unfold enc_entry. split.
  - intros Hm. destruct (rep_only _ _ Hr _ _ Hm Hfam) as (k' & v' & Hs & Hk & ->).
    { intros [= Hf _]. by destruct Hmeta. }
    destruct (Hall k' v' Hs) as (a & Ha & <- & <-); [by rewrite <-Hk|].
    exists a. by rewrite <-Hk.
  - intros (a & [= -> ->] & Ha). destruct (Hl a Ha) as [<- Hs].
    rewrite <-surjective_pairing. by apply (rep_stored _ _ Hr).
Qed.
Lemma NoDup_entries : NoDup (map enc_entry l).
Proof.
  apply NoDup_fmap_2_strong; [|done]. intros a b Ha Hb He. unfold enc_entry in He.
  destruct (Hl a Ha) as [Hfa Hsa], (Hl b Hb) as [Hfb Hsb].
  assert (key a = key b) as Hk.
  { apply enc_key_inj; [by eapply rep_wf|by eapply rep_wf|].
    apply (f_equal fst) in He. cbn in He.
    rewrite (surjective_pairing (enc_key (key a))), (surjective_pairing (enc_key (key b))). congruence. }
  apply Hinj; [done|]. congruence.
Qed.
Lemma family_sorted :
  StronglySorted (cmp_le (cmp_on fst bytes_compare)) (map enc_entry l) →
  family_entries m fam = map enc_entry l.
Proof. intros. apply family_entries_eq; auto using NoDup_entries, family_lookup. Qed.
Lemma family_perm : ∃ l', l' ≡ₚ l ∧ family_entries m fam = map enc_entry l'.
Proof.
  assert (family_entries m fam ≡ₚ map enc_entry l) as Hp.
  { unfold family_entries. rewrite sort_on_perm.
    apply NoDup_Permutation; [apply NoDup_family_list|apply NoDup_entries|].
    intros [k v]. by rewrite elem_of_family_list, family_lookup. }
  apply Permutation_map_inv in Hp as (l' & He & Hp). exists l'. by rewrite Hp.
Qed.
End Family.

(** ** Iteration *)

Section Engine.
Context {DB} `{EngineLaws DB}.
Implicit Types (db : DB) (c : InMemoryCatalog).

Lemma iterate_Ok {S} (f : S → bytes * bytes → result CatalogError S) l s :
  iterate f (map Ok l) s = try_fold f l s.
Proof. revert s. induction l as [|x l IH]; intros s; cbn; [done|]. by destruct (f s x); cbn. Qed.

Lemma try_fold_take_Err {E A S} (f : S → A → result E S) n l s e :
  try_fold f (take n l) s = Err e → try_fold f l s = Err e.
Proof.
  revert n s. induction l as [|x l IH]; intros [|n] s; cbn; try done.
  destruct (f s x); cbn; [apply IH|done].
Qed.

(** A loop over a family gives what the fold over its entries gives, or stops
    at an engine failure. *)
Lemma iterate_cf_spec {S} db fam (f : S → bytes * bytes → result CatalogError S) s :
  iterate_cf db fam f s = try_fold f (family_entries (contents db) fam) s ∨
  ∃ e, iterate_cf db fam f s = Err (Backend e).
Proof.
  unfold iterate_cf. rewrite cf_Ok, bind_Ok.
  destruct (iterator_stored db fam) as [->|(n & e & rest & ->)]; [left; apply iterate_Ok|].
  assert (∀ l, iterate f (map Ok l ++ Err e :: rest) s = Err (Backend e) ∨
    ∃ e', iterate f (map Ok l ++ Err e :: rest) s = Err e' ∧ try_fold f l s = Err e') as Hpre.
  { intros l. revert s. induction l as [|x l IH]; intros s; cbn; [by left|].
    destruct (f s x); cbn; [apply IH|eauto]. }
  destruct (Hpre (take n (family_entries (contents db) fam))) as [->|(e' & -> & Hf)]; [eauto|].
  left. symmetry. by eapply try_fold_take_Err.
Qed.

Lemma try_fold_map {E A B S} (enc : A → B) (body : S → B → result E S) (f : S → A → result E S) l s :
  (∀ a s, a ∈ l → body s (enc a) = f s a) → try_fold body (map enc l) s = try_fold f l s.
Proof.
  revert s. induction l as [|x l IH]; intros s Hb; [done|]. cbn. rewrite Hb by (by left).
  destruct (f s x); cbn; [|done]. apply IH. intros. apply Hb. by right.
Qed.
Lemma try_fold_collect {E A B} (g : A → option B) l acc :
  try_fold (E:=E) (λ acc a, Ok (acc ++ option_list (g a))) l acc = Ok (acc ++ omap g l).
Proof.
  revert acc. induction l as [|x l IH]; intros acc; cbn; [by rewrite app_nil_r|].
  rewrite IH, <-app_assoc. by destruct (g x).
Qed.

(** ** Point reads *)

(** A read agrees with the specification, or an engine read failed and the
    catalog reports no record. *)
Definition agrees {A} db (r spec : option A) : Prop :=
  r = spec ∨ (r = None ∧ ∃ f k e, get_cf db f k = Err e).

Lemma get_opt_spec db c k :
  represents (contents db) c → key_wf k → k ≠ KMeta OBJECT_LOCATION_REBUILD_META_KEY →
  agrees db (get_opt db (enc_key k).1 (enc_key k).2) (enc_value <$> stored c k).
Proof.
  intros Hr Hk Hm. unfold get_opt, get. rewrite cf_Ok, bind_Ok.
  destruct (get_cf db (enc_key k).1 (enc_key k).2) as [v|e] eqn:E; cbn.
  - left. apply get_stored in E as ->. unfold id.
    by rewrite <-surjective_pairing, (represents_lookup _ c).
  - right. eauto.
Qed.

Lemma read_record {A} db c k (dec : bytes → result CatalogError A) (inj : A → CatValue)
    (spec : option A) :
  represents (contents db) c → key_wf k → k ≠ KMeta OBJECT_LOCATION_REBUILD_META_KEY →
  stored c k = inj <$> spec → (∀ a, value_wf (inj a) → dec (enc_value (inj a)) = Ok a) →
  agrees db (get_opt db (enc_key k).1 (enc_key k).2 ≫= λ v, ok (dec v)) spec.
Proof.
  intros Hr Hk Hm Hs Hdec. destruct (get_opt_spec db c k Hr Hk Hm) as [->|[-> Hf]]; [|by right].
  left. rewrite Hs. destruct spec as [a|]; [|done]. cbn. rewrite Hdec; [done|].
  by apply (rep_wf _ _ Hr k).
Qed.

Lemma opaque_dec b : decode_opaque_value (encode_opaque_value b) = Ok b.
Proof. by apply (proj1 opaque_key_exact). Qed.

Section Reads.
Context (db : DB) (c : InMemoryCatalog) (Hr : represents (contents db) c).

Lemma rocks_oid_alias_agrees r o : RepoId_wf r → GitOid_wf o →
  agrees db (rocks_oid_alias db r o) (im_aliases c !! (r, o)).
Proof.
  intros Hrepo Ho.
  apply (read_record db c (KAlias r o) decode_content_id_value VContent); try done.
  all: intros a Ha; by apply (proj1 location_key_exact).
Qed.
Lemma rocks_repository_agrees r : RepoId_wf r →
  agrees db (rocks_repository db r) (im_repositories c !! r).
Proof.
  intros. apply (read_record db c (KRepository r) decode_opaque_value VOpaque); try done.
  all: intros a _; apply opaque_dec.
Qed.
Lemma rocks_snapshot_agrees r s : RepoId_wf r → SnapshotId_wf s →
  agrees db (rocks_repository_snapshot db r s) (im_snapshots c !! (r, s)).
Proof.
  intros. apply (read_record db c (KSnapshot r s) decode_snapshot_visibility_value VVisibility);
    try done.
  all: intros a _; by apply (proj1 visibility_exact).
Qed.
Lemma rocks_chunk_agrees g n : is_u32 g → is_u64 n →
  agrees db (rocks_chunk db g n) (im_chunks c !! (g, n)).
Proof.
  intros. apply (read_record db c (KChunk g n) decode_chunk_value VChunk); try done.
  all: intros a Ha; by apply (proj1 chunk_value_exact).
Qed.
Lemma rocks_meta_agrees k : agrees db (rocks_meta db k) (im_meta c !! k).
Proof.
  unfold rocks_meta. case_decide as Hk.
  - left. subst k. pose proof (rep_reserved _ _ Hr) as Hm. cbn in Hm.
    by destruct (im_meta c !! _).
  - apply (read_record db c (KMeta k) decode_opaque_value VOpaque); try done.
    all: congruence.
Qed.
Lemma rocks_workspace_agrees w : WorkspaceId_wf w →
  agrees db (rocks_workspace db w) (im_workspaces c !! w).
Proof.
  intros. apply (read_record db c (KWorkspace w) decode_opaque_value VOpaque); try done.
  all: intros a _; apply opaque_dec.
Qed.
Lemma rocks_workspace_name_agrees n :
  agrees db (rocks_workspace_name db n) (im_workspace_names c !! n).
Proof.
  apply (read_record db c (KWorkspaceName n) decode_workspace_id_value VWorkspace); try done.
  all: intros a Ha; by apply (proj1 workspace_key_exact).
Qed.
Lemma rocks_workspace_pin_agrees w : WorkspaceId_wf w →
  agrees db (rocks_workspace_pin db w) (im_workspace_pins c !! w).
Proof.
  intros. apply (read_record db c (KWorkspacePin w) decode_workspace_pin_value VGeneration);
    try done.
  all: intros a Ha; by apply (proj1 generation_exact).
Qed.
Lemma rocks_job_agrees j : agrees db (rocks_job db j) (im_jobs c !! j).
Proof.
  apply (read_record db c (KJob j) decode_opaque_value VOpaque); try done.
  all: intros a _; apply opaque_dec.
Qed.
Lemma rocks_object_location_agrees id : ContentId_wf id →
  agrees db (rocks_object_location db id) (im_object_location c id).
Proof.
  intros Hid. unfold rocks_object_location, im_object_location.
  destruct (read_object_location_rebuild_state db) as [st|e] eqn:E; cbn.
  - destruct (read_state_spec db c Hr) as [He|[e He]]; [|congruence].
    rewrite E in He. injection He as ->. unfold im_state. destruct (im_rebuild c); [by left|].
    rewrite decide_False by tauto.
    apply (read_record db c (KObject id) decode_object_location_value VLocation); try done.
    all: apply location_value_decode.
  - right. split; [done|]. unfold read_object_location_rebuild_state, get in E.
    rewrite cf_Ok, bind_Ok in E.
    destruct (get_cf db CF_META _) as [v|e'] eqn:Eg; [|eauto].
    exfalso. apply get_stored in Eg. cbn in E.
    pose proof (rep_marker _ _ Hr) as Hm. unfold marker_key in Hm.
    subst v. rewrite Hm in E. by destruct (im_rebuild c).
Qed.

(** ** Enumerations *)

(** An enumeration gives the specified result or an engine failure. *)
Definition enumerates {A} (r spec : result CatalogError A) : Prop :=
  r = spec ∨ ∃ e, r = Err (Backend e).

Lemma visit_family {A S} fam (l : list A) (key : A → CatKey) (val : A → CatValue)
    (body : S → bytes * bytes → result CatalogError S) (f : S → A → result CatalogError S) s :
  family_entries (contents db) fam = map (enc_entry key val) l →
  (∀ a s, a ∈ l → body s (enc_entry key val a) = f s a) →
  enumerates (iterate_cf db fam body s) (try_fold f l s).
Proof.
  intros Hf Hb. destruct (iterate_cf_spec db fam body s) as [->|He]; [|by right].
  left. rewrite Hf. by apply try_fold_map.
Qed.

Lemma elem_of_location_entries e :
  e ∈ im_location_entries c ↔ im_objects c !! oe_content_id e = Some (oe_location e).
Proof.
  unfold im_location_entries, location_entry_cmp. rewrite sort_on_perm.
  rewrite list_elem_of_fmap. split.
  - intros ([i v] & -> & Hin). by apply elem_of_map_to_list in Hin.
  - intros Hx. exists (oe_content_id e, oe_location e).
    split; [by destruct e|by apply elem_of_map_to_list].
Qed.
Lemma NoDup_location_entries : NoDup (im_location_entries c).
Proof.
  unfold im_location_entries, location_entry_cmp. rewrite sort_on_perm.
  apply NoDup_fmap_2; [|apply NoDup_map_to_list]. by intros [] [] [= -> ->].
Qed.

Lemma location_family :
  family_entries (contents db) CF_OBJECT_LOCATIONS =
    map (enc_entry (λ e, KObject (oe_content_id e)) (λ e, VLocation (oe_location e)))
        (im_location_entries c).
Proof.
  assert (∀ e, e ∈ im_location_entries c → ContentId_wf (oe_content_id e)) as Hwf.
  { intros e He%elem_of_location_entries.
    apply (rep_wf _ _ Hr (KObject (oe_content_id e)) (VLocation (oe_location e))).
    cbn. by rewrite He. }
  apply (family_sorted _ c); try done.
  - apply NoDup_location_entries.
  - intros [i l] [i' l']; cbn. congruence.
  - intros e He. split; [done|]. cbn. by apply elem_of_location_entries in He as ->.
  - intros k v Hk Hf. destruct k; try done. cbn in Hk.
    destruct (im_objects c !! id) as [l|] eqn:Hid; [|done]. injection Hk as <-.
    exists (mkObjectLocationEntry id l). split; [|done]. by apply elem_of_location_entries.
  - apply (StronglySorted_map (cmp_le location_entry_cmp)); [|apply sort_on_sorted; apply _].
    intros e e' He He'. unfold cmp_le, cmp_on, enc_entry. cbn [fst snd enc_key].
    rewrite !location_key_layout by auto. by rewrite bytes_compare_app.
Qed.

Lemma rocks_visit_locations_agrees {S} (f : S → ObjectLocationEntry → result CatalogError S) s :
  enumerates (rocks_visit_object_locations db f s) (visit_object_locations c f s).
Proof.
  unfold rocks_visit_object_locations. cbn [visit_object_locations InMemoryCatalog_Catalog].
  destruct (read_state_spec db c Hr) as [->|[e ->]]; [|right; by exists e].
  rewrite bind_Ok. unfold im_state. destruct (im_rebuild c); [by left|].
  rewrite bind_ensure_decide by done.
  eapply visit_family; [apply location_family|].
  intros e s' He%elem_of_location_entries.
  destruct (rep_wf _ _ Hr (KObject (oe_content_id e)) (VLocation (oe_location e)))
    as [Hk Hv]; [cbn; by rewrite He|].
  unfold enc_entry. cbn [fst snd enc_key enc_value].
  rewrite (proj1 location_key_exact _ Hk), (proj1 location_value_exact _ Hv). by destruct e.
Qed.

Lemma elem_of_alias_entries e :
  e ∈ im_alias_entries c ↔ im_aliases c !! (ae_repository e, ae_oid e) = Some (ae_content_id e).
Proof.
  unfold im_alias_entries, alias_entry_cmp. rewrite sort_on_perm, list_elem_of_fmap. split.
  - intros ([[r o] i] & -> & Hin). by apply elem_of_map_to_list in Hin.
  - intros Hx. exists ((ae_repository e, ae_oid e), ae_content_id e).
    split; [by destruct e|by apply elem_of_map_to_list].
Qed.
Lemma alias_entry_wf e :
  e ∈ im_alias_entries c →
  RepoId_wf (ae_repository e) ∧ GitOid_wf (ae_oid e) ∧ ContentId_wf (ae_content_id e).
Proof.
  intros He%elem_of_alias_entries.
  destruct (rep_wf _ _ Hr (KAlias (ae_repository e) (ae_oid e)) (VContent (ae_content_id e)))
    as [[] ?]; [cbn; by rewrite He|done].
Qed.

(** The key order is by repository, algorithm and object ID. *)
Lemma alias_key_compare r o r' o' :
  RepoId_wf r → GitOid_wf o → RepoId_wf r' → GitOid_wf o' →
  bytes_compare (encode_oid_alias_key r o) (encode_oid_alias_key r' o') =
    cmp_pair bytes_compare (cmp_pair Z.compare bytes_compare)
      (repo_bytes r, (alg_tag (algorithm o), oid_as_bytes o))
      (repo_bytes r', (alg_tag (algorithm o'), oid_as_bytes o')).
Proof.
  unfold RepoId_wf. intros Hrr Ho Hrr' Ho'. destruct Ho as (Hl & _), Ho' as (Hl' & _).
  unfold encode_oid_alias_key, cmp_pair. cbn [fst snd].
  rewrite (bytes_compare_app [_] _ [_] _) by done.
  replace (bytes_compare [byte_of_Z CATALOG_VERSION] [byte_of_Z CATALOG_VERSION]) with Eq by done.
  rewrite bytes_compare_app by congruence. destruct (bytes_compare (repo_bytes r) _); try done.
  rewrite Hl, Hl'. by destruct (algorithm o), (algorithm o').
Qed.

Lemma alias_family :
  family_entries (contents db) CF_OID_ALIASES =
    map (enc_entry (λ e, KAlias (ae_repository e) (ae_oid e)) (λ e, VContent (ae_content_id e)))
        (im_alias_entries c).
Proof.
  apply (family_sorted _ c); try done.
  - unfold im_alias_entries, alias_entry_cmp. rewrite sort_on_perm.
    apply NoDup_fmap_2; [|apply NoDup_map_to_list]. by intros [[] ?] [[] ?] [= -> -> ->].
  - intros [r o i] [r' o' i']; cbn. congruence.
  - intros e He. split; [done|]. cbn. by apply elem_of_alias_entries in He as ->.
  - intros k v Hk Hf. destruct k; try done. cbn in Hk.
    destruct (im_aliases c !! (repo, oid)) as [l|] eqn:Hid; [|done]. injection Hk as <-.
    exists (mkOidAliasEntry repo oid l). split; [|done]. by apply elem_of_alias_entries.
  - apply (StronglySorted_map (cmp_le alias_entry_cmp)); [|apply sort_on_sorted; apply _].
    intros e e' (?&?&_)%alias_entry_wf (?&?&_)%alias_entry_wf.
    unfold cmp_le, cmp_on, enc_entry. cbn [fst snd enc_key]. by rewrite alias_key_compare.
Qed.

Lemma rocks_visit_aliases_agrees {S} (f : S → OidAliasEntry → result CatalogError S) s :
  enumerates (rocks_visit_oid_aliases db f s) (visit_oid_aliases c f s).
Proof.
  eapply visit_family; [apply alias_family|].
  intros e s' (Hk1 & Hk2 & Hv)%alias_entry_wf.
  unfold enc_entry. cbn [fst snd enc_key enc_value].
  pose proof (proj1 alias_key_exact (ae_repository e, ae_oid e) (conj Hk1 Hk2)) as Hd.
  cbn [uncurry] in Hd. rewrite Hd, bind_Ok.
  unfold decode_content_id_value, encode_content_id_value.
  rewrite (proj1 location_key_exact _ Hv). by destruct e.
Qed.

Lemma elem_of_chunk_entries e :
  e ∈ im_chunk_entries c ↔ im_chunks c !! (ce_generation e, ce_chunk_id e) = Some (ce_metadata e).
Proof.
  unfold im_chunk_entries, chunk_entry_cmp. rewrite sort_on_perm, list_elem_of_fmap. split.
  - intros ([[r o] i] & -> & Hin). by apply elem_of_map_to_list in Hin.
  - intros Hx. exists ((ce_generation e, ce_chunk_id e), ce_metadata e).
    split; [by destruct e|by apply elem_of_map_to_list].
Qed.
Lemma chunk_entry_wf e :
  e ∈ im_chunk_entries c →
  is_u32 (ce_generation e) ∧ is_u64 (ce_chunk_id e) ∧ chunk_metadata_wf (ce_metadata e).
Proof.
  intros He%elem_of_chunk_entries.
  destruct (rep_wf _ _ Hr (KChunk (ce_generation e) (ce_chunk_id e)) (VChunk (ce_metadata e)))
    as [[] ?]; [cbn; by rewrite He|done].
Qed.
Lemma chunk_family :
  family_entries (contents db) CF_CHUNKS =
    map (enc_entry (λ e, KChunk (ce_generation e) (ce_chunk_id e)) (λ e, VChunk (ce_metadata e)))
        (im_chunk_entries c).
Proof.
  apply (family_sorted _ c); try done.
  - unfold im_chunk_entries, chunk_entry_cmp. rewrite sort_on_perm.
    apply NoDup_fmap_2; [|apply NoDup_map_to_list]. by intros [[] ?] [[] ?] [= -> -> ->].
  - intros [r o i] [r' o' i']; cbn. congruence.
  - intros e He. split; [done|]. cbn. by apply elem_of_chunk_entries in He as ->.
  - intros k v Hk Hf. destruct k; try done. cbn in Hk.
    destruct (im_chunks c !! (generation, chunk_id)) as [l|] eqn:Hid; [|done]. injection Hk as <-.
    exists (mkChunkEntry generation chunk_id l). split; [|done]. by apply elem_of_chunk_entries.
  - apply (StronglySorted_map (cmp_le chunk_entry_cmp)); [|apply sort_on_sorted; apply _].
    intros e e' (?&?&_)%chunk_entry_wf (?&?&_)%chunk_entry_wf.
    unfold cmp_le, cmp_on, enc_entry, cmp_pair. cbn [fst snd enc_key].
    rewrite !chunk_key_layout, bytes_compare_app by done.
    replace (bytes_compare version_field version_field) with Eq by done.
    rewrite bytes_compare_app by (by rewrite !length_be_encode).
    rewrite !bytes_compare_be by done. done.
Qed.
Lemma rocks_visit_chunks_agrees {S} (f : S → ChunkEntry → result CatalogError S) s :
  enumerates (rocks_visit_chunks db f s) (visit_chunks c f s).
Proof.
  unfold rocks_visit_chunks. cbn [visit_chunks InMemoryCatalog_Catalog].
  destruct (read_state_spec db c Hr) as [->|[e ->]]; [|right; by exists e].
  rewrite bind_Ok. unfold im_state. destruct (im_rebuild c); [by left|].
  rewrite bind_ensure_decide by done.
  eapply visit_family; [apply chunk_family|].
  intros e s' (Hk1 & Hk2 & Hv)%chunk_entry_wf.
  unfold enc_entry. cbn [fst snd enc_key enc_value].
  pose proof (proj1 chunk_key_exact (ce_generation e, ce_chunk_id e) (conj Hk1 Hk2)) as Hd.
  cbn [uncurry] in Hd. rewrite Hd, bind_Ok, (proj1 chunk_value_exact _ Hv). by destruct e.
Qed.

(** Collecting a family and sorting the result. *)
Lemma collect_family {A B} fam (l : list A) (key : A → CatKey) (val : A → CatValue)
    (body : list B → bytes * bytes → result CatalogError (list B)) (g : A → option B)
    (cmp : B → B → comparison) :
  Ord cmp →
  (∃ l', l' ≡ₚ l ∧ family_entries (contents db) fam = map (enc_entry key val) l') →
  (∀ a acc, a ∈ l → body acc (enc_entry key val a) = Ok (acc ++ option_list (g a))) →
  enumerates (r ← iterate_cf db fam body []; Ok (sort_by cmp r)) (Ok (sort_by cmp (omap g l))).
Proof.
  intros Ho (l' & Hp & Hf) Hb.
  destruct (visit_family fam l' key val body (λ acc a, Ok (acc ++ option_list (g a))) [] Hf)
    as [->|[e ->]]; [|left|right; by exists e].
  { intros a acc Ha. apply Hb. by rewrite <-Hp. }
  rewrite try_fold_collect, bind_Ok. f_equal. apply sort_by_permutation; [done|].
  cbn [app]. by rewrite Hp.
Qed.

#[local] Instance RepositorySnapshot_ord : Ord RepositorySnapshot_cmp.
Proof.
  apply cmp_on_ord; [|apply _]. intros [[] [] v] [[] [] v']; cbn.
  destruct v, v'; cbn; congruence.
Qed.
#[local] Instance GcPin_ord : Ord GcPin_cmp.
Proof. apply cmp_on_ord; [|apply _]. intros [[] v] [[] v']; cbn. congruence. Qed.
#[local] Instance workspace_pin_ord : Ord workspace_pin_cmp.
Proof. apply cmp_on_ord; [|apply _]. intros [[] v] [[] v']; cbn. congruence. Qed.

Lemma rocks_snapshots_agrees :
  enumerates (rocks_repository_snapshots db) (Ok (im_snapshot_list c)).
Proof.
  set (l := map (λ p, mkRepositorySnapshot p.1.1 p.1.2 p.2) (map_to_list (im_snapshots c))).
  assert (∀ x, x ∈ l ↔ im_snapshots c !! (rs_repository x, rs_snapshot x) = Some (rs_visibility x))
    as Hel.
  { intros x. rewrite <-elem_of_snapshot_list. unfold im_snapshot_list.
    by rewrite (elem_of_sort_by RepositorySnapshot_cmp). }
  assert (omap Some l = l) as Hom by (clear; induction l as [|x l IH]; cbn; [|rewrite IH]; done).
  unfold im_snapshot_list. fold l. rewrite <-Hom at 1.
  apply (collect_family _ l (λ x, KSnapshot (rs_repository x) (rs_snapshot x))
    (λ x, VVisibility (rs_visibility x))); [apply _| |].
  - apply (family_perm _ c); try done.
    + apply NoDup_fmap_2; [|apply NoDup_map_to_list]. by intros [[] ?] [[] ?] [= -> -> ->].
    + intros [] []; cbn. congruence.
    + intros x Hx. split; [done|]. cbn. by apply Hel in Hx as ->.
    + intros k v Hk Hf. destruct k; try done. cbn in Hk.
      destruct (im_snapshots c !! (repo, snapshot)) as [v0|] eqn:Hid; [|done]. injection Hk as <-.
      exists (mkRepositorySnapshot repo snapshot v0). split; [|done]. by apply Hel.
  - intros x acc Hx%Hel.
    destruct (rep_wf _ _ Hr (KSnapshot (rs_repository x) (rs_snapshot x))
      (VVisibility (rs_visibility x))) as [Hk _]; [cbn; by rewrite Hx|].
    pose proof (proj1 snapshot_key_exact (rs_repository x, rs_snapshot x) Hk) as Hd.
    cbn [uncurry] in Hd. unfold enc_entry. cbn [fst snd enc_key enc_value].
    rewrite Hd, bind_Ok, (proj1 visibility_exact _ I). by destruct x.
Qed.

(** The two kinds of pins share a family. *)
Definition pin_key (p : WorkspaceId * Z + GcPin) : CatKey :=
  match p with inl p => KWorkspacePin p.1 | inr p => KGcPin (gp_id p) end.
Definition pin_value (p : WorkspaceId * Z + GcPin) : CatValue :=
  VGeneration (match p with inl p => p.2 | inr p => gp_generation p end).
Definition all_pins : list (WorkspaceId * Z + GcPin) :=
  map inl (map_to_list (im_workspace_pins c)) ++
  map inr (map (λ p, mkGcPin p.1 p.2) (map_to_list (im_gc_pins c))).

Lemma elem_of_all_pins p : p ∈ all_pins ↔ stored c (pin_key p) = Some (pin_value p).
Proof.
  unfold all_pins. rewrite elem_of_app, !list_elem_of_fmap. split.
  - intros [([w g] & -> & Hin)|(q & -> & Hq)]; cbn.
    + by apply elem_of_map_to_list in Hin as ->.
    + apply list_elem_of_fmap in Hq as ([i g] & -> & Hin). cbn.
      by apply elem_of_map_to_list in Hin as ->.
  - destruct p as [[w g]|[i g]]; unfold pin_value; cbn; intros Hs.
    + left. exists (w, g). split; [done|]. apply elem_of_map_to_list.
      destruct (im_workspace_pins c !! w); by simplify_eq/=.
    + right. exists (mkGcPin i g). split; [done|]. apply list_elem_of_fmap. exists (i, g).
      split; [done|]. apply elem_of_map_to_list.
      destruct (im_gc_pins c !! i); by simplify_eq/=.
Qed.
Lemma pin_family :
  ∃ l', l' ≡ₚ all_pins ∧
    family_entries (contents db) CF_PINS = map (enc_entry pin_key pin_value) l'.
Proof.
  apply (family_perm _ c); try done.
  - unfold all_pins. apply NoDup_app. split_and!.
    + apply NoDup_fmap_2; [apply _|apply NoDup_map_to_list].
    + intros x (p & -> & _)%list_elem_of_fmap (q & Hq & _)%list_elem_of_fmap. done.
    + apply NoDup_fmap_2; [apply _|]. apply NoDup_fmap_2; [|apply NoDup_map_to_list].
      by intros [] [] [= -> ->].
  - intros [[]|[]] [[]|[]]; unfold pin_value; cbn; congruence.
  - intros p Hp. split; [by destruct p|by apply elem_of_all_pins].
  - intros k v Hk Hf. destruct k; try done; cbn in Hk.
    + destruct (im_workspace_pins c !! id) as [g|] eqn:Hg; [|done]. injection Hk as <-.
      exists (inl (id, g)). split; [|done]. apply elem_of_all_pins. cbn. by rewrite Hg.
    + destruct (im_gc_pins c !! id) as [g|] eqn:Hg; [|done]. injection Hk as <-.
      exists (inr (mkGcPin id g)). split; [|done]. apply elem_of_all_pins. cbn. by rewrite Hg.
Qed.
Lemma pin_entry_facts p : p ∈ all_pins →
  match p with
  | inl p => WorkspaceId_wf p.1 ∧ is_u32 p.2 ∧ length (encode_workspace_pin_key p.1) = 17%nat
  | inr p => GcPinId_wf (gp_id p) ∧ is_u32 (gp_generation p) ∧
             length (encode_gc_pin_key (gp_id p)) = 18%nat
  end.
Proof.
  intros Hp%elem_of_all_pins. apply (rep_wf _ _ Hr) in Hp as [Hk Hv].
  unfold pin_key, pin_value in *.
  destruct p as [[w g]|[i g]];
    cbn [fst snd gp_id gp_generation key_wf value_wf] in *; split_and!; try done.
  - unfold encode_workspace_pin_key. rewrite workspace_key_layout by done.
    unfold WorkspaceId_wf in Hk. solve_len.
  - rewrite gc_pin_key_layout by done. unfold GcPinId_wf in Hk. solve_len.
Qed.

Lemma rocks_workspace_pins_agrees :
  enumerates (rocks_workspace_pins db) (Ok (im_workspace_pin_list c)).
Proof.
  assert (omap (λ p, match p with inl p => Some p | inr _ => None end) all_pins =
    map_to_list (im_workspace_pins c)) as Hom.
  { unfold all_pins. rewrite omap_app. generalize (map_to_list (im_workspace_pins c)) as l1.
    generalize (map (λ p, mkGcPin p.1 p.2) (map_to_list (im_gc_pins c))) as l2. clear. intros l2 l1.
    assert (omap (λ p : WorkspaceId * Z + GcPin, match p with inl p => Some p | inr _ => None end)
      (map inr l2) = []) as -> by (by induction l2).
    rewrite app_nil_r. induction l1 as [|x l IH]; cbn; [done|]. by rewrite IH. }
  unfold im_workspace_pin_list. rewrite <-Hom.
  apply (collect_family _ all_pins pin_key pin_value); [apply _|apply pin_family|].
  intros p acc Hp%pin_entry_facts. unfold enc_entry, pin_key, pin_value.
  destruct p as [[w g]|[i g]]; destruct Hp as (Hk & Hv & Hlen);
    cbn [fst snd gp_id gp_generation enc_key enc_value] in *.
  - rewrite Hlen, decide_True by done. unfold decode_workspace_pin_key, encode_workspace_pin_key.
    rewrite (proj1 workspace_key_exact _ Hk), bind_Ok.
    unfold decode_workspace_pin_value, encode_workspace_pin_value.
    by rewrite (proj1 generation_exact _ Hv).
  - rewrite Hlen. cbn. by rewrite app_nil_r.
Qed.
Lemma rocks_gc_pins_agrees : enumerates (rocks_gc_pins db) (Ok (im_gc_pin_list c)).
Proof.
  assert (omap (λ p, match p with inl p => None | inr p => Some p end) all_pins =
    map (λ p, mkGcPin p.1 p.2) (map_to_list (im_gc_pins c))) as Hom.
  { unfold all_pins. rewrite omap_app. generalize (map_to_list (im_workspace_pins c)) as l1.
    generalize (map (λ p, mkGcPin p.1 p.2) (map_to_list (im_gc_pins c))) as l2. clear. intros l2 l1.
    assert (omap (λ p : WorkspaceId * Z + GcPin, match p with inl p => None | inr p => Some p end)
      (map inl l1) = []) as -> by (by induction l1).
    cbn. induction l2 as [|x l IH]; cbn; [done|]. by rewrite IH. }
  unfold im_gc_pin_list. rewrite <-Hom.
  apply (collect_family _ all_pins pin_key pin_value); [apply _|apply pin_family|].
  intros p acc Hp%pin_entry_facts. unfold enc_entry, pin_key, pin_value.
  destruct p as [[w g]|[i g]]; destruct Hp as (Hk & Hv & Hlen);
    cbn [fst snd gp_id gp_generation enc_key enc_value] in *.
  - rewrite Hlen. cbn. by rewrite app_nil_r.
  - rewrite Hlen, decide_True by done.
    rewrite (proj1 gc_pin_key_exact _ Hk), bind_Ok.
    unfold decode_gc_pin_value, decode_workspace_pin_value, encode_workspace_pin_value.
    by rewrite (proj1 generation_exact _ Hv).
Qed.
End Reads.

Lemma rocks_gc_roots_agrees db c :
  represents (contents db) c → enumerates (gc_roots db) (gc_roots c).
Proof.
  intros Hr. unfold gc_roots. cbn [repository_snapshots workspace_pins gc_pins
    RocksDbCatalog_Catalog InMemoryCatalog_Catalog].
  destruct (rocks_snapshots_agrees db c Hr) as [->|[e ->]]; [|right; by exists e].
  destruct (rocks_workspace_pins_agrees db c Hr) as [->|[e ->]]; [|right; by exists e].
  destruct (rocks_gc_pins_agrees db c Hr) as [->|[e ->]]; [|right; by exists e].
  by left.
Qed.
Lemma rocks_current_generation_agrees db c :
  represents (contents db) c → agrees db (current_generation db) (current_generation c).
Proof.
  intros Hr. unfold current_generation. cbn [meta RocksDbCatalog_Catalog InMemoryCatalog_Catalog].
  destruct (rocks_meta_agrees db c Hr CURRENT_GENERATION_META_KEY) as [->|[-> Hf]]; [by left|by right].
Qed.
End Engine.

(** ** Properties *)

(** Every point read of the RocksDB catalog returns what the in-memory
    catalog returns, or no record when an engine read failed; it never returns
    a wrong or stale record. *)
Theorem rocks_reads_agree {DB} `{EngineLaws DB} (db : DB) c :
  represents (contents db) c →
  (∀ id, ContentId_wf id → agrees db (object_location db id) (object_location c id)) ∧
  (∀ r o, RepoId_wf r → GitOid_wf o → agrees db (oid_alias db r o) (oid_alias c r o)) ∧
  (∀ r, RepoId_wf r → agrees db (repository db r) (repository c r)) ∧
  (∀ r s, RepoId_wf r → SnapshotId_wf s →
     agrees db (repository_snapshot db r s) (repository_snapshot c r s)) ∧
  (∀ g n, is_u32 g → is_u64 n → agrees db (chunk db g n) (chunk c g n)) ∧
  (∀ k, agrees db (meta db k) (meta c k)) ∧
  (∀ w, WorkspaceId_wf w → agrees db (workspace db w) (workspace c w)) ∧
  (∀ n, agrees db (workspace_name db n) (workspace_name c n)) ∧
  (∀ w, WorkspaceId_wf w → agrees db (workspace_pin db w) (workspace_pin c w)) ∧
  (∀ j, agrees db (job db j) (job c j)) ∧
  agrees db (current_generation db) (current_generation c).
Proof.
  intros Hr. split_and!.
  - by apply rocks_object_location_agrees.
  - by apply rocks_oid_alias_agrees.
  - by apply rocks_repository_agrees.
  - by apply rocks_snapshot_agrees.
  - by apply rocks_chunk_agrees.
  - by apply rocks_meta_agrees.
  - by apply rocks_workspace_agrees.
  - by apply rocks_workspace_name_agrees.
  - by apply rocks_workspace_pin_agrees.
  - by apply rocks_job_agrees.
  - by apply rocks_current_generation_agrees.
Qed.

(** Every enumeration of the RocksDB catalog, visitors, listings and
    garbage-collection roots, gives the in-memory result, in the same order, or
    stops with an engine failure; nothing is skipped. *)
Theorem rocks_enumerations_agree {DB} `{EngineLaws DB} (db : DB) c :
  represents (contents db) c →
  (∀ S (f : S → ObjectLocationEntry → result CatalogError S) s,
     enumerates (visit_object_locations db f s) (visit_object_locations c f s)) ∧
  (∀ S (f : S → OidAliasEntry → result CatalogError S) s,
     enumerates (visit_oid_aliases db f s) (visit_oid_aliases c f s)) ∧
  (∀ S (f : S → ChunkEntry → result CatalogError S) s,
     enumerates (visit_chunks db f s) (visit_chunks c f s)) ∧
  enumerates (repository_snapshots db) (repository_snapshots c) ∧
  enumerates (workspace_pins db) (workspace_pins c) ∧
  enumerates (gc_pins db) (gc_pins c) ∧
  enumerates (gc_roots db) (gc_roots c).
Proof.
  intros Hr. split_and!.
  - intros. by apply rocks_visit_locations_agrees.
  - intros. by apply rocks_visit_aliases_agrees.
  - intros. by apply rocks_visit_chunks_agrees.
  - by apply rocks_snapshots_agrees.
  - by apply rocks_workspace_pins_agrees.
  - by apply rocks_gc_pins_agrees.
  - by apply rocks_gc_roots_agrees.
Qed.

End RocksReads.
