(* ===== verification/RocksRefinement.v ===== *)
(** * The refinement theorems of the RocksDB catalog

    The rebuild protocol over the engine, and the theorems that put the
    RocksDB catalog together with the in-memory one: every mutating call, every
    point read and every enumeration. *)

From Stdlib Require Import ZArith Lia Strings.Byte Strings.String.
From stdpp Require Import base tactics list sorting gmap strings.
From S2P Require Import Prelude Order Core Format CatalogCodec CatalogCodecSpec Catalog CatalogSpec RocksCatalog RocksSpec RocksReads.
Import Core Format CatalogCodec CatalogCodecSpec Catalog CatalogSpec RocksCatalog RocksSpec RocksReads.

#[local] Open Scope Z_scope.

Module RocksRefinement.

Definition entry_wf (e : ObjectLocationEntry) : Prop :=
  ContentId_wf (oe_content_id e) ∧ location_wf (oe_location e).

(** ** Clearing the locations *)

Definition clear_writes : list WriteOp :=
  [WDeleteRange CF_OBJECT_LOCATIONS [byte_of_Z CATALOG_VERSION] [byte_of_Z (CATALOG_VERSION + 1)];
   WPut CF_META (encode_meta_key OBJECT_LOCATION_REBUILD_META_KEY)
     (encode_opaque_value [OBJECT_LOCATION_REBUILD_IN_PROGRESS_MARKER])].

(** Every location key lies in the deleted range. *)
Lemma location_key_in_range id : ContentId_wf id →
  bytes_ltb (encode_object_location_key id) [byte_of_Z CATALOG_VERSION] = false ∧
  bytes_ltb (encode_object_location_key id) [byte_of_Z (CATALOG_VERSION + 1)] = true.
Proof.
  intros Hid. rewrite location_key_layout by done. unfold bytes_ltb. split; [|done].
  destruct (cid_bytes id); done.
Qed.

Lemma clear_lookup m c kk :
  represents m c → catalog_family kk.1 →
  perform_all m clear_writes !! kk =
    if decide (kk = marker_key) then Some marker_value
    else if decide (kk.1 = CF_OBJECT_LOCATIONS) then None else m !! kk.
Proof.
  intros Hr Hfam. unfold perform_all, clear_writes. cbn [fold_left perform].
  change (CF_META, encode_meta_key OBJECT_LOCATION_REBUILD_META_KEY) with marker_key.
  change (encode_opaque_value [OBJECT_LOCATION_REBUILD_IN_PROGRESS_MARKER]) with marker_value.
  case_decide as Hk; [subst; apply lookup_insert_eq|]. rewrite lookup_insert_ne by done.
  case_decide as Hf.
  - apply map_lookup_filter_None. right. intros b Hb Hn. apply Hn.
    destruct (rep_only _ _ Hr _ _ Hb Hfam Hk) as (k & v & Hs & -> & _).
    destruct k; try done. split; [done|]. cbn [enc_key snd fst].
    apply location_key_in_range. by apply (rep_wf _ _ Hr _ _ Hs).
  - destruct (m !! kk) as [b|] eqn:Hb.
    + apply map_lookup_filter_Some. split; [done|]. cbn. tauto.
    + apply map_lookup_filter_None. by left.
Qed.

Lemma represents_clear m c :
  represents m c →
  represents (perform_all m clear_writes) (set_rebuild true (set_objects (λ _, ∅) c)).
Proof.
  intros Hr. set (c' := set_rebuild true (set_objects (λ _, ∅) c)).
  assert (∀ k, stored c' k = match k with KObject _ => None | _ => stored c k end) as Hst.
  { intros k. unfold c'. destruct c, k; cbn; try done. }
  assert (∀ k v, stored c' k = Some v → stored c k = Some v ∧ (enc_key k).1 ≠ CF_OBJECT_LOCATIONS)
    as Hst' by (intros k v; rewrite Hst; by destruct k).
  assert (∀ k, catalog_family (enc_key k).1) as Hcf by (intros []; split; done).
  split.
  - intros k v [Hk Hf]%Hst'. rewrite (clear_lookup m c) by auto.
    assert (enc_key k ≠ marker_key) as Hne.
    { intros He. apply (enc_key_inj k (KMeta OBJECT_LOCATION_REBUILD_META_KEY)) in He; [|by eapply rep_wf|done].
      subst k. rewrite (rep_reserved _ _ Hr) in Hk. done. }
    rewrite !decide_False by done. by apply (rep_stored _ _ Hr).
  - intros kk b Hb Hfam Hne. rewrite (clear_lookup m c), decide_False in Hb by done.
    case_decide as Hf; [done|].
    destruct (rep_only _ _ Hr _ _ Hb Hfam Hne) as (k & v & Hs & -> & ->).
    exists k, v. split; [|done]. rewrite Hst. by destruct k.
  - intros k v [Hk _]%Hst'. by apply (rep_wf _ _ Hr).
  - rewrite Hst. apply (rep_reserved _ _ Hr).
  - rewrite (clear_lookup m c), decide_True by (try done; by split). by destruct c.
Qed.

Lemma represents_finish m c :
  represents m c →
  represents (perform_all m [WDelete CF_META (encode_meta_key OBJECT_LOCATION_REBUILD_META_KEY)])
             (set_rebuild false c).
Proof.
  intros Hr. assert (∀ k, stored (set_rebuild false c) k = stored c k) as Hst by (by destruct c).
  unfold perform_all. cbn [fold_left perform].
  change (CF_META, encode_meta_key OBJECT_LOCATION_REBUILD_META_KEY) with marker_key.
  split.
  - intros k v. rewrite Hst. intros Hk. rewrite lookup_delete_ne; [by apply (rep_stored _ _ Hr)|].
    intros He. symmetry in He.
    apply (enc_key_inj k (KMeta OBJECT_LOCATION_REBUILD_META_KEY)) in He; [|by eapply rep_wf|done].
    subst k. rewrite (rep_reserved _ _ Hr) in Hk. done.
  - intros kk b Hb Hfam Hne. rewrite lookup_delete_ne in Hb by done.
    destruct (rep_only _ _ Hr _ _ Hb Hfam Hne) as (k & v & Hs & Hrest).
    exists k, v. by rewrite Hst.
  - intros k v. rewrite Hst. apply (rep_wf _ _ Hr).
  - rewrite Hst. apply (rep_reserved _ _ Hr).
  - rewrite lookup_delete_eq. by destruct c.
Qed.

(** ** The four calls *)

Section Engine.
Context {DB} `{EngineLaws DB}.
Implicit Types (db : DB) (c : InMemoryCatalog).

Lemma expect_rebuild_spec db c b e :
  represents (contents db) c →
  expect_rebuild db b e = (if bool_decide (im_rebuild c = b) then Ok () else Err e) ∨
  ∃ m, expect_rebuild db b e = Err (Backend m).
Proof.
  intros Hr. unfold expect_rebuild.
  destruct (read_state_spec db c Hr) as [->|[m ->]]; [left|right; by exists m].
  rewrite bind_Ok. unfold im_state. by destruct (im_rebuild c), b.
Qed.

(** A call that only writes: its outcome against the state it should reach. *)
Lemma refines_write db c ws c' :
  represents (contents db) c → represents (perform_all (contents db) ws) c' →
  refines c (write_sync db ws) (Ok (), c').
Proof.
  intros Hr Hc. pose proof (write_sync_spec db ws c' Hc) as Hw.
  destruct (write_sync db ws) as [[[]|e] db']; cbn; [done|].
  left. destruct Hw as [? [Hw|Hw]]; split; auto. left. by rewrite Hw.
Qed.
Lemma refines_backend db c e im :
  represents (contents db) c → refines c (Err (Backend e), db) im.
Proof. intros Hr. left. split; [done|by left]. Qed.
Lemma refines_error db c e : represents (contents db) c → refines c (Err e, db) (Err e, c).
Proof. intros Hr. right. auto. Qed.

Lemma clear_refines db c :
  represents (contents db) c →
  refines c (clear_object_locations_and_mark_rebuild db)
    (Ok (), set_rebuild true (set_objects (λ _, ∅) c)).
Proof.
  intros Hr. unfold clear_object_locations_and_mark_rebuild. rewrite !cf_Ok, bind_Ok.
  apply refines_write; [done|]. by apply represents_clear.
Qed.

Lemma rocks_begin_spec db c :
  represents (contents db) c → refines c (rocks_begin db) (im_begin c).
Proof.
  intros Hr. unfold rocks_begin, im_begin.
  destruct (expect_rebuild_spec db c false ObjectLocationRebuildInProgress Hr) as [->|[e ->]];
    [|by apply refines_backend].
  destruct (im_rebuild c); [by apply refines_error|by apply clear_refines].
Qed.
Lemma rocks_restart_spec db c :
  represents (contents db) c → refines c (rocks_restart db) (im_restart c).
Proof.
  intros Hr. unfold rocks_restart, im_restart.
  destruct (expect_rebuild_spec db c true ObjectLocationRebuildNotInProgress Hr) as [->|[e ->]];
    [|by apply refines_backend].
  destruct (im_rebuild c) eqn:Hrb; [|by apply refines_error]. cbn [negb].
  replace (set_objects (λ _, ∅) c) with (set_rebuild true (set_objects (λ _, ∅) c))
    by (destruct c; cbn in *; by subst).
  by apply clear_refines.
Qed.
Lemma rocks_finish_spec db c :
  represents (contents db) c → refines c (rocks_finish db) (im_finish c).
Proof.
  intros Hr. unfold rocks_finish, im_finish.
  destruct (expect_rebuild_spec db c true ObjectLocationRebuildNotInProgress Hr) as [->|[e ->]];
    [|by apply refines_backend].
  destruct (im_rebuild c) eqn:Hrb; [|by apply refines_error]. cbn [negb]. rewrite bool_decide_eq_true_2 by done.
  rewrite bind_Ok, cf_Ok. apply refines_write; [done|]. by apply represents_finish.
Qed.

Lemma rocks_check_rebuilt_spec db c seen es :
  represents (contents db) c → Forall entry_wf es →
  rocks_check_rebuilt db seen es =
    check_rebuilt seen (λ id, bool_decide (is_Some (im_objects c !! id))) es ∨
  ∃ m, rocks_check_rebuilt db seen es = Err (Backend m).
Proof.
  intros Hr Hwf. revert seen. induction Hwf as [|e es He Hwf IH]; intros seen; [by left|].
  cbn [rocks_check_rebuilt check_rebuilt]. destruct (decide _) as [Hs|Hs].
  { left. by rewrite bool_decide_eq_true_2. }
  rewrite bool_decide_eq_false_2 by done.
  destruct (get_cf db CF_OBJECT_LOCATIONS _) as [v|m] eqn:E; cbn; [|right; eauto].
  apply get_stored in E as ->.
  rewrite (represents_lookup (contents db) c (KObject (oe_content_id e))); [|done|apply He|done].
  cbn. destruct (im_objects c !! oe_content_id e) as [l|]; cbn.
  - by left.
  - apply IH.
Qed.

Lemma apply_locations es c :
  try_fold apply_op (map (λ e, OpObjectLocation (oe_content_id e) (oe_location e)) es) c =
    Ok (set_objects (insert_entries es) c).
Proof.
  revert c. induction es as [|e es IH]; intros c; [by destruct c|].
  cbn [map try_fold]. destruct c. cbn [apply_op]. rewrite bind_Ok, IH. done.
Qed.

Lemma rocks_append_spec db c es :
  represents (contents db) c → Forall entry_wf es →
  refines c (rocks_append db es) (im_append c es).
Proof.
  intros Hr Hwf. unfold rocks_append, im_append.
  destruct (expect_rebuild_spec db c true ObjectLocationRebuildNotInProgress Hr) as [->|[e ->]];
    [|by apply refines_backend].
  destruct (im_rebuild c) eqn:Hrb; [|by apply refines_error]. cbn [negb]. rewrite bool_decide_eq_true_2 by done.
  rewrite bind_Ok, cf_Ok, bind_Ok.
  destruct (rocks_check_rebuilt_spec db c ∅ es Hr Hwf) as [->|[m ->]]; [|by apply refines_backend].
  destruct (check_rebuilt _ _ _) as [u|e]; [|by apply refines_error].
  apply refines_write; [done|].
  assert (map (λ e, WPut CF_OBJECT_LOCATIONS (encode_object_location_key (oe_content_id e))
      (encode_object_location_value (oe_location e))) es =
    map rocks_write (map (λ e, OpObjectLocation (oe_content_id e) (oe_location e)) es)) as ->
    by (by rewrite map_map).
  eapply represents_batch; [done| | |apply apply_locations].
  - apply Forall_fmap. eapply Forall_impl; [done|]. intros e [Hid Hl]. split; [done|].
    by intros v [= <-].
  - clear. by induction es.
Qed.

Lemma rocks_delete_repository_spec db c repo :
  represents (contents db) c → RepoId_wf repo →
  refines c (delete_repository db repo) (delete_repository c repo).
Proof.
  intros Hr Hrepo. unfold delete_repository. cbn [repository_snapshots apply
    RocksDbCatalog_Catalog InMemoryCatalog_Catalog].
  destruct (rocks_snapshots_agrees db c Hr) as [->|[e ->]]; [|by apply refines_backend].
  apply rocks_apply_spec; [done|]. rewrite delete_batch_eq. constructor.
  - split; [done|]. done.
  - apply Forall_fmap, Forall_forall. intros x [_ Hx]%list_elem_of_filter.
    apply elem_of_snapshot_list in Hx.
    destruct (rep_wf _ _ Hr (KSnapshot (rs_repository x) (rs_snapshot x))
      (VVisibility (rs_visibility x))) as [[_ Hs] _]; [cbn; by rewrite Hx|].
    split; [by split|done].
Qed.

End Engine.

(** ** Properties *)

(** C21. Every mutating call of the RocksDB catalog refines the in-memory
    catalog: on success the engine holds exactly the in-memory result; a
    rejected call is rejected for the same reason and changes nothing; an
    engine failure leaves the call either wholly done or wholly undone. *)
Theorem rocks_calls_refine {DB} `{EngineLaws DB} (db : DB) c :
  represents (contents db) c →
  (∀ b, Forall op_wf b → refines c (apply db b) (apply c b)) ∧
  (∀ repo, RepoId_wf repo → refines c (delete_repository db repo) (delete_repository c repo)) ∧
  refines c (begin_object_location_rebuild db) (begin_object_location_rebuild c) ∧
  refines c (restart_object_location_rebuild db) (restart_object_location_rebuild c) ∧
  (∀ es, Forall entry_wf es →
     refines c (append_rebuilt_object_locations db es) (append_rebuilt_object_locations c es)) ∧
  refines c (finish_object_location_rebuild db) (finish_object_location_rebuild c).
Proof.
  intros Hr. split_and!; cbn;
    auto using rocks_apply_spec, rocks_delete_repository_spec, rocks_begin_spec,
      rocks_restart_spec, rocks_append_spec, rocks_finish_spec.
Qed.

(** ** A concrete engine: a map that never fails *)

#[local] Instance map_engine : Engine Store := {
  cf_handle _ _ := true;
  get_cf m f k := Ok (m !! (f, k));
  write_opt m ws := (Ok (), perform_all m ws);
  iterator_cf m f := map Ok (family_entries m f);
}.
#[local] Program Instance map_engine_laws : EngineLaws Store := {| contents := id |}.
Next Obligation. done. Qed.
Next Obligation. by intros m f k v [= <-]. Qed.
Next Obligation. by intros m ws m' [= <-]. Qed.
Next Obligation. done. Qed.
Next Obligation. by left. Qed.

Lemma represents_empty : represents (contents (∅ : Store)) InMemoryCatalog_default.
Proof.
  change (represents (∅ : Store) InMemoryCatalog_default).
  by split; [intros []|intros kk b| intros []|..].
Qed.

Definition sample_batch : CatalogBatch :=
  [OpOidAlias sample_repo sample_alias_oid sample_content;
   OpRepositorySnapshot sample_repo sample_snapshot Ready].
Lemma sample_batch_wf : Forall op_wf sample_batch.
Proof.
  repeat constructor; cbn; try done; try (by intros v [= <-]).
Qed.

Lemma rocks_calls_refine_witness :
  refines (DB := Store) InMemoryCatalog_default (apply (∅ : Store) sample_batch)
    (apply InMemoryCatalog_default sample_batch).
Proof.
  apply (proj1 (rocks_calls_refine (∅ : Store) InMemoryCatalog_default represents_empty)).
  exact sample_batch_wf.
Defined.
Lemma rocks_reads_agree_witness :
  agrees (∅ : Store) (object_location (∅ : Store) sample_content)
    (object_location InMemoryCatalog_default sample_content).
Proof.
  apply (proj1 (rocks_reads_agree (∅ : Store) InMemoryCatalog_default represents_empty)).
  reflexivity.
Defined.
Lemma rocks_enumerations_agree_witness :
  enumerates (gc_roots (∅ : Store)) (gc_roots InMemoryCatalog_default).
Proof.
  apply (rocks_enumerations_agree (∅ : Store) InMemoryCatalog_default represents_empty).
Defined.

End RocksRefinement.
