(* ===== verification/RocksValidate.v ===== *)
(** * Validation of a RocksDB catalog

    [RocksDbCatalog::validate] accepts a database that can be read exactly when
    it follows the schema: every entry of every family decodes, and decoding is
    exact, so nothing foreign hides in an accepted database. *)

From Stdlib Require Import ZArith Lia Strings.Byte Strings.String.
From stdpp Require Import base tactics list sorting gmap strings.
From S2P Require Import Prelude Order Core Format CatalogCodec CatalogCodecSpec Catalog CatalogSpec RocksCatalog RocksSpec RocksReads RocksRefinement.
Import Core Format CatalogCodec CatalogCodecSpec Catalog CatalogSpec RocksCatalog RocksSpec RocksReads
  RocksRefinement.

#[local] Open Scope Z_scope.

Module RocksValidate.

(** ** Decoding a family into a map *)

Section Decode.
Context `{Countable K} {V : Type} (m : Store) (fam : CF)
  (wfk : K → Prop) (enck : K → bytes) (deck : bytes → result CatalogError K)
  (wfv : V → Prop) (encv : V → bytes) (decv : bytes → result CatalogError V).
Context (Hk : exact wfk enck deck) (Hv : exact wfv encv decv).

Definition decode_entry (kv : bytes * bytes) : option (K * V) :=
  match deck kv.1, decv kv.2 with Ok k, Ok v => Some (k, v) | _, _ => None end.
Definition decode_family : gmap K V := list_to_map (omap decode_entry (family_list m fam)).

Lemma decode_entry_Some kv a b :
  decode_entry kv = Some (a, b) ↔ wfk a ∧ wfv b ∧ kv = (enck a, encv b).
Proof.
  unfold decode_entry. destruct kv as [k v]. cbn. split.
  - destruct (deck k) as [a'|] eqn:Ek, (decv v) as [b'|] eqn:Ev; try done. intros [= <- <-].
    apply (proj2 Hk) in Ek as [? <-]. apply (proj2 Hv) in Ev as [? <-]. done.
  - intros (Ha & Hb & [= -> ->]). by rewrite (proj1 Hk), (proj1 Hv).
Qed.
Lemma decode_family_lookup a b :
  decode_family !! a = Some b ↔ wfk a ∧ wfv b ∧ m !! (fam, enck a) = Some (encv b).
Proof.
  unfold decode_family. rewrite <-elem_of_list_to_map.
  - rewrite list_elem_of_omap. split.
    + intros ([k v] & Hin & (Ha & Hb & [= -> ->])%decode_entry_Some).
      by apply elem_of_family_list in Hin.
    + intros (Ha & Hb & Hm). exists (enck a, encv b).
      split; [by apply elem_of_family_list|]. by apply decode_entry_Some.
  - pose proof (NoDup_family_keys m fam) as Hnd. revert Hnd.
    induction (family_list m fam) as [|[k v] l IH]; cbn; [constructor|].
    intros [Hnin Hnd]%NoDup_cons. destruct (decode_entry (k, v)) as [[a' b']|] eqn:E; [|by apply IH].
    cbn. apply NoDup_cons. split; [|by apply IH].
    apply decode_entry_Some in E as (_ & _ & [= -> ->]).
    intros ([a2 b2] & -> & Hin)%list_elem_of_fmap. apply Hnin.
    apply list_elem_of_omap in Hin as (kv & Hin & (_ & _ & ->)%decode_entry_Some).
    apply list_elem_of_fmap. by exists (enck a2, encv b2).
Qed.
End Decode.

(** ** The catalog an accepted database represents *)

Definition meta_of (m : Store) : gmap bytes bytes :=
  delete OBJECT_LOCATION_REBUILD_META_KEY (decode_family m CF_META decode_meta_key decode_opaque_value).
Definition catalog_of (m : Store) : InMemoryCatalog := {|
  im_objects := decode_family m CF_OBJECT_LOCATIONS decode_object_location_key
    decode_object_location_value;
  im_rebuild := bool_decide (is_Some (m !! marker_key));
  im_aliases := decode_family m CF_OID_ALIASES decode_oid_alias_key decode_content_id_value;
  im_repositories := decode_family m CF_REPOSITORIES decode_repository_key decode_opaque_value;
  im_snapshots := decode_family m CF_REPO_SNAPSHOTS decode_repository_snapshot_key
    decode_snapshot_visibility_value;
  im_chunks := decode_family m CF_CHUNKS decode_chunk_key decode_chunk_value;
  im_meta := meta_of m;
  im_workspaces := decode_family m CF_WORKSPACES decode_workspace_key decode_opaque_value;
  im_workspace_names := decode_family m CF_WORKSPACE_NAMES decode_workspace_name_key
    decode_workspace_id_value;
  im_workspace_pins := decode_family m CF_PINS decode_workspace_pin_key decode_workspace_pin_value;
  im_gc_pins := decode_family m CF_PINS decode_gc_pin_key decode_gc_pin_value;
  im_jobs := decode_family m CF_JOBS decode_job_key decode_opaque_value;
|}.

(** The decoded catalog holds a record exactly when the store holds its encoding. *)
Lemma stored_catalog_of m k v :
  stored (catalog_of m) k = Some v →
  key_wf k ∧ value_wf v ∧ m !! enc_key k = Some (enc_value v).
Proof.
  destruct k; cbn [stored catalog_of im_objects im_aliases im_repositories im_snapshots im_chunks
    im_meta im_workspaces im_workspace_names im_workspace_pins im_gc_pins im_jobs];
    intros (x & Hx & ->)%fmap_Some.
  - by apply (decode_family_lookup _ _ _ _ _ _ _ _ location_key_exact location_value_exact) in Hx.
  - by apply (decode_family_lookup _ _ _ _ _ _ _ _ alias_key_exact location_key_exact) in Hx.
  - apply (decode_family_lookup _ _ _ _ _ _ _ _ repository_key_exact opaque_key_exact) in Hx. tauto.
  - apply (decode_family_lookup _ _ _ _ _ _ _ _ snapshot_key_exact visibility_exact) in Hx. tauto.
  - by apply (decode_family_lookup _ _ _ _ _ _ _ _ chunk_key_exact chunk_value_exact) in Hx.
  - unfold meta_of in Hx. apply lookup_delete_Some in Hx as [_ Hx].
    apply (decode_family_lookup _ _ _ _ _ _ _ _ opaque_key_exact opaque_key_exact) in Hx. tauto.
  - apply (decode_family_lookup _ _ _ _ _ _ _ _ workspace_key_exact opaque_key_exact) in Hx. tauto.
  - by apply (decode_family_lookup _ _ _ _ _ _ _ _ opaque_key_exact workspace_key_exact) in Hx.
  - by apply (decode_family_lookup _ _ _ _ _ _ _ _ workspace_key_exact generation_exact) in Hx.
  - by apply (decode_family_lookup _ _ _ _ _ _ _ _ gc_pin_key_exact generation_exact) in Hx.
  - apply (decode_family_lookup _ _ _ _ _ _ _ _ opaque_key_exact opaque_key_exact) in Hx. tauto.
Qed.

(** What [validate] checks of one entry, by family. *)
Definition family_validator (f : CF) : bytes * bytes → result CatalogError unit :=
  match f with
  | CF_OBJECT_LOCATIONS => validate_pair decode_object_location_key decode_object_location_value
  | CF_OID_ALIASES => validate_pair decode_oid_alias_key decode_content_id_value
  | CF_REPOSITORIES => validate_pair decode_repository_key decode_opaque_value
  | CF_REPO_SNAPSHOTS =>
      validate_pair decode_repository_snapshot_key decode_snapshot_visibility_value
  | CF_REFS | CF_CACHE_OBJECTS => validate_pair decode_opaque_key decode_opaque_value
  | CF_CHUNKS => validate_pair decode_chunk_key decode_chunk_value
  | CF_WORKSPACES => validate_pair decode_workspace_key decode_opaque_value
  | CF_WORKSPACE_NAMES => validate_pair decode_workspace_name_key decode_workspace_id_value
  | CF_PINS => validate_pin
  | CF_JOBS => validate_pair decode_job_key decode_opaque_value
  | CF_META => validate_meta
  end.
Definition valid_store (m : Store) : Prop :=
  ∀ f k b, m !! (f, k) = Some b → family_validator f (k, b) = Ok ().

Lemma validate_pair_Ok {K V} (deck : bytes → result CatalogError K)
    (decv : bytes → result CatalogError V) kv u :
  validate_pair deck decv kv = Ok u → ∃ a b, deck kv.1 = Ok a ∧ decv kv.2 = Ok b.
Proof. unfold validate_pair. intros Hp. res_inv Hp. eauto. Qed.

(** An accepted entry of an ordinary family is a record of the decoded map. *)
Lemma valid_pair_lookup `{Countable K} {V} m fam k b (wfk : K → Prop) enck deck
    (wfv : V → Prop) encv decv u :
  exact wfk enck deck → exact wfv encv decv → m !! (fam, k) = Some b →
  validate_pair deck decv (k, b) = Ok u →
  ∃ x y, decode_family m fam deck decv !! x = Some y ∧ k = enck x ∧ b = encv y.
Proof.
  intros Hk Hv Hm (x & y & Ex & Ey)%validate_pair_Ok. cbn in Ex, Ey.
  apply (proj2 Hk) in Ex as [Hx <-]. apply (proj2 Hv) in Ey as [Hy <-].
  exists x, y. split; [|done]. by apply (decode_family_lookup _ _ _ _ _ _ _ _ Hk Hv).
Qed.

Lemma marker_decoded b st :
  decode_object_location_rebuild_marker b = Ok st → b = marker_value.
Proof.
  unfold decode_object_location_rebuild_marker. intros (r & Hr & Hd)%bind_Ok_inv.
  case_decide as Hm; [|done]. subst. by apply (proj2 opaque_key_exact) in Hr as [_ <-].
Qed.

Lemma valid_meta_lookup m k b :
  valid_store m → m !! (CF_META, k) = Some b → (CF_META, k) ≠ marker_key →
  ∃ x y, meta_of m !! x = Some y ∧ k = encode_meta_key x ∧ b = encode_opaque_value y.
Proof.
  intros Hvalid Hm Hne. pose proof (Hvalid _ _ _ Hm) as Hval. cbn in Hval. unfold validate_meta in Hval.
  cbn [fst snd] in Hval. apply bind_Ok_inv in Hval as (x & Hx & Hval).
  apply (proj2 opaque_key_exact) in Hx as [_ <-].
  assert (x ≠ OBJECT_LOCATION_REBUILD_META_KEY) as Hnx by (intros ->; done).
  assert (∃ y, decode_opaque_value b = Ok y) as [y Hy].
  { revert Hval. case_decide.
    - intros (g & Hr & _)%bind_Ok_inv. apply (proj2 generation_exact) in Hr as [_ <-].
      rewrite generation_layout. by eexists.
    - rewrite decide_False by done. intros (y & Hy & _)%bind_Ok_inv. eauto. }
  apply (proj2 opaque_key_exact) in Hy as [_ <-].
  exists x, y. split; [|done]. unfold meta_of. rewrite lookup_delete_ne by done.
  by apply (decode_family_lookup _ _ _ _ _ _ _ _ opaque_key_exact opaque_key_exact).
Qed.

Lemma valid_pin_lookup m k b :
  m !! (CF_PINS, k) = Some b → validate_pin (k, b) = Ok () →
  ∃ kk v, stored (catalog_of m) kk = Some v ∧ (CF_PINS, k) = enc_key kk ∧ b = enc_value v.
Proof.
  intros Hm Hp. unfold validate_pin in Hp. cbn [fst] in Hp. case_decide; [|case_decide; [|done]].
  - destruct (valid_pair_lookup m CF_PINS k b _ _ _ _ _ _ () workspace_key_exact generation_exact Hm Hp)
      as (x & y & Hxy & -> & ->).
    exists (KWorkspacePin x), (VGeneration y). cbn [stored catalog_of im_workspace_pins].
    unfold decode_workspace_pin_key, decode_workspace_pin_value. by setoid_rewrite Hxy.
  - destruct (valid_pair_lookup m CF_PINS k b _ _ _ _ _ _ () gc_pin_key_exact generation_exact Hm Hp)
      as (x & y & Hxy & -> & ->).
    exists (KGcPin x), (VGeneration y). cbn [stored catalog_of im_gc_pins].
    unfold decode_gc_pin_value, decode_workspace_pin_value. by setoid_rewrite Hxy.
Qed.

(** [use_pair fam ek ev c v]: the record behind an accepted entry of [fam]. *)
Ltac use_pair fam ek ev c v :=
  match goal with
  | Hm : ?m !! (fam, ?k) = Some ?b, Hv : validate_pair _ _ (?k, ?b) = Ok () |- _ =>
      let x := fresh "x" in let y := fresh "y" in let Hxy := fresh "Hxy" in
      destruct (valid_pair_lookup m fam k b _ _ _ _ _ _ () ek ev Hm Hv)
        as (x & y & Hxy & -> & ->);
      exists (c x), (v y);
      first [ split; [apply fmap_Some; exists y; split; [exact Hxy|done]|done]
            | destruct x; split; [apply fmap_Some; exists y; split; [exact Hxy|done]|done] ]
  end.

Lemma valid_only m kk b :
  valid_store m → m !! kk = Some b → catalog_family kk.1 → kk ≠ marker_key →
  ∃ k v, stored (catalog_of m) k = Some v ∧ kk = enc_key k ∧ b = enc_value v.
Proof.
  intros Hvalid Hm Hfam Hne. destruct kk as [f k]. pose proof (Hvalid _ _ _ Hm) as Hv.
  destruct Hfam as [Hf1 Hf2], f; cbn in Hv, Hf1, Hf2; try done.
  - use_pair CF_OBJECT_LOCATIONS location_key_exact location_value_exact KObject VLocation.
  - use_pair CF_OID_ALIASES alias_key_exact location_key_exact
      (λ p : RepoId * GitOid, KAlias p.1 p.2) VContent.
  - use_pair CF_REPOSITORIES repository_key_exact opaque_key_exact KRepository VOpaque.
  - use_pair CF_REPO_SNAPSHOTS snapshot_key_exact visibility_exact
      (λ p : RepoId * SnapshotId, KSnapshot p.1 p.2) VVisibility.
  - use_pair CF_CHUNKS chunk_key_exact chunk_value_exact (λ p : Z * Z, KChunk p.1 p.2) VChunk.
  - use_pair CF_WORKSPACES workspace_key_exact opaque_key_exact KWorkspace VOpaque.
  - use_pair CF_WORKSPACE_NAMES opaque_key_exact workspace_key_exact KWorkspaceName VWorkspace.
  - by apply valid_pin_lookup.
  - use_pair CF_JOBS opaque_key_exact opaque_key_exact KJob VOpaque.
  - destruct (valid_meta_lookup m k b Hvalid Hm Hne) as (x & y & Hxy & -> & ->).
    exists (KMeta x), (VOpaque y). split; [|done]. apply fmap_Some. by exists y.
Qed.

Lemma valid_represents m : valid_store m → represents m (catalog_of m).
Proof.
  intros Hvalid. split.
  - intros k v Hs. by apply stored_catalog_of in Hs as (_ & _ & ?).
  - intros kk b Hb Hf Hne. by apply valid_only.
  - intros k v Hs. by apply stored_catalog_of in Hs as (? & ? & _).
  - cbn. unfold meta_of. by rewrite lookup_delete_eq.
  - cbn. destruct (m !! marker_key) as [b|] eqn:Hb; [|done].
    pose proof (Hvalid _ _ _ Hb) as Hv.
    assert (validate_meta (marker_key.2, b) =
      (_ ← decode_object_location_rebuild_marker b; Ok ())) as Hvm by done.
    change (validate_meta (marker_key.2, b) = Ok ()) in Hv. rewrite Hvm in Hv.
    apply bind_Ok_inv in Hv as (st & Hst & _). by apply marker_decoded in Hst as ->.
Qed.

(** ** [validate] *)

Section Engine.
Context {DB} `{EngineLaws DB}.
Implicit Types (db : DB) (c : InMemoryCatalog).

Lemma elem_of_family_entries m f k b : (k, b) ∈ family_entries m f ↔ m !! (f, k) = Some b.
Proof. unfold family_entries. by rewrite sort_on_perm, elem_of_family_list. Qed.

Lemma try_fold_unit {E A} (v : A → result E unit) l s :
  try_fold (λ _ x, v x) l s = Ok () ↔ Forall (λ x, v x = Ok ()) l.
Proof.
  revert s. induction l as [|x l IH]; intros []; cbn; [by split|].
  destruct (v x) as [[]|e] eqn:E'; cbn.
  - rewrite IH. rewrite Forall_cons. tauto.
  - split; [done|]. intros Hf%Forall_cons. destruct Hf. congruence.
Qed.

Lemma validate_entries_Ok db f v :
  (validate_entries db f v = Ok () →
   ∀ k b, contents db !! (f, k) = Some b → v (k, b) = Ok ()) ∧
  ((∀ k b, contents db !! (f, k) = Some b → v (k, b) = Ok ()) →
   enumerates (validate_entries db f v) (Ok ())).
Proof.
  unfold validate_entries.
  destruct (iterate_cf_spec db f (λ _ kv, v kv) ()) as [->|[e ->]]; split; try done;
    [| |intros _; right; by exists e].
  - rewrite try_fold_unit, Forall_forall. intros Hall k b Hm. apply Hall.
    by apply elem_of_family_entries.
  - intros Hall. left. apply try_fold_unit, Forall_forall. intros [k b] Hin.
    by apply Hall, elem_of_family_entries.
Qed.

Lemma bind_unit_Ok {E} (r : result E unit) k (x : unit) :
  (r ≫= k) = Ok x → r = Ok () ∧ k () = Ok x.
Proof. destruct r as [[]|]; done. Qed.

Lemma validate_valid db : validate db = Ok () → valid_store (contents db).
Proof.
  unfold validate. intros Hv.
  repeat match type of Hv with (_ ≫= _) = _ => apply bind_unit_Ok in Hv as [? Hv] end.
  intros []; apply (proj1 (validate_entries_Ok db _ _)); assumption.
Qed.
Lemma enumerates_bind (r : result CatalogError unit) (k : unit → result CatalogError unit) :
  enumerates r (Ok ()) → enumerates (k ()) (Ok ()) → enumerates (r ≫= k) (Ok ()).
Proof. intros [->|[e ->]] Hk; [done|right; by exists e]. Qed.
Lemma valid_validates db : valid_store (contents db) → enumerates (validate db) (Ok ()).
Proof.
  intros Hv. unfold validate.
  repeat apply enumerates_bind; apply (proj2 (validate_entries_Ok db _ _)); apply Hv.
Qed.

(** The engine enumerates every family to its end. *)
Definition whole db : Prop := ∀ f, iterator_cf db f = map Ok (family_entries (contents db) f).
Lemma whole_validates db : whole db → valid_store (contents db) → validate db = Ok ().
Proof.
  intros Hw Hv. assert (∀ f v, (∀ k b, contents db !! (f, k) = Some b → v (k, b) = Ok ()) → validate_entries db f v = Ok ()) as He.
  { intros f v Hall. unfold validate_entries, iterate_cf, cf. rewrite cf_opened. cbn. rewrite Hw, iterate_Ok.
    apply try_fold_unit, Forall_forall. intros [k b] Hin. by apply Hall, elem_of_family_entries. }
  unfold validate. rewrite !He; [done|..]; apply Hv.
Qed.
End Engine.

(** ** A catalog's representation is accepted *)

(** The recorded current generation is a four-byte integer, as
    [put_current_generation] writes it. *)
Definition generation_ok (c : InMemoryCatalog) : Prop :=
  ∀ v, im_meta c !! CURRENT_GENERATION_META_KEY = Some v → length v = 4%nat.
(** The two families the catalog never writes hold versioned opaque entries. *)
Definition other_families_ok (m : Store) : Prop :=
  ∀ f k b, f = CF_REFS ∨ f = CF_CACHE_OBJECTS → m !! (f, k) = Some b →
    validate_pair decode_opaque_key decode_opaque_value (k, b) = Ok ().

Lemma validate_pair_enc {K V} (wfk : K → Prop) enck deck (wfv : V → Prop) encv decv a b :
  exact wfk enck deck → exact wfv encv decv → wfk a → wfv b →
  validate_pair deck decv (enck a, encv b) = Ok ().
Proof. intros [Hk _] [Hv _] Ha Hb. unfold validate_pair. cbn [fst snd]. by rewrite Hk, Hv. Qed.

Lemma validate_meta_enc k v :
  (k = CURRENT_GENERATION_META_KEY → length v = 4%nat) → k ≠ OBJECT_LOCATION_REBUILD_META_KEY →
  validate_meta (encode_meta_key k, encode_opaque_value v) = Ok ().
Proof.
  intros Hg Hk. unfold validate_meta. cbn [fst snd].
  unfold decode_meta_key, encode_meta_key. rewrite (proj1 opaque_key_exact k I), bind_Ok.
  case_decide as Hd; [|rewrite decide_False by done; by rewrite opaque_dec].
  specialize (Hg Hd).
  assert (encode_opaque_value v = encode_current_generation_value (be_decode v)) as ->.
  { rewrite generation_layout, be_encode_decode by done. done. }
  rewrite (proj1 generation_exact); [done|].
  pose proof (be_decode_range v) as Hw. by rewrite Hg in Hw.
Qed.

Lemma validate_record c k v :
  generation_ok c → key_wf k → value_wf v → stored c k = Some v →
  k ≠ KMeta OBJECT_LOCATION_REBUILD_META_KEY →
  family_validator (enc_key k).1 ((enc_key k).2, enc_value v) = Ok ().
Proof.
  intros Hg Hk Hv Hs Hm.
  destruct k; apply fmap_Some in Hs as (x & Hx & ->);
    cbn [enc_key fst snd family_validator enc_value key_wf value_wf] in *.
  - by eapply (validate_pair_enc _ _ _ _ _ _ id x location_key_exact location_value_exact).
  - by eapply (validate_pair_enc _ _ _ _ _ _ (repo, oid) x alias_key_exact location_key_exact).
  - by eapply (validate_pair_enc _ _ _ _ _ _ id x repository_key_exact opaque_key_exact).
  - by eapply (validate_pair_enc _ _ _ _ _ _ (repo, snapshot) x snapshot_key_exact visibility_exact).
  - by eapply (validate_pair_enc _ _ _ _ _ _ (generation, chunk_id) x chunk_key_exact chunk_value_exact).
  - apply validate_meta_enc; [|congruence]. intros ->. by apply Hg.
  - by eapply (validate_pair_enc _ _ _ _ _ _ id x workspace_key_exact opaque_key_exact).
  - by eapply (validate_pair_enc _ _ _ _ _ _ name x opaque_key_exact workspace_key_exact).
  - unfold validate_pin. cbn [fst]. unfold encode_workspace_pin_key.
    rewrite decide_True.
    + by eapply (validate_pair_enc _ _ _ _ _ _ id x workspace_key_exact generation_exact).
    + rewrite workspace_key_layout by done. unfold WorkspaceId_wf in Hk. solve_len.
  - unfold validate_pin. cbn [fst].
    assert (length (encode_gc_pin_key id) = 18%nat) as Hl.
    { rewrite gc_pin_key_layout by done. unfold GcPinId_wf in Hk. solve_len. }
    rewrite decide_False by lia. rewrite decide_True by done.
    by eapply (validate_pair_enc _ _ _ _ _ _ id x gc_pin_key_exact generation_exact).
  - by eapply (validate_pair_enc _ _ _ _ _ _ id x opaque_key_exact opaque_key_exact).
Qed.

Lemma represents_valid m c :
  represents m c → generation_ok c → other_families_ok m → valid_store m.
Proof.
  intros Hr Hg Ho f k b Hm.
  destruct (decide (f = CF_REFS)) as [->|H1]; [apply (Ho CF_REFS); auto|].
  destruct (decide (f = CF_CACHE_OBJECTS)) as [->|H2]; [apply (Ho CF_CACHE_OBJECTS); auto|].
  destruct (decide ((f, k) = marker_key)) as [Hk|Hk].
  - pose proof (rep_marker _ _ Hr) as Hmk. rewrite <-Hk, Hm in Hmk. injection Hk as -> ->.
    destruct (im_rebuild c); [|done]. by injection Hmk as ->.
  - destruct (rep_only _ _ Hr _ _ Hm) as (k' & v & Hs & He & ->); [done|done|].
    destruct (rep_wf _ _ Hr _ _ Hs) as [Hkw Hvw].
    rewrite (surjective_pairing (enc_key k')) in He. injection He as -> ->.
    apply (validate_record c); try done. intros ->. by rewrite (rep_reserved _ _ Hr) in Hs.
Qed.

Lemma catalog_of_generation m : valid_store m → generation_ok (catalog_of m).
Proof.
  intros Hvalid v Hv. cbn in Hv. unfold meta_of in Hv. apply lookup_delete_Some in Hv as [_ Hv].
  apply (decode_family_lookup _ _ _ _ _ _ _ _ opaque_key_exact opaque_key_exact) in Hv as (_ & _ & Hm).
  pose proof (Hvalid _ _ _ Hm) as Hval.
  assert (validate_meta (encode_meta_key CURRENT_GENERATION_META_KEY, encode_opaque_value v) =
    (_ ← decode_current_generation_value (encode_opaque_value v); Ok ())) as Hvm by done.
  change (validate_meta (encode_meta_key CURRENT_GENERATION_META_KEY, encode_opaque_value v) = Ok ())
    in Hval.
  rewrite Hvm in Hval. apply bind_Ok_inv in Hval as (g & [_ Hg]%(proj2 generation_exact) & _).
  apply (f_equal length) in Hg. rewrite generation_layout in Hg. cbn in Hg. by injection Hg.
Qed.

(** What the schema asks of a database: it represents a catalog, a recorded
    current generation has four bytes, and the entries of the two families the
    catalog does not use have the versioned opaque form. *)
Definition schema (m : Store) : Prop := ∃ c, represents m c ∧ generation_ok c ∧ other_families_ok m.
Lemma schema_valid m : schema m ↔ valid_store m.
Proof.
  split; [intros (c & Hr & Hg & Ho); by eapply represents_valid|]. intros Hv. exists (catalog_of m).
  split; [by apply valid_represents|]. split; [by apply catalog_of_generation|].
  intros f k b [-> | ->] Hm; by apply (Hv _ _ _ Hm).
Qed.

(** C29. Schema validation is exact. A database that validates follows the
    schema: it holds the encodings of some catalog and nothing else, a recorded
    current generation has four bytes, and the entries of the two families the
    catalog does not use are versioned opaque ones. A database that follows the
    schema validates, or validation reports a failure of the engine. When the
    engine enumerates every family to its end, a database validates exactly
    when it follows the schema. *)
Theorem validate_exact {DB} `{EngineLaws DB} (db : DB) :
  (validate db = Ok () → schema (contents db)) ∧
  (schema (contents db) → enumerates (validate db) (Ok ())) ∧
  (whole db → validate db = Ok () ↔ schema (contents db)).
Proof.
  rewrite schema_valid. split; [apply validate_valid|]. split; [apply valid_validates|].
  intros Hw. split; [apply validate_valid|by apply whole_validates].
Qed.

(** ** Runs *)

Definition sample_puts (generation : bytes) : list WriteOp :=
  [WPut CF_META (encode_meta_key CURRENT_GENERATION_META_KEY) (encode_opaque_value generation);
   WPut CF_OID_ALIASES (encode_oid_alias_key sample_repo sample_alias_oid) (encode_content_id_value sample_content);
   WPut CF_REPO_SNAPSHOTS (encode_repository_snapshot_key sample_repo sample_snapshot) (encode_snapshot_visibility_value Ready)].
Definition sample_db : Store := perform_all ∅ (sample_puts [x00; x00; x00; x07]).
(** The entries of a small catalog validate; with a current generation of three
    bytes they represent a catalog but do not follow the schema. *)
Lemma validate_exact_witness :
  @whole Store map_engine map_engine_laws sample_db ∧ schema sample_db ∧
  ¬ schema (perform_all ∅ (sample_puts [x00; x00; x07])).
Proof.
  assert (∀ m, @whole Store map_engine map_engine_laws m) as Hw by (intros m f; reflexivity).
  split; [apply Hw|]. split.
  - apply (proj1 (@validate_exact Store map_engine map_engine_laws sample_db)). vm_compute. reflexivity.
  - intros Hs. apply (proj2 (proj2 (@validate_exact Store map_engine map_engine_laws _)) (Hw _)) in Hs.
    revert Hs. vm_compute. discriminate.
Defined.

End RocksValidate.
