(* ===== verification/Chunk.v ===== *)
(** * Reading chunk files: [reflink-forest-store/src/lib.rs]

    Scanning, recovery, sealed-chunk verification and catalog-addressed reads,
    as functions of a chunk file's contents. A [read_exact] past the end of the
    file is the [UnexpectedEof] error of the source. *)

From Stdlib Require Import ZArith Lia Strings.Byte Strings.String.
From stdpp Require Import base tactics list gmap strings.
From S2P Require Import Prelude Crc Core Format Codec CatalogCodec.
Import Core Format Codec CatalogCodec.

#[local] Open Scope Z_scope.

Module Chunk.

Definition MAX_RECOVERY_RECORD_BYTES : Z := 64 * 1024 * 1024.
Definition STREAM_COPY_BUFFER_BYTES : Z := 64 * 1024.

(** A path, cut the way [Path::extension] cuts it. *)
Record Path := mkPath { p_dir : bytes; p_stem : bytes; p_ext : option string }.
#[export] Instance Path_eq_dec : EqDecision Path.
Proof. solve_decision. Defined.
#[export] Instance Path_countable : Countable Path.
Proof.
  refine (inj_countable' (λ p, (p_dir p, p_stem p, p_ext p)) (λ '(d, s, e), mkPath d s e) _).
  by intros [].
Defined.

Inductive StoreError :=
| StoreIo (e : IoErrorKind)
| StoreFormat (e : FormatError)
| StoreCodec (e : CodecError)
| NotAnOpenChunk
| NotASealedChunk
| ConflictingChunkPaths (p : Path)
| SealedFooterMissing
| SealedFooterMismatch (field : string)
| OpenChunkContainsSealedFooter
| CatalogChunkStateConflict (generation chunk_id : Z) (state : ChunkState)
| RotationTargetTooSmall
| InvalidLocationRebuildBatchSize
| DuplicateRebuildChunkIdentity (generation chunk_id : Z)
| PreservedAliasMissingContent (repository : RepoId) (oid : GitOid) (content_id : ContentId)
| PreservedAliasContentMismatch (repository : RepoId) (oid : GitOid) (content_id : ContentId)
| WriterGatePoisoned
| OffsetOverflow
| LocationMismatch (field : string)
| StoreCatalog (e : CatalogError).
#[export] Instance StoreError_eq_dec : EqDecision StoreError.
Proof. solve_decision. Defined.

(** [seek] to [off] and [read_exact] of [n] bytes. *)
Definition read_exact (file : bytes) (off n : Z) : result StoreError bytes :=
  if decide (off + n ≤ len file) then Ok (slice (Z.to_nat off) (Z.to_nat n) file)
  else Err (StoreIo UnexpectedEof).

Definition read_chunk_header (file : bytes) : result StoreError ChunkHeader :=
  b ← read_exact file 0 CHUNK_HEADER_LEN;
  map_err StoreFormat (ChunkHeader_decode b).

Record RecordScan := mkRecordScan { sc_records : Z; sc_end : Z; sc_checksum : Z }.
Record Recovery := mkRecovery {
  rc_header : ChunkHeader; rc_valid_records : Z; rc_retained_bytes : Z;
  rc_truncated_bytes : Z; rc_records_crc32c : Z }.
Record VerifiedSealedChunk := mkVerified { vs_header : ChunkHeader; vs_footer : SealedChunkFooter }.

Section Reading.
Context `{Digests} `{Zstd}.

(** ** Scanning *)

(** A visitor of complete records, folded over the scan. *)
Definition Visitor (S : Type) : Type := S → Z → ObjectRecord → Z → result StoreError S.

(** The loop variables of the scan. *)
Record ScanState (S : Type) := mkScan { ss_offset : Z; ss_records : Z; ss_checksum : Z; ss_user : S }.
Arguments mkScan {S}.
Arguments ss_offset {S}.
Arguments ss_records {S}.
Arguments ss_checksum {S}.
Arguments ss_user {S}.

(** In a strict scan a malformed record is an error; recovery stops there. *)
Definition stop_or {A} (strict : bool) (e : StoreError) : result StoreError (option A) :=
  if strict then Err e else Ok None.

(** One iteration of the [while] loop; [None] is [break]. *)
Definition scan_step {S} (file : bytes) (end_ : Z) (strict : bool) (visitor : Visitor S)
    (st : ScanState S) : result StoreError (option (ScanState S)) :=
  let offset := ss_offset st in
  remaining ← ok_or (checked_sub end_ offset) OffsetOverflow;
  if decide (remaining < RECORD_HEADER_LEN) then stop_or strict (StoreFormat Truncated)
  else
    record_header ← read_exact file offset RECORD_HEADER_LEN;
    match encoded_record_len_from_header record_header with
    | Err e => stop_or strict (StoreFormat e)
    | Ok encoded_len =>
        if decide (MAX_RECOVERY_RECORD_BYTES < encoded_len) then stop_or strict OffsetOverflow
        else
          encoded_len_u64 ← ok_or (u64_try_from encoded_len) OffsetOverflow;
          if decide (remaining < encoded_len_u64) then stop_or strict (StoreFormat Truncated)
          else
            encoded ← read_exact file offset encoded_len;
            match decode_record encoded with
            | Err e => stop_or strict (StoreFormat e)
            | Ok (record, consumed) =>
                if decide (consumed = encoded_len) then
                  _ ← (if strict then map_err StoreCodec (verify_object_record record) else Ok ());
                  user ← visitor (ss_user st) offset record encoded_len_u64;
                  offset' ← ok_or (checked_add offset encoded_len_u64) OffsetOverflow;
                  records' ← ok_or (checked_add (ss_records st) 1) OffsetOverflow;
                  Ok (Some (mkScan offset' records' (Crc.update (ss_checksum st) encoded) user))
                else stop_or strict (SealedFooterMismatch "record length")
            end
    end.

(** The loop. Every record is longer than a byte, so [end] iterations suffice. *)
Fixpoint scan_loop {S} (fuel : nat) (file : bytes) (end_ : Z) (strict : bool)
    (visitor : Visitor S) (st : ScanState S) : result StoreError (ScanState S) :=
  match fuel with
  | O => Err OffsetOverflow
  | Datatypes.S fuel =>
      if decide (ss_offset st < end_) then
        next ← scan_step file end_ strict visitor st;
        match next with
        | None => Ok st
        | Some st' => scan_loop fuel file end_ strict visitor st'
        end
      else Ok st
  end.

Definition scan_records_with_visitor {S} (file : bytes) (end_ : Z) (strict : bool)
    (visitor : Visitor S) (s : S) : result StoreError (RecordScan * S) :=
  if decide (end_ < CHUNK_HEADER_LEN) then Err (StoreFormat Truncated)
  else
    st ← scan_loop (Datatypes.S (Z.to_nat end_)) file end_ strict visitor
           (mkScan CHUNK_HEADER_LEN 0 Crc.new s);
    Ok (mkRecordScan (ss_records st) (ss_offset st) (ss_checksum st), ss_user st).

Definition scan_records (file : bytes) (end_ : Z) (strict : bool) : result StoreError RecordScan :=
  r ← scan_records_with_visitor file end_ strict (λ _ _ _ _, Ok ()) ();
  Ok r.1.

(** ** Recovery *)

(** [recover_file]: the report, and the file after [set_len]. *)
Definition recover_file (file : bytes) : result StoreError (Recovery * bytes) :=
  header ← read_chunk_header file;
  let original_len := len file in
  scan ← scan_records file original_len false;
  let file' := if decide (sc_end scan ≠ original_len)
               then take (Z.to_nat (sc_end scan)) file else file in
  Ok (mkRecovery header (sc_records scan) (sc_end scan) (original_len - sc_end scan)
        (sc_checksum scan), file').

(** ** Sealed chunks *)

Definition verify_sealed_file_with_visitor {S} (file : bytes) (visitor : Visitor S) (s : S)
    : result StoreError (VerifiedSealedChunk * S) :=
  header ← read_chunk_header file;
  let length := len file in
  minimum_length ← ok_or (checked_add CHUNK_HEADER_LEN SEALED_CHUNK_FOOTER_LEN) OffsetOverflow;
  _ ← ensure (bool_decide (minimum_length ≤ length)) SealedFooterMissing;
  footer_offset ← ok_or (checked_sub length SEALED_CHUNK_FOOTER_LEN) OffsetOverflow;
  footer_bytes ← read_exact file footer_offset SEALED_CHUNK_FOOTER_LEN;
  footer ← map_err StoreFormat (SealedChunkFooter_decode footer_bytes);
  _ ← ensure (bool_decide (sf_final_length footer = length)) (SealedFooterMismatch "final length");
  r ← scan_records_with_visitor file footer_offset true visitor s;
  let scan := r.1 in
  _ ← ensure (bool_decide (sc_end scan = footer_offset)) (SealedFooterMismatch "record boundary");
  _ ← ensure (bool_decide (sc_records scan = sf_record_count footer))
             (SealedFooterMismatch "record count");
  _ ← ensure (bool_decide (Crc.finalize (sc_checksum scan) = sf_records_crc32c footer))
             (SealedFooterMismatch "rolling record checksum");
  Ok (mkVerified header footer, r.2).

Definition verify_sealed_file (file : bytes) : result StoreError VerifiedSealedChunk :=
  r ← verify_sealed_file_with_visitor file (λ _ _ _ _, Ok ()) ();
  Ok r.1.

(** [recover_open_chunk] and [ChunkWriter::open_recovered] start alike. *)
Definition recover_open_file (file : bytes) : result StoreError (Recovery * bytes) :=
  if is_ok (verify_sealed_file file) then Err OpenChunkContainsSealedFooter
  else recover_file file.

(** ** Catalog-addressed reads *)

(** The checks both readers make before they touch the record. *)
Definition check_location_range (file : bytes) (l : ObjectLocation) : result StoreError unit :=
  _ ← ensure (bool_decide (CHUNK_HEADER_LEN ≤ ol_offset l)) (LocationMismatch "offset");
  record_end ← ok_or (checked_add (ol_offset l) (ol_record_length l)) OffsetOverflow;
  _ ← ensure (bool_decide (record_end ≤ len file)) (LocationMismatch "record_length");
  header ← read_chunk_header file;
  _ ← ensure (bool_decide (ch_generation header = ol_generation l)) (LocationMismatch "generation");
  ensure (bool_decide (ch_chunk_id header = ol_chunk_id l)) (LocationMismatch "chunk_id").

Definition read_record_at (file : bytes) (l : ObjectLocation) : result StoreError ObjectRecord :=
  _ ← check_location_range file l;
  record_header ← read_exact file (ol_offset l) RECORD_HEADER_LEN;
  encoded_length ← map_err StoreFormat (encoded_record_len_from_header record_header);
  _ ← ensure (bool_decide (encoded_length ≤ MAX_RECOVERY_RECORD_BYTES)) OffsetOverflow;
  catalog_length ← ok_or (usize_try_from (ol_record_length l)) (LocationMismatch "record_length");
  _ ← ensure (bool_decide (encoded_length = catalog_length)) (LocationMismatch "record_length");
  encoded ← read_exact file (ol_offset l) encoded_length;
  rc ← map_err StoreFormat (decode_record encoded);
  let record := rc.1 in
  _ ← ensure (bool_decide (rc.2 = encoded_length)) (LocationMismatch "record_length");
  stored ← ok_or (u64_try_from (len (or_payload record))) OffsetOverflow;
  _ ← ensure (bool_decide (stored = ol_stored_length l)) (LocationMismatch "stored_length");
  _ ← ensure (bool_decide (or_raw_length record = ol_raw_length l)) (LocationMismatch "raw_length");
  _ ← ensure (bool_decide (or_kind record = ol_kind l)) (LocationMismatch "kind");
  _ ← ensure (bool_decide (or_codec record = ol_codec l)) (LocationMismatch "codec");
  _ ← ensure (bool_decide (or_flags record = ol_flags l)) (LocationMismatch "flags");
  _ ← ensure (bool_decide (Crc.crc32c (or_payload record) = ol_payload_crc32c l))
             (LocationMismatch "payload_crc32c");
  _ ← map_err StoreCodec (verify_object_record record);
  Ok record.

Definition validate_stream_location (m : RecordMetadata) (l : ObjectLocation)
    : result StoreError unit :=
  _ ← ensure (bool_decide (rm_stored_length m = ol_stored_length l)) (LocationMismatch "stored_length");
  _ ← ensure (bool_decide (rm_raw_length m = ol_raw_length l)) (LocationMismatch "raw_length");
  _ ← ensure (bool_decide (rm_kind m = ol_kind l)) (LocationMismatch "kind");
  _ ← ensure (bool_decide (rm_codec m = ol_codec l)) (LocationMismatch "codec");
  ensure (bool_decide (rm_flags m = ol_flags l)) (LocationMismatch "flags").

(** Everything the streaming readers check before the first payload byte. *)
Definition stream_prefix (file : bytes) (l : ObjectLocation) : result StoreError RecordMetadata :=
  _ ← check_location_range file l;
  record_header ← read_exact file (ol_offset l) RECORD_HEADER_LEN;
  m ← map_err StoreFormat (decode_record_metadata record_header);
  _ ← validate_stream_location m l;
  expected ← map_err StoreFormat (encoded_record_len_from_metadata m);
  _ ← ensure (bool_decide (expected = ol_record_length l)) (LocationMismatch "record_length");
  Ok m.

(** Everything they check after the last payload byte. *)
Definition stream_suffix (file : bytes) (l : ObjectLocation) (m : RecordMetadata) (payload_crc : Z)
    : result StoreError unit :=
  let footer_offset := ol_offset l + RECORD_HEADER_LEN + rm_stored_length m in
  footer ← read_exact file footer_offset RECORD_FOOTER_LEN;
  unpadded ← ok_or (record_total (rm_stored_length m)) OffsetOverflow;
  _ ← map_err StoreFormat (validate_record_footer footer payload_crc unpadded);
  _ ← ensure (bool_decide (payload_crc = ol_payload_crc32c l)) (LocationMismatch "payload_crc32c");
  padding_length ← ok_or (checked_sub (ol_record_length l) unpadded) OffsetOverflow;
  padding_length ← ok_or (usize_try_from padding_length) OffsetOverflow;
  padding ← read_exact file (footer_offset + RECORD_FOOTER_LEN) padding_length;
  ensure (all_zero padding) (StoreFormat NonZeroPadding).

(** The copy loop of [stream_record_at]: at most one buffer per iteration. *)
Fixpoint stream_payload `{Write W} (fuel : nat) (file : bytes) (offset remaining : Z) (crc : Z) (w : W)
    : result StoreError Z * W :=
  if decide (remaining = 0) then (Ok crc, w)
  else match fuel with
  | O => (Err OffsetOverflow, w)
  | Datatypes.S fuel =>
      let n := Z.min remaining STREAM_COPY_BUFFER_BYTES in
      match read_exact file offset n with
      | Err e => (Err e, w)
      | Ok buffer =>
          match write_all w buffer with
          | (Err e, w') => (Err (StoreIo e), w')
          | (Ok _, w') => stream_payload fuel file (offset + n) (remaining - n) (Crc.update crc buffer) w'
          end
      end
  end.

Definition stream_record_at `{Write W} (file : bytes) (l : ObjectLocation) (w : W)
    : result StoreError RecordMetadata * W :=
  match stream_prefix file l with
  | Err e => (Err e, w)
  | Ok m =>
      match stream_payload (length file) file (ol_offset l + RECORD_HEADER_LEN)
              (rm_stored_length m) Crc.new w with
      | (Err e, w') => (Err e, w')
      | (Ok crc, w') =>
          (_ ← stream_suffix file l m (Crc.finalize crc); Ok m, w')
      end
  end.

(** [RecordPayloadReader]: the reads of the stored payload, bounded by the
    record; a file that ends early is end of file. Short reads of the file are
    full reads here, except at its end. *)
Definition payload_reader (file : bytes) (offset remaining : Z) : bytes :=
  slice (Z.to_nat offset) (Z.to_nat remaining) file.

Definition stream_decoded_record_at `{Write W} (file : bytes) (l : ObjectLocation) (w : W)
    : result StoreError RecordMetadata * W :=
  match stream_prefix file l with
  | Err e => (Err e, w)
  | Ok m =>
      let stored := payload_reader file (ol_offset l + RECORD_HEADER_LEN) (rm_stored_length m) in
      match decode_object_payload_to_writer (rm_kind m) (rm_codec m) (rm_raw_length m)
              (rm_content_id m) (Cursor_new stored) w with
      | (Err e, w') => (Err (StoreCodec e), w')
      | (Ok _, w') =>
          (_ ← ensure (bool_decide (len stored = rm_stored_length m))
                      (StoreCodec (CodecIo InvalidData));
           _ ← stream_suffix file l m (Crc.crc32c stored);
           Ok m, w')
      end
  end.

End Reading.
End Chunk.
