(* ===== verification/ChunkSpec.v ===== *)
(** * What scanning and recovery of a chunk file guarantee

    The records of a chunk are the maximal run of complete record encodings
    after its header. Scanning visits exactly those, recovery keeps exactly
    those bytes, and a sealed chunk verifies exactly when its contents are a
    header, record encodings and the matching footer. *)

From Stdlib Require Import ZArith Lia Strings.Byte Strings.String.
From stdpp Require Import base tactics list gmap strings.
From S2P Require Import Prelude Crc Core Format FormatSpec RecordSpec Codec CatalogCodec Chunk.
Import Core Format FormatSpec RecordSpec Codec CatalogCodec Chunk.

#[local] Open Scope Z_scope.

Module ChunkSpec.

(** ** Records in a file *)

(** The padded size of a record's encoding. *)
Definition size (r : ObjectRecord) : Z := record_size (len (or_payload r)).
(** A record that the encoder writes and the scanner accepts. *)
Definition scannable (r : ObjectRecord) : Prop :=
  record_wf r ∧ fits (len (or_payload r)) ∧ size r ≤ MAX_RECOVERY_RECORD_BYTES.
Definition records_layout (rs : list ObjectRecord) : bytes := concat (map record_layout rs).
Definition sizes (rs : list ObjectRecord) : Z := Z.of_nat (length (records_layout rs)).

Lemma size_bounds r : len (or_payload r) + 148 ≤ size r < len (or_payload r) + 156.
Proof. apply record_size_bounds. unfold len. lia. Qed.
Lemma size_pos r : 148 ≤ size r.
Proof. pose proof (size_bounds r). unfold len in *. lia. Qed.
Lemma len_layout r : record_wf r → len (record_layout r) = size r.
Proof. intros. by apply length_record_layout. Qed.
Lemma length_layout r : record_wf r → length (record_layout r) = Z.to_nat (size r).
Proof. intros Hw. pose proof (len_layout r Hw). unfold len in *. lia. Qed.
Lemma records_layout_cons r rs : records_layout (r :: rs) = record_layout r ++ records_layout rs.
Proof. done. Qed.
Lemma records_layout_app a b : records_layout (a ++ b) = records_layout a ++ records_layout b.
Proof. unfold records_layout. by rewrite map_app, concat_app. Qed.
Lemma sizes_cons r rs : record_wf r → sizes (r :: rs) = size r + sizes rs.
Proof.
  intros Hw. unfold sizes. rewrite records_layout_cons, length_app, Nat2Z.inj_add.
  rewrite <-(len_layout r Hw). done.
Qed.
Lemma sizes_app a b : sizes (a ++ b) = sizes a + sizes b.
Proof. unfold sizes. rewrite records_layout_app, length_app. lia. Qed.
Lemma sizes_nonneg rs : 0 ≤ sizes rs.
Proof. unfold sizes. lia. Qed.

(** A complete record occupies [file] from [o], within its first [e] bytes. *)
Definition record_at (file : bytes) (o e : Z) (r : ObjectRecord) : Prop :=
  scannable r ∧ o + size r ≤ e ∧ slice (Z.to_nat o) (Z.to_nat (size r)) file = record_layout r.

(** A run of records from [o]. *)
Fixpoint holds (file : bytes) (o e : Z) (rs : list ObjectRecord) : Prop :=
  match rs with
  | [] => True
  | r :: rs => record_at file o e r ∧ holds file (o + size r) e rs
  end.

Lemma read_exact_Ok file o n :
  o + n ≤ len file → read_exact file o n = Ok (slice (Z.to_nat o) (Z.to_nat n) file).
Proof. intros. unfold read_exact. by rewrite decide_True. Qed.
Lemma read_exact_inv file o n b :
  read_exact file o n = Ok b → o + n ≤ len file ∧ b = slice (Z.to_nat o) (Z.to_nat n) file.
Proof. unfold read_exact. case_decide; [|done]. by intros [= <-]. Qed.

Lemma slice_prefix {A} (l : list A) o n k :
  (k ≤ n)%nat → slice o k l = take k (slice o n l).
Proof. intros. unfold slice. rewrite take_take. f_equal. lia. Qed.

Lemma decode_metadata_take b :
  (128 ≤ length b)%nat → decode_record_metadata (take 128 b) = decode_record_metadata b.
Proof.
  intros Hb. unfold decode_record_metadata.
  rewrite bind_ensure_decide by (unfold len, RECORD_HEADER_LEN; rewrite length_take; lia).
  rewrite (bind_ensure_decide (RECORD_HEADER_LEN ≤ len b)) by (unfold len, RECORD_HEADER_LEN; lia).
  by rewrite take_take, Nat.min_id.
Qed.

(** The scanner's view of a complete record. *)
Section At.
Context (file : bytes) (o e : Z) (r : ObjectRecord).
Context (Hat : record_at file o e r) (Ho : 0 ≤ o) (He : e ≤ len file).

Lemma at_header :
  encoded_record_len_from_header (slice (Z.to_nat o) 128 file) = Ok (size r).
Proof.
  destruct Hat as ((Hw & Hf & _) & Hend & Hs). pose proof (size_pos r).
  rewrite (slice_prefix file (Z.to_nat o) (Z.to_nat (size r)) 128), Hs by lia.
  unfold encoded_record_len_from_header. rewrite decode_metadata_take.
  - pose proof (encoded_len_record r [] Hw Hf) as He'. by rewrite app_nil_r in He'.
  - rewrite length_layout by done. lia.
Qed.
Lemma at_decode :
  decode_record (slice (Z.to_nat o) (Z.to_nat (size r)) file) = Ok (r, size r).
Proof.
  destruct Hat as ((Hw & Hf & _) & Hend & ->).
  rewrite <-(app_nil_r (record_layout r)). by apply decode_record_layout.
Qed.
End At.

Lemma record_at_unique file o e r r' :
  record_at file o e r → record_at file o e r' → r = r'.
Proof.
  intros H H'. pose proof (at_header _ _ _ _ H) as Hh. rewrite (at_header _ _ _ _ H') in Hh.
  injection Hh as Hh. pose proof (at_decode _ _ _ _ H) as Hd.
  rewrite <-Hh, (at_decode _ _ _ _ H') in Hd. congruence.
Qed.

Section Scan.
Context `{Digests} `{Zstd}.

(** The scanner stops at [o]: every scan breaks or fails there. *)
Definition stuck (file : bytes) (o e : Z) (err : StoreError) : Prop :=
  ∀ S strict (visitor : Visitor S) st, ss_offset _ st = o →
    scan_step file e strict visitor st = stop_or strict err.

Lemma scan_step_at {S} file o e r strict (visitor : Visitor S) st :
  record_at file o e r → 0 ≤ o → e ≤ len file → e ≤ u64_max → ss_offset _ st = o →
  ss_records _ st + 1 ≤ u64_max →
  scan_step file e strict visitor st =
    (_ ← (if strict then map_err StoreCodec (verify_object_record r) else Ok ());
     user ← visitor (ss_user _ st) o r (size r);
     Ok (Some (mkScan _ (o + size r) (ss_records _ st + 1)
                 (Crc.update (ss_checksum _ st) (record_layout r)) user))).
Proof.
  intros Hat Ho He Hmax Hso Hrec. pose proof (size_pos r).
  pose proof Hat as ((Hw & Hf & Hm) & Hend & Hs). unfold scan_step. rewrite Hso.
  rewrite checked_sub_Some by lia. cbn [ok_or]. rewrite bind_Ok.
  rewrite decide_False by (unfold RECORD_HEADER_LEN; lia).
  rewrite read_exact_Ok by (unfold RECORD_HEADER_LEN; lia). rewrite bind_Ok.
  change (Z.to_nat RECORD_HEADER_LEN) with 128%nat. rewrite (at_header _ _ _ _ Hat).
  rewrite decide_False by lia. rewrite u64_try_from_Some by lia. cbn [ok_or]. rewrite bind_Ok.
  rewrite decide_False by lia. rewrite read_exact_Ok by lia. rewrite bind_Ok.
  rewrite (at_decode _ _ _ _ Hat), decide_True by done. rewrite Hs.
  rewrite !checked_add_Some by lia. cbn [ok_or].
  destruct (if strict then _ else _); [|done]. rewrite !bind_Ok.
  by destruct (visitor _ _ _ _).
Qed.

(** The stages of [scan_step]: up to the record header, the header, the bytes. *)
Ltac scan_prefix :=
  intros S strict v st ->; rewrite checked_sub_Some by lia; cbn [ok_or]; rewrite bind_Ok.
Ltac scan_header Hread Hn :=
  scan_prefix; rewrite decide_False by (unfold RECORD_HEADER_LEN; lia); rewrite Hread, bind_Ok, Hn.
Ltac scan_bytes Hread Hn Hread2 :=
  scan_header Hread Hn; rewrite decide_False by done;
  rewrite u64_try_from_Some by (unfold MAX_RECOVERY_RECORD_BYTES, u64_max in *; lia);
  cbn [ok_or]; rewrite bind_Ok, decide_False by done; rewrite Hread2, bind_Ok.

(** Every position before [e] holds a complete record or stops the scan. *)
Lemma record_at_or_stuck file o e :
  0 ≤ o < e → e ≤ len file → e ≤ u64_max →
  (∃ r, record_at file o e r) ∨ (∃ err, stuck file o e err).
Proof.
  intros Ho He Hmax. unfold stuck, scan_step.
  destruct (decide (e - o < 128)) as [Hs|Hs].
  { right. exists (StoreFormat Truncated). scan_prefix.
    by rewrite decide_True by (unfold RECORD_HEADER_LEN; lia). }
  assert (read_exact file o RECORD_HEADER_LEN = Ok (slice (Z.to_nat o) 128 file)) as Hread
    by (by rewrite read_exact_Ok by (unfold RECORD_HEADER_LEN; lia)).
  destruct (encoded_record_len_from_header (slice (Z.to_nat o) 128 file)) as [n|err] eqn:Hn.
  2: { right. exists (StoreFormat err). by scan_header Hread Hn. }
  destruct (decide (MAX_RECOVERY_RECORD_BYTES < n)) as [Hm|Hm].
  { right. exists OffsetOverflow. scan_header Hread Hn. by rewrite decide_True. }
  destruct (decide (e - o < n)) as [Ht|Ht].
  { right. exists (StoreFormat Truncated). scan_header Hread Hn.
    rewrite decide_False by done. rewrite u64_try_from_Some by (unfold MAX_RECOVERY_RECORD_BYTES, u64_max in *; lia).
    cbn [ok_or]. rewrite bind_Ok. by rewrite decide_True. }
  assert (read_exact file o n = Ok (slice (Z.to_nat o) (Z.to_nat n) file)) as Hread2
    by (rewrite read_exact_Ok by lia; done).
  destruct (decode_record (slice (Z.to_nat o) (Z.to_nat n) file)) as [[r c]|err] eqn:Hd.
  2: { right. exists (StoreFormat err). scan_bytes Hread Hn Hread2. by rewrite Hd. }
  destruct (decide (c = n)) as [->|Hc].
  2: { right. exists (SealedFooterMismatch "record length").
       scan_bytes Hread Hn Hread2. rewrite Hd. by rewrite decide_False. }
  left. exists r. apply decode_record_canonical in Hd as (Hw & Hf & Hsz & Hlen & Ht').
  split; [split_and!; [done|done|unfold size; lia]|].
  fold (size r) in Hsz. subst n. split; [lia|]. rewrite <-Ht', take_ge; [done|].
  unfold slice. rewrite length_take. lia.
Qed.

(** ** The scan loop *)

(** What a scan does with a run of records. *)
Fixpoint visit_all {S} (strict : bool) (visitor : Visitor S) (s : S) (o : Z)
    (rs : list ObjectRecord) : result StoreError S :=
  match rs with
  | [] => Ok s
  | r :: rs =>
      _ ← (if strict then map_err StoreCodec (verify_object_record r) else Ok ());
      s' ← visitor s o r (size r);
      visit_all strict visitor s' (o + size r) rs
  end.

Definition final_state {S} (st : ScanState S) (rs : list ObjectRecord) (s : S) : ScanState S :=
  mkScan _ (ss_offset _ st + sizes rs) (ss_records _ st + Z.of_nat (length rs))
    (Crc.update (ss_checksum _ st) (records_layout rs)) s.

Lemma holds_wf file o e rs : holds file o e rs → Forall (λ r, record_wf r) rs.
Proof.
  revert o. induction rs as [|r rs IH]; intros o; [constructor|].
  intros [((Hw & _) & _) Hrs]. constructor; [done|by eapply IH].
Qed.
Lemma holds_end file o e rs : o ≤ e → holds file o e rs → o + sizes rs ≤ e.
Proof.
  revert o. induction rs as [|r rs IH]; intros o Ho; [unfold sizes; cbn; lia|].
  intros [Hat Hrs]. pose proof Hat as ((Hw & _) & Hend & _).
  rewrite sizes_cons by done. specialize (IH (o + size r) Hend Hrs). lia.
Qed.
Lemma sizes_count file o e rs : holds file o e rs → Z.of_nat (length rs) ≤ sizes rs.
Proof.
  revert o. induction rs as [|r rs IH]; intros o; [unfold sizes; cbn; lia|].
  intros [((Hw & _) & _) Hrs]. rewrite sizes_cons by done. specialize (IH _ Hrs).
  pose proof (size_pos r). cbn [length]. lia.
Qed.

(** The scan of a maximal run: all of it is visited, and then the scan ends at
    [e] or is stuck before it. *)
Lemma scan_loop_spec {S} file e strict (visitor : Visitor S) rs err fuel st :
  let o := ss_offset _ st in
  holds file o e rs → 0 ≤ o ≤ e → e ≤ len file → e ≤ u64_max →
  0 ≤ ss_records _ st → ss_records _ st + Z.of_nat (length rs) ≤ u64_max →
  (length rs < fuel)%nat →
  (o + sizes rs = e ∨ o + sizes rs < e ∧ stuck file (o + sizes rs) e err) →
  scan_loop fuel file e strict visitor st =
    (s ← visit_all strict visitor (ss_user _ st) o rs;
     if decide (o + sizes rs = e) then Ok (final_state st rs s)
     else if strict then Err err else Ok (final_state st rs s)).
Proof.
  cbv zeta. revert fuel st. induction rs as [|r rs IH]; intros fuel st Hh Ho He Hmax Hr0 Hr1 Hf Hend.
  - destruct fuel as [|fuel]; [cbn in Hf; lia|]. cbn [scan_loop visit_all]. rewrite bind_Ok.
    assert (sizes [] = 0) as Hz by done. rewrite Hz in *.
    assert (final_state st [] (ss_user _ st) = st) as ->.
    { destruct st. unfold final_state. cbn. rewrite Crc.update_nil. f_equal; lia. }
    destruct Hend as [Hend|[Hlt Hst]].
    + rewrite decide_False by lia. by rewrite decide_True by lia.
    + rewrite decide_True by lia. rewrite decide_False by lia.
      rewrite Hst by lia. by destruct strict.
  - destruct fuel as [|fuel]; [cbn in Hf; lia|]. destruct Hh as [Hat Hrs].
    pose proof Hat as ((Hw & _) & Hle & _). pose proof (size_pos r).
    cbn [scan_loop visit_all]. cbn [length] in Hf, Hr1.
    rewrite decide_True by lia.
    rewrite (scan_step_at file (ss_offset _ st) e r) by (done || lia).
    destruct (if strict then _ else _) as [[]|e0]; [|done]. rewrite !bind_Ok.
    destruct (visitor _ _ _ _) as [s|e0]; [|done]. rewrite !bind_Ok.
    rewrite (sizes_cons r rs Hw) in *. rewrite Z.add_assoc in *.
    rewrite IH; cbn [ss_offset ss_records ss_checksum ss_user]; try done; try lia.
    assert (∀ s0, final_state (mkScan _ (ss_offset _ st + size r) (ss_records _ st + 1)
      (Crc.update (ss_checksum _ st) (record_layout r)) s) rs s0 = final_state st (r :: rs) s0) as Hfs.
    { intros s0. unfold final_state. cbn [ss_offset ss_records ss_checksum length].
      rewrite sizes_cons, records_layout_cons, Crc.update_app by done. f_equal; lia. }
    destruct (visit_all _ _ _ _ _); [|done]. rewrite !bind_Ok, Hfs. done.
Qed.

(** Every file has a maximal run from any position. *)
Lemma maximal_run file o e :
  0 ≤ o ≤ e → e ≤ len file → e ≤ u64_max →
  ∃ rs err, holds file o e rs ∧
    (o + sizes rs = e ∨ o + sizes rs < e ∧ stuck file (o + sizes rs) e err).
Proof.
  intros Ho He Hmax. remember (Z.to_nat (e - o)) as n eqn:Hn.
  revert o Ho Hn. induction n as [n IH] using lt_wf_ind. intros o Ho Hn.
  destruct (decide (o = e)) as [->|Hne].
  { exists [], OffsetOverflow. split; [done|left]. unfold sizes. cbn. lia. }
  destruct (record_at_or_stuck file o e) as [[r Hat]|[err Hst]]; try lia.
  - pose proof Hat as ((Hw & _) & Hle & _). pose proof (size_pos r).
    destruct (IH (Z.to_nat (e - (o + size r)))) with (o := o + size r) as (rs & err & Hh & Hend); try lia.
    exists (r :: rs), err. split; [done|]. rewrite sizes_cons, Z.add_assoc by done. done.
  - exists [], err. split; [done|right]. unfold sizes. cbn. rewrite Z.add_0_r. split; [lia|done].
Qed.

(** A maximal run of the first [e] bytes of a chunk. *)
Definition run_of (file : bytes) (e : Z) (rs : list ObjectRecord) (err : StoreError) : Prop :=
  holds file 64 e rs ∧ (64 + sizes rs = e ∨ 64 + sizes rs < e ∧ stuck file (64 + sizes rs) e err).
Definition scan_of (rs : list ObjectRecord) : RecordScan :=
  mkRecordScan (Z.of_nat (length rs)) (64 + sizes rs) (Crc.update Crc.new (records_layout rs)).

Lemma scan_run {S} file e strict (visitor : Visitor S) s rs err :
  64 ≤ e → e ≤ len file → e ≤ u64_max → run_of file e rs err →
  scan_records_with_visitor file e strict visitor s =
    (s' ← visit_all strict visitor s 64 rs;
     if decide (64 + sizes rs = e) then Ok (scan_of rs, s')
     else if strict then Err err else Ok (scan_of rs, s')).
Proof.
  intros H64 He Hmax [Hh Hend]. unfold scan_records_with_visitor.
  rewrite decide_False by (unfold CHUNK_HEADER_LEN; lia).
  pose proof (sizes_count _ _ _ _ Hh). pose proof (holds_end _ _ _ _ H64 Hh).
  rewrite (scan_loop_spec file e strict visitor rs err); cbn [ss_offset ss_records ss_checksum ss_user];
    try done; try (unfold CHUNK_HEADER_LEN; lia).
  change CHUNK_HEADER_LEN with 64. destruct (visit_all _ _ _ _ _) as [s'|]; [|done].
  rewrite !bind_Ok. case_decide; [done|]. by destruct strict.
Qed.

Lemma visit_trivial o rs : visit_all false (λ _ _ _ _, Ok ()) () o rs = Ok ().
Proof. revert o. induction rs as [|r rs IH]; intros o; [done|]. cbn. apply IH. Qed.

Lemma scan_recovery file e rs err :
  64 ≤ e → e ≤ len file → e ≤ u64_max → run_of file e rs err →
  scan_records file e false = Ok (scan_of rs).
Proof.
  intros H64 He Hmax Hrun. unfold scan_records.
  rewrite (scan_run file e false _ () rs err) by done. rewrite visit_trivial, bind_Ok.
  by case_decide.
Qed.

(** ** Runs as contents *)

Lemma slice_slice_app {A} (l : list A) o n m :
  slice o n l ++ slice (o + n) m l = slice o (n + m) l.
Proof. by rewrite slice_split. Qed.

Lemma holds_slice file o e rs :
  0 ≤ o → holds file o e rs →
  slice (Z.to_nat o) (Z.to_nat (sizes rs)) file = records_layout rs.
Proof.
  revert o. induction rs as [|r rs IH]; intros o Ho; [done|].
  intros [Hat Hrs]. pose proof Hat as ((Hw & _) & Hle & Hs). pose proof (size_pos r).
  pose proof (sizes_nonneg rs). rewrite sizes_cons, records_layout_cons by done.
  rewrite Z2Nat.inj_add, slice_split, Hs by lia. f_equal.
  rewrite <-(IH (o + size r)) by (done || lia). f_equal. lia.
Qed.
Lemma holds_of_slice file o e rs :
  0 ≤ o → Forall scannable rs → o + sizes rs ≤ e →
  slice (Z.to_nat o) (Z.to_nat (sizes rs)) file = records_layout rs → holds file o e rs.
Proof.
  intros Ho Hall. revert o Ho. induction Hall as [|r rs Hr Hall IH]; intros o Ho; [done|].
  pose proof (size_pos r). pose proof (sizes_nonneg rs). pose proof Hr as (Hw & _).
  rewrite sizes_cons, records_layout_cons by done. intros Hle Hs.
  rewrite Z2Nat.inj_add, slice_split in Hs by lia.
  apply app_inj_1 in Hs as [Hs1 Hs2].
  - split; [split; [done|split; [lia|done]]|]. apply IH; [lia|lia|].
    rewrite <-Hs2. f_equal. lia.
  - assert (length (slice (Z.to_nat o) (Z.to_nat (size r)) file) =
            length (record_layout r)) as ->; [|done].
    rewrite length_layout by done.
    apply (f_equal length) in Hs. rewrite !length_app, length_layout in Hs by done.
    revert Hs. unfold slice. rewrite !length_take, !length_drop. unfold sizes in *. lia.
Qed.
Lemma holds_scannable file o e rs : holds file o e rs → Forall scannable rs.
Proof.
  revert o. induction rs as [|r rs IH]; intros o; [constructor|].
  intros [[? _] Hrs]. constructor; [done|by eapply IH].
Qed.

(** Runs from the same position are comparable. *)
Lemma holds_prefix file o e rs rs' err :
  holds file o e rs → holds file o e rs' → 0 ≤ o ≤ e → e ≤ len file → e ≤ u64_max →
  (o + sizes rs' = e ∨ o + sizes rs' < e ∧ stuck file (o + sizes rs') e err) →
  ∃ more, rs' = rs ++ more.
Proof.
  revert o rs'. induction rs as [|r rs IH]; intros o rs' Hh Hh' Ho He Hmax Hend; [by exists rs'|].
  destruct Hh as [Hat Hrs]. pose proof Hat as ((Hw & _) & Hle & _). pose proof (size_pos r).
  destruct rs' as [|r' rs'].
  - exfalso. assert (sizes [] = 0) as Hz by done. rewrite Hz, Z.add_0_r in Hend.
    destruct Hend as [Hend|[_ Hst]]; [lia|].
    specialize (Hst unit false (λ _ _ _ _, Ok ()) (mkScan unit o 0 0 ()) eq_refl).
    rewrite (scan_step_at file o e r) in Hst; try done; cbn; unfold u64_max; lia.
  - destruct Hh' as [Hat' Hrs']. rewrite (record_at_unique _ _ _ _ _ Hat' Hat) in *.
    rewrite sizes_cons, Z.add_assoc in Hend by done.
    destruct (IH (o + size r) rs') as [more ->]; try done; try lia. by exists more.
Qed.

End Scan.
End ChunkSpec.
