(* ===== verification/RecoverySpec.v ===== *)
(** * Recovery of open chunks and verification of sealed chunks *)

From Stdlib Require Import ZArith Lia Strings.Byte Strings.String.
From stdpp Require Import base tactics list gmap strings.
From S2P Require Import Prelude Crc Core Format FormatSpec RecordSpec Codec CatalogCodec Chunk ChunkSpec.
Import Core Format FormatSpec RecordSpec Codec CatalogCodec Chunk ChunkSpec.

#[local] Open Scope Z_scope.

Module RecoverySpec.

(** An open chunk: header and complete records. *)
Definition open_layout (h : ChunkHeader) (rs : list ObjectRecord) : bytes :=
  ChunkHeader_encode h ++ records_layout rs.

(** The footer sealing writes after the records. *)
Definition seal_footer (rs : list ObjectRecord) : SealedChunkFooter :=
  mkSealedChunkFooter (Z.of_nat (length rs)) (128 + sizes rs) (Crc.crc32c (records_layout rs)).
Definition sealed_layout (h : ChunkHeader) (rs : list ObjectRecord) : bytes :=
  open_layout h rs ++ SealedChunkFooter_encode (seal_footer rs).

Lemma length_open_layout h rs : Z.of_nat (length (open_layout h rs)) = 64 + sizes rs.
Proof. unfold open_layout, sizes. rewrite length_app, length_ChunkHeader_encode. lia. Qed.
Lemma length_sealed_layout h rs : Z.of_nat (length (sealed_layout h rs)) = 128 + sizes rs.
Proof.
  unfold sealed_layout. rewrite length_app, length_SealedChunkFooter_encode, Nat2Z.inj_add.
  rewrite length_open_layout. lia.
Qed.

Lemma read_header_layout h rest :
  header_wf h → read_chunk_header (ChunkHeader_encode h ++ rest) = Ok h.
Proof.
  intros Hh. unfold read_chunk_header.
  rewrite read_exact_Ok
    by (unfold CHUNK_HEADER_LEN, len; rewrite length_app, length_ChunkHeader_encode; lia).
  change (Z.to_nat 0) with 0%nat. change (Z.to_nat CHUNK_HEADER_LEN) with 64%nat.
  rewrite slice_app_exact by apply length_ChunkHeader_encode. rewrite bind_Ok.
  rewrite <-(app_nil_r (ChunkHeader_encode h)). by rewrite ChunkHeader_decode_encode.
Qed.
Lemma read_header_inv file h :
  read_chunk_header file = Ok h →
  header_wf h ∧ 64 ≤ len file ∧ take 64 file = ChunkHeader_encode h.
Proof.
  unfold read_chunk_header. intros Hr. apply bind_Ok_inv in Hr as (b & Hb & Hd).
  apply read_exact_inv in Hb as [Hl ->]. apply map_err_Ok_inv in Hd.
  apply ChunkHeader_decode_canonical in Hd as (Hw & _ & Ht).
  split; [done|]. split; [unfold CHUNK_HEADER_LEN in Hl; lia|].
  rewrite <-Ht. unfold slice. change (Z.to_nat 0) with 0%nat. rewrite drop_0.
  change (Z.to_nat CHUNK_HEADER_LEN) with 64%nat. by rewrite take_take, Nat.min_id.
Qed.

(** Records after a header are a run from offset 64. *)
Lemma open_layout_holds h rs rest e :
  Forall scannable rs → 64 + sizes rs ≤ e → holds (open_layout h rs ++ rest) 64 e rs.
Proof.
  intros Hall He. apply holds_of_slice; [lia|done|done|].
  unfold open_layout. rewrite <-app_assoc. change (Z.to_nat 64) with 64%nat.
  rewrite slice_app_skip by (rewrite length_ChunkHeader_encode; lia).
  rewrite length_ChunkHeader_encode, Nat.sub_diag. apply slice_app_exact. unfold sizes. lia.
Qed.
Lemma holds_open_layout file h e rs :
  take 64 file = ChunkHeader_encode h → holds file 64 e rs →
  take (Z.to_nat (64 + sizes rs)) file = open_layout h rs.
Proof.
  intros Hh Hrs. pose proof (sizes_nonneg rs).
  rewrite Z2Nat.inj_add, take_slice, slice_split by lia. unfold open_layout. f_equal.
  - by rewrite <-take_slice.
  - change (0 + Z.to_nat 64)%nat with (Z.to_nat 64). by apply (holds_slice file 64 e rs).
Qed.

Section Recovery.
Context `{Digests} `{Zstd}.

(** What [recover_file] reports for a chunk whose complete records are [rs]. *)
Definition recovery_of (h : ChunkHeader) (rs : list ObjectRecord) (file : bytes) : Recovery :=
  mkRecovery h (Z.of_nat (length rs)) (64 + sizes rs) (len file - (64 + sizes rs))
    (Crc.update Crc.new (records_layout rs)).

Lemma recover_run file h rs err :
  read_chunk_header file = Ok h → len file ≤ u64_max → run_of file (len file) rs err →
  recover_file file = Ok (recovery_of h rs file, open_layout h rs).
Proof.
  intros Hh Hmax Hrun. pose proof (read_header_inv _ _ Hh) as (Hw & H64 & Ht).
  unfold recover_file. rewrite Hh, bind_Ok.
  rewrite (scan_recovery file (len file) rs err) by (done || lia). rewrite bind_Ok.
  destruct Hrun as [Hrs Hend]. unfold scan_of. cbn [sc_end sc_records sc_checksum].
  pose proof (holds_open_layout file h _ rs Ht Hrs) as Hlay.
  case_decide as Hd; [by rewrite Hlay|]. unfold recovery_of. do 2 f_equal.
  rewrite <-Hlay, take_ge; [done|]. unfold len in Hd. lia.
Qed.

Lemma run_exists file :
  64 ≤ len file → len file ≤ u64_max → ∃ rs err, run_of file (len file) rs err.
Proof. intros. apply maximal_run; lia. Qed.

(** The records a file starts with are among those recovery keeps. *)
Lemma run_extends h rs rest rs' err :
  let file := open_layout h rs ++ rest in
  Forall scannable rs → len file ≤ u64_max → run_of file (len file) rs' err →
  ∃ more, rs' = rs ++ more.
Proof.
  cbv zeta. intros Hall Hmax [Hh Hend].
  assert (64 + sizes rs ≤ len (open_layout h rs ++ rest)) as Hle.
  { unfold len. rewrite length_app, Nat2Z.inj_add, length_open_layout. lia. }
  pose proof (sizes_nonneg rs).
  eapply (holds_prefix _ 64 _ rs rs' err); try done; try lia. by apply open_layout_holds.
Qed.

(** Recovering a recovered chunk changes nothing. *)
Lemma recover_open_layout h rs :
  header_wf h → Forall scannable rs → 64 + sizes rs ≤ u64_max →
  recover_file (open_layout h rs) =
    Ok (mkRecovery h (Z.of_nat (length rs)) (64 + sizes rs) 0
          (Crc.update Crc.new (records_layout rs)), open_layout h rs).
Proof.
  intros Hw Hall Hmax. assert (len (open_layout h rs) = 64 + sizes rs) as Hlen
    by apply length_open_layout.
  rewrite (recover_run _ h rs OffsetOverflow).
  - unfold recovery_of. rewrite Hlen. by rewrite Z.sub_diag.
  - unfold open_layout. by apply read_header_layout.
  - lia.
  - split; [|left; lia]. rewrite <-(app_nil_r (open_layout h rs)). apply open_layout_holds; [done|].
    rewrite app_nil_r, Hlen. lia.
Qed.

(** C24. Recovery of an open chunk after a crash keeps the complete records of
    at most 64 MiB that the chunk starts with, whatever follows them: the
    recovered file is the header and those records, extended at most by complete
    records found in the tail; the report describes it; and recovering it again
    changes nothing. (A larger record ends the run: [oversized_record_lost].) *)
Theorem recovery_keeps_records h rs tail :
  let file := open_layout h rs ++ tail in
  header_wf h → Forall scannable rs → len file ≤ u64_max →
  ∃ more, recover_file file = Ok (recovery_of h (rs ++ more) file, open_layout h (rs ++ more)) ∧
    records_layout more `prefix_of` tail ∧
    recover_file (open_layout h (rs ++ more)) =
      Ok (recovery_of h (rs ++ more) (open_layout h (rs ++ more)), open_layout h (rs ++ more)).
Proof.
  cbv zeta. intros Hw Hall Hmax. set (file := open_layout h rs ++ tail) in *.
  assert (64 ≤ len file) as H64.
  { unfold file, len. rewrite length_app, Nat2Z.inj_add, length_open_layout.
    pose proof (sizes_nonneg rs). lia. }
  assert (read_chunk_header file = Ok h) as Hh.
  { unfold file, open_layout. rewrite <-app_assoc. by apply read_header_layout. }
  destruct (run_exists file H64 Hmax) as (rs' & err & Hrun).
  destruct (run_extends h rs tail rs' err Hall Hmax Hrun) as [more ->].
  exists more. split; [by apply (recover_run _ _ _ err)|]. destruct Hrun as [Hrs Hend].
  pose proof (read_header_inv _ _ Hh) as (_ & _ & Ht). split.
  - pose proof (holds_open_layout _ _ _ _ Ht Hrs) as Hp.
    assert (open_layout h (rs ++ more) `prefix_of` file) as [t Hp'].
    { rewrite <-Hp. apply prefix_take. }
    exists t. unfold file, open_layout in Hp'.
    rewrite records_layout_app, <-!app_assoc in Hp'. by apply app_inv_head, app_inv_head in Hp'.
  - rewrite recover_open_layout; [|done|by eapply holds_scannable|].
    + unfold recovery_of, len. rewrite length_open_layout. by rewrite Z.sub_diag.
    + pose proof (holds_end _ _ _ _ H64 Hrs). lia.
Qed.

(** No complete record starts where an incomplete one does. *)
Lemma torn_no_record file o r k r' :
  0 ≤ o → record_wf r → fits (len (or_payload r)) → (k < length (record_layout r))%nat →
  slice (Z.to_nat o) k file = take k (record_layout r) → ¬ record_at file o (o + Z.of_nat k) r'.
Proof.
  intros Ho Hw Hf Hk Hs Hat. pose proof Hat as (_ & Hle & _). pose proof (size_pos r').
  rewrite length_layout in Hk by done.
  pose proof (at_header _ _ _ _ Hat) as Hh.
  rewrite (slice_prefix file (Z.to_nat o) k 128), Hs, take_take in Hh by lia.
  replace (128 `min` k)%nat with 128%nat in Hh by lia.
  unfold encoded_record_len_from_header in Hh.
  rewrite decode_metadata_take in Hh by (rewrite length_layout by done; lia).
  fold (encoded_record_len_from_header (record_layout r)) in Hh.
  pose proof (encoded_len_record r [] Hw Hf) as He. rewrite app_nil_r, Hh in He.
  injection He as He. fold (size r) in He. lia.
Qed.

(** A record cut short by a crash is discarded: when an open chunk ends in
    a proper prefix of a record's encoding, recovery truncates exactly that
    prefix and keeps every record before it. *)
Theorem torn_record_truncated h rs r k :
  let file := open_layout h rs ++ take k (record_layout r) in
  header_wf h → Forall scannable rs → record_wf r → fits (len (or_payload r)) →
  (k < length (record_layout r))%nat → len file ≤ u64_max →
  recover_file file = Ok (recovery_of h rs file, open_layout h rs).
Proof.
  cbv zeta. intros Hw Hall Hrw Hf Hk Hmax. set (file := open_layout h rs ++ take k (record_layout r)) in *.
  assert (len file = 64 + sizes rs + Z.of_nat k) as Hlen.
  { unfold file, len. rewrite length_app, length_take, Nat2Z.inj_add, length_open_layout. lia. }
  pose proof (sizes_nonneg rs).
  assert (read_chunk_header file = Ok h) as Hh.
  { unfold file, open_layout. rewrite <-app_assoc. by apply read_header_layout. }
  destruct (run_exists file) as (rs' & err & Hrun); [lia|lia|].
  destruct (run_extends h rs _ rs' err Hall Hmax Hrun) as [more Hmore].
  assert (more = []) as ->; [|rewrite app_nil_r in Hmore; subst rs'; by apply (recover_run _ _ _ err)].
  destruct more as [|r' more]; [done|]. exfalso. destruct Hrun as [Hrs _]. subst rs'.
  assert (∀ o a b, holds file o (len file) (a ++ b) → holds file (o + sizes a) (len file) b) as Hsplit.
  { intros o a. revert o. induction a as [|x a IH]; intros o b Hab.
    - unfold sizes. cbn. by rewrite Z.add_0_r.
    - destruct Hab as [Hx Hab]. pose proof Hx as ((Hxw & _) & _).
      rewrite sizes_cons, Z.add_assoc by done. by apply IH. }
  apply Hsplit in Hrs as [Hat _]. rewrite Hlen in Hat.
  eapply (torn_no_record file (64 + sizes rs) r k r'); try done; try lia.
  unfold file. replace (Z.to_nat (64 + sizes rs)) with (length (open_layout h rs))
    by (pose proof (length_open_layout h rs); lia).
  rewrite slice_app_skip, Nat.sub_diag by lia. apply slice_exact. rewrite length_take. lia.
Qed.

(** ** Sealed chunks *)

Definition verified (r : ObjectRecord) : Prop := verify_object_record r = Ok ().

Lemma visit_strict o rs :
  visit_all true (λ _ _ _ _, Ok ()) () o rs = Ok () ↔ Forall verified rs.
Proof.
  revert o. induction rs as [|r rs IH]; intros o; [by split|]. cbn [visit_all].
  unfold verified. destruct (verify_object_record r) as [[]|e] eqn:E; cbn.
  - rewrite IH. rewrite Forall_cons. tauto.
  - split; [done|]. intros Hf%Forall_cons. destruct Hf. congruence.
Qed.
(** A strict visit of any kind has verified every record. *)
Lemma visit_verified {S} (v : Visitor S) s o rs s' :
  visit_all true v s o rs = Ok s' → Forall verified rs.
Proof.
  revert s o. induction rs as [|r rs IH]; intros s o Hv; [constructor|]. cbn [visit_all] in Hv.
  apply bind_Ok_inv in Hv as (u & Hr & Hv). apply bind_Ok_inv in Hv as (s1 & _ & Hv).
  constructor; [|by eapply IH]. apply map_err_Ok_inv in Hr. by destruct u.
Qed.

Lemma seal_footer_wf rs : 128 + sizes rs ≤ u64_max → Z.of_nat (length rs) ≤ sizes rs →
  footer_wf (seal_footer rs).
Proof.
  intros Hs Hc. pose proof (sizes_nonneg rs). unfold footer_wf, in_width, u64_max in *. cbn.
  split_and!; try lia; apply Crc.crc32c_range.
Qed.

Lemma take_app_file (a b : bytes) n : length a = n → take n (a ++ b) = a.
Proof. intros <-. apply take_app_length. Qed.

(** A sealed layout verifies. *)
Lemma verify_sealed_layout h rs :
  header_wf h → Forall scannable rs → Forall verified rs → 128 + sizes rs ≤ u64_max →
  verify_sealed_file (sealed_layout h rs) = Ok (mkVerified h (seal_footer rs)).
Proof.
  intros Hw Hall Hver Hmax. pose proof (sizes_nonneg rs).
  assert (len (sealed_layout h rs) = 128 + sizes rs) as Hlen by apply length_sealed_layout.
  assert (holds (sealed_layout h rs) 64 (64 + sizes rs) rs) as Hrs
    by (apply open_layout_holds; [done|lia]).
  pose proof (sizes_count _ _ _ _ Hrs) as Hcount.
  unfold verify_sealed_file, verify_sealed_file_with_visitor.
  assert (read_chunk_header (sealed_layout h rs) = Ok h) as ->.
  { unfold sealed_layout, open_layout. rewrite <-app_assoc. by apply read_header_layout. }
  rewrite bind_Ok, Hlen. rewrite checked_add_Some by (vm_compute; congruence). cbn [ok_or].
  rewrite bind_Ok, bind_ensure_decide by (unfold CHUNK_HEADER_LEN, SEALED_CHUNK_FOOTER_LEN; lia).
  rewrite checked_sub_Some by (unfold SEALED_CHUNK_FOOTER_LEN; lia). cbn [ok_or]. rewrite bind_Ok.
  rewrite read_exact_Ok by (unfold SEALED_CHUNK_FOOTER_LEN; lia). rewrite bind_Ok.
  replace (128 + sizes rs - SEALED_CHUNK_FOOTER_LEN) with (64 + sizes rs)
    by (unfold SEALED_CHUNK_FOOTER_LEN; lia).
  assert (slice (Z.to_nat (64 + sizes rs)) (Z.to_nat SEALED_CHUNK_FOOTER_LEN) (sealed_layout h rs) =
    SealedChunkFooter_encode (seal_footer rs)) as ->.
  { unfold sealed_layout.
    replace (Z.to_nat (64 + sizes rs)) with (length (open_layout h rs))
      by (pose proof (length_open_layout h rs); lia).
    rewrite slice_app_skip, Nat.sub_diag by lia. apply slice_exact.
    apply length_SealedChunkFooter_encode. }
  rewrite <-(app_nil_r (SealedChunkFooter_encode _)).
  rewrite SealedChunkFooter_decode_encode by (by apply seal_footer_wf). cbn [map_err].
  rewrite bind_Ok, bind_ensure_decide by done.
  rewrite (scan_run _ _ true _ () rs OffsetOverflow) by (done || lia || (split; [done|by left])).
  rewrite (proj2 (visit_strict 64 rs) Hver), bind_Ok, decide_True, bind_Ok by lia.
  cbn [fst snd scan_of sc_end sc_records sc_checksum].
  rewrite !bind_ensure_decide by done. done.
Qed.

Lemma verify_sealed_visitor_inv {S} file (visitor : Visitor S) s0 v s' :
  len file ≤ u64_max → verify_sealed_file_with_visitor file visitor s0 = Ok (v, s') →
  ∃ rs, header_wf (vs_header v) ∧ Forall scannable rs ∧ Forall verified rs ∧
    file = sealed_layout (vs_header v) rs ∧ vs_footer v = seal_footer rs ∧
    visit_all true visitor s0 64 rs = Ok s'.
Proof.
  intros Hmax Hv. unfold verify_sealed_file_with_visitor in Hv.
  apply bind_Ok_inv in Hv as (h & Hh & Hv). apply bind_Ok_inv in Hv as (m & Hm & Hv).
  apply bind_Ok_inv in Hv as (u1 & Hmin & Hv). apply bind_Ok_inv in Hv as (fo & Hfo & Hv).
  apply bind_Ok_inv in Hv as (fb & Hfb & Hv). apply bind_Ok_inv in Hv as (f & Hf & Hv).
  apply bind_Ok_inv in Hv as (u2 & Hfl & Hv). apply bind_Ok_inv in Hv as ([sc s1] & Hscan & Hv).
  apply bind_Ok_inv in Hv as (u3 & Hend & Hv). apply bind_Ok_inv in Hv as (u4 & Hcnt & Hv).
  apply bind_Ok_inv in Hv as (u5 & Hcrc & Hv). apply Ok_inj in Hv.
  assert (v = mkVerified h f) as -> by congruence. assert (s1 = s') as -> by (cbn in Hv; congruence). clear Hv.
  apply ok_or_Ok_inv, checked_add_inv in Hm as [-> _]. apply ok_or_Ok_inv, checked_sub_inv in Hfo as [-> Hle].
  apply ensure_Ok_inv, bool_decide_eq_true in Hmin, Hfl, Hend, Hcnt, Hcrc.
  cbn [fst snd] in Hend, Hcnt, Hcrc. unfold CHUNK_HEADER_LEN, SEALED_CHUNK_FOOTER_LEN in *.
  apply read_header_inv in Hh as (Hw & H64 & Ht). apply map_err_Ok_inv in Hf.
  apply SealedChunkFooter_decode_canonical in Hf as (Hfw & _ & Hft).
  apply read_exact_inv in Hfb as [_ ->].
  destruct (maximal_run file 64 (len file - 64)) as (rs & err & Hrs & Hmaxi); try lia.
  rewrite (scan_run _ _ true _ s0 rs err) in Hscan by (done || lia).
  apply bind_Ok_inv in Hscan as (s2 & Hvis & Hscan). pose proof (visit_verified _ _ _ _ _ Hvis) as Hver.
  case_decide as Hsz; [|done]. apply Ok_inj in Hscan.
  assert (scan_of rs = sc ∧ s2 = s') as [<- ->] by (split; congruence). clear Hscan.
  cbn [scan_of sc_end sc_records sc_checksum] in *.
  exists rs. cbn [vs_header vs_footer].
  assert (f = seal_footer rs) as ->.
  { destruct f. cbn in *. unfold seal_footer, Crc.crc32c. f_equal; try done; lia. }
  split_and!; try done; [by eapply holds_scannable|].
  unfold sealed_layout. rewrite <-(holds_open_layout file h _ rs Ht Hrs), <-Hft.
  rewrite Hsz. rewrite <-(take_drop (Z.to_nat (len file - 64)) file) at 1. f_equal.
  unfold slice. change (Z.to_nat 64) with 64%nat. rewrite take_take, Nat.min_id.
  symmetry. apply take_ge. rewrite length_drop. unfold len in *. lia.
Qed.
Lemma verify_sealed_inv file v :
  len file ≤ u64_max → verify_sealed_file file = Ok v →
  ∃ rs, header_wf (vs_header v) ∧ Forall scannable rs ∧ Forall verified rs ∧
    file = sealed_layout (vs_header v) rs ∧ vs_footer v = seal_footer rs.
Proof.
  intros Hmax Hv. unfold verify_sealed_file in Hv. apply bind_Ok_inv in Hv as ([v' u] & Hv & [= <-]).
  destruct (verify_sealed_visitor_inv _ _ _ _ _ Hmax Hv) as (rs & ? & ? & ? & ? & ? & _). by exists rs.
Qed.

(** C20. A chunk verifies as sealed exactly when it is a header, complete
    records of at most 64 MiB each that all carry the objects they name, and the
    footer sealing writes for them: count, total length and rolling checksum. So
    a sealed chunk with a larger record, which the writer can produce, does not
    verify. *)
Theorem sealed_verification_exact file h f :
  len file ≤ u64_max →
  verify_sealed_file file = Ok (mkVerified h f) ↔
    ∃ rs, header_wf h ∧ Forall scannable rs ∧ Forall verified rs ∧
      file = sealed_layout h rs ∧ f = seal_footer rs.
Proof.
  intros Hmax. split.
  - intros Hv. apply (verify_sealed_inv file (mkVerified h f) Hmax Hv).
  - intros (rs & Hw & Hall & Hver & -> & ->). apply verify_sealed_layout; try done.
    unfold len in Hmax. rewrite length_sealed_layout in Hmax. lia.
Qed.

(** A file with the shape of a sealed chunk is never recovered as an open one. *)
Lemma sealed_not_recovered h rs :
  header_wf h → Forall scannable rs → Forall verified rs → 128 + sizes rs ≤ u64_max →
  recover_open_file (sealed_layout h rs) = Err OpenChunkContainsSealedFooter.
Proof.
  intros. unfold recover_open_file. by rewrite verify_sealed_layout.
Qed.

(** C30. The recovery ceiling applies to acknowledged data: a complete,
    well-formed record longer than the ceiling at the end of the valid run is
    dropped by recovery together with everything after it. *)
Theorem oversized_record_lost h rs r rest :
  let file := open_layout h rs ++ record_layout r ++ rest in
  header_wf h → Forall scannable rs → record_wf r → fits (len (or_payload r)) →
  MAX_RECOVERY_RECORD_BYTES < size r → len file ≤ u64_max →
  recover_file file = Ok (recovery_of h rs file, open_layout h rs).
Proof.
  cbv zeta. intros Hw Hall Hrw Hf Hbig Hmax. set (file := open_layout h rs ++ record_layout r ++ rest) in *.
  pose proof (sizes_nonneg rs). pose proof (size_pos r).
  assert (64 + sizes rs + size r ≤ len file) as Hlen.
  { unfold file, len. rewrite !length_app, !Nat2Z.inj_add, length_open_layout.
    pose proof (len_layout r Hrw). unfold len in *. lia. }
  assert (read_chunk_header file = Ok h) as Hh.
  { unfold file, open_layout. rewrite <-app_assoc. by apply read_header_layout. }
  assert (encoded_record_len_from_header (slice (Z.to_nat (64 + sizes rs)) 128 file) = Ok (size r)) as Hn.
  { unfold file. replace (Z.to_nat (64 + sizes rs)) with (length (open_layout h rs))
      by (pose proof (length_open_layout h rs); lia).
    rewrite slice_app_skip, Nat.sub_diag, slice_app_l by (rewrite ?length_layout by done; lia).
    unfold slice. rewrite drop_0. unfold encoded_record_len_from_header.
    rewrite decode_metadata_take by (rewrite length_layout by done; lia).
    pose proof (encoded_len_record r [] Hrw Hf) as He. by rewrite app_nil_r in He. }
  apply (recover_run _ _ _ OffsetOverflow); [done|done|].
  split; [apply open_layout_holds; [done|lia]|]. right. split; [lia|].
  intros S strict v st Hst. unfold scan_step. rewrite Hst.
  rewrite checked_sub_Some by lia. cbn [ok_or]. rewrite bind_Ok.
  rewrite decide_False by (unfold RECORD_HEADER_LEN; lia).
  rewrite read_exact_Ok by (unfold RECORD_HEADER_LEN; lia). rewrite bind_Ok.
  change (Z.to_nat RECORD_HEADER_LEN) with 128%nat. rewrite Hn. by rewrite decide_True.
Qed.
End Recovery.

(** ** Witnesses *)

Definition sample_chunk : ChunkHeader := mkChunkHeader 1 2 3 0.
Lemma sample_chunk_wf : header_wf sample_chunk.
Proof. repeat split; vm_compute; congruence. Qed.
Lemma sample_scannable : Forall scannable [sample_record].
Proof.
  constructor; [|constructor].
  split_and!; [apply sample_record_wf|apply sample_record_fits|vm_compute; congruence].
Qed.

Lemma recovery_keeps_records_witness :
  ∃ more, @recover_file toy_digests toy_zstd (open_layout sample_chunk [sample_record] ++ [x01; x02]) =
    Ok (recovery_of sample_chunk ([sample_record] ++ more)
          (open_layout sample_chunk [sample_record] ++ [x01; x02]),
        open_layout sample_chunk ([sample_record] ++ more)).
Proof.
  destruct (@recovery_keeps_records toy_digests toy_zstd sample_chunk [sample_record] [x01; x02])
    as (more & Hm & _); [exact sample_chunk_wf|exact sample_scannable|vm_compute; congruence|].
  exists more. exact Hm.
Defined.

Lemma torn_record_truncated_witness :
  @recover_file toy_digests toy_zstd
    (open_layout sample_chunk [sample_record] ++ take 130 (record_layout sample_record)) =
  Ok (recovery_of sample_chunk [sample_record]
        (open_layout sample_chunk [sample_record] ++ take 130 (record_layout sample_record)),
      open_layout sample_chunk [sample_record]).
Proof.
  apply (@torn_record_truncated toy_digests toy_zstd sample_chunk [sample_record] sample_record 130);
    [exact sample_chunk_wf|exact sample_scannable|exact sample_record_wf|exact sample_record_fits| |];
    vm_compute; [lia|congruence].
Defined.

Lemma sealed_verification_exact_witness :
  @verify_sealed_file toy_digests toy_zstd (sealed_layout sample_chunk []) =
    Ok (mkVerified sample_chunk (seal_footer [])) ↔
  ∃ rs, header_wf sample_chunk ∧ Forall scannable rs ∧ Forall (@verified toy_digests toy_zstd) rs ∧
    sealed_layout sample_chunk [] = sealed_layout sample_chunk rs ∧ seal_footer [] = seal_footer rs.
Proof.
  apply (@sealed_verification_exact toy_digests toy_zstd (sealed_layout sample_chunk [])
    sample_chunk (seal_footer [])).
  vm_compute. congruence.
Defined.

(** A record just above the ceiling; its payload is never unfolded. *)
Definition big_record : ObjectRecord :=
  mkObjectRecord Blob Raw 0 MAX_RECOVERY_RECORD_BYTES (mkContentId (zeros 32))
    (mkGitOid Sha1 20 (zeros 32)) (zeros (Z.to_nat MAX_RECOVERY_RECORD_BYTES)).
Lemma big_record_len : len (or_payload big_record) = MAX_RECOVERY_RECORD_BYTES.
Proof.
  unfold len, big_record. cbn [or_payload]. rewrite length_zeros.
  apply Z2Nat.id. vm_compute. congruence.
Qed.
Lemma big_record_wf : record_wf big_record.
Proof.
  split; [|split; [|split]]; cbn [big_record or_flags or_raw_length or_content_id or_primary_oid].
  - by vm_compute.
  - by vm_compute.
  - done.
  - split; [|split]; done.
Qed.
Lemma big_record_fits : fits (len (or_payload big_record)).
Proof. rewrite big_record_len. split; vm_compute; congruence. Qed.
Lemma big_record_large : MAX_RECOVERY_RECORD_BYTES < size big_record.
Proof. pose proof (size_bounds big_record) as Hs. rewrite big_record_len in Hs. lia. Qed.
Lemma big_file_fits :
  len (open_layout sample_chunk [sample_record] ++ record_layout big_record ++ []) ≤ u64_max.
Proof.
  unfold len. rewrite !length_app, !Nat2Z.inj_add, length_open_layout.
  pose proof (len_layout big_record big_record_wf) as Hl. unfold len in Hl. rewrite Hl.
  pose proof (size_bounds big_record) as Hs. rewrite big_record_len in Hs.
  assert (sizes [sample_record] ≤ 1024) by (vm_compute; congruence).
  unfold MAX_RECOVERY_RECORD_BYTES, u64_max in *. cbn [length]. lia.
Qed.

Lemma oversized_record_lost_witness :
  @recover_file toy_digests toy_zstd
    (open_layout sample_chunk [sample_record] ++ record_layout big_record ++ []) =
  Ok (recovery_of sample_chunk [sample_record]
        (open_layout sample_chunk [sample_record] ++ record_layout big_record ++ []),
      open_layout sample_chunk [sample_record]).
Proof.
  exact (@oversized_record_lost toy_digests toy_zstd sample_chunk [sample_record] big_record []
    sample_chunk_wf sample_scannable big_record_wf big_record_fits big_record_large big_file_fits).
Defined.

End RecoverySpec.
