(* ===== verification/ReadSpec.v ===== *)
(** * Catalog-addressed reads

    A location read succeeds exactly when the addressed record is in the file,
    complete, and described by the location; the streaming readers deliver the
    same record and object without materialising them. Module [SinkSpec]
    relates decoding into different sinks. *)

From Stdlib Require Import ZArith Lia Strings.Byte Strings.String.
From stdpp Require Import base tactics list gmap strings.
From S2P Require Import Prelude Order Crc Core Format FormatSpec RecordSpec Codec CatalogCodec Chunk ChunkSpec RecoverySpec.
Import Core Format FormatSpec RecordSpec Codec CatalogCodec Chunk ChunkSpec RecoverySpec.

#[local] Open Scope Z_scope.

Module ReadSpec.

(** The location the writer publishes for [r] at [offset] of chunk [(g, c)]. *)
Definition location_of (g c offset : Z) (r : ObjectRecord) : ObjectLocation :=
  mkObjectLocation g c offset (size r) (len (or_payload r)) (or_raw_length r) (or_kind r)
    (or_codec r) (or_flags r) (Crc.crc32c (or_payload r)).

(** The record [r] is in [file] where [l] says, and [l] describes it. *)
Definition placed (file : bytes) (l : ObjectLocation) (r : ObjectRecord) : Prop :=
  ∃ h, header_wf h ∧ take 64 file = ChunkHeader_encode h ∧
    record_wf r ∧ fits (len (or_payload r)) ∧
    l = location_of (ch_generation h) (ch_chunk_id h) (ol_offset l) r ∧
    64 ≤ ol_offset l ∧ ol_offset l + size r ≤ len file ∧
    slice (Z.to_nat (ol_offset l)) (Z.to_nat (size r)) file = record_layout r.

Lemma location_fields l g c r :
  ol_generation l = g → ol_chunk_id l = c → ol_record_length l = size r →
  ol_stored_length l = len (or_payload r) → ol_raw_length l = or_raw_length r →
  ol_kind l = or_kind r → ol_codec l = or_codec r → ol_flags l = or_flags r →
  ol_payload_crc32c l = Crc.crc32c (or_payload r) → l = location_of g c (ol_offset l) r.
Proof. destruct l. cbn. unfold location_of. congruence. Qed.

Lemma check_range_Ok file l r :
  len file ≤ u64_max → placed file l r → check_location_range file l = Ok ().
Proof.
  intros Hmax (h & Hw & Ht & Hr & Hf & Hl & H64 & Hend & Hs). unfold check_location_range.
  assert (ol_record_length l = size r) as Hrl by (by rewrite Hl).
  pose proof (size_pos r).
  rewrite bind_ensure_decide by done. rewrite Hrl, checked_add_Some by lia. cbn [ok_or].
  rewrite bind_Ok, bind_ensure_decide by lia.
  assert (read_chunk_header file = Ok h) as ->.
  { rewrite <-(take_drop 64 file), Ht. by apply read_header_layout. }
  rewrite bind_Ok. rewrite bind_ensure_decide by (by rewrite Hl).
  unfold ensure. by rewrite bool_decide_eq_true_2 by (by rewrite Hl).
Qed.
Lemma check_range_inv file l u :
  check_location_range file l = Ok u →
  ∃ h, header_wf h ∧ take 64 file = ChunkHeader_encode h ∧ ol_generation l = ch_generation h ∧
    ol_chunk_id l = ch_chunk_id h ∧ 64 ≤ ol_offset l ∧ ol_offset l + ol_record_length l ≤ len file.
Proof.
  unfold check_location_range. intros Hc. res_inv Hc.
  apply bool_decide_eq_true in Hr, Hr1, Hr3, Hk. apply checked_add_inv in Hr0 as [-> _].
  apply read_header_inv in Hr2 as (Hw & _ & Ht).
  match goal with h : ChunkHeader |- _ => exists h end. split_and!; try done.
Qed.

(** ** The pieces of a record *)

Lemma layout_pieces file o r :
  record_wf r →
  slice o (Z.to_nat (size r)) file = record_layout r ↔
    let n := length (or_payload r) in
    slice o 128 file = meta_layout (metadata_of r) (meta_crc (metadata_of r)) ∧
    slice (o + 128) n file = or_payload r ∧
    slice (o + 128 + n) 20 file = record_footer (or_payload r) ∧
    slice (o + 128 + n + 20) (length (record_padding (or_payload r))) file =
      record_padding (or_payload r).
Proof.
  intros (_ & _ & Hc & Ho). cbv zeta. pose proof (size_bounds r) as Hsz.
  replace (Z.to_nat (size r)) with
    (128 + (length (or_payload r) + (20 + length (record_padding (or_payload r)))))%nat
    by (unfold record_padding, size, len in *; rewrite length_zeros; lia).
  rewrite !slice_split. unfold record_layout. split.
  - intros Heq. pose proof (f_equal length Heq) as Hlen.
    rewrite !length_app, length_meta_layout, length_record_footer in Hlen by done.
    assert (∀ a n, length (slice a n file) ≤ n)%nat as Hle
      by (intros; unfold slice; rewrite length_take; lia).
    pose proof (Hle o 128%nat). pose proof (Hle (o + 128)%nat (length (or_payload r))).
    pose proof (Hle (o + 128 + length (or_payload r))%nat 20%nat).
    pose proof (Hle (o + 128 + length (or_payload r) + 20)%nat
      (length (record_padding (or_payload r)))).
    apply app_inj_1 in Heq as [-> Heq]; [|rewrite length_meta_layout by done; lia].
    apply app_inj_1 in Heq as [-> Heq]; [|lia].
    apply app_inj_1 in Heq as [-> ->]; [done|]. rewrite length_record_footer. lia.
  - by intros (-> & -> & -> & ->).
Qed.

Lemma validate_footer_exact b p u :
  len b = 20 → len p + 148 ≤ u64_max →
  validate_record_footer b (Crc.crc32c p) (len p + 148) = Ok u ↔ b = record_footer p.
Proof.
  intros Hb Hp. assert (length b = 20%nat) as Hb' by (unfold len in Hb; lia).
  unfold validate_record_footer, RECORD_FOOTER_LEN. rewrite (take_ge b) by lia.
  rewrite bind_ensure_decide by lia. split.
  - intros Hv. res_inv Hv. apply bool_decide_eq_true in Hr, Hr0, Hr1.
    rewrite <-(slice_full b 20 Hb'). change 20%nat with (4 + (8 + 8))%nat.
    rewrite !slice_split. change (0 + 4)%nat with 4%nat. change (4 + 8)%nat with 12%nat.
    rewrite Hr1, (slice_of_read_be 4), (slice_of_read_be 8) by lia. by rewrite Hr, Hr0.
  - intros ->. unfold record_footer. destruct u.
    rewrite bind_ensure_decide.
    2: { apply read_be_of_slice; [apply Crc.crc32c_range|]. by apply slice_app_exact. }
    rewrite bind_ensure_decide.
    2: { apply read_be_of_slice.
         - unfold in_width, u64_max, len in *. lia.
         - rewrite slice_app_skip by (rewrite length_be_encode; lia). by apply slice_app_exact. }
    rewrite bind_ensure_decide; [done|].
    rewrite !slice_app_skip by (rewrite !length_be_encode; lia). by apply slice_exact.
Qed.

(** ** Whole-record reads *)

Section Reads.
Context `{Digests} `{Zstd}.

Lemma placed_header file l r :
  placed file l r → encoded_record_len_from_header (slice (Z.to_nat (ol_offset l)) 128 file) = Ok (size r).
Proof.
  intros (h & _ & _ & Hr & Hf & _ & H64 & _ & Hs). pose proof (size_pos r).
  rewrite (slice_prefix _ _ (Z.to_nat (size r))), Hs by lia.
  unfold encoded_record_len_from_header. rewrite decode_metadata_take by (rewrite length_layout by done; lia).
  pose proof (encoded_len_record r [] Hr Hf) as He. by rewrite app_nil_r in He.
Qed.

Lemma read_placed file l r :
  len file ≤ u64_max → placed file l r → size r ≤ MAX_RECOVERY_RECORD_BYTES → verified r →
  read_record_at file l = Ok r.
Proof.
  intros Hmax Hp Hm Hv. pose proof Hp as (h & Hw & Ht & Hr & Hf & Hl & H64 & Hend & Hs).
  pose proof (size_pos r). pose proof (size_bounds r). pose proof Hf as [Hf0 Hf1].
  unfold read_record_at.
  assert (ol_record_length l = size r) as Hrl by (by rewrite Hl).
  rewrite (check_range_Ok file l r Hmax Hp), bind_Ok.
  rewrite read_exact_Ok by (unfold RECORD_HEADER_LEN; lia). rewrite bind_Ok.
  change (Z.to_nat RECORD_HEADER_LEN) with 128%nat. rewrite (placed_header _ _ _ Hp).
  cbn [map_err]. rewrite bind_Ok, bind_ensure_decide by done. rewrite Hrl.
  rewrite usize_try_from_Some by (change usize_max with u64_max; lia). cbn [ok_or]. rewrite bind_Ok, bind_ensure_decide by done.
  rewrite read_exact_Ok, bind_Ok, Hs by lia.
  rewrite <-(app_nil_r (record_layout r)), decode_record_layout by done. cbn [map_err].
  rewrite bind_Ok. cbn [fst snd]. rewrite bind_ensure_decide by done.
  rewrite u64_try_from_Some by lia. cbn [ok_or]. rewrite bind_Ok, Hl.
  cbn [location_of ol_stored_length ol_raw_length ol_kind ol_codec ol_flags ol_payload_crc32c].
  rewrite !bind_ensure_decide by done. unfold verified in Hv. by rewrite Hv.
Qed.

Lemma read_inv file l r :
  read_record_at file l = Ok r →
  placed file l r ∧ size r ≤ MAX_RECOVERY_RECORD_BYTES ∧ verified r.
Proof.
  unfold read_record_at. intros Hc.
  apply bind_Ok_inv in Hc as (u1 & Hrange & Hc). apply bind_Ok_inv in Hc as (hd & Hhd & Hc).
  apply bind_Ok_inv in Hc as (n & Hn & Hc). apply bind_Ok_inv in Hc as (u2 & Hmax & Hc).
  apply bind_Ok_inv in Hc as (cl & Hcl & Hc). apply bind_Ok_inv in Hc as (u3 & Heq & Hc).
  apply bind_Ok_inv in Hc as (enc & Henc & Hc). apply bind_Ok_inv in Hc as ([r' c] & Hd & Hc).
  cbn [fst snd] in Hc. res_inv Hc.
  apply check_range_inv in Hrange as (h & Hw & Ht & Hg & Hci & H64 & Hend).
  apply ensure_Ok_inv, bool_decide_eq_true in Hmax, Heq.
  apply ok_or_Ok_inv in Hcl. unfold usize_try_from in Hcl. case_decide; [|done]. injection Hcl as Hcl.
  apply read_exact_inv in Henc as [Hle ->]. apply map_err_Ok_inv in Hd.
  apply decode_record_canonical in Hd as (Hrw & Hf & Hsz & Hlen & Htk). fold (size r') in Hsz.
  subst c. repeat match goal with Hb : bool_decide _ = true |- _ => apply bool_decide_eq_true in Hb end.
  subst r' n cl. destruct r8. unfold u64_try_from in Hr0. case_decide; [|done]. injection Hr0 as Hr0.
  split; [|by rewrite Hr]. exists h. split_and!; try done.
  - apply location_fields; congruence.
  - by rewrite Hr.
  - rewrite <-Htk, Hr. symmetry. apply take_ge. unfold slice. rewrite length_take. lia.
Qed.

(** C25. A read by location returns [r] exactly when [r] is in the file at
    that place, complete, described by every field of the location, within the
    allocation ceiling, and its payload decodes to the object it names. *)
Theorem read_record_at_exact file l r :
  len file ≤ u64_max →
  read_record_at file l = Ok r ↔
    placed file l r ∧ size r ≤ MAX_RECOVERY_RECORD_BYTES ∧ verified r.
Proof.
  intros Hmax. split; [apply read_inv|]. intros (Hp & Hs & Hv). by apply read_placed.
Qed.

(** ** Streamed reads *)

(** The checks before the payload, the payload, and the checks after it. *)
Lemma stream_placed file l r :
  len file ≤ u64_max → placed file l r →
  stream_prefix file l = Ok (metadata_of r) ∧
  slice (Z.to_nat (ol_offset l + RECORD_HEADER_LEN)) (length (or_payload r)) file = or_payload r ∧
  stream_suffix file l (metadata_of r) (Crc.crc32c (or_payload r)) = Ok ().
Proof.
  intros Hmax Hp. pose proof Hp as (h & Hw & Ht & Hr & Hf & Hl & H64 & Hend & Hs).
  pose proof Hf as [Hf0 Hf1]. pose proof (size_bounds r) as Hsz.
  apply layout_pieces in Hs as (Hm & Hpay & Hfoot & Hpad); [|done].
  assert (ol_record_length l = size r) as Hrl by (by rewrite Hl).
  unfold RECORD_HEADER_LEN. split_and!.
  - unfold stream_prefix. rewrite (check_range_Ok file l r Hmax Hp), bind_Ok.
    rewrite read_exact_Ok by (unfold RECORD_HEADER_LEN; lia). rewrite bind_Ok.
    change (Z.to_nat RECORD_HEADER_LEN) with 128%nat.
    rewrite Hm, <-(app_nil_r (meta_layout _ _)), decode_meta_layout by (apply Crc.crc32c_range || by apply metadata_of_wf).
    rewrite decide_True by done. cbn [map_err]. rewrite bind_Ok.
    assert (validate_stream_location (metadata_of r) l = Ok ()) as ->.
    { unfold validate_stream_location. rewrite Hl.
      rewrite !bind_ensure_decide by done. unfold ensure. by rewrite bool_decide_eq_true_2. }
    rewrite bind_Ok. unfold encoded_record_len_from_metadata.
    cbn [rm_stored_length metadata_of]. rewrite record_total_Some by done. cbn [ok_or]. rewrite bind_Ok.
    rewrite align_padded by lia. cbn [map_err]. rewrite bind_Ok. by rewrite bind_ensure_decide.
  - replace (Z.to_nat (ol_offset l + 128)) with (Z.to_nat (ol_offset l) + 128)%nat by lia. done.
  - unfold stream_suffix, RECORD_HEADER_LEN, RECORD_FOOTER_LEN. cbn [rm_stored_length metadata_of].
    rewrite read_exact_Ok by lia. rewrite bind_Ok.
    replace (Z.to_nat (ol_offset l + 128 + len (or_payload r)))
      with (Z.to_nat (ol_offset l) + 128 + length (or_payload r))%nat by (unfold len; lia).
    change (Z.to_nat 20) with 20%nat. rewrite Hfoot.
    rewrite record_total_Some by done. cbn [ok_or]. rewrite bind_Ok.
    rewrite (proj2 (validate_footer_exact (record_footer (or_payload r)) (or_payload r) () eq_refl
      ltac:(lia)))
      by done.
    cbn [map_err]. rewrite bind_Ok, bind_ensure_decide by (by rewrite Hl).
    rewrite Hrl, checked_sub_Some by lia. cbn [ok_or]. rewrite bind_Ok.
    rewrite usize_try_from_Some by (change usize_max with u64_max; lia). cbn [ok_or]. rewrite bind_Ok.
    rewrite read_exact_Ok, bind_Ok by lia.
    replace (Z.to_nat (ol_offset l + 128 + len (or_payload r) + 20))
      with (Z.to_nat (ol_offset l) + 128 + length (or_payload r) + 20)%nat by (unfold len; lia).
    replace (Z.to_nat (size r - (len (or_payload r) + 148)))
      with (length (record_padding (or_payload r)))
      by (unfold record_padding, size; rewrite length_zeros; done).
    rewrite Hpad. unfold record_padding. unfold ensure. by rewrite all_zero_zeros.
Qed.

(** What the checks before the payload establish. *)
Lemma stream_prefix_inv file l m :
  stream_prefix file l = Ok m →
  ∃ h, header_wf h ∧ take 64 file = ChunkHeader_encode h ∧ ol_generation l = ch_generation h ∧
    ol_chunk_id l = ch_chunk_id h ∧ 64 ≤ ol_offset l ∧ ol_offset l + ol_record_length l ≤ len file ∧
    metadata_wf m ∧ fits (rm_stored_length m) ∧
    slice (Z.to_nat (ol_offset l)) 128 file = meta_layout m (meta_crc m) ∧
    ol_record_length l = record_size (rm_stored_length m) ∧
    ol_stored_length l = rm_stored_length m ∧ ol_raw_length l = rm_raw_length m ∧
    ol_kind l = rm_kind m ∧ ol_codec l = rm_codec m ∧ ol_flags l = rm_flags m.
Proof.
  unfold stream_prefix. intros Hc. apply bind_Ok_inv in Hc as (u1 & Hrange & Hc).
  apply bind_Ok_inv in Hc as (hd & Hhd & Hc). apply bind_Ok_inv in Hc as (m' & Hm & Hc).
  apply bind_Ok_inv in Hc as (u2 & Hval & Hc). apply bind_Ok_inv in Hc as (n & Hn & Hc).
  apply bind_Ok_inv in Hc as (u3 & Heq & Hc). assert (m' = m) as -> by congruence.
  apply check_range_inv in Hrange as (h & Hw & Ht & Hg & Hci & H64 & Hend).
  apply read_exact_inv in Hhd as [_ ->]. apply map_err_Ok_inv in Hm.
  apply decode_record_metadata_canonical in Hm as (Hmw & _ & Hml).
  change (Z.to_nat RECORD_HEADER_LEN) with 128%nat in Hml.
  rewrite (take_ge (slice _ _ _)) in Hml by (unfold slice; rewrite length_take; lia).
  unfold validate_stream_location in Hval. res_inv Hval.
  apply ensure_Ok_inv in Heq.
  repeat match goal with Hb : bool_decide _ = true |- _ => apply bool_decide_eq_true in Hb end.
  apply map_err_Ok_inv in Hn. unfold encoded_record_len_from_metadata in Hn.
  apply bind_Ok_inv in Hn as (t & Ht' & Hn). apply ok_or_Ok_inv, record_total_inv in Ht' as [-> Ht'].
  pose proof Hmw as (_ & _ & [Hs0 _] & _).
  apply align_Ok_inv in Hn as [Hn1 Hn2]; [|lia].
  exists h. split_and!; try done; try (split; lia). unfold record_size. congruence.
Qed.

Lemma placed_of_stream file l m u :
  let p := slice (Z.to_nat (ol_offset l + RECORD_HEADER_LEN)) (Z.to_nat (rm_stored_length m)) file in
  stream_prefix file l = Ok m → stream_suffix file l m (Crc.crc32c p) = Ok u →
  ∃ r, placed file l r ∧ m = metadata_of r ∧ or_payload r = p.
Proof.
  cbv zeta. set (p := slice _ _ _). intros Hpre Hsuf.
  apply stream_prefix_inv in Hpre as (h & Hw & Ht & Hg & Hci & H64 & Hend & Hmw & Hf & Hml & Hrl &
    Hsl & Hraw & Hkind & Hcodec & Hflags).
  pose proof Hf as [Hf0 Hf1]. pose proof (record_size_bounds (rm_stored_length m) Hf0) as Hsz.
  assert (length p = Z.to_nat (rm_stored_length m)) as Hp'.
  { apply length_slice. unfold RECORD_HEADER_LEN, len in *. lia. }
  assert (len p = rm_stored_length m) as Hp by (unfold len; lia).
  set (r := mkObjectRecord (rm_kind m) (rm_codec m) (rm_flags m) (rm_raw_length m)
              (rm_content_id m) (rm_primary_oid m) p).
  assert (m = metadata_of r) as Hm by (destruct m; unfold metadata_of, r; cbn; by rewrite Hp).
  assert (record_wf r) as Hr by (by destruct Hmw as (? & ? & _ & ? & ?)).
  unfold stream_suffix, RECORD_HEADER_LEN, RECORD_FOOTER_LEN in *.
  apply bind_Ok_inv in Hsuf as (fb & Hfb & Hsuf). apply bind_Ok_inv in Hsuf as (t & Htot & Hsuf).
  apply bind_Ok_inv in Hsuf as (u1 & Hval & Hsuf). apply bind_Ok_inv in Hsuf as (u2 & Hcrc & Hsuf).
  apply bind_Ok_inv in Hsuf as (pl & Hpl & Hsuf). apply bind_Ok_inv in Hsuf as (pl' & Hpl' & Hsuf).
  apply bind_Ok_inv in Hsuf as (pad & Hpad & Hsuf).
  apply ok_or_Ok_inv, record_total_inv in Htot as [-> _].
  apply ok_or_Ok_inv, checked_sub_inv in Hpl as [-> _].
  apply ok_or_Ok_inv in Hpl'. unfold usize_try_from in Hpl'. case_decide; [|done]. injection Hpl' as <-.
  apply read_exact_inv in Hfb as [Hfb1 ->], Hpad as [Hpad1 ->]. apply map_err_Ok_inv in Hval.
  rewrite <-Hp in Hval.
  apply validate_footer_exact in Hval;
    [|unfold len in *; rewrite length_slice; [done|lia]|lia].
  apply ensure_Ok_inv, bool_decide_eq_true in Hcrc.
  apply ensure_Ok_inv, all_zero_spec in Hsuf.
  exists r. split; [|done]. exists h. split_and!; try done.
  - by rewrite <-Hp in Hf.
  - apply location_fields; try done; cbn [or_payload r]; try congruence.
    rewrite Hrl. unfold size. cbn [or_payload r]. by rewrite Hp.
  - unfold size. cbn [or_payload r]. rewrite Hp. lia.
  - apply layout_pieces; [done|]. cbv zeta. rewrite <-Hm. cbn [or_payload r].
    assert (length (record_padding p) = Z.to_nat (ol_record_length l - (rm_stored_length m + 148)))
      as Hpp by (unfold record_padding; by rewrite length_zeros, Hrl, Hp).
    split_and!; [done| | |].
    + unfold p at 2. rewrite Hp'. f_equal. lia.
    + rewrite <-Hval, Hp'. f_equal; lia.
    + rewrite Hpp, Hp'. unfold record_padding. rewrite Hp, <-Hrl.
      replace (Z.to_nat (ol_offset l) + 128 + Z.to_nat (rm_stored_length m) + 20)%nat with
        (Z.to_nat (ol_offset l + 128 + rm_stored_length m + 20)) by lia.
      rewrite Hsuf. f_equal. apply length_slice. unfold len in *. lia.
Qed.

(** The payload copy of [stream_record_at]: as many buffers as it takes. *)
Lemma stream_payload_vec fuel file o n crc (w : bytes) :
  0 ≤ o → 0 ≤ n → o + n ≤ len file → (Z.to_nat n ≤ fuel)%nat →
  stream_payload fuel file o n crc w =
    (Ok (Crc.update crc (slice (Z.to_nat o) (Z.to_nat n) file)),
     w ++ slice (Z.to_nat o) (Z.to_nat n) file).
Proof.
  revert o n crc w. induction fuel as [|fuel IH]; intros o n crc w Ho Hn Hle Hf.
  - assert (n = 0) as -> by lia. cbn. by rewrite Crc.update_nil, app_nil_r.
  - cbn [stream_payload]. case_decide as Hz.
    { subst n. cbn. by rewrite Crc.update_nil, app_nil_r. }
    assert (0 < STREAM_COPY_BUFFER_BYTES) as Hb by (by vm_compute).
    set (k := Z.min n STREAM_COPY_BUFFER_BYTES).
    assert (0 < k ≤ n) as Hk by lia.
    rewrite read_exact_Ok by lia. set (buf := slice (Z.to_nat o) (Z.to_nat k) file).
    assert (write_all w buf = (Ok (), w ++ buf)) as ->.
    { assert (length buf = Z.to_nat k) as Hl by (apply length_slice; unfold len in *; lia).
      unfold write_all. destruct buf as [|x buf]; [cbn in Hl; lia|].
      cbn [write_all_loop length]. unfold write, vec_write. cbn [length].
      rewrite drop_ge by (cbn; lia). by destruct (length buf). }
    rewrite IH by lia. unfold buf.
    replace (Z.to_nat n) with (Z.to_nat k + Z.to_nat (n - k))%nat by lia.
    rewrite slice_split, Crc.update_app, app_assoc.
    replace (Z.to_nat (o + k)) with (Z.to_nat o + Z.to_nat k)%nat by lia. done.
Qed.

(** Streaming the stored payload of a located record into a buffer
    succeeds exactly when a complete record is at that place and every field of
    the location describes it, and then delivers its metadata and its whole
    payload, whatever its size. *)
Theorem stream_record_at_exact file l m p :
  len file ≤ u64_max →
  stream_record_at file l ([] : bytes) = (Ok m, p) ↔
    ∃ r, placed file l r ∧ m = metadata_of r ∧ p = or_payload r.
Proof.
  intros Hmax. unfold stream_record_at.
  destruct (stream_prefix file l) as [m'|e] eqn:Hpre.
  2: { split; [done|]. intros (r & Hp & _). apply stream_placed in Hp as (Hpre' & _); congruence. }
  pose proof (stream_prefix_inv _ _ _ Hpre) as
    (h & _ & _ & _ & _ & H64 & Hend & _ & [Hf0 Hf1] & _ & Hrl & _).
  pose proof (record_size_bounds _ Hf0) as Hsz.
  rewrite stream_payload_vec by (unfold RECORD_HEADER_LEN, len in *; lia).
  rewrite app_nil_l. fold (Crc.crc32c (slice (Z.to_nat (ol_offset l + RECORD_HEADER_LEN))
    (Z.to_nat (rm_stored_length m')) file)).
  split.
  - intros Hs. assert (p = slice (Z.to_nat (ol_offset l + RECORD_HEADER_LEN))
      (Z.to_nat (rm_stored_length m')) file) as Hp by congruence.
    apply (f_equal fst) in Hs. cbn [fst] in Hs. apply bind_Ok_inv in Hs as (u & Hsuf & [= <-]).
    destruct (placed_of_stream _ _ _ _ Hpre Hsuf) as (r & Hpl & Hm & Hpay).
    exists r. rewrite Hp. done.
  - intros (r & Hpl & -> & ->). destruct (stream_placed _ _ _ Hmax Hpl) as (Hpre' & Hpay & Hsuf).
    assert (m' = metadata_of r) as -> by congruence. cbn [rm_stored_length metadata_of].
    replace (Z.to_nat (len (or_payload r))) with (length (or_payload r)) by (unfold len; lia).
    by rewrite Hpay, Hsuf.
Qed.

(** Streaming a located record through its codec into a buffer succeeds
    exactly when the record is placed there and decodes, and delivers the same
    object as decoding the whole record in memory. *)
Theorem stream_decoded_record_at_exact file l m raw :
  len file ≤ u64_max →
  stream_decoded_record_at file l ([] : bytes) = (Ok m, raw) ↔
    ∃ r, placed file l r ∧ m = metadata_of r ∧ decode_object_payload r = Ok raw.
Proof.
  intros Hmax. unfold stream_decoded_record_at, payload_reader, decode_object_payload. split.
  - destruct (stream_prefix file l) as [m'|e] eqn:Hpre; [|done].
    set (p := slice _ _ _). intros Hs.
    destruct (decode_object_payload_to_writer _ _ _ _ _ _) as [[[]|e] w'] eqn:Hd; [|done].
    assert (w' = raw) as -> by congruence. apply (f_equal fst) in Hs. cbn [fst] in Hs.
    apply bind_Ok_inv in Hs as (u1 & _ & Hs). apply bind_Ok_inv in Hs as (u2 & Hsuf & [= <-]).
    destruct (placed_of_stream _ _ _ _ Hpre Hsuf) as (r & Hpl & Hm & Hpay).
    exists r. split_and!; [done|done|]. fold p in Hpay.
    rewrite Hm in Hd. cbn [rm_kind rm_codec rm_raw_length rm_content_id metadata_of] in Hd.
    by rewrite Hpay, Hd.
  - intros (r & Hpl & -> & Hd). destruct (stream_placed _ _ _ Hmax Hpl) as (-> & Hpay & Hsuf).
    cbn [rm_stored_length rm_kind rm_codec rm_raw_length rm_content_id metadata_of].
    replace (Z.to_nat (len (or_payload r))) with (length (or_payload r)) by (unfold len; lia).
    rewrite Hpay.
    destruct (decode_object_payload_to_writer _ _ _ _ _ _) as [[[]|e] w']; [|done].
    injection Hd as ->. by rewrite bind_ensure_decide, Hsuf.
Qed.

(** What a decoded stream delivers, on success and on failure. *)
Lemma stream_decoded_output `{WriteLaws W} file l (w w' : W) res :
  0 ≤ ol_raw_length l → stream_decoded_record_at file l w = (res, w') →
  ∃ out, accepted w' = accepted w ++ out ∧ len out ≤ ol_raw_length l ∧
    ∀ m, res = Ok m → ∃ r, placed file l r ∧ m = metadata_of r ∧
      len out = or_raw_length r ∧ ContentId_for_object (or_kind r) out = or_content_id r.
Proof.
  intros Hraw. unfold stream_decoded_record_at, payload_reader.
  destruct (stream_prefix file l) as [m'|e] eqn:Hpre.
  2: { intros [= <- <-]. exists []. rewrite app_nil_r. done. }
  pose proof (stream_prefix_inv _ _ _ Hpre) as
    (h & _ & _ & _ & _ & _ & _ & _ & _ & _ & _ & _ & Hrl & _).
  set (p := slice _ _ _). rewrite Hrl in Hraw.
  destruct (decode_object_payload_to_writer _ _ _ _ _ _) as [d w1] eqn:Hd.
  destruct (decode_output _ _ _ _ _ _ _ _ Hraw Hd) as (out & Ha & Hle & Hok).
  intros Hs. assert (w' = w1) as -> by (destruct d; congruence).
  exists out. split; [done|]. split; [by rewrite Hrl|].
  intros m ->. destruct d as [[]|e]; [|done]. destruct Hok as [Hlen Hcid]; [done|].
  apply (f_equal fst) in Hs. cbn [fst] in Hs. apply bind_Ok_inv in Hs as (u1 & _ & Hs).
  apply bind_Ok_inv in Hs as (u2 & Hsuf & [= <-]).
  destruct (placed_of_stream _ _ _ _ Hpre Hsuf) as (r & Hpl & -> & Hpay). by exists r.
Qed.

(** Whatever sink a located record is decoded into, and whether or not
    the stream succeeds, the sink receives at most the raw length the location
    declares; when it succeeds the sink has received exactly an object of that
    length with the [ContentId] of the record placed there. *)
Theorem stream_decoded_bounded `{WriteLaws W} file l (w w' : W) res :
  0 ≤ ol_raw_length l → stream_decoded_record_at file l w = (res, w') →
  ∃ out, accepted w' = accepted w ++ out ∧ len out ≤ ol_raw_length l ∧
    ∀ m, res = Ok m → ∃ r, placed file l r ∧ m = metadata_of r ∧
      len out = or_raw_length r ∧ ContentId_for_object (or_kind r) out = or_content_id r.
Proof. apply stream_decoded_output. Qed.
End Reads.

(** ** Witnesses *)

Definition sample_file : bytes := open_layout sample_chunk [sample_zstd_record].
Definition sample_location : ObjectLocation := location_of 1 2 64 sample_zstd_record.
Lemma sample_file_fits : len sample_file ≤ u64_max.
Proof. vm_compute. congruence. Qed.

Lemma read_record_at_exact_witness :
  @read_record_at toy_digests toy_zstd sample_file sample_location = Ok sample_zstd_record ∧
  placed sample_file sample_location sample_zstd_record.
Proof.
  assert (@read_record_at toy_digests toy_zstd sample_file sample_location = Ok sample_zstd_record)
    as Hr by (vm_compute; reflexivity).
  split; [exact Hr|].
  apply (@read_record_at_exact toy_digests toy_zstd sample_file sample_location sample_zstd_record
    sample_file_fits). exact Hr.
Defined.

Lemma stream_record_at_exact_witness :
  ∃ r, placed sample_file sample_location r ∧ metadata_of sample_zstd_record = metadata_of r ∧
    be_encode 8 5 ++ sample_raw = or_payload r.
Proof.
  apply (@stream_record_at_exact sample_file sample_location
    (metadata_of sample_zstd_record) (be_encode 8 5 ++ sample_raw) sample_file_fits).
  vm_compute. reflexivity.
Defined.

Lemma stream_decoded_record_at_exact_witness :
  ∃ r, placed sample_file sample_location r ∧ metadata_of sample_zstd_record = metadata_of r ∧
    @decode_object_payload toy_digests toy_zstd r = Ok sample_raw.
Proof.
  apply (@stream_decoded_record_at_exact toy_digests toy_zstd sample_file sample_location
    (metadata_of sample_zstd_record) sample_raw sample_file_fits).
  vm_compute. reflexivity.
Defined.

Lemma stream_decoded_bounded_witness :
  ∃ out : bytes, accepted sample_raw = accepted ([] : bytes) ++ out ∧
    len out ≤ ol_raw_length sample_location ∧
    ∀ m, @Ok StoreError _ (metadata_of sample_zstd_record) = Ok m →
    ∃ r, placed sample_file sample_location r ∧ m = metadata_of r ∧ len out = or_raw_length r ∧
      @ContentId_for_object toy_digests (or_kind r) out = or_content_id r.
Proof.
  apply (@stream_decoded_bounded toy_digests toy_zstd bytes _ _ sample_file sample_location
    ([] : bytes) sample_raw (Ok (metadata_of sample_zstd_record))); [vm_compute; congruence|].
  vm_compute. reflexivity.
Defined.

End ReadSpec.

(** * Decoding into related sinks

    A relation between validating writers that every write keeps, and that
    relates writers in the same state only, relates what a decoder does with
    both: the same result, and sinks that are still related. *)

Import Core Format FormatSpec RecordSpec Codec CatalogCodec Chunk ChunkSpec ReadSpec.

Module SinkSpec.

(** Two validating writers in the same state. *)
Definition alike {W1 W2} (v1 : ValidatingObjectWriter W1) (v2 : ValidatingObjectWriter W2) : Prop :=
  vw_expected_length _ v1 = vw_expected_length _ v2 ∧ vw_written _ v1 = vw_written _ v2 ∧
  vw_hasher _ v1 = vw_hasher _ v2.

Section Simulation.
Context `{Digests} `{Zstd} `{Write W1} `{Write W2}.
Context (R : ValidatingObjectWriter W1 → ValidatingObjectWriter W2 → Prop).
Context (R_alike : ∀ v1 v2, R v1 v2 → alike v1 v2).
Context (R_write : ∀ v1 v2 b, R v1 v2 → (write v1 b).1 = (write v2 b).1 ∧ R (write v1 b).2 (write v2 b).2).

Definition agree {A} (r1 : result A unit * ValidatingObjectWriter W1)
    (r2 : result A unit * ValidatingObjectWriter W2) : Prop := r1.1 = r2.1 ∧ R r1.2 r2.2.

Lemma write_all_related fuel v1 v2 b : R v1 v2 → agree (write_all_loop fuel v1 b) (write_all_loop fuel v2 b).
Proof using R_write.
  revert v1 v2 b. induction fuel as [|fuel IH]; intros v1 v2 [|x b] Ha; try done. cbn [write_all_loop].
  destruct (R_write v1 v2 (x :: b) Ha) as [Hr Hv].
  destruct (write v1 (x :: b)) as [[[|n]|e] w1], (write v2 (x :: b)) as [r2 w2]; cbn in Hr, Hv; subst; try done.
  by apply IH.
Qed.
Lemma copy_related src v1 v2 : R v1 v2 → agree (copy_decoded src v1) (copy_decoded src v2).
Proof using R_write.
  unfold copy_decoded. generalize (rd_chunks src). intros chunks. revert v1 v2.
  induction chunks as [|[|x c] chunks IH]; intros v1 v2 Ha; try done. cbn [copy_decoded_loop].
  destruct (write_all_related (length (x :: c)) v1 v2 (x :: c) Ha) as [Hr Hv]. unfold write_all.
  destruct (write_all_loop _ v1 _) as [[u|e] w1], (write_all_loop _ v2 _) as [r2 w2]; cbn in Hr, Hv; subst; try done.
  by apply IH.
Qed.
Lemma decode_related kind codec L cid src (w1 : W1) (w2 : W2) :
  R (Validating_new w1 kind L) (Validating_new w2 kind L) →
  ∃ r v1 v2, R v1 v2 ∧
    decode_object_payload_to_writer kind codec L cid src w1 = (r, vw_writer _ v1) ∧
    decode_object_payload_to_writer kind codec L cid src w2 = (r, vw_writer _ v2).
Proof using R_alike R_write.
  intros Hnew. unfold decode_object_payload_to_writer.
  assert (∀ s, agree (copy_decoded s (Validating_new w1 kind L)) (copy_decoded s (Validating_new w2 kind L))) as Hc
    by (intros s; by apply copy_related).
  assert (∀ v1 v2 (r : result CodecError unit), R v1 v2 → ∃ r' u1 u2, R u1 u2 ∧
    match r with Err e => (Err e, vw_writer _ v1) | Ok _ => (Validating_finish v1 cid, vw_writer _ v1) end = (r', vw_writer _ u1) ∧
    match r with Err e => (Err e, vw_writer _ v2) | Ok _ => (Validating_finish v2 cid, vw_writer _ v2) end = (r', vw_writer _ u2))
    as Hf.
  { intros v1 v2 r Hv. destruct (R_alike _ _ Hv) as (He & Hw & Hh).
    assert (Validating_finish v1 cid = Validating_finish v2 cid) as Hfin
      by (unfold Validating_finish; by rewrite He, Hw, Hh).
    destruct r as [u|e]; rewrite ?Hfin; by do 3 eexists. }
  destruct codec.
  - destruct (Hc src) as [Hr Hv]. destruct (copy_decoded src _) as [r1 v1], (copy_decoded src _) as [r2 v2].
    cbn in Hr, Hv. subst r2. by apply Hf.
  - destruct (zstd_decode _ _) as [dec used]. destruct (Hc dec) as [Hr Hv].
    destruct (copy_decoded dec _) as [r1 v1], (copy_decoded dec _) as [r2 v2]. cbn in Hr, Hv. subst r2.
    destruct r1 as [u|e]; [by apply (Hf v1 v2)|]. by do 3 eexists.
Qed.

(** Reading a located record through its codec. *)
Lemma stream_related file l (w1 : W1) (w2 : W2) :
  (∀ kind L, is_u64 L → R (Validating_new w1 kind L) (Validating_new w2 kind L)) →
  ∃ r v1 v2, R v1 v2 ∧ stream_decoded_record_at file l w1 = (r, vw_writer _ v1) ∧
    stream_decoded_record_at file l w2 = (r, vw_writer _ v2).
Proof using R_alike R_write.
  intros Hnew. unfold stream_decoded_record_at. destruct (stream_prefix file l) as [m|e] eqn:Hp.
  2: { assert (is_u64 0) as Hz by (unfold is_u64, u64_max; lia). pose proof (Hnew Blob 0 Hz). by do 3 eexists. }
  apply stream_prefix_inv in Hp as (h & _ & _ & _ & _ & _ & _ & Hm & _). destruct Hm as (_ & Hl & _).
  destruct (decode_related (rm_kind m) (rm_codec m) (rm_raw_length m) (rm_content_id m)
    (Cursor_new (payload_reader file (ol_offset l + RECORD_HEADER_LEN) (rm_stored_length m))) w1 w2 (Hnew _ _ Hl))
    as (r & v1 & v2 & HR & -> & ->).
  destruct r; by do 3 eexists.
Qed.
End Simulation.

(** Two sinks that take everything. *)
Section TotalSinks.
Context `{Digests} `{Zstd} `{Write W1} `{Write W2} `{!TotalWrite W1} `{!TotalWrite W2}.

Lemma write_alike (v1 : ValidatingObjectWriter W1) (v2 : ValidatingObjectWriter W2) b : alike v1 v2 →
  (write v1 b).1 = (write v2 b).1 ∧ alike (write v1 b).2 (write v2 b).2.
Proof.
  intros (He & Hw & Hh). unfold write at 1 2 3 4, Validating_write. rewrite He, Hw, Hh.
  destruct (u64_try_from _); [|done]. destruct (checked_add _ _); [|done]. case_decide; [done|].
  pose proof (total_write (vw_writer _ v1) b) as T1. pose proof (total_write (vw_writer _ v2) b) as T2.
  destruct (write (vw_writer _ v1) b) as [r1 w1], (write (vw_writer _ v2) b) as [r2 w2]. cbn in T1, T2.
  by subst.
Qed.
Lemma decode_alike kind codec L cid src (w1 : W1) (w2 : W2) :
  (decode_object_payload_to_writer kind codec L cid src w1).1 =
  (decode_object_payload_to_writer kind codec L cid src w2).1.
Proof.
  destruct (decode_related alike (λ _ _ Hv, Hv) write_alike kind codec L cid src w1 w2) as (r & v1 & v2 & _ & -> & ->);
    done.
Qed.
End TotalSinks.
End SinkSpec.
