(* ===== verification/CatalogInterface.v ===== *)
(** * What the store relies on in a catalog

    The store is generic in its catalog. [CatalogLaws] is the contract its
    theorems are proved against: the catalog holds an abstract catalog, a batch
    is applied whole or not at all, and a record it reports is one it holds.
    The in-memory catalog and the RocksDB catalog over any lawful engine both
    keep it. *)

From Stdlib Require Import ZArith Lia Strings.Byte Strings.String.
From stdpp Require Import base tactics list gmap strings.
From S2P Require Import Prelude Order Core Format CatalogCodec CatalogCodecSpec Catalog CatalogSpec RocksCatalog RocksSpec RocksReads.
Import Core Format CatalogCodec CatalogCodecSpec Catalog CatalogSpec RocksCatalog RocksSpec RocksReads.

#[local] Open Scope Z_scope.

Module CatalogInterface.

Abbreviation View := (CatKey → option CatValue).

(** A root that a catalog with the records [f] has. *)
Definition root_in (f : View) (root : GcRoot) : Prop :=
  match root with
  | GcRepositorySnapshot r s => f (KSnapshot r s) = Some (VVisibility Ready)
  | GcWorkspacePin w g => f (KWorkspacePin w) = Some (VGeneration g)
  | GcExplicitPin p => f (KGcPin (gp_id p)) = Some (VGeneration (gp_generation p))
  end.

Class CatalogLaws (C : Type) `{Catalog C} := {
  (** [holds_view c f]: the records of [c] are those of [f]. *)
  holds_view : C → View → Prop;
  view_apply c f b :
    holds_view c f → Forall op_wf b →
    match apply c b with
    | (Ok _, c') => aliases_agree f b ∧ ∃ f', holds_view c' f' ∧ same f' (batch_effect f b)
    | (Err _, c') => ∃ f', holds_view c' f' ∧ (same f' f ∨ same f' (batch_effect f b))
    end;
  view_location c f id l :
    holds_view c f → ContentId_wf id → object_location c id = Some l →
    f (KObject id) = Some (VLocation l);
  view_chunk c f g n m :
    holds_view c f → is_u32 g → is_u64 n → chunk c g n = Some m →
    f (KChunk g n) = Some (VChunk m);
  view_alias c f r o id :
    holds_view c f → RepoId_wf r → GitOid_wf o → oid_alias c r o = Some id →
    f (KAlias r o) = Some (VContent id);
  view_snapshot c f r s v :
    holds_view c f → RepoId_wf r → SnapshotId_wf s → repository_snapshot c r s = Some v →
    f (KSnapshot r s) = Some (VVisibility v);
  view_meta c f k v :
    holds_view c f → k ≠ OBJECT_LOCATION_REBUILD_META_KEY → meta c k = Some v →
    f (KMeta k) = Some (VOpaque v);
  view_workspace c f w b :
    holds_view c f → WorkspaceId_wf w → workspace c w = Some b → f (KWorkspace w) = Some (VOpaque b);
  view_workspace_name c f n w :
    holds_view c f → workspace_name c n = Some w → f (KWorkspaceName n) = Some (VWorkspace w);
  view_workspace_pin c f w g :
    holds_view c f → WorkspaceId_wf w → workspace_pin c w = Some g → f (KWorkspacePin w) = Some (VGeneration g);
  view_job c f id b :
    holds_view c f → job c id = Some b → f (KJob id) = Some (VOpaque b);
  view_roots c f roots :
    holds_view c f → gc_roots c = Ok roots → ∀ root, root ∈ roots ↔ root_in f root;
}.

(** ** The in-memory catalog *)

Lemma root_live_in c f root : same f (stored c) → root_live c root ↔ root_in f root.
Proof.
  intros Hs. destruct root as [r s|w g|p]; cbn; rewrite (Hs _); cbn;
    destruct (_ !! _); cbn; naive_solver.
Qed.

#[export] Program Instance im_laws : CatalogLaws InMemoryCatalog :=
  {| holds_view c f := same f (stored c) |}.
Next Obligation.
  intros c f b Hs _. pose proof (im_apply_spec c b) as Ha. cbn [apply InMemoryCatalog_Catalog].
  destruct (im_apply c b) as [[u|e] c'].
  - destruct Ha as (_ & _ & Hag & Hsame & _). split; [by rewrite Hs|].
    exists (stored c'). split; [done|]. by rewrite Hs.
  - destruct Ha as [-> _]. exists f. split; [done|]. by left.
Qed.
Next Obligation.
  intros c f id l Hs _ Hl. cbn in Hl. unfold im_object_location in Hl.
  destruct (im_rebuild c); [done|]. rewrite (Hs _). cbn. by rewrite Hl.
Qed.
Next Obligation. intros c f g n m Hs _ _ Hl. rewrite (Hs _). cbn in *. by rewrite Hl. Qed.

Next Obligation. intros c f r o id Hs _ _ Hl. rewrite (Hs _). cbn in *. by rewrite Hl. Qed.
Next Obligation. intros c f r s v Hs _ _ Hl. rewrite (Hs _). cbn in *. by rewrite Hl. Qed.
Next Obligation. intros c f k v Hs _ Hl. rewrite (Hs _). cbn in *. by rewrite Hl. Qed.
Next Obligation. intros c f w b Hs _ Hl. rewrite (Hs _). cbn in *. by rewrite Hl. Qed.
Next Obligation. intros c f n w Hs Hl. rewrite (Hs _). cbn in *. by rewrite Hl. Qed.
Next Obligation. intros c f w g Hs _ Hl. rewrite (Hs _). cbn in *. by rewrite Hl. Qed.
Next Obligation. intros c f id b Hs Hl. rewrite (Hs _). cbn in Hl |- *. by rewrite Hl. Qed.
Next Obligation.
  intros c f roots Hs Hr root. rewrite gc_roots_eq in Hr. injection Hr as <-.
  rewrite elem_of_gc_roots by done. by apply root_live_in.
Qed.

(** ** The RocksDB catalog *)

Section Rocks.
Context `{EngineLaws DB}.

#[export] Program Instance rocks_laws : CatalogLaws DB :=
  {| holds_view db f := ∃ c, represents (contents db) c ∧ same f (stored c) |}.
Next Obligation.
  intros db f b (c & Hr & Hs) Hwf.
  pose proof (rocks_apply_spec db c b Hr Hwf) as Href. pose proof (im_apply_spec c b) as Ha.
  cbn [apply RocksDbCatalog_Catalog]. destruct (rocks_apply db b) as [[u|e] db']; cbn in Href.
  - destruct (im_apply c b) as [[u'|e'] c']; cbn in Href; [|by destruct Href].
    destruct Ha as (_ & _ & Hag & Hsame & _). destruct Href as [_ Href]. split; [by rewrite Hs|].
    exists (stored c'). split; [by exists c'|]. by rewrite Hs.
  - destruct Href as [[_ [Href|[Hok Href]]]|[_ Href]].
    + exists f. split; [by exists c|by left].
    + destruct (im_apply c b) as [[u'|e'] c']; cbn in *; [|done].
      destruct Ha as (_ & _ & Hag & Hsame & _).
      exists (stored c'). split; [by exists c'|]. right. by rewrite Hs.
    + exists f. split; [by exists c|by left].
Qed.
Next Obligation.
  intros db f id l (c & Hr & Hs) Hid Hl. rewrite (Hs _). cbn in Hl |- *.
  destruct (rocks_object_location_agrees db c Hr id Hid) as [He|[He _]]; [|congruence].
  rewrite He in Hl. unfold im_object_location in Hl. destruct (im_rebuild c); [done|]. by rewrite Hl.
Qed.
Next Obligation.
  intros db f g n m (c & Hr & Hs) Hg Hn Hl. rewrite (Hs _). cbn in Hl |- *.
  destruct (rocks_chunk_agrees db c Hr g n Hg Hn) as [He|[He _]]; [|congruence].
  rewrite He in Hl. by rewrite Hl.
Qed.
Next Obligation.
  intros db f r o id (c & Hr & Hs) Hw Ho Hl. rewrite (Hs _). cbn in Hl |- *.
  destruct (rocks_oid_alias_agrees db c Hr r o Hw Ho) as [He|[He _]]; [|congruence].
  rewrite He in Hl. by rewrite Hl.
Qed.
Next Obligation.
  intros db f r s v (c & Hr & Hs) Hw Hsn Hl. rewrite (Hs _). cbn in Hl |- *.
  destruct (rocks_snapshot_agrees db c Hr r s Hw Hsn) as [He|[He _]]; [|congruence].
  rewrite He in Hl. by rewrite Hl.
Qed.
Next Obligation.
  intros db f k v (c & Hr & Hs) Hk Hl. rewrite (Hs _). cbn in Hl |- *.
  destruct (rocks_meta_agrees db c Hr k) as [He|[He _]]; [|congruence].
  rewrite He in Hl. by rewrite Hl.
Qed.
Next Obligation.
  intros db f w b (c & Hr & Hs) Hw Hl. rewrite (Hs _). cbn in Hl |- *.
  destruct (rocks_workspace_agrees db c Hr w Hw) as [He|[He _]]; [|congruence]. rewrite He in Hl. by rewrite Hl.
Qed.
Next Obligation.
  intros db f n w (c & Hr & Hs) Hl. rewrite (Hs _). cbn in Hl |- *.
  destruct (rocks_workspace_name_agrees db c Hr n) as [He|[He _]]; [|congruence]. rewrite He in Hl. by rewrite Hl.
Qed.
Next Obligation.
  intros db f w g (c & Hr & Hs) Hw Hl. rewrite (Hs _). cbn in Hl |- *.
  destruct (rocks_workspace_pin_agrees db c Hr w Hw) as [He|[He _]]; [|congruence]. rewrite He in Hl. by rewrite Hl.
Qed.
Next Obligation.
  intros db f id b (c & Hr & Hs) Hl. rewrite (Hs _). cbn in Hl |- *.
  destruct (rocks_job_agrees db c Hr id) as [He|[He _]]; [|congruence]. rewrite He in Hl. by rewrite Hl.
Qed.
Next Obligation.
  intros db f roots (c & Hr & Hs) Hroots root.
  destruct (rocks_gc_roots_agrees db c Hr) as [He|[e He]]; [|congruence].
  rewrite He, gc_roots_eq in Hroots. injection Hroots as <-.
  rewrite elem_of_gc_roots by done. by apply root_live_in.
Qed.
End Rocks.
End CatalogInterface.
