(* ===== verification/Disk.v ===== *)
(** * Files, names and crashes

    The file-system calls the cold store makes, over an explicit disk: file
    contents with what has been synchronized of them, names with the name
    spaces a crash may still fall back to, and a schedule of failing calls. A
    call that fails has at most the effect described here; since the store
    returns at the first failing call that could change anything, the states
    left by a failed call include every state a crash can find. *)

From Stdlib Require Import ZArith Lia Strings.Byte Strings.String.
From stdpp Require Import base tactics list gmap strings.
From S2P Require Import Prelude Core Format Codec CatalogCodec Chunk.
Import Core Format Codec CatalogCodec Chunk.

#[local] Open Scope Z_scope.

(** ** State and errors *)

(** A computation that may change a state and fail; the changes made before a
    failure stay. *)
Definition ST (S E A : Type) : Type := S → result E A * S.
Definition st_ret {S E A} (a : A) : ST S E A := λ s, (Ok a, s).
Definition st_lift {S E A} (r : result E A) : ST S E A := λ s, (r, s).
Definition st_bind {S E A B} (m : ST S E A) (k : A → ST S E B) : ST S E B := λ s,
  match m s with
  | (Ok a, s') => k a s'
  | (Err e, s') => (Err e, s')
  end.
Definition st_get {S E A} (f : S → A) : ST S E A := λ s, (Ok (f s), s).
Definition st_modify {S E} (f : S → S) : ST S E unit := λ s, (Ok (), f s).
Definition st_map_err {S E F A} (f : E → F) (m : ST S E A) : ST S F A := λ s,
  let '(r, s') := m s in (map_err f r, s').

Declare Scope st_scope.
Delimit Scope st_scope with st.
Notation "x ⇐ m ; k" := (st_bind m (λ x, k))
  (at level 20, m at level 100, k at level 200, only parsing) : st_scope.
Notation "' x ⇐ m ; k" := (st_bind m (λ x, k))
  (at level 20, x pattern, m at level 100, k at level 200, only parsing) : st_scope.
Open Scope st_scope.

Lemma st_bind_Ok {S E A B} (m : ST S E A) (k : A → ST S E B) s b s' :
  st_bind m k s = (Ok b, s') → ∃ a s1, m s = (Ok a, s1) ∧ k a s1 = (Ok b, s').
Proof. unfold st_bind. destruct (m s) as [[a|e] s1]; [|done]. by exists a, s1. Qed.
Lemma st_lift_Ok {S E A} (r : result E A) (s s' : S) a : st_lift r s = (Ok a, s') → r = Ok a ∧ s' = s.
Proof. by intros [= -> ->]. Qed.
Lemma st_map_err_Ok {S E F A} (f : E → F) (m : ST S E A) s a s' : st_map_err f m s = (Ok a, s') → m s = (Ok a, s').
Proof. unfold st_map_err. destruct (m s) as [[b|e] s1]; cbn; [|done]. by intros [= -> ->]. Qed.

Module Disk.

(** ** The disk *)

(** The contents of a file, and the contents its last synchronization made durable. *)
Record Inode := mkInode { i_data : bytes; i_synced : bytes }.

(** A failing call, and how much of a write reached the file before it failed. *)
Record Fault := mkFault { f_kind : IoErrorKind; f_written : nat }.

Abbreviation Names := (gmap Path nat).

Record Disk := mkDisk {
  d_inodes : list Inode;
  d_names : Names;
  d_pending : list Names;
  d_faults : list (option Fault) }.

Definition set_inodes (l : list Inode) (d : Disk) : Disk :=
  mkDisk l (d_names d) (d_pending d) (d_faults d).
Definition update_inode (n : nat) (f : Inode → Inode) (d : Disk) : Disk :=
  set_inodes (alter f n (d_inodes d)) d.
(** A name space change that is not durable yet. *)
Definition set_names (m : Names) (d : Disk) : Disk :=
  mkDisk (d_inodes d) m (d_names d :: d_pending d) (d_faults d).

(** The contents of an open file. *)
Definition data (d : Disk) (n : nat) : bytes := default [] (i_data <$> d_inodes d !! n).

Definition pop_fault (d : Disk) : option Fault * Disk :=
  match d_faults d with
  | [] => (None, d)
  | f :: fs => (f, mkDisk (d_inodes d) (d_names d) (d_pending d) fs)
  end.

Abbreviation DiskIO := (ST Disk IoErrorKind).

(** A call that fails without an effect when the schedule says so. *)
Definition io {A} (act : DiskIO A) : DiskIO A := λ d,
  match pop_fault d with
  | (Some f, d) => (Err (f_kind f), d)
  | (None, d) => act d
  end.

(** [OpenOptions::open] of an existing file. *)
Definition open_file (p : Path) : DiskIO nat :=
  io (λ d, (ok_or (d_names d !! p) NotFound, d)).
(** [create_new(true)]. *)
Definition create_new (p : Path) : DiskIO nat :=
  io (λ d, match d_names d !! p with
           | Some _ => (Err AlreadyExists, d)
           | None => let n := length (d_inodes d) in
                     (Ok n, set_inodes (d_inodes d ++ [mkInode [] []])
                              (set_names (<[p := n]> (d_names d)) d))
           end).
(** Reading a file. *)
Definition read_file (n : nat) : DiskIO bytes := io (λ d, (Ok (data d n), d)).

(** The largest file Linux addresses. *)
Definition MAX_FILE_BYTES : Z := 2 ^ 63 - 1.

(** The bytes of a file after writing [b] at [off]; a gap reads as zeros. *)
Definition patch (off : nat) (b : bytes) (file : bytes) : bytes :=
  put (file ++ zeros (off - length file)) off b.

(** [seek(SeekFrom::Start(off))] and [write_all]. *)
Definition write_at (n : nat) (off : Z) (b : bytes) : DiskIO unit := λ d,
  let write b := update_inode n (λ i, mkInode (patch (Z.to_nat off) b (i_data i)) (i_synced i)) in
  let '(f, d) := pop_fault d in
  if decide (MAX_FILE_BYTES < off + len b) then (Err OtherIo, d)
  else match f with
       | Some f => (Err (f_kind f), write (take (f_written f) b) d)
       | None => (Ok (), write b d)
       end.
(** [File::set_len]. *)
Definition set_len (n : nat) (k : Z) : DiskIO unit :=
  io (λ d, (Ok (), update_inode n (λ i,
    mkInode (take (Z.to_nat k) (i_data i) ++ zeros (Z.to_nat k - length (i_data i))) (i_synced i)) d)).
(** [File::sync_data]. *)
Definition sync_file (n : nat) : DiskIO unit :=
  io (λ d, (Ok (), update_inode n (λ i, mkInode (i_data i) (i_data i)) d)).

(** [Path::exists]; failures other than absence are not modelled. *)
Definition path_exists (d : Disk) (p : Path) : bool := bool_decide (is_Some (d_names d !! p)).

(** [fs::rename]. *)
Definition rename (a b : Path) : DiskIO unit :=
  io (λ d, match d_names d !! a with
           | None => (Err NotFound, d)
           | Some n => (Ok (), set_names (<[b := n]> (delete a (d_names d))) d)
           end).

(** [fs::remove_file]; an open file stays readable through its handle. *)
Definition remove_file (p : Path) : DiskIO unit :=
  io (λ d, match d_names d !! p with
           | None => (Err NotFound, d)
           | Some _ => (Ok (), set_names (delete p (d_names d)) d)
           end).

(** [File::open(dir)?.sync_all()]: the entries of [dir] become durable. A
    relative file name has the empty parent, which cannot be opened. *)
Definition persist (dir : bytes) (now before : Names) : Names :=
  filter (λ e, p_dir e.1 = dir) now ∪ filter (λ e, p_dir e.1 ≠ dir) before.
Definition sync_all_directory (dir : bytes) : DiskIO unit :=
  _ ⇐ io (λ d, (ensure (bool_decide (dir ≠ [])) NotFound, d));
  io (λ d, (Ok (), mkDisk (d_inodes d) (d_names d)
                     (map (persist dir (d_names d)) (d_pending d)) (d_faults d))).
(** [fs::create_dir_all]. *)
Definition create_dir_all (dir : bytes) : DiskIO unit := io (λ d, (Ok (), d)).

(** ** Crashes *)

(** After a crash a file holds at least what its contents and its synchronized
    contents agree on, and nothing else when they are the same; otherwise the
    rest is arbitrary, up to the largest file size. *)
Definition survives (i i' : Inode) : Prop :=
  i_synced i' = i_data i' ∧ len (i_data i') ≤ MAX_FILE_BYTES ∧
  (∀ p, p `prefix_of` i_data i → p `prefix_of` i_synced i → p `prefix_of` i_data i') ∧
  (i_data i = i_synced i → i_data i' = i_data i).

(** One of the name spaces since the directory was last synchronized is found
    again, and every file survives. *)
Inductive crash : Disk → Disk → Prop :=
| crash_intro d names inodes faults :
    names ∈ d_names d :: d_pending d → Forall2 survives (d_inodes d) inodes →
    crash d (mkDisk inodes names [] faults).

End Disk.
