(* ===== verification/DiskSpec.v ===== *)
(** * What file-system calls preserve

    Durable contents, durable names, and for every call, failing or not, which
    of them it keeps. *)

From Stdlib Require Import ZArith Lia Strings.Byte Strings.String.
From stdpp Require Import base tactics list gmap strings.
From S2P Require Import Prelude Core Format Codec CatalogCodec Chunk Disk.
Import Core Format Codec CatalogCodec Chunk Disk.

#[local] Open Scope Z_scope.

Module DiskSpec.

(** What a crash keeps of a file. *)
Definition durable (i : Inode) (p : bytes) : Prop :=
  p `prefix_of` i_data i ∧ p `prefix_of` i_synced i.
(** File [n] has a name in one directory, in every name space a crash may find. *)
Definition linked (d : Disk) (n : nat) : Prop :=
  ∃ dir, Forall (λ m : Names, ∃ p, m !! p = Some n ∧ p_dir p = dir) (d_names d :: d_pending d).

(** [preserves P d d']: from [d] to [d'] every durable prefix that [P] selects
    stays durable and every linked file stays linked. *)
Definition preserves (P : nat → bytes → Prop) (d d' : Disk) : Prop :=
  (∀ n i, d_inodes d !! n = Some i → ∃ i', d_inodes d' !! n = Some i' ∧
     ∀ p, P n p → durable i p → durable i' p) ∧
  (∀ n, linked d n → linked d' n).
#[export] Instance preserves_preorder P : PreOrder (preserves P).
Proof.
  split.
  - intros d. split; [|done]. intros n i Hi. by exists i.
  - intros d1 d2 d3 [H1 L1] [H2 L2]. split; [|by auto]. intros n i Hi.
    destruct (H1 n i Hi) as (i2 & Hi2 & Hd2). destruct (H2 n i2 Hi2) as (i3 & Hi3 & Hd3).
    exists i3. eauto.
Qed.

(** Files stay within the largest file size. *)
Definition sane (d : Disk) : Prop := ∀ n i, d_inodes d !! n = Some i → len (i_data i) ≤ MAX_FILE_BYTES.

Lemma data_lookup d n i : d_inodes d !! n = Some i → data d n = i_data i.
Proof. intros Hi. unfold data. by rewrite Hi. Qed.
Lemma sane_data d n : sane d → len (data d n) ≤ MAX_FILE_BYTES.
Proof.
  intros Hs. unfold data. destruct (d_inodes d !! n) as [i|] eqn:Hi; [by apply (Hs n)|].
  by vm_compute.
Qed.

(** The schedule of faults is invisible to everything else. *)
Record same_files (d d' : Disk) : Prop := {
  same_inodes : d_inodes d' = d_inodes d;
  same_names : d_names d' = d_names d;
  same_pending : d_pending d' = d_pending d }.
Lemma same_files_refl d : same_files d d.
Proof. done. Qed.
Lemma same_files_trans d1 d2 d3 : same_files d1 d2 → same_files d2 d3 → same_files d1 d3.
Proof. intros [] []. split; congruence. Qed.
Lemma same_files_preserves P d d' : same_files d d' → preserves P d d'.
Proof.
  intros [Hi Hn Hp]. split.
  - intros n i. rewrite Hi. eauto.
  - intros n. unfold linked. by rewrite Hn, Hp.
Qed.
Lemma same_files_sane d d' : same_files d d' → sane d → sane d'.
Proof. intros [Hi _ _] Hs n i. rewrite Hi. apply Hs. Qed.
Lemma same_files_data d d' n : same_files d d' → data d' n = data d n.
Proof. intros [Hi _ _]. unfold data. by rewrite Hi. Qed.

Lemma pop_same d : same_files d (pop_fault d).2.
Proof. unfold pop_fault. by destruct (d_faults d). Qed.

(** A call either fails with nothing changed but the schedule, or runs. *)
Lemma io_spec {A} (act : DiskIO A) d :
  (∃ e d', io act d = (Err e, d') ∧ same_files d d') ∨
  (∃ d', same_files d d' ∧ io act d = act d').
Proof.
  unfold io. pose proof (pop_same d) as Hs. destruct (pop_fault d) as [[f|] d']; cbn in Hs.
  - left. eauto.
  - right. eauto.
Qed.

(** [io_cases H] splits [H : io act d = (r, d')] into these two cases. *)
Ltac io_cases H d1 Hs :=
  lazymatch type of H with
  | io ?act ?d = _ =>
      let e := fresh "e" in let He := fresh "He" in
      destruct (io_spec act d) as [(e & d1 & He & Hs)|(d1 & Hs & He)];
      rewrite He in H; clear He; [injection H as <- <-|]
  end.

(** ** Each call *)

Lemma open_file_spec p d r d' :
  open_file p d = (r, d') → same_files d d' ∧ ∀ n, r = Ok n → d_names d !! p = Some n.
Proof.
  unfold open_file. intros Ho.
  io_cases Ho d1 Hs; [done|].
  injection Ho as <- <-. split; [done|]. intros n Hn%ok_or_Ok_inv. by rewrite <-(same_names _ _ Hs).
Qed.
Lemma read_file_spec n d r d' :
  read_file n d = (r, d') → same_files d d' ∧ ∀ b, r = Ok b → b = data d n.
Proof.
  unfold read_file. intros Ho.
  io_cases Ho d1 Hs; [done|].
  injection Ho as <- <-. split; [done|]. intros b [= <-]. by apply same_files_data.
Qed.

(** Adding a name keeps every link. *)
Lemma linked_set_names d m n :
  (∀ dir p, d_names d !! p = Some n → p_dir p = dir → ∃ q, m !! q = Some n ∧ p_dir q = dir) →
  linked d n → linked (set_names m d) n.
Proof.
  intros Hm (dir & Hall). exists dir. cbn. apply Forall_cons. split; [|done].
  apply Forall_cons in Hall as [(p & Hp & Hdir) _]. eauto.
Qed.
Lemma linked_inodes d d' n :
  d_names d' = d_names d → d_pending d' = d_pending d → linked d n → linked d' n.
Proof. intros Hn Hp. unfold linked. by rewrite Hn, Hp. Qed.

Lemma create_new_spec P p d r d' :
  create_new p d = (r, d') → sane d →
  preserves P d d' ∧ sane d' ∧
  match r with
  | Ok n => n = length (d_inodes d) ∧ d_inodes d' !! n = Some (mkInode [] []) ∧ d_names d' !! p = Some n
  | Err _ => same_files d d'
  end.
Proof.
  unfold create_new. intros Hc Hsane.
  io_cases Hc d1 Hs.
  { split_and!; [by apply same_files_preserves|by eapply same_files_sane|done]. }
  destruct (d_names d1 !! p) as [n|] eqn:Hp; injection Hc as <- <-.
  { split_and!; [by apply same_files_preserves|by eapply same_files_sane|done]. }
  pose proof (same_inodes _ _ Hs) as Hi. split_and!.
  - etransitivity; [by apply same_files_preserves|]. split.
    + intros n i Hn. exists i. cbn. by rewrite lookup_app_l_Some with (x := i).
    + intros n Hl. eapply (linked_inodes (set_names (<[p:=length (d_inodes d1)]> (d_names d1)) d1));
        [done|done|].
      apply linked_set_names; [|done]. intros dir q Hq Hdir. exists q.
      rewrite lookup_insert_ne; [done|congruence].
  - intros n i. cbn. intros [Hn|[_ Hn]]%lookup_app_Some.
    + rewrite Hi in Hn. by apply (Hsane n).
    + destruct (n - length (d_inodes d1))%nat; [injection Hn as <-; by vm_compute|done].
  - by rewrite Hi.
  - cbn. rewrite lookup_app_r, Nat.sub_diag by lia. done.
  - cbn. apply lookup_insert_eq.
Qed.

(** Writing one file. *)
Lemma update_spec P d n g :
  (∀ i p, d_inodes d !! n = Some i → P n p → durable i p → durable (g i) p) →
  preserves P d (update_inode n g d).
Proof.
  intros Hg. split; [|done]. intros m i Hi. cbn.
  destruct (decide (m = n)) as [->|Hne].
  - exists (g i). rewrite list_lookup_alter_eq, Hi. eauto.
  - exists i. rewrite list_lookup_alter_ne by congruence. eauto.
Qed.
Lemma update_sane d n g :
  sane d → (∀ i, d_inodes d !! n = Some i → len (i_data (g i)) ≤ MAX_FILE_BYTES) →
  sane (update_inode n g d).
Proof.
  intros Hs Hg m i Hi. cbn in Hi. destruct (decide (m = n)) as [->|Hne].
  - rewrite list_lookup_alter_eq in Hi. destruct (d_inodes d !! n) as [i0|] eqn:E; [|done].
    injection Hi as <-. by apply Hg.
  - rewrite list_lookup_alter_ne in Hi by congruence. by apply (Hs m).
Qed.
Lemma update_lookup d n g i :
  d_inodes d !! n = Some i → d_inodes (update_inode n g d) !! n = Some (g i).
Proof. intros Hi. cbn. by rewrite list_lookup_alter_eq, Hi. Qed.

Lemma patch_keeps p off b file :
  p `prefix_of` file → len p ≤ Z.of_nat off → p `prefix_of` patch off b file.
Proof.
  intros [rest ->] Hp. unfold patch, put, len in *. rewrite <-app_assoc, take_app_ge by lia.
  rewrite <-app_assoc. eexists. done.
Qed.
Lemma patch_at a b junk : patch (length a) b (a ++ junk) = a ++ b ++ drop (length b) junk.
Proof.
  unfold patch, put. rewrite length_app.
  replace (length a - (length a + length junk))%nat with 0%nat by lia. cbn [zeros]. rewrite app_nil_r.
  rewrite take_app_length. do 2 f_equal. rewrite <-drop_drop, drop_app_length. done.
Qed.
Lemma length_patch off b file :
  length (patch off b file) = (Nat.max (length file) (off + length b))%nat.
Proof.
  unfold patch, put. rewrite !length_app, length_take, length_drop, length_app, length_zeros. lia.
Qed.

(** What [write_at] may leave: at most a prefix of [b] from [off] on. *)
Lemma write_at_spec P n off b d r d' :
  write_at n off b d = (r, d') → 0 ≤ off → sane d → (∀ p, P n p → len p ≤ off) →
  preserves P d d' ∧ sane d' ∧ d_names d' = d_names d ∧ d_pending d' = d_pending d ∧
  ∀ i, d_inodes d !! n = Some i → ∃ i', d_inodes d' !! n = Some i' ∧ i_synced i' = i_synced i ∧
    match r with
    | Ok _ => i_data i' = patch (Z.to_nat off) b (i_data i) ∧ off + len b ≤ MAX_FILE_BYTES
    | Err _ => ∀ p, p `prefix_of` i_data i → len p ≤ off → p `prefix_of` i_data i'
    end.
Proof.
  unfold write_at. intros Hw Hoff Hsane HP. pose proof (pop_same d) as Hs.
  destruct (pop_fault d) as [f d1]. cbn [snd] in Hs.
  assert (∀ c, len c ≤ len b → off + len b ≤ MAX_FILE_BYTES →
    let d2 := update_inode n (λ i, mkInode (patch (Z.to_nat off) c (i_data i)) (i_synced i)) d1 in
    preserves P d d2 ∧ sane d2 ∧ d_names d2 = d_names d ∧ d_pending d2 = d_pending d) as Hupd.
  { intros c Hc Hmax d2. split_and!.
    - etransitivity; [by apply same_files_preserves|]. apply update_spec. intros i p _ Hp [H1 H2].
      split; [|done]. apply patch_keeps; [done|]. specialize (HP p Hp). lia.
    - apply update_sane; [by eapply same_files_sane|]. intros i Hi. cbn [i_data].
      unfold len in *. rewrite length_patch. rewrite (same_inodes _ _ Hs) in Hi.
      specialize (Hsane n i Hi). unfold len in *. lia.
    - by rewrite <-(same_names _ _ Hs).
    - by rewrite <-(same_pending _ _ Hs). }
  case_decide as Hmax.
  { injection Hw as <- <-. split_and!; [by apply same_files_preserves|by eapply same_files_sane|by apply Hs|by apply Hs|].
    intros i Hi. exists i. by rewrite (same_inodes _ _ Hs). }
  destruct f as [f|]; injection Hw as <- <-.
  - destruct (Hupd (take (f_written f) b)) as (H1 & H2 & H3 & H4);
      [unfold len; rewrite length_take; lia|lia|].
    split_and!; try done. intros i Hi. rewrite <-(same_inodes _ _ Hs) in Hi.
    eexists. split; [by apply update_lookup|]. split; [done|]. intros p Hp Hlen. cbn [i_data].
    apply patch_keeps; [done|lia].
  - destruct (Hupd b) as (H1 & H2 & H3 & H4); [lia|lia|].
    split_and!; try done. intros i Hi. rewrite <-(same_inodes _ _ Hs) in Hi.
    eexists. split; [by apply update_lookup|]. split; [done|]. split; [done|lia].
Qed.

Lemma sync_file_spec P n d r d' :
  sync_file n d = (r, d') → sane d →
  preserves P d d' ∧ sane d' ∧ d_names d' = d_names d ∧ d_pending d' = d_pending d ∧
  ∀ i, d_inodes d !! n = Some i → ∃ i', d_inodes d' !! n = Some i' ∧ i_data i' = i_data i ∧
    (is_ok r = true → i_synced i' = i_data i).
Proof.
  unfold sync_file. intros Hc Hsane. io_cases Hc d1 Hs.
  { split_and!; [by apply same_files_preserves|by eapply same_files_sane|by apply Hs|by apply Hs|].
    intros i Hi. exists i. by rewrite (same_inodes _ _ Hs). }
  injection Hc as <- <-. split_and!.
  - etransitivity; [by apply same_files_preserves|]. apply update_spec. intros i p _ _ [Hp _].
    by split.
  - apply update_sane; [by eapply same_files_sane|]. intros i Hi. cbn.
    rewrite (same_inodes _ _ Hs) in Hi. by apply (Hsane n).
  - by rewrite <-(same_names _ _ Hs).
  - by rewrite <-(same_pending _ _ Hs).
  - intros i Hi. rewrite <-(same_inodes _ _ Hs) in Hi. eexists. split; [by apply update_lookup|]. done.
Qed.

Lemma set_len_spec P n k d r d' :
  set_len n k d = (r, d') → sane d → 0 ≤ k ≤ len (data d n) →
  (∀ i p, d_inodes d !! n = Some i → P n p → durable i p → len p ≤ k) →
  preserves P d d' ∧ sane d' ∧ d_names d' = d_names d ∧ d_pending d' = d_pending d ∧
  ∀ i, d_inodes d !! n = Some i → ∃ i', d_inodes d' !! n = Some i' ∧ i_synced i' = i_synced i ∧
    (is_ok r = true → i_data i' = take (Z.to_nat k) (i_data i)).
Proof.
  unfold set_len. intros Hc Hsane Hk HP. io_cases Hc d1 Hs.
  { split_and!; [by apply same_files_preserves|by eapply same_files_sane|by apply Hs|by apply Hs|].
    intros i Hi. exists i. by rewrite (same_inodes _ _ Hs). }
  injection Hc as <- <-.
  assert (∀ i, d_inodes d1 !! n = Some i → (Z.to_nat k - length (i_data i))%nat = 0%nat) as Hz.
  { intros i Hi. rewrite (same_inodes _ _ Hs) in Hi. rewrite (data_lookup _ _ _ Hi) in Hk.
    unfold len in Hk. lia. }
  split_and!.
  - etransitivity; [by apply same_files_preserves|]. apply update_spec. intros i p Hi Hp [H1 H2].
    split; [|done]. cbn [i_data]. rewrite Hz by done. cbn [zeros]. rewrite app_nil_r.
    rewrite (same_inodes _ _ Hs) in Hi. specialize (HP i p Hi Hp (conj H1 H2)).
    destruct H1 as [rest ->]. rewrite take_app_ge by (unfold len in HP; lia). by eexists.
  - apply update_sane; [by eapply same_files_sane|]. intros i Hi. cbn [i_data].
    rewrite Hz by done. cbn [zeros]. rewrite app_nil_r. rewrite (same_inodes _ _ Hs) in Hi.
    specialize (Hsane n i Hi). unfold len in *. rewrite length_take. lia.
  - by rewrite <-(same_names _ _ Hs).
  - by rewrite <-(same_pending _ _ Hs).
  - intros i Hi. rewrite <-(same_inodes _ _ Hs) in Hi. eexists. split; [by apply update_lookup|].
    split; [done|]. intros _. cbn [i_data]. rewrite Hz by done. cbn. by rewrite app_nil_r.
Qed.

(** Renaming within a directory to a free name keeps every file linked. *)
Lemma rename_spec P a b d r d' :
  rename a b d = (r, d') → sane d → p_dir a = p_dir b → d_names d !! b = None →
  preserves P d d' ∧ sane d' ∧ d_inodes d' = d_inodes d ∧
  match r with
  | Ok _ => ∃ n, d_names d !! a = Some n ∧ d_names d' = <[b := n]> (delete a (d_names d))
  | Err _ => same_files d d'
  end.
Proof.
  unfold rename. intros Hc Hsane Hdir Hb. io_cases Hc d1 Hs.
  { split_and!; [by apply same_files_preserves|by eapply same_files_sane|by apply Hs|done]. }
  destruct (d_names d1 !! a) as [n|] eqn:Ha; injection Hc as <- <-.
  2: { split_and!; [by apply same_files_preserves|by eapply same_files_sane|by apply Hs|done]. }
  rewrite (same_names _ _ Hs) in Ha. split_and!.
  - etransitivity; [by apply same_files_preserves|]. split; [intros m i Hi; by exists i|].
    intros m. apply linked_set_names. intros dir p Hp Hpd.
    rewrite (same_names _ _ Hs) in Hp |- *. destruct (decide (p = a)) as [->|Hne].
    + exists b. rewrite lookup_insert_eq. split; congruence.
    + exists p. rewrite lookup_insert_ne, lookup_delete_ne by congruence. done.
  - intros m i Hi. cbn in Hi. rewrite (same_inodes _ _ Hs) in Hi. by apply (Hsane m).
  - by rewrite <-(same_inodes _ _ Hs).
  - exists n. cbn. by rewrite (same_names _ _ Hs).
Qed.

Lemma persist_now dir now before p n :
  now !! p = Some n → p_dir p = dir → persist dir now before !! p = Some n.
Proof.
  intros Hp Hd. unfold persist. apply lookup_union_Some_l. by apply map_lookup_filter_Some.
Qed.

(** Synchronizing a directory keeps links, and links what it names now. *)
Lemma sync_directory_spec P dir d r d' :
  sync_all_directory dir d = (r, d') → sane d →
  preserves P d d' ∧ sane d' ∧ d_inodes d' = d_inodes d ∧ d_names d' = d_names d ∧
  (is_ok r = true → ∀ p n, d_names d !! p = Some n → p_dir p = dir → linked d' n).
Proof.
  unfold sync_all_directory, st_bind. intros Hc Hsane.
  destruct (io (λ d, (ensure (bool_decide (dir ≠ [])) NotFound, d)) d) as [r1 d1] eqn:H1.
  assert (same_files d d1) as Hs1.
  { io_cases H1 d2 Hs2; [done|]. by injection H1 as _ <-. }
  destruct r1 as [u|e]; [|injection Hc as <- <-; split_and!;
    [by apply same_files_preserves|by eapply same_files_sane|by apply Hs1|by apply Hs1|done]].
  io_cases Hc d2 Hs2.
  { pose proof (same_files_trans _ _ _ Hs1 Hs2) as Hs. split_and!;
    [by apply same_files_preserves|by eapply same_files_sane|by apply Hs|by apply Hs|done]. }
  injection Hc as <- <-. pose proof (same_files_trans _ _ _ Hs1 Hs2) as Hs.
  rewrite (same_inodes _ _ Hs), (same_names _ _ Hs), (same_pending _ _ Hs).
  split_and!; try done.
  - split; [intros n i Hi; by exists i|]. intros n (dir' & Hall). exists dir'. cbn.
    apply Forall_cons in Hall as [(p & Hp & Hd) Hall]. apply Forall_cons.
    split; [by exists p|]. apply Forall_map. eapply Forall_impl; [exact Hall|].
    cbn. intros m (q & Hq & Hqd). destruct (decide (dir' = dir)) as [->|Hne].
    + exists p. split; [by apply persist_now|done].
    + exists q. split; [|done]. unfold persist. apply lookup_union_Some_r.
      * apply map_disjoint_spec. intros k x y Hx Hy. apply map_lookup_filter_Some in Hx as [_ Hx], Hy as [_ Hy].
        done.
      * apply map_lookup_filter_Some. split; [done|]. cbn. congruence.
  - intros _ p n Hp Hd. exists dir. cbn. apply Forall_cons. split; [by exists p|].
    apply Forall_map, Forall_true. intros m. exists p. split; [|done]. by apply persist_now.
Qed.

(** ** Crashes *)

Lemma crash_durable d d' n i :
  crash d d' → d_inodes d !! n = Some i →
  ∃ i', d_inodes d' !! n = Some i' ∧ ∀ p, durable i p → durable i' p.
Proof.
  intros Hc Hi. destruct Hc as [d names inodes faults _ Hsurv].
  destruct (Forall2_lookup_l _ _ _ _ _ Hsurv Hi) as (i' & Hi' & Hsync & _ & Hp & _).
  exists i'. split; [done|]. intros p [H1 H2]. specialize (Hp p H1 H2).
  split; [done|by rewrite Hsync].
Qed.
Lemma crash_linked d d' n : crash d d' → linked d n → linked d' n.
Proof.
  intros Hc (dir & Hall). destruct Hc as [d names inodes faults Hn _].
  exists dir. cbn. apply Forall_singleton. rewrite Forall_forall in Hall. by apply Hall.
Qed.
Lemma crash_preserves P d d' : crash d d' → preserves P d d'.
Proof.
  intros Hc. split; [|intros n; by apply crash_linked].
  intros n i Hi. destruct (crash_durable _ _ _ _ Hc Hi) as (i' & Hi' & Hd). exists i'. auto.
Qed.
Lemma crash_sane d d' : crash d d' → sane d'.
Proof.
  intros [d0 names inodes faults _ Hsurv] n i Hi. cbn in Hi.
  by destruct (Forall2_lookup_r _ _ _ _ _ Hsurv Hi) as (i0 & _ & _ & Hmax & _).
Qed.

(** ** Reasoning about stateful operations *)

(** From states in [P], [m] succeeds into [Q] or fails into [X]. *)
Definition triple {S E A} (P : S → Prop) (m : ST S E A) (Q : A → S → Prop) (X : S → Prop) : Prop :=
  ∀ s, P s → match m s with (Ok a, s') => Q a s' | (Err _, s') => X s' end.

Section Triples.
Context {S E : Type}.
Implicit Types (P X : S → Prop).

Lemma triple_bind {A B} P R X (Q : B → S → Prop) (m : ST S E A) k :
  triple P m R X → (∀ a, triple (R a) (k a) Q X) → triple P (st_bind m k) Q X.
Proof.
  intros Hm Hk s Hs. specialize (Hm s Hs). unfold st_bind.
  destruct (m s) as [[a|e] s']; [by apply Hk|done].
Qed.
Lemma triple_ret {A} P X (Q : A → S → Prop) (a : A) :
  (∀ s, P s → Q a s) → triple P (st_ret (E:=E) a) Q X.
Proof. intros HQ s Hs. by apply HQ. Qed.
Lemma triple_lift {A} P X (r : result E A) :
  (∀ s, P s → X s) → triple P (st_lift r) (λ a s, P s ∧ r = Ok a) X.
Proof. intros HX s Hs. unfold st_lift. destruct r; auto. Qed.
Lemma triple_get {A} P X (f : S → A) : triple P (st_get (E:=E) f) (λ a s, P s ∧ f s = a) X.
Proof. intros s Hs. done. Qed.
Lemma triple_conseq {A} P P' X X' (Q Q' : A → S → Prop) (m : ST S E A) :
  triple P' m Q' X' → (∀ s, P s → P' s) → (∀ a s, Q' a s → Q a s) → (∀ s, X' s → X s) →
  triple P m Q X.
Proof.
  intros Hm HP HQ HX s Hs. specialize (Hm s (HP s Hs)). destruct (m s) as [[a|e] s']; auto.
Qed.
End Triples.
End DiskSpec.
