(* ===== verification/Store.v ===== *)
(** * Writing chunk files: [reflink-forest-store/src/lib.rs]

    The chunk writer, its lifecycle (create, append, index, seal, recover,
    reconcile) and the rotating writer, over the disk and any catalog. *)

From Stdlib Require Import ZArith Lia Strings.Byte Strings.String.
From stdpp Require Import base tactics list gmap strings.
From S2P Require Import Prelude Crc Core Format Codec CatalogCodec Catalog Chunk Disk.
Import Core Format Codec CatalogCodec Catalog Chunk Disk.

#[local] Open Scope Z_scope.

Module Store.

(** ** Paths *)

Definition is_open_path (p : Path) : bool := bool_decide (p_ext p = Some "open"%string).
Definition is_sealed_path (p : Path) : bool := bool_decide (p_ext p = Some "sealed"%string).
Definition with_extension (p : Path) (e : string) : Path := mkPath (p_dir p) (p_stem p) (Some e).
Definition sealed_path_for (open_path : Path) : result StoreError Path :=
  _ ← ensure (is_open_path open_path) NotAnOpenChunk;
  Ok (with_extension open_path "sealed").
Definition chunk_path_pair (p : Path) : result StoreError (Path * Path) :=
  if is_open_path p then Ok (p, with_extension p "sealed")
  else if is_sealed_path p then Ok (with_extension p "open", p)
  else Err NotAnOpenChunk.

(** [format!("{chunk_id:016x}.open")] joined to a directory. *)
Definition hex_digit (n : Z) : byte := byte_of_Z (if decide (n < 10) then 48 + n else 87 + n).
Fixpoint hex (digits : nat) (n : Z) : bytes :=
  match digits with
  | O => []
  | S k => hex k (n / 16) ++ [hex_digit (n mod 16)]
  end.
Definition open_chunk_path (directory : bytes) (chunk_id : Z) : Path :=
  mkPath directory (hex 16 chunk_id) (Some "open"%string).

(** ** State *)

(** The disk and the catalog the store works on. *)
Record Sys (C : Type) := mkSys { sys_disk : Disk; sys_catalog : C }.
Arguments mkSys {C}.
Arguments sys_disk {C}.
Arguments sys_catalog {C}.

Record RecordLocation := mkRecordLocation { rl_offset : Z; rl_record_length : Z }.

Record ChunkWriter := mkChunkWriter {
  cw_path : Path; cw_file : nat; cw_header : ChunkHeader;
  cw_next_offset : Z; cw_record_count : Z; cw_records_crc32c : Z }.

Record SealedChunk := mkSealedChunk {
  sl_path : Path; sl_header : ChunkHeader; sl_footer : SealedChunkFooter }.
Inductive ChunkReconciliation :=
| ReconciledOpen (r : Recovery)
| ReconciledSealed (s : SealedChunk).

Section Store.
Context `{Digests} `{Zstd} `{Catalog C}.

(** Store operations, and those that also change a writer. *)
Abbreviation IO := (ST (Sys C) StoreError).
Abbreviation WIO W := (ST (W * Sys C) StoreError).

Definition on_disk {A} (m : DiskIO A) : IO A := λ s,
  let '(r, d) := m (sys_disk s) in (map_err StoreIo r, mkSys d (sys_catalog s)).
Definition catalog_apply (b : CatalogBatch) : IO unit := λ s,
  let '(r, c) := apply (sys_catalog s) b in (map_err StoreCatalog r, mkSys (sys_disk s) c).
Definition lifted {A} (r : result StoreError A) : IO A := st_lift r.
Definition with_sys {W A} (m : IO A) : WIO W A := λ s,
  let '(r, sys) := m s.2 in (r, (s.1, sys)).

(** ** Catalog state of a chunk *)

Definition ensure_catalog_writable (header : ChunkHeader) : IO unit := λ s,
  (match chunk (sys_catalog s) (ch_generation header) (ch_chunk_id header) with
   | Some metadata =>
       if decide (cm_state metadata ≠ Open) then
         Err (CatalogChunkStateConflict (ch_generation header) (ch_chunk_id header) (cm_state metadata))
       else Ok ()
   | None => Ok ()
   end, s).

Definition publish_sealed_metadata (header : ChunkHeader) (footer : SealedChunkFooter) : IO unit :=
  state ⇐ st_get (λ s, chunk (sys_catalog s) (ch_generation header) (ch_chunk_id header));
  _ ⇐ lifted (match state with
              | Some metadata =>
                  if decide (cm_state metadata = Retired) then
                    Err (CatalogChunkStateConflict (ch_generation header) (ch_chunk_id header)
                           (cm_state metadata))
                  else Ok ()
              | None => Ok ()
              end);
  catalog_apply (put_chunk batch_new (ch_generation header) (ch_chunk_id header)
    (mkChunkMetadata Sealed (sf_final_length footer) (sf_record_count footer))).

Definition sync_directory (dir : bytes) : IO unit := on_disk (sync_all_directory dir).

(** ** [ChunkWriter] *)

Definition create (path : Path) (header : ChunkHeader) : IO ChunkWriter :=
  _ ⇐ lifted (ensure (is_open_path path) NotAnOpenChunk);
  file ⇐ on_disk (create_new path);
  _ ⇐ on_disk (write_at file 0 (ChunkHeader_encode header));
  _ ⇐ on_disk (sync_file file);
  _ ⇐ on_disk (sync_all_directory (p_dir path));
  st_ret (mkChunkWriter path file header CHUNK_HEADER_LEN 0 Crc.new).

(** [recover_file]: the scan reads the file; a shorter valid length truncates
    and synchronizes it. *)
Definition recover (file : nat) : IO Recovery :=
  contents ⇐ on_disk (read_file file);
  r ⇐ lifted (recover_file contents);
  _ ⇐ (if decide (rc_retained_bytes r.1 ≠ len contents) then
         _ ⇐ on_disk (set_len file (rc_retained_bytes r.1));
         on_disk (sync_file file)
       else st_ret ());
  st_ret r.1.

(** [verify_sealed_file(&mut file)] and its [is_ok()] and [if let Ok] uses. *)
Definition verify_sealed (file : nat) : IO VerifiedSealedChunk :=
  contents ⇐ on_disk (read_file file);
  lifted (verify_sealed_file contents).
Definition try_ok {A} (m : IO A) : IO (option A) := λ s,
  match m s with
  | (Ok a, s') => (Ok (Some a), s')
  | (Err _, s') => (Ok None, s')
  end.

Definition recover_open_chunk (path : Path) : IO Recovery :=
  file ⇐ on_disk (open_file path);
  sealed ⇐ try_ok (verify_sealed file);
  match sealed with
  | Some _ => lifted (Err OpenChunkContainsSealedFooter)
  | None => recover file
  end.

Definition open_recovered (path : Path) : IO (ChunkWriter * Recovery) :=
  _ ⇐ lifted (ensure (is_open_path path) NotAnOpenChunk);
  file ⇐ on_disk (open_file path);
  sealed ⇐ try_ok (verify_sealed file);
  match sealed with
  | Some _ => lifted (Err OpenChunkContainsSealedFooter)
  | None =>
      recovery ⇐ recover file;
      contents ⇐ on_disk (read_file file);
      st_ret (mkChunkWriter path file (rc_header recovery) (len contents)
                (rc_valid_records recovery) (rc_records_crc32c recovery), recovery)
  end.

Definition open_metadata (w : ChunkWriter) : ChunkMetadata :=
  mkChunkMetadata Open (cw_next_offset w) (cw_record_count w).

Definition publish_open (w : ChunkWriter) : IO unit :=
  _ ⇐ ensure_catalog_writable (cw_header w);
  catalog_apply (put_chunk batch_new (ch_generation (cw_header w)) (ch_chunk_id (cw_header w))
    (open_metadata w)).

Definition create_and_publish (path : Path) (header : ChunkHeader) : IO ChunkWriter :=
  writer ⇐ create path header;
  _ ⇐ publish_open writer;
  st_ret writer.

Definition advance (next : Z) (w : ChunkWriter) : ChunkWriter :=
  mkChunkWriter (cw_path w) (cw_file w) (cw_header w) next (cw_record_count w) (cw_records_crc32c w).
Definition count_record (count : Z) (w : ChunkWriter) : ChunkWriter :=
  mkChunkWriter (cw_path w) (cw_file w) (cw_header w) (cw_next_offset w) count (cw_records_crc32c w).
Definition checksum_record (encoded : bytes) (w : ChunkWriter) : ChunkWriter :=
  mkChunkWriter (cw_path w) (cw_file w) (cw_header w) (cw_next_offset w) (cw_record_count w)
    (Crc.update (cw_records_crc32c w) encoded).
Definition update_writer (f : ChunkWriter → ChunkWriter) : WIO ChunkWriter unit :=
  st_modify (λ s, (f s.1, s.2)).

Definition append (record : ObjectRecord) : WIO ChunkWriter RecordLocation :=
  _ ⇐ st_lift (map_err StoreCodec (verify_object_record record));
  encoded ⇐ st_lift (map_err StoreFormat (encode_record record));
  w ⇐ st_get fst;
  let offset := cw_next_offset w in
  _ ⇐ with_sys (on_disk (write_at (cw_file w) offset encoded));
  record_length ⇐ st_lift (ok_or (u64_try_from (len encoded)) OffsetOverflow);
  next ⇐ st_lift (ok_or (checked_add (cw_next_offset w) record_length) OffsetOverflow);
  _ ⇐ update_writer (advance next);
  count ⇐ st_lift (ok_or (checked_add (cw_record_count w) 1) OffsetOverflow);
  _ ⇐ update_writer (count_record count);
  _ ⇐ update_writer (checksum_record encoded);
  st_ret (mkRecordLocation offset record_length).

Definition sync_data (w : ChunkWriter) : IO unit := on_disk (sync_file (cw_file w)).

(** The batch that makes a new record visible. *)
Definition index_batch (repo : RepoId) (generation chunk_id : Z) (record : ObjectRecord)
    (location : RecordLocation) (stored_length : Z) (w : ChunkWriter) : CatalogBatch :=
  let batch := put_object_location batch_new (or_content_id record)
    (mkObjectLocation generation chunk_id (rl_offset location) (rl_record_length location)
       stored_length (or_raw_length record) (or_kind record) (or_codec record) (or_flags record)
       (Crc.crc32c (or_payload record))) in
  let batch := put_oid_alias batch repo (or_primary_oid record) (or_content_id record) in
  put_chunk batch generation chunk_id (open_metadata w).

Definition append_and_index (repo : RepoId) (generation chunk_id : Z) (record : ObjectRecord)
    : WIO ChunkWriter (option RecordLocation) :=
  w ⇐ st_get fst;
  _ ⇐ st_lift (ensure (bool_decide (ch_generation (cw_header w) = generation))
                      (LocationMismatch "generation"));
  _ ⇐ st_lift (ensure (bool_decide (ch_chunk_id (cw_header w) = chunk_id))
                      (LocationMismatch "chunk_id"));
  _ ⇐ with_sys (ensure_catalog_writable (cw_header w));
  present ⇐ st_get (λ s, object_location (sys_catalog s.2) (or_content_id record));
  match present with
  | None =>
      location ⇐ append record;
      w ⇐ st_get fst;
      _ ⇐ with_sys (sync_data w);
      stored_length ⇐ st_lift (ok_or (u64_try_from (len (or_payload record))) OffsetOverflow);
      _ ⇐ with_sys (catalog_apply
             (index_batch repo generation chunk_id record location stored_length w));
      st_ret (Some location)
  | Some _ =>
      _ ⇐ with_sys (catalog_apply
             (put_oid_alias batch_new repo (or_primary_oid record) (or_content_id record)));
      st_ret None
  end.

Definition seal_and_publish (w : ChunkWriter) : IO SealedChunk :=
  _ ⇐ ensure_catalog_writable (cw_header w);
  sealed_path ⇐ lifted (sealed_path_for (cw_path w));
  conflict ⇐ st_get (λ s, path_exists (sys_disk s) sealed_path);
  _ ⇐ lifted (ensure (negb conflict) (ConflictingChunkPaths (cw_path w)));
  final_length ⇐ lifted (ok_or (checked_add (cw_next_offset w) SEALED_CHUNK_FOOTER_LEN) OffsetOverflow);
  let footer := mkSealedChunkFooter (cw_record_count w) final_length
                  (Crc.finalize (cw_records_crc32c w)) in
  _ ⇐ sync_data w;
  _ ⇐ on_disk (write_at (cw_file w) (cw_next_offset w) (SealedChunkFooter_encode footer));
  _ ⇐ on_disk (sync_file (cw_file w));
  _ ⇐ on_disk (rename (cw_path w) sealed_path);
  _ ⇐ sync_directory (p_dir (cw_path w));
  _ ⇐ publish_sealed_metadata (cw_header w) footer;
  st_ret (mkSealedChunk sealed_path (cw_header w) footer).

(** ** Verification and reconciliation *)

Definition verify_sealed_chunk (path : Path) : IO SealedChunk :=
  _ ⇐ lifted (ensure (is_sealed_path path) NotASealedChunk);
  file ⇐ on_disk (open_file path);
  v ⇐ verify_sealed file;
  st_ret (mkSealedChunk path (vs_header v) (vs_footer v)).

Definition verify_chunk (path : Path) : IO Z :=
  if is_sealed_path path then
    sealed ⇐ verify_sealed_chunk path;
    st_ret (sf_record_count (sl_footer sealed))
  else
    _ ⇐ lifted (ensure (is_open_path path) NotAnOpenChunk);
    file ⇐ on_disk (open_file path);
    contents ⇐ on_disk (read_file file);
    _ ⇐ lifted (read_chunk_header contents);
    sealed ⇐ try_ok (verify_sealed file);
    match sealed with
    | Some verified => st_ret (sf_record_count (vs_footer verified))
    | None =>
        contents' ⇐ on_disk (read_file file);
        scan ⇐ lifted (scan_records contents' (len contents) true);
        st_ret (sc_records scan)
    end.

Definition reconcile_chunk (path : Path) : IO ChunkReconciliation :=
  '(open_path, sealed_path) ⇐ lifted (chunk_path_pair path);
  open_exists ⇐ st_get (λ s, path_exists (sys_disk s) open_path);
  sealed_exists ⇐ st_get (λ s, path_exists (sys_disk s) sealed_path);
  _ ⇐ lifted (ensure (negb (open_exists && sealed_exists)) (ConflictingChunkPaths open_path));
  if sealed_exists then
    sealed ⇐ verify_sealed_chunk sealed_path;
    _ ⇐ publish_sealed_metadata (sl_header sealed) (sl_footer sealed);
    st_ret (ReconciledSealed sealed)
  else
    file ⇐ on_disk (open_file open_path);
    sealed ⇐ try_ok (verify_sealed file);
    match sealed with
    | Some verified =>
        _ ⇐ on_disk (rename open_path sealed_path);
        _ ⇐ sync_directory (p_dir open_path);
        _ ⇐ publish_sealed_metadata (vs_header verified) (vs_footer verified);
        st_ret (ReconciledSealed (mkSealedChunk sealed_path (vs_header verified) (vs_footer verified)))
    | None =>
        contents ⇐ on_disk (read_file file);
        header ⇐ lifted (read_chunk_header contents);
        _ ⇐ ensure_catalog_writable header;
        recovery ⇐ recover file;
        '(writer, _) ⇐ open_recovered open_path;
        _ ⇐ publish_open writer;
        st_ret (ReconciledOpen recovery)
    end.

End Store.
End Store.
