(* ===== verification/WriterSpec.v ===== *)
(** * What the chunk writer keeps true

    The invariant of the cold store: every location in the catalog is backed by
    a complete record that any crash keeps. Every operation of the chunk writer
    and of reconciliation preserves it, whatever calls fail on the way. *)

From Stdlib Require Import ZArith Lia Strings.Byte Strings.String.
From stdpp Require Import base tactics list gmap strings.
From S2P Require Import Prelude Crc Core Format FormatSpec RecordSpec Codec CatalogCodec CatalogCodecSpec Catalog CatalogSpec RocksSpec CatalogInterface Chunk ChunkSpec RecoverySpec ReadSpec Disk DiskSpec Store.
Import Core Format FormatSpec RecordSpec Codec CatalogCodec CatalogCodecSpec Catalog CatalogSpec RocksSpec CatalogInterface Chunk ChunkSpec RecoverySpec ReadSpec Disk DiskSpec Store.

#[local] Open Scope Z_scope.

Module WriterSpec.

Section Writer.
Context `{Digests} `{Zstd} `{CatalogLaws C}.
Implicit Types (s : Sys C) (f : View) (home : ContentId → nat).

(** ** The invariant *)

(** The start of a chunk, up to a record boundary. *)
Definition chunk_prefix (p : bytes) : Prop :=
  ∃ h rs, header_wf h ∧ Forall scannable rs ∧ p = open_layout h rs.

(** File [n] durably holds, under a durable name, the record of [id] that [l]
    describes, after complete records only. *)
Definition housed (d : Disk) (n : nat) (id : ContentId) (l : ObjectLocation) : Prop :=
  ∃ i h rs r, d_inodes d !! n = Some i ∧ linked d n ∧ header_wf h ∧ Forall scannable (rs ++ [r]) ∧
    durable i (open_layout h (rs ++ [r])) ∧
    l = location_of (ch_generation h) (ch_chunk_id h) (64 + sizes rs) r ∧
    or_content_id r = id ∧ verified r.

Record inv f home s : Prop := {
  inv_view : holds_view (sys_catalog s) f;
  inv_housed id l : f (KObject id) = Some (VLocation l) → housed (sys_disk s) (home id) id l;
  inv_sane : sane (sys_disk s) }.

(** The locations in file [n] end before [k]. *)
Definition within f home (n : nat) (k : Z) : Prop := ∀ id l,
  f (KObject id) = Some (VLocation l) → home id = n → ol_offset l + ol_record_length l ≤ k.

Record writer_ok f home (w : ChunkWriter) (rs : list ObjectRecord) s : Prop := {
  wo_header : header_wf (cw_header w);
  wo_records : Forall scannable rs;
  wo_file : ∃ i, d_inodes (sys_disk s) !! cw_file w = Some i ∧
                 open_layout (cw_header w) rs `prefix_of` i_data i;
  wo_linked : linked (sys_disk s) (cw_file w);
  wo_offset : cw_next_offset w = 64 + sizes rs;
  wo_count : cw_record_count w = Z.of_nat (length rs);
  wo_crc : cw_records_crc32c w = Crc.update Crc.new (records_layout rs);
  wo_within : within f home (cw_file w) (cw_next_offset w) }.

(** The prefixes an operation must keep that leaves the first [k] bytes of
    file [n] and every other file alone. *)
Definition kept (n : nat) (k : Z) (m : nat) (p : bytes) : Prop :=
  chunk_prefix p ∧ (m = n → len p ≤ k).

Lemma len_open_layout h rs : len (open_layout h rs) = 64 + sizes rs.
Proof. apply length_open_layout. Qed.
Lemma sizes_snoc rs r : record_wf r → sizes (rs ++ [r]) = sizes rs + size r.
Proof.
  intros Hr. rewrite sizes_app, sizes_cons by done.
  assert (sizes [] = 0) as -> by done. lia.
Qed.

Lemma housed_kept n k d d' m id l :
  housed d m id l → preserves (kept n k) d d' →
  (m = n → ol_offset l + ol_record_length l ≤ k) → housed d' m id l.
Proof.
  intros (i & h & rs & r & Hi & Hl & Hh & Hall & Hd & -> & Hid & Hv) [Hp Hlink] Hk.
  destruct (Hp m i Hi) as (i' & Hi' & Hd').
  exists i', h, rs, r. split_and!; try done; [by apply Hlink|].
  apply Hd'; [|done]. split; [by exists h, (rs ++ [r])|]. intros Hm. specialize (Hk Hm).
  apply Forall_app in Hall as [_ [(Hr & _) _]%Forall_cons].
  rewrite len_open_layout, sizes_snoc by done. cbn [location_of ol_offset ol_record_length] in Hk. lia.
Qed.

Lemma inv_disk f home s n k d' :
  inv f home s → preserves (kept n k) (sys_disk s) d' → within f home n k → sane d' →
  inv f home (mkSys d' (sys_catalog s)).
Proof.
  intros [Hv Hh Hs] Hp Hw Hs'. split; [done| |done].
  intros id l Hl. cbn. apply (housed_kept n k (sys_disk s)); [by apply Hh|done|].
  intros Hn. by apply (Hw id l).
Qed.

(** A batch that writes no location keeps the invariant, applied or not. *)
Lemma apply_neutral f home s b :
  inv f home s → Forall op_wf b → (∀ g id, batch_effect g b (KObject id) = g (KObject id)) →
  match catalog_apply b s with
  | (r, s') => sys_disk s' = sys_disk s ∧ ∃ f', inv f' home s' ∧
      (∀ id, f' (KObject id) = f (KObject id)) ∧ (is_ok r = true → same f' (batch_effect f b))
  end.
Proof.
  intros [Hv Hh Hs] Hwf Hn. unfold catalog_apply.
  pose proof (view_apply (sys_catalog s) f b Hv Hwf) as Ha.
  destruct (apply (sys_catalog s) b) as [[u|e] c']; split; try done.
  - destruct Ha as (_ & f' & Hv' & Hf'). exists f'.
    assert (∀ id, f' (KObject id) = f (KObject id)) as Heq by (intros id; by rewrite (Hf' _), Hn).
    split_and!; try done. split; [done| |done]. intros id l. rewrite Heq. apply Hh.
  - destruct Ha as (f' & Hv' & Hf'). exists f'.
    assert (∀ id, f' (KObject id) = f (KObject id)) as Heq.
    { intros id. destruct Hf' as [Hf'|Hf']; rewrite (Hf' _); [done|by rewrite Hn]. }
    split_and!; try done. split; [done| |done]. intros id l. rewrite Heq. apply Hh.
Qed.
Lemma within_same f f' home n k :
  (∀ id, f' (KObject id) = f (KObject id)) → within f home n k → within f' home n k.
Proof. intros Heq Hw id l. rewrite Heq. apply Hw. Qed.

(** A writer stays a writer while its prefix, its link and its locations do. *)
Lemma writer_disk f f' home w rs s d' c' :
  writer_ok f home w rs s → (∀ id, f' (KObject id) = f (KObject id)) →
  (∀ n, linked (sys_disk s) n → linked d' n) →
  (∃ i, d_inodes d' !! cw_file w = Some i ∧ open_layout (cw_header w) rs `prefix_of` i_data i) →
  writer_ok f' home w rs (mkSys d' c').
Proof.
  intros [] Heq Hl Hi. split; try done; [by apply Hl|]. by apply (within_same f).
Qed.

Lemma scannable_count rs : Forall scannable rs → Z.of_nat (length rs) ≤ sizes rs.
Proof.
  intros Hall. eapply (sizes_count (open_layout (mkChunkHeader 0 0 0 0) rs ++ []) 64 (64 + sizes rs)).
  apply open_layout_holds; [done|lia].
Qed.
Lemma writer_count f home w rs s : writer_ok f home w rs s → Z.of_nat (length rs) ≤ sizes rs.
Proof. intros Hw. apply scannable_count, Hw. Qed.

(** ** Appending *)

Lemma scannable_fits r : record_wf r → size r ≤ MAX_RECOVERY_RECORD_BYTES → scannable r.
Proof.
  intros Hr Hs. split_and!; try done. pose proof (size_bounds r).
  unfold fits, MAX_RECOVERY_RECORD_BYTES, u64_max, len in *. lia.
Qed.
Lemma open_layout_snoc h rs r : open_layout h (rs ++ [r]) = open_layout h rs ++ record_layout r.
Proof.
  unfold open_layout. rewrite records_layout_app, app_assoc. f_equal.
  rewrite records_layout_cons. apply app_nil_r.
Qed.

Definition appended (w : ChunkWriter) (r : ObjectRecord) : ChunkWriter :=
  checksum_record (record_layout r) (count_record (cw_record_count w + 1)
    (advance (cw_next_offset w + size r) w)).

(** The write of [append]: it keeps the invariant, and the records it follows. *)
Lemma append_write f home w rs s r :
  inv f home s → writer_ok f home w rs s → record_wf r →
  match write_at (cw_file w) (cw_next_offset w) (record_layout r) (sys_disk s) with
  | (res, d') =>
      inv f home (mkSys d' (sys_catalog s)) ∧ writer_ok f home w rs (mkSys d' (sys_catalog s)) ∧
      (is_ok res = true → 64 + sizes rs + size r ≤ MAX_FILE_BYTES ∧
         ∃ i', d_inodes d' !! cw_file w = Some i' ∧ open_layout (cw_header w) (rs ++ [r]) `prefix_of` i_data i')
  end.
Proof.
  intros Hinv Hw Hr. pose proof (wo_offset _ _ _ _ _ Hw) as Hoff. pose proof (sizes_nonneg rs).
  destruct (write_at _ _ _ _) as [res d'] eqn:Hwr.
  apply (write_at_spec (kept (cw_file w) (cw_next_offset w))) in Hwr as
    (Hp & Hs & Hn & Hpend & Hi); [|lia|by apply Hinv|intros p [_ Hk]; by apply Hk].
  destruct (wo_file _ _ _ _ _ Hw) as (i & Hlk & Hpre). destruct (Hi i Hlk) as (i' & Hlk' & _ & Hres).
  assert (open_layout (cw_header w) rs `prefix_of` i_data i' ∧ (is_ok res = true →
    64 + sizes rs + size r ≤ MAX_FILE_BYTES ∧
    open_layout (cw_header w) (rs ++ [r]) `prefix_of` i_data i')) as [Hpre' Hok].
  { destruct res as [u|e].
    - destruct Hres as [Hd Hmax]. rewrite len_layout in Hmax by done.
      destruct Hpre as [junk Hj]. rewrite Hd, Hj, Hoff.
      replace (Z.to_nat (64 + sizes rs)) with (length (open_layout (cw_header w) rs))
        by (pose proof (length_open_layout (cw_header w) rs); lia).
      rewrite patch_at. split; [by eexists|]. intros _. split; [lia|].
      rewrite open_layout_snoc. exists (drop (length (record_layout r)) junk). by rewrite <-app_assoc.
    - split; [|done]. apply Hres; [done|]. rewrite len_open_layout. lia. }
  split_and!.
  - apply (inv_disk _ _ _ (cw_file w) (cw_next_offset w)); try done. apply Hw.
  - apply (writer_disk f f home w rs s); [done|done|apply Hp|]. by exists i'.
  - intros Hok'. destruct (Hok Hok') as [Hmax Hpre2]. split; [done|]. by exists i'.
Qed.

Lemma writer_appended f home w rs s r i :
  writer_ok f home w rs s → scannable r → d_inodes (sys_disk s) !! cw_file w = Some i →
  open_layout (cw_header w) (rs ++ [r]) `prefix_of` i_data i →
  writer_ok f home (appended w r) (rs ++ [r]) s.
Proof.
  intros Hw Hr Hi Hp. pose proof Hr as (Hrw & _). pose proof (size_pos r). destruct Hw as [? ? ? ? Hoff ? Hcrc Hwi].
  split; cbn [appended cw_header cw_file cw_next_offset cw_record_count cw_records_crc32c
    checksum_record count_record advance]; try done.
  - apply Forall_app. split; [done|]. by constructor.
  - by exists i.
  - rewrite sizes_snoc by done. lia.
  - rewrite length_app. cbn. lia.
  - rewrite records_layout_app, Crc.update_app, <-Hcrc. f_equal.
    rewrite records_layout_cons. symmetry. apply app_nil_r.
  - intros id l Hl Hn. specialize (Hwi id l Hl Hn). lia.
Qed.

Lemma append_spec f home w rs s r :
  inv f home s → writer_ok f home w rs s → record_wf r → size r ≤ MAX_RECOVERY_RECORD_BYTES →
  match append r (w, s) with
  | (res, (w', s')) =>
      sys_catalog s' = sys_catalog s ∧ inv f home s' ∧
      match res with
      | Ok loc => verified r ∧ loc = mkRecordLocation (64 + sizes rs) (size r) ∧ w' = appended w r ∧
                  64 + sizes rs + size r ≤ MAX_FILE_BYTES ∧ writer_ok f home w' (rs ++ [r]) s'
      | Err _ => w' = w ∧ writer_ok f home w rs s'
      end
  end.
Proof.
  intros Hinv Hw Hr Hm. pose proof (scannable_fits r Hr Hm) as Hscan.
  pose proof Hscan as (_ & Hf & _). pose proof (size_pos r). pose proof (sizes_nonneg rs).
  pose proof (append_write f home w rs s r Hinv Hw Hr) as Hwr.
  unfold append, st_bind, st_lift, st_get, with_sys, on_disk, update_writer, st_modify.
  destruct (verify_object_record r) as [[]|e] eqn:Hv; cbn [map_err]; [|done].
  rewrite encode_record_layout by done. cbn [map_err fst snd].
  destruct (write_at _ _ _ _) as [[u|e] d']; cbn [map_err fst snd]; destruct Hwr as (Hi & Hw' & Hok); [|done].
  destruct (Hok eq_refl) as (Hmax & i' & Hlk & Hpre).
  pose proof (wo_offset _ _ _ _ _ Hw) as Hoff. pose proof (wo_count _ _ _ _ _ Hw) as Hcnt.
  pose proof (writer_count _ _ _ _ _ Hw) as Hcs.
  rewrite len_layout, u64_try_from_Some by (done || unfold MAX_FILE_BYTES, u64_max in *; lia).
  cbn [ok_or]. rewrite !checked_add_Some by (unfold MAX_FILE_BYTES, u64_max in *; lia). cbn [ok_or].
  fold (advance (cw_next_offset w + size r) w). rewrite Hoff. split_and!; try done.
  - cbn [fst snd]. rewrite <-Hoff. done.
  - fold (appended w r). rewrite <-Hoff. by apply (writer_appended f home w rs _ r i').
Qed.

(** ** Indexing *)

Lemma location_of_wf h o r :
  header_wf h → scannable r → 0 ≤ o → o + size r ≤ MAX_FILE_BYTES →
  location_wf (location_of (ch_generation h) (ch_chunk_id h) o r).
Proof.
  intros (Hg & Hc & _) ((Hf & Hraw & _) & [Hs0 _] & _) Ho Hmax. pose proof (size_bounds r).
  unfold location_wf, location_of.
  cbn [ol_generation ol_chunk_id ol_offset ol_record_length ol_stored_length ol_raw_length ol_flags
    ol_payload_crc32c].
  unfold MAX_FILE_BYTES, in_width in *. split_and!; try lia; apply Crc.crc32c_range.
Qed.

Lemma open_metadata_wf f home w rs s :
  writer_ok f home w rs s → inv f home s → chunk_metadata_wf (open_metadata w).
Proof.
  intros Hw Hinv. destruct (wo_file _ _ _ _ _ Hw) as (i & Hi & [tail Ht]).
  pose proof (inv_sane _ _ _ Hinv _ _ Hi) as Hs. pose proof (sizes_nonneg rs).
  pose proof (writer_count _ _ _ _ _ Hw) as Hcs.
  rewrite Ht in Hs. unfold len in Hs. rewrite length_app, Nat2Z.inj_add, length_open_layout in Hs.
  unfold chunk_metadata_wf, open_metadata, in_width, MAX_FILE_BYTES in *. cbn.
  rewrite (wo_offset _ _ _ _ _ Hw), (wo_count _ _ _ _ _ Hw). lia.
Qed.

(** The location a successful append indexes. *)
Definition indexed_at (w : ChunkWriter) (rs : list ObjectRecord) (r : ObjectRecord) : ObjectLocation :=
  location_of (ch_generation (cw_header w)) (ch_chunk_id (cw_header w)) (64 + sizes rs) r.

Lemma batch_effect_index f id l repo oid g n m id' :
  batch_effect f [OpObjectLocation id l; OpOidAlias repo oid id; OpChunkMetadata g n m] (KObject id') =
    if decide (id' = id) then Some (VLocation l) else f (KObject id').
Proof.
  unfold batch_effect. cbn [fold_left]. unfold write_effect. cbn [op_write fst snd].
  rewrite decide_False by done. rewrite decide_False by done.
  destruct (decide (id' = id)) as [->|Hne]; [by rewrite decide_True|].
  rewrite decide_False; [done|congruence].
Qed.

Definition index_ops (w : ChunkWriter) (rs : list ObjectRecord) (r : ObjectRecord) (repo : RepoId)
    : CatalogBatch :=
  [OpObjectLocation (or_content_id r) (indexed_at w rs r);
   OpOidAlias repo (or_primary_oid r) (or_content_id r);
   OpChunkMetadata (ch_generation (cw_header w)) (ch_chunk_id (cw_header w)) (open_metadata (appended w r))].

Lemma index_batch_eq w rs r repo :
  index_batch repo (ch_generation (cw_header w)) (ch_chunk_id (cw_header w)) r
    (mkRecordLocation (64 + sizes rs) (size r)) (len (or_payload r)) (appended w r) =
  index_ops w rs r repo.
Proof. done. Qed.

(** Publishing the location of a synchronized record keeps the invariant. *)
Section Index.
Context (f : View) (home : ContentId → nat) (w : ChunkWriter) (rs : list ObjectRecord) (s : Sys C)
  (r : ObjectRecord) (i : Inode) (repo : RepoId).
Context (Hinv : inv f home s) (Hw : writer_ok f home (appended w r) (rs ++ [r]) s)
  (Hv : verified r) (Hrepo : RepoId_wf repo) (Hoff : cw_next_offset w = 64 + sizes rs)
  (Hmax : 64 + sizes rs + size r ≤ MAX_FILE_BYTES)
  (Hi : d_inodes (sys_disk s) !! cw_file w = Some i) (Hsync : i_synced i = i_data i).

Lemma index_scannable : scannable r.
Proof. by pose proof (wo_records _ _ _ _ _ Hw) as [_ [Hscan _]%Forall_cons]%Forall_app. Qed.

Lemma index_wf : Forall op_wf (index_ops w rs r repo).
Proof.
  pose proof index_scannable as Hscan. pose proof Hscan as ((_ & _ & Hc & Ho) & _).
  pose proof (wo_header _ _ _ _ _ Hw) as Hh. pose proof Hh as (Hg & Hci & _).
  pose proof (open_metadata_wf _ _ _ _ _ Hw Hinv) as Hm. pose proof (sizes_nonneg rs).
  unfold index_ops. rewrite !Forall_cons. split_and!; try done.
  - split; [done|]. intros v [= <-]. apply location_of_wf; try done; lia.
  - split; [done|]. by intros v [= <-].
  - split; [done|]. by intros v [= <-].
Qed.

Lemma index_housed : housed (sys_disk s) (cw_file w) (or_content_id r) (indexed_at w rs r).
Proof.
  destruct (wo_file _ _ _ _ _ Hw) as (i2 & Hi2 & Hp2). cbn in Hi2, Hp2.
  rewrite Hi in Hi2. injection Hi2 as <-.
  exists i, (cw_header w), rs, r. split_and!; try done; try apply Hw. split; [done|]. by rewrite Hsync.
Qed.

Lemma index_effect f' c' :
  holds_view c' f' → same f' (batch_effect f (index_ops w rs r repo)) →
  ∃ home', inv f' home' (mkSys (sys_disk s) c') ∧
    writer_ok f' home' (appended w r) (rs ++ [r]) (mkSys (sys_disk s) c').
Proof.
  intros Hv' Hf'. exists (λ id, if decide (id = or_content_id r) then cw_file w else home id).
  assert (∀ id, f' (KObject id) = if decide (id = or_content_id r) then Some (VLocation (indexed_at w rs r))
    else f (KObject id)) as Heq by (intros id; rewrite (Hf' _); apply batch_effect_index).
  split.
  - split; [done| |apply Hinv]. intros id l. rewrite Heq. cbn [sys_disk].
    destruct (decide (id = or_content_id r)) as [->|Hne]; [intros [= <-]; apply index_housed|].
    apply Hinv.
  - destruct Hw as [? ? ? ? Ho ? ? Hwi]. split; try done. intros id l. rewrite Heq.
    destruct (decide (id = or_content_id r)) as [->|Hne]; [|apply Hwi].
    intros [= <-] _. cbn [appended indexed_at location_of ol_offset ol_record_length cw_next_offset
      checksum_record count_record advance]. lia.
Qed.

Lemma index_step :
  match catalog_apply (index_ops w rs r repo) s with
  | (res, s') => ∃ f' home', inv f' home' s' ∧ writer_ok f' home' (appended w r) (rs ++ [r]) s' ∧
      (is_ok res = true → same f' (batch_effect f (index_ops w rs r repo)))
  end.
Proof.
  unfold catalog_apply.
  pose proof (view_apply (sys_catalog s) f _ (inv_view _ _ _ Hinv) index_wf) as Ha.
  destruct (apply (sys_catalog s) _) as [[u|e] c']; cbn [map_err is_ok].
  - destruct Ha as (_ & f' & Hv' & Hf'). destruct (index_effect f' c' Hv' Hf') as (home' & ? & ?). eauto.
  - destruct Ha as (f' & Hv' & [Hf'|Hf']).
    + exists f', home. split_and!; [|by apply (writer_disk f f' home _ _ s); try done; apply Hw|done].
      split; [done| |apply Hinv]. intros id l. rewrite (Hf' _). apply Hinv.
    + destruct (index_effect f' c' Hv' Hf') as (home' & ? & ?). eauto.
Qed.
End Index.

(** A batch that only binds an alias. *)
Lemma alias_only g repo oid id id' :
  batch_effect g [OpOidAlias repo oid id] (KObject id') = g (KObject id').
Proof. done. Qed.

(** [append_and_index] keeps the invariant and the writer, however it ends;
    [rs'] are the records the writer then stands after. *)
Lemma append_and_index_spec f home w rs s r repo g c :
  inv f home s → writer_ok f home w rs s → record_wf r → size r ≤ MAX_RECOVERY_RECORD_BYTES →
  RepoId_wf repo →
  match append_and_index repo g c r (w, s) with
  | (res, (w', s')) => ∃ f' home' rs', inv f' home' s' ∧ writer_ok f' home' w' rs' s' ∧
      match res with
      | Ok (Some loc) =>
          g = ch_generation (cw_header w) ∧ c = ch_chunk_id (cw_header w) ∧
          verified r ∧ loc = mkRecordLocation (64 + sizes rs) (size r) ∧
          rs' = rs ++ [r] ∧ w' = appended w r ∧ same f' (batch_effect f (index_ops w rs r repo)) ∧
          object_location (sys_catalog s) (or_content_id r) = None
      | Ok None =>
          rs' = rs ∧ w' = w ∧ is_Some (object_location (sys_catalog s) (or_content_id r)) ∧
          same f' (batch_effect f [OpOidAlias repo (or_primary_oid r) (or_content_id r)])
      | Err _ => (w' = w ∧ rs' = rs) ∨
          (w' = appended w r ∧ rs' = rs ++ [r] ∧
           object_location (sys_catalog s) (or_content_id r) = None)
      end
  end.
Proof.
  intros Hinv Hw Hr Hm Hrepo. pose proof (append_spec f home w rs s r Hinv Hw Hr Hm) as Hap.
  unfold append_and_index, st_bind at 1, st_get. cbn [fst].
  unfold st_bind at 1, st_lift at 1. case_bool_decide as Hg; cbn [ensure]; [|by eauto 10].
  unfold st_bind at 1, st_lift at 1. case_bool_decide as Hc; cbn [ensure]; [|by eauto 10].
  unfold st_bind at 1, with_sys at 1, ensure_catalog_writable. cbn [fst snd].
  destruct (match chunk _ _ _ with Some _ => _ | None => _ end) as [u|e]; [|by eauto 10].
  unfold st_bind at 1. cbn [fst snd].
  destruct (object_location (sys_catalog s) (or_content_id r)) as [l|] eqn:Hloc.
  - unfold st_bind, with_sys. cbn [fst snd]. pose proof Hr as (_ & _ & Hcid & Hoid).
    pose proof (apply_neutral f home s [OpOidAlias repo (or_primary_oid r) (or_content_id r)] Hinv) as Hn.
    destruct (catalog_apply _ s) as [res s'] eqn:Hca.
    destruct Hn as (Hd & f' & Hinv' & Heq & Hok); [|done|].
    { apply Forall_singleton. split; [done|]. by intros v [= <-]. }
    assert (writer_ok f' home w rs s') as Hw'.
    { destruct s' as [d' c']. cbn in Hd. subst d'. apply (writer_disk f f' home w rs s); try done. apply Hw. }
    destruct res as [u'|e]; cbn; exists f', home, rs; [|by eauto 10].
    split_and!; try done. by apply Hok.
  - unfold st_bind at 1. destruct (append r (w, s)) as [[loc|e] [w1 s1]]; destruct Hap as (Hcat & Hinv1 & Hap).
    2: { destruct Hap as [-> Hap]. exists f, home, rs. eauto 10. }
    destruct Hap as (Hv & -> & -> & Hmax & Hw1). unfold st_bind, st_get, with_sys, st_lift. cbn [fst snd].
    unfold sync_data, on_disk. cbn [appended cw_file checksum_record count_record advance].
    destruct (sync_file (cw_file w) (sys_disk s1)) as [rsy d2] eqn:Hsy.
    apply (sync_file_spec (kept (cw_file w) (cw_next_offset (appended w r)))) in Hsy as
      (Hp & Hsane & _ & _ & Hi); [|by apply Hinv1].
    destruct (wo_file _ _ _ _ _ Hw1) as (i & Hlk & Hpre). destruct (Hi i Hlk) as (i2 & Hlk2 & Hd2 & Hsync).
    assert (inv f home (mkSys d2 (sys_catalog s1))) as Hinv2.
    { apply (inv_disk _ _ _ (cw_file w) (cw_next_offset (appended w r))); try done. apply Hw1. }
    assert (writer_ok f home (appended w r) (rs ++ [r]) (mkSys d2 (sys_catalog s1))) as Hw2.
    { apply (writer_disk f f home _ _ s1); try done; [apply Hp|]. exists i2. by rewrite Hd2. }
    destruct rsy as [u'|e]; cbn [map_err]; [|exists f, home, (rs ++ [r]); eauto 10].
    rewrite u64_try_from_Some by (pose proof (size_bounds r);
      unfold MAX_RECOVERY_RECORD_BYTES, u64_max in *; lia).
    cbn [ok_or]. subst g c. rewrite index_batch_eq.
    pose proof (index_step f home w rs (mkSys d2 (sys_catalog s1)) r i2 repo Hinv2 Hw2 Hv Hrepo
      (wo_offset _ _ _ _ _ Hw) Hmax Hlk2) as Hidx.
    destruct (catalog_apply _ _) as [res s3]. destruct Hidx as (f' & home' & ? & ? & Hok).
    { rewrite (Hsync eq_refl), Hd2. done. }
    destruct res as [u2|e]; cbn; exists f', home', (rs ++ [r]); [|by eauto 10].
    split_and!; try done. by apply Hok.
Qed.

(** ** Creating and publishing *)

Lemma within_fresh f home s n k :
  inv f home s → d_inodes (sys_disk s) !! n = None → within f home n k.
Proof.
  intros Hinv Hn id l Hl Hh. destruct (inv_housed _ _ _ Hinv _ _ Hl) as (i & _ & _ & _ & Hi & _).
  congruence.
Qed.

Lemma create_spec f home s p h :
  inv f home s → header_wf h →
  match create p h s with
  | (res, s') => inv f home s' ∧ sys_catalog s' = sys_catalog s ∧
      ∀ w, res = Ok w → cw_path w = p ∧ is_open_path p = true ∧ writer_ok f home w [] s' ∧
        d_names (sys_disk s') !! p = Some (cw_file w) ∧ cw_header w = h
  end.
Proof.
  intros Hinv Hh. unfold create, st_bind, lifted, st_lift, on_disk, st_ret.
  destruct (is_open_path p) eqn:Hop; cbn [ensure]; [|done].
  set (n := length (d_inodes (sys_disk s))).
  destruct (create_new p (sys_disk s)) as [r1 d1] eqn:E1.
  apply (create_new_spec (kept n 0)) in E1 as (Hp1 & Hs1 & Hr1); [|by apply Hinv].
  assert (within f home n 0) as Hfresh.
  { eapply within_fresh; [done|]. apply lookup_ge_None. unfold n. lia. }
  assert (inv f home (mkSys d1 (sys_catalog s))) as Hi1 by (by apply (inv_disk _ _ _ n 0)).
  destruct r1 as [m|e]; cbn [map_err sys_disk sys_catalog]; [|done]. destruct Hr1 as (-> & Hlk1 & Hn1). fold n in Hlk1, Hn1 |- *.
  cbn [sys_disk sys_catalog].
  destruct (write_at n 0 (ChunkHeader_encode h) d1) as [r2 d2] eqn:E2.
  apply (write_at_spec (kept n 0)) in E2 as (Hp2 & Hs2 & Hn2 & Hpe2 & Hd2); [|done|done|by intros q [_ Hk]; apply Hk].
  assert (inv f home (mkSys d2 (sys_catalog s))) as Hi2 by (by apply (inv_disk _ _ _ n 0 _ Hi1)).
  destruct (Hd2 _ Hlk1) as (i2 & Hlk2 & _ & Hdata2).
  destruct r2 as [u|e]; cbn [map_err sys_disk sys_catalog]; [|split_and!; done]. destruct Hdata2 as [Hdata2 _].
  destruct (sync_file n d2) as [r3 d3] eqn:E3.
  apply (sync_file_spec (kept n 0)) in E3 as (Hp3 & Hs3 & Hn3 & Hpe3 & Hd3); [|done].
  assert (inv f home (mkSys d3 (sys_catalog s))) as Hi3 by (by apply (inv_disk _ _ _ n 0 _ Hi2)).
  destruct (Hd3 _ Hlk2) as (i3 & Hlk3 & Hdata3 & _).
  destruct r3 as [u3|e]; cbn [map_err sys_disk sys_catalog]; [|done].
  destruct (sync_all_directory (p_dir p) d3) as [r4 d4] eqn:E4.
  apply (sync_directory_spec (kept n 0)) in E4 as (Hp4 & Hs4 & Hin4 & Hn4 & Hl4); [|done].
  assert (inv f home (mkSys d4 (sys_catalog s))) as Hi4 by (by apply (inv_disk _ _ _ n 0 _ Hi3)).
  assert (d_names d3 !! p = Some n) as Hname by (by rewrite Hn3, Hn2).
  destruct r4 as [u4|e]; cbn [map_err sys_disk sys_catalog]; [|done].
  split_and!; try done. intros w [= <-]. cbn [cw_path cw_file cw_header sys_disk].
  split_and!; try done; [|by rewrite Hn4].
  split; cbn [cw_header cw_file cw_next_offset cw_record_count cw_records_crc32c sys_disk]; try done.
  - exists i3. rewrite Hin4. split; [done|]. rewrite Hdata3, Hdata2. cbn [i_data].
    unfold open_layout. cbn [records_layout concat map]. rewrite app_nil_r.
    change (Z.to_nat 0) with (length (@nil byte)). rewrite <-(app_nil_r []), patch_at.
    cbn. by eexists.
  - apply (Hl4 eq_refl p n); done.
  - eapply within_fresh; [exact Hinv|]. apply lookup_ge_None. unfold n. lia.
Qed.

(** A chunk-state write. *)
Lemma chunk_only g n m f id : batch_effect f [OpChunkMetadata g n m] (KObject id) = f (KObject id).
Proof. done. Qed.
Lemma chunk_op_wf h m :
  header_wf h → chunk_metadata_wf m → Forall op_wf [OpChunkMetadata (ch_generation h) (ch_chunk_id h) m].
Proof.
  intros (Hg & Hc & _) Hm. apply Forall_singleton. split; [done|]. by intros v [= <-].
Qed.

Lemma writer_catalog f f' home w rs s s' :
  writer_ok f home w rs s → sys_disk s' = sys_disk s →
  (∀ id, f' (KObject id) = f (KObject id)) → writer_ok f' home w rs s'.
Proof.
  intros Hw Hd Heq. destruct s' as [d' c']. cbn in Hd. subst d'.
  apply (writer_disk f f' home w rs s); try done. apply Hw.
Qed.

(** A call that leaves the disk alone and writes no location. *)
Definition quiet (m : ST (Sys C) StoreError unit) : Prop := ∀ f home s, inv f home s →
  sys_disk (m s).2 = sys_disk s ∧ ∃ f', inv f' home (m s).2 ∧ ∀ id, f' (KObject id) = f (KObject id).

Lemma quiet_ensure h : quiet (ensure_catalog_writable h).
Proof. intros f home s Hinv. split; [done|]. by exists f. Qed.
Lemma quiet_apply b :
  Forall op_wf b → (∀ g id, batch_effect g b (KObject id) = g (KObject id)) → quiet (catalog_apply b).
Proof.
  intros Hwf Hn f home s Hinv. pose proof (apply_neutral f home s b Hinv Hwf Hn) as Ha.
  destruct (catalog_apply b s) as [r s']. destruct Ha as (Hd & f' & Hinv' & Heq & _). eauto.
Qed.
Lemma publish_sealed_spec f home s h ft :
  inv f home s → header_wf h → is_u64 (sf_final_length ft) → is_u64 (sf_record_count ft) →
  match publish_sealed_metadata h ft s with
  | (r, s') => sys_disk s' = sys_disk s ∧ ∃ f', inv f' home s' ∧
      (∀ id, f' (KObject id) = f (KObject id)) ∧
      (is_ok r = true → f' (KChunk (ch_generation h) (ch_chunk_id h)) =
         Some (VChunk (mkChunkMetadata Sealed (sf_final_length ft) (sf_record_count ft))))
  end.
Proof.
  intros Hinv Hh Hl Hc. unfold publish_sealed_metadata, st_bind, st_get, lifted, st_lift.
  destruct (match chunk _ _ _ with Some _ => _ | None => _ end) as [u|e]; [|split; [done|by exists f]].
  pose proof (apply_neutral f home s (put_chunk batch_new (ch_generation h) (ch_chunk_id h)
    (mkChunkMetadata Sealed (sf_final_length ft) (sf_record_count ft))) Hinv) as Ha.
  destruct (catalog_apply _ s) as [r s'].
  destruct Ha as (Hd & f' & Hinv' & Heq & Hok); [by apply chunk_op_wf|done|].
  split; [done|]. exists f'. split_and!; try done. intros Hr. rewrite (Hok Hr _).
  unfold batch_effect, put_chunk, batch_new. cbn [app fold_left]. unfold write_effect. cbn [op_write fst snd].
  by rewrite decide_True.
Qed.

Lemma publish_open_spec f home w rs s :
  inv f home s → writer_ok f home w rs s →
  match publish_open w s with
  | (_, s') => sys_disk s' = sys_disk s ∧ ∃ f', inv f' home s' ∧ writer_ok f' home w rs s'
  end.
Proof.
  intros Hinv Hw. unfold publish_open, st_bind, ensure_catalog_writable.
  destruct (match chunk _ _ _ with Some _ => _ | None => _ end) as [u|e]; [|split; [done|by exists f]].
  assert (quiet (catalog_apply (put_chunk batch_new (ch_generation (cw_header w)) (ch_chunk_id (cw_header w))
    (open_metadata w)))) as Hq.
  { apply quiet_apply; [|done]. apply chunk_op_wf; [apply Hw|]. by apply (open_metadata_wf f home w rs s). }
  specialize (Hq f home s Hinv). destruct (catalog_apply _ s) as [r s']. cbn in Hq.
  destruct Hq as (Hd & f' & Hinv' & Heq). split; [done|]. exists f'. split; [done|].
  by apply (writer_catalog f f' home w rs s).
Qed.

Lemma create_and_publish_spec f home s p h :
  inv f home s → header_wf h →
  match create_and_publish p h s with
  | (res, s') => ∃ f', inv f' home s' ∧
      ∀ w, res = Ok w → cw_path w = p ∧ is_open_path p = true ∧ writer_ok f' home w [] s' ∧
        d_names (sys_disk s') !! p = Some (cw_file w) ∧ cw_header w = h
  end.
Proof.
  intros Hinv Hh. pose proof (create_spec f home s p h Hinv Hh) as Hc.
  unfold create_and_publish, st_bind. destruct (create p h s) as [[w|e] s1];
    destruct Hc as (Hinv1 & _ & Hw); [|by exists f].
  destruct (Hw w eq_refl) as (Hpath & Hop & Hw1 & Hn & Hhd).
  pose proof (publish_open_spec f home w [] s1 Hinv1 Hw1) as Hp.
  destruct (publish_open w s1) as [[u|e] s2]; destruct Hp as (Hd & f' & Hinv2 & Hw2);
    exists f'; [|done].
  split; [done|]. intros w' [= <-]. by rewrite Hd.
Qed.

(** ** Sealing *)

Lemma footer_of_writer f home w rs s :
  writer_ok f home w rs s →
  mkSealedChunkFooter (cw_record_count w) (cw_next_offset w + SEALED_CHUNK_FOOTER_LEN)
    (Crc.finalize (cw_records_crc32c w)) = seal_footer rs.
Proof.
  intros Hw. rewrite (wo_offset _ _ _ _ _ Hw), (wo_count _ _ _ _ _ Hw), (wo_crc _ _ _ _ _ Hw).
  unfold seal_footer, SEALED_CHUNK_FOOTER_LEN. f_equal. lia.
Qed.

(** Everything [seal_and_publish] does to the disk up to the rename. *)
Lemma seal_write f home w rs s d0 :
  inv f home s → writer_ok f home w rs s → sys_disk s = d0 →
  match (_ ⇐ sync_file (cw_file w);
         _ ⇐ write_at (cw_file w) (cw_next_offset w) (SealedChunkFooter_encode (seal_footer rs));
         sync_file (cw_file w)) d0 with
  | (res, d') =>
      preserves (kept (cw_file w) (cw_next_offset w)) d0 d' ∧ sane d' ∧ d_names d' = d_names d0 ∧
      ∀ i, d_inodes d0 !! cw_file w = Some i → is_ok res = true →
        128 + sizes rs ≤ MAX_FILE_BYTES ∧ ∃ i', d_inodes d' !! cw_file w = Some i' ∧
          i_data i' = patch (Z.to_nat (64 + sizes rs)) (SealedChunkFooter_encode (seal_footer rs)) (i_data i) ∧
          i_synced i' = i_data i'
  end.
Proof.
  intros Hinv Hw <-. pose proof (wo_offset _ _ _ _ _ Hw) as Hoff. pose proof (sizes_nonneg rs).
  set (n := cw_file w). set (k := cw_next_offset w). unfold st_bind.
  destruct (sync_file n (sys_disk s)) as [r1 d1] eqn:E1.
  apply (sync_file_spec (kept n k)) in E1 as (Hp1 & Hs1 & Hn1 & _ & Hd1); [|apply Hinv].
  destruct r1 as [u1|e]; [|done].
  destruct (write_at n k (SealedChunkFooter_encode (seal_footer rs)) d1) as [r2 d2] eqn:E2.
  apply (write_at_spec (kept n k)) in E2 as (Hp2 & Hs2 & Hn2 & _ & Hd2);
    [|unfold k; lia|done|by intros p [_ Hk]; apply Hk].
  assert (preserves (kept n k) (sys_disk s) d2) as Hp12 by (by etransitivity).
  destruct r2 as [u2|e]; [|by split_and!; try done; rewrite Hn2].
  destruct (sync_file n d2) as [r3 d3] eqn:E3.
  apply (sync_file_spec (kept n k)) in E3 as (Hp3 & Hs3 & Hn3 & _ & Hd3); [|done].
  split_and!; [by etransitivity|done|by rewrite Hn3, Hn2|]. intros i Hi Hok.
  destruct (Hd1 i Hi) as (i1 & Hi1 & Hdat1 & _). destruct (Hd2 i1 Hi1) as (i2 & Hi2 & _ & Hdat2 & Hmax).
  destruct (Hd3 i2 Hi2) as (i3 & Hi3 & Hdat3 & Hsync). split.
  - unfold len, k in Hmax. rewrite length_SealedChunkFooter_encode, Hoff in Hmax. lia.
  - exists i3. rewrite (Hsync Hok), Hdat3, Hdat2, Hdat1. unfold k. by rewrite Hoff.
Qed.

Lemma sealed_path_dir p q : sealed_path_for p = Ok q → q = with_extension p "sealed" ∧ p_dir p = p_dir q.
Proof. unfold sealed_path_for. destruct (is_open_path p); cbn; [|done]. by intros [= <-]. Qed.

Lemma seal_spec f home w rs s :
  inv f home s → writer_ok f home w rs s →
  match seal_and_publish w s with
  | (res, s') => ∃ f', inv f' home s' ∧
      match res with
      | Err _ => True
      | Ok sc =>
          sc = mkSealedChunk (with_extension (cw_path w) "sealed") (cw_header w) (seal_footer rs) ∧
          128 + sizes rs ≤ MAX_FILE_BYTES ∧
          f' (KChunk (ch_generation (cw_header w)) (ch_chunk_id (cw_header w))) =
            Some (VChunk (mkChunkMetadata Sealed (128 + sizes rs) (Z.of_nat (length rs)))) ∧
          (∃ n, d_names (sys_disk s) !! cw_path w = Some n ∧
                d_names (sys_disk s') !! sl_path sc = Some n) ∧
          ∀ i, d_inodes (sys_disk s) !! cw_file w = Some i → ∃ i',
            d_inodes (sys_disk s') !! cw_file w = Some i' ∧
            i_data i' = patch (Z.to_nat (64 + sizes rs)) (SealedChunkFooter_encode (seal_footer rs)) (i_data i)
      end
  end.
Proof.
  intros Hinv Hw. unfold seal_and_publish.
  pose proof (seal_write f home w rs s (sys_disk s) Hinv Hw eq_refl) as Hsw.
  pose proof (wo_offset _ _ _ _ _ Hw) as Hoff. pose proof (sizes_nonneg rs).
  unfold st_bind at 1, ensure_catalog_writable.
  destruct (match chunk _ _ _ with Some _ => _ | None => _ end) as [u|e]; [|by exists f].
  unfold st_bind at 1, lifted, st_lift.
  destruct (sealed_path_for (cw_path w)) as [q|e] eqn:Hq; [|by exists f].
  apply sealed_path_dir in Hq as [Hq Hdir].
  unfold st_bind at 1, st_get. unfold st_bind at 1, path_exists.
  case_bool_decide as Hex; cbn [negb ensure]; [by exists f|].
  assert (d_names (sys_disk s) !! q = None) as Hfree by (by apply eq_None_not_Some).
  unfold st_bind at 1. destruct (checked_add (cw_next_offset w) _) as [fl|] eqn:Hfl; cbn [ok_or]; [|by exists f].
  apply checked_add_inv in Hfl as [-> _]. rewrite (footer_of_writer f home w rs s Hw).
  unfold st_bind, sync_data, sync_directory, on_disk in *. cbn [sys_disk sys_catalog] in *.
  destruct (sync_file (cw_file w) (sys_disk s)) as [r1 d1]; cbn [sys_disk sys_catalog map_err] in *.
  assert (∀ d' : Disk, preserves (kept (cw_file w) (cw_next_offset w)) (sys_disk s) d' → sane d' →
    inv f home (mkSys d' (sys_catalog s))) as Hstep.
  { intros d' Hp Hs. apply (inv_disk f home s _ _ d' Hinv Hp); [apply Hw|done]. }
  destruct r1 as [u1|e]; [|exists f; split; [apply Hstep; apply Hsw|done]].
  destruct (write_at _ _ _ _) as [r2 d2]; cbn [sys_disk sys_catalog map_err] in *.
  destruct r2 as [u2|e]; [|exists f; split; [apply Hstep; apply Hsw|done]].
  destruct (sync_file _ d2) as [r3 d3]; cbn [sys_disk sys_catalog map_err] in *.
  destruct Hsw as (Hp3 & Hs3 & Hn3 & Hdat).
  destruct r3 as [u3|e]; [|exists f; split; [by apply Hstep|done]]. cbn [is_ok] in Hdat.
  destruct (rename (cw_path w) q d3) as [r4 d4] eqn:E4; cbn [sys_disk sys_catalog map_err] in *.
  apply (rename_spec (kept (cw_file w) (cw_next_offset w))) in E4 as (Hp4 & Hs4 & Hin4 & Hr4);
    [|done|done|by rewrite Hn3].
  assert (preserves (kept (cw_file w) (cw_next_offset w)) (sys_disk s) d4) as Hp04 by (by etransitivity).
  destruct r4 as [u4|e]; [|exists f; split; [by apply Hstep|done]].
  destruct (sync_all_directory _ d4) as [r5 d5] eqn:E5; cbn [sys_disk sys_catalog map_err] in *.
  apply (sync_directory_spec (kept (cw_file w) (cw_next_offset w))) in E5 as (Hp5 & Hs5 & Hin5 & Hn5 & _); [|done].
  assert (inv f home (mkSys d5 (sys_catalog s))) as Hinv5 by (apply Hstep; [by etransitivity|done]).
  destruct r5 as [u5|e]; [|by exists f].
  cbn [map_err].
  assert (is_u64 (128 + sizes rs) ∧ is_u64 (Z.of_nat (length rs)) ∧ 128 + sizes rs ≤ MAX_FILE_BYTES)
    as (Hu1 & Hu2 & Hmax).
  { destruct (wo_file _ _ _ _ _ Hw) as (i & Hi & _). destruct (Hdat i Hi eq_refl) as [Hmax _].
    pose proof (writer_count _ _ _ _ _ Hw). unfold in_width, MAX_FILE_BYTES in *. lia. }
  pose proof (publish_sealed_spec f home _ (cw_header w) (seal_footer rs) Hinv5
    (wo_header _ _ _ _ _ Hw) Hu1 Hu2) as Hpub.
  destruct (publish_sealed_metadata _ _ _) as [r6 s6]. destruct Hpub as (Hd6 & f' & Hinv6 & Heq & Hok).
  destruct r6 as [u6|e]; exists f'; [|done]. cbn [sys_disk] in Hd6. rewrite Hd6, Hn5, Hin5, Hin4.
  split; [done|]. subst q. split_and!; [done|done|by apply Hok| |].
  - destruct Hr4 as (n & Hn & ->). rewrite Hn3 in Hn. exists n. split; [done|]. apply lookup_insert_eq.
  - intros i Hi. destruct (Hdat i Hi eq_refl) as (_ & i' & Hi' & Hdi & _). eauto.
Qed.
End Writer.
End WriterSpec.
