(* ===== verification/ReconcileSpec.v ===== *)
(** * Recovery and reconciliation keep what the catalog names

    Opening, recovering and reconciling chunk files after a crash: whatever the
    files hold and whatever calls fail, the invariant of the store is kept. *)

From Stdlib Require Import ZArith Lia Strings.Byte Strings.String.
From stdpp Require Import base tactics list gmap strings.
From S2P Require Import Prelude Crc Core Format FormatSpec RecordSpec Codec CatalogCodec CatalogCodecSpec Catalog CatalogSpec RocksSpec CatalogInterface Chunk ChunkSpec RecoverySpec ReadSpec Disk DiskSpec Store WriterSpec.
Import Core Format FormatSpec RecordSpec Codec CatalogCodec CatalogCodecSpec Catalog CatalogSpec RocksSpec CatalogInterface Chunk ChunkSpec RecoverySpec ReadSpec Disk DiskSpec Store WriterSpec.

#[local] Open Scope Z_scope.

Module ReconcileSpec.

Lemma open_layout_header h h' rs rs' tail :
  header_wf h → header_wf h' → open_layout h rs ++ tail = open_layout h' rs' → h = h'.
Proof.
  intros Hh Hh' Heq. unfold open_layout in Heq.
  assert (read_chunk_header ((ChunkHeader_encode h ++ records_layout rs) ++ tail) = Ok h') as Hr
    by (rewrite Heq; by apply read_header_layout).
  rewrite <-app_assoc, read_header_layout in Hr by done. congruence.
Qed.

Section Reconcile.
Context `{Digests} `{Zstd} `{CatalogLaws C}.
Implicit Types (s : Sys C) (f : View) (home : ContentId → nat).

(** The contents of an open chunk determine its records. *)
Lemma holds_layout_inj h rs rs' :
  Forall scannable rs → Forall scannable rs' → 64 + sizes rs ≤ MAX_FILE_BYTES →
  open_layout h rs = open_layout h rs' → rs = rs'.
Proof.
  intros Hall Hall' Hmax Heq. pose proof (sizes_nonneg rs).
  assert (sizes rs = sizes rs') as Hs.
  { apply (f_equal len) in Heq. rewrite !len_open_layout in Heq. lia. }
  assert (∀ a, Forall scannable a → open_layout h a = open_layout h rs → sizes a = sizes rs →
    holds (open_layout h rs ++ []) 64 (64 + sizes rs) a) as Hh.
  { intros a Ha <- Hsa. apply open_layout_holds; [done|lia]. }
  assert (∀ a b, Forall scannable a → Forall scannable b → open_layout h a = open_layout h rs →
    open_layout h b = open_layout h rs → sizes a = sizes rs → sizes b = sizes rs → ∃ m, b = a ++ m) as Hpre.
  { intros a b Ha Hb Hea Heb Hsa Hsb.
    eapply (holds_prefix (open_layout h rs ++ []) 64 (64 + sizes rs) a b OffsetOverflow);
      [by apply Hh|by apply Hh|lia| |unfold MAX_FILE_BYTES, u64_max in *; lia|left; lia].
    rewrite app_nil_r, len_open_layout. lia. }
  destruct (Hpre rs rs' Hall Hall' eq_refl (eq_sym Heq) eq_refl (eq_sym Hs)) as [m ->].
  rewrite sizes_app in Hs.
  destruct m as [|r m]; [by rewrite app_nil_r|]. exfalso.
  apply Forall_app in Hall' as [_ [(Hr & _) _]%Forall_cons].
  rewrite sizes_cons in Hs by done. pose proof (size_pos r). pose proof (sizes_nonneg m). lia.
Qed.

(** What a successful recovery scan found. *)
Lemma recover_file_inv file rc file' :
  len file ≤ u64_max → recover_file file = Ok (rc, file') →
  ∃ rs, header_wf (rc_header rc) ∧ Forall scannable rs ∧
    rc = recovery_of (rc_header rc) rs file ∧ file' = open_layout (rc_header rc) rs ∧
    file' `prefix_of` file ∧ (∀ p, chunk_prefix p → p `prefix_of` file → p `prefix_of` file').
Proof.
  intros Hmax Hrec. pose proof Hrec as Hh. unfold recover_file in Hh.
  apply bind_Ok_inv in Hh as (h & Hh & _).
  pose proof (read_header_inv _ _ Hh) as (Hw & H64 & Ht).
  destruct (run_exists file H64 Hmax) as (rs & err & Hrun).
  rewrite (recover_run file h rs err) in Hrec by done.
  apply Ok_inj in Hrec as Hp.
  pose proof (f_equal fst Hp) as Hrc. pose proof (f_equal snd Hp) as Hf. cbn [fst snd] in Hrc, Hf.
  clear Hp Hrec. subst rc file'. cbn [rc_header recovery_of].
  pose proof Hrun as [Hrs _]. exists rs. split_and!; try done; [by eapply holds_scannable| |].
  - rewrite <-(holds_open_layout file h _ rs Ht Hrs). by exists (drop (Z.to_nat (64 + sizes rs)) file); rewrite take_drop.
  - intros p (h' & rs' & Hw' & Hall' & ->) [tail ->].
    assert (h' = h) as ->.
    { unfold open_layout in Hh. rewrite <-app_assoc, read_header_layout in Hh by done. congruence. }
    destruct (run_extends h rs' tail rs err Hall' Hmax Hrun) as [more ->].
    unfold open_layout. rewrite records_layout_app, app_assoc. by eexists.
Qed.

Abbreviation keeps_chunks := (preserves (λ _ p, chunk_prefix p)).

Lemma housed_keeps d d' n id l : housed d n id l → keeps_chunks d d' → housed d' n id l.
Proof.
  intros (i & h & rs & r & Hi & Hl & Hh & Hall & Hd & Hrest) [Hp Hlink].
  destruct (Hp n i Hi) as (i' & Hi' & Hd').
  exists i', h, rs, r. split_and!; try done; try apply Hrest; [by apply Hlink|].
  apply Hd'; [by exists h, (rs ++ [r])|done].
Qed.
Lemma inv_keeps f home s d' :
  inv f home s → keeps_chunks (sys_disk s) d' → sane d' → inv f home (mkSys d' (sys_catalog s)).
Proof.
  intros [Hv Hh Hs] Hp Hs'. split; [done| |done].
  intros id l Hl. eapply housed_keeps; [by apply Hh|done].
Qed.

Lemma file_exists d n : data d n ≠ [] → ∃ i, d_inodes d !! n = Some i ∧ data d n = i_data i.
Proof. unfold data. destruct (d_inodes d !! n) as [i|]; [|done]. by exists i. Qed.

(** [recover] truncates to the maximal run of records. *)
Lemma recover_spec n d c r s' :
  sane d → recover n (mkSys d c) = (r, s') →
  keeps_chunks d (sys_disk s') ∧ sane (sys_disk s') ∧ sys_catalog s' = c ∧
  d_names (sys_disk s') = d_names d ∧ d_pending (sys_disk s') = d_pending d ∧
  ∀ rc, r = Ok rc → ∃ rs, header_wf (rc_header rc) ∧ Forall scannable rs ∧
    rc = recovery_of (rc_header rc) rs (data d n) ∧
    data (sys_disk s') n = open_layout (rc_header rc) rs ∧
    (∀ p, chunk_prefix p → p `prefix_of` data d n → p `prefix_of` open_layout (rc_header rc) rs) ∧
    open_layout (rc_header rc) rs `prefix_of` data d n.
Proof.
  intros Hs Hr. unfold recover, st_ret, st_bind, lifted, st_lift, on_disk in Hr. cbn [sys_disk sys_catalog] in Hr.
  destruct (read_file n d) as [r1 d1] eqn:E1. apply read_file_spec in E1 as [Hsame1 Hc1].
  assert (sane d1) as Hs1 by (by eapply same_files_sane).
  assert (keeps_chunks d d1) as Hk1 by (by apply same_files_preserves).
  destruct r1 as [b|e]; cbn [map_err] in Hr; [|injection Hr as <- <-; split_and!; try done; apply Hsame1].
  specialize (Hc1 b eq_refl). subst b.
  destruct (recover_file (data d n)) as [[rc b']|e] eqn:Hrec; [|injection Hr as <- <-; split_and!; try done; apply Hsame1].
  assert (len (data d n) ≤ u64_max) as Hmax.
  { pose proof (sane_data d n Hs). unfold MAX_FILE_BYTES, u64_max in *. lia. }
  destruct (recover_file_inv _ _ _ Hmax Hrec) as (rs & Hh & Hall & Hrc & Hb' & Hpre & Hext).
  cbn [fst] in Hr. set (k := rc_retained_bytes rc) in Hr.
  assert (k = len b') as Hk by (unfold k; rewrite Hrc, Hb', len_open_layout; done).
  assert (0 ≤ k ≤ len (data d n)) as Hkr
    by (destruct Hpre as [t Ht]; rewrite Hk, Ht; unfold len; rewrite length_app; lia).
  assert (∀ d', data d' n = b' → ∀ rc0, Ok rc = @Ok StoreError _ rc0 → ∃ rs, header_wf (rc_header rc0) ∧
    Forall scannable rs ∧ rc0 = recovery_of (rc_header rc0) rs (data d n) ∧
    data d' n = open_layout (rc_header rc0) rs ∧ (∀ p, chunk_prefix p → p `prefix_of` data d n →
      p `prefix_of` open_layout (rc_header rc0) rs) ∧ open_layout (rc_header rc0) rs `prefix_of` data d n) as Hfin.
  { intros d' Hd' rc0 Heq. apply Ok_inj in Heq as <-. exists rs. rewrite <-Hb'. done. }
  case_decide as Hd.
  - cbn [sys_disk sys_catalog] in Hr. destruct (set_len n k d1) as [r2 d2] eqn:E2.
    apply (set_len_spec (λ _ p, chunk_prefix p)) in E2 as (Hk2 & Hs2 & Hn2 & Hp2 & Hd2); [|done| |].
    2: by rewrite (same_files_data _ _ n Hsame1).
    2: { intros i p Hi Hp [Hpd _]. rewrite <-(data_lookup _ _ _ Hi), (same_files_data _ _ n Hsame1) in Hpd.
         destruct (Hext p Hp Hpd) as [t Ht]. rewrite Hk, Ht. unfold len. rewrite length_app. lia. }
    rewrite (same_names _ _ Hsame1) in Hn2. rewrite (same_pending _ _ Hsame1) in Hp2.
    assert (keeps_chunks d d2) as Hk02 by (by etransitivity).
    destruct r2 as [u|e]; cbn [map_err sys_disk sys_catalog] in Hr; [|by injection Hr as <- <-].
    destruct (sync_file n d2) as [r3 d3] eqn:E3.
    apply (sync_file_spec (λ _ p, chunk_prefix p)) in E3 as (Hk3 & Hs3 & Hn3 & Hp3 & Hd3); [|done].
    assert (keeps_chunks d d3) as Hk03 by (by etransitivity).
    rewrite Hn2 in Hn3. rewrite Hp2 in Hp3. destruct (file_exists d n) as (i & Hi & Hdi).
    { intros Hnil. rewrite Hnil in Hpre. apply prefix_nil_inv in Hpre. rewrite Hpre in Hb'.
      apply (f_equal length) in Hb'. pose proof (length_open_layout (rc_header rc) rs).
      pose proof (sizes_nonneg rs). cbn in Hb'. lia. }
    rewrite <-(same_inodes _ _ Hsame1) in Hi. destruct (Hd2 i Hi) as (i2 & Hi2 & _ & Hdat2).
    destruct (Hd3 i2 Hi2) as (i3 & Hi3 & Hdat3 & _).
    destruct r3 as [u3|e]; cbn [map_err] in Hr; injection Hr as <- <-; [|done].
    split_and!; try done. apply Hfin. cbn [sys_disk]. rewrite (data_lookup _ _ _ Hi3), Hdat3, Hdat2 by done.
    rewrite <-Hdi. destruct Hpre as [t ->]. rewrite Hk. unfold len. rewrite Nat2Z.id. apply take_app_length.
  - injection Hr as <- <-. cbn [sys_disk sys_catalog]. split_and!; try done; try apply Hsame1.
    apply Hfin. rewrite (same_files_data _ _ n Hsame1). destruct Hpre as [t Ht].
    destruct t as [|x t]; [by rewrite app_nil_r in Ht|]. exfalso.
    rewrite Hk, Ht in Hd. unfold len in Hd. rewrite length_app in Hd. cbn in Hd. lia.
Qed.

(** ** Opening and recovering *)

Lemma verify_sealed_spec n d c r s' :
  verify_sealed n (mkSys d c) = (r, s') →
  same_files d (sys_disk s') ∧ sys_catalog s' = c ∧ ∀ v, r = Ok v → verify_sealed_file (data d n) = Ok v.
Proof.
  unfold verify_sealed, st_bind, on_disk, lifted, st_lift. cbn [sys_disk sys_catalog]. intros Hr.
  destruct (read_file n d) as [[b|e] d1] eqn:E1; apply read_file_spec in E1 as [Hs Hb];
    cbn [map_err] in Hr; injection Hr as <- <-; [|done].
  split_and!; try done. by rewrite (Hb b eq_refl).
Qed.
Lemma try_verify_spec n d c r s' :
  try_ok (verify_sealed n) (mkSys d c) = (r, s') →
  same_files d (sys_disk s') ∧ sys_catalog s' = c ∧
  (r = Ok None ∨ ∃ v, r = Ok (Some v) ∧ verify_sealed_file (data d n) = Ok v).
Proof.
  unfold try_ok. intros Hr. destruct (verify_sealed n (mkSys d c)) as [[v|e] s1] eqn:E;
    apply verify_sealed_spec in E as (Hs & Hc & Hv); injection Hr as <- <-; split_and!; eauto.
Qed.

(** Locations of a recovered file lie within what recovery kept. *)
Lemma recovered_within f home s n h rs :
  inv f home s →
  (∀ p, chunk_prefix p → p `prefix_of` data (sys_disk s) n → p `prefix_of` open_layout h rs) →
  within f home n (64 + sizes rs).
Proof.
  intros Hinv Hext id l Hl <-.
  destruct (inv_housed _ _ _ Hinv _ _ Hl) as (i & h' & rs' & r & Hi & _ & Hh' & Hall & [Hp _] & -> & _).
  rewrite <-(data_lookup _ _ _ Hi) in Hp.
  destruct (Hext _ (ex_intro _ h' (ex_intro _ (rs' ++ [r]) (conj Hh' (conj Hall eq_refl)))) Hp) as [t Ht].
  apply (f_equal len) in Ht. rewrite len_open_layout in Ht. unfold len in Ht.
  rewrite length_app, Nat2Z.inj_add, length_open_layout in Ht.
  apply Forall_app in Hall as [_ [(Hr & _) _]%Forall_cons].
  rewrite sizes_snoc in Ht by done. cbn [location_of ol_offset ol_record_length]. lia.
Qed.

Lemma inv_same f home d c d' :
  inv f home (mkSys d c) → same_files d d' → inv f home (mkSys d' c).
Proof.
  intros Hinv Hs. apply (inv_keeps f home (mkSys d c)); [done|by apply same_files_preserves|].
  eapply same_files_sane; [done|]. apply Hinv.
Qed.

(** The writer that stands at the end of recovered contents. *)
Definition writer_at (p : Path) (n : nat) (h : ChunkHeader) (rs : list ObjectRecord) : ChunkWriter :=
  mkChunkWriter p n h (64 + sizes rs) (Z.of_nat (length rs)) (Crc.update Crc.new (records_layout rs)).

Lemma recovered_writer f home s p n h rs :
  inv f home s → header_wf h → Forall scannable rs → data (sys_disk s) n = open_layout h rs →
  within f home n (64 + sizes rs) →
  (linked (sys_disk s) n → writer_ok f home (writer_at p n h rs) rs s) ∧
  chunk_metadata_wf (open_metadata (writer_at p n h rs)).
Proof.
  intros Hinv Hh Hall Hd Hwi. pose proof (sizes_nonneg rs). split.
  - intros Hl. destruct (file_exists (sys_disk s) n) as (i & Hi & Hdi).
    { rewrite Hd. intros Hnil%(f_equal length). pose proof (length_open_layout h rs). cbn in Hnil. lia. }
    split; try done. exists i. split; [done|]. by rewrite <-Hdi, Hd.
  - pose proof (scannable_count rs Hall) as Hcs.
    pose proof (sane_data (sys_disk s) n (inv_sane _ _ _ Hinv)) as Hs. rewrite Hd, len_open_layout in Hs.
    unfold chunk_metadata_wf, in_width, MAX_FILE_BYTES in *. cbn. lia.
Qed.

Lemma open_recovered_spec f home s p :
  inv f home s →
  match open_recovered p s with
  | (res, s') => inv f home s' ∧ sys_catalog s' = sys_catalog s ∧
      d_names (sys_disk s') = d_names (sys_disk s) ∧ d_pending (sys_disk s') = d_pending (sys_disk s) ∧
      ∀ w rc, res = Ok (w, rc) → ∃ n h rs, w = writer_at p n h rs ∧ is_open_path p = true ∧
        d_names (sys_disk s) !! p = Some n ∧ data (sys_disk s') n = open_layout h rs ∧
        header_wf h ∧ (linked (sys_disk s') n → writer_ok f home w rs s') ∧
        chunk_metadata_wf (open_metadata w) ∧ Forall scannable rs ∧
        (∀ x, chunk_prefix x → x `prefix_of` data (sys_disk s) n → x `prefix_of` open_layout h rs) ∧
        open_layout h rs `prefix_of` data (sys_disk s) n
  end.
Proof.
  intros Hinv. destruct s as [d c]. unfold open_recovered, st_bind, lifted, st_lift, st_ret.
  destruct (is_open_path p) eqn:Hop; cbn [ensure]; [|done].
  unfold on_disk at 1. cbn [sys_disk sys_catalog].
  destruct (open_file p d) as [[n|e] d1] eqn:E1; apply open_file_spec in E1 as [Hs1 Hn1]; cbn [map_err].
  2: { split_and!; try done; [by eapply inv_same|apply Hs1|apply Hs1]. }
  specialize (Hn1 n eq_refl).
  destruct (try_ok (verify_sealed n) (mkSys d1 c)) as [r2 [d2 c2]] eqn:E2.
  apply try_verify_spec in E2 as (Hs2 & Hc2 & Hr2). cbn [sys_disk sys_catalog] in Hs2, Hc2. subst c2.
  pose proof (same_files_trans _ _ _ Hs1 Hs2) as Hs02.
  assert (inv f home (mkSys d2 c)) as Hinv2 by (by eapply inv_same).
  destruct Hr2 as [->|(v & -> & _)]; [|split_and!; try done; apply Hs02].
  destruct (recover n (mkSys d2 c)) as [r3 [d3 c3]] eqn:E3.
  apply recover_spec in E3 as (Hk3 & Hs3 & Hc3 & Hn3 & Hp3 & Hrec); [|apply Hinv2].
  cbn [sys_disk sys_catalog] in *. subst c3. rewrite (same_names _ _ Hs02) in Hn3.
  rewrite (same_pending _ _ Hs02) in Hp3.
  assert (inv f home (mkSys d3 c)) as Hinv3 by (by apply (inv_keeps f home (mkSys d2 c))).
  destruct r3 as [rc|e]; [|done]. destruct (Hrec rc eq_refl) as (rs & Hh & Hall & Hrc & Hdat & Hext & Hpre).
  unfold on_disk. cbn [sys_disk sys_catalog].
  destruct (read_file n d3) as [r4 d4] eqn:E4. apply read_file_spec in E4 as [Hs4 Hb4].
  pose proof (inv_same _ _ _ _ _ Hinv3 Hs4) as Hinv4.
  rewrite <-(same_names _ _ Hs4) in Hn3. rewrite <-(same_pending _ _ Hs4) in Hp3.
  rewrite <-(same_files_data _ _ n Hs4) in Hdat.
  destruct r4 as [b|e]; cbn [map_err sys_disk]; [|done].
  split_and!; try done. intros w rc' [= <- <-]. rewrite (Hb4 b eq_refl), <-(same_files_data _ _ n Hs4), Hdat.
  exists n, (rc_header rc), rs. rewrite len_open_layout.
  assert (rc_valid_records rc = Z.of_nat (length rs) ∧
    rc_records_crc32c rc = Crc.update Crc.new (records_layout rs)) as [-> ->] by (by rewrite Hrc).
  pose proof (recovered_within _ _ (mkSys d2 c) n (rc_header rc) rs Hinv2 Hext) as Hwi.
  pose proof (recovered_writer _ _ (mkSys d4 c) p n (rc_header rc) rs Hinv4 Hh Hall Hdat Hwi) as [Hwr Hmd].
  rewrite (same_files_data _ _ n Hs02) in Hext, Hpre. split_and!; done.
Qed.

(** ** Reconciliation *)

Lemma publish_open_effect f home s w :
  inv f home s → header_wf (cw_header w) → chunk_metadata_wf (open_metadata w) →
  match publish_open w s with
  | (r, s') => sys_disk s' = sys_disk s ∧ ∃ f', inv f' home s' ∧
      (is_ok r = true → f' (KChunk (ch_generation (cw_header w)) (ch_chunk_id (cw_header w))) =
         Some (VChunk (open_metadata w)))
  end.
Proof.
  intros Hinv Hh Hm. unfold publish_open, st_bind, ensure_catalog_writable.
  destruct (match chunk _ _ _ with Some _ => _ | None => _ end) as [u|e]; [|split; [done|by exists f]].
  pose proof (apply_neutral f home s (put_chunk batch_new (ch_generation (cw_header w))
    (ch_chunk_id (cw_header w)) (open_metadata w)) Hinv) as Ha.
  destruct (catalog_apply _ s) as [r s'].
  destruct Ha as (Hd & f' & Hinv' & Heq & Hok); [by apply chunk_op_wf|done|].
  split; [done|]. exists f'. split; [done|]. intros Hr. rewrite (Hok Hr _).
  unfold batch_effect, put_chunk, batch_new. cbn [app fold_left]. unfold write_effect. cbn [op_write fst snd].
  by rewrite decide_True.
Qed.

(** A verified chunk's footer fits the catalog's integers. *)
Lemma verified_wf file v :
  len file ≤ MAX_FILE_BYTES → verify_sealed_file file = Ok v →
  header_wf (vs_header v) ∧ is_u64 (sf_final_length (vs_footer v)) ∧ is_u64 (sf_record_count (vs_footer v)).
Proof.
  intros Hmax Hv. apply verify_sealed_inv in Hv as (rs & Hh & Hall & _ & -> & ->);
    [|unfold MAX_FILE_BYTES, u64_max in *; lia].
  unfold len in Hmax. rewrite length_sealed_layout in Hmax. pose proof (sizes_nonneg rs).
  pose proof (scannable_count rs Hall) as Hcs.
  cbn [seal_footer sf_final_length sf_record_count]. unfold in_width, MAX_FILE_BYTES in *. split_and!; try done; lia.
Qed.

(** What reconciliation of the chunk [p] reports is what it leaves on disk and
    in the catalog, from the disk [d] to the disk [d']. *)
Definition reconciled (p : Path) (d d' : Disk) (f : View) (r : ChunkReconciliation) : Prop :=
  ∃ o q, chunk_path_pair p = Ok (o, q) ∧
  match r with
  | ReconciledSealed sc =>
      sl_path sc = q ∧ d_names d' !! o = None ∧
      (∃ n, (d_names d !! q = Some n ∨ d_names d !! o = Some n) ∧ d_names d' !! q = Some n ∧ data d' n = data d n ∧
            verify_sealed_file (data d' n) = Ok (mkVerified (sl_header sc) (sl_footer sc))) ∧
      f (KChunk (ch_generation (sl_header sc)) (ch_chunk_id (sl_header sc))) =
        Some (VChunk (mkChunkMetadata Sealed (sf_final_length (sl_footer sc)) (sf_record_count (sl_footer sc))))
  | ReconciledOpen rc =>
      d_names d' !! q = None ∧
      ∃ n rs, d_names d !! o = Some n ∧ d_names d' !! o = Some n ∧ header_wf (rc_header rc) ∧ Forall scannable rs ∧
        rc = recovery_of (rc_header rc) rs (data d n) ∧ data d' n = open_layout (rc_header rc) rs ∧
        (∀ x, chunk_prefix x → x `prefix_of` data d n → x `prefix_of` data d' n) ∧
        f (KChunk (ch_generation (rc_header rc)) (ch_chunk_id (rc_header rc))) =
          Some (VChunk (mkChunkMetadata Open (rc_retained_bytes rc) (rc_valid_records rc)))
  end.

(** Publishing a sealed chunk that is on disk under its name. *)
Lemma publish_reconciled f home d0 d c p o q n v :
  inv f home (mkSys d c) → chunk_path_pair p = Ok (o, q) →
  (d_names d0 !! q = Some n ∨ d_names d0 !! o = Some n) → data d n = data d0 n →
  d_names d !! o = None → d_names d !! q = Some n → verify_sealed_file (data d n) = Ok v →
  match publish_sealed_metadata (vs_header v) (vs_footer v) (mkSys d c) with
  | (r, s') => ∃ f', inv f' home s' ∧ (is_ok r = true →
      reconciled p d0 (sys_disk s') f' (ReconciledSealed (mkSealedChunk q (vs_header v) (vs_footer v))))
  end.
Proof.
  intros Hinv Hpair Hn0 Hd0 Ho Hn Hv. pose proof (sane_data d n (inv_sane _ _ _ Hinv)) as Hmax.
  destruct (verified_wf _ _ Hmax Hv) as (Hh & Hl & Hc).
  pose proof (publish_sealed_spec f home (mkSys d c) _ _ Hinv Hh Hl Hc) as Hpub.
  destruct (publish_sealed_metadata _ _ _) as [r s']. destruct Hpub as (Hd & f' & Hinv' & _ & Hok).
  exists f'. split; [done|]. intros Hr. exists o, q. split; [done|]. cbn [sl_path sl_header sl_footer]. rewrite Hd.
  split_and!; [done|done| |by apply Hok]. exists n. split_and!; try done. by destruct v.
Qed.

Lemma path_pair_spec p o q : chunk_path_pair p = Ok (o, q) →
  is_open_path o = true ∧ is_sealed_path q = true ∧ p_dir o = p_dir q ∧ o ≠ q.
Proof.
  unfold chunk_path_pair. intros Hp. assert (is_open_path o = true ∧ is_sealed_path q = true ∧ p_dir o = p_dir q) as (Ho & Hq & Hd).
  { destruct (is_open_path p) eqn:Ho; [by injection Hp as <- <-|]. destruct (is_sealed_path p) eqn:Hs; [by injection Hp as <- <-|done]. }
  split_and!; try done. intros ->. unfold is_open_path, is_sealed_path in Ho, Hq.
  apply bool_decide_eq_true in Ho, Hq. rewrite Ho in Hq. discriminate Hq.
Qed.

(** The sealed branch: the chunk is verified where it is and published. *)
Lemma reconcile_sealed f home s p o q :
  inv f home s → chunk_path_pair p = Ok (o, q) → d_names (sys_disk s) !! o = None →
  match (sealed ⇐ verify_sealed_chunk q;
         _ ⇐ publish_sealed_metadata (sl_header sealed) (sl_footer sealed);
         st_ret (ReconciledSealed sealed)) s with
  | (res, s') => ∃ f', inv f' home s' ∧ ∀ r, res = Ok r → reconciled p (sys_disk s) (sys_disk s') f' r
  end.
Proof.
  intros Hinv Hpair Hno. destruct s as [d c]. unfold verify_sealed_chunk, st_bind, lifted, st_lift, st_ret.
  destruct (is_sealed_path q) eqn:Hq; cbn [ensure]; [|by exists f].
  unfold on_disk. cbn [sys_disk sys_catalog].
  destruct (open_file q d) as [[n|e] d1] eqn:E1; apply open_file_spec in E1 as [Hs1 Hn1]; cbn [map_err].
  2: { exists f. split; [by eapply inv_same|done]. }
  destruct (verify_sealed n (mkSys d1 c)) as [r2 [d2 c2]] eqn:E2.
  apply verify_sealed_spec in E2 as (Hs2 & Hc2 & Hv). cbn [sys_disk sys_catalog] in Hs2, Hc2. subst c2.
  pose proof (same_files_trans _ _ _ Hs1 Hs2) as Hs02. pose proof (inv_same _ _ _ _ _ Hinv Hs02) as Hinv2.
  destruct r2 as [v|e]; [|by exists f]. cbn [sl_header sl_footer].
  specialize (Hv v eq_refl). rewrite (same_files_data _ _ n Hs1), <-(same_files_data _ _ n Hs02) in Hv.
  pose proof (publish_reconciled f home d d2 c p o q n v Hinv2 Hpair) as Hp.
  destruct (publish_sealed_metadata _ _ _) as [r3 s3].
  destruct Hp as (f' & Hinv3 & Hok); [left; by apply Hn1|by apply same_files_data| | |done|].
  { by rewrite (same_names _ _ Hs02). } { rewrite (same_names _ _ Hs02). by apply Hn1. }
  destruct r3 as [u|e]; exists f'; split; try done. intros r [= <-]. by apply Hok.
Qed.

(** A sealed chunk still under its open name: renamed, then published. *)
Lemma reconcile_renamed f home d0 d c p o q n v :
  inv f home (mkSys d c) → same_files d0 d → chunk_path_pair p = Ok (o, q) → d_names d !! q = None →
  d_names d !! o = Some n → verify_sealed_file (data d n) = Ok v →
  match (_ ⇐ on_disk (rename o q);
         _ ⇐ sync_directory (p_dir o);
         _ ⇐ publish_sealed_metadata (vs_header v) (vs_footer v);
         st_ret (ReconciledSealed (mkSealedChunk q (vs_header v) (vs_footer v)))) (mkSys d c) with
  | (res, s') => ∃ f', inv f' home s' ∧ ∀ r, res = Ok r → reconciled p d0 (sys_disk s') f' r
  end.
Proof.
  intros Hinv Hsame Hpair Hfree Hp Hv. pose proof (path_pair_spec _ _ _ Hpair) as (_ & Hq & Hdir & Hne). unfold st_bind, sync_directory, on_disk, st_ret. cbn [sys_disk sys_catalog].
  destruct (rename o q d) as [r1 d1] eqn:E1.
  apply (rename_spec (λ _ x, chunk_prefix x)) in E1 as (Hk1 & Hs1 & Hi1 & Hr1); try done; [|apply Hinv].
  assert (inv f home (mkSys d1 c)) as Hinv1 by (by apply (inv_keeps f home (mkSys d c))).
  destruct r1 as [u1|e]; cbn [map_err sys_disk sys_catalog]; [|by exists f].
  destruct Hr1 as (n' & Hn' & Hn1).
  destruct (sync_all_directory (p_dir o) d1) as [r2 d2] eqn:E2.
  apply (sync_directory_spec (λ _ x, chunk_prefix x)) in E2 as (Hk2 & Hs2 & Hi2 & Hn2 & _); [|done].
  assert (inv f home (mkSys d2 c)) as Hinv2 by (by apply (inv_keeps f home (mkSys d1 c))).
  destruct r2 as [u2|e]; cbn [map_err]; [|by exists f].
  assert (d_names d2 = <[q := n]> (delete o (d_names d))) as Hn02.
  { rewrite Hn2, Hn1. rewrite Hp in Hn'. by injection Hn' as <-. }
  assert (data d2 n = data d n) as Hdat by (unfold data; by rewrite Hi2, Hi1).
  pose proof (publish_reconciled f home d0 d2 c p o q n v Hinv2 Hpair) as Hpub.
  destruct (publish_sealed_metadata _ _ _) as [r3 s3]. destruct Hpub as (f' & Hinv3 & Hok).
  - right. by rewrite <-(same_names _ _ Hsame).
  - rewrite Hdat. by apply same_files_data.
  - rewrite Hn02, lookup_insert_ne by done. apply lookup_delete_eq.
  - rewrite Hn02. apply lookup_insert_eq.
  - by rewrite Hdat.
  - destruct r3 as [u|e]; exists f'; split; try done. intros r [= <-]. by apply Hok.
Qed.

(** An open chunk: recovered, reopened and published. *)
Lemma reconcile_open f home d0 d c p o q n :
  inv f home (mkSys d c) → same_files d0 d → chunk_path_pair p = Ok (o, q) → d_names d !! q = None → d_names d !! o = Some n →
  match (contents ⇐ on_disk (read_file n);
         header ⇐ lifted (read_chunk_header contents);
         _ ⇐ ensure_catalog_writable header;
         recovery ⇐ recover n;
         '(writer, _) ⇐ open_recovered o;
         _ ⇐ publish_open writer;
         st_ret (ReconciledOpen recovery)) (mkSys d c) with
  | (res, s') => ∃ f', inv f' home s' ∧ ∀ r, res = Ok r → reconciled p d0 (sys_disk s') f' r
  end.
Proof.
  intros Hinv Hsame Hpair Hfree Ho. unfold st_bind, lifted, st_lift, on_disk, ensure_catalog_writable, st_ret. cbn [sys_disk sys_catalog].
  destruct (read_file n d) as [r1 d1] eqn:E1. apply read_file_spec in E1 as [Hs1 _].
  pose proof (inv_same _ _ _ _ _ Hinv Hs1) as Hinv1.
  destruct r1 as [b|e]; cbn [map_err]; [|by exists f].
  destruct (read_chunk_header b) as [h|e]; [|by exists f]. cbn [sys_catalog].
  destruct (match chunk _ _ _ with Some _ => _ | None => _ end) as [u|e]; [|by exists f].
  destruct (recover n (mkSys d1 c)) as [r2 [d2 c2]] eqn:E2.
  apply recover_spec in E2 as (Hk2 & Hs2 & Hc2 & Hn2 & _ & Hrec); [|apply Hinv1]. cbn [sys_disk sys_catalog] in *. subst c2.
  assert (inv f home (mkSys d2 c)) as Hinv2 by (by apply (inv_keeps f home (mkSys d1 c))).
  destruct r2 as [rc|e]; [|by exists f].
  pose proof (open_recovered_spec f home (mkSys d2 c) o Hinv2) as Hor.
  destruct (open_recovered o (mkSys d2 c)) as [[[w rc']|e] s3]; destruct Hor as (Hinv3 & _ & Hn3 & _ & Hw); [|by exists f].
  destruct (Hw w rc' eq_refl) as (m & h' & rs & -> & _ & Hnm & Hdm & Hh & _ & Hm & Hall & Hext & Hpre).
  cbn [sys_disk] in *. rewrite Hn2, (same_names _ _ Hs1) in *. rewrite Ho in Hnm. injection Hnm as <-.
  destruct (Hrec rc eq_refl) as (rs1 & Hh1 & Hall1 & Hrc & Hd2 & Hext1 & _). rewrite Hd2 in Hext, Hpre.
  assert (h' = rc_header rc ∧ rs = rs1) as [-> ->].
  { assert (open_layout h' rs = open_layout (rc_header rc) rs1) as Heq.
    { apply (anti_symm prefix); [done|]. apply Hext; [|done]. by exists (rc_header rc), rs1. }
    pose proof (open_layout_header _ (rc_header rc) rs rs1 [] Hh Hh1) as Hhh. rewrite app_nil_r in Hhh. specialize (Hhh Heq) as ->.
    split; [done|]. apply (holds_layout_inj (rc_header rc)); [exact Hall|exact Hall1| |exact Heq]. rewrite <-(len_open_layout (rc_header rc)), Heq, <-Hd2.
    apply (sane_data d2 n). apply Hinv2. }
  rewrite (same_files_data _ _ n Hs1), (same_files_data _ _ n Hsame) in Hrc, Hext1.
  pose proof (publish_open_effect f home s3 (writer_at o n (rc_header rc) rs1) Hinv3 Hh Hm) as Hpub.
  destruct (publish_open _ s3) as [r4 s4]. destruct Hpub as (Hd4 & f' & Hinv4 & Hok).
  destruct r4 as [u4|e]; exists f'; split; try done. intros r [= <-].
  exists o, q. split; [done|]. rewrite Hd4, Hn3. split; [done|]. exists n, rs1. rewrite Hdm.
  split_and!; try done; [by rewrite <-(same_names _ _ Hsame)|]. rewrite Hrc. cbn. by apply Hok.
Qed.

Lemma reconcile_spec f home s p :
  inv f home s →
  match reconcile_chunk p s with
  | (res, s') => ∃ f', inv f' home s' ∧ ∀ r, res = Ok r → reconciled p (sys_disk s) (sys_disk s') f' r
  end.
Proof.
  intros Hinv. unfold reconcile_chunk. unfold st_bind at 1, lifted at 1, st_lift at 1.
  destruct (chunk_path_pair p) as [[o q]|e] eqn:Hpair; [|by exists f].
  unfold st_bind at 1, st_get at 1. unfold st_bind at 1, st_get at 1.
  unfold st_bind at 1, lifted at 1, st_lift at 1.
  destruct (negb _) eqn:Hconf; cbn [ensure]; [|by exists f].
  destruct (path_exists (sys_disk s) q) eqn:Hex.
  { apply (reconcile_sealed f home s p o q); [done|done|]. rewrite andb_true_r, negb_true_iff in Hconf.
    unfold path_exists in Hconf. by apply bool_decide_eq_false, eq_None_not_Some in Hconf. }
  unfold path_exists in Hex. apply bool_decide_eq_false, eq_None_not_Some in Hex.
  destruct s as [d c]. cbn [sys_disk] in *. unfold st_bind at 1, on_disk at 1. cbn [sys_disk sys_catalog].
  destruct (open_file o d) as [[n|e] d1] eqn:E1; apply open_file_spec in E1 as [Hs1 Hn1]; cbn [map_err].
  2: { exists f. split; [by eapply inv_same|done]. }
  unfold st_bind at 1. destruct (try_ok (verify_sealed n) (mkSys d1 c)) as [r2 [d2 c2]] eqn:E2.
  apply try_verify_spec in E2 as (Hs2 & Hc2 & Hr2). cbn [sys_disk sys_catalog] in Hs2, Hc2. subst c2.
  pose proof (same_files_trans _ _ _ Hs1 Hs2) as Hs02. pose proof (inv_same _ _ _ _ _ Hinv Hs02) as Hinv2.
  assert (d_names d2 !! q = None) as Hfree by by rewrite (same_names _ _ Hs02).
  assert (d_names d2 !! o = Some n) as Hon by (rewrite (same_names _ _ Hs02); by apply Hn1).
  destruct Hr2 as [->|(v & -> & Hv)]; [by apply (reconcile_open f home d d2 c p o q n)|].
  apply (reconcile_renamed f home d d2 c p o q n v); try done.
  by rewrite (same_files_data _ _ n Hs02), <-(same_files_data _ _ n Hs1).
Qed.
End Reconcile.
End ReconcileSpec.
