(* ===== verification/StoreSpec.v ===== *)
(** * Guarantees of the cold store

    The store as a transition system: any sequence of creations, appends,
    seals, reopenings, reconciliations and crashes, with any calls failing.
    Every object the catalog names survives every crash and every recovery. *)

From Stdlib Require Import ZArith Lia Strings.Byte Strings.String.
From stdpp Require Import base tactics list gmap strings relations.
From S2P Require Import Prelude Crc Core Format FormatSpec RecordSpec Codec CatalogCodec CatalogCodecSpec Catalog CatalogSpec RocksSpec CatalogInterface Chunk ChunkSpec RecoverySpec ReadSpec Disk DiskSpec Store WriterSpec ReconcileSpec.
Import Core Format FormatSpec RecordSpec Codec CatalogCodec CatalogCodecSpec Catalog CatalogSpec RocksSpec CatalogInterface Chunk ChunkSpec RecoverySpec ReadSpec Disk DiskSpec Store WriterSpec ReconcileSpec.

#[local] Open Scope Z_scope.

Module StoreSpec.

Section Guarantees.
Context `{Digests} `{Zstd} `{CatalogLaws C}.
Implicit Types (s : Sys C) (f : View) (home : ContentId → nat).

(** The store, and the writer that is open on it. *)
Definition State : Type := Sys C * option ChunkWriter.

(** One call of the store's interface, however it ends, a call that touches no
    file (reads, directory creation), or a crash. Records are within the
    recovery ceiling. A file is reopened for writing only under a
    durable name, as at startup. *)
Inductive store_step : State → State → Prop :=
| step_create s p h r s' :
    header_wf h → create_and_publish p h s = (r, s') → store_step (s, None) (s', ok r)
| step_append s w repo g c record r w' s' :
    record_wf record → size record ≤ MAX_RECOVERY_RECORD_BYTES → RepoId_wf repo →
    append_and_index repo g c record (w, s) = (r, (w', s')) →
    store_step (s, Some w) (s', Some w')
| step_seal s w r s' : seal_and_publish w s = (r, s') → store_step (s, Some w) (s', None)
| step_close s w : store_step (s, Some w) (s, None)
| step_reopen s p r s' :
    (∀ n, d_names (sys_disk s) !! p = Some n → linked (sys_disk s) n) →
    open_recovered p s = (r, s') → store_step (s, None) (s', fst <$> ok r)
| step_reconcile s p r s' : reconcile_chunk p s = (r, s') → store_step (s, None) (s', None)
| step_other s w d : same_files (sys_disk s) d → store_step (s, w) (mkSys d (sys_catalog s), w)
| step_crash s w d : crash (sys_disk s) d → store_step (s, w) (mkSys d (sys_catalog s), None).

(** A store with no objects. *)
Definition initial s : Prop :=
  sane (sys_disk s) ∧ ∃ f, holds_view (sys_catalog s) f ∧ ∀ id, f (KObject id) = None.

Definition good (st : State) : Prop :=
  ∃ f home, inv f home st.1 ∧ ∀ w, st.2 = Some w → ∃ rs, writer_ok f home w rs st.1.

Lemma initial_good s : initial s → good (s, None).
Proof.
  intros (Hs & f & Hv & Hn). exists f, (λ _, 0%nat). split; [|done].
  split; [done| |done]. intros id l. by rewrite Hn.
Qed.

Lemma step_good st st' : store_step st st' → good st → good st'.
Proof.
  intros Hstep (f & home & Hinv & Hw). destruct Hstep as
    [s p h r s' Hh Hc|s w repo g c record r w' s' Hr Hm Hrepo Ha|s w r s' Hs|s w|s p r s' Hl Ho|s p r s' Hr|s w d Hd|s w d Hd];
    cbn [fst snd] in *.
  - pose proof (create_and_publish_spec f home s p h Hinv Hh) as Hspec. rewrite Hc in Hspec.
    destruct Hspec as (f' & Hinv' & Hw'). exists f', home. split; [done|].
    intros w Hr. destruct r as [w0|]; [|done]. injection Hr as <-. exists [].
    by destruct (Hw' w0 eq_refl) as (_ & _ & ? & _).
  - destruct (Hw w eq_refl) as [rs Hrs].
    pose proof (append_and_index_spec f home w rs s record repo g c Hinv Hrs Hr Hm Hrepo) as Hspec.
    rewrite Ha in Hspec. destruct Hspec as (f' & home' & rs' & Hinv' & Hw' & _).
    exists f', home'. split; [done|]. intros w0 [= <-]. by exists rs'.
  - destruct (Hw w eq_refl) as [rs Hrs]. pose proof (seal_spec f home w rs s Hinv Hrs) as Hspec.
    rewrite Hs in Hspec. destruct Hspec as (f' & Hinv' & _). by exists f', home.
  - by exists f, home.
  - pose proof (open_recovered_spec f home s p Hinv) as Hspec. rewrite Ho in Hspec.
    destruct Hspec as (Hinv' & _ & Hn' & Hp' & Hw'). exists f, home. split; [done|].
    intros w Hr. destruct r as [[w0 rc]|]; [|done]. injection Hr as <-.
    destruct (Hw' w0 rc eq_refl) as (n & h & rs & -> & _ & Hn & _ & _ & Hok & _).
    exists rs. apply Hok. by apply (linked_inodes (sys_disk s)), Hl.
  - pose proof (reconcile_spec f home s p Hinv) as Hspec. rewrite Hr in Hspec.
    destruct Hspec as (f' & Hinv' & _). by exists f', home.
  - exists f, home. destruct s as [d0 c0]. split; [by eapply inv_same|]. intros w0 Hw0.
    destruct (Hw w0 Hw0) as [rs Hrs]. exists rs. apply (writer_disk f f home w0 rs (mkSys d0 c0)); try done.
    + intros n. by apply (same_files_preserves (λ _ _, True)).
    + rewrite (same_inodes _ _ Hd). apply Hrs.
  - exists f, home. split; [|done]. apply inv_keeps; [done|by apply crash_preserves|by eapply crash_sane].
Qed.

Lemma reachable_good s0 st : initial s0 → rtc store_step (s0, None) st → good st.
Proof.
  intros Hinit Hr. apply initial_good in Hinit. revert Hinit.
  induction Hr as [|st1 st2 st3 Hstep _ IH]; [done|]. intros. apply IH. by eapply step_good.
Qed.

(** A record after a complete prefix is placed at its location. *)
Lemma prefix_placed h rs r file :
  header_wf h → Forall scannable (rs ++ [r]) → open_layout h (rs ++ [r]) `prefix_of` file →
  placed file (location_of (ch_generation h) (ch_chunk_id h) (64 + sizes rs) r) r.
Proof.
  intros Hh Hall [tail ->]. apply Forall_app in Hall as [_ [(Hr & Hf & Hm) _]%Forall_cons].
  pose proof (sizes_nonneg rs). pose proof (size_pos r). exists h.
  cbn [ol_offset location_of]. split_and!; try done; try lia.
  - unfold len. rewrite length_app, Nat2Z.inj_add, length_open_layout, sizes_snoc by done. lia.
  - rewrite open_layout_snoc, <-app_assoc.
    replace (Z.to_nat (64 + sizes rs)) with (length (open_layout h rs))
      by (pose proof (length_open_layout h rs); lia).
    rewrite slice_app_skip, Nat.sub_diag by lia. apply slice_app_exact. by apply length_layout.
Qed.

Lemma prefix_read h rs r file :
  header_wf h → Forall scannable (rs ++ [r]) → verified r → open_layout h (rs ++ [r]) `prefix_of` file →
  len file ≤ MAX_FILE_BYTES →
  read_record_at file (location_of (ch_generation h) (ch_chunk_id h) (64 + sizes rs) r) = Ok r.
Proof.
  intros Hh Hall Hv Hp Hmax. apply read_placed; [unfold MAX_FILE_BYTES, u64_max in *; lia| | |done].
  - by apply prefix_placed.
  - by apply Forall_app in Hall as [_ [(_ & _ & Hm) _]%Forall_cons].
Qed.

(** A located object can be read back after a crash, before and after recovery. *)
Lemma located_survives f home s id l d' :
  inv f home s → f (KObject id) = Some (VLocation l) → crash (sys_disk s) d' →
  ∃ p n r, d_names d' !! p = Some n ∧ or_content_id r = id ∧
    read_record_at (data d' n) l = Ok r ∧ (verified r ∧ record_wf r) ∧
    ∃ rc file', recover_file (data d' n) = Ok (rc, file') ∧ read_record_at file' l = Ok r.
Proof.
  intros Hinv Hf Hc.
  destruct (housed_keeps _ d' _ _ _ (inv_housed _ _ _ Hinv _ _ Hf) (crash_preserves _ _ _ Hc)) as
    (i & h & rs & r & Hi & (dir & Hlink) & Hh & Hall & [Hp _] & -> & Hrid & Hv).
  apply Forall_cons in Hlink as [(p & Hname & _) _].
  pose proof (crash_sane _ _ Hc _ _ Hi) as Hmax.
  assert (len (i_data i) ≤ u64_max) as Hu by (unfold MAX_FILE_BYTES, u64_max in *; lia).
  exists p, (home id), r. rewrite (data_lookup _ _ _ Hi). split_and!; try done; [by apply prefix_read| |].
  { by apply Forall_app in Hall as [_ [(? & _) _]%Forall_cons]. }
  assert (read_chunk_header (i_data i) = Ok h) as Hrh.
  { destruct Hp as [tail ->]. unfold open_layout. rewrite <-app_assoc. by apply read_header_layout. }
  pose proof (read_header_inv _ _ Hrh) as (_ & H64 & _).
  destruct (run_exists _ H64 Hu) as (rs' & err & Hrun).
  pose proof (recover_run _ _ _ _ Hrh Hu Hrun) as Hrec.
  eexists _, _. split; [exact Hrec|].
  destruct (recover_file_inv _ _ _ Hu Hrec) as (rs2 & _ & _ & _ & _ & [t Ht] & Hext).
  apply prefix_read; try done; [apply Hext; [by exists h, (rs ++ [r])|done]|].
  rewrite Ht in Hmax. unfold len in *. rewrite length_app in Hmax. lia.
Qed.

(** C2. Acknowledged objects survive, where no appended record exceeds the
    recovery ceiling of 64 MiB and chunks are reopened for writing only under
    durable names: in every state such a history reaches from a store without
    objects, with any calls failing and any crashes on the way, whatever object
    the catalog locates can, after one more crash at that point, be read back
    through a surviving name at that location, and still can once recovery has
    truncated the file. (The writer accepts larger records too, and recovery
    then loses them: [oversized_record_lost].) *)
Theorem indexed_objects_survive s0 s ow id l d' :
  initial s0 → rtc store_step (s0, None) (s, ow) → ContentId_wf id →
  object_location (sys_catalog s) id = Some l → crash (sys_disk s) d' →
  ∃ p n r, d_names d' !! p = Some n ∧ or_content_id r = id ∧
    read_record_at (data d' n) l = Ok r ∧
    ∃ rc file', recover_file (data d' n) = Ok (rc, file') ∧ read_record_at file' l = Ok r.
Proof.
  intros Hinit Hr Hid Hl Hc. destruct (reachable_good _ _ Hinit Hr) as (f & home & Hinv & _). cbn [fst] in Hinv.
  pose proof (view_location _ _ _ _ (inv_view _ _ _ Hinv) Hid Hl) as Hf.
  destruct (located_survives _ _ _ _ _ _ Hinv Hf Hc) as (p & n & r & ? & ? & ? & _ & ?). by exists p, n, r.
Qed.

(** ** Indexing, sealing, reconciling *)

(** When [append_and_index] reports a new location, the record can be read
    there, and the catalog has gained exactly its location, its alias and the
    chunk's new length and count. *)
Theorem append_indexes s0 s w record repo g c loc w' s' :
  initial s0 → rtc store_step (s0, None) (s, Some w) →
  record_wf record → size record ≤ MAX_RECOVERY_RECORD_BYTES → RepoId_wf repo →
  append_and_index repo g c record (w, s) = (Ok (Some loc), (w', s')) →
  ∃ l f f', ol_offset l = rl_offset loc ∧ ol_record_length l = rl_record_length loc ∧
    ol_generation l = g ∧ ol_chunk_id l = c ∧
    read_record_at (data (sys_disk s') (cw_file w')) l = Ok record ∧
    holds_view (sys_catalog s) f ∧ holds_view (sys_catalog s') f' ∧
    ∀ k, f' k =
      if decide (k = KObject (or_content_id record)) then Some (VLocation l)
      else if decide (k = KAlias repo (or_primary_oid record)) then Some (VContent (or_content_id record))
      else if decide (k = KChunk g c) then
        Some (VChunk (mkChunkMetadata Open (cw_next_offset w + size record) (cw_record_count w + 1)))
      else f k.
Proof.
  intros Hinit Hreach Hr Hm Hrepo Ha.
  destruct (reachable_good _ _ Hinit Hreach) as (f & home & Hinv & Hw). destruct (Hw w eq_refl) as [rs Hrs].
  pose proof (append_and_index_spec f home w rs s record repo g c Hinv Hrs Hr Hm Hrepo) as Hspec.
  rewrite Ha in Hspec.
  destruct Hspec as (f' & home' & rs' & Hinv' & Hw' & -> & -> & Hv & -> & -> & -> & Hf' & _).
  exists (indexed_at w rs record), f, f'. cbn [rl_offset rl_record_length]. split_and!; try done.
  - destruct (wo_file _ _ _ _ _ Hw') as (i & Hi & Hp). rewrite (data_lookup _ _ _ Hi).
    apply prefix_read; try done; try apply Hrs; [apply Hw'|]. by apply (inv_sane _ _ _ Hinv' (cw_file w)).
  - apply Hinv.
  - apply Hinv'.
  - intros k. rewrite (Hf' k). unfold batch_effect, index_ops. cbn [fold_left]. unfold write_effect.
    cbn [op_write fst snd]. repeat case_decide; subst; try done.
Qed.

(** Sealing a chunk whose file ends at its last record publishes a chunk
    that verifies: the file under the sealed name has the footer of exactly its
    records, and the catalog records the chunk as sealed with that length and
    count. *)
Theorem sealed_chunk_verifies s0 s w rs sc s' :
  initial s0 → rtc store_step (s0, None) (s, Some w) →
  data (sys_disk s) (cw_file w) = open_layout (cw_header w) rs → cw_next_offset w = 64 + sizes rs →
  Forall scannable rs → Forall verified rs → d_names (sys_disk s) !! cw_path w = Some (cw_file w) →
  seal_and_publish w s = (Ok sc, s') →
  sl_path sc = with_extension (cw_path w) "sealed" ∧
  d_names (sys_disk s') !! sl_path sc = Some (cw_file w) ∧
  data (sys_disk s') (cw_file w) = sealed_layout (cw_header w) rs ∧
  verify_sealed_file (data (sys_disk s') (cw_file w)) = Ok (mkVerified (sl_header sc) (sl_footer sc)) ∧
  ∃ f, holds_view (sys_catalog s') f ∧
    f (KChunk (ch_generation (cw_header w)) (ch_chunk_id (cw_header w))) =
      Some (VChunk (mkChunkMetadata Sealed (128 + sizes rs) (Z.of_nat (length rs)))).
Proof.
  intros Hinit Hreach Hdata Hoff Hall Hver Hname Hseal.
  destruct (reachable_good _ _ Hinit Hreach) as (f & home & Hinv & Hw). destruct (Hw w eq_refl) as [rs0 Hrs].
  cbn [fst] in *.
  destruct (wo_file _ _ _ _ _ Hrs) as (i & Hi & Hp). rewrite (data_lookup _ _ _ Hi) in Hdata.
  pose proof (inv_sane _ _ _ Hinv _ _ Hi) as Hmax. rewrite Hdata, len_open_layout in Hmax.
  assert (rs0 = rs) as ->.
  { apply (holds_layout_inj (cw_header w)); [apply Hrs|done| |].
    - rewrite <-(wo_offset _ _ _ _ _ Hrs). lia.
    - rewrite Hdata in Hp. destruct Hp as [t Ht]. rewrite Ht. destruct t; [by rewrite app_nil_r|].
      apply (f_equal len) in Ht. rewrite len_open_layout in Ht. unfold len in Ht.
      rewrite length_app, Nat2Z.inj_add, length_open_layout in Ht. cbn in Ht.
      pose proof (wo_offset _ _ _ _ _ Hrs). lia. }
  pose proof (seal_spec f home w rs s Hinv Hrs) as Hspec. rewrite Hseal in Hspec.
  destruct Hspec as (f' & Hinv' & -> & Hmax' & Hchunk & (n & Hn & Hn') & Hd).
  cbn [sl_path sl_header sl_footer] in *. rewrite Hname in Hn. injection Hn as <-.
  destruct (Hd i Hi) as (i' & Hi' & Hd'). rewrite (data_lookup _ _ _ Hi').
  assert (i_data i' = sealed_layout (cw_header w) rs) as Hlay.
  { rewrite Hd', Hdata. replace (Z.to_nat (64 + sizes rs)) with (length (open_layout (cw_header w) rs))
      by (pose proof (length_open_layout (cw_header w) rs); lia).
    rewrite <-(app_nil_r (open_layout (cw_header w) rs)) at 2. rewrite patch_at, drop_nil, app_nil_r. done. }
  split_and!; try done.
  - rewrite Hlay. apply verify_sealed_layout; try done; [apply Hrs|].
    unfold MAX_FILE_BYTES, u64_max in *. lia.
  - exists f'. split; [apply Hinv'|done].
Qed.

(** C19. A successful reconciliation leaves the file, its name and the catalog
    agreeing about the chunk it was called on. Reported sealed: the chunk's
    file has its sealed name alone, its contents are as before and verify with
    the reported header and footer, and the catalog has the chunk sealed with
    that length and count. Reported open: the chunk's file has its open name
    alone and holds exactly the complete records it started with, each of at
    most 64 MiB, and every such prefix of the old contents is kept; the report
    and the catalog give their length and count. *)
Theorem reconciliation_agrees s0 s p r s' :
  initial s0 → rtc store_step (s0, None) (s, None) → reconcile_chunk p s = (Ok r, s') →
  ∃ f, holds_view (sys_catalog s') f ∧ reconciled p (sys_disk s) (sys_disk s') f r.
Proof.
  intros Hinit Hreach Hr. destruct (reachable_good _ _ Hinit Hreach) as (f & home & Hinv & _).
  pose proof (reconcile_spec f home s p Hinv) as Hspec. rewrite Hr in Hspec.
  destruct Hspec as (f' & Hinv' & Hok). exists f'. split; [apply Hinv'|by apply Hok].
Qed.

(** ** A seal that does not verify *)

Lemma record_not_footer r rest ft tail :
  record_layout r ++ rest = SealedChunkFooter_encode ft ++ tail → False.
Proof.
  rewrite SealedChunkFooter_encode_layout. intros Heq%(f_equal (take 2)).
  unfold record_layout, meta_layout, meta_prefix, footer_layout in Heq.
  cbn [app take RECORD_MAGIC SEALED_CHUNK_FOOTER_MAGIC] in Heq. done.
Qed.

(** A footer followed by more bytes after the records never verifies. *)
Lemma trailing_bytes_unverifiable h rs ft tail v :
  header_wf h → Forall scannable rs → tail ≠ [] →
  len (open_layout h rs ++ SealedChunkFooter_encode ft ++ tail) ≤ MAX_FILE_BYTES →
  verify_sealed_file (open_layout h rs ++ SealedChunkFooter_encode ft ++ tail) ≠ Ok v.
Proof.
  intros Hh Hall Htail Hmax Hv. pose proof (sizes_nonneg rs).
  set (file := open_layout h rs ++ SealedChunkFooter_encode ft ++ tail) in *.
  assert (len file ≤ u64_max) as Hu by (unfold MAX_FILE_BYTES, u64_max in *; lia).
  destruct (verify_sealed_inv _ _ Hu Hv) as (rs' & Hh' & Hall' & _ & Hfile & _).
  assert (vs_header v = h) as Heq.
  { assert (read_chunk_header file = Ok h) as H1'
      by (unfold file, open_layout; rewrite <-app_assoc; by apply read_header_layout).
    rewrite Hfile in H1'. unfold sealed_layout, open_layout in H1'.
    rewrite <-app_assoc, read_header_layout in H1' by done. congruence. }
  rewrite Heq in Hfile.
  assert (len file = 128 + sizes rs') as Hlen'.
  { rewrite Hfile. unfold len. apply length_sealed_layout. }
  assert (len file = 128 + sizes rs + Z.of_nat (length tail)) as Hlen.
  { unfold file, len. rewrite !length_app, length_SealedChunkFooter_encode, !Nat2Z.inj_add, length_open_layout. lia. }
  assert (0 < length tail)%nat as Htl by (clear -Htail; destruct tail; [done|cbn; lia]).
  destruct (holds_prefix file 64 (64 + sizes rs') rs rs' OffsetOverflow) as [more Hmore].
  - apply open_layout_holds; [done|lia].
  - rewrite Hfile. unfold sealed_layout. apply open_layout_holds; [done|lia].
  - lia.
  - lia.
  - lia.
  - by left.
  - subst rs'. rewrite sizes_app in Hlen'. destruct more as [|r more].
    { assert (sizes [] = 0) as Hz by reflexivity. lia. }
    unfold sealed_layout, file in Hfile. unfold open_layout at 2 in Hfile.
    rewrite records_layout_app, (app_assoc (ChunkHeader_encode h)), <-app_assoc in Hfile.
    fold (open_layout h rs) in Hfile. apply app_inv_head in Hfile.
    rewrite records_layout_cons, <-app_assoc in Hfile. symmetry in Hfile. by apply record_not_footer in Hfile.
Qed.

(** A failed append can spoil the seal: when a write that failed part-way
    has left more than a footer's length of bytes after the last record, a
    following [seal_and_publish] can succeed and record the chunk as sealed,
    but the file it leaves under the sealed name never verifies. *)
Theorem torn_append_spoils_seal s0 s w sc s' :
  initial s0 → rtc store_step (s0, None) (s, Some w) →
  cw_next_offset w + SEALED_CHUNK_FOOTER_LEN < len (data (sys_disk s) (cw_file w)) →
  seal_and_publish w s = (Ok sc, s') →
  (∃ f m, holds_view (sys_catalog s') f ∧ cm_state m = Sealed ∧
     f (KChunk (ch_generation (cw_header w)) (ch_chunk_id (cw_header w))) = Some (VChunk m)) ∧
  ∀ v, verify_sealed_file (data (sys_disk s') (cw_file w)) ≠ Ok v.
Proof.
  intros Hinit Hreach Hjunk Hseal.
  destruct (reachable_good _ _ Hinit Hreach) as (f & home & Hinv & Hw). destruct (Hw w eq_refl) as [rs Hrs].
  cbn [fst] in *. pose proof (seal_spec f home w rs s Hinv Hrs) as Hspec. rewrite Hseal in Hspec.
  destruct Hspec as (f' & Hinv' & _ & Hmax & Hchunk & _ & Hd). split.
  { exists f'. eexists. split; [apply Hinv'|]. split; [|exact Hchunk]. done. }
  destruct (wo_file _ _ _ _ _ Hrs) as (i & Hi & [junk Hj]). destruct (Hd i Hi) as (i' & Hi' & Hd').
  pose proof (wo_offset _ _ _ _ _ Hrs) as Hoff. pose proof (sizes_nonneg rs).
  rewrite (data_lookup _ _ _ Hi), Hj, Hoff in Hjunk. unfold len, SEALED_CHUNK_FOOTER_LEN in Hjunk.
  rewrite length_app, Nat2Z.inj_add, length_open_layout in Hjunk.
  pose proof (inv_sane _ _ _ Hinv' _ _ Hi') as Hsane. intros v. rewrite (data_lookup _ _ _ Hi').
  rewrite Hd', Hj in Hsane |- *.
  replace (Z.to_nat (64 + sizes rs)) with (length (open_layout (cw_header w) rs)) in Hsane |- *
    by (pose proof (length_open_layout (cw_header w) rs); lia).
  rewrite patch_at, length_SealedChunkFooter_encode in Hsane |- *.
  apply trailing_bytes_unverifiable; [apply Hrs|apply Hrs| |done].
  intros Hnil%(f_equal length). rewrite length_drop in Hnil. cbn in Hnil. lia.
Qed.
End Guarantees.

(** ** Witnesses *)

Section Demo.
#[local] Existing Instance toy_digests.
#[local] Existing Instance toy_zstd.

(** A store on an empty disk where the calls [faults] fail. *)
Definition demo_start (faults : list (option Fault)) : Sys InMemoryCatalog :=
  mkSys (mkDisk [] ∅ [] faults) InMemoryCatalog_default.
Definition demo_path : Path := mkPath [x64] [x30] (Some "open"%string).
Definition demo_writer : ChunkWriter := mkChunkWriter demo_path 0 sample_chunk 64 0 Crc.new.
Definition demo_repo : RepoId := mkRepoId (zeros 16).
Definition demo_created faults := (create_and_publish demo_path sample_chunk (demo_start faults)).2.
Definition demo_append faults :=
  append_and_index demo_repo 1 2 sample_zstd_record (demo_writer, demo_created faults).
Definition demo_appended faults : Sys InMemoryCatalog := (demo_append faults).2.2.
Definition demo_next faults : ChunkWriter := (demo_append faults).2.1.

Lemma demo_initial faults : initial (demo_start faults).
Proof.
  split; [intros n i Hi; done|]. exists (stored InMemoryCatalog_default). split; [done|]. done.
Qed.
Lemma demo_record_wf : record_wf sample_zstd_record.
Proof. by vm_compute. Qed.
Lemma demo_record_size : size sample_zstd_record ≤ MAX_RECOVERY_RECORD_BYTES.
Proof. vm_compute. congruence. Qed.
Lemma demo_create_step faults :
  (create_and_publish demo_path sample_chunk (demo_start faults)).1 = Ok demo_writer →
  rtc store_step (demo_start faults, None) (demo_created faults, Some demo_writer).
Proof.
  intros Hok. apply rtc_once. change (Some demo_writer) with (ok (@Ok StoreError _ demo_writer)).
  rewrite <-Hok. apply (step_create _ demo_path sample_chunk); [exact sample_chunk_wf|].
  apply surjective_pairing.
Qed.
Lemma demo_append_step faults :
  (create_and_publish demo_path sample_chunk (demo_start faults)).1 = Ok demo_writer →
  rtc store_step (demo_start faults, None) (demo_appended faults, Some (demo_next faults)).
Proof.
  intros Hok. eapply rtc_r; [by apply demo_create_step|].
  apply (step_append _ demo_writer demo_repo 1 2 sample_zstd_record (demo_append faults).1);
    [exact demo_record_wf|exact demo_record_size|done|].
  unfold demo_next, demo_appended, demo_append. destruct (append_and_index _ _ _ _ _) as [r [w s]]. done.
Qed.

Lemma indexed_objects_survive_witness :
  ∃ p n r, d_names (sys_disk (demo_appended [])) !! p = Some n ∧
    or_content_id r = or_content_id sample_zstd_record ∧
    read_record_at (data (mkDisk (d_inodes (sys_disk (demo_appended []))) (d_names (sys_disk (demo_appended []))) [] []) n)
      sample_location = Ok r ∧
    ∃ rc file', recover_file (data (mkDisk (d_inodes (sys_disk (demo_appended [])))
        (d_names (sys_disk (demo_appended []))) [] []) n) = Ok (rc, file') ∧
      read_record_at file' sample_location = Ok r.
Proof.
  apply (indexed_objects_survive (demo_start []) (demo_appended []) (Some (demo_next []))
    (or_content_id sample_zstd_record) sample_location
    (mkDisk (d_inodes (sys_disk (demo_appended []))) (d_names (sys_disk (demo_appended []))) [] [])).
  - apply demo_initial.
  - apply demo_append_step. vm_compute. reflexivity.
  - reflexivity.
  - vm_compute. reflexivity.
  - apply crash_intro; [left|].
    assert (forallb (λ i, bool_decide (i_synced i = i_data i ∧ len (i_data i) ≤ MAX_FILE_BYTES))
      (d_inodes (sys_disk (demo_appended []))) = true) as Hall by (vm_compute; reflexivity).
    apply Forall2_same_length_lookup_2; [reflexivity|].
    intros k i1 i2 H1' H2'. rewrite H1' in H2'. injection H2' as <-.
    eapply forallb_forall in Hall; [|eapply list_elem_of_In, list_elem_of_lookup_2, H1'].
    apply bool_decide_eq_true in Hall as [Hsy Hlen]. split_and!; auto.
Defined.

Lemma append_indexes_witness :
  ∃ l f f', ol_offset l = 64 ∧ ol_record_length l = size sample_zstd_record ∧
    ol_generation l = 1 ∧ ol_chunk_id l = 2 ∧
    read_record_at (data (sys_disk (demo_appended [])) (cw_file (demo_next []))) l = Ok sample_zstd_record ∧
    holds_view (sys_catalog (demo_created [])) f ∧ holds_view (sys_catalog (demo_appended [])) f' ∧
    ∀ k, f' k =
      if decide (k = KObject (or_content_id sample_zstd_record)) then Some (VLocation l)
      else if decide (k = KAlias demo_repo (or_primary_oid sample_zstd_record))
      then Some (VContent (or_content_id sample_zstd_record))
      else if decide (k = KChunk 1 2) then
        Some (VChunk (mkChunkMetadata Open (cw_next_offset demo_writer + size sample_zstd_record)
          (cw_record_count demo_writer + 1)))
      else f k.
Proof.
  apply (append_indexes (demo_start []) (demo_created []) demo_writer sample_zstd_record demo_repo 1 2
    (mkRecordLocation 64 (size sample_zstd_record)) (demo_next []) (demo_appended [])).
  - apply demo_initial.
  - apply demo_create_step. vm_compute. reflexivity.
  - exact demo_record_wf.
  - exact demo_record_size.
  - reflexivity.
  - assert ((demo_append []).1 = Ok (Some (mkRecordLocation 64 (size sample_zstd_record)))) as Hok
      by (vm_compute; reflexivity).
    unfold demo_next, demo_appended. fold (demo_append []). rewrite <-Hok.
    destruct (demo_append []) as [r [w s]]. reflexivity.
Defined.

Definition demo_sealed_chunk : SealedChunk :=
  mkSealedChunk (with_extension demo_path "sealed") sample_chunk (seal_footer [sample_zstd_record]).

Lemma sealed_chunk_verifies_witness :
  verify_sealed_file (data (sys_disk (seal_and_publish (demo_next []) (demo_appended [])).2) 0) =
    Ok (mkVerified sample_chunk (seal_footer [sample_zstd_record])).
Proof.
  apply (sealed_chunk_verifies (demo_start []) (demo_appended []) (demo_next []) [sample_zstd_record]
    demo_sealed_chunk (seal_and_publish (demo_next []) (demo_appended [])).2).
  - apply demo_initial.
  - apply demo_append_step. vm_compute. reflexivity.
  - vm_compute. reflexivity.
  - vm_compute. reflexivity.
  - constructor; [|constructor]. split_and!;
      [exact demo_record_wf|vm_compute; split; congruence|exact demo_record_size].
  - constructor; [vm_compute; reflexivity|constructor].
  - vm_compute. reflexivity.
  - assert ((seal_and_publish (demo_next []) (demo_appended [])).1 = Ok demo_sealed_chunk) as Hok
      by (vm_compute; reflexivity).
    rewrite <-Hok. apply surjective_pairing.
Defined.

Lemma reconciliation_agrees_witness :
  ∃ f, holds_view (sys_catalog (reconcile_chunk demo_path (demo_created [])).2) f ∧
    reconciled demo_path (sys_disk (demo_created [])) (sys_disk (reconcile_chunk demo_path (demo_created [])).2) f
      (ReconciledOpen (mkRecovery sample_chunk 0 64 0 Crc.new)).
Proof.
  apply (reconciliation_agrees (demo_start []) (demo_created []) demo_path
    (ReconciledOpen (mkRecovery sample_chunk 0 64 0 Crc.new))
    (reconcile_chunk demo_path (demo_created [])).2).
  - apply demo_initial.
  - eapply rtc_r; [apply demo_create_step; vm_compute; reflexivity|apply step_close].
  - assert ((reconcile_chunk demo_path (demo_created [])).1 =
      Ok (ReconciledOpen (mkRecovery sample_chunk 0 64 0 Crc.new))) as Hok by (vm_compute; reflexivity).
    rewrite <-Hok. apply surjective_pairing.
Defined.

(** The append fails after 100 bytes reached the file. *)
Definition torn_faults : list (option Fault) := replicate 5 None ++ [Some (mkFault OtherIo 100)].

Lemma torn_append_spoils_seal_witness :
  (seal_and_publish (demo_next torn_faults) (demo_appended torn_faults)).1 =
    Ok (mkSealedChunk (with_extension demo_path "sealed") sample_chunk (seal_footer [])) ∧
  ∀ v, verify_sealed_file
    (data (sys_disk (seal_and_publish (demo_next torn_faults) (demo_appended torn_faults)).2) 0) ≠ Ok v.
Proof.
  assert ((seal_and_publish (demo_next torn_faults) (demo_appended torn_faults)).1 =
    Ok (mkSealedChunk (with_extension demo_path "sealed") sample_chunk (seal_footer []))) as Hok
    by (vm_compute; reflexivity).
  split; [exact Hok|].
  apply (torn_append_spoils_seal (demo_start torn_faults) (demo_appended torn_faults)
    (demo_next torn_faults) (mkSealedChunk (with_extension demo_path "sealed") sample_chunk (seal_footer []))
    (seal_and_publish (demo_next torn_faults) (demo_appended torn_faults)).2).
  - apply demo_initial.
  - apply demo_append_step. vm_compute. reflexivity.
  - vm_compute. reflexivity.
  - rewrite <-Hok. apply surjective_pairing.
Defined.
End Demo.
End StoreSpec.
