(* ===== verification/Rotation.v ===== *)
(** * The rotating writer: [reflink-forest-store/src/lib.rs], lines 1310 to 1490

    A chunk writer that seals the active chunk and opens the next one between
    complete records. [expect] on a missing active chunk is a panic. *)

From Stdlib Require Import ZArith Lia Strings.Byte Strings.String.
From stdpp Require Import base tactics list gmap strings.
From S2P Require Import Prelude Crc Core Format Codec CatalogCodec Catalog Chunk Disk Store.
Import Core Format Codec CatalogCodec Catalog Chunk Disk Store.

#[local] Open Scope Z_scope.

Module Rotation.

(** How a call of the rotating writer can end early. *)
Inductive Stop := Raised (e : StoreError) | Panicked.

Record RotatedRecordLocation := mkRotatedRecordLocation {
  rr_generation : Z; rr_chunk_id : Z; rr_location : RecordLocation; rr_dedicated_oversized : bool }.

Record RotatingChunkWriter := mkRotating {
  rw_directory : bytes; rw_generation : Z; rw_target_size : Z; rw_created_unix_secs : Z;
  rw_next_chunk_id : Z; rw_active : option ChunkWriter }.

Section Rotation.
Context `{Digests} `{Zstd} `{Catalog C}.

Abbreviation RIO := (ST (RotatingChunkWriter * Sys C) Stop).

Definition set_active (a : option ChunkWriter) (w : RotatingChunkWriter) : RotatingChunkWriter :=
  mkRotating (rw_directory w) (rw_generation w) (rw_target_size w) (rw_created_unix_secs w)
    (rw_next_chunk_id w) a.
Definition set_next_chunk_id (n : Z) (w : RotatingChunkWriter) : RotatingChunkWriter :=
  mkRotating (rw_directory w) (rw_generation w) (rw_target_size w) (rw_created_unix_secs w) n
    (rw_active w).
Definition update_rotating (f : RotatingChunkWriter → RotatingChunkWriter) : RIO unit :=
  st_modify (λ s, (f s.1, s.2)).

(** A store call, and a pure failure, inside the rotating writer. *)
Definition in_sys {A} (m : ST (Sys C) StoreError A) : RIO A := st_map_err Raised (with_sys m).
Definition raise {A} (r : result StoreError A) : RIO A := st_lift (map_err Raised r).

(** [self.active.as_ref().expect(..)]. *)
Definition active : RIO ChunkWriter := λ s, (ok_or (rw_active s.1) Panicked, s).

(** A call of the active chunk writer, which it updates in place. *)
Definition on_active {A} (m : ST (ChunkWriter * Sys C) StoreError A) : RIO A := λ s,
  match rw_active s.1 with
  | None => (Err Panicked, s)
  | Some w => let '(r, (w', sys')) := m (w, s.2) in
              (map_err Raised r, (set_active (Some w') s.1, sys'))
  end.

Definition create_next : RIO unit :=
  self ⇐ st_get fst;
  let chunk_id := rw_next_chunk_id self in
  next ⇐ raise (ok_or (checked_add (rw_next_chunk_id self) 1) OffsetOverflow);
  _ ⇐ update_rotating (set_next_chunk_id next);
  let path := open_chunk_path (rw_directory self) chunk_id in
  writer ⇐ in_sys (create_and_publish path
    (mkChunkHeader (rw_generation self) chunk_id (rw_created_unix_secs self) 0));
  update_rotating (set_active (Some writer)).

Definition seal_current : RIO SealedChunk :=
  writer ⇐ active;
  _ ⇐ update_rotating (set_active None);
  in_sys (seal_and_publish writer).

(** [RotatingChunkWriter::create]; the new writer is the state it leaves. *)
Definition rotating_create (directory : bytes) (generation first_chunk_id target_size created_unix_secs : Z)
    (s : Sys C) : result Stop RotatingChunkWriter * Sys C :=
  let run : RIO unit :=
    minimum ⇐ raise (ok_or (checked_add CHUNK_HEADER_LEN SEALED_CHUNK_FOOTER_LEN) OffsetOverflow);
    _ ⇐ raise (ensure (bool_decide (minimum ≤ target_size)) RotationTargetTooSmall);
    _ ⇐ in_sys (on_disk (create_dir_all directory));
    create_next in
  match run (mkRotating directory generation target_size created_unix_secs first_chunk_id None, s) with
  | (Ok _, (w, s')) => (Ok w, s')
  | (Err e, (_, s')) => (Err e, s')
  end.

(** The length a chunk of length [open_length] has once a record of
    [encoded_len] bytes and the footer follow. *)
Definition sealed_length (open_length encoded_len : Z) : option Z :=
  n ← checked_add open_length encoded_len; checked_add n SEALED_CHUNK_FOOTER_LEN.

Definition rotating_append_and_index (repo : RepoId) (record : ObjectRecord)
    : RIO (option RotatedRecordLocation) :=
  present ⇐ st_get (λ s, object_location (sys_catalog s.2) (or_content_id record));
  self ⇐ st_get fst;
  let generation := rw_generation self in
  match present with
  | Some _ =>
      a ⇐ active;
      let chunk_id := ch_chunk_id (cw_header a) in
      location ⇐ on_active (append_and_index repo generation chunk_id record);
      st_ret (option_map (λ l, mkRotatedRecordLocation generation chunk_id l false) location)
  | None =>
      encoded ⇐ raise (map_err StoreFormat (encode_record record));
      encoded_len ⇐ raise (ok_or (u64_try_from (len encoded)) OffsetOverflow);
      minimum_record_chunk ⇐ raise (ok_or (sealed_length CHUNK_HEADER_LEN encoded_len) OffsetOverflow);
      let oversized := bool_decide (rw_target_size self < minimum_record_chunk) in
      a ⇐ active;
      would_be ⇐ raise (ok_or (sealed_length (cw_next_offset a) encoded_len) OffsetOverflow);
      let would_exceed_target :=
        bool_decide (rw_target_size self < would_be) && bool_decide (cw_record_count a ≠ 0) in
      _ ⇐ (if would_exceed_target then
             _ ⇐ seal_current;
             create_next
           else st_ret ());
      a ⇐ active;
      let chunk_id := ch_chunk_id (cw_header a) in
      appended ⇐ on_active (append_and_index repo generation chunk_id record);
      location ⇐ st_lift (ok_or appended Panicked);
      _ ⇐ (if oversized then
             _ ⇐ seal_current;
             create_next
           else st_ret ());
      st_ret (Some (mkRotatedRecordLocation generation chunk_id location oversized))
  end.

Definition finish : RIO SealedChunk := seal_current.

End Rotation.
End Rotation.
