(* ===== verification/RotationSpec.v ===== *)
(** * The rotating writer refines the store

    Every call of the rotating writer is a sequence of store steps, so the
    store's guarantees hold for it; and the active chunk never outgrows the
    target unless it holds a single oversized record. *)

From Stdlib Require Import ZArith Lia Strings.Byte Strings.String.
From stdpp Require Import base tactics list gmap strings relations.
From S2P Require Import Prelude Crc Core Format FormatSpec RecordSpec Codec CatalogCodec Catalog CatalogSpec CatalogInterface Chunk ChunkSpec RecoverySpec ReadSpec Disk DiskSpec Store WriterSpec StoreSpec Rotation.
Import Core Format FormatSpec RecordSpec Codec CatalogCodec Catalog CatalogSpec CatalogInterface Chunk ChunkSpec RecoverySpec ReadSpec Disk DiskSpec Store WriterSpec StoreSpec Rotation.

#[local] Open Scope Z_scope.

Module RotationSpec.

Section Refinement.
Context `{Digests} `{Zstd} `{CatalogLaws C}.
Implicit Types (s : Sys C) (rw : RotatingChunkWriter).

Abbreviation RIO := (ST (RotatingChunkWriter * Sys C) Stop).

(** The active chunk fits the target with its footer, or is a single record. *)
Definition fits_target (target : Z) (w : ChunkWriter) : Prop :=
  cw_next_offset w + 64 ≤ target ∨ cw_record_count w = 1.

Record rotating_ok rw s : Prop := {
  ro_generation : is_u32 (rw_generation rw);
  ro_created : is_u64 (rw_created_unix_secs rw);
  ro_next : is_u64 (rw_next_chunk_id rw);
  ro_target : 128 ≤ rw_target_size rw;
  ro_good : good (s, rw_active rw);
  ro_fits w : rw_active rw = Some w → fits_target (rw_target_size rw) w }.

Definition same_target rw rw' : Prop := rw_target_size rw' = rw_target_size rw.

(** From states in [P], [m] takes store steps, keeps the rotating writer sound,
    and on success ends in [Q]. *)
Definition moves {A} (P : RotatingChunkWriter → Sys C → Prop) (m : RIO A)
    (Q : A → RotatingChunkWriter → Sys C → Prop) : Prop :=
  ∀ rw s, rotating_ok rw s → P rw s →
  match m (rw, s) with
  | (r, (rw', s')) => rotating_ok rw' s' ∧ same_target rw rw' ∧
      rtc store_step (s, rw_active rw) (s', rw_active rw') ∧ ∀ a, r = Ok a → Q a rw' s'
  end.

Lemma moves_bind {A B} P R (Q : B → _ → _ → Prop) (m : RIO A) k :
  moves P m R → (∀ a, moves (R a) (k a) Q) → moves P (st_bind m k) Q.
Proof.
  intros Hm Hk rw s Hok HP. specialize (Hm rw s Hok HP). unfold st_bind.
  destruct (m (rw, s)) as [[a|e] [rw1 s1]]; destruct Hm as (Hok1 & Ht1 & Hr1 & HR); [|done].
  specialize (Hk a rw1 s1 Hok1 (HR a eq_refl)).
  destruct (k a (rw1, s1)) as [r [rw2 s2]]. destruct Hk as (Hok2 & Ht2 & Hr2 & HQ).
  split_and!; [done|unfold same_target in *; congruence|by etransitivity|done].
Qed.
Lemma moves_pure {A} P (Q : A → _ → _ → Prop) (r : result Stop A) :
  (∀ a rw s, r = Ok a → P rw s → Q a rw s) → moves P (st_lift r) Q.
Proof. intros HQ rw s Hok HP. cbn. split_and!; try done. intros a Ha. by apply HQ. Qed.
Lemma moves_raise {A} P (r : result StoreError A) :
  moves P (raise r) (λ a rw s, P rw s ∧ r = Ok a).
Proof. apply moves_pure. intros a rw s Ha HP. split; [done|]. by apply map_err_Ok_inv in Ha. Qed.
Lemma moves_get {A} P (f : RotatingChunkWriter * Sys C → A) :
  moves P (st_get f) (λ a rw s, P rw s ∧ f (rw, s) = a).
Proof. intros rw s Hok HP. cbn. split_and!; try done. by intros a [= <-]. Qed.
Lemma moves_ret {A} P (a : A) (Q : A → _ → _ → Prop) :
  (∀ rw s, P rw s → Q a rw s) → moves P (st_ret a) Q.
Proof. intros HQ rw s Hok HP. cbn. split_and!; try done. intros a' [= <-]. by apply HQ. Qed.
Lemma moves_active P : moves P active (λ w rw s, P rw s ∧ rw_active rw = Some w).
Proof.
  intros rw s Hok HP. cbn. split_and!; try done. intros w Hw. split; [done|].
  by apply ok_or_Ok_inv in Hw.
Qed.
Lemma moves_weaken {A} P P' (Q Q' : A → _ → _ → Prop) (m : RIO A) :
  moves P' m Q' → (∀ rw s, P rw s → P' rw s) → (∀ a rw s, Q' a rw s → Q a rw s) → moves P m Q.
Proof.
  intros Hm HP HQ rw s Hok Hp. specialize (Hm rw s Hok (HP rw s Hp)).
  destruct (m (rw, s)) as [r [rw' s']]. destruct Hm as (? & ? & ? & HQ'). split_and!; auto.
Qed.

(** ** The calls of the rotating writer *)

Definition idle rw s : Prop := rw_active rw = None.

Lemma create_next_moves :
  moves idle create_next (λ _ rw _, ∃ w, rw_active rw = Some w ∧ cw_next_offset w = 64 ∧ cw_record_count w = 0).
Proof.
  intros rw s Hok Hidle. unfold create_next, st_bind, st_get, raise, st_lift, update_rotating, st_modify.
  cbn [fst snd]. pose proof Hok as [Hg Hc Hn Ht Hgood _].
  destruct (checked_add (rw_next_chunk_id rw) 1) as [next|] eqn:Hnext; cbn [ok_or map_err]; [|done].
  apply checked_add_inv in Hnext as [-> Hnext].
  set (p := open_chunk_path _ _). set (h := mkChunkHeader _ _ _ _).
  assert (header_wf h) as Hh by (split_and!; try done).
  unfold in_sys, st_map_err, with_sys. cbn [fst snd].
  destruct (create_and_publish p h s) as [r s'] eqn:Hcr.
  assert (store_step (s, None) (s', ok r)) as Hstep by (by eapply step_create).
  unfold idle in Hidle. rewrite Hidle in Hgood |- *. pose proof (step_good _ _ Hstep Hgood) as Hgood'.
  assert (∀ w, r = Ok w → cw_next_offset w = 64 ∧ cw_record_count w = 0) as Hw.
  { intros w ->. destruct Hgood as (f & home & Hinv & _).
    pose proof (create_and_publish_spec f home s p h Hinv Hh) as Hspec. rewrite Hcr in Hspec.
    destruct Hspec as (f' & _ & Hw). destruct (Hw w eq_refl) as (_ & _ & Hwo & _).
    by rewrite (wo_offset _ _ _ _ _ Hwo), (wo_count _ _ _ _ _ Hwo). }
  assert (is_u64 (rw_next_chunk_id rw + 1)) as Hn' by (unfold in_width, u64_max in *; lia).
  destruct r as [w|e]; cbn [map_err ok] in *.
  - destruct (Hw w eq_refl) as [Ho Hr]. split_and!; [|done|by apply rtc_once|by intros _ _; exists w].
    split; try done. intros w0 [= <-]. left. cbn [fst rw_target_size set_active set_next_chunk_id]. lia.
  - split_and!; [|done|cbn; rewrite Hidle; by apply rtc_once|done].
    split; try done; cbn; rewrite Hidle; done.
Qed.

Lemma seal_current_moves P :
  moves P seal_current (λ sc rw _, rw_active rw = None ∧
    (sf_final_length (sl_footer sc) ≤ rw_target_size rw ∨ sf_record_count (sl_footer sc) = 1)).
Proof.
  intros rw s Hok _. unfold seal_current, st_bind, active, update_rotating, st_modify. cbn [fst snd].
  destruct (rw_active rw) as [w|] eqn:Hact; cbn [ok_or]; [|by rewrite Hact].
  unfold in_sys, st_map_err, with_sys. cbn [fst snd].
  destruct (seal_and_publish w s) as [r s'] eqn:Hs.
  assert (store_step (s, Some w) (s', None)) as Hstep by (by eapply step_seal).
  destruct Hok as [Hg Hc Hn Ht Hgood Hfits]. rewrite Hact in Hgood.
  pose proof (step_good _ _ Hstep Hgood) as Hgood'.
  split_and!; [by split|done|by apply rtc_once|].
  intros sc Hr. split; [done|]. apply map_err_Ok_inv in Hr as ->.
  destruct Hgood as (f & home & Hinv & Hw). destruct (Hw w eq_refl) as [rs Hrs]. cbn [fst] in *.
  pose proof (seal_spec f home w rs s Hinv Hrs) as Hspec. rewrite Hs in Hspec.
  destruct Hspec as (f' & _ & -> & _). cbn [sl_footer seal_footer sf_final_length sf_record_count set_active rw_target_size].
  destruct (Hfits w Hact) as [Hf|Hf]; [left|right].
  - rewrite (wo_offset _ _ _ _ _ Hrs) in Hf. lia.
  - by rewrite <-(wo_count _ _ _ _ _ Hrs).
Qed.

(** Appending keeps the bound when the record fits or the chunk is empty. *)
Lemma append_moves repo g c record P :
  record_wf record → size record ≤ MAX_RECOVERY_RECORD_BYTES → RepoId_wf repo →
  (∀ rw s w, P rw s → rw_active rw = Some w →
     is_Some (object_location (sys_catalog s) (or_content_id record)) ∨
     cw_next_offset w + size record + 64 ≤ rw_target_size rw ∨ cw_record_count w = 0) →
  moves P (on_active (append_and_index repo g c record)) (λ _ rw _, is_Some (rw_active rw)).
Proof.
  intros Hr Hm Hrepo HP rw s Hok Hp. unfold on_active. cbn [fst snd].
  destruct (rw_active rw) as [w|] eqn:Hact; [|by rewrite Hact].
  destruct Hok as [Hg Hc Hn Ht Hgood Hfits]. rewrite Hact in Hgood.
  pose proof Hgood as (f & home & Hinv & Hw). destruct (Hw w eq_refl) as [rs Hrs]. cbn [fst] in *.
  pose proof (append_and_index_spec f home w rs s record repo g c Hinv Hrs Hr Hm Hrepo) as Hspec.
  destruct (append_and_index repo g c record (w, s)) as [r [w' s']] eqn:Ha.
  assert (store_step (s, Some w) (s', Some w')) as Hstep by (by eapply step_append).
  pose proof (step_good _ _ Hstep Hgood) as Hgood'.
  split_and!; [|done|by apply rtc_once|by intros; exists w']. split; try done.
  intros w0 [= <-]. cbn [set_active rw_target_size].
  destruct Hspec as (f' & home' & rs' & _ & _ & Hres).
  assert (w' = w ∨ w' = appended w record ∧
    object_location (sys_catalog s) (or_content_id record) = None) as [->|[-> Hnone]].
  { destruct r as [[loc|]|e].
    - right. by destruct Hres as (_ & _ & _ & _ & _ & ? & _ & ?).
    - left. by destruct Hres as (_ & ? & _).
    - destruct Hres as [[? _]|(? & _ & ?)]; auto. }
  { by apply Hfits. }
  destruct (HP rw s w Hp Hact) as [[l Hl]|[Hf|Hz]]; [congruence|left|right];
    cbn [appended cw_next_offset cw_record_count checksum_record count_record advance]; lia.
Qed.

Definition rotate : RIO unit := _ ⇐ seal_current; create_next.
Lemma rotate_moves P :
  moves P rotate (λ _ rw _, ∃ w, rw_active rw = Some w ∧ cw_next_offset w = 64 ∧ cw_record_count w = 0).
Proof.
  eapply moves_bind; [apply seal_current_moves|]. intros sc.
  eapply moves_weaken; [apply create_next_moves|by intros rw s [? _]|done].
Qed.

Lemma sealed_length_inv n k t : sealed_length n k = Some t → t = n + k + 64.
Proof.
  unfold sealed_length, SEALED_CHUNK_FOOTER_LEN. intros Hs.
  destruct (checked_add n k) as [m|] eqn:E; cbn in Hs; [|done].
  apply checked_add_inv in E as [-> _], Hs as [-> _]. done.
Qed.

(** The room there is for a record before it is appended. *)
Definition has_room (record : ObjectRecord) rw s : Prop := ∀ w, rw_active rw = Some w →
  cw_next_offset w + size record + 64 ≤ rw_target_size rw ∨ cw_record_count w = 0.

Lemma rotating_append_moves repo record :
  record_wf record → size record ≤ MAX_RECOVERY_RECORD_BYTES → RepoId_wf repo →
  moves (λ _ _, True) (rotating_append_and_index repo record) (λ _ rw _, is_Some (rw_active rw)).
Proof.
  intros Hr Hm Hrepo. unfold rotating_append_and_index.
  eapply moves_bind; [apply moves_get|]. intros present.
  eapply moves_bind; [apply moves_get|]. intros self.
  destruct present as [l|].
  - eapply moves_bind; [apply moves_active|]. intros a.
    eapply moves_bind.
    + apply append_moves; try done. intros rw s w [[[_ Hl] _] _] _. left. by exists l.
    + intros loc. by apply moves_ret.
  - eapply moves_bind; [apply moves_raise|]. intros encoded.
    eapply moves_bind; [apply moves_raise|]. intros n.
    eapply moves_bind; [apply moves_raise|]. intros t.
    eapply moves_bind; [apply moves_active|]. intros a.
    eapply moves_bind; [apply moves_raise|]. intros would_be.
    eapply (moves_bind _ (λ _, has_room record)).
    + destruct (bool_decide (rw_target_size self < would_be)) eqn:Hex;
        [destruct (bool_decide (cw_record_count a ≠ 0)) eqn:Hz; cbn [andb]|].
      * eapply moves_weaken; [apply (rotate_moves (λ _ _, True))|done|].
        intros _ rw s (w & Hw & _ & Hc) w' Hw'. right. congruence.
      * apply bool_decide_eq_false, dec_stable in Hz. apply moves_ret.
        intros rw s [[_ Hact] _] w Hw. right. congruence.
      * apply bool_decide_eq_false in Hex. cbn [andb]. apply moves_ret.
        intros rw s [[[[[[_ Hself] Henc] Hn] _] Hact] Hwb] w Hw. left.
        apply map_err_Ok_inv in Henc. apply ok_or_Ok_inv in Hn, Hwb. apply sealed_length_inv in Hwb.
        rewrite encode_record_layout in Henc by (done || by apply scannable_fits).
        apply Ok_inj in Henc. unfold u64_try_from in Hn. case_decide; [|done]. injection Hn as <-.
        rewrite <-Henc, len_layout in Hwb by done. cbn [fst] in Hself. subst rw.
        assert (w = a) as -> by congruence. lia.
    + intros _. eapply moves_bind; [apply moves_active|]. intros a'.
      eapply moves_bind.
      * apply append_moves; try done. intros rw s w [Hroom _] Hact. right. by apply Hroom.
      * intros appended_at. eapply (moves_bind _ (λ _ rw _, is_Some (rw_active rw)));
          [by apply moves_pure|]. intros location.
        eapply (moves_bind _ (λ _ rw _, is_Some (rw_active rw))); [|by intros _; apply moves_ret].
        destruct (bool_decide _); [|by apply moves_ret].
        eapply moves_weaken; [apply (rotate_moves (λ _ _, True))|done|].
        intros _ rw s (w & Hw & _). by exists w.
Qed.

(** ** Reachable rotating writers *)

(** The rotating writers a store can have: created on a store without an open
    writer, then used. *)
Inductive rotating_reach (s0 : Sys C) : RotatingChunkWriter → Sys C → Prop :=
| reach_create s directory g first target created rw s' :
    rtc store_step (s0, None) (s, None) → is_u32 g → is_u64 first → is_u64 created →
    rotating_create directory g first target created s = (Ok rw, s') → rotating_reach s0 rw s'
| reach_append rw s repo record r rw' s' :
    rotating_reach s0 rw s → record_wf record → size record ≤ MAX_RECOVERY_RECORD_BYTES → RepoId_wf repo →
    rotating_append_and_index repo record (rw, s) = (r, (rw', s')) → rotating_reach s0 rw' s'
| reach_finish rw s r rw' s' :
    rotating_reach s0 rw s → finish (rw, s) = (r, (rw', s')) → rotating_reach s0 rw' s'.

Lemma create_dir_same dir s r s' :
  on_disk (create_dir_all dir) s = (r, s') → same_files (sys_disk s) (sys_disk s') ∧ sys_catalog s' = sys_catalog s.
Proof.
  unfold on_disk, create_dir_all. intros Hc.
  destruct (io _ (sys_disk s)) as [r1 d1] eqn:E. injection Hc as _ <-. split; [|done].
  cbn [sys_disk]. io_cases E d2 Hs; [done|]. by injection E as _ <-.
Qed.

Lemma rotating_create_ok s directory g first target created rw s' :
  good (s, None) → is_u32 g → is_u64 first → is_u64 created →
  rotating_create directory g first target created s = (Ok rw, s') →
  rotating_ok rw s' ∧ rtc store_step (s, None) (s', rw_active rw).
Proof.
  intros Hgood Hg Hf Hc. unfold rotating_create, st_bind, raise, st_lift, in_sys, st_map_err, with_sys.
  cbn [fst snd]. rewrite checked_add_Some by (by vm_compute). cbn [ok_or map_err].
  case_bool_decide as Ht; cbn [ensure map_err]; [|done].
  destruct (on_disk (create_dir_all directory) s) as [r1 s1] eqn:E1. apply create_dir_same in E1 as [Hs1 Hc1].
  destruct r1 as [u|e]; cbn [map_err]; [|done]. destruct s1 as [d1 c1]. cbn [sys_disk sys_catalog] in *. subst c1.
  assert (store_step (s, None) (mkSys d1 (sys_catalog s), None)) as Hstep by (by apply step_other).
  set (rw0 := mkRotating directory g target created first None).
  assert (rotating_ok rw0 (mkSys d1 (sys_catalog s))) as Hok.
  { split; try done. by apply (step_good _ _ Hstep). }
  pose proof (create_next_moves rw0 _ Hok eq_refl) as Hm.
  destruct (create_next (rw0, _)) as [[u2|e] [rw2 s2]]; [|done]. intros [= <- <-].
  destruct Hm as (Hok2 & _ & Hr2 & _). split; [done|]. by eapply rtc_l.
Qed.

Lemma rotating_reach_ok s0 rw s :
  initial s0 → rotating_reach s0 rw s → rotating_ok rw s ∧ rtc store_step (s0, None) (s, rw_active rw).
Proof.
  intros Hinit. induction 1 as [s directory g first target created rw s' Hr Hg Hf Hc Hcr|
    rw s repo record r rw' s' _ [IHok IHr] Hrec Hm Hrepo Ha|rw s r rw' s' _ [IHok IHr] Hfin].
  - destruct (rotating_create_ok s directory g first target created rw s') as [Hok Hsteps]; try done.
    { by eapply reachable_good. }
    split; [done|]. by etransitivity.
  - pose proof (rotating_append_moves repo record Hrec Hm Hrepo rw s IHok I) as Hmv.
    rewrite Ha in Hmv. destruct Hmv as (Hok & _ & Hsteps & _). split; [done|]. by etransitivity.
  - pose proof (seal_current_moves (λ _ _, True) rw s IHok I) as Hmv.
    unfold finish in Hfin. rewrite Hfin in Hmv. destruct Hmv as (Hok & _ & Hsteps & _).
    split; [done|]. by etransitivity.
Qed.

(** C26. The rotating writer is the store: whatever calls it makes with records
    of at most 64 MiB, fail or not, the store it leaves, with its active chunk, is one that store steps
    reach, so every guarantee of the store holds for it. Its active chunk, once
    sealed, is within the target size unless it holds a single record. *)
Theorem rotation_refines_store s0 rw s :
  initial s0 → rotating_reach s0 rw s →
  rtc store_step (s0, None) (s, rw_active rw) ∧
  (∀ w, rw_active rw = Some w →
     cw_next_offset w + SEALED_CHUNK_FOOTER_LEN ≤ rw_target_size rw ∨ cw_record_count w = 1) ∧
  (∀ sc rw' s', finish (rw, s) = (Ok sc, (rw', s')) →
     sf_final_length (sl_footer sc) ≤ rw_target_size rw ∨ sf_record_count (sl_footer sc) = 1).
Proof.
  intros Hinit Hreach. destruct (rotating_reach_ok _ _ _ Hinit Hreach) as [Hok Hsteps].
  split_and!; [done|intros w Hw; by apply (ro_fits _ _ Hok)|].
  intros sc rw' s' Hfin. pose proof (seal_current_moves (λ _ _, True) rw s Hok I) as Hmv.
  unfold finish in Hfin. rewrite Hfin in Hmv. destruct Hmv as (_ & Ht & _ & HQ).
  rewrite <-Ht. by apply HQ.
Qed.

(** After a rotation that failed between sealing and creating, no chunk is
    active, and every further append panics instead of reporting an error. *)
Lemma failed_rotation_panics rw s repo record :
  rw_active rw = None → scannable record →
  (rotating_append_and_index repo record (rw, s)).1 = Err Panicked.
Proof.
  intros Hnone (Hw & Hf & Hm). unfold rotating_append_and_index, st_bind, st_get, active, raise, st_lift.
  cbn [fst snd]. destruct (object_location _ _) as [l|]; [cbn [fst]; by rewrite Hnone|].
  rewrite encode_record_layout by done. cbn [map_err].
  pose proof (size_pos record). rewrite len_layout by done.
  rewrite u64_try_from_Some by (unfold MAX_RECOVERY_RECORD_BYTES, u64_max in *; lia). cbn [ok_or map_err].
  unfold sealed_length, CHUNK_HEADER_LEN, SEALED_CHUNK_FOOTER_LEN.
  rewrite checked_add_Some by (unfold MAX_RECOVERY_RECORD_BYTES, u64_max in *; lia). cbn [mbind option_bind].
  rewrite checked_add_Some by (unfold MAX_RECOVERY_RECORD_BYTES, u64_max in *; lia). cbn [ok_or map_err].
  cbn [fst]. by rewrite Hnone.
Qed.
End Refinement.

(** ** Witness *)

Section Demo.
#[local] Existing Instance toy_digests.
#[local] Existing Instance toy_zstd.

Definition demo_rotating : RotatingChunkWriter :=
  mkRotating [x64] 1 512 3 8 (Some (mkChunkWriter (open_chunk_path [x64] 7) 0 (mkChunkHeader 1 7 3 0) 64 0 Crc.new)).

Lemma rotation_refines_store_witness :
  rtc store_step (demo_start [], None)
    ((rotating_create [x64] 1 7 512 3 (demo_start [])).2, rw_active demo_rotating).
Proof.
  assert ((rotating_create [x64] 1 7 512 3 (demo_start [])).1 = Ok demo_rotating) as Hok
    by (vm_compute; reflexivity).
  apply (rotation_refines_store (demo_start []) demo_rotating).
  - apply demo_initial.
  - eapply (reach_create _ (demo_start []) [x64] 1 7 512 3); [constructor| | | |];
      [vm_compute; split; congruence..|]. rewrite <-Hok. apply surjective_pairing.
Defined.
End Demo.
End RotationSpec.
