(* ===== verification/Rebuild.v ===== *)
(** * Rebuilding object locations: [reflink-forest-store/src/lib.rs]

    The locations-only catalog rebuild: scan every chunk, choose one location
    per object, check the preserved aliases against the objects, then replace
    the catalog's locations in bounded batches. *)

From Stdlib Require Import ZArith Lia Strings.Byte Strings.String.
From stdpp Require Import base tactics list gmap strings.
From S2P Require Import Prelude Order Crc Core Format Codec CatalogCodec Catalog Chunk Disk Store.
Import Core Format Codec CatalogCodec Catalog Chunk Disk Store.

#[local] Open Scope Z_scope.

Module Rebuild.

Definition DEFAULT_LOCATION_REBUILD_BATCH_ENTRIES : Z := 1024.

Record LocationRebuildReport := mkReport {
  rp_chunk_files : Z; rp_sealed_chunks : Z; rp_open_chunks : Z; rp_scanned_records : Z;
  rp_selected_locations : Z; rp_duplicate_records : Z; rp_preserved_aliases_verified : Z;
  rp_catalog_batches_written : Z }.
Definition report_default : LocationRebuildReport := mkReport 0 0 0 0 0 0 0 0.

Record RebuildCandidate := mkCandidate { rb_entry : ObjectLocationEntry; rb_path : Path }.
Inductive RebuildChunkState := RebuildOpen | RebuildSealed.
Record RebuildChunkScan := mkChunkScan {
  rs_header : ChunkHeader; rs_state : RebuildChunkState; rs_records : Z }.
Record LocationRebuildPreflight := mkPreflight {
  pf_entries : list RebuildCandidate; pf_report : LocationRebuildReport }.

(** ** Choosing a location *)

Definition rebuild_location_order (l : ObjectLocation) : Z * (Z * Z) :=
  (ol_generation l, (ol_chunk_id l, ol_offset l)).
Definition order_cmp : Z * (Z * Z) → Z * (Z * Z) → comparison :=
  cmp_pair Z.compare (cmp_pair Z.compare Z.compare).
Definition order_lt (a b : ObjectLocation) : bool :=
  match order_cmp (rebuild_location_order a) (rebuild_location_order b) with Lt => true | _ => false end.

Definition rebuild_location_precedes (candidate existing : ObjectLocation) (current_generation : option Z)
    : bool :=
  match current_generation with
  | Some current =>
      if bool_decide (ol_generation candidate = current) && bool_decide (ol_generation existing ≠ current)
      then true
      else if bool_decide (ol_generation candidate ≠ current) && bool_decide (ol_generation existing = current)
      then false
      else order_lt candidate existing
  | None => order_lt candidate existing
  end.

(** The order of [PathBuf]: by components, each by its bytes. *)
Fixpoint split_components (current : bytes) (b : bytes) : list bytes :=
  match b with
  | [] => [current]
  | x :: b => if decide (x = x2f) then current :: split_components [] b
              else split_components (current ++ [x]) b
  end.
Definition extension_bytes (e : option string) : bytes :=
  match e with
  | None => []
  | Some e => x2e :: String.list_byte_of_string e
  end.
Definition path_components (p : Path) : list bytes :=
  split_components [] (p_dir p) ++ [p_stem p ++ extension_bytes (p_ext p)].
Fixpoint list_cmp {A} (cmp : A → A → comparison) (a b : list A) : comparison :=
  match a, b with
  | [], [] => Eq
  | [], _ => Lt
  | _, [] => Gt
  | x :: a, y :: b => match cmp x y with Eq => list_cmp cmp a b | c => c end
  end.
Definition path_cmp : Path → Path → comparison := cmp_on path_components (list_cmp bytes_compare).
(** [Vec::dedup] drops consecutive repeats. *)
Fixpoint dedup (l : list Path) : list Path :=
  match l with
  | x :: ((y :: _) as rest) => if decide (x = y) then dedup rest else x :: dedup rest
  | l => l
  end.

(** [slice.chunks(n)] for a non-zero [n]. *)
Fixpoint chunks_of {A} (fuel : nat) (n : nat) (l : list A) : list (list A) :=
  match fuel, l with
  | O, _ | _, [] => []
  | S fuel, l => take n l :: chunks_of fuel n (drop n l)
  end.

#[export] Instance InvalidGitOidLength_eq_dec : EqDecision InvalidGitOidLength.
Proof. solve_decision. Defined.

(** Object IDs already computed. *)
Abbreviation Calculated := (gmap (ContentId * HashAlgorithm) (result InvalidGitOidLength GitOid)).

Section Rebuild.
Context `{Digests} `{Zstd} `{Catalog C} `{!ObjectLocationRebuildCatalog C}.

Abbreviation IO := (ST (Sys C) StoreError).

(** A [u64] counter. *)
Definition bump (n by_ : Z) : result StoreError Z := ok_or (checked_add n by_) OffsetOverflow.

(** ** Scanning one chunk *)

Definition collect (header : ChunkHeader) (path : Path) : Visitor (list RebuildCandidate) :=
  λ candidates offset record record_length,
    stored_length ← ok_or (u64_try_from (len (or_payload record))) OffsetOverflow;
    Ok (candidates ++ [mkCandidate (mkObjectLocationEntry (or_content_id record)
          (mkObjectLocation (ch_generation header) (ch_chunk_id header) offset record_length
             stored_length (or_raw_length record) (or_kind record) (or_codec record)
             (or_flags record) (Crc.crc32c (or_payload record)))) path]).

Definition scan_chunk_for_location_rebuild (path : Path)
    : IO (RebuildChunkScan * list RebuildCandidate) :=
  file ⇐ on_disk (open_file path);
  contents ⇐ on_disk (read_file file);
  header ⇐ lifted (read_chunk_header contents);
  if is_sealed_path path then
    r ⇐ lifted (verify_sealed_file_with_visitor contents (collect header path) []);
    st_ret (mkChunkScan header RebuildSealed (sf_record_count (vs_footer r.1)), r.2)
  else
    _ ⇐ lifted (ensure (is_open_path path) NotAnOpenChunk);
    sealed ⇐ try_ok (verify_sealed file);
    match sealed with
    | Some _ => lifted (Err OpenChunkContainsSealedFooter)
    | None =>
        r ⇐ lifted (scan_records_with_visitor contents (len contents) true (collect header path) []);
        st_ret (mkChunkScan header RebuildOpen (sc_records r.1), r.2)
    end.

(** ** Preflight *)

(** The accumulators of the loops of [preflight_object_location_rebuild]. *)
Record Preflight := mkAcc {
  ac_report : LocationRebuildReport; ac_identities : gset (Z * Z);
  ac_selected : gmap ContentId RebuildCandidate }.

(** The inner loop: one candidate against the selection so far. *)
Definition select (current_generation : option Z)
    (a : LocationRebuildReport * gmap ContentId RebuildCandidate) (candidate : RebuildCandidate)
    : result StoreError (LocationRebuildReport * gmap ContentId RebuildCandidate) :=
  let '(r, selected) := a in
  let key := oe_content_id (rb_entry candidate) in
  match selected !! key with
  | None => Ok (r, <[key := candidate]> selected)
  | Some current =>
      duplicates ← bump (rp_duplicate_records r) 1;
      let r := mkReport (rp_chunk_files r) (rp_sealed_chunks r) (rp_open_chunks r)
                 (rp_scanned_records r) (rp_selected_locations r) duplicates
                 (rp_preserved_aliases_verified r) (rp_catalog_batches_written r) in
      Ok (r, if rebuild_location_precedes (oe_location (rb_entry candidate))
                  (oe_location (rb_entry current)) current_generation
             then <[key := candidate]> selected else selected)
  end.

(** The counters a scanned chunk adds to. *)
Definition count_chunk (r : LocationRebuildReport) (scan : RebuildChunkScan)
    : result StoreError LocationRebuildReport :=
  files ← bump (rp_chunk_files r) 1;
  open_chunks ← match rs_state scan with RebuildOpen => bump (rp_open_chunks r) 1
                                       | RebuildSealed => Ok (rp_open_chunks r) end;
  sealed_chunks ← match rs_state scan with RebuildOpen => Ok (rp_sealed_chunks r)
                                         | RebuildSealed => bump (rp_sealed_chunks r) 1 end;
  scanned ← bump (rp_scanned_records r) (rs_records scan);
  Ok (mkReport files sealed_chunks open_chunks scanned (rp_selected_locations r)
        (rp_duplicate_records r) (rp_preserved_aliases_verified r) (rp_catalog_batches_written r)).

Definition preflight_chunk (current_generation : option Z) (acc : Preflight) (path : Path) : IO Preflight :=
  '(chunk, candidates) ⇐ scan_chunk_for_location_rebuild path;
  let identity := (ch_generation (rs_header chunk), ch_chunk_id (rs_header chunk)) in
  _ ⇐ lifted (ensure (bool_decide (identity ∉ ac_identities acc))
                     (DuplicateRebuildChunkIdentity identity.1 identity.2));
  report ⇐ lifted (count_chunk (ac_report acc) chunk);
  r ⇐ lifted (try_fold (select current_generation) candidates (report, ac_selected acc));
  st_ret (mkAcc r.1 ({[identity]} ∪ ac_identities acc) r.2).

Fixpoint preflight_chunks (current_generation : option Z) (acc : Preflight) (paths : list Path)
    : IO Preflight :=
  match paths with
  | [] => st_ret acc
  | p :: paths => acc' ⇐ preflight_chunk current_generation acc p;
                  preflight_chunks current_generation acc' paths
  end.

(** ** Preserved aliases *)

#[export] Instance GitOidHasher_write_instance : Write GitOidHasher := λ h b,
  (Ok (length b), GitOidHasher_write h b).

(** The OID of an object in the store, computed from its record. The [expect]
    in [GitOidHasher::finish] is the [Ok] of the result. *)
Definition calculate_oid (candidate : RebuildCandidate) (algorithm : HashAlgorithm)
    : IO (result InvalidGitOidLength GitOid) :=
  let location := oe_location (rb_entry candidate) in
  let hasher := GitOidHasher_new algorithm (ol_kind location) (ol_raw_length location) in
  file ⇐ on_disk (open_file (rb_path candidate));
  contents ⇐ on_disk (read_file file);
  let '(r, hasher) := stream_decoded_record_at contents location hasher in
  _ ⇐ lifted r;
  st_ret (GitOidHasher_finish hasher).

Definition verify_preserved_alias (alias : OidAliasEntry) (selected : gmap ContentId RebuildCandidate)
    (calculated : Calculated) : IO Calculated :=
  let key := ae_content_id alias in
  match selected !! key with
  | None => lifted (Err (PreservedAliasMissingContent (ae_repository alias) (ae_oid alias) key))
  | Some candidate =>
      let a := algorithm (ae_oid alias) in
      r ⇐ (match calculated !! (key, a) with
           | Some oid => st_ret (oid, calculated)
           | None => oid ⇐ calculate_oid candidate a;
                     st_ret (oid, <[(key, a) := oid]> calculated)
           end);
      _ ⇐ lifted (ensure (bool_decide (r.1 = Ok (ae_oid alias)))
                    (PreservedAliasContentMismatch (ae_repository alias) (ae_oid alias) key));
      st_ret r.2
  end.

(** The variables the alias visitor captures. *)
Record AliasState := mkAliasState {
  as_sys : Sys C; as_failure : option StoreError; as_calculated : Calculated; as_verified : Z }.

Definition visit_alias (selected : gmap ContentId RebuildCandidate) (st : AliasState)
    (alias : OidAliasEntry) : result CatalogError AliasState :=
  match as_failure st with
  | Some _ => Ok st
  | None =>
      match verify_preserved_alias alias selected (as_calculated st) (as_sys st) with
      | (Err e, s) => Ok (mkAliasState s (Some e) (as_calculated st) (as_verified st))
      | (Ok calculated, s) =>
          n ← ok_or (checked_add (as_verified st) 1) (Backend "alias count overflow");
          Ok (mkAliasState s None calculated n)
      end
  end.

(** A visitor error (the counter overflowed) ends the walk; reading objects has
    changed no file by then. *)
Definition verify_preserved_aliases (selected : gmap ContentId RebuildCandidate) (verified : Z) : IO Z := λ s,
  match visit_oid_aliases (sys_catalog s) (visit_alias selected) (mkAliasState s None ∅ verified) with
  | Err e => (Err (StoreCatalog e), s)
  | Ok st => (match as_failure st with Some e => Err e | None => Ok (as_verified st) end, as_sys st)
  end.

(** [selected.into_values()]: in key order. *)
Definition selected_values (selected : gmap ContentId RebuildCandidate) : list RebuildCandidate :=
  map snd (sort_by (cmp_on (λ e, cid_bytes e.1) bytes_compare) (map_to_list selected)).

Definition preflight_object_location_rebuild (paths : list Path) : IO LocationRebuildPreflight :=
  let paths := dedup (sort_by path_cmp paths) in
  generation ⇐ st_get (λ s, current_generation (sys_catalog s));
  acc ⇐ preflight_chunks generation (mkAcc report_default ∅ ∅) paths;
  let r := ac_report acc in
  verified ⇐ verify_preserved_aliases (ac_selected acc) (rp_preserved_aliases_verified r);
  count ⇐ lifted (ok_or (u64_try_from (Z.of_nat (size (ac_selected acc)))) OffsetOverflow);
  st_ret (mkPreflight (selected_values (ac_selected acc))
    (mkReport (rp_chunk_files r) (rp_sealed_chunks r) (rp_open_chunks r) (rp_scanned_records r)
       count (rp_duplicate_records r) verified (rp_catalog_batches_written r))).

(** ** The rebuild *)

Definition on_catalog (m : C → result CatalogError unit * C) : IO unit := λ s,
  let '(r, c) := m (sys_catalog s) in (map_err StoreCatalog r, mkSys (sys_disk s) c).

Fixpoint append_batches (batches : list (list RebuildCandidate)) (written : Z) : IO Z :=
  match batches with
  | [] => st_ret written
  | b :: batches =>
      _ ⇐ on_catalog (λ c, append_rebuilt_object_locations c (map rb_entry b));
      n ⇐ lifted (bump written 1);
      append_batches batches n
  end.

Definition rebuild_object_locations (paths : list Path) (maximum_batch_entries : Z)
    : IO LocationRebuildReport :=
  _ ⇐ lifted (ensure (bool_decide (maximum_batch_entries ≠ 0)) InvalidLocationRebuildBatchSize);
  probe ⇐ st_get (λ s, object_location_rebuild_state (sys_catalog s));
  state ⇐ lifted (map_err StoreCatalog probe);
  _ ⇐ (if decide (state = InProgress) then on_catalog restart_object_location_rebuild else st_ret ());
  preflight ⇐ preflight_object_location_rebuild paths;
  _ ⇐ (if decide (state = Idle) then on_catalog begin_object_location_rebuild else st_ret ());
  let r := pf_report preflight in
  let entries := pf_entries preflight in
  written ⇐ append_batches (chunks_of (length entries) (Z.to_nat maximum_batch_entries) entries)
              (rp_catalog_batches_written r);
  _ ⇐ on_catalog finish_object_location_rebuild;
  st_ret (mkReport (rp_chunk_files r) (rp_sealed_chunks r) (rp_open_chunks r) (rp_scanned_records r)
    (rp_selected_locations r) (rp_duplicate_records r) (rp_preserved_aliases_verified r) written).

End Rebuild.
End Rebuild.
