(* ===== verification/RebuildSpec.v ===== *)
(** * What the locations-only rebuild establishes

    A successful rebuild makes the catalog locate exactly the objects that the
    scanned chunks hold, each at the preferred of its records, and every
    preserved alias names an object whose bytes have that OID. *)

From Stdlib Require Import ZArith Lia Strings.Byte Strings.String.
From stdpp Require Import base tactics list gmap strings.
From S2P Require Import Prelude Order Crc Core Format FormatSpec RecordSpec Codec CatalogCodec Catalog CatalogSpec Chunk ChunkSpec RecoverySpec ReadSpec CatalogInterface Disk DiskSpec Store WriterSpec ReconcileSpec StoreSpec Rebuild.
Import Core Format FormatSpec RecordSpec Codec CatalogCodec Catalog CatalogSpec Chunk ChunkSpec RecoverySpec ReadSpec CatalogInterface Disk DiskSpec Store WriterSpec ReconcileSpec StoreSpec Rebuild.

#[local] Open Scope Z_scope.

Module RebuildSpec.

(** ** The preference order *)

(** Locations of the current generation come first, then by position. *)
Definition rank (current : option Z) (l : ObjectLocation) : Z * (Z * (Z * Z)) :=
  (if decide (current = Some (ol_generation l)) then 0 else 1, rebuild_location_order l).
Definition rank_cmp : Z * (Z * (Z * Z)) → Z * (Z * (Z * Z)) → comparison := cmp_pair Z.compare order_cmp.
#[export] Instance rank_ord : Ord rank_cmp.
Proof. unfold rank_cmp, order_cmp. apply _. Qed.

Lemma precedes_rank current a b :
  rebuild_location_precedes a b current = true ↔ rank_cmp (rank current a) (rank current b) = Lt.
Proof.
  unfold rebuild_location_precedes, rank, rank_cmp, order_lt, cmp_pair at 1. cbn [fst snd].
  destruct current as [g|].
  - repeat case_bool_decide; repeat case_decide; cbn; try congruence; try done;
      by destruct (order_cmp _ _).
  - rewrite !decide_False by done. cbn. by destruct (order_cmp _ _).
Qed.

(** ** Selection *)

Definition cand_id (c : RebuildCandidate) : ContentId := oe_content_id (rb_entry c).
Definition cand_loc (c : RebuildCandidate) : ObjectLocation := oe_location (rb_entry c).

(** [M] holds, for every object among the candidates [cs], one of its
    candidates, and none of the others is preferred to it. *)
Definition winners (current : option Z) (cs : list RebuildCandidate)
    (M : gmap ContentId RebuildCandidate) : Prop :=
  (∀ id c, M !! id = Some c → c ∈ cs ∧ cand_id c = id) ∧
  (∀ c, c ∈ cs → ∃ w, M !! cand_id c = Some w ∧
     rebuild_location_precedes (cand_loc c) (cand_loc w) current = false).

Lemma precedes_irrefl current l : rebuild_location_precedes l l current = false.
Proof.
  apply not_true_iff_false. rewrite precedes_rank.
  by rewrite (proj2 (ord_eq (cmp := rank_cmp) _ _)).
Qed.
Lemma precedes_trans current a b c :
  rebuild_location_precedes a b current = true → rebuild_location_precedes b c current = true →
  rebuild_location_precedes a c current = true.
Proof. rewrite !precedes_rank. apply ord_trans. Qed.
Lemma precedes_asym current a b :
  rebuild_location_precedes a b current = true → rebuild_location_precedes b a current = false.
Proof.
  intros Hab. apply not_true_iff_false. intros Hba.
  pose proof (precedes_trans _ _ _ _ Hab Hba) as Haa. by rewrite precedes_irrefl in Haa.
Qed.

Lemma elem_snoc {A} (l : list A) x y : x ∈ l ++ [y] ↔ x ∈ l ∨ x = y.
Proof. rewrite elem_of_app, list_elem_of_singleton. done. Qed.

(** A candidate preferred to what was selected for its object replaces it. *)
Lemma winners_insert current cs c M :
  winners current cs M →
  (∀ w, M !! cand_id c = Some w → rebuild_location_precedes (cand_loc c) (cand_loc w) current = true) →
  winners current (cs ++ [c]) (<[cand_id c := c]> M).
Proof.
  intros [Hin Hbest] Hp. split.
  - intros id x Hx. rewrite elem_snoc. destruct (decide (id = cand_id c)) as [->|Hne].
    + rewrite lookup_insert_eq in Hx. injection Hx as <-. auto.
    + rewrite lookup_insert_ne in Hx by congruence. destruct (Hin id x Hx); auto.
  - intros x [Hx| ->]%elem_snoc.
    + destruct (Hbest x Hx) as (w & Hw & Hnp). destruct (decide (cand_id x = cand_id c)) as [He|Hne].
      * exists c. rewrite He, lookup_insert_eq. split; [done|]. rewrite He in Hw.
        apply not_true_iff_false. intros Hxc. by rewrite (precedes_trans _ _ _ _ Hxc (Hp w Hw)) in Hnp.
      * exists w. by rewrite lookup_insert_ne by congruence.
    + exists c. rewrite lookup_insert_eq. split; [done|]. apply precedes_irrefl.
Qed.
(** Any other leaves it. *)
Lemma winners_keep current cs c w M :
  winners current cs M → M !! cand_id c = Some w →
  rebuild_location_precedes (cand_loc c) (cand_loc w) current = false → winners current (cs ++ [c]) M.
Proof.
  intros [Hin Hbest] Hw Hp. split.
  - intros id x Hx. rewrite elem_snoc. destruct (Hin id x Hx). auto.
  - intros x [Hx| ->]%elem_snoc; [by apply Hbest|]. by exists w.
Qed.

Lemma select_winners current cs c r M r' M' :
  winners current cs M → select current (r, M) c = Ok (r', M') → winners current (cs ++ [c]) M'.
Proof.
  intros HM Hs. unfold select in Hs. fold (cand_id c) in Hs.
  destruct (M !! cand_id c) as [w|] eqn:Hw.
  - apply bind_Ok_inv in Hs as (n & _ & Hs). fold (cand_loc c) (cand_loc w) in Hs.
    destruct (rebuild_location_precedes (cand_loc c) (cand_loc w) current) eqn:Hp; injection Hs as _ <-.
    + apply winners_insert; [done|]. intros w' Hw'. congruence.
    + by eapply winners_keep.
  - injection Hs as _ <-. apply winners_insert; [done|]. intros w Hw'. congruence.
Qed.
Lemma select_all_winners current cs more r M r' M' :
  winners current cs M → try_fold (select current) more (r, M) = Ok (r', M') →
  winners current (cs ++ more) M'.
Proof.
  revert cs r M. induction more as [|c more IH]; intros cs r M Hw Hf.
  - cbn in Hf. rewrite app_nil_r. by injection Hf as _ <-.
  - cbn [try_fold] in Hf. apply bind_Ok_inv in Hf as ([r1 M1] & Hs & Hf).
    replace (cs ++ c :: more) with ((cs ++ [c]) ++ more) by (by rewrite <-app_assoc). eapply IH; [by eapply select_winners|done].
Qed.

(** ** Scanning *)

Section Scanning.
Context `{Digests} `{Zstd} `{Catalog C} `{!ObjectLocationRebuildCatalog C}.

(** The candidates a chunk contributes: one per record, at its place. *)
Fixpoint candidates (h : ChunkHeader) (path : Path) (o : Z) (rs : list ObjectRecord) : list RebuildCandidate :=
  match rs with
  | [] => []
  | r :: rs =>
      mkCandidate (mkObjectLocationEntry (or_content_id r)
        (location_of (ch_generation h) (ch_chunk_id h) o r)) path :: candidates h path (o + size r) rs
  end.

Lemma collect_at h path acc o r :
  fits (len (or_payload r)) →
  collect h path acc o r (size r) =
    Ok (acc ++ [mkCandidate (mkObjectLocationEntry (or_content_id r)
      (location_of (ch_generation h) (ch_chunk_id h) o r)) path]).
Proof. intros [Hf0 Hf1]. unfold collect. by rewrite u64_try_from_Some by lia. Qed.

Lemma visit_collect h path o rs acc :
  Forall scannable rs → Forall verified rs →
  visit_all true (collect h path) acc o rs = Ok (acc ++ candidates h path o rs).
Proof.
  intros Hall. revert o acc. induction Hall as [|r rs (Hr & Hf & Hm) Hall IH]; intros o acc Hv; cbn [visit_all candidates].
  - by rewrite app_nil_r.
  - apply Forall_cons in Hv as [Hvr Hv]. unfold verified in Hvr. rewrite Hvr. cbn [map_err]. rewrite bind_Ok.
    rewrite collect_at, bind_Ok, IH by done. rewrite <-app_assoc. done.
Qed.

(** What a scanned chunk file holds. *)
Definition chunk_holds (file : bytes) (h : ChunkHeader) (rs : list ObjectRecord) : Prop :=
  header_wf h ∧ Forall scannable rs ∧ Forall verified rs ∧
  (file = sealed_layout h rs ∨ file = open_layout h rs).

(** A strict scan to the end of the file accepts complete records only. *)
Lemma strict_scan_inv {S} file h (v : Visitor S) s0 sc s' :
  len file ≤ u64_max → read_chunk_header file = Ok h →
  scan_records_with_visitor file (len file) true v s0 = Ok (sc, s') →
  ∃ rs, header_wf h ∧ Forall scannable rs ∧ Forall verified rs ∧ file = open_layout h rs ∧
    sc_records sc = Z.of_nat (length rs) ∧ visit_all true v s0 64 rs = Ok s'.
Proof.
  intros Hmax Hh Hscan. pose proof (read_header_inv _ _ Hh) as (Hw & H64 & Ht).
  destruct (run_exists file H64 Hmax) as (rs & err & Hrun).
  rewrite (scan_run file (len file) true v s0 rs err) in Hscan by (done || lia).
  apply bind_Ok_inv in Hscan as (s2 & Hvis & Hscan).
  case_decide as Hsz; [|done]. apply Ok_inj in Hscan.
  assert (scan_of rs = sc ∧ s2 = s') as [<- ->] by (split; congruence). clear Hscan.
  pose proof Hrun as [Hrs _]. exists rs.
  split_and!; try done; [by eapply holds_scannable|by eapply visit_verified|].
  rewrite <-(holds_open_layout file h _ rs Ht Hrs), Hsz. symmetry. apply take_ge. unfold len. lia.
Qed.

Lemma scan_chunk_spec path d (c : C) scan cs s' :
  sane d → scan_chunk_for_location_rebuild path (mkSys d c) = (Ok (scan, cs), s') →
  same_files d (sys_disk s') ∧ sys_catalog s' = c ∧
  ∃ n rs, d_names d !! path = Some n ∧ chunk_holds (data d n) (rs_header scan) rs ∧
    cs = candidates (rs_header scan) path 64 rs ∧ rs_records scan = Z.of_nat (length rs).
Proof.
  intros Hs. unfold scan_chunk_for_location_rebuild, st_bind, on_disk, lifted, st_lift, st_ret.
  cbn [sys_disk sys_catalog].
  destruct (open_file path d) as [[n|e] d1] eqn:E1; apply open_file_spec in E1 as [Hs1 Hn1]; cbn [map_err sys_disk sys_catalog]; [|done].
  destruct (read_file n d1) as [[b|e] d2] eqn:E2; apply read_file_spec in E2 as [Hs2 Hb]; cbn [map_err]; [|done].
  specialize (Hn1 n eq_refl). specialize (Hb b eq_refl). rewrite (same_files_data _ _ n Hs1) in Hb. subst b.
  pose proof (same_files_trans _ _ _ Hs1 Hs2) as Hs02.
  assert (len (data d n) ≤ u64_max) as Hmax
    by (pose proof (sane_data d n Hs); unfold MAX_FILE_BYTES, u64_max in *; lia).
  destruct (read_chunk_header (data d n)) as [h|e] eqn:Hh; [|done].
  destruct (is_sealed_path path).
  - destruct (verify_sealed_file_with_visitor (data d n) (collect h path) []) as [[v cs']|e] eqn:Hv; [|done].
    intros Heq. injection Heq as Hscan Hcs Hs'. subst s'. cbn [fst snd] in *.
    destruct (verify_sealed_visitor_inv _ _ _ _ _ Hmax Hv) as (rs & Hw & Hall & Hver & Hfile & Hft & Hvis).
    assert (vs_header v = h) as Hvh.
    { rewrite Hfile in Hh. unfold sealed_layout, open_layout in Hh.
      rewrite <-app_assoc, read_header_layout in Hh by done. congruence. }
    rewrite visit_collect in Hvis by done. subst scan. cbn [rs_header rs_records].
    split_and!; try done. exists n, rs. rewrite Hft. rewrite Hvh in *. split_and!; try done.
    + split_and!; try done. by left.
    + apply Ok_inj in Hvis. subst cs. by rewrite <-Hvis.
  - destruct (is_open_path path); cbn [ensure]; [|done].
    destruct (try_ok (verify_sealed n) (mkSys d2 c)) as [r3 [d3 c3]] eqn:E3.
    apply try_verify_spec in E3 as (Hs3 & Hc3 & Hr3). cbn [sys_disk sys_catalog] in Hs3, Hc3. subst c3.
    destruct Hr3 as [->|(v & -> & _)]; [|done].
    destruct (scan_records_with_visitor (data d n) (len (data d n)) true (collect h path) [])
      as [[sc cs']|e] eqn:Hv; [|done].
    intros Heq. injection Heq as Hscan Hcs Hs'. subst s'. cbn [fst snd] in *.
    destruct (strict_scan_inv _ _ _ _ _ _ Hmax Hh Hv) as (rs & Hw & Hall & Hver & Hfile & Hn & Hvis).
    rewrite visit_collect in Hvis by done. subst scan. cbn [rs_header rs_records sys_disk sys_catalog].
    split_and!; [by eapply same_files_trans|done|]. exists n, rs. split_and!; try done.
    + split_and!; try done. by right.
    + apply Ok_inj in Hvis. subst cs. by rewrite <-Hvis.
Qed.

(** ** The whole scan *)

(** A scanned chunk: its path, header and records. *)
Definition Scanned : Type := Path * (ChunkHeader * list ObjectRecord).
Definition on_the_disk (d : Disk) (x : Scanned) : Prop :=
  ∃ n, d_names d !! x.1 = Some n ∧ chunk_holds (data d n) x.2.1 x.2.2.
Definition identity (x : Scanned) : Z * Z := (ch_generation x.2.1, ch_chunk_id x.2.1).
Definition all_candidates (chunks : list Scanned) : list RebuildCandidate :=
  concat (map (λ x, candidates x.2.1 x.1 64 x.2.2) chunks).

Lemma on_the_disk_same d d' x : same_files d d' → on_the_disk d' x → on_the_disk d x.
Proof.
  intros Hs (n & Hn & Hh). exists n. rewrite (same_names _ _ Hs) in Hn.
  rewrite (same_files_data _ _ n Hs) in Hh. done.
Qed.

Lemma preflight_chunk_spec current acc path d (c : C) acc' s' cs :
  sane d → winners current cs (ac_selected acc) →
  preflight_chunk current acc path (mkSys d c) = (Ok acc', s') →
  same_files d (sys_disk s') ∧ sys_catalog s' = c ∧
  ∃ x, x.1 = path ∧ on_the_disk d x ∧ winners current (cs ++ all_candidates [x]) (ac_selected acc') ∧
    (identity x ∉ ac_identities acc) ∧ ac_identities acc' = {[identity x]} ∪ ac_identities acc.
Proof.
  intros Hs Hw. unfold preflight_chunk, st_bind, lifted, st_lift, st_ret.
  destruct (scan_chunk_for_location_rebuild path (mkSys d c)) as [[[scan more]|e] s1] eqn:E1; [|done].
  apply scan_chunk_spec in E1 as (Hs1 & Hc1 & n & rs & Hn & Hh & Hcs & _); [|done].
  case_bool_decide as Hid; cbn [ensure]; [|done].
  destruct (count_chunk _ _) as [report|e]; [|done].
  destruct (try_fold (select current) more (report, ac_selected acc)) as [[r M]|e] eqn:Ef; [|done].
  intros Heq. injection Heq as <- <-. split_and!; try done.
  exists (path, (rs_header scan, rs)). split_and!; [done|by exists n| |done|done].
  unfold all_candidates. cbn [map concat fst snd]. rewrite app_nil_r, <-Hcs.
  by eapply select_all_winners.
Qed.

Lemma preflight_chunks_spec current paths acc d (c : C) acc' s' cs :
  sane d → winners current cs (ac_selected acc) →
  preflight_chunks current acc paths (mkSys d c) = (Ok acc', s') →
  same_files d (sys_disk s') ∧ sys_catalog s' = c ∧
  ∃ chunks, map fst chunks = paths ∧ Forall (on_the_disk d) chunks ∧
    winners current (cs ++ all_candidates chunks) (ac_selected acc') ∧
    NoDup (map identity chunks) ∧ (∀ x, x ∈ chunks → identity x ∉ ac_identities acc).
Proof.
  revert acc d cs. induction paths as [|p paths IH]; intros acc d cs Hs Hw Hrun; cbn [preflight_chunks] in Hrun.
  - injection Hrun as <- <-. split_and!; try done. exists []. split_and!; try done.
    + by rewrite app_nil_r.
    + constructor.
    + by intros x Hx%elem_of_nil.
  - unfold st_bind in Hrun.
    destruct (preflight_chunk current acc p (mkSys d c)) as [[acc1|e] [d1 c1]] eqn:E1; [|done].
    destruct (preflight_chunk_spec _ _ _ _ _ _ _ _ Hs Hw E1) as (Hs1 & Hc1 & x & Hx & Hdx & Hw1 & Hfresh & Hids).
    cbn [sys_disk sys_catalog] in Hs1, Hc1. subst c1.
    destruct (IH acc1 d1 _ (same_files_sane _ _ Hs1 Hs) Hw1 Hrun) as (Hs2 & Hc2 & chunks & Hp & Hall & Hw2 & Hnd & Hf2).
    rewrite Hids in Hf2.
    split_and!; [by eapply same_files_trans|done|]. exists (x :: chunks). split_and!.
    + cbn. by rewrite Hx, Hp.
    + constructor; [done|]. eapply Forall_impl; [exact Hall|]. intros y. by apply on_the_disk_same.
    + unfold all_candidates in *. cbn [map concat] in Hw2 |- *. rewrite app_nil_r in Hw2.
      by rewrite app_assoc.
    + cbn [map]. constructor; [|done]. intros (y & Hy & Hin)%list_elem_of_fmap.
      apply (Hf2 y Hin). rewrite Hy, elem_of_union, elem_of_singleton. by left.
    + intros y [->|Hy]%elem_of_cons; [done|]. specialize (Hf2 y Hy). intros Hin. apply Hf2, elem_of_union. by right.
Qed.

(** ** Candidates are readable *)

Lemma elem_candidates h p o rs x :
  Forall scannable rs → x ∈ candidates h p o rs →
  ∃ rs1 r rs2, rs = rs1 ++ r :: rs2 ∧
    x = mkCandidate (mkObjectLocationEntry (or_content_id r)
          (location_of (ch_generation h) (ch_chunk_id h) (o + sizes rs1) r)) p.
Proof.
  intros Hall. revert o. induction Hall as [|r rs (Hr & _) Hall IH]; intros o Hx; [by apply elem_of_nil in Hx|].
  cbn [candidates] in Hx. apply elem_of_cons in Hx as [->|Hx].
  - exists [], r, rs. assert (sizes [] = 0) as -> by reflexivity. rewrite Z.add_0_r. done.
  - destruct (IH _ Hx) as (rs1 & r' & rs2 & -> & ->). exists (r :: rs1), r', rs2.
    rewrite sizes_cons, Z.add_assoc by done. done.
Qed.
Lemma candidates_elem h p o rs r :
  r ∈ rs → ∃ x, x ∈ candidates h p o rs ∧ cand_id x = or_content_id r.
Proof.
  intros Hr. revert o. induction rs as [|r' rs IH]; intros o; [by apply elem_of_nil in Hr|].
  apply elem_of_cons in Hr as [->|Hr]; cbn [candidates].
  - eexists. split; [by left|done].
  - destruct (IH Hr (o + size r')) as (x & Hx & Hid). exists x. split; [by right|done].
Qed.

(** Every candidate can be read where it says, and is what it says. *)
Lemma candidate_placed d x c :
  on_the_disk d x → c ∈ candidates x.2.1 x.1 64 x.2.2 →
  ∃ n r, rb_path c = x.1 ∧ d_names d !! x.1 = Some n ∧ r ∈ x.2.2 ∧ or_content_id r = cand_id c ∧
    placed (data d n) (cand_loc c) r ∧ verified r ∧ scannable r.
Proof.
  intros (n & Hn & Hh & Hall & Hv & Hfile) Hc.
  destruct (elem_candidates _ _ _ _ _ Hall Hc) as (rs1 & r & rs2 & Hrs & ->).
  exists n, r. rewrite Hrs in Hall, Hv. split_and!; try done.
  - rewrite Hrs. apply elem_of_app. right. by left.
  - apply prefix_placed; [done| |].
    + apply Forall_app in Hall as [H1' H2']. apply Forall_cons in H2' as [H2' _].
      apply Forall_app. split; [done|]. by constructor.
    + rewrite open_layout_snoc. destruct Hfile as [-> | ->]; rewrite Hrs; unfold sealed_layout, open_layout;
        rewrite records_layout_app, records_layout_cons, <-!app_assoc; eexists; by rewrite <-!app_assoc.
  - by apply Forall_app in Hv as [_ [? _]%Forall_cons].
  - by apply Forall_app in Hall as [_ [? _]%Forall_cons].
Qed.

(** ** Object IDs of stored objects *)

(** Whatever every write to a sink preserves, decoding into it preserves. *)
Lemma decode_preserves `{Write W} (P : W → Prop) kind codec L cid src (w : W) :
  (∀ w b, P w → P (write w b).2) → P w →
  P (decode_object_payload_to_writer kind codec L cid src w).2.
Proof.
  intros HP Hw. unfold decode_object_payload_to_writer.
  assert (∀ s0, P (vw_writer _ (copy_decoded s0 (Validating_new w kind L)).2)) as Hc.
  { intros s0. apply (copy_decoded_preserves (λ v, P (vw_writer _ v))); [|done].
    intros v b Hv. unfold write, Validating_write. specialize (HP (vw_writer _ v) b Hv).
    destruct (u64_try_from _); [|done]. destruct (checked_add _ _); [|done]. case_decide; [done|].
    by destruct (write (vw_writer W v) b) as [[k|e] w']. }
  destruct codec.
  - specialize (Hc src). destruct (copy_decoded src _) as [[[]|e] v]; done.
  - destruct (zstd_decode _ _) as [dec used]. specialize (Hc dec).
    destruct (copy_decoded dec _) as [[[]|e] v]; cbn in *; [|done].
    case_decide; [done|]. by destruct (rd_end src).
Qed.

#[export] Program Instance GitOidHasher_write_laws : WriteLaws GitOidHasher :=
  {| accepted := goh_fed |}.
Next Obligation. intros h b n h' [= <- <-]. cbn. by rewrite take_ge. Qed.
Next Obligation. done. Qed.

Lemma placed_unique file l r r' : placed file l r → placed file l r' → r = r'.
Proof.
  intros (h & _ & _ & Hr & Hf & Hl & _ & _ & Hs) (h' & _ & _ & Hr' & Hf' & Hl' & _ & _ & Hs').
  assert (size r = size r') as Hsz.
  { apply (f_equal ol_record_length) in Hl, Hl'. cbn in Hl, Hl'. congruence. }
  rewrite Hsz, Hs' in Hs.
  pose proof (decode_record_layout r [] Hr Hf) as Hd. pose proof (decode_record_layout r' [] Hr' Hf') as Hd'.
  rewrite <-Hs in Hd. rewrite Hd' in Hd. apply Ok_inj in Hd. by apply (f_equal fst) in Hd.
Qed.

(** [oid] is the Git object ID, under [a], of the object that [c] locates. *)
Definition oid_of (d : Disk) (c : RebuildCandidate) (a : HashAlgorithm)
    (oid : result InvalidGitOidLength GitOid) : Prop :=
  ∃ n r raw, d_names d !! rb_path c = Some n ∧ placed (data d n) (cand_loc c) r ∧
    ContentId_for_object (or_kind r) raw = or_content_id r ∧ oid = GitOid_for_object a (or_kind r) raw.

Lemma calculate_oid_spec cand a d (c : C) res s' :
  0 ≤ ol_raw_length (cand_loc cand) → calculate_oid cand a (mkSys d c) = (Ok res, s') →
  same_files d (sys_disk s') ∧ sys_catalog s' = c ∧ oid_of d cand a res.
Proof.
  intros Hraw. unfold calculate_oid, st_bind, on_disk, lifted, st_lift, st_ret. fold (cand_loc cand).
  cbn [sys_disk sys_catalog].
  destruct (open_file (rb_path cand) d) as [[n|e] d1] eqn:E1; apply open_file_spec in E1 as [Hs1 Hn1]; cbn [map_err sys_disk sys_catalog]; [|done].
  destruct (read_file n d1) as [[b|e] d2] eqn:E2; apply read_file_spec in E2 as [Hs2 Hb]; cbn [map_err]; [|done].
  specialize (Hn1 n eq_refl). specialize (Hb b eq_refl). rewrite (same_files_data _ _ n Hs1) in Hb. subst b.
  set (h0 := GitOidHasher_new a _ _).
  destruct (stream_decoded_record_at (data d n) (cand_loc cand) h0) as [[m|e] h1] eqn:Es; [|done].
  intros Heq. injection Heq as <- <-. split_and!; [by eapply same_files_trans|done|].
  assert (goh_algorithm h1 = a) as Ha.
  { pose proof (f_equal snd Es) as Hh1. cbn in Hh1. rewrite <-Hh1. unfold stream_decoded_record_at.
    destruct (stream_prefix _ _) as [m'|e]; [|done].
    pose proof (decode_preserves (λ h, goh_algorithm h = a) (rm_kind m') (rm_codec m') (rm_raw_length m')
      (rm_content_id m') (Cursor_new (payload_reader (data d n) (ol_offset (cand_loc cand) + RECORD_HEADER_LEN)
        (rm_stored_length m'))) h0 ltac:(by intros h b <-) eq_refl) as Hp.
    destruct (decode_object_payload_to_writer _ _ _ _ _ _) as [[u|e] h2]; done. }
  destruct (stream_decoded_output _ _ _ _ _ Hraw Es) as (out & Hacc & _ & Hok).
  destruct (Hok m eq_refl) as (r & Hpl & _ & Hlen & Hcid).
  exists n, r, out. split_and!; try done. rewrite GitOid_for_object_digest. unfold GitOidHasher_finish.
  cbn in Hacc. rewrite Ha, Hacc. pose proof Hpl as (h & _ & _ & _ & _ & Hl & _).
  rewrite Hl. cbn [location_of ol_kind ol_raw_length]. unfold len in Hlen. by rewrite <-Hlen.
Qed.

(** ** Preserved aliases *)

(** What the alias check caches and concludes. *)
Definition cached (d : Disk) (selected : gmap ContentId RebuildCandidate) (m : Calculated) : Prop :=
  ∀ id a oid, m !! (id, a) = Some oid → ∃ c, selected !! id = Some c ∧ oid_of d c a oid.
Definition alias_ok (d : Disk) (selected : gmap ContentId RebuildCandidate) (e : OidAliasEntry) : Prop :=
  ∃ c, selected !! ae_content_id e = Some c ∧ oid_of d c (algorithm (ae_oid e)) (Ok (ae_oid e)).
Definition sized (selected : gmap ContentId RebuildCandidate) : Prop :=
  ∀ id c, selected !! id = Some c → 0 ≤ ol_raw_length (cand_loc c).

Lemma oid_of_same d d' c a oid : same_files d d' → oid_of d' c a oid → oid_of d c a oid.
Proof.
  intros Hs (n & r & raw & Hn & Hp & Hrest). exists n, r, raw.
  rewrite (same_names _ _ Hs) in Hn. rewrite (same_files_data _ _ n Hs) in Hp. done.
Qed.

Lemma oid_of_same' d d' c a oid : same_files d d' → oid_of d c a oid → oid_of d' c a oid.
Proof.
  intros Hs (n & r & raw & Hn & Hp & Hrest). exists n, r, raw.
  rewrite (same_names _ _ Hs), (same_files_data _ _ n Hs). done.
Qed.

Lemma verify_alias_spec e selected m d (c : C) m' s' :
  sized selected → cached d selected m →
  verify_preserved_alias e selected m (mkSys d c) = (Ok m', s') →
  same_files d (sys_disk s') ∧ sys_catalog s' = c ∧ cached d selected m' ∧ alias_ok d selected e.
Proof.
  intros Hsz Hm. unfold verify_preserved_alias, st_bind, lifted, st_lift, st_ret.
  destruct (selected !! ae_content_id e) as [cand|] eqn:Hsel; [|done].
  destruct (m !! (ae_content_id e, algorithm (ae_oid e))) as [oid|] eqn:Hc.
  - cbn [fst snd]. case_bool_decide as Heq; cbn [ensure]; [|done]. intros Hr. injection Hr as <- <-.
    split_and!; try done. destruct (Hm _ _ _ Hc) as (cand' & Hsel' & Ho). exists cand'. by rewrite <-Heq.
  - destruct (calculate_oid cand _ (mkSys d c)) as [[oid|err] s1] eqn:E1; [|done].
    apply calculate_oid_spec in E1 as (Hs1 & Hc1 & Ho); [|by eapply Hsz].
    cbn [fst snd]. case_bool_decide as Heq; cbn [ensure]; [|done]. intros Hr. injection Hr as <- <-.
    split_and!; try done.
    + intros id a oid' Hl. destruct (decide ((id, a) = (ae_content_id e, algorithm (ae_oid e)))) as [He|Hne].
      * injection He as -> ->. rewrite lookup_insert_eq in Hl. injection Hl as <-. by exists cand.
      * rewrite lookup_insert_ne in Hl by congruence. by apply Hm.
    + exists cand. by rewrite <-Heq.
Qed.

Lemma visit_failed selected es st : as_failure (C := C) st ≠ None →
  try_fold (visit_alias selected) es st = Ok st.
Proof.
  intros Hf. induction es as [|e es IH]; [done|]. cbn [try_fold].
  assert (visit_alias selected st e = Ok st) as ->; [|exact IH].
  unfold visit_alias. by destruct (as_failure st).
Qed.

Lemma visit_aliases_spec selected es d (c : C) m n st' :
  sized selected → cached d selected m →
  try_fold (visit_alias selected) es (mkAliasState (mkSys d c) None m n) = Ok st' →
  as_failure st' = None →
  same_files d (sys_disk (as_sys st')) ∧ sys_catalog (as_sys st') = c ∧ Forall (alias_ok d selected) es.
Proof.
  intros Hsz. revert d m n. induction es as [|e es IH]; intros d m n Hm Hf Hnone.
  { injection Hf as <-. split_and!; try done. }
  cbn [try_fold] in Hf. apply bind_Ok_inv in Hf as (st1 & Hst & Hf).
  unfold visit_alias in Hst. cbn [as_failure as_calculated as_sys as_verified] in Hst.
  destruct (verify_preserved_alias e selected m (mkSys d c)) as [[m1|err] [d1 c1]] eqn:E1.
  - destruct (verify_alias_spec _ _ _ _ _ _ _ Hsz Hm E1) as (Hs1 & Hc1 & Hm1 & He).
    cbn [sys_disk sys_catalog] in Hs1, Hc1. subst c1.
    apply bind_Ok_inv in Hst as (n' & _ & Hst). injection Hst as <-.
    assert (cached d1 selected m1) as Hm1'.
    { intros id a oid Hl. destruct (Hm1 id a oid Hl) as (cand & Hsel & Ho). exists cand. split; [done|].
      by eapply oid_of_same'. }
    destruct (IH d1 m1 n' Hm1' Hf Hnone) as (Hs2 & Hc2 & Hall).
    split_and!; [by eapply same_files_trans|done|]. constructor; [done|].
    eapply Forall_impl; [exact Hall|]. intros e' (cand & Hsel & Ho). exists cand. split; [done|].
    by eapply oid_of_same.
  - injection Hst as <-. rewrite visit_failed in Hf by done. injection Hf as <-. done.
Qed.

(** ** Preflight *)

Lemma elem_dedup (l : list Path) p : p ∈ dedup l ↔ p ∈ l.
Proof.
  induction l as [|x [|y l] IH]; [done|done|]. cbn [dedup] in *. case_decide as He.
  - subst y. rewrite IH, (elem_of_cons (x :: l)). split; [by right|]. intros [->|Hp]; [by left|done].
  - rewrite !(elem_of_cons _ p x), IH. done.
Qed.

(** What a successful preflight has established, and the candidates it chose. *)
Definition surveyed (d : Disk) (current : option Z) (paths : list Path)
    (chunks : list Scanned) (M : gmap ContentId RebuildCandidate) : Prop :=
  (∀ p, p ∈ map fst chunks ↔ p ∈ paths) ∧ NoDup (map identity chunks) ∧
  Forall (on_the_disk d) chunks ∧ winners current (all_candidates chunks) M.

Lemma elem_all_candidates chunks x :
  x ∈ all_candidates chunks ↔ ∃ y, y ∈ chunks ∧ x ∈ candidates y.2.1 y.1 64 y.2.2.
Proof.
  unfold all_candidates. rewrite list_elem_of_In, in_concat. split.
  - intros (l & Hl & Hx). apply in_map_iff in Hl as (y & <- & Hy). exists y.
    by rewrite !list_elem_of_In.
  - intros (y & Hy & Hx). exists (candidates y.2.1 y.1 64 y.2.2). rewrite !list_elem_of_In in *.
    split; [|done]. apply in_map_iff. by exists y.
Qed.

Lemma surveyed_placed d current paths chunks M id cand :
  surveyed d current paths chunks M → M !! id = Some cand →
  rb_path cand ∈ paths ∧ cand_id cand = id ∧
  ∃ n r, d_names d !! rb_path cand = Some n ∧ or_content_id r = id ∧
    placed (data d n) (cand_loc cand) r ∧ verified r ∧ scannable r.
Proof.
  intros (Hp & _ & Hall & Hin & _) HM. destruct (Hin id cand HM) as [Hc Hid].
  apply elem_all_candidates in Hc as (x & Hx & Hc). rewrite Forall_forall in Hall.
  destruct (candidate_placed d x cand (Hall x Hx) Hc) as (n & r & Hpath & Hn & Hr & Hrid & Hpl & Hv & Hs).
  split_and!; [|done|].
  - apply Hp. rewrite Hpath. by apply list_elem_of_fmap_2.
  - exists n, r. rewrite Hpath, Hrid. done.
Qed.

Lemma surveyed_sized d current paths chunks M : surveyed d current paths chunks M → sized M.
Proof.
  intros Hsv id c Hc. destruct (surveyed_placed _ _ _ _ _ _ _ Hsv Hc) as (_ & _ & n & r & _ & _ & Hpl & _ & Hsc).
  destruct Hpl as (h & _ & _ & (? & ? & ?) & _ & Hl & _). rewrite Hl. cbn. unfold is_u64 in *. lia.
Qed.

Lemma preflight_spec paths es d (c : C) pf s' :
  sane d → (∀ S f (st : S), visit_oid_aliases c f st = try_fold f es st) →
  preflight_object_location_rebuild paths (mkSys d c) = (Ok pf, s') →
  same_files d (sys_disk s') ∧ sys_catalog s' = c ∧
  ∃ chunks M, surveyed d (current_generation c) paths chunks M ∧ pf_entries pf = selected_values M ∧
    Forall (alias_ok d M) es.
Proof.
  intros Hs Hvis. unfold preflight_object_location_rebuild, st_bind, st_get, st_ret, lifted, st_lift.
  cbn [sys_catalog].
  destruct (preflight_chunks _ _ _ _) as [[acc|e] [d1 c1]] eqn:E1; [|done].
  apply (preflight_chunks_spec _ _ _ _ _ _ _ []) in E1
    as (Hs1 & Hc1 & chunks & Hp & Hall & Hw & Hnd & _); [|done|split; [done|by intros x Hx%elem_of_nil]].
  cbn [sys_disk sys_catalog] in Hs1, Hc1. subst c1.
  assert (surveyed d (current_generation c) paths chunks (ac_selected acc)) as Hsv.
  { split_and!; try done. intros p. rewrite Hp, elem_dedup. unfold path_cmp. by rewrite sort_on_perm. }
  unfold verify_preserved_aliases. cbn [sys_catalog]. rewrite Hvis.
  destruct (try_fold _ _ _) as [st|e] eqn:Ef; [|done].
  destruct (as_failure st) eqn:Hfail; [done|].
  apply visit_aliases_spec in Ef as (Hs2 & Hc2 & Hal); [|by eapply surveyed_sized|done|done].
  destruct (ok_or _ _) as [k|e]; [|done]. intros Heq. injection Heq as <- <-.
  split_and!; [by eapply same_files_trans|done|]. exists chunks, (ac_selected acc). split_and!; try done.
  eapply Forall_impl; [exact Hal|]. intros e (cand & Hsel & Ho). exists cand. split; [done|].
  by eapply oid_of_same.
Qed.
End Scanning.

(** ** The in-memory catalog *)

Lemma chunks_of_concat {A} fuel n (l : list A) :
  n ≠ 0%nat → (length l ≤ fuel)%nat → concat (chunks_of fuel n l) = l.
Proof.
  intros Hn. revert l. induction fuel as [|fuel IH]; intros [|x l] Hl; cbn [length] in Hl; try done; [lia|].
  cbn [chunks_of concat]. rewrite IH; [apply take_drop|]. rewrite length_drop. cbn [length]. lia.
Qed.

Lemma insert_entries_elem es id l :
  NoDup (map oe_content_id es) →
  insert_entries es ∅ !! id = Some l ↔ mkObjectLocationEntry id l ∈ es.
Proof.
  intros Hnd. rewrite insert_entries_lookup by done. split.
  - destruct (list_find _ es) as [[i e]|] eqn:Hf; [|done]. intros [= <-].
    apply list_find_Some in Hf as (Hl & <- & _). destruct e. by eapply list_elem_of_lookup_2.
  - intros He. destruct (list_find_elem_of (λ e', oe_content_id e' = id) es _ He eq_refl) as [[i e'] Hf].
    rewrite Hf. apply list_find_Some in Hf as (Hl & Hid & _).
    apply list_elem_of_lookup_1 in He as [j Hj].
    assert (i = j) as ->; [|rewrite Hj in Hl; by injection Hl as <-].
    eapply (NoDup_lookup (map oe_content_id es)); [done|..];
      rewrite list_lookup_fmap; [by rewrite Hl|rewrite Hj; cbn; congruence].
Qed.

Lemma elem_selected_values M (c : RebuildCandidate) :
  c ∈ selected_values M ↔ ∃ id, M !! id = Some c.
Proof.
  unfold selected_values. rewrite list_elem_of_fmap. split.
  - intros ([id x] & -> & Hx). rewrite sort_on_perm, elem_of_map_to_list in Hx. by exists id.
  - intros [id Hid]. exists (id, c). by rewrite sort_on_perm, elem_of_map_to_list.
Qed.
Lemma selected_values_NoDup M :
  (∀ id c, M !! id = Some c → cand_id c = id) →
  NoDup (map oe_content_id (map rb_entry (selected_values M))).
Proof.
  intros Hid. unfold selected_values. rewrite !map_map, sort_on_perm.
  rewrite (map_ext_in _ fst); [apply NoDup_fst_map_to_list|].
  intros [id c] Hin%list_elem_of_In%elem_of_map_to_list. by apply Hid.
Qed.

Section InMemory.
Context `{Digests} `{Zstd}.

Lemma append_batches_im batches n d (c : InMemoryCatalog) k s' :
  im_rebuild c = true → append_batches batches n (mkSys d c) = (Ok k, s') →
  sys_disk s' = d ∧
  sys_catalog s' = set_objects (insert_entries (map rb_entry (concat batches))) c.
Proof.
  revert n c. induction batches as [|b batches IH]; intros n c Hrb; cbn [append_batches].
  { intros [= <- <-]. split; [done|]. by destruct c. }
  unfold st_bind, on_catalog, lifted, st_lift. cbn [sys_catalog sys_disk]. cbn -[im_append append_batches].
  unfold im_append. rewrite Hrb. cbn [negb].
  destruct (check_rebuilt _ _ _) as [u|e]; [|done]. cbn [map_err].
  destruct (bump n 1) as [n'|e]; [|done]. intros Hrun.
  apply IH in Hrun as [Hd Hc]; [|by destruct c]. split; [done|]. rewrite Hc. destruct c. cbn.
  rewrite map_app. unfold insert_entries. by rewrite fold_left_app.
Qed.

(** The catalog whose locations are replaced by the selected ones. *)
Definition relocated (M : gmap ContentId RebuildCandidate) (c : InMemoryCatalog) : InMemoryCatalog :=
  set_rebuild false (set_objects (λ _, insert_entries (map rb_entry (selected_values M)) ∅) c).

Lemma append_finish_im M maximum n d (c : InMemoryCatalog) k s1 r s' :
  im_rebuild c = true → im_objects c = ∅ → maximum ≠ 0 → 0 ≤ maximum →
  append_batches (chunks_of (length (selected_values M)) (Z.to_nat maximum) (selected_values M)) n
    (mkSys d c) = (Ok k, s1) →
  on_catalog finish_object_location_rebuild s1 = (Ok r, s') →
  sys_disk s' = d ∧ sys_catalog s' = relocated M c.
Proof.
  intros Hrb Ho Hn0 Hn Hb Hf. apply append_batches_im in Hb as [Hd Hc]; [|done].
  rewrite chunks_of_concat in Hc by lia. destruct s1 as [d1 c1]. cbn in Hd, Hc. subst d1 c1.
  unfold on_catalog in Hf. cbn [sys_catalog sys_disk] in Hf. cbn in Hf. unfold im_finish in Hf.
  destruct c. cbn in Hrb, Ho. subst. cbn in Hf. injection Hf as _ <-. done.
Qed.

Lemma rebuild_im paths maximum d (c : InMemoryCatalog) report s' :
  sane d → 0 ≤ maximum → rebuild_object_locations paths maximum (mkSys d c) = (Ok report, s') →
  same_files d (sys_disk s') ∧
  ∃ chunks M, surveyed d (current_generation c) paths chunks M ∧
    Forall (alias_ok d M) (im_alias_entries c) ∧ sys_catalog s' = relocated M c.
Proof.
  intros Hs Hn. unfold rebuild_object_locations, st_bind, st_get, st_ret, lifted, st_lift.
  case_bool_decide as Hn0; cbn [ensure]; [|done]. cbn [sys_catalog].
  set (c1 := if im_rebuild c then set_objects (λ _, ∅) c else c).
  assert (∀ f, (if decide ((if im_rebuild c then InProgress else Idle) = InProgress)
    then on_catalog restart_object_location_rebuild else f) (mkSys d c) =
    if im_rebuild c then (Ok (), mkSys d c1) else f (mkSys d c)) as Hrestart.
  { intros f. subst c1. destruct c, im_rebuild0; done. }
  cbn [object_location_rebuild_state InMemoryCatalog_Catalog map_err]. rewrite Hrestart.
  assert (∀ pf s2, preflight_object_location_rebuild paths (mkSys d c1) = (Ok pf, s2) →
    same_files d (sys_disk s2) ∧ sys_catalog s2 = c1 ∧ ∃ chunks M,
      surveyed d (current_generation c) paths chunks M ∧ pf_entries pf = selected_values M ∧
      Forall (alias_ok d M) (im_alias_entries c)) as Hpf.
  { intros pf s2 Hp. assert (current_generation c1 = current_generation c ∧ im_alias_entries c1 = im_alias_entries c)
      as [<- <-] by (subst c1; by destruct c, im_rebuild0).
    eapply preflight_spec; [done| |done]. done. }
  set (c2 := set_rebuild true (set_objects (λ _, ∅) c)).
  assert (∀ M, relocated M c2 = relocated M c) as Hrel by (intros M; subst c2; by destruct c).
  assert (im_rebuild c2 = true ∧ im_objects c2 = ∅) as [Hrb Hob] by (subst c2; by destruct c).
  destruct (im_rebuild c) eqn:Hstate.
  - destruct (preflight_object_location_rebuild paths (mkSys d c1)) as [[pf|e] [d2 c']] eqn:E1; [|done].
    destruct (Hpf _ _ eq_refl) as (Hd & Hc & chunks & M & Hsv & -> & Hal). cbn [sys_disk sys_catalog] in Hd, Hc.
    rewrite decide_False by done. assert (c1 = c2) as Hc12 by (subst c1 c2; destruct c; cbn in *; by subst).
    rewrite Hc, Hc12.
    destruct (append_batches _ _ _) as [[k|e] s3] eqn:E3; [|done].
    destruct (on_catalog finish_object_location_rebuild s3) as [[r|e] s4] eqn:E4; [|done].
    intros Heq. injection Heq as _ <-.
    destruct (append_finish_im _ _ _ _ _ _ _ _ _ Hrb Hob Hn0 Hn E3 E4) as [Hd4 Hc4]. rewrite Hd4, Hc4, Hrel.
    split; [done|]. by exists chunks, M.
  - assert (c1 = c) as Hc1 by done. rewrite Hc1 in Hpf.
    destruct (preflight_object_location_rebuild paths (mkSys d c)) as [[pf|e] [d2 c']] eqn:E1; [|done].
    destruct (Hpf _ _ eq_refl) as (Hd & Hc & chunks & M & Hsv & -> & Hal). cbn [sys_disk sys_catalog] in Hd, Hc.
    rewrite decide_True by done. subst c'. unfold on_catalog at 1. cbn [sys_catalog sys_disk].
    assert (begin_object_location_rebuild c = (Ok (), c2)) as -> by (cbn; unfold im_begin; by rewrite Hstate).
    cbn [map_err].
    destruct (append_batches _ _ _) as [[k|e] s3] eqn:E3; [|done].
    destruct (on_catalog finish_object_location_rebuild s3) as [[r|e] s4] eqn:E4; [|done].
    intros Heq. injection Heq as _ <-.
    destruct (append_finish_im _ _ _ _ _ _ _ _ _ Hrb Hob Hn0 Hn E3 E4) as [Hd4 Hc4]. rewrite Hd4, Hc4, Hrel.
    split; [done|]. by exists chunks, M.
Qed.

Lemma relocated_location d current paths chunks M c id l :
  surveyed d current paths chunks M →
  object_location (relocated M c) id = Some l ↔ ∃ cand, M !! id = Some cand ∧ cand_loc cand = l.
Proof.
  intros (_ & _ & _ & Hin & _). assert (object_location (relocated M c) id =
    insert_entries (map rb_entry (selected_values M)) ∅ !! id) as -> by (by destruct c).
  rewrite insert_entries_elem by (apply selected_values_NoDup; intros; by apply Hin).
  rewrite list_elem_of_fmap. setoid_rewrite elem_selected_values. split.
  - intros (cand & He & id' & Hc). destruct (Hin _ _ Hc) as [_ Hid]. exists cand.
    unfold cand_id, cand_loc in *. rewrite <-He in *. cbn in *. by subst.
  - intros (cand & Hc & <-). exists cand. split; [|by exists id]. destruct (Hin _ _ Hc) as [_ <-].
    unfold cand_id, cand_loc. by destruct (rb_entry cand).
Qed.

(** C18. A successful locations-only rebuild of the in-memory catalog, from an
    idle catalog or from one whose rebuild was interrupted, over any chunk
    paths: no file changes; the files at exactly these paths are chunks with
    distinct identities; afterwards the catalog locates exactly the objects
    that have a record in one of them; each location reads back a record of
    its object, verified, and no other record of the object is preferred to
    it; every alias kept from before names the object whose bytes have that
    Git object ID; and nothing else in the catalog changes. *)
Theorem rebuild_restores_locations paths maximum d (c : InMemoryCatalog) report s' :
  sane d → 0 ≤ maximum → rebuild_object_locations paths maximum (mkSys d c) = (Ok report, s') →
  let c' := sys_catalog s' in
  same_files d (sys_disk s') ∧ object_location_rebuild_state c' = Ok Idle ∧
  ∃ chunks, (∀ p, p ∈ map fst chunks ↔ p ∈ paths) ∧ NoDup (map identity chunks) ∧
    Forall (on_the_disk d) chunks ∧
    (∀ id, is_Some (object_location c' id) ↔
       ∃ x r, x ∈ chunks ∧ r ∈ x.2.2 ∧ or_content_id r = id) ∧
    (∀ id l, object_location c' id = Some l →
       (∃ p n r, p ∈ paths ∧ d_names d !! p = Some n ∧ read_record_at (data d n) l = Ok r ∧
          or_content_id r = id ∧ verify_object_record r = Ok ()) ∧
       (∀ cand, cand ∈ all_candidates chunks → cand_id cand = id →
          rebuild_location_precedes (cand_loc cand) l (current_generation c) = false)) ∧
    (∀ repo oid id, oid_alias c repo oid = Some id → ∃ l p n r raw,
       object_location c' id = Some l ∧ p ∈ paths ∧ d_names d !! p = Some n ∧ placed (data d n) l r ∧
       ContentId_for_object (or_kind r) raw = id ∧
       GitOid_for_object (algorithm oid) (or_kind r) raw = Ok oid) ∧
    (∀ k, match k with KObject _ => True | _ => stored c' k = stored c k end).
Proof.
  intros Hs Hn Hrun. cbv zeta. destruct (rebuild_im _ _ _ _ _ _ Hs Hn Hrun) as (Hsame & chunks & M & Hsv & Hal & ->).
  pose proof (λ id l, relocated_location d (current_generation c) paths chunks M c id l) as Hloc.
  pose proof Hsv as (Hp & Hnd & Hall & Hin & Hbest).
  split_and!; [done|by destruct c|]. exists chunks. split_and!; try done.
  - intros id. split.
    + intros [l Hl]. apply (Hloc _ _ Hsv) in Hl as (cand & Hc & _). destruct (Hin _ _ Hc) as [Hcs Hid].
      apply elem_all_candidates in Hcs as (x & Hx & Hcx). rewrite Forall_forall in Hall.
      destruct (candidate_placed d x cand (Hall x Hx) Hcx) as (n & r & _ & _ & Hr & Hrid & _).
      exists x, r. by rewrite Hrid, Hid.
    + intros (x & r & Hx & Hr & <-).
      destruct (candidates_elem x.2.1 x.1 64 _ _ Hr) as (cand & Hc & <-).
      destruct (Hbest cand) as (w & Hw & _); [apply elem_all_candidates; eauto|].
      exists (cand_loc w). apply (Hloc _ _ Hsv). eauto.
  - intros id l Hl. apply (Hloc _ _ Hsv) in Hl as (cand & Hc & <-). split.
    + destruct (surveyed_placed _ _ _ _ _ _ _ Hsv Hc) as (Hpath & _ & n & r & Hnm & Hid & Hpl & Hv & Hsc).
      exists (rb_path cand), n, r. split_and!; try done. apply read_placed; try done.
      * pose proof (sane_data d n Hs). unfold MAX_FILE_BYTES, u64_max in *. lia.
      * by destruct Hsc as (_ & _ & ?).
    + intros x Hx Hid. destruct (Hbest x Hx) as (w & Hw & Hpre). congruence.
  - intros repo oid id Ha. rewrite Forall_forall in Hal.
    destruct (Hal (mkOidAliasEntry repo oid id)) as (cand & Hc & n & r & raw & Hnm & Hpl & Hcid & Hoid).
    { unfold im_alias_entries, alias_entry_cmp. rewrite sort_on_perm.
      apply list_elem_of_fmap. exists ((repo, oid), id). split; [done|]. by apply elem_of_map_to_list. }
    cbn [ae_content_id ae_oid] in *.
    destruct (surveyed_placed _ _ _ _ _ _ _ Hsv Hc) as (Hpath & _ & n' & r' & Hnm' & Hid & Hpl' & _).
    assert (n' = n) as -> by congruence. rewrite (placed_unique _ _ _ _ Hpl' Hpl) in Hid.
    exists (cand_loc cand), (rb_path cand), n, r, raw. split_and!; try done; [|congruence].
    apply (Hloc _ _ Hsv). eauto.
  - intros k. by destruct c, k.
Qed.
End InMemory.

(** ** A rebuild of a catalog that lost its locations *)

#[local] Existing Instance toy_digests.
#[local] Existing Instance toy_zstd.

Definition lost_oid : GitOid :=
  match GitOid_for_object Sha1 Blob sample_raw with Ok oid => oid | Err _ => mkGitOid Sha1 20 (zeros 32) end.
Definition lost_catalog : InMemoryCatalog :=
  (im_apply InMemoryCatalog_default
     [OpOidAlias demo_repo lost_oid (or_content_id sample_zstd_record)]).2.
Definition lost_disk : Disk := sys_disk (demo_appended []).

Lemma lost_disk_sane : sane lost_disk.
Proof.
  assert (good (demo_appended [], Some (demo_next []))) as (f & home & Hi & _).
  { eapply reachable_good; [apply demo_initial|]. apply demo_append_step. vm_compute. reflexivity. }
  by destruct Hi.
Qed.

Lemma rebuild_restores_locations_witness :
  ∃ l, object_location (sys_catalog (rebuild_object_locations [demo_path; demo_path] 2
    (mkSys lost_disk lost_catalog)).2) (or_content_id sample_zstd_record) = Some l.
Proof.
  destruct (rebuild_restores_locations [demo_path; demo_path] 2 lost_disk lost_catalog
    (mkReport 1 0 1 1 1 0 1 1)
    (rebuild_object_locations [demo_path; demo_path] 2 (mkSys lost_disk lost_catalog)).2)
    as (_ & _ & chunks & _ & _ & _ & _ & _ & Hal & _).
  - exact lost_disk_sane.
  - lia.
  - assert ((rebuild_object_locations [demo_path; demo_path] 2 (mkSys lost_disk lost_catalog)).1 =
      Ok (mkReport 1 0 1 1 1 0 1 1)) as Hok by (vm_compute; reflexivity).
    rewrite <-Hok. apply surjective_pairing.
  - destruct (Hal demo_repo lost_oid (or_content_id sample_zstd_record)) as (l & _ & _ & _ & _ & Hl & _);
      [vm_compute; reflexivity|]. by exists l.
Defined.

End RebuildSpec.
