(* ===== verification/Git.v ===== *)
(** * Git objects: [reflink-forest-git/src/lib.rs]

    The parsers of commits, trees and tags, object IDs in hexadecimal, the two
    backends over libgit2 and over the [git] program, and the walk over every
    object reachable from a set of roots. libgit2 and the [git] program are
    parameters: the classes [LibGit2Repository] and [GitProgram]. *)

From Stdlib Require Import ZArith Lia Strings.Byte Strings.String.
From stdpp Require Import base tactics list gmap strings.
From S2P Require Import Prelude Order Core.
Import Core.

#[local] Open Scope Z_scope.

Module Git.

(** A byte-string literal [b"..."]. *)
Abbreviation b_ s := (String.list_byte_of_string s%string).

Definition HEADS_PREFIX : bytes := b_ "refs/heads/".
Definition TAGS_PREFIX : bytes := b_ "refs/tags/".
Definition LF : byte := x0a.
Definition SPACE : byte := x20.
Definition SLASH : byte := x2f.

(** ** Data *)

Inductive LocalRefKind := Branch | TagRef.
#[export] Instance LocalRefKind_eq_dec : EqDecision LocalRefKind.
Proof. solve_decision. Defined.
(** [RefName] wraps its bytes. *)
Record SnapshotRef := mkSnapshotRef { sr_name : bytes; sr_kind : LocalRefKind; sr_target : GitOid }.
Record RefSnapshot := mkRefSnapshot { sn_algorithm : HashAlgorithm; sn_refs : list SnapshotRef }.
Definition roots (s : RefSnapshot) : list GitOid := map sr_target (sn_refs s).
Record GitObject := mkGitObject { go_oid : GitOid; go_kind : ObjectKind; go_data : bytes }.
Record GitTreeEntry := mkGitTreeEntry { te_mode : Z; te_name : bytes; te_oid : GitOid }.

Inductive GitBackendError :=
| LibGit2Error (operation : string)
| GitIo (command : string)
| CommandFailed (command : string) (status : option Z) (stderr : bytes)
| UnsupportedHashAlgorithm (value : bytes)
| InvalidGitOutput (reason : string)
| InvalidGitOid (e : InvalidGitOidLength)
| InvalidHexOid
| UnknownObjectKind (kind : bytes)
| MalformedObject (oid : GitOid) (reason : string).

Definition malformed (o : GitObject) (reason : string) : GitBackendError :=
  MalformedObject (go_oid o) reason.

(** ** Slices *)

(** [slice.split(|b| b == sep)]: always at least one piece. *)
Fixpoint split (sep : byte) (b : bytes) : list bytes :=
  match b with
  | [] => [[]]
  | x :: b =>
      if decide (x = sep) then [] :: split sep b
      else match split sep b with
           | p :: ps => (x :: p) :: ps
           | [] => [[x]]
           end
  end.
Fixpoint strip_prefix (p b : bytes) : option bytes :=
  match p, b with
  | [], b => Some b
  | x :: p, y :: b => if decide (x = y) then strip_prefix p b else None
  | _ :: _, [] => None
  end.
Definition starts_with (p b : bytes) : bool := bool_decide (is_Some (strip_prefix p b)).
Lemma strip_prefix_Some p b r : strip_prefix p b = Some r ↔ b = p ++ r.
Proof.
  revert b. induction p as [|x p IH]; intros b; cbn; [split; [by intros [= ->]|by intros ->]|].
  destruct b as [|y b]; [split; done|]. case_decide as Hxy.
  - subst. rewrite IH. split; [by intros ->|by intros [= ->]].
  - split; [done|]. intros [= ? _]. done.
Qed.
Lemma starts_with_true p b : starts_with p b = true ↔ p `prefix_of` b.
Proof.
  unfold starts_with. rewrite bool_decide_eq_true. split.
  - intros [r Hr%strip_prefix_Some]. by exists r.
  - intros [r ->]. exists r. by apply strip_prefix_Some.
Qed.
(** [iter().position(|b| b == x)]. *)
Definition position (x : byte) (b : bytes) : option nat := fst <$> list_find (λ y, y = x) b.

Definition is_ascii_space (b : byte) : bool :=
  bool_decide (b = x20) || bool_decide (b = x09) || bool_decide (b = x0d) || bool_decide (b = x0a).
Fixpoint trim_start (b : bytes) : bytes :=
  match b with
  | x :: rest => if is_ascii_space x then trim_start rest else b
  | [] => []
  end.
Definition trim_ascii (b : bytes) : bytes := reverse (trim_start (reverse (trim_start b))).

(** ** Hexadecimal object IDs *)

Definition hex_digit (b : byte) : result GitBackendError Z :=
  let z := byte_to_Z b in
  if decide (48 ≤ z ≤ 57) then Ok (z - 48)
  else if decide (97 ≤ z ≤ 102) then Ok (z - 97 + 10)
  else if decide (65 ≤ z ≤ 70) then Ok (z - 65 + 10)
  else Err InvalidHexOid.

Fixpoint hex_pairs (b : bytes) : result GitBackendError bytes :=
  match b with
  | x :: y :: b =>
      hi ← hex_digit x;
      lo ← hex_digit y;
      rest ← hex_pairs b;
      Ok (byte_of_Z (Z.lor (Z.shiftl hi 4) lo) :: rest)
  | _ => Ok []
  end.

Definition parse_hex_oid (a : HashAlgorithm) (hex : bytes) : result GitBackendError GitOid :=
  _ ← ensure (bool_decide (Z.of_nat (length hex) = oid_len a * 2))
             (InvalidGitOutput "object ID has an unexpected length");
  pairs ← hex_pairs hex;
  let bytes := put (zeros 32) 0 pairs in
  map_err InvalidGitOid (GitOid_new a (take (Z.to_nat (oid_len a)) bytes)).

Definition HEX : bytes := b_ "0123456789abcdef".
Definition oid_to_hex (o : GitOid) : bytes :=
  concat (map (λ x, [default x00 (HEX !! Z.to_nat (Z.shiftr (byte_to_Z x) 4));
                     default x00 (HEX !! Z.to_nat (Z.land (byte_to_Z x) 15))]) (oid_as_bytes o)).

Definition parse_single_oid (a : HashAlgorithm) (output : bytes) : result GitBackendError GitOid :=
  let output := trim_ascii output in
  _ ← ensure (negb (bool_decide (output = []) || bool_decide (LF ∈ output) || bool_decide (x0d ∈ output)))
             (InvalidGitOutput "expected exactly one object ID");
  parse_hex_oid a output.

(** ** Commits and tags *)

(** The first blank line ends the header. *)
Fixpoint header_end (b : bytes) : option nat :=
  match b with
  | x :: ((y :: _) as rest) =>
      if decide (x = LF ∧ y = LF) then Some 0%nat else S <$> header_end rest
  | _ => None
  end.
Definition object_header (data : bytes) : bytes :=
  match header_end data with Some n => take n data | None => data end.

(** The loop over header lines that keeps the value of one header, at most once. *)
Fixpoint single_header (o : GitObject) (prefix : bytes) (twice : string) (lines : list bytes)
    (found : option GitOid) : result GitBackendError (option GitOid) :=
  match lines with
  | [] => Ok found
  | line :: lines =>
      match strip_prefix prefix line with
      | Some value =>
          match found with
          | Some _ => Err (malformed o twice)
          | None =>
              oid ← parse_hex_oid (algorithm (go_oid o)) value;
              single_header o prefix twice lines (Some oid)
          end
      | None => single_header o prefix twice lines found
      end
  end.

Definition commit_tree_oid (o : GitObject) : result GitBackendError GitOid :=
  _ ← ensure (bool_decide (go_kind o = Commit)) (malformed o "expected a commit object");
  tree ← single_header o (b_ "tree ") "commit has more than one tree header"
           (split LF (object_header (go_data o))) None;
  ok_or tree (malformed o "commit has no tree header").

Fixpoint parent_headers (a : HashAlgorithm) (lines : list bytes) : result GitBackendError (list GitOid) :=
  match lines with
  | [] => Ok []
  | line :: lines =>
      match strip_prefix (b_ "parent ") line with
      | Some value =>
          oid ← parse_hex_oid a value;
          parents ← parent_headers a lines;
          Ok (oid :: parents)
      | None => parent_headers a lines
      end
  end.

Definition parse_commit_references (o : GitObject) : result GitBackendError (list GitOid) :=
  parents ← parent_headers (algorithm (go_oid o)) (split LF (object_header (go_data o)));
  tree ← commit_tree_oid o;
  Ok (tree :: parents).

Definition parse_tag_references (o : GitObject) : result GitBackendError (list GitOid) :=
  target ← single_header o (b_ "object ") "tag has more than one object header"
             (split LF (object_header (go_data o))) None;
  oid ← ok_or target (malformed o "tag has no object header");
  Ok [oid].

(** ** Trees *)

Definition TREE_MODES : list Z := [16384; 33188; 33261; 40960; 57344].
Definition GITLINK : Z := 57344.

(** The loop of [parse_tree_mode], in checked [u32] arithmetic. *)
Fixpoint octal (mode : Z) (b : bytes) : option Z :=
  match b with
  | [] => Some mode
  | x :: b =>
      let z := byte_to_Z x in
      if decide (48 ≤ z ≤ 55) then
        m ← u32_try_from (mode * 8);
        m ← u32_try_from (m + (z - 48));
        octal m b
      else None
  end.
Definition parse_tree_mode (b : bytes) : option Z :=
  if decide (b = [] ∨ (6 < length b)%nat) then None
  else mode ← octal 0 b; if decide (mode ∈ TREE_MODES) then Some mode else None.

(** One turn of the loop of [parse_tree_entries]: an entry and what follows it. *)
Definition parse_tree_entry (o : GitObject) (remaining : bytes)
    : result GitBackendError (GitTreeEntry * bytes) :=
  let a := algorithm (go_oid o) in
  nul ← ok_or (position x00 remaining) (malformed o "tree entry is missing its NUL separator");
  let header := take nul remaining in
  separator ← ok_or (position SPACE header) (malformed o "tree entry is missing mode/name separator");
  let name := drop (separator + 1) header in
  _ ← ensure (negb (bool_decide (name = []) || bool_decide (SLASH ∈ name)))
             (malformed o "tree entry has an invalid name");
  mode ← ok_or (parse_tree_mode (take separator header)) (malformed o "tree entry has an invalid mode");
  after_name ← ok_or (checked_add (Z.of_nat nul) 1) (malformed o "tree entry length overflow");
  after_oid ← ok_or (checked_add after_name (oid_len a)) (malformed o "tree entry length overflow");
  _ ← ensure (bool_decide (after_oid ≤ Z.of_nat (length remaining)))
             (malformed o "tree entry is missing object ID bytes");
  oid ← map_err InvalidGitOid
          (GitOid_new a (slice (Z.to_nat after_name) (Z.to_nat (oid_len a)) remaining));
  Ok (mkGitTreeEntry mode name oid, drop (Z.to_nat after_oid) remaining).

(** The loop; every entry takes at least one byte. *)
Fixpoint tree_entries (fuel : nat) (o : GitObject) (remaining : bytes)
    : result GitBackendError (list GitTreeEntry) :=
  match fuel, remaining with
  | _, [] | O, _ => Ok []
  | S fuel, _ =>
      r ← parse_tree_entry o remaining;
      entries ← tree_entries fuel o r.2;
      Ok (r.1 :: entries)
  end.
Definition parse_tree_entries (o : GitObject) : result GitBackendError (list GitTreeEntry) :=
  _ ← ensure (bool_decide (go_kind o = Tree)) (malformed o "expected a tree object");
  tree_entries (length (go_data o)) o (go_data o).

Definition parse_tree_references (o : GitObject) : result GitBackendError (list GitOid) :=
  entries ← parse_tree_entries o;
  Ok (map te_oid entries).

Definition referenced_oids (o : GitObject) : result GitBackendError (list GitOid) :=
  match go_kind o with
  | Blob => Ok []
  | Commit => parse_commit_references o
  | Tag => parse_tag_references o
  | Tree => parse_tree_references o
  end.

(** ** The walk *)

Section Walk.
Context (algo : HashAlgorithm) (read_object : GitOid → result GitBackendError GitObject).

Definition ensure_algorithm (oid : GitOid) : result GitBackendError unit :=
  ensure (bool_decide (algorithm oid = algo))
         (InvalidGitOutput "object ID algorithm does not match repository format").

(** The loop over the queue; [None] is a loop that has not ended yet. *)
Fixpoint reachable_loop (fuel : nat) (pending : list GitOid) (seen : gset GitOid) (found : list GitObject)
    : option (result GitBackendError (list GitObject)) :=
  match fuel with
  | O => None
  | S fuel =>
      match pending with
      | [] => Some (Ok found)
      | oid :: pending =>
          if decide (oid ∈ seen) then reachable_loop fuel pending seen found
          else match (object ← read_object oid;
                      children ← referenced_oids object;
                      Ok (object, children)) with
               | Err e => Some (Err e)
               | Ok (object, children) =>
                   reachable_loop fuel (pending ++ children) ({[oid]} ∪ seen) (found ++ [object])
               end
      end
  end.

Fixpoint queue_roots (rs : list GitOid) (pending : list GitOid) : result GitBackendError (list GitOid) :=
  match rs with
  | [] => Ok pending
  | r :: rs => _ ← ensure_algorithm r; queue_roots rs (pending ++ [r])
  end.

Definition reachable_objects (fuel : nat) (rs : list GitOid)
    : option (result GitBackendError (list GitObject)) :=
  match queue_roots rs [] with
  | Err e => Some (Err e)
  | Ok pending => reachable_loop fuel pending ∅ []
  end.
End Walk.

(** ** Backends *)

(** [for-each-ref] and libgit2 list refs by name; the namespace gives the kind. *)
Definition local_ref_kind (name : bytes) : option LocalRefKind :=
  if starts_with HEADS_PREFIX name then Some Branch
  else if starts_with TAGS_PREFIX name then Some TagRef
  else None.

(** libgit2: an object ID is a format and its bytes. *)
Record LibOid := mkLibOid { lo_format : HashAlgorithm; lo_bytes : bytes }.
Inductive LibObjectType := LibCommit | LibTree | LibBlob | LibTag | LibAny.
Record LibReference := mkLibReference {
  lr_name : bytes;
  lr_target : option LibOid;
  lr_resolve : option (option LibOid) }.
Class LibGit2Repository := {
  lg_object_format : HashAlgorithm;
  lg_references : option (list (option LibReference));
  lg_oid_from_bytes : bytes → option LibOid;
  lg_odb : option (LibOid → option (LibOid * LibObjectType * bytes));
  lg_revparse_single : bytes → option LibOid;
}.

Definition git_oid_from_libgit2 (o : LibOid) : result GitBackendError GitOid :=
  map_err InvalidGitOid (GitOid_new (lo_format o) (lo_bytes o)).
Definition object_kind_from_libgit2 (k : LibObjectType) : result GitBackendError ObjectKind :=
  match k with
  | LibCommit => Ok Commit | LibTree => Ok Tree | LibBlob => Ok Blob | LibTag => Ok Tag
  | LibAny => Err (InvalidGitOutput "libgit2 object database returned an object with type Any")
  end.

Section LibGit2.
Context `{LibGit2Repository}.

Definition lib_read_object (oid : GitOid) : result GitBackendError GitObject :=
  _ ← ensure_algorithm lg_object_format oid;
  odb ← ok_or lg_odb (LibGit2Error "open object database");
  native ← ok_or (lg_oid_from_bytes (oid_as_bytes oid)) (LibGit2Error "convert object ID");
  r ← ok_or (odb native) (LibGit2Error "read object");
  actual ← git_oid_from_libgit2 r.1.1;
  _ ← ensure (bool_decide (actual = oid))
             (InvalidGitOutput "libgit2 object ID does not match the requested ID");
  kind ← object_kind_from_libgit2 r.1.2;
  Ok (mkGitObject oid kind r.2).

Fixpoint lib_refs (references : list (option LibReference)) : result GitBackendError (list SnapshotRef) :=
  match references with
  | [] => Ok []
  | r :: references =>
      reference ← ok_or r (LibGit2Error "iterate references");
      match local_ref_kind (lr_name reference) with
      | None => lib_refs references
      | Some kind =>
          target ← match lr_target reference with
                   | Some t => Ok t
                   | None =>
                       resolved ← ok_or (lr_resolve reference) (LibGit2Error "resolve symbolic reference");
                       ok_or resolved (InvalidGitOutput "resolved local reference has no direct object ID")
                   end;
          target ← git_oid_from_libgit2 target;
          _ ← ensure_algorithm lg_object_format target;
          refs ← lib_refs references;
          Ok (mkSnapshotRef (lr_name reference) kind target :: refs)
      end
  end.
Definition lib_snapshot_local_refs : result GitBackendError RefSnapshot :=
  references ← ok_or lg_references (LibGit2Error "list references");
  refs ← lib_refs references;
  Ok (mkRefSnapshot lg_object_format (sort_by (cmp_on sr_name bytes_compare) refs)).
Definition lib_resolve_revision (revision : bytes) : result GitBackendError GitOid :=
  _ ← ensure (bool_decide (x00 ∉ revision)) (InvalidGitOutput "revision contains a NUL byte");
  o ← ok_or (lg_revparse_single revision) (LibGit2Error "resolve revision");
  oid ← git_oid_from_libgit2 o;
  _ ← ensure_algorithm lg_object_format oid;
  Ok oid.
Definition lib_reachable_objects := reachable_objects lg_object_format lib_read_object.
End LibGit2.

(** The [git] program: its exit status, output and error output for a list of
    arguments, or a failure to run it. *)
Record CommandOutput := mkCommandOutput { co_status : option Z; co_stdout : bytes; co_stderr : bytes }.
Class GitProgram := { git_output : list bytes → option CommandOutput }.

Definition parse_object_kind (raw : bytes) : result GitBackendError ObjectKind :=
  if decide (raw = b_ "commit") then Ok Commit
  else if decide (raw = b_ "tree") then Ok Tree
  else if decide (raw = b_ "blob") then Ok Blob
  else if decide (raw = b_ "tag") then Ok Tag
  else Err (UnknownObjectKind raw).
Definition object_kind_name (k : ObjectKind) : bytes :=
  match k with Commit => b_ "commit" | Tree => b_ "tree" | Blob => b_ "blob" | Tag => b_ "tag" end.

Section SystemGit.
Context `{GitProgram}.

Definition checked_output (command : string) (o : CommandOutput) : result GitBackendError bytes :=
  if decide (co_status o = Some 0) then Ok (co_stdout o)
  else Err (CommandFailed command (co_status o) (co_stderr o)).
Definition run (command : string) (args : list bytes) : result GitBackendError bytes :=
  o ← ok_or (git_output ([b_ "--no-pager"; b_ "--no-optional-locks"; b_ "--no-replace-objects"] ++ args))
            (GitIo command);
  checked_output command o.

Definition query_hash_algorithm : result GitBackendError HashAlgorithm :=
  output ← run "rev-parse --show-object-format" [b_ "rev-parse"; b_ "--show-object-format"];
  let other := trim_ascii output in
  if decide (other = b_ "sha1") then Ok Sha1
  else if decide (other = b_ "sha256") then Ok Sha256
  else Err (UnsupportedHashAlgorithm other).

Definition sys_read_object (algo : HashAlgorithm) (oid : GitOid) : result GitBackendError GitObject :=
  _ ← ensure_algorithm algo oid;
  let oid_text := oid_to_hex oid in
  kind_bytes ← run "cat-file -t" [b_ "cat-file"; b_ "-t"; oid_text];
  kind ← parse_object_kind (trim_ascii kind_bytes);
  data ← run "cat-file" [b_ "cat-file"; object_kind_name kind; oid_text];
  Ok (mkGitObject oid kind data).

(** One record of [for-each-ref]: the name and the object, each ended by NUL. *)
Definition parse_ref_record (algo : HashAlgorithm) (record : bytes) : result GitBackendError SnapshotRef :=
  let fields := split x00 record in
  let fields := if decide (last fields = Some []) then take (length fields - 1) fields else fields in
  match fields with
  | [name; object_name] =>
      kind ← ok_or (local_ref_kind name)
               (InvalidGitOutput "for-each-ref returned a ref outside requested namespaces");
      target ← parse_hex_oid algo object_name;
      Ok (mkSnapshotRef name kind target)
  | _ => Err (InvalidGitOutput "for-each-ref fields are not a name/object pair")
  end.
Fixpoint parse_ref_records (algo : HashAlgorithm) (records : list bytes)
    : result GitBackendError (list SnapshotRef) :=
  match records with
  | [] => Ok []
  | record :: records =>
      if decide (record = []) then parse_ref_records algo records
      else ref ← parse_ref_record algo record;
           refs ← parse_ref_records algo records;
           Ok (ref :: refs)
  end.
Definition sys_snapshot_local_refs (algo : HashAlgorithm) : result GitBackendError RefSnapshot :=
  output ← run "for-each-ref" [b_ "for-each-ref"; b_ "--format=%(refname)%00%(objectname)%00";
                               b_ "refs/heads"; b_ "refs/tags"];
  refs ← parse_ref_records algo (split LF output);
  Ok (mkRefSnapshot algo refs).
Definition sys_resolve_revision (algo : HashAlgorithm) (revision : bytes) : result GitBackendError GitOid :=
  _ ← ensure (negb (bool_decide (x00 ∈ revision))) (InvalidGitOutput "revision contains a NUL byte");
  output ← run "rev-parse --verify" [b_ "rev-parse"; b_ "--verify"; b_ "--end-of-options"; revision];
  parse_single_oid algo output.
Definition sys_reachable_objects (algo : HashAlgorithm) := reachable_objects algo (sys_read_object algo).
End SystemGit.

End Git.
