(* ===== verification/GitSpec.v ===== *)
(** * What the Git parsers and the object walk guarantee *)

From Stdlib Require Import ZArith Lia Strings.Byte Strings.String.
From stdpp Require Import base tactics list gmap strings.
From S2P Require Import Prelude Order Core Git.
Import Core Git.

#[local] Open Scope Z_scope.

Module GitSpec.

(** ** Slices *)

Lemma position_app x (a b : bytes) : x ∉ a → position x (a ++ x :: b) = Some (length a).
Proof.
  intros Hx. unfold position. induction a as [|y a IH]; cbn [app list_find fmap option_fmap option_map].
  - by rewrite decide_True.
  - apply not_elem_of_cons in Hx as [Hxy Hx]. rewrite decide_False by congruence.
    specialize (IH Hx). destruct (list_find _ (a ++ x :: b)) as [[i z]|]; [|done].
    cbn in *. by injection IH as ->.
Qed.
Lemma position_inv x (b : bytes) n :
  position x b = Some n → ∃ l, b = take n b ++ x :: l ∧ length (take n b) = n ∧ (x ∉ take n b).
Proof.
  unfold position. intros Hp. destruct (list_find _ b) as [[i y]|] eqn:Hf; [|done].
  cbn in Hp. injection Hp as ->. apply list_find_Some in Hf as (Hl & -> & Hbefore).
  exists (drop (S n) b). split_and!.
  - by rewrite (take_drop_middle b n x Hl).
  - apply length_take_le. apply lookup_lt_Some in Hl. lia.
  - intros (j & Hj)%list_elem_of_lookup. apply lookup_take_Some in Hj as [Hj Hlt].
    by apply (Hbefore j x Hj).
Qed.

Lemma strip_prefix_app p b : strip_prefix p (p ++ b) = Some b.
Proof. induction p as [|x p IH]; [done|]. cbn. by rewrite decide_True. Qed.

(** Lines: joined by a separator, they split back. *)
Lemma split_line {sep} (l rest : bytes) : sep ∉ l → split sep (l ++ sep :: rest) = l :: split sep rest.
Proof.
  intros Hl. induction l as [|x l IH]; cbn [app split].
  - by rewrite decide_True.
  - apply not_elem_of_cons in Hl as [Hx Hl]. rewrite decide_False by congruence. by rewrite IH.
Qed.
Lemma split_last {sep} (l : bytes) : sep ∉ l → split sep l = [l].
Proof.
  intros Hl. induction l as [|x l IH]; cbn [split]; [done|].
  apply not_elem_of_cons in Hl as [Hx Hl]. rewrite decide_False by congruence. by rewrite IH.
Qed.

(** Each line ended by a line feed. *)
Definition unlines (ls : list bytes) : bytes := concat (map (λ l, l ++ [LF]) ls).
Definition is_line (l : bytes) : Prop := l ≠ [] ∧ (LF ∉ l).

Lemma header_end_line (l rest : bytes) : is_line l →
  header_end (l ++ LF :: rest) = (λ n, length l + n)%nat <$> header_end (LF :: rest).
Proof.
  intros [_ Hl]. induction l as [|x l IH].
  { cbn [app length]. by destruct (header_end (LF :: rest)). }
  apply not_elem_of_cons in Hl as [Hx Hl]. cbn [app length].
  assert (header_end (x :: l ++ LF :: rest) = S <$> header_end (l ++ LF :: rest)) as ->.
  { cbn [header_end]. destruct (l ++ LF :: rest) eqn:E; [by destruct l|].
    rewrite decide_False; [done|]. intros [-> _]. done. }
  rewrite IH by done. by destruct (header_end (LF :: rest)).
Qed.

(** The header of an object is its lines, up to the first blank one. *)
Lemma object_header_lines ls msg : ls ≠ [] → Forall is_line ls →
  split LF (object_header (unlines ls ++ LF :: msg)) = ls.
Proof.
  intros Hne Hall. unfold object_header.
  assert (header_end (unlines ls ++ LF :: msg) = Some (length (unlines ls) - 1)%nat ∧
    (length (unlines ls) ≠ 0)%nat) as [-> Hlen].
  { induction Hall as [|l ls Hl Hall IH]; [done|]. unfold unlines. cbn [map concat]. fold (unlines ls).
    rewrite <-!app_assoc. cbn [app]. rewrite header_end_line by done. rewrite !length_app. cbn [length].
    destruct ls as [|l2 ls].
    - change (unlines []) with (@nil byte). cbn [app header_end length]. rewrite decide_True by done.
      split; [cbn; f_equal; lia|lia].
    - destruct IH as [IH Hn0]; [done|]. split; [|lia].
      assert (header_end (LF :: unlines (l2 :: ls) ++ LF :: msg) =
        S <$> header_end (unlines (l2 :: ls) ++ LF :: msg)) as ->.
      { apply Forall_cons in Hall as [[Hl2 Hl2'] _]. destruct l2 as [|y l2]; [done|].
        apply not_elem_of_cons in Hl2' as [Hy _]. cbn [unlines map concat app header_end].
        rewrite decide_False; [done|]. intros [_ ->]. done. }
      rewrite IH. cbn [fmap option_fmap option_map]. f_equal. lia. }
  clear Hlen. induction Hall as [|l ls Hl Hall IH]; [done|].
  unfold unlines. cbn [map concat]. fold (unlines ls). rewrite <-!app_assoc, !length_app. cbn [app length].
  destruct ls as [|l2 ls].
  - cbn [unlines map concat length app]. rewrite take_app_le, take_ge by lia. apply split_last, Hl.
  - assert (length (unlines (l2 :: ls)) ≠ 0)%nat as Hn0 by (unfold unlines; cbn; rewrite !length_app; cbn; lia).
    rewrite take_app_ge by lia.
    replace (length l + (1 + length (unlines (l2 :: ls))) - 1 - length l)%nat
      with (S (length (unlines (l2 :: ls)) - 1)) by lia.
    cbn [take].
    rewrite split_line by apply Hl. f_equal. by apply IH.
Qed.

(** ** Hexadecimal *)

Definition hex2 (x : byte) : bytes :=
  [default x00 (HEX !! Z.to_nat (Z.shiftr (byte_to_Z x) 4));
   default x00 (HEX !! Z.to_nat (Z.land (byte_to_Z x) 15))].
Lemma hex_digits_of x :
  hex_digit (default x00 (HEX !! Z.to_nat (Z.shiftr (byte_to_Z x) 4))) = Ok (Z.shiftr (byte_to_Z x) 4) ∧
  hex_digit (default x00 (HEX !! Z.to_nat (Z.land (byte_to_Z x) 15))) = Ok (Z.land (byte_to_Z x) 15) ∧
  byte_of_Z (Z.lor (Z.shiftl (Z.shiftr (byte_to_Z x) 4) 4) (Z.land (byte_to_Z x) 15)) = x ∧
  (LF ∉ hex2 x).
Proof. destruct x; split_and!; try (vm_compute; reflexivity); by apply (bool_decide_unpack _). Qed.

Lemma hex_pairs_of (b : bytes) : hex_pairs (concat (map hex2 b)) = Ok b.
Proof.
  induction b as [|x b IH]; [done|]. destruct (hex_digits_of x) as (H1' & H2' & H3' & _).
  cbn [map concat]. unfold hex2 at 1. cbn [app hex_pairs].
  rewrite H1', bind_Ok, H2', bind_Ok, IH, bind_Ok, H3'. done.
Qed.
Lemma length_hex (b : bytes) : length (concat (map hex2 b)) = (2 * length b)%nat.
Proof. induction b as [|x b IH]; [done|]. cbn [map concat]. rewrite length_app, IH. cbn. lia. Qed.

Lemma oid_to_hex_pairs o : oid_to_hex o = concat (map hex2 (oid_as_bytes o)).
Proof. reflexivity. Qed.

Lemma parse_oid_to_hex o : GitOid_wf o → parse_hex_oid (algorithm o) (oid_to_hex o) = Ok o.
Proof.
  intros Hwf. pose proof (length_oid_as_bytes o Hwf) as Hl. unfold parse_hex_oid. rewrite oid_to_hex_pairs.
  rewrite bind_ensure_decide by (rewrite length_hex; lia). rewrite hex_pairs_of, bind_Ok.
  assert (take (Z.to_nat (oid_len (algorithm o))) (put (zeros 32) 0 (oid_as_bytes o)) = oid_as_bytes o) as ->.
  { unfold put. rewrite take_0. cbn [app]. rewrite take_app_le by lia. apply take_ge. lia. }
  by rewrite GitOid_new_as_bytes.
Qed.
Lemma oid_to_hex_line o : LF ∉ oid_to_hex o.
Proof.
  rewrite oid_to_hex_pairs. induction (oid_as_bytes o) as [|x b IH]; cbn [map concat].
  - by intros ?%elem_of_nil.
  - rewrite elem_of_app. intros [Hx|Hx]; [|done]. by destruct (hex_digits_of x) as (_ & _ & _ & ?).
Qed.

(** ** Trees *)

(** Octal digits only, so no separator in the mode text. *)
Lemma octal_digits m b n : octal m b = Some n → ∀ x, x ∈ b → 48 ≤ byte_to_Z x ≤ 55.
Proof.
  revert m. induction b as [|y b IH]; intros m Ho x Hx; [by apply elem_of_nil in Hx|].
  cbn [octal] in Ho. case_decide as Hd; [|done].
  destruct (u32_try_from _) as [m1|]; [|done]. cbn in Ho. destruct (u32_try_from _) as [m2|]; [|done]. cbn in Ho.
  apply elem_of_cons in Hx as [->|Hx]; [done|]. by eapply IH.
Qed.
Lemma mode_text_clean text mode :
  parse_tree_mode text = Some mode → (x00 ∉ text) ∧ (SPACE ∉ text).
Proof.
  unfold parse_tree_mode. case_decide; [done|]. destruct (octal 0 text) as [m|] eqn:Ho; [|done]. intros _.
  split; intros Hx; apply (octal_digits _ _ _ Ho) in Hx; by destruct Hx.
Qed.

(** An entry as Git writes it, with the text of its mode. *)
Definition entry_layout (text : bytes) (e : GitTreeEntry) : bytes :=
  text ++ SPACE :: te_name e ++ x00 :: oid_as_bytes (te_oid e).
Definition entry_ok (a : HashAlgorithm) (text : bytes) (e : GitTreeEntry) : Prop :=
  parse_tree_mode text = Some (te_mode e) ∧ te_name e ≠ [] ∧ (SLASH ∉ te_name e) ∧ (x00 ∉ te_name e) ∧
  GitOid_wf (te_oid e) ∧ algorithm (te_oid e) = a.

(** Any Rust slice is this short. *)
Definition isize_len (b : bytes) : Prop := Z.of_nat (length b) < 2 ^ 63.

Lemma entry_layout_split text e rest :
  entry_layout text e ++ rest = (text ++ SPACE :: te_name e) ++ x00 :: oid_as_bytes (te_oid e) ++ rest.
Proof. unfold entry_layout. rewrite <-!app_assoc. cbn. by rewrite <-app_assoc. Qed.

Lemma parse_entry_layout o text e rest :
  isize_len (entry_layout text e ++ rest) → entry_ok (algorithm (go_oid o)) text e →
  parse_tree_entry o (entry_layout text e ++ rest) = Ok (e, rest).
Proof.
  intros Hlen (Hm & Hne & Hsl & Hnul & Hwf & Ha). pose proof (mode_text_clean _ _ Hm) as [Ht0 Hts].
  pose proof (length_oid_as_bytes _ Hwf) as Hol. rewrite Ha in Hol.
  unfold isize_len in Hlen. rewrite entry_layout_split in Hlen |- *.
  set (hd := text ++ SPACE :: te_name e) in *. set (tl := oid_as_bytes (te_oid e) ++ rest) in *.
  assert (x00 ∉ hd) as Hhd.
  { unfold hd. rewrite elem_of_app, elem_of_cons. intros [?|[?|?]]; done. }
  unfold parse_tree_entry. rewrite position_app by done. cbn [ok_or]. rewrite bind_Ok.
  rewrite take_app_length.
  assert (position SPACE hd = Some (length text)) as -> by (by apply position_app). cbn [ok_or]. rewrite bind_Ok.
  assert (drop (length text + 1) hd = te_name e) as Hname.
  { unfold hd. rewrite <-drop_drop, drop_app_length. done. }
  assert (take (length text) hd = text) as Htext by (unfold hd; apply take_app_length).
  rewrite Hname, Htext, bind_ensure by (rewrite !bool_decide_eq_false_2; done).
  rewrite Hm. cbn [ok_or]. rewrite bind_Ok.
  pose proof (oid_len_bounds (algorithm (go_oid o))).
  rewrite length_app in Hlen. cbn [length] in Hlen.
  rewrite checked_add_Some by (unfold u64_max; lia). cbn [ok_or]. rewrite bind_Ok.
  rewrite checked_add_Some by (unfold u64_max; lia). cbn [ok_or]. rewrite bind_Ok.
  rewrite bind_ensure_decide by (rewrite length_app; cbn [length]; unfold tl; rewrite length_app; lia).
  replace (Z.to_nat (Z.of_nat (length hd) + 1)) with (length (hd ++ [x00])) by (rewrite length_app; cbn; lia).
  replace (Z.to_nat (Z.of_nat (length hd) + 1 + oid_len (algorithm (go_oid o))))
    with (length (hd ++ [x00]) + length (oid_as_bytes (te_oid e)))%nat by (rewrite length_app; cbn; lia).
  replace (hd ++ x00 :: tl) with ((hd ++ [x00]) ++ tl) by (by rewrite <-app_assoc).
  unfold slice. rewrite <-drop_drop, !drop_app_length. unfold tl.
  replace (Z.to_nat (oid_len (algorithm (go_oid o)))) with (length (oid_as_bytes (te_oid e))) by lia.
  rewrite take_app_length, drop_app_length, <-Ha, GitOid_new_as_bytes by done. cbn [map_err].
  rewrite bind_Ok. by destruct e.
Qed.

Lemma parse_entry_inv o b e rest :
  parse_tree_entry o b = Ok (e, rest) →
  ∃ text, entry_ok (algorithm (go_oid o)) text e ∧ b = entry_layout text e ++ rest.
Proof.
  unfold parse_tree_entry. intros Hp.
  apply bind_Ok_inv in Hp as (nul & Hnul%ok_or_Ok_inv & Hp).
  apply bind_Ok_inv in Hp as (sep & Hsep%ok_or_Ok_inv & Hp).
  apply bind_Ok_inv in Hp as ([] & Hname%ensure_Ok_inv & Hp).
  apply bind_Ok_inv in Hp as (mode & Hmode%ok_or_Ok_inv & Hp).
  apply bind_Ok_inv in Hp as (an & [-> _]%ok_or_Ok_inv%checked_add_inv & Hp).
  apply bind_Ok_inv in Hp as (ao & [-> _]%ok_or_Ok_inv%checked_add_inv & Hp).
  apply bind_Ok_inv in Hp as ([] & Hlen%ensure_Ok_inv%bool_decide_eq_true & Hp).
  apply bind_Ok_inv in Hp as (oid & Hoid%map_err_Ok_inv & Hp). injection Hp as <- <-.
  destruct (position_inv _ _ _ Hnul) as (l & Hb & Hl & Hn0).
  destruct (position_inv _ _ _ Hsep) as (l2 & Hh & Hl2 & Hs0).
  apply GitOid_new_wf in Hoid as (Hwf & Ha & Hbytes).
  set (hd := take nul b) in *. set (text := take sep hd) in *.
  pose proof (oid_len_bounds (algorithm (go_oid o))).
  assert (drop (sep + 1) hd = l2) as Hd.
  { rewrite Hh, <-Hl2, <-drop_drop, drop_app_length. done. }
  assert (length l = length b - nul - 1)%nat as Hll.
  { apply (f_equal length) in Hb. rewrite length_app in Hb. cbn [length] in Hb. lia. }
  assert (drop (S nul) b = l) as Hdl.
  { rewrite Hb, <-Hl, <-Nat.add_1_r, <-drop_drop, drop_app_length. done. }
  exists text. rewrite Hd in Hname |- *. split.
  - apply negb_true_iff, orb_false_iff in Hname as [Hne%bool_decide_eq_false Hsl%bool_decide_eq_false].
    split_and!; try done. cbn. rewrite Hh in Hn0. intros Hx. apply Hn0, elem_of_app. right. by right.
  - rewrite entry_layout_split. cbn [te_name te_oid]. rewrite <-Hh, Hbytes, Hb at 1. do 2 f_equal.
    replace (Z.to_nat (Z.of_nat nul + 1)) with (S nul) by lia.
    replace (Z.to_nat (Z.of_nat nul + 1 + oid_len (algorithm (go_oid o))))
      with (S nul + Z.to_nat (oid_len (algorithm (go_oid o))))%nat by lia.
    unfold slice. rewrite <-drop_drop, Hdl. symmetry. apply take_drop.
Qed.

Fixpoint tree_layout (texts : list bytes) (es : list GitTreeEntry) : bytes :=
  match texts, es with
  | t :: texts, e :: es => entry_layout t e ++ tree_layout texts es
  | _, _ => []
  end.

Lemma tree_entries_layout o texts es fuel :
  Forall2 (entry_ok (algorithm (go_oid o))) texts es → isize_len (tree_layout texts es) →
  (length (tree_layout texts es) ≤ fuel)%nat → tree_entries fuel o (tree_layout texts es) = Ok es.
Proof.
  intros Hall. revert fuel. induction Hall as [|t e texts es He Hall IH]; intros fuel Hlen Hf; cbn [tree_layout].
  - by destruct fuel.
  - cbn [tree_layout] in Hlen, Hf.
    assert (length (entry_layout t e ++ tree_layout texts es) ≠ 0)%nat as Hn0.
    { unfold entry_layout. rewrite !length_app. cbn. lia. }
    destruct fuel as [|fuel]; [lia|].
    destruct (entry_layout t e ++ tree_layout texts es) as [|x b] eqn:Eb; [done|].
    cbn [tree_entries]. rewrite <-Eb in Hlen, Hf |- *. rewrite parse_entry_layout, bind_Ok by done. cbn [fst snd].
    rewrite IH; [done| |].
    + unfold isize_len in *. rewrite length_app in Hlen. lia.
    + rewrite length_app in Hf. unfold entry_layout in Hf. rewrite length_app in Hf. cbn in Hf. lia.
Qed.
Lemma tree_entries_inv o b es fuel :
  (length b ≤ fuel)%nat → tree_entries fuel o b = Ok es →
  ∃ texts, Forall2 (entry_ok (algorithm (go_oid o))) texts es ∧ b = tree_layout texts es.
Proof.
  revert b es. induction fuel as [|fuel IH]; intros [|x b] es Hf Ht; cbn [tree_entries length] in *; try lia.
  - injection Ht as <-. by exists [].
  - injection Ht as <-. by exists [].
  - apply bind_Ok_inv in Ht as ([e rest] & He & Ht). apply bind_Ok_inv in Ht as (es' & Hes & Ht).
    injection Ht as <-. destruct (parse_entry_inv _ _ _ _ He) as (text & Hok & Hb). cbn [fst snd] in *.
    destruct (IH rest es') as (texts & Hall & ->); [|done|].
    + apply (f_equal length) in Hb. rewrite length_app in Hb. unfold entry_layout in Hb.
      rewrite length_app in Hb. cbn [length] in Hb. lia.
    + exists (text :: texts). split; [by constructor|done].
Qed.

(** Tree objects: the parser accepts exactly the concatenations of entries
    (a mode in up to six octal digits, a space, a name without NUL or slash,
    a NUL and the object ID), and returns those entries in order; anything else
    is an error. *)
Theorem tree_entries_exact o es :
  isize_len (go_data o) →
  parse_tree_entries o = Ok es ↔
    go_kind o = Tree ∧ ∃ texts, Forall2 (entry_ok (algorithm (go_oid o))) texts es ∧
      go_data o = tree_layout texts es.
Proof.
  intros Hlen. unfold parse_tree_entries. split.
  - intros Ht. apply bind_Ok_inv in Ht as ([] & Hk%ensure_Ok_inv%bool_decide_eq_true & Ht).
    split; [done|]. by eapply tree_entries_inv.
  - intros (Hk & texts & Hall & Hd). rewrite bind_ensure_decide by done. rewrite Hd in Hlen |- *.
    by apply tree_entries_layout.
Qed.

(** ** Commits and tags *)

Definition header_line (key : bytes) (oid : GitOid) : bytes := key ++ oid_to_hex oid.
(** A header line of another key. *)
Definition other_line (keys : list bytes) (l : bytes) : Prop :=
  is_line l ∧ Forall (λ k, strip_prefix k l = None) keys.
Definition commit_layout (tree : GitOid) (parents : list GitOid) (extra : list bytes) (msg : bytes) : bytes :=
  unlines (header_line (b_ "tree ") tree :: map (header_line (b_ "parent ")) parents ++ extra) ++ LF :: msg.
Definition tag_layout (target : GitOid) (extra : list bytes) (msg : bytes) : bytes :=
  unlines (header_line (b_ "object ") target :: extra) ++ LF :: msg.

Lemma header_is_line key oid : key ≠ [] → LF ∉ key → is_line (header_line key oid).
Proof.
  intros Hne Hk. unfold header_line. split; [by destruct key|].
  rewrite elem_of_app. pose proof (oid_to_hex_line oid). tauto.
Qed.
Lemma single_header_skip o key twice ls found :
  Forall (λ l, strip_prefix key l = None) ls → single_header o key twice ls found = Ok found.
Proof. induction 1 as [|l ls Hl _ IH]; [done|]. cbn [single_header]. by rewrite Hl. Qed.
Lemma single_header_first o key twice oid ls :
  GitOid_wf oid → algorithm oid = algorithm (go_oid o) → Forall (λ l, strip_prefix key l = None) ls →
  single_header o key twice (header_line key oid :: ls) None = Ok (Some oid).
Proof.
  intros Hwf Ha Hls. cbn [single_header]. unfold header_line. rewrite strip_prefix_app, <-Ha.
  by rewrite parse_oid_to_hex, bind_Ok, single_header_skip.
Qed.
Lemma parent_headers_layout a ps ls :
  Forall (λ p, GitOid_wf p ∧ algorithm p = a) ps →
  Forall (λ l, strip_prefix (b_ "parent ") l = None) ls →
  parent_headers a (map (header_line (b_ "parent ")) ps ++ ls) = Ok ps.
Proof.
  intros Hps Hls. induction Hps as [|p ps [Hwf Ha] _ IH].
  - cbn [map app]. induction Hls as [|l ls Hl _ IH]; [done|]. cbn [parent_headers]. by rewrite Hl.
  - cbn [map app parent_headers]. unfold header_line at 1. rewrite strip_prefix_app, <-Ha.
    rewrite parse_oid_to_hex, bind_Ok, Ha, IH by done. done.
Qed.

Lemma other_lines key keys ls : key ∈ keys → Forall (other_line keys) ls →
  Forall (λ l, strip_prefix key l = None) ls.
Proof.
  intros Hk Hls. eapply Forall_impl; [exact Hls|]. intros l [_ Hl].
  rewrite Forall_forall in Hl. by apply Hl.
Qed.
Lemma other_is_line keys ls : Forall (other_line keys) ls → Forall is_line ls.
Proof. intros Hls. eapply Forall_impl; [exact Hls|]. by intros l [? _]. Qed.
Lemma no_LF (b : bytes) : bool_decide (LF ∈ b) = false → LF ∉ b.
Proof. apply bool_decide_eq_false_1. Qed.

Lemma commit_header_lines tree parents extra msg keys :
  Forall (other_line keys) extra →
  split LF (object_header (commit_layout tree parents extra msg)) =
    header_line (b_ "tree ") tree :: map (header_line (b_ "parent ")) parents ++ extra.
Proof.
  intros Hex. apply object_header_lines; [done|].
  constructor; [by apply header_is_line, no_LF|]. apply Forall_app. split; [|by eapply other_is_line].
  apply Forall_map, Forall_forall. intros. by apply header_is_line, no_LF.
Qed.

(** Commits and tags in the format Git writes (a tree header, any number of
    parents, further headers and a message; a target header, further headers
    and a message) refer to exactly the tree and the parents in order, and to
    exactly the target; a second tree or object header is rejected. *)
Theorem commit_and_tag_references o :
  (∀ tree parents extra msg, go_kind o = Commit → go_data o = commit_layout tree parents extra msg →
     Forall (λ p, GitOid_wf p ∧ algorithm p = algorithm (go_oid o)) (tree :: parents) →
     Forall (other_line [b_ "tree "; b_ "parent "]) extra →
     commit_tree_oid o = Ok tree ∧ referenced_oids o = Ok (tree :: parents)) ∧
  (∀ target extra msg, go_kind o = Tag → go_data o = tag_layout target extra msg →
     GitOid_wf target → algorithm target = algorithm (go_oid o) →
     Forall (other_line [b_ "object "]) extra → referenced_oids o = Ok [target]) ∧
  (∀ tree again extra msg, go_kind o = Commit →
     go_data o = commit_layout tree [] (header_line (b_ "tree ") again :: extra) msg →
     GitOid_wf tree → algorithm tree = algorithm (go_oid o) → Forall is_line extra →
     is_ok (referenced_oids o) = false).
Proof.
  split_and!.
  - intros tree parents extra msg Hk Hd [[Hwf Ha] Hps]%Forall_cons Hex.
    pose proof (commit_header_lines tree parents extra msg _ Hex) as Hlines. rewrite <-Hd in Hlines.
    assert (commit_tree_oid o = Ok tree) as Htree.
    { unfold commit_tree_oid. rewrite bind_ensure_decide, Hlines by done.
      rewrite single_header_first; [done|done|done|]. apply Forall_app. split.
      - by apply Forall_map, Forall_forall.
      - eapply other_lines; [|exact Hex]. by left. }
    split; [done|]. unfold referenced_oids, parse_commit_references. rewrite Hk, Hlines, Htree.
    cbn [parent_headers]. rewrite parent_headers_layout; [done|done|].
    eapply other_lines; [|exact Hex]. right. by left.
  - intros target extra msg Hk Hd Hwf Ha Hex. unfold referenced_oids, parse_tag_references. rewrite Hk, Hd.
    unfold tag_layout. rewrite object_header_lines; [|done|].
    + rewrite single_header_first; [done|done|done|]. eapply other_lines; [|exact Hex]. by left.
    + constructor; [by apply header_is_line, no_LF|by eapply other_is_line].
  - intros tree again extra msg Hk Hd Hwf Ha Hex. unfold referenced_oids, parse_commit_references.
    rewrite Hk. destruct (parent_headers _ _) as [ps|]; [|done]. rewrite bind_Ok.
    unfold commit_tree_oid. rewrite bind_ensure_decide by done. rewrite Hd. unfold commit_layout.
    rewrite object_header_lines; [|done|].
    + cbn [map app single_header]. unfold header_line at 1. rewrite strip_prefix_app, <-Ha.
      rewrite parse_oid_to_hex, bind_Ok by done. unfold header_line at 1. by rewrite strip_prefix_app.
    + repeat (constructor; [by apply header_is_line, no_LF|]). done.
Qed.

(** ** The walk *)

Section Walk.
Context (algo : HashAlgorithm) (read_object : GitOid → result GitBackendError GitObject).

(** [oid] can be read, and its object refers to [children]. *)
Definition refers (oid : GitOid) (children : list GitOid) : Prop :=
  ∃ o, read_object oid = Ok o ∧ referenced_oids o = Ok children.

(** Reached from the roots by reading objects and following references. *)
Inductive reached (rs : list GitOid) : GitOid → Prop :=
| reached_root oid : oid ∈ rs → reached rs oid
| reached_child oid children child :
    reached rs oid → refers oid children → child ∈ children → reached rs child.

Abbreviation loop := (reachable_loop read_object).

(** The state of the walk: what was read is what was seen, all of it is
    reached, and every reference out of it is seen or queued. *)
Record walk_ok rs (pending : list GitOid) (seen : gset GitOid) (found : list GitObject) : Prop := {
  walk_found oid : oid ∈ seen ↔ ∃ o, o ∈ found ∧ read_object oid = Ok o;
  walk_roots oid : oid ∈ rs → oid ∈ seen ∨ oid ∈ pending;
  walk_reached oid : oid ∈ seen ∨ oid ∈ pending → reached rs oid;
  walk_closed oid : oid ∈ seen → ∃ children, refers oid children ∧
    ∀ child, child ∈ children → child ∈ seen ∨ child ∈ pending;
  walk_once : NoDup found }.

Lemma walk_ok_start rs : walk_ok rs rs ∅ [].
Proof.
  split.
  - intros oid. split; [by intros ?%not_elem_of_empty|]. by intros (o & ?%elem_of_nil & _).
  - by right.
  - intros oid [?%not_elem_of_empty|Hr]; [done|]. by apply reached_root.
  - by intros oid ?%not_elem_of_empty.
  - constructor.
Qed.

Lemma walk_ok_seen rs oid pending seen found :
  oid ∈ seen → walk_ok rs (oid :: pending) seen found → walk_ok rs pending seen found.
Proof.
  intros Hs [Hf Hr Hre Hc Hnd]. split; [done| | | |done].
  - intros x Hx. destruct (Hr x Hx) as [Hy|[->|Hy]%elem_of_cons]; auto.
  - intros x Hx. apply Hre. rewrite elem_of_cons. tauto.
  - intros x Hx. destruct (Hc x Hx) as (cs & Hrf & Hcs). exists cs. split; [done|].
    intros c Hcin. destruct (Hcs c Hcin) as [Hy|[->|Hy]%elem_of_cons]; auto.
Qed.
Lemma walk_ok_new rs oid o children pending seen found :
  read_object oid = Ok o → referenced_oids o = Ok children →
  (∀ oid', read_object oid' = Ok o → oid' = oid) → oid ∉ seen →
  walk_ok rs (oid :: pending) seen found →
  walk_ok rs (pending ++ children) ({[oid]} ∪ seen) (found ++ [o]).
Proof.
  intros Hread Hrefs Hinj Hnew [Hf Hr Hre Hc Hnd].
  assert (∀ x, x ∈ seen ∨ x ∈ oid :: pending → x ∈ {[oid]} ∪ seen ∨ x ∈ pending ++ children) as Hmove.
  { intros x. rewrite elem_of_union, elem_of_singleton, elem_of_app, elem_of_cons. tauto. }
  assert (refers oid children) as Href by (by exists o).
  split.
  - intros x. rewrite elem_of_union, elem_of_singleton. split.
    + intros [->|Hx].
      * exists o. split; [|done]. apply elem_of_app. right. by left.
      * apply Hf in Hx as (o' & Ho' & Hx). exists o'. split; [|done]. apply elem_of_app. by left.
    + intros (o' & Ho' & Hx). apply elem_of_app in Ho' as [Ho'| ->%list_elem_of_singleton].
      * right. apply Hf. by exists o'.
      * left. by apply Hinj.
  - intros x Hx. by apply Hmove, Hr.
  - intros x. rewrite elem_of_union, elem_of_singleton, elem_of_app. intros Hx.
    assert (x ∈ seen ∨ x ∈ oid :: pending ∨ x ∈ children) as [Hs|[Hp|Hch]]
      by (rewrite elem_of_cons; tauto).
    + by apply Hre; left.
    + by apply Hre; right.
    + eapply reached_child; [|exact Href|done]. apply Hre. right. by left.
  - intros x. rewrite elem_of_union, elem_of_singleton. intros [->|Hx].
    + exists children. split; [done|]. intros c Hcin. right. apply elem_of_app. by right.
    + destruct (Hc x Hx) as (cs & Hrf & Hcs). exists cs. split; [done|]. intros c Hcin. by apply Hmove, Hcs.
  - apply NoDup_app. split_and!; [done| |apply NoDup_singleton].
    intros o' Ho' ->%list_elem_of_singleton. apply Hnew, Hf. by exists o.
Qed.

Hypothesis read_inj : ∀ oid oid' o, read_object oid = Ok o → read_object oid' = Ok o → oid = oid'.

(** One turn of the loop on an object not seen yet. *)
Lemma loop_step fuel oid pending seen found :
  loop (S fuel) (oid :: pending) seen found =
    if decide (oid ∈ seen) then loop fuel pending seen found
    else match read_object oid ≫= λ o, referenced_oids o ≫= λ children, Ok (o, children) with
         | Err e => Some (Err e)
         | Ok (o, children) => loop fuel (pending ++ children) ({[oid]} ∪ seen) (found ++ [o])
         end.
Proof. reflexivity. Qed.

Lemma loop_spec rs fuel pending seen found objs :
  walk_ok rs pending seen found → loop fuel pending seen found = Some (Ok objs) →
  (∃ more, objs = found ++ more) ∧ ∃ seen', walk_ok rs [] seen' objs.
Proof.
  revert pending seen found. induction fuel as [|fuel IH]; intros pending seen found Hw Hl; [done|].
  destruct pending as [|oid pending].
  - injection Hl as <-. split; [exists []; by rewrite app_nil_r|]. by exists seen.
  - rewrite loop_step in Hl. case_decide as Hs.
    + eapply IH; [|done]. by eapply walk_ok_seen.
    + destruct (read_object oid) as [o|e] eqn:Hread; [|done].
      rewrite bind_Ok in Hl. destruct (referenced_oids o) as [children|e] eqn:Hrefs; [|done].
      rewrite bind_Ok in Hl. apply IH in Hl as [[more ->] Hseen].
      * split; [|done]. exists (o :: more). by rewrite <-app_assoc.
      * eapply walk_ok_new; try done. intros oid' Ho. by eapply read_inj.
Qed.

(** A complete walk is closed, so it holds everything reached. *)
Lemma walk_done rs seen objs oid : walk_ok rs [] seen objs → reached rs oid → oid ∈ seen.
Proof.
  intros [_ Hr _ Hc _]. induction 1 as [oid Ho|oid cs c Hrc IH Href Hin].
  - destruct (Hr oid Ho) as [Hx|Hx%elem_of_nil]; done.
  - destruct (Hc oid IH) as (cs' & (o & Ho & Hcs') & Hall). destruct Href as (o' & Ho' & Hcs).
    assert (cs' = cs) as -> by congruence. destruct (Hall c Hin) as [Hx|Hx%elem_of_nil]; done.
Qed.

Lemma queue_roots_Ok acc rs pending : queue_roots algo rs acc = Ok pending → pending = acc ++ rs.
Proof.
  revert acc. induction rs as [|r rs IH]; intros acc Hq; cbn [queue_roots] in Hq.
  - injection Hq as <-. by rewrite app_nil_r.
  - apply bind_Ok_inv in Hq as (u & _ & Hq). apply IH in Hq. by rewrite <-app_assoc in Hq.
Qed.

(** The objects still to be read, and then the queue, decrease. *)
Lemma loop_total rs (U : gset GitOid) :
  (∀ oid, reached rs oid → oid ∈ U) →
  ∀ k n pending seen found, (size (U ∖ seen) ≤ k)%nat → (length pending ≤ n)%nat →
    walk_ok rs pending seen found → ∃ fuel, is_Some (loop fuel pending seen found).
Proof.
  intros HU. induction k as [k IHk] using lt_wf_ind. induction n as [n IHn] using lt_wf_ind.
  intros [|oid pending] seen found Hk Hn Hw; [by exists 1%nat|]. cbn [length] in Hn.
  destruct (decide (oid ∈ seen)) as [Hs|Hs].
  - destruct (IHn (n - 1)%nat ltac:(lia) pending seen found) as [fuel Hf]; [done|lia|by eapply walk_ok_seen|].
    exists (S fuel). by rewrite loop_step, decide_True.
  - destruct (read_object oid ≫= λ o, referenced_oids o ≫= λ children, Ok (o, children))
      as [[o children]|e] eqn:E.
    + apply bind_Ok_inv in E as (o' & Hread & E). apply bind_Ok_inv in E as (cs & Hrefs & E).
      injection E as -> ->.
      assert (oid ∈ U ∖ seen) as Hin.
      { apply elem_of_difference. split; [|done]. apply HU, (walk_reached _ _ _ _ Hw). right. by left. }
      assert (size (U ∖ ({[oid]} ∪ seen)) < size (U ∖ seen))%nat as Hlt.
      { apply subset_size. split.
        - intros x. rewrite !elem_of_difference, elem_of_union. tauto.
        - intros Hsub. specialize (Hsub oid Hin). rewrite elem_of_difference, elem_of_union, elem_of_singleton in Hsub.
          tauto. }
      destruct (IHk (size (U ∖ ({[oid]} ∪ seen))) ltac:(lia) (length (pending ++ children))
        (pending ++ children) ({[oid]} ∪ seen) (found ++ [o])) as [fuel Hf]; [done|done| |].
      { eapply walk_ok_new; try done. intros oid' Ho. by eapply read_inj. }
      exists (S fuel). rewrite loop_step, decide_False, Hread by done. cbn. by rewrite Hrefs.
    + exists 1%nat. rewrite loop_step, decide_False, E by done. done.
Qed.

Lemma reachable_objects_walk rs fuel objs :
  reachable_objects algo read_object fuel rs = Some (Ok objs) → ∃ seen, walk_ok rs [] seen objs.
Proof.
  unfold reachable_objects. destruct (queue_roots algo rs []) as [pending|] eqn:Hq; [|done].
  apply queue_roots_Ok in Hq. cbn in Hq. subst.
  intros Hl. by destruct (loop_spec _ _ _ _ _ _ (walk_ok_start rs) Hl) as (_ & Hw).
Qed.

(** C31. A completed walk returns exactly the objects reached from the roots,
    each once and readable; and the walk ends, with a result or an error,
    whenever finitely many objects can be reached. *)
Theorem reachable_objects_exact rs :
  (∀ fuel objs, reachable_objects algo read_object fuel rs = Some (Ok objs) →
     NoDup objs ∧ ∀ oid, reached rs oid ↔ ∃ o, o ∈ objs ∧ read_object oid = Ok o) ∧
  (∀ U : gset GitOid, (∀ oid, reached rs oid → oid ∈ U) →
     ∃ fuel, is_Some (reachable_objects algo read_object fuel rs)).
Proof.
  split.
  - intros fuel objs Hl. destruct (reachable_objects_walk _ _ _ Hl) as [seen Hw].
    split; [exact (walk_once _ _ _ _ Hw)|]. intros oid. rewrite <-(walk_found _ _ _ _ Hw). split.
    + by eapply walk_done.
    + intros Hs. apply (walk_reached _ _ _ _ Hw). by left.
  - intros U HU. unfold reachable_objects.
    destruct (queue_roots algo rs []) as [pending|] eqn:Hq; [|by exists 0%nat].
    apply queue_roots_Ok in Hq. cbn in Hq. subst.
    by eapply (loop_total rs U HU _ _ rs ∅ []); [..|apply walk_ok_start].
Qed.

(** A submodule entry is followed like any other: when a reached tree has
    one, and the commit of the other repository cannot be read here, the walk
    never succeeds. *)
Theorem gitlink_breaks_walk rs tree o entries e :
  reached rs tree → read_object tree = Ok o → go_kind o = Tree → parse_tree_entries o = Ok entries →
  e ∈ entries → te_mode e = GITLINK → is_ok (read_object (te_oid e)) = false →
  ∀ fuel objs, reachable_objects algo read_object fuel rs ≠ Some (Ok objs).
Proof.
  intros Hr Ho Hk Hp He _ Hread fuel objs Hl. destruct (reachable_objects_walk _ _ _ Hl) as [seen Hw].
  assert (te_oid e ∈ seen) as Hs.
  { eapply walk_done; [done|]. eapply reached_child; [exact Hr| |by apply list_elem_of_fmap_2].
    exists o. split; [done|]. unfold referenced_oids, parse_tree_references. by rewrite Hk, Hp. }
  apply (walk_found _ _ _ _ Hw) in Hs as (o' & _ & Ho'). by rewrite Ho' in Hread.
Qed.

End Walk.

(** ** The backends *)

Lemma lib_read_inj `{LibGit2Repository} oid oid' o :
  lib_read_object oid = Ok o → lib_read_object oid' = Ok o → oid = oid'.
Proof.
  assert (∀ x, lib_read_object x = Ok o → go_oid o = x) as Hoid.
  { intros x Hx. unfold lib_read_object in Hx. repeat (apply bind_Ok_inv in Hx as (? & _ & Hx)).
    by injection Hx as <-. }
  intros Ha Hb. by rewrite <-(Hoid _ Ha), <-(Hoid _ Hb).
Qed.
Lemma sys_read_inj `{GitProgram} algo oid oid' o :
  sys_read_object algo oid = Ok o → sys_read_object algo oid' = Ok o → oid = oid'.
Proof.
  assert (∀ x, sys_read_object algo x = Ok o → go_oid o = x) as Hoid.
  { intros x Hx. unfold sys_read_object in Hx. repeat (apply bind_Ok_inv in Hx as (? & _ & Hx)).
    by injection Hx as <-. }
  intros Ha Hb. by rewrite <-(Hoid _ Ha), <-(Hoid _ Hb).
Qed.

(** ** A repository: a commit, its tree, a blob, and a tree with a submodule *)

Definition demo_oid (x : byte) : GitOid := mkGitOid Sha1 20 (put (zeros 32) 0 (replicate 20 x)).
Definition demo_blob : bytes := b_ "hello".
Definition demo_tree : bytes := b_ "100644 f" ++ x00 :: replicate 20 x01.
Definition demo_commit : bytes := commit_layout (demo_oid x02) [] [b_ "author a"] (b_ "message").
Definition demo_super : bytes := b_ "160000 sub" ++ x00 :: replicate 20 x05.
Definition demo_repository : LibGit2Repository := {|
  lg_object_format := Sha1;
  lg_references := Some [Some (mkLibReference (b_ "refs/heads/main") (Some (mkLibOid Sha1 (replicate 20 x03))) None)];
  lg_oid_from_bytes b := Some (mkLibOid Sha1 b);
  lg_odb := Some (λ o,
    match lo_bytes o with
    | x01 :: _ => Some (o, LibBlob, demo_blob)
    | x02 :: _ => Some (o, LibTree, demo_tree)
    | x03 :: _ => Some (o, LibCommit, demo_commit)
    | x04 :: _ => Some (o, LibTree, demo_super)
    | _ => None
    end);
  lg_revparse_single _ := None |}.

Lemma tree_entries_exact_witness :
  parse_tree_entries (mkGitObject (demo_oid x02) Tree demo_tree) =
    Ok [mkGitTreeEntry 33188 (b_ "f") (demo_oid x01)].
Proof.
  apply tree_entries_exact; [vm_compute; reflexivity|]. split; [reflexivity|].
  exists [b_ "100644"]. split; [|reflexivity]. constructor; [|constructor].
  split_and!; try (vm_compute; reflexivity); first [discriminate|apply (bool_decide_unpack _); vm_compute; exact I].
Defined.

Lemma reachable_objects_exact_witness :
  reached (@lib_read_object demo_repository) [demo_oid x03] (demo_oid x01).
Proof.
  destruct (reachable_objects_exact Sha1 (@lib_read_object demo_repository)
    (@lib_read_inj demo_repository) [demo_oid x03]) as [Hex _].
  apply (Hex 5%nat [mkGitObject (demo_oid x03) Commit demo_commit; mkGitObject (demo_oid x02) Tree demo_tree;
    mkGitObject (demo_oid x01) Blob demo_blob]); [vm_compute; reflexivity|].
  exists (mkGitObject (demo_oid x01) Blob demo_blob). split; [|vm_compute; reflexivity].
  right. right. left.
Defined.

Lemma gitlink_breaks_walk_witness :
  is_ok (@lib_read_object demo_repository (demo_oid x05)) = false ∧
  ∀ fuel objs, @lib_reachable_objects demo_repository fuel [demo_oid x04] ≠ Some (Ok objs).
Proof.
  split; [vm_compute; reflexivity|].
  apply (gitlink_breaks_walk Sha1 (@lib_read_object demo_repository)
    (@lib_read_inj demo_repository) [demo_oid x04] (demo_oid x04)
    (mkGitObject (demo_oid x04) Tree demo_super) [mkGitTreeEntry 57344 (b_ "sub") (demo_oid x05)]
    (mkGitTreeEntry 57344 (b_ "sub") (demo_oid x05))); try (vm_compute; reflexivity); [|left].
  apply reached_root. left.
Defined.

Lemma commit_and_tag_references_witness :
  commit_tree_oid (mkGitObject (demo_oid x03) Commit demo_commit) = Ok (demo_oid x02).
Proof.
  destruct (commit_and_tag_references (mkGitObject (demo_oid x03) Commit demo_commit)) as [Hc _].
  apply (Hc (demo_oid x02) [] [b_ "author a"] (b_ "message")); try reflexivity.
  - constructor; [|constructor]. split; [|reflexivity]. split_and!; vm_compute; reflexivity.
  - constructor; [|constructor]. split; [|repeat constructor].
    split; [discriminate|apply (bool_decide_unpack _); vm_compute; exact I].
Defined.

End GitSpec.
