(* ===== verification/Reader.v ===== *)
(** * Bounded byte readers

    The manifest decoders of the [import], [workspace] and [backup] crates walk
    a byte slice with an offset and take fields off it. This file models the
    reader, and gives a small calculus for showing that a decoder accepts
    exactly the encodings of well-formed values: [reads]. *)

From Stdlib Require Import ZArith Lia Strings.Byte.
From stdpp Require Import base tactics list.
From S2P Require Import Prelude.

#[local] Open Scope Z_scope.

Module Reader.

Definition blen (b : bytes) : Z := Z.of_nat (length b).

(** ** The reader *)

Record Reader := mkReader { rr_bytes : bytes; rr_offset : Z }.
Definition reader_new (b : bytes) : Reader := mkReader b 0.

Definition Parser (E A : Type) : Type := Reader → result E (A * Reader).
Definition p_ret {E A} (a : A) : Parser E A := λ r, Ok (a, r).
Definition p_bind {E A B} (p : Parser E A) (k : A → Parser E B) : Parser E B := λ r,
  match p r with Ok (a, r') => k a r' | Err e => Err e end.
Definition p_lift {E A} (m : result E A) : Parser E A := λ r,
  match m with Ok a => Ok (a, r) | Err e => Err e end.

Declare Scope parser_scope.
Delimit Scope parser_scope with parser.
Notation "x ⇠ p ; k" := (p_bind p (λ x, k))
  (at level 20, p at level 100, k at level 200, only parsing) : parser_scope.
#[local] Open Scope parser_scope.

(** [bytes.get(start..end)]. *)
Definition get_range (b : bytes) (start end_ : Z) : option bytes :=
  if decide (start ≤ end_ ≤ blen b) then Some (slice (Z.to_nat start) (Z.to_nat (end_ - start)) b) else None.

Section Fields.
(** The errors of an offset that overflows and of input that ends early. *)
Context {E : Type} (overflow truncated : E).

Definition p_take (n : Z) : Parser E bytes := λ r,
  match checked_add (rr_offset r) n with
  | None => Err overflow
  | Some end_ =>
      match get_range (rr_bytes r) (rr_offset r) end_ with
      | None => Err truncated
      | Some v => Ok (v, mkReader (rr_bytes r) end_)
      end
  end.
(** Unsigned integers in big-endian order. *)
Definition p_uint (n : Z) : Parser E Z := v ⇠ p_take n; p_ret (be_decode v).
End Fields.

Definition p_remaining {E} : Parser E Z := λ r, Ok (blen (rr_bytes r) - rr_offset r, r).
Definition p_is_empty {E} : Parser E bool := λ r, Ok (bool_decide (rr_offset r = blen (rr_bytes r)), r).

(** [for _ in 0..n { v.push(p()?) }]. *)
Fixpoint p_repeat {E A} (n : nat) (p : Parser E A) : Parser E (list A) :=
  match n with
  | O => p_ret []
  | S n => a ⇠ p; l ⇠ p_repeat n p; p_ret (a :: l)
  end.

(** ** What a reader has left *)

(** [r] is inside a slice, with [b] left to read. *)
Definition at_ (r : Reader) (b : bytes) : Prop :=
  ∃ pre, rr_bytes r = pre ++ b ∧ rr_offset r = blen pre ∧ blen (pre ++ b) < 2 ^ 63.

Lemma at_new b : blen b < 2 ^ 63 → at_ (reader_new b) b.
Proof. intros Hb. by exists []. Qed.

(** [exact p enc ok]: [p] accepts exactly inputs that start with the encoding of
    a value satisfying [ok], and returns that value and what follows. *)
Definition exact {E A} (p : Parser E A) (enc : A → bytes) (ok : A → Prop) : Prop :=
  ∀ r b, at_ r b →
    (∀ v r', p r = Ok (v, r') → ok v ∧ ∃ b', b = enc v ++ b' ∧ at_ r' b') ∧
    (∀ v b', ok v → b = enc v ++ b' → ∃ r', p r = Ok (v, r') ∧ at_ r' b').

Lemma exact_iff {E A} (p : Parser E A) enc enc' (ok ok' : A → Prop) :
  exact p enc ok → (∀ v, ok v ↔ ok' v) → (∀ v, ok v → enc v = enc' v) → exact p enc' ok'.
Proof.
  intros Hp Hok Henc r b Hr. destruct (Hp r b Hr) as [H1' H2']. split.
  - intros v r' Hv. destruct (H1' v r' Hv) as (Hv' & b' & Hb & Hr'). split; [by apply Hok|].
    exists b'. by rewrite <-Henc.
  - intros v b' Hv Hb. apply Hok in Hv. apply H2'; [done|]. by rewrite Henc.
Qed.

Section Rules.
Context {E : Type} (overflow truncated : E).

Lemma exact_take n : 0 ≤ n < 2 ^ 63 →
  exact (p_take overflow truncated n) (λ v, v) (λ v, blen v = n).
Proof.
  intros Hn r b (pre & Hb & Ho & Hlen). unfold blen in Hlen. rewrite length_app in Hlen.
  unfold p_take. rewrite Ho. unfold blen in *. rewrite checked_add_Some by (unfold u64_max; lia).
  unfold get_range. rewrite Hb. unfold blen. rewrite length_app.
  assert (∀ v b', Z.of_nat (length v) = n → b = v ++ b' →
    slice (Z.to_nat (Z.of_nat (length pre))) (Z.to_nat (Z.of_nat (length pre) + n - Z.of_nat (length pre)))
      (pre ++ b) = v ∧
    at_ (mkReader (pre ++ b) (Z.of_nat (length pre) + n)) b') as Hread.
  { intros v b' Hv ->. split.
    - replace (Z.to_nat (Z.of_nat (length pre))) with (length pre) by lia.
      replace (Z.to_nat (Z.of_nat (length pre) + n - Z.of_nat (length pre))) with (length v) by lia.
      unfold slice. by rewrite drop_app_length, take_app_length.
    - exists (pre ++ v). unfold blen. cbn [rr_bytes rr_offset]. rewrite <-app_assoc. rewrite !length_app in *.
      split_and!; [done|lia|lia]. }
  case_decide as Hd.
  - assert (∃ v b', Z.of_nat (length v) = n ∧ b = v ++ b') as (v & b' & Hv & Hbv).
    { exists (take (Z.to_nat n) b), (drop (Z.to_nat n) b). rewrite length_take, take_drop. split; [lia|done]. }
    destruct (Hread v b' Hv Hbv) as [Hsl Hat]. rewrite Hsl. split.
    + intros v1 r1 Heq. injection Heq as <- <-. split; [done|]. by exists b'.
    + intros v1 b1 Hv1 Hb1. destruct (Hread v1 b1 Hv1 Hb1) as [Hsl1 Hat1]. rewrite Hsl in Hsl1. subst v1.
      eexists. split; [done|]. done.
  - split; [done|]. intros v b' Hv Hbv. cbn in Hv. unfold blen in Hv. rewrite Hbv, length_app in Hd.
    lia.
Qed.

Lemma exact_uint (n : nat) : (n ≤ 8)%nat →
  exact (p_uint overflow truncated (Z.of_nat n)) (be_encode n) (in_width (8 * Z.of_nat n)).
Proof.
  intros Hn r b Hr. destruct (exact_take (Z.of_nat n) ltac:(lia) r b Hr) as [H1' H2']. unfold p_uint, p_bind, p_ret.
  split.
  - intros v r'. destruct (p_take _ _ _ _) as [[x r1]|]; [|done]. intros Heq. injection Heq as <- <-.
    destruct (H1' x r1 eq_refl) as (Hx & b' & Hb & Hr1). unfold blen in Hx. split.
    + pose proof (be_decode_range x) as Hd. by rewrite Hx in Hd.
    + exists b'. rewrite be_encode_decode by lia. done.
  - intros v b' Hv Hb. destruct (H2' (be_encode n v) b') as (r' & -> & Hr'); [|done|].
    + unfold blen. by rewrite length_be_encode.
    + exists r'. rewrite be_decode_encode; [done|]. done.
Qed.
End Rules.

(** ** Decoders of records *)

(** [reads P k enc ok]: what is left to decode of a value known to satisfy [P]. *)
Definition reads {E B} (P : B → Prop) (k : Parser E B) (enc : B → bytes) (ok : B → Prop) : Prop :=
  exact k enc (λ w, P w ∧ ok w).

Section Reads.
Context {E A B : Type}.
Implicit Types (P : B → Prop) (k : Parser E B).

(** A field [f] is read by [p], then the rest. *)
Lemma reads_field P (p : Parser E A) enc1 ok1 (f : B → A) (k : A → Parser E B) enc2 ok2 :
  exact p enc1 ok1 → (∀ a, ok1 a → reads (λ w, P w ∧ f w = a) (k a) enc2 ok2) →
  reads P (p_bind p k) (λ w, enc1 (f w) ++ enc2 w) (λ w, ok1 (f w) ∧ ok2 w).
Proof.
  intros Hp Hk r b Hr. destruct (Hp r b Hr) as [H1' H2']. unfold p_bind. split.
  - intros w r'. destruct (p r) as [[a r1]|]; [|done]. intros Hw.
    destruct (H1' a r1 eq_refl) as (Ha & b1 & -> & Hr1).
    destruct (Hk a Ha r1 b1 Hr1) as [Hk1 _]. destruct (Hk1 w r' Hw) as ([[HP Hf] Ho] & b2 & -> & Hr2).
    rewrite Hf. split; [done|]. exists b2. by rewrite <-app_assoc.
  - intros w b' (HP & Ho1 & Ho2) ->. rewrite <-app_assoc in H2'.
    destruct (H2' (f w) (enc2 w ++ b')) as (r1 & -> & Hr1); [done|done|].
    destruct (Hk (f w) Ho1 r1 _ Hr1) as [_ Hk2]. by apply Hk2.
Qed.
(** A fixed field: it reads one constant. *)
Lemma reads_const P (p : Parser E A) enc1 ok1 c (test : A → bool) (e : A → E) k enc2 ok2 :
  exact p enc1 ok1 → ok1 c → (∀ a, ok1 a → test a = true ↔ a = c) → reads P k enc2 ok2 →
  reads P (p_bind p (λ a, p_bind (p_lift (ensure (test a) (e a))) (λ _, k))) (λ w, enc1 c ++ enc2 w) ok2.
Proof.
  intros Hp Hc Htest Hk r b Hr. destruct (Hp r b Hr) as [H1' H2']. unfold p_bind, p_lift. split.
  - intros w r'. destruct (p r) as [[a r1]|]; [|done].
    destruct (H1' a r1 eq_refl) as (Ha & b1 & -> & Hr1).
    destruct (test a) eqn:Ht; cbn [ensure]; [|done]. apply (Htest a Ha) in Ht. subst a. intros Hw.
    destruct (Hk r1 b1 Hr1) as [Hk1 _]. destruct (Hk1 w r' Hw) as (Ho & b2 & -> & Hr2). split; [done|].
    exists b2. by rewrite <-app_assoc.
  - intros w b' Hw ->. destruct (H2' c (enc2 w ++ b')) as (r1 & -> & Hr1); [done|by rewrite <-app_assoc|].
    rewrite (proj2 (Htest c Hc) eq_refl). cbn [ensure]. destruct (Hk r1 _ Hr1) as [_ Hk2]. by apply Hk2.
Qed.
(** A check on what was read so far. *)
Lemma reads_ensure P (c : bool) (C : B → Prop) e k enc ok :
  (∀ w, P w → c = true ↔ C w) → (c = true → reads P k enc ok) →
  reads P (p_bind (p_lift (ensure c e)) (λ _, k)) enc (λ w, C w ∧ ok w).
Proof.
  intros Hc Hk r b Hr. unfold p_bind, p_lift. split.
  - intros w r'. destruct c; cbn [ensure]; [|done]. intros Hw. destruct (Hk eq_refl r b Hr) as [Hk1 Hk2].
    destruct (Hk1 w r' Hw) as ([HP Ho] & Hrest). split; [|done]. split; [done|]. split; [by apply (Hc w HP)|done].
  - intros w b' (HP & HC & Ho) Hb. apply (Hc w HP) in HC. destruct (Hk HC r b Hr) as [Hk1 Hk2].
    rewrite HC. cbn [ensure]. by apply Hk2.
Qed.
(** A check on the length left, which every encoding passes. *)
Lemma reads_room P (c : Z → bool) e k enc ok :
  (∀ w rest, P w → ok w → c (blen (enc w ++ rest)) = true) → reads P k enc ok →
  reads P (p_bind p_remaining (λ n, p_bind (p_lift (ensure (c n) e)) (λ _, k))) enc ok.
Proof.
  intros Hc Hk r b Hr. destruct (Hk r b Hr) as [Hk1 Hk2]. unfold p_bind, p_lift, p_remaining.
  assert (blen (rr_bytes r) - rr_offset r = blen b) as ->.
  { destruct Hr as (pre & -> & -> & _). unfold blen. rewrite length_app. lia. }
  split.
  - intros w r'. destruct (c (blen b)); cbn [ensure]; [|done]. apply Hk1.
  - intros w b' [HP Ho] ->. rewrite Hc by done. cbn [ensure]. by apply Hk2.
Qed.
Lemma reads_iff P k enc enc' (ok ok' : B → Prop) :
  reads P k enc ok → (∀ w, P w → ok w ↔ ok' w) → (∀ w, P w → ok w → enc w = enc' w) → reads P k enc' ok'.
Proof.
  intros Hk Hok Henc. eapply exact_iff; [exact Hk| |].
  - intros w. specialize (Hok w). cbn. tauto.
  - intros w [HP Ho]. by apply Henc.
Qed.
Lemma reads_ret P (w : B) : (∀ w', P w' ↔ w' = w) → reads P (p_ret (E := E) w) (λ _, []) (λ _, True).
Proof.
  intros HP r b Hr. unfold p_ret. split.
  - intros w' r' Heq. injection Heq as <- <-. split; [|by exists b]. split; [|done]. by apply HP.
  - intros w' b' [HP' _] ->. apply HP in HP' as ->. by exists r.
Qed.
End Reads.

Lemma exact_repeat {E A} n (p : Parser E A) enc ok :
  exact p enc ok → exact (p_repeat n p) (λ l, concat (map enc l)) (λ l, length l = n ∧ Forall ok l).
Proof.
  intros Hp. induction n as [|n IH]; cbn [p_repeat].
  - intros r b Hr. unfold p_ret. split.
    + intros v r' Heq. injection Heq as <- <-. split; [done|]. by exists b.
    + intros v b' [Hv _] ->. destruct v; [|done]. by exists r.
  - intros r b Hr. unfold p_bind, p_ret. destruct (Hp r b Hr) as [H1' H2']. split.
    + intros v r'. destruct (p r) as [[a r1]|]; [|done]. destruct (H1' a r1 eq_refl) as (Ha & b1 & -> & Hr1).
      destruct (IH r1 b1 Hr1) as [Hi1 _]. destruct (p_repeat n p r1) as [[l r2]|]; [|done].
      intros Heq. injection Heq as <- <-. destruct (Hi1 l r2 eq_refl) as ([Hl Hall] & b2 & -> & Hr2).
      split; [split; [cbn; lia|by constructor]|]. exists b2. cbn. by rewrite <-app_assoc.
    + intros [|a l] b' [Hl Hall] Hb; [done|]. apply Forall_cons in Hall as [Ha Hall].
      cbn [map concat] in Hb. rewrite <-app_assoc in Hb.
      destruct (H2' a _ Ha Hb) as (r1 & -> & Hr1). destruct (IH r1 _ Hr1) as [_ Hi2].
      destruct (Hi2 l b') as (r2 & -> & Hr2); [|done|by exists r2]. split; [|done]. cbn in Hl. lia.
Qed.

(** A field of bytes whose length was read before it. *)
Lemma reads_sized {E B} (overflow truncated : E) (P : B → Prop) n (f : B → bytes) (k : bytes → Parser E B) enc ok :
  0 ≤ n < 2 ^ 63 → (∀ w, P w → blen (f w) = n) →
  (∀ v, blen v = n → reads (λ w, P w ∧ f w = v) (k v) enc ok) →
  reads P (p_bind (p_take overflow truncated n) k) (λ w, f w ++ enc w) ok.
Proof.
  intros Hn Hf Hk. eapply reads_iff;
    [apply (reads_field P _ (λ v, v) (λ v, blen v = n) f); [by apply exact_take|exact Hk]| |done].
  intros w HP. cbn. specialize (Hf w HP). tauto.
Qed.
(** A list whose length was read before it. *)
Lemma reads_list {E A B} (P : B → Prop) n (p : Parser E A) enc1 ok1 (f : B → list A) (k : list A → Parser E B) enc ok :
  exact p enc1 ok1 → (∀ w, P w → length (f w) = n) →
  (∀ v, length v = n → reads (λ w, P w ∧ f w = v) (k v) enc ok) →
  reads P (p_bind (p_repeat n p) k) (λ w, concat (map enc1 (f w)) ++ enc w)
    (λ w, Forall ok1 (f w) ∧ ok w).
Proof.
  intros Hp Hf Hk. eapply reads_iff.
  - eapply (reads_field P _ _ _ f); [by apply exact_repeat|]. intros v [Hv _]. by apply Hk.
  - intros w HP. cbn. specialize (Hf w HP). tauto.
  - done.
Qed.

(** A tag that stands for a value. *)
Lemma exact_tag {E A} (p : Parser E Z) n (from : Z → result E A) (to : A → Z) :
  exact p (be_encode n) (in_width (8 * Z.of_nat n)) →
  (∀ a, in_width (8 * Z.of_nat n) (to a)) → (∀ t a, from t = Ok a ↔ t = to a) →
  exact (p_bind p (λ t, p_lift (from t))) (λ a, be_encode n (to a)) (λ _, True).
Proof.
  intros Hp Hw Hft r b Hr. destruct (Hp r b Hr) as [H1' H2']. unfold p_bind, p_lift. split.
  - intros a r'. destruct (p r) as [[t r1]|]; [|done]. destruct (H1' t r1 eq_refl) as (Ht & b' & -> & Hr1).
    destruct (from t) as [a'|] eqn:Hf; [|done]. intros Heq. injection Heq as <- <-.
    apply Hft in Hf as ->. split; [done|]. by exists b'.
  - intros a b' _ Hb. destruct (H2' (to a) b' (Hw a) Hb) as (r1 & -> & Hr1).
    rewrite (proj2 (Hft (to a) a) eq_refl). by exists r1.
Qed.

Lemma reads_exact {E A} (p : Parser E A) enc ok : reads (λ _, True) p enc ok → exact p enc ok.
Proof. intros Hp. eapply exact_iff; [exact Hp| |done]. intros v. cbn. tauto. Qed.

(** A complete decoder: it must also reach the end of the input. *)
Lemma at_after pre b : blen (pre ++ b) < 2 ^ 63 → at_ (mkReader (pre ++ b) (blen pre)) b.
Proof. intros Hb. by exists pre. Qed.
Lemma exact_rest {E A} (p : Parser E A) enc ok e r0 b v :
  exact p enc ok → at_ r0 b →
  (∃ r, (v' ⇠ p; done ⇠ p_is_empty; _ ⇠ p_lift (ensure done e); p_ret v') r0 = Ok (v, r)) ↔
  ok v ∧ b = enc v.
Proof.
  intros Hp Hat. destruct (Hp r0 b Hat) as [H1' H2'].
  unfold p_bind, p_is_empty, p_lift, p_ret. split.
  - intros [r Hr]. destruct (p r0) as [[v' r1]|]; [|done].
    destruct (H1' v' r1 eq_refl) as (Hv & b' & -> & (pre & Hb' & Ho & _)).
    case_bool_decide as Hd; cbn [ensure] in Hr; [|done]. injection Hr as -> <-. split; [done|].
    rewrite Hb', Ho in Hd. unfold blen in Hd. rewrite length_app in Hd.
    destruct b'; [by rewrite app_nil_r|]. cbn in Hd. lia.
  - intros [Hv ->]. destruct (H2' v []) as (r1 & -> & (pre & Hb' & Ho & _)); [done|by rewrite app_nil_r|].
    rewrite Ho, Hb', app_nil_r, bool_decide_eq_true_2 by done. cbn [ensure]. eauto.
Qed.
Lemma exact_whole {E A} (p : Parser E A) enc ok e b v :
  exact p enc ok → blen b < 2 ^ 63 →
  (∃ r, (v' ⇠ p; done ⇠ p_is_empty; _ ⇠ p_lift (ensure done e); p_ret v') (reader_new b) = Ok (v, r)) ↔
  ok v ∧ b = enc v.
Proof. intros Hp Hb. by apply exact_rest, at_new. Qed.

(** Ends a record decoder: the fields that were read determine the record. *)
Ltac reads_end :=
  apply reads_ret; let w := fresh "w" in intros w; destruct w; cbn; split;
  [ let Hw := fresh "Hw" in intros Hw; destruct_and? Hw; by subst
  | let Hw := fresh "Hw" in intros Hw; injection Hw; intros; subst; split_and!; done || congruence ].

End Reader.
