(* ===== verification/Snapshot.v ===== *)
(** * Snapshot manifests: [reflink-forest-import/src/lib.rs]

    The manifest of an imported snapshot: validation, encoding, decoding,
    durable writing and reading, and the publication protocol that makes a
    snapshot visible in the catalog. *)

From Stdlib Require Import ZArith Lia Strings.Byte Strings.String.
From stdpp Require Import base tactics list gmap strings.
From S2P Require Import Prelude Core Codec CatalogCodec Catalog Chunk Disk Store Git Reader.
Import Core Codec CatalogCodec Catalog Chunk Disk Store Git Reader.

#[local] Open Scope Z_scope.
#[local] Open Scope parser_scope.

Module Snapshot.

Definition SNAPSHOT_MANIFEST_VERSION : Z := 1.
Definition MAX_SNAPSHOT_MANIFEST_BYTES : Z := 16 * 1024 * 1024.
Definition SNAPSHOT_MANIFEST_MAGIC : bytes := b_ "RFSNAP" ++ [x00; x00].
Definition MANIFEST_REF_NAME_MAX_BYTES : Z := 64 * 1024.
Definition MANIFEST_TOOL_VERSION_MAX_BYTES : Z := 64 * 1024.
Definition MANIFEST_OPTIONAL_FIELD_MAX_BYTES : Z := 4 * 1024 * 1024.
Definition MIN_MANIFEST_REF_ENTRY_BYTES : Z := 1 + 2 + 1 + 1 + 20.
Definition MIN_MANIFEST_OPTIONAL_FIELD_BYTES : Z := 2 + 4.

(** ** Data *)

Record PersistedRef := mkPersistedRef { pr_name : bytes; pr_kind : LocalRefKind; pr_target : GitOid }.
Record OptionalManifestField := mkOptionalField { of_tag : Z; of_value : bytes }.
Inductive ImportPolicy := LocalBranchesAndTags.
Record ImportSummary := mkImportSummary {
  objects_seen : Z; objects_written : Z; objects_deduplicated : Z; raw_bytes : Z }.
Record SnapshotManifest := mkSnapshotManifest {
  sm_repository : RepoId; sm_snapshot_id : SnapshotId; sm_native_object_format : HashAlgorithm;
  sm_import_policy : ImportPolicy; sm_refs : list PersistedRef; sm_summary : ImportSummary;
  sm_imported_unix_secs : Z; sm_tool_version : bytes; sm_optional_fields : list OptionalManifestField }.
#[export] Instance PersistedRef_eq_dec : EqDecision PersistedRef.
Proof. solve_decision. Defined.
#[export] Instance OptionalManifestField_eq_dec : EqDecision OptionalManifestField.
Proof. solve_decision. Defined.
#[export] Instance ImportPolicy_eq_dec : EqDecision ImportPolicy.
Proof. solve_decision. Defined.
#[export] Instance ImportSummary_eq_dec : EqDecision ImportSummary.
Proof. solve_decision. Defined.
#[export] Instance SnapshotManifest_eq_dec : EqDecision SnapshotManifest.
Proof. solve_decision. Defined.

Inductive SnapshotManifestError :=
| SnapshotIo (e : IoErrorKind)
| SnapshotInvalid (reason : string)
| SnapshotUnsupportedVersion (version : Z)
| SnapshotLengthOverflow.

Abbreviation SResult := (result SnapshotManifestError).

(** ** Validation *)

Definition ref_namespace (k : LocalRefKind) : bytes :=
  match k with Branch => HEADS_PREFIX | TagRef => TAGS_PREFIX end.

(** The loop over refs, with the previous name. *)
Fixpoint validate_refs (format : HashAlgorithm) (previous : option bytes) (refs : list PersistedRef)
    : SResult unit :=
  match refs with
  | [] => Ok ()
  | r :: refs =>
      _ ← ensure (negb (bool_decide (pr_name r = [])) && bool_decide (blen (pr_name r) ≤ MANIFEST_REF_NAME_MAX_BYTES))
                 (SnapshotInvalid "snapshot manifest ref name is empty or too large");
      _ ← ensure (bool_decide (algorithm (pr_target r) = format))
                 (SnapshotInvalid "snapshot manifest ref OID algorithm disagrees with native object format");
      _ ← ensure (starts_with (ref_namespace (pr_kind r)) (pr_name r))
                 (SnapshotInvalid "snapshot manifest ref is outside its local namespace");
      _ ← ensure (match previous with Some p => bytes_ltb p (pr_name r) | None => true end)
                 (SnapshotInvalid "snapshot manifest refs are not strictly byte sorted");
      validate_refs format (Some (pr_name r)) refs
  end.
Fixpoint validate_fields (before : list Z) (fields : list OptionalManifestField) : SResult unit :=
  match fields with
  | [] => Ok ()
  | f :: fields =>
      _ ← ensure (bool_decide (of_tag f ≠ 0) && bool_decide (blen (of_value f) ≤ MANIFEST_OPTIONAL_FIELD_MAX_BYTES))
                 (SnapshotInvalid "snapshot manifest contains an invalid optional field");
      _ ← ensure (bool_decide (of_tag f ∉ before))
                 (SnapshotInvalid "snapshot manifest repeats an optional field tag");
      validate_fields (before ++ [of_tag f]) fields
  end.

Definition validate (m : SnapshotManifest) : SResult unit :=
  _ ← ensure (negb (bool_decide (sm_tool_version m = [])) &&
              bool_decide (blen (sm_tool_version m) ≤ MANIFEST_TOOL_VERSION_MAX_BYTES))
             (SnapshotInvalid "snapshot manifest tool version is empty or too large");
  let s := sm_summary m in
  _ ← ensure (bool_decide (checked_add (objects_written s) (objects_deduplicated s) = Some (objects_seen s)))
             (SnapshotInvalid "snapshot manifest import counters are inconsistent");
  _ ← ensure (bool_decide (Z.of_nat (length (sm_refs m)) ≤ u32_max))
             (SnapshotInvalid "snapshot manifest has too many refs");
  _ ← validate_refs (sm_native_object_format m) None (sm_refs m);
  _ ← ensure (bool_decide (Z.of_nat (length (sm_optional_fields m)) ≤ u32_max))
             (SnapshotInvalid "snapshot manifest has too many optional fields");
  validate_fields [] (sm_optional_fields m).

Definition add_optional_field (m : SnapshotManifest) (f : OptionalManifestField) : SResult SnapshotManifest :=
  _ ← ensure (bool_decide (of_tag f ∉ map of_tag (sm_optional_fields m)))
             (SnapshotInvalid "snapshot manifest repeats an optional field tag");
  _ ← ensure (bool_decide (of_tag f ≠ 0)) (SnapshotInvalid "snapshot manifest optional field tag is zero");
  _ ← ensure (bool_decide (blen (of_value f) ≤ MANIFEST_OPTIONAL_FIELD_MAX_BYTES))
             (SnapshotInvalid "snapshot manifest optional field is too large");
  Ok (mkSnapshotManifest (sm_repository m) (sm_snapshot_id m) (sm_native_object_format m) (sm_import_policy m)
        (sm_refs m) (sm_summary m) (sm_imported_unix_secs m) (sm_tool_version m) (sm_optional_fields m ++ [f])).

(** ** Encoding *)

Definition import_policy_tag (p : ImportPolicy) : Z := match p with LocalBranchesAndTags => 1 end.
Definition import_policy_from_tag (t : Z) : SResult ImportPolicy :=
  if decide (t = 1) then Ok LocalBranchesAndTags
  else Err (SnapshotInvalid "snapshot manifest has an unsupported import policy").
Definition local_ref_kind_tag (k : LocalRefKind) : Z := match k with Branch => 1 | TagRef => 2 end.
Definition local_ref_kind_from_tag (t : Z) : SResult LocalRefKind :=
  if decide (t = 1) then Ok Branch
  else if decide (t = 2) then Ok TagRef
  else Err (SnapshotInvalid "snapshot manifest has an invalid ref kind").

Definition encode_ref (r : PersistedRef) : SResult bytes :=
  name_len ← ok_or (u16_try_from (blen (pr_name r))) SnapshotLengthOverflow;
  Ok (be_encode 1 (local_ref_kind_tag (pr_kind r)) ++ be_encode 2 name_len ++ pr_name r ++
      be_encode 1 (alg_tag (algorithm (pr_target r))) ++ be_encode 1 (Core.len (pr_target r)) ++
      oid_as_bytes (pr_target r)).
Definition encode_field (f : OptionalManifestField) : SResult bytes :=
  value_len ← ok_or (u32_try_from (blen (of_value f))) SnapshotLengthOverflow;
  Ok (be_encode 2 (of_tag f) ++ be_encode 4 value_len ++ of_value f).
(** A loop that appends each encoded item. *)
Fixpoint encode_each {A} (enc : A → SResult bytes) (l : list A) : SResult bytes :=
  match l with
  | [] => Ok []
  | x :: l => b ← enc x; rest ← encode_each enc l; Ok (b ++ rest)
  end.

Definition encode_snapshot_manifest (m : SnapshotManifest) : SResult bytes :=
  _ ← validate m;
  let s := sm_summary m in
  tool_len ← ok_or (u16_try_from (blen (sm_tool_version m))) SnapshotLengthOverflow;
  ref_count ← ok_or (u32_try_from (Z.of_nat (length (sm_refs m)))) SnapshotLengthOverflow;
  field_count ← ok_or (u32_try_from (Z.of_nat (length (sm_optional_fields m)))) SnapshotLengthOverflow;
  refs ← encode_each encode_ref (sm_refs m);
  fields ← encode_each encode_field (sm_optional_fields m);
  let bytes :=
    SNAPSHOT_MANIFEST_MAGIC ++ be_encode 2 SNAPSHOT_MANIFEST_VERSION ++
    repo_bytes (sm_repository m) ++ snap_bytes (sm_snapshot_id m) ++
    be_encode 1 (alg_tag (sm_native_object_format m)) ++
    be_encode 1 (import_policy_tag (sm_import_policy m)) ++ be_encode 2 0 ++
    be_encode 8 (sm_imported_unix_secs m) ++
    be_encode 8 (objects_seen s) ++ be_encode 8 (objects_written s) ++
    be_encode 8 (objects_deduplicated s) ++ be_encode 8 (raw_bytes s) ++
    be_encode 2 tool_len ++ be_encode 4 ref_count ++ be_encode 4 field_count ++
    sm_tool_version m ++ refs ++ fields in
  _ ← ensure (bool_decide (blen bytes ≤ MAX_SNAPSHOT_MANIFEST_BYTES))
             (SnapshotInvalid "snapshot manifest exceeds the maximum size");
  Ok bytes.

(** ** Decoding *)

Definition truncated : SnapshotManifestError := SnapshotInvalid "snapshot manifest is truncated".
Abbreviation m_take := (p_take SnapshotLengthOverflow truncated).
Abbreviation m_uint := (p_uint SnapshotLengthOverflow truncated).
Definition m_ensure (c : bool) (reason : string) : Parser SnapshotManifestError unit :=
  p_lift (ensure c (SnapshotInvalid reason)).

Definition m_algorithm (reason : string) : Parser SnapshotManifestError HashAlgorithm :=
  t ⇠ m_uint 1; p_lift (ok_or (alg_from_tag t) (SnapshotInvalid reason)).
Definition m_oid (a : HashAlgorithm) (n : Z) : Parser SnapshotManifestError GitOid :=
  b ⇠ m_take n;
  p_lift (map_err (λ _, SnapshotInvalid "snapshot manifest has an invalid ref OID") (GitOid_new a b)).

Definition decode_ref : Parser SnapshotManifestError PersistedRef :=
  kind ⇠ (t ⇠ m_uint 1; p_lift (local_ref_kind_from_tag t));
  name_length ⇠ m_uint 2;
  _ ⇠ m_ensure (bool_decide (name_length ≤ MANIFEST_REF_NAME_MAX_BYTES)) "snapshot manifest ref name is too large";
  name ⇠ m_take name_length;
  a ⇠ m_algorithm "snapshot manifest has an invalid ref OID algorithm";
  oid_length ⇠ m_uint 1;
  _ ⇠ m_ensure (bool_decide (oid_length = oid_len a)) "snapshot manifest has an invalid ref OID length";
  target ⇠ m_oid a oid_length;
  p_ret (mkPersistedRef name kind target).
Definition decode_field : Parser SnapshotManifestError OptionalManifestField :=
  tag ⇠ m_uint 2;
  length ⇠ m_uint 4;
  _ ⇠ m_ensure (bool_decide (length ≤ MANIFEST_OPTIONAL_FIELD_MAX_BYTES)) "snapshot manifest optional field is too large";
  value ⇠ m_take length;
  p_ret (mkOptionalField tag value).
Definition decode_summary : Parser SnapshotManifestError ImportSummary :=
  seen ⇠ m_uint 8;
  written ⇠ m_uint 8;
  deduplicated ⇠ m_uint 8;
  raw ⇠ m_uint 8;
  p_ret (mkImportSummary seen written deduplicated raw).

(** Everything but the end-of-input check and the validation. *)
Definition decode_manifest : Parser SnapshotManifestError SnapshotManifest :=
  magic ⇠ m_take 8;
  _ ⇠ m_ensure (bool_decide (magic = SNAPSHOT_MANIFEST_MAGIC)) "snapshot manifest has an invalid magic value";
  version ⇠ m_uint 2;
  _ ⇠ p_lift (ensure (bool_decide (version = SNAPSHOT_MANIFEST_VERSION)) (SnapshotUnsupportedVersion version));
  repository ⇠ m_take 16;
  snapshot ⇠ m_take (Z.of_nat SNAPSHOT_ID_LEN);
  format ⇠ m_algorithm "snapshot manifest has an invalid native object format";
  policy ⇠ (t ⇠ m_uint 1; p_lift (import_policy_from_tag t));
  reserved ⇠ m_uint 2;
  _ ⇠ m_ensure (bool_decide (reserved = 0)) "snapshot manifest has non-zero required reserved bytes";
  imported ⇠ m_uint 8;
  summary ⇠ decode_summary;
  tool_version_length ⇠ m_uint 2;
  _ ⇠ m_ensure (bool_decide (tool_version_length ≤ MANIFEST_TOOL_VERSION_MAX_BYTES)) "snapshot manifest tool version is too large";
  ref_count ⇠ m_uint 4;
  optional_field_count ⇠ m_uint 4;
  tool_version ⇠ m_take tool_version_length;
  remaining ⇠ p_remaining;
  _ ⇠ m_ensure (bool_decide (ref_count ≤ remaining / MIN_MANIFEST_REF_ENTRY_BYTES)) "snapshot manifest ref count exceeds remaining input";
  refs ⇠ p_repeat (Z.to_nat ref_count) decode_ref;
  remaining ⇠ p_remaining;
  _ ⇠ m_ensure (bool_decide (optional_field_count ≤ remaining / MIN_MANIFEST_OPTIONAL_FIELD_BYTES)) "snapshot manifest optional field count exceeds remaining input";
  fields ⇠ p_repeat (Z.to_nat optional_field_count) decode_field;
  p_ret (mkSnapshotManifest (mkRepoId repository) (mkSnapshotId snapshot) format policy refs summary
           imported tool_version fields).

Definition decode_snapshot_manifest_bytes (b : bytes) : SResult SnapshotManifest :=
  _ ← ensure (bool_decide (blen b ≤ MAX_SNAPSHOT_MANIFEST_BYTES))
             (SnapshotInvalid "snapshot manifest exceeds the maximum size");
  r ← (m ⇠ decode_manifest;
       done ⇠ p_is_empty;
       _ ⇠ p_lift (ensure done (SnapshotInvalid "snapshot manifest has trailing bytes"));
       p_ret m) (reader_new b);
  _ ← validate r.1;
  Ok r.1.

(** ** Durable manifests *)

Inductive SnapshotPublicationStatus := Published | AlreadyReady.
Inductive SnapshotPublicationError :=
| PubManifest (e : SnapshotManifestError)
| PubCatalog (e : CatalogError)
| SnapshotAlreadyReady
| SnapshotNotMarkedIncomplete
| PersistedManifestMismatch.

Abbreviation ManifestIO := (ST Disk SnapshotManifestError).
Definition on_file {A} (m : DiskIO A) : ManifestIO A := st_map_err SnapshotIo m.

(** [create_manifest_temporary_file]: [candidates] are the names made of the
    process, the clock and the attempt, at most 32 of them. *)
Fixpoint create_manifest_temporary_file (candidates : list Path) : ManifestIO (Path * nat) :=
  match candidates with
  | [] => st_lift (Err (SnapshotInvalid "cannot allocate a temporary snapshot manifest path"))
  | temporary :: candidates => λ d,
      match create_new temporary d with
      | (Ok file, d) => (Ok (temporary, file), d)
      | (Err AlreadyExists, d) => create_manifest_temporary_file candidates d
      | (Err e, d) => (Err (SnapshotIo e), d)
      end
  end.

Definition write_snapshot_manifest (candidates : list Path) (path : Path) (m : SnapshotManifest)
    : ManifestIO unit :=
  _ ⇐ st_lift (validate m);
  bytes ⇐ st_lift (encode_snapshot_manifest m);
  '(temporary, file) ⇐ create_manifest_temporary_file candidates;
  λ d,
    match (_ ⇐ on_file (write_at file 0 bytes);
           _ ⇐ on_file (sync_file file);
           _ ⇐ on_file (rename temporary path);
           on_file (sync_all_directory (p_dir path))) d with
    | (Ok u, d) => (Ok u, d)
    | (Err e, d) => (Err e, (remove_file temporary d).2)
    end.

Definition read_snapshot_manifest (path : Path) : ManifestIO SnapshotManifest :=
  file ⇐ on_file (open_file path);
  bytes ⇐ on_file (read_file file);
  _ ⇐ st_lift (ensure (bool_decide (blen bytes ≤ MAX_SNAPSHOT_MANIFEST_BYTES))
                      (SnapshotInvalid "snapshot manifest exceeds the maximum size"));
  st_lift (decode_snapshot_manifest_bytes bytes).

(** ** Publication *)

Section Publication.
Context `{Catalog C}.

Abbreviation PubIO := (ST (Sys C) SnapshotPublicationError).

Definition on_manifest {A} (m : ManifestIO A) : PubIO A := λ s,
  let '(r, d) := m (sys_disk s) in (map_err PubManifest r, mkSys d (sys_catalog s)).
Definition put_visibility (m : SnapshotManifest) (v : SnapshotVisibility) : PubIO unit := λ s,
  let '(r, c) := apply (sys_catalog s)
                   (put_repository_snapshot batch_new (sm_repository m) (sm_snapshot_id m) v) in
  (map_err PubCatalog r, mkSys (sys_disk s) c).
Definition visibility (m : SnapshotManifest) : PubIO (option SnapshotVisibility) :=
  st_get (λ s, repository_snapshot (sys_catalog s) (sm_repository m) (sm_snapshot_id m)).

Definition begin_snapshot_publication (m : SnapshotManifest) : PubIO unit :=
  _ ⇐ st_lift (map_err PubManifest (validate m));
  v ⇐ visibility m;
  match v with
  | Some Ready => st_lift (Err SnapshotAlreadyReady)
  | Some Incomplete => st_ret ()
  | None => put_visibility m Incomplete
  end.

Definition finish_persisted_snapshot_publication (m : SnapshotManifest) : PubIO SnapshotPublicationStatus :=
  v ⇐ visibility m;
  match v with
  | Some Ready => st_ret AlreadyReady
  | Some Incomplete => _ ⇐ put_visibility m Ready; st_ret Published
  | None => st_lift (Err SnapshotNotMarkedIncomplete)
  end.

Definition finish_snapshot_publication (path : Path) (expected : SnapshotManifest)
    : PubIO SnapshotPublicationStatus :=
  persisted ⇐ on_manifest (read_snapshot_manifest path);
  _ ⇐ st_lift (ensure (bool_decide (persisted = expected)) PersistedManifestMismatch);
  finish_persisted_snapshot_publication persisted.

Definition reconcile_snapshot_publication (path : Path) : PubIO SnapshotPublicationStatus :=
  m ⇐ on_manifest (read_snapshot_manifest path);
  finish_persisted_snapshot_publication m.

Definition publish_snapshot_manifest (candidates : list Path) (path : Path) (m : SnapshotManifest)
    : PubIO SnapshotPublicationStatus :=
  _ ⇐ begin_snapshot_publication m;
  _ ⇐ on_manifest (write_snapshot_manifest candidates path m);
  finish_snapshot_publication path m.
End Publication.

End Snapshot.
