(* ===== verification/SnapshotSpec.v ===== *)
(** * What snapshot manifests guarantee *)

From Stdlib Require Import ZArith Lia Strings.Byte Strings.String.
From stdpp Require Import base tactics list gmap strings.
From S2P Require Import Prelude Core Codec CatalogCodec Catalog Chunk Disk Store Git Reader Snapshot.
Import Core Codec CatalogCodec Catalog Chunk Disk Store Git Reader Snapshot.

#[local] Open Scope Z_scope.

Module SnapshotSpec.

(** ** The codec *)

(** What the types of the fields guarantee. *)
Definition ref_wf (r : PersistedRef) : Prop := GitOid_wf (pr_target r).
Definition field_wf (f : OptionalManifestField) : Prop := is_u16 (of_tag f).
Definition summary_wf (s : ImportSummary) : Prop :=
  is_u64 (objects_seen s) ∧ is_u64 (objects_written s) ∧ is_u64 (objects_deduplicated s) ∧ is_u64 (raw_bytes s).
Definition manifest_wf (m : SnapshotManifest) : Prop :=
  RepoId_wf (sm_repository m) ∧ SnapshotId_wf (sm_snapshot_id m) ∧ is_u64 (sm_imported_unix_secs m) ∧
  summary_wf (sm_summary m) ∧ Forall ref_wf (sm_refs m) ∧ Forall field_wf (sm_optional_fields m).

(** The bytes of each part. *)
Definition ref_layout (r : PersistedRef) : bytes :=
  be_encode 1 (local_ref_kind_tag (pr_kind r)) ++ be_encode 2 (blen (pr_name r)) ++ pr_name r ++
  be_encode 1 (alg_tag (algorithm (pr_target r))) ++ be_encode 1 (oid_len (algorithm (pr_target r))) ++
  oid_as_bytes (pr_target r).
Definition field_layout (f : OptionalManifestField) : bytes :=
  be_encode 2 (of_tag f) ++ be_encode 4 (blen (of_value f)) ++ of_value f.
Definition summary_layout (s : ImportSummary) : bytes :=
  be_encode 8 (objects_seen s) ++ be_encode 8 (objects_written s) ++
  be_encode 8 (objects_deduplicated s) ++ be_encode 8 (raw_bytes s).
Definition manifest_layout (m : SnapshotManifest) : bytes :=
  SNAPSHOT_MANIFEST_MAGIC ++ be_encode 2 SNAPSHOT_MANIFEST_VERSION ++
  repo_bytes (sm_repository m) ++ snap_bytes (sm_snapshot_id m) ++
  be_encode 1 (alg_tag (sm_native_object_format m)) ++
  be_encode 1 (import_policy_tag (sm_import_policy m)) ++ be_encode 2 0 ++
  be_encode 8 (sm_imported_unix_secs m) ++ summary_layout (sm_summary m) ++
  be_encode 2 (blen (sm_tool_version m)) ++ be_encode 4 (Z.of_nat (length (sm_refs m))) ++
  be_encode 4 (Z.of_nat (length (sm_optional_fields m))) ++ sm_tool_version m ++
  concat (map ref_layout (sm_refs m)) ++ concat (map field_layout (sm_optional_fields m)).

Definition ref_fits (r : PersistedRef) : Prop := ref_wf r ∧ blen (pr_name r) ≤ u16_max.
Definition field_fits (f : OptionalManifestField) : Prop :=
  field_wf f ∧ blen (of_value f) ≤ MANIFEST_OPTIONAL_FIELD_MAX_BYTES.

Lemma uint1 : exact (p_uint SnapshotLengthOverflow truncated 1) (be_encode 1) is_u8.
Proof. by apply (exact_uint _ _ 1); lia. Qed.
Lemma uint2 : exact (p_uint SnapshotLengthOverflow truncated 2) (be_encode 2) is_u16.
Proof. by apply (exact_uint _ _ 2); lia. Qed.
Lemma uint4 : exact (p_uint SnapshotLengthOverflow truncated 4) (be_encode 4) is_u32.
Proof. by apply (exact_uint _ _ 4); lia. Qed.
Lemma uint8 : exact (p_uint SnapshotLengthOverflow truncated 8) (be_encode 8) is_u64.
Proof. by apply (exact_uint _ _ 8); lia. Qed.
Lemma algorithm_exact reason : exact (m_algorithm reason) (λ a, be_encode 1 (alg_tag a)) (λ _, True).
Proof.
  apply (exact_tag _ 1 (λ t, ok_or (alg_from_tag t) (SnapshotInvalid reason)) alg_tag uint1 alg_tag_u8).
  intros t a. split.
  - intros Ha%ok_or_Ok_inv. by apply alg_from_tag_inv.
  - intros ->. by rewrite alg_from_to_tag.
Qed.
Lemma ref_kind_exact :
  exact (p_bind (p_uint SnapshotLengthOverflow truncated 1) (λ t, p_lift (local_ref_kind_from_tag t)))
    (λ k, be_encode 1 (local_ref_kind_tag k)) (λ _, True).
Proof.
  apply (exact_tag _ 1 local_ref_kind_from_tag local_ref_kind_tag uint1); [by intros []|].
  intros t a. unfold local_ref_kind_from_tag. repeat case_decide; destruct a; cbn; naive_solver.
Qed.
Lemma policy_exact :
  exact (p_bind (p_uint SnapshotLengthOverflow truncated 1) (λ t, p_lift (import_policy_from_tag t)))
    (λ k, be_encode 1 (import_policy_tag k)) (λ _, True).
Proof.
  apply (exact_tag _ 1 import_policy_from_tag import_policy_tag uint1); [by intros []|].
  intros t a. unfold import_policy_from_tag. case_decide; destruct a; cbn; naive_solver.
Qed.
Lemma oid_exact a n : n = oid_len a → exact (m_oid a n) oid_as_bytes (λ o, GitOid_wf o ∧ algorithm o = a).
Proof.
  intros -> r b Hr. pose proof (oid_len_bounds a).
  destruct (exact_take SnapshotLengthOverflow truncated (oid_len a) ltac:(lia) r b Hr) as [H1' H2'].
  unfold m_oid, p_bind, p_lift. split.
  - intros o r'. destruct (p_take _ _ _ r) as [[x r1]|]; [|done].
    destruct (H1' x r1 eq_refl) as (Hx & b' & -> & Hr1).
    destruct (GitOid_new a x) as [o'|] eqn:Ho; [|done]. intros Heq. cbn in Heq. injection Heq as <- <-.
    apply GitOid_new_wf in Ho as (Hwf & Ha & <-). split; [done|]. by exists b'.
  - intros o b' [Hwf Ha] Hb. destruct (H2' (oid_as_bytes o) b') as (r1 & -> & Hr1); [|done|].
    + rewrite <-Ha. by apply length_oid_as_bytes.
    + rewrite <-Ha, GitOid_new_as_bytes by done. by exists r1.
Qed.

Lemma decode_ref_exact : exact decode_ref ref_layout ref_fits.
Proof.
  apply reads_exact. unfold decode_ref. eapply reads_iff.
  - eapply (reads_field _ _ _ _ pr_kind _ _ _ ref_kind_exact). intros kind _.
    eapply (reads_field _ _ _ _ (λ r, blen (pr_name r)) _ _ _ uint2). intros n Hn.
    eapply (reads_ensure _ _ (λ _, True)); [intros w _; rewrite bool_decide_eq_true_2; [done|]|intros _].
    { unfold MANIFEST_REF_NAME_MAX_BYTES, in_width in *. lia. }
    eapply (reads_sized _ _ _ _ pr_name); [unfold in_width in Hn; lia|intros w Hw; apply Hw|]. intros name Hname.
    eapply (reads_field _ _ _ _ (λ r, algorithm (pr_target r)) _ _ _ (algorithm_exact _)). intros a _.
    eapply (reads_field _ _ _ _ (λ r, oid_len (algorithm (pr_target r))) _ _ _ uint1). intros l Hl.
    eapply (reads_ensure _ _ (λ _, True)); [intros w Hw; rewrite bool_decide_eq_true_2; [done|]|].
    { destruct Hw as [[_ <-] <-]. done. }
    intros Hla%bool_decide_eq_true.
    eapply (reads_iff _ _ _ (λ r, oid_as_bytes (pr_target r) ++ []) _ (λ r, GitOid_wf (pr_target r) ∧ True)).
    { eapply (reads_field _ _ _ _ pr_target _ _ _ (oid_exact _ _ Hla)). intros o Ho.
      destruct Ho as [_ Ho]. reads_end. }
    { intros w [[_ Hw] _]. cbn. cbn in Hw. tauto. }
    { done. }
  - intros r _. unfold ref_fits, ref_wf. cbn. unfold in_width, u16_max, blen. 
    pose proof (oid_len_bounds (algorithm (pr_target r))).
    split; [intros; destruct_and?; split_and!; try done; lia|intros [Hw Hb]; split_and!; try done; lia].
  - intros r _ _. unfold ref_layout. by rewrite app_nil_r.
Qed.

Lemma decode_field_exact : exact decode_field field_layout field_fits.
Proof.
  apply reads_exact. unfold decode_field. eapply reads_iff.
  - eapply (reads_field _ _ _ _ of_tag _ _ _ uint2). intros tag _.
    eapply (reads_field _ _ _ _ (λ f, blen (of_value f)) _ _ _ uint4). intros n Hn.
    eapply (reads_ensure _ _ (λ f, blen (of_value f) ≤ MANIFEST_OPTIONAL_FIELD_MAX_BYTES)).
    { intros w [_ ->]. apply bool_decide_eq_true. }
    intros _. eapply (reads_sized _ _ _ _ of_value); [unfold in_width in Hn; lia|intros w Hw; apply Hw|].
    intros v Hv. reads_end.
  - intros f _. unfold field_fits, field_wf, MANIFEST_OPTIONAL_FIELD_MAX_BYTES, in_width, blen. cbn.
    split; [intros; destruct_and?; split_and!; lia|intros [Hw Hb]; split_and!; done || lia].
  - intros f _ _. unfold field_layout. by rewrite app_nil_r.
Qed.
Lemma decode_summary_exact : exact decode_summary summary_layout summary_wf.
Proof.
  apply reads_exact. unfold decode_summary. eapply reads_iff.
  - eapply (reads_field _ _ _ _ objects_seen _ _ _ uint8). intros seen _.
    eapply (reads_field _ _ _ _ objects_written _ _ _ uint8). intros written _.
    eapply (reads_field _ _ _ _ objects_deduplicated _ _ _ uint8). intros dedup _.
    eapply (reads_field _ _ _ _ raw_bytes _ _ _ uint8). intros raw _. reads_end.
  - intros s _. unfold summary_wf. cbn. tauto.
  - intros s _ _. unfold summary_layout. by rewrite app_nil_r.
Qed.

(** Encoded items are at least as long as the decoder assumes. *)
Lemma concat_room {A} (enc : A → bytes) n l rest :
  0 < n → (∀ x, x ∈ l → n ≤ blen (enc x)) → Z.of_nat (length l) ≤ blen (concat (map enc l) ++ rest) / n.
Proof.
  intros Hn Hl. apply Z.div_le_lower_bound; [done|]. unfold blen in *. rewrite length_app.
  induction l as [|x l IH]; cbn [map concat length]; [lia|]. rewrite length_app.
  pose proof (Hl x ltac:(by left)). specialize (IH ltac:(intros y Hy; apply Hl; by right)). lia.
Qed.
Lemma ref_layout_long r : ref_wf r → MIN_MANIFEST_REF_ENTRY_BYTES ≤ blen (ref_layout r).
Proof.
  intros Hwf. pose proof (length_oid_as_bytes _ Hwf). pose proof (oid_len_bounds (algorithm (pr_target r))).
  unfold blen, ref_layout, MIN_MANIFEST_REF_ENTRY_BYTES. rewrite !length_app, !length_be_encode. lia.
Qed.
Lemma field_layout_long f : MIN_MANIFEST_OPTIONAL_FIELD_BYTES ≤ blen (field_layout f).
Proof.
  unfold blen, field_layout, MIN_MANIFEST_OPTIONAL_FIELD_BYTES. rewrite !length_app, !length_be_encode. lia.
Qed.

Definition manifest_fits (m : SnapshotManifest) : Prop :=
  RepoId_wf (sm_repository m) ∧ SnapshotId_wf (sm_snapshot_id m) ∧ is_u64 (sm_imported_unix_secs m) ∧
  summary_wf (sm_summary m) ∧ blen (sm_tool_version m) ≤ u16_max ∧
  Z.of_nat (length (sm_refs m)) ≤ u32_max ∧ Z.of_nat (length (sm_optional_fields m)) ≤ u32_max ∧
  Forall ref_fits (sm_refs m) ∧ Forall field_fits (sm_optional_fields m).

Lemma decode_manifest_exact : exact decode_manifest manifest_layout manifest_fits.
Proof.
  apply reads_exact. unfold decode_manifest, m_ensure. eapply reads_iff.
  - eapply (reads_const _ _ _ _ SNAPSHOT_MANIFEST_MAGIC); [by apply exact_take|done| |].
    { intros a _. apply bool_decide_eq_true. }
    eapply (reads_const _ _ _ _ SNAPSHOT_MANIFEST_VERSION _ _ _ _ _ uint2); [done| |].
    { intros a _. apply bool_decide_eq_true. }
    eapply (reads_field _ _ _ _ (λ m, repo_bytes (sm_repository m))); [by apply exact_take|]. intros repo _.
    eapply (reads_field _ _ _ _ (λ m, snap_bytes (sm_snapshot_id m))); [by apply exact_take|]. intros snap _.
    eapply (reads_field _ _ _ _ sm_native_object_format _ _ _ (algorithm_exact _)). intros format _.
    eapply (reads_field _ _ _ _ sm_import_policy _ _ _ policy_exact). intros policy _.
    eapply (reads_const _ _ _ _ 0 _ _ _ _ _ uint2); [done| |].
    { intros a _. apply bool_decide_eq_true. }
    eapply (reads_field _ _ _ _ sm_imported_unix_secs _ _ _ uint8). intros imported _.
    eapply (reads_field _ _ _ _ sm_summary _ _ _ decode_summary_exact). intros summary _.
    eapply (reads_field _ _ _ _ (λ m, blen (sm_tool_version m)) _ _ _ uint2). intros n Hn.
    eapply (reads_ensure _ _ (λ _, True)); [intros w _; rewrite bool_decide_eq_true_2; [done|]|intros _].
    { unfold MANIFEST_TOOL_VERSION_MAX_BYTES, in_width in *. lia. }
    eapply (reads_field _ _ _ _ (λ m, Z.of_nat (length (sm_refs m))) _ _ _ uint4). intros refs Hrefs.
    eapply (reads_field _ _ _ _ (λ m, Z.of_nat (length (sm_optional_fields m))) _ _ _ uint4). intros fields Hfields.
    eapply (reads_sized _ _ _ _ sm_tool_version); [unfold in_width in Hn; lia|intros w Hw; apply Hw|]. intros tool Htool.
    eapply (reads_room _ (λ n, bool_decide (refs ≤ n / _)) _ _
      (λ m, concat (map ref_layout (sm_refs m)) ++ concat (map field_layout (sm_optional_fields m)) ++ [])
      (λ m, Forall ref_fits (sm_refs m) ∧ Forall field_fits (sm_optional_fields m) ∧ True)).
    { intros w rest Hw [Hr _]. destruct_and! Hw. apply bool_decide_eq_true_2. rewrite <-app_assoc. subst refs.
      apply concat_room; [done|]. intros r Hin. apply ref_layout_long. rewrite Forall_forall in Hr. by apply Hr. }
    eapply (reads_list _ _ _ _ _ sm_refs _ _ _ decode_ref_exact).
    { intros w Hw. destruct_and! Hw. lia. }
    intros rs Hrs.
    eapply (reads_room _ (λ n, bool_decide (fields ≤ n / _))).
    { intros w rest Hw _. destruct_and! Hw. apply bool_decide_eq_true_2. rewrite <-app_assoc. subst fields.
      apply concat_room; [done|]. intros f _. apply field_layout_long. }
    eapply (reads_list _ _ _ _ _ sm_optional_fields _ _ _ decode_field_exact).
    { intros w Hw. destruct_and! Hw. lia. }
    intros fs Hfs. unfold in_width in Hrefs, Hfields. apply reads_ret. intros [[rb] [sb] ? ? ? ? ? ? ?]. cbn. split.
    + intros Hw. destruct_and! Hw. by subst.
    + intros Hw. injection Hw. intros. subst. split_and!; done || congruence || lia.
  - intros m _. unfold manifest_fits, RepoId_wf, SnapshotId_wf, in_width, blen, u16_max, u32_max. cbn.
    unfold SNAPSHOT_ID_LEN.
    split; intros; destruct_and?; split_and!; done || lia.
  - intros m _ _. unfold manifest_layout. by rewrite app_nil_r.
Qed.

Lemma encode_ref_Ok r b : ref_wf r → encode_ref r = Ok b ↔ ref_fits r ∧ b = ref_layout r.
Proof.
  intros Hwf. unfold encode_ref, ref_fits, ref_layout, u16_try_from. pose proof Hwf as (Hl & _). rewrite Hl.
  case_decide as Hd; cbn [ok_or]; rewrite ?bind_Ok, ?bind_Err.
  - split; [by intros [= <-]|by intros [_ ->]].
  - split; [done|by intros [[_ ?] _]].
Qed.
Lemma encode_field_Ok f b : field_fits f → encode_field f = Ok b ↔ b = field_layout f.
Proof.
  intros [_ Hl]. unfold encode_field, field_layout, u32_try_from. unfold MANIFEST_OPTIONAL_FIELD_MAX_BYTES in Hl.
  rewrite decide_True by (unfold u32_max; lia). cbn [ok_or]. rewrite bind_Ok. split; [by intros [= <-]|by intros ->].
Qed.
Lemma encode_each_Ok {A} (enc : A → result SnapshotManifestError bytes) (ok : A → Prop) layout l b :
  (∀ x, x ∈ l → ∀ b, enc x = Ok b ↔ ok x ∧ b = layout x) →
  encode_each enc l = Ok b ↔ Forall ok l ∧ b = concat (map layout l).
Proof.
  revert b. induction l as [|x l IH]; intros b Hl; cbn [encode_each map concat].
  - split; [intros [= <-]; done|by intros [_ ->]].
  - specialize (IH). split.
    + intros He. apply bind_Ok_inv in He as (b1 & Hb1 & He). apply bind_Ok_inv in He as (b2 & Hb2 & He).
      injection He as <-. apply Hl in Hb1 as [Hx ->]; [|by left].
      apply IH in Hb2 as [Hall ->]; [|intros y Hy; apply Hl; by right]. split; [by constructor|done].
    + intros [[Hx Hall]%Forall_cons ->]. rewrite (proj2 (Hl x ltac:(by left) (layout x))), bind_Ok by done.
      rewrite (proj2 (IH (concat (map layout l)) ltac:(intros y Hy; apply Hl; by right))) by done. done.
Qed.

(** What validation guarantees about sizes. *)
Lemma validate_fields_sizes before fields :
  validate_fields before fields = Ok () →
  Forall (λ f, blen (of_value f) ≤ MANIFEST_OPTIONAL_FIELD_MAX_BYTES) fields.
Proof.
  revert before. induction fields as [|f fields IH]; intros before Hv; [constructor|]. cbn [validate_fields] in Hv.
  apply bind_Ok_inv in Hv as ([] & Hc%ensure_Ok_inv & Hv). apply bind_Ok_inv in Hv as ([] & _ & Hv).
  apply andb_true_iff in Hc as [_ Hc%bool_decide_eq_true]. constructor; [done|]. by eapply IH.
Qed.
Lemma validate_sizes m : validate m = Ok () →
  Z.of_nat (length (sm_refs m)) ≤ u32_max ∧ Z.of_nat (length (sm_optional_fields m)) ≤ u32_max ∧
  Forall (λ f, blen (of_value f) ≤ MANIFEST_OPTIONAL_FIELD_MAX_BYTES) (sm_optional_fields m).
Proof.
  unfold validate. cbv zeta. intros Hv.
  apply bind_Ok_inv in Hv as ([] & _ & Hv). apply bind_Ok_inv in Hv as ([] & _ & Hv).
  apply bind_Ok_inv in Hv as ([] & Hr%ensure_Ok_inv%bool_decide_eq_true & Hv).
  apply bind_Ok_inv in Hv as ([] & _ & Hv).
  apply bind_Ok_inv in Hv as ([] & Hf%ensure_Ok_inv%bool_decide_eq_true & Hv).
  split_and!; try done. by eapply validate_fields_sizes.
Qed.

Lemma encode_manifest_Ok m b : manifest_wf m →
  encode_snapshot_manifest m = Ok b ↔
    validate m = Ok () ∧ manifest_fits m ∧ b = manifest_layout m ∧ blen b ≤ MAX_SNAPSHOT_MANIFEST_BYTES.
Proof.
  intros (Hrp & Hsn & Hi & Hs & Hrefs & Hfields). unfold encode_snapshot_manifest.
  destruct (validate m) as [[]|] eqn:Hv; [|split; [done|by intros [? _]]].
  rewrite bind_Ok. cbv zeta. pose proof (validate_sizes m Hv) as (Hnr & Hnf & Hfs).
  assert (Forall field_fits (sm_optional_fields m)) as Hff.
  { rewrite Forall_forall in *. intros f Hf. split; auto. }
  assert (∀ b, encode_each encode_ref (sm_refs m) = Ok b ↔
    Forall ref_fits (sm_refs m) ∧ b = concat (map ref_layout (sm_refs m))) as Her.
  { intros b'. apply encode_each_Ok. intros r Hr b0. apply encode_ref_Ok. rewrite Forall_forall in Hrefs. auto. }
  assert (encode_each encode_field (sm_optional_fields m) =
    Ok (concat (map field_layout (sm_optional_fields m)))) as Hef.
  { eapply (encode_each_Ok _ field_fits); [|done]. intros f Hf b0. rewrite Forall_forall in Hff.
    rewrite encode_field_Ok by auto. split; [auto|by intros [_ ?]]. }
  unfold u32_try_from, u16_try_from. rewrite !(decide_True (P := _ ≤ u32_max)) by done. cbn [ok_or].
  unfold manifest_fits. case_decide as Ht; cbn [ok_or]; rewrite ?bind_Ok, ?bind_Err; [|split; [done|tauto]].
  destruct (encode_each encode_ref (sm_refs m)) as [rb|] eqn:Er; rewrite ?bind_Ok, ?bind_Err.
  - destruct (proj1 (Her rb) eq_refl) as [Hrf ->]. rewrite Hef, bind_Ok.
    assert (∀ x, x = manifest_layout m → ensure (bool_decide (blen x ≤ MAX_SNAPSHOT_MANIFEST_BYTES))
        (SnapshotInvalid "snapshot manifest exceeds the maximum size") ≫= (λ _, Ok x) = Ok b ↔
        b = manifest_layout m ∧ blen b ≤ MAX_SNAPSHOT_MANIFEST_BYTES) as Hend.
    { intros x ->. case_bool_decide as Hmax; cbn [ensure]; rewrite ?bind_Ok, ?bind_Err.
      - split; [intros Hx; injection Hx as <-; done|by intros [-> _]].
      - split; [done|by intros [-> ?]]. }
    rewrite Hend; [tauto|]. unfold manifest_layout, summary_layout. by rewrite <-!app_assoc.
  - split; [done|]. intros (_ & Hfit & _). destruct (Her (concat (map ref_layout (sm_refs m)))) as [_ Hbad].
    destruct_and! Hfit. discriminate Hbad. done.
Qed.

Lemma decode_manifest_iff b m :
  decode_snapshot_manifest_bytes b = Ok m ↔ manifest_wf m ∧ encode_snapshot_manifest m = Ok b.
Proof.
  assert (manifest_fits m → manifest_wf m) as Hfw.
  { intros Hf. destruct_and! Hf. split_and!; try done; eapply Forall_impl; try done; by intros ? [? _]. }
  unfold decode_snapshot_manifest_bytes. case_bool_decide as Hmax; cbn [ensure]; rewrite ?bind_Ok, ?bind_Err.
  - pose proof (exact_whole decode_manifest _ _ (SnapshotInvalid "snapshot manifest has trailing bytes") b m
      decode_manifest_exact ltac:(unfold MAX_SNAPSHOT_MANIFEST_BYTES in Hmax; lia)) as Hw.
    destruct (p_bind decode_manifest _ (reader_new b)) as [[m' r]|e].
    + rewrite bind_Ok. cbn [fst]. split.
      * intros Hd. apply bind_Ok_inv in Hd as ([] & Hv & Hd). injection Hd as ->.
        destruct (proj1 Hw) as [Hf ->]; [by exists r|]. split; [by apply Hfw|]. apply encode_manifest_Ok; auto.
      * intros [Hwf He]. apply encode_manifest_Ok in He as (Hv & Hf & Hb & _); [|done].
        destruct (proj2 Hw (conj Hf Hb)) as [r' Heq]. injection Heq as -> _. by rewrite Hv.
    + rewrite bind_Err. split; [done|]. intros [Hwf He].
      apply encode_manifest_Ok in He as (_ & Hf & Hb & _); [|done]. destruct (proj2 Hw (conj Hf Hb)) as [r' Heq]. done.
  - split; [done|]. intros [Hwf He]. by apply encode_manifest_Ok in He as (_ & _ & _ & ?).
Qed.

(** Snapshot manifests: a byte string decodes to a manifest exactly when the
    manifest has fields of the right widths and encodes to that byte string. *)
Theorem manifest_codec_exact b m :
  decode_snapshot_manifest_bytes b = Ok m ↔ manifest_wf m ∧ encode_snapshot_manifest m = Ok b.
Proof. apply decode_manifest_iff. Qed.

End SnapshotSpec.
