(* ===== verification/PublicationSpec.v ===== *)
(** * What snapshot publication guarantees

    A snapshot becomes visible only when its manifest is durable: it can be
    read back after any crash. *)

From Stdlib Require Import ZArith Lia Strings.Byte Strings.String.
From stdpp Require Import base tactics list gmap strings.
From S2P Require Import Prelude Core Format Codec CatalogCodec CatalogCodecSpec Catalog CatalogSpec RocksSpec CatalogInterface Chunk Disk DiskSpec Store Git Reader Snapshot SnapshotSpec.
Import Core Format Codec CatalogCodec CatalogCodecSpec Catalog CatalogSpec RocksSpec CatalogInterface Chunk Disk DiskSpec Store Git Reader Snapshot SnapshotSpec.

#[local] Open Scope Z_scope.

Module PublicationSpec.

(** ** Durable files *)

(** The file at [p] is durable with contents [b]: in every name space a crash
    may find, [p] names one file that holds [b], synchronized. *)
Definition durable_file (d : Disk) (p : Path) (b : bytes) : Prop :=
  ∃ n, Forall (λ m : Names, m !! p = Some n) (d_names d :: d_pending d) ∧
    d_inodes d !! n = Some (mkInode b b).

Lemma durable_file_crash d d' p b : crash d d' → durable_file d p b → durable_file d' p b.
Proof.
  intros Hc (n & Hall & Hi). destruct Hc as [d names inodes faults Hn Hsurv]. exists n. cbn.
  rewrite Forall_forall in Hall. split; [apply Forall_singleton; by apply Hall|].
  destruct (Forall2_lookup_l _ _ _ _ _ Hsurv Hi) as ([data' synced'] & Hi' & Hsync & _ & _ & Hsame).
  cbn in *. rewrite Hi', Hsync, Hsame by done. done.
Qed.

Lemma io_ok {A} (act : ST Disk IoErrorKind A) d a d' :
  io act d = (Ok a, d') → ∃ d1, same_files d d1 ∧ act d1 = (Ok a, d').
Proof.
  intros Hio. destruct (io_spec act d) as [(e & d1 & He & _)|(d1 & Hs & He)]; [congruence|].
  exists d1. split; [done|]. congruence.
Qed.

(** A new file, written whole and synchronized, moved to its name, and its
    directory synchronized, is durable. *)
Lemma create_new_ok p d n d' : create_new p d = (Ok n, d') →
  d_inodes d' !! n = Some (mkInode [] []) ∧ d_names d' !! p = Some n.
Proof.
  intros Hc. apply io_ok in Hc as (d1 & Hs & Hc). destruct (d_names d1 !! p); [done|].
  injection Hc as <- <-. cbn. rewrite lookup_insert_eq. split; [|done].
  by rewrite lookup_app_r, Nat.sub_diag.
Qed.
Lemma patch_empty b : patch (Z.to_nat 0) b [] = b.
Proof.
  change (Z.to_nat 0) with (length (@nil byte)). rewrite <-(app_nil_r []) at 2.
  by rewrite patch_at, drop_nil, app_nil_r.
Qed.
Lemma write_new_ok n b d d' : write_at n 0 b d = (Ok (), d') → d_inodes d !! n = Some (mkInode [] []) →
  d_inodes d' !! n = Some (mkInode b []) ∧ d_names d' = d_names d.
Proof.
  unfold write_at. destruct (pop_fault d) as [f d1] eqn:Hp. intros Hw Hi.
  assert (same_files d d1) as Hs by (pose proof (pop_same d) as Hs; by rewrite Hp in Hs).
  case_decide; [done|]. destruct f; [done|]. injection Hw as <-. cbn.
  rewrite list_lookup_alter_eq, (same_inodes _ _ Hs), Hi. cbn.
  split; [|apply (same_names _ _ Hs)]. by rewrite patch_empty.
Qed.
Lemma sync_ok n b d d' : sync_file n d = (Ok (), d') → d_inodes d !! n = Some (mkInode b []) →
  d_inodes d' !! n = Some (mkInode b b) ∧ d_names d' = d_names d.
Proof.
  intros Hs Hi. apply io_ok in Hs as (d1 & Hsame & Hs). injection Hs as <-. cbn.
  rewrite list_lookup_alter_eq, (same_inodes _ _ Hsame), Hi. split; [done|]. apply (same_names _ _ Hsame).
Qed.
Lemma rename_ok p q d d' n : rename p q d = (Ok (), d') → d_names d !! p = Some n →
  d_inodes d' = d_inodes d ∧ d_names d' !! q = Some n.
Proof.
  intros Hr Hn. apply io_ok in Hr as (d1 & Hs & Hr). rewrite (same_names _ _ Hs), Hn in Hr.
  injection Hr as <-. cbn. rewrite lookup_insert_eq. split; [apply (same_inodes _ _ Hs)|done].
Qed.
Lemma sync_directory_ok p d d' n b : sync_all_directory (p_dir p) d = (Ok (), d') →
  d_names d !! p = Some n → d_inodes d !! n = Some (mkInode b b) → durable_file d' p b.
Proof.
  unfold sync_all_directory, st_bind. intros Hc Hn Hi.
  destruct (io _ d) as [[u|e] d1] eqn:H1; [|done]. apply io_ok in H1 as (d2 & Hs2 & H2).
  injection H2 as _ <-. apply io_ok in Hc as (d3 & Hs3 & Hc). injection Hc as <-.
  pose proof (same_files_trans _ _ _ Hs2 Hs3) as Hs. exists n. cbn.
  rewrite (same_names _ _ Hs), (same_inodes _ _ Hs). split; [|done]. constructor; [done|].
  apply Forall_map, Forall_forall. intros m _. by apply persist_now.
Qed.

Lemma create_temporary_ok candidates d t n d' :
  create_manifest_temporary_file candidates d = (Ok (t, n), d') →
  d_inodes d' !! n = Some (mkInode [] []) ∧ d_names d' !! t = Some n.
Proof.
  revert d. induction candidates as [|c candidates IH]; intros d Hc; [done|]. cbn in Hc.
  destruct (create_new c d) as [[n'|e] d1] eqn:Hn; [|by destruct e; try apply (IH _ Hc)].
  injection Hc as <- <- <-. by eapply create_new_ok.
Qed.

Lemma write_manifest_ok candidates path m d d' :
  write_snapshot_manifest candidates path m d = (Ok (), d') →
  ∃ b, encode_snapshot_manifest m = Ok b ∧ durable_file d' path b.
Proof.
  unfold write_snapshot_manifest, st_bind, st_lift.
  destruct (validate m) as [[]|]; [|done]. destruct (encode_snapshot_manifest m) as [b|]; [|done].
  destruct (create_manifest_temporary_file candidates d) as [[[t n]|e] d1] eqn:H1; [|done].
  unfold on_file, st_map_err.
  destruct (write_at n 0 b d1) as [[[]|e] d2] eqn:H2; cbn [map_err]; [|done].
  destruct (sync_file n d2) as [[[]|e] d3] eqn:H3; cbn [map_err]; [|done].
  destruct (rename t path d3) as [[[]|e] d4] eqn:H4; cbn [map_err]; [|done].
  destruct (sync_all_directory (p_dir path) d4) as [[[]|e] d5] eqn:H5; cbn [map_err]; [|done].
  intros Heq. injection Heq as <-. exists b. split; [done|].
  apply create_temporary_ok in H1 as [Hi1 Hn1]. apply write_new_ok in H2 as [Hi2 Hn2]; [|done].
  apply (sync_ok _ b) in H3 as [Hi3 Hn3]; [|done]. rewrite <-Hn2, <-Hn3 in Hn1.
  destruct (rename_ok _ _ _ _ _ H4 Hn1) as [Hi4 Hn4].
  eapply sync_directory_ok; [exact H5|exact Hn4|]. by rewrite Hi4.
Qed.

(** A durable manifest reads back, unless a call fails. *)
Lemma read_durable_manifest d path b m :
  d_faults d = [] → durable_file d path b → decode_snapshot_manifest_bytes b = Ok m →
  (read_snapshot_manifest path d).1 = Ok m.
Proof.
  intros Hf (n & [Hn _]%Forall_cons & Hi) Hd.
  unfold read_snapshot_manifest, on_file, st_map_err, st_bind, st_lift, open_file, read_file, io, pop_fault.
  rewrite Hf, Hn. cbn. unfold data. rewrite Hf, Hi. cbn.
  pose proof Hd as Hd'. unfold decode_snapshot_manifest_bytes in Hd'.
  apply bind_Ok_inv in Hd' as ([] & Hmax & _). unfold ensure in Hmax |- *.
  destruct (bool_decide _); [|done]. cbn. by rewrite Hd.
Qed.

Lemma read_manifest_same path d : same_files d (read_snapshot_manifest path d).2.
Proof.
  unfold read_snapshot_manifest, on_file, st_map_err, st_bind, st_lift.
  destruct (open_file path d) as [r1 d1] eqn:H1. apply open_file_spec in H1 as [Hs1 _].
  destruct r1 as [n|e]; cbn [map_err]; [|done].
  destruct (read_file n d1) as [r2 d2] eqn:H2. apply read_file_spec in H2 as [Hs2 _].
  pose proof (same_files_trans _ _ _ Hs1 Hs2). destruct r2 as [b|e]; cbn [map_err]; [|done].
  by destruct (ensure _ _).
Qed.
Lemma durable_file_same d d' p b : same_files d d' → durable_file d p b → durable_file d' p b.
Proof.
  intros Hs (n & Hall & Hi). exists n.
  by rewrite (same_names _ _ Hs), (same_pending _ _ Hs), (same_inodes _ _ Hs).
Qed.

(** ** Publication *)

Section Publication.
Context `{CatalogLaws C}.

Definition snapshot_key (m : SnapshotManifest) : CatKey := KSnapshot (sm_repository m) (sm_snapshot_id m).

(** Only the snapshot's own record changes, and to [v]. *)
Definition shows (m : SnapshotManifest) (v : SnapshotVisibility) (f f' : View) : Prop :=
  (∀ k, k ≠ snapshot_key m → f' k = f k) ∧
  (f' (snapshot_key m) = f (snapshot_key m) ∨ f' (snapshot_key m) = Some (VVisibility v)).

Lemma put_visibility_spec m v s f :
  manifest_wf m → holds_view (sys_catalog s) f →
  ∃ f', holds_view (sys_catalog (put_visibility m v s).2) f' ∧ shows m v f f' ∧
    sys_disk (put_visibility m v s).2 = sys_disk s ∧
    ((put_visibility m v s).1 = Ok () → f' (snapshot_key m) = Some (VVisibility v)).
Proof.
  intros (Hrepo & Hsnap & _) Hv. unfold put_visibility.
  unfold put_repository_snapshot, batch_new. cbn [app].
  set (b := [OpRepositorySnapshot _ _ v]).
  assert (Forall op_wf b) as Hb by (apply Forall_singleton; split; [done|by intros ? [= <-]]).
  pose proof (view_apply (sys_catalog s) f b Hv Hb) as Ha.
  assert (∀ f', same f' (batch_effect f b) → shows m v f f' ∧ f' (snapshot_key m) = Some (VVisibility v)) as Heff.
  { intros f' Hs. assert (f' (snapshot_key m) = Some (VVisibility v)) as Hk.
    { rewrite (Hs _). unfold batch_effect, write_effect. cbn. by rewrite decide_True. }
    split; [|done]. split; [|by right]. intros k Hk'. rewrite (Hs _).
    unfold batch_effect, write_effect. cbn. by rewrite decide_False. }
  destruct (apply (sys_catalog s) b) as [[[]|e] c]; cbn.
  - destruct Ha as (_ & f' & Hv' & Hs). apply Heff in Hs as [Hs Hk]. by exists f'.
  - destruct Ha as (f' & Hv' & [Hs|Hs]); exists f'.
    + split_and!; try done. split; [done|by left].
    + by apply Heff in Hs as [Hs Hk].
Qed.

Lemma visibility_spec m s f v :
  manifest_wf m → holds_view (sys_catalog s) f →
  repository_snapshot (sys_catalog s) (sm_repository m) (sm_snapshot_id m) = Some v →
  f (snapshot_key m) = Some (VVisibility v).
Proof. intros (Hrepo & Hsnap & _) Hv. by apply view_snapshot. Qed.

Lemma shows_refl m v f : shows m v f f.
Proof. split; [done|by left]. Qed.

Lemma begin_spec m s f :
  manifest_wf m → holds_view (sys_catalog s) f →
  ∃ f', holds_view (sys_catalog (begin_snapshot_publication m s).2) f' ∧ shows m Incomplete f f' ∧
    sys_disk (begin_snapshot_publication m s).2 = sys_disk s.
Proof.
  intros Hw Hv. unfold begin_snapshot_publication, visibility, st_bind, st_lift, st_get, st_ret.
  destruct (map_err PubManifest (validate m)); [|by exists f; eauto using shows_refl].
  destruct (repository_snapshot _ _ _) as [[]|]; cbn; [by exists f; eauto using shows_refl..|].
  destruct (put_visibility_spec m Incomplete s f Hw Hv) as (f' & ? & ? & ? & _). by exists f'.
Qed.
Lemma finish_persisted_spec m s f :
  manifest_wf m → holds_view (sys_catalog s) f →
  ∃ f', holds_view (sys_catalog (finish_persisted_snapshot_publication m s).2) f' ∧ shows m Ready f f' ∧
    sys_disk (finish_persisted_snapshot_publication m s).2 = sys_disk s ∧
    ∀ status, (finish_persisted_snapshot_publication m s).1 = Ok status →
      f' (snapshot_key m) = Some (VVisibility Ready).
Proof.
  intros Hw Hv. unfold finish_persisted_snapshot_publication, visibility, st_bind, st_lift, st_get, st_ret.
  destruct (repository_snapshot _ _ _) as [[]|] eqn:Hr; cbn.
  - destruct (put_visibility_spec m Ready s f Hw Hv) as (f' & ? & ? & ? & Hok). exists f'.
    destruct (put_visibility m Ready s) as [[[]|e] s']; cbn in *; split_and!; try done.
    intros _ _. by apply Hok.
  - exists f. split_and!; [done|apply shows_refl|done|]. intros _ _. by eapply visibility_spec.
  - exists f. split_and!; [done|apply shows_refl|done|done].
Qed.

(** The manifest is durable at its path. *)
Definition persisted (d : Disk) (path : Path) (m : SnapshotManifest) : Prop :=
  ∃ b, encode_snapshot_manifest m = Ok b ∧ durable_file d path b.

Lemma persisted_crash d d' path m :
  persisted d path m → crash d d' → d_faults d' = [] → manifest_wf m →
  (read_snapshot_manifest path d').1 = Ok m.
Proof.
  intros (b & Henc & Hdur) Hc Hf Hw. eapply read_durable_manifest; [done|by eapply durable_file_crash|].
  by apply decode_manifest_iff.
Qed.

(** A run of the publication, whatever fails in it. *)
Lemma publish_spec candidates path m s f r s' :
  manifest_wf m → holds_view (sys_catalog s) f →
  publish_snapshot_manifest candidates path m s = (r, s') →
  ∃ f', holds_view (sys_catalog s') f' ∧ (∀ k, k ≠ snapshot_key m → f' k = f k) ∧
    (f' (snapshot_key m) = Some (VVisibility Ready) →
     f (snapshot_key m) = Some (VVisibility Ready) ∨ persisted (sys_disk s') path m) ∧
    (is_ok r = true → f' (snapshot_key m) = Some (VVisibility Ready) ∧ persisted (sys_disk s') path m).
Proof.
  intros Hw Hv. unfold publish_snapshot_manifest, st_bind at 1.
  destruct (begin_spec m s f Hw Hv) as (f1 & Hv1 & [Ho1 Hk1] & Hd1).
  assert (f1 (snapshot_key m) = Some (VVisibility Ready) → f (snapshot_key m) = Some (VVisibility Ready))
    as Hold by (destruct Hk1; congruence).
  destruct (begin_snapshot_publication m s) as [[[]|e] s1]; cbn [snd] in *.
  2: { intros [= <- <-]. exists f1. split_and!; eauto; done. }
  unfold st_bind at 1, on_manifest at 1.
  destruct (write_snapshot_manifest candidates path m (sys_disk s1)) as [[[]|e] d2] eqn:Hwr; cbn [map_err].
  2: { intros [= <- <-]. exists f1. split_and!; eauto; done. }
  apply write_manifest_ok in Hwr as (b & Henc & Hdur).
  unfold finish_snapshot_publication, st_bind at 1, on_manifest. cbn [sys_disk sys_catalog].
  pose proof (read_manifest_same path d2) as Hs3.
  destruct (read_snapshot_manifest path d2) as [[m'|e] d3]; cbn [map_err snd] in *;
    (assert (persisted d3 path m) by (exists b; split; [done|by eapply durable_file_same])).
  2: { intros [= <- <-]. exists f1. split_and!; eauto; done. }
  unfold st_bind at 1, st_lift, ensure. case_bool_decide as Hm; cbv beta iota.
  2: { intros [= <- <-]. exists f1. split_and!; eauto; done. }
  subst m'. destruct (finish_persisted_spec m (mkSys d3 (sys_catalog s1)) f1 Hw Hv1)
    as (f' & Hv' & [Ho Hk] & Hd & Hok).
  intros Hfin. rewrite Hfin in *. cbn [fst snd sys_disk] in *. exists f'. rewrite Hd.
  split_and!; [done|intros k Hk'; by rewrite Ho, Ho1|eauto|]. destruct r as [status|]; [|done]. eauto.
Qed.

(** C32. Publication never shows a snapshot whose manifest could be lost. Run
    [publish_snapshot_manifest] from any state, with any calls of the file
    system or of the catalog failing: only the snapshot's own visibility record
    changes in the catalog; if the snapshot is ready afterwards, it was ready
    before or its manifest is durable; and success means both that it is ready
    and that, whatever a crash then leaves of the disk, the manifest at that
    path reads back as the one published. *)
Theorem ready_means_durable candidates path m s f r s' :
  manifest_wf m → holds_view (sys_catalog s) f →
  publish_snapshot_manifest candidates path m s = (r, s') →
  ∃ f', holds_view (sys_catalog s') f' ∧
    (∀ k, k ≠ snapshot_key m → f' k = f k) ∧
    (f' (snapshot_key m) = Some (VVisibility Ready) →
     f (snapshot_key m) = Some (VVisibility Ready) ∨ persisted (sys_disk s') path m) ∧
    (is_ok r = true →
     f' (snapshot_key m) = Some (VVisibility Ready) ∧
     ∀ d, crash (sys_disk s') d → d_faults d = [] → (read_snapshot_manifest path d).1 = Ok m).
Proof.
  intros Hw Hv Hp. destruct (publish_spec _ _ _ _ _ _ _ Hw Hv Hp) as (f' & Hv' & Ho & Hr & Hok).
  exists f'. split_and!; [done..|]. intros [Hk Hper]%Hok. split; [done|].
  intros d Hc Hf. by eapply persisted_crash.
Qed.
End Publication.

(** ** A run *)

Definition demo_manifest : SnapshotManifest :=
  mkSnapshotManifest sample_repo sample_snapshot Sha1 LocalBranchesAndTags
    [mkPersistedRef (b_ "refs/heads/main") Branch sample_alias_oid] (mkImportSummary 2 1 1 7) 9 (b_ "1.0") [].
Definition demo_path : Path := mkPath (b_ "snapshots") (b_ "1") None.
Definition demo_temporary : Path := mkPath (b_ "snapshots") (b_ "t") None.
Definition demo_sys : Sys InMemoryCatalog := mkSys (mkDisk [] ∅ [] []) InMemoryCatalog_default.
Definition demo_result := publish_snapshot_manifest [demo_temporary] demo_path demo_manifest demo_sys.

Lemma demo_manifest_wf : manifest_wf demo_manifest.
Proof.
  unfold manifest_wf, summary_wf, is_u64. cbn. split_and!; try lia; try done.
  apply Forall_singleton. by vm_compute.
Qed.

(** Publishing into an empty store succeeds. *)
Lemma ready_means_durable_witness :
  is_ok demo_result.1 = true ∧
  ∃ f', holds_view (sys_catalog demo_result.2) f' ∧
    f' (snapshot_key demo_manifest) = Some (VVisibility Ready) ∧
    ∀ d, crash (sys_disk demo_result.2) d → d_faults d = [] →
      (read_snapshot_manifest demo_path d).1 = Ok demo_manifest.
Proof.
  assert (is_ok demo_result.1 = true) as Hok by (vm_compute; reflexivity). split; [exact Hok|].
  destruct (ready_means_durable [demo_temporary] demo_path demo_manifest demo_sys (stored InMemoryCatalog_default)
    demo_result.1 demo_result.2 demo_manifest_wf) as (f' & Hv & _ & _ & Hr); [intros k; reflexivity|..].
  - unfold demo_result. by destruct (publish_snapshot_manifest _ _ _ _).
  - exists f'. split; [exact Hv|]. apply Hr, Hok.
Defined.

End PublicationSpec.
