(* ===== verification/Import.v ===== *)
(** * Importing a repository: [reflink-forest-import/src/lib.rs]

    The import of a repository's local refs: one snapshot of the refs, the walk
    from them, and one record per object through the chunk writer; and the
    manifest made from its result. *)

From Stdlib Require Import ZArith Lia Strings.Byte Strings.String.
From stdpp Require Import base tactics list gmap strings.
From S2P Require Import Prelude Core Format Codec CatalogCodec Catalog Chunk Disk Store Git Reader Snapshot.
Import Core Format Codec CatalogCodec Catalog Chunk Disk Store Git Reader Snapshot.

#[local] Open Scope Z_scope.

Module Import_.

Definition DEFAULT_IMPORT_CODEC : Format.Codec := Format.Zstd.

(** ** Backends *)

(** The trait. A walk that has not ended is [None]. *)
Class GitBackend (B : Type) := {
  hash_algorithm : B → HashAlgorithm;
  snapshot_local_refs : B → result GitBackendError RefSnapshot;
  resolve_revision : B → bytes → result GitBackendError GitOid;
  backend_reachable : B → list GitOid → option (result GitBackendError (list GitObject)) }.

(** The two implementations, with a bound on the walk. *)
Record LibGit2Backend := mkLibGit2Backend { lb_repository : LibGit2Repository; lb_fuel : nat }.
#[export] Instance LibGit2Backend_GitBackend : GitBackend LibGit2Backend := {|
  hash_algorithm b := @lg_object_format (lb_repository b);
  snapshot_local_refs b := @lib_snapshot_local_refs (lb_repository b);
  resolve_revision b := @lib_resolve_revision (lb_repository b);
  backend_reachable b := @lib_reachable_objects (lb_repository b) (lb_fuel b) |}.
Record SystemGitBackend := mkSystemGitBackend {
  sb_program : GitProgram; sb_algorithm : HashAlgorithm; sb_fuel : nat }.
#[export] Instance SystemGitBackend_GitBackend : GitBackend SystemGitBackend := {|
  hash_algorithm := sb_algorithm;
  snapshot_local_refs b := @sys_snapshot_local_refs (sb_program b) (sb_algorithm b);
  resolve_revision b := @sys_resolve_revision (sb_program b) (sb_algorithm b);
  backend_reachable b := @sys_reachable_objects (sb_program b) (sb_algorithm b) (sb_fuel b) |}.

(** ** Import *)

Record ImportResult := mkImportResult { ir_snapshot : RefSnapshot; ir_summary : ImportSummary }.
Inductive ImportError :=
| ImportGit (e : GitBackendError)
| ImportStore (e : StoreError)
| ImportCodec (e : CodecError)
| ImportLengthOverflow.

Definition ImportSummary_default : ImportSummary := mkImportSummary 0 0 0 0.
Definition count_seen (raw_length : Z) (s : ImportSummary) : result ImportError ImportSummary :=
  seen ← ok_or (checked_add (objects_seen s) 1) ImportLengthOverflow;
  raw_length ← ok_or (u64_try_from raw_length) ImportLengthOverflow;
  raw ← ok_or (checked_add (raw_bytes s) raw_length) ImportLengthOverflow;
  Ok (mkImportSummary seen (objects_written s) (objects_deduplicated s) raw).
Definition count_outcome (written : bool) (s : ImportSummary) : result ImportError ImportSummary :=
  if written then
    n ← ok_or (checked_add (objects_written s) 1) ImportLengthOverflow;
    Ok (mkImportSummary (objects_seen s) n (objects_deduplicated s) (raw_bytes s))
  else
    n ← ok_or (checked_add (objects_deduplicated s) 1) ImportLengthOverflow;
    Ok (mkImportSummary (objects_seen s) (objects_written s) n (raw_bytes s)).

Section Import.
Context `{Digests} `{Zstd} `{Catalog C} `{GitBackend B}.

Abbreviation ImportIO := (ST (ChunkWriter * Sys C) ImportError).

Definition object_record (codec : Format.Codec) (o : GitObject) : result ImportError ObjectRecord :=
  raw_length ← ok_or (u64_try_from (len (go_data o))) ImportLengthOverflow;
  payload ← map_err ImportCodec (encode_object_payload codec (go_data o));
  Ok (mkObjectRecord (go_kind o) codec 0 raw_length (ContentId_for_object (go_kind o) (go_data o))
        (go_oid o) payload).

Fixpoint import_objects (repo : RepoId) (generation chunk_id : Z) (codec : Format.Codec)
    (objects : list GitObject) (summary : ImportSummary) : ImportIO ImportSummary :=
  match objects with
  | [] => st_ret summary
  | object :: objects =>
      summary ⇐ st_lift (count_seen (len (go_data object)) summary);
      record ⇐ st_lift (object_record codec object);
      written ⇐ st_map_err ImportStore (append_and_index repo generation chunk_id record);
      summary ⇐ st_lift (count_outcome (bool_decide (is_Some written)) summary);
      import_objects repo generation chunk_id codec objects summary
  end.

Definition import_local_refs_with_codec (backend : B) (repo : RepoId) (generation chunk_id : Z)
    (codec : Format.Codec) (s : ChunkWriter * Sys C)
    : option (result ImportError ImportResult * (ChunkWriter * Sys C)) :=
  match snapshot_local_refs backend with
  | Err e => Some (Err (ImportGit e), s)
  | Ok snapshot =>
      match backend_reachable backend (roots snapshot) with
      | None => None
      | Some (Err e) => Some (Err (ImportGit e), s)
      | Some (Ok objects) =>
          Some ((summary ⇐ import_objects repo generation chunk_id codec objects ImportSummary_default;
                 st_ret (mkImportResult snapshot summary)) s)
      end
  end.

Definition import_local_refs (backend : B) (repo : RepoId) (generation chunk_id : Z) :=
  import_local_refs_with_codec backend repo generation chunk_id DEFAULT_IMPORT_CODEC.
End Import.

(** ** The manifest of an import *)

Definition from_import (repository : RepoId) (snapshot_id : SnapshotId) (r : ImportResult)
    (imported_unix_secs : Z) (tool_version : bytes) : SResult SnapshotManifest :=
  let m := mkSnapshotManifest repository snapshot_id (sn_algorithm (ir_snapshot r)) LocalBranchesAndTags
             (map (λ x, mkPersistedRef (sr_name x) (sr_kind x) (sr_target x)) (sn_refs (ir_snapshot r)))
             (ir_summary r) imported_unix_secs tool_version [] in
  _ ← validate m;
  Ok m.

End Import_.
