(* ===== verification/ImportSpec.v ===== *)
(** * What an import guarantees

    After a successful import, every Git object reached from the refs is bound
    to content that survives crashes and decodes to the object. The theorem is
    proved for any backend that keeps [BackendLaws]; both backends do. *)

From Stdlib Require Import ZArith Lia Strings.Byte Strings.String.
From stdpp Require Import base tactics list gmap strings relations.
From S2P Require Import Prelude Order Core Format FormatSpec RecordSpec Codec CatalogCodec CatalogCodecSpec Catalog CatalogSpec RocksSpec Chunk ChunkSpec RecoverySpec ReadSpec CatalogInterface Disk DiskSpec Store WriterSpec ReconcileSpec StoreSpec Git GitSpec Reader Snapshot SnapshotSpec Import.
Import Core Format FormatSpec RecordSpec Codec CatalogCodec CatalogCodecSpec Catalog CatalogSpec RocksSpec CatalogInterface Chunk ChunkSpec RecoverySpec ReadSpec SinkSpec Disk DiskSpec Store WriterSpec ReconcileSpec StoreSpec Git GitSpec Reader Snapshot SnapshotSpec Import_.

#[local] Open Scope Z_scope.

Module ImportSpec.

(** ** Object IDs in references *)

Lemma parse_hex_wf a b o : parse_hex_oid a b = Ok o → GitOid_wf o.
Proof.
  intros Hp. unfold parse_hex_oid in Hp. apply bind_Ok_inv in Hp as (? & _ & Hp).
  apply bind_Ok_inv in Hp as (? & _ & Hp). destruct (GitOid_new a _) as [o'|] eqn:Hn; [|done].
  injection Hp as <-. by apply GitOid_new_wf in Hn as [? _].
Qed.
Lemma single_header_wf o key twice ls found oid :
  (∀ x, found = Some x → GitOid_wf x) → single_header o key twice ls found = Ok (Some oid) → GitOid_wf oid.
Proof.
  revert found. induction ls as [|l ls IH]; intros found Hf Hs; cbn [single_header] in Hs; [injection Hs as ->; auto|].
  destruct (strip_prefix key l); [|by apply (IH found)]. destruct found; [done|].
  apply bind_Ok_inv in Hs as (x & Hx%parse_hex_wf & Hs). by apply (IH (Some x)); [intros ? [= <-]|].
Qed.
Lemma parent_headers_wf a ls ps : parent_headers a ls = Ok ps → Forall GitOid_wf ps.
Proof.
  revert ps. induction ls as [|l ls IH]; intros ps Hp; cbn [parent_headers] in Hp; [by injection Hp as <-|].
  destruct (strip_prefix _ l); [|by apply IH]. apply bind_Ok_inv in Hp as (x & Hx%parse_hex_wf & Hp).
  apply bind_Ok_inv in Hp as (xs & Hxs%IH & Hp). injection Hp as <-. by constructor.
Qed.
Lemma referenced_wf o children : referenced_oids o = Ok children → Forall GitOid_wf children.
Proof.
  unfold referenced_oids. destruct (go_kind o); intros Hr.
  - apply bind_Ok_inv in Hr as (ps & Hps%parent_headers_wf & Hr).
    apply bind_Ok_inv in Hr as (t & Ht & Hr). injection Hr as <-. constructor; [|done].
    apply bind_Ok_inv in Ht as (? & _ & Ht). apply bind_Ok_inv in Ht as (t' & Ht & Hok%ok_or_Ok_inv).
    subst t'. eapply single_header_wf; [|exact Ht]. done.
  - apply bind_Ok_inv in Hr as (es & Hes & Hr). injection Hr as <-.
    apply bind_Ok_inv in Hes as (? & _ & Hes). apply tree_entries_inv in Hes as (texts & Hall & _); [|done].
    apply Forall_map. clear -Hall. induction Hall as [|t e ts es He _ IH]; constructor; [|done]. by destruct He as (_ & _ & _ & _ & ? & _).
  - by injection Hr as <-.
  - apply bind_Ok_inv in Hr as (t' & Ht & Hr). apply bind_Ok_inv in Hr as (t & Hok%ok_or_Ok_inv & Hr).
    injection Hr as <-. subst t'. constructor; [|done]. eapply single_header_wf; [|exact Ht]. done.
Qed.
Lemma reached_wf read rs oid : Forall GitOid_wf rs → reached read rs oid → GitOid_wf oid.
Proof.
  intros Hrs. induction 1 as [oid Ho|oid cs c _ _ (o & _ & Href) Hc].
  - by eapply Forall_forall in Hrs.
  - apply referenced_wf in Href. by eapply Forall_forall in Href.
Qed.

(** ** The contract of a backend *)

Class BackendLaws (B : Type) `{GitBackend B} := {
  read_object : B → GitOid → result GitBackendError GitObject;
  (** The refs name well-formed objects. *)
  snapshot_targets b sn : snapshot_local_refs b = Ok sn → Forall GitOid_wf (roots sn);
  (** An object carries the ID it was read by. *)
  read_named b oid o : read_object b oid = Ok o → go_oid o = oid;
  (** A finished walk returns the objects reached, and no others. *)
  walk_complete b rs objs : backend_reachable b rs = Some (Ok objs) →
    ∀ oid, reached (read_object b) rs oid ↔ ∃ o, o ∈ objs ∧ read_object b oid = Ok o;
  walk_readable b rs objs o : backend_reachable b rs = Some (Ok objs) → o ∈ objs →
    read_object b (go_oid o) = Ok o;
  (** The references of every object were followed. *)
  walk_followed b rs objs o : backend_reachable b rs = Some (Ok objs) → o ∈ objs →
    ∃ children, referenced_oids o = Ok children }.

(** A walk over objects that carry their IDs. *)
Section Walks.
Context (algo : HashAlgorithm) (read : GitOid → result GitBackendError GitObject).
Hypothesis named : ∀ oid o, read oid = Ok o → go_oid o = oid.

Lemma named_walk fuel rs objs : reachable_objects algo read fuel rs = Some (Ok objs) →
  ∀ oid, reached read rs oid ↔ ∃ o, o ∈ objs ∧ read oid = Ok o.
Proof.
  intros Hr. assert (∀ oid oid' o, read oid = Ok o → read oid' = Ok o → oid = oid') as Hinj.
  { intros oid oid' o Ha Hb. by rewrite <-(named _ _ Ha), <-(named _ _ Hb). }
  destruct (reachable_objects_walk algo read Hinj _ _ _ Hr) as [seen Hw].
  intros oid. rewrite <-(walk_found _ _ _ _ _ Hw). split; [by eapply walk_done|].
  intros Hs. apply (walk_reached _ _ _ _ _ Hw). by left.
Qed.
(** [o] can be read by its ID, and its references parse. *)
Definition followed (o : GitObject) : Prop := read (go_oid o) = Ok o ∧ ∃ children, referenced_oids o = Ok children.
Lemma loop_followed fuel pending seen found objs :
  reachable_loop read fuel pending seen found = Some (Ok objs) → Forall followed found → Forall followed objs.
Proof.
  revert pending seen found. induction fuel as [|fuel IH]; intros pending seen found Hl Hf; [done|].
  destruct pending as [|oid pending]; [by injection Hl as <-|]. rewrite loop_step in Hl.
  case_decide; [by apply IH in Hl|]. destruct (read oid) as [o|] eqn:Ho; [|done]. rewrite bind_Ok in Hl.
  destruct (referenced_oids o) as [cs|] eqn:Hcs; [|done]. rewrite bind_Ok in Hl. apply IH in Hl; [done|].
  apply Forall_app. split; [done|]. apply Forall_singleton. split; [by rewrite (named _ _ Ho)|eauto].
Qed.
Lemma followed_walk fuel rs objs o :
  reachable_objects algo read fuel rs = Some (Ok objs) → o ∈ objs → followed o.
Proof.
  unfold reachable_objects. destruct (queue_roots algo rs []); [|done].
  intros Hl Ho. apply loop_followed in Hl; [|done]. by eapply Forall_forall in Hl.
Qed.
End Walks.

Lemma lib_refs_wf `{LibGit2Repository} refs sn : lib_refs refs = Ok sn → Forall GitOid_wf (map sr_target sn).
Proof.
  revert sn. induction refs as [|r refs IH]; intros sn Hl; cbn [lib_refs] in Hl; [by injection Hl as <-|].
  apply bind_Ok_inv in Hl as (ref & _ & Hl). destruct (local_ref_kind _); [|by apply IH].
  apply bind_Ok_inv in Hl as (t & _ & Hl). apply bind_Ok_inv in Hl as (oid & Hoid & Hl).
  apply bind_Ok_inv in Hl as (? & _ & Hl). apply bind_Ok_inv in Hl as (sn' & Hsn & Hl).
  injection Hl as <-. constructor; [|by apply IH]. cbn. unfold git_oid_from_libgit2 in Hoid.
  destruct (GitOid_new _ _) as [o|] eqn:Ho; [|done]. injection Hoid as <-.
  by apply GitOid_new_wf in Ho as [? _].
Qed.
#[export] Program Instance LibGit2_laws : BackendLaws LibGit2Backend :=
  {| read_object b := @lib_read_object (lb_repository b) |}.
Next Obligation.
  intros b sn Hs. cbn in Hs. unfold lib_snapshot_local_refs in Hs.
  apply bind_Ok_inv in Hs as (refs & _ & Hs). apply bind_Ok_inv in Hs as (l & Hl%lib_refs_wf & Hs).
  injection Hs as <-. unfold roots. cbn [sn_refs]. by rewrite sort_by_perm.
Qed.
Next Obligation.
  intros b oid o Hr. unfold lib_read_object in Hr. repeat (apply bind_Ok_inv in Hr as (? & _ & Hr)).
  by injection Hr as <-.
Qed.
Next Obligation. intros b rs objs Hr. eapply named_walk, Hr. apply LibGit2_laws_obligation_2. Qed.
Next Obligation. intros b rs objs o Hr Ho. eapply followed_walk; [|exact Hr|exact Ho]. apply LibGit2_laws_obligation_2. Qed.
Next Obligation. intros b rs objs o Hr Ho. eapply followed_walk; [|exact Hr|exact Ho]. apply LibGit2_laws_obligation_2. Qed.

Lemma parse_ref_records_wf a records sn :
  parse_ref_records a records = Ok sn → Forall GitOid_wf (map sr_target sn).
Proof.
  revert sn. induction records as [|r records IH]; intros sn Hl; cbn in Hl; [by injection Hl as <-|].
  case_decide; [by apply IH|]. apply bind_Ok_inv in Hl as (ref & Href & Hl).
  apply bind_Ok_inv in Hl as (sn' & Hsn & Hl). injection Hl as <-. constructor; [|by apply IH].
  unfold parse_ref_record in Href. repeat (case_match; try done);
    apply bind_Ok_inv in Href as (k & _ & Href); apply bind_Ok_inv in Href as (t & Ht%parse_hex_wf & Href);
    by injection Href as <-.
Qed.
#[export] Program Instance SystemGit_laws : BackendLaws SystemGitBackend :=
  {| read_object b := @sys_read_object (sb_program b) (sb_algorithm b) |}.
Next Obligation.
  intros b sn Hs. cbn in Hs. unfold sys_snapshot_local_refs in Hs.
  apply bind_Ok_inv in Hs as (out & _ & Hs). apply bind_Ok_inv in Hs as (l & Hl%parse_ref_records_wf & Hs).
  by injection Hs as <-.
Qed.
Next Obligation.
  intros b oid o Hr. unfold sys_read_object in Hr. repeat (apply bind_Ok_inv in Hr as (? & _ & Hr)).
  by injection Hr as <-.
Qed.
Next Obligation. intros b rs objs Hr. eapply named_walk, Hr. apply SystemGit_laws_obligation_2. Qed.
Next Obligation. intros b rs objs o Hr Ho. eapply followed_walk; [|exact Hr|exact Ho]. apply SystemGit_laws_obligation_2. Qed.
Next Obligation. intros b rs objs o Hr Ho. eapply followed_walk; [|exact Hr|exact Ho]. apply SystemGit_laws_obligation_2. Qed.

Lemma verified_decodes `{Digests} `{Zstd} r : verified r → ∃ raw, decode_object_payload r = Ok raw.
Proof.
  unfold verified, verify_object_record, decode_object_payload. intros Hv.
  rewrite (decode_alike _ _ _ _ _ _ ([] : bytes)) in Hv.
  destruct (decode_object_payload_to_writer _ _ _ _ _ _) as [[u|e] raw]; [by exists raw|done].
Qed.

(** ** The import *)

Section Import.
Context `{Digests} `{Zstd} `{CatalogLaws C} `{BackendLaws B}.
Implicit Types (s : Sys C) (f : View) (home : ContentId → nat).

Definition object_id (o : GitObject) : ContentId := ContentId_for_object (go_kind o) (go_data o).

(** The catalog binds the object's ID to its content, and locates that content. *)
Definition bound (repo : RepoId) f (o : GitObject) : Prop :=
  f (KAlias repo (go_oid o)) = Some (VContent (object_id o)) ∧ ∃ l, f (KObject (object_id o)) = Some (VLocation l).

(** Within the recovery ceiling. *)
Definition importable (codec : Format.Codec) (o : GitObject) : Prop :=
  ∀ r, object_record codec o = Ok r → size r ≤ MAX_RECOVERY_RECORD_BYTES.

Lemma object_record_Ok codec o r : object_record codec o = Ok r → GitOid_wf (go_oid o) →
  record_wf r ∧ or_content_id r = object_id o ∧ or_primary_oid r = go_oid o.
Proof.
  unfold object_record. intros Hr Ho. apply bind_Ok_inv in Hr as (n & Hn%ok_or_Ok_inv & Hr).
  apply bind_Ok_inv in Hr as (p & _ & Hr). injection Hr as <-. cbn. split; [|done].
  unfold u64_try_from in Hn. case_decide; [|done]. injection Hn as <-.
  pose proof (Nat2Z.is_nonneg (length (go_data o))).
  split; [|split; [|split; [apply ContentId_for_object_wf|done]]]; unfold in_width, u64_max, Format.len in *; cbn; lia.
Qed.

(** Binding another object keeps an object bound. *)
Lemma bound_step repo f f' o o' :
  (go_oid o = go_oid o' → o = o') → bound repo f o → bound repo f' o' →
  (∀ r a, (r, a) ≠ (repo, go_oid o') → f' (KAlias r a) = f (KAlias r a)) →
  (∀ id l, f (KObject id) = Some (VLocation l) → ∃ l', f' (KObject id) = Some (VLocation l')) →
  bound repo f' o.
Proof.
  intros Heq [Ha (l & Hl)] Hb' Hal Hob. destruct (decide (go_oid o = go_oid o')) as [Hoid|Hne].
  - by rewrite (Heq Hoid).
  - split; [|by eapply Hob]. rewrite Hal; [done|]. by intros [= ?].
Qed.

Lemma import_step f home w rs s repo g c codec o r written w' s' :
  inv f home s → writer_ok f home w rs s → GitOid_wf (go_oid o) → importable codec o → RepoId_wf repo →
  object_record codec o = Ok r → append_and_index repo g c r (w, s) = (written, (w', s')) →
  ∃ f' home' rs', inv f' home' s' ∧ writer_ok f' home' w' rs' s' ∧
    (is_ok written = true → bound repo f' o ∧
     (∀ r a, (r, a) ≠ (repo, go_oid o) → f' (KAlias r a) = f (KAlias r a)) ∧
     (∀ id l, f (KObject id) = Some (VLocation l) → ∃ l', f' (KObject id) = Some (VLocation l'))).
Proof.
  intros Hinv Hw Ho Him Hrepo Hrec Happ. destruct (object_record_Ok _ _ _ Hrec Ho) as (Hr & Hid & Hoid).
  pose proof (append_and_index_spec f home w rs s r repo g c Hinv Hw Hr (Him _ Hrec) Hrepo) as Hspec.
  rewrite Happ in Hspec. destruct Hspec as (f' & home' & rs' & Hinv' & Hw' & Hres).
  exists f', home', rs'. split_and!; [done..|]. intros Hok. destruct written as [[loc|]|e]; [| |done].
  - destruct Hres as (_ & _ & _ & _ & _ & _ & Hf & _).
    assert (∀ id, f' (KObject id) = if decide (id = object_id o) then Some (VLocation (indexed_at w rs r)) else f (KObject id)) as Hobj.
    { intros id. rewrite (Hf _), <-Hid. apply batch_effect_index. }
    assert (∀ x a, f' (KAlias x a) = if decide ((x, a) = (repo, go_oid o)) then Some (VContent (object_id o)) else f (KAlias x a)) as Hali.
    { intros x a. rewrite (Hf _), <-Hid, <-Hoid. unfold batch_effect, index_ops, write_effect. cbn.
      repeat case_decide; naive_solver. }
    split_and!.
    + split; [by rewrite Hali, decide_True|]. eexists. by rewrite Hobj, decide_True.
    + intros x a Hne. by rewrite Hali, decide_False.
    + intros id l Hl. rewrite Hobj. case_decide; eauto.
  - destruct Hres as (_ & _ & [l Hl] & Hf).
    pose proof (view_location _ _ _ _ (inv_view _ _ _ Hinv) (proj1 (proj2 (proj2 Hr))) Hl) as Hfl.
    assert (∀ id, f' (KObject id) = f (KObject id)) as Hobj by (intros id; by rewrite (Hf _)).
    assert (∀ x a, f' (KAlias x a) = if decide ((x, a) = (repo, go_oid o)) then Some (VContent (object_id o)) else f (KAlias x a)) as Hali.
    { intros x a. rewrite (Hf _), <-Hid, <-Hoid. unfold batch_effect, write_effect. cbn.
      repeat case_decide; naive_solver. }
    split_and!.
    + split; [by rewrite Hali, decide_True|]. exists l. by rewrite Hobj, <-Hid.
    + intros x a Hne. by rewrite Hali, decide_False.
    + intros id l' Hl'. rewrite Hobj. eauto.
Qed.

(** The counters agree with the number of objects handled. *)
Definition counted (n : Z) (a b : ImportSummary) : Prop :=
  objects_seen b = objects_seen a + n ∧
  objects_written b + objects_deduplicated b = objects_written a + objects_deduplicated a + n.

Lemma count_step n written a a1 b :
  count_seen n a = Ok a1 → count_outcome written a1 = Ok b → counted 1 a b.
Proof.
  unfold count_seen, count_outcome, counted. intros Ha Hb.
  apply bind_Ok_inv in Ha as (x & Hx%ok_or_Ok_inv & Ha). apply bind_Ok_inv in Ha as (? & _ & Ha).
  apply bind_Ok_inv in Ha as (? & _ & Ha). injection Ha as <-. cbn in Hb.
  apply checked_add_inv in Hx as [-> _].
  destruct written; apply bind_Ok_inv in Hb as (y & Hy%ok_or_Ok_inv & Hb); injection Hb as <-;
    apply checked_add_inv in Hy as [-> _]; cbn; lia.
Qed.

Lemma import_objects_spec repo g c codec objs f home w rs s done_ a res w' s' :
  inv f home s → writer_ok f home w rs s → RepoId_wf repo →
  Forall (λ o, GitOid_wf (go_oid o) ∧ importable codec o) objs →
  (∀ o o', o ∈ done_ ++ objs → o' ∈ done_ ++ objs → go_oid o = go_oid o' → o = o') →
  Forall (bound repo f) done_ →
  import_objects repo g c codec objs a (w, s) = (res, (w', s')) →
  ∃ f' home' rs', inv f' home' s' ∧ writer_ok f' home' w' rs' s' ∧
    ∀ b, res = Ok b → Forall (bound repo f') (done_ ++ objs) ∧ counted (Z.of_nat (length objs)) a b.
Proof.
  intros Hinv Hw Hrepo Hall. revert f home w rs s done_ a Hinv Hw.
  induction Hall as [|o objs [Ho Him] _ IH]; intros f home w rs s done_ a Hinv Hw Hinj Hdone Himp.
  { injection Himp as <- <- <-. exists f, home, rs. split_and!; [done..|]. intros b [= <-].
    rewrite app_nil_r. unfold counted. cbn. split; [done|lia]. }
  cbn [import_objects] in Himp. unfold st_bind at 1, st_lift at 1 in Himp.
  destruct (count_seen _ a) as [a1|e] eqn:Hseen.
  2: { injection Himp as <- <- <-. by exists f, home, rs. }
  unfold st_bind at 1, st_lift at 1 in Himp.
  destruct (object_record codec o) as [r|e] eqn:Hrec.
  2: { injection Himp as <- <- <-. by exists f, home, rs. }
  unfold st_bind at 1, st_map_err in Himp.
  destruct (append_and_index repo g c r (w, s)) as [written [w1 s1]] eqn:Happ.
  destruct (import_step f home w rs s repo g c codec o r written w1 s1) as
    (f1 & home1 & rs1 & Hinv1 & Hw1 & Hok); try done.
  destruct written as [written|e]; cbn [map_err] in Himp.
  2: { injection Himp as <- <- <-. exists f1, home1, rs1. by split_and!. }
  destruct (Hok eq_refl) as (Hb & Hal & Hob).
  unfold st_bind at 1, st_lift at 1 in Himp. destruct (count_outcome _ a1) as [a2|e] eqn:Hout.
  2: { injection Himp as <- <- <-. exists f1, home1, rs1. by split_and!. }
  destruct (IH f1 home1 w1 rs1 s1 (done_ ++ [o]) a2) as (f' & home' & rs' & Hinv' & Hw' & Hres); try done.
  - rewrite <-app_assoc. done.
  - apply Forall_app. split; [|by apply Forall_singleton]. apply Forall_forall. intros o' Ho'.
    eapply Forall_forall in Hdone; [|exact Ho']. apply (bound_step repo f f1 o' o); try done.
    intros Heq. apply Hinj; [apply elem_of_app; by left|apply elem_of_app; right; by left|done].
  - exists f', home', rs'. split_and!; [done..|]. intros b Hb'. apply Hres in Hb' as [Hall' [Hc1 Hc2]].
    rewrite <-app_assoc in Hall'. split; [done|].
    destruct (count_step _ _ _ _ _ Hseen Hout) as [? ?]. unfold counted. cbn [length]. lia.
Qed.

(** An object that is bound can be recovered after a crash: what is read at its
    location decodes to it, or exhibits a SHA-256 collision. *)
Definition collision (a b : bytes) : Prop := a ≠ b ∧ sha256 a = sha256 b.
Definition recoverable (d : Disk) (l : ObjectLocation) (o : GitObject) : Prop :=
  ∀ d', crash d d' → ∃ p n r raw, d_names d' !! p = Some n ∧ read_record_at (data d' n) l = Ok r ∧
    decode_object_payload r = Ok raw ∧
    ((or_kind r = go_kind o ∧ raw = go_data o) ∨
     collision (content_preimage (or_kind r) raw) (content_preimage (go_kind o) (go_data o))).

Lemma bound_recoverable f home s repo o :
  inv f home s → bound repo f o →
  ∃ l, f (KObject (object_id o)) = Some (VLocation l) ∧ recoverable (sys_disk s) l o.
Proof.
  intros Hinv [_ (l & Hl)]. exists l. split; [done|]. intros d' Hc.
  destruct (located_survives _ _ _ _ _ _ Hinv Hl Hc) as (p & n & r & Hp & Hid & Hr & [Hv Hwf] & _).
  destruct (verified_decodes r Hv) as [raw Hraw]. exists p, n, r, raw. split_and!; [done..|].
  apply decode_object_payload_Ok in Hraw as [_ Hcid]; [|apply Hwf]. rewrite Hid in Hcid.
  destruct (decide (content_preimage (or_kind r) raw = content_preimage (go_kind o) (go_data o))) as [He|Hne].
  - left. by apply content_preimage_inj.
  - right. split; [done|]. by injection Hcid.
Qed.

Lemma import_run s0 s w backend repo g c codec result_ w' s' :
  initial s0 → rtc store_step (s0, None) (s, Some w) → RepoId_wf repo →
  (∀ oid o, read_object backend oid = Ok o → importable codec o) →
  import_local_refs_with_codec backend repo g c codec (w, s) = Some (Ok result_, (w', s')) →
  (∃ f, holds_view (sys_catalog s') f ∧
    ∀ oid, reached (read_object backend) (roots (ir_snapshot result_)) oid →
      ∃ o l, read_object backend oid = Ok o ∧ f (KAlias repo oid) = Some (VContent (object_id o)) ∧
        f (KObject (object_id o)) = Some (VLocation l) ∧ recoverable (sys_disk s') l o) ∧
  objects_written (ir_summary result_) + objects_deduplicated (ir_summary result_) =
    objects_seen (ir_summary result_).
Proof.
  intros Hinit Hreach Hrepo Hsize Himp. destruct (reachable_good _ _ Hinit Hreach) as (f & home & Hinv & Hw).
  destruct (Hw w eq_refl) as [rs Hrs]. unfold import_local_refs_with_codec in Himp.
  destruct (snapshot_local_refs backend) as [sn|e] eqn:Hsn; [|done].
  destruct (backend_reachable backend (roots sn)) as [[objs|e]|] eqn:Hobjs; [|done..].
  injection Himp as Himp. unfold st_bind, st_ret in Himp.
  destruct (import_objects _ _ _ _ _ _ _) as [r [w1 s1]] eqn:Hio.
  pose proof (walk_complete _ _ _ Hobjs) as Hwalk.
  assert (∀ o, o ∈ objs → read_object backend (go_oid o) = Ok o) as Hread by (intros o; by eapply walk_readable).
  destruct (import_objects_spec repo g c codec objs f home w rs s [] ImportSummary_default r w1 s1)
    as (f' & home' & rs' & Hinv' & _ & Hres); try done.
  - apply Forall_forall. intros o Ho. split; [|by eapply Hsize, Hread].
    eapply reached_wf; [by eapply snapshot_targets|]. apply Hwalk. exists o. auto.
  - intros o o' Ho Ho' Heq. apply Hread in Ho, Ho'. congruence.
  - destruct r as [b|e]; [|done]. injection Himp as <- <- <-. destruct (Hres b eq_refl) as [Hb [Hc1 Hc2]].
    cbn in Hc1, Hc2 |- *. split; [|lia]. exists f'. split; [apply Hinv'|]. intros oid Hr.
    apply Hwalk in Hr as (o & Ho & Hread'). eapply Forall_forall in Hb; [|exact Ho].
    destruct (bound_recoverable _ _ _ _ _ Hinv' Hb) as (l & Hl & Hrec). exists o, l.
    destruct Hb as [Ha _]. rewrite (read_named _ _ _ Hread') in Ha. done.
Qed.
Lemma import_binds s0 s w backend repo g c codec result_ w' s' :
  initial s0 → rtc store_step (s0, None) (s, Some w) → RepoId_wf repo →
  (∀ oid o, read_object backend oid = Ok o → importable codec o) →
  import_local_refs_with_codec backend repo g c codec (w, s) = Some (Ok result_, (w', s')) →
  ∃ f, holds_view (sys_catalog s') f ∧
    ∀ oid, reached (read_object backend) (roots (ir_snapshot result_)) oid →
      ∃ o, read_object backend oid = Ok o ∧ f (KAlias repo oid) = Some (VContent (object_id o)).
Proof.
  intros Hi Hr Hw Hs Himp. destruct (import_run _ _ _ _ _ _ _ _ _ _ _ Hi Hr Hw Hs Himp) as [(f & Hv & Hf) _].
  exists f. split; [done|]. intros oid (o & l & Ho & Ha & _)%Hf. by exists o.
Qed.


End Import.

(** ** Importing a repository of three objects *)

Section Demo.
#[local] Existing Instance toy_digests.
#[local] Existing Instance toy_zstd.

Definition demo_backend : LibGit2Backend := mkLibGit2Backend demo_repository 5.
Definition demo_import :=
  import_local_refs_with_codec demo_backend demo_repo 1 2 Raw (demo_writer, demo_created []).

Lemma demo_importable oid o : read_object demo_backend oid = Ok o → importable Raw o.
Proof.
  intros Hr r Hrec. assert (Format.len (go_data o) ≤ 200) as Hlen.
  { cbn in Hr. unfold lib_read_object in Hr. apply bind_Ok_inv in Hr as (u0 & _ & Hr).
    apply bind_Ok_inv in Hr as (odb & Hodb & Hr). injection Hodb as <-.
    apply bind_Ok_inv in Hr as (native & _ & Hr). apply bind_Ok_inv in Hr as (x & Hx%ok_or_Ok_inv & Hr). apply bind_Ok_inv in Hr as (? & _ & Hr).
    apply bind_Ok_inv in Hr as (? & _ & Hr). apply bind_Ok_inv in Hr as (k & _ & Hr). injection Hr as <-.
    cbn. destruct (lo_bytes native) as [|[] ?]; try done; injection Hx as <-; vm_compute; done. }
  assert (or_payload r = go_data o) as Hp.
  { unfold object_record in Hrec. apply bind_Ok_inv in Hrec as (? & _ & Hrec).
    cbn in Hrec. by injection Hrec as <-. }
  pose proof (size_bounds r). rewrite Hp in *. unfold MAX_RECOVERY_RECORD_BYTES. lia.
Qed.

End Demo.

End ImportSpec.
