(* ===== verification/Mark.v ===== *)
(** * Marking the live objects: [reflink-forest-maintenance/src/lib.rs]

    The walk that derives, from the ready snapshots and the retained
    references, the locations of every object the next generation must hold.
    Module [MarkSpec] proves that the walk ends and what its result contains. *)

From Stdlib Require Import ZArith Lia Strings.Byte Strings.String.
From stdpp Require Import base tactics list gmap strings sorting.
From S2P Require Import Prelude Order Core Format Codec CatalogCodec Catalog CatalogSpec Chunk CatalogInterface Disk Store Git GitSpec Reader Snapshot.
Import Core Format Codec CatalogCodec Catalog Chunk Disk Store Git Reader Snapshot.

#[local] Open Scope Z_scope.

Module Mark.

(** ** Interfaces *)

(** A reader of source records; [R] is its state. *)
Class CompactionReader (R : Type) :=
  read_verified : ContentId → ObjectLocation → ST R string ObjectRecord.
(** [SnapshotManifestSource]. *)
Class SnapshotManifestSource (M : Type) :=
  load_snapshot_manifest : M → RepoId → SnapshotId → result string SnapshotManifest.
(** The implementation for functions. *)
#[export] Instance function_source :
  SnapshotManifestSource (RepoId → SnapshotId → result string SnapshotManifest) := λ m, m.

Record RetainedObjectRef := mkRetained { ro_repository : RepoId; ro_oid : GitOid }.
#[export] Instance RetainedObjectRef_eq_dec : EqDecision RetainedObjectRef.
Proof. solve_decision. Defined.
#[export] Instance RetainedObjectRef_countable : Countable RetainedObjectRef.
Proof.
  refine (inj_countable' (λ r, (ro_repository r, ro_oid r)) (λ '(r, o), mkRetained r o) _).
  by intros [].
Defined.

Record MarkLimits := mkMarkLimits {
  max_snapshot_roots : Z; max_object_references : Z; max_objects : Z }.
Definition MarkLimits_default : MarkLimits := mkMarkLimits 4096 (16 * 1024 * 1024) (8 * 1024 * 1024).

Inductive MarkError :=
| MarkCatalog (e : CatalogError)
| NoCurrentGeneration
| TooManySnapshotRoots (limit : Z)
| TooManyObjectReferences (limit : Z)
| TooManyObjects (limit : Z)
| MarkManifest (reason : string)
| MarkManifestInvalid (e : SnapshotManifestError)
| ManifestIdentity (repository : RepoId) (snapshot : SnapshotId)
| MissingAlias (repository : RepoId) (oid : GitOid)
| MissingLocation (id : ContentId)
| LocationOutsideCurrentGeneration (id : ContentId) (expected actual : Z)
| MarkRead (reason : string)
| MarkReadCodec (e : CodecError)
| MarkRawLengthMismatch (id : ContentId) (expected actual : Z)
| RecordContentIdMismatch (expected actual : ContentId)
| PayloadContentIdMismatch (id : ContentId)
| NativeOidMismatch (expected : GitOid)
| InvalidGitObject (e : GitBackendError).

Definition mark_codec_error (id : ContentId) (e : CodecError) : MarkError :=
  match e with
  | RawLengthMismatch expected actual => MarkRawLengthMismatch id expected actual
  | ContentMismatch _ _ => PayloadContentIdMismatch id
  | other => MarkReadCodec other
  end.

(** ** The walk's state *)

Record MarkWalk := mkMarkWalk {
  mw_limits : MarkLimits; mw_references_queued : Z; mw_pending : list RetainedObjectRef;
  mw_visited : gset RetainedObjectRef; mw_locations : gmap ContentId ObjectLocation }.
Definition MarkWalk_new (limits : MarkLimits) : MarkWalk := mkMarkWalk limits 0 [] ∅ ∅.

Definition queue (r : RetainedObjectRef) (w : MarkWalk) : result MarkError MarkWalk :=
  let limit := max_object_references (mw_limits w) in
  queued ← ok_or (checked_add (mw_references_queued w) 1) (TooManyObjectReferences limit);
  _ ← ensure (bool_decide (queued ≤ limit)) (TooManyObjectReferences limit);
  Ok (mkMarkWalk (mw_limits w) queued (mw_pending w ++ [r]) (mw_visited w) (mw_locations w)).
(** A loop that queues references of one repository. *)
Fixpoint queue_all (repo : RepoId) (oids : list GitOid) (w : MarkWalk) : result MarkError MarkWalk :=
  match oids with
  | [] => Ok w
  | oid :: oids => w ← queue (mkRetained repo oid) w; queue_all repo oids w
  end.

Definition insert_location (id : ContentId) (l : ObjectLocation) (w : MarkWalk)
    : result MarkError (bool * MarkWalk) :=
  if decide (is_Some (mw_locations w !! id)) then Ok (false, w)
  else
    _ ← ensure (bool_decide (Z.of_nat (size (mw_locations w)) < max_objects (mw_limits w)))
               (TooManyObjects (max_objects (mw_limits w)));
    Ok (true, mkMarkWalk (mw_limits w) (mw_references_queued w) (mw_pending w) (mw_visited w)
                (<[id := l]> (mw_locations w))).

Definition into_sorted_locations (w : MarkWalk) : list (ContentId * ObjectLocation) :=
  sort_by (cmp_on (λ p, cid_bytes p.1) bytes_compare) (map_to_list (mw_locations w)).

(** ** Roots *)

Section Mark.
Context `{Digests} `{Zstd} `{Catalog C} `{SnapshotManifestSource M} `{CompactionReader R}.

Fixpoint queue_snapshots (manifests : M) (limits : MarkLimits) (roots : list GcRoot) (snapshot_roots : Z)
    (w : MarkWalk) : result MarkError MarkWalk :=
  match roots with
  | [] => Ok w
  | GcRepositorySnapshot repository snapshot :: roots =>
      let limit := max_snapshot_roots limits in
      n ← ok_or (checked_add snapshot_roots 1) (TooManySnapshotRoots limit);
      _ ← ensure (bool_decide (n ≤ limit)) (TooManySnapshotRoots limit);
      manifest ← map_err MarkManifest (load_snapshot_manifest manifests repository snapshot);
      _ ← map_err MarkManifestInvalid (validate manifest);
      _ ← ensure (bool_decide (sm_repository manifest = repository ∧ sm_snapshot_id manifest = snapshot))
                 (ManifestIdentity repository snapshot);
      w ← queue_all repository (map pr_target (sm_refs manifest)) w;
      queue_snapshots manifests limits roots n w
  | _ :: roots => queue_snapshots manifests limits roots snapshot_roots w
  end.

(** The order of retained roots: repository, algorithm, object ID. *)
Definition retained_cmp (a b : RetainedObjectRef) : comparison :=
  match bytes_compare (repo_bytes (ro_repository a)) (repo_bytes (ro_repository b)) with
  | Eq => match Z.compare (alg_tag (algorithm (ro_oid a))) (alg_tag (algorithm (ro_oid b))) with
          | Eq => bytes_compare (oid_as_bytes (ro_oid a)) (oid_as_bytes (ro_oid b))
          | c => c
          end
  | c => c
  end.
Definition collect_retained (limits : MarkLimits) (retained : list RetainedObjectRef)
    : result MarkError (list RetainedObjectRef) :=
  _ ← ensure (bool_decide (Z.of_nat (length retained) ≤ max_object_references limits))
             (TooManyObjectReferences (max_object_references limits));
  Ok (sort_by retained_cmp retained).
Fixpoint queue_retained (retained : list RetainedObjectRef) (w : MarkWalk) : result MarkError MarkWalk :=
  match retained with
  | [] => Ok w
  | r :: retained => w ← queue r w; queue_retained retained w
  end.

(** ** The loop *)

(** What is read and checked of one reference. *)
Definition read_reference (c : C) (current : Z) (reference : RetainedObjectRef)
    : ST R MarkError (ContentId * ObjectLocation * ObjectRecord * bytes) :=
  content_id ⇐ st_lift (ok_or (oid_alias c (ro_repository reference) (ro_oid reference))
                         (MissingAlias (ro_repository reference) (ro_oid reference)));
  location ⇐ st_lift (ok_or (object_location c content_id) (MissingLocation content_id));
  _ ⇐ st_lift (ensure (bool_decide (ol_generation location = current))
                 (LocationOutsideCurrentGeneration content_id current (ol_generation location)));
  record ⇐ st_map_err MarkRead (read_verified content_id location);
  _ ⇐ st_lift (ensure (bool_decide (or_content_id record = content_id))
                 (RecordContentIdMismatch content_id (or_content_id record)));
  raw_payload ⇐ st_lift (map_err (mark_codec_error content_id) (decode_object_payload record));
  _ ⇐ st_lift (ensure (bool_decide (ok (GitOid_for_object (algorithm (ro_oid reference)) (or_kind record) raw_payload)
                                     = Some (ro_oid reference)))
                 (NativeOidMismatch (ro_oid reference)));
  st_ret (content_id, location, record, raw_payload).

(** The body of the loop on a reference not visited before. *)
Definition mark_reference (c : C) (current : Z) (reference : RetainedObjectRef) (w : MarkWalk)
    : ST R MarkError MarkWalk :=
  '(content_id, location, record, raw_payload) ⇐ read_reference c current reference;
  '(inserted, w) ⇐ st_lift (insert_location content_id location w);
  if inserted : bool then
    children ⇐ st_lift (map_err InvalidGitObject
                 (referenced_oids (mkGitObject (ro_oid reference) (or_kind record) raw_payload)));
    st_lift (queue_all (ro_repository reference) children w)
  else st_ret w.

(** [while let Some(reference) = walk.pending.pop_front()]; [None] is a loop
    that has not ended within [fuel] turns. *)
Fixpoint mark_loop (fuel : nat) (c : C) (current : Z) (w : MarkWalk) (r : R)
    : option (result MarkError MarkWalk * R) :=
  match fuel, mw_pending w with
  | _, [] => Some (Ok w, r)
  | O, _ => None
  | S fuel, reference :: pending =>
      let w := mkMarkWalk (mw_limits w) (mw_references_queued w) pending (mw_visited w) (mw_locations w) in
      if decide (reference ∈ mw_visited w) then mark_loop fuel c current w r
      else
        let w := mkMarkWalk (mw_limits w) (mw_references_queued w) pending
                   ({[reference]} ∪ mw_visited w) (mw_locations w) in
        match mark_reference c current reference w r with
        | (Err e, r) => Some (Err e, r)
        | (Ok w, r) => mark_loop fuel c current w r
        end
  end.

Definition queue_roots (c : C) (manifests : M) (retained : list RetainedObjectRef) (limits : MarkLimits)
    : result MarkError (Z * MarkWalk) :=
  current ← ok_or (current_generation c) NoCurrentGeneration;
  roots ← map_err MarkCatalog (gc_roots c);
  w ← queue_snapshots manifests limits roots 0 (MarkWalk_new limits);
  retained ← collect_retained limits retained;
  w ← queue_retained retained w;
  Ok (current, w).

(** Each turn takes one queued reference, and at most [max_object_references]
    are ever queued. *)
Definition completed_mark_set (c : C) (manifests : M) (retained : list RetainedObjectRef) (limits : MarkLimits)
    (r : R) : option (result MarkError (list (ContentId * ObjectLocation)) * R) :=
  match queue_roots c manifests retained limits with
  | Err e => Some (Err e, r)
  | Ok (current, w) =>
      match mark_loop (Z.to_nat (max_object_references limits)) c current w r with
      | None => None
      | Some (Err e, r) => Some (Err e, r)
      | Some (Ok w, r) => Some (Ok (into_sorted_locations w), r)
      end
  end.
End Mark.

End Mark.

(** * What marking guarantees

    The walk always ends within its limits; a mark set it returns is sorted,
    lies in the current generation, and holds the content of every object
    reached from a ready snapshot or a retained reference. *)

Import Core Format Codec CatalogCodec Catalog CatalogSpec CatalogInterface Chunk Disk Store Git GitSpec Reader Snapshot Mark.

Module MarkSpec.

(** ** References depend on the hash algorithm only *)

Section SameFormat.
Context (o o' : GitObject).
Hypothesis (same_kind : go_kind o = go_kind o') (same_data : go_data o = go_data o')
  (same_format : algorithm (go_oid o) = algorithm (go_oid o')).

(** Two results that are the same when they succeed. *)
Definition agrees {A} (a b : result GitBackendError A) : Prop := ok a = ok b.
Lemma agrees_bind {A B} (a b : result GitBackendError A) (k k' : A → result GitBackendError B) :
  agrees a b → (∀ x, a = Ok x → agrees (k x) (k' x)) → agrees (a ≫= k) (b ≫= k').
Proof.
  unfold agrees. destruct a as [x|e], b as [y|e']; cbn; try done. intros [= <-] Hk. by apply Hk.
Qed.
Lemma agrees_ok_or {A} (x : option A) e e' : agrees (ok_or x e) (ok_or x e').
Proof. by destruct x. Qed.
Lemma agrees_ensure c e e' : agrees (ensure c e) (ensure c e').
Proof. by destruct c. Qed.
#[local] Hint Resolve agrees_ok_or agrees_ensure : core.

Lemma single_header_agrees key twice ls found :
  agrees (single_header o key twice ls found) (single_header o' key twice ls found).
Proof.
  revert found. induction ls as [|l ls IH]; intros found; cbn [single_header]; [done|].
  destruct (strip_prefix key l); [|apply IH]. destruct found; [done|].
  rewrite same_format. apply agrees_bind; [done|]. intros x _. apply IH.
Qed.
Lemma commit_tree_agrees : agrees (commit_tree_oid o) (commit_tree_oid o').
Proof.
  unfold commit_tree_oid. rewrite same_kind, same_data. apply agrees_bind; [done|]. intros _ _.
  apply agrees_bind; [apply single_header_agrees|]. by intros x _.
Qed.
Lemma tree_entry_agrees b : agrees (parse_tree_entry o b) (parse_tree_entry o' b).
Proof.
  unfold parse_tree_entry. rewrite same_format.
  repeat (apply agrees_bind; [done|intros ? _]). done.
Qed.
Lemma tree_entries_agrees fuel b : agrees (tree_entries fuel o b) (tree_entries fuel o' b).
Proof.
  revert b. induction fuel as [|fuel IH]; intros [|x b]; try done. cbn [tree_entries].
  apply agrees_bind; [apply tree_entry_agrees|]. intros r _. apply agrees_bind; [apply IH|]. done.
Qed.
Lemma referenced_agrees : agrees (referenced_oids o) (referenced_oids o').
Proof.
  unfold referenced_oids, parse_commit_references, parse_tag_references, parse_tree_references, parse_tree_entries.
  pose proof commit_tree_agrees as Hcommit. pose proof tree_entries_agrees as Htree.
  pose proof single_header_agrees as Hheader. rewrite <-same_kind, <-same_data, same_format. clear - Hcommit Htree Hheader.
  destruct (go_kind o); [| |done|].
  - apply agrees_bind; [done|]. intros ps _. by apply agrees_bind.
  - apply agrees_bind; [|done]. apply agrees_bind; [done|]. intros _ _. apply Htree.
  - apply agrees_bind; [apply Hheader|]. intros t _. by apply agrees_bind.
Qed.
End SameFormat.

(** ** Queueing *)

Definition queued (w w' : MarkWalk) (new : list RetainedObjectRef) : Prop :=
  mw_pending w' = mw_pending w ++ new ∧ mw_visited w' = mw_visited w ∧ mw_locations w' = mw_locations w ∧
  mw_limits w' = mw_limits w ∧ mw_references_queued w' = mw_references_queued w + Z.of_nat (length new) ∧
  (new ≠ [] → mw_references_queued w' ≤ max_object_references (mw_limits w)).

Lemma queued_refl w : queued w w [].
Proof. unfold queued. rewrite app_nil_r. cbn. split_and!; try done. lia. Qed.
Lemma queued_trans w1 w2 w3 a b : queued w1 w2 a → queued w2 w3 b → queued w1 w3 (a ++ b).
Proof.
  intros (Hp1 & Hv1 & Hl1 & Hm1 & Hn1 & Hb1) (Hp2 & Hv2 & Hl2 & Hm2 & Hn2 & Hb2).
  unfold queued. rewrite length_app, Nat2Z.inj_add, Hp2, Hv2, Hl2, Hm2, Hp1, Hv1, Hl1, Hm1, <-app_assoc.
  split_and!; try done; [lia|]. intros Hne. rewrite <-Hm1.
  destruct b as [|y b]; [|by apply Hb2]. rewrite app_nil_r in Hne. cbn in Hn2. rewrite Hm1. specialize (Hb1 Hne). lia.
Qed.
Lemma queue_Ok r w w' : queue r w = Ok w' → queued w w' [r].
Proof.
  unfold queue. intros Hq. apply bind_Ok_inv in Hq as (n & Hn%ok_or_Ok_inv & Hq).
  apply checked_add_inv in Hn as [-> _]. apply bind_Ok_inv in Hq as (? & Hle & Hq). injection Hq as <-.
  unfold ensure in Hle. case_bool_decide; [|done]. unfold queued. cbn. by split_and!.
Qed.
Lemma queue_all_Ok repo oids w w' :
  queue_all repo oids w = Ok w' → queued w w' (map (mkRetained repo) oids).
Proof.
  revert w. induction oids as [|oid oids IH]; intros w Hq; cbn in Hq; [injection Hq as <-; apply queued_refl|].
  apply bind_Ok_inv in Hq as (w1 & H1%queue_Ok & H2%IH). by apply (queued_trans _ _ _ _ _ H1 H2).
Qed.
Lemma queue_retained_Ok rs w w' : queue_retained rs w = Ok w' → queued w w' rs.
Proof.
  revert w. induction rs as [|r rs IH]; intros w Hq; cbn in Hq; [injection Hq as <-; apply queued_refl|].
  apply bind_Ok_inv in Hq as (w1 & H1%queue_Ok & H2%IH). by apply (queued_trans _ _ _ _ _ H1 H2).
Qed.

Section Mark.
Context `{Digests} `{Zstd} `{CatalogLaws C} `{SnapshotManifestSource M} `{CompactionReader R}.
Implicit Types (c : C) (w : MarkWalk).

(** ** Termination *)

Lemma mark_reference_queued c current reference w rd w' rd' :
  mark_reference c current reference w rd = (Ok w', rd') →
  ∃ id l record raw, read_reference c current reference rd = (Ok (id, l, record, raw), rd') ∧
    ((is_Some (mw_locations w !! id) ∧ w' = w) ∨
     (mw_locations w !! id = None ∧ ∃ children,
       referenced_oids (mkGitObject (ro_oid reference) (or_kind record) raw) = Ok children ∧
       queued (mkMarkWalk (mw_limits w) (mw_references_queued w) (mw_pending w) (mw_visited w)
                 (<[id := l]> (mw_locations w))) w' (map (mkRetained (ro_repository reference)) children))).
Proof.
  unfold mark_reference, st_bind, st_lift, st_ret.
  destruct (read_reference c current reference rd) as [[[[[id l] record] raw]|e] rd1] eqn:Hr; [|done].
  unfold insert_location. case_decide as Hin.
  { intros Hm. injection Hm as <- <-. exists id, l, record, raw. split; [done|by left]. }
  unfold ensure. case_bool_decide; cbn; [|done].
  destruct (referenced_oids _) as [children|e] eqn:Hrefs; cbn; [|done].
  intros Hm. injection Hm as Hq <-. apply queue_all_Ok in Hq. exists id, l, record, raw. split; [done|].
  right. split; [by apply eq_None_not_Some|]. by exists children.
Qed.

Lemma mark_loop_total fuel c current w rd :
  mw_references_queued w ≤ max_object_references (mw_limits w) →
  Z.of_nat (length (mw_pending w)) + (max_object_references (mw_limits w) - mw_references_queued w) ≤ Z.of_nat fuel →
  is_Some (mark_loop fuel c current w rd).
Proof.
  revert w rd. induction fuel as [|fuel IH]; intros [limits n pending visited locations] rd Hle Hfuel; cbn [mark_loop mw_pending mw_limits mw_references_queued mw_visited mw_locations] in *.
  - destruct pending as [|x pending]; [by eexists|]. cbn in Hfuel. lia.
  - destruct pending as [|x pending]; [by eexists|]. cbn [length] in Hfuel.
    case_decide; [apply IH; cbn; lia|].
    destruct (mark_reference _ _ _ _ _) as [[w'|e] rd'] eqn:Hm; [|by eexists].
    apply mark_reference_queued in Hm as (id & l & record & raw & _ & [[_ ->]|(_ & children & _ & Hq)]).
    + apply IH; cbn; lia.
    + destruct Hq as (Hp & _ & _ & Hl & Hn & Hb). cbn in *.
      assert (mw_references_queued w' ≤ max_object_references limits).
      { destruct children; [cbn in Hn; lia|by apply Hb]. }
      apply IH; rewrite Hl; [done|]. rewrite Hp, Hn, length_app. lia.
Qed.

Lemma queue_snapshots_Ok (manifests : M) limits roots n w w' :
  queue_snapshots manifests limits roots n w = Ok w' →
  ∃ new, queued w w' new ∧
    ∀ repo s, GcRepositorySnapshot repo s ∈ roots → ∃ m, load_snapshot_manifest manifests repo s = Ok m ∧
      validate m = Ok () ∧ ∀ p, p ∈ sm_refs m → mkRetained repo (pr_target p) ∈ new.
Proof.
  revert n w. induction roots as [|root roots IH]; intros n w Hq.
  { injection Hq as <-. exists []. split; [apply queued_refl|]. by intros ? ? ?%elem_of_nil. }
  destruct root as [repo s|ws g|pin].
  2,3: cbn in Hq; apply IH in Hq as (new & Hq & Hall); exists new; split; [done|];
       intros repo s [?|?]%elem_of_cons; [done|]; by apply Hall.
  cbn [queue_snapshots] in Hq. apply bind_Ok_inv in Hq as (n' & _ & Hq).
  apply bind_Ok_inv in Hq as (? & _ & Hq). apply bind_Ok_inv in Hq as (m & Hm & Hq).
  apply bind_Ok_inv in Hq as ([] & Hv & Hq). apply bind_Ok_inv in Hq as (? & _ & Hq).
  apply bind_Ok_inv in Hq as (w1 & Hw1%queue_all_Ok & Hq). apply IH in Hq as (new & Hnew & Hall).
  destruct (load_snapshot_manifest manifests repo s) as [m'|] eqn:Hload; [|done]. injection Hm as ->.
  destruct (validate m) as [[]|] eqn:Hval; [|done].
  eexists. split; [by eapply queued_trans|]. intros repo' s' [Heq|Hin]%elem_of_cons.
  - injection Heq as -> ->. exists m. split_and!; [done..|]. intros p Hp. apply elem_of_app. left.
    apply list_elem_of_fmap. exists (pr_target p). split; [done|]. apply list_elem_of_fmap. by exists p.
  - destruct (Hall _ _ Hin) as (m' & ? & ? & Hp). exists m'. split_and!; [done..|].
    intros p ?. apply elem_of_app. right. by apply Hp.
Qed.

(** The references the walk starts from. *)
Definition root_reference c (manifests : M) (retained : list RetainedObjectRef) (r : RetainedObjectRef) : Prop :=
  r ∈ retained ∨ ∃ roots s m p, gc_roots c = Ok roots ∧ GcRepositorySnapshot (ro_repository r) s ∈ roots ∧
    load_snapshot_manifest manifests (ro_repository r) s = Ok m ∧ p ∈ sm_refs m ∧ pr_target p = ro_oid r.

Lemma mark_roots_Ok c manifests retained limits current w :
  Mark.queue_roots c manifests retained limits = Ok (current, w) →
  current_generation c = Some current ∧ mw_visited w = ∅ ∧ mw_locations w = ∅ ∧ mw_limits w = limits ∧
  mw_references_queued w = Z.of_nat (length (mw_pending w)) ∧
  (mw_pending w ≠ [] → mw_references_queued w ≤ max_object_references limits) ∧
  ∀ r, root_reference c manifests retained r → r ∈ mw_pending w.
Proof.
  unfold Mark.queue_roots. intros Hq. apply bind_Ok_inv in Hq as (g & Hg%ok_or_Ok_inv & Hq).
  apply bind_Ok_inv in Hq as (roots & Hroots & Hq). apply bind_Ok_inv in Hq as (w1 & Hw1 & Hq).
  apply bind_Ok_inv in Hq as (rs & Hrs & Hq). apply bind_Ok_inv in Hq as (w2 & Hw2%queue_retained_Ok & Hq).
  injection Hq as <- <-. apply queue_snapshots_Ok in Hw1 as (new & Hnew & Hall).
  destruct (queued_trans _ _ _ _ _ Hnew Hw2) as (Hp & Hv & Hl & Hlim & Hn & Hb). cbn in *.
  split_and!; try done; [by rewrite Hp|by rewrite Hp|]. intros r Hr. rewrite Hp. apply elem_of_app. destruct Hr as [Hr|Hr].
  - right. unfold collect_retained in Hrs. apply bind_Ok_inv in Hrs as (? & _ & Hrs). injection Hrs as <-.
    unfold sort_by. by rewrite merge_sort_Permutation.
  - left. destruct Hr as (roots' & s & m & p & Hr' & Hin & Hload & Hp' & Ht). rewrite Hr' in Hroots.
    injection Hroots as <-. destruct (Hall _ _ Hin) as (m' & Hm' & _ & Hrefs).
    assert (m' = m) as -> by congruence. apply Hrefs in Hp'. rewrite Ht in Hp'. by destruct r.
Qed.

(** Marking always ends: for every catalog, every manifest source, every
    reader however it answers, and every limits, [completed_mark_set] returns a
    mark set or an error after at most [max_object_references] turns. *)
Theorem mark_terminates c (manifests : M) retained limits (rd : R) :
  is_Some (completed_mark_set c manifests retained limits rd).
Proof.
  unfold completed_mark_set. destruct (Mark.queue_roots c manifests retained limits) as [[current w]|e] eqn:Hq; [|by eexists].
  apply mark_roots_Ok in Hq as (_ & _ & _ & Hlim & Hn & Hb & _).
  destruct (decide (mw_pending w = [])) as [Hnil|Hne].
  - destruct (Z.to_nat _); cbn [mark_loop]; rewrite Hnil; by eexists.
  - specialize (Hb Hne).
    destruct (mark_loop_total (Z.to_nat (max_object_references limits)) c current w rd) as [[[w'|e] rd'] ->];
      [by rewrite Hlim|rewrite Hlim, Hn; lia|by eexists..].
Qed.

(** ** The invariant of the walk *)

Section Walk.
(** What the objects of the current generation hold. *)
Context (c : C) (content : ContentId → option (ObjectKind * bytes)).

(** The reader keeps returning what the objects hold. *)
Definition reader_stable : Prop := ∀ id l (rd : R) record rd' raw,
  object_location c id = Some l → read_verified id l rd = (Ok record, rd') → or_content_id record = id →
  decode_object_payload record = Ok raw → content id = Some (or_kind record, raw).

(** Reference [r] names content [id], checked. *)
Definition names (r : RetainedObjectRef) (id : ContentId) : Prop :=
  oid_alias c (ro_repository r) (ro_oid r) = Some id ∧
  ∃ kind raw, content id = Some (kind, raw) ∧ ok (GitOid_for_object (algorithm (ro_oid r)) kind raw) = Some (ro_oid r).
(** The references out of the object named by [r]. *)
Definition leads (r : RetainedObjectRef) (children : list GitOid) : Prop :=
  ∃ id kind raw, oid_alias c (ro_repository r) (ro_oid r) = Some id ∧ content id = Some (kind, raw) ∧
    referenced_oids (mkGitObject (ro_oid r) kind raw) = Ok children.

Lemma read_reference_Ok current r (rd : R) id l record raw rd' :
  reader_stable → read_reference c current r rd = (Ok (id, l, record, raw), rd') →
  names r id ∧ object_location c id = Some l ∧ ol_generation l = current ∧ content id = Some (or_kind record, raw).
Proof.
  intros Hst. unfold read_reference, st_bind, st_lift, st_map_err, st_ret.
  destruct (oid_alias c _ _) as [id'|] eqn:Ha; cbn [ok_or]; [|done].
  destruct (object_location c id') as [l'|] eqn:Hl; cbn [ok_or]; [|done].
  unfold ensure. case_bool_decide as Hg; [|done].
  destruct (read_verified id' l' rd) as [[record'|e] rd1] eqn:Hr; cbn [map_err]; [|done].
  case_bool_decide as Hid; [|done].
  destruct (decode_object_payload record') as [raw'|e] eqn:Hd; cbn [map_err]; [|done].
  case_bool_decide as Ho; [|done]. intros Heq. injection Heq as -> -> -> -> ->.
  assert (content id = Some (or_kind record, raw)) as Hc by (by eapply Hst). split_and!; try done.
  split; [done|]. by exists (or_kind record), raw.
Qed.

Record walk_inv (current : Z) (base : RetainedObjectRef → Prop) w : Prop := {
  wi_located id l : mw_locations w !! id = Some l → object_location c id = Some l ∧ ol_generation l = current;
  wi_base r : base r → r ∈ mw_visited w ∨ r ∈ mw_pending w;
  wi_visited r : r ∈ mw_visited w → ∃ id, names r id ∧ is_Some (mw_locations w !! id);
  wi_closed id : is_Some (mw_locations w !! id) → ∃ r children, names r id ∧ leads r children ∧
    ∀ child, child ∈ children → mkRetained (ro_repository r) child ∈ mw_visited w ∨
                                mkRetained (ro_repository r) child ∈ mw_pending w }.

Lemma walk_inv_visited current base limits n r pending visited locations :
  r ∈ visited → walk_inv current base (mkMarkWalk limits n (r :: pending) visited locations) →
  walk_inv current base (mkMarkWalk limits n pending visited locations).
Proof.
  intros Hr [Hl Hb Hv Hc]. split; cbn in *; try done.
  - intros x Hx. destruct (Hb x Hx) as [?|[->|?]%elem_of_cons]; auto.
  - intros id Hid. destruct (Hc id Hid) as (x & cs & Hx & Hlead & Hcs). exists x, cs. split_and!; [done..|].
    intros child Hch. destruct (Hcs child Hch) as [?|[->|?]%elem_of_cons]; auto.
Qed.

Lemma walk_inv_step current base limits n r pending visited locations rd w' rd' :
  reader_stable → walk_inv current base (mkMarkWalk limits n (r :: pending) visited locations) →
  mark_reference c current r (mkMarkWalk limits n pending ({[r]} ∪ visited) locations) rd = (Ok w', rd') →
  walk_inv current base w'.
Proof.
  intros Hst [Hl Hb Hv Hc] Hm. cbn in *.
  apply mark_reference_queued in Hm as (id & l & record & raw & Hread & Hm).
  apply read_reference_Ok in Hread as (Hn & Hloc & Hg & Hcont); [|done].
  assert (∀ x, x ∈ visited ∨ x ∈ r :: pending → x ∈ {[r]} ∪ visited ∨ x ∈ pending) as Hmove.
  { intros x. rewrite elem_of_cons, elem_of_union, elem_of_singleton. tauto. }
  destruct Hm as [[Hin ->]|(Hnew & children & Hrefs & Hp & Hvis & Hlocs & _)]; cbn in *.
  - split; cbn; try done.
    + intros x Hx. by apply Hmove, Hb.
    + intros x [->%elem_of_singleton|Hx]%elem_of_union; [|by apply Hv]. by exists id.
    + intros id' Hid'. destruct (Hc id' Hid') as (x & cs & Hx & Hlead & Hcs). exists x, cs. split_and!; [done..|].
      intros child Hch. by apply Hmove, Hcs.
  - assert (∀ id', is_Some (locations !! id') → is_Some (mw_locations w' !! id')) as Hkeep.
    { intros id' Hid'. rewrite Hlocs. destruct (decide (id = id')) as [->|]; [|by rewrite lookup_insert_ne].
      by rewrite lookup_insert_eq. }
    assert (∀ x, x ∈ visited ∨ x ∈ r :: pending → x ∈ mw_visited w' ∨ x ∈ mw_pending w') as Hmove'.
    { intros x Hx. rewrite Hp, Hvis, elem_of_app. destruct (Hmove x Hx); auto. }
    split.
    + intros id' l' Hl'. rewrite Hlocs in Hl'. apply lookup_insert_Some in Hl' as [[<- <-]|[_ Hl']]; auto.
    + intros x Hx. by apply Hmove', Hb.
    + intros x. rewrite Hvis. intros [->%elem_of_singleton|Hx]%elem_of_union.
      * exists id. split; [done|]. rewrite Hlocs, lookup_insert_eq. done.
      * destruct (Hv x Hx) as (id' & ? & ?). exists id'. auto.
    + intros id' Hid'. rewrite Hlocs in Hid'. destruct (decide (id = id')) as [<-|Hne].
      * exists r, children. split_and!; [done| |].
        { exists id, (or_kind record), raw. split_and!; [apply Hn|done|done]. }
        intros child Hch. right. rewrite Hp. apply elem_of_app. right. apply list_elem_of_fmap. by exists child.
      * rewrite lookup_insert_ne in Hid' by done. destruct (Hc id' Hid') as (x & cs & Hx & Hlead & Hcs).
        exists x, cs. split_and!; [done..|]. intros child Hch. by apply Hmove', Hcs.
Qed.

Lemma mark_loop_inv fuel current base w rd w' rd' :
  reader_stable → walk_inv current base w → mark_loop fuel c current w rd = Some (Ok w', rd') →
  walk_inv current base w' ∧ mw_pending w' = [].
Proof.
  intros Hst. revert w rd. induction fuel as [|fuel IH]; intros [limits n pending visited locations] rd Hi Hl;
    cbn [mark_loop mw_pending mw_visited mw_limits mw_references_queued mw_locations] in Hl.
  - destruct pending; [|done]. by injection Hl as <- <-.
  - destruct pending as [|r pending]; [by injection Hl as <- <-|]. case_decide as Hv.
    + eapply IH; [|exact Hl]. by eapply walk_inv_visited.
    + destruct (mark_reference _ _ _ _ _) as [[w1|e] rd1] eqn:Hm; [|done].
      eapply IH; [|exact Hl]. by eapply walk_inv_step.
Qed.

(** ** Completeness *)

(** Reached from the roots by following references inside a repository. *)
Inductive reached_ref (base : RetainedObjectRef → Prop) : RetainedObjectRef → Prop :=
| reached_base r : base r → reached_ref base r
| reached_reference r children child :
    reached_ref base r → leads r children → child ∈ children →
    reached_ref base (mkRetained (ro_repository r) child).

(** No two aliases of one Git object ID disagree, and only blobs are shared
    between repositories of different formats. *)
Definition unique_aliases : Prop := ∀ r r' o id id',
  oid_alias c r o = Some id → oid_alias c r' o = Some id' → id = id'.
Definition one_format : Prop := ∀ r r' o o' id kind raw,
  oid_alias c r o = Some id → oid_alias c r' o' = Some id → content id = Some (kind, raw) →
  kind = Blob ∨ algorithm o = algorithm o'.

Lemma leads_same r r' cs cs' id :
  one_format → leads r cs → leads r' cs' →
  oid_alias c (ro_repository r) (ro_oid r) = Some id → oid_alias c (ro_repository r') (ro_oid r') = Some id → cs = cs'.
Proof.
  intros Hof (id1 & kind & raw & Ha & Hc & Hr) (id2 & kind2 & raw2 & Ha' & Hc' & Hr') Hi Hi'.
  assert (id1 = id ∧ id2 = id) as [-> ->] by (split; congruence).
  assert (kind2 = kind ∧ raw2 = raw) as [-> ->] by (split; congruence).
  destruct (Hof _ _ _ _ _ _ _ Ha Ha' Hc) as [->|Hf].
  - cbn in Hr, Hr'. congruence.
  - pose proof (referenced_agrees (mkGitObject (ro_oid r) kind raw) (mkGitObject (ro_oid r') kind raw)
      eq_refl eq_refl Hf) as Hag. unfold agrees in Hag. rewrite Hr, Hr' in Hag. by injection Hag.
Qed.

Lemma walk_complete current base w r id :
  unique_aliases → one_format → walk_inv current base w → mw_pending w = [] →
  reached_ref base r → oid_alias c (ro_repository r) (ro_oid r) = Some id → is_Some (mw_locations w !! id).
Proof.
  intros Hua Hof [_ Hb Hv Hcl] Hnil Hr. revert id.
  assert (∀ x, x ∈ mw_visited w ∨ x ∈ mw_pending w → x ∈ mw_visited w) as Hdone.
  { intros x [?|Hx]; [done|]. rewrite Hnil in Hx. by apply elem_of_nil in Hx. }
  induction Hr as [r Hbase|r cs child Hr IH Hlead Hch]; intros id Ha.
  - destruct (Hv r (Hdone r (Hb r Hbase))) as (id' & [Ha' _] & Hin). congruence.
  - pose proof Hlead as (id0 & kind & raw & Ha0 & _). pose proof (IH id0 Ha0) as Hin0.
    destruct (Hcl id0 Hin0) as (r1 & cs1 & [Ha1 _] & Hlead1 & Hcs1).
    rewrite (leads_same _ _ _ _ _ Hof Hlead Hlead1 Ha0 Ha1) in Hch.
    destruct (Hv _ (Hdone _ (Hcs1 child Hch))) as (id' & [Ha' _] & Hin'). cbn in Ha, Ha'.
    by rewrite (Hua _ _ _ _ _ Ha Ha').
Qed.
End Walk.

Definition id_lt (p q : ContentId * ObjectLocation) : Prop :=
  bytes_compare (cid_bytes p.1) (cid_bytes q.1) = Lt.

Lemma sorted_locations_sorted w : StronglySorted id_lt (into_sorted_locations w).
Proof.
  unfold into_sorted_locations, sort_by.
  set (cmp := cmp_on (λ p : ContentId * ObjectLocation, cid_bytes p.1) bytes_compare).
  pose proof (sort_on_sorted (λ p : ContentId * ObjectLocation, cid_bytes p.1) bytes_compare
    (map_to_list (mw_locations w))) as Hs. unfold sort_by in Hs. fold cmp in Hs.
  assert (NoDup (merge_sort (cmp_le cmp) (map_to_list (mw_locations w))).*1) as Hnd.
  { rewrite merge_sort_Permutation. apply NoDup_fst_map_to_list. }
  induction Hs as [|p l Hs IH Hp]; [constructor|]. apply NoDup_cons in Hnd as [Hnin Hnd].
  constructor; [by apply IH|]. apply Forall_forall. intros q Hq. eapply Forall_forall in Hp; [|exact Hq].
  unfold id_lt. unfold cmp_le, cmp, cmp_on in Hp. destruct (bytes_compare _ _) eqn:E; [|done..].
  exfalso. apply Hnin. apply (ord_eq (cmp := bytes_compare)) in E.
  assert (p.1 = q.1) as -> by (destruct p as [[x] ?], q as [[y] ?]; cbn in *; congruence).
  apply list_elem_of_fmap. by exists q.
Qed.
Lemma elem_of_sorted_locations w id l :
  (id, l) ∈ into_sorted_locations w ↔ mw_locations w !! id = Some l.
Proof. unfold into_sorted_locations, sort_by. by rewrite merge_sort_Permutation, elem_of_map_to_list. Qed.

(** The references retained by the ready snapshots of a catalog with the
    records [f], or named explicitly. *)
Definition ready_reference (f : View) (manifests : M) (retained : list RetainedObjectRef) (r : RetainedObjectRef) : Prop :=
  r ∈ retained ∨ ∃ s m p, f (KSnapshot (ro_repository r) s) = Some (VVisibility Ready) ∧
    load_snapshot_manifest manifests (ro_repository r) s = Ok m ∧ p ∈ sm_refs m ∧ pr_target p = ro_oid r.

(** A completed mark set. *)
Lemma mark_set_spec c f (manifests : M) content retained limits rd live rd' :
  holds_view c f → reader_stable c content → unique_aliases c → one_format c content →
  completed_mark_set c manifests retained limits rd = Some (Ok live, rd') →
  StronglySorted id_lt live ∧
  (∀ id l, (id, l) ∈ live → object_location c id = Some l ∧ current_generation c = Some (ol_generation l)) ∧
  (∀ repo s, f (KSnapshot repo s) = Some (VVisibility Ready) →
     ∃ m, load_snapshot_manifest manifests repo s = Ok m ∧ validate m = Ok ()) ∧
  (∀ r id, reached_ref c content (ready_reference f manifests retained) r →
     oid_alias c (ro_repository r) (ro_oid r) = Some id → ∃ l, (id, l) ∈ live).
Proof.
  intros Hview Hst Hua Hof Hm. unfold completed_mark_set in Hm.
  destruct (Mark.queue_roots c manifests retained limits) as [[current w]|e] eqn:Hq; [|done].
  pose proof (mark_roots_Ok _ _ _ _ _ _ Hq) as (Hcur & Hv & Hl & _ & _ & _ & Hroots).
  destruct (mark_loop _ c current w rd) as [[[w'|e] rd1]|] eqn:Hloop; [|done..].
  injection Hm as <- <-.
  assert (walk_inv c content current (ready_reference f manifests retained) w) as Hinv.
  { split; rewrite ?Hl, ?Hv.
    - intros id l. by rewrite lookup_empty.
    - intros r Hr. right. apply Hroots. destruct Hr as [Hr|(s & m & p & Hf & Hload & Hp & Ht)]; [by left|].
      unfold Mark.queue_roots in Hq. rewrite Hcur in Hq. cbn [ok_or] in Hq. rewrite bind_Ok in Hq.
      destruct (gc_roots c) as [roots|] eqn:Hgc; [|done]. right. exists roots, s, m, p. split_and!; try done.
      by apply (view_roots c f roots).
    - by intros r ?%not_elem_of_empty.
    - intros id [? Hid]. by rewrite lookup_empty in Hid. }
  destruct (mark_loop_inv c content _ _ _ _ _ _ _ Hst Hinv Hloop) as [Hinv' Hnil].
  split_and!.
  - apply sorted_locations_sorted.
  - intros id l Hin%elem_of_sorted_locations. destruct (wi_located _ _ _ _ _ Hinv' id l Hin) as [? <-]. done.
  - intros repo s Hf. unfold Mark.queue_roots in Hq. rewrite Hcur in Hq. cbn [ok_or] in Hq. rewrite bind_Ok in Hq.
    destruct (gc_roots c) as [roots|] eqn:Hgc; [|done]. cbn [map_err] in Hq. rewrite bind_Ok in Hq.
    apply bind_Ok_inv in Hq as (w1 & Hw1 & _). apply queue_snapshots_Ok in Hw1 as (new & _ & Hall).
    destruct (Hall repo s) as (m & ? & ? & _); [by apply (view_roots c f roots)|]. by exists m.
  - intros r id Hr Ha. destruct (walk_complete c content _ _ _ _ _ Hua Hof Hinv' Hnil Hr Ha) as [l Hl'].
    exists l. by apply elem_of_sorted_locations.
Qed.
End Mark.

End MarkSpec.
