(* ===== verification/Generation.v ===== *)
(** * Generations: [reflink-forest-maintenance/src/lib.rs]

    The generation manager (the pointer file, reader leases and retirement
    markers), the publication of a generation, compaction of a mark set into a
    new generation, and the retirement of the old one.

    Directories are not objects of the disk: a directory holds the files whose
    path names it, creating one changes nothing, and an empty one cannot be
    told from a missing one. The lock around each method is what makes it a
    single step here. *)

From Stdlib Require Import ZArith Lia Strings.Byte Strings.String.
From stdpp Require Import base tactics list gmap strings.
From S2P Require Import Prelude Order Core Format Codec CatalogCodec Catalog Chunk Disk Store Git Mark.
Import Core Format Codec CatalogCodec Catalog Chunk Disk Store Git Mark.

#[local] Open Scope Z_scope.

Module Generation.

Inductive MaintenanceError :=
| MaintIo (e : IoErrorKind)
| InvalidGenerationPointer
| InvalidCompactionPlan (reason : string)
| CompactionSourceIsNotCurrent (source : Z) (current : option Z)
| CompactionSourceLocation (expected actual : Z)
| CompactionRecordIdMismatch (id : ContentId)
| CompactionShadowLocation (expected actual : Z)
| CompactionRead (reason : string)
| CompactionReadCodec (e : CodecError)
| CompactionWrite (reason : string)
| CompactionNotPublished (source target : Z) (current : option Z)
| PinnedGeneration (generation : Z)
| ActiveReaders (generation : Z)
| RetiringGeneration (generation : Z)
| CannotRetireActiveGeneration (generation : Z)
| DestinationExists (dir : bytes)
| UnsafeLeaseEntry (dir : bytes)
| MaintCatalog (e : CatalogError).

(** ** Directories *)

Definition child (dir name : bytes) : bytes := dir ++ SLASH :: name.
Definition file_in (dir name : bytes) : Path := mkPath dir name None.

(** [dir] is [base] or below it. *)
Definition below (base dir : bytes) : bool :=
  bool_decide (dir = base) || starts_with (child base []) dir.
(** The files of a directory, and the directories directly in it. *)
Definition files_in (d : Disk) (dir : bytes) : list Path :=
  map fst (filter (λ e, p_dir e.1 = dir) (map_to_list (d_names d))).
Definition first_component (b : bytes) : bytes := hd [] (split SLASH b).
Definition directories_in (d : Disk) (dir : bytes) : list bytes :=
  remove_dups (omap (λ e, first_component <$> strip_prefix (child dir []) (p_dir e.1)) (map_to_list (d_names d))).

(** [fs::rename] of a directory. *)
Definition relocate (a b : bytes) (p : Path) : Path :=
  if below a (p_dir p) then mkPath (b ++ drop (length a) (p_dir p)) (p_stem p) (p_ext p) else p.
Definition move_names (a b : bytes) (m : Names) : Names :=
  list_to_map (map (λ e, (relocate a b e.1, e.2)) (map_to_list m)).
Definition rename_directory (a b : bytes) : DiskIO unit :=
  io (λ d, (Ok (), set_names (move_names a b (d_names d)) d)).
(** [Path::exists] of a directory. *)
Definition directory_exists (d : Disk) (dir : bytes) : bool :=
  existsb (λ e, below dir (p_dir e.1)) (map_to_list (d_names d)).

(** [OpenOptions] with [create(true)] and [truncate(false)]. *)
Definition open_or_create (p : Path) : DiskIO nat :=
  io (λ d, match d_names d !! p with
           | Some n => (Ok n, d)
           | None => let n := length (d_inodes d) in
                     (Ok n, set_inodes (d_inodes d ++ [mkInode [] []]) (set_names (<[p := n]> (d_names d)) d))
           end).

(** ** The pointer's text *)

(** [str::trim] on ASCII text. *)
Definition is_white (b : byte) : bool := let z := byte_to_Z b in bool_decide (9 ≤ z ≤ 13) || bool_decide (z = 32).
Fixpoint trim_white (b : bytes) : bytes :=
  match b with
  | x :: rest => if is_white x then trim_white rest else b
  | [] => []
  end.
Definition trim (b : bytes) : bytes := reverse (trim_white (reverse (trim_white b))).

(** [str::parse::<u32>]: an optional sign and digits, without overflow. *)
Fixpoint parse_digits (acc : Z) (b : bytes) : option Z :=
  match b with
  | [] => Some acc
  | x :: b =>
      let z := byte_to_Z x in
      if decide (48 ≤ z ≤ 57) then
        n ← u32_try_from (acc * 10);
        n ← u32_try_from (n + (z - 48));
        parse_digits n b
      else None
  end.
Definition PLUS : byte := x2b.
Definition parse_u32 (b : bytes) : option Z :=
  match b with
  | [] => None
  | x :: b' =>
      let digits := if decide (x = PLUS) then b' else b in
      if decide (digits = []) then None else parse_digits 0 digits
  end.

(** ** The manager *)

Record GenerationManager := mkGenerationManager { gm_root : bytes }.

Section Manager.
Context (m : GenerationManager).

Definition pointer_path : Path := file_in (gm_root m) (b_ "active-generation").
Definition generation_leases (g : Z) : bytes := child (child (gm_root m) (b_ "leases")) (to_string g).
Definition retiring_dir : bytes := child (gm_root m) (b_ "retiring").
Definition retiring_marker (g : Z) : Path := file_in retiring_dir (to_string g).
Definition state_lock_path : Path := file_in (gm_root m) (b_ "generation-state.lock").

Abbreviation MIO := (ST Disk MaintenanceError).
Definition mio {A} (act : DiskIO A) : MIO A := st_map_err MaintIo act.

(** Opening the lock file and [flock]. *)
Definition state_lock : MIO unit :=
  _ ⇐ mio (open_or_create state_lock_path);
  mio (io (λ d, (Ok (), d))).

(** A file written under a temporary name, synchronized and renamed. *)
Definition replace_file (temporary target : Path) (contents : bytes) : MIO unit :=
  file ⇐ mio (create_new temporary);
  _ ⇐ mio (write_at file 0 contents);
  _ ⇐ mio (sync_file file);
  mio (rename temporary target).

(** [publish_active]; [nonce] makes the temporary name. *)
Definition publish_active (nonce : bytes) (g : Z) : MIO unit :=
  _ ⇐ state_lock;
  _ ⇐ replace_file (file_in (gm_root m) (b_ ".active-generation." ++ nonce)) pointer_path (to_string g ++ [LF]);
  mio (sync_all_directory (gm_root m)).

Definition active_generation_locked : MIO (option Z) := λ d,
  match open_file pointer_path d with
  | (Err NotFound, d) => (Ok None, d)
  | (Err e, d) => (Err (MaintIo e), d)
  | (Ok file, d) =>
      (content ⇐ mio (read_file file);
       g ⇐ st_lift (ok_or (parse_u32 (trim content)) InvalidGenerationPointer);
       st_ret (Some g)) d
  end.
Definition active_generation : MIO (option Z) := _ ⇐ state_lock; active_generation_locked.

(** [lease]; the name is made of the process and the clock. *)
Definition lease (pid nonce : bytes) (g : Z) : MIO Path :=
  _ ⇐ state_lock;
  retiring ⇐ st_get (λ d, path_exists d (retiring_marker g));
  _ ⇐ st_lift (ensure (negb retiring) (RetiringGeneration g));
  let directory := generation_leases g in
  _ ⇐ mio (create_dir_all directory);
  let path := file_in directory (pid ++ b_ "-" ++ nonce) in
  file ⇐ mio (create_new path);
  _ ⇐ mio (write_at file 0 (b_ "generation=" ++ to_string g ++ LF :: b_ "pid=" ++ pid ++ [LF]));
  _ ⇐ mio (sync_file file);
  _ ⇐ mio (sync_all_directory directory);
  st_ret path.
(** [Drop] of a lease. *)
Definition drop_lease (path : Path) (d : Disk) : Disk :=
  match remove_file path d with
  | (Ok _, d) => (sync_all_directory (p_dir path) d).2
  | (Err _, d) => d
  end.

Definition may_reclaim_locked (g : Z) : MIO bool :=
  let directory := generation_leases g in
  entries ⇐ mio (io (λ d, (Ok (files_in d directory, directories_in d directory), d)));
  _ ⇐ st_lift (ensure (bool_decide (entries.2 = [])) (UnsafeLeaseEntry directory));
  st_ret (bool_decide (entries.1 = [])).
Definition may_reclaim (g : Z) : MIO bool := _ ⇐ state_lock; may_reclaim_locked g.

(** The loops of [reconcile_abandoned_leases]. *)
Fixpoint remove_leases (leases : list Path) (removed : Z) : MIO Z :=
  match leases with
  | [] => st_ret removed
  | l :: leases => _ ⇐ mio (remove_file l); remove_leases leases (removed + 1)
  end.
Fixpoint reconcile_generations (generations : list bytes) (removed : Z) : MIO Z :=
  match generations with
  | [] => st_ret removed
  | g :: generations =>
      entries ⇐ mio (io (λ d, (Ok (files_in d g, directories_in d g), d)));
      _ ⇐ st_lift (ensure (bool_decide (entries.2 = [])) (UnsafeLeaseEntry g));
      removed ⇐ remove_leases entries.1 removed;
      _ ⇐ mio (sync_all_directory g);
      reconcile_generations generations removed
  end.
Definition reconcile_abandoned_leases : MIO Z :=
  _ ⇐ state_lock;
  let leases := child (gm_root m) (b_ "leases") in
  entries ⇐ mio (io (λ d, (Ok (files_in d leases, directories_in d leases), d)));
  _ ⇐ st_lift (ensure (bool_decide (entries.1 = [])) (UnsafeLeaseEntry leases));
  reconcile_generations (map (child leases) entries.2) 0.

(** [GenerationManager::open]. *)
Definition manager_open : MIO unit :=
  _ ⇐ mio (create_dir_all (child (gm_root m) (b_ "leases")));
  _ ⇐ mio (create_dir_all retiring_dir);
  _ ⇐ reconcile_abandoned_leases;
  st_ret ().

Definition cancel_retirement (g : Z) : MIO unit :=
  _ ⇐ state_lock;
  λ d, match remove_file (retiring_marker g) d with
       | (Ok _, d) => mio (sync_all_directory retiring_dir) d
       | (Err NotFound, d) => (Ok (), d)
       | (Err e, d) => (Err (MaintIo e), d)
       end.

Definition stop_admitting_leases_locked (nonce : bytes) (g : Z) : MIO unit :=
  marked ⇐ st_get (λ d, path_exists d (retiring_marker g));
  if marked : bool then st_ret () else
    _ ⇐ replace_file (file_in retiring_dir (b_ "." ++ to_string g ++ b_ "." ++ nonce)) (retiring_marker g)
          (b_ "retiring=" ++ to_string g ++ [LF]);
    mio (sync_all_directory retiring_dir).

Definition retired_name (trash_root : bytes) (g : Z) : bytes :=
  child trash_root (b_ "generation-" ++ to_string g ++ b_ "-retired").

Definition retire_generation (nonce : bytes) (g : Z) (generation_path trash_root : bytes) : MIO bytes :=
  _ ⇐ state_lock;
  active ⇐ active_generation_locked;
  _ ⇐ st_lift (ensure (bool_decide (active ≠ Some g)) (CannotRetireActiveGeneration g));
  _ ⇐ stop_admitting_leases_locked nonce g;
  free ⇐ may_reclaim_locked g;
  _ ⇐ st_lift (ensure free (ActiveReaders g));
  _ ⇐ mio (create_dir_all trash_root);
  let destination := retired_name trash_root g in
  conflict ⇐ st_get (λ d, directory_exists d destination);
  _ ⇐ st_lift (ensure (negb conflict) (DestinationExists destination));
  _ ⇐ mio (rename_directory generation_path destination);
  _ ⇐ mio (sync_all_directory trash_root);
  st_ret destination.
End Manager.

(** ** Publication, compaction and retirement *)

(** A writer of the destination generation; [W] is its state. *)
Class CompactionWriter (W : Type) := {
  cw_append : ObjectRecord → ST W string ObjectLocation;
  cw_sync_data : ST W string unit;
  cw_verify : ContentId → ObjectLocation → ST W string unit }.

Record CompactionOutcome := mkCompactionOutcome {
  co_source : Z; co_target : Z; co_copied_records : Z }.

Section Compaction.
Context `{Digests} `{Zstd} `{Catalog C} `{CompactionReader R} `{CompactionWriter W}.

(** The catalog and the disk, the reader and the writer. *)
Record World := mkWorld { wd_sys : Sys C; wd_reader : R; wd_writer : W }.
Abbreviation GIO := (ST (Sys C) MaintenanceError).
Abbreviation XIO := (ST World MaintenanceError).

Definition on_manager {A} (act : ST Disk MaintenanceError A) : GIO A := λ s,
  let '(r, d) := act (sys_disk s) in (r, mkSys d (sys_catalog s)).
Definition on_sys {A} (act : GIO A) : XIO A := λ x,
  let '(r, s) := act (wd_sys x) in (r, mkWorld s (wd_reader x) (wd_writer x)).
Definition on_reader {A} (act : ST R string A) : XIO A := λ x,
  let '(r, rd) := act (wd_reader x) in (map_err CompactionRead r, mkWorld (wd_sys x) rd (wd_writer x)).
Definition on_writer {A} (act : ST W string A) : XIO A := λ x,
  let '(r, w) := act (wd_writer x) in (map_err CompactionWrite r, mkWorld (wd_sys x) (wd_reader x) w).

Definition publication_batch (g : Z) (locations : list (ContentId * ObjectLocation)) : CatalogBatch :=
  put_current_generation (fold_left (λ b p, put_object_location b p.1 p.2) locations batch_new) g.

Definition publish_generation (m : GenerationManager) (nonce : bytes) (g : Z)
    (locations : list (ContentId * ObjectLocation)) : GIO unit :=
  _ ⇐ (λ s, let '(r, c) := apply (sys_catalog s) (publication_batch g locations) in
            (map_err MaintCatalog r, mkSys (sys_disk s) c));
  on_manager (publish_active m nonce g).

Definition reconcile_active_generation (m : GenerationManager) (nonce : bytes) : GIO (option Z) :=
  g ⇐ st_get (λ s, current_generation (sys_catalog s));
  match g with
  | Some generation => _ ⇐ on_manager (publish_active m nonce generation); st_ret g
  | None => st_ret g
  end.

(** The loop that checks the plan. *)
Fixpoint check_live (source : Z) (previous : option ContentId) (live : list (ContentId * ObjectLocation))
    : result MaintenanceError unit :=
  match live with
  | [] => Ok ()
  | (id, location) :: live =>
      _ ← ensure (match previous with Some p => bytes_ltb (cid_bytes p) (cid_bytes id) | None => true end)
                 (InvalidCompactionPlan "live objects must be strictly ascending by ContentId");
      _ ← ensure (bool_decide (ol_generation location = source))
                 (CompactionSourceLocation source (ol_generation location));
      check_live source (Some id) live
  end.

(** The loop that copies records. *)
Fixpoint copy_live (target : Z) (live : list (ContentId * ObjectLocation))
    : XIO (list (ContentId * ObjectLocation)) :=
  match live with
  | [] => st_ret []
  | (id, location) :: live =>
      record ⇐ on_reader (read_verified id location);
      _ ⇐ st_lift (ensure (bool_decide (or_content_id record = id)) (CompactionRecordIdMismatch id));
      _ ⇐ st_lift (map_err CompactionReadCodec (verify_object_record record));
      shadow ⇐ on_writer (cw_append record);
      _ ⇐ st_lift (ensure (bool_decide (ol_generation shadow = target))
                          (CompactionShadowLocation target (ol_generation shadow)));
      rest ⇐ copy_live target live;
      st_ret ((id, shadow) :: rest)
  end.
Fixpoint verify_shadows (shadows : list (ContentId * ObjectLocation)) : XIO unit :=
  match shadows with
  | [] => st_ret ()
  | (id, shadow) :: shadows => _ ⇐ on_writer (cw_verify id shadow); verify_shadows shadows
  end.

Definition compact_completed_mark_set (m : GenerationManager) (nonce : bytes) (source target : Z)
    (live : list (ContentId * ObjectLocation)) : XIO CompactionOutcome :=
  _ ⇐ st_lift (ensure (bool_decide (source < target))
        (InvalidCompactionPlan "target generation must be greater than the source generation"));
  current ⇐ st_get (λ x, current_generation (sys_catalog (wd_sys x)));
  _ ⇐ st_lift (ensure (bool_decide (current = Some source)) (CompactionSourceIsNotCurrent source current));
  _ ⇐ st_lift (check_live source None live);
  shadows ⇐ copy_live target live;
  _ ⇐ on_writer cw_sync_data;
  _ ⇐ verify_shadows shadows;
  _ ⇐ on_sys (publish_generation m nonce target shadows);
  st_ret (mkCompactionOutcome source target (Z.of_nat (length shadows))).

(** Whether a root pins generation [g]. *)
Definition pins (g : Z) (root : GcRoot) : bool :=
  match root with
  | GcWorkspacePin _ g' => bool_decide (g' = g)
  | GcExplicitPin p => bool_decide (gp_generation p = g)
  | GcRepositorySnapshot _ _ => false
  end.

Definition retire_compacted_generation (m : GenerationManager) (nonce nonce' : bytes) (source target : Z)
    (generation_path trash_root : bytes) : GIO bytes :=
  _ ⇐ st_lift (ensure (bool_decide (source < target))
        (InvalidCompactionPlan "published target generation must be greater than the source generation"));
  current ⇐ st_get (λ s, current_generation (sys_catalog s));
  _ ⇐ st_lift (ensure (bool_decide (current = Some target)) (CompactionNotPublished source target current));
  roots ⇐ (λ s, (map_err MaintCatalog (gc_roots (sys_catalog s)), s));
  _ ⇐ st_lift (ensure (negb (existsb (pins source) roots)) (PinnedGeneration source));
  _ ⇐ reconcile_active_generation m nonce;
  on_manager (retire_generation m nonce' source generation_path trash_root).
End Compaction.

End Generation.
