(* ===== verification/CompactionSpec.v ===== *)
(** * What compaction guarantees

    A compaction that returns has moved every live object to a location of the
    target generation that the writer verified, in one catalog batch; whatever
    fails, no location leads to an unverified record. Objects outside the mark
    set keep their old location: retiring the source leaves it dangling. *)

From Stdlib Require Import ZArith Lia Strings.Byte Strings.String.
From stdpp Require Import base tactics list gmap strings sorting.
From S2P Require Import Prelude Order Core Format Codec CatalogCodec CatalogCodecSpec Catalog CatalogSpec RocksSpec Chunk CatalogInterface Disk DiskSpec Store Git Reader Snapshot Mark Generation.
Import Core Format Codec CatalogCodec CatalogCodecSpec Catalog CatalogSpec RocksSpec CatalogInterface Chunk Disk DiskSpec Store Git Reader Snapshot Mark MarkSpec Generation.

#[local] Open Scope Z_scope.

Module CompactionSpec.

(** What compaction relies on in its writer: a location has fields of the right
    widths, and a record that was verified stays held. *)
Class CompactionWriterLaws (W : Type) `{CompactionWriter W} := {
  held : W → ContentId → ObjectLocation → Prop;
  append_typed r w l w' : cw_append r w = (Ok l, w') → location_wf l;
  verify_held id l w w' : cw_verify id l w = (Ok (), w') →
    held w' id l ∧ ∀ id' l', held w id' l' → held w' id' l' }.

Section Compaction.
Context `{Digests} `{Zstd} `{CatalogLaws C} `{CompactionReader R} `{CompactionWriterLaws W}.
Abbreviation World := (World (C := C) (R := R) (W := W)).

(** ** The catalog batch *)

(** The last location given for an object. *)
Fixpoint relocation (locations : list (ContentId * ObjectLocation)) (id : ContentId) : option ObjectLocation :=
  match locations with
  | [] => None
  | (id', l) :: locations =>
      match relocation locations id with
      | Some l' => Some l'
      | None => if decide (id = id') then Some l else None
      end
  end.

(** The records after a publication. *)
Definition published (f : View) (g : Z) (locations : list (ContentId * ObjectLocation)) : View := λ k,
  match k with
  | KObject id => match relocation locations id with Some l => Some (VLocation l) | None => f k end
  | KMeta key => if decide (key = CURRENT_GENERATION_META_KEY) then Some (VOpaque (be_encode 4 g)) else f k
  | _ => f k
  end.

Lemma batch_locations b locations :
  fold_left (λ b p, put_object_location b p.1 p.2) locations b =
  b ++ map (λ p, OpObjectLocation p.1 p.2) locations.
Proof.
  revert b. induction locations as [|p locations IH]; intros b; cbn; [by rewrite app_nil_r|].
  rewrite IH. unfold put_object_location. by rewrite <-app_assoc.
Qed.
Lemma publication_effect f g locations :
  same (batch_effect f (publication_batch g locations)) (published f g locations).
Proof.
  unfold publication_batch, put_current_generation. rewrite batch_locations. cbn [app batch_new].
  unfold batch_effect. rewrite fold_left_app. cbn [fold_left].
  assert (∀ f k, fold_left write_effect (map (λ p, OpObjectLocation p.1 p.2) locations) f k =
    match k with
    | KObject id => match relocation locations id with Some l => Some (VLocation l) | None => f k end
    | _ => f k
    end) as Hloc.
  { induction locations as [|[id l] locations IH]; intros h k; cbn [map fold_left relocation fst snd].
    - by destruct k.
    - rewrite IH. unfold write_effect. cbn [op_write fst snd].
      destruct k; try (rewrite decide_False by done; done).
      destruct (relocation locations id0); [done|]. repeat case_decide; naive_solver. }
  intros k. unfold write_effect at 1. cbn [op_write fst snd]. rewrite Hloc. destruct k; cbn [published]; try done.
  case_decide as E; [injection E as ->; by rewrite decide_True|]. rewrite decide_False; [done|congruence].
Qed.
Lemma relocation_elem locations id l : relocation locations id = Some l → (id, l) ∈ locations.
Proof.
  induction locations as [|[id' l'] locations IH]; cbn; [done|].
  destruct (relocation locations id) as [l1|].
  - intros [= ->]. right. by apply IH.
  - case_decide; [|done]. subst. intros [= ->]. left.
Qed.
Lemma relocation_Some locations id l : (id, l) ∈ locations → is_Some (relocation locations id).
Proof.
  induction locations as [|[id' l'] locations IH]; [by intros ?%elem_of_nil|].
  intros [Heq|Hin]%elem_of_cons; cbn.
  - injection Heq as -> ->. destruct (relocation locations id'); [done|]. by rewrite decide_True.
  - destruct (IH Hin) as [l1 ->]. done.
Qed.
Lemma relocation_None locations id : id ∉ locations.*1 → relocation locations id = None.
Proof.
  intros Hn. destruct (relocation locations id) as [l|] eqn:E; [|done]. apply relocation_elem in E.
  exfalso. apply Hn, list_elem_of_fmap. by exists (id, l).
Qed.

(** ** Publication *)

Definition located_wf (p : ContentId * ObjectLocation) : Prop := ContentId_wf p.1 ∧ location_wf p.2.

Lemma publication_wf g locations : Forall located_wf locations → Forall op_wf (publication_batch g locations).
Proof.
  intros Hall. unfold publication_batch, put_current_generation. rewrite batch_locations. cbn [app batch_new].
  apply Forall_app. split.
  - apply Forall_map. eapply Forall_impl; [exact Hall|]. intros [id l] [Hid Hl]. split; [done|]. by intros v [= <-].
  - apply Forall_singleton. split; [done|]. by intros v [= <-].
Qed.

Lemma publish_generation_spec m nonce g locations (s : Sys C) f r s' :
  holds_view (sys_catalog s) f → Forall located_wf locations →
  publish_generation m nonce g locations s = (r, s') →
  ∃ f', holds_view (sys_catalog s') f' ∧ (same f' f ∨ same f' (published f g locations)) ∧
    (is_ok r = true → same f' (published f g locations)).
Proof.
  intros Hv Hwf Hp. unfold publish_generation, st_bind in Hp.
  pose proof (view_apply (sys_catalog s) f _ Hv (publication_wf g locations Hwf)) as Ha.
  destruct (apply (sys_catalog s) (publication_batch g locations)) as [[u|e] c'].
  - destruct Ha as (_ & f' & Hv' & Hs). rewrite publication_effect in Hs. exists f'.
    cbn [map_err] in Hp. unfold on_manager in Hp. cbn [sys_disk sys_catalog] in Hp.
    destruct (publish_active m nonce g (sys_disk s)) as [r1 d1]. injection Hp as <- <-. cbn. auto.
  - destruct Ha as (f' & Hv' & Hs). injection Hp as <- <-. exists f'. cbn.
    split_and!; [done| |done]. destruct Hs as [Hs|Hs]; [by left|]. right. by rewrite Hs, publication_effect.
Qed.

(** ** Copying *)

(** A shadow is a location for the same object, in the target generation. *)
Definition shadow_of (target : Z) (p q : ContentId * ObjectLocation) : Prop :=
  q.1 = p.1 ∧ ol_generation q.2 = target ∧ location_wf q.2.

Lemma copy_live_spec target live (x : World) r x' :
  copy_live target live x = (r, x') →
  wd_sys x' = wd_sys x ∧ ∀ shadows, r = Ok shadows → Forall2 (shadow_of target) live shadows.
Proof.
  revert x r x'. induction live as [|[id l] live IH]; intros x r x' Hc.
  { injection Hc as <- <-. split; [done|]. intros shadows [= <-]. constructor. }
  cbn [copy_live] in Hc. unfold st_bind at 1, on_reader in Hc.
  destruct (read_verified id l (wd_reader x)) as [[record|e] rd1]; cbn [map_err] in Hc.
  2: { injection Hc as <- <-. by split. }
  unfold st_bind at 1, st_lift at 1, ensure in Hc. case_bool_decide as Hid.
  2: { injection Hc as <- <-. by split. }
  unfold st_bind at 1, st_lift at 1 in Hc.
  destruct (verify_object_record record) as [u|e]; cbn [map_err] in Hc.
  2: { injection Hc as <- <-. by split. }
  unfold st_bind at 1, on_writer in Hc. cbn [wd_writer wd_sys wd_reader] in Hc.
  destruct (cw_append record (wd_writer x)) as [[shadow|e] w1] eqn:Happ; cbn [map_err] in Hc.
  2: { injection Hc as <- <-. by split. }
  unfold st_bind at 1, st_lift at 1 in Hc. case_bool_decide as Hg.
  2: { injection Hc as <- <-. by split. }
  unfold st_bind at 1 in Hc. destruct (copy_live target live _) as [[rest|e] x1] eqn:Hrest;
    apply IH in Hrest as [Hsys Hall]; cbn in Hsys; injection Hc as <- <-; (split; [done|]).
  - intros shadows [= <-]. constructor; [|by apply Hall]. split_and!; [done|done|]. by eapply append_typed.
  - done.
Qed.
Lemma verify_shadows_spec shadows (x : World) r x' :
  verify_shadows shadows x = (r, x') →
  wd_sys x' = wd_sys x ∧ (∀ id l, held (wd_writer x) id l → r = Ok () → held (wd_writer x') id l) ∧
  (r = Ok () → ∀ p, p ∈ shadows → held (wd_writer x') p.1 p.2).
Proof.
  revert x. induction shadows as [|[id l] shadows IH]; intros x Hv.
  { injection Hv as <- <-. split_and!; try done. by intros _ p ?%elem_of_nil. }
  cbn [verify_shadows] in Hv. unfold st_bind, on_writer in Hv.
  destruct (cw_verify id l (wd_writer x)) as [[[]|e] w1] eqn:Hver; cbn [map_err] in Hv.
  2: { injection Hv as <- <-. by split_and!. }
  apply verify_held in Hver as [Hh Hkeep]. apply IH in Hv as (Hsys & Hkeep' & Hall). cbn in *.
  split_and!; [done| |].
  - intros id' l' Hl' Hr. apply Hkeep'; [|done]. by apply Hkeep.
  - intros Hr p [->|Hp]%elem_of_cons; [by apply Hkeep'|by apply Hall].
Qed.

(** ** Compaction *)

Lemma compact_spec m nonce source target live (x : World) f r x' :
  holds_view (sys_catalog (wd_sys x)) f → Forall (λ p, ContentId_wf p.1) live →
  compact_completed_mark_set m nonce source target live x = (r, x') →
  ∃ f', holds_view (sys_catalog (wd_sys x')) f' ∧
    (same f' f ∧ is_ok r = false ∨
     ∃ shadows, Forall2 (shadow_of target) live shadows ∧ (∀ p, p ∈ shadows → held (wd_writer x') p.1 p.2) ∧
       same f' (published f target shadows)).
Proof.
  intros Hv Hwf Hc. unfold compact_completed_mark_set in Hc.
  unfold st_bind at 1, st_lift at 1, ensure at 1 in Hc. case_bool_decide as Hst.
  2: { injection Hc as <- <-. exists f. split; [done|by left]. }
  unfold st_bind at 1, st_get in Hc. unfold st_bind at 1, st_lift at 1, ensure at 1 in Hc.
  case_bool_decide as Hcur. 2: { injection Hc as <- <-. exists f. split; [done|by left]. }
  unfold st_bind at 1, st_lift at 1 in Hc. destruct (check_live source None live) as [u|e].
  2: { injection Hc as <- <-. exists f. split; [done|by left]. }
  unfold st_bind at 1 in Hc. destruct (copy_live target live x) as [r1 x1] eqn:Hcopy.
  apply copy_live_spec in Hcopy as [Hs1 Hshadow]. destruct r1 as [shadows|e].
  2: { injection Hc as <- <-. rewrite Hs1. exists f. split; [done|by left]. }
  specialize (Hshadow shadows eq_refl).
  unfold st_bind at 1, on_writer at 1 in Hc. destruct (cw_sync_data (wd_writer x1)) as [[u'|e] w2]; cbn [map_err] in Hc.
  2: { injection Hc as <- <-. cbn. rewrite Hs1. exists f. split; [done|by left]. }
  unfold st_bind at 1 in Hc. destruct (verify_shadows shadows _) as [r3 x3] eqn:Hver.
  apply verify_shadows_spec in Hver as (Hs3 & _ & Hheld). cbn in Hs3. destruct r3 as [[]|e].
  2: { injection Hc as <- <-. rewrite Hs3, Hs1. exists f. split; [done|by left]. }
  unfold st_bind at 1, on_sys in Hc. destruct (publish_generation m nonce target shadows (wd_sys x3)) as [r4 s4] eqn:Hpub.
  assert (Forall located_wf shadows) as Hloc.
  { clear -Hshadow Hwf. induction Hshadow as [|p q live shadows Hpq _ IH]; [done|]. apply Forall_cons in Hwf as [Hp Hwf].
    constructor; [|by apply IH]. destruct Hpq as (Hid & _ & Hl). split; [by rewrite Hid|done]. }
  destruct (publish_generation_spec _ _ _ _ (wd_sys x3) f _ _ ltac:(by rewrite Hs3, Hs1) Hloc Hpub) as (f' & Hv' & Hs & Hok).
  assert (wd_sys x' = s4 ∧ wd_writer x' = wd_writer x3 ∧ is_ok r = is_ok r4) as (Hx' & Hw' & Hr).
  { destruct r4; cbn in Hc; by injection Hc as <- <-. }
  exists f'. rewrite Hx'. split; [done|].
  assert (∀ p, p ∈ shadows → held (wd_writer x') p.1 p.2) as Hh by (rewrite Hw'; by apply Hheld).
  destruct Hs as [Hs|Hs]; [|right; by exists shadows].
  destruct (is_ok r4) eqn:E; [right; exists shadows; auto|]. left. by rewrite Hr.
Qed.

Lemma shadows_ids target live shadows : Forall2 (shadow_of target) live shadows → shadows.*1 = live.*1.
Proof. induction 1 as [|p q live shadows (Hid & _) _ IH]; cbn; congruence. Qed.
Lemma shadows_target target live shadows p :
  Forall2 (shadow_of target) live shadows → p ∈ shadows → ol_generation p.2 = target.
Proof.
  induction 1 as [|a b live shadows (_ & Hg & _) _ IH]; [by intros ?%elem_of_nil|].
  intros [->|Hp]%elem_of_cons; auto.
Qed.

(** Collection keeps everything reachable. Mark the live objects of a
    catalog, then compact the mark set, with any reads, writes and catalog calls
    failing. Whatever happens, each location in the catalog afterwards is the
    one it had before or one whose record the target writer verified after
    synchronizing; every record other than locations and the current generation
    is unchanged. When compaction succeeds, the content of every object reached
    from a ready snapshot or a retained reference is located in the target
    generation, at a verified record, and the target is the current generation. *)
Theorem collection_keeps_reachable `{SnapshotManifestSource M} (manifests : M) content retained limits
    m nonce source target live (x : World) rd rd' f r x' :
  holds_view (sys_catalog (wd_sys x)) f →
  reader_stable (R := R) (sys_catalog (wd_sys x)) content →
  unique_aliases (sys_catalog (wd_sys x)) → one_format (sys_catalog (wd_sys x)) content →
  completed_mark_set (sys_catalog (wd_sys x)) manifests retained limits rd = Some (Ok live, rd') →
  Forall (λ p, ContentId_wf p.1) live →
  compact_completed_mark_set m nonce source target live x = (r, x') →
  ∃ f', holds_view (sys_catalog (wd_sys x')) f' ∧
    (∀ id l, f' (KObject id) = Some (VLocation l) →
       f (KObject id) = Some (VLocation l) ∨ (ol_generation l = target ∧ held (wd_writer x') id l)) ∧
    (∀ k, (∀ id, k ≠ KObject id) → k ≠ KMeta CURRENT_GENERATION_META_KEY → f' k = f k) ∧
    (is_ok r = true → ∀ ref id,
       reached_ref (sys_catalog (wd_sys x)) content (ready_reference f manifests retained) ref →
       oid_alias (sys_catalog (wd_sys x)) (ro_repository ref) (ro_oid ref) = Some id →
       ∃ l, f' (KObject id) = Some (VLocation l) ∧ ol_generation l = target ∧ held (wd_writer x') id l) ∧
    (is_ok r = true → f' (KMeta CURRENT_GENERATION_META_KEY) = Some (VOpaque (be_encode 4 target))).
Proof.
  intros Hv Hst Hua Hof Hmark Hwf Hc.
  destruct (mark_set_spec _ _ _ _ _ _ _ _ _ Hv Hst Hua Hof Hmark) as (_ & _ & _ & Hreach).
  destruct (compact_spec _ _ _ _ _ _ _ _ _ Hv Hwf Hc) as (f' & Hv' & Hcase). exists f'. split; [done|].
  destruct Hcase as [[Hs Hr]|(shadows & Hsh & Hheld & Hs)].
  { split_and!; [intros id l; rewrite (Hs _); auto|intros k _ _; by rewrite (Hs _)|by rewrite Hr..]. }
  assert (∀ id l, relocation shadows id = Some l → ol_generation l = target ∧ held (wd_writer x') id l) as Hrel.
  { intros id l Hl%relocation_elem. split; [by apply (shadows_target _ _ _ _ Hsh Hl)|by apply (Hheld _ Hl)]. }
  split_and!.
  - intros id l. rewrite (Hs _). cbn. destruct (relocation shadows id) as [l'|] eqn:Hl; [|by left].
    intros [= ->]. right. by apply Hrel.
  - intros k Hk Hm. rewrite (Hs _). destruct k; cbn; try done; [by destruct (Hk id)|].
    rewrite decide_False; [done|congruence].
  - intros _ ref id Href Ha. destruct (Hreach ref id Href Ha) as [l0 Hl0].
    assert (id ∈ shadows.*1) as Hin.
    { rewrite (shadows_ids _ _ _ Hsh). apply list_elem_of_fmap. by exists (id, l0). }
    apply list_elem_of_fmap in Hin as ([id' l] & -> & Hin).
    destruct (relocation_Some _ _ _ Hin) as [l1 Hl1]. exists l1. rewrite (Hs _). cbn. rewrite Hl1.
    split; [done|]. by apply Hrel.
  - intros _. rewrite (Hs _). cbn. by rewrite decide_True.
Qed.

(** Collected objects leave dangling locations. After a successful
    compaction an object outside the mark set still has its location in the
    source generation, which retirement moves away; and while the catalog
    reports that location, storing the object again (a re-import of the same
    content) writes no record at all. *)
Theorem dead_location_dangles m nonce source target live (x : World) f out x' id l :
  holds_view (sys_catalog (wd_sys x)) f → Forall (λ p, ContentId_wf p.1) live →
  compact_completed_mark_set m nonce source target live x = (Ok out, x') →
  f (KObject id) = Some (VLocation l) → (id ∉ live.*1) →
  (∃ f', holds_view (sys_catalog (wd_sys x')) f' ∧ f' (KObject id) = Some (VLocation l)) ∧
  ∀ record w repo g c r w' s', or_content_id record = id →
    is_Some (object_location (sys_catalog (wd_sys x')) id) →
    append_and_index repo g c record (w, wd_sys x') = (r, (w', s')) →
    w' = w ∧ sys_disk s' = sys_disk (wd_sys x').
Proof.
  intros Hv Hwf Hc Hf Hnin. split.
  - destruct (compact_spec _ _ _ _ _ _ _ _ _ Hv Hwf Hc) as (f' & Hv' & [[_ Hr]|(shadows & Hsh & _ & Hs)]); [done|].
    exists f'. split; [done|]. rewrite (Hs _). cbn. rewrite relocation_None; [done|].
    by rewrite (shadows_ids _ _ _ Hsh).
  - intros record w repo g c r w' s' Hid [l' Hl'] Ha. unfold append_and_index in Ha.
    unfold st_bind at 1, st_get in Ha. cbn [fst] in Ha.
    unfold st_bind at 1, st_lift at 1, ensure at 1 in Ha. case_bool_decide; [|by injection Ha as _ <- <-].
    unfold st_bind at 1, st_lift at 1, ensure at 1 in Ha. case_bool_decide; [|by injection Ha as _ <- <-].
    unfold st_bind at 1, with_sys at 1, ensure_catalog_writable in Ha. cbn [fst snd] in Ha.
    destruct (match chunk _ _ _ with Some _ => _ | None => _ end) as [u|e]; [|by injection Ha as _ <- <-].
    unfold st_bind at 1 in Ha. cbn [fst snd] in Ha. rewrite Hid, Hl' in Ha.
    unfold st_bind, with_sys, catalog_apply, st_ret in Ha. cbn [fst snd] in Ha.
    destruct (apply _ _) as [[u'|e] c']; cbn in Ha; by injection Ha as _ <- <-.
Qed.

End Compaction.

(** ** A collection: a tree with a blob is live, another blob is not *)

Section Demo.
#[local] Existing Instance toy_digests.
#[local] Existing Instance toy_zstd.

Definition demo_id (kind : ObjectKind) (raw : bytes) : ContentId := ContentId_for_object kind raw.
Definition demo_oid (kind : ObjectKind) (raw : bytes) : GitOid :=
  match GitOid_for_object Sha1 kind raw with Ok o => o | Err _ => mkGitOid Sha1 20 [] end.
Definition demo_blob : bytes := b_ "hello".
Definition demo_dead : bytes := b_ "gone".
Definition demo_tree : bytes := b_ "100644 f" ++ x00 :: oid_as_bytes (demo_oid Blob demo_blob).
Definition demo_record (kind : ObjectKind) (raw : bytes) : ObjectRecord :=
  mkObjectRecord kind Raw 0 (Format.len raw) (demo_id kind raw) (demo_oid kind raw) raw.
Definition demo_location (g : Z) : ObjectLocation := mkObjectLocation g 0 64 152 3 3 Blob Raw 0 9.

#[local] Instance demo_reader : CompactionReader unit := λ id _ rd,
  if decide (id = demo_id Tree demo_tree) then (Ok (demo_record Tree demo_tree), rd)
  else if decide (id = demo_id Blob demo_blob) then (Ok (demo_record Blob demo_blob), rd)
  else (Err "no such object"%string, rd).
#[local] Instance demo_writer : CompactionWriter (list (ContentId * ObjectLocation)) := {|
  cw_append r w := (Ok (demo_location 2), w ++ [(or_content_id r, demo_location 2)]);
  cw_sync_data w := (Ok (), w);
  cw_verify id l w := (ensure (bool_decide ((id, l) ∈ w)) "record is not there"%string, w) |}.
#[local] Program Instance demo_writer_laws : CompactionWriterLaws (list (ContentId * ObjectLocation)) :=
  {| held w id l := (id, l) ∈ w |}.
Next Obligation. intros r w l w' [= <- _]. by vm_compute. Qed.
Next Obligation.
  intros id l w w'. cbn. unfold ensure. case_bool_decide; intros Heq; [|done]. by injection Heq as <-.
Qed.

Definition demo_repo : RepoId := mkRepoId (zeros 16).
Definition demo_snapshot : SnapshotId := mkSnapshotId (zeros 16).
Definition demo_manifest : SnapshotManifest :=
  mkSnapshotManifest demo_repo demo_snapshot Sha1 LocalBranchesAndTags
    [mkPersistedRef (b_ "refs/heads/main") Branch (demo_oid Tree demo_tree)] (mkImportSummary 2 2 0 7) 9 (b_ "1.0") [].
Definition demo_batch : CatalogBatch :=
    [OpObjectLocation (demo_id Tree demo_tree) (demo_location 1);
     OpObjectLocation (demo_id Blob demo_blob) (demo_location 1);
     OpObjectLocation (demo_id Blob demo_dead) (demo_location 1);
     OpOidAlias demo_repo (demo_oid Tree demo_tree) (demo_id Tree demo_tree);
     OpOidAlias demo_repo (demo_oid Blob demo_blob) (demo_id Blob demo_blob);
     OpRepositorySnapshot demo_repo demo_snapshot Ready;
     OpMeta CURRENT_GENERATION_META_KEY (be_encode 4 1)].
Definition demo_catalog : InMemoryCatalog := (im_apply InMemoryCatalog_default demo_batch).2.
Definition demo_manifests : RepoId → SnapshotId → result string SnapshotManifest := λ _ _, Ok demo_manifest.
Definition demo_live : list (ContentId * ObjectLocation) :=
  match completed_mark_set demo_catalog demo_manifests [] (mkMarkLimits 10 10 10) () with
  | Some (Ok live, _) => live
  | _ => []
  end.
Definition demo_content (id : ContentId) : option (ObjectKind * bytes) :=
  if decide (id = demo_id Tree demo_tree) then Some (Tree, demo_tree)
  else if decide (id = demo_id Blob demo_blob) then Some (Blob, demo_blob) else None.
Definition demo_world : World (C := InMemoryCatalog) (R := unit) (W := list (ContentId * ObjectLocation)) :=
  mkWorld (mkSys (mkDisk [] ∅ [] []) demo_catalog) () [].
Definition demo_manager : GenerationManager := mkGenerationManager (b_ "/gc").
Definition demo_compaction := compact_completed_mark_set demo_manager (b_ "1") 1 2 demo_live demo_world.

Lemma demo_stable : reader_stable (R := unit) demo_catalog demo_content.
Proof.
  intros id l [] record rd' raw _ Hread _ Hraw. unfold read_verified, demo_reader in Hread. unfold demo_content.
  case_decide as Ht.
  - injection Hread as <- <-. vm_compute in Hraw. injection Hraw as <-. vm_compute. reflexivity.
  - case_decide as Hb; [|done]. injection Hread as <- <-. vm_compute in Hraw. injection Hraw as <-.
    vm_compute. reflexivity.
Qed.
Lemma demo_aliases r o id : oid_alias demo_catalog r o = Some id →
  algorithm o = Sha1 ∧ (o = demo_oid Tree demo_tree ∧ id = demo_id Tree demo_tree ∨
                        o = demo_oid Blob demo_blob ∧ id = demo_id Blob demo_blob).
Proof.
  intros Ha. assert (stored demo_catalog (KAlias r o) = Some (VContent id)) as Hs by (cbn in *; by rewrite Ha).
  pose proof (im_apply_spec InMemoryCatalog_default demo_batch) as Hap. unfold demo_catalog in Hs.
  assert (is_ok (im_apply InMemoryCatalog_default demo_batch).1 = true) as Hok by (vm_compute; reflexivity).
  destruct (im_apply InMemoryCatalog_default demo_batch) as [[u|e] c]; [|discriminate Hok].
  destruct Hap as (_ & _ & _ & Hsame & _). cbn [snd] in Hs. rewrite (Hsame _) in Hs.
  unfold batch_effect, demo_batch, write_effect in Hs. cbn [fold_left op_write fst snd] in Hs.
  repeat (rewrite decide_False in Hs by discriminate).
  case_decide as H1; [injection H1 as -> ->; injection Hs as <-; split; [vm_compute; reflexivity|by right]|].
  case_decide as H2; [injection H2 as -> ->; injection Hs as <-; split; [vm_compute; reflexivity|by left]|].
  repeat (rewrite decide_False in Hs by discriminate). discriminate Hs.
Qed.
Lemma demo_unique : unique_aliases demo_catalog.
Proof.
  intros r r' o id id' [_ Ha]%demo_aliases [_ Hb]%demo_aliases.
  destruct Ha as [[-> ->]|[-> ->]], Hb as [[Hb ->]|[Hb ->]];
    [reflexivity|vm_compute in Hb; discriminate Hb|vm_compute in Hb; discriminate Hb|reflexivity].
Qed.
Lemma demo_one_format : one_format demo_catalog demo_content.
Proof. intros r r' o o' id kind raw [-> _]%demo_aliases [-> _]%demo_aliases _. by right. Qed.
Lemma demo_live_wf : Forall (λ p, ContentId_wf p.1) demo_live.
Proof. apply (bool_decide_unpack _). vm_compute. exact I. Qed.

(** The blob of the live tree ends up in generation 2. *)
Lemma collection_keeps_reachable_witness :
  is_ok demo_compaction.1 = true ∧
  ∃ f l, holds_view (sys_catalog (wd_sys demo_compaction.2)) f ∧
    f (KObject (demo_id Blob demo_blob)) = Some (VLocation l) ∧ ol_generation l = 2.
Proof.
  assert (is_ok demo_compaction.1 = true) as Hok by (vm_compute; reflexivity). split; [exact Hok|].
  destruct (collection_keeps_reachable demo_manifests demo_content [] (mkMarkLimits 10 10 10) demo_manager (b_ "1") 1 2
    demo_live demo_world () () (stored demo_catalog) demo_compaction.1 demo_compaction.2) as (f & Hv & _ & _ & Hall & _).
  - intros k. reflexivity.
  - apply demo_stable.
  - apply demo_unique.
  - apply demo_one_format.
  - vm_compute. reflexivity.
  - apply demo_live_wf.
  - apply surjective_pairing.
  - destruct (Hall Hok (mkRetained demo_repo (demo_oid Blob demo_blob)) (demo_id Blob demo_blob)) as (l & Hl & Hg & _).
    + apply (reached_reference _ _ _ (mkRetained demo_repo (demo_oid Tree demo_tree)) [demo_oid Blob demo_blob]);
        [|exists (demo_id Tree demo_tree), Tree, demo_tree; split_and!; vm_compute; reflexivity|left].
      apply reached_base. right. exists demo_snapshot, demo_manifest,
        (mkPersistedRef (b_ "refs/heads/main") Branch (demo_oid Tree demo_tree)).
      split_and!; [vm_compute; reflexivity|reflexivity|left|reflexivity].
    + vm_compute. reflexivity.
    + exists f, l. split_and!; [exact Hv|exact Hl|exact Hg].
Defined.

(** The other blob keeps its location in generation 1. *)
Lemma dead_location_dangles_witness :
  is_ok demo_compaction.1 = true ∧
  ∃ f, holds_view (sys_catalog (wd_sys demo_compaction.2)) f ∧
    f (KObject (demo_id Blob demo_dead)) = Some (VLocation (demo_location 1)).
Proof.
  assert (is_ok demo_compaction.1 = true) as Hok by (vm_compute; reflexivity). split; [exact Hok|].
  destruct demo_compaction.1 as [out|e] eqn:Hr; [|discriminate Hok].
  destruct (dead_location_dangles demo_manager (b_ "1") 1 2 demo_live demo_world (stored demo_catalog) out
    demo_compaction.2 (demo_id Blob demo_dead) (demo_location 1)) as [Hf _].
  - intros k. reflexivity.
  - apply demo_live_wf.
  - rewrite <-Hr. apply surjective_pairing.
  - vm_compute. reflexivity.
  - apply (bool_decide_unpack _). vm_compute. exact I.
  - exact Hf.
Defined.
End Demo.
End CompactionSpec.
