(* ===== verification/LeaseSpec.v ===== *)
(** * What leases and retirement guarantee

    While a lease on a generation is held, no sequence of calls of the manager
    retires that generation or touches a file outside the manager's directory;
    a published pointer is read back after any crash. *)

From Stdlib Require Import ZArith Lia Strings.Byte Strings.String.
From stdpp Require Import base tactics list gmap strings relations.
From S2P Require Import Prelude Order Core Format Codec CatalogCodec CatalogCodecSpec Catalog CatalogSpec RocksSpec CatalogInterface Chunk Disk DiskSpec Store Git Reader Snapshot SnapshotSpec PublicationSpec Mark Generation.
Import Core Format Codec CatalogCodec CatalogCodecSpec Catalog CatalogSpec RocksSpec CatalogInterface Chunk Disk DiskSpec Store Git Reader Snapshot SnapshotSpec PublicationSpec Mark Generation.

#[local] Open Scope Z_scope.

Module LeaseSpec.

(** ** Which names a call keeps *)

Definition keeps (p : Path) (d d' : Disk) : Prop :=
  ∀ n, d_names d !! p = Some n → d_names d' !! p = Some n.
#[export] Instance keeps_refl p : Reflexive (keeps p).
Proof. by intros d n. Qed.
#[export] Instance keeps_trans p : Transitive (keeps p).
Proof. intros d1 d2 d3 H1 H2 n Hn. by apply H2, H1. Qed.
Definition keeping {A E} (p : Path) (act : ST Disk E A) : Prop := ∀ d, keeps p d (act d).2.

Lemma keeping_bind {A B E} p (a : ST Disk E A) (k : A → ST Disk E B) :
  keeping p a → (∀ x, keeping p (k x)) → keeping p (st_bind a k).
Proof.
  intros Ha Hk d. specialize (Ha d). unfold st_bind. destruct (a d) as [[x|e] d1]; cbn in *; [|done].
  etrans; [exact Ha|apply Hk].
Qed.
Lemma keeping_lift {A E} p (r : result E A) : keeping p (st_lift r).
Proof. intros d. reflexivity. Qed.
Lemma keeping_ret {A E} p (x : A) : keeping (E := E) p (st_ret x).
Proof. intros d. reflexivity. Qed.
Lemma keeping_get {A E} p (f : Disk → A) : keeping (E := E) p (st_get f).
Proof. intros d. reflexivity. Qed.
Lemma keeping_mio {A} p (act : DiskIO A) : keeping p act → keeping p (mio act).
Proof. intros Ha d. specialize (Ha d). unfold mio, st_map_err. by destruct (act d). Qed.
Lemma keeping_io {A} p (act : DiskIO A) : (∀ d, keeps p d (act d).2) → keeping p (io act).
Proof.
  intros Ha d. destruct (io_spec act d) as [(e & d' & -> & Hs)|(d' & Hs & ->)]; cbn.
  - intros n. by rewrite (same_names _ _ Hs).
  - intros n Hn. apply Ha. by rewrite (same_names _ _ Hs).
Qed.
Create HintDb keeps.
#[export] Hint Resolve keeping_lift keeping_ret keeping_get keeping_mio : keeps.

Lemma keeping_open_or_create p q : keeping p (open_or_create q).
Proof.
  apply keeping_io. intros d n Hn. destruct (d_names d !! q) eqn:Hq; cbn; [done|].
  rewrite lookup_insert_ne; [done|congruence].
Qed.
Lemma keeping_create p q : keeping p (create_new q).
Proof.
  apply keeping_io. intros d n Hn. destruct (d_names d !! q) eqn:Hq; cbn; [done|].
  rewrite lookup_insert_ne; [done|congruence].
Qed.
Lemma keeping_write p n off b : keeping p (write_at n off b).
Proof.
  intros d k Hk. unfold write_at. pose proof (pop_same d) as Hs. destruct (pop_fault d) as [f d1]. cbn in Hs.
  case_decide; [|destruct f]; cbn; by rewrite (same_names _ _ Hs).
Qed.
Lemma keeping_sync p n : keeping p (sync_file n).
Proof. apply keeping_io. by intros d k. Qed.
Lemma keeping_sync_directory p dir : keeping p (sync_all_directory dir).
Proof. apply keeping_bind; [apply keeping_io; by intros d k|]. intros _. apply keeping_io. by intros d k. Qed.
Lemma keeping_create_dir p dir : keeping p (create_dir_all dir).
Proof. apply keeping_io. by intros d k. Qed.
Lemma keeping_rename p a b : p ≠ a → p ≠ b → keeping p (rename a b).
Proof.
  intros Ha Hb. apply keeping_io. intros d n Hn. destruct (d_names d !! a); cbn; [|done].
  by rewrite lookup_insert_ne, lookup_delete_ne.
Qed.
Lemma keeping_remove p q : p ≠ q → keeping p (remove_file q).
Proof.
  intros Hq. apply keeping_io. intros d n Hn. destruct (d_names d !! q); cbn; [|done].
  by rewrite lookup_delete_ne.
Qed.
#[export] Hint Resolve keeping_open_or_create keeping_create keeping_write keeping_sync keeping_sync_directory
  keeping_create_dir keeping_rename keeping_remove : keeps.
Ltac keep := repeat (apply keeping_bind; [eauto with keeps|intros]); eauto with keeps.

(** ** Directories *)

Lemma below_true a b : below a b = true ↔ ∃ r, b = a ++ r ∧ (r = [] ∨ ∃ r', r = SLASH :: r').
Proof.
  unfold below. rewrite orb_true_iff, bool_decide_eq_true, starts_with_true. unfold child. split.
  - intros [->|[r ->]].
    + exists []. rewrite app_nil_r. auto.
    + exists (SLASH :: r). rewrite <-app_assoc. eauto.
  - intros (r & -> & [->|(r' & ->)]).
    + left. apply app_nil_r.
    + right. exists r'. by rewrite <-app_assoc.
Qed.
Lemma relocate_below a b p : below a (p_dir p) = true → below b (p_dir (relocate a b p)) = true.
Proof.
  intros Hb. unfold relocate. rewrite Hb. cbn. apply below_true in Hb as (r & Hr & Hs).
  apply below_true. exists r. by rewrite Hr, drop_app_length.
Qed.

Lemma keeping_rename_directory p a b d :
  below a (p_dir p) = false → directory_exists d b = false → keeps p d (rename_directory a b d).2.
Proof.
  intros Ha Hex. unfold rename_directory.
  destruct (io_spec (λ d, (Ok (), set_names (move_names a b (d_names d)) d)) d) as [(e & d' & -> & Hs)|(d' & Hs & ->)];
    intros n Hn; cbn; [by rewrite (same_names _ _ Hs)|]. rewrite (same_names _ _ Hs). unfold move_names.
  apply elem_of_list_to_map_1'.
  - intros n' Hin. apply list_elem_of_fmap in Hin as ([q m] & Heq & Hin). cbn in Heq. injection Heq as Hp ->.
    destruct (below a (p_dir q)) eqn:Hq.
    + apply (relocate_below a b) in Hq. rewrite <-Hp in Hq.
      assert (directory_exists d b = true) as Ht; [|congruence]. apply existsb_exists. exists (p, n). split; [|done].
      by apply list_elem_of_In, elem_of_map_to_list.
    + unfold relocate in Hp. rewrite Hq in Hp. subst q. apply elem_of_map_to_list in Hin. congruence.
  - apply list_elem_of_fmap. exists (p, n). split; [|by apply elem_of_map_to_list]. cbn. unfold relocate. by rewrite Ha.
Qed.

(** ** The manager *)

Section Manager.
Context (m : GenerationManager).
Abbreviation root := (gm_root m).
(** A file that the manager never replaces or removes by itself: a lease, or a
    file outside its directory. *)
Definition safe (p : Path) : Prop := p_dir p ≠ root ∧ p_dir p ≠ retiring_dir m.

Lemma keeping_lock p : keeping p (state_lock m).
Proof. unfold state_lock. keep. apply keeping_mio, keeping_io. by intros d k. Qed.
Lemma keeping_replace p t q b : p ≠ t → p ≠ q → keeping p (replace_file t q b).
Proof. intros Ht Hq. unfold replace_file. keep. Qed.
#[local] Hint Resolve keeping_lock keeping_replace : keeps.
Lemma safe_root p name : safe p → p ≠ file_in root name.
Proof. intros [Hr _] ->. by apply Hr. Qed.
Lemma safe_retiring p name : safe p → p ≠ file_in (retiring_dir m) name.
Proof. intros [_ Hr] ->. by apply Hr. Qed.
#[local] Hint Resolve safe_root safe_retiring : keeps.

Lemma keeping_publish p nonce g : safe p → keeping p (publish_active m nonce g).
Proof. intros Hp. unfold publish_active, pointer_path. keep. Qed.
Lemma keeping_active_locked p : keeping p (active_generation_locked m).
Proof.
  intros d. unfold active_generation_locked. destruct (open_file (pointer_path m) d) as [r d1] eqn:Ho.
  apply open_file_spec in Ho as [Hs _]. assert (keeps p d d1) as Hk by (intros n; by rewrite (same_names _ _ Hs)).
  destruct r as [file|e]; [|by destruct e]. etrans; [exact Hk|].
  assert (keeping p (st_bind (mio (read_file file)) (λ content,
    st_bind (st_lift (ok_or (parse_u32 (trim content)) InvalidGenerationPointer)) (λ g, st_ret (Some g))))) as Hr.
  { keep. apply keeping_mio, keeping_io. by intros d' k. }
  apply Hr.
Qed.
Lemma keeping_lease p pid nonce g : keeping p (lease m pid nonce g).
Proof. unfold lease. keep. Qed.
Lemma keeping_reclaim_locked p g : keeping p (may_reclaim_locked m g).
Proof. unfold may_reclaim_locked. keep. apply keeping_mio, keeping_io. by intros d k. Qed.
Lemma keeping_cancel p g : safe p → keeping p (cancel_retirement m g).
Proof.
  intros Hp. unfold cancel_retirement. apply keeping_bind; [apply keeping_lock|]. intros _ d.
  pose proof (keeping_remove p (retiring_marker m g) (safe_retiring _ _ Hp) d) as Hr.
  destruct (remove_file (retiring_marker m g) d) as [[u|e] d1]; [|by destruct e].
  etrans; [exact Hr|]. apply keeping_mio, keeping_sync_directory.
Qed.
Lemma keeping_stop p nonce g : safe p → keeping p (stop_admitting_leases_locked m nonce g).
Proof.
  intros Hp. unfold stop_admitting_leases_locked. apply keeping_bind; [eauto with keeps|]. intros [|]; keep.
Qed.
#[local] Hint Resolve keeping_publish keeping_active_locked keeping_lease keeping_reclaim_locked keeping_cancel keeping_stop : keeps.

Lemma keeping_retire p nonce g gp trash :
  safe p → below gp (p_dir p) = false → keeping p (retire_generation m nonce g gp trash).
Proof.
  intros Hp Hgp. unfold retire_generation. do 7 (apply keeping_bind; [eauto with keeps|intros]).
  intros d. unfold st_bind at 1, st_get. unfold st_bind at 1, st_lift, ensure.
  destruct (directory_exists d (retired_name trash g)) eqn:Hex; cbn [negb]; [reflexivity|].
  pose proof (keeping_rename_directory p gp (retired_name trash g) d Hgp Hex) as Hk.
  unfold st_bind at 1, mio at 1, st_map_err. destruct (rename_directory gp _ d) as [[u|e] d1]; cbn in *; [|done].
  etrans; [exact Hk|].
  assert (keeping p (st_bind (mio (sync_all_directory trash)) (λ _, st_ret (retired_name trash g)))) as Hs by keep.
  apply Hs.
Qed.

Lemma lease_safe g name : safe (file_in (generation_leases m g) name).
Proof.
  unfold safe, generation_leases, retiring_dir, child. cbn [file_in p_dir]. split; intros Heq.
  - rewrite <-app_assoc in Heq. rewrite <-(app_nil_r root) in Heq at 2. by apply app_inv_head in Heq.
  - rewrite <-app_assoc in Heq. by apply app_inv_head in Heq.
Qed.
Lemma reclaim_refuses g p d : p_dir p = generation_leases m g → is_Some (d_names d !! p) →
  ∀ d', may_reclaim_locked m g d ≠ (Ok true, d').
Proof.
  intros Hp [n Hn] d' Hr. unfold may_reclaim_locked, st_bind, mio, st_map_err in Hr.
  destruct (io _ d) as [[entries|e] d1] eqn:Hio; cbn [map_err] in Hr; [|done].
  apply io_ok in Hio as (d2 & Hs & Hio). injection Hio as <- ->.
  unfold st_lift, ensure in Hr. cbn [fst snd] in Hr. case_bool_decide; [|done]. injection Hr as Hr _.
  apply bool_decide_eq_true in Hr. assert (p ∈ files_in d1 (generation_leases m g)) as Hin.
  { apply list_elem_of_fmap. exists (p, n). split; [done|]. apply list_elem_of_filter. split; [done|].
    apply elem_of_map_to_list. by rewrite (same_names _ _ Hs). }
  rewrite Hr in Hin. by apply elem_of_nil in Hin.
Qed.

Lemma retire_refuses p n nonce g gp trash d :
  p_dir p = generation_leases m g → d_names d !! p = Some n → safe p →
  is_ok (retire_generation m nonce g gp trash d).1 = false ∧
  ∀ q, safe q → keeps q d (retire_generation m nonce g gp trash d).2.
Proof.
  intros Hp Hn Hs. unfold retire_generation.
  assert (∀ A (act : ST Disk MaintenanceError A) (k : A → ST Disk MaintenanceError bytes) d,
    (∀ q, safe q → keeping q act) → d_names d !! p = Some n →
    (∀ x d', act d = (Ok x, d') → d_names d' !! p = Some n →
       is_ok (k x d').1 = false ∧ ∀ q, safe q → keeps q d' (k x d').2) →
    is_ok (st_bind act k d).1 = false ∧ ∀ q, safe q → keeps q d (st_bind act k d).2) as Hstep.
  { intros A act k d0 Hk Hd0 Hnext. unfold st_bind. destruct (act d0) as [[x|e] d1] eqn:E.
    - assert (∀ q, safe q → keeps q d0 d1) as Hk1 by (intros q Hq; specialize (Hk q Hq d0); by rewrite E in Hk).
      destruct (Hnext x d1 eq_refl) as [Hok Hk2]; [by apply Hk1|]. split; [done|].
      intros q Hq. etrans; [by apply Hk1|by apply Hk2].
    - split; [done|]. intros q Hq. specialize (Hk q Hq d0). by rewrite E in Hk. }
  do 4 (apply Hstep; [intros; eauto with keeps|done|]; intros ? d' _ Hn'; clear d Hn;
    rename d' into d, Hn' into Hn).
  apply Hstep; [intros; eauto with keeps|done|]. intros free d' Hfree Hn'.
  destruct free; [exfalso; eapply (reclaim_refuses g p d Hp ltac:(by exists n)), Hfree|]. by split.
Qed.

(** Any call of the manager, however it ends, other than dropping the lease [p]
    and reopening the manager; directories retired do not hold [p]. *)
Inductive manager_step (p : Path) : Disk → Disk → Prop :=
| step_publish nonce g d : manager_step p d (publish_active m nonce g d).2
| step_active d : manager_step p d (active_generation m d).2
| step_lease pid nonce g d : manager_step p d (lease m pid nonce g d).2
| step_drop q d : q ≠ p → manager_step p d (drop_lease q d)
| step_reclaim g d : manager_step p d (may_reclaim m g d).2
| step_cancel g d : manager_step p d (cancel_retirement m g d).2
| step_retire nonce g gp trash d :
    below gp (p_dir p) = false → manager_step p d (retire_generation m nonce g gp trash d).2.

Lemma step_keeps p d d' : safe p → manager_step p d d' → keeps p d d'.
Proof.
  intros Hp Hstep. destruct Hstep.
  - by apply keeping_publish.
  - apply keeping_bind; eauto with keeps.
  - apply keeping_lease.
  - unfold drop_lease. pose proof (keeping_remove p q ltac:(congruence) d) as Hr.
    destruct (remove_file q d) as [[u|e] d1]; [|done]. etrans; [exact Hr|]. apply keeping_sync_directory.
  - apply keeping_bind; eauto with keeps.
  - by apply keeping_cancel.
  - by apply keeping_retire.
Qed.

Lemma create_keeps_name q d n d' : create_new q d = (Ok n, d') → d_names d' !! q = Some n.
Proof. intros Hc. by apply create_new_ok in Hc as [_ ?]. Qed.
Lemma lease_Ok pid nonce g d p d' : lease m pid nonce g d = (Ok p, d') →
  p_dir p = generation_leases m g ∧ safe p ∧ is_Some (d_names d' !! p).
Proof.
  unfold lease. intros Hl.
  unfold st_bind at 1 in Hl. destruct (state_lock m d) as [[u|e] d1]; [|done].
  unfold st_bind at 1, st_get in Hl. unfold st_bind at 1, st_lift at 1 in Hl. destruct (ensure _ _) as [u'|]; [|done].
  unfold st_bind at 1 in Hl. destruct (mio (create_dir_all _) d1) as [[u2|e] d2]; [|done].
  set (q := file_in _ _) in Hl. unfold st_bind at 1 in Hl.
  destruct (mio (create_new q) d2) as [[file|e] d3] eqn:Hc; [|done].
  unfold mio, st_map_err in Hc. destruct (create_new q d2) as [[file'|e] d3'] eqn:Hc'; [|done]. injection Hc as -> ->.
  apply create_keeps_name in Hc'.
  match type of Hl with ?act d3 = _ => assert (keeping q act) as Hk by keep; specialize (Hk d3); rewrite Hl in Hk end.
  assert (p = q) as ->.
  { unfold st_bind, st_ret in Hl. repeat (destruct (mio _ _) as [[?|?] ?]; [|done]). by injection Hl as <- _. }
  split_and!; [done|apply lease_safe|]. exists file. by apply Hk.
Qed.

(** C33. A lease keeps its generation in place. Once [lease] has returned a lease
    on a generation, then after any sequence of calls of the manager, failing or
    not, that does not drop this lease (the reconciliation of abandoned leases,
    which is not to run while leases are live, is not among them), retiring the generation fails, and no
    file outside the manager's own bookkeeping is moved or removed by it. *)
Theorem lease_blocks_retirement pid nonce g d p d1 d2 nonce' gp trash :
  lease m pid nonce g d = (Ok p, d1) → rtc (manager_step p) d1 d2 →
  is_ok (retire_generation m nonce' g gp trash d2).1 = false ∧
  ∀ q, safe q → keeps q d2 (retire_generation m nonce' g gp trash d2).2.
Proof.
  intros Hl Hsteps. apply lease_Ok in Hl as (Hdir & Hs & [n Hn]).
  assert (d_names d2 !! p = Some n) as Hn2.
  { induction Hsteps as [d1|d1 d3 d2 Hstep _ IH]; [done|]. apply IH. by apply (step_keeps _ _ _ Hs Hstep). }
  by apply (retire_refuses p n).
Qed.

(** ** Replaced files *)

Lemma replace_Ok t q b d d' :
  replace_file t q b d = (Ok (), d') →
  ∃ n, d_names d' !! q = Some n ∧ d_inodes d' !! n = Some (mkInode b b).
Proof.
  unfold replace_file, mio, st_map_err, st_bind. intros Hr.
  destruct (create_new t d) as [[n|e] d1] eqn:Hd1; cbn [map_err] in Hr; [|done].
  destruct (write_at n 0 b d1) as [[[]|e] d2] eqn:Hd2; cbn [map_err] in Hr; [|done].
  destruct (sync_file n d2) as [[[]|e] d3] eqn:Hd3; cbn [map_err] in Hr; [|done].
  destruct (rename t q d3) as [[[]|e] d4] eqn:Hd4; cbn [map_err] in Hr; [|done]. injection Hr as <-.
  apply create_new_ok in Hd1 as [Hi1 Hn1]. apply write_new_ok in Hd2 as [Hi2 Hn2]; [|done].
  apply (sync_ok _ b) in Hd3 as [Hi3 Hn3]; [|done]. rewrite <-Hn2, <-Hn3 in Hn1.
  destruct (rename_ok _ _ _ _ _ Hd4 Hn1) as [Hi4 Hn4]. exists n. by rewrite Hi4.
Qed.

(** ** The pointer *)

Lemma publish_durable nonce g d d' :
  publish_active m nonce g d = (Ok (), d') → durable_file d' (pointer_path m) (to_string g ++ [LF]).
Proof.
  unfold publish_active. intros Hp. unfold st_bind at 1 in Hp. destruct (state_lock m d) as [[u|e] d1]; [|done].
  unfold st_bind at 1 in Hp. destruct (replace_file _ _ _ d1) as [[[]|e] d2] eqn:Hr; [|done].
  apply replace_Ok in Hr as (n & Hn & Hi). unfold mio, st_map_err in Hp.
  destruct (sync_all_directory root d2) as [[[]|e] d3] eqn:Hs; [|done]. injection Hp as <-.
  by apply (sync_directory_ok (pointer_path m) d2 d3 n).
Qed.
Lemma lock_names d r d' : state_lock m d = (r, d') → ∀ p, keeps p d d' ∧
  (∀ n i, d_inodes d !! n = Some i → d_inodes d' !! n = Some i) ∧ (d_faults d = [] → r = Ok () ∧ d_faults d' = []).
Proof.
  intros Hl p. split; [pose proof (keeping_lock p d) as Hk; by rewrite Hl in Hk|].
  unfold state_lock, st_bind, mio, st_map_err, open_or_create, io, pop_fault in Hl.
  destruct (d_faults d) as [|[f|] fs] eqn:Hf.
  - destruct (d_names d !! state_lock_path m); cbn in Hl; rewrite Hf in Hl; injection Hl as <- <-; cbn.
    + split; [done|]. by split.
    + split; [|by split]. intros n i Hi. by apply lookup_app_l_Some.
  - injection Hl as <- <-. cbn. split; [done|]. by intros.
  - cbn in Hl. split; [|by intros].
    destruct (d_names d !! state_lock_path m); cbn in Hl; destruct fs as [|[f|] fs]; injection Hl as <- <-; cbn;
      try done; intros n i Hi; by apply lookup_app_l_Some.
Qed.
End Manager.

Lemma parse_dec_digits fuel n acc :
  0 ≤ n < 10 ^ Z.of_nat fuel → (0 < fuel)%nat → n ≤ u32_max →
  parse_digits 0 (dec_digits fuel n acc) = parse_digits n acc.
Proof.
  revert n acc. induction fuel as [|fuel IH]; intros n acc Hn Hf Hmax; [lia|]. cbn [dec_digits].
  pose proof (Z.mod_pos_bound n 10 ltac:(lia)) as Hmod. pose proof (Z.div_mod n 10 ltac:(lia)) as Hdm.
  assert (∀ a, 0 ≤ a → a * 10 + n mod 10 ≤ u32_max →
    parse_digits a (byte_of_Z (48 + n mod 10) :: acc) = parse_digits (a * 10 + n mod 10) acc) as Hdigit.
  { intros a Ha Hle. cbn [parse_digits]. rewrite digit_byte by lia. rewrite decide_True by lia.
    unfold u32_try_from. rewrite decide_True by lia. cbn. rewrite decide_True by lia. cbn. f_equal. lia. }
  case_decide as Hsmall.
  - rewrite Hdigit by lia. f_equal. rewrite Z.mod_small; lia.
  - rewrite Nat2Z.inj_succ, Z.pow_succ_r in Hn by lia.
    assert (fuel ≠ 0%nat). { intros ->. cbn in Hn. lia. }
    rewrite IH; [|split; [apply Z.div_pos; lia|apply Z.div_lt_upper_bound; lia]|lia|lia].
    rewrite Hdigit by lia. f_equal. lia.
Qed.
Definition is_digit (b : byte) : Prop := 48 ≤ byte_to_Z b ≤ 57.
Lemma dec_digits_digits fuel n acc : 0 ≤ n → (0 < fuel)%nat → Forall is_digit acc →
  Forall is_digit (dec_digits fuel n acc) ∧ dec_digits fuel n acc ≠ [].
Proof.
  revert n acc. induction fuel as [|fuel IH]; intros n acc Hn Hf Hacc; [lia|]. cbn [dec_digits].
  pose proof (Z.mod_pos_bound n 10 ltac:(lia)) as Hmod.
  assert (Forall is_digit (byte_of_Z (48 + n mod 10) :: acc)) as Hall.
  { constructor; [|done]. unfold is_digit. rewrite digit_byte; lia. }
  case_decide; [done|]. destruct fuel; [done|]. apply IH; [apply Z.div_pos; lia|lia|done].
Qed.
Lemma digit_not_white b : is_digit b → is_white b = false.
Proof.
  unfold is_digit, is_white. intros Hb. apply orb_false_iff. split; apply bool_decide_eq_false; lia.
Qed.
Lemma trim_digits b : Forall is_digit b → b ≠ [] → trim (b ++ [LF]) = b.
Proof.
  intros Hall Hne. unfold trim.
  assert (∀ l, Forall is_digit l → l ≠ [] → ∀ r, trim_white (l ++ r) = l ++ r) as Hd.
  { intros [|x l] Hl Hn r; [done|]. apply Forall_cons in Hl as [Hx _]. cbn. by rewrite digit_not_white. }
  rewrite Hd by done. rewrite reverse_app. change (trim_white (reverse [LF] ++ reverse b)) with (trim_white (reverse b)).
  assert (trim_white (reverse b) = reverse b) as ->; [|apply reverse_involutive].
  rewrite <-(app_nil_r (reverse b)). apply Hd.
  - by apply Forall_reverse.
  - intros Hr. apply Hne. rewrite <-(reverse_involutive b), Hr. done.
Qed.
Lemma parse_generation_text g : is_u32 g → parse_u32 (trim (to_string g ++ [LF])) = Some g.
Proof.
  intros Hg. unfold in_width in Hg. unfold to_string.
  destruct (dec_digits_digits 20 g [] ltac:(lia) ltac:(lia) ltac:(constructor)) as [Hall Hne].
  rewrite trim_digits by done.
  assert (parse_digits 0 (dec_digits 20 g []) = Some g) as Hp
    by (rewrite parse_dec_digits; unfold u32_max; [done|lia|lia|lia]).
  unfold parse_u32. destruct (dec_digits 20 g []) as [|x b] eqn:E; [done|].
  destruct (decide (x = PLUS)) as [->|_]; [|by rewrite decide_False].
  apply Forall_cons in Hall as [Hx _]. unfold is_digit in Hx. vm_compute in Hx. by destruct Hx.
Qed.

(** The published generation is read back: after [publish_active] has
    returned and any crash, the manager reads exactly the generation that was
    published. *)
Theorem pointer_survives m nonce g d d' d2 :
  is_u32 g → publish_active m nonce g d = (Ok (), d') → crash d' d2 → d_faults d2 = [] →
  (active_generation m d2).1 = Ok (Some g).
Proof.
  intros Hg Hp Hc Hf. apply publish_durable in Hp. apply (durable_file_crash _ _ _ _ Hc) in Hp as (n & Hn & Hi).
  apply Forall_cons in Hn as [Hn _]. unfold active_generation, st_bind.
  destruct (state_lock m d2) as [r d3] eqn:Hl.
  destruct (lock_names m _ _ _ Hl (pointer_path m)) as (Hk & Hin & Hfaults). destruct (Hfaults Hf) as [-> Hf3].
  apply Hk in Hn. apply Hin in Hi. unfold active_generation_locked, open_file, io, pop_fault. rewrite Hf3, Hn. cbn.
  unfold mio, st_map_err, st_bind, read_file, io, pop_fault, data.
  rewrite Hf3, Hi. cbn -[parse_u32 trim to_string app]. unfold st_lift. by rewrite parse_generation_text.
Qed.

(** ** Retirement of a compacted generation *)

Lemma bind_Ok_split {S E A B} (a : ST S E A) (k : A → ST S E B) s b s' :
  st_bind a k s = (Ok b, s') → ∃ x s1, a s = (Ok x, s1) ∧ k x s1 = (Ok b, s').
Proof. unfold st_bind. destruct (a s) as [[x|e] s1]; [eauto|done]. Qed.

Lemma stop_marks m nonce g d d' :
  stop_admitting_leases_locked m nonce g d = (Ok (), d') → is_Some (d_names d' !! retiring_marker m g).
Proof.
  unfold stop_admitting_leases_locked, st_bind at 1, st_get. destruct (path_exists d _) eqn:Hex.
  - intros Heq. injection Heq as <-. by apply bool_decide_eq_true in Hex.
  - intros Hs. apply bind_Ok_split in Hs as ([] & d1 & Hr & Hs). apply replace_Ok in Hr as (n & Hn & _).
    exists n. pose proof (keeping_mio _ _ (keeping_sync_directory (retiring_marker m g) (retiring_dir m)) d1) as Hk.
    rewrite Hs in Hk. by apply Hk.
Qed.

Lemma retire_Ok m nonce g gp trash d dest d' :
  below gp (retiring_dir m) = false → retire_generation m nonce g gp trash d = (Ok dest, d') →
  is_Some (d_names d' !! retiring_marker m g).
Proof.
  intros Hgp Hr. unfold retire_generation in Hr.
  apply bind_Ok_split in Hr as (? & d1 & _ & Hr). apply bind_Ok_split in Hr as (active & d2 & _ & Hr).
  apply bind_Ok_split in Hr as (? & d3 & _ & Hr). apply bind_Ok_split in Hr as ([] & d4 & Hstop & Hr).
  apply stop_marks in Hstop as [n Hn]. apply bind_Ok_split in Hr as (free & d5 & Hfree & Hr).
  pose proof (keeping_reclaim_locked m (retiring_marker m g) g d4 n Hn) as Hn5. rewrite Hfree in Hn5. cbn in Hn5.
  apply bind_Ok_split in Hr as (? & d6 & H6 & Hr). injection H6 as _ <-.
  apply bind_Ok_split in Hr as (? & d7 & H7 & Hr).
  pose proof (keeping_mio _ _ (keeping_create_dir (retiring_marker m g) trash) d5 n Hn5) as Hn7. rewrite H7 in Hn7. cbn in Hn7.
  apply bind_Ok_split in Hr as (conflict & d8 & H8 & Hr). injection H8 as <- <-.
  apply bind_Ok_split in Hr as (? & d9 & H9 & Hr). injection H9 as H9 <-. unfold ensure in H9.
  destruct (directory_exists d7 _) eqn:Hex; [done|].
  apply bind_Ok_split in Hr as (? & d10 & H10 & Hr). unfold mio, st_map_err in H10.
  pose proof (keeping_rename_directory (retiring_marker m g) gp _ d7 Hgp Hex n Hn7) as Hn10.
  destruct (rename_directory gp _ d7) as [[u|e] d10']; [|done]. injection H10 as _ ->. cbn in Hn10.
  apply bind_Ok_split in Hr as (? & d11 & H11 & Hr). injection Hr as _ <-.
  pose proof (keeping_mio _ _ (keeping_sync_directory (retiring_marker m g) trash) d10 n Hn10) as Hn11.
  rewrite H11 in Hn11. by exists n.
Qed.

Section Retirement.
Context `{CatalogLaws C}.

(** Retirement is guarded. [retire_compacted_generation] succeeds only when
    the catalog's current generation is the published target and no workspace
    pin or operational pin retains the source; it leaves the catalog unchanged,
    and from then on no reader is admitted to the source. *)
Theorem retirement_guarded m nonce nonce' source target gp trash (s : Sys C) f dest s' :
  holds_view (sys_catalog s) f → below gp (retiring_dir m) = false →
  retire_compacted_generation m nonce nonce' source target gp trash s = (Ok dest, s') →
  source < target ∧ current_generation (sys_catalog s) = Some target ∧
  (∀ w, f (KWorkspacePin w) ≠ Some (VGeneration source)) ∧
  (∀ id, f (KGcPin id) ≠ Some (VGeneration source)) ∧
  sys_catalog s' = sys_catalog s ∧
  ∀ pid nonce'', is_ok (lease m pid nonce'' source (sys_disk s')).1 = false.
Proof.
  intros Hv Hgp Hr. unfold retire_compacted_generation in Hr.
  apply bind_Ok_split in Hr as (? & s1 & Hs1 & Hr). unfold st_lift, ensure in Hs1.
  case_bool_decide as Hlt; [|done]. injection Hs1 as _ <-.
  apply bind_Ok_split in Hr as (current & s2 & Hs2 & Hr). injection Hs2 as <- <-.
  apply bind_Ok_split in Hr as (? & s3 & Hs3 & Hr). unfold st_lift, ensure in Hs3.
  case_bool_decide as Hcur; [|done]. injection Hs3 as _ <-.
  apply bind_Ok_split in Hr as (roots & s4 & Hs4 & Hr).
  destruct (gc_roots (sys_catalog s)) as [roots'|] eqn:Hroots; [|done]. injection Hs4 as -> <-.
  apply bind_Ok_split in Hr as (? & s5 & Hs5 & Hr). unfold st_lift, ensure in Hs5.
  destruct (existsb (pins source) roots) eqn:Hpins; [done|]. injection Hs5 as _ <-.
  assert (∀ root, root_in f root → pins source root = false) as Hnone.
  { intros root Hin. apply (view_roots _ _ _ Hv Hroots) in Hin. destruct (pins source root) eqn:E; [|done].
    rewrite <-Hpins. symmetry. apply existsb_exists. exists root. split; [by apply list_elem_of_In|done]. }
  apply bind_Ok_split in Hr as (g & s6 & Hs6 & Hr).
  assert (sys_catalog s6 = sys_catalog s) as Hc6.
  { unfold reconcile_active_generation, st_bind, st_get, on_manager, st_ret in Hs6. rewrite Hcur in Hs6.
    destruct (publish_active _ _ _ _) as [[u|e] d1]; [|done]. by injection Hs6 as _ <-. }
  unfold on_manager in Hr. destruct (retire_generation _ _ _ _ _ _) as [r7 d7] eqn:Hret.
  injection Hr as -> <-. apply retire_Ok in Hret as Hmark; [|done]. split_and!; try done.
  - intros w Hw. pose proof (Hnone (GcWorkspacePin w source) Hw) as Hp. cbn in Hp. by case_bool_decide.
  - intros id Hid. pose proof (Hnone (GcExplicitPin (mkGcPin id source)) Hid) as Hp. cbn in Hp. by case_bool_decide.
  - intros pid nonce''. cbn [sys_disk]. unfold lease, st_bind at 1.
    destruct (state_lock m d7) as [[u|e] d8] eqn:Hl; [|done].
    destruct (lock_names m _ _ _ Hl (retiring_marker m source)) as [Hk _].
    unfold st_bind at 1, st_get. unfold path_exists. rewrite bool_decide_eq_true_2; [done|].
    destruct Hmark as [n Hn]. exists n. by apply Hk.
Qed.
End Retirement.

(** ** Runs *)

Lemma survive_synced l :
  Forall (λ i, i_synced i = i_data i ∧ Format.len (i_data i) ≤ MAX_FILE_BYTES) l → Forall2 survives l l.
Proof. induction 1 as [|i l [Hs Hl] _ IH]; constructor; [|done]. by split_and!. Qed.

Definition demo_manager : GenerationManager := mkGenerationManager (b_ "/m").
Definition demo_disk : Disk := mkDisk [] ∅ [] [].
Definition demo_lease := lease demo_manager (b_ "7") (b_ "1") 1 demo_disk.

(** A leased generation cannot be retired. *)
Lemma lease_blocks_retirement_witness :
  is_ok demo_lease.1 = true ∧
  is_ok (retire_generation demo_manager (b_ "2") 1 (b_ "/g/1") (b_ "/trash") demo_lease.2).1 = false.
Proof.
  assert (is_ok demo_lease.1 = true) as Hok by (vm_compute; reflexivity). split; [exact Hok|].
  destruct demo_lease.1 as [p|e] eqn:Hl; [|discriminate Hok].
  apply (lease_blocks_retirement demo_manager (b_ "7") (b_ "1") 1 demo_disk p demo_lease.2 demo_lease.2 (b_ "2")
    (b_ "/g/1") (b_ "/trash")); [rewrite <-Hl; apply surjective_pairing|reflexivity].
Defined.

Definition demo_published := publish_active demo_manager (b_ "1") 42 demo_disk.
Definition demo_restarted : Disk := mkDisk (d_inodes demo_published.2) (d_names demo_published.2) [] [].
Lemma pointer_survives_witness : (active_generation demo_manager demo_restarted).1 = Ok (Some 42).
Proof.
  assert (demo_published.1 = Ok ()) as Hok by (vm_compute; reflexivity).
  apply (pointer_survives demo_manager (b_ "1") 42 demo_disk demo_published.2 demo_restarted).
  - split; [discriminate|reflexivity].
  - rewrite <-Hok. apply surjective_pairing.
  - apply crash_intro; [left|]. apply survive_synced, Forall_forall. intros i Hi.
    assert (d_inodes demo_published.2 = [mkInode [] []; mkInode (b_ "42" ++ [LF]) (b_ "42" ++ [LF])]) as Hd
      by (vm_compute; reflexivity). rewrite Hd in Hi.
    apply elem_of_cons in Hi as [->|Hi%list_elem_of_singleton]; [|subst i]; vm_compute; done.
  - reflexivity.
Defined.

Definition demo_sys : Sys InMemoryCatalog :=
  mkSys (mkDisk [mkInode [] []] {[file_in (b_ "/g/1") (b_ "c") := 0%nat]} [] [])
    (im_apply InMemoryCatalog_default [OpMeta CURRENT_GENERATION_META_KEY (be_encode 4 2)]).2.
Definition demo_retired :=
  retire_compacted_generation demo_manager (b_ "1") (b_ "2") 1 2 (b_ "/g/1") (b_ "/trash") demo_sys.
Lemma retirement_guarded_witness :
  is_ok demo_retired.1 = true ∧ ∀ pid nonce, is_ok (lease demo_manager pid nonce 1 (sys_disk demo_retired.2)).1 = false.
Proof.
  assert (is_ok demo_retired.1 = true) as Hok by (vm_compute; reflexivity). split; [exact Hok|].
  destruct demo_retired.1 as [dest|e] eqn:Hr; [|discriminate Hok].
  apply (retirement_guarded demo_manager (b_ "1") (b_ "2") 1 2 (b_ "/g/1") (b_ "/trash") demo_sys
    (stored (sys_catalog demo_sys)) dest demo_retired.2).
  - intros k. reflexivity.
  - vm_compute. reflexivity.
  - rewrite <-Hr. apply surjective_pairing.
Defined.
End LeaseSpec.
