(* ===== verification/Backup.v ===== *)
(** * Checkpoint metadata: [reflink-forest-backup/src/lib.rs]

    Relative paths, the backup manifest and the cold-tier descriptor with their
    codecs, the layout that binds chunks to files, and the structural check of
    a chunk file. *)

From Stdlib Require Import ZArith Lia Strings.Byte Strings.String.
From stdpp Require Import base tactics list gmap strings.
From S2P Require Import Prelude Order Core Format Codec CatalogCodec Chunk Git Reader.
Import Core Format Codec CatalogCodec Chunk Git Reader.

#[local] Open Scope Z_scope.
#[local] Open Scope parser_scope.

Module Backup.

Definition MANIFEST_FILE_NAME : bytes := b_ "manifest-v1".
Definition COLD_DESCRIPTOR_FILE_NAME : bytes := b_ "cold-tier-v1".
Definition COLD_DESCRIPTOR_MAGIC : bytes := b_ "RFCOLD01".
Definition AUTHORITATIVE_DIRECTORY_MAGIC : bytes := b_ "RFAUTD01".
Definition MANIFEST_MAGIC : bytes := b_ "RFBKMAN1".
Definition MANIFEST_HEADER_LEN : Z := 8 + 8.
Definition MANIFEST_DIGEST_LEN : Z := 32.
Definition MIN_MANIFEST_ENTRY_LEN : Z := 4 + 1 + 8 + 32.
Definition MAX_MANIFEST_BYTES : Z := 64 * 1024 * 1024.
Definition MAX_MANIFEST_ENTRIES : Z := 1000000.
Definition MAX_MANIFEST_PATH_BYTES : Z := 1024 * 1024.
Definition COLD_DESCRIPTOR_HEADER_LEN : Z := 8 + 2 + 4 + 4 + 4.
Definition COLD_DESCRIPTOR_CHUNK_LEN : Z := 24.
Definition COLD_DESCRIPTOR_DIGESTS_LEN : Z := 3 * 32.
Definition COLD_DESCRIPTOR_CHECKSUM_LEN : Z := 32.
Definition MAX_COLD_DESCRIPTOR_CHUNKS : Z := 1000000.
Definition MAX_COLD_DESCRIPTOR_BYTES : Z :=
  COLD_DESCRIPTOR_HEADER_LEN + MAX_COLD_DESCRIPTOR_CHUNKS * COLD_DESCRIPTOR_CHUNK_LEN +
  COLD_DESCRIPTOR_DIGESTS_LEN + COLD_DESCRIPTOR_CHECKSUM_LEN.
Definition MAX_COLD_CHUNK_RECORD_BYTES : Z := 64 * 1024 * 1024.

(** ** Data *)

(** A path is the bytes of its name. *)
Record BackupFile := mkBackupFile { bf_relative : bytes; bf_bytes : Z; bf_sha256 : bytes }.
Record BackupManifest := mkBackupManifest { bm_files : list BackupFile }.
Inductive ChunkClassification := OpenChunk | SealedChunk_.
Record ColdChunkDescriptor := mkColdChunk {
  cc_generation : Z; cc_chunk_id : Z; cc_classification : ChunkClassification; cc_valid_prefix : Z }.
Record ColdTierCheckpointDescriptor := mkDescriptor {
  cd_catalog_schema_version : Z; cd_active_generation : Z; cd_chunks : list ColdChunkDescriptor;
  cd_catalog_digest : bytes; cd_config_digest : bytes; cd_pins_manifest_digest : bytes }.
Record ColdTierChunkPath := mkChunkPath {
  cp_generation : Z; cp_chunk_id : Z; cp_classification : ChunkClassification; cp_relative : bytes }.
Record ColdTierChunkPaths := mkChunkPaths { cps_entries : list ColdTierChunkPath }.
Record ColdTierAuthoritativePaths := mkAuthoritative { ap_catalog : bytes; ap_config : bytes; ap_pins_manifest : bytes }.
#[export] Instance ChunkClassification_eq_dec : EqDecision ChunkClassification.
Proof. solve_decision. Defined.
#[export] Instance BackupFile_eq_dec : EqDecision BackupFile.
Proof. solve_decision. Defined.

Inductive BackupError :=
| BackupIo (e : IoErrorKind)
| UnsafeSource (path : bytes)
| InvalidManifest
| InvalidColdTierLayout
| VerificationFailed (path : bytes)
| CatalogCheckpoint (reason : string)
| BackupDestinationExists
| UnsafeDestination (path : bytes).
Abbreviation BResult := (result BackupError).

(** ** Paths *)

Definition DOT : byte := x2e.
(** [Path::components] of a path without empty and dot components. *)
Definition components (path : bytes) : list bytes := split SLASH path.

Definition bad_component (c : bytes) : bool :=
  bool_decide (c = []) || bool_decide (c = [DOT]) || bool_decide (c = [DOT; DOT]).
Definition validate_path_bytes (path : bytes) : BResult unit :=
  _ ← ensure (negb (bool_decide (path = []) || bool_decide (MAX_MANIFEST_PATH_BYTES < blen path) ||
                    bool_decide (x00 ∈ path) || starts_with [SLASH] path ||
                    bool_decide (last path = Some SLASH))) InvalidManifest;
  ensure (negb (existsb bad_component (components path))) InvalidManifest.
Definition path_to_bytes (path : bytes) : BResult bytes :=
  _ ← validate_path_bytes path; Ok path.
Definition path_from_bytes (b : bytes) : BResult bytes :=
  _ ← validate_path_bytes b; Ok b.

(** [Ord] of [Path]: by components. *)
Definition path_compare (a b : bytes) : comparison := list_compare bytes_compare (components a) (components b).
(** [Path::starts_with]: by components. *)
Fixpoint components_prefix (p l : list bytes) : bool :=
  match p, l with
  | [], _ => true
  | x :: p, y :: l => bool_decide (x = y) && components_prefix p l
  | _, [] => false
  end.
Definition paths_overlap (left right : bytes) : bool :=
  let l := components left in let r := components right in
  bool_decide (l = r) || components_prefix r l || components_prefix l r.

(** [Path::extension]: what follows the last dot of the file name, when
    something precedes it. *)
Definition extension (path : bytes) : option bytes :=
  name ← last (components path);
  if decide (name = [DOT; DOT]) then None else
  match reverse (split DOT name) with
  | ext :: before :: rest => if decide (before = [] ∧ rest = []) then None else Some ext
  | _ => None
  end.
Definition chunk_path_has_classification (path : bytes) (c : ChunkClassification) : bool :=
  bool_decide (extension path = Some (match c with OpenChunk => b_ "open" | SealedChunk_ => b_ "sealed" end)).

(** ** The manifest *)

Definition increasing (previous : option bytes) (path : bytes) : bool :=
  match previous with Some p => bytes_ltb p path | None => true end.

Fixpoint encode_entries (previous : option bytes) (files : list BackupFile) : BResult bytes :=
  match files with
  | [] => Ok []
  | f :: files =>
      path ← path_to_bytes (bf_relative f);
      _ ← validate_path_bytes path;
      _ ← ensure (increasing previous path) InvalidManifest;
      path_len ← ok_or (u32_try_from (blen path)) InvalidManifest;
      rest ← encode_entries (Some path) files;
      Ok ((be_encode 4 path_len ++ path ++ be_encode 8 (bf_bytes f) ++ bf_sha256 f) ++ rest)
  end.

Section Manifest.
Context `{Digests}.

Definition encode_manifest (m : BackupManifest) : BResult bytes :=
  entry_count ← ok_or (u64_try_from (Z.of_nat (length (bm_files m)))) InvalidManifest;
  _ ← ensure (bool_decide (entry_count ≤ MAX_MANIFEST_ENTRIES)) InvalidManifest;
  entries ← encode_entries None (bm_files m);
  let bytes := MANIFEST_MAGIC ++ be_encode 8 entry_count ++ entries in
  let bytes := bytes ++ sha256 bytes in
  _ ← ensure (bool_decide (blen bytes ≤ MAX_MANIFEST_BYTES)) InvalidManifest;
  Ok bytes.
End Manifest.

(** [read_bytes], [read_u32] and [read_u64]. *)
Abbreviation b_take := (p_take InvalidManifest InvalidManifest).
Abbreviation b_uint := (p_uint InvalidManifest InvalidManifest).
Definition b_ensure (c : bool) : Parser BackupError unit := p_lift (ensure c InvalidManifest).

Definition decode_entry (previous : option bytes) : Parser BackupError BackupFile :=
  path_len ⇠ b_uint 4;
  _ ⇠ b_ensure (bool_decide (path_len ≤ MAX_MANIFEST_PATH_BYTES));
  path ⇠ b_take path_len;
  _ ⇠ p_lift (validate_path_bytes path);
  _ ⇠ b_ensure (increasing previous path);
  bytes ⇠ b_uint 8;
  sha ⇠ b_take 32;
  relative ⇠ p_lift (path_from_bytes path);
  p_ret (mkBackupFile relative bytes sha).
Fixpoint decode_entries (n : nat) (previous : option bytes) : Parser BackupError (list BackupFile) :=
  match n with
  | O => p_ret []
  | S n =>
      f ⇠ decode_entry previous;
      rest ⇠ decode_entries n (Some (bf_relative f));
      p_ret (f :: rest)
  end.

(** What follows the magic, to the end of the payload. *)
Definition decode_manifest_payload : Parser BackupError BackupManifest :=
  count ⇠ b_uint 8;
  _ ⇠ b_ensure (bool_decide (count ≤ MAX_MANIFEST_ENTRIES));
  remaining ⇠ p_remaining;
  _ ⇠ b_ensure (bool_decide (count ≤ remaining / MIN_MANIFEST_ENTRY_LEN));
  files ⇠ decode_entries (Z.to_nat count) None;
  p_ret (mkBackupManifest files).

Section Decode.
Context `{Digests}.

Definition decode_backup_manifest_bytes (b : bytes) : BResult BackupManifest :=
  _ ← ensure (negb (bool_decide (blen b < MANIFEST_HEADER_LEN + MANIFEST_DIGEST_LEN) ||
                    bool_decide (MAX_MANIFEST_BYTES < blen b))) InvalidManifest;
  let payload := take (length b - 32) b in
  let stored_digest := drop (length b - 32) b in
  _ ← ensure (bool_decide (sha256 payload = stored_digest)) InvalidManifest;
  _ ← ensure (starts_with MANIFEST_MAGIC payload) InvalidManifest;
  r ← (m ⇠ decode_manifest_payload;
       done ⇠ p_is_empty;
       _ ⇠ p_lift (ensure done InvalidManifest);
       p_ret m) (mkReader payload 8);
  Ok r.1.

(** ** The cold-tier descriptor *)

Definition chunk_key_lt (a b : ColdChunkDescriptor) : bool :=
  bool_decide (cc_generation a < cc_generation b) ||
  bool_decide (cc_generation a = cc_generation b) && bool_decide (cc_chunk_id a < cc_chunk_id b).
(** [windows(2).any(...)]. *)
Fixpoint ascending {A} (lt : A → A → bool) (l : list A) : bool :=
  match l with
  | a :: ((b :: _) as rest) => lt a b && ascending lt rest
  | _ => true
  end.

Definition validate_cold_descriptor (d : ColdTierCheckpointDescriptor) : BResult unit :=
  _ ← ensure (bool_decide (Z.of_nat (length (cd_chunks d)) ≤ MAX_COLD_DESCRIPTOR_CHUNKS)) InvalidManifest;
  _ ← ensure (ascending chunk_key_lt (cd_chunks d)) InvalidManifest;
  ensure (forallb (λ c, bool_decide (CHUNK_HEADER_LEN ≤ cc_valid_prefix c)) (cd_chunks d)) InvalidManifest.

Definition classification_tag (c : ChunkClassification) : Z := match c with OpenChunk => 1 | SealedChunk_ => 2 end.
Definition classification_from_tag (t : Z) : BResult ChunkClassification :=
  if decide (t = 1) then Ok OpenChunk else if decide (t = 2) then Ok SealedChunk_ else Err InvalidManifest.

Definition encode_chunk (c : ColdChunkDescriptor) : bytes :=
  be_encode 4 (cc_generation c) ++ be_encode 8 (cc_chunk_id c) ++
  be_encode 1 (classification_tag (cc_classification c)) ++ [x00; x00; x00] ++ be_encode 8 (cc_valid_prefix c).
Definition encode_cold_descriptor (d : ColdTierCheckpointDescriptor) : BResult bytes :=
  _ ← validate_cold_descriptor d;
  count ← ok_or (u32_try_from (Z.of_nat (length (cd_chunks d)))) InvalidManifest;
  let out :=
    COLD_DESCRIPTOR_MAGIC ++ be_encode 2 1 ++ be_encode 4 (cd_catalog_schema_version d) ++
    be_encode 4 (cd_active_generation d) ++ be_encode 4 count ++ concat (map encode_chunk (cd_chunks d)) ++
    cd_catalog_digest d ++ cd_config_digest d ++ cd_pins_manifest_digest d in
  Ok (out ++ sha256 out).

Definition decode_chunk : Parser BackupError ColdChunkDescriptor :=
  generation ⇠ b_uint 4;
  chunk_id ⇠ b_uint 8;
  classification ⇠ (t ⇠ b_uint 1; p_lift (classification_from_tag t));
  zeros ⇠ b_take 3;
  _ ⇠ b_ensure (bool_decide (zeros = [x00; x00; x00]));
  valid_prefix ⇠ b_uint 8;
  p_ret (mkColdChunk generation chunk_id classification valid_prefix).

(** What follows the version; [payload_len] is the length of the payload. *)
Definition decode_descriptor_payload (payload_len : Z) : Parser BackupError ColdTierCheckpointDescriptor :=
  schema ⇠ b_uint 4;
  active ⇠ b_uint 4;
  count ⇠ b_uint 4;
  _ ⇠ b_ensure (bool_decide (count ≤ MAX_COLD_DESCRIPTOR_CHUNKS));
  _ ⇠ b_ensure (bool_decide (payload_len =
                  COLD_DESCRIPTOR_HEADER_LEN + count * COLD_DESCRIPTOR_CHUNK_LEN + COLD_DESCRIPTOR_DIGESTS_LEN));
  chunks ⇠ p_repeat (Z.to_nat count) decode_chunk;
  catalog_digest ⇠ b_take 32;
  config_digest ⇠ b_take 32;
  pins_manifest_digest ⇠ b_take 32;
  p_ret (mkDescriptor schema active chunks catalog_digest config_digest pins_manifest_digest).

Definition decode_cold_tier_checkpoint_descriptor_bytes (b : bytes) : BResult ColdTierCheckpointDescriptor :=
  _ ← ensure (negb (bool_decide (blen b < COLD_DESCRIPTOR_HEADER_LEN + COLD_DESCRIPTOR_DIGESTS_LEN +
                                          COLD_DESCRIPTOR_CHECKSUM_LEN) ||
                    bool_decide (MAX_COLD_DESCRIPTOR_BYTES < blen b))) InvalidManifest;
  let payload := take (length b - 32) b in
  let stored := drop (length b - 32) b in
  _ ← ensure (bool_decide (sha256 payload = stored) && bool_decide (take 8 payload = COLD_DESCRIPTOR_MAGIC) &&
              bool_decide (be_decode (slice 8 2 payload) = 1)) InvalidManifest;
  r ← decode_descriptor_payload (blen payload) (mkReader payload 10);
  _ ← validate_cold_descriptor r.1;
  Ok r.1.
End Decode.

(** ** Layouts *)

Definition chunk_path_lt (a b : ColdTierChunkPath) : bool :=
  bool_decide (cp_generation a < cp_generation b) ||
  bool_decide (cp_generation a = cp_generation b) && bool_decide (cp_chunk_id a < cp_chunk_id b).

(** The loop of [ColdTierChunkPaths::new]; equal paths have equal components. *)
Fixpoint check_chunk_paths (seen : list (list bytes)) (entries : list ColdTierChunkPath) : BResult unit :=
  match entries with
  | [] => Ok ()
  | e :: entries =>
      _ ← map_err (λ _, InvalidColdTierLayout) (path_to_bytes (cp_relative e));
      _ ← ensure (chunk_path_has_classification (cp_relative e) (cp_classification e)) InvalidColdTierLayout;
      _ ← ensure (bool_decide (components (cp_relative e) ∉ seen)) InvalidColdTierLayout;
      check_chunk_paths (components (cp_relative e) :: seen) entries
  end.
Definition ColdTierChunkPaths_new (entries : list ColdTierChunkPath) : BResult ColdTierChunkPaths :=
  _ ← ensure (bool_decide (Z.of_nat (length entries) ≤ MAX_COLD_DESCRIPTOR_CHUNKS) && ascending chunk_path_lt entries)
             InvalidColdTierLayout;
  _ ← check_chunk_paths [] entries;
  Ok (mkChunkPaths entries).

Definition authoritative_validate (a : ColdTierAuthoritativePaths) : BResult unit :=
  _ ← map_err (λ _, InvalidColdTierLayout) (path_to_bytes (ap_catalog a));
  _ ← map_err (λ _, InvalidColdTierLayout) (path_to_bytes (ap_config a));
  _ ← map_err (λ _, InvalidColdTierLayout) (path_to_bytes (ap_pins_manifest a));
  ensure (negb (bool_decide (components (ap_catalog a) = components (ap_config a)) ||
                bool_decide (components (ap_catalog a) = components (ap_pins_manifest a)) ||
                bool_decide (components (ap_config a) = components (ap_pins_manifest a)))) InvalidColdTierLayout.
Definition ColdTierAuthoritativePaths_new (catalog config pins_manifest : bytes) : BResult ColdTierAuthoritativePaths :=
  let paths := mkAuthoritative catalog config pins_manifest in
  _ ← authoritative_validate paths;
  Ok paths.

Fixpoint check_layout (a : ColdTierAuthoritativePaths) (chunks : list ColdChunkDescriptor)
    (entries : list ColdTierChunkPath) : BResult unit :=
  match chunks, entries with
  | c :: chunks, e :: entries =>
      _ ← ensure (bool_decide (cc_generation c = cp_generation e) && bool_decide (cc_chunk_id c = cp_chunk_id e) &&
                  bool_decide (cc_classification c = cp_classification e) &&
                  chunk_path_has_classification (cp_relative e) (cc_classification c)) InvalidColdTierLayout;
      _ ← ensure (negb (paths_overlap (cp_relative e) (ap_catalog a) || paths_overlap (cp_relative e) (ap_config a) ||
                        paths_overlap (cp_relative e) (ap_pins_manifest a) ||
                        bool_decide (components (cp_relative e) = [MANIFEST_FILE_NAME]) ||
                        bool_decide (components (cp_relative e) = [COLD_DESCRIPTOR_FILE_NAME]))) InvalidColdTierLayout;
      check_layout a chunks entries
  | _, _ => Ok ()
  end.
Definition validate_cold_tier_layout (d : ColdTierCheckpointDescriptor) (a : ColdTierAuthoritativePaths)
    (paths : ColdTierChunkPaths) : BResult unit :=
  _ ← authoritative_validate a;
  _ ← ensure (bool_decide (length (cd_chunks d) = length (cps_entries paths))) InvalidColdTierLayout;
  check_layout a (cd_chunks d) (cps_entries paths).

(** ** The structure of a chunk file *)

(** The [while] loop of [verify_cold_chunk_file]; every failure is
    [VerificationFailed] with the chunk's path. A record takes at least one
    byte, so as many turns as bytes suffice. *)
Fixpoint verify_cold_records (fuel : nat) (file : bytes) (offset : Z) : option unit :=
  match fuel with
  | O => None
  | S fuel =>
      let bytes := len file in
      if decide (offset < bytes) then
        let remaining := bytes - offset in
        if decide (remaining < RECORD_HEADER_LEN) then None else
        record_header ← ok (read_exact file offset RECORD_HEADER_LEN);
        record_len ← ok (encoded_record_len_from_header record_header);
        if decide (MAX_COLD_CHUNK_RECORD_BYTES < record_len ∨ remaining < record_len) then None else
        rest ← ok (read_exact file (offset + RECORD_HEADER_LEN) (record_len - RECORD_HEADER_LEN));
        r ← ok (decode_record (record_header ++ rest));
        if decide (r.2 = record_len) then
          offset ← checked_add offset record_len;
          verify_cold_records fuel file offset
        else None
      else Some ()
  end.
Definition verify_cold_chunk_contents (relative file : bytes) (expected : ColdChunkDescriptor) : BResult unit :=
  let bad := VerificationFailed relative in
  _ ← ensure (bool_decide (len file = cc_valid_prefix expected)) bad;
  header ← map_err (λ _, bad) (read_chunk_header file);
  _ ← ensure (bool_decide (ch_generation header = cc_generation expected) &&
              bool_decide (ch_chunk_id header = cc_chunk_id expected)) bad;
  ok_or (verify_cold_records (length file) file CHUNK_HEADER_LEN) bad.

End Backup.
