(* ===== verification/BackupSpec.v ===== *)
(** * What checkpoint metadata guarantees

    The two codecs accept exactly the canonical encodings of well-formed values,
    and the structural check of a chunk file accepts exactly open chunks. *)

From Stdlib Require Import ZArith Lia Strings.Byte Strings.String.
From stdpp Require Import base tactics list gmap strings.
From S2P Require Import Prelude Order Core Format FormatSpec RecordSpec Codec CatalogCodec Chunk ChunkSpec RecoverySpec Git Reader SnapshotSpec Backup.
Import Core Format FormatSpec RecordSpec Codec CatalogCodec Chunk ChunkSpec RecoverySpec Git Reader SnapshotSpec Backup.

#[local] Open Scope Z_scope.

Module BackupSpec.

(** ** The manifest codec *)

Definition path_ok (p : bytes) : Prop := validate_path_bytes p = Ok ().
Definition file_wf (f : BackupFile) : Prop := is_u64 (bf_bytes f) ∧ blen (bf_sha256 f) = 32.
Definition file_layout (f : BackupFile) : bytes :=
  be_encode 4 (blen (bf_relative f)) ++ bf_relative f ++ be_encode 8 (bf_bytes f) ++ bf_sha256 f.
Definition file_fits (f : BackupFile) : Prop := path_ok (bf_relative f) ∧ file_wf f.
(** Paths strictly increase, in the order of their bytes. *)
Fixpoint chained (previous : option bytes) (files : list BackupFile) : Prop :=
  match files with
  | [] => True
  | f :: files => increasing previous (bf_relative f) = true ∧ chained (Some (bf_relative f)) files
  end.

Lemma path_ok_length p : path_ok p → 0 < blen p ≤ MAX_MANIFEST_PATH_BYTES.
Proof.
  unfold path_ok, validate_path_bytes. intros Hp. apply bind_Ok_inv in Hp as ([] & Hc%ensure_Ok_inv & _).
  apply negb_true_iff in Hc. rewrite !orb_false_iff in Hc. destruct_and! Hc.
  repeat match goal with H : bool_decide _ = false |- _ => apply bool_decide_eq_false in H end.
  destruct p; [done|]. unfold blen in *. cbn [length] in *. lia.
Qed.
Lemma reads_path {B} p (f : B → bytes) (P : B → Prop) k enc (ok : B → Prop) :
  (∀ w, P w → f w = p) → (path_ok p → reads P k enc ok) →
  reads P (p_bind (p_lift (validate_path_bytes p)) (λ _, k)) enc (λ w, path_ok (f w) ∧ ok w).
Proof.
  intros Hf Hk r b Hr. unfold p_bind, p_lift. unfold path_ok in *. destruct (validate_path_bytes p) as [[]|] eqn:Hv.
  - destruct (Hk eq_refl r b Hr) as [Hk1 Hk2]. split.
    + intros v r' Hdec. destruct (Hk1 v r' Hdec) as [[HP Ho] Hrest]. by rewrite Hf.
    + intros v b' (HP & _ & Ho) Hb. by apply Hk2.
  - split; [done|]. intros v b' (HP & Hp & _). rewrite Hf in Hp by done. congruence.
Qed.
Lemma b_uint4 : exact (b_uint 4) (be_encode 4) is_u32.
Proof. by apply (exact_uint _ _ 4); lia. Qed.
Lemma b_uint8 : exact (b_uint 8) (be_encode 8) is_u64.
Proof. by apply (exact_uint _ _ 8); lia. Qed.
Lemma b_uint1 : exact (b_uint 1) (be_encode 1) is_u8.
Proof. by apply (exact_uint _ _ 1); lia. Qed.

Lemma decode_entry_exact previous :
  exact (decode_entry previous) file_layout (λ f, file_fits f ∧ increasing previous (bf_relative f) = true).
Proof.
  apply reads_exact. unfold decode_entry, b_ensure. eapply reads_iff.
  - eapply (reads_field _ _ _ _ (λ f, blen (bf_relative f)) _ _ _ b_uint4). intros n Hn.
    eapply (reads_ensure _ _ (λ f, blen (bf_relative f) ≤ MAX_MANIFEST_PATH_BYTES)).
    { intros w [_ ->]. apply bool_decide_eq_true. }
    intros _. eapply (reads_sized _ _ _ _ bf_relative); [unfold in_width in Hn; lia|intros w Hw; apply Hw|].
    intros path Hpath. eapply (reads_path _ bf_relative); [by intros w [_ ->]|]. intros Hok.
    eapply (reads_ensure _ _ (λ f, increasing previous (bf_relative f) = true)).
    { by intros w [_ ->]. }
    intros _. eapply (reads_field _ _ _ _ bf_bytes _ _ _ b_uint8). intros size _.
    eapply (reads_field _ _ _ _ bf_sha256); [by apply exact_take|]. intros sha _.
    unfold path_from_bytes. rewrite Hok, bind_Ok. reads_end.
  - intros f HP. unfold file_fits, file_wf. cbn beta.
    pose proof (path_ok_length (bf_relative f)) as Hl. unfold in_width, MAX_MANIFEST_PATH_BYTES, blen in *.
    split; [tauto|]. intros ((Hp & ? & ?) & ?). specialize (Hl Hp). split_and!; done || lia.
  - intros f _ _. unfold file_layout. by rewrite app_nil_r.
Qed.

Lemma decode_entries_exact n previous :
  exact (decode_entries n previous) (λ l, concat (map file_layout l))
    (λ l, length l = n ∧ Forall file_fits l ∧ chained previous l).
Proof.
  revert previous. induction n as [|n IH]; intros previous r b Hr; cbn [decode_entries].
  - unfold p_ret. split.
    + intros v r' Heq. injection Heq as <- <-. split; [done|]. by exists b.
    + intros [|] b' [Hv _] ->; [|done]. by exists r.
  - unfold p_bind, p_ret. destruct (decode_entry_exact previous r b Hr) as [H1' H2']. split.
    + intros v r'. destruct (decode_entry previous r) as [[f r1]|]; [|done].
      destruct (H1' f r1 eq_refl) as ([Hf Hlt] & b1 & -> & Hr1).
      destruct (IH (Some (bf_relative f)) r1 b1 Hr1) as [Hi1 _].
      destruct (decode_entries n _ r1) as [[l r2]|]; [|done].
      intros Heq. injection Heq as <- <-. destruct (Hi1 l r2 eq_refl) as ((Hl & Hall & Hc) & b2 & -> & Hr2).
      split; [split; [cbn; lia|split; [by constructor|done]]|]. exists b2. cbn [map concat]. by rewrite <-app_assoc.
    + intros [|f l] b' (Hl & Hall & Hc) Hb; [done|]. apply Forall_cons in Hall as [Hf Hall].
      destruct Hc as [Hlt Hc]. cbn [map concat] in Hb. rewrite <-app_assoc in Hb.
      destruct (H2' f _ (conj Hf Hlt) Hb) as (r1 & -> & Hr1). destruct (IH (Some (bf_relative f)) r1 _ Hr1) as [_ Hi2].
      destruct (Hi2 l b') as (r2 & -> & Hr2); [|done|by exists r2]. split; [cbn in Hl; lia|done].
Qed.

Definition manifest_body (m : BackupManifest) : bytes :=
  be_encode 8 (Z.of_nat (length (bm_files m))) ++ concat (map file_layout (bm_files m)).
Definition manifest_canonical (m : BackupManifest) : Prop :=
  Z.of_nat (length (bm_files m)) ≤ MAX_MANIFEST_ENTRIES ∧ Forall file_fits (bm_files m) ∧ chained None (bm_files m).

Lemma file_layout_long f : file_fits f → MIN_MANIFEST_ENTRY_LEN ≤ blen (file_layout f).
Proof.
  intros [Hp%path_ok_length [_ Hs]]. unfold blen, file_layout, MIN_MANIFEST_ENTRY_LEN in *.
  rewrite !length_app, !length_be_encode. lia.
Qed.
Lemma manifest_payload_exact : exact decode_manifest_payload manifest_body manifest_canonical.
Proof.
  apply reads_exact. unfold decode_manifest_payload, b_ensure. eapply reads_iff.
  - eapply (reads_field _ _ _ _ (λ m, Z.of_nat (length (bm_files m))) _ _ _ b_uint8). intros n Hn.
    eapply (reads_ensure _ _ (λ m, Z.of_nat (length (bm_files m)) ≤ MAX_MANIFEST_ENTRIES)).
    { intros w [_ ->]. apply bool_decide_eq_true. }
    intros _. eapply (reads_iff _ _ (λ m, concat (map file_layout (bm_files m)) ++ []) _
      (λ m, (length (bm_files m) = Z.to_nat n ∧ Forall file_fits (bm_files m) ∧ chained None (bm_files m)) ∧ True)
      (λ m, Forall file_fits (bm_files m) ∧ chained None (bm_files m))); [|intros w [_ <-]; rewrite Nat2Z.id; tauto|done].
    eapply (reads_room _ (λ k, bool_decide (n ≤ k / _))).
    { intros w rest [_ Hw] [(_ & Hf & _) _]. apply bool_decide_eq_true_2. rewrite <-app_assoc. subst n.
      apply concat_room; [done|]. intros f Hin. apply file_layout_long. rewrite Forall_forall in Hf. by apply Hf. }
    eapply (reads_field _ _ _ _ bm_files _ _ _ (decode_entries_exact _ _)). intros files [Hfiles _].
    unfold in_width in Hn. apply reads_ret. intros [fs]. cbn. split.
    + intros Hw. destruct_and! Hw. by subst.
    + intros Hw. injection Hw as ->. split_and!; done || lia.
  - intros m _. cbn beta. unfold manifest_canonical, in_width, MAX_MANIFEST_ENTRIES.
    split; intros; destruct_and?; split_and!; done || lia.
  - intros m _ _. unfold manifest_body. by rewrite app_nil_r.
Qed.

Section Codecs.
Context `{Digests}.

(** A payload followed by its digest. *)
Definition sealed_with_digest (payload : bytes) : bytes := payload ++ sha256 payload.
Lemma digest_frame b :
  sha256 (take (length b - 32) b) = drop (length b - 32) b ↔ b = sealed_with_digest (take (length b - 32) b).
Proof.
  unfold sealed_with_digest. split.
  - intros ->. by rewrite take_drop.
  - intros Heq. apply (app_inv_head (take (length b - 32) b)). by rewrite take_drop.
Qed.
Lemma digest_frame_take p : take (length (sealed_with_digest p) - 32) (sealed_with_digest p) = p.
Proof.
  unfold sealed_with_digest. rewrite length_app, length_sha256. apply take_app_length'. lia.
Qed.
Lemma digest_frame_drop p : drop (length (sealed_with_digest p) - 32) (sealed_with_digest p) = sha256 p.
Proof.
  unfold sealed_with_digest. rewrite length_app, length_sha256. apply drop_app_length'. lia.
Qed.
Lemma blen_sealed p : blen (sealed_with_digest p) = blen p + 32.
Proof. unfold blen, sealed_with_digest. rewrite length_app, length_sha256. lia. Qed.

Definition manifest_image (m : BackupManifest) : bytes := sealed_with_digest (MANIFEST_MAGIC ++ manifest_body m).

Lemma encode_entries_Ok previous l b :
  Forall file_wf l →
  encode_entries previous l = Ok b ↔
    Forall file_fits l ∧ chained previous l ∧ b = concat (map file_layout l).
Proof.
  intros Hwf. revert previous b. induction Hwf as [|f l Hf _ IH]; intros previous b; cbn [encode_entries].
  - split; [by intros [= <-]|by intros (_ & _ & ->)].
  - unfold path_to_bytes. pose proof (path_ok_length (bf_relative f)) as Hl. unfold path_ok in Hl. split.
    + intros He. apply bind_Ok_inv in He as (p & Hp & He). apply bind_Ok_inv in Hp as ([] & Hp & [= <-]).
      apply bind_Ok_inv in He as ([] & _ & He). apply bind_Ok_inv in He as ([] & Hlt%ensure_Ok_inv & He).
      apply bind_Ok_inv in He as (n & Hn%ok_or_Ok_inv & He). apply bind_Ok_inv in He as (rest & Hrest & He).
      unfold u32_try_from in Hn. case_decide; [|done]. injection Hn as <-. apply Ok_inj in He as <-.
      apply IH in Hrest as (Hall & Hc & ->). split_and!; [by constructor|done|done].
    + intros (Hall & [Hlt Hc] & ->). apply Forall_cons in Hall as [[Hp _] Hall]. unfold path_ok in Hp.
      rewrite Hp, !bind_Ok, Hp, bind_Ok, Hlt. cbn [ensure]. rewrite bind_Ok. unfold u32_try_from.
      rewrite decide_True by (specialize (Hl Hp); unfold MAX_MANIFEST_PATH_BYTES, u32_max in *; lia).
      cbn [ok_or]. rewrite bind_Ok, (proj2 (IH _ _) (conj Hall (conj Hc eq_refl))), bind_Ok. done.
Qed.
Lemma encode_manifest_image m b :
  Forall file_wf (bm_files m) →
  encode_manifest m = Ok b ↔
    manifest_canonical m ∧ b = manifest_image m ∧ blen b ≤ MAX_MANIFEST_BYTES.
Proof.
  intros Hwf. unfold encode_manifest, manifest_canonical, manifest_image, sealed_with_digest, manifest_body. cbv zeta.
  split.
  - intros He. apply bind_Ok_inv in He as (n & Hn%ok_or_Ok_inv & He). unfold u64_try_from in Hn.
    case_decide; [|done]. injection Hn as <-.
    apply bind_Ok_inv in He as ([] & Hmax%ensure_Ok_inv%bool_decide_eq_true & He).
    apply bind_Ok_inv in He as (entries & Hen & He).
    apply bind_Ok_inv in He as ([] & Hlen%ensure_Ok_inv%bool_decide_eq_true & He).
    apply Ok_inj in He as <-. apply encode_entries_Ok in Hen as (Hf & Hc & ->); [|done]. done.
  - intros ((Hmax & Hf & Hc) & -> & Hlen). unfold u64_try_from, MAX_MANIFEST_ENTRIES in *.
    rewrite decide_True by (unfold u64_max; lia). cbn [ok_or]. rewrite bind_Ok.
    rewrite bind_ensure_decide by done.
    rewrite (proj2 (encode_entries_Ok _ _ _ Hwf) (conj Hf (conj Hc eq_refl))), bind_Ok.
    by rewrite bind_ensure_decide.
Qed.

Lemma decode_backup_iff b m :
  decode_backup_manifest_bytes b = Ok m ↔ Forall file_wf (bm_files m) ∧ encode_manifest m = Ok b.
Proof.
  unfold decode_backup_manifest_bytes. cbv zeta. split.
  - intros Hd. apply bind_Ok_inv in Hd as ([] & Hlen%ensure_Ok_inv & Hd).
    apply bind_Ok_inv in Hd as ([] & Hsha%ensure_Ok_inv%bool_decide_eq_true & Hd).
    apply bind_Ok_inv in Hd as ([] & Hmagic%ensure_Ok_inv%starts_with_true & Hd).
    apply bind_Ok_inv in Hd as ([m' r] & Hp & Hd). apply Ok_inj in Hd as <-. cbn [fst].
    apply negb_true_iff, orb_false_iff in Hlen as [_ Hmax%bool_decide_eq_false].
    apply digest_frame in Hsha. destruct Hmagic as [rest Hrest]. rewrite Hrest in Hsha, Hp.
    assert (at_ (mkReader (MANIFEST_MAGIC ++ rest) 8) rest) as Hat.
    { apply (at_after MANIFEST_MAGIC). subst b. rewrite blen_sealed in Hmax. unfold MAX_MANIFEST_BYTES in *. lia. }
    destruct (proj1 (exact_rest _ _ _ InvalidManifest _ _ m' manifest_payload_exact Hat)) as [Hc ->]; [by exists r|].
    destruct (Hc) as (_ & Hf & _). assert (Forall file_wf (bm_files m')) as Hwf.
    { eapply Forall_impl; [exact Hf|]. by intros f [_ ?]. }
    split; [done|]. apply encode_manifest_image; [done|]. split_and!; [done|done|lia].
  - intros [Hwf He]. apply encode_manifest_image in He as (Hc & -> & Hlen); [|done].
    unfold manifest_image in *. rewrite digest_frame_take, digest_frame_drop, blen_sealed in *.
    assert (at_ (mkReader (MANIFEST_MAGIC ++ manifest_body m) 8) (manifest_body m)) as Hat.
    { apply (at_after MANIFEST_MAGIC). unfold MAX_MANIFEST_BYTES in *. lia. }
    destruct (proj2 (exact_rest _ _ _ InvalidManifest _ _ m manifest_payload_exact Hat)) as [r Hr]; [done|].
    rewrite bind_ensure.
    2: { apply negb_true_iff, orb_false_iff. rewrite !bool_decide_eq_false. split; [|lia].
         unfold blen, manifest_body, MANIFEST_HEADER_LEN, MANIFEST_DIGEST_LEN.
         rewrite !length_app, length_be_encode. cbn. lia. }
    rewrite bind_ensure_decide, bind_ensure by (done || by apply starts_with_true; eexists). by rewrite Hr, bind_Ok.
Qed.
(** Backup manifests: a byte string decodes to a manifest exactly when the
    manifest's sizes and digests have the right widths and it encodes to that
    byte string. So damage to the digest, paths that are not canonical or not
    strictly increasing, and trailing bytes are all refused. *)
Theorem backup_manifest_exact b m :
  decode_backup_manifest_bytes b = Ok m ↔ Forall file_wf (bm_files m) ∧ encode_manifest m = Ok b.
Proof. apply decode_backup_iff. Qed.

(** ** The cold-tier descriptor codec *)

Definition chunk_wf (c : ColdChunkDescriptor) : Prop :=
  is_u32 (cc_generation c) ∧ is_u64 (cc_chunk_id c) ∧ is_u64 (cc_valid_prefix c).
Definition descriptor_wf (d : ColdTierCheckpointDescriptor) : Prop :=
  is_u32 (cd_catalog_schema_version d) ∧ is_u32 (cd_active_generation d) ∧ Forall chunk_wf (cd_chunks d) ∧
  blen (cd_catalog_digest d) = 32 ∧ blen (cd_config_digest d) = 32 ∧ blen (cd_pins_manifest_digest d) = 32.
Definition descriptor_body (d : ColdTierCheckpointDescriptor) : bytes :=
  be_encode 4 (cd_catalog_schema_version d) ++ be_encode 4 (cd_active_generation d) ++
  be_encode 4 (Z.of_nat (length (cd_chunks d))) ++ concat (map encode_chunk (cd_chunks d)) ++
  cd_catalog_digest d ++ cd_config_digest d ++ cd_pins_manifest_digest d.
Definition descriptor_payload (d : ColdTierCheckpointDescriptor) : bytes :=
  (COLD_DESCRIPTOR_MAGIC ++ be_encode 2 1) ++ descriptor_body d.

Lemma length_encode_chunk c : length (encode_chunk c) = 24%nat.
Proof. unfold encode_chunk. rewrite !length_app, !length_be_encode. done. Qed.
Lemma length_encode_chunks l : length (concat (map encode_chunk l)) = (24 * length l)%nat.
Proof. induction l; cbn [map concat]; rewrite ?length_app, ?length_encode_chunk; cbn [length]; lia. Qed.
Lemma decode_chunk_exact : exact decode_chunk encode_chunk chunk_wf.
Proof.
  apply reads_exact. unfold decode_chunk, b_ensure. eapply reads_iff.
  - eapply (reads_field _ _ _ _ cc_generation _ _ _ b_uint4). intros generation _.
    eapply (reads_field _ _ _ _ cc_chunk_id _ _ _ b_uint8). intros chunk_id _.
    eapply (reads_field _ _ _ _ cc_classification).
    { apply (exact_tag _ 1 classification_from_tag classification_tag b_uint1); [by intros []|].
      intros t a. unfold classification_from_tag. repeat case_decide; destruct a; cbn; naive_solver. }
    intros classification _.
    eapply (reads_const _ _ _ _ [x00; x00; x00]); [by apply exact_take|done| |].
    { intros a _. apply bool_decide_eq_true. }
    eapply (reads_field _ _ _ _ cc_valid_prefix _ _ _ b_uint8). intros valid_prefix _. reads_end.
  - intros c _. unfold chunk_wf. cbn. tauto.
  - intros c _ _. unfold encode_chunk. by rewrite app_nil_r.
Qed.

Definition descriptor_len (d : ColdTierCheckpointDescriptor) : Z :=
  COLD_DESCRIPTOR_HEADER_LEN + Z.of_nat (length (cd_chunks d)) * COLD_DESCRIPTOR_CHUNK_LEN + COLD_DESCRIPTOR_DIGESTS_LEN.
Lemma descriptor_payload_exact n :
  exact (decode_descriptor_payload n) descriptor_body
    (λ d, descriptor_wf d ∧ Z.of_nat (length (cd_chunks d)) ≤ MAX_COLD_DESCRIPTOR_CHUNKS ∧ n = descriptor_len d).
Proof.
  apply reads_exact. unfold decode_descriptor_payload, b_ensure. eapply reads_iff.
  - eapply (reads_field _ _ _ _ cd_catalog_schema_version _ _ _ b_uint4). intros schema _.
    eapply (reads_field _ _ _ _ cd_active_generation _ _ _ b_uint4). intros active _.
    eapply (reads_field _ _ _ _ (λ d, Z.of_nat (length (cd_chunks d))) _ _ _ b_uint4). intros count Hcount.
    eapply (reads_ensure _ _ (λ d, Z.of_nat (length (cd_chunks d)) ≤ MAX_COLD_DESCRIPTOR_CHUNKS)).
    { intros w [_ ->]. apply bool_decide_eq_true. }
    intros _. eapply (reads_ensure _ _ (λ d, n = descriptor_len d)).
    { intros w [_ Hw]. unfold descriptor_len. rewrite Hw. apply bool_decide_eq_true. }
    intros _. eapply (reads_list _ _ _ _ _ cd_chunks _ _ _ decode_chunk_exact).
    { intros w Hw. destruct_and! Hw. lia. }
    intros chunks Hchunks.
    eapply (reads_field _ _ _ _ cd_catalog_digest); [by apply exact_take|]. intros catalog _.
    eapply (reads_field _ _ _ _ cd_config_digest); [by apply exact_take|]. intros config _.
    eapply (reads_field _ _ _ _ cd_pins_manifest_digest); [by apply exact_take|]. intros pins _.
    unfold in_width in Hcount. apply reads_ret. intros [? ? ? ? ? ?]. cbn. split.
    + intros Hw. destruct_and! Hw. by subst.
    + intros Hw. injection Hw. intros. subst. split_and!; done || lia.
  - intros d _. cbn beta. unfold descriptor_wf, in_width, MAX_COLD_DESCRIPTOR_CHUNKS.
    split; intros; destruct_and?; split_and!; done || lia.
  - intros d _ _. unfold descriptor_body. by rewrite app_nil_r.
Qed.
Lemma blen_descriptor_payload d : descriptor_wf d → blen (descriptor_payload d) = descriptor_len d.
Proof.
  intros (_ & _ & _ & Hc & Hf & Hp). unfold descriptor_payload, descriptor_body, descriptor_len, blen in *.
  rewrite !length_app, !length_be_encode, length_encode_chunks.
  unfold COLD_DESCRIPTOR_HEADER_LEN, COLD_DESCRIPTOR_CHUNK_LEN, COLD_DESCRIPTOR_DIGESTS_LEN.
  change (length COLD_DESCRIPTOR_MAGIC) with 8%nat. lia.
Qed.
Lemma encode_descriptor_image d b :
  encode_cold_descriptor d = Ok b ↔
    validate_cold_descriptor d = Ok () ∧ b = sealed_with_digest (descriptor_payload d).
Proof.
  unfold encode_cold_descriptor. cbv zeta. destruct (validate_cold_descriptor d) as [[]|] eqn:Hv; [|split; [done|by intros [? _]]].
  rewrite bind_Ok. unfold validate_cold_descriptor in Hv.
  apply bind_Ok_inv in Hv as ([] & Hmax%ensure_Ok_inv%bool_decide_eq_true & _).
  unfold u32_try_from. unfold MAX_COLD_DESCRIPTOR_CHUNKS in Hmax.
  rewrite decide_True by (unfold u32_max; lia). cbn [ok_or]. rewrite bind_Ok.
  unfold descriptor_payload, descriptor_body, sealed_with_digest. rewrite <-!app_assoc.
  split; [intros Heq; apply Ok_inj in Heq as <-; done|by intros [_ ->]].
Qed.

Lemma descriptor_head p : (10 ≤ length p)%nat →
  (take 8 p = COLD_DESCRIPTOR_MAGIC ∧ be_decode (slice 8 2 p) = 1) ↔
  p = (COLD_DESCRIPTOR_MAGIC ++ be_encode 2 1) ++ drop 10 p.
Proof.
  intros Hp. split.
  - intros [Hm Hv]. rewrite <-Hm, <-Hv, be_encode_decode by (apply length_slice; lia). unfold slice.
    rewrite <-app_assoc. replace (drop 10 p) with (drop 2 (drop 8 p)) by (by rewrite drop_drop). by rewrite !take_drop.
  - intros ->. split; [done|]. rewrite <-app_assoc, slice_app_skip by (cbn; lia). done.
Qed.

(** Cold-tier descriptors: a byte string decodes to a descriptor exactly when
    its fields have the right widths and it encodes to that byte string. *)
Theorem cold_descriptor_exact b d :
  decode_cold_tier_checkpoint_descriptor_bytes b = Ok d ↔ descriptor_wf d ∧ encode_cold_descriptor d = Ok b.
Proof.
  rewrite encode_descriptor_image. unfold decode_cold_tier_checkpoint_descriptor_bytes. cbv zeta. split.
  - intros Hd. apply bind_Ok_inv in Hd as ([] & Hlen%ensure_Ok_inv & Hd).
    apply bind_Ok_inv in Hd as ([] & Hhead%ensure_Ok_inv & Hd).
    apply bind_Ok_inv in Hd as ([d' r] & Hp & Hd). apply bind_Ok_inv in Hd as ([] & Hv & Hd).
    apply Ok_inj in Hd as <-. cbn [fst] in *. rewrite !andb_true_iff, !bool_decide_eq_true in Hhead.
    destruct Hhead as [[Hsha Hm] Hone]. apply digest_frame in Hsha. set (p := take (length b - 32) b) in *.
    apply negb_true_iff, orb_false_iff in Hlen as [Hmin%bool_decide_eq_false Hmax%bool_decide_eq_false].
    rewrite Hsha, blen_sealed in Hmin, Hmax.
    assert (p = (COLD_DESCRIPTOR_MAGIC ++ be_encode 2 1) ++ drop 10 p) as Hhead.
    { apply descriptor_head; [|done]. unfold blen, COLD_DESCRIPTOR_HEADER_LEN, COLD_DESCRIPTOR_DIGESTS_LEN, COLD_DESCRIPTOR_CHECKSUM_LEN in Hmin. lia. }
    assert (at_ (mkReader p 10) (drop 10 p)) as Hat.
    { rewrite Hhead at 1. apply at_after. rewrite <-Hhead. change MAX_COLD_DESCRIPTOR_BYTES with 24000150 in Hmax. lia. }
    destruct (descriptor_payload_exact (blen p) _ _ Hat) as [Hread _].
    destruct (Hread d' r Hp) as ((Hwf & _ & Hn) & rest & Hrest & _). split; [done|]. split; [done|].
    rewrite Hsha. f_equal. rewrite Hhead, Hrest, app_assoc in Hn |- *. fold (descriptor_payload d') in Hn |- *.
    rewrite <-(blen_descriptor_payload _ Hwf) in Hn. destruct rest; [by rewrite app_nil_r|].
    unfold blen in Hn. rewrite length_app in Hn. cbn in Hn. lia.
  - intros (Hwf & Hv & ->). pose proof (blen_descriptor_payload d Hwf) as Hlen.
    assert (Z.of_nat (length (cd_chunks d)) ≤ MAX_COLD_DESCRIPTOR_CHUNKS) as Hmax.
    { unfold validate_cold_descriptor in Hv. by apply bind_Ok_inv in Hv as ([] & ?%ensure_Ok_inv%bool_decide_eq_true & _). }
    rewrite digest_frame_take, digest_frame_drop, blen_sealed, Hlen. rewrite bind_ensure.
    2: { apply negb_true_iff, orb_false_iff. rewrite !bool_decide_eq_false.
      unfold MAX_COLD_DESCRIPTOR_BYTES, descriptor_len, COLD_DESCRIPTOR_HEADER_LEN, COLD_DESCRIPTOR_CHUNK_LEN,
        COLD_DESCRIPTOR_DIGESTS_LEN, COLD_DESCRIPTOR_CHECKSUM_LEN in *. lia. }
    rewrite bind_ensure.
    2: { rewrite !andb_true_iff, !bool_decide_eq_true. split; [split|]; done. }
    assert (at_ (mkReader (descriptor_payload d) 10) (descriptor_body d)) as Hat.
    { apply at_after. fold (descriptor_payload d). rewrite Hlen.
      unfold descriptor_len, MAX_COLD_DESCRIPTOR_CHUNKS, COLD_DESCRIPTOR_HEADER_LEN, COLD_DESCRIPTOR_CHUNK_LEN,
        COLD_DESCRIPTOR_DIGESTS_LEN in *. lia. }
    destruct (descriptor_payload_exact (descriptor_len d) _ _ Hat) as [_ Hread].
    destruct (Hread d []) as (r & -> & _); [done|by rewrite app_nil_r|]. rewrite bind_Ok. cbn [fst]. by rewrite Hv.
Qed.
End Codecs.

(** ** The structure of chunk files *)

Lemma header_and_rest (file : bytes) o n : 0 ≤ o → 128 ≤ n →
  slice (Z.to_nat o) 128 file ++ slice (Z.to_nat (o + RECORD_HEADER_LEN)) (Z.to_nat (n - RECORD_HEADER_LEN)) file =
  slice (Z.to_nat o) (Z.to_nat n) file.
Proof.
  intros Ho Hn. unfold RECORD_HEADER_LEN. replace (Z.to_nat n) with (128 + Z.to_nat (n - 128))%nat by lia.
  rewrite slice_split. do 2 f_equal. lia.
Qed.
Lemma cold_record_at fuel file o r :
  record_at file o (len file) r → 0 ≤ o → len file ≤ u64_max →
  verify_cold_records (S fuel) file o = verify_cold_records fuel file (o + size r).
Proof.
  intros Hat Ho Hmax. pose proof (size_pos r). pose proof Hat as ((Hw & Hf & Hm) & Hend & Hs).
  cbn [verify_cold_records]. cbv zeta. rewrite decide_True by lia.
  rewrite decide_False by (unfold RECORD_HEADER_LEN; lia).
  rewrite !read_exact_Ok by (unfold RECORD_HEADER_LEN; lia). cbn [ok]. cbn [mbind option_bind].
  change (Z.to_nat RECORD_HEADER_LEN) with 128%nat. rewrite (at_header _ _ _ _ Hat). cbn [ok mbind option_bind].
  rewrite decide_False by (unfold MAX_RECOVERY_RECORD_BYTES, MAX_COLD_CHUNK_RECORD_BYTES in *; lia).
  rewrite read_exact_Ok by (unfold RECORD_HEADER_LEN; lia). cbn [ok mbind option_bind].
  rewrite header_and_rest, (at_decode _ _ _ _ Hat) by lia. cbn [ok mbind option_bind snd].
  by rewrite decide_True, checked_add_Some by (done || lia).
Qed.
Lemma encoded_len_bound b n : encoded_record_len_from_header b = Ok n → 148 ≤ n.
Proof.
  unfold encoded_record_len_from_header. intros Hn. apply bind_Ok_inv in Hn as (m & Hm & Hn).
  apply bind_Ok_inv in Hn as (st & Hst%ok_or_Ok_inv & Hn). apply bind_Ok_inv in Hn as (t & Ht%ok_or_Ok_inv & Hn).
  apply decode_record_metadata_canonical in Hm as ((_ & _ & Hs & _) & _).
  unfold usize_try_from in Hst. case_decide; [|done]. injection Hst as <-. unfold in_width in Hs.
  apply record_total_inv in Ht as [-> _]. apply align_Ok_inv in Hn as [_ ->]; [|lia].
  pose proof (padded_bounds (rm_stored_length m + 148)). lia.
Qed.
Lemma cold_record_inv fuel file o :
  verify_cold_records (S fuel) file o = Some () → 0 ≤ o < len file → ∃ r, record_at file o (len file) r.
Proof.
  cbn [verify_cold_records]. cbv zeta. intros Hv Ho. rewrite decide_True in Hv by lia. case_decide as Hh; [done|].
  unfold RECORD_HEADER_LEN in Hh. rewrite !read_exact_Ok in Hv by (unfold RECORD_HEADER_LEN; lia).
  cbn [ok mbind option_bind] in Hv. change (Z.to_nat RECORD_HEADER_LEN) with 128%nat in Hv.
  destruct (encoded_record_len_from_header _) as [n|] eqn:Hn; [|done]. cbn [ok mbind option_bind] in Hv.
  case_decide as Hm; [done|]. apply encoded_len_bound in Hn.
  rewrite read_exact_Ok in Hv by (unfold RECORD_HEADER_LEN; lia). cbn [ok mbind option_bind] in Hv.
  rewrite header_and_rest in Hv by lia.
  destruct (decode_record _) as [[r c]|] eqn:Hd; [|done]. cbn [ok mbind option_bind snd] in Hv.
  case_decide as Hc; [subst c|done]. exists r.
  apply decode_record_canonical in Hd as (Hw & Hf & Hsz & Hlen & Ht). fold (size r) in Hsz. subst n.
  split; [split_and!; [done|done|unfold MAX_COLD_CHUNK_RECORD_BYTES, MAX_RECOVERY_RECORD_BYTES in *; lia]|].
  split; [lia|]. rewrite <-Ht, take_ge; [done|]. unfold slice. rewrite length_take. lia.
Qed.
(** The loop accepts exactly a run of records up to the end of the file. *)
Lemma cold_records_exact fuel file o :
  (Z.to_nat (len file - o) < fuel)%nat → 0 ≤ o ≤ len file → len file ≤ u64_max →
  verify_cold_records fuel file o = Some () ↔ ∃ rs, holds file o (len file) rs ∧ o + sizes rs = len file.
Proof.
  revert o. induction fuel as [|fuel IH]; intros o Hf Ho Hmax; [lia|].
  destruct (decide (o = len file)) as [Heq|Hne].
  - split; [|intros _; cbn [verify_cold_records]; by rewrite decide_False by lia].
    intros _. exists []. split; [done|]. unfold sizes. cbn. lia.
  - split.
    + intros Hv. destruct (cold_record_inv _ _ _ Hv) as [r Hat]; [lia|]. pose proof (size_pos r).
      pose proof Hat as ((Hw & _) & Hend & _). rewrite (cold_record_at _ _ _ r) in Hv by (done || lia).
      apply IH in Hv as (rs & Hrs & Hsum); [|lia|lia|done]. exists (r :: rs). split; [done|].
      rewrite sizes_cons by done. lia.
    + intros ([|r rs] & Hrs & Hsum); [unfold sizes in Hsum; cbn in Hsum; lia|]. destruct Hrs as [Hat Hrs].
      pose proof Hat as ((Hw & _) & Hend & _). pose proof (size_pos r). rewrite sizes_cons in Hsum by done.
      rewrite (cold_record_at _ _ _ r) by (done || lia). apply IH; [lia|lia|done|]. exists rs. split; [done|lia].
Qed.

Lemma cold_check_error relative file expected e :
  verify_cold_chunk_contents relative file expected = Err e → e = VerificationFailed relative.
Proof.
  unfold verify_cold_chunk_contents. cbv zeta. case_bool_decide; cbn [ensure]; [rewrite bind_Ok|by intros [= <-]].
  destruct (read_chunk_header file) as [h|]; cbn [map_err]; [rewrite bind_Ok|by intros [= <-]].
  destruct (_ && _); cbn [ensure]; [rewrite bind_Ok|by intros [= <-]].
  destruct (verify_cold_records _ _ _); cbn [ok_or]; [done|by intros [= <-]].
Qed.

Lemma cold_check_iff relative file expected :
  len file ≤ u64_max →
  verify_cold_chunk_contents relative file expected = Ok () ↔
    ∃ h rs, header_wf h ∧ Forall scannable rs ∧ file = open_layout h rs ∧
      ch_generation h = cc_generation expected ∧ ch_chunk_id h = cc_chunk_id expected ∧
      cc_valid_prefix expected = 64 + sizes rs.
Proof.
  intros Hmax. unfold verify_cold_chunk_contents. cbv zeta. split.
  - intros Hv. apply bind_Ok_inv in Hv as ([] & Hlen%ensure_Ok_inv%bool_decide_eq_true & Hv).
    apply bind_Ok_inv in Hv as (h & Hh%map_err_Ok_inv & Hv).
    apply bind_Ok_inv in Hv as ([] & Hid%ensure_Ok_inv & Hv%ok_or_Ok_inv).
    apply andb_true_iff in Hid as [Hg%bool_decide_eq_true Hc%bool_decide_eq_true].
    apply read_header_inv in Hh as (Hw & H64 & Ht). unfold CHUNK_HEADER_LEN in Hv.
    apply cold_records_exact in Hv as (rs & Hrs & Hsum); [|unfold len in *; lia|lia|done].
    exists h, rs. split_and!; try done; [by eapply holds_scannable| |lia].
    rewrite <-(holds_open_layout file h _ rs Ht Hrs), Hsum, take_ge; [done|]. unfold len. lia.
  - intros (h & rs & Hw & Hall & -> & Hg & Hc & Hp). unfold len in Hmax. rewrite length_open_layout in Hmax.
    pose proof (sizes_nonneg rs). assert (len (open_layout h rs) = 64 + sizes rs) as Hlen by apply length_open_layout.
    rewrite bind_ensure_decide by lia. 
    assert (read_chunk_header (open_layout h rs) = Ok h) as -> by (by apply read_header_layout). cbn [map_err].
    rewrite bind_Ok, bind_ensure by (by rewrite !bool_decide_eq_true_2).
    rewrite (proj2 (cold_records_exact (length (open_layout h rs)) (open_layout h rs) CHUNK_HEADER_LEN
      ltac:(unfold CHUNK_HEADER_LEN, len in *; lia) ltac:(unfold CHUNK_HEADER_LEN; lia) ltac:(lia))); [done|].
    exists rs. split; [|unfold CHUNK_HEADER_LEN; lia]. rewrite <-(app_nil_r (open_layout h rs)) at 1.
    apply open_layout_holds; [done|lia].
Qed.
(** Two runs from the same position: the shorter is a prefix of the longer. *)
Lemma holds_shorter file o e rs rs' :
  holds file o e rs → holds file o e rs' → sizes rs ≤ sizes rs' → ∃ more, rs' = rs ++ more.
Proof.
  revert o rs'. induction rs as [|r rs IH]; intros o rs' Hh Hh' Hle; [by exists rs'|].
  destruct Hh as [Hat Hrs]. pose proof Hat as ((Hw & _) & _). pose proof (size_pos r). pose proof (sizes_nonneg rs).
  rewrite sizes_cons in Hle by done. destruct rs' as [|r' rs']; [unfold sizes in *; cbn in Hle; lia|].
  destruct Hh' as [Hat' Hrs']. rewrite (record_at_unique _ _ _ _ _ Hat' Hat) in *.
  rewrite sizes_cons in Hle by done. destruct (IH (o + size r) rs' Hrs Hrs') as [more ->]; [lia|]. by exists more.
Qed.

(** The structural check of a checkpointed chunk accepts exactly the files
    that are a chunk header with the descriptor's generation and chunk id
    followed by complete records and nothing else, of the declared length. *)
Theorem cold_chunk_check_exact relative file expected :
  len file ≤ u64_max →
  verify_cold_chunk_contents relative file expected = Ok () ↔
    ∃ h rs, header_wf h ∧ Forall scannable rs ∧ file = open_layout h rs ∧
      ch_generation h = cc_generation expected ∧ ch_chunk_id h = cc_chunk_id expected ∧
      cc_valid_prefix expected = 64 + sizes rs.
Proof. apply cold_check_iff. Qed.

(** Cold-tier checkpoints refuse every sealed chunk: a file that is a header,
    complete records and the footer sealing writes fails the structural check
    whatever its descriptor says, because the check reads the 64-byte footer
    as a record. The documentation says that sealed chunks are checkpointed at
    their full size. *)
Theorem sealed_chunk_rejected relative h rs expected :
  Forall scannable rs → 128 + sizes rs ≤ u64_max →
  verify_cold_chunk_contents relative (sealed_layout h rs) expected = Err (VerificationFailed relative).
Proof.
  intros Hall Hmax. assert (len (sealed_layout h rs) = 128 + sizes rs) as Hlen by apply length_sealed_layout.
  destruct (verify_cold_chunk_contents _ _ _) as [[]|e] eqn:Hv; [|by apply cold_check_error in Hv as ->].
  exfalso. apply cold_check_iff in Hv as (h' & rs' & _ & Hall' & Heq & _); [|lia].
  pose proof (f_equal len Heq) as Hlen'. rewrite Hlen in Hlen'. unfold len in Hlen'. rewrite length_open_layout in Hlen'.
  assert (holds (sealed_layout h rs) 64 (128 + sizes rs) rs') as Hh'.
  { rewrite Heq, <-(app_nil_r (open_layout h' rs')). apply open_layout_holds; [done|lia]. }
  destruct (holds_shorter (sealed_layout h rs) 64 (128 + sizes rs) rs rs') as [more ->];
    [apply open_layout_holds; [done|lia]|done|lia|].
  rewrite sizes_app in Hlen'. destruct more as [|r more]; [unfold sizes in Hlen'; cbn in Hlen'; lia|].
  rewrite Forall_app, Forall_cons in Hall'. destruct Hall' as (_ & (Hw & _) & _).
  rewrite sizes_cons in Hlen' by done. pose proof (size_pos r). pose proof (sizes_nonneg more). lia.
Qed.

(** ** Witnesses *)

Lemma cold_chunk_check_exact_witness :
  verify_cold_chunk_contents (b_ "c.open") (open_layout sample_chunk []) 
    (mkColdChunk (ch_generation sample_chunk) (ch_chunk_id sample_chunk) OpenChunk 64) = Ok ().
Proof.
  apply cold_chunk_check_exact; [vm_compute; congruence|]. exists sample_chunk, [].
  split_and!; done || apply sample_chunk_wf.
Defined.
Lemma sealed_chunk_rejected_witness :
  verify_cold_chunk_contents (b_ "c.sealed") (sealed_layout sample_chunk [sample_record])
    (mkColdChunk (ch_generation sample_chunk) (ch_chunk_id sample_chunk) SealedChunk_
       (len (sealed_layout sample_chunk [sample_record]))) = Err (VerificationFailed (b_ "c.sealed")).
Proof. apply sealed_chunk_rejected; [apply sample_scannable|vm_compute; congruence]. Defined.

End BackupSpec.
