(* ===== verification/BackupTree.v ===== *)
(** * Checkpoint and restore of directory trees: [reflink-forest-backup/src/lib.rs]

    The generic checkpoint (copy, inventory, verify, publish), the restore into
    a private directory, the digests of authoritative entries and the cold-tier
    variants of both. A directory tree is a value: the source does not change
    under the copy, and individual system calls do not fail. *)

From Stdlib Require Import ZArith Lia Strings.Byte Strings.String.
From stdpp Require Import base tactics list gmap strings.
From S2P Require Import Prelude Order Core Format Codec CatalogCodec Chunk Git Reader Backup.
Import Core Format Codec CatalogCodec Chunk Git Reader Backup.

#[local] Open Scope Z_scope.

Module BackupTree.

#[local] Set Warnings "-register-all,-clear-no-such-hyp".

(** ** Directory trees *)

(** A regular file, a directory with its entries in the order [read_dir] lists
    them, or a symbolic link with what following it reaches ([None]: nothing). *)
Inductive Node :=
| NFile (contents : bytes)
| NDir (entries : list (bytes * Node))
| NLink (target : option Node).
Abbreviation Entries := (list (bytes * Node)).

Fixpoint follow (n : Node) : option Node :=
  match n with
  | NLink (Some t) => follow t
  | NLink None => None
  | _ => Some n
  end.
Fixpoint lookup_entry (name : bytes) (es : Entries) : option Node :=
  match es with
  | [] => None
  | (k, n) :: es => if decide (k = name) then Some n else lookup_entry name es
  end.
Fixpoint set_entry (name : bytes) (n : Node) (es : Entries) : Entries :=
  match es with
  | [] => []
  | (k, m) :: es => if decide (k = name) then (k, n) :: es else (k, m) :: set_entry name n es
  end.
(** [Path::join] of a relative path. *)
Definition join (prefix name : bytes) : bytes := if decide (prefix = []) then name else prefix ++ SLASH :: name.

(** Path resolution: links are followed on the way, not at the end. *)
Fixpoint walk (n : Node) (cs : list bytes) : result IoErrorKind Node :=
  match cs with
  | [] => Ok n
  | c :: cs =>
      match follow n with
      | Some (NDir es) => match lookup_entry c es with Some k => walk k cs | None => Err NotFound end
      | Some _ => Err OtherIo
      | None => Err NotFound
      end
  end.
(** [File::open] and reading to the end. *)
Definition open_file (root : Entries) (path : bytes) : result IoErrorKind bytes :=
  n ← walk (NDir root) (components path);
  match follow n with
  | Some (NFile c) => Ok c
  | Some _ => Err OtherIo
  | None => Err NotFound
  end.

(** [take(n).read_to_end()]. *)
Definition read_limited (n : Z) (b : bytes) : bytes := if decide (blen b ≤ n) then b else take (Z.to_nat n) b.

Section Trees.
Context `{Digests}.

Definition hash_contents (c : bytes) : BResult (Z * bytes) :=
  size ← ok_or (u64_try_from (blen c)) InvalidManifest;
  Ok (size, sha256 c).
Definition hash_file (root : Entries) (path : bytes) : BResult (Z * bytes) :=
  c ← map_err BackupIo (open_file root path);
  hash_contents c.

(** ** The generic checkpoint *)

Section Entries.
Context (copy : bytes → Node → BResult (Node * list BackupFile)).
(** The loop of [copy_tree] over a directory: the copy and the files it inventories. *)
Fixpoint copy_entries (relative : bytes) (es : Entries) : BResult (Entries * list BackupFile) :=
  match es with
  | [] => Ok ([], [])
  | (name, n) :: es =>
      a ← copy (join relative name) n;
      b ← copy_entries relative es;
      Ok ((name, a.1) :: b.1, a.2 ++ b.2)
  end.
End Entries.
(** The body of the loop. *)
Fixpoint copy_node (relative : bytes) (n : Node) : BResult (Node * list BackupFile) :=
  match n with
  | NFile c =>
      h ← hash_contents c;
      Ok (NFile c, [mkBackupFile relative h.1 h.2])
  | NDir es =>
      r ← copy_entries copy_node relative es;
      Ok (NDir r.1, r.2)
  | NLink _ => Err (UnsafeSource relative)
  end.
Definition copy_tree (es : Entries) : BResult (Entries * list BackupFile) := copy_entries copy_node [] es.

(** Creation of a file that must not exist, in a directory. *)
Definition create_new (name contents : bytes) (es : Entries) : BResult Entries :=
  match lookup_entry name es with
  | Some _ => Err (BackupIo AlreadyExists)
  | None => Ok (es ++ [(name, NFile contents)])
  end.
Definition write_manifest (root : Entries) (m : BackupManifest) : BResult Entries :=
  _ ← create_new MANIFEST_FILE_NAME [] root;
  b ← encode_manifest m;
  create_new MANIFEST_FILE_NAME b root.
Definition read_manifest (root : Entries) (path : bytes) : BResult BackupManifest :=
  b ← map_err BackupIo (open_file root path);
  decode_backup_manifest_bytes (read_limited (MAX_MANIFEST_BYTES + 1) b).
Definition load_manifest (root : Entries) : BResult BackupManifest := read_manifest root MANIFEST_FILE_NAME.

Fixpoint verify_files (root : Entries) (files : list BackupFile) : BResult unit :=
  match files with
  | [] => Ok ()
  | f :: files =>
      _ ← path_to_bytes (bf_relative f);
      h ← hash_file root (bf_relative f);
      _ ← ensure (bool_decide (h.1 = bf_bytes f) && bool_decide (h.2 = bf_sha256 f))
                 (VerificationFailed (bf_relative f));
      verify_files root files
  end.
Definition verify_tree (root : Entries) (m : BackupManifest) : BResult unit := verify_files root (bm_files m).

(** Where a checkpoint or a restore is to be published: whether it exists, and
    its parent, if its path has one, with what the parent is, if it exists. *)
Record Destination := mkDestination { de_exists : bool; de_parent : option (bytes * option Node) }.
Definition check_destination (d : Destination) : BResult unit :=
  parent ← ok_or (de_parent d) (BackupIo InvalidInput);
  node ← ok_or parent.2 (BackupIo NotFound);
  match node with
  | NDir _ => Ok ()
  | _ => Err (UnsafeDestination parent.1)
  end.

Definition checkpoint (source : Node) (destination : Destination) : BResult (BackupManifest * Entries) :=
  _ ← ensure (negb (de_exists destination)) BackupDestinationExists;
  _ ← check_destination destination;
  match follow source with
  | Some (NDir es) =>
      r ← copy_tree es;
      let manifest := mkBackupManifest (sort_by (cmp_on bf_relative path_compare) r.2) in
      tree ← write_manifest r.1 manifest;
      _ ← verify_tree tree manifest;
      Ok (manifest, tree)
  | Some _ => Err (BackupIo OtherIo)
  | None => Err (BackupIo NotFound)
  end.

(** ** Restore *)

(** [create_dir_all] of the parent, then creation of the file; a file in the
    way fails it. *)
Fixpoint put_file (cs : list bytes) (contents : bytes) (es : Entries) : BResult Entries :=
  match cs with
  | [] => Err (BackupIo AlreadyExists)
  | [name] => create_new name contents es
  | name :: cs =>
      match lookup_entry name es with
      | None => sub ← put_file cs contents []; Ok (es ++ [(name, NDir sub)])
      | Some (NDir sub) => sub ← put_file cs contents sub; Ok (set_entry name (NDir sub) es)
      | Some _ => Err (BackupIo (match cs with [_] => AlreadyExists | _ => OtherIo end))
      end
  end.
Fixpoint restore_files (root : Entries) (files : list BackupFile) (tree : Entries) : BResult Entries :=
  match files with
  | [] => Ok tree
  | f :: files =>
      _ ← path_to_bytes (bf_relative f);
      _ ← ensure (negb (existsb bad_component (components (bf_relative f)))) InvalidManifest;
      c ← map_err BackupIo (open_file root (bf_relative f));
      tree ← put_file (components (bf_relative f)) c tree;
      restore_files root files tree
  end.
Definition restore_with_verification (backup_root : Entries) (manifest : BackupManifest) (destination : Destination)
    (verify : Entries → BResult unit) : BResult Entries :=
  _ ← ensure (negb (de_exists destination)) BackupDestinationExists;
  _ ← verify_tree backup_root manifest;
  _ ← check_destination destination;
  tree ← restore_files backup_root (bm_files manifest) [];
  _ ← verify_tree tree manifest;
  _ ← verify tree;
  Ok tree.
Definition restore (backup_root : Entries) (manifest : BackupManifest) (destination : Destination) : BResult Entries :=
  restore_with_verification backup_root manifest destination (λ _, Ok ()).

(** ** Digests of authoritative entries *)

Definition hash_authoritative_name (name : bytes) : BResult bytes :=
  length ← ok_or (u32_try_from (blen name)) InvalidColdTierLayout;
  Ok (be_encode 4 length ++ name).
Definition hash_authoritative_file_contents (c : bytes) : bytes := be_encode 8 (blen c) ++ c.

Fixpoint all_ok (parts : list (BResult bytes)) : BResult bytes :=
  match parts with
  | [] => Ok []
  | p :: parts => a ← p; b ← all_ok parts; Ok (a ++ b)
  end.
(** What a directory feeds the hasher: its entries in the order of their names,
    each with what it feeds, and the end marker. *)
Definition hash_entries (authority : bytes) (children : list (bytes * BResult bytes)) : BResult bytes :=
  _ ← ensure (forallb (λ c, is_ok (path_to_bytes c.1)) children) (VerificationFailed authority);
  parts ← all_ok (map snd (sort_by (cmp_on fst bytes_compare) children));
  Ok (parts ++ b_ "E").
Fixpoint hash_entry (authority name : bytes) (n : Node) : BResult bytes :=
  match n with
  | NFile c =>
      name ← hash_authoritative_name name;
      Ok (b_ "F" ++ name ++ hash_authoritative_file_contents c)
  | NDir es =>
      name ← hash_authoritative_name name;
      inner ← hash_entries authority (map (λ e, (e.1, hash_entry authority e.1 e.2)) es);
      Ok (b_ "D" ++ name ++ inner)
  | NLink _ => Err (VerificationFailed authority)
  end.
Definition hash_authoritative_directory_entries (authority : bytes) (es : Entries) : BResult bytes :=
  hash_entries authority (map (λ e, (e.1, hash_entry authority e.1 e.2)) es).
Definition hash_authoritative_directory (authority : bytes) (es : Entries) : BResult bytes :=
  stream ← hash_authoritative_directory_entries authority es;
  Ok (sha256 (AUTHORITATIVE_DIRECTORY_MAGIC ++ stream)).
Definition hash_authoritative_entry (root : Entries) (relative : bytes) : BResult bytes :=
  match walk (NDir root) (components relative) with
  | Ok (NFile c) => h ← hash_contents c; Ok h.2
  | Ok (NDir es) => hash_authoritative_directory relative es
  | Ok (NLink _) | Err NotFound => Err (VerificationFailed relative)
  | Err e => Err (BackupIo e)
  end.

Record ColdTierAuthoritativeDigests := mkDigests {
  ad_catalog_digest : bytes; ad_config_digest : bytes; ad_pins_manifest_digest : bytes }.
Definition digests (a : ColdTierAuthoritativePaths) (root : Entries) : BResult ColdTierAuthoritativeDigests :=
  _ ← authoritative_validate a;
  catalog ← hash_authoritative_entry root (ap_catalog a);
  config ← hash_authoritative_entry root (ap_config a);
  pins ← hash_authoritative_entry root (ap_pins_manifest a);
  Ok (mkDigests catalog config pins).
Definition verify_cold_descriptor_authority (root : Entries) (d : ColdTierCheckpointDescriptor)
    (a : ColdTierAuthoritativePaths) : BResult unit :=
  actual ← digests a root;
  _ ← ensure (bool_decide (ad_catalog_digest actual = cd_catalog_digest d)) (VerificationFailed (ap_catalog a));
  _ ← ensure (bool_decide (ad_config_digest actual = cd_config_digest d)) (VerificationFailed (ap_config a));
  ensure (bool_decide (ad_pins_manifest_digest actual = cd_pins_manifest_digest d))
         (VerificationFailed (ap_pins_manifest a)).

(** ** Chunks of a cold tier *)

(** Every component but the last is a directory, the last a regular file. *)
Fixpoint checked_cold_chunk_path (relative : bytes) (es : Entries) (cs : list bytes) : BResult bytes :=
  match cs with
  | [] => Err InvalidColdTierLayout
  | c :: cs =>
      match lookup_entry c es, cs with
      | Some (NFile f), [] => Ok f
      | Some (NDir sub), _ :: _ => checked_cold_chunk_path relative sub cs
      | _, _ => Err (VerificationFailed relative)
      end
  end.
Definition verify_cold_chunk_file (root : Entries) (relative : bytes) (expected : ColdChunkDescriptor) : BResult unit :=
  _ ← ensure (negb (existsb bad_component (components relative))) InvalidColdTierLayout;
  file ← checked_cold_chunk_path relative root (components relative);
  verify_cold_chunk_contents relative file expected.

(** The [BTreeMap] of paths: the last entry of a key wins. *)
Definition chunk_path_map (paths : ColdTierChunkPaths) : gmap (Z * Z) bytes :=
  list_to_map (reverse (map (λ e, ((cp_generation e, cp_chunk_id e), cp_relative e)) (cps_entries paths))).
Fixpoint verify_chunks (root : Entries) (entries : gmap (Z * Z) bytes) (manifest : option BackupManifest)
    (chunks : list ColdChunkDescriptor) : BResult unit :=
  match chunks with
  | [] => Ok ()
  | chunk :: chunks =>
      relative ← ok_or (entries !! (cc_generation chunk, cc_chunk_id chunk)) InvalidColdTierLayout;
      _ ← match manifest with
          | Some m =>
              match filter (λ f, components (bf_relative f) = components relative) (bm_files m) with
              | [f] => ensure (bool_decide (bf_bytes f = cc_valid_prefix chunk)) (VerificationFailed relative)
              | _ => Err (VerificationFailed relative)
              end
          | None => Ok ()
          end;
      _ ← verify_cold_chunk_file root relative chunk;
      verify_chunks root entries manifest chunks
  end.
Definition verify_cold_descriptor_chunks (root : Entries) (d : ColdTierCheckpointDescriptor) (paths : ColdTierChunkPaths)
    (manifest : option BackupManifest) : BResult unit :=
  let entries := chunk_path_map paths in
  _ ← ensure (bool_decide (size entries = length (cd_chunks d))) InvalidColdTierLayout;
  verify_chunks root entries manifest (cd_chunks d).

(** ** Cold-tier checkpoints *)

(** [guard] is what [quiesce_and_sync] returns. *)
Definition checkpoint_cold_tier (guard : BResult unit) (source : Entries) (destination : Destination)
    (d : ColdTierCheckpointDescriptor) (a : ColdTierAuthoritativePaths) (paths : ColdTierChunkPaths)
    : BResult (BackupManifest * Entries) :=
  _ ← guard;
  _ ← validate_cold_descriptor d;
  _ ← validate_cold_tier_layout d a paths;
  _ ← verify_cold_descriptor_authority source d a;
  _ ← verify_cold_descriptor_chunks source d paths None;
  r ← checkpoint (NDir source) destination;
  _ ← verify_cold_descriptor_authority r.2 d a;
  _ ← verify_cold_descriptor_chunks r.2 d paths (Some r.1);
  b ← encode_cold_descriptor d;
  root ← create_new COLD_DESCRIPTOR_FILE_NAME b r.2;
  Ok (r.1, root).
Definition load_cold_tier_descriptor (root : Entries) : BResult ColdTierCheckpointDescriptor :=
  b ← map_err BackupIo (open_file root COLD_DESCRIPTOR_FILE_NAME);
  decode_cold_tier_checkpoint_descriptor_bytes (read_limited (MAX_COLD_DESCRIPTOR_BYTES + 1) b).
Definition restore_cold_tier (backup_root : Entries) (manifest : BackupManifest) (destination : Destination)
    (a : ColdTierAuthoritativePaths) (paths : ColdTierChunkPaths) : BResult Entries :=
  d ← load_cold_tier_descriptor backup_root;
  _ ← validate_cold_tier_layout d a paths;
  _ ← verify_tree backup_root manifest;
  _ ← verify_cold_descriptor_authority backup_root d a;
  _ ← verify_cold_descriptor_chunks backup_root d paths (Some manifest);
  restore_with_verification backup_root manifest destination (λ temporary,
    _ ← verify_cold_descriptor_authority temporary d a;
    verify_cold_descriptor_chunks temporary d paths (Some manifest)).
End Trees.

End BackupTree.
