(* ===== verification/BackupTreeSpec.v ===== *)
(** * What checkpoints of directory trees guarantee

    A checkpoint that succeeds restores its tree. Module [AuthoritySpec]: the
    digest stream of authoritative entries determines them. *)

From Stdlib Require Import ZArith Lia Strings.Byte Strings.String Sorting.Sorted.
From stdpp Require Import base tactics list gmap strings.
From S2P Require Import Prelude Order Core Format Codec CatalogCodec Chunk RecoverySpec Git GitSpec Reader Backup BackupSpec BackupTree.
Import Core Format Codec CatalogCodec Chunk Git GitSpec Reader Backup BackupSpec BackupTree.

#[local] Open Scope Z_scope.

Module BackupTreeSpec.

#[local] Set Warnings "-register-all,-clear-no-such-hyp".

(** ** Paths *)

Definition name_ok (c : bytes) : Prop := c ≠ [] ∧ SLASH ∉ c.
Fixpoint path_of (cs : list bytes) : bytes :=
  match cs with
  | [] => []
  | [c] => c
  | c :: cs => c ++ SLASH :: path_of cs
  end.
Lemma components_path_of cs : cs ≠ [] → Forall name_ok cs → components (path_of cs) = cs.
Proof.
  intros Hne Hall. induction Hall as [|c cs [_ Hc] Hcs IH]; [done|]. unfold components in *.
  destruct cs as [|c' cs]; [by apply split_last|]. change (path_of (c :: c' :: cs)) with (c ++ SLASH :: path_of (c' :: cs)).
  by rewrite split_line, IH.
Qed.
Lemma path_of_nil cs : Forall name_ok cs → path_of cs = [] → cs = [].
Proof. intros Hall. destruct Hall as [|c cs [Hc _] _]; [done|]. destruct cs; cbn; [done|by destruct c]. Qed.
Lemma join_path_of cs name : Forall name_ok cs → join (path_of cs) name = path_of (cs ++ [name]).
Proof.
  intros Hall. unfold join. case_decide as Hd; [by apply path_of_nil in Hd as ->|].
  induction Hall as [|c cs Hc Hcs IH]; [done|]. destruct cs as [|c' cs]; [done|].
  change (path_of ((c :: c' :: cs) ++ [name])) with (c ++ SLASH :: path_of ((c' :: cs) ++ [name])).
  rewrite <-IH; [|intros Hd'; by apply path_of_nil in Hd']. cbn [path_of]. by rewrite <-app_assoc.
Qed.

(** [Path]'s order is a total order on byte strings. *)
Lemma split_not_nil b : split SLASH b ≠ [].
Proof. destruct b as [|x b]; cbn; [done|]. case_decide; [done|]. by destruct (split SLASH b). Qed.
Lemma path_of_components b : path_of (components b) = b.
Proof.
  unfold components. induction b as [|x b IH]; cbn [split]; [done|]. pose proof (split_not_nil b).
  case_decide as Hd.
  - subst x. destruct (split SLASH b) as [|c cs]; [done|].
    change (path_of ([] :: c :: cs)) with (SLASH :: path_of (c :: cs)). by rewrite IH.
  - destruct (split SLASH b) as [|c cs]; [done|]. rewrite <-IH. by destruct cs.
Qed.
#[export] Instance path_ord : Ord path_compare.
Proof.
  apply (cmp_on_ord components (list_compare bytes_compare)); [|apply _]. intros a b Hab.
  by rewrite <-(path_of_components a), Hab, path_of_components.
Qed.

(** ** Trees *)

Lemma Node_ind' (P : Node → Prop) :
  (∀ c, P (NFile c)) → (∀ es, Forall (λ e, P e.2) es → P (NDir es)) → (∀ t, P (NLink t)) → ∀ n, P n.
Proof.
  intros Hf Hd Hl. fix IH 1. intros [c|es|t]; [apply Hf| |apply Hl]. apply Hd.
  induction es as [|[k n] es IHes]; constructor; [apply IH|exact IHes].
Qed.

(** The node a list of names leads to, without following links. *)
Fixpoint node_at (n : Node) (cs : list bytes) : option Node :=
  match cs with
  | [] => Some n
  | c :: cs => match n with NDir es => lookup_entry c es ≫= λ k, node_at k cs | _ => None end
  end.
(** Directories have distinct, proper entry names, and files a [u64] length. *)
Inductive tree_wf : Node → Prop :=
| wf_file c : blen c ≤ u64_max → tree_wf (NFile c)
| wf_link t : tree_wf (NLink t)
| wf_dir es : NoDup es.*1 → Forall (λ e, name_ok e.1 ∧ tree_wf e.2) es → tree_wf (NDir es).
(** The regular files of a tree. *)
Fixpoint tree_files (cs : list bytes) (n : Node) : list (list bytes * bytes) :=
  match n with
  | NFile c => [(cs, c)]
  | NDir es => flat_map (λ e, tree_files (cs ++ [e.1]) e.2) es
  | NLink _ => []
  end.

Lemma lookup_entry_Some name es n : NoDup es.*1 → lookup_entry name es = Some n ↔ (name, n) ∈ es.
Proof.
  induction es as [|[k m] es IH]; cbn [lookup_entry fmap list_fmap fst]; [set_solver|].
  intros [Hk Hnd]%NoDup_cons. rewrite elem_of_cons. case_decide as Hd.
  - subst k. split; [intros [= ->]; by left|]. intros [[= ->]|Hin]; [done|]. destruct Hk.
    by apply (list_elem_of_fmap_2 fst) in Hin.
  - rewrite (IH Hnd). split; [by right|]. intros [[= -> ->]|?]; done.
Qed.

Lemma tree_files_iff n cs0 cs c :
  tree_wf n → (cs, c) ∈ tree_files cs0 n ↔ ∃ cs1, cs = cs0 ++ cs1 ∧ node_at n cs1 = Some (NFile c).
Proof.
  intros Hwf. revert cs0. induction n as [c'|es IH|t] using Node_ind'; intros cs0; cbn [tree_files].
  - rewrite list_elem_of_singleton. split.
    + intros [= -> ->]. exists []. by rewrite app_nil_r.
    + intros ([|] & -> & Hn); [|done]. injection Hn as ->. by rewrite app_nil_r.
  - inversion Hwf as [| |? Hnd Hall]; subst. rewrite Forall_forall in IH, Hall.
    rewrite list_elem_of_In, in_flat_map. split.
    + intros ([k m] & Hin%list_elem_of_In & Hf%list_elem_of_In). destruct (Hall _ Hin) as [_ Hm].
      apply (IH _ Hin Hm) in Hf as (cs1 & -> & Hn). exists (k :: cs1). rewrite <-app_assoc. split; [done|].
      cbn [node_at]. by rewrite (proj2 (lookup_entry_Some k es m Hnd) Hin).
    + intros ([|k cs1] & -> & Hn); [done|]. cbn [node_at] in Hn.
      destruct (lookup_entry k es) as [m|] eqn:Hl; [|done]. apply lookup_entry_Some in Hl; [|done].
      exists (k, m). split; [by apply list_elem_of_In|]. apply list_elem_of_In. destruct (Hall _ Hl) as [_ Hm].
      apply (IH _ Hl Hm). exists cs1. by rewrite <-app_assoc.
  - split; [set_solver|]. intros ([|] & _ & Hn); done.
Qed.

(** ** Copying *)

Section Copy.
Context `{Digests}.

Definition backup_of (f : list bytes * bytes) : BackupFile :=
  mkBackupFile (path_of f.1) (blen f.2) (sha256 f.2).

(** A copy that succeeds is the source, which has no links, and inventories its
    regular files. *)
Lemma copy_node_Ok n cs n' files :
  tree_wf n → Forall name_ok cs → copy_node (path_of cs) n = Ok (n', files) →
  n' = n ∧ files = map backup_of (tree_files cs n) ∧ Forall (λ f, blen f.2 ≤ u64_max) (tree_files cs n).
Proof.
  intros Hwf. revert cs n' files. induction n as [c|es IH|t] using Node_ind'; intros cs n' files Hcs; cbn [copy_node].
  - unfold hash_contents, u64_try_from. case_decide; cbn [ok_or]; [|done]. rewrite !bind_Ok.
    intros Heq. injection Heq as <- <-. split_and!; try done. by repeat constructor.
  - inversion Hwf as [| |? _ Hall]; subst. intros Hc. apply bind_Ok_inv in Hc as ([es' fs] & Hc & Heq).
    cbn [fst snd] in Heq. injection Heq as <- <-.
    assert (es' = es ∧ fs = map backup_of (flat_map (λ e, tree_files (cs ++ [e.1]) e.2) es) ∧
      Forall (λ f, blen f.2 ≤ u64_max) (flat_map (λ e, tree_files (cs ++ [e.1]) e.2) es)) as (-> & -> & Hsz); [|done].
    clear Hwf. revert es' fs Hc.
    induction es as [|[k m] es IHes]; intros es' fs; cbn [copy_entries flat_map map].
    + intros [= <- <-]. done.
    + apply Forall_cons in IH as [Hm IH]. apply Forall_cons in Hall as [[Hk Hwm] Hall]. cbn [snd fst] in *.
      intros Hc. apply bind_Ok_inv in Hc as ([m' f1] & H1' & Hc). apply bind_Ok_inv in Hc as ([es1 f2] & H2' & Heq).
      cbn [fst snd] in Heq. injection Heq as <- <-. rewrite join_path_of in H1' by done.
      apply Hm in H1' as (-> & -> & Hs1); [|done|apply Forall_app; split; [done|by constructor]].
      destruct (IHes IH Hall es1 f2 H2') as (-> & -> & Hs2). rewrite map_app, Forall_app. done.
  - done.
Qed.
Lemma copy_tree_Ok es es' files :
  tree_wf (NDir es) → copy_tree es = Ok (es', files) →
  es' = es ∧ files = map backup_of (tree_files [] (NDir es)) ∧
  Forall (λ f, blen f.2 ≤ u64_max) (tree_files [] (NDir es)).
Proof.
  intros Hwf Hc. destruct (copy_node_Ok (NDir es) [] (NDir es') files) as (Heq & ? & ?); [done|constructor| |].
  - change (path_of []) with (@nil byte). cbn [copy_node]. unfold copy_tree in Hc. by rewrite Hc.
  - by injection Heq as ->.
Qed.

End Copy.

(** ** Reading and writing files *)

Lemma walk_file n cs c : node_at n cs = Some (NFile c) → walk n cs = Ok (NFile c).
Proof.
  revert n. induction cs as [|k cs IH]; intros n; cbn [node_at walk]; [by intros [= ->]|].
  destruct n as [|es|]; [done| |done]. cbn [follow]. destruct (lookup_entry k es); [|done]. cbn. apply IH.
Qed.
Lemma open_file_at root cs c :
  cs ≠ [] → Forall name_ok cs → node_at (NDir root) cs = Some (NFile c) → open_file root (path_of cs) = Ok c.
Proof.
  intros Hne Hcs Hn. unfold open_file. rewrite components_path_of by done. by rewrite (walk_file _ _ _ Hn).
Qed.

Lemma lookup_entry_app name es es' :
  lookup_entry name (es ++ es') = match lookup_entry name es with Some n => Some n | None => lookup_entry name es' end.
Proof. induction es as [|[k m] es IH]; cbn [lookup_entry app]; [done|]. by case_decide. Qed.
Lemma lookup_set_entry name n es name' :
  is_Some (lookup_entry name es) →
  lookup_entry name' (set_entry name n es) = if decide (name = name') then Some n else lookup_entry name' es.
Proof.
  induction es as [|[k m] es IH]; cbn [lookup_entry set_entry]; [by intros []|].
  destruct (decide (k = name)) as [->|Hk]; cbn [lookup_entry].
  - intros _. case_decide; done.
  - intros Hs. rewrite IH by done. repeat case_decide; congruence.
Qed.

(** The effect of creating a file: it is there, other files stay, and only the
    directories on the way appear. *)
Definition extends (es es' : Entries) (cs : list bytes) (c : bytes) : Prop :=
  (∀ cs' c', node_at (NDir es') cs' = Some (NFile c') ↔
     cs' = cs ∧ c' = c ∨ node_at (NDir es) cs' = Some (NFile c')) ∧
  (∀ cs', is_Some (node_at (NDir es') cs') → cs' `prefix_of` cs ∨ is_Some (node_at (NDir es) cs')) ∧
  (∀ cs' t, node_at (NDir es') cs' = Some (NLink t) → node_at (NDir es) cs' = Some (NLink t)).

Lemma create_new_extends name c es :
  lookup_entry name es = None →
  ∃ es', create_new name c es = Ok es' ∧ extends es es' [name] c.
Proof.
  intros Hl. unfold create_new. rewrite Hl. eexists. split; [done|].
  assert (∀ k, lookup_entry k (es ++ [(name, NFile c)]) =
    if decide (name = k) then Some (NFile c) else lookup_entry k es) as Hk.
  { intros k. rewrite lookup_entry_app. cbn. case_decide; [subst; by rewrite Hl|]. by destruct (lookup_entry k es). }
  split_and!.
  - intros [|k cs'] c'; cbn [node_at]; [naive_solver|]. rewrite Hk. case_decide as Hd.
    + subst k. rewrite Hl. cbn. destruct cs'; cbn; naive_solver.
    + naive_solver.
  - intros [|k cs']; cbn [node_at]; [left; apply prefix_nil|]. rewrite Hk. case_decide as Hd; [|by right].
    subst k. cbn. destruct cs'; cbn; [by left|]. by intros [].
  - intros [|k cs'] t; cbn [node_at]; [done|]. rewrite Hk. case_decide; [|done]. cbn. by destruct cs'.
Qed.

(** A path that can be created: nothing is there, and no file or link is on the way. *)
Definition free_path (es : Entries) (cs : list bytes) : Prop :=
  cs ≠ [] ∧ node_at (NDir es) cs = None ∧
  ∀ p q, cs = p ++ q → p ≠ [] → ∀ n, node_at (NDir es) p = Some n → ∃ sub, n = NDir sub.

Lemma extends_sub name es sub sub' es' cs c :
  extends sub sub' cs c →
  (∀ k, k ≠ name → lookup_entry k es' = lookup_entry k es) → lookup_entry name es' = Some (NDir sub') →
  (lookup_entry name es = Some (NDir sub) ∨ lookup_entry name es = None ∧ sub = []) →
  extends es es' (name :: cs) c.
Proof.
  intros (F1 & F2 & F3) Hk Hn Hold.
  assert (∀ cs' n, (∀ sub, n ≠ NDir sub) → node_at (NDir sub) cs' = Some n ↔
    node_at (NDir es) (name :: cs') = Some n) as Hsub.
  { intros cs' n Hnd. cbn [node_at]. destruct Hold as [->|[-> ->]]; cbn; [done|].
    destruct cs' as [|k cs']; cbn; [|done]. split; [|done]. intros [= <-]. by destruct (Hnd []). }
  split_and!.
  - intros [|k cs'] c'; [split; [done|by intros [[? _]|]]|]. destruct (decide (k = name)) as [->|Hne].
    + rewrite <-Hsub by done. cbn [node_at]. rewrite Hn. cbn. rewrite F1. naive_solver.
    + cbn [node_at]. rewrite Hk by done. naive_solver.
  - intros [|k cs']; [left; apply prefix_nil|]. destruct (decide (k = name)) as [->|Hne].
    + cbn [node_at]. rewrite Hn. cbn. intros [Hp|Hs]%F2; [left; by apply prefix_cons|].
      destruct Hold as [->|[-> ->]]; [by right|]. left. destruct cs' as [|k' cs'']; [|by destruct Hs].
      apply prefix_cons, prefix_nil.
    + cbn [node_at]. rewrite Hk by done. by right.
  - intros [|k cs'] t; [done|]. destruct (decide (k = name)) as [->|Hne].
    + rewrite <-Hsub by done. cbn [node_at]. rewrite Hn. cbn. apply F3.
    + cbn [node_at]. by rewrite Hk.
Qed.

Lemma put_file_extends cs c es :
  free_path es cs → ∃ es', put_file cs c es = Ok es' ∧ extends es es' cs c.
Proof.
  revert es. induction cs as [|name cs IH]; intros es (Hne & Hnone & Hway); [done|]. cbn [put_file].
  destruct cs as [|c' cs].
  { apply create_new_extends. cbn [node_at] in Hnone. by destruct (lookup_entry name es). }
  assert (∀ k es', lookup_entry k (es ++ [(name, NDir es')]) =
    if decide (k = name) then (match lookup_entry name es with Some n => Some n | None => Some (NDir es') end)
    else lookup_entry k es) as Happ.
  { intros k es'. rewrite lookup_entry_app. cbn. repeat case_decide; subst; try done; by destruct (lookup_entry k es). }
  destruct (lookup_entry name es) as [n|] eqn:Hl.
  - destruct (Hway [name] (c' :: cs) eq_refl ltac:(done) n) as [sub ->]; [cbn; by rewrite Hl|].
    destruct (IH sub) as (sub' & -> & Hext).
    { split_and!; [done|cbn [node_at] in Hnone; by rewrite Hl in Hnone|]. intros p q Hpq Hp n Hn.
      apply (Hway (name :: p) q); [by rewrite Hpq|done|]. cbn [node_at]. by rewrite Hl. }
    rewrite bind_Ok. eexists. split; [done|]. eapply (extends_sub name es sub); [done| | |by left].
    + intros k Hk. rewrite lookup_set_entry by done. by rewrite decide_False.
    + rewrite lookup_set_entry by done. by rewrite decide_True.
  - destruct (IH []) as (sub' & -> & Hext).
    { split_and!; [done|done|]. intros [|k p] q _ Hp n Hn; done. }
    rewrite bind_Ok. eexists. split; [done|]. eapply (extends_sub name es []); [done| | |by right].
    + intros k Hk. by rewrite Happ, decide_False.
    + by rewrite Happ, decide_True.
Qed.

Lemma node_at_app n p q : node_at n (p ++ q) = node_at n p ≫= λ k, node_at k q.
Proof.
  revert n. induction p as [|c p IH]; intros n; cbn [node_at app]; [done|].
  destruct n as [|es|]; [done| |done]. destruct (lookup_entry c es); [|done]. cbn. apply IH.
Qed.
(** A file has nothing below it. *)
Lemma file_prefix n cs cs' c m :
  node_at n cs = Some (NFile c) → node_at n cs' = Some m → cs `prefix_of` cs' → cs' = cs.
Proof. intros Hc Hc' [[|x q] ->]; [by rewrite app_nil_r|]. by rewrite node_at_app, Hc in Hc'. Qed.
Lemma node_at_names n cs m : tree_wf n → node_at n cs = Some m → Forall name_ok cs.
Proof.
  intros Hwf. revert n Hwf. induction cs as [|c cs IH]; intros n Hwf Hn; [constructor|]. cbn [node_at] in Hn.
  destruct Hwf as [| |es Hnd Hall]; [done|done|]. destruct (lookup_entry c es) as [k|] eqn:Hl; [|done].
  apply lookup_entry_Some in Hl; [|done]. rewrite Forall_forall in Hall. destruct (Hall _ Hl) as [Hc Hk].
  constructor; [done|]. by apply (IH k).
Qed.
Lemma node_at_more es more cs n :
  cs ≠ [] → node_at (NDir es) cs = Some n → node_at (NDir (es ++ more)) cs = Some n.
Proof.
  destruct cs as [|c cs]; [done|]. intros _. cbn [node_at]. rewrite lookup_entry_app. by destruct (lookup_entry c es).
Qed.

(** ** Restoring *)

Section Restore.
Context `{Digests}.

(** The tree holds exactly [files] and the directories on their paths. *)
Definition holds_files (tree : Entries) (files : list (list bytes * bytes)) : Prop :=
  (∀ cs c, node_at (NDir tree) cs = Some (NFile c) ↔ (cs, c) ∈ files) ∧
  (∀ cs n, node_at (NDir tree) cs = Some n → cs = [] ∨ ∃ f, f ∈ files ∧ cs `prefix_of` f.1) ∧
  (∀ cs t, node_at (NDir tree) cs ≠ Some (NLink t)).
Lemma holds_files_nil : holds_files [] [].
Proof.
  split_and!.
  - intros [|] c; cbn; split; done || set_solver.
  - intros [|] n; [by left|done].
  - by intros [|] t.
Qed.
Lemma holds_files_extend tree tree' files cs c :
  holds_files tree files → extends tree tree' cs c → holds_files tree' (files ++ [(cs, c)]).
Proof.
  intros (I1 & I2 & I3) (F1 & F2 & F3). split_and!.
  - intros cs' c'. rewrite F1, I1, elem_of_app, list_elem_of_singleton. naive_solver.
  - intros cs' n Hn. destruct (F2 cs') as [Hp|[n' Hn']]; [done|right; exists (cs, c)|].
    + split; [set_solver|done].
    + destruct (I2 _ _ Hn') as [->|(f & Hf & Hp)]; [by left|right]. exists f. split; [set_solver|done].
  - intros cs' t Ht%F3. by apply I3 in Ht.
Qed.

(** Files of one tree, all different, can be restored in any order. *)
Definition restorable (root : Entries) (f : list bytes * bytes) : Prop :=
  f.1 ≠ [] ∧ Forall name_ok f.1 ∧ path_ok (path_of f.1) ∧ node_at (NDir root) f.1 = Some (NFile f.2).
Lemma restore_files_Ok root fs before tree :
  Forall (restorable root) before → Forall (restorable root) fs → NoDup (before ++ fs).*1 →
  holds_files tree before →
  ∃ tree', restore_files root (map backup_of fs) tree = Ok tree' ∧ holds_files tree' (before ++ fs).
Proof.
  intros Hb Hfs. revert before tree Hb. induction Hfs as [|[cs c] fs (Hne & Hok & Hpath & Hat) Hfs IH];
    intros before tree Hb Hnd Hh; cbn [map restore_files].
  { exists tree. by rewrite app_nil_r. }
  cbn [fst snd backup_of bf_relative] in *. unfold path_to_bytes. rewrite Hpath, !bind_Ok.
  rewrite bind_ensure by (unfold path_ok, validate_path_bytes in Hpath; by apply bind_Ok_inv in Hpath as (_ & _ & ?%ensure_Ok_inv)).
  rewrite (open_file_at root cs c) by done. cbn [map_err]. rewrite bind_Ok, components_path_of by done.
  assert (∀ f, f ∈ before → cs ≠ f.1) as Hfresh.
  { intros f Hf ->. rewrite fmap_app in Hnd. apply NoDup_app in Hnd as (_ & Hnd & _). apply (Hnd f.1); [|by left].
    by apply list_elem_of_fmap_2. }
  rewrite Forall_forall in Hb. pose proof Hh as (I1 & I2 & I3).
  destruct (put_file_extends cs c tree) as (tree1 & -> & Hext).
  { split_and!; [done| |].
    - destruct (node_at (NDir tree) cs) as [n|] eqn:Hn; [|done]. exfalso.
      destruct (I2 _ _ Hn) as [->|(f & Hf & Hp)]; [done|]. destruct (Hb f Hf) as (_ & _ & _ & Hfat).
      apply (Hfresh f Hf). symmetry. by eapply file_prefix.
    - intros p q -> Hp n Hn. destruct n as [c'|sub|t]; [|by eexists|by apply I3 in Hn].
      apply I1 in Hn. destruct (Hb _ Hn) as (_ & _ & _ & Hfat). cbn in Hfat. exfalso. apply (Hfresh _ Hn). cbn.
      eapply file_prefix; [done|done|by eexists]. }
  rewrite bind_Ok. destruct (IH (before ++ [(cs, c)]) tree1) as (tree' & -> & Hh').
  - apply Forall_app. split; [by apply Forall_forall|]. by repeat constructor.
  - by rewrite <-app_assoc.
  - by eapply holds_files_extend.
  - exists tree'. by rewrite <-app_assoc in Hh'.
Qed.
Lemma verify_files_Ok root fs :
  Forall (restorable root) fs → Forall (λ f, blen f.2 ≤ u64_max) fs → verify_files root (map backup_of fs) = Ok ().
Proof.
  intros Hfs. induction Hfs as [|[cs c] fs (Hne & Hok & Hpath & Hat) Hfs IH]; [done|].
  intros [Hsz Hall]%Forall_cons. cbn [map verify_files fst snd backup_of bf_relative bf_bytes bf_sha256] in *.
  unfold path_to_bytes, hash_file. rewrite Hpath, !bind_Ok, (open_file_at root cs c) by done. cbn [map_err].
  rewrite bind_Ok. unfold hash_contents. rewrite u64_try_from_Some by done. cbn [ok_or]. rewrite !bind_Ok. cbn [fst snd].
  rewrite bind_ensure by (by rewrite !bool_decide_eq_true_2). by apply IH.
Qed.

(** ** The order of the manifest *)

Lemma chained_sorted previous files :
  chained previous files → StronglySorted (λ a b, bytes_lt (bf_relative a) (bf_relative b)) files.
Proof.
  revert previous. induction files as [|f files IH]; intros previous Hc; [constructor|]. destruct Hc as [_ Hc].
  specialize (IH _ Hc). constructor; [done|]. destruct files as [|g files]; [constructor|].
  destruct Hc as [Hlt _]. cbn [increasing] in Hlt.
  assert (bytes_lt (bf_relative f) (bf_relative g)) as Hfg.
  { unfold bytes_ltb, bytes_lt in *. by destruct (bytes_compare _ _). }
  apply StronglySorted_inv in IH as [_ Hg]. constructor; [done|]. eapply Forall_impl; [exact Hg|].
  intros h Hgh. by etrans.
Qed.
Lemma chained_paths previous files : chained previous files → NoDup (map bf_relative files).
Proof.
  intros Hs%chained_sorted. induction Hs as [|f files Hs IH Hf]; cbn [map]; constructor; [|done].
  intros Hin%list_elem_of_fmap. destruct Hin as (g & Heq & Hg). rewrite Forall_forall in Hf. specialize (Hf g Hg).
  rewrite Heq in Hf. by apply irreflexivity in Hf; [|apply _].
Qed.

(** ** The checkpoint *)

(** What a checkpoint that succeeds has established. *)
Lemma checkpoint_inv es d m tree :
  tree_wf (NDir es) → checkpoint (NDir es) d = Ok (m, tree) →
  ∃ fs b, fs ≡ₚ tree_files [] (NDir es) ∧ m = mkBackupManifest (map backup_of fs) ∧
    tree = es ++ [(MANIFEST_FILE_NAME, NFile b)] ∧ lookup_entry MANIFEST_FILE_NAME es = None ∧
    Forall file_wf (bm_files m) ∧ encode_manifest m = Ok b ∧
    StronglySorted (cmp_le (cmp_on bf_relative path_compare)) (map backup_of fs) ∧
    Forall (restorable tree) fs ∧ Forall (λ f, blen f.2 ≤ u64_max) fs ∧ NoDup fs.*1.
Proof.
  intros Hwf Hc. unfold checkpoint in Hc. apply bind_Ok_inv in Hc as ([] & _ & Hc).
  apply bind_Ok_inv in Hc as ([] & _ & Hc). cbn [follow] in Hc.
  apply bind_Ok_inv in Hc as ([es' files] & Hcopy & Hc). apply copy_tree_Ok in Hcopy as (-> & -> & Hsz); [|done].
  cbn [fst snd] in Hc. set (files := sort_by _ _) in Hc.
  assert (StronglySorted (cmp_le (cmp_on bf_relative path_compare)) files) as Hsorted by apply sort_on_sorted, _.
  assert (files ≡ₚ map backup_of (tree_files [] (NDir es))) as Hperm by apply sort_on_perm.
  apply Permutation_map_inv in Hperm as (fs & Hfs & Hperm). rewrite Hfs in Hc, Hsorted.
  apply bind_Ok_inv in Hc as (tree' & Hw & Hc). apply bind_Ok_inv in Hc as ([] & _ & Heq). injection Heq as <- <-.
  unfold write_manifest, create_new in Hw. apply bind_Ok_inv in Hw as (x & Hl & Hw).
  destruct (lookup_entry MANIFEST_FILE_NAME es) eqn:Hlook; [done|]. apply bind_Ok_inv in Hw as (b & Hb & Heq).
  injection Heq as <-. rewrite Hperm in Hsz.
  assert (Forall file_wf (map backup_of fs)) as Hfwf.
  { apply Forall_map. eapply Forall_impl; [exact Hsz|]. intros [cs c] Hlen. split.
    - cbn in *. unfold in_width, u64_max, blen in *. lia.
    - cbn. unfold blen. by rewrite length_sha256. }
  apply encode_manifest_image in Hb as Hcanon; [|done]. destruct Hcanon as ((_ & Hfit & Hch) & _).
  cbn [bm_files] in Hfit, Hch. assert (NoDup fs.*1) as Hnd.
  { apply chained_paths in Hch. rewrite map_map in Hch.
    change (NoDup (map (λ f, path_of f.1) fs)) in Hch. rewrite <-(map_map fst path_of) in Hch.
    by apply NoDup_fmap_1 in Hch. }
  exists fs, b. split_and!; try done. rewrite Forall_map in Hfit. rewrite Forall_forall in Hfit |- *.
  intros [cs c] Hin. destruct (Hfit _ Hin) as [Hpath _]. cbn in Hpath.
  rewrite <-Hperm in Hin. apply tree_files_iff in Hin as (cs1 & -> & Hn); [|done]. cbn [app] in *.
  assert (cs1 ≠ []) by (by intros ->). split_and!; [done|by eapply node_at_names|done|by apply node_at_more].
Qed.

(** C34. A checkpoint can be restored: when the checkpoint of a directory tree
    succeeds, its manifest can be read back from it, and restoring it to a new
    destination succeeds and gives a tree with exactly the regular files of the
    source, at the same paths with the same contents. *)
Theorem checkpoint_restores es d m tree d' :
  tree_wf (NDir es) → checkpoint (NDir es) d = Ok (m, tree) →
  de_exists d' = false → check_destination d' = Ok () →
  load_manifest tree = Ok m ∧
  ∃ tree', restore tree m d' = Ok tree' ∧
    ∀ cs c, node_at (NDir tree') cs = Some (NFile c) ↔ node_at (NDir es) cs = Some (NFile c).
Proof.
  intros Hwf Hc Hd Hp. destruct (checkpoint_inv _ _ _ _ Hwf Hc) as
    (fs & b & Hperm & -> & -> & Hl & Hfwf & Henc & _ & Hres & Hsz & Hnd). split.
  - unfold load_manifest, read_manifest, open_file. change (components MANIFEST_FILE_NAME) with [MANIFEST_FILE_NAME].
    cbn [walk follow]. rewrite lookup_entry_app, Hl. cbn [lookup_entry]. rewrite decide_True by done.
    rewrite bind_Ok. cbn [follow map_err]. rewrite bind_Ok.
    pose proof Henc as (_ & _ & Hlen)%encode_manifest_image; [|done].
    unfold read_limited. rewrite decide_True by lia. by apply decode_backup_iff.
  - unfold restore, restore_with_verification, verify_tree. cbn [bm_files]. rewrite Hd, Hp.
    rewrite bind_ensure, verify_files_Ok, !bind_Ok by done.
    destruct (restore_files_Ok (es ++ [(MANIFEST_FILE_NAME, NFile b)]) fs [] []) as (tree' & -> & Hh);
      [constructor|done|done|apply holds_files_nil|]. rewrite bind_Ok. destruct Hh as (I1 & _).
    rewrite verify_files_Ok; [rewrite !bind_Ok; eexists; split; [done|]| |done].
    + intros cs c. rewrite I1. cbn [app]. rewrite Hperm, tree_files_iff by done. naive_solver.
    + rewrite Forall_forall in Hres |- *. intros f Hf. destruct (Hres f Hf) as (? & ? & ? & _).
      split_and!; try done. apply I1. by destruct f.
Qed.

Lemma sorted_pair {A} (R S : A → A → Prop) l x y :
  StronglySorted R l → StronglySorted S l → x ∈ l → y ∈ l → x = y ∨ R x y ∧ S x y ∨ R y x ∧ S y x.
Proof.
  intros HR. induction HR as [|z l HR IH HzR]; [set_solver|]. intros [HS HzS]%StronglySorted_inv.
  rewrite Forall_forall in HzR, HzS. rewrite !elem_of_cons. intros [->|Hx] [->|Hy]; auto.
Qed.

(** Checkpoints refuse some valid trees: the inventory is sorted in the
    order of paths, which compares component by component, but the manifest
    must be in the order of the bytes of the paths. When two files of the
    source are in different orders under the two, no checkpoint succeeds. *)
Theorem checkpoint_order_mismatch es d cs1 c1 cs2 c2 :
  tree_wf (NDir es) →
  node_at (NDir es) cs1 = Some (NFile c1) → node_at (NDir es) cs2 = Some (NFile c2) →
  path_compare (path_of cs1) (path_of cs2) = Lt → bytes_lt (path_of cs2) (path_of cs1) →
  is_ok (checkpoint (NDir es) d) = false.
Proof.
  intros Hwf H1' H2' Hpath Hbytes. destruct (checkpoint (NDir es) d) as [[m tree]|] eqn:Hc; [exfalso|done].
  destruct (checkpoint_inv _ _ _ _ Hwf Hc) as (fs & b & Hperm & -> & _ & _ & Hfwf & Henc & Hsorted & _).
  apply encode_manifest_image in Henc as ((_ & _ & Hch%chained_sorted) & _); [|done]. cbn [bm_files] in *.
  assert (∀ cs c, node_at (NDir es) cs = Some (NFile c) → backup_of (cs, c) ∈ map backup_of fs) as Hin.
  { intros cs c Hn. apply list_elem_of_fmap_2. rewrite Hperm. apply tree_files_iff; [done|]. by exists cs. }
  destruct (sorted_pair _ _ _ _ _ Hch Hsorted (Hin _ _ H1') (Hin _ _ H2')) as [Heq|[[Hlt _]|[_ Hle]]].
  - injection Heq as Heq _. rewrite Heq in Hbytes. by apply irreflexivity in Hbytes; [|apply _].
  - cbn [backup_of bf_relative fst] in Hlt. assert (bytes_lt (path_of cs1) (path_of cs1)) as Hx by (by etrans).
    by apply irreflexivity in Hx; [|apply _].
  - unfold cmp_le, cmp_on in Hle. cbn [backup_of bf_relative fst] in Hle.
    by rewrite (ord_antisym (path_of cs1) (path_of cs2)), Hpath in Hle.
Qed.
End Restore.

(** ** Witnesses *)

Section Witness.
#[local] Existing Instance toy_digests.

Definition sample_tree : Entries :=
  [(b_ "chunks", NDir [(b_ "a.open", NFile (b_ "one")); (b_ "empty", NDir [])]); (b_ "config", NFile (b_ "two"))].
Definition mixed_tree : Entries :=
  [(b_ "catalog", NDir [(b_ "CURRENT", NFile [])]); (b_ "catalog.toml", NFile [])].
Definition free_destination : Destination := mkDestination false (Some (b_ "backups", Some (NDir []))).
Lemma sample_tree_wf : tree_wf (NDir sample_tree).
Proof.
  repeat first [constructor | split | (intros ?; set_solver) | done]; apply (bool_decide_unpack _); vm_compute; done.
Qed.
Lemma checkpoint_restores_witness :
  ∃ m tree, checkpoint (NDir sample_tree) free_destination = Ok (m, tree) ∧
  load_manifest tree = Ok m ∧
  ∃ tree', restore tree m free_destination = Ok tree' ∧
    ∀ cs c, node_at (NDir tree') cs = Some (NFile c) ↔ node_at (NDir sample_tree) cs = Some (NFile c).
Proof.
  assert (∃ m tree, checkpoint (NDir sample_tree) free_destination = Ok (m, tree)) as (m & tree & Hc)
    by (do 2 eexists; vm_compute; reflexivity).
  exists m, tree. split; [done|]. eapply checkpoint_restores; [apply sample_tree_wf|exact Hc|done|done].
Defined.
Lemma mixed_tree_wf : tree_wf (NDir mixed_tree).
Proof.
  repeat first [constructor | split | (intros ?; set_solver) | done]; apply (bool_decide_unpack _); vm_compute; done.
Qed.
Lemma checkpoint_order_mismatch_witness :
  checkpoint (NDir mixed_tree) free_destination = Err InvalidManifest ∧
  is_ok (checkpoint (NDir mixed_tree) free_destination) = false.
Proof.
  split; [vm_compute; reflexivity|].
  by apply (checkpoint_order_mismatch _ _ [b_ "catalog"; b_ "CURRENT"] [] [b_ "catalog.toml"] []); [apply mixed_tree_wf|..].
Defined.
End Witness.
End BackupTreeSpec.

(** * What the digest of an authoritative directory pins down

    The bytes fed to the hasher determine the tree: names, kinds and contents. *)

Import Core Format Codec CatalogCodec Chunk Git GitSpec Reader RecoverySpec Backup BackupSpec BackupTree BackupTreeSpec.

Module AuthoritySpec.

#[local] Set Warnings "-clear-no-such-hyp".

(** What a node is: a file with its contents, or a directory. *)
Definition shape (n : option Node) : option (option bytes) :=
  match n with
  | Some (NFile c) => Some (Some c)
  | Some (NDir _) => Some None
  | Some (NLink _) | None => None
  end.
(** Trees that differ at most in the order of directory entries. *)
Definition same (n n' : Node) : Prop := ∀ cs, shape (node_at n cs) = shape (node_at n' cs).

Section Stream.
Context `{Digests} (authority : bytes).

Definition entry_bytes (e : bytes * Node) : BResult bytes := hash_entry authority e.1 e.2.
Definition by_name (es : Entries) : Entries := sort_by (cmp_on fst bytes_compare) es.

Lemma by_name_perm es : by_name es ≡ₚ es.
Proof. apply sort_on_perm. Qed.
(** Sorting the entries and their streams by name gives the same order. *)
Lemma sort_streams es :
  NoDup es.*1 →
  sort_by (cmp_on fst bytes_compare) (map (λ e, (e.1, hash_entry authority e.1 e.2)) es) =
  map (λ e, (e.1, hash_entry authority e.1 e.2)) (by_name es).
Proof.
  intros Hnd. apply sort_on_unique; [apply _|by rewrite map_map| |by rewrite by_name_perm].
  eapply StronglySorted_map; [|apply sort_on_sorted; apply _]. done.
Qed.
Lemma hash_entries_Ok es s :
  NoDup es.*1 → hash_entries authority (map (λ e, (e.1, hash_entry authority e.1 e.2)) es) = Ok s →
  ∃ parts, all_ok (map entry_bytes (by_name es)) = Ok parts ∧ s = parts ++ b_ "E".
Proof.
  intros Hnd Hh. unfold hash_entries in Hh. apply bind_Ok_inv in Hh as ([] & _ & Hh).
  rewrite sort_streams, map_map in Hh by done. apply bind_Ok_inv in Hh as (parts & Hp & Hh).
  apply Ok_inj in Hh as <-. by exists parts.
Qed.
Lemma name_bytes_Ok name s : hash_authoritative_name name = Ok s → s = be_encode 4 (blen name) ++ name ∧ is_u32 (blen name).
Proof.
  unfold hash_authoritative_name, u32_try_from. case_decide as Hd; [|done]. cbn [ok_or]. rewrite bind_Ok.
  intros Heq%Ok_inj. split; [done|]. unfold in_width, u32_max, blen in *. lia.
Qed.
(** A length-prefixed string can be read back from the front. *)
Lemma prefixed_inj k a b r r' :
  in_width (8 * Z.of_nat k) (blen a) → in_width (8 * Z.of_nat k) (blen b) →
  be_encode k (blen a) ++ a ++ r = be_encode k (blen b) ++ b ++ r' → a = b ∧ r = r'.
Proof.
  intros Ha Hb Heq. apply app_inj_1 in Heq as [Hl Heq]; [|by rewrite !length_be_encode].
  apply be_encode_inj in Hl; [|done|done]. unfold blen in Hl. apply app_inj_1 in Heq; [done|lia].
Qed.

(** What an entry feeds the hasher starts with its kind. *)
Lemma entry_head name n s :
  hash_entry authority name n = Ok s →
  ∃ t s0, s = [t] ++ be_encode 4 (blen name) ++ name ++ s0 ∧ is_u32 (blen name) ∧
    ((t = "F"%byte ∧ ∃ c, n = NFile c ∧ s0 = hash_authoritative_file_contents c) ∨
     (t = "D"%byte ∧ ∃ es, n = NDir es ∧
        hash_entries authority (map (λ e, (e.1, hash_entry authority e.1 e.2)) es) = Ok s0)).
Proof.
  destruct n as [c|es|]; cbn [hash_entry]; [| |done]; intros Hh.
  - apply bind_Ok_inv in Hh as (x & (-> & Hw)%name_bytes_Ok & Hh). apply Ok_inj in Hh as <-.
    exists "F"%byte, (hash_authoritative_file_contents c). split_and!; [by rewrite <-app_assoc|done|]. left. eauto.
  - apply bind_Ok_inv in Hh as (x & (-> & Hw)%name_bytes_Ok & Hh). apply bind_Ok_inv in Hh as (s0 & Hs & Hh).
    apply Ok_inj in Hh as <-. exists "D"%byte, s0. split_and!; [by rewrite <-app_assoc|done|]. right. eauto.
Qed.

Definition readable (n : Node) : Prop :=
  ∀ n' name name' s s' r r', tree_wf n → tree_wf n' → hash_entry authority name n = Ok s →
    hash_entry authority name' n' = Ok s' → s ++ r = s' ++ r' → name = name' ∧ same n n' ∧ r = r'.

Lemma entries_readable l l' s s' r r' :
  Forall (λ e, readable e.2 ∧ tree_wf e.2) l → Forall (λ e, tree_wf e.2) l' →
  all_ok (map entry_bytes l) = Ok s → all_ok (map entry_bytes l') = Ok s' →
  s ++ b_ "E" ++ r = s' ++ b_ "E" ++ r' →
  Forall2 (λ e e', e.1 = e'.1 ∧ same e.2 e'.2) l l' ∧ r = r'.
Proof.
  intros Hl. revert l' s s'. induction Hl as [|[k n] l [Hn Hwf] Hl IH]; intros [|[k' n'] l'] s s' Hl';
    cbn [map all_ok].
  - intros [= <-] [= <-] Heq. split; [constructor|]. by apply (app_inv_head (b_ "E")) in Heq.
  - intros [= <-] Hs' Heq. apply bind_Ok_inv in Hs' as (a & Ha & Hs'). apply bind_Ok_inv in Hs' as (b & _ & Hs').
    apply Ok_inj in Hs' as <-. apply entry_head in Ha as (t & s0 & -> & _ & [[-> _]|[-> _]]); discriminate Heq.
  - intros Hs [= <-] Heq. apply bind_Ok_inv in Hs as (a & Ha & Hs). apply bind_Ok_inv in Hs as (b & _ & Hs).
    apply Ok_inj in Hs as <-. apply entry_head in Ha as (t & s0 & -> & _ & [[-> _]|[-> _]]); discriminate Heq.
  - intros Hs Hs' Heq. apply Forall_cons in Hl' as [Hwf' Hl'].
    apply bind_Ok_inv in Hs as (a & Ha & Hs). apply bind_Ok_inv in Hs as (b & Hb & Hs). apply Ok_inj in Hs as <-.
    apply bind_Ok_inv in Hs' as (a' & Ha' & Hs'). apply bind_Ok_inv in Hs' as (b' & Hb' & Hs'). apply Ok_inj in Hs' as <-.
    rewrite <-!app_assoc in Heq. destruct (Hn _ _ _ _ _ _ _ Hwf Hwf' Ha Ha' Heq) as (Hk & Hsame & Heq').
    destruct (IH l' b b' Hl' Hb Hb' Heq') as [Hall ->]. by repeat constructor.
Qed.

Lemma same_lookup es es' l l' k :
  NoDup es.*1 → NoDup es'.*1 → l ≡ₚ es → l' ≡ₚ es' → Forall2 (λ e e', e.1 = e'.1 ∧ same e.2 e'.2) l l' →
  match lookup_entry k es, lookup_entry k es' with
  | Some n, Some n' => same n n'
  | None, None => True
  | _, _ => False
  end.
Proof.
  intros Hnd Hnd' Hl Hl' Hall.
  assert (lookup_entry k es = lookup_entry k l ∧ lookup_entry k es' = lookup_entry k l') as [-> ->].
  { assert (∀ a b : Entries, NoDup a.*1 → b ≡ₚ a → lookup_entry k a = lookup_entry k b) as Hp; [|by split; apply Hp].
    intros a b Ha Hab. apply option_eq. intros n. rewrite !lookup_entry_Some; [by rewrite Hab| |done].
    by rewrite Hab. }
  clear Hnd Hnd' Hl Hl'. induction Hall as [|[k1 n1] [k2 n2] l l' [Hk Hs] Hall IH]; cbn [lookup_entry]; [done|].
  cbn in Hk. subst k2. by case_decide.
Qed.
Lemma same_dir es es' :
  (∀ k, match lookup_entry k es, lookup_entry k es' with
        | Some n, Some n' => same n n' | None, None => True | _, _ => False end) →
  same (NDir es) (NDir es').
Proof.
  intros Hk [|k cs]; [done|]. cbn [node_at]. specialize (Hk k).
  destruct (lookup_entry k es), (lookup_entry k es'); try done. apply Hk.
Qed.

Lemma dir_readable es es' s s' r r' :
  Forall (λ e, readable e.2) es → tree_wf (NDir es) → tree_wf (NDir es') →
  hash_entries authority (map (λ e, (e.1, hash_entry authority e.1 e.2)) es) = Ok s →
  hash_entries authority (map (λ e, (e.1, hash_entry authority e.1 e.2)) es') = Ok s' →
  s ++ r = s' ++ r' → same (NDir es) (NDir es') ∧ r = r'.
Proof.
  intros Hr Hwf Hwf' Hs Hs' Heq. inversion Hwf as [| |? Hnd Hall]; inversion Hwf' as [| |? Hnd' Hall']; subst.
  apply hash_entries_Ok in Hs as (p & Hp & ->); [|done]. apply hash_entries_Ok in Hs' as (p' & Hp' & ->); [|done].
  rewrite <-!app_assoc in Heq.
  destruct (entries_readable (by_name es) (by_name es') p p' r r') as [H2 ->]; try done.
  - rewrite by_name_perm. rewrite Forall_forall in Hr, Hall |- *. intros e He. split; [by apply Hr|by apply Hall].
  - rewrite by_name_perm. eapply Forall_impl; [exact Hall'|]. by intros e [_ ?].
  - split; [|done]. apply same_dir. intros k. by eapply same_lookup; [| |apply by_name_perm..|].
Qed.
Lemma node_readable n : readable n.
Proof.
  induction n as [c|es IH|t] using Node_ind'; intros n' name name' s s' r r' Hwf Hwf' Hs Hs' Heq.
  - apply entry_head in Hs as (t & s0 & -> & Hw & [(-> & c0 & [= <-] & ->)|(_ & ? & ? & _)]); [|done].
    apply entry_head in Hs' as (t' & s0' & -> & Hw' & [(-> & c' & -> & ->)|(-> & _)]); [|discriminate Heq].
    rewrite <-!app_assoc in Heq. apply app_inv_head in Heq. apply (prefixed_inj 4) in Heq as [-> Heq]; [|done|done].
    unfold hash_authoritative_file_contents in Heq. rewrite <-!app_assoc in Heq.
    inversion Hwf; inversion Hwf'; subst.
    apply (prefixed_inj 8) in Heq as [-> ->]; [|unfold in_width, u64_max, blen in *; lia..]. done.
  - apply entry_head in Hs as (t & s0 & -> & Hw & [(_ & ? & ? & _)|(-> & es0 & [= <-] & Hs)]); [done|].
    apply entry_head in Hs' as (t' & s0' & -> & Hw' & [(-> & _)|(-> & es' & -> & Hs')]); [discriminate Heq|].
    rewrite <-!app_assoc in Heq. apply app_inv_head in Heq. apply (prefixed_inj 4) in Heq as [-> Heq]; [|done|done].
    destruct (dir_readable es es' s0 s0' r r') as [? ->]; done.
  - done.
Qed.

(** The digest input of an authoritative directory is unambiguous: two
    directory trees that feed the hasher the same bytes have the same
    directories and the same files with the same contents; only the order in
    which a directory lists its entries may differ. *)
Theorem authoritative_stream_injective es es' s :
  tree_wf (NDir es) → tree_wf (NDir es') →
  hash_authoritative_directory_entries authority es = Ok s →
  hash_authoritative_directory_entries authority es' = Ok s →
  same (NDir es) (NDir es').
Proof.
  intros Hwf Hwf' Hs Hs'. destruct (dir_readable es es' s s [] []) as [? _]; try done.
  apply Forall_forall. intros e _. apply node_readable.
Qed.
End Stream.

(** ** Witnesses *)

Section Witness.
#[local] Existing Instance toy_digests.

Definition swapped_tree : Entries := reverse sample_tree.
Lemma swapped_tree_wf : tree_wf (NDir swapped_tree).
Proof.
  repeat first [constructor | split | (intros ?; set_solver) | done]; apply (bool_decide_unpack _); vm_compute; done.
Qed.
Lemma authoritative_stream_injective_witness : same (NDir sample_tree) (NDir swapped_tree).
Proof.
  eapply (authoritative_stream_injective []); [apply sample_tree_wf|apply swapped_tree_wf|vm_compute; reflexivity..].
Defined.

(** A catalog directory with an empty subdirectory: the checkpoint verifies and
    publishes it, and the restore of that checkpoint is refused, because the
    manifest inventories files only and the directory digest covers the empty
    directory, which the restore does not create. *)
Definition catalog_with_empty_directory : Entries :=
  [(b_ "catalog", NDir [(b_ "CURRENT", NFile (b_ "x")); (b_ "archive", NDir [])]);
   (b_ "config", NFile (b_ "y")); (b_ "pins", NFile (b_ "z"))].
Definition sample_authority : ColdTierAuthoritativePaths := mkAuthoritative (b_ "catalog") (b_ "config") (b_ "pins").
Definition sample_descriptor : ColdTierCheckpointDescriptor :=
  match digests sample_authority catalog_with_empty_directory with
  | Ok a => mkDescriptor 1 1 [] (ad_catalog_digest a) (ad_config_digest a) (ad_pins_manifest_digest a)
  | Err _ => mkDescriptor 1 1 [] [] [] []
  end.
Example empty_directory_unrestorable :
  match checkpoint_cold_tier (Ok ()) catalog_with_empty_directory free_destination sample_descriptor
          sample_authority (mkChunkPaths []) with
  | Ok (m, root) =>
      restore_cold_tier root m free_destination sample_authority (mkChunkPaths []) =
        Err (VerificationFailed (b_ "catalog"))
  | Err _ => False
  end.
Proof. vm_compute. reflexivity. Qed.
End Witness.
End AuthoritySpec.
