(* ===== verification/Cache.v ===== *)
(** * The derived blob cache: [reflink-forest-cache/src/lib.rs]

    Reserve admission, eviction, and hydration of blobs from cold records. The
    cache is a directory tree with one leaf per [ContentId]; locks make each
    operation on a leaf atomic, so operations are functions on the leaves. *)

From Stdlib Require Import ZArith Lia Strings.Byte Strings.String.
From stdpp Require Import base tactics list gmap strings.
From S2P Require Import Prelude Order Core Format Codec CatalogCodec Catalog Chunk Git.
Import Core Format Codec CatalogCodec Catalog Chunk Git.

#[local] Open Scope Z_scope.

Module Cache.

(** ** Reserve admission *)

Record ReservePolicy := mkPolicy { host_reserve_bytes : Z; guest_reserve_bytes : Z }.
Record ReserveViolation := mkViolation {
  rv_available_bytes : Z; rv_projected_allocation_bytes : Z; rv_reserve_bytes : Z;
  rv_available_after_allocation_bytes : Z; rv_shortfall_bytes : Z }.
Inductive AdmissionError :=
| HostReserve (v : ReserveViolation)
| GuestReserve (v : ReserveViolation)
| HostAndGuestReserve (host guest : ReserveViolation).

(** [saturating_sub] of [u64]. *)
Definition saturating_sub (a b : Z) : Z := Z.max 0 (a - b).
(** [ReserveViolation::new]. *)
Definition violation (available projected reserve : Z) : option ReserveViolation :=
  let after := saturating_sub available projected in
  if decide (reserve ≤ after) then None
  else Some (mkViolation available projected reserve after (reserve - after)).
Definition policy_admit (p : ReservePolicy) (host_available guest_available projected : Z) : result AdmissionError unit :=
  match violation host_available projected (host_reserve_bytes p),
        violation guest_available projected (guest_reserve_bytes p) with
  | None, None => Ok ()
  | Some host, None => Err (HostReserve host)
  | None, Some guest => Err (GuestReserve guest)
  | Some host, Some guest => Err (HostAndGuestReserve host guest)
  end.
Definition required_reclaim_bytes (e : AdmissionError) : Z :=
  match e with
  | HostReserve host => rv_shortfall_bytes host
  | GuestReserve guest => rv_shortfall_bytes guest
  | HostAndGuestReserve host guest =>
      if decide (rv_shortfall_bytes guest < rv_shortfall_bytes host) then rv_shortfall_bytes host
      else rv_shortfall_bytes guest
  end.

(** ** Names *)

Definition DIGITS : bytes := b_ "0123456789abcdef".
Definition hex (b : bytes) : bytes :=
  concat (map (λ x, [default x00 (DIGITS !! Z.to_nat (Z.shiftr (byte_to_Z x) 4));
                     default x00 (DIGITS !! Z.to_nat (Z.land (byte_to_Z x) 15))]) b).
Definition hex_nibble (b : byte) : option Z :=
  let z := byte_to_Z b in
  if decide (48 ≤ z ≤ 57) then Some (z - 48)
  else if decide (97 ≤ z ≤ 102) then Some (z - 97 + 10)
  else if decide (65 ≤ z ≤ 70) then Some (z - 65 + 10)
  else None.
Definition is_ascii_hexdigit (b : byte) : bool := bool_decide (is_Some (hex_nibble b)).
Definition is_hex_name (name : bytes) (expected_len : Z) : bool :=
  bool_decide (len name = expected_len) && forallb is_ascii_hexdigit name.
Fixpoint hex_pairs (b : bytes) : option bytes :=
  match b with
  | x :: y :: b =>
      hi ← hex_nibble x;
      lo ← hex_nibble y;
      rest ← hex_pairs b;
      Some (byte_of_Z (Z.lor (Z.shiftl hi 4) lo) :: rest)
  | _ => Some []
  end.
Definition content_id_from_hex_name (name : bytes) : option ContentId :=
  if is_hex_name name 64 then mkContentId <$> hex_pairs name else None.
(** The directories and the name of a leaf. *)
Definition path_for (id : ContentId) : bytes * bytes * bytes :=
  let h := hex (cid_bytes id) in (take 2 h, slice 2 2 h, h).
(** The leaves a scan accounts for are at the path of their name. *)
Definition canonical_leaf (first second leaf : bytes) : option ContentId :=
  id ← content_id_from_hex_name leaf;
  let '(f, s, l) := path_for id in
  if decide (first = f ∧ second = s ∧ leaf = l) then Some id else None.

(** ** Leaves *)

Inductive CacheError :=
| CacheIo (e : IoErrorKind)
| AccountingOverflow
| CacheContentMismatch (expected actual : ContentId)
| UnsafeRoot
| UnsafeEntry (id : ContentId)
| NotCached (id : ContentId).
Abbreviation CResult := (result CacheError).

(** What is at the path of a leaf; a symbolic link resolves or dangles. *)
Inductive Leaf := LRegular (contents : bytes) | LSymlink (resolves : bool) | LDirectory.
(** [Path::exists] follows symbolic links. *)
Definition path_exists (leaf : option Leaf) : bool :=
  match leaf with
  | None => false
  | Some (LSymlink resolves) => resolves
  | Some _ => true
  end.
(** [ca_strays] are leaves of the fanout directories at other paths. *)
Record Cache := mkCache { ca_leaves : gmap ContentId Leaf; ca_strays : list Leaf; ca_quarantine : list Leaf }.
Definition set_leaves (c : Cache) (m : gmap ContentId Leaf) : Cache := mkCache m (ca_strays c) (ca_quarantine c).
Definition quarantine (c : Cache) (l : Leaf) : Cache := mkCache (ca_leaves c) (ca_strays c) (l :: ca_quarantine c).
Inductive EntryStatus := Missing | Valid | Invalid.
Record CacheReconciliation := mkReconciliation { cr_retained : Z; cr_quarantined : Z; cr_skipped : Z }.

Section Leaves.
Context `{Digests}.

Definition read_entry (leaf : option Leaf) (id : ContentId) : CResult bytes :=
  match leaf with
  | None => Err (NotCached id)
  | Some (LRegular b) => Ok b
  | Some _ => Err (UnsafeEntry id)
  end.
Definition verified_path (c : Cache) (id : ContentId) : CResult (bytes * bytes * bytes) :=
  b ← read_entry (ca_leaves c !! id) id;
  let actual := ContentId_for_object Blob b in
  _ ← ensure (bool_decide (actual = id)) (CacheContentMismatch id actual);
  Ok (path_for id).
(** The descriptor it returns reads the contents that were hashed. *)
Definition open_verified_blob (c : Cache) (id : ContentId) : CResult bytes :=
  b ← read_entry (ca_leaves c !! id) id;
  let hasher := ContentHasher_new Blob (len b) in
  let actual := ContentHasher_finalize (ContentHasher_update hasher b) in
  _ ← ensure (bool_decide (actual = id)) (CacheContentMismatch id actual);
  Ok b.
Definition entry_status (leaf : option Leaf) (id : ContentId) : EntryStatus :=
  match read_entry leaf id with
  | Ok b => if decide (ContentId_for_object Blob b = id) then Valid else Invalid
  | Err (NotCached _) => Missing
  | Err _ => Invalid
  end.

(** The leaf moves to the quarantine and is removed there; [remove_file] does
    not remove a directory. *)
Definition discard_invalid_blob (c : Cache) (id : ContentId) : CResult bool * Cache :=
  match entry_status (ca_leaves c !! id) id, ca_leaves c !! id with
  | Invalid, Some leaf =>
      let moved := set_leaves c (delete id (ca_leaves c)) in
      match leaf with
      | LDirectory => (Err (CacheIo OtherIo), quarantine moved leaf)
      | _ => (Ok true, moved)
      end
  | _, _ => (Ok false, c)
  end.

(** Publication links a synchronized temporary file at the path of the leaf;
    what is there already stays. *)
Definition link_leaf (c : Cache) (id : ContentId) (b : bytes) : Cache :=
  match ca_leaves c !! id with
  | Some _ => c
  | None => set_leaves c (<[id := LRegular b]> (ca_leaves c))
  end.
Definition publish_blob (c : Cache) (id : ContentId) (b : bytes) : CResult (bytes * bytes * bytes) * Cache :=
  let actual := ContentId_for_object Blob b in
  if decide (actual = id) then
    let c := if path_exists (ca_leaves c !! id) then c else link_leaf c id b in
    (verified_path c id, c)
  else (Err (CacheContentMismatch id actual), c).

Definition reconcile_leaf (id : ContentId) (leaf : Leaf) (st : Cache * CacheReconciliation) : Cache * CacheReconciliation :=
  let '(c, r) := st in
  match entry_status (Some leaf) id with
  | Valid => (c, mkReconciliation (cr_retained r + 1) (cr_quarantined r) (cr_skipped r))
  | Missing => (c, mkReconciliation (cr_retained r) (cr_quarantined r) (cr_skipped r + 1))
  | Invalid => (quarantine (set_leaves c (delete id (ca_leaves c))) leaf,
                mkReconciliation (cr_retained r) (cr_quarantined r + 1) (cr_skipped r))
  end.
Definition reconcile (c : Cache) : CacheReconciliation * Cache :=
  let '(c', r) :=
    foldr (λ e, reconcile_leaf e.1 e.2) (c, mkReconciliation 0 0 0) (map_to_list (ca_leaves c)) in
  let moved := Z.of_nat (length (ca_strays c')) in
  (mkReconciliation (cr_retained r) (cr_quarantined r + moved) (cr_skipped r),
   mkCache (ca_leaves c') [] (ca_strays c' ++ ca_quarantine c')).
End Leaves.

(** ** Hydration *)

Inductive HydrationError :=
| HydrationCache (e : CacheError)
| HydrationStore (e : StoreError)
| HydrationMissingLocation (id : ContentId)
| NotBlob (k : ObjectKind)
| RawLengthMismatch (expected actual : Z)
| HydrationContentMismatch (expected actual : ContentId).

Section Hydration.
Context `{Digests} `{Zstd}.

(** The temporary file, the hasher over what was written and its length. *)
Record ContentHashingWriter := mkHashing { hw_file : bytes; hw_hasher : bytes; hw_written : Z }.
Definition ContentHashingWriter_new (raw_length : Z) : ContentHashingWriter :=
  mkHashing [] (ContentHasher_new Blob raw_length) 0.
Definition ContentHashingWriter_finish (w : ContentHashingWriter) : ContentId * Z :=
  (ContentHasher_finalize (hw_hasher w), hw_written w).
#[export] Instance ContentHashingWriter_write : Write ContentHashingWriter := λ w b,
  let w' n := mkHashing (hw_file w ++ b) (ContentHasher_update (hw_hasher w) b) n in
  match checked_add (hw_written w) (len b) with
  | Some n => (Ok (length b), w' n)
  | None => (Err InvalidData, w' (hw_written w))
  end.

Definition validate_blob_location (l : ObjectLocation) : result HydrationError unit :=
  ensure (bool_decide (ol_kind l = Blob)) (NotBlob (ol_kind l)).
(** Returns the content ID and the temporary file. *)
Definition stream_blob_into_cache (chunk : bytes) (l : ObjectLocation) (expected_id : ContentId)
    : result HydrationError (ContentId * bytes) :=
  let '(r, w) := stream_decoded_record_at chunk l (ContentHashingWriter_new (ol_raw_length l)) in
  metadata ← map_err HydrationStore r;
  let '(actual, actual_length) := ContentHashingWriter_finish w in
  _ ← ensure (bool_decide (rm_kind metadata = Blob)) (NotBlob (rm_kind metadata));
  _ ← ensure (bool_decide (rm_raw_length metadata = actual_length))
             (RawLengthMismatch (rm_raw_length metadata) actual_length);
  _ ← ensure (bool_decide (actual = expected_id) && bool_decide (rm_content_id metadata = expected_id))
             (HydrationContentMismatch expected_id actual);
  Ok (actual, hw_file w).
Definition publish_blob_streamed (c : Cache) (id : ContentId) (write : result HydrationError (ContentId * bytes))
    : result HydrationError (bytes * bytes * bytes) * Cache :=
  if path_exists (ca_leaves c !! id) then (map_err HydrationCache (verified_path c id), c)
  else
    match (r ← write; _ ← ensure (bool_decide (r.1 = id)) (HydrationContentMismatch id r.1); Ok r.2) with
    | Err e => (Err e, c)
    | Ok file => let c := link_leaf c id file in (map_err HydrationCache (verified_path c id), c)
    end.

(** Whether an error of [verified_path] is repaired by hydration. *)
Definition derived_damage (e : CacheError) : bool :=
  match e with CacheContentMismatch _ _ | UnsafeEntry _ => true | _ => false end.
(** [hydrate_blob_from_chunk_inner] once nothing valid is cached; [location] and
    [chunk] are what the catalog and the chunk path give. *)
Definition hydrate_missing (c : Cache) (location : option ObjectLocation) (chunk : bytes) (id : ContentId)
    : result HydrationError (bytes * bytes * bytes) * Cache :=
  match (l ← ok_or location (HydrationMissingLocation id); _ ← validate_blob_location l; Ok l) with
  | Err e => (Err e, c)
  | Ok l =>
      match publish_blob_streamed c id (stream_blob_into_cache chunk l id) with
      | (Err (HydrationCache e), c) =>
          if derived_damage e then
            match discard_invalid_blob c id with
            | (Err e, c) => (Err (HydrationCache e), c)
            | (Ok _, c) => publish_blob_streamed c id (stream_blob_into_cache chunk l id)
            end
          else (Err (HydrationCache e), c)
      | r => r
      end
  end.
Definition hydrate_blob_from_chunk_inner (c : Cache) (location : option ObjectLocation) (chunk : bytes) (id : ContentId)
    : result HydrationError (bytes * bytes * bytes) * Cache :=
  match verified_path c id with
  | Ok path => (Ok path, c)
  | Err (NotCached _) => hydrate_missing c location chunk id
  | Err e =>
      if derived_damage e then
        match discard_invalid_blob c id with
        | (Err e, c) => (Err (HydrationCache e), c)
        | (Ok _, c) => hydrate_missing c location chunk id
        end
      else (Err (HydrationCache e), c)
  end.
(** [singleflight_hydrate] for the caller that hydrates. *)
Definition hydrate_blob_from_chunk (c : Cache) (location : option ObjectLocation) (chunk : bytes) (id : ContentId)
    : result HydrationError (bytes * bytes * bytes) * Cache :=
  match verified_path c id with
  | Ok path => (Ok path, c)
  | Err e =>
      match e with
      | NotCached _ | CacheContentMismatch _ _ | UnsafeEntry _ => hydrate_blob_from_chunk_inner c location chunk id
      | _ => (Err (HydrationCache e), c)
      end
  end.
End Hydration.

(** ** Accounting and eviction *)

Record CacheEntry := mkCacheEntry { ce_content_id : ContentId; ce_logical_bytes : Z }.
Record CacheUsage := mkUsage { cu_entries : Z; cu_logical_bytes : Z; cu_skipped : Z }.
Record CacheEviction := mkEviction {
  ev_target_logical_bytes : Z; ev_before : CacheUsage; ev_after : CacheUsage;
  ev_evicted_entries : Z; ev_evicted_logical_bytes : Z; ev_skipped_entries : Z }.
Definition target_reached (e : CacheEviction) : bool :=
  bool_decide (cu_logical_bytes (ev_after e) ≤ ev_target_logical_bytes e).

Definition add_ (a b : Z) : CResult Z := ok_or (checked_add a b) AccountingOverflow.
(** [FanoutScan::push] and [FanoutScan::skip]. *)
Definition scan_leaf (e : ContentId * Leaf) (scan : list CacheEntry * CacheUsage) : CResult (list CacheEntry * CacheUsage) :=
  let '(entries, u) := scan in
  match e.2 with
  | LRegular b =>
      n ← add_ (cu_entries u) 1;
      size ← add_ (cu_logical_bytes u) (len b);
      Ok (mkCacheEntry e.1 (len b) :: entries, mkUsage n size (cu_skipped u))
  | _ =>
      k ← add_ (cu_skipped u) 1;
      Ok (entries, mkUsage (cu_entries u) (cu_logical_bytes u) k)
  end.
Fixpoint scan_leaves (l : list (ContentId * Leaf)) (scan : list CacheEntry * CacheUsage)
    : CResult (list CacheEntry * CacheUsage) :=
  match l with
  | [] => Ok scan
  | e :: l => scan ← scan_leaf e scan; scan_leaves l scan
  end.
Definition cid_compare (a b : ContentId) : comparison := bytes_compare (cid_bytes a) (cid_bytes b).
Definition scan_fanout (c : Cache) : CResult (list CacheEntry * CacheUsage) :=
  r ← scan_leaves (map_to_list (ca_leaves c)) ([], mkUsage 0 0 0);
  skipped ← add_ (cu_skipped r.2) (Z.of_nat (length (ca_strays c)));
  Ok (sort_by (cmp_on ce_content_id cid_compare) r.1, mkUsage (cu_entries r.2) (cu_logical_bytes r.2) skipped).
Definition usage (c : Cache) : CResult CacheUsage := r ← scan_fanout c; Ok r.2.

Definition evict_entry (c : Cache) (id : ContentId) : option Z * Cache :=
  match ca_leaves c !! id with
  | Some (LRegular b) => (Some (len b), set_leaves c (delete id (ca_leaves c)))
  | _ => (None, c)
  end.
(** The loop of [evict_to]: remaining bytes, evicted entries and bytes, skipped entries. *)
Fixpoint evict_loop (target : Z) (entries : list CacheEntry) (c : Cache) (remaining n size skipped : Z)
    : CResult (Z * Z * Z) * Cache :=
  match entries with
  | [] => (Ok (n, size, skipped), c)
  | e :: entries =>
      if decide (remaining ≤ target) then (Ok (n, size, skipped), c)
      else
        match evict_entry c (ce_content_id e) with
        | (Some bytes, c) =>
            match add_ n 1, add_ size bytes with
            | Ok n, Ok size => evict_loop target entries c (saturating_sub remaining bytes) n size skipped
            | _, _ => (Err AccountingOverflow, c)
            end
        | (None, c) =>
            match add_ skipped 1 with
            | Ok skipped => evict_loop target entries c remaining n size skipped
            | Err e => (Err e, c)
            end
        end
  end.
Definition evict_to (c : Cache) (target : Z) : CResult CacheEviction * Cache :=
  match scan_fanout c with
  | Err e => (Err e, c)
  | Ok (entries, before) =>
      match evict_loop target entries c (cu_logical_bytes before) 0 0 0 with
      | (Err e, c) => (Err e, c)
      | (Ok (n, size, skipped), c) => (after ← usage c; Ok (mkEviction target before after n size skipped), c)
      end
  end.
Definition evict_for_reserve (c : Cache) (available reserve : Z) : CResult CacheEviction * Cache :=
  match usage c with
  | Err e => (Err e, c)
  | Ok u => evict_to c (saturating_sub (cu_logical_bytes u) (saturating_sub reserve available))
  end.

(** ** The capacity coordinator *)

Record CapacitySnapshot := mkSnapshot { host_available_bytes : Z; guest_available_bytes : Z }.
(** [CapacityMeter]: what a measurement gives depends on what the cache holds. *)
Definition CapacityMeter : Type := Cache → result IoErrorKind CapacitySnapshot.
Record CapacityAdmission := mkAdmission {
  ad_projected_allocation_bytes : Z; ad_before : CapacitySnapshot; ad_admitted : CapacitySnapshot;
  ad_eviction : option CacheEviction }.
Record CapacityReserveFailure := mkReserveFailure {
  rf_before : CapacitySnapshot; rf_after_eviction : CapacitySnapshot; rf_eviction : CacheEviction;
  rf_violation : AdmissionError }.
Inductive CapacityAdmissionError :=
| Measurement (e : IoErrorKind)
| AdmissionCache (e : CacheError)
| ReservesStillUnmet (f : CapacityReserveFailure).
Inductive CapacityAdmissionOperationError (E : Type) :=
| Admission (e : CapacityAdmissionError)
| Operation (e : E).
Arguments Admission {E}.
Arguments Operation {E}.

Section Coordinator.
Context (meter : CapacityMeter) (policy : ReservePolicy).

Definition admits (s : CapacitySnapshot) (projected : Z) : result AdmissionError unit :=
  policy_admit policy (host_available_bytes s) (guest_available_bytes s) projected.
Definition admit_locked (c : Cache) (projected : Z) : result CapacityAdmissionError CapacityAdmission * Cache :=
  match meter c with
  | Err e => (Err (Measurement e), c)
  | Ok before =>
      match admits before projected with
      | Ok _ => (Ok (mkAdmission projected before before None), c)
      | Err initial_violation =>
          match usage c with
          | Err e => (Err (AdmissionCache e), c)
          | Ok u =>
              let target := saturating_sub (cu_logical_bytes u) (required_reclaim_bytes initial_violation) in
              match evict_to c target with
              | (Err e, c) => (Err (AdmissionCache e), c)
              | (Ok eviction, c) =>
                  match meter c with
                  | Err e => (Err (Measurement e), c)
                  | Ok after =>
                      match admits after projected with
                      | Ok _ => (Ok (mkAdmission projected before after (Some eviction)), c)
                      | Err v => (Err (ReservesStillUnmet (mkReserveFailure before after eviction v)), c)
                      end
                  end
              end
          end
      end
  end.
(** [operation] acts on state of its own, after the admission. *)
Definition with_reserve_admission {S T E} (c : Cache) (projected : Z) (operation : S → result E T * S) (s : S)
    : result (CapacityAdmissionOperationError E) (CapacityAdmission * T) * Cache * S :=
  match admit_locked c projected with
  | (Err e, c) => (Err (Admission e), c, s)
  | (Ok admission, c) =>
      match operation s with
      | (Ok t, s) => (Ok (admission, t), c, s)
      | (Err e, s) => (Err (Operation e), c, s)
      end
  end.
Definition with_admission {T} (c : Cache) (projected : Z) (allocate : Cache → CResult T * Cache)
    : result CapacityAdmissionError (CapacityAdmission * T) * Cache :=
  match admit_locked c projected with
  | (Err e, c) => (Err e, c)
  | (Ok admission, c) =>
      match allocate c with
      | (Ok t, c) => (Ok (admission, t), c)
      | (Err e, c) => (Err (AdmissionCache e), c)
      end
  end.
End Coordinator.

End Cache.
