(* ===== verification/CacheSpec.v ===== *)
(** * What the blob cache guarantees

    Reserve admission and its eviction, hydration, reconciliation and names. *)

From Stdlib Require Import ZArith Lia Strings.Byte Strings.String Sorting.Sorted.
From stdpp Require Import base tactics list gmap strings.
From S2P Require Import Prelude Order Core Format FormatSpec RecordSpec Codec CatalogCodec CatalogCodecSpec Catalog Chunk ChunkSpec RecoverySpec ReadSpec Git Cache.
Import Core Format FormatSpec RecordSpec Codec CatalogCodec CatalogCodecSpec Catalog Chunk ChunkSpec RecoverySpec ReadSpec SinkSpec Git Cache.

#[local] Open Scope Z_scope.

Module CacheSpec.

#[local] Set Warnings "-clear-no-such-hyp".

(** ** Reserves *)

(** An allocation and a positive reserve of a domain fit together into what is
    available. A reserve of zero is never checked, not even against an
    allocation that exceeds what is available. *)
Definition keeps (reserve available projected : Z) : Prop :=
  0 < reserve → reserve + projected ≤ available.
Definition keeps_reserves (p : ReservePolicy) (s : CapacitySnapshot) (projected : Z) : Prop :=
  keeps (host_reserve_bytes p) (host_available_bytes s) projected ∧
  keeps (guest_reserve_bytes p) (guest_available_bytes s) projected.

Lemma violation_None available projected reserve :
  violation available projected reserve = None ↔ keeps reserve available projected.
Proof. unfold violation, keeps, saturating_sub. case_decide; split; intros; try done; lia. Qed.
Lemma violation_Some available projected reserve v :
  0 ≤ projected ≤ available → violation available projected reserve = Some v →
  rv_shortfall_bytes v = reserve + projected - available ∧ 0 < rv_shortfall_bytes v.
Proof. unfold violation, saturating_sub. intros Hp. case_decide; [done|]. intros [= <-]. cbn. lia. Qed.
Lemma admits_Ok p s projected : admits p s projected = Ok () ↔ keeps_reserves p s projected.
Proof.
  unfold admits, policy_admit, keeps_reserves. rewrite <-!violation_None.
  destruct (violation _ _ _), (violation _ _ _); split; try done; by intros [? ?].
Qed.

(** ** Eviction *)

Definition leaf_bytes (leaf : Leaf) : Z := match leaf with LRegular b => len b | _ => 0 end.
Definition is_regular (leaf : Leaf) : bool := match leaf with LRegular _ => true | _ => false end.
Fixpoint sum_bytes (l : list (ContentId * Leaf)) : Z :=
  match l with [] => 0 | e :: l => leaf_bytes e.2 + sum_bytes l end.
(** The logical bytes the regular leaves hold, and the leaves they are. *)
Definition regular (c : Cache) : gmap ContentId Leaf := filter (λ e, is_regular e.2 = true) (ca_leaves c).
Definition held (c : Cache) : Z := sum_bytes (map_to_list (ca_leaves c)).
(** The counters of a scan fit. *)
Definition countable (c : Cache) : Prop :=
  held c ≤ u64_max ∧ Z.of_nat (base.size (ca_leaves c)) + Z.of_nat (length (ca_strays c)) ≤ u64_max.

Lemma leaf_bytes_pos leaf : 0 ≤ leaf_bytes leaf.
Proof. destruct leaf; cbn; unfold len; lia. Qed.
Lemma sum_bytes_pos l : 0 ≤ sum_bytes l.
Proof. induction l as [|e l IH]; cbn; [lia|]. pose proof (leaf_bytes_pos e.2). lia. Qed.
Lemma sum_bytes_perm l l' : l ≡ₚ l' → sum_bytes l = sum_bytes l'.
Proof. induction 1; cbn; lia. Qed.
Lemma held_delete c id leaf :
  ca_leaves c !! id = Some leaf →
  held (set_leaves c (delete id (ca_leaves c))) = held c - leaf_bytes leaf.
Proof.
  intros Hl. unfold held, set_leaves. cbn [ca_leaves].
  rewrite <-(sum_bytes_perm _ _ (map_to_list_delete _ _ _ Hl)). cbn. lia.
Qed.

(** The entries of a scan, before they are sorted. *)
Fixpoint entries_of (l : list (ContentId * Leaf)) : list CacheEntry :=
  match l with
  | [] => []
  | (id, LRegular b) :: l => entries_of l ++ [mkCacheEntry id (len b)]
  | _ :: l => entries_of l
  end.

Lemma counted_Ok a b : 0 ≤ a + b ≤ u64_max → add_ a b = Ok (a + b).
Proof. intros Hab. unfold add_. by rewrite checked_add_Some by lia. Qed.

Lemma scan_leaves_Ok l es n size k :
  0 ≤ n → 0 ≤ size → 0 ≤ k → size + sum_bytes l ≤ u64_max →
  n + k + Z.of_nat (length l) ≤ u64_max →
  ∃ n' k', scan_leaves l (es, mkUsage n size k) = Ok (entries_of l ++ es, mkUsage n' (size + sum_bytes l) k') ∧
    n' = n + Z.of_nat (length (entries_of l)) ∧ 0 ≤ k' ∧ n' + k' = n + k + Z.of_nat (length l).
Proof.
  revert es n size k. induction l as [|[id leaf] l IH]; intros es n size k Hn Hs Hk Hsum Hlen; cbn in Hsum, Hlen |- *.
  { exists n, k. rewrite Z.add_0_r. split_and!; try done; lia. }
  pose proof (sum_bytes_pos l). pose proof (leaf_bytes_pos leaf).
  destruct leaf as [b|res|]; cbn [scan_leaf snd fst cu_entries cu_logical_bytes cu_skipped leaf_bytes] in *.
  - rewrite counted_Ok by lia. cbn [mbind result_bind]. rewrite counted_Ok by lia. cbn [mbind result_bind].
    destruct (IH (mkCacheEntry id (len b) :: es) (n + 1) (size + len b) k) as (n' & k' & -> & Hn' & Hk' & Hnk); try lia.
    exists n', k'. rewrite length_app, <-app_assoc. cbn. split_and!; try lia. do 3 f_equal. lia.
  - rewrite counted_Ok by lia. cbn [mbind result_bind].
    destruct (IH es n size (k + 1)) as (n' & k' & -> & Hn' & Hk' & Hnk); try lia.
    exists n', k'. split_and!; try lia. by rewrite Z.add_0_l.
  - rewrite counted_Ok by lia. cbn [mbind result_bind].
    destruct (IH es n size (k + 1)) as (n' & k' & -> & Hn' & Hk' & Hnk); try lia.
    exists n', k'. split_and!; try lia. by rewrite Z.add_0_l.
Qed.

#[export] Instance cid_ord : Ord cid_compare.
Proof.
  apply (cmp_on_ord cid_bytes bytes_compare); [|apply _]. intros [a] [b] Hab. cbn in Hab. by subst.
Qed.

Lemma entries_ids l e :
  e ∈ entries_of l ↔ ∃ b, (ce_content_id e, LRegular b) ∈ l ∧ ce_logical_bytes e = len b.
Proof.
  induction l as [|[id leaf] l IH]; cbn [entries_of].
  { rewrite elem_of_nil. split; [done|]. intros (b & Hb & _). by apply elem_of_nil in Hb. }
  setoid_rewrite elem_of_cons. destruct leaf as [b|res|].
  - rewrite elem_of_app, list_elem_of_singleton, IH. split.
    + intros [(b' & ? & ?)| -> ]; [exists b'; auto|by exists b; auto].
    + intros (b' & [Heq|?] & Hb); [|left; by exists b']. right. injection Heq as Hid ->. destruct e. cbn in *. congruence.
  - rewrite IH. split; intros (b' & Hb & ?); exists b'; [by auto|]. destruct Hb as [[=]|]; auto.
  - rewrite IH. split; intros (b' & Hb & ?); exists b'; [by auto|]. destruct Hb as [[=]|]; auto.
Qed.
Lemma entries_nodup l : NoDup l.*1 → NoDup (map ce_content_id (entries_of l)).
Proof.
  induction l as [|[id leaf] l IH]; [constructor|]. rewrite fmap_cons. intros [Hnin Hnd]%NoDup_cons.
  destruct leaf as [b|res|]; cbn [entries_of]; [|auto|auto].
  rewrite map_app. apply NoDup_app. split_and!; [auto| |by apply NoDup_singleton].
  intros x Hx%list_elem_of_fmap. destruct Hx as (e & -> & (b' & Hb & _)%entries_ids).
  cbn. rewrite list_elem_of_singleton. intros Hid. destruct Hnin. apply (list_elem_of_fmap_2 fst) in Hb. cbn in *. by rewrite <-Hid.
Qed.
Fixpoint sum_entries (es : list CacheEntry) : Z :=
  match es with [] => 0 | e :: es => ce_logical_bytes e + sum_entries es end.
Lemma sum_entries_app es es' : sum_entries (es ++ es') = sum_entries es + sum_entries es'.
Proof. induction es; cbn; lia. Qed.
Lemma sum_entries_perm es es' : es ≡ₚ es' → sum_entries es = sum_entries es'.
Proof. induction 1; cbn; lia. Qed.
Lemma sum_entries_of l : sum_entries (entries_of l) = sum_bytes l.
Proof.
  induction l as [|[id leaf] l IH]; [done|]. destruct leaf; cbn; rewrite ?sum_entries_app; cbn; lia.
Qed.

(** What a scan returns. *)
Definition scanned (c : Cache) : list CacheEntry :=
  sort_by (cmp_on ce_content_id cid_compare) (entries_of (map_to_list (ca_leaves c))).
Lemma scan_fanout_Ok c :
  countable c → ∃ u, scan_fanout c = Ok (scanned c, u) ∧ cu_logical_bytes u = held c ∧
    cu_entries u = Z.of_nat (length (scanned c)).
Proof.
  intros [Hheld Hlen]. unfold scan_fanout.
  assert (Z.of_nat (length (map_to_list (ca_leaves c))) = Z.of_nat (base.size (ca_leaves c))) as Hsz
    by (by rewrite length_map_to_list).
  destruct (scan_leaves_Ok (map_to_list (ca_leaves c)) [] 0 0 0) as (n & k & -> & Hn & Hk & Hnk); try lia.
  { unfold held in Hheld. lia. }
  cbn [mbind result_bind fst snd cu_skipped]. rewrite counted_Ok by lia. cbn [mbind result_bind].
  eexists. rewrite app_nil_r. split; [done|]. cbn. split; [done|]. unfold scanned.
  rewrite (sort_on_perm ce_content_id cid_compare). lia.
Qed.

(** The leaves listed in [es] are regular files of those lengths. *)
Definition lists (c : Cache) (es : list CacheEntry) : Prop :=
  Forall (λ e, ∃ b, ca_leaves c !! ce_content_id e = Some (LRegular b) ∧ ce_logical_bytes e = len b) es.
Definition evicting (c : Cache) (ids : list ContentId) : Cache :=
  set_leaves c (filter (λ e, e.1 ∉ ids) (ca_leaves c)).

Lemma evicting_nil c : evicting c [] = c.
Proof.
  destruct c as [m st q]. unfold evicting, set_leaves. cbn. f_equal. apply map_filter_id.
  intros i x _. apply not_elem_of_nil.
Qed.
Lemma evicting_cons c id ids :
  evicting (set_leaves c (delete id (ca_leaves c))) ids = evicting c (id :: ids).
Proof.
  unfold evicting, set_leaves. cbn. f_equal. apply map_eq. intros i. apply option_eq. intros x.
  rewrite !map_lookup_filter_Some, lookup_delete_Some. cbn. rewrite not_elem_of_cons. naive_solver.
Qed.
Lemma lists_delete c id es :
  id ∉ map ce_content_id es → lists c es → lists (set_leaves c (delete id (ca_leaves c))) es.
Proof.
  unfold lists. intros Hnin Hl. apply Forall_forall. intros e He. rewrite Forall_forall in Hl.
  destruct (Hl e He) as (b & Hb & Hlb). exists b. split; [|done]. cbn. apply lookup_delete_Some.
  split; [|done]. intros Heq. destruct Hnin. rewrite Heq. by apply list_elem_of_fmap_2.
Qed.
Lemma evict_loop_Ok target es c remaining n size skipped :
  0 ≤ target → NoDup (map ce_content_id es) → lists c es → remaining = sum_entries es →
  0 ≤ n → n + Z.of_nat (length es) ≤ u64_max → 0 ≤ size → size + remaining ≤ u64_max →
  ∃ evicted kept, es = evicted ++ kept ∧
    evict_loop target es c remaining n size skipped =
      (Ok (n + Z.of_nat (length evicted), size + sum_entries evicted, skipped),
       evicting c (map ce_content_id evicted)) ∧
    sum_entries kept ≤ target ∧
    ∀ pre e, evicted = pre ++ [e] → target < ce_logical_bytes e + sum_entries kept.
Proof.
  intros Ht. revert c remaining n size. induction es as [|e es IH]; intros c remaining n size Hnd Hl -> Hn Hlen Hs Hsum.
  { exists [], []. cbn. rewrite !Z.add_0_r, evicting_nil. split_and!; try done; try lia. by intros [|x l] ?. }
  cbn [evict_loop]. apply Forall_cons in Hl as [(b & Hb & Hlb) Hl]. cbn in Hnd. apply NoDup_cons in Hnd as [Hnin Hnd].
  case_decide as Hd.
  { exists [], (e :: es). cbn [length sum_entries app map]. rewrite !Z.add_0_r, evicting_nil. split_and!; try done. by intros [|x l] ?. }
  assert (0 ≤ sum_entries es) as Hpos.
  { clear -Hl. induction Hl as [|e es (b & _ & He) _ IH]; cbn; [lia|]. unfold len in He. lia. }
  unfold evict_entry. rewrite Hb. cbn [length sum_entries] in *. assert (0 ≤ len b) by (unfold len; lia).
  rewrite !counted_Ok by lia. unfold saturating_sub. rewrite Hlb in *.
  destruct (IH (set_leaves c (delete (ce_content_id e) (ca_leaves c))) (Z.max 0 (len b + sum_entries es - len b)) (n + 1) (size + len b))
    as (evicted & kept & -> & Heq & Hk & Hmin); try done; try lia.
  { by apply lists_delete. }
  exists (e :: evicted), kept. rewrite Heq, evicting_cons. cbn [length sum_entries map app]. split_and!; try done.
  - do 4 f_equal; lia.
  - intros pre e' Hpre. destruct pre as [|p pre]; injection Hpre as -> ->.
    + cbn in Hd. rewrite Hlb. lia.
    + by eapply Hmin.
Qed.

Lemma held_evicting c es :
  NoDup (map ce_content_id es) → lists c es →
  held (evicting c (map ce_content_id es)) = held c - sum_entries es.
Proof.
  revert c. induction es as [|e es IH]; intros c Hnd Hl; cbn [map sum_entries]; [rewrite evicting_nil; lia|].
  apply Forall_cons in Hl as [(b & Hb & Hlb) Hl]. apply NoDup_cons in Hnd as [Hnin Hnd].
  rewrite <-evicting_cons, IH by auto using lists_delete. rewrite (held_delete _ _ _ Hb). cbn. lia.
Qed.
Lemma evicting_countable c es :
  NoDup (map ce_content_id es) → lists c es → countable c → countable (evicting c (map ce_content_id es)).
Proof.
  intros Hnd Hl [Hh Hn]. split.
  - rewrite held_evicting by done. enough (0 ≤ sum_entries es) by lia.
    clear -Hl. induction Hl as [|e es (b & _ & He) _ IH]; cbn; [lia|]. unfold len in He. lia.
  - cbn. assert (base.size (ca_leaves (evicting c (map ce_content_id es))) ≤ base.size (ca_leaves c))%nat
      by (apply map_subseteq_size, map_filter_subseteq). cbn in *. lia.
Qed.
Lemma scanned_lists c : lists c (scanned c).
Proof.
  apply Forall_forall. intros e He. unfold scanned in He. rewrite (sort_on_perm ce_content_id cid_compare) in He.
  apply entries_ids in He as (b & Hb%elem_of_map_to_list & Hl). by exists b.
Qed.
Lemma scanned_nodup c : NoDup (map ce_content_id (scanned c)).
Proof.
  unfold scanned. change (NoDup (ce_content_id <$> sort_by (cmp_on ce_content_id cid_compare) (entries_of (map_to_list (ca_leaves c))))).
  rewrite (sort_on_perm ce_content_id cid_compare). apply entries_nodup, NoDup_fst_map_to_list.
Qed.
Lemma scanned_sum c : sum_entries (scanned c) = held c.
Proof. unfold scanned. rewrite (sum_entries_perm _ _ (sort_on_perm ce_content_id cid_compare _)). apply sum_entries_of. Qed.
Lemma usage_Ok c : countable c → ∃ u, usage c = Ok u ∧ cu_logical_bytes u = held c ∧ cu_entries u = Z.of_nat (length (scanned c)).
Proof. intros Hc. destruct (scan_fanout_Ok c Hc) as (u & Hu & ? & ?). exists u. unfold usage. by rewrite Hu. Qed.

(** What [evict_to] does: it evicts the shortest initial part of the regular
    leaves, in [ContentId] order, that reaches the target. *)
Record evicts (c : Cache) (target : Z) (evicted kept : list CacheEntry) (c' : Cache) : Prop := {
  evicts_scan : scanned c = evicted ++ kept;
  evicts_leaves : c' = evicting c (map ce_content_id evicted);
  evicts_reached : held c' ≤ target;
  evicts_shortest pre e : evicted = pre ++ [e] → target < ce_logical_bytes e + held c';
}.
Lemma evict_to_Ok c target : countable c → 0 ≤ target →
  ∃ evicted kept before after c', evicts c target evicted kept c' ∧ usage c = Ok before ∧ usage c' = Ok after ∧
    cu_logical_bytes before = held c ∧ cu_logical_bytes after = held c' ∧
    evict_to c target =
      (Ok (mkEviction target before after (Z.of_nat (length evicted)) (held c - held c') 0), c').
Proof.
  intros Hc Ht. unfold evict_to. destruct (scan_fanout_Ok c Hc) as (u & Hu & Hb & _).
  pose proof (scanned_sum c) as Hsum. pose proof Hc as [Hh Hn].
  assert (Z.of_nat (length (scanned c)) ≤ u64_max) as Hlen.
  { destruct (scan_leaves_Ok (map_to_list (ca_leaves c)) [] 0 0 0) as (n & k & _ & Hn' & Hk & Hnk);
      rewrite ?length_map_to_list in *; try lia; [unfold held in Hh; lia|].
    unfold scanned. rewrite (sort_on_perm ce_content_id cid_compare). lia. }
  destruct (evict_loop_Ok target (scanned c) c (cu_logical_bytes u) 0 0 0) as (evicted & kept & Hes & Hl & Hk & Hmin);
    auto using scanned_nodup, scanned_lists; try lia.
  rewrite Hu, Hl. pose proof (scanned_nodup c) as Hnd. pose proof (scanned_lists c) as Hls.
  rewrite Hes in Hnd, Hls, Hsum. rewrite map_app in Hnd. apply NoDup_app in Hnd as (Hnd & _ & _).
  apply Forall_app in Hls as [Hls _]. rewrite sum_entries_app in Hsum.
  pose proof (held_evicting c evicted Hnd Hls) as Hhe.
  destruct (usage_Ok _ (evicting_countable c evicted Hnd Hls Hc)) as (after & Ha & Hab & _).
  exists evicted, kept, u, after, (evicting c (map ce_content_id evicted)). rewrite Ha. split_and!; try done.
  - split; try done; [lia|]. intros pre e He. specialize (Hmin pre e He). lia.
  - unfold usage. by rewrite Hu.
  - cbn. do 3 f_equal. lia.
Qed.

(** Eviction to a target of at least zero bytes always succeeds and reaches
    the target. What it removes is the shortest initial part, in [ContentId]
    order, of the regular leaves; every other leaf stays, and what it reports
    are the bytes held before and after and the difference. *)
Theorem evict_to_exact c target : countable c → 0 ≤ target →
  ∃ evicted kept before after c', evicts c target evicted kept c' ∧ usage c = Ok before ∧ usage c' = Ok after ∧
    cu_logical_bytes before = held c ∧ cu_logical_bytes after = held c' ∧
    evict_to c target =
      (Ok (mkEviction target before after (Z.of_nat (length evicted)) (held c - held c') 0), c').
Proof. apply evict_to_Ok. Qed.

(** ** Admission *)

Section Admission.
Context (meter : CapacityMeter) (policy : ReservePolicy).

(** Whatever the counters do, eviction only removes regular leaves. *)
Definition thinner (c c' : Cache) : Prop :=
  ∃ ids, c' = evicting c ids ∧ ∀ id, id ∈ ids → ∃ b, ca_leaves c !! id = Some (LRegular b).
Lemma thinner_refl c : thinner c c.
Proof. exists []. rewrite evicting_nil. split; [done|]. intros id Hid. by apply elem_of_nil in Hid. Qed.
Lemma thinner_entry c id c' r : evict_entry c id = (r, c') → thinner c c'.
Proof.
  unfold evict_entry. destruct (ca_leaves c !! id) as [[b|?|]|] eqn:Hl; intros [= <- <-]; try apply thinner_refl.
  exists [id]. rewrite <-evicting_cons, evicting_nil. split; [done|].
  intros i Hi. apply list_elem_of_singleton in Hi as ->. by exists b.
Qed.
Lemma thinner_trans c c' c'' : thinner c c' → thinner c' c'' → thinner c c''.
Proof.
  intros (i1 & -> & H1) (i2 & -> & H2). exists (i1 ++ i2). split.
  - unfold evicting, set_leaves. cbn. f_equal. apply map_eq. intros i. apply option_eq. intros x.
    rewrite !map_lookup_filter_Some. cbn. rewrite not_elem_of_app. naive_solver.
  - intros id [Hid|Hid]%elem_of_app; [auto|]. destruct (H2 id Hid) as (b & Hb). exists b.
    by apply map_lookup_filter_Some in Hb as [? _].
Qed.
Lemma evict_loop_thinner target es c rem n sz k r c' :
  evict_loop target es c rem n sz k = (r, c') → thinner c c'.
Proof.
  revert c rem n sz k. induction es as [|e es IH]; intros c rem n sz k; cbn [evict_loop].
  { intros [= _ <-]. apply thinner_refl. }
  case_decide; [intros [= _ <-]; apply thinner_refl|].
  destruct (evict_entry c (ce_content_id e)) as [[b|] c1] eqn:He; apply thinner_entry in He.
  - destruct (add_ n 1), (add_ sz b); [|by intros [= _ <-]..]. intros Hl%IH. by eapply thinner_trans.
  - destruct (add_ k 1); [|by intros [= _ <-]]. intros Hl%IH. by eapply thinner_trans.
Qed.
Lemma evict_to_thinner c target r c' : evict_to c target = (r, c') → thinner c c'.
Proof.
  unfold evict_to. destruct (scan_fanout c) as [[es u]|e]; [|intros [= _ <-]; apply thinner_refl].
  destruct (evict_loop _ _ _ _ _ _ _) as [[[[n sz] k]|e] c1] eqn:Hl; apply evict_loop_thinner in Hl;
    by intros [= _ <-].
Qed.
Lemma admit_locked_inv c projected r c' :
  admit_locked meter policy c projected = (r, c') →
  thinner c c' ∧ ∀ a, r = Ok a → meter c' = Ok (ad_admitted a) ∧ keeps_reserves policy (ad_admitted a) projected.
Proof.
  unfold admit_locked. destruct (meter c) as [before|e] eqn:Hm.
  2: { intros [= <- <-]. split; [apply thinner_refl|done]. }
  destruct (admits policy before projected) as [[]|v] eqn:Ha.
  { intros [= <- <-]. split; [apply thinner_refl|]. intros a [= <-]. split; [done|]. by apply admits_Ok. }
  destruct (usage c) as [u|e]; [|intros [= <- <-]; split; [apply thinner_refl|done]].
  destruct (evict_to c _) as [[ev|e] c1] eqn:He; apply evict_to_thinner in He; [|by intros [= <- <-]].
  destruct (meter c1) as [after|e] eqn:Hm'; [|by intros [= <- <-]].
  destruct (admits policy after projected) as [[]|v'] eqn:Ha'; intros [= <- <-]; split; try done.
  intros a [= <-]. split; [done|]. by apply admits_Ok.
Qed.

Lemma with_reserve_inv {S T E} c projected (operation : S → result E T * S) (s : S) r c' s' :
  with_reserve_admission meter policy c projected operation s = (r, c', s') →
  thinner c c' ∧
  match r with
  | Err (Admission _) => s' = s
  | Err (Operation e) => operation s = (Err e, s') ∧ ∃ m, meter c' = Ok m ∧ keeps_reserves policy m projected
  | Ok (a, t) => operation s = (Ok t, s') ∧ meter c' = Ok (ad_admitted a) ∧ keeps_reserves policy (ad_admitted a) projected
  end.
Proof.
  unfold with_reserve_admission. destruct (admit_locked meter policy c projected) as [[a|e] c1] eqn:Ha;
    apply admit_locked_inv in Ha as [Hth Ha]; [|by intros [= <- <- <-]].
  destruct (Ha a eq_refl) as [Hm Hk].
  destruct (operation s) as [[t|e] s1]; intros [= <- <- <-]; split_and!; try done. by exists (ad_admitted a).
Qed.

(** C36. Work under reserve admission starts only when a measurement of the
    final state of the cache shows that each positive reserve fits beside the
    projected allocation into what is available on its side; otherwise it does
    not run at all. When the first measurement shows this, nothing is evicted
    and the work runs. A reserve of zero is exempt: it asks nothing, so with two
    reserves of zero the work runs whatever the size of the allocation. Making
    room removes nothing but regular leaves of the derived cache. *)
Theorem reserves_admission_safe {S T E} c projected (operation : S → result E T * S) (s : S) r c' s' :
  with_reserve_admission meter policy c projected operation s = (r, c', s') →
  (thinner c c' ∧
   match r with
   | Err (Admission _) => s' = s
   | Err (Operation e) => operation s = (Err e, s') ∧ ∃ m, meter c' = Ok m ∧ keeps_reserves policy m projected
   | Ok (a, t) => operation s = (Ok t, s') ∧ meter c' = Ok (ad_admitted a) ∧ keeps_reserves policy (ad_admitted a) projected
   end) ∧
  (∀ m, meter c = Ok m → keeps_reserves policy m projected → c' = c ∧ ∀ e, r ≠ Err (Admission e)).
Proof.
  intros Hw. split; [by apply with_reserve_inv|]. intros m Hm [Hh Hg]. unfold with_reserve_admission, admit_locked in Hw.
  rewrite Hm in Hw. unfold admits, policy_admit in Hw. rewrite !(proj2 (violation_None _ _ _)) in Hw by done.
  by destruct (operation s) as [[]]; injection Hw as <- <- <-.
Qed.

(** ** Making room *)

(** What an eviction returns to both domains: at least the bytes it removed. *)
Definition reclaims (c : Cache) (m : CapacitySnapshot) : Prop :=
  ∀ c', thinner c c' → ∃ m', meter c' = Ok m' ∧
    host_available_bytes m + (held c - held c') ≤ host_available_bytes m' ∧
    guest_available_bytes m + (held c - held c') ≤ guest_available_bytes m'.

Lemma required_reclaim m projected v :
  0 ≤ projected ≤ host_available_bytes m → projected ≤ guest_available_bytes m →
  admits policy m projected = Err v →
  let host := host_reserve_bytes policy + projected - host_available_bytes m in
  let guest := guest_reserve_bytes policy + projected - guest_available_bytes m in
  required_reclaim_bytes v = Z.max host guest.
Proof.
  intros Hh Hg. unfold admits, policy_admit.
  destruct (violation (host_available_bytes m) _ _) as [vh|] eqn:Eh, (violation (guest_available_bytes m) _ _) as [vg|] eqn:Eg;
    intros Hv; [injection Hv as <-..|done].
  - apply violation_Some in Eh as [Eh _], Eg as [Eg _]; try lia. cbn. case_decide; lia.
  - apply violation_Some in Eh as [Eh ?]; [|lia]. apply violation_None in Eg. unfold keeps in Eg. cbn. lia.
  - apply violation_Some in Eg as [Eg ?]; [|lia]. apply violation_None in Eh. unfold keeps in Eh. cbn. lia.
Qed.

(** Where eviction returns the bytes it removes to both domains, admission
    makes room whenever there is room to make: an allocation no larger than
    what is available now, which would leave the reserves intact beside an
    empty cache, is admitted. *)
Theorem admission_makes_room c m projected :
  countable c → meter c = Ok m → reclaims c m →
  0 ≤ projected → projected ≤ host_available_bytes m → projected ≤ guest_available_bytes m →
  host_reserve_bytes policy + projected ≤ host_available_bytes m + held c →
  guest_reserve_bytes policy + projected ≤ guest_available_bytes m + held c →
  ∃ a c', admit_locked meter policy c projected = (Ok a, c') ∧ keeps_reserves policy (ad_admitted a) projected.
Proof.
  intros Hc Hm Hrec Hp Hph Hpg Hh Hg. unfold admit_locked. rewrite Hm.
  destruct (admits policy m projected) as [[]|v] eqn:Ha.
  { do 2 eexists. split; [done|]. by apply admits_Ok. }
  pose proof (required_reclaim m projected v (conj Hp Hph) Hpg Ha) as Hreq. cbn in Hreq.
  destruct (usage_Ok c Hc) as (u & -> & Hu & _). unfold saturating_sub. rewrite Hu.
  destruct (evict_to_Ok c (Z.max 0 (held c - required_reclaim_bytes v)) Hc) as (ev & kept & before & after & c' & Hev & _ & _ & _ & _ & Heq);
    [lia|]. rewrite Heq. pose proof (evicts_reached _ _ _ _ _ Hev) as Hr.
  destruct (Hrec c') as (m' & Hm' & Hh' & Hg'); [by eapply evict_to_thinner|]. rewrite Hm'.
  assert (admits policy m' projected = Ok ()) as ->.
  { apply admits_Ok. unfold keeps_reserves, keeps. lia. }
  do 2 eexists. split; [done|]. cbn. unfold keeps_reserves, keeps. lia.
Qed.
End Admission.

(** ** Hydration *)

Section Hydration.
Context `{Digests} `{Zstd}.

(** The temporary file holds what a buffer would, and its hasher has seen it. *)
Definition hashing (L : Z) (v1 : ValidatingObjectWriter ContentHashingWriter) (v2 : ValidatingObjectWriter bytes) : Prop :=
  alike v1 v2 ∧ let w := vw_writer _ v1 in
  hw_file w = vw_writer _ v2 ∧ hw_written w = len (hw_file w) ∧ hw_written w = vw_written _ v1 ∧
  hw_hasher w = ContentHasher_new Blob L ++ hw_file w ∧ vw_expected_length _ v1 ≤ u64_max.
Lemma hashing_write L v1 v2 b : hashing L v1 v2 →
  (write v1 b).1 = (write v2 b).1 ∧ hashing L (write v1 b).2 (write v2 b).2.
Proof.
  intros Hh. pose proof Hh as ((He & Hw & Hv) & Hf & Hn & Hnw & Hha & Hle).
  unfold write at 1 2 3 4, Validating_write. rewrite <-He, <-Hw.
  destruct (u64_try_from (len b)) as [k|] eqn:Hk; [|done]. destruct (checked_add _ _) as [next|] eqn:Hnext; [|done].
  case_decide; [done|]. unfold u64_try_from in Hk. case_decide; [|done]. injection Hk as <-.
  apply checked_add_inv in Hnext as [-> _].
  unfold write, ContentHashingWriter_write, vec_write. rewrite Hnw.
  rewrite checked_add_Some by (unfold len in *; lia). cbn. split; [done|].
  unfold hashing, alike, ContentHasher_update. cbn. rewrite <-Hf, Hv, Hha, take_ge, <-!app_assoc by done.
  unfold len in *. rewrite length_app. split_and!; try done; lia.
Qed.

(** The record at [l] is a blob with ID [id] that decodes to [raw]. *)
Definition deliverable (chunk : bytes) (l : ObjectLocation) (id : ContentId) (raw : bytes) : Prop :=
  ∃ r, placed chunk l r ∧ or_kind r = Blob ∧ or_content_id r = id ∧ decode_object_payload r = Ok raw.
Lemma deliverable_content chunk l id raw :
  deliverable chunk l id raw → ContentId_for_object Blob raw = id ∧ ol_raw_length l = len raw ∧ ol_kind l = Blob.
Proof.
  intros (r & (h & _ & _ & (_ & Hl & _) & _ & Hloc & _) & Hk & <- & Hd). unfold decode_object_payload in Hd.
  destruct (decode_object_payload_to_writer _ _ _ _ _ _) as [[u|e] w] eqn:E; [|done]. injection Hd as ->.
  destruct u. apply decode_output in E as (out & Ha & _ & Hok); [|unfold is_u64 in Hl; lia]. cbn in Ha. subst.
  rewrite Hloc. cbn. rewrite <-Hk. destruct (Hok eq_refl) as [Hlen Hcid]. by rewrite Hcid.
Qed.
Lemma stream_blob_Ok chunk l id r :
  len chunk ≤ u64_max → stream_blob_into_cache chunk l id = Ok r ↔
    ∃ raw, deliverable chunk l id raw ∧ r = (id, raw).
Proof.
  intros Hmax. unfold stream_blob_into_cache.
  destruct (stream_related (hashing (ol_raw_length l)) (λ _ _ HR, proj1 HR) (hashing_write (ol_raw_length l)) chunk l
    (ContentHashingWriter_new (ol_raw_length l)) ([] : bytes)) as (res & v1 & v2 & HR & -> & Hs).
  { intros kind L [_ HL]. unfold hashing, alike. split_and!; try done.
    cbn. unfold u64_max. lia. }
  destruct HR as (_ & Hf & Hn & _ & Hh & _). cbn [ContentHashingWriter_finish] in *.
  assert (∀ m, res = Ok m → ∃ rec, placed chunk l rec ∧ m = metadata_of rec ∧ decode_object_payload rec = Ok (hw_file (vw_writer _ v1)))
    as Hex by (intros m ->; rewrite <-Hf in Hs; by apply stream_decoded_record_at_exact in Hs).
  split.
  - destruct res as [m|e]; [|done]. destruct (Hex m eq_refl) as (rec & Hpl & -> & Hd). cbn [map_err mbind result_bind].
    intros Hr. apply bind_Ok_inv in Hr as ([] & Hk%ensure_Ok_inv & Hr). apply bind_Ok_inv in Hr as (_ & _ & Hr).
    apply bind_Ok_inv in Hr as ([] & Hc%ensure_Ok_inv & Hr). apply bool_decide_eq_true in Hk.
    apply andb_true_iff in Hc as [Hc%bool_decide_eq_true Hc'%bool_decide_eq_true].
    apply Ok_inj in Hr as <-. exists (hw_file (vw_writer _ v1)). split; [|by rewrite Hc]. by exists rec.
  - intros (raw & Hdel & ->). pose proof (deliverable_content _ _ _ _ Hdel) as (Hcid & Hlen & _).
    destruct Hdel as (rec & Hpl & Hk & Hc & Hd).
    assert (stream_decoded_record_at chunk l ([] : bytes) = (Ok (metadata_of rec), raw)) as Hs'
      by (apply stream_decoded_record_at_exact; [done|by exists rec]).
    rewrite Hs in Hs'. injection Hs' as -> Hraw. rewrite Hraw in Hf.
    cbn [map_err mbind result_bind rm_kind rm_raw_length rm_content_id metadata_of].
    assert (or_raw_length rec = ol_raw_length l) as Hrl by (destruct Hpl as (h & _ & _ & _ & _ & -> & _); done).
    assert (ContentHasher_finalize (hw_hasher (vw_writer _ v1)) = id) as Hid.
    { rewrite Hh, Hf, Hlen. exact Hcid. }
    rewrite Hid, Hn, Hf, Hrl, Hc. by rewrite !bind_ensure_decide, !bool_decide_eq_true_2.
Qed.

(** The leaf of [id] holds its content. *)
Definition valid (c : Cache) (id : ContentId) : Prop :=
  ∃ b, ca_leaves c !! id = Some (LRegular b) ∧ ContentId_for_object Blob b = id.
Lemma verified_path_Ok c id p : verified_path c id = Ok p ↔ valid c id ∧ p = path_for id.
Proof.
  unfold verified_path, valid. destruct (ca_leaves c !! id) as [[b|res|]|] eqn:Hl; cbn [read_entry mbind result_bind];
    try (split; [done|]; by intros [(b & ? & _) _]).
  split.
  - intros Hv. apply bind_Ok_inv in Hv as ([] & Hid%ensure_Ok_inv%bool_decide_eq_true & Hv%Ok_inj). split; [by exists b|done].
  - intros [(b' & [= <-] & Hid) ->]. by rewrite bind_ensure_decide.
Qed.
Lemma open_verified_Ok c id b :
  open_verified_blob c id = Ok b ↔ ca_leaves c !! id = Some (LRegular b) ∧ ContentId_for_object Blob b = id.
Proof.
  unfold open_verified_blob. destruct (ca_leaves c !! id) as [[b'|res|]|] eqn:Hl; cbn [read_entry mbind result_bind];
    try (split; [done|]; by intros [? _]).
  split.
  - intros Hv. apply bind_Ok_inv in Hv as ([] & Hid%ensure_Ok_inv%bool_decide_eq_true & Hv%Ok_inj). by subst.
  - intros [[= ->] Hid]. by rewrite bind_ensure_decide.
Qed.
Lemma stream_blob_Err chunk l id e : stream_blob_into_cache chunk l id = Err e → ∀ ce, e ≠ HydrationCache ce.
Proof.
  unfold stream_blob_into_cache. destruct (stream_decoded_record_at _ _ _) as [[m|se] w]; cbn [map_err mbind result_bind ContentHashingWriter_finish].
  - unfold ensure. repeat case_match; cbn; intros [= <-]; done.
  - by intros [= <-].
Qed.

(** What hydration does where nothing is cached. *)
Lemma hydrate_missing_spec c location chunk id :
  len chunk ≤ u64_max → ca_leaves c !! id = None →
  (∃ l raw, location = Some l ∧ deliverable chunk l id raw ∧
     hydrate_missing c location chunk id = (Ok (path_for id), set_leaves c (<[id := LRegular raw]> (ca_leaves c)))) ∨
  (¬ (∃ l raw, location = Some l ∧ deliverable chunk l id raw) ∧
   ∃ e, hydrate_missing c location chunk id = (Err e, c)).
Proof.
  intros Hmax Hnone. unfold hydrate_missing. destruct location as [l|]; cbn [ok_or mbind result_bind].
  2: { right. split; [|by eexists]. by intros (? & ? & ? & _). }
  unfold validate_blob_location. destruct (decide (ol_kind l = Blob)) as [Hk|Hk].
  2: { right. rewrite bind_ensure_fail by done. split; [|by eexists].
       intros (l' & raw & [= <-] & (_ & _ & ?)%deliverable_content). done. }
  rewrite bind_ensure_decide by done. unfold publish_blob_streamed. rewrite Hnone. cbn [path_exists].
  destruct (stream_blob_into_cache chunk l id) as [r|e] eqn:Hs.
  - apply stream_blob_Ok in Hs as (raw & Hdel & ->); [|done]. left. exists l, raw.
    split_and!; [done|done|]. cbn [mbind result_bind fst snd]. rewrite bind_ensure_decide by done.
    unfold link_leaf. rewrite Hnone.
    assert (verified_path (set_leaves c (<[id := LRegular raw]> (ca_leaves c))) id = Ok (path_for id)) as ->; [|done].
    apply verified_path_Ok. split; [|done]. exists raw. cbn. rewrite lookup_insert_eq. split; [done|].
    by apply deliverable_content in Hdel as [? _].
  - right. split.
    + intros (l' & raw & [= <-] & Hdel). assert (stream_blob_into_cache chunk l id = Ok (id, raw)) as He; [|congruence].
      apply stream_blob_Ok; [done|]. by exists raw.
    + cbn [mbind result_bind]. pose proof (stream_blob_Err _ _ _ _ Hs) as He.
      destruct e; try (by eexists). by destruct (He e).
Qed.

(** Discarding a leaf that is neither valid nor a directory. *)
Lemma discard_invalid c id leaf :
  ca_leaves c !! id = Some leaf → leaf ≠ LDirectory → ¬ valid c id →
  discard_invalid_blob c id = (Ok true, set_leaves c (delete id (ca_leaves c))).
Proof.
  intros Hl Hdir Hv. unfold discard_invalid_blob. rewrite Hl. unfold entry_status.
  destruct leaf as [b|res|]; cbn [read_entry]; try done.
  rewrite decide_False; [done|]. intros Hid. apply Hv. by exists b.
Qed.
Lemma verified_path_damage c id leaf :
  ca_leaves c !! id = Some leaf → ¬ valid c id → ∃ e, verified_path c id = Err e ∧ derived_damage e = true.
Proof.
  intros Hl Hv. unfold verified_path. rewrite Hl. destruct leaf as [b|res|]; cbn [read_entry mbind result_bind];
    [|by eexists|by eexists].
  rewrite bind_ensure_fail; [by eexists|]. intros Hid. apply Hv. by exists b.
Qed.
Lemma hydrate_invalid c location chunk id :
  ¬ valid c id → ca_leaves c !! id ≠ Some LDirectory →
  hydrate_blob_from_chunk c location chunk id =
    hydrate_missing (set_leaves c (delete id (ca_leaves c))) location chunk id.
Proof.
  intros Hv Hdir. unfold hydrate_blob_from_chunk, hydrate_blob_from_chunk_inner.
  destruct (ca_leaves c !! id) as [leaf|] eqn:Hl.
  - destruct (verified_path_damage c id leaf Hl Hv) as (e & -> & He).
    rewrite (discard_invalid c id leaf Hl) by (done || by intros ->).
    by destruct e.
  - unfold verified_path. rewrite Hl. cbn [read_entry mbind result_bind].
    rewrite delete_id by done. by destruct c.
Qed.

(** A directory in the place of the leaf goes to the quarantine, where it cannot
    be removed, and hydration fails. *)
Lemma hydrate_directory c location chunk id :
  ca_leaves c !! id = Some LDirectory →
  hydrate_blob_from_chunk c location chunk id =
    (Err (HydrationCache (CacheIo OtherIo)), quarantine (set_leaves c (delete id (ca_leaves c))) LDirectory).
Proof.
  intros Hl. unfold hydrate_blob_from_chunk, hydrate_blob_from_chunk_inner, verified_path, discard_invalid_blob. by rewrite Hl.
Qed.

(** C35. Hydration of a blob where the calls of the file system succeed,
    whatever the cache holds at its leaf (nothing, a damaged file, a symbolic
    link, a directory): it succeeds exactly when the leaf was already valid, or
    the leaf is no directory and the catalog locates a record of at most 64 MiB
    that is a blob with this ID and decodes. Afterwards opening the blob gives
    content with its ID, or, on failure, no leaf is left; other leaves do not
    change. *)
Theorem hydration_exact c location chunk id r c' :
  len chunk ≤ u64_max → hydrate_blob_from_chunk c location chunk id = (r, c') →
  (∀ id', id' ≠ id → ca_leaves c' !! id' = ca_leaves c !! id') ∧
  (is_ok r = true ↔ valid c id ∨
     ca_leaves c !! id ≠ Some LDirectory ∧ ∃ l raw, location = Some l ∧ deliverable chunk l id raw) ∧
  match r with
  | Ok p => p = path_for id ∧ ∃ b, open_verified_blob c' id = Ok b ∧ ContentId_for_object Blob b = id
  | Err _ => ca_leaves c' !! id = None
  end.
Proof.
  intros Hmax Hh. destruct (verified_path c id) as [p|e] eqn:Hv.
  { apply verified_path_Ok in Hv as [Hvalid ->]. unfold hydrate_blob_from_chunk in Hh.
    rewrite (proj2 (verified_path_Ok c id (path_for id))) in Hh by done. injection Hh as <- <-.
    split_and!; [done|by split; auto|done|]. destruct Hvalid as (b & ? & ?). exists b. by rewrite open_verified_Ok. }
  assert (¬ valid c id) as Hnv.
  { intros Hvalid. rewrite (proj2 (verified_path_Ok c id (path_for id))) in Hv; done. }
  assert (Decision (ca_leaves c !! id = Some LDirectory)) as [Hdir|Hdir].
  { unfold Decision. destruct (ca_leaves c !! id) as [[]|]; (by left) || (by right). }
  { rewrite hydrate_directory in Hh by done. injection Hh as <- <-. split_and!.
    - intros id' Hne. cbn. by rewrite lookup_delete_ne.
    - split; [done|]. by intros [?|[? _]].
    - cbn. apply lookup_delete_eq. }
  rewrite hydrate_invalid in Hh by done. set (c0 := set_leaves c (delete id (ca_leaves c))) in Hh.
  assert (ca_leaves c0 !! id = None) as Hnone by apply lookup_delete_eq.
  assert (∀ id', id' ≠ id → ca_leaves c0 !! id' = ca_leaves c !! id') as Hframe by (intros; by apply lookup_delete_ne).
  destruct (hydrate_missing_spec c0 location chunk id Hmax Hnone) as [(l & raw & Hl & Hdel & Heq)|[Hno [e' Heq]]];
    rewrite Heq in Hh; injection Hh as <- <-.
  - split_and!; [|split; [|done]; intros _; right; split; [done|]; by exists l, raw|done|].
    + intros id' Hne. cbn. rewrite lookup_insert_ne by done. by apply Hframe.
    + exists raw. rewrite open_verified_Ok. cbn. rewrite lookup_insert_eq.
      by apply deliverable_content in Hdel as [? _].
  - split_and!; [done| |done]. split; [done|]. by intros [?|[_ ?]].
Qed.

(** ** Reconciliation *)

Definition leaf_ok (e : ContentId * Leaf) : bool :=
  match entry_status (Some e.2) e.1 with Valid => true | _ => false end.
Definition reconciled (c : Cache) (l : list (ContentId * Leaf)) : Cache * CacheReconciliation :=
  foldr (λ e, reconcile_leaf e.1 e.2) (c, mkReconciliation 0 0 0) l.
Lemma reconcile_leaf_ok e st : leaf_ok e = true →
  reconcile_leaf e.1 e.2 st = (st.1, mkReconciliation (cr_retained st.2 + 1) (cr_quarantined st.2) (cr_skipped st.2)).
Proof. unfold leaf_ok, reconcile_leaf. destruct st. by destruct (entry_status _ _). Qed.
Lemma reconcile_leaf_bad e st : leaf_ok e = false →
  reconcile_leaf e.1 e.2 st =
    (quarantine (set_leaves st.1 (delete e.1 (ca_leaves st.1))) e.2,
     mkReconciliation (cr_retained st.2) (cr_quarantined st.2 + 1) (cr_skipped st.2)).
Proof.
  unfold leaf_ok, reconcile_leaf, entry_status. destruct st, e as [id [b|res|]]; cbn [read_entry fst snd]; try done.
  by case_decide.
Qed.
Lemma reconciled_spec c l :
  (∀ id x, ca_leaves (reconciled c l).1 !! id = Some x ↔
    ca_leaves c !! id = Some x ∧ ∀ leaf, (id, leaf) ∈ l → leaf_ok (id, leaf) = true) ∧
  ca_strays (reconciled c l).1 = ca_strays c ∧
  cr_retained (reconciled c l).2 = Z.of_nat (length (filter (λ e, leaf_ok e = true) l)) ∧
  cr_retained (reconciled c l).2 + cr_quarantined (reconciled c l).2 = Z.of_nat (length l) ∧
  cr_skipped (reconciled c l).2 = 0.
Proof.
  induction l as [|e l (IH & Hst & Hr & Hq & Hs)].
  { split_and!; try done. intros id x. split; [intros Hx; split; [done|]; intros leaf Hleaf; by apply elem_of_nil in Hleaf|by intros [? _]]. }
  cbn [reconciled foldr]. fold (reconciled c l). destruct (leaf_ok e) eqn:Hok.
  - rewrite reconcile_leaf_ok, filter_cons_True by done. cbn [fst snd cr_retained cr_quarantined cr_skipped length].
    split_and!; try done; try lia. intros id x. rewrite IH. setoid_rewrite elem_of_cons. split; [|naive_solver].
    intros [? Ha]. split; [done|]. intros leaf [->|]; auto.
  - rewrite reconcile_leaf_bad, filter_cons_False by (done || by rewrite Hok).
    cbn [fst snd cr_retained cr_quarantined cr_skipped length quarantine set_leaves ca_leaves ca_strays].
    split_and!; try done; try lia. intros id x. rewrite lookup_delete_Some, IH. setoid_rewrite elem_of_cons. split.
    + intros (Hne & ? & Ha). split; [done|]. intros leaf [<-|]; [by destruct Hne|auto].
    + intros [? Ha]. split_and!; try done; [|auto]. intros Heq. destruct e as [i leaf]. cbn in Heq. subst.
      rewrite (Ha leaf) in Hok by auto. done.
Qed.

(** Reconciliation keeps exactly the valid leaves; the others, and the strays,
    move to the quarantine, and the report counts both. *)
Theorem reconcile_exact c :
  let '(r, c') := reconcile c in
  ca_leaves c' = filter (λ e, leaf_ok e = true) (ca_leaves c) ∧ ca_strays c' = [] ∧
  cr_retained r = Z.of_nat (base.size (ca_leaves c')) ∧ cr_skipped r = 0 ∧
  cr_retained r + cr_quarantined r = Z.of_nat (base.size (ca_leaves c)) + Z.of_nat (length (ca_strays c)).
Proof.
  unfold reconcile. fold (reconciled c (map_to_list (ca_leaves c))).
  destruct (reconciled_spec c (map_to_list (ca_leaves c))) as (Hl & Hst & Hr & Hq & Hs).
  rewrite length_map_to_list in Hq. destruct (reconciled c _) as [c' r]. cbn [fst snd] in *.
  assert (ca_leaves c' = filter (λ e, leaf_ok e = true) (ca_leaves c)) as Heq.
  { apply map_eq. intros id. apply option_eq. intros x. rewrite Hl, map_lookup_filter_Some.
    setoid_rewrite elem_of_map_to_list. naive_solver. }
  cbn. split_and!; try done; [|by rewrite Hst; lia].
  rewrite Heq, Hr. f_equal. rewrite <-length_map_to_list, map_filter_alt, map_to_list_to_map; [done|].
  eapply sublist_NoDup; [apply (NoDup_fst_map_to_list (ca_leaves c))|]. apply fmap_sublist, sublist_filter.
Qed.
End Hydration.

(** ** Names *)

Definition hex_high (x : byte) : byte := default x00 (DIGITS !! Z.to_nat (Z.shiftr (byte_to_Z x) 4)).
Definition hex_low (x : byte) : byte := default x00 (DIGITS !! Z.to_nat (Z.land (byte_to_Z x) 15)).
Lemma hex_digits x :
  hex_nibble (hex_high x) = Some (Z.shiftr (byte_to_Z x) 4) ∧ hex_nibble (hex_low x) = Some (Z.land (byte_to_Z x) 15) ∧
  byte_of_Z (Z.lor (Z.shiftl (Z.shiftr (byte_to_Z x) 4) 4) (Z.land (byte_to_Z x) 15)) = x.
Proof. by destruct x. Qed.
Lemma hex_cons x b : hex (x :: b) = hex_high x :: hex_low x :: hex b.
Proof. done. Qed.
Lemma hex_pairs_hex b : hex_pairs (hex b) = Some b.
Proof.
  induction b as [|x b IH]; [done|]. destruct (hex_digits x) as (Hh & Hl & Hx).
  rewrite hex_cons. cbn [hex_pairs]. rewrite Hh. cbn [mbind option_bind]. rewrite Hl. cbn [mbind option_bind].
  rewrite IH. cbn [mbind option_bind]. by rewrite Hx.
Qed.
Lemma length_hex_name b : length (hex b) = (2 * length b)%nat.
Proof. induction b as [|x b IH]; [done|]. rewrite hex_cons. cbn [length]. lia. Qed.
Lemma hex_digits_only b : forallb is_ascii_hexdigit (hex b) = true.
Proof.
  induction b as [|x b IH]; [done|]. destruct (hex_digits x) as (Hh & Hl & _). rewrite hex_cons. cbn [forallb].
  unfold is_ascii_hexdigit in *. by rewrite Hh, Hl, IH.
Qed.
(** The leaves that are accounted for are exactly those at the path of a
    content ID, each of one ID. *)
Theorem canonical_leaf_exact first second leaf id :
  canonical_leaf first second leaf = Some id ↔ ContentId_wf id ∧ path_for id = (first, second, leaf).
Proof.
  unfold canonical_leaf, content_id_from_hex_name, path_for. split.
  - destruct (is_hex_name leaf 64) eqn:Hn; [|done]. unfold is_hex_name in Hn.
    apply andb_true_iff in Hn as [Hlen%bool_decide_eq_true _].
    destruct (hex_pairs leaf) as [b|] eqn:Hp; [|done].
    cbn [mbind option_bind fmap option_fmap option_map cid_bytes].
    case_decide as Hd; [|done]. intros [= <-]. destruct Hd as (-> & -> & Hl). split; [|cbn [cid_bytes]; by rewrite Hl].
    unfold ContentId_wf. cbn [cid_bytes]. unfold len in Hlen. rewrite Hl, length_hex_name in Hlen. lia.
  - intros [Hwf [= <- <- <-]]. unfold is_hex_name, len. rewrite length_hex_name, hex_digits_only.
    rewrite Hwf, bool_decide_eq_true_2 by done. cbn [andb]. rewrite hex_pairs_hex.
    cbn [mbind option_bind fmap option_fmap option_map]. destruct id as [b]. by rewrite decide_True.
Qed.

(** ** Witnesses *)

Definition sample_cid (b : byte) : ContentId := mkContentId (replicate 32 b).
Definition sample_cache : Cache :=
  mkCache (<[sample_cid x01 := LRegular [x61; x61; x61; x61]]> (<[sample_cid x02 := LRegular [x62; x62; x62; x62]]>
    {[ sample_cid x03 := LSymlink true ]})) [LDirectory] [].
(** A domain of [total] bytes that holds nothing but the cache. *)
Definition shared_meter (total : Z) : CapacityMeter := λ c, Ok (mkSnapshot (total - held c) (total - held c)).

Lemma sample_countable : countable sample_cache.
Proof. split; vm_compute; congruence. Qed.
Lemma shared_meter_reclaims total c m : shared_meter total c = Ok m → reclaims (shared_meter total) c m.
Proof. intros [= <-] c' _. eexists. split; [done|]. cbn. lia. Qed.

Lemma evict_to_exact_witness :
  ∃ evicted kept before after c', evicts sample_cache 5 evicted kept c' ∧ usage sample_cache = Ok before ∧ usage c' = Ok after ∧
    cu_logical_bytes before = held sample_cache ∧ cu_logical_bytes after = held c' ∧
    evict_to sample_cache 5 =
      (Ok (mkEviction 5 before after (Z.of_nat (length evicted)) (held sample_cache - held c') 0), c').
Proof. apply (evict_to_exact sample_cache 5 sample_countable). lia. Defined.
Definition sample_operation (n : Z) : result unit unit * Z := (Ok (), n + 1).
Lemma reserves_admission_safe_witness :
  ∃ r c' s', with_reserve_admission (shared_meter 20) (mkPolicy 10 3) sample_cache 4 sample_operation 0 = (r, c', s') ∧
    thinner sample_cache c'.
Proof.
  destruct (with_reserve_admission (shared_meter 20) (mkPolicy 10 3) sample_cache 4 sample_operation 0) as [[r c'] s'] eqn:E.
  exists r, c', s'. split; [done|]. exact (proj1 (proj1 (reserves_admission_safe _ _ _ _ _ _ _ _ _ E))).
Defined.
Lemma admission_makes_room_witness :
  ∃ a c', admit_locked (shared_meter 20) (mkPolicy 10 3) sample_cache 4 = (Ok a, c') ∧
    keeps_reserves (mkPolicy 10 3) (ad_admitted a) 4.
Proof.
  apply (admission_makes_room (shared_meter 20) (mkPolicy 10 3) sample_cache (mkSnapshot 12 12) 4 sample_countable);
    [| apply shared_meter_reclaims | ..]; vm_compute; congruence.
Defined.

(** A damaged leaf is replaced from the sample chunk. *)
Definition sample_blob_id : ContentId := or_content_id sample_zstd_record.
Definition damaged_cache : Cache := mkCache {[ sample_blob_id := LRegular [x00] ]} [] [].
Lemma hydration_exact_witness :
  ∃ r c', @hydrate_blob_from_chunk toy_digests toy_zstd damaged_cache (Some sample_location) sample_file sample_blob_id = (r, c') ∧
    is_ok r = true ∧ ∀ id', id' ≠ sample_blob_id → ca_leaves c' !! id' = ca_leaves damaged_cache !! id'.
Proof.
  destruct (@hydrate_blob_from_chunk toy_digests toy_zstd damaged_cache (Some sample_location) sample_file sample_blob_id)
    as [r c'] eqn:E.
  exists r, c'. split; [done|]. split.
  - apply (f_equal fst) in E. cbn [fst] in E. rewrite <-E. vm_compute. reflexivity.
  - exact (proj1 (@hydration_exact toy_digests toy_zstd damaged_cache (Some sample_location) sample_file sample_blob_id
      r c' sample_file_fits E)).
Defined.

(** When the projected allocation exceeds what is available, the reported
    shortfall omits the difference, so admission evicts too little: here it
    refuses an allocation of 15 bytes after evicting one leaf, although
    evicting the other one too admits it. *)
Theorem shortfall_omits_excess :
  is_ok (admit_locked (shared_meter 20) (mkPolicy 3 3) sample_cache 15).1 = false ∧
  is_ok (admit_locked (shared_meter 20) (mkPolicy 3 3) (evict_to sample_cache 0).2 15).1 = true.
Proof. split; vm_compute; reflexivity. Qed.
End CacheSpec.
