(* ===== verification/Checkout.v ===== *)
(** * Checkout planning and materialization: [reflink-forest-checkout/src/lib.rs]

    Paths, the plan builder, materialization of a plan in an empty staging
    directory, and the publication of a staged workspace. File-system calls
    act on explicit states, and any of them may fail. *)

From Stdlib Require Import ZArith Lia Strings.Byte Strings.String.
From stdpp Require Import base tactics list gmap strings.
From S2P Require Import Prelude Order Core Format Codec CatalogCodec Catalog Chunk Disk Git Cache.
Import Core Format Codec CatalogCodec Catalog Chunk Git Cache.

#[local] Open Scope Z_scope.

Module Checkout.

(** ** Names and paths *)

Record CheckoutLimits := mkLimits {
  max_entries : Z; max_components : Z; max_component_bytes : Z; max_path_bytes : Z }.
Definition DEFAULT_CHECKOUT_LIMITS : CheckoutLimits := mkLimits 1000000 128 255 4096.

Abbreviation TreeName := bytes.
Abbreviation RelativePath := (list bytes).
(** The derived order: by components. *)
Definition relative_compare : RelativePath → RelativePath → comparison := list_compare bytes_compare.

(** [LengthPanic] stands for the [expect] on the sum of component lengths. *)
Inductive CheckoutError :=
| EmptyPath | AbsolutePath | EmptyComponent | NulByte | SlashInComponent | DotComponent | DotDotComponent
| ComponentTooLong (actual limit : Z)
| PathTooLong (actual limit : Z)
| TooManyComponents (actual limit : Z)
| TooManyEntries (actual limit : Z)
| InvalidGitMode (mode : Z)
| DuplicatePath (path : RelativePath)
| PathConflict (ancestor descendant : RelativePath)
| LengthPanic.
Abbreviation KResult := (result CheckoutError).

Inductive TreeEntryMode := Regular | Executable | Symlink | Gitlink.
#[export] Instance TreeEntryMode_eq_dec : EqDecision TreeEntryMode.
Proof. solve_decision. Defined.
Definition REGULAR_MODE : Z := 33188. (* 0o100644 *)
Definition EXECUTABLE_MODE : Z := 33261. (* 0o100755 *)
Definition SYMLINK_MODE : Z := 40960. (* 0o120000 *)
Definition GITLINK_MODE : Z := 57344. (* 0o160000 *)
Definition from_git_mode (mode : Z) : KResult TreeEntryMode :=
  if decide (mode = REGULAR_MODE) then Ok Regular
  else if decide (mode = EXECUTABLE_MODE) then Ok Executable
  else if decide (mode = SYMLINK_MODE) then Ok Symlink
  else if decide (mode = GITLINK_MODE) then Ok Gitlink
  else Err (InvalidGitMode mode).
Definition git_mode (m : TreeEntryMode) : Z :=
  match m with
  | Regular => REGULAR_MODE
  | Executable => EXECUTABLE_MODE
  | Symlink => SYMLINK_MODE
  | Gitlink => GITLINK_MODE
  end.

Definition TreeName_new (name : bytes) (limits : CheckoutLimits) : KResult TreeName :=
  _ ← ensure (bool_decide (name ≠ [])) EmptyComponent;
  _ ← ensure (bool_decide (x00 ∉ name)) NulByte;
  _ ← ensure (bool_decide (SLASH ∉ name)) SlashInComponent;
  _ ← ensure (bool_decide (name ≠ b_ ".")) DotComponent;
  _ ← ensure (bool_decide (name ≠ b_ "..")) DotDotComponent;
  _ ← ensure (bool_decide (len name ≤ max_component_bytes limits))
             (ComponentTooLong (len name) (max_component_bytes limits));
  Ok name.

(** [try_fold] with the index of the component. *)
Fixpoint encoded_path_len_from (first : bool) (length : Z) (components : list TreeName) : option Z :=
  match components with
  | [] => Some length
  | component :: components =>
      l ← checked_add length (len component);
      l ← checked_add l (if first then 0 else 1);
      encoded_path_len_from false l components
  end.
Definition encoded_path_len (components : list TreeName) : option Z := encoded_path_len_from true 0 components.
Definition validate_path_shape (components : list TreeName) (limits : CheckoutLimits) : KResult unit :=
  _ ← ensure (bool_decide (components ≠ [])) EmptyPath;
  _ ← match List.find (λ c : TreeName, bool_decide (max_component_bytes limits < len c)) components with
      | Some c => Err (ComponentTooLong (len c) (max_component_bytes limits))
      | None => Ok ()
      end;
  _ ← ensure (bool_decide (Z.of_nat (length components) ≤ max_components limits))
             (TooManyComponents (Z.of_nat (length components)) (max_components limits));
  l ← ok_or (encoded_path_len components) LengthPanic;
  ensure (bool_decide (l ≤ max_path_bytes limits)) (PathTooLong l (max_path_bytes limits)).

Fixpoint tree_names (raw : list bytes) (limits : CheckoutLimits) : KResult (list TreeName) :=
  match raw with
  | [] => Ok []
  | c :: raw => name ← TreeName_new c limits; names ← tree_names raw limits; Ok (name :: names)
  end.
Definition parse (path : bytes) (limits : CheckoutLimits) : KResult RelativePath :=
  _ ← ensure (bool_decide (path ≠ [])) EmptyPath;
  _ ← ensure (bool_decide (head path ≠ Some SLASH)) AbsolutePath;
  _ ← ensure (bool_decide (len path ≤ max_path_bytes limits)) (PathTooLong (len path) (max_path_bytes limits));
  let raw := split SLASH path in
  _ ← ensure (bool_decide (Z.of_nat (length raw) ≤ max_components limits))
             (TooManyComponents (Z.of_nat (length raw)) (max_components limits));
  tree_names raw limits.
Definition from_components (components : list TreeName) (limits : CheckoutLimits) : KResult RelativePath :=
  _ ← validate_path_shape components limits; Ok components.
Definition join (p : RelativePath) (child : TreeName) (limits : CheckoutLimits) : KResult RelativePath :=
  from_components (p ++ [child]) limits.
(** The separator goes before every component but the first. *)
Fixpoint as_bytes_from (first : bool) (p : RelativePath) : bytes :=
  match p with
  | [] => []
  | c :: p => (if first then [] else [SLASH]) ++ c ++ as_bytes_from false p
  end.
Definition as_bytes (p : RelativePath) : bytes := as_bytes_from true p.
Definition parent_paths (p : RelativePath) : list RelativePath :=
  map (λ n, take n p) (seq 1 (length p - 1)).
Definition is_ancestor_of (p other : RelativePath) : bool :=
  bool_decide ((length p < length other)%nat) && bool_decide (take (length p) other = p).

(** ** The plan *)

Record TreeEntry := mkTreeEntry { te_name : TreeName; te_mode : TreeEntryMode; te_oid : GitOid }.
Definition TreeEntry_from_raw (name : bytes) (mode : Z) (oid : GitOid) (limits : CheckoutLimits) : KResult TreeEntry :=
  name ← TreeName_new name limits;
  mode ← from_git_mode mode;
  Ok (mkTreeEntry name mode oid).
Record PlannedObject := mkPlannedObject { po_mode : TreeEntryMode; po_oid : GitOid }.
Record PlannedEntry := mkPlannedEntry { pe_path : RelativePath; pe_object : PlannedObject }.
Record CheckoutPlan := mkPlan { plan_directories : list RelativePath; plan_entries : list PlannedEntry }.
Record CheckoutPlanBuilder := mkBuilder { cb_limits : CheckoutLimits; cb_entries : gmap RelativePath PlannedObject }.

Definition Builder_new (limits : CheckoutLimits) : CheckoutPlanBuilder := mkBuilder limits ∅.
(** The entries in key order. *)
Definition sorted_entries (b : CheckoutPlanBuilder) : list (RelativePath * PlannedObject) :=
  sort_by (cmp_on fst relative_compare) (map_to_list (cb_entries b)).
Definition add (b : CheckoutPlanBuilder) (path : RelativePath) (object : PlannedObject) : KResult CheckoutPlanBuilder :=
  _ ← validate_path_shape path (cb_limits b);
  _ ← ensure (bool_decide (cb_entries b !! path = None)) (DuplicatePath path);
  let next_count := Z.of_nat (base.size (cb_entries b)) + 1 in
  _ ← ensure (bool_decide (next_count ≤ max_entries (cb_limits b))) (TooManyEntries next_count (max_entries (cb_limits b)));
  _ ← match List.find (λ a, bool_decide (is_Some (cb_entries b !! a))) (parent_paths path) with
      | Some ancestor => Err (PathConflict ancestor path)
      | None => Ok ()
      end;
  _ ← match List.find (λ e, is_ancestor_of path e) (map fst (sorted_entries b)) with
      | Some descendant => Err (PathConflict path descendant)
      | None => Ok ()
      end;
  Ok (mkBuilder (cb_limits b) (<[path := object]> (cb_entries b))).
Definition add_raw (b : CheckoutPlanBuilder) (path : bytes) (mode : Z) (oid : GitOid) : KResult CheckoutPlanBuilder :=
  path ← parse path (cb_limits b);
  mode ← from_git_mode mode;
  add b path (mkPlannedObject mode oid).
Definition add_tree_entry (b : CheckoutPlanBuilder) (parent : option RelativePath) (e : TreeEntry) : KResult CheckoutPlanBuilder :=
  path ← match parent with
         | Some parent => join parent (te_name e) (cb_limits b)
         | None => from_components [te_name e] (cb_limits b)
         end;
  add b path (mkPlannedObject (te_mode e) (te_oid e)).
Definition finish (b : CheckoutPlanBuilder) : CheckoutPlan :=
  let entries := sorted_entries b in
  let directories : gset RelativePath := list_to_set (concat (map (λ e, parent_paths e.1) entries)) in
  mkPlan (sort_by relative_compare (elements directories))
         (map (λ e, mkPlannedEntry e.1 e.2) entries).

(** ** Materialization *)

Inductive StageNode := SDirectory | SFile (contents : bytes) (mode : Z) | SLink (target : bytes).
Abbreviation Nodes := (gmap RelativePath StageNode).
(** The staging directory by relative path, and the outcomes of the calls to
    come: [Some e] is a call that fails with [e]. *)
Record Stage := mkStage { sg_nodes : Nodes; sg_faults : list (option IoErrorKind) }.
Abbreviation SIO := (ST Stage IoErrorKind).
Definition stage_call {A} (act : Nodes → result IoErrorKind (A * Nodes)) : SIO A := λ s,
  match sg_faults s with
  | Some e :: faults => (Err e, mkStage (sg_nodes s) faults)
  | faults =>
      match act (sg_nodes s) with
      | Ok (a, nodes) => (Ok a, mkStage nodes (tail faults))
      | Err e => (Err e, mkStage (sg_nodes s) (tail faults))
      end
  end.

Definition c_name (name : bytes) : result IoErrorKind bytes :=
  _ ← ensure (bool_decide (x00 ∉ name)) InvalidInput; Ok name.
(** A descriptor of a directory is its path. *)
Definition duplicate_fd (directory : RelativePath) : SIO RelativePath := stage_call (λ nodes, Ok (directory, nodes)).
Definition open_child_directory (parent : RelativePath) (name : bytes) : SIO RelativePath :=
  name ⇐ st_lift (c_name name);
  stage_call (λ nodes,
    match nodes !! (parent ++ [name]) with
    | Some SDirectory => Ok (parent ++ [name], nodes)
    | Some _ => Err OtherIo
    | None => Err NotFound
    end).
(** Every component but the last is opened; a path is never empty. *)
Fixpoint open_parents (directory : RelativePath) (components : list TreeName) : SIO (RelativePath * TreeName) :=
  match components with
  | [] => st_lift (Err OtherIo)
  | [leaf] => st_ret (directory, leaf)
  | c :: components =>
      directory ⇐ open_child_directory directory c;
      open_parents directory components
  end.
Definition parent_directory (relative : RelativePath) : SIO (RelativePath * TreeName) :=
  directory ⇐ duplicate_fd [];
  open_parents directory relative.
(** [mkdirat], [openat] with [O_EXCL] and [symlinkat]: nothing may be there. *)
Definition create_node (parent : RelativePath) (name : TreeName) (node : StageNode) : SIO unit :=
  stage_call (λ nodes,
    match nodes !! (parent ++ [name]) with
    | Some _ => Err AlreadyExists
    | None => Ok ((), <[parent ++ [name] := node]> nodes)
    end).
Definition create_directory_at (relative : RelativePath) : SIO unit :=
  '(parent, name) ⇐ parent_directory relative;
  name ⇐ st_lift (c_name name);
  create_node parent name SDirectory.
(** Returns the path of the new file. *)
Definition create_file_at (relative : RelativePath) (mode : Z) : SIO RelativePath :=
  '(parent, name) ⇐ parent_directory relative;
  name ⇐ st_lift (c_name name);
  _ ⇐ create_node parent name (SFile [] mode);
  st_ret (parent ++ [name]).
Definition open_file_at (relative : RelativePath) : SIO RelativePath :=
  '(parent, name) ⇐ parent_directory relative;
  name ⇐ st_lift (c_name name);
  stage_call (λ nodes,
    match nodes !! (parent ++ [name]) with
    | None => Err NotFound
    | Some (SLink _) => Err OtherIo
    | Some _ => Ok (parent ++ [name], nodes)
    end).
(** [fchmod]. *)
Definition set_file_mode_at (relative : RelativePath) (mode : Z) : SIO unit :=
  file ⇐ open_file_at relative;
  stage_call (λ nodes,
    match nodes !! file with
    | Some (SFile contents _) => Ok ((), <[file := SFile contents mode]> nodes)
    | _ => Ok ((), nodes)
    end).
Definition create_symlink_at (relative : RelativePath) (target : bytes) : SIO unit :=
  '(parent, name) ⇐ parent_directory relative;
  name ⇐ st_lift (c_name name);
  target ⇐ st_lift (c_name target);
  create_node parent name (SLink target).

(** A source may hydrate the cache. *)
Class RawCheckoutSource (Src E : Type) := {
  blob_content_id : Src → GitOid → ST Cache E ContentId;
  blob_bytes : Src → GitOid → result E bytes }.
Inductive GitlinkPolicy := Reject | EmptyDirectory.
Inductive MaterializeError (E : Type) :=
| MSource (e : E)
| MCache (e : CacheError)
| MIo (e : IoErrorKind)
| StageNotEmpty
| InvalidStage
| MGitlink (oid : GitOid)
| InvalidSymlinkTarget.
Arguments MSource {E}.
Arguments MCache {E}.
Arguments MIo {E}.
Arguments StageNotEmpty {E}.
Arguments InvalidStage {E}.
Arguments MGitlink {E}.
Arguments InvalidSymlinkTarget {E}.

Section Materialize.
Context `{Digests} `{RawCheckoutSource Src E}.

(** The staging directory and the cache. *)
Abbreviation MIO := (ST (Stage * Cache) (MaterializeError E)).
Definition on_stage {A} {E'} (f : E' → MaterializeError E) (act : ST Stage E' A) : MIO A := λ x,
  let '(r, stage) := act x.1 in (map_err f r, (stage, x.2)).
Definition on_cache {A} (act : ST Cache E A) : MIO A := λ x,
  let '(r, cache) := act x.2 in (map_err MSource r, (x.1, cache)).

(** The clone shares the contents of the verified descriptor. *)
Definition clone_blob_at (cache : Cache) (id : ContentId) (relative : RelativePath) : ST Stage CacheError unit :=
  source ⇐ st_lift (open_verified_blob cache id);
  destination ⇐ st_map_err CacheIo (create_file_at relative 420 (* 0o644 *));
  st_map_err CacheIo (stage_call (λ nodes,
    match nodes !! destination with
    | Some (SFile _ mode) => Ok ((), <[destination := SFile source mode]> nodes)
    | _ => Err OtherIo
    end)).
Definition file_mode (m : TreeEntryMode) : Z := if decide (m = Executable) then 493 (* 0o755 *) else 420 (* 0o644 *).
Definition materialize_entry (source : Src) (policy : GitlinkPolicy) (e : PlannedEntry) : MIO unit :=
  match po_mode (pe_object e) with
  | Regular | Executable =>
      id ⇐ on_cache (blob_content_id source (po_oid (pe_object e)));
      cache ⇐ st_get snd;
      _ ⇐ on_stage MCache (clone_blob_at cache id (pe_path e));
      on_stage MIo (set_file_mode_at (pe_path e) (file_mode (po_mode (pe_object e))))
  | Symlink =>
      target ⇐ st_lift (map_err MSource (blob_bytes source (po_oid (pe_object e))));
      _ ⇐ st_lift (ensure (bool_decide (x00 ∉ target)) InvalidSymlinkTarget);
      on_stage MIo (create_symlink_at (pe_path e) target)
  | Gitlink =>
      match policy with
      | Reject => st_lift (Err (MGitlink (po_oid (pe_object e))))
      | EmptyDirectory => on_stage MIo (create_directory_at (pe_path e))
      end
  end.
Fixpoint create_directories (directories : list RelativePath) : MIO unit :=
  match directories with
  | [] => st_ret ()
  | d :: directories => _ ⇐ on_stage MIo (create_directory_at d); create_directories directories
  end.
Fixpoint materialize_entries (source : Src) (policy : GitlinkPolicy) (entries : list PlannedEntry) : MIO unit :=
  match entries with
  | [] => st_ret ()
  | e :: entries => _ ⇐ materialize_entry source policy e; materialize_entries source policy entries
  end.
(** [staging_is_directory] is what [symlink_metadata] says of the staging path. *)
Definition materialize_raw (plan : CheckoutPlan) (source : Src) (staging_is_directory : result IoErrorKind bool)
    (policy : GitlinkPolicy) : MIO unit :=
  is_directory ⇐ st_lift (map_err MIo staging_is_directory);
  _ ⇐ st_lift (ensure is_directory InvalidStage);
  empty ⇐ on_stage MIo (stage_call (λ nodes, Ok (bool_decide (nodes = ∅), nodes)));
  _ ⇐ st_lift (ensure empty StageNotEmpty);
  _ ⇐ on_stage MIo (duplicate_fd []);
  _ ⇐ create_directories (plan_directories plan);
  materialize_entries source policy (plan_entries plan).
End Materialize.

(** ** Publication *)

Definition is_workspace_byte (b : byte) : bool :=
  let z := byte_to_Z b in
  bool_decide (48 ≤ z ≤ 57) || bool_decide (65 ≤ z ≤ 90) || bool_decide (97 ≤ z ≤ 122) ||
  bool_decide (z = 45) || bool_decide (z = 95).
Inductive ReplacePolicy := RejectExisting | ReplaceAtomically.
#[export] Instance ReplacePolicy_eq_dec : EqDecision ReplacePolicy.
Proof. solve_decision. Defined.
Inductive WorkspacePublishError :=
| PublishIo (e : IoErrorKind) | InvalidName | InvalidStaging | DestinationExists | UnsupportedAtomicReplace.
Definition WorkspaceName_new (name : bytes) : result WorkspacePublishError bytes :=
  _ ← ensure (bool_decide (name ≠ []) && bool_decide (len name ≤ 128) && forallb is_workspace_byte name) InvalidName;
  Ok name.

(** The staged tree, the published ones by name, the retired ones by name in
    the trash, and the outcomes of the calls to come. *)
Record Shelf (T : Type) := mkShelf {
  sh_staging : option T; sh_workspaces : gmap bytes T; sh_trash : gmap bytes T;
  sh_faults : list (option WorkspacePublishError) }.
Arguments mkShelf {T}.
Arguments sh_staging {T}.
Arguments sh_workspaces {T}.
Arguments sh_trash {T}.
Arguments sh_faults {T}.

Section Publish.
Context {T : Type}.
Abbreviation PIO := (ST (Shelf T) WorkspacePublishError).
(** One call: it fails, or changes the directories at once. *)
Definition shelf_call (act : Shelf T → Shelf T) : PIO unit := λ s,
  match sh_faults s with
  | Some e :: faults => (Err e, mkShelf (sh_staging s) (sh_workspaces s) (sh_trash s) faults)
  | faults => let s := act s in (Ok (), mkShelf (sh_staging s) (sh_workspaces s) (sh_trash s) (tail faults))
  end.
Definition rename_to_workspace (staged : T) (name : bytes) : PIO unit :=
  shelf_call (λ s, mkShelf None (<[name := staged]> (sh_workspaces s)) (sh_trash s) (sh_faults s)).
Definition exchange (staged published : T) (name : bytes) : PIO unit :=
  shelf_call (λ s, mkShelf (Some published) (<[name := staged]> (sh_workspaces s)) (sh_trash s) (sh_faults s)).
Definition rename_to_trash (published : T) (name : bytes) : PIO unit :=
  shelf_call (λ s, mkShelf None (sh_workspaces s) (<[name := published]> (sh_trash s)) (sh_faults s)).
Definition retired_name (name : bytes) : bytes := name ++ b_ "-retired".
(** Opening and synchronizing a directory, or creating one that may exist. *)
Definition shelf_sync : PIO unit := shelf_call (λ s, s).
(** [workspaces_is_dir] is what [is_dir] says of the root of the workspaces. *)
Definition publish_workspace (workspaces_is_dir : bool) (name : bytes) (replace : ReplacePolicy) : PIO unit := λ s,
  match sh_staging s with
  | None => (Err InvalidStaging, s)
  | Some staged =>
      if negb workspaces_is_dir then (Err InvalidStaging, s)
      else
        match sh_workspaces s !! name with
        | None => (_ ⇐ rename_to_workspace staged name; shelf_sync) s
        | Some published =>
            if decide (replace = RejectExisting) then (Err DestinationExists, s)
            else
              (_ ⇐ shelf_sync;
               _ ⇐ exchange staged published name;
               retired ⇐ st_get (λ s, sh_trash s !! retired_name name);
               _ ⇐ st_lift (ensure (negb (bool_decide (is_Some (retired : option T)))) DestinationExists);
               _ ⇐ rename_to_trash published (retired_name name);
               _ ⇐ shelf_sync;
               shelf_sync) s
        end
  end.
End Publish.
End Checkout.
