(* ===== verification/CheckoutSpec.v ===== *)
(** * What checkout planning guarantees *)

From Stdlib Require Import ZArith Lia Strings.Byte Strings.String Sorting.Sorted.
From stdpp Require Import base tactics list gmap strings.
From S2P Require Import Prelude Order Core Format Codec CatalogCodec Catalog Chunk Disk Git GitSpec Cache Checkout.
Import Core Format Codec CatalogCodec Catalog Chunk Git GitSpec Cache Checkout.

#[local] Open Scope Z_scope.

Module CheckoutSpec.

#[local] Set Warnings "-clear-no-such-hyp".

(** ** Names and paths *)

(** What the type of a tree name promises, and the limits. *)
Definition name_wf (c : TreeName) : Prop := c ≠ [] ∧ (x00 ∉ c) ∧ (SLASH ∉ c) ∧ c ≠ b_ "." ∧ c ≠ b_ "..".
Definition path_wf (p : RelativePath) : Prop := p ≠ [] ∧ Forall name_wf p.
Definition within (limits : CheckoutLimits) (p : RelativePath) : Prop :=
  Forall (λ c, len c ≤ max_component_bytes limits) p ∧ Z.of_nat (length p) ≤ max_components limits ∧
  len (as_bytes p) ≤ max_path_bytes limits.

Lemma TreeName_new_Ok c limits n :
  TreeName_new c limits = Ok n ↔ n = c ∧ name_wf c ∧ len c ≤ max_component_bytes limits.
Proof.
  unfold TreeName_new, name_wf. split.
  - intros Hn. repeat (apply bind_Ok_inv in Hn as ([] & ?%ensure_Ok_inv%bool_decide_eq_true & Hn)).
    apply Ok_inj in Hn as <-. done.
  - intros (-> & (? & ? & ? & ? & ?) & ?). by rewrite !bind_ensure_decide.
Qed.
Lemma tree_names_Ok raw limits p :
  tree_names raw limits = Ok p ↔ p = raw ∧ Forall name_wf p ∧ Forall (λ c, len c ≤ max_component_bytes limits) p.
Proof.
  revert p. induction raw as [|c raw IH]; intros p; cbn [tree_names].
  - split; [intros <-%Ok_inj; by split_and!|by intros [-> _]].
  - split.
    + intros Hp. apply bind_Ok_inv in Hp as (n & (-> & Hn & Hl)%TreeName_new_Ok & Hp).
      apply bind_Ok_inv in Hp as (ns & (-> & Hns & Hls)%IH & <-%Ok_inj). split_and!; by try constructor.
    + intros (-> & [Hn Hns]%Forall_cons & [Hl Hls]%Forall_cons).
      rewrite (proj2 (TreeName_new_Ok c limits c)), bind_Ok by done.
      by rewrite (proj2 (IH raw)), bind_Ok.
Qed.

Lemma as_bytes_false p : p ≠ [] → as_bytes_from false p = SLASH :: as_bytes p.
Proof. by destruct p. Qed.
Lemma split_as_bytes p : p ≠ [] → Forall (λ c, SLASH ∉ c) p → split SLASH (as_bytes p) = p.
Proof.
  intros Hne Hall. induction Hall as [|c p Hc Hp IH]; [done|]. unfold as_bytes. cbn [as_bytes_from app].
  destruct p as [|c' p]; [cbn [as_bytes_from]; rewrite app_nil_r; by apply split_last|].
  rewrite as_bytes_false by done. by rewrite split_line, IH.
Qed.
Lemma as_bytes_split b : as_bytes (split SLASH b) = b.
Proof.
  unfold as_bytes. induction b as [|x b IH]; [done|]. cbn [split].
  assert (split SLASH b ≠ []) as Hne.
  { destruct b as [|y b]; cbn [split]; [done|]. case_decide; [done|]. by destruct (split SLASH b). }
  case_decide as Hd.
  - subst x. cbn [as_bytes_from app]. rewrite as_bytes_false by done. unfold as_bytes. by rewrite IH.
  - destruct (split SLASH b) as [|c cs]; [done|]. cbn [as_bytes_from app] in *. by rewrite IH.
Qed.
Lemma as_bytes_head p c : path_wf p → head (as_bytes p) = Some c → c ≠ SLASH.
Proof.
  intros [Hne Hall] Hh. destruct Hall as [|[|x n] p (Hn & _ & Hs & _) _]; [done|done|].
  unfold as_bytes in Hh. cbn in Hh. injection Hh as ->. intros ->. destruct Hs. by left.
Qed.

Lemma parse_Ok b limits p :
  parse b limits = Ok p ↔ b = as_bytes p ∧ path_wf p ∧ within limits p.
Proof.
  unfold parse. split.
  - intros Hp. apply bind_Ok_inv in Hp as ([] & Hne%ensure_Ok_inv%bool_decide_eq_true & Hp).
    apply bind_Ok_inv in Hp as ([] & _ & Hp).
    apply bind_Ok_inv in Hp as ([] & Hlen%ensure_Ok_inv%bool_decide_eq_true & Hp).
    apply bind_Ok_inv in Hp as ([] & Hn%ensure_Ok_inv%bool_decide_eq_true & Hp).
    apply tree_names_Ok in Hp as (-> & Hw & Hl). rewrite as_bytes_split. split_and!; try done.
    + split; [|done]. intros Hs. rewrite <-(as_bytes_split b), Hs in Hne. done.
    + unfold within. by rewrite as_bytes_split.
  - intros (-> & Hw & Hl & Hn & Hb). pose proof Hw as [Hne Hall].
    assert (split SLASH (as_bytes p) = p) as Hs.
    { apply split_as_bytes; [done|]. eapply Forall_impl; [exact Hall|]. by intros c (_ & _ & ? & _). }
    rewrite bind_ensure_decide.
    2: { intros He. rewrite He in Hs. cbn in Hs. subst p. apply Forall_cons in Hall as [[? _] _]. done. }
    rewrite bind_ensure_decide by (intros Hh; by apply (as_bytes_head p SLASH)).
    rewrite !bind_ensure_decide by (done || by rewrite Hs). by apply tree_names_Ok; rewrite Hs.
Qed.

(** A byte string parses to a path exactly when it is the encoding of that
    path, its components are tree names without separators, NUL or traversal,
    and it is within the limits. *)
Theorem parse_exact b limits p :
  parse b limits = Ok p ↔ b = as_bytes p ∧ path_wf p ∧ within limits p.
Proof. apply parse_Ok. Qed.

Lemma len_as_bytes_cons first c p :
  len (as_bytes_from first (c :: p)) = (if first then 0 else 1) + len c + len (as_bytes_from false p).
Proof. cbn [as_bytes_from]. unfold len. rewrite !length_app. destruct first; cbn; lia. Qed.
Lemma encoded_path_len_inv first n p l :
  encoded_path_len_from first n p = Some l → l = n + len (as_bytes_from first p).
Proof.
  revert first n. induction p as [|c p IH]; intros first n; cbn [encoded_path_len_from].
  - intros [= <-]. cbn. unfold len. cbn. lia.
  - destruct (checked_add n (len c)) as [n1|] eqn:H1; [|done]. cbn [mbind option_bind].
    destruct (checked_add n1 _) as [n2|] eqn:H2; [|done]. cbn [mbind option_bind].
    apply checked_add_inv in H1 as [-> _], H2 as [-> _]. intros ->%IH. rewrite len_as_bytes_cons. destruct first; lia.
Qed.
Lemma encoded_path_len_fits first n p :
  0 ≤ n → n + len (as_bytes_from first p) ≤ u64_max →
  encoded_path_len_from first n p = Some (n + len (as_bytes_from first p)).
Proof.
  revert first n. induction p as [|c p IH]; intros first n Hn Hl; cbn [encoded_path_len_from].
  - unfold len. cbn. f_equal. lia.
  - rewrite len_as_bytes_cons in *. assert (0 ≤ len (as_bytes_from false p)) by (unfold len; lia).
    assert (0 ≤ len c) by (unfold len; lia).
    rewrite checked_add_Some by (destruct first; lia). cbn [mbind option_bind].
    rewrite checked_add_Some by (destruct first; lia). cbn [mbind option_bind].
    rewrite IH by (destruct first; lia). f_equal. destruct first; lia.
Qed.

(** The check of a path's shape, for limits that are machine integers. *)
Definition limits_wf (limits : CheckoutLimits) : Prop := max_path_bytes limits ≤ u64_max ∧ 0 ≤ max_entries limits.
Lemma find_None_Forall {A} (f : A → bool) l : List.find f l = None ↔ Forall (λ x, f x = false) l.
Proof.
  induction l as [|x l IH]; cbn; [by split|]. rewrite Forall_cons. destruct (f x); [|rewrite IH; naive_solver]. naive_solver.
Qed.
Lemma validate_path_shape_Ok limits p :
  limits_wf limits → validate_path_shape p limits = Ok () ↔ p ≠ [] ∧ within limits p.
Proof.
  intros Hw. unfold validate_path_shape, within. split.
  - intros Hp. apply bind_Ok_inv in Hp as ([] & Hne%ensure_Ok_inv%bool_decide_eq_true & Hp).
    apply bind_Ok_inv in Hp as ([] & Hf & Hp). destruct (List.find _ p) eqn:Hfind; [done|].
    apply find_None_Forall in Hfind.
    apply bind_Ok_inv in Hp as ([] & Hn%ensure_Ok_inv%bool_decide_eq_true & Hp).
    apply bind_Ok_inv in Hp as (l & Hl%ok_or_Ok_inv & Hp%ensure_Ok_inv%bool_decide_eq_true).
    apply encoded_path_len_inv in Hl. rewrite Z.add_0_l in Hl. subst l. split_and!; try done.
    eapply Forall_impl; [exact Hfind|]. intros c Hc%bool_decide_eq_false. lia.
  - intros (Hne & Hc & Hn & Hl). rewrite bind_ensure_decide by done.
    destruct (List.find _ p) as [c|] eqn:Hfind.
    { apply List.find_some in Hfind as [Hin%list_elem_of_In Hb%bool_decide_eq_true].
      rewrite Forall_forall in Hc. specialize (Hc c Hin). lia. }
    rewrite bind_Ok, bind_ensure_decide by done. unfold encoded_path_len.
    destruct Hw as [Hw _]. unfold as_bytes in Hl.
    rewrite encoded_path_len_fits by lia. cbn [ok_or]. rewrite bind_Ok, Z.add_0_l. by apply ensure_true, bool_decide_eq_true_2.
Qed.

(** ** The builder *)

(** A strict ancestor, and paths without one among them. *)
Definition above (p q : RelativePath) : Prop := p ≠ q ∧ p `prefix_of` q.
Lemma is_ancestor_of_true p q : is_ancestor_of p q = true ↔ above p q.
Proof.
  unfold is_ancestor_of, above. rewrite andb_true_iff, !bool_decide_eq_true. split.
  - intros [Hlt Ht]. split; [by intros ->; lia|]. exists (drop (length p) q). rewrite <-Ht at 1. by rewrite take_drop.
  - intros [Hne [k ->]]. split; [|by rewrite take_app_length].
    rewrite length_app. destruct k; [by rewrite app_nil_r in Hne|cbn; lia].
Qed.
Lemma elem_of_parent_paths p d : d ∈ parent_paths p ↔ d ≠ [] ∧ above d p.
Proof.
  unfold parent_paths. rewrite list_elem_of_fmap. split.
  - intros (n & -> & Hn%elem_of_seq). unfold above. split_and!.
    + intros Ht. apply (f_equal length) in Ht. rewrite length_take in Ht. cbn in Ht. lia.
    + intros Ht. apply (f_equal length) in Ht. rewrite length_take in Ht. lia.
    + exists (drop n p). by rewrite take_drop.
  - intros (Hd & Hne & [k ->]). exists (length d). rewrite take_app_length. split; [done|].
    rewrite elem_of_seq, length_app. destruct d; [done|]. destruct k; [by rewrite app_nil_r in Hne|]. cbn. lia.
Qed.

#[export] Instance relative_ord : Ord relative_compare := list_ord bytes_compare bytes_ord.

Lemma elem_of_sorted_entries b e : e ∈ sorted_entries b ↔ cb_entries b !! e.1 = Some e.2.
Proof.
  unfold sorted_entries. rewrite (sort_on_perm fst relative_compare). destruct e. apply elem_of_map_to_list.
Qed.
Lemma elem_of_sorted_paths b p : p ∈ map fst (sorted_entries b) ↔ is_Some (cb_entries b !! p).
Proof.
  rewrite list_elem_of_fmap. split.
  - intros (e & -> & He%elem_of_sorted_entries). by eexists.
  - intros [o Ho]. exists (p, o). split; [done|]. by apply elem_of_sorted_entries.
Qed.

Lemma add_Ok b p o b' :
  add b p o = Ok b' ↔
    validate_path_shape p (cb_limits b) = Ok () ∧ cb_entries b !! p = None ∧
    Z.of_nat (base.size (cb_entries b)) + 1 ≤ max_entries (cb_limits b) ∧
    (∀ q, is_Some (cb_entries b !! q) → q ≠ [] → ¬ above q p) ∧ (∀ q, is_Some (cb_entries b !! q) → ¬ above p q) ∧
    b' = mkBuilder (cb_limits b) (<[p := o]> (cb_entries b)).
Proof.
  unfold add. split.
  - intros Hb. apply bind_Ok_inv in Hb as ([] & Hv & Hb).
    apply bind_Ok_inv in Hb as ([] & Hd%ensure_Ok_inv%bool_decide_eq_true & Hb).
    apply bind_Ok_inv in Hb as ([] & Hn%ensure_Ok_inv%bool_decide_eq_true & Hb).
    apply bind_Ok_inv in Hb as ([] & Ha & Hb). destruct (List.find _ (parent_paths p)) eqn:Hfa; [done|].
    apply bind_Ok_inv in Hb as ([] & Hs & Hb). destruct (List.find _ (map fst _)) eqn:Hfs; [done|].
    apply find_None_Forall in Hfa, Hfs. rewrite Forall_forall in Hfa, Hfs. apply Ok_inj in Hb as <-.
    split_and!; try done.
    + intros q Hq Hne Hab. specialize (Hfa q (proj2 (elem_of_parent_paths p q) (conj Hne Hab))).
      by apply bool_decide_eq_false in Hfa.
    + intros q Hq Hab. specialize (Hfs q (proj2 (elem_of_sorted_paths b q) Hq)). cbn in Hfs.
      by rewrite (proj2 (is_ancestor_of_true p q)) in Hfs.
  - intros (Hv & Hd & Hn & Ha & Hs & ->). rewrite Hv, bind_Ok, !bind_ensure_decide by done.
    destruct (List.find _ (parent_paths p)) as [q|] eqn:Hfa.
    { apply List.find_some in Hfa as [Hin%list_elem_of_In Hb%bool_decide_eq_true].
      apply elem_of_parent_paths in Hin as [Hne Hab]. by destruct (Ha q Hb Hne). }
    rewrite bind_Ok. destruct (List.find _ (map fst _)) as [q|] eqn:Hfs; [|done].
    apply List.find_some in Hfs as [Hin%list_elem_of_In Hb%is_ancestor_of_true].
    apply elem_of_sorted_paths in Hin. by destruct (Hs q Hin).
Qed.

(** Entries added one after the other. *)
Fixpoint add_all (b : CheckoutPlanBuilder) (l : list (RelativePath * PlannedObject)) : KResult CheckoutPlanBuilder :=
  match l with
  | [] => Ok b
  | e :: l => b ← add b e.1 e.2; add_all b l
  end.
Lemma add_all_app b l l' : add_all b (l ++ l') = (b ← add_all b l; add_all b l').
Proof. revert b. induction l as [|e l IH]; intros b; cbn [add_all app]; [done|]. destruct (add b e.1 e.2) as [b1|]; cbn; [apply IH|done]. Qed.

(** What the builder accepts: distinct valid paths, none above another. *)
Record plannable (limits : CheckoutLimits) (l : list (RelativePath * PlannedObject)) : Prop := {
  pl_nodup : NoDup l.*1;
  pl_shape : Forall (λ p, p ≠ [] ∧ within limits p) l.*1;
  pl_count : Z.of_nat (length l) ≤ max_entries limits;
  pl_free p q : p ∈ l.*1 → q ∈ l.*1 → ¬ above p q;
}.
Lemma plannable_snoc limits l p o :
  plannable limits (l ++ [(p, o)]) ↔ plannable limits l ∧ (p ≠ [] ∧ within limits p) ∧ (p ∉ l.*1) ∧
    Z.of_nat (length l) + 1 ≤ max_entries limits ∧ ∀ q, q ∈ l.*1 → ¬ above p q ∧ ¬ above q p.
Proof.
  split.
  - intros [Hnd Hs Hc Hf]. rewrite fmap_app, length_app in *. cbn in *.
    apply NoDup_app in Hnd as (Hnd & Hx & _). apply Forall_app in Hs as [Hs [Hp _]%Forall_cons].
    setoid_rewrite elem_of_app in Hf. setoid_rewrite list_elem_of_singleton in Hf.
    split; [split; auto; lia|]. split; [done|]. split; [intros Hin; apply (Hx p Hin); by left|]. split; [lia|].
    intros q Hq. split; apply Hf; auto.
  - intros ([Hnd Hs Hc Hf] & Hp & Hnin & Hn & Hq). split; rewrite ?fmap_app; cbn.
    + apply NoDup_app. split_and!; [done| |apply NoDup_singleton]. intros x Hx ->%list_elem_of_singleton. done.
    + apply Forall_app. split; [done|]. by constructor.
    + rewrite length_app. cbn. lia.
    + intros a c. rewrite !elem_of_app, !list_elem_of_singleton. intros [Ha| ->] [Hc'| ->]; auto.
      * by apply Hq.
      * by apply Hq.
      * by intros [].
Qed.
Lemma add_all_Ok limits l b :
  limits_wf limits → add_all (Builder_new limits) l = Ok b ↔ plannable limits l ∧ b = mkBuilder limits (list_to_map l).
Proof.
  intros Hw. revert b. induction l as [|[p o] l IH] using rev_ind; intros b.
  { cbn. split.
    - intros <-%Ok_inj. split; [|done]. split; cbn; try constructor; [by destruct Hw|]. intros p q Hp. by apply elem_of_nil in Hp.
    - by intros [_ ->]. }
  rewrite add_all_app, plannable_snoc. split.
  - intros Hb. apply bind_Ok_inv in Hb as (b1 & (Hpl & ->)%IH & Hb). cbn [add_all fst snd] in Hb.
    apply bind_Ok_inv in Hb as (b2 & Hadd & <-%Ok_inj).
    apply add_Ok in Hadd as (Hv & Hd & Hn & Ha & Hs & ->). cbn [cb_limits cb_entries] in *.
    apply validate_path_shape_Ok in Hv; [|done]. apply not_elem_of_list_to_map in Hd.
    rewrite list_to_map_snoc by done. split; [|done]. split_and!; try done; try apply Hv.
    + rewrite map_size_list_to_map in Hn by apply Hpl. done.
    + intros q Hq. assert (is_Some ((list_to_map l : gmap RelativePath PlannedObject) !! q)) as Hsome.
      { apply list_elem_of_fmap in Hq as ([q' o'] & -> & Hq). exists o'. apply elem_of_list_to_map; [apply Hpl|done]. }
      split; [by apply Hs|]. apply Ha; [done|]. destruct Hpl as [_ Hsh _ _]. rewrite Forall_forall in Hsh. by apply Hsh.
  - intros [(Hpl & [Hne Hp] & Hnin & Hn & Hq) ->].
    rewrite (proj2 (IH (mkBuilder limits (list_to_map l)))), bind_Ok by done. cbn [add_all fst snd].
    rewrite (proj2 (add_Ok (mkBuilder limits (list_to_map l)) p o (mkBuilder limits (<[p := o]> (list_to_map l))))).
    { rewrite bind_Ok. by rewrite list_to_map_snoc. }
    cbn [cb_limits cb_entries].
    assert (∀ q, is_Some ((list_to_map l : gmap RelativePath PlannedObject) !! q) → q ∈ l.*1) as Hin.
    { intros q [o' Ho']. apply elem_of_list_to_map_2 in Ho'. by apply (list_elem_of_fmap_2 fst) in Ho'. }
    split_and!; try done.
    + apply validate_path_shape_Ok; done.
    + by apply not_elem_of_list_to_map.
    + by rewrite map_size_list_to_map by apply Hpl.
    + intros q Hs _. by apply Hq, Hin.
    + intros q Hs. by apply Hq, Hin.
Qed.

Lemma plannable_perm limits l l' : l ≡ₚ l' → plannable limits l → plannable limits l'.
Proof.
  intros Hp [Hnd Hs Hc Hf]. split.
  - by rewrite <-Hp.
  - by rewrite <-Hp.
  - by rewrite <-Hp.
  - intros p q. rewrite <-Hp. apply Hf.
Qed.

(** The plan does not depend on the order in which the entries of a tree
    are added: in any order they are accepted together or not at all, and give
    the same plan. *)
Theorem plan_order_independent limits l l' b :
  limits_wf limits → l ≡ₚ l' → add_all (Builder_new limits) l = Ok b →
  ∃ b', add_all (Builder_new limits) l' = Ok b' ∧ finish b' = finish b.
Proof.
  intros Hw Hp [Hpl ->]%add_all_Ok; [|done]. exists (mkBuilder limits (list_to_map l)). split; [|done].
  apply add_all_Ok; [done|]. split; [by eapply plannable_perm|]. f_equal.
  apply list_to_map_proper; [apply Hpl|done].
Qed.

(** ** Plans *)

(** The builders that calls produce; values of the path types are well formed. *)
Inductive built (limits : CheckoutLimits) : CheckoutPlanBuilder → Prop :=
| built_new : built limits (Builder_new limits)
| built_raw b path mode oid b' : built limits b → add_raw b path mode oid = Ok b' → built limits b'
| built_entry b parent e b' :
    built limits b → (∀ p, parent = Some p → path_wf p) → name_wf (te_name e) →
    add_tree_entry b parent e = Ok b' → built limits b'
| built_add b p o b' : built limits b → path_wf p → add b p o = Ok b' → built limits b'.

Record builder_wf (limits : CheckoutLimits) (b : CheckoutPlanBuilder) : Prop := {
  bw_limits : cb_limits b = limits;
  bw_plannable : plannable limits (map_to_list (cb_entries b));
  bw_paths p : is_Some (cb_entries b !! p) → path_wf p;
}.
Lemma elem_of_map_fst (m : gmap RelativePath PlannedObject) p : p ∈ (map_to_list m).*1 ↔ is_Some (m !! p).
Proof.
  rewrite list_elem_of_fmap. split.
  - intros ([q o] & -> & He%elem_of_map_to_list). by exists o.
  - intros [o Ho]. exists (p, o). split; [done|]. by apply elem_of_map_to_list.
Qed.
Lemma add_wf limits b p o b' :
  limits_wf limits → builder_wf limits b → path_wf p → add b p o = Ok b' → builder_wf limits b'.
Proof.
  intros Hw [Hl Hpl Hp] Hpw (Hv & Hd & Hn & Ha & Hs & ->)%add_Ok. rewrite Hl in *.
  apply validate_path_shape_Ok in Hv as [Hne Hv]; [|done]. split; cbn [cb_entries cb_limits].
  - done.
  - apply (plannable_perm _ (map_to_list (cb_entries b) ++ [(p, o)])).
    { rewrite map_to_list_insert by done. symmetry. apply Permutation_cons_append. }
    apply plannable_snoc. split_and!; try done.
    + rewrite elem_of_map_fst, Hd. by intros [].
    + by rewrite length_map_to_list.
    + intros q Hq%elem_of_map_fst. split; [by apply Hs|]. apply Ha; [done|]. by apply Hp.
  - intros q. destruct (decide (q = p)) as [->|]; [done|]. rewrite lookup_insert_ne by done. apply Hp.
Qed.
Lemma built_wf limits b : limits_wf limits → built limits b → builder_wf limits b.
Proof.
  intros Hw. induction 1 as [|b path mode oid b' _ IH Ha|b parent e b' _ IH Hpar Hn Ha|b p o b' _ IH Hp Ha].
  - split; cbn; [done| |]; [|by intros p []].
    rewrite map_to_list_empty. split; cbn; try constructor; [by destruct Hw|]. intros p q Hp. by apply elem_of_nil in Hp.
  - unfold add_raw in Ha. apply bind_Ok_inv in Ha as (p & (_ & Hp & _)%parse_Ok & Ha).
    apply bind_Ok_inv in Ha as (m & _ & Ha). by eapply add_wf.
  - unfold add_tree_entry in Ha. apply bind_Ok_inv in Ha as (p & Hj & Ha). eapply add_wf; [done|done| |done].
    destruct parent as [q|]; unfold join, from_components in Hj;
      apply bind_Ok_inv in Hj as ([] & _ & <-%Ok_inj); [|split; [done|by constructor]].
    destruct (Hpar q eq_refl) as [Hne Hq]. split; [by destruct q|]. apply Forall_app. split; [done|]. by constructor.
  - by eapply add_wf.
Qed.

Record plan_wf (limits : CheckoutLimits) (plan : CheckoutPlan) : Prop := {
  pw_sorted : StronglySorted (cmp_lt relative_compare) (map pe_path (plan_entries plan));
  pw_paths e : e ∈ plan_entries plan → path_wf (pe_path e) ∧ within limits (pe_path e);
  pw_count : Z.of_nat (length (plan_entries plan)) ≤ max_entries limits;
  pw_free e e' : e ∈ plan_entries plan → e' ∈ plan_entries plan → ¬ above (pe_path e) (pe_path e');
  pw_directories_sorted : StronglySorted (cmp_lt relative_compare) (plan_directories plan);
  pw_directories d : d ∈ plan_directories plan ↔ d ≠ [] ∧ ∃ e, e ∈ plan_entries plan ∧ above d (pe_path e);
}.
Lemma map_sort_fst (l : list (RelativePath * PlannedObject)) :
  map fst (sort_by (cmp_on fst relative_compare) l) = sort_by relative_compare (l.*1 : list RelativePath).
Proof.
  symmetry. apply sort_by_unique; [apply _| |].
  - pose proof (sort_on_sorted (A := RelativePath * PlannedObject) fst relative_compare l) as Hs.
    induction Hs as [|e k Hs IH He]; cbn; constructor; [done|].
    apply Forall_fmap. eapply Forall_impl; [exact He|]. done.
  - change (fst <$> sort_by (cmp_on fst relative_compare) l ≡ₚ l.*1). by rewrite (sort_on_perm fst relative_compare).
Qed.
Lemma finish_wf limits b : builder_wf limits b → plan_wf limits (finish b).
Proof.
  intros [Hl [Hnd Hsh Hc Hf] Hp].
  assert (∀ e, e ∈ plan_entries (finish b) ↔ cb_entries b !! pe_path e = Some (pe_object e)) as Hin.
  { intros [p o]. cbn. rewrite list_elem_of_fmap. split.
    - intros ([p' o'] & [= -> ->] & He). by apply elem_of_sorted_entries in He.
    - intros Ho. exists (p, o). split; [done|]. by apply elem_of_sorted_entries. }
  assert (∀ e, e ∈ plan_entries (finish b) → pe_path e ∈ (map_to_list (cb_entries b)).*1) as Hin'.
  { intros e He%Hin. apply elem_of_map_fst. by eexists. }
  split.
  - cbn. rewrite List.map_map. cbn. change (λ x, x.1) with (@fst RelativePath PlannedObject).
    unfold sorted_entries. rewrite map_sort_fst. apply sort_by_strict; [apply _|done].
  - intros e He. rewrite Forall_forall in Hsh. split; [|by apply Hsh, Hin'].
    apply Hp, elem_of_map_fst, Hin', He.
  - cbn. rewrite length_map. unfold sorted_entries. by rewrite (sort_on_perm fst relative_compare).
  - intros e e' He He'. by apply Hf; apply Hin'.
  - cbn. apply sort_by_strict; [apply _|]. apply NoDup_elements.
  - intros d. cbn [finish plan_directories]. rewrite (elem_of_sort_by relative_compare), elem_of_elements, elem_of_list_to_set.
    rewrite list_elem_of_In, in_concat. setoid_rewrite in_map_iff. split.
    + intros (x & (e & <- & He%list_elem_of_In) & Hd%list_elem_of_In). apply elem_of_parent_paths in Hd as [Hne Hd].
      split; [done|]. exists (mkPlannedEntry e.1 e.2). split; [|done]. apply Hin. by apply elem_of_sorted_entries.
    + intros [Hne (e & He%Hin & Hab)]. exists (parent_paths (pe_path e)). split.
      * exists (pe_path e, pe_object e). split; [done|]. by apply list_elem_of_In, elem_of_sorted_entries.
      * by apply list_elem_of_In, elem_of_parent_paths.
Qed.

(** C37. Whatever calls built it, a finished plan is well formed: its entries
    are distinct valid paths in order, within the limits, none above another,
    and its directories are exactly their strict parents, in order. *)
Theorem plan_well_formed limits b : limits_wf limits → built limits b → plan_wf limits (finish b).
Proof. intros Hw Hb. by apply finish_wf, built_wf. Qed.
End CheckoutSpec.
