(* ===== verification/MaterializeSpec.v ===== *)
(** * What materialization and publication guarantee *)

From Stdlib Require Import ZArith Lia Strings.Byte Strings.String Sorting.Sorted.
From stdpp Require Import base tactics list gmap strings.
From S2P Require Import Prelude Order Core Format Codec CatalogCodec Catalog Chunk Disk Git GitSpec Cache CacheSpec Checkout CheckoutSpec.
Import Core Format Codec CatalogCodec Catalog Chunk Git GitSpec Cache CacheSpec Checkout CheckoutSpec.

#[local] Open Scope Z_scope.

Module MaterializeSpec.

#[local] Set Warnings "-clear-no-such-hyp".

(** ** One call *)

Lemma stage_call_Ok {A} (act : _ → result _ (A * _)) s a s' :
  stage_call act s = (Ok a, s') → act (sg_nodes s) = Ok (a, sg_nodes s').
Proof.
  unfold stage_call. destruct (sg_faults s) as [|[e|] fs]; [|done|].
  - destruct (act (sg_nodes s)) as [[x nodes]|e]; [|done]. by intros [= <- <-].
  - destruct (act (sg_nodes s)) as [[x nodes]|e]; [|done]. by intros [= <- <-].
Qed.
(** A stage where no call will fail. *)
Definition quiet (nodes : gmap RelativePath StageNode) : Stage := mkStage nodes [].
Lemma stage_call_quiet {A} (act : _ → result _ (A * _)) nodes :
  stage_call act (quiet nodes) =
    match act nodes with Ok (a, nodes') => (Ok a, quiet nodes') | Err e => (Err e, quiet nodes) end.
Proof. done. Qed.
Lemma c_name_Ok n n' : c_name n = Ok n' → n' = n.
Proof. unfold c_name. intros Hn. apply bind_Ok_inv in Hn as (? & _ & Hn). by apply Ok_inj in Hn. Qed.

Lemma open_parents_Ok cs : ∀ d s p n s',
  open_parents d cs s = (Ok (p, n), s') → sg_nodes s' = sg_nodes s ∧ p ++ [n] = d ++ cs.
Proof.
  induction cs as [|c cs IH]; intros d s p n s' Ho; [done|]. destruct cs as [|c' cs].
  - by injection Ho as <- <- <-.
  - change (open_parents d (c :: c' :: cs)) with (d ⇐ open_child_directory d c; open_parents d (c' :: cs)) in Ho.
    apply st_bind_Ok in Ho as (d1 & s1 & Hc & Ho). apply IH in Ho as [Hn Hp].
    unfold open_child_directory in Hc. apply st_bind_Ok in Hc as (c1 & s0 & Hc0 & Hc).
    apply st_lift_Ok in Hc0 as [->%c_name_Ok ->]. apply stage_call_Ok in Hc.
    destruct (sg_nodes s !! _) as [[| |]|]; try done. injection Hc as Hd Hs.
    rewrite Hn, <-Hs, Hp, <-Hd, <-app_assoc. done.
Qed.
Lemma parent_directory_Ok path s p n s' :
  parent_directory path s = (Ok (p, n), s') → sg_nodes s' = sg_nodes s ∧ p ++ [n] = path.
Proof.
  unfold parent_directory. intros Ho. apply st_bind_Ok in Ho as (d & s1 & Hd & Ho).
  apply stage_call_Ok in Hd. injection Hd as <- Hs. apply open_parents_Ok in Ho as [Hn Hp]. by rewrite Hn, <-Hs.
Qed.
Lemma create_node_Ok p n node s u s' :
  create_node p n node s = (Ok u, s') →
  sg_nodes s !! (p ++ [n]) = None ∧ sg_nodes s' = <[p ++ [n] := node]> (sg_nodes s).
Proof.
  intros Hc%stage_call_Ok. destruct (sg_nodes s !! (p ++ [n])); [done|]. by injection Hc as _ <-.
Qed.
(** A call that adds a node at a path where nothing was. *)
Definition adds (path : RelativePath) (node : StageNode) (s s' : Stage) : Prop :=
  sg_nodes s !! path = None ∧ sg_nodes s' = <[path := node]> (sg_nodes s).
Ltac at_parent Ho :=
  apply st_bind_Ok in Ho as ([?p ?n] & ?s1 & Hpar & Ho);
  apply parent_directory_Ok in Hpar as [Hnodes Hpath];
  apply st_bind_Ok in Ho as (?c & ?s2 & Hcn & Ho); apply st_lift_Ok in Hcn as [->%c_name_Ok ->].
Lemma create_directory_at_Ok path s u s' : create_directory_at path s = (Ok u, s') → adds path SDirectory s s'.
Proof.
  unfold create_directory_at. intros Ho. at_parent Ho. apply create_node_Ok in Ho.
  unfold adds. by rewrite <-Hnodes, <-Hpath.
Qed.
Lemma create_symlink_at_Ok path t s u s' : create_symlink_at path t s = (Ok u, s') → adds path (SLink t) s s'.
Proof.
  unfold create_symlink_at. intros Ho. at_parent Ho. apply st_bind_Ok in Ho as (t' & s2 & Ht & Ho).
  apply st_lift_Ok in Ht as [->%c_name_Ok ->]. apply create_node_Ok in Ho. unfold adds. by rewrite <-Hnodes, <-Hpath.
Qed.
Lemma create_file_at_Ok path mode s f s' : create_file_at path mode s = (Ok f, s') → f = path ∧ adds path (SFile [] mode) s s'.
Proof.
  unfold create_file_at. intros Ho. at_parent Ho. apply st_bind_Ok in Ho as (u & s2 & Hc & Ho).
  injection Ho as <- <-. apply create_node_Ok in Hc. unfold adds. by rewrite <-Hnodes, <-Hpath.
Qed.
Lemma set_file_mode_at_Ok path mode s u s' contents old :
  sg_nodes s !! path = Some (SFile contents old) → set_file_mode_at path mode s = (Ok u, s') →
  sg_nodes s' = <[path := SFile contents mode]> (sg_nodes s).
Proof.
  intros Hf. unfold set_file_mode_at. intros Ho. apply st_bind_Ok in Ho as (f & s1 & Hop & Ho).
  unfold open_file_at in Hop. at_parent Hop. apply stage_call_Ok in Hop. cbn beta iota in Hop.
  subst path. rewrite Hnodes, Hf in Hop.
  injection Hop as <- Hs1. apply stage_call_Ok in Ho. rewrite <-Hs1, Hf in Ho. by injection Ho as _ <-.
Qed.

Section Materialize.
Context `{Digests} `{RawCheckoutSource Src E}.

Lemma clone_blob_at_Ok cache id path s u s' :
  clone_blob_at cache id path s = (Ok u, s') →
  ∃ b, ContentId_for_object Blob b = id ∧ adds path (SFile b 420) s s'.
Proof.
  unfold clone_blob_at. intros Ho. apply st_bind_Ok in Ho as (b & s1 & Hb & Ho).
  apply st_lift_Ok in Hb as [[_ Hid]%open_verified_Ok ->]. apply st_bind_Ok in Ho as (f & s1 & Hf & Ho).
  apply st_map_err_Ok, create_file_at_Ok in Hf as (-> & Hnone & Hs1). apply st_map_err_Ok, stage_call_Ok in Ho.
  rewrite Hs1, lookup_insert_eq in Ho. injection Ho as _ Hs'. exists b. split; [done|]. split; [done|].
  by rewrite <-Hs', insert_insert_eq.
Qed.

(** What is put at the path of an entry. *)
Definition realizes (source : Src) (policy : GitlinkPolicy) (o : PlannedObject) (node : StageNode) : Prop :=
  match po_mode o with
  | Regular | Executable =>
      ∃ id c c' b, blob_content_id source (po_oid o) c = (Ok id, c') ∧ ContentId_for_object Blob b = id ∧
        node = SFile b (file_mode (po_mode o))
  | Symlink => ∃ t, blob_bytes source (po_oid o) = Ok t ∧ (x00 ∉ t) ∧ node = SLink t
  | Gitlink => policy = EmptyDirectory ∧ node = SDirectory
  end.
Lemma on_stage_Ok {A E'} (f : E' → MaterializeError E) (act : ST Stage E' A) x a x' :
  on_stage f act x = (Ok a, x') → act x.1 = (Ok a, x'.1) ∧ x'.2 = x.2.
Proof. unfold on_stage. destruct (act x.1) as [[b|e] s]; cbn; [|done]. by intros [= -> <-]. Qed.
Lemma on_cache_Ok {A} (act : ST Cache E A) (x x' : Stage * Cache) a :
  on_cache act x = (Ok a, x') → act x.2 = (Ok a, x'.2) ∧ x'.1 = x.1.
Proof. unfold on_cache. destruct (act x.2) as [[b|e] s]; cbn; [|done]. by intros [= -> <-]. Qed.

Lemma materialize_entry_Ok source policy e x u x' :
  materialize_entry source policy e x = (Ok u, x') →
  ∃ node, realizes source policy (pe_object e) node ∧ adds (pe_path e) node x.1 x'.1.
Proof.
  unfold materialize_entry, realizes. destruct (po_mode (pe_object e)) eqn:Hm; intros Ho.
  1, 2: apply st_bind_Ok in Ho as (id & x1 & Hid & Ho); apply on_cache_Ok in Hid as [Hid Hx1];
    apply st_bind_Ok in Ho as (c & x2 & Hc & Ho); injection Hc as <- <-;
    apply st_bind_Ok in Ho as ([] & x2 & Hcl & Ho); apply on_stage_Ok in Hcl as [Hcl Hx2];
    apply on_stage_Ok in Ho as [Ho _]; apply clone_blob_at_Ok in Hcl as (b & Hb & Hnone & Hn);
    apply (set_file_mode_at_Ok _ _ _ _ _ b 420) in Ho; [|rewrite Hn; apply lookup_insert_eq];
    eexists; split; [by exists id, x.2, x1.2, b|]; rewrite Hx1 in *; split; [done|];
    by rewrite Ho, Hn, insert_insert_eq.
  - apply st_bind_Ok in Ho as (t & x1 & Ht & Ho). apply st_lift_Ok in Ht as [Ht%map_err_Ok_inv ->].
    apply st_bind_Ok in Ho as ([] & x1 & Hz & Ho). apply st_lift_Ok in Hz as [Hz%ensure_Ok_inv%bool_decide_eq_true ->].
    apply on_stage_Ok in Ho as [Ho%create_symlink_at_Ok _]. eexists. split; [by exists t|done].
  - destruct policy; [done|]. apply on_stage_Ok in Ho as [Ho%create_directory_at_Ok _]. by eexists.
Qed.
Lemma create_directories_Ok ds x u x' :
  create_directories (E := E) ds x = (Ok u, x') →
  (∀ q n, sg_nodes x'.1 !! q = Some n ↔ sg_nodes x.1 !! q = Some n ∨ q ∈ ds ∧ n = SDirectory) ∧
  (∀ d, d ∈ ds → sg_nodes x.1 !! d = None).
Proof.
  revert x. induction ds as [|d ds IH]; intros x Ho; cbn [create_directories] in Ho.
  { injection Ho as _ <-. split.
    - intros q n. split; [auto|]. intros [?|[Hq _]]; [done|]. by apply elem_of_nil in Hq.
    - intros d Hd. by apply elem_of_nil in Hd. }
  apply st_bind_Ok in Ho as ([] & x1 & Hd & Ho). apply on_stage_Ok in Hd as [[Hnone Hn]%create_directory_at_Ok _].
  apply IH in Ho as [Hq Hds]. split.
  - intros q n. rewrite Hq, Hn. setoid_rewrite elem_of_cons. destruct (decide (q = d)) as [->|Hne].
    + rewrite lookup_insert_eq. rewrite Hnone. naive_solver.
    + rewrite lookup_insert_ne by done. naive_solver.
  - intros d' [->|Hd']%elem_of_cons; [done|]. specialize (Hds d' Hd'). rewrite Hn in Hds.
    by apply lookup_insert_None in Hds as [? _].
Qed.
Lemma materialize_entries_Ok source policy es x u x' :
  materialize_entries source policy es x = (Ok u, x') →
  (∀ e, e ∈ es → ∃ n, sg_nodes x'.1 !! pe_path e = Some n ∧ realizes source policy (pe_object e) n) ∧
  (∀ q n, sg_nodes x.1 !! q = Some n → sg_nodes x'.1 !! q = Some n) ∧
  (∀ q, is_Some (sg_nodes x'.1 !! q) → is_Some (sg_nodes x.1 !! q) ∨ q ∈ map pe_path es).
Proof.
  revert x. induction es as [|e es IH]; intros x Ho; cbn [materialize_entries] in Ho.
  { injection Ho as _ <-. split_and!; [|done|auto]. intros e He. by apply elem_of_nil in He. }
  apply st_bind_Ok in Ho as ([] & x1 & He & Ho). apply materialize_entry_Ok in He as (node & Hr & Hnone & Hn).
  apply IH in Ho as (Hes & Hkeep & Honly). rewrite Hn in Hkeep, Honly. split_and!.
  - intros e' [->|He']%elem_of_cons; [|auto]. exists node. split; [|done]. apply Hkeep, lookup_insert_eq.
  - intros q n Hq. apply Hkeep. rewrite lookup_insert_ne; [done|]. by intros <-; rewrite Hnone in Hq.
  - intros q Hq%Honly. setoid_rewrite elem_of_cons. destruct (decide (q = pe_path e)) as [->|Hne]; [auto|].
    rewrite lookup_insert_ne in Hq by done. naive_solver.
Qed.

(** A materialization that succeeds, with whatever failures it survived,
    leaves in the staging directory exactly the plan: its directories, at the
    path of every entry a file whose content has the ID the source gave (with
    the mode of the entry), a link with the target the source gave, or an empty
    directory for a submodule, and nothing else. *)
Theorem materialize_exact plan source is_directory policy x u x' :
  materialize_raw plan source is_directory policy x = (Ok u, x') →
  (∀ d, d ∈ plan_directories plan → sg_nodes x'.1 !! d = Some SDirectory) ∧
  (∀ e, e ∈ plan_entries plan →
    ∃ n, sg_nodes x'.1 !! pe_path e = Some n ∧ realizes source policy (pe_object e) n) ∧
  (∀ q, is_Some (sg_nodes x'.1 !! q) → q ∈ plan_directories plan ∨ q ∈ map pe_path (plan_entries plan)).
Proof.
  unfold materialize_raw. intros Ho. apply st_bind_Ok in Ho as (dir & y0 & Hb & Ho). apply st_lift_Ok in Hb as [_ ->].
  apply st_bind_Ok in Ho as (u0 & y0 & Hb & Ho). apply st_lift_Ok in Hb as [_ ->].
  apply st_bind_Ok in Ho as (empty & y1 & Hb & Ho). apply on_stage_Ok in Hb as [Hb%stage_call_Ok _].
  injection Hb as Hempty Hy1. apply st_bind_Ok in Ho as (u1 & y0 & Hb & Ho). apply st_lift_Ok in Hb as [He%ensure_Ok_inv ->].
  rewrite <-Hempty in He. apply bool_decide_eq_true in He.
  apply st_bind_Ok in Ho as (fd & y2 & Hb & Ho). apply on_stage_Ok in Hb as [Hb%stage_call_Ok _]. injection Hb as _ Hy2.
  apply st_bind_Ok in Ho as ([] & y3 & Hd & Ho). apply create_directories_Ok in Hd as [Hd _].
  rewrite <-Hy2, <-Hy1, He in Hd. apply materialize_entries_Ok in Ho as (Hes & Hkeep & Honly). split_and!.
  - intros d Hin. apply Hkeep, Hd. by right.
  - done.
  - intros q [[n [Hn|[? _]]%Hd]|?]%Honly; auto. by rewrite lookup_empty in Hn.
Qed.

(** ** Progress *)

Definition parents_in (nodes : gmap RelativePath StageNode) (p : RelativePath) : Prop :=
  ∀ q, q ≠ [] → above q p → nodes !! q = Some SDirectory.
Lemma c_name_wf n : name_wf n → c_name n = Ok n.
Proof. intros (_ & Hz & _). unfold c_name. by rewrite bind_ensure_decide. Qed.
Lemma open_parents_quiet cs : ∀ d nodes,
  cs ≠ [] → Forall name_wf cs → parents_in nodes (d ++ cs) →
  ∃ p n, open_parents d cs (quiet nodes) = (Ok (p, n), quiet nodes) ∧ p ++ [n] = d ++ cs ∧ name_wf n.
Proof.
  induction cs as [|c cs IH]; intros d nodes Hne Hw Hpar; [done|]. apply Forall_cons in Hw as [Hc Hw].
  destruct cs as [|c' cs]; [by exists d, c|].
  change (open_parents d (c :: c' :: cs)) with (d ⇐ open_child_directory d c; open_parents d (c' :: cs)).
  assert (open_child_directory d c (quiet nodes) = (Ok (d ++ [c]), quiet nodes)) as Ho.
  { unfold open_child_directory, st_bind, st_lift. rewrite c_name_wf by done. rewrite stage_call_quiet.
    rewrite (Hpar (d ++ [c])); [done|by destruct d|]. split.
    - intros Heq. apply (f_equal length) in Heq. rewrite !length_app in Heq. cbn in Heq. lia.
    - exists (c' :: cs). by rewrite <-app_assoc. }
  unfold st_bind. rewrite Ho. destruct (IH (d ++ [c]) nodes) as (p & n & Hop & Hp & Hn); [done|done| |].
  - by rewrite <-app_assoc.
  - exists p, n. split_and!; try done. by rewrite Hp, <-app_assoc.
Qed.
Lemma parent_directory_quiet path nodes :
  path_wf path → parents_in nodes path →
  ∃ p n, parent_directory path (quiet nodes) = (Ok (p, n), quiet nodes) ∧ p ++ [n] = path ∧ name_wf n.
Proof. intros [Hne Hw] Hp. by apply (open_parents_quiet path [] nodes). Qed.
Lemma create_node_quiet p n node nodes :
  nodes !! (p ++ [n]) = None → create_node p n node (quiet nodes) = (Ok (), quiet (<[p ++ [n] := node]> nodes)).
Proof. intros Hn. unfold create_node. by rewrite stage_call_quiet, Hn. Qed.
Lemma create_directory_quiet path nodes :
  path_wf path → parents_in nodes path → nodes !! path = None →
  create_directory_at path (quiet nodes) = (Ok (), quiet (<[path := SDirectory]> nodes)).
Proof.
  intros Hw Hp Hn. destruct (parent_directory_quiet path nodes Hw Hp) as (p & n & Hop & <- & Hnw).
  unfold create_directory_at, st_bind, st_lift. rewrite Hop, c_name_wf by done. by apply create_node_quiet.
Qed.
Lemma create_symlink_quiet path nodes t :
  path_wf path → parents_in nodes path → nodes !! path = None → x00 ∉ t →
  create_symlink_at path t (quiet nodes) = (Ok (), quiet (<[path := SLink t]> nodes)).
Proof.
  intros Hw Hp Hn Ht. destruct (parent_directory_quiet path nodes Hw Hp) as (p & n & Hop & <- & Hnw).
  unfold create_symlink_at, st_bind, st_lift. rewrite Hop, c_name_wf by done.
  unfold c_name. rewrite bind_ensure_decide by done. by apply create_node_quiet.
Qed.
Lemma parents_in_insert nodes path node p :
  nodes !! path = None → parents_in nodes p → parents_in (<[path := node]> nodes) p.
Proof. intros Hn Hp q Hq Hab. rewrite lookup_insert_ne; [auto|]. intros ->. by rewrite Hp in Hn. Qed.
Lemma clone_blob_quiet cache id b path nodes :
  path_wf path → parents_in nodes path → nodes !! path = None → open_verified_blob cache id = Ok b →
  clone_blob_at cache id path (quiet nodes) = (Ok (), quiet (<[path := SFile b 420]> nodes)).
Proof.
  intros Hw Hp Hn Hb. destruct (parent_directory_quiet path nodes Hw Hp) as (p & n & Hop & <- & Hnw).
  unfold clone_blob_at, create_file_at, st_map_err, st_bind, st_lift. rewrite Hb, Hop, c_name_wf by done.
  rewrite create_node_quiet by done. cbn [st_ret map_err].
  rewrite stage_call_quiet, lookup_insert_eq. by rewrite insert_insert_eq.
Qed.
Lemma set_file_mode_quiet path nodes b old mode :
  path_wf path → parents_in nodes path → nodes !! path = Some (SFile b old) →
  set_file_mode_at path mode (quiet nodes) = (Ok (), quiet (<[path := SFile b mode]> nodes)).
Proof.
  intros Hw Hp Hn. destruct (parent_directory_quiet path nodes Hw Hp) as (p & n & Hop & <- & Hnw).
  unfold set_file_mode_at, open_file_at, st_bind, st_lift. rewrite Hop, c_name_wf by done.
  rewrite stage_call_quiet, Hn. by rewrite stage_call_quiet, Hn.
Qed.

(** The source and the cache have what an entry asks for. *)
Definition supplied (source : Src) (policy : GitlinkPolicy) (o : PlannedObject) : Prop :=
  match po_mode o with
  | Regular | Executable =>
      ∀ c, ∃ id c' b, blob_content_id source (po_oid o) c = (Ok id, c') ∧ open_verified_blob c' id = Ok b
  | Symlink => ∃ t, blob_bytes source (po_oid o) = Ok t ∧ (x00 ∉ t)
  | Gitlink => policy = EmptyDirectory
  end.
Lemma materialize_entry_quiet source policy e nodes cache :
  supplied source policy (pe_object e) → path_wf (pe_path e) → parents_in nodes (pe_path e) → nodes !! pe_path e = None →
  ∃ node cache', materialize_entry source policy e (quiet nodes, cache) = (Ok (), (quiet (<[pe_path e := node]> nodes), cache')).
Proof.
  unfold supplied, materialize_entry. intros Hs Hw Hp Hn. destruct (po_mode (pe_object e)) eqn:Hm.
  1, 2: destruct (Hs cache) as (id & c' & b & Hid & Hb); eexists; exists c';
    unfold st_bind, on_cache, on_stage, st_get; cbn [fst snd]; rewrite Hid; cbn [map_err fst snd];
    rewrite (clone_blob_quiet _ _ b) by done; cbn [map_err fst snd];
    rewrite (set_file_mode_quiet _ _ b 420) by first [done|by apply parents_in_insert|apply lookup_insert_eq];
    cbn [map_err]; by rewrite insert_insert_eq.
  - destruct Hs as (t & Ht & Hz). eexists. exists cache. unfold st_bind, on_stage, st_lift. rewrite Ht. cbn [map_err fst snd].
    rewrite bool_decide_eq_true_2 by done. cbn [ensure]. by rewrite create_symlink_quiet.
  - subst policy. eexists. exists cache. unfold on_stage. cbn [fst snd]. by rewrite create_directory_quiet.
Qed.

Lemma above_lt p q : above p q → relative_compare p q = Lt.
Proof.
  intros [Hne [k ->]]. destruct k as [|x k]; [by rewrite app_nil_r in Hne|]. clear Hne. unfold relative_compare.
  induction p as [|c p IH]; [done|]. cbn. by rewrite (proj2 (ord_eq c c)).
Qed.
(** In a sorted list, what is smaller comes before. *)
Lemma sorted_before l1 (x : RelativePath) l2 y :
  StronglySorted (cmp_lt relative_compare) (l1 ++ x :: l2) → y ∈ l1 ++ x :: l2 → relative_compare y x = Lt → y ∈ l1.
Proof.
  intros Hs Hy Hlt. assert (relative_compare x x ≠ Lt) as Hxx by (by rewrite (proj2 (ord_eq x x))).
  induction l1 as [|z l1 IH]; cbn in *.
  - apply StronglySorted_inv in Hs as [_ Hall]. apply elem_of_cons in Hy as [->|Hy]; [done|].
    rewrite List.Forall_forall in Hall. specialize (Hall y (proj1 (list_elem_of_In _ _) Hy)). unfold cmp_lt in Hall.
    by rewrite (ord_trans _ _ _ Hall Hlt) in Hxx.
  - apply StronglySorted_inv in Hs as [Hs _]. apply elem_of_cons in Hy as [->|Hy]; [by left|]. right. auto.
Qed.
Lemma sorted_nodup l : StronglySorted (cmp_lt relative_compare) l → NoDup l.
Proof.
  induction 1 as [|x l _ IH Hall]; constructor; [|done]. intros Hx. rewrite List.Forall_forall in Hall.
  specialize (Hall x (proj1 (list_elem_of_In _ _) Hx)). unfold cmp_lt in Hall. by rewrite (proj2 (ord_eq x x)) in Hall.
Qed.

(** Creating sorted directories whose parents are among them. *)
Lemma create_directories_quiet ds done_ nodes cache :
  StronglySorted (cmp_lt relative_compare) (done_ ++ ds) → Forall path_wf ds →
  (∀ d q, d ∈ ds → q ≠ [] → above q d → q ∈ done_ ++ ds) →
  (∀ q n, nodes !! q = Some n ↔ q ∈ done_ ∧ n = SDirectory) →
  ∃ nodes', create_directories (E := E) ds (quiet nodes, cache) = (Ok (), (quiet nodes', cache)) ∧
    ∀ q n, nodes' !! q = Some n ↔ q ∈ done_ ++ ds ∧ n = SDirectory.
Proof.
  revert done_ nodes. induction ds as [|d ds IH]; intros done_ nodes Hs Hw Hpar Hn.
  { exists nodes. split; [done|]. by rewrite app_nil_r. }
  apply Forall_cons in Hw as [Hd Hw]. cbn [create_directories]. unfold st_bind at 1, on_stage at 1. cbn [fst snd].
  assert (nodes !! d = None) as Hnone.
  { apply eq_None_not_Some. intros [n [Hin _]%Hn]. pose proof (sorted_nodup _ Hs) as Hnd.
    apply NoDup_app in Hnd as (_ & Hdis & _). apply (Hdis d Hin). by left. }
  rewrite create_directory_quiet; [|done| |done].
  2: { intros q Hq Hab. apply Hn. split; [|done]. apply (sorted_before done_ d ds); [done| |by apply above_lt].
       apply (Hpar d); [by left|done|done]. }
  cbn [map_err]. destruct (IH (done_ ++ [d]) (<[d := SDirectory]> nodes)) as (nodes' & Hc & Hn').
  - by rewrite <-app_assoc.
  - done.
  - intros d' q Hd' Hq Hab. rewrite <-app_assoc. apply (Hpar d'); [by right|done|done].
  - intros q n. rewrite elem_of_app, list_elem_of_singleton. destruct (decide (q = d)) as [->|Hne].
    + rewrite lookup_insert_eq. naive_solver.
    + rewrite lookup_insert_ne, Hn by done. naive_solver.
  - exists nodes'. split; [done|]. intros q n. by rewrite Hn', <-app_assoc.
Qed.
Lemma materialize_entries_quiet source policy es nodes cache :
  NoDup (map pe_path es) →
  (∀ e, e ∈ es → supplied source policy (pe_object e) ∧ path_wf (pe_path e) ∧ parents_in nodes (pe_path e) ∧ nodes !! pe_path e = None) →
  is_ok (materialize_entries source policy es (quiet nodes, cache)).1 = true.
Proof.
  revert nodes cache. induction es as [|e es IH]; intros nodes cache Hnd Hes; [done|].
  cbn [map] in Hnd. apply NoDup_cons in Hnd as [Hnin Hnd]. destruct (Hes e) as (Hs & Hw & Hp & Hn); [by left|].
  cbn [materialize_entries]. destruct (materialize_entry_quiet source policy e nodes cache Hs Hw Hp Hn) as (node & cache' & He).
  unfold st_bind. rewrite He. apply IH; [done|]. intros e' He'. destruct (Hes e') as (Hs' & Hw' & Hp' & Hn'); [by right|].
  split_and!; [done|done|by apply parents_in_insert|]. rewrite lookup_insert_ne; [done|].
  intros Heq. destruct Hnin. rewrite Heq. by apply list_elem_of_fmap_2.
Qed.
Lemma path_wf_prefix q p : q ≠ [] → q `prefix_of` p → path_wf p → path_wf q.
Proof. intros Hq [k ->] [_ [Hw _]%Forall_app]. by split. Qed.

(** C38. A well-formed plan can always be materialized in an empty staging
    directory: when no call fails and the source supplies every entry, the
    directories come in an order in which their parents exist, no two nodes
    collide, and the materialization succeeds. *)
Theorem materialize_succeeds limits plan source policy cache :
  plan_wf limits plan → (∀ e, e ∈ plan_entries plan → supplied source policy (pe_object e)) →
  is_ok (materialize_raw plan source (Ok true) policy (quiet ∅, cache)).1 = true.
Proof.
  intros [Hsort Hpaths _ Hfree Hds Hd] Hsup. unfold materialize_raw, st_bind, st_lift, on_stage. cbn [map_err ensure fst snd].
  rewrite stage_call_quiet. rewrite bool_decide_eq_true_2 by done. cbn [map_err ensure fst snd duplicate_fd].
  unfold duplicate_fd. rewrite stage_call_quiet. cbn [map_err fst snd].
  assert (∀ q p, above q p → above p q → False) as Hasym.
  { intros q p H1%above_lt H2%above_lt. pose proof (ord_trans _ _ _ H1 H2) as H3. by rewrite (proj2 (ord_eq q q)) in H3. }
  destruct (create_directories_quiet (plan_directories plan) [] ∅ cache) as (nodes & -> & Hn); [done| | | |].
  - apply Forall_forall. intros d [Hne (e & He & Hab)]%Hd. apply (path_wf_prefix d (pe_path e)); [done|apply Hab|by apply Hpaths].
  - cbn. intros d q [Hne (e & He & Hne' & Hab)]%Hd Hq [Hqd Hab']. apply Hd. split; [done|]. exists e. split; [done|]. split.
    + intros ->. apply (Hasym d (pe_path e)); by split.
    + by etrans.
  - intros q n. rewrite lookup_empty. split; [done|]. intros [Hq _]. by apply elem_of_nil in Hq.
  - apply materialize_entries_quiet; [by apply sorted_nodup|]. intros e He. split_and!; [auto|by apply Hpaths| |].
    + intros q Hq Hab. apply Hn. split; [|done]. cbn. apply Hd. split; [done|]. by exists e.
    + apply eq_None_not_Some. intros [n [Hin _]%Hn]. cbn in Hin. apply Hd in Hin as [_ (e' & He' & Hab)].
      by apply (Hfree e e').
Qed.
End Materialize.

(** ** Publication *)

Section Publish.
Context {T : Type}.
Implicit Types (s : Shelf T).

(** Where the trees are: everything but the staged and the named tree, and the
    retired one, is as before. *)
Definition elsewhere_same (name : bytes) s s' : Prop :=
  (∀ n, n ≠ name → sh_workspaces s' !! n = sh_workspaces s !! n) ∧
  (∀ n, n ≠ retired_name name → sh_trash s' !! n = sh_trash s !! n).
(** What can be at the name, in staging and among the retired trees. *)
Inductive outcome (name : bytes) (staged : T) s s' : Prop :=
| unpublished : sh_staging s' = Some staged → sh_workspaces s' !! name = sh_workspaces s !! name →
    sh_trash s' = sh_trash s → outcome name staged s s'
| published_new : sh_workspaces s !! name = None → sh_staging s' = None → sh_workspaces s' !! name = Some staged →
    sh_trash s' = sh_trash s → outcome name staged s s'
| exchanged old : sh_workspaces s !! name = Some old → sh_staging s' = Some old →
    sh_workspaces s' !! name = Some staged → sh_trash s' = sh_trash s → outcome name staged s s'
| retired old : sh_workspaces s !! name = Some old → sh_trash s !! retired_name name = None →
    sh_staging s' = None → sh_workspaces s' !! name = Some staged →
    sh_trash s' !! retired_name name = Some old → outcome name staged s s'.

(** The trees of a shelf. *)
Definition trees s : option T * gmap bytes T * gmap bytes T := (sh_staging s, sh_workspaces s, sh_trash s).
Lemma shelf_call_inv act s r s' :
  shelf_call act s = (r, s') →
  (r = Ok () ∧ trees s' = trees (act s)) ∨ (∃ e, r = Err e ∧ trees s' = trees s).
Proof.
  unfold shelf_call. destruct (sh_faults s) as [|[e|] fs]; intros [= <- <-]; [left|right|left]; try done. by exists e.
Qed.
Lemma shelf_sync_trees s r s' : shelf_sync s = (r, s') → trees s' = trees s.
Proof. intros [[_ ?]|(e & _ & ?)]%shelf_call_inv; done. Qed.

(** The part of a publication that replaces a tree: nothing happened, the
    trees were exchanged, or the old one was also retired. *)
Lemma publish_over_inv name staged old s r s' :
  (_ ⇐ shelf_sync;
   _ ⇐ exchange staged old name;
   retired ⇐ st_get (λ s, sh_trash s !! retired_name name);
   _ ⇐ st_lift (ensure (negb (bool_decide (is_Some (retired : option T)))) DestinationExists);
   _ ⇐ rename_to_trash old (retired_name name);
   _ ⇐ shelf_sync;
   shelf_sync) s = (r, s') →
  (r ≠ Ok () ∧ trees s' = trees s) ∨
  (r ≠ Ok () ∧ trees s' = (Some old, <[name := staged]> (sh_workspaces s), sh_trash s)) ∨
  (trees s' = (None, <[name := staged]> (sh_workspaces s), <[retired_name name := old]> (sh_trash s)) ∧
   sh_trash s !! retired_name name = None).
Proof.
  unfold st_bind, st_get, st_lift. destruct (shelf_sync s) as [r1 s1] eqn:E1.
  pose proof (shelf_sync_trees _ _ _ E1) as Ht1. destruct r1 as [[]|e]; [|intros [= <- <-]; by left].
  destruct (exchange staged old name s1) as [r2 s2] eqn:E2. injection Ht1 as Hs1 Hw1 Htr1.
  apply shelf_call_inv in E2 as [[-> Ht2]|(e & -> & Ht2)]; injection Ht2 as Hs2 Hw2 Htr2; cbn in Hs2, Hw2, Htr2.
  2: { intros [= <- <-]. left. split; [done|]. unfold trees. congruence. }
  rewrite Hw1 in Hw2. rewrite Htr1 in Htr2. rewrite Htr2.
  case_bool_decide as Hex; cbn [negb ensure].
  { intros [= <- <-]. right. left. split; [done|]. unfold trees. congruence. }
  destruct (rename_to_trash old (retired_name name) s2) as [r3 s3] eqn:E3.
  apply shelf_call_inv in E3 as [[-> Ht3]|(e & -> & Ht3)]; injection Ht3 as Hs3 Hw3 Htr3; cbn in Hs3, Hw3, Htr3.
  2: { intros [= <- <-]. right. left. split; [done|]. unfold trees. congruence. }
  destruct (shelf_sync s3) as [r4 s4] eqn:E4. pose proof (shelf_sync_trees _ _ _ E4) as Ht4.
  intros Hp. right. right. apply eq_None_not_Some in Hex. split; [|done].
  assert (trees s' = trees s4) as ->.
  { destruct r4 as [[]|e]; [by apply shelf_sync_trees in Hp|by injection Hp as _ <-]. }
  rewrite Ht4. unfold trees. congruence.
Qed.

(** Publication of a staged workspace is atomic. Whichever of its calls
    fails, or wherever it stops: the name still has the tree it had, or already
    has the staged one, and is never without a tree it had before; no tree is
    lost, since the replaced one is still staged or in the trash; other names
    do not change. Success means that the staged tree has the name. *)
Theorem publish_atomic is_dir name replace s staged r s' :
  sh_staging s = Some staged → publish_workspace is_dir name replace s = (r, s') →
  elsewhere_same name s s' ∧ outcome name staged s s' ∧
  (r = Ok () → sh_workspaces s' !! name = Some staged ∧ sh_staging s' = None).
Proof.
  intros Hst. unfold publish_workspace. rewrite Hst.
  assert (∀ (e : WorkspacePublishError), (Err e, s) = (r, s') → elsewhere_same name s s' ∧ outcome name staged s s' ∧
    (r = Ok () → sh_workspaces s' !! name = Some staged ∧ sh_staging s' = None)) as Hsame.
  { intros e [= <- <-]. split_and!; try done. by apply unpublished. }
  destruct is_dir; cbn [negb]; [|apply Hsame]. destruct (sh_workspaces s !! name) as [old|] eqn:Hold.
  - case_decide; [apply Hsame|]. intros Hp. apply (publish_over_inv name staged old s r s') in Hp.
    destruct Hp as [[Hr Ht]|[[Hr Ht]|(Ht & Hfree)]]; injection Ht as Hs' Hw' Ht'; unfold elsewhere_same; rewrite ?Hw', ?Ht'.
    + split_and!; try done. apply unpublished; congruence.
    + split_and!; [intros; by apply lookup_insert_ne|done| |by intros ->].
      apply (exchanged _ _ _ _ old); rewrite ?Hw', ?lookup_insert_eq; done.
    + split_and!; [intros; by apply lookup_insert_ne|intros; by apply lookup_insert_ne| |].
      * apply (retired _ _ _ _ old); rewrite ?Hw', ?Ht', ?lookup_insert_eq; done.
      * intros _. by rewrite lookup_insert_eq.
  - intros Hp. unfold st_bind in Hp. destruct (rename_to_workspace staged name s) as [r1 s1] eqn:E1.
    apply shelf_call_inv in E1 as [[-> E1]|(e & -> & E1)]; injection E1 as Hs1 Hw1 Ht1.
    + apply shelf_sync_trees in Hp. injection Hp as Hs' Hw' Ht'. unfold elsewhere_same. rewrite Hw', Ht', Hw1, Ht1. cbn.
      split_and!; [intros; by apply lookup_insert_ne|done| |by intros _; rewrite lookup_insert_eq, Hs', Hs1].
      apply published_new; rewrite ?Hw', ?Ht', ?Hs', ?Hs1, ?Hw1, ?Ht1; cbn; rewrite ?lookup_insert_eq; done.
    + injection Hp as <- <-. unfold elsewhere_same. rewrite Hw1, Ht1. split_and!; try done. apply unpublished; congruence.
Qed.

(** When a tree of the same name was retired before and is still in the
    trash, an atomic replacement fails with [DestinationExists] although the
    staged tree already has the name, and leaves the replaced tree in staging. *)
Theorem replacement_fails_after_exchange name s staged old stale :
  sh_staging s = Some staged → sh_workspaces s !! name = Some old → sh_trash s !! retired_name name = Some stale →
  sh_faults s = [] →
  publish_workspace true name ReplaceAtomically s =
    (Err DestinationExists, mkShelf (Some old) (<[name := staged]> (sh_workspaces s)) (sh_trash s) []).
Proof.
  intros Hst Hold Htr Hf. unfold publish_workspace. rewrite Hst, Hold. cbn [negb]. rewrite decide_False by done.
  destruct s as [st ws tr fs]. cbn in *. subst fs. unfold st_bind, shelf_sync, exchange, shelf_call, st_get, st_lift.
  cbn. by rewrite Htr.
Qed.
End Publish.

(** ** Witnesses *)

Definition sample_oid : GitOid := mkGitOid Sha1 20 (zeros 32).
Definition sample_path : RelativePath := [b_ "docs"; b_ "a"].
Definition sample_tree : list (RelativePath * PlannedObject) :=
  [(sample_path, mkPlannedObject Symlink sample_oid); ([b_ "b"], mkPlannedObject Regular sample_oid)].
Definition sample_builder : CheckoutPlanBuilder := mkBuilder DEFAULT_CHECKOUT_LIMITS (list_to_map sample_tree).
Definition sample_plan : CheckoutPlan := finish sample_builder.
Lemma default_limits_wf : limits_wf DEFAULT_CHECKOUT_LIMITS.
Proof. split; vm_compute; congruence. Qed.
Lemma sample_accepted : add_all (Builder_new DEFAULT_CHECKOUT_LIMITS) sample_tree = Ok sample_builder.
Proof. vm_compute. reflexivity. Qed.
Lemma sample_names : path_wf sample_path ∧ path_wf [b_ "b"].
Proof. unfold path_wf, name_wf. apply (bool_decide_unpack _). vm_compute. exact I. Qed.
Lemma sample_built : built DEFAULT_CHECKOUT_LIMITS sample_builder.
Proof.
  pose proof sample_accepted as Ha. cbn [add_all sample_tree] in Ha.
  apply bind_Ok_inv in Ha as (b1 & H1 & Ha). apply bind_Ok_inv in Ha as (b2 & H2 & <-%Ok_inj).
  eapply built_add, H2; [|apply sample_names]. eapply built_add, H1; [|apply sample_names]. apply built_new.
Qed.
Lemma plan_order_independent_witness :
  ∃ b', add_all (Builder_new DEFAULT_CHECKOUT_LIMITS) (reverse sample_tree) = Ok b' ∧ finish b' = sample_plan.
Proof.
  apply (plan_order_independent DEFAULT_CHECKOUT_LIMITS sample_tree (reverse sample_tree) sample_builder default_limits_wf).
  - symmetry. apply reverse_Permutation.
  - exact sample_accepted.
Defined.
Lemma plan_well_formed_witness : plan_wf DEFAULT_CHECKOUT_LIMITS sample_plan.
Proof. apply (plan_well_formed DEFAULT_CHECKOUT_LIMITS sample_builder default_limits_wf sample_built). Defined.

(** A source of one blob, already cached. *)
Definition sample_blob : bytes := b_ "hello".
Definition sample_id : ContentId := @ContentId_for_object toy_digests Blob sample_blob.
Definition cached : Cache := mkCache {[ sample_id := LRegular sample_blob ]} [] [].
#[local] Instance sample_source : RawCheckoutSource unit unit := {|
  blob_content_id _ _ := λ _, (Ok sample_id, cached);
  blob_bytes _ _ := Ok sample_blob |}.
Lemma sample_plan_wf : plan_wf DEFAULT_CHECKOUT_LIMITS sample_plan.
Proof. apply finish_wf, built_wf; [exact default_limits_wf|exact sample_built]. Qed.
Lemma sample_supplied e : @supplied toy_digests unit unit sample_source () EmptyDirectory (pe_object e).
Proof.
  unfold supplied. destruct (po_mode (pe_object e)); cbn.
  - intros _. exists sample_id, cached, sample_blob. split; [done|]. vm_compute. reflexivity.
  - intros _. exists sample_id, cached, sample_blob. split; [done|]. vm_compute. reflexivity.
  - exists sample_blob. split; [done|]. by apply (bool_decide_unpack _).
  - done.
Qed.
Lemma materialize_succeeds_witness :
  is_ok (@materialize_raw toy_digests unit unit sample_source sample_plan () (Ok true) EmptyDirectory (quiet ∅, cached)).1 = true.
Proof.
  apply (@materialize_succeeds toy_digests unit unit sample_source DEFAULT_CHECKOUT_LIMITS sample_plan () EmptyDirectory cached
    sample_plan_wf).
  intros e _. apply sample_supplied.
Defined.
Lemma materialize_exact_witness :
  ∃ u x', @materialize_raw toy_digests unit unit sample_source sample_plan () (Ok true) EmptyDirectory (quiet ∅, cached) = (Ok u, x') ∧
    ∀ d, d ∈ plan_directories sample_plan → sg_nodes x'.1 !! d = Some SDirectory.
Proof.
  destruct (@materialize_raw toy_digests unit unit sample_source sample_plan () (Ok true) EmptyDirectory (quiet ∅, cached))
    as [[u|e] x'] eqn:Hm.
  - exists u, x'. split; [done|].
    exact (proj1 (@materialize_exact toy_digests unit unit sample_source sample_plan () (Ok true) EmptyDirectory _ u x' Hm)).
  - apply (f_equal (λ r, is_ok r.1)) in Hm. vm_compute in Hm. done.
Defined.

Definition sample_shelf : Shelf Z :=
  mkShelf (Some 2) {[ b_ "work" := 1 ]} {[ retired_name (b_ "work") := 0 ]} [].
Lemma replacement_fails_after_exchange_witness :
  publish_workspace true (b_ "work") ReplaceAtomically sample_shelf =
    (Err DestinationExists, mkShelf (Some 1) (<[b_ "work" := 2]> (sh_workspaces sample_shelf)) (sh_trash sample_shelf) []).
Proof. apply (replacement_fails_after_exchange (b_ "work") sample_shelf 2 1 0); reflexivity. Defined.
Lemma publish_atomic_witness :
  elsewhere_same (b_ "work") sample_shelf (publish_workspace true (b_ "work") ReplaceAtomically sample_shelf).2.
Proof.
  apply (publish_atomic true (b_ "work") ReplaceAtomically sample_shelf 2
    (publish_workspace true (b_ "work") ReplaceAtomically sample_shelf).1 (publish_workspace true (b_ "work") ReplaceAtomically sample_shelf).2);
    [reflexivity|]. by destruct (publish_workspace true (b_ "work") ReplaceAtomically sample_shelf).
Defined.
End MaterializeSpec.
