(* ===== verification/Workspace.v ===== *)
(** * Workspace manifests: [reflink-forest-workspace/src/lib.rs]

    The durable description of a published workspace: its fields, validation
    and codec, and its files. *)

From Stdlib Require Import ZArith Lia Strings.Byte Strings.String.
From stdpp Require Import base tactics list gmap strings.
From S2P Require Import Prelude Order Core Format Codec CatalogCodec Catalog Chunk Disk Store Git Reader Cache Checkout.
Import Core Codec CatalogCodec Catalog Chunk Disk Store Git Reader.

#[local] Open Scope Z_scope.
#[local] Open Scope parser_scope.

Module Workspace.

Definition WORKSPACE_MANIFEST_VERSION : Z := 1.
Definition WORKSPACE_MANIFEST_SUFFIX : bytes := b_ ".workspace-v1".
Definition WORKSPACE_MANIFEST_MAGIC : bytes := b_ "RFWORK" ++ [x00; x00].
Definition MAX_WORKSPACE_MANIFEST_BYTES : Z := 64 * 1024.
Definition MAX_WORKSPACE_OPTIONAL_FIELDS : Z := 128.
Definition MAX_WORKSPACE_OPTIONAL_FIELD_BYTES : Z := 16 * 1024.

Record WorkspaceOptionalField := mkWField { wf_tag : Z; wf_value : bytes }.
Record WorkspaceManifest := mkWorkspaceManifest {
  wm_workspace_id : WorkspaceId;
  wm_repository : RepoId;
  wm_snapshot_id : bytes;
  wm_commit : GitOid;
  wm_generation : Z;
  wm_name : bytes;
  wm_created_unix_secs : Z;
  wm_directories : Z;
  wm_regular_files : Z;
  wm_executable_files : Z;
  wm_symlinks : Z;
  wm_gitlinks : Z;
  wm_reflinked_regular_files : Z;
  wm_copied_regular_files : Z;
  wm_optional_fields : list WorkspaceOptionalField }.
Record WorkspaceManifestInput := mkInput {
  wi_workspace_id : WorkspaceId; wi_repository : RepoId; wi_snapshot_id : bytes; wi_commit : GitOid;
  wi_generation : Z; wi_name : bytes; wi_created_unix_secs : Z }.
#[export] Instance WorkspaceOptionalField_eq_dec : EqDecision WorkspaceOptionalField.
Proof. solve_decision. Defined.
#[export] Instance WorkspaceManifest_eq_dec : EqDecision WorkspaceManifest.
Proof. solve_decision. Defined.

Inductive WorkspaceManifestError :=
| WmIo (e : IoErrorKind)
| WmInvalid
| WmUnsupportedVersion (version : Z)
| WmLengthOverflow
| WmAlreadyExists.
#[export] Instance WorkspaceManifestError_eq_dec : EqDecision WorkspaceManifestError.
Proof. solve_decision. Defined.
Abbreviation WResult := (result WorkspaceManifestError).

(** ** Validation *)

Fixpoint validate_fields (before : list Z) (fields : list WorkspaceOptionalField) : WResult unit :=
  match fields with
  | [] => Ok ()
  | f :: fields =>
      _ ← ensure (bool_decide (wf_tag f ≠ 0) && bool_decide (blen (wf_value f) ≤ MAX_WORKSPACE_OPTIONAL_FIELD_BYTES) &&
                  bool_decide (wf_tag f ∉ before)) WmInvalid;
      validate_fields (before ++ [wf_tag f]) fields
  end.
(** The name is UTF-8 whenever [WorkspaceName::new] accepts it. *)
Definition validate (m : WorkspaceManifest) : WResult unit :=
  _ ← map_err (λ _, WmInvalid) (Checkout.WorkspaceName_new (wm_name m));
  total ← ok_or (checked_add (wm_regular_files m) (wm_executable_files m)) WmLengthOverflow;
  _ ← ensure (bool_decide (wm_copied_regular_files m ≤ total) && bool_decide (wm_reflinked_regular_files m ≤ total) &&
              bool_decide (checked_add (wm_copied_regular_files m) (wm_reflinked_regular_files m) = Some total) &&
              bool_decide (Z.of_nat (length (wm_optional_fields m)) ≤ MAX_WORKSPACE_OPTIONAL_FIELDS)) WmInvalid;
  validate_fields [] (wm_optional_fields m).

Definition set_fields (m : WorkspaceManifest) (fields : list WorkspaceOptionalField) : WorkspaceManifest :=
  mkWorkspaceManifest (wm_workspace_id m) (wm_repository m) (wm_snapshot_id m) (wm_commit m) (wm_generation m)
    (wm_name m) (wm_created_unix_secs m) (wm_directories m) (wm_regular_files m) (wm_executable_files m)
    (wm_symlinks m) (wm_gitlinks m) (wm_reflinked_regular_files m) (wm_copied_regular_files m) fields.
(** The field stays even when the validation of the result fails. *)
Definition add_optional_field (m : WorkspaceManifest) (f : WorkspaceOptionalField) : WResult unit * WorkspaceManifest :=
  if bool_decide (wf_tag f = 0) || bool_decide (MAX_WORKSPACE_OPTIONAL_FIELD_BYTES < blen (wf_value f)) ||
     bool_decide (wf_tag f ∈ map wf_tag (wm_optional_fields m)) then (Err WmInvalid, m)
  else let m := set_fields m (wm_optional_fields m ++ [f]) in (validate m, m).

(** The counters of [from_plan]: regular, executable, symbolic and Git links. *)
Record ModeCounts := mkCounts { mc_regular : Z; mc_executable : Z; mc_symlinks : Z; mc_gitlinks : Z }.
Definition count_mode (mode : Checkout.TreeEntryMode) (c : ModeCounts) : WResult ModeCounts :=
  let add n := ok_or (checked_add n 1) WmLengthOverflow in
  match mode with
  | Checkout.Regular => n ← add (mc_regular c); Ok (mkCounts n (mc_executable c) (mc_symlinks c) (mc_gitlinks c))
  | Checkout.Executable => n ← add (mc_executable c); Ok (mkCounts (mc_regular c) n (mc_symlinks c) (mc_gitlinks c))
  | Checkout.Symlink => n ← add (mc_symlinks c); Ok (mkCounts (mc_regular c) (mc_executable c) n (mc_gitlinks c))
  | Checkout.Gitlink => n ← add (mc_gitlinks c); Ok (mkCounts (mc_regular c) (mc_executable c) (mc_symlinks c) n)
  end.
Fixpoint count_modes (entries : list Checkout.PlannedEntry) (c : ModeCounts) : WResult ModeCounts :=
  match entries with
  | [] => Ok c
  | e :: entries => c ← count_mode (Checkout.po_mode (Checkout.pe_object e)) c; count_modes entries c
  end.
Definition from_plan (input : WorkspaceManifestInput) (plan : Checkout.CheckoutPlan) : WResult WorkspaceManifest :=
  c ← count_modes (Checkout.plan_entries plan) (mkCounts 0 0 0 0);
  reflinked ← ok_or (checked_add (mc_regular c) (mc_executable c)) WmLengthOverflow;
  directories ← ok_or (u64_try_from (Z.of_nat (length (Checkout.plan_directories plan)))) WmLengthOverflow;
  let m := mkWorkspaceManifest (wi_workspace_id input) (wi_repository input) (wi_snapshot_id input) (wi_commit input)
             (wi_generation input) (wi_name input) (wi_created_unix_secs input) directories (mc_regular c)
             (mc_executable c) (mc_symlinks c) (mc_gitlinks c) reflinked 0 [] in
  _ ← validate m;
  Ok m.

(** ** Encoding *)

Definition encode_field (f : WorkspaceOptionalField) : WResult bytes :=
  value_len ← ok_or (u32_try_from (blen (wf_value f))) WmLengthOverflow;
  Ok (be_encode 2 (wf_tag f) ++ be_encode 4 value_len ++ wf_value f).
Fixpoint encode_fields (fields : list WorkspaceOptionalField) : WResult bytes :=
  match fields with
  | [] => Ok []
  | f :: fields => b ← encode_field f; rest ← encode_fields fields; Ok (b ++ rest)
  end.
Definition counts (m : WorkspaceManifest) : list Z :=
  [wm_directories m; wm_regular_files m; wm_executable_files m; wm_symlinks m; wm_gitlinks m;
   wm_reflinked_regular_files m; wm_copied_regular_files m].
Definition encode_workspace_manifest (m : WorkspaceManifest) : WResult bytes :=
  _ ← validate m;
  name_len ← ok_or (u16_try_from (blen (wm_name m))) WmLengthOverflow;
  optional_count ← ok_or (u16_try_from (Z.of_nat (length (wm_optional_fields m)))) WmLengthOverflow;
  fields ← encode_fields (wm_optional_fields m);
  let oid := oid_as_bytes (wm_commit m) in
  let bytes :=
    WORKSPACE_MANIFEST_MAGIC ++ be_encode 2 WORKSPACE_MANIFEST_VERSION ++
    ws_bytes (wm_workspace_id m) ++ repo_bytes (wm_repository m) ++ wm_snapshot_id m ++
    be_encode 1 (alg_tag (algorithm (wm_commit m))) ++ be_encode 1 (Core.len (wm_commit m)) ++
    oid ++ zeros (32 - length oid) ++
    be_encode 4 (wm_generation m) ++ be_encode 8 (wm_created_unix_secs m) ++
    be_encode 2 name_len ++ wm_name m ++ concat (map (be_encode 8) (counts m)) ++
    be_encode 2 optional_count ++ fields in
  _ ← ensure (bool_decide (blen bytes ≤ MAX_WORKSPACE_MANIFEST_BYTES)) WmLengthOverflow;
  Ok bytes.

(** ** Decoding *)

Abbreviation w_take := (p_take WmLengthOverflow WmInvalid).
Abbreviation w_uint := (p_uint WmLengthOverflow WmInvalid).
Definition w_ensure (c : bool) : Parser WorkspaceManifestError unit := p_lift (ensure c WmInvalid).

Definition decode_commit : Parser WorkspaceManifestError GitOid :=
  a ⇠ (t ⇠ w_uint 1; p_lift (ok_or (alg_from_tag t) WmInvalid));
  oid_length ⇠ w_uint 1;
  _ ⇠ w_ensure (bool_decide (oid_length = oid_len a));
  oid_bytes ⇠ w_take 32;
  _ ⇠ w_ensure (all_zero (drop (Z.to_nat oid_length) oid_bytes));
  p_lift (map_err (λ _, WmInvalid) (GitOid_new a (take (Z.to_nat oid_length) oid_bytes))).
(** One optional field, and the loop over them, with the tags before. *)
Definition decode_field (before : list Z) : Parser WorkspaceManifestError WorkspaceOptionalField :=
  tag ⇠ w_uint 2;
  length ⇠ w_uint 4;
  _ ⇠ w_ensure (bool_decide (tag ≠ 0) && bool_decide (length ≤ MAX_WORKSPACE_OPTIONAL_FIELD_BYTES));
  value ⇠ w_take length;
  _ ⇠ w_ensure (bool_decide (tag ∉ before));
  p_ret (mkWField tag value).
Fixpoint decode_fields (n : nat) (before : list Z) : Parser WorkspaceManifestError (list WorkspaceOptionalField) :=
  match n with
  | O => p_ret []
  | S n =>
      field ⇠ decode_field before;
      fields ⇠ decode_fields n (before ++ [wf_tag field]);
      p_ret (field :: fields)
  end.
Definition decode_manifest : Parser WorkspaceManifestError WorkspaceManifest :=
  magic ⇠ w_take 8;
  _ ⇠ w_ensure (bool_decide (magic = WORKSPACE_MANIFEST_MAGIC));
  version ⇠ w_uint 2;
  _ ⇠ p_lift (ensure (bool_decide (version = WORKSPACE_MANIFEST_VERSION)) (WmUnsupportedVersion version));
  workspace_id ⇠ w_take 16;
  repository ⇠ w_take 16;
  snapshot_id ⇠ w_take 16;
  commit ⇠ decode_commit;
  generation ⇠ w_uint 4;
  created ⇠ w_uint 8;
  name_len ⇠ w_uint 2;
  _ ⇠ w_ensure (bool_decide (name_len ≤ 128));
  name ⇠ w_take name_len;
  directories ⇠ w_uint 8;
  regular_files ⇠ w_uint 8;
  executable_files ⇠ w_uint 8;
  symlinks ⇠ w_uint 8;
  gitlinks ⇠ w_uint 8;
  reflinked ⇠ w_uint 8;
  copied ⇠ w_uint 8;
  optional_count ⇠ w_uint 2;
  _ ⇠ w_ensure (bool_decide (optional_count ≤ MAX_WORKSPACE_OPTIONAL_FIELDS));
  fields ⇠ decode_fields (Z.to_nat optional_count) [];
  p_ret (mkWorkspaceManifest (mkWorkspaceId workspace_id) (mkRepoId repository) snapshot_id commit generation name
           created directories regular_files executable_files symlinks gitlinks reflinked copied fields).
Definition decode_workspace_manifest (b : bytes) : WResult WorkspaceManifest :=
  _ ← ensure (bool_decide (blen b ≤ MAX_WORKSPACE_MANIFEST_BYTES) && bool_decide (8 + 2 ≤ blen b)) WmInvalid;
  r ← (m ⇠ decode_manifest;
       done ⇠ p_is_empty;
       _ ⇠ p_lift (ensure done WmInvalid);
       p_ret m) (reader_new b);
  _ ← validate r.1;
  Ok r.1.

(** ** Files *)

Definition workspace_id_hex (id : WorkspaceId) : bytes := Cache.hex (ws_bytes id).
Definition workspace_manifest_path (root : bytes) (id : WorkspaceId) : Path :=
  mkPath root (workspace_id_hex id) (Some "workspace-v1"%string).

Abbreviation WIO := (ST Disk WorkspaceManifestError).
Definition on_disk {A} (m : DiskIO A) : WIO A := st_map_err WmIo m.
(** [candidates] are the names made of the process, the clock and the attempt. *)
Fixpoint temporary_manifest_path (candidates : list Path) : WIO Path :=
  match candidates with
  | [] => st_lift (Err WmAlreadyExists)
  | candidate :: candidates =>
      exists_ ⇐ st_get (λ d, path_exists d candidate);
      if exists_ : bool then temporary_manifest_path candidates else st_ret candidate
  end.
Definition write_workspace_manifest (root : bytes) (candidates : list Path) (m : WorkspaceManifest) : WIO Path :=
  _ ⇐ st_lift (validate m);
  _ ⇐ on_disk (create_dir_all root);
  let destination := workspace_manifest_path root (wm_workspace_id m) in
  exists_ ⇐ st_get (λ d, path_exists d destination);
  _ ⇐ st_lift (ensure (negb exists_) WmAlreadyExists);
  bytes ⇐ st_lift (encode_workspace_manifest m);
  temporary ⇐ temporary_manifest_path candidates;
  λ d,
    match (file ⇐ on_disk (create_new temporary);
           _ ⇐ on_disk (write_at file 0 bytes);
           _ ⇐ on_disk (sync_file file);
           _ ⇐ on_disk (rename temporary destination);
           on_disk (sync_all_directory root)) d with
    | (Ok _, d) => (Ok destination, d)
    | (Err e, d) => (Err e, (remove_file temporary d).2)
    end.
(** Manifests are regular files. *)
Definition read_workspace_manifest (path : Path) : WIO WorkspaceManifest :=
  metadata ⇐ on_disk (open_file path);
  size ⇐ st_get (λ d, blen (data d metadata));
  _ ⇐ st_lift (ensure (bool_decide (size ≤ MAX_WORKSPACE_MANIFEST_BYTES)) WmInvalid);
  file ⇐ on_disk (open_file path);
  bytes ⇐ on_disk (read_file file);
  st_lift (decode_workspace_manifest bytes).
Definition ensure_workspace_manifest (root : bytes) (candidates : list Path) (m : WorkspaceManifest) : WIO Path := λ d,
  let path := workspace_manifest_path root (wm_workspace_id m) in
  match read_workspace_manifest path d with
  | (Ok existing, d) => (if decide (existing = m) then Ok path else Err WmInvalid, d)
  | (Err (WmIo NotFound), d) => write_workspace_manifest root candidates m d
  | (Err e, d) => (Err e, d)
  end.
End Workspace.
