(* ===== verification/WorkspaceSpec.v ===== *)
(** * What workspace manifests guarantee *)

From Stdlib Require Import ZArith Lia Strings.Byte Strings.String.
From stdpp Require Import base tactics list gmap strings.
From S2P Require Import Prelude Order Core Format Codec CatalogCodec Catalog Chunk Disk Store Git Reader Cache Checkout Workspace.
Import Core Codec CatalogCodec Catalog Chunk Disk Store Git Reader Workspace.

#[local] Open Scope Z_scope.

Module WorkspaceSpec.

#[local] Set Warnings "-clear-no-such-hyp".

(** ** The codec *)

Lemma w_uint1 : exact (p_uint WmLengthOverflow WmInvalid 1) (be_encode 1) is_u8.
Proof. by apply (exact_uint _ _ 1); lia. Qed.
Lemma w_uint2 : exact (p_uint WmLengthOverflow WmInvalid 2) (be_encode 2) is_u16.
Proof. by apply (exact_uint _ _ 2); lia. Qed.
Lemma w_uint4 : exact (p_uint WmLengthOverflow WmInvalid 4) (be_encode 4) is_u32.
Proof. by apply (exact_uint _ _ 4); lia. Qed.
Lemma w_uint8 : exact (p_uint WmLengthOverflow WmInvalid 8) (be_encode 8) is_u64.
Proof. by apply (exact_uint _ _ 8); lia. Qed.

Lemma oid_padded o : GitOid_wf o → oid_as_bytes o ++ zeros (32 - length (oid_as_bytes o)) = raw o.
Proof.
  intros Hwf. pose proof (length_oid_as_bytes o Hwf) as Hlen. destruct Hwf as (Hl & Hr & Ht).
  assert (length (oid_as_bytes o) = Z.to_nat (Core.len o)) as -> by (rewrite <-Hl in Hlen; lia).
  rewrite <-Ht. unfold oid_as_bytes. apply take_drop.
Qed.
Definition decode_oid (a : HashAlgorithm) (n : Z) : Parser WorkspaceManifestError GitOid :=
  p_bind (p_take WmLengthOverflow WmInvalid 32) (λ b,
  p_bind (w_ensure (all_zero (drop (Z.to_nat n) b))) (λ _,
  p_lift (map_err (λ _, WmInvalid) (GitOid_new a (take (Z.to_nat n) b))))).
Lemma w_oid_exact a n : n = oid_len a → exact (decode_oid a n) raw (λ o, GitOid_wf o ∧ algorithm o = a).
Proof.
  intros -> r b Hr. pose proof (oid_len_bounds a) as Hol.
  destruct (exact_take WmLengthOverflow WmInvalid 32 ltac:(lia) r b Hr) as [H1' H2'].
  unfold decode_oid, p_bind, w_ensure, p_lift. split.
  - intros o r'. destruct (p_take _ _ _ r) as [[x r1]|]; [|done].
    destruct (H1' x r1 eq_refl) as (Hx & b' & -> & Hr1).
    destruct (all_zero _) eqn:Hz; cbn [ensure]; [|done].
    destruct (GitOid_new a _) as [o'|] eqn:Ho; [|done]. cbn. intros Heq. injection Heq as <- <-.
    apply GitOid_new_wf in Ho as (Hwf & Ha & Hb). split; [done|]. exists b'. split; [|done]. f_equal.
    rewrite <-(oid_padded o') by done. rewrite Hb, length_take. unfold blen in Hx.
    rewrite <-(take_drop (Z.to_nat (oid_len a)) x) at 1. f_equal.
    apply all_zero_spec in Hz. rewrite Hz, length_drop. f_equal. lia.
  - intros o b' [Hwf Ha] Hb. destruct (H2' (raw o) b') as (r1 & -> & Hr1); [|done|].
    + destruct Hwf as (_ & Hr' & _). unfold blen. lia.
    + pose proof Hwf as (Hl & Hrw & Ht). rewrite <-Ha, <-Hl.
      assert (all_zero (drop (Z.to_nat (Core.len o)) (raw o)) = true) as -> by (rewrite Ht; apply all_zero_zeros).
      cbn [ensure]. fold (oid_as_bytes o). rewrite GitOid_new_as_bytes by done. by exists r1.
Qed.

Definition commit_layout (o : GitOid) : bytes :=
  be_encode 1 (alg_tag (algorithm o)) ++ be_encode 1 (oid_len (algorithm o)) ++ raw o.
Lemma w_algorithm_exact :
  exact (p_bind (p_uint WmLengthOverflow WmInvalid 1) (λ t, p_lift (ok_or (alg_from_tag t) WmInvalid)))
    (λ a, be_encode 1 (alg_tag a)) (λ _, True).
Proof.
  apply (exact_tag _ 1 (λ t, ok_or (alg_from_tag t) WmInvalid) alg_tag w_uint1 alg_tag_u8).
  intros t a. split.
  - intros Ha%ok_or_Ok_inv. by apply alg_from_tag_inv.
  - intros ->. by rewrite alg_from_to_tag.
Qed.
Lemma decode_commit_exact : exact decode_commit commit_layout GitOid_wf.
Proof.
  apply reads_exact. unfold decode_commit.
  eapply (reads_iff _ _ _ _ (λ o, True ∧ is_u8 (oid_len (algorithm o)) ∧ True ∧ GitOid_wf o)).
  - eapply (reads_field _ _ _ _ algorithm _ _ _ w_algorithm_exact). intros a _.
    eapply (reads_field _ _ _ _ (λ o, oid_len (algorithm o)) _ _ _ w_uint1). intros n Hn.
    eapply (reads_ensure _ _ (λ _, True)); [intros w Hw; rewrite bool_decide_eq_true_2; [done|]|].
    { destruct Hw as [[_ <-] <-]. done. }
    intros Hla%bool_decide_eq_true. apply (exact_iff _ raw _ _ _ (w_oid_exact a n Hla)); [|done].
    intros o. split; [|tauto]. intros [Hwf Ha]. split; [|exact Hwf]. split; [by split|]. by rewrite Ha.
  - intros o _. cbn. pose proof (oid_len_bounds (algorithm o)). unfold in_width.
    split; [tauto|]. intros Hwf. split_and!; try done; lia.
  - done.
Qed.

Definition field_layout (f : WorkspaceOptionalField) : bytes :=
  be_encode 2 (wf_tag f) ++ be_encode 4 (blen (wf_value f)) ++ wf_value f.
Lemma validate_fields_cons before f fields :
  validate_fields before (f :: fields) = Ok () ↔
    (wf_tag f ≠ 0 ∧ blen (wf_value f) ≤ MAX_WORKSPACE_OPTIONAL_FIELD_BYTES) ∧ (wf_tag f ∉ before) ∧
    validate_fields (before ++ [wf_tag f]) fields = Ok ().
Proof.
  cbn [validate_fields]. split.
  - intros Hv. apply bind_Ok_inv in Hv as ([] & Hc%ensure_Ok_inv & Hv).
    apply andb_true_iff in Hc as [Hc Hb%bool_decide_eq_true]. apply andb_true_iff in Hc as [Ht%bool_decide_eq_true Hl%bool_decide_eq_true].
    done.
  - intros ([Ht Hl] & Hb & Hv). rewrite !bool_decide_eq_true_2 by done. done.
Qed.
Definition field_ok (before : list Z) (f : WorkspaceOptionalField) : Prop :=
  is_u16 (wf_tag f) ∧ (wf_tag f ≠ 0 ∧ blen (wf_value f) ≤ MAX_WORKSPACE_OPTIONAL_FIELD_BYTES) ∧ (wf_tag f ∉ before).
Lemma w_decode_field_exact before : exact (decode_field before) field_layout (field_ok before).
Proof.
  apply reads_exact. unfold decode_field. eapply reads_iff.
  - eapply (reads_field _ _ _ _ wf_tag _ _ _ w_uint2). intros tag _.
    eapply (reads_field _ _ _ _ (λ f, blen (wf_value f)) _ _ _ w_uint4). intros n Hn.
    eapply (reads_ensure _ _ (λ f, wf_tag f ≠ 0 ∧ blen (wf_value f) ≤ MAX_WORKSPACE_OPTIONAL_FIELD_BYTES)).
    { intros w [[_ <-] <-]. by rewrite andb_true_iff, !bool_decide_eq_true. }
    intros _. eapply (reads_sized _ _ _ _ wf_value); [unfold in_width in Hn; lia|intros w Hw; apply Hw|]. intros v Hv.
    eapply (reads_ensure _ _ (λ f, wf_tag f ∉ before)).
    { intros w [[[_ <-] _] _]. by rewrite bool_decide_eq_true. }
    intros _. reads_end.
  - intros f _. unfold field_ok, MAX_WORKSPACE_OPTIONAL_FIELD_BYTES, in_width, blen. cbn.
    split; [intros; destruct_and?; split_and!; done || lia|intros; destruct_and?; split_and!; done || lia].
  - intros f _ _. unfold field_layout. by rewrite app_nil_r.
Qed.
Lemma decode_fields_exact n : ∀ before,
  exact (decode_fields n before) (λ l, concat (map field_layout l))
    (λ l, length l = n ∧ Forall (λ f, is_u16 (wf_tag f)) l ∧ validate_fields before l = Ok ()).
Proof.
  induction n as [|n IH]; intros before; cbn [decode_fields]; intros r b Hr.
  { unfold p_ret. split.
    - intros v r' Heq. injection Heq as <- <-. split; [done|]. by exists b.
    - intros v b' [Hv _] ->. destruct v; [|done]. by exists r. }
  unfold p_bind, p_ret. destruct (w_decode_field_exact before r b Hr) as [H1' H2']. split.
  - intros v r'. destruct (decode_field before r) as [[f r1]|]; [|done].
    destruct (H1' f r1 eq_refl) as ((Hu & Hs & Hb) & b1 & -> & Hr1).
    destruct (IH (before ++ [wf_tag f]) r1 b1 Hr1) as [Hi1 _].
    destruct (decode_fields n _ r1) as [[l r2]|]; [|done]. intros Heq. injection Heq as <- <-.
    destruct (Hi1 l r2 eq_refl) as ((Hl & Hall & Hv) & b2 & -> & Hr2). split.
    + split_and!; [cbn; lia|by constructor|]. by apply validate_fields_cons.
    + exists b2. cbn [map concat]. by rewrite <-app_assoc.
  - intros [|f l] b' (Hl & Hall & Hv) Hb; [done|]. apply Forall_cons in Hall as [Hu Hall].
    apply validate_fields_cons in Hv as (Hs & Hnb & Hv). cbn [map concat] in Hb. rewrite <-app_assoc in Hb.
    destruct (H2' f _ (conj Hu (conj Hs Hnb)) Hb) as (r1 & -> & Hr1).
    destruct (IH (before ++ [wf_tag f]) r1 _ Hr1) as [_ Hi2].
    destruct (Hi2 l b') as (r2 & -> & Hr2); [|done|by exists r2]. split_and!; try done. cbn in Hl. lia.
Qed.

(** What the types of the fields guarantee. *)
Definition manifest_wf (m : WorkspaceManifest) : Prop :=
  WorkspaceId_wf (wm_workspace_id m) ∧ RepoId_wf (wm_repository m) ∧ length (wm_snapshot_id m) = 16%nat ∧
  GitOid_wf (wm_commit m) ∧ is_u32 (wm_generation m) ∧ is_u64 (wm_created_unix_secs m) ∧
  Forall is_u64 (counts m) ∧ Forall (λ f, is_u16 (wf_tag f)) (wm_optional_fields m).
Definition manifest_layout (m : WorkspaceManifest) : bytes :=
  WORKSPACE_MANIFEST_MAGIC ++ be_encode 2 WORKSPACE_MANIFEST_VERSION ++
  ws_bytes (wm_workspace_id m) ++ repo_bytes (wm_repository m) ++ wm_snapshot_id m ++ commit_layout (wm_commit m) ++
  be_encode 4 (wm_generation m) ++ be_encode 8 (wm_created_unix_secs m) ++
  be_encode 2 (blen (wm_name m)) ++ wm_name m ++ concat (map (be_encode 8) (counts m)) ++
  be_encode 2 (Z.of_nat (length (wm_optional_fields m))) ++ concat (map field_layout (wm_optional_fields m)).
(** What the decoder checks before the validation. *)
Definition manifest_fits (m : WorkspaceManifest) : Prop :=
  manifest_wf m ∧ blen (wm_name m) ≤ 128 ∧ Z.of_nat (length (wm_optional_fields m)) ≤ MAX_WORKSPACE_OPTIONAL_FIELDS ∧
  validate_fields [] (wm_optional_fields m) = Ok ().

Lemma w_decode_manifest_exact : exact decode_manifest manifest_layout manifest_fits.
Proof.
  apply reads_exact. unfold decode_manifest, w_ensure. eapply reads_iff.
  - eapply (reads_const _ _ _ _ WORKSPACE_MANIFEST_MAGIC); [by apply exact_take|done| |].
    { intros a _. apply bool_decide_eq_true. }
    eapply (reads_const _ _ _ _ WORKSPACE_MANIFEST_VERSION _ _ _ _ _ w_uint2); [done| |].
    { intros a _. apply bool_decide_eq_true. }
    eapply (reads_field _ _ _ _ (λ m, ws_bytes (wm_workspace_id m))); [by apply exact_take|]. intros wid _.
    eapply (reads_field _ _ _ _ (λ m, repo_bytes (wm_repository m))); [by apply exact_take|]. intros repo _.
    eapply (reads_field _ _ _ _ wm_snapshot_id); [by apply exact_take|]. intros snap _.
    eapply (reads_field _ _ _ _ wm_commit _ _ _ decode_commit_exact). intros commit _.
    eapply (reads_field _ _ _ _ wm_generation _ _ _ w_uint4). intros gen _.
    eapply (reads_field _ _ _ _ wm_created_unix_secs _ _ _ w_uint8). intros created _.
    eapply (reads_field _ _ _ _ (λ m, blen (wm_name m)) _ _ _ w_uint2). intros n Hn.
    eapply (reads_ensure _ _ (λ m, blen (wm_name m) ≤ 128)); [intros w [_ <-]; apply bool_decide_eq_true|intros _].
    eapply (reads_sized _ _ _ _ wm_name); [unfold in_width in Hn; lia|intros w Hw; apply Hw|]. intros name Hname.
    eapply (reads_field _ _ _ _ wm_directories _ _ _ w_uint8). intros c1 _.
    eapply (reads_field _ _ _ _ wm_regular_files _ _ _ w_uint8). intros c2 _.
    eapply (reads_field _ _ _ _ wm_executable_files _ _ _ w_uint8). intros c3 _.
    eapply (reads_field _ _ _ _ wm_symlinks _ _ _ w_uint8). intros c4 _.
    eapply (reads_field _ _ _ _ wm_gitlinks _ _ _ w_uint8). intros c5 _.
    eapply (reads_field _ _ _ _ wm_reflinked_regular_files _ _ _ w_uint8). intros c6 _.
    eapply (reads_field _ _ _ _ wm_copied_regular_files _ _ _ w_uint8). intros c7 _.
    eapply (reads_field _ _ _ _ (λ m, Z.of_nat (length (wm_optional_fields m))) _ _ _ w_uint2). intros k Hk.
    eapply (reads_ensure _ _ (λ m, Z.of_nat (length (wm_optional_fields m)) ≤ MAX_WORKSPACE_OPTIONAL_FIELDS)).
    { intros w [_ <-]. apply bool_decide_eq_true. }
    intros _. eapply (reads_iff _ _ (λ m, concat (map field_layout (wm_optional_fields m)) ++ []) _
      (λ m, (length (wm_optional_fields m) = Z.to_nat k ∧ Forall (λ f, is_u16 (wf_tag f)) (wm_optional_fields m) ∧
             validate_fields [] (wm_optional_fields m) = Ok ()) ∧ True)
      (λ m, Forall (λ f, is_u16 (wf_tag f)) (wm_optional_fields m) ∧ validate_fields [] (wm_optional_fields m) = Ok ())).
    { eapply (reads_field _ _ _ _ wm_optional_fields _ _ _ (decode_fields_exact _ [])). intros fs (Hfs & _ & _).
      apply reads_ret. intros [[wb] [rb] ? ? ? ? ? ? ? ? ? ? ? ? ?]. cbn. split.
      + intros Hw. destruct_and! Hw. by subst.
      + intros Hw. injection Hw. intros. subst. split_and!; done || congruence || (unfold in_width in Hk; lia). }
    { intros w Hw. destruct_and! Hw. split; [tauto|]. intros [? ?]. split_and!; try done. lia. }
    { done. }
  - intros m _. unfold manifest_fits, manifest_wf, counts, WorkspaceId_wf, RepoId_wf, blen.
    rewrite !Forall_cons, Forall_nil. unfold in_width, MAX_WORKSPACE_OPTIONAL_FIELDS. cbn.
    split; intros; destruct_and?; split_and!; done || lia.
  - intros m _ _. unfold manifest_layout, counts, commit_layout. cbn [map concat]. by rewrite !app_nil_r, <-!app_assoc.
Qed.

Lemma w_validate_fields_sizes before fields :
  validate_fields before fields = Ok () → Forall (λ f, blen (wf_value f) ≤ MAX_WORKSPACE_OPTIONAL_FIELD_BYTES) fields.
Proof.
  revert before. induction fields as [|f fields IH]; intros before; [constructor|].
  intros ([_ Hl] & _ & Hv)%validate_fields_cons. constructor; [done|]. by eapply IH.
Qed.
Lemma w_validate_sizes m : validate m = Ok () →
  blen (wm_name m) ≤ 128 ∧ Z.of_nat (length (wm_optional_fields m)) ≤ MAX_WORKSPACE_OPTIONAL_FIELDS ∧
  validate_fields [] (wm_optional_fields m) = Ok ().
Proof.
  unfold validate. intros Hv. apply bind_Ok_inv in Hv as (n & Hn%map_err_Ok_inv & Hv).
  apply bind_Ok_inv in Hv as (total & _ & Hv). apply bind_Ok_inv in Hv as ([] & Hc%ensure_Ok_inv & Hv).
  apply andb_true_iff in Hc as [_ Hc%bool_decide_eq_true]. split_and!; try done.
  unfold Checkout.WorkspaceName_new in Hn. apply bind_Ok_inv in Hn as ([] & Hc'%ensure_Ok_inv & _).
  apply andb_true_iff in Hc' as [Hc' _]. by apply andb_true_iff in Hc' as [_ Hc'%bool_decide_eq_true].
Qed.
Lemma encode_fields_Ok fields :
  Forall (λ f, blen (wf_value f) ≤ MAX_WORKSPACE_OPTIONAL_FIELD_BYTES) fields →
  encode_fields fields = Ok (concat (map field_layout fields)).
Proof.
  induction 1 as [|f fields Hf _ IH]; [done|]. cbn [encode_fields map concat].
  unfold encode_field, u32_try_from. unfold MAX_WORKSPACE_OPTIONAL_FIELD_BYTES in Hf.
  rewrite decide_True by (unfold u32_max; lia). cbn [ok_or]. rewrite bind_Ok, bind_Ok, IH. done.
Qed.
Lemma w_encode_manifest_Ok m b : manifest_wf m →
  encode_workspace_manifest m = Ok b ↔
    validate m = Ok () ∧ b = manifest_layout m ∧ blen b ≤ MAX_WORKSPACE_MANIFEST_BYTES.
Proof.
  intros Hwf. pose proof Hwf as (_ & _ & _ & Hc & _). unfold encode_workspace_manifest.
  destruct (validate m) as [[]|] eqn:Hv; [|split; [done|by intros [? _]]]. rewrite bind_Ok.
  destruct (w_validate_sizes m Hv) as (Hn & Hk & Hf). unfold MAX_WORKSPACE_OPTIONAL_FIELDS in Hk.
  unfold u16_try_from. rewrite !decide_True by (unfold u16_max; lia). cbn [ok_or]. rewrite !bind_Ok.
  rewrite encode_fields_Ok by (by eapply w_validate_fields_sizes). rewrite bind_Ok. cbv zeta.
  assert (∀ x, x = manifest_layout m → ensure (bool_decide (blen x ≤ MAX_WORKSPACE_MANIFEST_BYTES)) WmLengthOverflow
      ≫= (λ _, Ok x) = Ok b ↔ b = manifest_layout m ∧ blen b ≤ MAX_WORKSPACE_MANIFEST_BYTES) as Hend.
  { intros x ->. case_bool_decide as Hmax; cbn [ensure]; rewrite ?bind_Ok, ?bind_Err.
    - split; [intros Hx; injection Hx as <-; done|by intros [-> _]].
    - split; [done|by intros [-> ?]]. }
  rewrite Hend; [tauto|]. unfold manifest_layout, commit_layout. rewrite <-(oid_padded (wm_commit m)) by done.
  destruct Hc as (-> & _). by rewrite <-!app_assoc.
Qed.
Lemma layout_long m : 8 + 2 ≤ blen (manifest_layout m).
Proof. unfold manifest_layout, blen. rewrite !length_app, !length_be_encode. cbn. lia. Qed.

Lemma w_decode_manifest_iff b m :
  decode_workspace_manifest b = Ok m ↔ manifest_wf m ∧ encode_workspace_manifest m = Ok b.
Proof.
  unfold decode_workspace_manifest.
  assert (∀ c, ensure c WmInvalid = if c then Ok () else Err WmInvalid) as Hens by (by intros []).
  destruct (bool_decide (blen b ≤ MAX_WORKSPACE_MANIFEST_BYTES) && bool_decide (8 + 2 ≤ blen b)) eqn:Hlen;
    cbn [ensure]; rewrite ?bind_Ok, ?bind_Err.
  - apply andb_true_iff in Hlen as [Hmax%bool_decide_eq_true _].
    pose proof (exact_whole decode_manifest _ _ WmInvalid b m w_decode_manifest_exact
      ltac:(unfold MAX_WORKSPACE_MANIFEST_BYTES in Hmax; lia)) as Hw.
    assert (∀ x, validate x = Ok () → manifest_wf x → manifest_fits x) as Hfit.
    { intros x Hv Hx. destruct (w_validate_sizes x Hv) as (? & ? & ?). done. }
    destruct (p_bind decode_manifest _ (reader_new b)) as [[m' r]|e].
    + rewrite bind_Ok. cbn [fst]. split.
      * intros Hd. apply bind_Ok_inv in Hd as ([] & Hv & Hd). injection Hd as ->.
        destruct (proj1 Hw) as [[Hf _] ->]; [by exists r|]. split; [done|]. by apply w_encode_manifest_Ok.
      * intros [Hwf He]. apply w_encode_manifest_Ok in He as (Hv & Hb & _); [|done].
        destruct (proj2 Hw (conj (Hfit m Hv Hwf) Hb)) as [r' Heq]. injection Heq as -> _. by rewrite Hv.
    + rewrite bind_Err. split; [done|]. intros [Hwf He].
      apply w_encode_manifest_Ok in He as (Hv & Hb & _); [|done]. by destruct (proj2 Hw (conj (Hfit m Hv Hwf) Hb)).
  - split; [done|]. intros [Hwf He]. apply w_encode_manifest_Ok in He as (_ & -> & Hmax); [|done].
    rewrite !bool_decide_eq_true_2 in Hlen by (done || apply layout_long). done.
Qed.

(** Workspace manifests: a byte string decodes to a manifest exactly when the
    manifest has fields of the right widths and encodes to that byte string. *)
Theorem workspace_codec_exact b m :
  decode_workspace_manifest b = Ok m ↔ manifest_wf m ∧ encode_workspace_manifest m = Ok b.
Proof. apply w_decode_manifest_iff. Qed.

(** ** Manifests of plans *)

#[local] Existing Instance Checkout.TreeEntryMode_eq_dec.
Definition modes (mode : Checkout.TreeEntryMode) (es : list Checkout.PlannedEntry) : Z :=
  Z.of_nat (length (filter (λ e, Checkout.po_mode (Checkout.pe_object e) = mode) es)).
Lemma modes_cons mode e es :
  modes mode (e :: es) = (if decide (Checkout.po_mode (Checkout.pe_object e) = mode) then 1 else 0) + modes mode es.
Proof. unfold modes. rewrite filter_cons. case_decide; cbn [length]; lia. Qed.
Lemma count_modes_inv es : ∀ c c', count_modes es c = Ok c' →
  mc_regular c' = mc_regular c + modes Checkout.Regular es ∧
  mc_executable c' = mc_executable c + modes Checkout.Executable es ∧
  mc_symlinks c' = mc_symlinks c + modes Checkout.Symlink es ∧ mc_gitlinks c' = mc_gitlinks c + modes Checkout.Gitlink es.
Proof.
  induction es as [|e es IH]; intros c c' Hc; cbn [count_modes] in Hc.
  { apply Ok_inj in Hc as ->. unfold modes. cbn. lia. }
  apply bind_Ok_inv in Hc as (c1 & H1 & Hc). apply IH in Hc. rewrite !modes_cons.
  unfold count_mode in H1. destruct (Checkout.po_mode (Checkout.pe_object e));
    apply bind_Ok_inv in H1 as (n & Hn%ok_or_Ok_inv & H1); apply checked_add_inv in Hn as [-> _];
    apply Ok_inj in H1 as <-; cbn [mc_regular mc_executable mc_symlinks mc_gitlinks] in Hc;
    repeat case_decide; done || lia.
Qed.
Definition counts_fit (c : ModeCounts) : Prop :=
  Forall is_u64 [mc_regular c; mc_executable c; mc_symlinks c; mc_gitlinks c].
Lemma count_modes_fits es : ∀ c c', count_modes es c = Ok c' → counts_fit c → counts_fit c'.
Proof.
  induction es as [|e es IH]; intros c c' Hc Hfit; cbn [count_modes] in Hc; [by apply Ok_inj in Hc as <-|].
  apply bind_Ok_inv in Hc as (c1 & H1 & Hc). apply (IH _ _ Hc). unfold counts_fit in *. rewrite !Forall_cons in *.
  unfold count_mode in H1. destruct (Checkout.po_mode (Checkout.pe_object e));
    apply bind_Ok_inv in H1 as (n & Hn%ok_or_Ok_inv & H1); apply checked_add_inv in Hn as [-> Hn];
    apply Ok_inj in H1 as <-; cbn [mc_regular mc_executable mc_symlinks mc_gitlinks]; unfold in_width, u64_max in *;
    destruct_and!; split_and!; try done; lia.
Qed.
(** A manifest counts exactly the entries of its plan. *)
Theorem from_plan_counts input plan m :
  from_plan input plan = Ok m →
  wm_directories m = Z.of_nat (length (Checkout.plan_directories plan)) ∧
  wm_regular_files m = modes Checkout.Regular (Checkout.plan_entries plan) ∧
  wm_executable_files m = modes Checkout.Executable (Checkout.plan_entries plan) ∧
  wm_symlinks m = modes Checkout.Symlink (Checkout.plan_entries plan) ∧
  wm_gitlinks m = modes Checkout.Gitlink (Checkout.plan_entries plan) ∧
  wm_reflinked_regular_files m = wm_regular_files m + wm_executable_files m ∧ validate m = Ok ().
Proof.
  unfold from_plan. intros Hp. apply bind_Ok_inv in Hp as (c & Hc%count_modes_inv & Hp).
  apply bind_Ok_inv in Hp as (n & Hn%ok_or_Ok_inv & Hp). apply checked_add_inv in Hn as [-> _].
  apply bind_Ok_inv in Hp as (d & Hd%ok_or_Ok_inv & Hp). unfold u64_try_from in Hd. case_decide; [|done].
  injection Hd as <-. cbv zeta in Hp. apply bind_Ok_inv in Hp as ([] & Hv & Hp). apply Ok_inj in Hp as <-.
  cbn in *. split_and!; try done; lia.
Qed.
(** Every count is a [u64]. *)
Lemma from_plan_sizes input plan m : from_plan input plan = Ok m → Forall is_u64 (counts m).
Proof.
  unfold from_plan. intros Hp. apply bind_Ok_inv in Hp as (c & Hc & Hp).
  pose proof (count_modes_fits _ _ _ Hc ltac:(repeat constructor; cbn; lia)) as Hfit.
  apply bind_Ok_inv in Hp as (n & Hn%ok_or_Ok_inv & Hp). apply checked_add_inv in Hn as [-> Hn].
  apply bind_Ok_inv in Hp as (d & Hd%ok_or_Ok_inv & Hp). unfold u64_try_from in Hd. case_decide; [|done].
  injection Hd as <-. cbv zeta in Hp. apply bind_Ok_inv in Hp as ([] & Hv & <-%Ok_inj). unfold counts. cbn in *.
  unfold counts_fit in Hfit. rewrite !Forall_cons, Forall_nil in *. unfold in_width, u64_max in *. destruct_and!.
  split_and!; try done; lia.
Qed.
End WorkspaceSpec.
