(* ===== verification/WorkspaceStore.v ===== *)
(** * Workspace publication: [reflink-forest-workspace/src/lib.rs]

    Making a workspace ready, loading, withdrawing and deleting it, and the
    reconciliation of manifests with the catalog and the visible workspaces. *)

From Stdlib Require Import ZArith Lia Strings.Byte Strings.String.
From stdpp Require Import base tactics list gmap strings.
From S2P Require Import Prelude Order Core Format Codec CatalogCodec Catalog Chunk Disk Store Git Reader Cache Checkout Workspace.
Import Core Codec CatalogCodec Catalog Chunk Disk Store Git Reader Workspace.

#[local] Open Scope Z_scope.

Module WorkspaceStore.

(** ** Text and names *)

Definition is_continuation (b : byte) : bool := bool_decide (128 ≤ byte_to_Z b ≤ 191).
Definition in_range (lo hi : Z) (b : byte) : bool := bool_decide (lo ≤ byte_to_Z b ≤ hi).
(** [std::str::from_utf8]: no overlong forms, no surrogates, at most U+10FFFF. *)
Fixpoint is_utf8 (b : bytes) : bool :=
  match b with
  | [] => true
  | a :: b =>
      if in_range 0 127 a then is_utf8 b
      else match b with
      | [] => false
      | x :: b =>
          if in_range 194 223 a then is_continuation x && is_utf8 b
          else match b with
          | [] => false
          | y :: b =>
              if in_range 224 224 a then in_range 160 191 x && is_continuation y && is_utf8 b
              else if in_range 237 237 a then in_range 128 159 x && is_continuation y && is_utf8 b
              else if in_range 225 239 a then is_continuation x && is_continuation y && is_utf8 b
              else match b with
              | [] => false
              | z :: b =>
                  is_continuation y && is_continuation z &&
                  (if in_range 240 240 a then in_range 144 191 x
                   else if in_range 244 244 a then in_range 128 143 x
                   else in_range 241 243 a && is_continuation x) && is_utf8 b
              end
          end
      end
  end.

Definition file_name (p : Path) : bytes :=
  p_stem p ++ match p_ext p with Some e => b_ "." ++ b_ e | None => [] end.
Definition ends_with (b suffix : bytes) : bool :=
  bool_decide (length suffix ≤ length b)%nat && bool_decide (drop (length b - length suffix) b = suffix).

(** ** Errors and reports *)

Inductive WorkspacePersistenceError :=
| WpManifest (e : WorkspaceManifestError)
| WpCatalog (e : CatalogError)
| NameAlreadyPublished (id : WorkspaceId)
| ExistingWorkspaceMismatch
| ExistingWorkspaceIncomplete.
(** A path under the workspaces is the name there; [None] is the directory. *)
Inductive WorkspaceReconciliationError :=
| WrIo (e : IoErrorKind)
| WrManifest (e : WorkspaceManifestError)
| TooManyManifests (maximum : Z)
| UnsafeWorkspacePath (path : option bytes)
| ReadyWorkspaceMissing (path : bytes).
Inductive WorkspaceDeletionError :=
| WdIo (e : IoErrorKind)
| WdManifest (e : WorkspaceManifestError)
| WdReconciliation (e : WorkspaceReconciliationError)
| WdCatalog (e : CatalogError)
| NotReady (id : WorkspaceId).
Record WorkspacePublicationReconciliation := mkWReconciliation {
  manifests_examined : Z; ready_workspaces : Z; incomplete_workspaces_withdrawn : Z }.
Definition MAX_WORKSPACE_PUBLICATION_RECONCILIATION : Z := 4096.

(** What [symlink_metadata] and [rename] see of an entry of the workspaces or
    of the trash: whether it is a directory, and one without entries. *)
Class WorkspaceTree (T : Type) := { tree_is_dir : T → bool; tree_is_empty : T → bool }.

(** ** The visible workspaces *)

Section Shelf.
Context `{WorkspaceTree T}.
Abbreviation Shelf := (Checkout.Shelf T).
Abbreviation VIO := (ST Shelf WorkspaceReconciliationError).

Definition shelf_kind (e : Checkout.WorkspacePublishError) : IoErrorKind :=
  match e with Checkout.PublishIo e => e | _ => OtherIo end.
(** One call on the directories: it fails, or does its work at once. *)
Definition shelf_io {A} (act : Shelf → result IoErrorKind (A * Shelf)) : ST Shelf IoErrorKind A := λ s,
  let go faults := Checkout.mkShelf (Checkout.sh_staging s) (Checkout.sh_workspaces s) (Checkout.sh_trash s) faults in
  match Checkout.sh_faults s with
  | Some e :: faults => (Err (shelf_kind e), go faults)
  | faults =>
      match act (go (tail faults)) with
      | Ok (a, s) => (Ok a, s)
      | Err e => (Err e, go (tail faults))
      end
  end.
Definition symlink_metadata (name : bytes) : ST Shelf IoErrorKind T :=
  shelf_io (λ s, t ← ok_or (Checkout.sh_workspaces s !! name) NotFound; Ok (t, s)).
(** Creating a directory that may exist, or opening and synchronizing one. *)
Definition touch_directory : ST Shelf IoErrorKind unit := shelf_io (λ s, Ok ((), s)).
(** [rename] of a directory replaces an empty directory and nothing else. *)
Definition rename_workspace (name destination : bytes) (tree : T) : ST Shelf IoErrorKind unit :=
  shelf_io (λ s,
    _ ← match Checkout.sh_trash s !! destination with
        | Some old => ensure (tree_is_dir old && tree_is_empty old) OtherIo
        | None => Ok ()
        end;
    Ok ((), Checkout.mkShelf (Checkout.sh_staging s) (delete name (Checkout.sh_workspaces s))
              (<[destination := tree]> (Checkout.sh_trash s)) (Checkout.sh_faults s))).
(** [candidates] are the names made of the ID, the clock and the attempt. *)
Fixpoint withdraw_attempts (name : bytes) (tree : T) (candidates : list bytes) : VIO (option bytes) :=
  match candidates with
  | [] => st_lift (Err (UnsafeWorkspacePath (Some name)))
  | destination :: candidates => λ s,
      match rename_workspace name destination tree s with
      | (Ok _, s) => (_ ⇐ st_map_err WrIo touch_directory; _ ⇐ st_map_err WrIo touch_directory; st_ret (Some destination)) s
      | (Err AlreadyExists, s) => withdraw_attempts name tree candidates s
      | (Err e, s) => (Err (WrIo e), s)
      end
  end.
Definition withdraw_workspace (candidates : list bytes) (m : WorkspaceManifest) : VIO (option bytes) :=
  _ ⇐ st_lift (ensure (is_utf8 (wm_name m)) (UnsafeWorkspacePath None));
  λ s,
    match symlink_metadata (wm_name m) s with
    | (Err NotFound, s) => (Ok None, s)
    | (Err e, s) => (Err (WrIo e), s)
    | (Ok tree, s) =>
        (_ ⇐ st_lift (ensure (tree_is_dir tree) (UnsafeWorkspacePath (Some (wm_name m))));
         _ ⇐ st_map_err WrIo touch_directory;
         withdraw_attempts (wm_name m) tree candidates) s
    end.
End Shelf.

(** ** Persistence *)

Section Persistence.
Context `{Catalog C}.

Definition manifest_io {A E} (f : WorkspaceManifestError → E) (act : ST Disk WorkspaceManifestError A) : ST (Sys C) E A := λ s,
  let '(r, d) := act (sys_disk s) in (map_err f r, mkSys d (sys_catalog s)).
Definition batch_io {E} (f : CatalogError → E) (b : CatalogBatch) : ST (Sys C) E unit := λ s,
  let '(r, c) := apply (sys_catalog s) b in (map_err f r, mkSys (sys_disk s) c).

Definition ready_batch (m : WorkspaceManifest) (record : bytes) : CatalogBatch :=
  put_workspace_pin (put_workspace_name (put_workspace batch_new (wm_workspace_id m) record)
    (wm_name m) (wm_workspace_id m)) (wm_workspace_id m) (wm_generation m).
Definition persist_ready_workspace (root : bytes) (candidates : list Path) (m : WorkspaceManifest)
    : ST (Sys C) WorkspacePersistenceError Path :=
  published ⇐ st_get (λ s, workspace_name (sys_catalog s) (wm_name m));
  _ ⇐ st_lift (match published with
               | Some existing => ensure (bool_decide (existing = wm_workspace_id m)) (NameAlreadyPublished existing)
               | None => Ok ()
               end);
  path ⇐ manifest_io WpManifest (ensure_workspace_manifest root candidates m);
  bytes ⇐ st_lift (map_err WpManifest (encode_workspace_manifest m));
  existing ⇐ st_get (λ s, workspace (sys_catalog s) (wm_workspace_id m));
  match existing with
  | Some existing =>
      _ ⇐ st_lift (ensure (bool_decide (existing = bytes)) ExistingWorkspaceMismatch);
      name ⇐ st_get (λ s, workspace_name (sys_catalog s) (wm_name m));
      pin ⇐ st_get (λ s, workspace_pin (sys_catalog s) (wm_workspace_id m));
      _ ⇐ st_lift (ensure (bool_decide (name = Some (wm_workspace_id m)) && bool_decide (pin = Some (wm_generation m)))
                          ExistingWorkspaceIncomplete);
      st_ret path
  | None =>
      _ ⇐ batch_io WpCatalog (ready_batch m bytes);
      st_ret path
  end.

Definition load_ready_workspace (root : bytes) (id : WorkspaceId)
    : ST (Sys C) WorkspaceManifestError (option WorkspaceManifest) := λ s,
  match workspace (sys_catalog s) id with
  | None => (Ok None, s)
  | Some record =>
      match workspace_pin (sys_catalog s) id with
      | None => (Ok None, s)
      | Some pin =>
          (m ⇐ manifest_io (λ e, e) (read_workspace_manifest (workspace_manifest_path root id));
           _ ⇐ st_lift (ensure (bool_decide (wm_workspace_id m = id)) WmInvalid);
           bytes ⇐ st_lift (encode_workspace_manifest m);
           _ ⇐ st_lift (ensure (bool_decide (bytes = record)) WmInvalid);
           ready ⇐ st_get (λ s, bool_decide (workspace_name (sys_catalog s) (wm_name m) = Some id) &&
                                bool_decide (workspace_pin (sys_catalog s) id = Some (wm_generation m)));
           st_ret (if ready : bool then Some m else None)) s
      end
  end.

(** ** Deletion and reconciliation *)

Context `{WorkspaceTree T}.
(** The disk with the manifests, the catalog, and the workspaces. *)
Abbreviation Site := (Sys C * Checkout.Shelf T)%type.
Definition on_sys {A E F} (f : E → F) (act : ST (Sys C) E A) : ST Site F A := λ x,
  let '(r, s) := act x.1 in (map_err f r, (s, x.2)).
Definition on_shelf {A E F} (f : E → F) (act : ST (Checkout.Shelf T) E A) : ST Site F A := λ x,
  let '(r, s) := act x.2 in (map_err f r, (x.1, s)).
Definition site_file {A} (act : DiskIO A) : ST Site IoErrorKind A := λ x,
  let '(r, d) := act (sys_disk x.1) in (r, (mkSys d (sys_catalog x.1), x.2)).

(** The end of a deletion: the manifest goes. *)
Definition remove_manifest (root : bytes) (id : WorkspaceId) : ST Site WorkspaceDeletionError unit := λ x,
  match site_file (remove_file (workspace_manifest_path root id)) x with
  | (Ok _, x) => st_map_err WdIo (site_file (sync_all_directory root)) x
  | (Err NotFound, x) => (Ok (), x)
  | (Err e, x) => (Err (WdIo e), x)
  end.
Definition delete_persisted_workspace (root : bytes) (candidates : list bytes) (id : WorkspaceId)
    : ST Site WorkspaceDeletionError unit :=
  ready ⇐ on_sys WdManifest (load_ready_workspace root id);
  m ⇐ st_lift (ok_or ready (NotReady id));
  _ ⇐ on_shelf WdReconciliation (withdraw_workspace candidates m);
  _ ⇐ on_sys (λ e, e) (batch_io WdCatalog (delete_workspace_pin batch_new id));
  remove_manifest root id.

Abbreviation RIO := (ST Site WorkspaceReconciliationError).
(** [read_dir]; a directory that does not exist has no entries. *)
Definition read_dir (root : bytes) : DiskIO (list Path) :=
  io (λ d, (Ok (filter (λ p, p_dir p = root) (map_to_list (d_names d)).*1), d)).
Definition is_manifest_name (p : Path) : bool :=
  is_utf8 (file_name p) && ends_with (file_name p) WORKSPACE_MANIFEST_SUFFIX.
(** The manifests, in order; the listing stops at the limit. *)
Definition list_manifests (root : bytes) : RIO (list Path) := λ x,
  match site_file (read_dir root) x with
  | (Err NotFound, x) => (Ok [], x)
  | (Err e, x) => (Err (WrIo e), x)
  | (Ok entries, x) =>
      let manifests := filter (λ p, is_manifest_name p = true) entries in
      (_ ← ensure (bool_decide (Z.of_nat (length manifests) ≤ MAX_WORKSPACE_PUBLICATION_RECONCILIATION))
                  (TooManyManifests MAX_WORKSPACE_PUBLICATION_RECONCILIATION);
       Ok (sort_by (cmp_on file_name bytes_compare) manifests), x)
  end.
Definition count_one (n : Z) : result WorkspaceReconciliationError Z :=
  ok_or (checked_add n 1) (TooManyManifests MAX_WORKSPACE_PUBLICATION_RECONCILIATION).
(** A ready workspace must be a directory. *)
Definition check_visible (m : WorkspaceManifest) : RIO unit :=
  _ ⇐ st_lift (ensure (is_utf8 (wm_name m)) (UnsafeWorkspacePath None));
  tree ⇐ on_shelf (λ e, if decide (e = NotFound) then ReadyWorkspaceMissing (wm_name m) else WrIo e)
                  (symlink_metadata (wm_name m));
  st_lift (ensure (tree_is_dir tree) (UnsafeWorkspacePath (Some (wm_name m)))).
Definition reconcile_manifest (root : bytes) (candidates : WorkspaceId → list bytes) (path : Path)
    (r : WorkspacePublicationReconciliation) : RIO WorkspacePublicationReconciliation :=
  m ⇐ on_sys WrManifest (manifest_io (λ e, e) (read_workspace_manifest path));
  examined ⇐ st_lift (count_one (manifests_examined r));
  ready ⇐ on_sys WrManifest (load_ready_workspace root (wm_workspace_id m));
  match ready with
  | Some _ =>
      _ ⇐ check_visible m;
      n ⇐ st_lift (count_one (ready_workspaces r));
      st_ret (mkWReconciliation examined n (incomplete_workspaces_withdrawn r))
  | None =>
      withdrawn ⇐ on_shelf (λ e, e) (withdraw_workspace (candidates (wm_workspace_id m)) m);
      match withdrawn with
      | Some _ =>
          n ⇐ st_lift (count_one (incomplete_workspaces_withdrawn r));
          st_ret (mkWReconciliation examined (ready_workspaces r) n)
      | None => st_ret (mkWReconciliation examined (ready_workspaces r) (incomplete_workspaces_withdrawn r))
      end
  end.
Fixpoint reconcile_manifests (root : bytes) (candidates : WorkspaceId → list bytes) (paths : list Path)
    (r : WorkspacePublicationReconciliation) : RIO WorkspacePublicationReconciliation :=
  match paths with
  | [] => st_ret r
  | path :: paths =>
      r ⇐ reconcile_manifest root candidates path r;
      reconcile_manifests root candidates paths r
  end.
Definition reconcile_workspace_publications (root : bytes) (candidates : WorkspaceId → list bytes)
    : RIO WorkspacePublicationReconciliation :=
  paths ⇐ list_manifests root;
  reconcile_manifests root candidates paths (mkWReconciliation 0 0 0).
End Persistence.
End WorkspaceStore.
