(* ===== verification/WorkspaceStoreSpec.v ===== *)
(** * What workspace publication guarantees *)

From Stdlib Require Import ZArith Lia Strings.Byte Strings.String.
From stdpp Require Import base tactics list gmap strings.
From S2P Require Import Prelude Order Core Format Codec CatalogCodec CatalogCodecSpec Catalog CatalogSpec RocksSpec CatalogInterface Chunk Disk DiskSpec Store Git Reader Snapshot SnapshotSpec PublicationSpec Cache Checkout Workspace WorkspaceSpec WorkspaceStore.
Import Core Codec CatalogCodec CatalogCodecSpec Catalog CatalogSpec RocksSpec CatalogInterface Chunk Disk DiskSpec Store Git Reader PublicationSpec Workspace WorkspaceStore.

#[local] Open Scope Z_scope.

Module WorkspaceStoreSpec.

#[local] Set Warnings "-clear-no-such-hyp".


(** ** Manifest files *)

(** The file at [p] holds the manifest [m]. *)
Definition manifest_at (d : Disk) (p : Path) (m : WorkspaceManifest) : Prop :=
  ∃ n, d_names d !! p = Some n ∧ decode_workspace_manifest (data d n) = Ok m.

Lemma on_disk_inv {A} (act : DiskIO A) d r d' : on_disk act d = (r, d') → ∃ r', act d = (r', d') ∧ r = map_err WmIo r'.
Proof. unfold on_disk, st_map_err. destruct (act d) as [r' d1]. intros [= <- <-]. eauto. Qed.
Lemma on_disk_Ok {A} (act : DiskIO A) d a d' : on_disk act d = (Ok a, d') → act d = (Ok a, d').
Proof. intros ([] & Hr & [= ->])%on_disk_inv. done. Qed.

Lemma read_manifest_inv p d r d' : read_workspace_manifest p d = (r, d') →
  same_files d d' ∧ ∀ m, r = Ok m → manifest_at d p m.
Proof.
  unfold read_workspace_manifest, st_bind, st_get, st_lift. intros Hr.
  destruct (on_disk (open_file p) d) as [r1 d1] eqn:H1. apply on_disk_inv in H1 as (r1' & H1 & ->).
  apply open_file_spec in H1 as [Hs1 _]. destruct r1' as [n1|]; cbn in Hr; [|by injection Hr as <- <-].
  destruct (ensure _ _); [|by injection Hr as <- <-].
  destruct (on_disk (open_file p) d1) as [r2 d2] eqn:H2. apply on_disk_inv in H2 as (r2' & H2 & ->).
  apply open_file_spec in H2 as [Hs2 Hn2]. pose proof (same_files_trans _ _ _ Hs1 Hs2) as Hs.
  destruct r2' as [n2|]; cbn in Hr; [|by injection Hr as <- <-].
  destruct (on_disk (read_file n2) d2) as [r3 d3] eqn:H3. apply on_disk_inv in H3 as (r3' & H3 & ->).
  apply read_file_spec in H3 as [Hs3 Hb]. pose proof (same_files_trans _ _ _ Hs Hs3) as Hs'.
  destruct r3' as [b|]; cbn in Hr; [|by injection Hr as <- <-]. injection Hr as <- <-.
  split; [done|]. intros m Hm. exists n2. rewrite <-(same_names _ _ Hs1). split; [by apply Hn2|].
  by rewrite <-(same_files_data _ _ _ Hs), <-(Hb _ eq_refl).
Qed.
Lemma read_manifest_at p d m : d_faults d = [] → manifest_at d p m → read_workspace_manifest p d = (Ok m, d).
Proof.
  intros Hf (n & Hn & Hd). pose proof Hd as Hsize. unfold decode_workspace_manifest in Hsize.
  apply bind_Ok_inv in Hsize as ([] & Hsize%ensure_Ok_inv & _). apply andb_true_iff in Hsize as [Hsize _].
  unfold read_workspace_manifest, st_bind, st_get, st_lift, on_disk, st_map_err, open_file, read_file, io, pop_fault.
  rewrite Hf, Hn. cbn -[data decode_workspace_manifest]. rewrite Hsize. cbn -[data decode_workspace_manifest].
  rewrite Hf, Hn. cbn -[data decode_workspace_manifest]. rewrite Hf. cbn -[data decode_workspace_manifest]. by rewrite Hd.
Qed.

Lemma temporary_ok candidates d t d' : temporary_manifest_path candidates d = (Ok t, d') → d' = d.
Proof.
  induction candidates as [|c candidates IH]; [done|]. cbn. unfold st_bind, st_get.
  destruct (path_exists d c); [done|]. by intros [= _ ->].
Qed.
(** A written manifest is durable. *)
Lemma write_workspace_manifest_ok root candidates m d p d' :
  write_workspace_manifest root candidates m d = (Ok p, d') →
  p = workspace_manifest_path root (wm_workspace_id m) ∧
  ∃ b, encode_workspace_manifest m = Ok b ∧ durable_file d' p b.
Proof.
  intros Hw. unfold write_workspace_manifest in Hw.
  apply st_bind_Ok in Hw as (_ & d1 & _ & Hw). apply st_bind_Ok in Hw as (_ & d2 & _ & Hw). cbv zeta in Hw.
  apply st_bind_Ok in Hw as (ex & d3 & _ & Hw). apply st_bind_Ok in Hw as (_ & d4 & _ & Hw).
  apply st_bind_Ok in Hw as (b & d5 & [= Hb <-] & Hw). apply st_bind_Ok in Hw as (t & d6 & Ht & Hw).
  apply temporary_ok in Ht as ->. destruct (st_bind _ _ d4) as [[[]|e] d7] eqn:Hrun; [|done].
  injection Hw as <- <-. split; [done|]. exists b. split; [done|].
  apply st_bind_Ok in Hrun as (n & e1 & H1%on_disk_Ok & Hrun). apply st_bind_Ok in Hrun as ([] & e2 & H2%on_disk_Ok & Hrun).
  apply st_bind_Ok in Hrun as ([] & e3 & H3%on_disk_Ok & Hrun). apply st_bind_Ok in Hrun as ([] & e4 & H4%on_disk_Ok & H5%on_disk_Ok).
  apply create_new_ok in H1 as [Hi1 Hn1]. apply write_new_ok in H2 as [Hi2 Hn2]; [|done].
  apply (sync_ok _ b) in H3 as [Hi3 Hn3]; [|done]. rewrite <-Hn2, <-Hn3 in Hn1.
  destruct (rename_ok _ _ _ _ _ H4 Hn1) as [Hi4 Hn4].
  eapply (sync_directory_ok (workspace_manifest_path root (wm_workspace_id m))); [exact H5|exact Hn4|]. by rewrite Hi4.
Qed.

(** The manifest file is durable, or there is none: every file of a disk that
    a crash left is, and so is one whose last publication succeeded. *)
Definition settled (d : Disk) (p : Path) : Prop :=
  d_names d !! p = None ∨ ∃ b, durable_file d p b.

Lemma durable_manifest_at d p b m :
  durable_file d p b → decode_workspace_manifest b = Ok m → manifest_at d p m.
Proof.
  intros (n & [Hn _]%Forall_cons & Hi) Hd. exists n. split; [done|]. by rewrite (data_lookup _ _ _ Hi).
Qed.
Lemma ensure_manifest_ok root candidates m d p d' :
  WorkspaceSpec.manifest_wf m → ensure_workspace_manifest root candidates m d = (Ok p, d') →
  p = workspace_manifest_path root (wm_workspace_id m) ∧ manifest_at d' p m ∧
  (settled d p → ∃ b, encode_workspace_manifest m = Ok b ∧ durable_file d' p b).
Proof.
  intros Hwf He. unfold ensure_workspace_manifest in He.
  destruct (read_workspace_manifest _ d) as [r d1] eqn:Hr. apply read_manifest_inv in Hr as [Hs Hat].
  destruct r as [existing|[[] | | | |]]; try done.
  - destruct (decide (existing = m)) as [->|]; [|done]. injection He as <- <-. split; [done|].
    destruct (Hat m eq_refl) as (n & Hn & Hd). split.
    { exists n. rewrite (same_names _ _ Hs), (same_files_data _ _ _ Hs). done. }
    intros [Hno|(b & n' & Hall & Hi)]; [congruence|]. exists b. pose proof Hall as [Hn' _]%Forall_cons.
    assert (n' = n) as -> by congruence. rewrite (data_lookup _ _ _ Hi) in Hd. cbn in Hd.
    apply WorkspaceSpec.w_decode_manifest_iff in Hd as [_ Henc]. split; [done|].
    apply (durable_file_same d d1 _ _ Hs). by exists n.
  - apply write_workspace_manifest_ok in He as (-> & b & Henc & Hdur). split; [done|]. split; [|by exists b].
    eapply durable_manifest_at; [done|]. by apply WorkspaceSpec.w_decode_manifest_iff.
Qed.
Lemma crash_settled d d' p n : crash d d' → d_names d' !! p = Some n → is_Some (d_inodes d' !! n) → settled d' p.
Proof.
  intros [d0 names inodes faults _ Hsurv] Hn [[x y] Hi]. cbn in *. right. exists x, n. cbn.
  split; [by apply Forall_singleton|]. rewrite Hi.
  by destruct (Forall2_lookup_r _ _ _ _ _ Hsurv Hi) as (i0 & _ & [= ->] & _).
Qed.
(** ** Making a workspace ready *)

Section Persistence.
Context `{CatalogLaws C}.

(** The three records of a ready workspace. *)
Definition published (m : WorkspaceManifest) (f : View) : Prop :=
  ∃ b, encode_workspace_manifest m = Ok b ∧
    f (KWorkspace (wm_workspace_id m)) = Some (VOpaque b) ∧
    f (KWorkspaceName (wm_name m)) = Some (VWorkspace (wm_workspace_id m)) ∧
    f (KWorkspacePin (wm_workspace_id m)) = Some (VGeneration (wm_generation m)).
Definition ready_keys (m : WorkspaceManifest) : list CatKey :=
  [KWorkspace (wm_workspace_id m); KWorkspaceName (wm_name m); KWorkspacePin (wm_workspace_id m)].

Lemma ready_batch_wf m b : WorkspaceSpec.manifest_wf m → Forall op_wf (ready_batch m b).
Proof.
  intros (Hid & _ & _ & _ & Hg & _). unfold ready_batch, put_workspace_pin, put_workspace_name, put_workspace, batch_new.
  cbn [app]. repeat constructor; cbn; try done; by intros v [= <-].
Qed.
Lemma ready_batch_effect m b f f' :
  encode_workspace_manifest m = Ok b → same f' (batch_effect f (ready_batch m b)) →
  published m f' ∧ ∀ k, k ∉ ready_keys m → f' k = f k.
Proof.
  intros Hb Hs. unfold ready_batch, put_workspace_pin, put_workspace_name, put_workspace, batch_new in Hs. cbn [app] in Hs.
  split.
  - exists b. rewrite !(Hs _). unfold batch_effect, write_effect. cbn. repeat case_decide; done.
  - intros k Hk. rewrite (Hs _). unfold batch_effect, write_effect. cbn. unfold ready_keys in Hk.
    rewrite !not_elem_of_cons in Hk. repeat case_decide; naive_solver.
Qed.

(** The outcome of a run of the persistence, whatever fails in it. *)
Definition persist_post (root : bytes) (m : WorkspaceManifest) (d : Disk) (f : View)
    (r : result WorkspacePersistenceError Path) (s' : Sys C) : Prop :=
  ∃ f', holds_view (sys_catalog s') f' ∧
    (same f' f ∨ (published m f' ∧ ∀ k, k ∉ ready_keys m → f' k = f k)) ∧
    (is_ok r = true → published m f' ∧
       let p := workspace_manifest_path root (wm_workspace_id m) in
       settled d p → ∃ b, encode_workspace_manifest m = Ok b ∧ durable_file (sys_disk s') p b).
Lemma persist_unchanged root m d f e s' : holds_view (sys_catalog s') f → persist_post root m d f (Err e) s'.
Proof. intros Hv. exists f. split_and!; [done|by left|done]. Qed.

Lemma persist_spec root candidates m s f r s' :
  WorkspaceSpec.manifest_wf m → holds_view (sys_catalog s) f →
  persist_ready_workspace root candidates m s = (r, s') → persist_post root m (sys_disk s) f r s'.
Proof.
  intros Hwf Hv. unfold persist_ready_workspace, st_bind at 1, st_get at 1.
  unfold st_bind at 1, st_lift at 1. 
  destruct (match workspace_name (sys_catalog s) (wm_name m) with Some _ => _ | None => _ end) as [[]|e].
  2: { intros [= <- <-]. by apply persist_unchanged. }
  unfold st_bind at 1, manifest_io at 1.
  destruct (ensure_workspace_manifest root candidates m (sys_disk s)) as [[p|e] d1] eqn:He; cbn [map_err].
  2: { intros [= <- <-]. by apply persist_unchanged. }
  apply ensure_manifest_ok in He as (-> & Hat & Hdur); [|done].
  unfold st_bind at 1, st_lift at 1. destruct (encode_workspace_manifest m) as [b|e] eqn:Hb; cbn [map_err].
  2: { intros [= <- <-]. by apply persist_unchanged. }
  rewrite <-Hb in Hdur. unfold st_bind at 1, st_get at 1. cbn [sys_catalog sys_disk].
  destruct (workspace (sys_catalog s) (wm_workspace_id m)) as [existing|] eqn:Hw.
  - unfold st_bind, st_lift, st_get, st_ret. cbn [sys_catalog].
    destruct (bool_decide (existing = b)) eqn:Heq; cbn [ensure]; [|intros [= <- <-]; by apply persist_unchanged].
    destruct (_ && _) eqn:Hc; cbn [ensure]; [|intros [= <- <-]; by apply persist_unchanged].
    apply bool_decide_eq_true in Heq as ->. apply andb_true_iff in Hc as [Hname%bool_decide_eq_true Hpin%bool_decide_eq_true].
    intros [= <- <-]. exists f. cbn. split_and!; [done|by left|]. intros _. split; [|done].
    destruct Hwf as (Hid & _). exists b. split_and!; [done|..].
    + by apply (view_workspace _ _ _ _ Hv).
    + by apply (view_workspace_name _ _ _ _ Hv).
    + by apply (view_workspace_pin _ _ _ _ Hv).
  - unfold st_bind, batch_io, st_ret. cbn [sys_catalog sys_disk].
    pose proof (view_apply (sys_catalog s) f (ready_batch m b) Hv (ready_batch_wf m b Hwf)) as Ha.
    destruct (apply (sys_catalog s) (ready_batch m b)) as [[[]|e] c]; cbn [map_err].
    + destruct Ha as (_ & f' & Hv' & Hs). intros [= <- <-]. exists f'. cbn.
      apply (ready_batch_effect m b f f' Hb) in Hs as [Hp Ho]. split_and!; [done|by right|].
      by intros _.
    + destruct Ha as (f' & Hv' & Hs). intros [= <- <-]. exists f'. cbn. split_and!; [done| |done].
      destruct Hs as [Hs|Hs]; [by left|right]. by apply (ready_batch_effect m b f f' Hb).
Qed.

(** What [load_ready_workspace] says of a durable ready workspace. *)
Lemma load_published root m d c f b :
  WorkspaceSpec.manifest_wf m → holds_view c f → published m f → d_faults d = [] →
  encode_workspace_manifest m = Ok b → durable_file d (workspace_manifest_path root (wm_workspace_id m)) b →
  (load_ready_workspace root (wm_workspace_id m) (mkSys d c)).1 =
    Ok (if decide (is_Some (workspace c (wm_workspace_id m)) ∧ is_Some (workspace_name c (wm_name m)) ∧
                   is_Some (workspace_pin c (wm_workspace_id m))) then Some m else None).
Proof.
  intros Hwf Hv (b' & Hb' & Hrec & Hname & Hpin) Hf Hb Hdur. assert (b' = b) as -> by congruence.
  pose proof Hwf as (Hid & _). unfold load_ready_workspace. cbn [sys_catalog].
  destruct (workspace c (wm_workspace_id m)) as [rec|] eqn:Hw; cbn [fst].
  2: { rewrite decide_False; [done|]. by intros [[? ?] _]. }
  assert (rec = b) as -> by (pose proof (view_workspace _ _ _ _ Hv Hid Hw); congruence).
  destruct (workspace_pin c (wm_workspace_id m)) as [pin|] eqn:Hwp; cbn [fst].
  2: { rewrite decide_False; [done|]. by intros (_ & _ & [? ?]). }
  assert (pin = wm_generation m) as -> by (pose proof (view_workspace_pin _ _ _ _ Hv Hid Hwp); congruence).
  unfold st_bind, manifest_io, st_lift, st_get, st_ret. cbn [sys_disk sys_catalog].
  rewrite (read_manifest_at _ d m Hf); [cbn [map_err]|].
  2: { eapply durable_manifest_at; [done|]. by apply WorkspaceSpec.w_decode_manifest_iff. }
  rewrite bool_decide_eq_true_2 by done. cbn [ensure]. rewrite Hb, bool_decide_eq_true_2 by done. cbn [ensure sys_catalog].
  rewrite Hwp, (bool_decide_eq_true_2 (Some (wm_generation m) = _)), andb_true_r by done.
  destruct (workspace_name c (wm_name m)) as [w|] eqn:Hwn; cbn [fst]; f_equal; [|done..].
  assert (w = wm_workspace_id m) as -> by (pose proof (view_workspace_name _ _ _ _ Hv Hwn); congruence).
  by rewrite bool_decide_eq_true_2, decide_True.
Qed.

(** C14. A workspace becomes ready whole, and stays so. Run
    [persist_ready_workspace] from any state, with any calls of the file system
    or of the catalog failing: the catalog is unchanged, or it has the record,
    the name and the generation pin of the workspace together and nothing else
    differs. Success means that it has them; and when the manifest file was
    absent or durable before, that after any crash of the disk
    [load_ready_workspace] returns exactly this manifest, unless the catalog
    does not answer for one of the three records. *)
Theorem ready_workspace_complete root candidates m s f r s' :
  WorkspaceSpec.manifest_wf m → holds_view (sys_catalog s) f →
  persist_ready_workspace root candidates m s = (r, s') →
  ∃ f', holds_view (sys_catalog s') f' ∧
    (same f' f ∨ (published m f' ∧ ∀ k, k ∉ ready_keys m → f' k = f k)) ∧
    (is_ok r = true → published m f' ∧
      (settled (sys_disk s) (workspace_manifest_path root (wm_workspace_id m)) →
       ∀ d c, crash (sys_disk s') d → d_faults d = [] → holds_view c f' →
        (load_ready_workspace root (wm_workspace_id m) (mkSys d c)).1 =
          Ok (if decide (is_Some (workspace c (wm_workspace_id m)) ∧ is_Some (workspace_name c (wm_name m)) ∧
                         is_Some (workspace_pin c (wm_workspace_id m))) then Some m else None))).
Proof.
  intros Hwf Hv Hp. destruct (persist_spec _ _ _ _ _ _ _ Hwf Hv Hp) as (f' & Hv' & Hat & Hok).
  exists f'. split_and!; [done..|]. intros [Hpub Hdur]%Hok. split; [done|].
  intros (b & Hb & Hd)%Hdur d c Hc Hf Hvc. eapply load_published; try done. by eapply durable_file_crash.
Qed.
End Persistence.

End WorkspaceStoreSpec.
