(* ===== verification/WorkspaceReconcileSpec.v ===== *)
(** * What deletion and reconciliation of workspaces guarantee *)

From Stdlib Require Import ZArith Lia Strings.Byte Strings.String.
From stdpp Require Import base tactics list gmap strings.
From S2P Require Import Prelude Order Core Format Codec CatalogCodec CatalogCodecSpec Catalog CatalogSpec RocksSpec CatalogInterface Chunk Disk DiskSpec Store Git Reader Cache Checkout Workspace WorkspaceSpec WorkspaceStore WorkspaceStoreSpec.
Import Core Codec CatalogCodec CatalogCodecSpec Catalog CatalogSpec RocksSpec CatalogInterface Chunk Disk DiskSpec Store Git Reader Workspace WorkspaceStore WorkspaceStoreSpec.

#[local] Open Scope Z_scope.

Module WorkspaceReconcileSpec.

#[local] Set Warnings "-clear-no-such-hyp".

(** ** Withdrawal *)

Section Withdraw.
Context `{WorkspaceTree T}.
Abbreviation Shelf := (Checkout.Shelf T).
Abbreviation visible s := (Checkout.sh_workspaces s).
Abbreviation trash s := (Checkout.sh_trash s).

(** No call claims that a name that is there is not. *)
Definition honest (s : Shelf) : Prop :=
  Forall (λ o, ∀ e, o = Some e → shelf_kind e ≠ NotFound) (Checkout.sh_faults s).
Record same_trees (s s' : Shelf) : Prop := {
  same_staging : Checkout.sh_staging s' = Checkout.sh_staging s;
  same_visible : visible s' = visible s;
  same_trash : trash s' = trash s;
  same_honest : honest s → honest s' }.
Lemma same_trees_refl s : same_trees s s.
Proof. done. Qed.
Lemma same_trees_trans s1 s2 s3 : same_trees s1 s2 → same_trees s2 s3 → same_trees s1 s3.
Proof. intros [] []. split; [congruence..|auto]. Qed.

Lemma shelf_io_inv {A} (act : _ → result _ (A * Shelf)) s r s' : shelf_io act s = (r, s') →
  ∃ s0, same_trees s s0 ∧
    ((s' = s0 ∧ ∃ e, r = Err e ∧ (honest s → e ≠ NotFound)) ∨
     match act s0 with Ok (a, s1) => r = Ok a ∧ s' = s1 | Err e => r = Err e ∧ s' = s0 end).
Proof.
  unfold shelf_io. intros Hio.
  destruct (Checkout.sh_faults s) as [|[e|] faults] eqn:Hf.
  - exists (Checkout.mkShelf (Checkout.sh_staging s) (visible s) (trash s) []). split.
    + split; try done. intros _. constructor.
    + right. cbn in Hio. destruct (act _) as [[a s1]|e]; by injection Hio as <- <-.
  - injection Hio as <- <-. eexists. split; [|left; split; [done|]].
    + split; try done. unfold honest. rewrite Hf. by intros [_ Hh]%Forall_cons.
    + eexists. split; [done|]. unfold honest. rewrite Hf. intros [Hh _]%Forall_cons. by apply Hh.
  - eexists (Checkout.mkShelf (Checkout.sh_staging s) (visible s) (trash s) faults). split.
    + split; try done. unfold honest. rewrite Hf. by intros [_ Hh]%Forall_cons.
    + right. cbn in Hio. destruct (act _) as [[a s1]|e]; by injection Hio as <- <-.
Qed.
Lemma touch_inv s r s' : touch_directory s = (r, s') → same_trees s s'.
Proof. intros (s0 & Hs & [[-> _]|[_ ->]])%shelf_io_inv; done. Qed.

(** The workspace [name] went to the trash as [destination]; what it replaced
    there, if anything, was an empty directory. *)
Definition withdrawn (name destination : bytes) (s s' : Shelf) : Prop :=
  ∃ t, visible s !! name = Some t ∧ tree_is_dir t = true ∧
    visible s' = delete name (visible s) ∧ trash s' = <[destination := t]> (trash s) ∧
    Checkout.sh_staging s' = Checkout.sh_staging s ∧
    (∀ old, trash s !! destination = Some old → tree_is_dir old = true ∧ tree_is_empty old = true) ∧
    (honest s → honest s').
Lemma withdrawn_same n d s1 s2 s3 s4 :
  same_trees s1 s2 → withdrawn n d s2 s3 → same_trees s3 s4 → withdrawn n d s1 s4.
Proof.
  intros [? Hv Ht ?] (t & ? & ? & ? & ? & ? & Hold & ?) []. rewrite Hv, Ht in *. exists t.
  split_and!; try congruence; auto.
Qed.

Lemma rename_workspace_inv n d t s r s' :
  rename_workspace n d t s = (r, s') → visible s !! n = Some t → tree_is_dir t = true →
  (is_ok r = false ∧ same_trees s s') ∨ (r = Ok () ∧ withdrawn n d s s').
Proof.
  intros (s0 & Hs & [(-> & e & -> & _)|Hact])%shelf_io_inv Hv Ht; [by left|]. destruct Hs as [Hs1 Hs2 Hs3 Hs4].
  destruct (match Checkout.sh_trash s0 !! d with Some old => _ | None => Ok () end) as [[]|e] eqn:Ho; cbn in Hact;
    destruct Hact as [-> ->]; [right; split; [done|]|by left].
  exists t. cbn. rewrite Hs2, Hs3. split_and!; try done. intros old Hold. rewrite Hs3, Hold in Ho.
  apply ensure_Ok_inv in Ho. by apply andb_true_iff in Ho.
Qed.
Lemma attempts_inv n t candidates : ∀ s r s',
  withdraw_attempts n t candidates s = (r, s') → visible s !! n = Some t → tree_is_dir t = true →
  (is_ok r = false ∧ same_trees s s') ∨ (∃ d, withdrawn n d s s' ∧ ∀ o, r = Ok o → o = Some d).
Proof.
  induction candidates as [|d candidates IH]; intros s r s' Ha Hv Ht; cbn [withdraw_attempts] in Ha.
  { injection Ha as <- <-. by left. }
  destruct (rename_workspace n d t s) as [r1 s1] eqn:Hr.
  destruct (rename_workspace_inv _ _ _ _ _ _ Hr Hv Ht) as [[Hbad Hs]|[-> Hw]].
  - destruct r1 as [[]|e]; [done|]. destruct e; try (by injection Ha as <- <-; left).
    apply IH in Ha; [|by rewrite (same_visible _ _ Hs)|done].
    destruct Ha as [[Hok Hs']|(d' & Hw & Ho)]; [left; split; [done|]; by eapply same_trees_trans|].
    right. exists d'. split; [|done]. by eapply withdrawn_same.
  - right. exists d. unfold st_bind, st_map_err, st_ret in Ha.
    destruct (touch_directory s1) as [r2 s2] eqn:H2. apply touch_inv in H2.
    destruct r2 as [[]|]; cbn [map_err] in Ha.
    2: { injection Ha as <- <-. split; [|done]. by eapply withdrawn_same. }
    destruct (touch_directory s2) as [r3 s3] eqn:H3. apply touch_inv in H3.
    pose proof (same_trees_trans _ _ _ H2 H3).
    destruct r3 as [[]|]; cbn [map_err] in Ha; injection Ha as <- <-;
      (split; [by eapply withdrawn_same|naive_solver]).
Qed.
(** A withdrawal leaves every tree where it was, or moves the workspace to the trash. *)
Lemma withdraw_inv candidates m s r s' :
  withdraw_workspace candidates m s = (r, s') →
  (same_trees s s' ∧ ∀ o, r = Ok o → o = None ∧ (honest s → visible s !! wm_name m = None)) ∨
  (∃ d, withdrawn (wm_name m) d s s' ∧ ∀ o, r = Ok o → o = Some d).
Proof.
  unfold withdraw_workspace, st_bind at 1, st_lift at 1. intros Hw.
  destruct (ensure _ _); [|injection Hw as <- <-; by left].
  destruct (symlink_metadata (wm_name m) s) as [r1 s1] eqn:H1.
  apply shelf_io_inv in H1 as (s0 & Hs & [(-> & e & -> & He)|Hact]).
  { left. destruct e; injection Hw as <- <-; (split; [done|]); try done.
    intros o [= <-]. split; [done|]. intros Hh. by destruct He. }
  pose proof (same_visible _ _ Hs) as Hvis.
  destruct (Checkout.sh_workspaces s0 !! wm_name m) as [t|] eqn:Hl; cbn in Hact; destruct Hact as [-> ->].
  2: { injection Hw as <- <-. left. split; [done|]. intros o [= <-]. split; [done|]. congruence. }
  unfold st_bind, st_lift, st_map_err in Hw.
  destruct (tree_is_dir t) eqn:Ht; cbn [ensure] in Hw; [|injection Hw as <- <-; by left].
  destruct (touch_directory s0) as [r2 s2] eqn:H2. apply touch_inv in H2.
  pose proof (same_trees_trans _ _ _ Hs H2) as Hs2.
  destruct r2 as [[]|]; cbn [map_err] in Hw; [|injection Hw as <- <-; by left].
  apply attempts_inv in Hw; [|by rewrite (same_visible _ _ H2)|done].
  destruct Hw as [[Hok Hs3]|(d & Hw & Ho)].
  - left. split; [by eapply same_trees_trans|]. by destruct r.
  - right. exists d. split; [|done]. by eapply withdrawn_same.
Qed.
End Withdraw.
#[global] Arguments honest {T} s.
#[global] Arguments same_trees {T} s s'.

(** ** Ready workspaces *)

Section Ready.
Context `{CatalogLaws C}.

(** Everything [load_ready_workspace] asks of a ready workspace. *)
Definition is_ready (root : bytes) (c : C) (d : Disk) (m : WorkspaceManifest) : Prop :=
  let id := wm_workspace_id m in
  (∃ b, encode_workspace_manifest m = Ok b ∧ workspace c id = Some b) ∧
  workspace_name c (wm_name m) = Some id ∧ workspace_pin c id = Some (wm_generation m) ∧
  manifest_at d (workspace_manifest_path root id) m.

Lemma manifest_at_same d d' p m : same_files d d' → manifest_at d p m ↔ manifest_at d' p m.
Proof. intros [Hi Hn _]. unfold manifest_at, data. by rewrite Hi, Hn. Qed.
Lemma manifest_at_inj d p m m' : manifest_at d p m → manifest_at d p m' → m = m'.
Proof. intros (n & ? & ?) (n' & ? & ?). congruence. Qed.
Lemma is_ready_same root c d d' m : same_files d d' → is_ready root c d m ↔ is_ready root c d' m.
Proof. intros Hs. unfold is_ready. by rewrite (manifest_at_same _ _ _ _ Hs). Qed.

Lemma load_inv root id s r s' : load_ready_workspace root id s = (r, s') →
  sys_catalog s' = sys_catalog s ∧ same_files (sys_disk s) (sys_disk s') ∧
  (∀ m, r = Ok (Some m) → wm_workspace_id m = id ∧ is_ready root (sys_catalog s) (sys_disk s) m) ∧
  (r = Ok None → ∀ m, wm_workspace_id m = id → ¬ is_ready root (sys_catalog s) (sys_disk s) m).
Proof.
  unfold load_ready_workspace. intros Hl.
  destruct (workspace (sys_catalog s) id) as [record|] eqn:Hw.
  2: { injection Hl as <- <-. split_and!; try done. intros _ m Hid ((b & _ & Hb) & _). congruence. }
  destruct (workspace_pin (sys_catalog s) id) as [pin|] eqn:Hp.
  2: { injection Hl as <- <-. split_and!; try done. intros _ m Hid (_ & _ & Hp' & _). congruence. }
  unfold st_bind at 1, manifest_io in Hl.
  destruct (read_workspace_manifest _ (sys_disk s)) as [rm d1] eqn:Hr.
  apply read_manifest_inv in Hr as [Hs Hat]. destruct rm as [m|e]; cbn [map_err] in Hl.
  2: { by injection Hl as <- <-. }
  specialize (Hat m eq_refl).
  unfold st_bind, st_lift, st_get, st_ret in Hl. cbn [sys_catalog] in Hl.
  destruct (bool_decide (wm_workspace_id m = id)) eqn:Hid; cbn [ensure] in Hl; [|by injection Hl as <- <-].
  apply bool_decide_eq_true in Hid.
  destruct (encode_workspace_manifest m) as [b|e] eqn:Hb; [|by injection Hl as <- <-].
  destruct (bool_decide (b = record)) eqn:Hbr; cbn [ensure] in Hl; [|by injection Hl as <- <-].
  apply bool_decide_eq_true in Hbr as ->. cbn [sys_catalog] in Hl.
  destruct (_ && _) eqn:Hc; injection Hl as <- <-; (split_and!; [done|done|..]); try done.
  - apply andb_true_iff in Hc as [Hn%bool_decide_eq_true Hg%bool_decide_eq_true].
    intros m' [= <-]. split; [done|]. rewrite <-Hid in *. split_and!; [by exists record|done..].
  - intros _ m' Hid' (_ & Hn & Hg & Hat'). rewrite Hid' in *.
    assert (m' = m) as -> by by eapply manifest_at_inj.
    by rewrite !bool_decide_eq_true_2 in Hc.
Qed.

(** ** Deletion *)

Context `{WorkspaceTree T}.

Lemma unpin_spec id (s : Sys C) f r s' :
  WorkspaceId_wf id → holds_view (sys_catalog s) f →
  batch_io WdCatalog (delete_workspace_pin batch_new id) s = (r, s') →
  sys_disk s' = sys_disk s ∧ ∃ f', holds_view (sys_catalog s') f' ∧ (∀ k, k ≠ KWorkspacePin id → f' k = f k) ∧
    (f' (KWorkspacePin id) = f (KWorkspacePin id) ∨ f' (KWorkspacePin id) = None) ∧
    (r = Ok () → f' (KWorkspacePin id) = None).
Proof.
  intros Hid Hv. unfold batch_io, delete_workspace_pin, batch_new. cbn [app]. set (b := [OpDeleteWorkspacePin id]).
  assert (Forall op_wf b) as Hb by (apply Forall_singleton; by split).
  pose proof (view_apply (sys_catalog s) f b Hv Hb) as Ha.
  assert (∀ f', same f' (batch_effect f b) → (∀ k, k ≠ KWorkspacePin id → f' k = f k) ∧ f' (KWorkspacePin id) = None) as Heff.
  { intros f' Hs. unfold batch_effect, write_effect in Hs. cbn in Hs. split.
    - intros k Hk. rewrite (Hs _). by rewrite decide_False.
    - rewrite (Hs _). by rewrite decide_True. }
  destruct (apply (sys_catalog s) b) as [[[]|e] c]; cbn [map_err]; intros [= <- <-]; (split; [done|]).
  - destruct Ha as (_ & f' & Hv' & [Ho Hk]%Heff). exists f'. split_and!; try done. by right.
  - destruct Ha as (f' & Hv' & [Hs|[Ho Hk]%Heff]); exists f'; split_and!; try done; try (by right).
    left. by rewrite (Hs _).
Qed.
Lemma remove_manifest_catalog root id (x : Sys C * Checkout.Shelf T) r x' : remove_manifest root id x = (r, x') →
  sys_catalog x'.1 = sys_catalog x.1 ∧ x'.2 = x.2.
Proof.
  unfold remove_manifest, site_file, st_map_err.
  destruct (remove_file _ (sys_disk x.1)) as [[[]|e] d1]; cbn.
  - destruct (sync_all_directory root d1) as [r2 d2]. by intros [= <- <-].
  - by destruct e; intros [= <- <-].
Qed.

(** No tree is lost: a visible one stays or goes to the trash, and only an
    empty directory of the trash may be replaced. *)
Definition trees_kept (name : bytes) (s s' : Checkout.Shelf T) : Prop :=
  (∀ n, n ≠ name → Checkout.sh_workspaces s' !! n = Checkout.sh_workspaces s !! n) ∧
  (∀ t, Checkout.sh_workspaces s !! name = Some t →
     Checkout.sh_workspaces s' !! name = Some t ∨ ∃ d, Checkout.sh_trash s' !! d = Some t) ∧
  (∀ n t, Checkout.sh_trash s !! n = Some t → Checkout.sh_trash s' !! n = Some t ∨ tree_is_empty t = true).
Lemma trees_kept_same name s s' : same_trees s s' → trees_kept name s s'.
Proof. intros [_ Hv Ht _]. unfold trees_kept. rewrite Hv, Ht. eauto. Qed.
Lemma trees_kept_withdrawn name d s s' : withdrawn name d s s' → trees_kept name s s'.
Proof.
  intros (t & Hv & Ht & Hv' & Ht' & _ & Hold & _). unfold trees_kept. rewrite Hv', Ht'. split_and!.
  - intros n Hn. by rewrite lookup_delete_ne.
  - intros t' Ht1. right. exists d. rewrite lookup_insert_eq. congruence.
  - intros n t' Hn. destruct (decide (n = d)) as [->|Hne]; [right; by apply (Hold t')|left; by rewrite lookup_insert_ne].
Qed.
Lemma withdraw_kept candidates m (s : Checkout.Shelf T) r s' :
  withdraw_workspace candidates m s = (r, s') → trees_kept (wm_name m) s s'.
Proof.
  intros [[Hs _]|(d & Hw & _)]%withdraw_inv; [by apply trees_kept_same|by eapply trees_kept_withdrawn].
Qed.
Lemma withdraw_hides candidates m (s : Checkout.Shelf T) o s' :
  honest s → withdraw_workspace candidates m s = (Ok o, s') → Checkout.sh_workspaces s' !! wm_name m = None.
Proof.
  intros Hh [[Hs Ho]|(d & (t & _ & _ & Hv & _) & _)]%withdraw_inv.
  - rewrite (same_visible _ _ Hs). by apply (Ho o eq_refl).
  - by rewrite Hv, lookup_delete_eq.
Qed.

(** Deletion never unpins a visible workspace. Run
    [delete_persisted_workspace] with any calls failing, calls that deny the
    existence of a visible workspace excepted. Either the workspace was not
    ready and nothing but fault schedules changed; or it was ready with
    manifest [m], and then only its pin may change in the catalog, the pin is
    gone only when its name left the visible workspaces, no tree is lost and no
    other workspace moves. After success the pin is gone, and
    [load_ready_workspace] reports no ready workspace whatever the disk holds. *)
Theorem delete_workspace_safe root candidates id (s : Sys C) (shelf : Checkout.Shelf T) f r s' shelf' :
  WorkspaceId_wf id → holds_view (sys_catalog s) f → honest shelf →
  delete_persisted_workspace root candidates id (s, shelf) = (r, (s', shelf')) →
  (is_ok r = false ∧ sys_catalog s' = sys_catalog s ∧ same_files (sys_disk s) (sys_disk s') ∧ shelf' = shelf) ∨
  ∃ m f', wm_workspace_id m = id ∧ is_ready root (sys_catalog s) (sys_disk s) m ∧ holds_view (sys_catalog s') f' ∧
    (∀ k, k ≠ KWorkspacePin id → f' k = f k) ∧
    (f' (KWorkspacePin id) = f (KWorkspacePin id) ∨
     f' (KWorkspacePin id) = None ∧ Checkout.sh_workspaces shelf' !! wm_name m = None) ∧
    trees_kept (wm_name m) shelf shelf' ∧
    (is_ok r = true → f' (KWorkspacePin id) = None ∧
       ∀ d c, holds_view c f' → (load_ready_workspace root id (mkSys d c)).1 = Ok None).
Proof.
  intros Hid Hv Hh. unfold delete_persisted_workspace, st_bind at 1, on_sys at 1. cbn [fst snd].
  destruct (load_ready_workspace root id s) as [rl s1] eqn:Hl. apply load_inv in Hl as (Hc1 & Hs1 & Hsome & _).
  destruct rl as [[m|]|e]; cbn [map_err]; [|by intros [= <- <- <-]; left..].
  destruct (Hsome m eq_refl) as [Hm Hready]. unfold st_bind at 1, st_lift at 1. cbn [ok_or].
  unfold st_bind at 1, on_shelf at 1. cbn [fst snd].
  destruct (withdraw_workspace candidates m shelf) as [rw shelf1] eqn:Hw.
  pose proof (withdraw_kept _ _ _ _ _ Hw) as Hkept. rewrite <-Hc1 in Hv.
  destruct rw as [o|e]; cbn [map_err].
  2: { intros [= <- <- <-]. right. exists m, f. split_and!; try done. by left. }
  apply withdraw_hides in Hw; [|done]. unfold st_bind, on_sys. cbn [fst snd].
  destruct (batch_io WdCatalog _ s1) as [rb s2] eqn:Hb.
  apply (unpin_spec _ _ f) in Hb as (_ & f' & Hv' & Ho & Hpin & Hok); [|done..].
  assert (f' (KWorkspacePin id) = f (KWorkspacePin id) ∨
    f' (KWorkspacePin id) = None ∧ Checkout.sh_workspaces shelf1 !! wm_name m = None) by naive_solver.
  destruct rb as [[]|e]; cbn [map_err].
  2: { intros [= <- <- <-]. right. exists m, f'. by split_and!. }
  destruct (remove_manifest root id (s2, shelf1)) as [rr [s3 shelf3]] eqn:Hr.
  apply remove_manifest_catalog in Hr as [Hc3 Hsh]. cbn [fst snd] in *. subst shelf3. intros [= <- <- <-]. right. exists m, f'.
  rewrite Hc3. specialize (Hok eq_refl). split_and!; try done. intros _. split; [done|].
  intros d c Hvc. unfold load_ready_workspace. cbn [sys_catalog].
  destruct (workspace c id); [|done]. destruct (workspace_pin c id) as [pin|] eqn:Hp; [|done].
  pose proof (view_workspace_pin _ _ _ _ Hvc Hid Hp). congruence.
Qed.

(** ** Reconciliation *)

(** The workspace of the manifest [m] is ready. *)
Definition ready_for (root : bytes) (c : C) (d : Disk) (m : WorkspaceManifest) : Prop :=
  ∃ m0, wm_workspace_id m0 = wm_workspace_id m ∧ is_ready root c d m0.
Lemma ready_for_same root c d d' m : same_files d d' → ready_for root c d m ↔ ready_for root c d' m.
Proof. intros Hs. unfold ready_for. by setoid_rewrite (is_ready_same root c d d' _ Hs). Qed.

(** The workspace of [m] is visible exactly when it is ready. *)
Definition agrees (root : bytes) (c : C) (d : Disk) (m : WorkspaceManifest) (shelf : Checkout.Shelf T) : Prop :=
  (ready_for root c d m ∧ ∃ t, Checkout.sh_workspaces shelf !! wm_name m = Some t ∧ tree_is_dir t = true) ∨
  (¬ ready_for root c d m ∧ Checkout.sh_workspaces shelf !! wm_name m = None).
(** Only the workspaces of the unready manifests among [paths] have gone. *)
Definition removed_only (root : bytes) (c : C) (d : Disk) (paths : list Path) (sh sh' : Checkout.Shelf T) : Prop :=
  ∀ n, Checkout.sh_workspaces sh' !! n = Checkout.sh_workspaces sh !! n ∨
    (Checkout.sh_workspaces sh' !! n = None ∧
     ∃ p m, p ∈ paths ∧ manifest_at d p m ∧ wm_name m = n ∧ ¬ ready_for root c d m).

Lemma check_visible_inv m (x : Sys C * Checkout.Shelf T) u x' : check_visible m x = (Ok u, x') →
  x'.1 = x.1 ∧ same_trees x.2 x'.2 ∧
  ∃ t, Checkout.sh_workspaces x.2 !! wm_name m = Some t ∧ tree_is_dir t = true.
Proof.
  intros Hc. unfold check_visible in Hc. apply st_bind_Ok in Hc as (u1 & x1 & Hl & Hc).
  apply st_lift_Ok in Hl as [_ ->]. apply st_bind_Ok in Hc as (t & x2 & Hl & Hc).
  apply st_lift_Ok in Hc as [Ht%ensure_Ok_inv ->]. unfold on_shelf in Hl.
  destruct (symlink_metadata (wm_name m) x.2) as [r sh] eqn:Hm. destruct r as [t'|]; [|done].
  injection Hl as -> <-. apply shelf_io_inv in Hm as (s0 & Hs & [(_ & e & He & _)|Hact]); [done|].
  cbn. destruct (Checkout.sh_workspaces s0 !! wm_name m) as [t1|] eqn:Hl; [|by destruct Hact].
  cbn in Hact. destruct Hact as [[= ->] ->]. split_and!; try done. exists t1.
  by rewrite <-(same_visible _ _ Hs).
Qed.

(** One manifest. *)
Lemma reconcile_manifest_inv root candidates p rep (s : Sys C) (sh : Checkout.Shelf T) rep' s' sh' :
  honest sh → reconcile_manifest root candidates p rep (s, sh) = (Ok rep', (s', sh')) →
  sys_catalog s' = sys_catalog s ∧ same_files (sys_disk s) (sys_disk s') ∧ honest sh' ∧
  ∃ m, manifest_at (sys_disk s) p m ∧ agrees root (sys_catalog s) (sys_disk s) m sh' ∧
    removed_only root (sys_catalog s) (sys_disk s) [p] sh sh' ∧
    ∀ n, n ≠ wm_name m → Checkout.sh_workspaces sh' !! n = Checkout.sh_workspaces sh !! n.
Proof.
  intros Hh Hr. unfold reconcile_manifest in Hr. apply st_bind_Ok in Hr as (m & [s1 sh1] & Hm & Hr).
  unfold on_sys, manifest_io in Hm. cbn [fst snd] in Hm.
  destruct (read_workspace_manifest p (sys_disk s)) as [rm d1] eqn:Hread.
  apply read_manifest_inv in Hread as [Hs1 Hat]. destruct rm as [m'|]; [|done]. injection Hm as -> <- <-.
  specialize (Hat m eq_refl). apply st_bind_Ok in Hr as (ex & x2 & Hl & Hr). apply st_lift_Ok in Hl as [_ ->].
  apply st_bind_Ok in Hr as (ready & [s2 sh2] & Hl & Hr). unfold on_sys in Hl. cbn [fst snd] in Hl.
  destruct (load_ready_workspace root (wm_workspace_id m) (mkSys d1 (sys_catalog s))) as [rl s3] eqn:Hload.
  apply load_inv in Hload as (Hc3 & Hs3 & Hsome & Hnone). cbn [sys_catalog sys_disk] in *.
  pose proof (same_files_trans _ _ _ Hs1 Hs3) as Hs. destruct rl as [ready'|]; [|done]. injection Hl as -> <- <-.
  destruct ready as [m0|].
  - apply st_bind_Ok in Hr as (u & [s4 sh4] & Hc & Hr). apply check_visible_inv in Hc as (Hs4 & Ht4 & t & Hv & Ht).
    cbn [fst snd] in *. subst s4. apply st_bind_Ok in Hr as (n & x5 & Hl & Hr). apply st_lift_Ok in Hl as [_ ->].
    injection Hr as _ <- <-. split_and!; [done..|by apply (same_honest _ _ Ht4)|]. exists m.
    rewrite <-(same_visible _ _ Ht4) in Hv. split_and!; [done| | |].
    + left. split; [|by exists t]. destruct (Hsome m0 eq_refl) as [Hid Hready]. exists m0. split; [done|].
      by apply (is_ready_same root _ _ _ m0 Hs1).
    + intros n'. left. by rewrite (same_visible _ _ Ht4).
    + intros n' _. by rewrite (same_visible _ _ Ht4).
  - assert (¬ ready_for root (sys_catalog s) (sys_disk s) m) as Hnot.
    { intros (m0 & Hid & Hready). apply (Hnone eq_refl m0 Hid). by apply (is_ready_same root _ _ _ m0 Hs1). }
    apply st_bind_Ok in Hr as (o & [s4 sh4] & Hw & Hr). unfold on_shelf in Hw. cbn [fst snd] in Hw.
    destruct (withdraw_workspace _ m sh) as [rw sh5] eqn:Hwd. destruct rw as [o'|]; [|done]. injection Hw as -> <- <-.
    assert (s' = s3 ∧ sh' = sh5) as [-> ->].
    { destruct o; [apply st_bind_Ok in Hr as (n & x5 & Hl & Hr); apply st_lift_Ok in Hl as [_ ->]|];
        by injection Hr as _ <- <-. }
    pose proof (withdraw_kept _ _ _ _ _ Hwd) as (Hoth & _). pose proof (withdraw_hides _ _ _ _ _ Hh Hwd) as Hhide.
    assert (honest sh5) as Hh5.
    { apply withdraw_inv in Hwd as [[Hst _]|(d & (t & _ & _ & _ & _ & _ & _ & Hst) & _)]; [by apply (same_honest _ _ Hst)|auto]. }
    split_and!; [done..|]. exists m. split_and!; [done|by right| |done].
    intros n. destruct (decide (n = wm_name m)) as [->|Hne]; [right|left; by apply Hoth].
    split; [done|]. exists p, m. split_and!; try done. by apply list_elem_of_singleton.
Qed.

Lemma agrees_same root c d d' m sh : same_files d d' → agrees root c d' m sh → agrees root c d m sh.
Proof. intros Hs. unfold agrees. by rewrite (ready_for_same root c d d' m Hs). Qed.
Lemma removed_only_same root c d d' paths sh sh' :
  same_files d d' → removed_only root c d' paths sh sh' → removed_only root c d paths sh sh'.
Proof.
  intros Hs Hr n. destruct (Hr n) as [?|(Hn & p & m & Hp & Hm & Hname & Hnot)]; [by left|right]. split; [done|].
  exists p, m. by rewrite (manifest_at_same _ _ _ _ Hs), (ready_for_same root c d d' m Hs).
Qed.
Lemma removed_only_app root c d p paths sh1 sh2 sh3 :
  removed_only root c d [p] sh1 sh2 → removed_only root c d paths sh2 sh3 → removed_only root c d (p :: paths) sh1 sh3.
Proof.
  intros H12 H23 n. destruct (H23 n) as [->|(Hn & p' & m & Hp & Hrest)].
  - destruct (H12 n) as [?|(Hn & p' & m & ->%list_elem_of_singleton & Hrest)]; [by left|right].
    split; [done|]. exists p, m. split; [by left|done].
  - right. split; [done|]. exists p', m. split; [by right|done].
Qed.

(** No two of the manifests at [paths] name the same workspace. *)
Definition distinct_names (d : Disk) (paths : list Path) : Prop :=
  ∀ p p' m m', p ∈ paths → p' ∈ paths → manifest_at d p m → manifest_at d p' m' → wm_name m = wm_name m' → p = p'.

Lemma reconcile_manifests_inv root candidates d (c : C) paths : ∀ rep (s : Sys C) (sh : Checkout.Shelf T) rep' s' sh',
  honest sh → same_files d (sys_disk s) → sys_catalog s = c →
  reconcile_manifests root candidates paths rep (s, sh) = (Ok rep', (s', sh')) →
  sys_catalog s' = c ∧ same_files d (sys_disk s') ∧ removed_only root c d paths sh sh' ∧
  ∀ p, p ∈ paths → ∃ m, manifest_at d p m ∧ (NoDup paths → distinct_names d paths → agrees root c d m sh').
Proof.
  induction paths as [|p paths IH]; intros rep s sh rep' s' sh' Hh Hd Hc Hr; cbn [reconcile_manifests] in Hr.
  { injection Hr as _ <- <-. split_and!; try done; [by left|]. by intros p ?%elem_of_nil. }
  apply st_bind_Ok in Hr as (rep1 & [s1 sh1] & H1' & Hr).
  apply reconcile_manifest_inv in H1' as (Hc1 & Hs1 & Hh1 & m & Hm & Hag & Hrm & _); [|done]. rewrite Hc in *.
  apply (agrees_same root c d) in Hag; [|done]. apply (removed_only_same root c d) in Hrm; [|done].
  apply (manifest_at_same _ _ _ _ Hd) in Hm. pose proof (same_files_trans _ _ _ Hd Hs1) as Hd1.
  destruct (IH _ _ _ _ _ _ Hh1 Hd1 Hc1 Hr) as (Hc' & Hd' & Hrm' & Hall).
  split_and!; [done..|by eapply removed_only_app|]. intros p' [->|Hp']%elem_of_cons.
  - exists m. split; [done|]. intros [Hnew _]%NoDup_cons Hdist.
    assert (Checkout.sh_workspaces sh' !! wm_name m = Checkout.sh_workspaces sh1 !! wm_name m) as Heq.
    { destruct (Hrm' (wm_name m)) as [?|(_ & q & mq & Hq & Hmq & Hname & _)]; [done|].
      destruct Hnew. rewrite (Hdist p q m mq); [done|by left|by right|done..]. }
    unfold agrees. by rewrite Heq.
  - destruct (Hall p' Hp') as (m' & Hm' & Hag'). exists m'. split; [done|]. intros [_ Hnd]%NoDup_cons Hdist.
    apply Hag'; [done|]. intros q q' mq mq' Hq Hq'. apply Hdist; by right.
Qed.

(** The manifest files of the directory. *)
Definition listed (d : Disk) (root : bytes) (p : Path) : Prop :=
  is_Some (d_names d !! p) ∧ p_dir p = root ∧ is_manifest_name p = true.
Lemma listed_same d d' root p : same_files d d' → listed d root p ↔ listed d' root p.
Proof. intros [_ Hn _]. unfold listed. by rewrite Hn. Qed.
Definition honest_disk (d : Disk) : Prop := Forall (λ o, ∀ f, o = Some f → f_kind f ≠ NotFound) (d_faults d).

Lemma list_manifests_inv root (s : Sys C) (sh : Checkout.Shelf T) paths x :
  honest_disk (sys_disk s) → list_manifests root (s, sh) = (Ok paths, x) →
  sys_catalog x.1 = sys_catalog s ∧ same_files (sys_disk s) (sys_disk x.1) ∧ x.2 = sh ∧
  NoDup paths ∧ ∀ p, p ∈ paths ↔ listed (sys_disk s) root p.
Proof.
  intros Hh. unfold list_manifests, site_file, read_dir. cbn [fst snd].
  destruct (io _ (sys_disk s)) as [r d1] eqn:Hio.
  assert (∀ e, r = Err e → e ≠ NotFound) as Hnf.
  { intros e ->. unfold io, pop_fault in Hio. unfold honest_disk in Hh.
    destruct (d_faults (sys_disk s)) as [|[f|] fs]; [done| |done].
    injection Hio as <- <-. apply Forall_cons in Hh as [Hf _]. by apply Hf. }
  io_cases Hio d0 Hs; [destruct e; try done; by destruct (Hnf _ eq_refl)|].
  injection Hio as <- <-. destruct (ensure _ _); cbn; [|done]. intros [= <- <-]. cbn.
  rewrite (same_names _ _ Hs). split_and!; [done..| |].
  - rewrite sort_on_perm by apply _. apply NoDup_filter, NoDup_filter, NoDup_fst_map_to_list.
  - intros p. rewrite sort_on_perm, !list_elem_of_filter by apply _. unfold listed.
    assert (p ∈ (map_to_list (d_names (sys_disk s))).*1 ↔ is_Some (d_names (sys_disk s) !! p)) as ->; [|tauto].
    rewrite list_elem_of_fmap. split.
    + intros ([q n] & -> & Hq%elem_of_map_to_list). by exists n.
    + intros [n Hn]. exists (p, n). by rewrite elem_of_map_to_list.
Qed.

(** Startup makes visibility and readiness agree. When
    [reconcile_workspace_publications] succeeds (calls that deny the existence
    of what is there excepted), the catalog and the files are as before, every
    manifest of the directory was readable, and a workspace that is no longer
    visible is one whose manifest has no ready records in the catalog. If
    moreover no two manifests name the same workspace, then the workspace of
    each manifest is a visible directory when it is ready, and is not visible
    when it is not. *)
Theorem reconcile_settles root candidates (s : Sys C) (sh : Checkout.Shelf T) rep s' sh' :
  honest sh → honest_disk (sys_disk s) →
  reconcile_workspace_publications root candidates (s, sh) = (Ok rep, (s', sh')) →
  let d := sys_disk s in
  sys_catalog s' = sys_catalog s ∧ same_files d (sys_disk s') ∧
  (∀ n, Checkout.sh_workspaces sh' !! n = Checkout.sh_workspaces sh !! n ∨
    (Checkout.sh_workspaces sh' !! n = None ∧
     ∃ p m, listed d root p ∧ manifest_at d p m ∧ wm_name m = n ∧ ¬ ready_for root (sys_catalog s) d m)) ∧
  ∀ p, listed d root p → ∃ m, manifest_at d p m ∧
    ((∀ p p' m m', listed d root p → listed d root p' → manifest_at d p m → manifest_at d p' m' →
        wm_name m = wm_name m' → p = p') → agrees root (sys_catalog s) d m sh').
Proof.
  intros Hh Hhd Hr d. unfold reconcile_workspace_publications in Hr.
  apply st_bind_Ok in Hr as (paths & [s1 sh1] & Hl & Hr).
  apply list_manifests_inv in Hl as (Hc1 & Hs1 & Hsh & Hnd & Hin); [|done].
  cbn [fst snd] in *. subst sh1.
  destruct (reconcile_manifests_inv root candidates d (sys_catalog s) paths _ _ _ _ _ _ Hh Hs1 Hc1 Hr)
    as (Hc' & Hs' & Hrm & Hall).
  split_and!; [done..| |].
  - intros n. destruct (Hrm n) as [?|(Hn & p & m & Hp%Hin & Hrest)]; [by left|right]. split; [done|]. by exists p, m.
  - intros p Hp. destruct (Hall p) as (m & Hm & Hag); [by apply Hin|]. exists m. split; [done|].
    intros Hdist. apply Hag; [done|]. intros q q' mq mq' Hq%Hin Hq'%Hin. by apply Hdist.
Qed.
End Ready.

(** ** Runs *)

#[export] Instance demo_tree : WorkspaceTree bytes := {| tree_is_dir _ := true; tree_is_empty _ := false |}.
Definition demo_root : bytes := b_ "manifests".
Definition demo_workspace (id : byte) : WorkspaceManifest :=
  mkWorkspaceManifest (mkWorkspaceId (replicate 16 id)) sample_repo (replicate 16 x02) sample_alias_oid 3 (b_ "w")
    9 0 1 0 0 0 1 0 [].
Definition demo_temporary_path : list Path := [mkPath demo_root (b_ "t") None].
Definition demo_sys : Sys InMemoryCatalog := mkSys (mkDisk [] ∅ [] []) InMemoryCatalog_default.
Definition demo_shelf : Checkout.Shelf bytes := Checkout.mkShelf None {[b_ "w" := b_ "tree"]} ∅ [].
Definition demo_candidates (id : WorkspaceId) : list bytes := [Cache.hex (ws_bytes id)].
(** The workspace [x01] made ready. *)
Definition demo_ready := persist_ready_workspace demo_root demo_temporary_path (demo_workspace x01) demo_sys.
(** A manifest of [x02] with the same name is on disk when [x01] becomes ready. *)
Definition demo_abandoned : Sys InMemoryCatalog :=
  (persist_ready_workspace demo_root demo_temporary_path (demo_workspace x01)
    (manifest_io id (ensure_workspace_manifest demo_root demo_temporary_path (demo_workspace x02)) demo_sys).2).2.
Definition demo_reconciled := reconcile_workspace_publications demo_root demo_candidates (demo_abandoned, demo_shelf).

(** An abandoned manifest hides a ready workspace. The manifest of a
    workspace whose publication stopped stays on disk; another workspace then
    takes the same name and becomes ready. The next startup reconciliation
    finds the first manifest without ready records and withdraws the directory
    of its name, which is the ready workspace: it is no longer visible although
    [load_ready_workspace] still reports it ready, and every startup after that
    fails with [ReadyWorkspaceMissing]. *)
Theorem abandoned_manifest_hides_ready :
  is_ok demo_reconciled.1 = true ∧
  (load_ready_workspace demo_root (mkWorkspaceId (replicate 16 x01)) demo_reconciled.2.1).1 =
    Ok (Some (demo_workspace x01)) ∧
  Checkout.sh_workspaces demo_shelf !! b_ "w" = Some (b_ "tree") ∧
  Checkout.sh_workspaces demo_reconciled.2.2 !! b_ "w" = None ∧
  (reconcile_workspace_publications demo_root demo_candidates demo_reconciled.2).1 = Err (ReadyWorkspaceMissing (b_ "w")).
Proof. split_and!; vm_compute; reflexivity. Qed.

Lemma demo_workspace_wf id : WorkspaceSpec.manifest_wf (demo_workspace id).
Proof.
  unfold WorkspaceSpec.manifest_wf, is_u64, is_u32, in_width. cbn. split_and!; try done; try lia.
  unfold counts. repeat (constructor; [cbn; lia|]). constructor.
Qed.
(** The demo workspace becomes ready from an empty disk and catalog. *)
Lemma ready_workspace_complete_witness :
  is_ok demo_ready.1 = true ∧
  ∃ f', holds_view (sys_catalog demo_ready.2) f' ∧ published (demo_workspace x01) f' ∧
    ∀ d, crash (sys_disk demo_ready.2) d → d_faults d = [] →
      (load_ready_workspace demo_root (wm_workspace_id (demo_workspace x01)) (mkSys d (sys_catalog demo_ready.2))).1 =
        Ok (Some (demo_workspace x01)).
Proof.
  assert (is_ok demo_ready.1 = true) as Hok by (vm_compute; reflexivity). split; [exact Hok|].
  destruct (ready_workspace_complete demo_root demo_temporary_path (demo_workspace x01) demo_sys
    (stored InMemoryCatalog_default) demo_ready.1 demo_ready.2 (demo_workspace_wf x01)) as (f' & Hv & _ & Hr);
    [intros k; reflexivity|..].
  - unfold demo_ready. by destruct (persist_ready_workspace _ _ _ _).
  - destruct (Hr Hok) as [Hp Hl]. exists f'. split; [exact Hv|]. split; [exact Hp|]. intros d Hc Hf.
    rewrite (Hl (or_introl eq_refl) d _ Hc Hf Hv). rewrite decide_True; [reflexivity|].
    split_and!; vm_compute; eexists; reflexivity.
Defined.

Definition demo_deleted :=
  delete_persisted_workspace demo_root [b_ "gone"] (mkWorkspaceId (replicate 16 x01)) (demo_ready.2, demo_shelf).
(** Deleting it removes the pin and the visible directory. *)
Lemma delete_workspace_safe_witness :
  is_ok demo_deleted.1 = true ∧
  ∃ f', holds_view (sys_catalog demo_deleted.2.1) f' ∧
    f' (KWorkspacePin (mkWorkspaceId (replicate 16 x01))) = None ∧
    Checkout.sh_workspaces demo_deleted.2.2 !! b_ "w" = None.
Proof.
  assert (is_ok demo_deleted.1 = true) as Hok by (vm_compute; reflexivity). split; [exact Hok|].
  destruct (delete_workspace_safe demo_root [b_ "gone"] (mkWorkspaceId (replicate 16 x01)) demo_ready.2 demo_shelf
    (stored (sys_catalog demo_ready.2)) demo_deleted.1 demo_deleted.2.1 demo_deleted.2.2)
    as [[Hbad _]|(m & f' & _ & _ & Hv & _ & _ & _ & Hgone)]; try (intros k; reflexivity); [reflexivity|constructor|..].
  - unfold demo_deleted. by destruct (delete_persisted_workspace _ _ _ _) as [? [? ?]].
  - congruence.
  - destruct (Hgone Hok) as [Hpin _]. exists f'. split; [exact Hv|]. split; [exact Hpin|]. vm_compute. reflexivity.
Defined.

Definition demo_startup := reconcile_workspace_publications demo_root demo_candidates (demo_ready.2, demo_shelf).
(** With one manifest the ready workspace stays visible. *)
Lemma reconcile_settles_witness :
  demo_startup.1 = Ok (mkWReconciliation 1 1 0) ∧
  same_files (sys_disk demo_ready.2) (sys_disk demo_startup.2.1) ∧
  Checkout.sh_workspaces demo_startup.2.2 !! b_ "w" = Some (b_ "tree").
Proof.
  assert (demo_startup.1 = Ok (mkWReconciliation 1 1 0)) as Hok by (vm_compute; reflexivity). split; [exact Hok|].
  destruct (reconcile_settles demo_root demo_candidates demo_ready.2 demo_shelf (mkWReconciliation 1 1 0)
    demo_startup.2.1 demo_startup.2.2) as (_ & Hs & _); [constructor|constructor|..].
  - rewrite <-Hok. unfold demo_startup. by destruct (reconcile_workspace_publications _ _ _) as [? [? ?]].
  - split; [exact Hs|]. vm_compute. reflexivity.
Defined.
End WorkspaceReconcileSpec.
