(* ===== verification/ColdSource.v ===== *)
(** * Checkout from cold storage: [reflink-forest-workspace/src/lib.rs]

    [ColdWorkspaceSource] resolves Git objects through the catalog and the
    chunks, plans a commit, feeds materialization through the cache, and
    publishes the result as a durable workspace. *)

From Stdlib Require Import ZArith Lia Strings.Byte Strings.String.
From stdpp Require Import base tactics list gmap strings.
From S2P Require Import Prelude Order Core Format Codec CatalogCodec Catalog Chunk Disk Store Git Reader Generation Cache Checkout Workspace WorkspaceStore.
Import Core Format Codec CatalogCodec Catalog Chunk Disk Store Git Cache Checkout Workspace WorkspaceStore.

#[local] Open Scope Z_scope.

Module ColdSource.

Inductive WorkspaceError :=
| MissingAlias (oid : GitOid)
| MissingLocation (id : ContentId)
| WsStore (e : StoreError)
| WsHydration (e : HydrationError)
| WsCheckout (e : CheckoutError)
| WrongKind (expected actual : ObjectKind)
| WsCodec (e : CodecError)
| UnsupportedCodec (codec : Format.Codec)
| WsContentMismatch (expected actual : ContentId)
| WsMaintenance (e : Generation.MaintenanceError)
| TreeDepthExceeded.
Abbreviation CsResult := (result WorkspaceError).

(** ** The source *)

(** [cs_chunk g n] is the file at [chunk_path(g, n)], or why it cannot be
    opened; [cs_lease g] is what taking a lease of a generation gives, where
    the source has leases. A lease is held while one record is read. *)
Record ColdWorkspaceSource (C : Type) := mkColdSource {
  cs_repository : RepoId;
  cs_catalog : C;
  cs_chunk : Z → Z → result IoErrorKind bytes;
  cs_lease : option (Z → result Generation.MaintenanceError unit) }.
Arguments mkColdSource {C}.
Arguments cs_repository {C}.
Arguments cs_catalog {C}.
Arguments cs_chunk {C}.
Arguments cs_lease {C}.

(** [hydrate_raw_blob_from_chunk]. A chunk that cannot be opened fails where an
    empty one does, with the error of the open. *)
Definition hydrate_raw_blob_from_chunk `{Digests} `{Zstd} (cache : Cache) (location : option ObjectLocation)
    (chunk : result IoErrorKind bytes) (id : ContentId) : result HydrationError (bytes * bytes * bytes) * Cache :=
  match chunk with
  | Ok file => hydrate_blob_from_chunk cache location file id
  | Err e =>
      let '(r, cache) := hydrate_blob_from_chunk cache location [] id in
      (map_err (λ x, match x with HydrationStore (StoreIo UnexpectedEof) => HydrationStore (StoreIo e) | _ => x end) r, cache)
  end.

Section Source.
Context `{Digests} `{Zstd} `{Catalog C}.
Abbreviation Source := (ColdWorkspaceSource C).

Definition new (repository : RepoId) (catalog : C) (chunk : Z → Z → result IoErrorKind bytes) : Source :=
  mkColdSource repository catalog chunk None.
Definition new_with_leases (repository : RepoId) (catalog : C) (chunk : Z → Z → result IoErrorKind bytes)
    (lease : Z → result Generation.MaintenanceError unit) : Source :=
  mkColdSource repository catalog chunk (Some lease).

Definition content_id (s : Source) (oid : GitOid) : CsResult ContentId :=
  ok_or (oid_alias (cs_catalog s) (cs_repository s) oid) (MissingAlias oid).
Definition take_lease (s : Source) (g : Z) : CsResult unit :=
  match cs_lease s with
  | Some lease => map_err WsMaintenance (lease g)
  | None => Ok ()
  end.
Definition record_for (s : Source) (oid : GitOid) : CsResult (ContentId * ObjectRecord) :=
  id ← content_id s oid;
  location ← ok_or (object_location (cs_catalog s) id) (MissingLocation id);
  _ ← take_lease s (ol_generation location);
  file ← map_err (λ e, WsStore (StoreIo e)) (cs_chunk s (ol_generation location) (ol_chunk_id location));
  record ← map_err WsStore (read_record_at file location);
  raw_payload ← map_err WsCodec (decode_object_payload record);
  let actual := ContentId_for_object (or_kind record) raw_payload in
  _ ← ensure (bool_decide (actual = id) && bool_decide (or_content_id record = id)) (WsContentMismatch id actual);
  Ok (id, mkObjectRecord (or_kind record) Raw (or_flags record) (or_raw_length record) (or_content_id record)
            (or_primary_oid record) raw_payload).
Definition git_object (s : Source) (oid : GitOid) : CsResult GitObject :=
  r ← record_for s oid;
  Ok (mkGitObject oid (or_kind r.2) (or_payload r.2)).

(** The source of a materialization. *)
Definition cold_blob_content_id (s : Source) (oid : GitOid) : ST Cache WorkspaceError ContentId :=
  id ⇐ st_lift (content_id s oid);
  location ⇐ st_lift (ok_or (object_location (cs_catalog s) id) (MissingLocation id));
  _ ⇐ st_lift (take_lease s (ol_generation location));
  _ ⇐ (λ cache,
         let '(r, cache) := hydrate_raw_blob_from_chunk cache (object_location (cs_catalog s) id)
                              (cs_chunk s (ol_generation location) (ol_chunk_id location)) id in
         (map_err WsHydration r, cache));
  st_ret id.
Definition cold_blob_bytes (s : Source) (oid : GitOid) : CsResult bytes :=
  r ← record_for s oid;
  _ ← ensure (bool_decide (or_kind r.2 = Blob)) (WrongKind Blob (or_kind r.2));
  Ok (or_payload r.2).
#[export] Instance ColdWorkspaceSource_RawCheckoutSource : RawCheckoutSource Source WorkspaceError :=
  {| blob_content_id := cold_blob_content_id; blob_bytes := cold_blob_bytes |}.
End Source.

(** ** Planning *)

(** Over the lookup of Git objects. *)
Section Plan.
Context (git_object : GitOid → CsResult GitObject) (limits : CheckoutLimits).

Definition DIRECTORY_MODE : Z := 16384. (* 0o040000 *)
(** [expand_tree tree path builder active] is the recursive call; the trees
    being expanded are [active], which every call leaves as it found it. *)
Abbreviation Expand := (GitOid → option RelativePath → CheckoutPlanBuilder → gset GitOid → CsResult CheckoutPlanBuilder).
Definition expand_tree_entry (expand_tree : Expand) (entry : GitTreeEntry) (parent : option RelativePath)
    (builder : CheckoutPlanBuilder) (active : gset GitOid) : CsResult CheckoutPlanBuilder :=
  if decide (Git.te_mode entry = DIRECTORY_MODE) then
    name ← map_err WsCheckout (TreeName_new (Git.te_name entry) limits);
    path ← map_err WsCheckout (match parent with
                               | Some parent => join parent name limits
                               | None => from_components [name] limits
                               end);
    _ ← ensure (bool_decide (Z.of_nat (length path) ≤ max_components limits)) TreeDepthExceeded;
    expand_tree (Git.te_oid entry) (Some path) builder active
  else
    entry ← map_err WsCheckout (TreeEntry_from_raw (Git.te_name entry) (Git.te_mode entry) (Git.te_oid entry) limits);
    map_err WsCheckout (add_tree_entry builder parent entry).
Fixpoint expand_entries (expand_tree : Expand) (entries : list GitTreeEntry) (parent : option RelativePath)
    (builder : CheckoutPlanBuilder) (active : gset GitOid) : CsResult CheckoutPlanBuilder :=
  match entries with
  | [] => Ok builder
  | entry :: entries =>
      builder ← expand_tree_entry expand_tree entry parent builder active;
      expand_entries expand_tree entries parent builder active
  end.
(** The depth of the recursion is [fuel]: a path has at most [max_components]. *)
Fixpoint expand_tree (fuel : nat) : Expand := λ tree parent builder active,
  match fuel with
  | O => Err TreeDepthExceeded
  | S fuel =>
      _ ← ensure (bool_decide (tree ∉ active)) TreeDepthExceeded;
      object ← git_object tree;
      _ ← ensure (bool_decide (go_kind object = Tree)) (WrongKind Tree (go_kind object));
      entries ← map_err (λ _, WrongKind Tree (go_kind object)) (parse_tree_entries object);
      expand_entries (expand_tree fuel) entries parent builder ({[tree]} ∪ active)
  end.
Definition depth_fuel : nat := S (Z.to_nat (max_components limits)).
Definition plan_commit (commit : GitOid) : CsResult CheckoutPlan :=
  commit_object ← git_object commit;
  _ ← ensure (bool_decide (go_kind commit_object = Commit)) (WrongKind Commit (go_kind commit_object));
  root_tree ← map_err (λ _, WrongKind Commit (go_kind commit_object)) (commit_tree_oid commit_object);
  builder ← expand_tree depth_fuel root_tree None (Builder_new limits) ∅;
  Ok (finish builder).
End Plan.

(** ** Checkout *)

(** A staged or published tree is its nodes. *)
#[export] Instance Nodes_WorkspaceTree : WorkspaceTree Nodes :=
  {| tree_is_dir _ := true; tree_is_empty nodes := bool_decide (nodes = ∅) |}.

Record WorkspaceCheckoutRequest := mkRequest {
  rq_commit : GitOid; rq_limits : CheckoutLimits; rq_name : bytes;
  rq_gitlink_policy : GitlinkPolicy; rq_replace : ReplacePolicy }.
Inductive WorkspaceCheckoutError :=
| WcPlanning (e : WorkspaceError)
| WcMaterialize (e : MaterializeError WorkspaceError)
| WcPublish (e : WorkspacePublishError).

(** The staging directory, the cache and the directories of workspaces, and
    what [symlink_metadata] and [is_dir] say of the staging path and of the
    root of the workspaces. *)
Record Desk := mkDesk { dk_stage : Stage; dk_cache : Cache; dk_shelf : Shelf Nodes;
                        dk_staging : result IoErrorKind bool; dk_workspaces : bool }.
Definition set_shelf (d : Desk) (s : Shelf Nodes) : Desk :=
  mkDesk (dk_stage d) (dk_cache d) s (dk_staging d) (dk_workspaces d).

Section Checkout.
Context `{Digests} `{Zstd} `{Catalog C}.

Definition on_desk {A F} (f : MaterializeError WorkspaceError → F)
    (act : ST (Stage * Cache) (MaterializeError WorkspaceError) A) : ST Desk F A := λ d,
  let '(r, x) := act (dk_stage d, dk_cache d) in
  (map_err f r, mkDesk x.1 x.2 (dk_shelf d) (dk_staging d) (dk_workspaces d)).
(** The staging directory that is renamed is the one that was filled. *)
Definition publish_staged {F} (f : WorkspacePublishError → F) (name : bytes) (replace : ReplacePolicy) : ST Desk F unit := λ d,
  let shelf := dk_shelf d in
  let '(r, s) := publish_workspace (dk_workspaces d) name replace
                   (mkShelf (Some (sg_nodes (dk_stage d))) (sh_workspaces shelf) (sh_trash shelf) (sh_faults shelf)) in
  (map_err f r, set_shelf d s).
Definition materialize_staged {F} (f : MaterializeError WorkspaceError → F) (source : ColdWorkspaceSource C)
    (plan : CheckoutPlan) (policy : GitlinkPolicy) : ST Desk F unit :=
  staging ⇐ st_get dk_staging;
  on_desk f (materialize_raw plan source staging policy).

Definition checkout_commit (source : ColdWorkspaceSource C) (request : WorkspaceCheckoutRequest)
    : ST Desk WorkspaceCheckoutError unit :=
  plan ⇐ st_lift (map_err WcPlanning (plan_commit (git_object source) (rq_limits request) (rq_commit request)));
  _ ⇐ materialize_staged WcMaterialize source plan (rq_gitlink_policy request);
  publish_staged WcPublish (rq_name request) (rq_replace request).

(** ** Durable checkout *)

Inductive PersistedWorkspaceCheckoutError :=
| ManifestInputMismatch
| ReplaceNotSupported
| PcPlanning (e : WorkspaceError)
| PcMaterialize (e : MaterializeError WorkspaceError)
| PcManifest (e : WorkspaceManifestError)
| PcPublish (e : WorkspacePublishError)
| PcPersistence (e : WorkspacePersistenceError)
| PcRollback (persistence : WorkspacePersistenceError) (rollback : WorkspaceReconciliationError).

Abbreviation CkIO := (ST (Sys C * Desk) PersistedWorkspaceCheckoutError).
Definition with_sys {A} (act : ST (Sys C) PersistedWorkspaceCheckoutError A) : CkIO A := λ x,
  let '(r, s) := act x.1 in (r, (s, x.2)).
Definition with_desk {A} (act : ST Desk PersistedWorkspaceCheckoutError A) : CkIO A := λ x,
  let '(r, d) := act x.2 in (r, (x.1, d)).
(** The workspace became visible but not ready: it is withdrawn. *)
Definition roll_back (trash_names : list bytes) (m : WorkspaceManifest) (persistence : WorkspacePersistenceError)
    : CkIO unit := λ x,
  let '(r, s) := withdraw_workspace trash_names m (dk_shelf x.2) in
  (match r with
   | Ok _ => Err (PcPersistence persistence)
   | Err rollback => Err (PcRollback persistence rollback)
   end, (x.1, set_shelf x.2 s)).
Definition checkout_cold_commit_and_persist (repository : RepoId) (chunk : Z → Z → result IoErrorKind bytes)
    (root : bytes) (temporary again : list Path) (trash_names : list bytes)
    (request : WorkspaceCheckoutRequest) (input : WorkspaceManifestInput) : CkIO unit :=
  _ ⇐ st_lift (ensure (bool_decide (wi_repository input = repository) && bool_decide (wi_commit input = rq_commit request) &&
                       bool_decide (wi_name input = rq_name request)) ManifestInputMismatch);
  _ ⇐ st_lift (ensure (bool_decide (rq_replace request = RejectExisting)) ReplaceNotSupported);
  named ⇐ st_get (λ x : Sys C * Desk, workspace_name (sys_catalog x.1) (rq_name request));
  _ ⇐ st_lift (match named with
               | Some existing => ensure (bool_decide (existing = wi_workspace_id input))
                                         (PcPersistence (NameAlreadyPublished existing))
               | None => Ok ()
               end);
  source ⇐ st_get (λ x : Sys C * Desk, new repository (sys_catalog x.1) chunk);
  plan ⇐ st_lift (map_err PcPlanning (plan_commit (git_object source) (rq_limits request) (rq_commit request)));
  manifest ⇐ st_lift (map_err PcManifest (from_plan input plan));
  _ ⇐ with_desk (materialize_staged PcMaterialize source plan (rq_gitlink_policy request));
  _ ⇐ with_sys (manifest_io PcManifest (ensure_workspace_manifest root temporary manifest));
  _ ⇐ with_desk (publish_staged PcPublish (rq_name request) RejectExisting);
  λ x,
    match persist_ready_workspace root again manifest x.1 with
    | (Ok _, s) => (Ok (), (s, x.2))
    | (Err persistence, s) => roll_back trash_names manifest persistence (s, x.2)
    end.
End Checkout.
End ColdSource.
