(* ===== verification/PlanSpec.v ===== *)
(** * What planning a commit guarantees *)

From Stdlib Require Import ZArith Lia Strings.Byte Strings.String.
From stdpp Require Import base tactics list gmap strings.
From S2P Require Import Prelude Order Core Format Codec CatalogCodec Catalog Chunk Disk Git GitSpec Cache Checkout CheckoutSpec Workspace WorkspaceStore ColdSource.
Import Core Format Codec CatalogCodec Catalog Chunk Git GitSpec Checkout CheckoutSpec ColdSource.

#[local] Open Scope Z_scope.

Module PlanSpec.

#[local] Set Warnings "-clear-no-such-hyp".

Lemma ok_Some {E A} (r : result E A) a : ok r = Some a ↔ r = Ok a.
Proof. destruct r; cbn; naive_solver. Qed.

(** ** The leaves of a Git tree *)

Section Leaves.
Context (rd : GitOid → option GitObject).

(** [tree_leaf tree path x]: below [tree], [path] leads through directories to
    an entry with the mode and object of [x]. *)
Inductive tree_leaf : GitOid → RelativePath → PlannedObject → Prop :=
| leaf_entry tree o es e mode :
    rd tree = Some o → parse_tree_entries o = Ok es → e ∈ es →
    Git.te_mode e ≠ DIRECTORY_MODE → from_git_mode (Git.te_mode e) = Ok mode →
    tree_leaf tree [Git.te_name e] (mkPlannedObject mode (Git.te_oid e))
| leaf_below tree o es e path x :
    rd tree = Some o → parse_tree_entries o = Ok es → e ∈ es →
    Git.te_mode e = DIRECTORY_MODE → tree_leaf (Git.te_oid e) path x →
    tree_leaf tree (Git.te_name e :: path) x.

Definition entry_leaf (e : GitTreeEntry) (path : RelativePath) (x : PlannedObject) : Prop :=
  (Git.te_mode e ≠ DIRECTORY_MODE ∧ path = [Git.te_name e] ∧
     ∃ mode, from_git_mode (Git.te_mode e) = Ok mode ∧ x = mkPlannedObject mode (Git.te_oid e)) ∨
  (Git.te_mode e = DIRECTORY_MODE ∧ ∃ rest, path = Git.te_name e :: rest ∧ tree_leaf (Git.te_oid e) rest x).
Lemma tree_leaf_entries tree o es path x :
  rd tree = Some o → parse_tree_entries o = Ok es →
  tree_leaf tree path x ↔ ∃ e, e ∈ es ∧ entry_leaf e path x.
Proof.
  intros Ho Hes. split.
  - intros Hl. destruct Hl as [tree o' es' e mode Ho' Hes' He Hm Hmode|tree o' es' e rest x Ho' Hes' He Hm Hl];
      assert (es' = es) as -> by congruence; exists e; (split; [done|]); [left|right]; eauto.
  - intros (e & He & [(Hm & -> & mode & Hmode & ->)|(Hm & rest & -> & Hl)]); [by econstructor|].
    eapply leaf_below; eauto.
Qed.
End Leaves.

Lemma tree_object o es : parse_tree_entries o = Ok es → go_kind o = Tree.
Proof. unfold parse_tree_entries. intros Hp. apply bind_Ok_inv in Hp as ([] & Hk%ensure_Ok_inv & _). by apply bool_decide_eq_true in Hk. Qed.

(** ** Expansion *)

Section Expand.
Context (git_object : GitOid → CsResult GitObject) (limits : CheckoutLimits).
Abbreviation rd := (λ oid, ok (git_object oid)).

Definition at_parent (parent : option RelativePath) (rel : RelativePath) : RelativePath := default [] parent ++ rel.
(** The builder gained the leaves [leaf] below [parent]. *)
Definition gains (parent : option RelativePath) (leaf : RelativePath → PlannedObject → Prop) (b b' : CheckoutPlanBuilder) : Prop :=
  cb_limits b' = cb_limits b ∧
  ∀ path x, cb_entries b' !! path = Some x ↔
    cb_entries b !! path = Some x ∨ ∃ rel, path = at_parent parent rel ∧ leaf rel x.

Lemma join_parent parent name p :
  match parent with Some q => join q name limits | None => from_components [name] limits end = Ok p →
  p = at_parent parent [name] ∧ Z.of_nat (length p) ≤ max_components limits.
Proof.
  assert (∀ c, from_components c limits = Ok p → p = c ∧ Z.of_nat (length p) ≤ max_components limits) as Hfc.
  { intros c Hc. unfold from_components in Hc. apply bind_Ok_inv in Hc as ([] & Hv & <-%Ok_inj). split; [done|].
    unfold validate_path_shape in Hv. apply bind_Ok_inv in Hv as (u1 & _ & Hv). apply bind_Ok_inv in Hv as (u2 & _ & Hv).
    apply bind_Ok_inv in Hv as (u3 & Hn%ensure_Ok_inv & _). by apply bool_decide_eq_true in Hn. }
  destruct parent; apply Hfc.
Qed.
Lemma add_tree_entry_gains b parent e b' :
  cb_limits b = limits → add_tree_entry b parent e = Ok b' →
  gains parent (λ rel x, rel = [Checkout.te_name e] ∧ x = mkPlannedObject (te_mode e) (te_oid e)) b b'.
Proof.
  intros Hl Ha. unfold add_tree_entry in Ha. rewrite Hl in Ha. apply bind_Ok_inv in Ha as (p & [-> _]%join_parent & Ha).
  apply add_Ok in Ha as (_ & Hnone & _ & _ & _ & ->). split; [done|]. intros path x. cbn [cb_entries].
  destruct (decide (path = at_parent parent [Checkout.te_name e])) as [->|Hne].
  - rewrite lookup_insert_eq, Hnone. split.
    + intros [= <-]. right. by eexists.
    + intros [?|(rel & _ & _ & ->)]; done.
  - rewrite lookup_insert_ne by done. split; [auto|]. intros [?|(rel & -> & -> & _)]; done.
Qed.

(** One entry, given what the recursive call does. *)
Lemma expand_entry_gains rec e parent b active b' :
  cb_limits b = limits →
  (∀ tree path b b', cb_limits b = limits → rec tree (Some path) b active = Ok b' → gains (Some path) (tree_leaf rd tree) b b') →
  expand_tree_entry limits rec e parent b active = Ok b' → gains parent (entry_leaf rd e) b b'.
Proof.
  intros Hl Hrec He. unfold expand_tree_entry in He. case_decide as Hm.
  - apply bind_Ok_inv in He as (n & Hn%map_err_Ok_inv & He). apply TreeName_new_Ok in Hn as (-> & _).
    apply bind_Ok_inv in He as (p & Hp%map_err_Ok_inv & He). apply join_parent in Hp as [-> _].
    apply bind_Ok_inv in He as ([] & _ & He). apply Hrec in He as [Hl' He]; [|done]. split; [done|].
    intros path x. rewrite He. f_equiv. unfold at_parent. cbn. split.
    + intros (rel & -> & Hleaf). exists (Git.te_name e :: rel). split; [by rewrite <-app_assoc|]. right. eauto.
    + intros (rel & -> & [(? & _)|(_ & rest & -> & Hleaf)]); [done|]. exists rest. by rewrite <-app_assoc.
  - apply bind_Ok_inv in He as (t & Ht%map_err_Ok_inv & He%map_err_Ok_inv).
    unfold TreeEntry_from_raw in Ht. apply bind_Ok_inv in Ht as (n & Hn & Ht). apply TreeName_new_Ok in Hn as (-> & _).
    apply bind_Ok_inv in Ht as (m & Hmode & <-%Ok_inj).
    apply add_tree_entry_gains in He as [Hl' He]; [|done]. split; [done|]. intros path x. rewrite He. f_equiv. cbn. split.
    + intros (rel & -> & -> & ->). exists [Git.te_name e]. split; [done|]. left. eauto.
    + intros (rel & -> & [(_ & -> & mode & Hmode' & ->)|(? & _)]); [|done]. exists [Git.te_name e].
      split_and!; [done..|]. congruence.
Qed.
Lemma expand_entries_gains rec es parent active : ∀ b b',
  cb_limits b = limits →
  (∀ tree path b b', cb_limits b = limits → rec tree (Some path) b active = Ok b' → gains (Some path) (tree_leaf rd tree) b b') →
  expand_entries limits rec es parent b active = Ok b' →
  gains parent (λ rel x, ∃ e, e ∈ es ∧ entry_leaf rd e rel x) b b'.
Proof.
  induction es as [|e es IH]; intros b b' Hl Hrec He; cbn [expand_entries] in He.
  { apply Ok_inj in He as <-. split; [done|]. intros path x. split; [auto|].
    intros [?|(rel & _ & e & ?%elem_of_nil & _)]; done. }
  apply bind_Ok_inv in He as (b1 & H1' & He). apply expand_entry_gains in H1' as [Hl1 H1']; [|done..].
  apply IH in He as [Hl2 He]; [|congruence|done]. split; [congruence|]. intros path x. rewrite He, H1'.
  setoid_rewrite elem_of_cons. split.
  - intros [[?|(rel & -> & Hleaf)]|(rel & -> & e' & He' & Hleaf)]; [by left|right..]; eauto 8.
  - intros [?|(rel & -> & e' & [->|He'] & Hleaf)]; eauto 8.
Qed.
Lemma expand_tree_gains fuel : ∀ tree parent b active b',
  cb_limits b = limits → expand_tree git_object limits fuel tree parent b active = Ok b' →
  gains parent (tree_leaf rd tree) b b'.
Proof.
  induction fuel as [|fuel IH]; intros tree parent b active b' Hl He; [done|]. cbn [expand_tree] in He.
  apply bind_Ok_inv in He as ([] & _ & He). apply bind_Ok_inv in He as (o & Ho & He).
  apply bind_Ok_inv in He as ([] & _ & He). apply bind_Ok_inv in He as (es & Hes%map_err_Ok_inv & He).
  apply expand_entries_gains in He as [Hl' He]; [|done|intros; by eapply IH]. split; [done|].
  intros path x. rewrite He. f_equiv. apply exist_proper. intros rel. f_equiv.
  symmetry. apply (tree_leaf_entries _ _ o); [by apply ok_Some|done].
Qed.

(** Every builder on the way was built by the operations of the builder. *)
Lemma expand_entries_built rec es parent active : ∀ b b',
  (∀ p, parent = Some p → path_wf p) → cb_limits b = limits → built limits b →
  (∀ tree path b b', path_wf path → cb_limits b = limits → built limits b → rec tree (Some path) b active = Ok b' →
     cb_limits b' = limits ∧ built limits b') →
  expand_entries limits rec es parent b active = Ok b' → cb_limits b' = limits ∧ built limits b'.
Proof.
  induction es as [|e es IH]; intros b b' Hpar Hl Hb Hrec He; cbn [expand_entries] in He.
  { by apply Ok_inj in He as <-. }
  apply bind_Ok_inv in He as (b1 & H1' & He). assert (cb_limits b1 = limits ∧ built limits b1) as [Hl1 Hb1]; [|exact (IH b1 b' Hpar Hl1 Hb1 Hrec He)].
  unfold expand_tree_entry in H1'. case_decide as Hm.
  - apply bind_Ok_inv in H1' as (n & Hn%map_err_Ok_inv & H1'). apply TreeName_new_Ok in Hn as (-> & Hn & _).
    apply bind_Ok_inv in H1' as (p & Hp%map_err_Ok_inv & H1'). apply join_parent in Hp as [-> _].
    apply bind_Ok_inv in H1' as ([] & _ & H1'). eapply Hrec; [|done..]. unfold at_parent. destruct parent as [q|]; cbn.
    + destruct (Hpar q eq_refl) as [Hne Hq]. split; [by destruct q|]. apply Forall_app. split; [done|]. by constructor.
    + split; [done|]. by constructor.
  - apply bind_Ok_inv in H1' as (t & Ht%map_err_Ok_inv & H1'%map_err_Ok_inv).
    unfold TreeEntry_from_raw in Ht. apply bind_Ok_inv in Ht as (n & Hn & Ht). apply TreeName_new_Ok in Hn as (-> & Hn & _).
    apply bind_Ok_inv in Ht as (m & _ & <-%Ok_inj). pose proof H1' as [Hl1 _]%add_tree_entry_gains; [|done].
    split; [congruence|]. eapply built_entry; [exact Hb|exact Hpar| |exact H1']. exact Hn.
Qed.
Lemma expand_tree_built fuel : ∀ tree parent b active b',
  (∀ p, parent = Some p → path_wf p) → cb_limits b = limits → built limits b →
  expand_tree git_object limits fuel tree parent b active = Ok b' → cb_limits b' = limits ∧ built limits b'.
Proof.
  induction fuel as [|fuel IH]; intros tree parent b active b' Hpar Hl Hb He; [done|]. cbn [expand_tree] in He.
  apply bind_Ok_inv in He as ([] & _ & He). apply bind_Ok_inv in He as (o & Ho & He).
  apply bind_Ok_inv in He as ([] & _ & He). apply bind_Ok_inv in He as (es & Hes%map_err_Ok_inv & He).
  eapply expand_entries_built; [..|exact He]; [done..|]. intros t path b1 b1' Hp Hl1 Hb1 Hr.
  eapply (IH t (Some path)); [|done..]. by intros ? [= <-].
Qed.

(** ** Depth *)

Definition room (parent : option RelativePath) : nat := (Z.to_nat (max_components limits) - length (at_parent parent []))%nat.
Lemma room_child parent name :
  Z.of_nat (length (at_parent parent [name])) ≤ max_components limits →
  (room (Some (at_parent parent [name])) < room parent)%nat.
Proof. unfold room, at_parent. destruct parent; cbn; rewrite ?length_app; cbn; lia. Qed.
Lemma expand_entries_ext rec rec' es parent active : ∀ b,
  (∀ tree name b, Z.of_nat (length (at_parent parent [name])) ≤ max_components limits →
     rec tree (Some (at_parent parent [name])) b active = rec' tree (Some (at_parent parent [name])) b active) →
  expand_entries limits rec es parent b active = expand_entries limits rec' es parent b active.
Proof.
  induction es as [|e es IH]; intros b Hrec; [done|]. cbn [expand_entries].
  assert (expand_tree_entry limits rec e parent b active = expand_tree_entry limits rec' e parent b active) as ->.
  2: { destruct (expand_tree_entry _ _ _ _ _ _); cbn; [by apply IH|done]. }
  unfold expand_tree_entry. case_decide; [|done].
  destruct (TreeName_new (Git.te_name e) limits) as [n|] eqn:Hn; cbn; [|done]. apply TreeName_new_Ok in Hn as (-> & _).
  destruct (match parent with Some p => _ | None => _ end) as [p|] eqn:Hp; cbn; [|done].
  apply join_parent in Hp as [-> Hlen]. rewrite bool_decide_eq_true_2 by done. cbn. by apply Hrec.
Qed.
Lemma expand_tree_fuel fuel : ∀ fuel' tree parent b active,
  (room parent < fuel)%nat → (room parent < fuel')%nat →
  expand_tree git_object limits fuel tree parent b active = expand_tree git_object limits fuel' tree parent b active.
Proof.
  induction fuel as [|fuel IH]; intros [|fuel'] tree parent b active Hf Hf'; [lia..|]. cbn [expand_tree].
  destruct (ensure _ _); [|done]. rewrite !bind_Ok. destruct (git_object tree) as [o|]; [|done]. rewrite !bind_Ok.
  destruct (ensure _ _); [|done]. rewrite !bind_Ok. destruct (map_err _ (parse_tree_entries o)) as [es|]; [|done].
  rewrite !bind_Ok. apply expand_entries_ext. intros t name b1 Hlen.
  pose proof (room_child parent name Hlen). apply IH; lia.
Qed.

(** Planning never runs out of depth: nested directories are refused as
    soon as their path has more than [max_components] components, so expanding
    a tree with any more depth than [depth_fuel] gives the same result. *)
Theorem expansion_depth_bounded fuel tree :
  (depth_fuel limits ≤ fuel)%nat →
  expand_tree git_object limits fuel tree None (Builder_new limits) ∅ =
  expand_tree git_object limits (depth_fuel limits) tree None (Builder_new limits) ∅.
Proof. intros Hf. unfold depth_fuel in *. apply expand_tree_fuel; unfold room, at_parent; cbn; lia. Qed.

(** ** The plan *)

Lemma plan_commit_leaves commit plan :
  limits_wf limits → plan_commit git_object limits commit = Ok plan →
  plan_wf limits plan ∧
  ∃ co root, git_object commit = Ok co ∧ commit_tree_oid co = Ok root ∧
    ∀ path x, mkPlannedEntry path x ∈ plan_entries plan ↔ tree_leaf rd root path x.
Proof.
  intros Hw Hp. unfold plan_commit in Hp. apply bind_Ok_inv in Hp as (co & Hco & Hp).
  apply bind_Ok_inv in Hp as ([] & _ & Hp). apply bind_Ok_inv in Hp as (root & Hroot%map_err_Ok_inv & Hp).
  apply bind_Ok_inv in Hp as (b & Hb & <-%Ok_inj).
  pose proof (expand_tree_built _ root None (Builder_new limits) _ _ ltac:(done) eq_refl (built_new limits) Hb) as [_ Hbuilt].
  apply expand_tree_gains in Hb as [_ Hb]; [|done]. split; [by apply finish_wf, built_wf|].
  exists co, root. split_and!; [done..|]. intros path x.
  assert (mkPlannedEntry path x ∈ plan_entries (finish b) ↔ cb_entries b !! path = Some x) as ->.
  { cbn. rewrite list_elem_of_fmap. setoid_rewrite elem_of_sorted_entries. split.
    - intros ([q y] & [= -> ->] & Hy). done.
    - intros Hx. by exists (path, x). }
  rewrite Hb. cbn. split.
  - intros [Hx|(rel & -> & Hleaf)]; [by rewrite lookup_empty in Hx|done].
  - intros Hleaf. right. by exists path.
Qed.
End Expand.
End PlanSpec.
