(* ===== verification/RestoreSpec.v ===== *)
(** * A checkout restores what was imported *)

From Stdlib Require Import ZArith Lia Strings.Byte Strings.String.
From stdpp Require Import base tactics list gmap strings.
From S2P Require Import Prelude Order Core Format Codec CatalogCodec CatalogCodecSpec Catalog CatalogSpec RocksSpec CatalogInterface Chunk Disk DiskSpec Store WriterSpec StoreSpec Git GitSpec Reader Import ImportSpec Cache CacheSpec Checkout CheckoutSpec MaterializeSpec Workspace WorkspaceStore ColdSource PlanSpec.
Import Core Format Codec CatalogCodec CatalogCodecSpec Catalog CatalogSpec RocksSpec CatalogInterface Chunk Disk Store StoreSpec Git GitSpec Import_ ImportSpec Cache Checkout CheckoutSpec MaterializeSpec ColdSource PlanSpec.

#[local] Open Scope Z_scope.

Module RestoreSpec.

#[local] Set Warnings "-clear-no-such-hyp".

(** ** What a cold read guarantees *)

Section Source.
Context `{Digests} `{Zstd} `{CatalogLaws C}.
Implicit Types src : ColdWorkspaceSource C.

(** Whatever the catalog locates and the chunks hold, an object that is
    returned has the content its alias names. *)
Lemma record_for_sound src oid id r :
  record_for src oid = Ok (id, r) →
  oid_alias (cs_catalog src) (cs_repository src) oid = Some id ∧ ContentId_for_object (or_kind r) (or_payload r) = id.
Proof.
  unfold record_for, content_id. intros Hr. apply bind_Ok_inv in Hr as (id' & Hid%ok_or_Ok_inv & Hr).
  apply bind_Ok_inv in Hr as (l & _ & Hr). apply bind_Ok_inv in Hr as (u & _ & Hr).
  apply bind_Ok_inv in Hr as (file & _ & Hr). apply bind_Ok_inv in Hr as (rec & _ & Hr).
  apply bind_Ok_inv in Hr as (raw & _ & Hr). cbv zeta in Hr.
  apply bind_Ok_inv in Hr as ([] & Hc%ensure_Ok_inv & Hr). injection Hr as <- <-.
  apply andb_true_iff in Hc as [Hc%bool_decide_eq_true _]. done.
Qed.
Lemma git_object_sound src oid o :
  git_object src oid = Ok o → go_oid o = oid ∧ oid_alias (cs_catalog src) (cs_repository src) oid = Some (object_id o).
Proof.
  unfold git_object. intros Ho. apply bind_Ok_inv in Ho as ([id r] & Hr & Ho). injection Ho as <-.
  apply record_for_sound in Hr as [Ha Hid]. split; [done|]. unfold object_id. cbn. congruence.
Qed.
Lemma cold_blob_bytes_sound src oid b :
  cold_blob_bytes src oid = Ok b → oid_alias (cs_catalog src) (cs_repository src) oid = Some (ContentId_for_object Blob b).
Proof.
  unfold cold_blob_bytes. intros Ho. apply bind_Ok_inv in Ho as ([id r] & Hr & Ho).
  apply bind_Ok_inv in Ho as ([] & Hk%ensure_Ok_inv & <-%Ok_inj). apply bool_decide_eq_true in Hk.
  apply record_for_sound in Hr as [Ha Hid]. cbn in *. congruence.
Qed.
Lemma cold_blob_content_id_sound src oid c id c' :
  cold_blob_content_id src oid c = (Ok id, c') → oid_alias (cs_catalog src) (cs_repository src) oid = Some id.
Proof.
  unfold cold_blob_content_id. intros Ho. apply st_bind_Ok in Ho as (id' & c1 & Hl & Ho). apply st_lift_Ok in Hl as [Hid ->].
  apply ok_or_Ok_inv in Hid. apply st_bind_Ok in Ho as (l & c1 & _ & Ho). apply st_bind_Ok in Ho as (u & c2 & _ & Ho).
  apply st_bind_Ok in Ho as (v & c3 & _ & Ho). by injection Ho as <- _.
Qed.

(** ** Checkout of an imported commit *)

Context `{BackendLaws B} (backend : B) (repo : RepoId) (rs : list GitOid) (f : View).
Abbreviation read := (read_object backend).
Abbreviation part := (reached read rs).
(** What an import leaves: every object reached can be read in the repository
    and followed, and the catalog binds its ID to its content. *)
Hypothesis roots_wf : Forall GitOid_wf rs.
Hypothesis repo_wf : RepoId_wf repo.
Hypothesis imported : ∀ oid, part oid →
  ∃ o children, read oid = Ok o ∧ referenced_oids o = Ok children ∧ f (KAlias repo oid) = Some (VContent (object_id o)).

(** Some byte string other than a Git object of the repository has its SHA-256. *)
Definition clash : Prop := ∃ oid o k raw, part oid ∧ read oid = Ok o ∧
  collision (content_preimage k raw) (content_preimage (go_kind o) (go_data o)).

Lemma same_content oid o k raw :
  part oid → read oid = Ok o → ContentId_for_object k raw = object_id o → clash ∨ (k = go_kind o ∧ raw = go_data o).
Proof.
  intros Hp Ho Hid.
  destruct (decide (content_preimage k raw = content_preimage (go_kind o) (go_data o))) as [He|Hne].
  - right. by apply content_preimage_inj.
  - left. exists oid, o, k, raw. split_and!; [done..|]. split; [done|]. by injection Hid.
Qed.

Context (src : ColdWorkspaceSource C).
Hypothesis of_repo : cs_repository src = repo.
Hypothesis view : holds_view (cs_catalog src) f.

Lemma alias_of oid id o :
  part oid → oid_alias (cs_catalog src) (cs_repository src) oid = Some id → read oid = Ok o → id = object_id o.
Proof.
  intros Hp Ha Ho. destruct (imported oid Hp) as (o' & cs & Ho' & _ & Hf). assert (o' = o) as -> by congruence.
  rewrite of_repo in Ha. pose proof (view_alias _ _ _ _ _ view repo_wf (reached_wf _ _ _ roots_wf Hp) Ha). congruence.
Qed.
Lemma object_agrees oid o : part oid → git_object src oid = Ok o → clash ∨ read oid = Ok o.
Proof.
  intros Hp [Hoid Ha]%git_object_sound. destruct (imported oid Hp) as (o' & cs & Ho & _ & _).
  pose proof (alias_of _ _ _ Hp Ha Ho) as Hid. destruct (same_content _ _ _ _ Hp Ho Hid) as [?|[Hk Hd]]; [by left|right].
  pose proof (read_named _ _ _ Ho) as Hn. rewrite Ho. f_equal. destruct o, o'. cbn in *. congruence.
Qed.

(** The lookup of the repository itself, as a lookup of the planner. *)
Definition original (oid : GitOid) : CsResult GitObject := map_err (λ _, MissingAlias oid) (read oid).
Lemma original_Ok oid o : read oid = Ok o → original oid = Ok o.
Proof. unfold original. by intros ->. Qed.

Lemma entry_part tree o es e : part tree → read tree = Ok o → parse_tree_entries o = Ok es → e ∈ es → part (Git.te_oid e).
Proof.
  intros Hp Ho Hes He. eapply reached_child; [exact Hp| |by apply list_elem_of_fmap_2].
  exists o. split; [done|]. unfold referenced_oids, parse_tree_references. by rewrite (tree_object _ _ Hes), Hes.
Qed.
Lemma expand_entries_agree limits rec rec' es parent active : ∀ b b',
  (∀ e, e ∈ es → part (Git.te_oid e)) →
  (∀ tree path b b', part tree → rec tree path b active = Ok b' → clash ∨ rec' tree path b active = Ok b') →
  expand_entries limits rec es parent b active = Ok b' → clash ∨ expand_entries limits rec' es parent b active = Ok b'.
Proof.
  induction es as [|e es IH]; intros b b' Hes Hrec He; cbn [expand_entries] in *; [by right|].
  apply bind_Ok_inv in He as (b1 & H1' & He).
  assert (clash ∨ expand_tree_entry limits rec' e parent b active = Ok b1) as [?|Heq]; [|by left|].
  - unfold expand_tree_entry in *. case_decide; [|by right].
    apply bind_Ok_inv in H1' as (n & Hn & H1'). apply bind_Ok_inv in H1' as (p & Hp & H1').
    apply bind_Ok_inv in H1' as (u & Hu & H1'). rewrite Hn, bind_Ok, Hp, bind_Ok, Hu, bind_Ok.
    eapply Hrec; [|done]. apply Hes. by left.
  - rewrite Heq, bind_Ok. apply IH; [|done..]. intros e' He'. apply Hes. by right.
Qed.
Lemma expand_agrees limits fuel : ∀ tree parent b active b',
  part tree → expand_tree (git_object src) limits fuel tree parent b active = Ok b' →
  clash ∨ expand_tree original limits fuel tree parent b active = Ok b'.
Proof.
  induction fuel as [|fuel IH]; intros tree parent b active b' Hp He; [done|]. cbn [expand_tree] in *.
  apply bind_Ok_inv in He as (u & Hu & He). apply bind_Ok_inv in He as (o & Ho & He).
  rewrite Hu, bind_Ok. apply bind_Ok_inv in He as (v & Hk & He). apply bind_Ok_inv in He as (es & Hes & He).
  destruct (object_agrees _ _ Hp Ho) as [?|Ho']; [by left|].
  rewrite (original_Ok _ _ Ho'), bind_Ok, Hk, bind_Ok, Hes, bind_Ok.
  eapply expand_entries_agree; [|intros; by eapply IH|exact He].
  intros e. eapply entry_part; [exact Hp|exact Ho'|]. by eapply map_err_Ok_inv.
Qed.
Lemma root_part commit co root : part commit → read commit = Ok co → commit_tree_oid co = Ok root → part root.
Proof.
  intros Hp Hco Hroot. destruct (imported _ Hp) as (co' & cs & Hco' & Hcs & _). assert (co' = co) as -> by congruence.
  apply (reached_child _ _ commit cs); [done|by exists co|]. pose proof Hroot as Hk. unfold commit_tree_oid in Hk.
  apply bind_Ok_inv in Hk as (u & Hk%ensure_Ok_inv & _). apply bool_decide_eq_true in Hk.
  unfold referenced_oids, parse_commit_references in Hcs. rewrite Hk in Hcs.
  apply bind_Ok_inv in Hcs as (ps & _ & Hcs). rewrite Hroot, bind_Ok in Hcs. injection Hcs as <-. by left.
Qed.
Lemma plan_agrees limits commit plan :
  part commit → plan_commit (git_object src) limits commit = Ok plan → clash ∨ plan_commit original limits commit = Ok plan.
Proof.
  intros Hp Hpl. unfold plan_commit in *. apply bind_Ok_inv in Hpl as (co & Hco & Hpl).
  apply bind_Ok_inv in Hpl as (u & Hk & Hpl). apply bind_Ok_inv in Hpl as (root & Hroot & Hpl).
  apply bind_Ok_inv in Hpl as (b & Hb & Hpl).
  destruct (object_agrees _ _ Hp Hco) as [?|Hco']; [by left|].
  pose proof (root_part _ _ _ Hp Hco' (map_err_Ok_inv _ _ _ Hroot)) as Hroot'.
  destruct (expand_agrees _ _ _ _ _ _ _ Hroot' Hb) as [?|Hb']; [by left|right].
  by rewrite (original_Ok _ _ Hco'), bind_Ok, Hk, bind_Ok, Hroot, bind_Ok, Hb', bind_Ok.
Qed.

(** ** The restored tree *)

Abbreviation rd := (λ oid, ok (read oid)).
(** The node that the repository has for an entry. *)
Definition restored (policy : GitlinkPolicy) (x : PlannedObject) (n : StageNode) : Prop :=
  match po_mode x with
  | Regular | Executable => ∃ o, read (po_oid x) = Ok o ∧ go_kind o = Blob ∧ n = SFile (go_data o) (file_mode (po_mode x))
  | Symlink => ∃ o, read (po_oid x) = Ok o ∧ go_kind o = Blob ∧ n = SLink (go_data o)
  | Gitlink => policy = EmptyDirectory ∧ n = SDirectory
  end.
(** [nodes] are the leaves below [root] with their contents, and the directories
    that lead to them. *)
Definition worktree (policy : GitlinkPolicy) (root : GitOid) (nodes : Nodes) : Prop :=
  ∀ path n, nodes !! path = Some n ↔
    (∃ x, tree_leaf rd root path x ∧ restored policy x n) ∨
    (n = SDirectory ∧ path ≠ [] ∧ ∃ leaf x, tree_leaf rd root leaf x ∧ above path leaf).

Lemma restored_inj policy x n n' : restored policy x n → restored policy x n' → n = n'.
Proof. unfold restored. destruct (po_mode x); naive_solver congruence. Qed.
Lemma leaf_part tree path x : part tree → tree_leaf rd tree path x → part (po_oid x).
Proof.
  intros Hp Hl. induction Hl as [tree o es e mode Ho%ok_Some Hes He|tree o es e path x Ho%ok_Some Hes He _ _ IH].
  - cbn. by eapply entry_part.
  - apply IH. by eapply entry_part.
Qed.
Lemma leaf_original tree path x : tree_leaf (λ oid, ok (original oid)) tree path x ↔ tree_leaf rd tree path x.
Proof.
  assert (∀ oid, ok (original oid) = ok (read oid)) as Heq by (intros; unfold original; by destruct (read oid)).
  split; induction 1; (eapply leaf_entry || eapply leaf_below); eauto; by rewrite Heq || by rewrite <-Heq.
Qed.
Lemma realizes_restored policy x n : part (po_oid x) → realizes src policy x n → clash ∨ restored policy x n.
Proof.
  intros Hp. destruct (imported _ Hp) as (o & cs & Ho & _). unfold realizes, restored.
  assert (∀ b, oid_alias (cs_catalog src) (cs_repository src) (po_oid x) = Some (ContentId_for_object Blob b) →
    clash ∨ go_kind o = Blob ∧ b = go_data o) as Hblob.
  { intros b Ha. pose proof (alias_of _ _ _ Hp Ha Ho) as Hid.
    destruct (same_content _ _ _ _ Hp Ho Hid) as [?|[? ?]]; [by left|by right]. }
  destruct (po_mode x) eqn:Hm.
  1, 2: intros (id & c & c' & b & Hid%cold_blob_content_id_sound & <- & ->);
    destruct (Hblob b Hid) as [?|[Hk ->]]; [by left|right; by exists o].
  - intros (t & Ht%cold_blob_bytes_sound & _ & ->). destruct (Hblob t Ht) as [?|[Hk ->]]; [by left|right; by exists o].
  - by right.
Qed.
Lemma forall_or {A} (P : Prop) (Q : A → Prop) (l : list A) : (∀ x, x ∈ l → P ∨ Q x) → P ∨ ∀ x, x ∈ l → Q x.
Proof.
  induction l as [|x l IH]; intros Hl; [right; by intros ? ?%elem_of_nil|].
  destruct (Hl x) as [?|Hx]; [by left|by left|]. destruct IH as [?|Hxs]; [intros y Hy; apply Hl; by right|by left|right].
  intros y [->|Hy]%elem_of_cons; auto.
Qed.

Lemma materialized_restores limits commit plan policy staging x u x' :
  limits_wf limits → part commit → plan_commit (git_object src) limits commit = Ok plan →
  materialize_raw plan src staging policy x = (Ok u, x') →
  clash ∨ ∃ co root, read commit = Ok co ∧ commit_tree_oid co = Ok root ∧ worktree policy root (sg_nodes x'.1).
Proof.
  intros Hw Hp Hpl Hm. destruct (plan_agrees _ _ _ Hp Hpl) as [?|Hpl']; [by left|].
  destruct (plan_commit_leaves _ _ _ _ Hw Hpl') as ([_ _ _ _ _ Hdirs] & co & root & Hco & Hroot & Hleaves).
  setoid_rewrite leaf_original in Hleaves. unfold original in Hco. apply map_err_Ok_inv in Hco.
  destruct (materialize_exact _ _ _ _ _ _ _ Hm) as (Hd & He & Honly).
  assert (clash ∨ ∀ e, e ∈ plan_entries plan →
    ∃ n, sg_nodes x'.1 !! pe_path e = Some n ∧ restored policy (pe_object e) n) as [?|He']; [|by left|].
  { apply forall_or. intros [path y] Hin. destruct (He _ Hin) as (n & Hn & Hr).
    destruct (realizes_restored _ _ _ (leaf_part root path y (root_part _ _ _ Hp Hco Hroot) (proj1 (Hleaves _ _) Hin)) Hr) as [?|?]; [by left|right; eauto]. }
  right. exists co, root. split_and!; [done..|]. intros path n. split.
  - intros Hn. destruct (Honly path) as [Hdir|Hent]; [by rewrite Hn|right|left].
    + pose proof (Hd _ Hdir) as Hn'. split; [congruence|]. apply Hdirs in Hdir as (Hne & [leaf y] & Hin & Hab).
      split; [done|]. exists leaf, y. split; [by apply Hleaves|done].
    + apply list_elem_of_fmap in Hent as ([path' y] & -> & Hin). cbn in *.
      destruct (He' _ Hin) as (n' & Hn' & Hr). cbn in *. assert (n' = n) as -> by congruence.
      exists y. split; [by apply Hleaves|done].
  - intros [(y & Hl & Hr)|(-> & Hne & leaf & y & Hl & Hab)].
    + apply Hleaves in Hl. destruct (He' _ Hl) as (n' & Hn' & Hr'). cbn in *. by rewrite (restored_inj _ _ _ _ Hr Hr').
    + apply Hd, Hdirs. split; [done|]. exists (mkPlannedEntry leaf y). split; [by apply Hleaves|done].
Qed.
End Source.

Section Restore.
Context `{Digests} `{Zstd} `{CatalogLaws C} `{BackendLaws B}.

(** What an import establishes of every object reached. *)
Lemma import_followed (backend : B) repo g c codec x result_ x' :
  import_local_refs_with_codec (C := C) backend repo g c codec x = Some (Ok result_, x') →
  Forall GitOid_wf (roots (ir_snapshot result_)) ∧
  ∀ oid, reached (read_object backend) (roots (ir_snapshot result_)) oid →
    ∃ o children, read_object backend oid = Ok o ∧ referenced_oids o = Ok children.
Proof.
  unfold import_local_refs_with_codec. intros Himp.
  destruct (snapshot_local_refs backend) as [sn|e] eqn:Hsn; [|done].
  destruct (backend_reachable backend (roots sn)) as [[objs|e]|] eqn:Hobjs; [|done..].
  injection Himp as Himp. unfold st_bind, st_ret in Himp.
  destruct (import_objects _ _ _ _ _ _ _) as [[b|e] x1]; [|done]. injection Himp as <- <-.
  split; [by eapply snapshot_targets|]. intros oid (o & Ho & Hread)%(walk_complete _ _ _ Hobjs). exists o.
  destruct (walk_followed _ _ _ _ Hobjs Ho) as [cs Hcs]. by exists cs.
Qed.

Lemma publish_shows (is_dir : bool) (name : bytes) (policy : ReplacePolicy) (s : Shelf Nodes) (u : unit) (s' : Shelf Nodes) :
  publish_workspace is_dir name policy s = (Ok u, s') → sh_workspaces s' !! name = sh_staging s.
Proof.
  intros Hp. unfold publish_workspace in Hp. destruct (sh_staging s) as [staged|] eqn:Hs; [|done].
  destruct is_dir; cbn [negb] in Hp; [|done].
  destruct (sh_workspaces s !! name) as [old|] eqn:Hold.
  - case_decide; [done|]. apply st_bind_Ok in Hp as ([] & s1 & H1' & Hp).
    apply st_bind_Ok in Hp as ([] & s2 & H2' & Hp). apply st_bind_Ok in Hp as (ret & s3 & H3' & Hp). injection H3' as _ <-.
    apply st_bind_Ok in Hp as ([] & s3 & H3' & Hp). apply st_lift_Ok in H3' as [_ ->].
    apply st_bind_Ok in Hp as ([] & s3 & H3' & Hp). apply st_bind_Ok in Hp as ([] & s4 & H4' & H5').
    apply shelf_sync_trees in H4', H5'. unfold trees in H4', H5'.
    assert (sh_workspaces s' = sh_workspaces s3) as -> by congruence.
    unfold rename_to_trash, exchange, shelf_call in H2', H3'.
    destruct (sh_faults s1) as [|[e|] fs]; [|done|]; injection H2' as <-; cbn in H3';
      repeat case_match; try done; injection H3' as <-; cbn; apply lookup_insert_eq.
  - apply st_bind_Ok in Hp as ([] & s1 & H1' & H2'). apply shelf_sync_trees in H2'. unfold trees in H2'.
    assert (sh_workspaces s' = sh_workspaces s1) as -> by congruence. unfold rename_to_workspace, shelf_call in H1'.
    destruct (sh_faults s) as [|[e|] fs]; [|done|]; injection H1' as <-; cbn; apply lookup_insert_eq.
Qed.

(** C1. A checkout restores the commit that was imported. Import the local refs
    of a repository whose objects all make records of at most 64 MiB, into a
    store with any history of calls, failures and crashes that kept to this
    ceiling; then, with the catalog as the import left it, check out a commit
    reached from those refs, whatever the
    chunk files, the leases, the cache and the staging directory hold and
    whichever calls fail. If the checkout succeeds, the workspace published
    under the requested name is exactly the tree of that commit in the original
    repository: a node for every entry below the commit's tree, with the bytes
    of the Git blob and the mode of the entry, the directories on the way to
    them, and nothing else. The exception is a byte string that shares its
    SHA-256 with an object of the repository and differs from it. *)
Theorem checkout_restores_commit s0 s w (backend : B) repo g n codec result_ w' s' src request desk u desk' :
  initial s0 → rtc store_step (s0, None) (s, Some w) → RepoId_wf repo →
  (∀ oid o, read_object backend oid = Ok o → importable codec o) →
  import_local_refs_with_codec backend repo g n codec (w, s) = Some (Ok result_, (w', s')) →
  cs_repository src = repo → cs_catalog src = sys_catalog s' →
  limits_wf (rq_limits request) → reached (read_object backend) (roots (ir_snapshot result_)) (rq_commit request) →
  checkout_commit (C := C) src request desk = (Ok u, desk') →
  clash backend (roots (ir_snapshot result_)) ∨
  ∃ co root nodes, read_object backend (rq_commit request) = Ok co ∧ commit_tree_oid co = Ok root ∧
    sh_workspaces (dk_shelf desk') !! rq_name request = Some nodes ∧
    worktree backend (rq_gitlink_policy request) root nodes.
Proof.
  intros Hinit Hreach Hrepo Hsize Himp Hsrc Hcat Hw Hpart Hco.
  destruct (import_followed _ _ _ _ _ _ _ _ Himp) as [Hroots Hfollow].
  destruct (import_binds _ _ _ _ _ _ _ _ _ _ _ Hinit Hreach Hrepo Hsize Himp) as (f & Hv & Hbind). rewrite <-Hcat in Hv.
  unfold checkout_commit in Hco. apply st_bind_Ok in Hco as (plan & d1 & Hl & Hco).
  apply st_lift_Ok in Hl as [Hplan%map_err_Ok_inv ->]. apply st_bind_Ok in Hco as ([] & d1 & Hm & Hpub).
  unfold materialize_staged in Hm. apply st_bind_Ok in Hm as (staging & d2 & Hg & Hm). injection Hg as <- <-.
  unfold on_desk in Hm. destruct (materialize_raw _ _ _ _ _) as [[[]|e] x'] eqn:Hmat; [|done]. injection Hm as <-.
  unfold publish_staged in Hpub. cbn [dk_shelf dk_stage dk_workspaces] in Hpub.
  destruct (publish_workspace _ _ _ _) as [[[]|e] sh] eqn:Hp; [|done]. injection Hpub as _ <-.
  apply publish_shows in Hp. cbn [sh_staging] in Hp.
  assert (∀ oid, reached (read_object backend) (roots (ir_snapshot result_)) oid → ∃ o children,
    read_object backend oid = Ok o ∧ referenced_oids o = Ok children ∧ f (KAlias repo oid) = Some (VContent (object_id o))) as Hall.
  { intros oid Hoid. destruct (Hfollow oid Hoid) as (o & cs & Ho & Hcs). exists o, cs. split_and!; [done..|].
    destruct (Hbind oid Hoid) as (o' & Ho' & Ha). congruence. }
  destruct (materialized_restores backend repo _ f Hroots Hrepo Hall src Hsrc Hv _ _ _ _ _ _ _ _ Hw Hpart Hplan Hmat)
    as [?|(co & root & Hread & Hroot & Htree)]; [by left|].
  right. exists co, root, (sg_nodes x'.1). by split_and!.
Qed.
End Restore.

(** ** Checking out the demo commit *)

Section Demo.
#[local] Existing Instance toy_digests.
#[local] Existing Instance toy_zstd.

Definition file_at (d : Disk) (p : Path) : result IoErrorKind bytes :=
  match d_names d !! p with Some n => Ok (data d n) | None => Err NotFound end.
Definition demo_source (w : ChunkWriter) (s : Sys InMemoryCatalog) : ColdWorkspaceSource InMemoryCatalog :=
  new demo_repo (sys_catalog s) (λ _ _, file_at (sys_disk s) (cw_path w)).
Definition demo_request : WorkspaceCheckoutRequest :=
  mkRequest (demo_oid x03) DEFAULT_CHECKOUT_LIMITS (b_ "w") Reject RejectExisting.
Definition demo_desk : Desk := mkDesk (mkStage ∅ []) (mkCache ∅ [] []) (mkShelf None ∅ ∅ []) (Ok true) true.
Definition demo_checkout : option (ImportResult * result WorkspaceCheckoutError unit * Desk) :=
  match demo_import with
  | Some (Ok r, (w, s)) => let '(x, desk) := checkout_commit (demo_source w s) demo_request demo_desk in Some (r, x, desk)
  | _ => None
  end.
Lemma demo_checkout_runs :
  match demo_checkout with
  | Some (r, Ok _, desk) => roots (ir_snapshot r) = [demo_oid x03] ∧
      map_to_list <$> (sh_workspaces (dk_shelf desk) !! b_ "w") = Some [([b_ "f"], SFile demo_blob 420)]
  | _ => False
  end.
Proof. vm_compute. split; reflexivity. Qed.

(** The workspace of the imported commit is its tree. *)
Lemma checkout_restores_commit_witness :
  ∃ result_ desk, demo_checkout = Some (result_, Ok (), desk) ∧
    (clash demo_backend [demo_oid x03] ∨
     ∃ co root nodes, read_object demo_backend (demo_oid x03) = Ok co ∧ commit_tree_oid co = Ok root ∧
       sh_workspaces (dk_shelf desk) !! b_ "w" = Some nodes ∧ worktree demo_backend Reject root nodes).
Proof.
  pose proof demo_checkout_runs as Hruns. unfold demo_checkout in *.
  destruct demo_import as [[[result_|e] [w s]]|] eqn:Hrun; [|contradiction..].
  destruct (checkout_commit (demo_source w s) demo_request demo_desk) as [[[]|e] desk] eqn:Hco; [|contradiction].
  destruct Hruns as [Hroots _]. exists result_, desk. split; [reflexivity|]. rewrite <-Hroots.
  apply (checkout_restores_commit (demo_start []) (demo_created []) demo_writer demo_backend demo_repo 1 2 Raw
    result_ w s (demo_source w s) demo_request demo_desk () desk).
  - apply demo_initial.
  - apply demo_create_step. vm_compute. reflexivity.
  - reflexivity.
  - apply demo_importable.
  - exact Hrun.
  - reflexivity.
  - reflexivity.
  - vm_compute. split; congruence.
  - rewrite Hroots. apply reached_root. left.
  - exact Hco.
Defined.
End Demo.
End RestoreSpec.
