(* ===== verification/DurableCheckoutSpec.v ===== *)
(** * What a durable checkout guarantees *)

From Stdlib Require Import ZArith Lia Strings.Byte Strings.String.
From stdpp Require Import base tactics list gmap strings.
From S2P Require Import Prelude Order Core Format Codec CatalogCodec CatalogCodecSpec Catalog CatalogSpec RocksSpec CatalogInterface Chunk Disk DiskSpec Store WriterSpec StoreSpec Git GitSpec Reader Snapshot SnapshotSpec PublicationSpec Import ImportSpec Cache Checkout CheckoutSpec MaterializeSpec Workspace WorkspaceSpec WorkspaceStore WorkspaceStoreSpec WorkspaceReconcileSpec ColdSource PlanSpec RestoreSpec.
Import Core Format Codec CatalogCodec CatalogCodecSpec Catalog CatalogSpec RocksSpec CatalogInterface Chunk Disk DiskSpec Store Git Cache Checkout Workspace WorkspaceStore WorkspaceStoreSpec WorkspaceReconcileSpec ColdSource.

#[local] Open Scope Z_scope.

Module DurableCheckoutSpec.

#[local] Set Warnings "-clear-no-such-hyp".

Section Durable.
Context `{Digests} `{Zstd} `{CatalogLaws C}.

Lemma ensure_Err_inv {E} (c : bool) (e e' : E) : ensure c e = Err e' → e' = e.
Proof. destruct c; [done|]. by intros [= ->]. Qed.

(** What the Rust types guarantee of the input. *)
Definition input_wf (i : WorkspaceManifestInput) : Prop :=
  WorkspaceId_wf (wi_workspace_id i) ∧ RepoId_wf (wi_repository i) ∧ length (wi_snapshot_id i) = 16%nat ∧
  GitOid_wf (wi_commit i) ∧ is_u32 (wi_generation i) ∧ is_u64 (wi_created_unix_secs i).
Lemma from_plan_inv input plan m : from_plan input plan = Ok m →
  wm_workspace_id m = wi_workspace_id input ∧ wm_repository m = wi_repository input ∧
  wm_snapshot_id m = wi_snapshot_id input ∧ wm_commit m = wi_commit input ∧ wm_generation m = wi_generation input ∧
  wm_name m = wi_name input ∧ wm_created_unix_secs m = wi_created_unix_secs input ∧ wm_optional_fields m = [].
Proof.
  unfold from_plan. intros Hp. apply bind_Ok_inv in Hp as (c & _ & Hp). apply bind_Ok_inv in Hp as (n & _ & Hp).
  apply bind_Ok_inv in Hp as (d & _ & Hp). cbv zeta in Hp. apply bind_Ok_inv in Hp as ([] & _ & <-%Ok_inj). done.
Qed.
Lemma from_plan_wf input plan m : input_wf input → from_plan input plan = Ok m → WorkspaceSpec.manifest_wf m.
Proof.
  intros (Hid & Hr & Hs & Hc & Hg & Hu) Hp. pose proof (WorkspaceSpec.from_plan_sizes _ _ _ Hp) as Hcounts.
  unfold WorkspaceSpec.manifest_wf. destruct (from_plan_inv _ _ _ Hp) as (-> & -> & -> & -> & -> & _ & -> & ->). by split_and!.
Qed.

Lemma materialize_staged_inv {F} (g : MaterializeError WorkspaceError → F) (src : ColdWorkspaceSource C) plan policy d r d' :
  materialize_staged g src plan policy d = (r, d') →
  dk_shelf d' = dk_shelf d ∧ dk_workspaces d' = dk_workspaces d ∧ ∀ e, r = Err e → ∃ e0, e = g e0.
Proof.
  unfold materialize_staged, st_bind, st_get, on_desk.
  destruct (materialize_raw _ _ _ _ _) as [r0 x]. intros [= <- <-]. cbn. split_and!; try done.
  intros e. destruct r0; cbn; [done|]. intros [= <-]. eauto.
Qed.
Lemma shelf_call_Ok {T} (act : Shelf T → Shelf T) (s s' : Shelf T) u : shelf_call act s = (Ok u, s') →
  sh_workspaces s' = sh_workspaces (act s) ∧ sh_staging s' = sh_staging (act s) ∧ sh_trash s' = sh_trash (act s) ∧
  (honest s → honest s').
Proof.
  unfold shelf_call, honest. destruct (sh_faults s) as [|[e|] fs] eqn:Hf; [|done|]; intros [= _ <-]; cbn.
  - done.
  - split_and!; try done. by intros [_ ?]%Forall_cons.
Qed.
(** A new name is published, or nothing but the staging directory is changed. *)
Lemma publish_staged_inv {F} (g : WorkspacePublishError → F) name d r d' :
  publish_staged g name RejectExisting d = (r, d') →
  (∀ e, r = Err e → ∃ e0, e = g e0) ∧
  (∀ u, r = Ok u → sh_workspaces (dk_shelf d) !! name = None ∧
     sh_workspaces (dk_shelf d') = <[name := sg_nodes (dk_stage d)]> (sh_workspaces (dk_shelf d)) ∧
     dk_stage d' = dk_stage d ∧ (honest (dk_shelf d) → honest (dk_shelf d'))).
Proof.
  unfold publish_staged. destruct (publish_workspace _ _ _ _) as [r0 sh] eqn:Hp. intros [= <- <-]. split.
  { intros e. destruct r0; cbn; [done|]. intros [= <-]. eauto. }
  intros u Hu%map_err_Ok_inv. subst r0. unfold publish_workspace in Hp. cbn [sh_staging sh_workspaces] in Hp.
  destruct (dk_workspaces d); cbn [negb] in Hp; [|done].
  destruct (sh_workspaces (dk_shelf d) !! name) eqn:Hn; [by rewrite decide_True in Hp|].
  apply st_bind_Ok in Hp as (u1 & s1 & (Hw1 & _ & _ & Hh1)%shelf_call_Ok & (Hw2 & _ & _ & Hh2)%shelf_call_Ok).
  cbn in *. rewrite Hw2, Hw1. split_and!; try done. intros Hh. apply Hh2, Hh1, Hh.
Qed.

(** C5. A durable checkout is all or nothing. Run
    [checkout_cold_commit_and_persist] with any calls failing, calls that deny
    the existence of a visible workspace excepted. Success means that the name
    was free, that it now shows the staged tree, that the catalog has the
    record, the name and the generation pin of the new workspace, and, where
    the manifest file was absent or durable before, that after any crash its
    manifest reads back. A failure leaves the visible workspaces as they were,
    unless the publication itself or the rollback failed. *)
Theorem durable_checkout_all_or_nothing repository chunk root temporary again trash_names request input
    (s : Sys C) desk f r s' desk' :
  input_wf input → holds_view (sys_catalog s) f → honest (dk_shelf desk) →
  checkout_cold_commit_and_persist repository chunk root temporary again trash_names request input (s, desk)
    = (r, (s', desk')) →
  match r with
  | Ok _ => ∃ m f', wm_workspace_id m = wi_workspace_id input ∧ wm_generation m = wi_generation input ∧
      wm_name m = rq_name request ∧ holds_view (sys_catalog s') f' ∧ published m f' ∧
      sh_workspaces (dk_shelf desk) !! rq_name request = None ∧
      sh_workspaces (dk_shelf desk') = <[rq_name request := sg_nodes (dk_stage desk')]> (sh_workspaces (dk_shelf desk)) ∧
      (settled (sys_disk s) (workspace_manifest_path root (wi_workspace_id input)) →
       ∀ d, crash (sys_disk s') d → d_faults d = [] →
         (read_workspace_manifest (workspace_manifest_path root (wi_workspace_id input)) d).1 = Ok m)
  | Err (PcPublish _) | Err (PcRollback _ _) => True
  | Err _ => sh_workspaces (dk_shelf desk') = sh_workspaces (dk_shelf desk)
  end.
Proof.
  intros Hi Hv Hh. unfold checkout_cold_commit_and_persist.
  unfold st_bind at 1, st_lift at 1. destruct (ensure _ ManifestInputMismatch) eqn:Hin; [|intros [= <- <- <-]; by apply ensure_Err_inv in Hin as ->].
  apply ensure_Ok_inv in Hin. apply andb_true_iff in Hin as [_ Hname%bool_decide_eq_true].
  unfold st_bind at 1, st_lift at 1. destruct (ensure _ ReplaceNotSupported) eqn:Hrep; [|intros [= <- <- <-]; by apply ensure_Err_inv in Hrep as ->].
  unfold st_bind at 1, st_get at 1. unfold st_bind at 1, st_lift at 1.
  destruct (match workspace_name _ _ with Some _ => _ | None => _ end) as [[]|e] eqn:Hnm.
  2: { intros [= <- <- <-]. destruct (workspace_name _ _); [|done]. by apply ensure_Err_inv in Hnm as ->. }
  unfold st_bind at 1, st_get at 1. cbn [fst].
  unfold st_bind at 1, st_lift at 1. destruct (plan_commit _ _ _) as [plan|e]; cbn [map_err]; [|intros [= <- <- <-]; done].
  unfold st_bind at 1, st_lift at 1. destruct (from_plan input plan) as [m|e] eqn:Hm; cbn [map_err]; [|intros [= <- <- <-]; done].
  pose proof (from_plan_wf _ _ _ Hi Hm) as Hwf. apply from_plan_inv in Hm as (Hid & _ & _ & _ & Hg & Hn & _).
  unfold st_bind at 1, with_desk at 1. cbn [fst snd].
  destruct (materialize_staged _ _ _ _ desk) as [rm d1] eqn:Hmat. apply materialize_staged_inv in Hmat as (Hsh & _ & Herr).
  destruct rm as [[]|e]; [|intros [= <- <- <-]; destruct (Herr e eq_refl) as [? ->]; cbn; by rewrite Hsh].
  unfold st_bind at 1, with_sys at 1, manifest_io at 1. cbn [fst snd].
  destruct (ensure_workspace_manifest root temporary m (sys_disk s)) as [[p|e] dk] eqn:He; cbn [map_err].
  2: { intros [= <- <- <-]. cbn. by rewrite Hsh. }
  apply ensure_manifest_ok in He as (-> & _ & Hdur); [|done].
  unfold st_bind at 1, with_desk at 1. cbn [fst snd].
  destruct (publish_staged _ _ _ d1) as [rp d2] eqn:Hpub. apply publish_staged_inv in Hpub as [Hperr Hpok].
  destruct rp as [u|e]; [|intros [= <- <- <-]; by destruct (Hperr e eq_refl) as [? ->]].
  destruct (Hpok u eq_refl) as (Hfree & Hvis & Hstage & Hh2). rewrite Hsh in *. specialize (Hh2 Hh). cbn [fst snd].
  destruct (persist_ready_workspace root again m _) as [rr s2] eqn:Hper.
  apply (persist_spec _ _ _ _ f) in Hper as (f' & Hv' & _ & Hok); [|done..]. cbn [sys_disk] in Hok.
  destruct rr as [p|e].
  - intros [= <- <- <-]. destruct (Hok eq_refl) as [Hpubl Hset]. exists m, f'. rewrite Hstage, Hvis. split_and!; try done; [congruence|].
    rewrite <-Hid. intros Hs d Hc Hf. destruct (Hdur Hs) as (b0 & _ & Hd0).
    destruct Hset as (b & Hb & Hd); [right; eauto|].
    rewrite (read_manifest_at _ d m Hf); [done|]. eapply durable_manifest_at; [by eapply PublicationSpec.PublicationSpec.durable_file_crash|].
    by apply WorkspaceSpec.w_decode_manifest_iff.
  - unfold roll_back. cbn [fst snd]. destruct (withdraw_workspace trash_names m (dk_shelf d2)) as [rw sh] eqn:Hw.
    destruct rw as [o|e']; intros [= <- <- <-]; [|done]. cbn.
    pose proof (withdraw_kept _ _ _ _ _ Hw) as (Hoth & _). pose proof (withdraw_hides _ _ _ _ _ Hh2 Hw) as Hhide.
    apply map_eq. intros n. destruct (decide (n = wm_name m)) as [->|Hne]; [rewrite Hhide; congruence|].
    rewrite Hoth, Hvis by done. apply lookup_insert_ne. congruence.
Qed.
End Durable.

(** ** A durable checkout of the demo commit *)

Section Demo.
#[local] Existing Instance toy_digests.
#[local] Existing Instance toy_zstd.
Import StoreSpec Import_ ImportSpec RestoreSpec.

Definition demo_input : WorkspaceManifestInput :=
  mkInput (mkWorkspaceId (replicate 16 x01)) demo_repo (replicate 16 x02) (rq_commit demo_request) 1 (b_ "w") 9.
Definition demo_manifests : bytes := b_ "manifests".
Definition demo_durable (w : ChunkWriter) (s : Sys InMemoryCatalog) :=
  checkout_cold_commit_and_persist demo_repo (λ _ _, file_at (sys_disk s) (cw_path w)) demo_manifests
    [mkPath demo_manifests (b_ "t") None] [] [] demo_request demo_input (s, demo_desk).
Lemma demo_durable_runs :
  match demo_import with
  | Some (Ok _, (w, s)) => is_ok (demo_durable w s).1 && bool_decide (d_names (sys_disk s) !!
      workspace_manifest_path demo_manifests (wi_workspace_id demo_input) = None) = true
  | _ => False
  end.
Proof. vm_compute. reflexivity. Qed.
(** The workspace of the imported commit becomes ready and visible. *)
Lemma durable_checkout_all_or_nothing_witness :
  ∃ w s, is_ok (demo_durable w s).1 = true ∧
    ∃ m f', holds_view (sys_catalog (demo_durable w s).2.1) f' ∧ published m f' ∧
      sh_workspaces (dk_shelf (demo_durable w s).2.2) !! b_ "w" = Some (sg_nodes (dk_stage (demo_durable w s).2.2)) ∧
      ∀ d, crash (sys_disk (demo_durable w s).2.1) d → d_faults d = [] →
        (read_workspace_manifest (workspace_manifest_path demo_manifests (wi_workspace_id demo_input)) d).1 = Ok m.
Proof.
  pose proof demo_durable_runs as Hruns. destruct demo_import as [[[r|e] [w s]]|]; [|contradiction..].
  apply andb_true_iff in Hruns as [Hok Hset%bool_decide_eq_true]. exists w, s. split; [exact Hok|].
  destruct (demo_durable w s) as [res [s' desk']] eqn:Hrun.
  pose proof (durable_checkout_all_or_nothing demo_repo (λ _ _, file_at (sys_disk s) (cw_path w)) demo_manifests
    [mkPath demo_manifests (b_ "t") None] [] [] demo_request demo_input s demo_desk (stored (sys_catalog s)) res s' desk') as Hall.
  destruct res as [[]|e]; [|discriminate Hok].
  destruct Hall as (m & f' & _ & _ & _ & Hv & Hp & _ & Hvis & Hcrash);
    [repeat split; vm_compute; congruence|intros k; reflexivity|constructor|exact Hrun|].
  exists m, f'. split; [exact Hv|]. split; [exact Hp|]. split; [cbn [fst snd]; rewrite Hvis; apply lookup_insert_eq|].
  apply Hcrash. left. exact Hset.
Defined.
End Demo.
End DurableCheckoutSpec.
