(* ===== verification/Jobs.v ===== *)
(** * The durable job queue: [reflink-forest-daemon/src/lib.rs]

    Job records and their codec, the file-backed queue with its state machine,
    startup recovery and the execution of queued jobs. *)

From Stdlib Require Import ZArith Lia Strings.Byte Strings.String.
From stdpp Require Import base tactics list gmap strings.
From S2P Require Import Prelude Order Crc Core Format Codec CatalogCodec Catalog Chunk Disk Store Git Reader Cache Checkout Workspace WorkspaceStore.
Import Crc Core Codec CatalogCodec Catalog Chunk Disk Git Reader.

#[local] Open Scope Z_scope.

Module Jobs.

Definition JOB_RECORD_VERSION : Z := 1.
Definition JOB_RECORD_MAGIC : bytes := b_ "RFSJOBv1".
Definition JOB_HEADER_LEN : Z := 50.
Definition JOB_TRAILER_LEN : Z := 4.
Definition MAX_JOB_RECORD_LEN : Z := 64 * 1024 * 1024.
Definition JOB_TEMP_PREFIX : bytes := b_ ".reflink-forest-job-".
Definition JOB_TEMP_SUFFIX : bytes := b_ ".tmp".

(** ** Records *)

Record JobId := mkJobId { job_bytes : bytes }.
#[export] Instance JobId_eq_dec : EqDecision JobId.
Proof. solve_decision. Defined.
Inductive JobState := Queued | Running | Succeeded | Failed.
#[export] Instance JobState_eq_dec : EqDecision JobState.
Proof. solve_decision. Defined.
Definition state_tag (s : JobState) : Z :=
  match s with Queued => 1 | Running => 2 | Succeeded => 3 | Failed => 4 end.
Definition state_from_tag (tag : Z) : option JobState :=
  if decide (tag = 1) then Some Queued
  else if decide (tag = 2) then Some Running
  else if decide (tag = 3) then Some Succeeded
  else if decide (tag = 4) then Some Failed
  else None.
Record JobRecord := mkJob {
  jb_id : JobId; jb_kind : bytes; jb_payload : bytes; jb_state : JobState; jb_attempts : Z; jb_last_error : option bytes }.
#[export] Instance JobRecord_eq_dec : EqDecision JobRecord.
Proof. solve_decision. Defined.
(** A path in the jobs directory is its file name. *)
Inductive JobError :=
| JobIo (e : IoErrorKind)
| JobAlreadyExists (id : JobId)
| JobNotFound (id : JobId)
| InvalidRecord (reason : string)
| JobUnsupportedVersion (version : Z)
| InvalidTransition (id : JobId) (from to : JobState)
| AttemptOverflow (id : JobId)
| UnsafeJobDirectoryEntry (name : bytes).
Abbreviation JResult := (result JobError).

Definition queued (id : JobId) (kind payload : bytes) : JobRecord := mkJob id kind payload Queued 0 None.
Definition error_bytes (r : JobRecord) : bytes := default [] (jb_last_error r).
Definition validate (r : JobRecord) : JResult unit :=
  _ ← ensure (bool_decide (jb_kind r ≠ [])) (InvalidRecord "job kind is empty");
  _ ← ensure (bool_decide (blen (jb_kind r) ≤ MAX_JOB_RECORD_LEN) && bool_decide (blen (jb_payload r) ≤ MAX_JOB_RECORD_LEN) &&
              bool_decide (blen (error_bytes r) ≤ MAX_JOB_RECORD_LEN)) (InvalidRecord "job field exceeds size limit");
  _ ← ensure (bool_decide (jb_last_error r ≠ Some [])) (InvalidRecord "job error is empty");
  _ ← ensure (bool_decide (jb_state r = Queued) || bool_decide (jb_attempts r ≠ 0))
             (InvalidRecord "non-queued job has no execution attempt");
  match jb_state r, jb_last_error r with
  | Succeeded, Some _ => Err (InvalidRecord "succeeded job retains an error")
  | Failed, None => Err (InvalidRecord "failed job has no error")
  | _, _ => Ok ()
  end.

(** ** The codec *)

Definition total_length (r : JobRecord) : option Z :=
  n ← checked_add JOB_HEADER_LEN (blen (jb_kind r));
  n ← checked_add n (blen (jb_payload r));
  n ← checked_add n (blen (error_bytes r));
  n ← checked_add n JOB_TRAILER_LEN;
  if decide (n ≤ MAX_JOB_RECORD_LEN) then Some n else None.
(** The first 46 bytes. *)
Definition job_header (r : JobRecord) (kind_len payload_len error_len : Z) : bytes :=
  be_encode 1 JOB_RECORD_VERSION ++ be_encode 1 (state_tag (jb_state r)) ++ JOB_RECORD_MAGIC ++ job_bytes (jb_id r) ++
  be_encode 4 (jb_attempts r) ++ be_encode 4 kind_len ++ be_encode 8 payload_len ++ be_encode 4 error_len.
Definition encode_job_record (r : JobRecord) : JResult bytes :=
  _ ← validate r;
  kind_len ← ok_or (u32_try_from (blen (jb_kind r))) (InvalidRecord "job kind length overflows format");
  payload_len ← ok_or (u64_try_from (blen (jb_payload r))) (InvalidRecord "job payload length overflows format");
  error_len ← ok_or (u32_try_from (blen (error_bytes r))) (InvalidRecord "job error length overflows format");
  _ ← ok_or (total_length r) (InvalidRecord "job record length is invalid");
  let header := job_header r kind_len payload_len error_len in
  let body := jb_kind r ++ jb_payload r ++ error_bytes r in
  Ok (header ++ be_encode 4 (crc32c header) ++ body ++ be_encode 4 (crc32c body)).
Definition decode_job_record (b : bytes) : JResult JobRecord :=
  _ ← ensure (bool_decide (JOB_HEADER_LEN + JOB_TRAILER_LEN ≤ blen b)) (InvalidRecord "job record is truncated");
  _ ← ensure (bool_decide (blen b ≤ MAX_JOB_RECORD_LEN)) (InvalidRecord "job record exceeds size limit");
  _ ← ensure (bool_decide (index b 0 = JOB_RECORD_VERSION)) (JobUnsupportedVersion (index b 0));
  _ ← ensure (bool_decide (slice 2 8 b = JOB_RECORD_MAGIC)) (InvalidRecord "job record magic is invalid");
  _ ← ensure (bool_decide (read_u32 b 46 = crc32c (take 46 b))) (InvalidRecord "job record header checksum mismatch");
  state ← ok_or (state_from_tag (index b 1)) (InvalidRecord "job record state is invalid");
  let kind_len := read_u32 b 30 in
  let payload_len := read_u64 b 34 in
  let error_len := read_u32 b 42 in
  body_len ← ok_or (n ← checked_add kind_len payload_len; checked_add n error_len) (InvalidRecord "job field lengths overflow");
  expected_len ← ok_or (n ← checked_add JOB_HEADER_LEN body_len; checked_add n JOB_TRAILER_LEN)
                       (InvalidRecord "job record length overflows");
  _ ← ensure (bool_decide (blen b = expected_len)) (InvalidRecord "job record length does not match header");
  let trailer_offset := Z.to_nat (blen b - JOB_TRAILER_LEN) in
  _ ← ensure (bool_decide (read_u32 b trailer_offset = crc32c (slice 50 (trailer_offset - 50) b)))
             (InvalidRecord "job record body checksum mismatch");
  let kind := slice 50 (Z.to_nat kind_len) b in
  let payload := slice (50 + Z.to_nat kind_len) (Z.to_nat payload_len) b in
  let last_error :=
    if decide (error_len = 0) then None
    else Some (slice (50 + Z.to_nat kind_len + Z.to_nat payload_len) (Z.to_nat error_len) b) in
  let record := mkJob (mkJobId (slice 10 16 b)) kind payload state (read_u32 b 26) last_error in
  _ ← validate record;
  Ok record.

(** ** Names *)

Definition hex_nibble (b : byte) : option Z :=
  let z := byte_to_Z b in
  if decide (48 ≤ z ≤ 57) then Some (z - 48)
  else if decide (97 ≤ z ≤ 102) then Some (z - 97 + 10)
  else None.
Fixpoint hex_bytes (b : bytes) : option bytes :=
  match b with
  | x :: y :: b =>
      hi ← hex_nibble x;
      lo ← hex_nibble y;
      rest ← hex_bytes b;
      Some (byte_of_Z (Z.lor (Z.shiftl hi 4) lo) :: rest)
  | _ => Some []
  end.
Definition parse_hex (value : bytes) : option JobId :=
  if decide (length value = 32%nat) then mkJobId <$> hex_bytes value else None.
Definition strip_suffix (name suffix : bytes) : option bytes :=
  if WorkspaceStore.ends_with name suffix then Some (take (length name - length suffix) name) else None.
Definition parse_job_filename (name : bytes) : option JobId :=
  stem ← strip_suffix name (b_ ".job"); parse_hex stem.
Definition starts_with (name prefix : bytes) : bool := bool_decide (take (length prefix) name = prefix).
Definition is_temporary_name (name : bytes) : bool :=
  starts_with name JOB_TEMP_PREFIX && WorkspaceStore.ends_with name JOB_TEMP_SUFFIX.

(** ** The queue *)

Section Store.
(** The jobs directory. *)
Context (dir : bytes).
Abbreviation JIO := (ST Disk JobError).
Definition jio {A} (act : DiskIO A) : JIO A := st_map_err JobIo act.

Definition job_path (id : JobId) : Path := mkPath dir (Cache.hex (job_bytes id)) (Some "job"%string).
Definition temporary_path (id : JobId) (nonce : Z) : Path :=
  mkPath dir (JOB_TEMP_PREFIX ++ Cache.hex (job_bytes id) ++ b_ "-" ++ Store.hex 16 nonce) (Some "tmp"%string).
Definition read_record_locked (id : JobId) : JIO JobRecord := λ d,
  match open_file (job_path id) d with
  | (Err NotFound, d) => (Err (JobNotFound id), d)
  | (Err e, d) => (Err (JobIo e), d)
  | (Ok metadata, d) =>
      (_ ⇐ st_lift (ensure (bool_decide (blen (data d metadata) ≤ MAX_JOB_RECORD_LEN))
                           (UnsafeJobDirectoryEntry (WorkspaceStore.file_name (job_path id))));
       file ⇐ jio (open_file (job_path id));
       bytes ⇐ jio (read_file file);
       record ⇐ st_lift (decode_job_record bytes);
       _ ⇐ st_lift (ensure (bool_decide (jb_id record = id)) (InvalidRecord "record identifier does not match filename"));
       st_ret record) d
  end.

(** The directory's entries, in no particular order. *)
Definition read_dir : DiskIO (list Path) :=
  io (λ d, (Ok (filter (λ p, p_dir p = dir) (map_to_list (d_names d)).*1), d)).
Fixpoint job_ids (entries : list Path) : JResult (list JobId) :=
  match entries with
  | [] => Ok []
  | p :: entries =>
      let name := WorkspaceStore.file_name p in
      _ ← ensure (WorkspaceStore.is_utf8 name) (UnsafeJobDirectoryEntry name);
      _ ← ensure (negb (is_temporary_name name)) (UnsafeJobDirectoryEntry name);
      id ← ok_or (parse_job_filename name) (UnsafeJobDirectoryEntry name);
      ids ← job_ids entries;
      Ok (id :: ids)
  end.
Fixpoint read_records (ids : list JobId) : JIO (list JobRecord) :=
  match ids with
  | [] => st_ret []
  | id :: ids =>
      record ⇐ read_record_locked id;
      records ⇐ read_records ids;
      st_ret (record :: records)
  end.
Definition id_compare (a b : JobId) : comparison := bytes_compare (job_bytes a) (job_bytes b).
Definition list_records_locked : JIO (list JobRecord) :=
  entries ⇐ jio read_dir;
  ids ⇐ st_lift (job_ids entries);
  read_records (sort_by id_compare ids).

(** One file of the queue is replaced; [nonces] are the values of the counter. *)
Fixpoint replace_record (id : JobId) (bytes : bytes) (nonces : list Z) : JIO unit :=
  match nonces with
  | [] => st_lift (Err (JobIo AlreadyExists))
  | nonce :: nonces => λ d,
      let candidate := temporary_path id nonce in
      match create_new candidate d with
      | (Err AlreadyExists, d) => replace_record id bytes nonces d
      | (Err e, d) => (Err (JobIo e), d)
      | (Ok file, d) =>
          match (_ ⇐ write_at file 0 bytes;
                 _ ⇐ sync_file file;
                 _ ⇐ rename candidate (job_path id);
                 sync_all_directory dir) d with
          | (Ok _, d) => (Ok (), d)
          | (Err e, d) => (Err (JobIo e), (remove_file candidate d).2)
          end
      end
  end.
Definition write_record_locked (nonces : list Z) (r : JobRecord) : JIO unit :=
  bytes ⇐ st_lift (encode_job_record r);
  replace_record (jb_id r) bytes nonces.

Definition require_transition (r : JobRecord) (expected target : JobState) : JResult unit :=
  ensure (bool_decide (jb_state r = expected)) (InvalidTransition (jb_id r) (jb_state r) target).
Definition saturating_sub (a b : Z) : Z := Z.max 0 (a - b).
Definition execution_failure_capacity (r : JobRecord) : Z :=
  saturating_sub (saturating_sub (saturating_sub (saturating_sub MAX_JOB_RECORD_LEN JOB_HEADER_LEN) JOB_TRAILER_LEN)
    (blen (jb_kind r))) (blen (jb_payload r)).
Definition ensure_execution_failure_space (r : JobRecord) : JResult unit :=
  ensure (bool_decide (execution_failure_capacity r ≠ 0)) (InvalidRecord "job record leaves no room for an execution failure").
Definition bounded_handler_error (r : JobRecord) (error : bytes) : bytes :=
  let error := if decide (error = []) then b_ "job handler returned an empty error" else error in
  take (Z.to_nat (execution_failure_capacity r)) error.

Definition enqueue_with_id (nonces : list Z) (id : JobId) (kind payload : bytes) : JIO JobRecord :=
  exists_ ⇐ st_get (λ d, path_exists d (job_path id));
  _ ⇐ st_lift (ensure (negb exists_) (JobAlreadyExists id));
  let record := queued id kind payload in
  _ ⇐ st_lift (ensure_execution_failure_space record);
  _ ⇐ write_record_locked nonces record;
  st_ret record.
(** [ids] are what reading [/dev/urandom] gives. *)
Fixpoint enqueue (nonces : list Z) (ids : list (result IoErrorKind JobId)) (kind payload : bytes) : JIO JobRecord :=
  match ids with
  | [] => st_lift (Err (JobIo AlreadyExists))
  | id :: ids =>
      id ⇐ st_lift (map_err JobIo id);
      exists_ ⇐ st_get (λ d, path_exists d (job_path id));
      if exists_ : bool then enqueue nonces ids kind payload
      else
        let record := queued id kind payload in
        _ ⇐ st_lift (ensure_execution_failure_space record);
        _ ⇐ write_record_locked nonces record;
        st_ret record
  end.
Definition get (id : JobId) : JIO JobRecord := read_record_locked id.
Definition list_ : JIO (list JobRecord) := list_records_locked.

Definition set_state (r : JobRecord) (s : JobState) (attempts : Z) (error : option bytes) : JobRecord :=
  mkJob (jb_id r) (jb_kind r) (jb_payload r) s attempts error.
Definition begin_attempt (r : JobRecord) : JResult JobRecord :=
  attempts ← ok_or (if decide (jb_attempts r + 1 < 2 ^ 32) then Some (jb_attempts r + 1) else None) (AttemptOverflow (jb_id r));
  Ok (set_state r Running attempts (jb_last_error r)).
Definition claim_next_matching (nonces : list Z) (matches : JobRecord → bool) : JIO (option JobRecord) :=
  records ⇐ list_records_locked;
  match List.find (λ r, bool_decide (jb_state r = Queued) && matches r) records with
  | None => st_ret None
  | Some record =>
      _ ⇐ st_lift (ensure_execution_failure_space record);
      record ⇐ st_lift (begin_attempt record);
      _ ⇐ write_record_locked nonces record;
      st_ret (Some record)
  end.
Definition claim_next (nonces : list Z) : JIO (option JobRecord) := claim_next_matching nonces (λ _, true).

Definition update (nonces : list Z) (id : JobId) (change : JobRecord → JResult JobRecord) : JIO JobRecord :=
  record ⇐ read_record_locked id;
  record ⇐ st_lift (change record);
  _ ⇐ write_record_locked nonces record;
  st_ret record.
Definition start (nonces : list Z) (id : JobId) : JIO JobRecord :=
  update nonces id (λ r, _ ← require_transition r Queued Running; begin_attempt r).
Definition succeed (nonces : list Z) (id : JobId) : JIO JobRecord :=
  update nonces id (λ r, _ ← require_transition r Running Succeeded; Ok (set_state r Succeeded (jb_attempts r) None)).
Definition fail (nonces : list Z) (id : JobId) (error : bytes) : JIO JobRecord :=
  _ ⇐ st_lift (ensure (bool_decide (error ≠ [])) (InvalidRecord "failure error is empty"));
  update nonces id (λ r, _ ← require_transition r Running Failed; Ok (set_state r Failed (jb_attempts r) (Some error))).
Definition retry (nonces : list Z) (id : JobId) : JIO JobRecord :=
  update nonces id (λ r, _ ← require_transition r Failed Queued; Ok (set_state r Queued (jb_attempts r) (jb_last_error r))).

(** ** Startup *)

Fixpoint remove_temporaries (entries : list Path) (removed : bool) : JIO bool :=
  match entries with
  | [] => st_ret removed
  | p :: entries =>
      let name := WorkspaceStore.file_name p in
      _ ⇐ st_lift (ensure (WorkspaceStore.is_utf8 name) (UnsafeJobDirectoryEntry name));
      if is_temporary_name name then _ ⇐ jio (remove_file p); remove_temporaries entries true
      else remove_temporaries entries removed
  end.
Definition remove_stale_temporaries_locked : JIO unit :=
  entries ⇐ jio read_dir;
  removed ⇐ remove_temporaries entries false;
  if removed : bool then jio (sync_all_directory dir) else st_ret ().
(** Interrupted work returns to the queue; [nonces] gives the counter values
    drawn for each record. *)
Fixpoint requeue (nonces : JobId → list Z) (records : list JobRecord) (recovered : Z) : JIO Z :=
  match records with
  | [] => st_ret recovered
  | r :: records =>
      if decide (jb_state r = Running) then
        _ ⇐ write_record_locked (nonces (jb_id r)) (set_state r Queued (jb_attempts r) (jb_last_error r));
        requeue nonces records (recovered + 1)
      else requeue nonces records recovered
  end.
Definition recover_startup (nonces : JobId → list Z) : JIO Z :=
  _ ⇐ remove_stale_temporaries_locked;
  records ⇐ list_records_locked;
  requeue nonces records 0.
(** [created]: the directory was not there; [parent] holds its name. *)
Definition open_with_recovery (nonces : JobId → list Z) (created : bool) (parent : bytes) : JIO Z :=
  _ ⇐ jio (create_dir_all dir);
  _ ⇐ jio (io (λ d, (Ok (), d)));
  _ ⇐ (if created then jio (sync_all_directory parent) else st_ret ());
  recover_startup nonces.

(** ** Execution *)

Inductive JobExecutionFailure := HandlerError | HandlerPanic.
Inductive JobExecutionOutcome :=
| Idle
| JobSucceeded (job : JobRecord)
| JobFailed (job : JobRecord) (failure : JobExecutionFailure).
(** What a handler does with a job, besides its own effects: it returns, with
    an error or not, or it unwinds. *)
Inductive HandlerResult := Handled | HandlerFailed (message : bytes) | HandlerPanicked.
Definition execute_next_matching {H} (claim_nonces final_nonces : list Z) (matches : JobRecord → bool)
    (handle : JobRecord → H → HandlerResult * H) : ST (Disk * H) JobError JobExecutionOutcome := λ x,
  match claim_next_matching claim_nonces matches x.1 with
  | (Err e, d) => (Err e, (d, x.2))
  | (Ok None, d) => (Ok Idle, (d, x.2))
  | (Ok (Some claimed), d) =>
      let '(result_, h) := handle claimed x.2 in
      let '(r, d) :=
        match result_ with
        | Handled => (job ⇐ succeed final_nonces (jb_id claimed); st_ret (JobSucceeded job)) d
        | HandlerFailed message =>
            (job ⇐ fail final_nonces (jb_id claimed) (bounded_handler_error claimed message);
             st_ret (JobFailed job HandlerError)) d
        | HandlerPanicked =>
            (job ⇐ fail final_nonces (jb_id claimed) (bounded_handler_error claimed (b_ "job handler panicked"));
             st_ret (JobFailed job HandlerPanic)) d
        end in
      (r, (d, h))
  end.
Definition execute_next {H} (claim_nonces final_nonces : list Z) (handle : JobRecord → H → HandlerResult * H) :=
  execute_next_matching claim_nonces final_nonces (λ _, true) handle.
End Store.
End Jobs.
