(* ===== verification/JobsSpec.v ===== *)
(** * What job records guarantee *)

From Stdlib Require Import ZArith Lia Strings.Byte Strings.String.
From stdpp Require Import base tactics list gmap strings.
From S2P Require Import Prelude Order Crc Core Format Codec CatalogCodec Catalog Chunk Disk Store Git Reader Cache Checkout Workspace WorkspaceStore Jobs.
Import Crc Core Codec CatalogCodec Catalog Chunk Disk Git Reader Jobs.

#[local] Open Scope Z_scope.

Module JobsSpec.

#[local] Set Warnings "-clear-no-such-hyp".

(** ** The codec *)

(** What the Rust types guarantee of a record. *)
Definition job_wf (r : JobRecord) : Prop := length (job_bytes (jb_id r)) = 16%nat ∧ is_u32 (jb_attempts r).

Definition job_size (r : JobRecord) : Z :=
  JOB_HEADER_LEN + blen (jb_kind r) + blen (jb_payload r) + blen (error_bytes r) + JOB_TRAILER_LEN.
Definition job_body (r : JobRecord) : bytes := jb_kind r ++ jb_payload r ++ error_bytes r.
Definition layout_header (r : JobRecord) : bytes :=
  job_header r (blen (jb_kind r)) (blen (jb_payload r)) (blen (error_bytes r)).
Definition job_layout (r : JobRecord) : bytes :=
  layout_header r ++ be_encode 4 (crc32c (layout_header r)) ++ job_body r ++ be_encode 4 (crc32c (job_body r)).

Lemma total_length_spec r n : total_length r = Some n ↔ job_size r ≤ MAX_JOB_RECORD_LEN ∧ n = job_size r.
Proof.
  unfold total_length, job_size, JOB_HEADER_LEN, JOB_TRAILER_LEN, MAX_JOB_RECORD_LEN, blen. split.
  - intros Ht. repeat (apply bind_Some in Ht as (? & [-> ?]%checked_add_inv & Ht)). case_decide; [|done].
    injection Ht as <-. lia.
  - intros [Hle ->]. assert (67108864 < u64_max) by done.
    rewrite checked_add_Some by lia. cbn [mbind option_bind]. rewrite checked_add_Some by lia. cbn [mbind option_bind].
    rewrite checked_add_Some by lia. cbn [mbind option_bind]. rewrite checked_add_Some by lia. cbn [mbind option_bind].
    rewrite decide_True by lia. f_equal; lia.
Qed.
Lemma encode_job_Ok r b :
  encode_job_record r = Ok b ↔ validate r = Ok () ∧ job_size r ≤ MAX_JOB_RECORD_LEN ∧ b = job_layout r.
Proof.
  unfold encode_job_record. split.
  - intros He. apply bind_Ok_inv in He as ([] & Hv & He). apply bind_Ok_inv in He as (k & Hk%ok_or_Ok_inv & He).
    apply bind_Ok_inv in He as (p & Hp%ok_or_Ok_inv & He). apply bind_Ok_inv in He as (e & Hee%ok_or_Ok_inv & He).
    apply bind_Ok_inv in He as (n & Hn%ok_or_Ok_inv & He). apply total_length_spec in Hn as [Hn _].
    unfold u32_try_from, u64_try_from in *. repeat case_decide; try done.
    injection Hk as <-. injection Hp as <-. injection Hee as <-. injection He as <-. done.
  - intros (Hv & Hs & ->). rewrite Hv, bind_Ok.
    unfold job_size, JOB_HEADER_LEN, JOB_TRAILER_LEN, MAX_JOB_RECORD_LEN, blen in Hs.
    unfold u32_try_from, u64_try_from. rewrite !decide_True by (unfold blen, u32_max, u64_max; lia). cbn [ok_or]. rewrite !bind_Ok.
    rewrite (proj2 (total_length_spec r (job_size r))); [done|]. split; [|done].
    unfold job_size, JOB_HEADER_LEN, JOB_TRAILER_LEN, MAX_JOB_RECORD_LEN, blen. lia.
Qed.
Lemma length_header r : job_wf r → length (layout_header r) = 46%nat.
Proof. intros [Hid _]. unfold layout_header, job_header. rewrite !length_app, !length_be_encode, Hid. done. Qed.
Lemma length_job_layout r : job_wf r → blen (job_layout r) = job_size r.
Proof.
  intros Hwf. unfold job_layout, job_body, job_size, blen. rewrite !length_app, length_header, !length_be_encode by done.
  unfold JOB_HEADER_LEN, JOB_TRAILER_LEN. lia.
Qed.
Lemma state_from_tag_inv t s : state_from_tag t = Some s ↔ t = state_tag s.
Proof. unfold state_from_tag. split; [repeat case_decide; naive_solver|]. intros ->. by destruct s. Qed.

(** The fields of a byte string that is long enough. *)
Lemma header_split (b : bytes) : (46 ≤ length b)%nat →
  take 46 b = [byte_of_Z (index b 0)] ++ [byte_of_Z (index b 1)] ++ slice 2 8 b ++ slice 10 16 b ++
    be_encode 4 (read_u32 b 26) ++ be_encode 4 (read_u32 b 30) ++ be_encode 8 (read_u64 b 34) ++ be_encode 4 (read_u32 b 42).
Proof.
  intros Hl. rewrite <-!index_slice, <-!slice_of_read_be by lia. rewrite <-!slice_split. apply take_slice.
Qed.
Lemma trailer_split (b : bytes) n : length b = (50 + n + 4)%nat →
  b = take 46 b ++ be_encode 4 (read_u32 b 46) ++ slice 50 n b ++ be_encode 4 (read_u32 b (50 + n)).
Proof.
  intros Hl. rewrite <-!slice_of_read_be, take_slice, <-!slice_split by lia. symmetry. apply slice_full. lia.
Qed.
Lemma error_bytes_slice (e : bytes) :
  default [] (if decide (Z.of_nat (length e) = 0) then None else Some e) = e.
Proof. case_decide; [|done]. by destruct e. Qed.

Lemma decode_job_sound b r : decode_job_record b = Ok r → job_wf r ∧ encode_job_record r = Ok b.
Proof.
  unfold decode_job_record. intros Hd.
  apply bind_Ok_inv in Hd as ([] & Hmin%ensure_Ok_inv%bool_decide_eq_true & Hd).
  apply bind_Ok_inv in Hd as ([] & Hmax%ensure_Ok_inv%bool_decide_eq_true & Hd).
  apply bind_Ok_inv in Hd as ([] & Hver%ensure_Ok_inv%bool_decide_eq_true & Hd).
  apply bind_Ok_inv in Hd as ([] & Hmagic%ensure_Ok_inv%bool_decide_eq_true & Hd).
  apply bind_Ok_inv in Hd as ([] & Hhcrc%ensure_Ok_inv%bool_decide_eq_true & Hd).
  apply bind_Ok_inv in Hd as (st & Hst%ok_or_Ok_inv%state_from_tag_inv & Hd). cbv zeta in Hd.
  apply bind_Ok_inv in Hd as (bl & Hbl%ok_or_Ok_inv & Hd).
  apply bind_Some in Hbl as (? & [-> _]%checked_add_inv & [-> _]%checked_add_inv).
  apply bind_Ok_inv in Hd as (el & Hel%ok_or_Ok_inv & Hd).
  apply bind_Some in Hel as (? & [-> _]%checked_add_inv & [-> _]%checked_add_inv).
  apply bind_Ok_inv in Hd as ([] & Hlen%ensure_Ok_inv%bool_decide_eq_true & Hd).
  apply bind_Ok_inv in Hd as ([] & Hbcrc%ensure_Ok_inv%bool_decide_eq_true & Hd).
  apply bind_Ok_inv in Hd as ([] & Hval & Hd). injection Hd as <-.
  unfold blen, JOB_HEADER_LEN, JOB_TRAILER_LEN in *. assert (54 ≤ length b)%nat as H54 by lia.
  pose proof (read_be_range 4 b 30 ltac:(lia)) as Hk. pose proof (read_be_range 8 b 34 ltac:(lia)) as Hp.
  pose proof (read_be_range 4 b 42 ltac:(lia)) as He. pose proof (read_be_range 4 b 26 ltac:(lia)) as Ha.
  unfold in_width in Hk, Hp, He.
  set (k := Z.to_nat (read_u32 b 30)) in *. set (p := Z.to_nat (read_u64 b 34)) in *.
  set (e := Z.to_nat (read_u32 b 42)) in *.
  assert (length b = (50 + (k + (p + e)) + 4)%nat) as Hl by lia.
  replace (Z.to_nat (Z.of_nat (length b) - 4)) with (50 + (k + (p + e)))%nat in Hbcrc by lia.
  replace (50 + (k + (p + e)) - 50)%nat with (k + (p + e))%nat in Hbcrc by lia.
  set (r := mkJob _ _ _ _ _ _) in *.
  assert (length (jb_kind r) = k) as Hlk by (apply length_slice; lia).
  assert (length (jb_payload r) = p) as Hlp by (apply length_slice; lia).
  assert (error_bytes r = slice (50 + k + p) e b ∧ length (error_bytes r) = e) as [Hes Hle].
  { assert (length (slice (50 + k + p) e b) = e) as Hle by (apply length_slice; lia).
    assert (error_bytes r = slice (50 + k + p) e b) as ->; [|done].
    rewrite <-(error_bytes_slice (slice _ _ b)), Hle. replace (Z.of_nat e) with (read_u32 b 42) by lia. done. }
  split; [split; [cbn; apply length_slice; lia|exact Ha]|].
  apply encode_job_Ok. split; [exact Hval|]. split.
  { unfold job_size, JOB_HEADER_LEN, JOB_TRAILER_LEN, blen. lia. }
  rewrite (trailer_split b _ Hl), Hhcrc, Hbcrc.
  assert (take 46 b = layout_header r) as ->.
  { rewrite header_split by lia. unfold layout_header, job_header, blen. rewrite Hlk, Hlp, Hle, Hver, Hst, Hmagic.
    unfold k, p, e. rewrite !Z2Nat.id by lia.
    by destruct st. }
  assert (slice 50 (k + (p + e)) b = job_body r) as ->; [|done].
  unfold job_body. rewrite Hes. cbn [jb_kind jb_payload r]. by rewrite !slice_split.
Qed.

Lemma length_job_magic : length JOB_RECORD_MAGIC = 8%nat.
Proof. done. Qed.
#[local] Hint Rewrite length_job_magic : len.
(** One field of the header; the identifier has 16 bytes. *)
#[local] Ltac field_simpl :=
  repeat (rewrite slice_app_skip by solve_len); autorewrite with len;
  lazymatch goal with H : length (job_bytes _) = 16%nat |- _ => rewrite ?H end; cbn [Nat.sub];
  first [ rewrite slice_app_exact by solve_len | rewrite slice_exact by solve_len ]; done.
(** The fields of a layout, read back. *)
Lemma layout_fields r : job_wf r → job_size r ≤ MAX_JOB_RECORD_LEN →
  let b := job_layout r in
  length b = (50 + length (job_body r) + 4)%nat ∧ index b 0 = JOB_RECORD_VERSION ∧ index b 1 = state_tag (jb_state r) ∧
  slice 2 8 b = JOB_RECORD_MAGIC ∧ slice 10 16 b = job_bytes (jb_id r) ∧ read_u32 b 26 = jb_attempts r ∧
  read_u32 b 30 = blen (jb_kind r) ∧ read_u64 b 34 = blen (jb_payload r) ∧ read_u32 b 42 = blen (error_bytes r) ∧
  take 46 b = layout_header r ∧ read_u32 b 46 = crc32c (layout_header r) ∧
  slice 50 (length (job_body r)) b = job_body r ∧ read_u32 b (50 + length (job_body r)) = crc32c (job_body r).
Proof.
  intros Hwf Hs b. pose proof Hwf as [Hid Ha]. pose proof (length_header r Hwf) as Hh.
  unfold job_size, JOB_HEADER_LEN, JOB_TRAILER_LEN, MAX_JOB_RECORD_LEN, blen in Hs.
  assert (length b = (50 + length (job_body r) + 4)%nat) as Hl.
  { unfold b, job_layout. rewrite !length_app, Hh, !length_be_encode. lia. }
  assert (∀ o n v, (o + n ≤ 46)%nat → slice o n (layout_header r) = v → slice o n b = v) as Hin.
  { intros o n v Hon <-. unfold b, job_layout. apply slice_app_l. lia. }
  unfold layout_header, job_header in Hin.
  split; [exact Hl|]. split_and!.
  - unfold b, job_layout, layout_header, job_header. done.
  - unfold b, job_layout, layout_header, job_header. by destruct (jb_state r).
  - apply Hin; [lia|]. field_simpl.
  - apply Hin; [lia|]. field_simpl.
  - apply read_be_of_slice; [done|]. apply Hin; [lia|]. field_simpl.
  - apply read_be_of_slice; [unfold in_width, blen; lia|]. apply Hin; [lia|]. field_simpl.
  - apply read_be_of_slice; [unfold in_width, blen; lia|]. apply Hin; [lia|]. field_simpl.
  - apply read_be_of_slice; [unfold in_width, blen; lia|]. apply Hin; [lia|]. field_simpl.
  - unfold b, job_layout. rewrite <-Hh. apply take_app_length.
  - apply read_be_of_slice; [apply crc32c_range|]. unfold b, job_layout. rewrite slice_app_skip by lia.
    rewrite Hh. apply slice_app_exact. apply length_be_encode.
  - unfold b, job_layout. rewrite !slice_app_skip by (rewrite ?Hh, ?length_be_encode; lia). rewrite Hh, length_be_encode.
    by apply slice_app_exact.
  - apply read_be_of_slice; [apply crc32c_range|]. unfold b, job_layout.
    rewrite !slice_app_skip by (rewrite ?Hh, ?length_be_encode; lia). rewrite Hh, length_be_encode.
    replace (50 + _ - 46 - 4 - _)%nat with 0%nat by lia. apply slice_exact, length_be_encode.
Qed.
Lemma pass {E B} (P : Prop) `{Decision P} (e : E) (k : unit → result E B) :
  P → (ensure (bool_decide P) e ≫= k) = k ().
Proof. intros. by rewrite bool_decide_eq_true_2. Qed.
Lemma validate_iff r : validate r = Ok () ↔
  jb_kind r ≠ [] ∧
  (blen (jb_kind r) ≤ MAX_JOB_RECORD_LEN ∧ blen (jb_payload r) ≤ MAX_JOB_RECORD_LEN ∧ blen (error_bytes r) ≤ MAX_JOB_RECORD_LEN) ∧
  jb_last_error r ≠ Some [] ∧ (jb_state r = Queued ∨ jb_attempts r ≠ 0) ∧
  (jb_state r = Succeeded → jb_last_error r = None) ∧ (jb_state r = Failed → jb_last_error r ≠ None).
Proof.
  unfold validate. split.
  - intros Hv. apply bind_Ok_inv in Hv as (_ & Hk%ensure_Ok_inv%bool_decide_eq_true & Hv).
    apply bind_Ok_inv in Hv as (_ & Hs%ensure_Ok_inv & Hv).
    apply bind_Ok_inv in Hv as (_ & He%ensure_Ok_inv%bool_decide_eq_true & Hv).
    apply bind_Ok_inv in Hv as (_ & Ha%ensure_Ok_inv & Hv).
    rewrite !andb_true_iff, !bool_decide_eq_true in Hs. rewrite orb_true_iff, !bool_decide_eq_true in Ha.
    destruct Hs as [[? ?] ?]. split_and!; try done; destruct (jb_state r), (jb_last_error r); naive_solver.
  - intros (Hk & (H1 & H2 & H3) & He & Ha & Hs & Hf). rewrite pass by done.
    rewrite (ensure_true (_ && _)) by (by rewrite !andb_true_iff, !bool_decide_eq_true). rewrite bind_Ok, pass by done.
    rewrite ensure_true by (by rewrite orb_true_iff, !bool_decide_eq_true). rewrite bind_Ok.
    destruct (jb_state r), (jb_last_error r); naive_solver.
Qed.
Lemma error_field r : validate r = Ok () →
  (if decide (blen (error_bytes r) = 0) then None else Some (error_bytes r)) = jb_last_error r.
Proof.
  intros (_ & _ & He & _)%validate_iff. unfold error_bytes, blen.
  destruct (jb_last_error r) as [[|x e]|]; [done| |done]. rewrite decide_False; [done|cbn; lia].
Qed.
Lemma decode_job_complete r : job_wf r → validate r = Ok () → job_size r ≤ MAX_JOB_RECORD_LEN →
  decode_job_record (job_layout r) = Ok r.
Proof.
  intros Hwf Hv Hs. destruct (layout_fields r Hwf Hs)
    as (Hl & Hver & Hst & Hmagic & Hid & Hat & Hk & Hp & He & Hh & Hhc & Hb & Hbc).
  pose proof Hs as Hs'. unfold job_size, JOB_HEADER_LEN, JOB_TRAILER_LEN, MAX_JOB_RECORD_LEN in Hs'.
  assert (length (job_body r) = (length (jb_kind r) + (length (jb_payload r) + length (error_bytes r)))%nat) as Hlb.
  { unfold job_body. by rewrite !length_app. }
  unfold decode_job_record. set (b := job_layout r) in *. cbv zeta.
  rewrite Hver, Hmagic, Hhc, Hh, Hst, Hid, Hat, Hk, Hp, He.
  rewrite (proj2 (state_from_tag_inv _ (jb_state r)) eq_refl). unfold blen in *. unfold JOB_HEADER_LEN, JOB_TRAILER_LEN, MAX_JOB_RECORD_LEN.
  do 5 (rewrite pass by (done || lia)).
  cbn [ok_or]. rewrite bind_Ok.
  rewrite checked_add_Some by (unfold u64_max; lia). cbn [mbind option_bind].
  rewrite checked_add_Some by (unfold u64_max; lia). cbn [ok_or]. rewrite bind_Ok.
  rewrite checked_add_Some by (unfold u64_max; lia). cbn [mbind option_bind].
  rewrite checked_add_Some by (unfold u64_max; lia). cbn [ok_or]. rewrite !bind_Ok.
  rewrite pass by lia.
  replace (Z.to_nat (Z.of_nat (length b) - 4)) with (50 + length (job_body r))%nat by lia.
  replace (50 + length (job_body r) - 50)%nat with (length (job_body r)) by lia.
  rewrite pass by (by rewrite Hbc, Hb). rewrite !Nat2Z.id.
  rewrite Hlb, !slice_split in Hb. unfold job_body in Hb.
  apply app_inj_1 in Hb as [Hb1 Hb]; [|apply length_slice; lia].
  apply app_inj_1 in Hb as [Hb2 Hb3]; [|apply length_slice; lia].
  rewrite Hb1, Hb2, Hb3. fold (blen (error_bytes r)). rewrite error_field by done.
  destruct r as [[]]. cbn in *. by rewrite Hv.
Qed.
(** The decoder accepts exactly the canonical encodings. *)
Lemma decode_job_iff b r : decode_job_record b = Ok r ↔ job_wf r ∧ encode_job_record r = Ok b.
Proof.
  split; [apply decode_job_sound|]. intros [Hwf (Hv & Hs & ->)%encode_job_Ok]. by apply decode_job_complete.
Qed.
End JobsSpec.
