(* ===== verification/DirectorySpec.v ===== *)
(** * Directories of durable files

    A directory whose tracked files are replaced through scratch files: what a
    crash may find of the tracked files, what each file-system call keeps, and
    the effect of writing a scratch file and renaming it over a tracked one,
    whatever fails. *)

From Stdlib Require Import ZArith Lia Strings.Byte Strings.String.
From stdpp Require Import base tactics list gmap strings.
From S2P Require Import Prelude Core Format Codec CatalogCodec Catalog Chunk Disk DiskSpec Store Git Reader Snapshot SnapshotSpec PublicationSpec.
Import Core Codec CatalogCodec Catalog Chunk Disk DiskSpec Git Reader PublicationSpec.

#[local] Open Scope Z_scope.

Module DirectorySpec.

#[local] Set Warnings "-clear-no-such-hyp".

(** The current name space and those a crash may fall back to. *)
Definition spaces (d : Disk) : list Names := d_names d :: d_pending d.
(** What a name space shows at [p]. *)
Definition content (d : Disk) (m : Names) (p : Path) : option bytes := data d <$> m !! p.

Section Directory.
(** The tracked files of [dir] satisfy [valid]; any other file there is scratch. *)
Context (dir : bytes) (tracked scratch : Path → Prop) (valid : Path → bytes → Prop).
Context (tracked_dir : ∀ p, tracked p → p_dir p = dir) (scratch_apart : ∀ p, scratch p → ¬ tracked p).

Definition same_content (d : Disk) (m : Names) (d' : Disk) (m' : Names) : Prop :=
  ∀ p, tracked p → content d' m' p = content d m p.
(** A tracked file is synchronized and valid. *)
Definition entry_ok (d : Disk) (p : Path) (n : nat) : Prop :=
  (n < length (d_inodes d))%nat ∧
  (p_dir p = dir → (tracked p ∧ ∃ b, d_inodes d !! n = Some (mkInode b b) ∧ valid p b) ∨ scratch p).
Definition dir_ok (d : Disk) : Prop := Forall (λ m : Names, map_Forall (entry_ok d) m) (spaces d).

Lemma dir_ok_tracked d m p n : dir_ok d → m ∈ spaces d → m !! p = Some n → tracked p →
  ∃ b, d_inodes d !! n = Some (mkInode b b) ∧ valid p b ∧ content d m p = Some b.
Proof.
  unfold dir_ok. rewrite Forall_forall. intros Hq Hm Hn Ht. destruct (Hq m Hm p n Hn) as [_ Hj].
  destruct (Hj (tracked_dir p Ht)) as [(_ & b & Hb & Hv)|Hs]; [|by destruct (scratch_apart p Hs)].
  exists b. split_and!; [done|done|]. unfold content. rewrite Hn. cbn. by rewrite (data_lookup _ _ _ Hb).
Qed.
Lemma content_named d m p b : content d m p = Some b → ∃ n, m !! p = Some n ∧ data d n = b.
Proof. unfold content. intros (n & Hn & ->)%fmap_Some. eauto. Qed.

(** ** Calls that show nothing new *)

(** From [d] to [d'] the tracked files stay what they are, in the current name
    space and after a crash. *)
Record quiet (d d' : Disk) : Prop := {
  quiet_ok : dir_ok d';
  quiet_now : same_content d (d_names d) d' (d_names d');
  quiet_spaces : ∀ m', m' ∈ spaces d' → ∃ m, m ∈ spaces d ∧ same_content d m d' m' }.
Lemma quiet_refl d : dir_ok d → quiet d d.
Proof. intros Hq. split; [done|done|]. intros m Hm. by exists m. Qed.
Lemma quiet_trans d1 d2 d3 : quiet d1 d2 → quiet d2 d3 → quiet d1 d3.
Proof.
  intros [_ Hn1 Hs1] [Hq Hn2 Hs2]. split; [done|intros p Hp; rewrite Hn2 by done; by apply Hn1|].
  intros m3 (m2 & Hm2 & H2)%Hs2. destruct (Hs1 m2 Hm2) as (m1 & Hm1 & H1). exists m1. split; [done|].
  intros p Hp. rewrite H2 by done. by apply H1.
Qed.
Lemma quiet_same d d' : dir_ok d → same_files d d' → quiet d d'.
Proof.
  intros Hq [Hi Hn Hp].
  assert (∀ m p, content d' m p = content d m p) as Hv.
  { intros m p. unfold content, data. by rewrite Hi. }
  assert (spaces d' = spaces d) as Hsp by (unfold spaces; by rewrite Hn, Hp).
  split.
  - unfold dir_ok. rewrite Hsp. eapply Forall_impl; [exact Hq|]. intros m Hm p n Hpn. unfold entry_ok. rewrite Hi. by apply Hm.
  - intros p _. by rewrite Hv, Hn.
  - rewrite Hsp. intros m Hm. exists m. split; [done|]. intros p _. apply Hv.
Qed.
(** [n] is not a tracked file in any name space. *)
Definition private (d : Disk) (n : nat) : Prop :=
  Forall (λ m : Names, ∀ p, tracked p → m !! p ≠ Some n) (spaces d).
Lemma quiet_private d d' n :
  dir_ok d → private d n → d_names d' = d_names d → d_pending d' = d_pending d →
  length (d_inodes d') = length (d_inodes d) →
  (∀ k, k ≠ n → d_inodes d' !! k = d_inodes d !! k) → quiet d d' ∧ private d' n.
Proof.
  intros Hq Hp Hn Hpd Hlen Hk. assert (spaces d' = spaces d) as Hsp by (unfold spaces; by rewrite Hn, Hpd).
  unfold private, dir_ok in *. rewrite Hsp. split; [|done]. rewrite Forall_forall in Hq, Hp.
  assert (∀ m, m ∈ spaces d → same_content d m d' m) as Hv.
  { intros m Hm p Ht. unfold content. destruct (m !! p) as [k|] eqn:Hj; [|done]. cbn. unfold data.
    rewrite Hk; [done|]. intros ->. by apply (Hp m Hm p). }
  split.
  - unfold dir_ok. rewrite Hsp, Forall_forall. intros m Hm p k Hpk. destruct (Hq m Hm p k Hpk) as [Hl Hj].
    unfold entry_ok. rewrite Hlen. split; [done|]. intros Hd. destruct (Hj Hd) as [(Ht & b & Hb)|Hs]; [left|by right].
    split; [done|]. exists b. rewrite Hk; [done|]. intros ->. by apply (Hp m Hm p).
  - rewrite Hn. apply Hv. by left.
  - rewrite Hsp. intros m Hm. exists m. split; [done|]. by apply Hv.
Qed.
Lemma quiet_names d m : dir_ok d → map_Forall (entry_ok d) m → (∀ p, tracked p → m !! p = d_names d !! p) →
  quiet d (set_names m d).
Proof.
  intros Hq Hm Hj. assert (same_content d (d_names d) (set_names m d) m) as Hc.
  { intros p Ht. unfold content, data. cbn. by rewrite Hj. }
  split.
  - by apply Forall_cons.
  - done.
  - intros m' [->|Hm']%elem_of_cons; [exists (d_names d); split; [by left|done]|exists m'; split; [done|done]].
Qed.

Lemma create_quiet d t r d' :
  scratch t → dir_ok d → create_new t d = (r, d') →
  quiet d d' ∧ ∀ n, r = Ok n → private d' n ∧ d_inodes d' !! n = Some (mkInode [] []) ∧ d_names d' !! t = Some n.
Proof.
  unfold create_new. intros Hsc Hq Hc. io_cases Hc d1 Hs; [by split; [apply quiet_same|]|].
  pose proof (quiet_same _ _ Hq Hs) as Hquiet. pose proof (quiet_ok _ _ Hquiet) as Hq1.
  destruct (d_names d1 !! _) as [n|] eqn:Hn; injection Hc as <- <-; [by split|].
  set (n := length (d_inodes d1)) in *.
  set (d2 := mkDisk (d_inodes d1 ++ [mkInode [] []]) (d_names d1) (d_pending d1) (d_faults d1)).
  assert (Forall (λ m : Names, ∀ q k, m !! q = Some k → (k < n)%nat) (spaces d1)) as Hlt.
  { eapply Forall_impl; [exact Hq1|]. intros m Hm q k Hqk. by destruct (Hm q k Hqk). }
  assert (quiet d1 d2) as H12.
  { assert (∀ m, m ∈ spaces d1 → same_content d1 m d2 m) as Hv.
    { intros m Hm p _. unfold content. destruct (m !! p) as [k|] eqn:Hk; [|done]. cbn. unfold data, d2. cbn.
      rewrite lookup_app_l; [done|]. rewrite Forall_forall in Hlt. by eapply Hlt. }
    split; [|apply Hv; by left|intros m Hm; exists m; split; [done|by apply Hv]].
    eapply Forall_impl; [exact Hq1|]. intros m Hm q k Hqk. destruct (Hm q k Hqk) as [Hk Hj].
    split; [unfold d2; cbn; rewrite length_app; cbn; lia|]. intros Hr.
    destruct (Hj Hr) as [(Ht & b & Hb & Hv')|?]; [left|by right]. split; [done|]. exists b. split; [|done].
    by apply lookup_app_l_Some. }
  assert (∀ p, tracked p → p ≠ t) as Hne by (intros p Ht ->; by apply (scratch_apart t)).
  assert (quiet d2 (set_names (<[t:=n]> (d_names d2)) d2)) as H23.
  { apply quiet_names; [apply H12| |intros p Ht; apply lookup_insert_ne; by apply not_eq_sym, Hne].
    apply map_Forall_insert_2; [|by pose proof (quiet_ok _ _ H12) as [Hm _]%Forall_cons].
    split; [unfold d2; cbn; rewrite length_app; cbn; lia|by right]. }
  split; [by eapply quiet_trans, quiet_trans|].
  intros k [= <-]. cbn. rewrite lookup_insert_eq, lookup_app_r, Nat.sub_diag by (unfold n; lia). split_and!; [|done..].
  apply Forall_cons. cbn. split.
  - intros p Ht. rewrite lookup_insert_ne by (by apply not_eq_sym, Hne). intros Hqn.
    apply Forall_cons in Hlt as [Hlt _]. specialize (Hlt _ _ Hqn). lia.
  - eapply Forall_impl; [exact Hlt|]. intros m Hm p _ Hqn. specialize (Hm _ _ Hqn). lia.
Qed.
Lemma write_quiet d n off b r d' :
  dir_ok d → private d n → write_at n off b d = (r, d') → quiet d d' ∧ private d' n.
Proof.
  intros Hq Hp. unfold write_at. pose proof (pop_same d) as Hs. destruct (pop_fault d) as [f d1]. cbn in Hs.
  pose proof (same_inodes _ _ Hs) as Hi.
  assert (∀ g, quiet d (update_inode n g d1) ∧ private (update_inode n g d1) n) as Hupd.
  { intros g. apply quiet_private; [done|done|apply Hs|apply Hs| |].
    - cbn. by rewrite length_alter, Hi.
    - intros k Hk. cbn. by rewrite list_lookup_alter_ne, Hi. }
  intros Hw. case_decide; [injection Hw as <- <-|destruct f; injection Hw as <- <-; apply Hupd].
  apply quiet_private; try done; try apply Hs; by rewrite Hi.
Qed.
Lemma sync_quiet d n r d' : dir_ok d → private d n → sync_file n d = (r, d') → quiet d d' ∧ private d' n.
Proof.
  unfold sync_file. intros Hq Hp Hs. io_cases Hs d1 H1; pose proof (same_inodes _ _ H1) as Hi.
  - apply quiet_private; try done; try apply H1; by rewrite Hi.
  - injection Hs as <- <-. apply quiet_private; [done|done|apply H1|apply H1| |].
    + cbn. by rewrite length_alter, Hi.
    + intros k Hk. cbn. by rewrite list_lookup_alter_ne, Hi.
Qed.
Lemma remove_quiet d p r d' : dir_ok d → ¬ tracked p → remove_file p d = (r, d') → quiet d d'.
Proof.
  unfold remove_file. intros Hq Hp Hr. io_cases Hr d1 Hs; [by apply quiet_same|]. pose proof (quiet_same _ _ Hq Hs) as Hquiet.
  destruct (d_names d1 !! p); injection Hr as <- <-; [|done]. eapply quiet_trans; [exact Hquiet|].
  pose proof (quiet_ok _ _ Hquiet) as Hq1. pose proof Hq1 as [Hm _]%Forall_cons. apply quiet_names; [done| |].
  - by apply map_Forall_delete.
  - intros q Hq'. apply lookup_delete_ne. by intros ->.
Qed.
(** After a directory sync every crash finds the current files. *)
Lemma sync_directory_quiet d r d' : dir_ok d → sync_all_directory dir d = (r, d') →
  quiet d d' ∧ (is_ok r = true → ∀ m, m ∈ spaces d' → same_content d (d_names d) d' m).
Proof.
  intros Hq. unfold sync_all_directory, st_bind. intros Hc. destruct (io _ d) as [r1 d1] eqn:H1.
  assert (same_files d d1) as Hs1 by (io_cases H1 d2 Hs2; [done|]; by injection H1 as _ <-).
  destruct r1 as [u|e]; [|injection Hc as <- <-; split; [by apply quiet_same|done]].
  io_cases Hc d2 Hs2; pose proof (same_files_trans _ _ _ Hs1 Hs2) as Hs; [split; [by apply quiet_same|done]|].
  injection Hc as <- <-. pose proof (quiet_same _ _ Hq Hs) as Hquiet. pose proof (quiet_ok _ _ Hquiet) as Hq2.
  set (d3 := mkDisk _ _ _ _). assert (∀ m, m ∈ spaces d3 → same_content d2 (d_names d2) d3 m) as Hall.
  { intros m [->|Hm]%elem_of_cons; [done|]. apply list_elem_of_fmap in Hm as (m0 & -> & _). intros p Ht.
    unfold content, data. cbn. pose proof (tracked_dir p Ht) as Hd.
    assert (persist dir (d_names d2) m0 !! p = d_names d2 !! p) as ->; [|done].
    unfold persist. destruct (d_names d2 !! p) as [n|] eqn:Hn.
    - apply lookup_union_Some_l. by apply map_lookup_filter_Some.
    - apply lookup_union_None. split; apply map_lookup_filter_None; [by left|]. right. intros n _ Hn'. by apply Hn'. }
  split.
  - eapply quiet_trans; [exact Hquiet|]. split.
    + apply Forall_cons. pose proof Hq2 as [Hm Hpend]%Forall_cons. split; [exact Hm|]. apply Forall_map.
      eapply Forall_impl; [exact Hpend|]. intros m0 Hm0 p n Hpn. apply lookup_union_Some_raw in Hpn as [Hpn|[_ Hpn]];
        apply map_lookup_filter_Some in Hpn as [Hpn _]; [by apply Hm|by apply Hm0].
    + apply Hall. by left.
    + intros m Hm. exists (d_names d2). split; [by left|]. by apply Hall.
  - intros _ m Hm p Ht. rewrite (Hall m Hm p Ht). by apply (quiet_now _ _ Hquiet).
Qed.

(** ** Replacing a file *)

(** [m] shows the current files of [d] with [b] at [q]. *)
Definition updated (d : Disk) (q : Path) (b : bytes) (d' : Disk) (m : Names) : Prop :=
  ∀ p, tracked p → content d' m p = if decide (p = q) then Some b else content d (d_names d) p.

Lemma rename_updates d t q n b res d' :
  dir_ok d → scratch t → tracked q → valid q b →
  d_names d !! t = Some n → d_inodes d !! n = Some (mkInode b b) →
  rename t q d = (res, d') →
  match res with
  | Err _ => same_files d d'
  | Ok _ => dir_ok d' ∧ updated d q b d' (d_names d') ∧
      ∀ m, m ∈ spaces d' → m = d_names d' ∨ (m ∈ spaces d ∧ same_content d m d' m)
  end.
Proof.
  unfold rename. intros Hq Hsc Hqt Hvb Hn Hi Hc. io_cases Hc d1 Hs; [done|].
  pose proof (quiet_ok _ _ (quiet_same _ _ Hq Hs)) as Hq1.
  rewrite (same_names _ _ Hs), Hn in Hc. injection Hc as <- <-. rewrite <-(same_inodes _ _ Hs) in Hi.
  split_and!.
  - apply Forall_cons. split; [|exact Hq1]. cbn. apply map_Forall_insert_2.
    + split; [cbn; by eapply lookup_lt_Some|]. intros _. left. split; [done|]. by exists b.
    + apply map_Forall_delete. pose proof Hq1 as [Hm _]%Forall_cons. by rewrite (same_names _ _ Hs) in Hm.
  - intros p Ht. unfold content. cbn. case_decide as Hid.
    + subst p. rewrite lookup_insert_eq. cbn. unfold data. cbn. by rewrite Hi.
    + rewrite lookup_insert_ne by done. rewrite lookup_delete_ne by (intros ->; by apply (scratch_apart p)).
      unfold data. cbn. by rewrite (same_inodes _ _ Hs).
  - unfold spaces. cbn. rewrite (same_names _ _ Hs), (same_pending _ _ Hs). intros m [->|Hm]%elem_of_cons; [by left|right].
    split; [done|]. intros p _. unfold content, data. cbn. by rewrite (same_inodes _ _ Hs).
Qed.

(** What a replacement may have done: nothing yet, or the whole of it. *)
Record wrote (d : Disk) (q : Path) (b : bytes) (ok : bool) (d' : Disk) : Prop := {
  wrote_ok : dir_ok d';
  wrote_now : same_content d (d_names d) d' (d_names d') ∨ updated d q b d' (d_names d');
  wrote_spaces : ∀ m', m' ∈ spaces d' → (∃ m, m ∈ spaces d ∧ same_content d m d' m') ∨ updated d q b d' m';
  wrote_durable : ok = true → ∀ m', m' ∈ spaces d' → updated d q b d' m' }.
Lemma quiet_wrote d q b d' : quiet d d' → wrote d q b false d'.
Proof. intros [Hq Hn Hs]. split; [done|by left| |done]. intros m Hm. left. by apply Hs. Qed.
Lemma quiet_then_wrote d d1 q b ok d2 : quiet d d1 → wrote d1 q b ok d2 → wrote d q b ok d2.
Proof.
  intros [_ Hn Hs] [Hq Hn2 Hs2 Hd]. assert (∀ m, updated d1 q b d2 m → updated d q b d2 m) as Hu.
  { intros m Hu p Ht. rewrite Hu by done. case_decide; [done|]. by apply Hn. }
  assert (∀ m0 m1 m2, same_content d m0 d1 m1 → same_content d1 m1 d2 m2 → same_content d m0 d2 m2) as Htr.
  { intros m0 m1 m2 H1 H2 p Ht. rewrite H2 by done. by apply H1. }
  split; [done| | |by auto].
  - destruct Hn2 as [Hn2|Hn2]; [left; by eapply Htr|right; by apply Hu].
  - intros m Hm. destruct (Hs2 m Hm) as [(m1 & Hm1 & Hv)|]; [left|right; by apply Hu].
    destruct (Hs m1 Hm1) as (m0 & Hm0 & Hv0). exists m0. split; [done|]. by eapply Htr.
Qed.
Lemma wrote_then_quiet d q b ok d1 d2 : wrote d q b ok d1 → quiet d1 d2 → wrote d q b ok d2.
Proof.
  intros [_ Hn Hs Hd] [Hq Hn2 Hs2].
  assert (∀ m1 m2, same_content d1 m1 d2 m2 → updated d q b d1 m1 → updated d q b d2 m2) as Hu.
  { intros m1 m2 Hv Hu p Ht. rewrite Hv by done. by apply Hu. }
  assert (∀ m0 m1 m2, same_content d m0 d1 m1 → same_content d1 m1 d2 m2 → same_content d m0 d2 m2) as Htr.
  { intros m0 m1 m2 H1 H2 p Ht. rewrite H2 by done. by apply H1. }
  split; [done| | |].
  - destruct Hn as [Hn|Hn]; [left; by eapply Htr|right; by eapply Hu].
  - intros m Hm. destruct (Hs2 m Hm) as (m1 & Hm1 & Hv). destruct (Hs m1 Hm1) as [(m0 & Hm0 & Hv0)|Hup].
    + left. exists m0. split; [done|]. by eapply Htr.
    + right. by eapply Hu.
  - intros Hok m Hm. destruct (Hs2 m Hm) as (m1 & Hm1 & Hv). eapply Hu; [exact Hv|]. by apply Hd.
Qed.

(** The body of every replacement: write, sync, rename, sync the directory. *)
Lemma replace_body_wrote d t q b n d0 res :
  dir_ok d → scratch t → tracked q → valid q b →
  private d n → d_inodes d !! n = Some (mkInode [] []) → d_names d !! t = Some n →
  (_ ⇐ write_at n 0 b; _ ⇐ sync_file n; _ ⇐ rename t q; sync_all_directory dir) d = (res, d0) →
  wrote d q b (is_ok res) d0.
Proof.
  intros Hq Hsc Hqt Hvb Hp Hi Hn. unfold st_bind.
  destruct (write_at n 0 b d) as [[[]|e] d1] eqn:H1; destruct (write_quiet _ _ _ _ _ _ Hq Hp H1) as [Q1 P1].
  2: { intros [= <- <-]. by apply quiet_wrote. }
  destruct (sync_file n d1) as [[[]|e] d2] eqn:H2; destruct (sync_quiet _ _ _ _ (quiet_ok _ _ Q1) P1 H2) as [Q2 P2];
    pose proof (quiet_trans _ _ _ Q1 Q2) as Q12.
  2: { intros [= <- <-]. by apply quiet_wrote. }
  apply write_new_ok in H1 as [Hi1 Hn1]; [|done]. apply (sync_ok _ b) in H2 as [Hi2 Hn2]; [|done]. rewrite <-Hn1, <-Hn2 in Hn.
  destruct (rename _ _ d2) as [[[]|e] d3] eqn:H3;
    pose proof (rename_updates d2 t q n b _ d3 (quiet_ok _ _ Q12) Hsc Hqt Hvb Hn Hi2 H3) as Hren.
  2: { intros [= <- <-]. apply quiet_wrote. eapply quiet_trans; [exact Q12|]. apply quiet_same; [apply Q12|done]. }
  destruct Hren as (Hq3 & Hu & Hsp). intros H4. destruct (sync_directory_quiet _ _ _ Hq3 H4) as [Q4 Hall].
  eapply quiet_then_wrote; [exact Q12|].
  assert (wrote d2 q b false d3) as W3.
  { split; [done|by right| |done]. intros m [->|[Hm Hv]]%Hsp; [by right|left; by exists m]. }
  destruct (wrote_then_quiet _ _ _ _ _ _ W3 Q4) as [? ? ? _]. split; try done.
  intros Hok m Hm p Ht. rewrite (Hall Hok m Hm p Ht). by apply Hu.
Qed.
(** One attempt: create the scratch file, the body, and cleaning up. *)
Lemma replace_attempt_wrote d t q b n d1 res d2 :
  dir_ok d → scratch t → tracked q → valid q b → create_new t d = (Ok n, d1) →
  (_ ⇐ write_at n 0 b; _ ⇐ sync_file n; _ ⇐ rename t q; sync_all_directory dir) d1 = (res, d2) →
  wrote d q b (is_ok res) (if is_ok res then d2 else (remove_file t d2).2).
Proof.
  intros Hq Hsc Hqt Hvb Hc Hbody. destruct (create_quiet _ _ _ _ Hsc Hq Hc) as [Q1 Hnew].
  destruct (Hnew n eq_refl) as (Hp & Hi & Hn). eapply quiet_then_wrote; [exact Q1|].
  pose proof (replace_body_wrote _ _ _ _ _ _ _ (quiet_ok _ _ Q1) Hsc Hqt Hvb Hp Hi Hn Hbody) as Hw.
  destruct res as [[]|e]; cbn [is_ok] in *; [done|]. eapply wrote_then_quiet; [exact Hw|].
  destruct (remove_file t d2) as [rr d3] eqn:Hrm. eapply remove_quiet; [apply Hw|by apply scratch_apart|exact Hrm].
Qed.

(** ** Crashes *)

Lemma crash_content d d' : dir_ok d → crash d d' →
  dir_ok d' ∧ spaces d' = [d_names d'] ∧ ∃ m, m ∈ spaces d ∧ same_content d m d' (d_names d').
Proof.
  intros Hq Hc. destruct Hc as [d names inodes faults Hn Hsurv].
  assert (∀ k b, d_inodes d !! k = Some (mkInode b b) → inodes !! k = Some (mkInode b b)) as Hk.
  { intros k b Hi. destruct (Forall2_lookup_l _ _ _ _ _ Hsurv Hi) as ([x y] & Hi' & Hsync & _ & _ & Hsame).
    cbn in *. by rewrite Hi', Hsync, Hsame. }
  pose proof Hq as Hq'. unfold dir_ok in Hq'. rewrite Forall_forall in Hq'. split_and!.
  - apply Forall_singleton. intros p n Hpn. destruct (Hq' _ Hn p n Hpn) as [Hlt Hj].
    split; [cbn; by rewrite <-(Forall2_length _ _ _ Hsurv)|]. intros Hd.
    destruct (Hj Hd) as [(Ht & b & Hi & Hv)|Hs]; [left|by right]. split; [done|]. exists b. split; [by apply Hk|done].
  - done.
  - exists names. split; [done|]. intros p Ht. cbn [d_names]. unfold content.
    destruct (names !! p) as [n|] eqn:Hj; cbn; [|done].
    destruct (dir_ok_tracked _ _ _ _ Hq Hn Hj Ht) as (b & Hi & _ & _).
    rewrite (data_lookup _ _ _ Hi). unfold data. cbn. by rewrite (Hk _ _ Hi).
Qed.
End Directory.

(** A crash that loses nothing. *)
Lemma crash_synced d faults :
  forallb (λ i, bool_decide (i_synced i = i_data i) && (blen (i_data i) <=? 1000)) (d_inodes d) = true →
  crash d (mkDisk (d_inodes d) (d_names d) [] faults).
Proof.
  intros Hall. constructor; [by left|]. induction (d_inodes d) as [|i l IH]; [constructor|]. cbn [forallb] in Hall.
  apply andb_true_iff in Hall as [[Hs%bool_decide_eq_true Hl%Z.leb_le]%andb_true_iff Hall]. constructor; [|by apply IH].
  split_and!; try done. unfold blen, MAX_FILE_BYTES, Format.len in *. lia.
Qed.
End DirectorySpec.
