(* ===== verification/JobsQueueSpec.v ===== *)
(** * What the job queue guarantees

    The queue's directory as a map from identifiers to records, in the current
    name space and in every one a crash may find; what each operation does to
    it, whatever fails. Module [JobsListSpec] says what listing the queue
    returns. *)

From Stdlib Require Import ZArith Lia Strings.Byte Strings.String.
From stdpp Require Import base tactics list gmap strings relations sorting.
From S2P Require Import Prelude Order Crc Core Format Codec CatalogCodec Catalog Chunk Disk DiskSpec Store Git Reader PublicationSpec Cache CacheSpec Checkout Workspace WorkspaceStore Jobs JobsSpec DirectorySpec.
Import Crc Core Codec CatalogCodec Catalog Chunk Disk DiskSpec Git Reader PublicationSpec DirectorySpec Jobs JobsSpec.

#[local] Open Scope Z_scope.

Module JobsQueueSpec.

#[local] Set Warnings "-clear-no-such-hyp".

(** ** Records and their transitions *)

Definition jid_wf (id : JobId) : Prop := length (job_bytes id) = 16%nat.
(** A record the queue may hold: valid, of encodable size, with room for a
    diagnostic. *)
Definition queueable (r : JobRecord) : Prop :=
  job_wf r ∧ validate r = Ok () ∧ job_size r ≤ MAX_JOB_RECORD_LEN ∧ execution_failure_capacity r ≠ 0.

(** The durable state machine. *)
Inductive transition : JobRecord → JobRecord → Prop :=
| t_start r : jb_state r = Queued →
    transition r (set_state r Running (jb_attempts r + 1) (jb_last_error r))
| t_succeed r : jb_state r = Running → transition r (set_state r Succeeded (jb_attempts r) None)
| t_fail r e : jb_state r = Running → transition r (set_state r Failed (jb_attempts r) (Some e))
| t_retry r : jb_state r = Failed → transition r (set_state r Queued (jb_attempts r) (jb_last_error r))
| t_requeue r : jb_state r = Running → transition r (set_state r Queued (jb_attempts r) (jb_last_error r)).

Lemma transition_keeps r r' : transition r r' →
  jb_id r' = jb_id r ∧ jb_kind r' = jb_kind r ∧ jb_payload r' = jb_payload r ∧ jb_attempts r ≤ jb_attempts r'.
Proof. destruct 1; cbn; split_and!; done || lia. Qed.
Lemma transitions_keep r r' : rtc transition r r' →
  jb_id r' = jb_id r ∧ jb_kind r' = jb_kind r ∧ jb_payload r' = jb_payload r ∧ jb_attempts r ≤ jb_attempts r'.
Proof.
  induction 1 as [|r r1 r2 Ht _ IH]; [done|]. apply transition_keeps in Ht. destruct_and!. split_and!; congruence || lia.
Qed.
Lemma succeeded_final r r' : jb_state r = Succeeded → rtc transition r r' → r' = r.
Proof. intros Hs Hr. destruct Hr as [|r r1 r2 Ht _]; [done|]. destruct Ht; congruence. Qed.

(** What may have become of the job [id]. *)
Definition advances (id : JobId) (o o' : option JobRecord) : Prop :=
  match o, o' with
  | None, None => True
  | None, Some r' => ∃ kind payload, rtc transition (queued id kind payload) r'
  | Some r, Some r' => rtc transition r r'
  | Some _, None => False
  end.
#[export] Instance advances_preorder id : PreOrder (advances id).
Proof.
  split.
  - intros [r|]; cbn; done.
  - intros [r1|] [r2|] [r3|]; cbn; try done.
    + by intros; etrans.
    + intros (k & p & Hr) Hr'. exists k, p. by etrans.
Qed.

(** ** The directory *)

Section Queue.
Context (dir : bytes).
Abbreviation job_path := (job_path dir).
Abbreviation temporary_path := (temporary_path dir).

(** A file named by a job is complete and valid; everything else in the
    directory is a temporary file. *)
Definition job_file (p : Path) : Prop := ∃ id, p = job_path id.
Definition temporary_file (p : Path) : Prop := ∃ id nonce, p = temporary_path id nonce.
Definition job_content (p : Path) (b : bytes) : Prop :=
  ∃ r, p = job_path (jb_id r) ∧ encode_job_record r = Ok b ∧ queueable r.
Lemma job_file_dir p : job_file p → p_dir p = dir.
Proof. by intros [id ->]. Qed.
Lemma temporary_not_job p : temporary_file p → ¬ job_file p.
Proof. by intros (id & nonce & ->) [id' [=]]. Qed.

Definition queue_ok : Disk → Prop := dir_ok dir job_file temporary_file job_content.
(** The queue one name space shows. *)
Definition view (d : Disk) (m : Names) (id : JobId) : option JobRecord :=
  b ← content d m (job_path id); ok (decode_job_record b).
Abbreviation now d := (view d (d_names d)).
Definition same_view (d : Disk) (m : Names) (d' : Disk) (m' : Names) : Prop := ∀ id, view d' m' id = view d m id.
Lemma content_view d m d' m' : same_content job_file d m d' m' → same_view d m d' m'.
Proof. intros Hs id. unfold view. rewrite Hs; [done|by exists id]. Qed.

Lemma job_path_inj a b : job_path a = job_path b → a = b.
Proof.
  intros Hp. pose proof (f_equal p_stem Hp : Cache.hex (job_bytes a) = Cache.hex (job_bytes b)) as Hh.
  destruct a as [a], b as [b]. cbn [job_bytes] in Hh. f_equal.
  pose proof (CacheSpec.hex_pairs_hex a) as Ha. rewrite Hh, CacheSpec.hex_pairs_hex in Ha. congruence.
Qed.
Lemma queueable_decode r b : encode_job_record r = Ok b → queueable r → decode_job_record b = Ok r.
Proof. intros He (Hwf & _). by apply decode_job_iff. Qed.

Lemma queue_ok_name d m p n : queue_ok d → m ∈ spaces d → m !! p = Some n → p_dir p = dir →
  job_file p ∨ temporary_file p.
Proof.
  unfold queue_ok, dir_ok. rewrite Forall_forall. intros Hq Hm Hn Hd. destruct (Hq m Hm p n Hn) as [_ Hj].
  destruct (Hj Hd) as [[? _]|?]; [by left|by right].
Qed.
Lemma queue_ok_job d m id n : queue_ok d → m ∈ spaces d → m !! job_path id = Some n →
  ∃ r b, d_inodes d !! n = Some (mkInode b b) ∧ encode_job_record r = Ok b ∧ queueable r ∧ jb_id r = id ∧
    view d m id = Some r.
Proof.
  intros Hq Hm Hn.
  destruct (dir_ok_tracked _ _ _ _ job_file_dir temporary_not_job d m _ n Hq Hm Hn (ex_intro _ id eq_refl))
    as (b & Hi & (r & Hp%job_path_inj & He & Hr) & Hc).
  exists r, b. split_and!; try done. unfold view. rewrite Hc. cbn. by rewrite (queueable_decode _ _ He Hr).
Qed.
(** What a space shows is a valid record of that identifier. *)
Lemma view_inv d m id r : queue_ok d → m ∈ spaces d → view d m id = Some r →
  ∃ n b, m !! job_path id = Some n ∧ d_inodes d !! n = Some (mkInode b b) ∧ encode_job_record r = Ok b ∧
    queueable r ∧ jb_id r = id.
Proof.
  intros Hq Hm Hv. pose proof Hv as (b & (n & Hn & _)%content_named & _)%bind_Some.
  destruct (queue_ok_job d m id n Hq Hm Hn) as (r' & b' & Hi & He & Hr & Hid & Hv'). assert (r' = r) as -> by congruence.
  by exists n, b'.
Qed.
Lemma view_named d m id : queue_ok d → m ∈ spaces d → is_Some (m !! job_path id) → is_Some (view d m id).
Proof. intros Hq Hm [n Hn]. destruct (queue_ok_job d m id n Hq Hm Hn) as (r & _ & _ & _ & _ & _ & Hv). by exists r. Qed.

(** ** Calls that show nothing new *)

(** From [d] to [d'] the queue stays what it is, in the current name space and
    after a crash. *)
Record quiet (d d' : Disk) : Prop := {
  quiet_ok : queue_ok d';
  quiet_now : same_view d (d_names d) d' (d_names d');
  quiet_spaces : ∀ m', m' ∈ spaces d' → ∃ m, m ∈ spaces d ∧ same_view d m d' m' }.
Lemma quiet_files d d' : DirectorySpec.quiet dir job_file temporary_file job_content d d' → quiet d d'.
Proof.
  intros [Hq Hn Hs]. split; [done|by apply content_view|]. intros m' (m & Hm & Hv)%Hs. exists m.
  split; [done|by apply content_view].
Qed.
Lemma queue_quiet_refl d : queue_ok d → quiet d d.
Proof. intros. by apply quiet_files, DirectorySpec.quiet_refl. Qed.
Lemma queue_quiet_trans d1 d2 d3 : quiet d1 d2 → quiet d2 d3 → quiet d1 d3.
Proof.
  intros [_ Hn1 Hs1] [Hq Hn2 Hs2]. split; [done|intros id; by rewrite Hn2|].
  intros m3 (m2 & Hm2 & H2)%Hs2. destruct (Hs1 m2 Hm2) as (m1 & Hm1 & H1). exists m1. split; [done|].
  intros id. by rewrite H2.
Qed.
Lemma queue_quiet_same d d' : queue_ok d → same_files d d' → quiet d d'.
Proof. intros. by apply quiet_files, DirectorySpec.quiet_same. Qed.
Lemma queue_remove_quiet d p r d' : queue_ok d → ¬ job_file p → remove_file p d = (r, d') → quiet d d'.
Proof. intros Hq Hp Hr. apply quiet_files. by apply (DirectorySpec.remove_quiet _ _ _ _ _ _ _ _ Hq Hp Hr). Qed.
(** After a directory sync every crash finds the current queue. *)
Lemma queue_sync_directory_quiet d r d' : queue_ok d → sync_all_directory dir d = (r, d') →
  quiet d d' ∧ (is_ok r = true → ∀ m, m ∈ spaces d' → same_view d (d_names d) d' m).
Proof.
  intros Hq Hs. destruct (DirectorySpec.sync_directory_quiet _ _ _ _ job_file_dir d r d' Hq Hs) as [Q Hall].
  split; [by apply quiet_files|]. intros Hok m Hm. by apply content_view, Hall.
Qed.

(** ** Replacing a record *)

(** [m] shows the current queue of [d] with [r] in it. *)
Definition updated (d : Disk) (r : JobRecord) (d' : Disk) (m : Names) : Prop :=
  ∀ id, view d' m id = if decide (id = jb_id r) then Some r else now d id.
(** What a write may have done: nothing yet, or the whole of it. *)
Record wrote (d : Disk) (r : JobRecord) (ok : bool) (d' : Disk) : Prop := {
  wrote_ok : queue_ok d';
  wrote_now : same_view d (d_names d) d' (d_names d') ∨ updated d r d' (d_names d');
  wrote_spaces : ∀ m', m' ∈ spaces d' → (∃ m, m ∈ spaces d ∧ same_view d m d' m') ∨ updated d r d' m';
  wrote_durable : ok = true → ∀ m', m' ∈ spaces d' → updated d r d' m' }.
Lemma queue_quiet_wrote d r d' : quiet d d' → wrote d r false d'.
Proof. intros [Hq Hn Hs]. split; [done|by left| |done]. intros m Hm. left. by apply Hs. Qed.
Lemma wrote_files d r b ok d' : encode_job_record r = Ok b → queueable r →
  DirectorySpec.wrote dir job_file temporary_file job_content d (job_path (jb_id r)) b ok d' → wrote d r ok d'.
Proof.
  intros He Hr [Hq Hn Hs Hd].
  assert (∀ m, DirectorySpec.updated job_file d (job_path (jb_id r)) b d' m → updated d r d' m) as Hu.
  { intros m Hu id. unfold view. rewrite Hu by (by exists id). case_decide as Hid.
    - apply job_path_inj in Hid as ->. rewrite decide_True by done. cbn. by rewrite (queueable_decode _ _ He Hr).
    - rewrite decide_False by congruence. done. }
  split; [done| | |by eauto].
  - destruct Hn as [Hn|Hn]; [left; by apply content_view|right; by apply Hu].
  - intros m Hm. destruct (Hs m Hm) as [(m0 & Hm0 & Hv)|]; [left; exists m0; split; [done|by apply content_view]|right; by apply Hu].
Qed.
Lemma replace_wrote r b nonces d res d' :
  queue_ok d → queueable r → encode_job_record r = Ok b →
  replace_record dir (jb_id r) b nonces d = (res, d') → wrote d r (is_ok res) d'.
Proof.
  intros Hq Hr He Hrep. eapply wrote_files; [done|done|]. revert d Hq Hrep.
  induction nonces as [|nonce nonces IH]; intros d Hq Hrep; cbn [replace_record] in Hrep.
  { injection Hrep as <- <-. by apply DirectorySpec.quiet_wrote, DirectorySpec.quiet_refl. }
  assert (temporary_file (temporary_path (jb_id r) nonce)) as Ht by (by exists (jb_id r), nonce).
  destruct (create_new _ d) as [rc d1] eqn:Hc. 
  destruct (DirectorySpec.create_quiet _ _ _ _ temporary_not_job _ _ _ _ Ht Hq Hc) as [Q1 _].
  destruct rc as [n|e].
  2: { destruct e; try (injection Hrep as <- <-; by apply DirectorySpec.quiet_wrote).
       eapply DirectorySpec.quiet_then_wrote; [exact Q1|]. apply (IH _ (DirectorySpec.quiet_ok _ _ _ _ _ _ Q1) Hrep). }
  destruct (st_bind _ _ d1) as [res1 d2] eqn:Hbody.
  assert (DirectorySpec.wrote dir job_file temporary_file job_content d (job_path (jb_id r)) b (is_ok res1)
    (if is_ok res1 then d2 else (remove_file (temporary_path (jb_id r) nonce) d2).2)) as Hw.
  { apply (replace_attempt_wrote _ _ _ _ job_file_dir temporary_not_job _ _ _ _ n d1); try done; [by exists (jb_id r)|by exists r]. }
  destruct res1 as [[]|e]; by injection Hrep as <- <-.
Qed.
Lemma crash_view d d' : queue_ok d → crash d d' →
  queue_ok d' ∧ spaces d' = [d_names d'] ∧ ∃ m, m ∈ spaces d ∧ same_view d m d' (d_names d').
Proof.
  intros Hq Hc.
  destruct (crash_content _ _ _ _ job_file_dir temporary_not_job d d' Hq Hc) as (Hq' & Hsp & m & Hm & Hv). split_and!; [done|done|].
  exists m. split; [done|by apply content_view].
Qed.
End Queue.
End JobsQueueSpec.

(** * Reading the job queue

    File names and identifiers, reading one record and listing the queue. *)

Import Crc Core Codec CatalogCodec Catalog Chunk Disk DiskSpec Git Reader PublicationSpec DirectorySpec Jobs JobsSpec JobsQueueSpec.

Module JobsListSpec.

#[local] Set Warnings "-clear-no-such-hyp".

(** ** Names *)

Lemma hex_digits_lower x :
  hex_nibble (CacheSpec.hex_high x) = Some (Z.shiftr (byte_to_Z x) 4) ∧
  hex_nibble (CacheSpec.hex_low x) = Some (Z.land (byte_to_Z x) 15) ∧
  byte_of_Z (Z.lor (Z.shiftl (Z.shiftr (byte_to_Z x) 4) 4) (Z.land (byte_to_Z x) 15)) = x.
Proof. by destruct x. Qed.
Lemma hex_bytes_hex b : hex_bytes (Cache.hex b) = Some b.
Proof.
  induction b as [|x b IH]; [done|]. destruct (hex_digits_lower x) as (Hh & Hl & Hx).
  rewrite CacheSpec.hex_cons. cbn [hex_bytes]. rewrite Hh. cbn [mbind option_bind]. rewrite Hl. cbn [mbind option_bind].
  rewrite IH. cbn [mbind option_bind]. by rewrite Hx.
Qed.
Lemma ends_with_app (a s : bytes) : WorkspaceStore.ends_with (a ++ s) s = true.
Proof.
  unfold WorkspaceStore.ends_with. rewrite length_app, bool_decide_eq_true_2 by lia.
  replace (length a + length s - length s)%nat with (length a) by lia. by rewrite drop_app_length, bool_decide_eq_true_2.
Qed.
Lemma ends_with_other (a s t : bytes) : length s = length t → s ≠ t → WorkspaceStore.ends_with (a ++ s) t = false.
Proof.
  intros Hl Hne. unfold WorkspaceStore.ends_with. rewrite length_app, Hl.
  replace (length a + length t - length t)%nat with (length a) by lia.
  rewrite drop_app_length, (bool_decide_eq_false_2 (s = t)) by done. apply andb_false_r.
Qed.

(** Names of bytes below 128 are text. *)
Definition ascii (b : bytes) : bool := forallb (WorkspaceStore.in_range 0 127) b.
Lemma ascii_utf8 b : ascii b = true → WorkspaceStore.is_utf8 b = true.
Proof.
  induction b as [|x b IH]; [done|]. cbn [ascii forallb WorkspaceStore.is_utf8]. intros [Hx Hb]%andb_true_iff.
  rewrite Hx. by apply IH.
Qed.
Lemma ascii_app a b : ascii (a ++ b) = ascii a && ascii b.
Proof. apply forallb_app. Qed.
Lemma ascii_hex b : ascii (Cache.hex b) = true.
Proof. induction b as [|x b IH]; [done|]. rewrite CacheSpec.hex_cons. unfold ascii in *. cbn [forallb]. rewrite IH. by destruct x. Qed.
Lemma ascii_nonce k n : ascii (Store.hex k n) = true.
Proof.
  revert n. induction k as [|k IH]; intros n; [done|]. cbn [Store.hex]. rewrite ascii_app, IH. cbn.
  rewrite andb_true_r. unfold WorkspaceStore.in_range. apply bool_decide_eq_true.
  pose proof (Z.mod_pos_bound n 16 ltac:(lia)) as Hb. unfold Store.hex_digit.
  case_decide; rewrite byte_to_of_Z, Z.mod_small by lia; lia.
Qed.

Section Names.
Context (dir : bytes).

Lemma job_file_name id : WorkspaceStore.file_name (job_path dir id) = Cache.hex (job_bytes id) ++ b_ ".job".
Proof. done. Qed.
Lemma job_name_utf8 id : WorkspaceStore.is_utf8 (WorkspaceStore.file_name (job_path dir id)) = true.
Proof. apply ascii_utf8. by rewrite job_file_name, ascii_app, ascii_hex. Qed.
Lemma job_name_parses id : jid_wf id → parse_job_filename (WorkspaceStore.file_name (job_path dir id)) = Some id.
Proof.
  intros Hwf. rewrite job_file_name. unfold parse_job_filename, strip_suffix. rewrite ends_with_app. cbn [mbind option_bind].
  rewrite length_app. replace (_ + length (b_ ".job") - length (b_ ".job"))%nat with (length (Cache.hex (job_bytes id))) by lia.
  rewrite take_app_length. unfold parse_hex. rewrite CacheSpec.length_hex_name, Hwf, decide_True by done.
  rewrite hex_bytes_hex. by destruct id.
Qed.
Lemma job_name_not_temporary id : is_temporary_name (WorkspaceStore.file_name (job_path dir id)) = false.
Proof. rewrite job_file_name. unfold is_temporary_name. rewrite ends_with_other by done. apply andb_false_r. Qed.
Lemma temporary_file_name id nonce : WorkspaceStore.file_name (temporary_path dir id nonce) =
  JOB_TEMP_PREFIX ++ Cache.hex (job_bytes id) ++ b_ "-" ++ Store.hex 16 nonce ++ JOB_TEMP_SUFFIX.
Proof. unfold WorkspaceStore.file_name, temporary_path. cbn [p_stem p_ext]. by rewrite <-!app_assoc. Qed.
Lemma temporary_name_utf8 id nonce :
  WorkspaceStore.is_utf8 (WorkspaceStore.file_name (temporary_path dir id nonce)) = true.
Proof.
  apply ascii_utf8. rewrite temporary_file_name, !ascii_app, ascii_hex, ascii_nonce. done.
Qed.
Lemma temporary_name_temporary id nonce :
  is_temporary_name (WorkspaceStore.file_name (temporary_path dir id nonce)) = true.
Proof.
  rewrite temporary_file_name. unfold is_temporary_name, starts_with. rewrite take_app_length, bool_decide_eq_true_2 by done.
  rewrite !app_assoc. apply ends_with_app.
Qed.
End Names.

(** ** Reading *)

Section Reading.
Context (dir : bytes).
Abbreviation now d := (view dir d (d_names d)).

Lemma jio_inv {A} (act : DiskIO A) d r d' : jio act d = (r, d') → ∃ r', act d = (r', d') ∧ r = map_err JobIo r'.
Proof. unfold jio, st_map_err. destruct (act d) as [r' d1]. intros [= <- <-]. eauto. Qed.

Lemma read_job_inv id d r d' : read_record_locked dir id d = (r, d') →
  same_files d d' ∧ ∀ rec, r = Ok rec → now d id = Some rec ∧ jb_id rec = id.
Proof.
  unfold read_record_locked. intros Hr.
  destruct (open_file _ d) as [r1 d1] eqn:H1. apply open_file_spec in H1 as [Hs1 _].
  destruct r1 as [n1|e]; [|destruct e; by injection Hr as <- <-].
  unfold st_bind, st_lift, st_ret in Hr. destruct (ensure _ _); [|by injection Hr as <- <-].
  destruct (jio (open_file _) d1) as [r2 d2] eqn:H2. apply jio_inv in H2 as (r2' & H2 & ->).
  apply open_file_spec in H2 as [Hs2 Hn2]. pose proof (same_files_trans _ _ _ Hs1 Hs2) as Hs.
  destruct r2' as [n2|]; cbn [map_err] in Hr; [|by injection Hr as <- <-].
  destruct (jio (read_file n2) d2) as [r3 d3] eqn:H3. apply jio_inv in H3 as (r3' & H3 & ->).
  apply read_file_spec in H3 as [Hs3 Hb]. pose proof (same_files_trans _ _ _ Hs Hs3) as Hs'.
  destruct r3' as [b|]; cbn [map_err] in Hr; [|by injection Hr as <- <-].
  destruct (decode_job_record b) as [rec|] eqn:Hd; [|by injection Hr as <- <-].
  destruct (ensure _ _) eqn:Hid; [|by injection Hr as <- <-]. apply ensure_Ok_inv, bool_decide_eq_true in Hid.
  injection Hr as <- <-. split; [done|]. intros rec' [= <-]. split; [|done]. unfold view, content.
  rewrite <-(same_names _ _ Hs1), (Hn2 _ eq_refl). cbn. by rewrite <-(same_files_data _ _ _ Hs), <-(Hb _ eq_refl), Hd.
Qed.
Lemma read_record_ok id d : d_faults d = [] → queue_ok dir d →
  read_record_locked dir id d = (match now d id with Some r => Ok r | None => Err (JobNotFound id) end, d).
Proof.
  intros Hf Hq. unfold read_record_locked, st_bind, st_lift, st_ret, jio, st_map_err, open_file, read_file, io, pop_fault.
  rewrite Hf. destruct (d_names d !! job_path dir id) as [n|] eqn:Hn; cbn [ok_or].
  2: { unfold view, content. by rewrite Hn. }
  destruct (view_named dir d (d_names d) id Hq) as [r Hr]; [by left|by exists n|]. rewrite Hr.
  destruct (view_inv dir d (d_names d) id r Hq) as (n' & b & Hn' & Hi & He & Hqr & Hid); [by left|done|].
  assert (n' = n) as -> by congruence. rewrite (data_lookup _ _ _ Hi). cbn [i_data].
  pose proof He as (_ & Hs & Hb)%encode_job_Ok. pose proof Hqr as (Hwf & _). 
  assert (blen b = job_size r) as Hl by (rewrite Hb; by apply length_job_layout). rewrite Hl.
  rewrite bool_decide_eq_true_2 by done. cbn [ensure]. rewrite Hf, Hn. cbn [ok_or map_err].
  rewrite Hf. cbn [map_err]. rewrite (data_lookup _ _ _ Hi). cbn [i_data].
  rewrite (queueable_decode _ _ He Hqr), bool_decide_eq_true_2 by done. done.
Qed.
Lemma now_same d d' id : same_files d d' → now d' id = now d id.
Proof. intros [Hi Hn _]. unfold view, content, data. by rewrite Hi, Hn. Qed.

Lemma read_records_inv ids d rs d' : read_records dir ids d = (rs, d') →
  same_files d d' ∧ ∀ l, rs = Ok l → Forall2 (λ id r, now d id = Some r ∧ jb_id r = id) ids l.
Proof.
  revert d rs d'. induction ids as [|id ids IH]; intros d rs d'; cbn [read_records].
  { intros [= <- <-]. split; [done|]. intros l [= <-]. constructor. }
  unfold st_bind. destruct (read_record_locked dir id d) as [r d1] eqn:H1. apply read_job_inv in H1 as [Hs1 H1].
  destruct r as [r|]; [|by intros [= <- <-]]. destruct (read_records dir ids d1) as [r2 d2] eqn:H2.
  apply IH in H2 as [Hs2 H2]. pose proof (same_files_trans _ _ _ Hs1 Hs2) as Hs.
  destruct r2 as [l|]; [|by intros [= <- <-]]. intros [= <- <-]. split; [done|]. intros l' [= <-].
  constructor; [by apply H1|]. eapply Forall2_impl; [by apply H2|]. intros i r'. cbn. by rewrite (now_same _ _ _ Hs1).
Qed.
Lemma read_records_ok ids d : d_faults d = [] → queue_ok dir d → Forall (λ id, is_Some (now d id)) ids →
  ∃ l, read_records dir ids d = (Ok l, d).
Proof.
  intros Hf Hq. induction 1 as [|id ids [r Hr] _ [l IH]]; cbn [read_records]; [by eexists|].
  unfold st_bind, st_ret. rewrite read_record_ok, Hr by done. rewrite IH. by eexists.
Qed.

(** ** Listing *)

#[export] Instance id_ord : Ord id_compare.
Proof. apply (cmp_on_ord job_bytes bytes_compare); [|apply _]. intros [a] [b] Hab. cbn in Hab. by subst. Qed.

(** The names of the directory. *)
Definition entries (d : Disk) : list Path := filter (λ p, p_dir p = dir) (map_to_list (d_names d)).*1.
Lemma elem_of_entries d p : p ∈ entries d ↔ p_dir p = dir ∧ is_Some (d_names d !! p).
Proof.
  unfold entries. rewrite list_elem_of_filter, list_elem_of_fmap. split.
  - intros (Hp & [q n] & -> & Hq%elem_of_map_to_list). cbn in *. split; [done|by exists n].
  - intros (Hp & n & Hn). split; [done|]. exists (p, n). by rewrite elem_of_map_to_list.
Qed.
Lemma NoDup_dir_entries d : NoDup (entries d).
Proof. apply NoDup_filter, NoDup_fst_map_to_list. Qed.
Lemma entries_same d d' : same_files d d' → entries d' = entries d.
Proof. intros [_ Hn _]. unfold entries. by rewrite Hn. Qed.
Lemma read_dir_inv d r d' : read_dir dir d = (r, d') → same_files d d' ∧ ∀ l, r = Ok l → l = entries d.
Proof.
  unfold read_dir. intros Hr. io_cases Hr d1 Hs; [done|]. injection Hr as <- <-. split; [done|].
  intros l [= <-]. by rewrite <-(entries_same _ _ Hs).
Qed.
Lemma read_dir_ok d : d_faults d = [] → read_dir dir d = (Ok (entries d), d).
Proof. intros Hf. unfold read_dir, io, pop_fault. by rewrite Hf. Qed.

(** No temporary file is there. *)
Definition tidy (d : Disk) : Prop := ∀ id nonce, d_names d !! temporary_path dir id nonce = None.
Lemma entry_cases d p : queue_ok dir d → p ∈ entries d →
  (∃ id, jid_wf id ∧ p = job_path dir id ∧ is_Some (now d id)) ∨ (∃ id nonce, p = temporary_path dir id nonce).
Proof.
  intros Hq [Hp [n Hn]]%elem_of_entries. destruct (queue_ok_name _ _ (d_names d) _ _ Hq ltac:(by left) Hn Hp) as [[id ->]|?]; [left|by right].
  destruct (queue_ok_job _ _ (d_names d) _ _ Hq ltac:(by left) Hn) as (r & b & _ & _ & ([Hwf _] & _) & <- & Hv).
  exists (jb_id r). split_and!; [done|done|by exists r].
Qed.
Lemma entry_job d id r : queue_ok dir d → now d id = Some r → jid_wf id ∧ job_path dir id ∈ entries d.
Proof.
  intros Hq Hr. destruct (view_inv dir d (d_names d) id r Hq ltac:(by left) Hr) as (n & b & Hn & Hi & _ & ([Hwf _] & _) & <-).
  split; [done|]. apply elem_of_entries. split; [done|by exists n].
Qed.

Lemma job_ids_inv d l ids : queue_ok dir d → l ⊆ entries d → job_ids l = Ok ids →
  l = map (job_path dir) ids ∧ Forall (λ id, jid_wf id ∧ is_Some (now d id)) ids.
Proof.
  intros Hq. revert ids. induction l as [|p l IH]; intros ids Hl Hj; cbn [job_ids] in Hj.
  { injection Hj as <-. done. }
  apply bind_Ok_inv in Hj as ([] & _ & Hj). apply bind_Ok_inv in Hj as ([] & Ht%ensure_Ok_inv & Hj).
  apply bind_Ok_inv in Hj as (id & Hid%ok_or_Ok_inv & Hj). apply bind_Ok_inv in Hj as (ids' & Hids & Hj).
  injection Hj as <-. apply IH in Hids as [-> Hall]; [|set_solver].
  destruct (entry_cases d p Hq ltac:(set_solver)) as [(id' & Hwf & -> & Hs)|(id' & nonce & ->)].
  - rewrite job_name_parses in Hid by done. injection Hid as ->. split; [done|]. by constructor.
  - by rewrite temporary_name_temporary in Ht.
Qed.
Lemma job_ids_ok d l : queue_ok dir d → tidy d → l ⊆ entries d → ∃ ids, job_ids l = Ok ids.
Proof.
  intros Hq Ht. induction l as [|p l IH]; intros Hl; [by eexists|]. destruct IH as [ids IH]; [set_solver|].
  assert (p ∈ entries d) as Hp by set_solver. destruct (entry_cases d p Hq Hp) as [(id & Hwf & -> & _)|(id & nonce & ->)].
  - cbn [job_ids]. rewrite job_name_utf8, job_name_not_temporary, job_name_parses, IH by done. by eexists.
  - apply elem_of_entries in Hp as [_ [n Hn]]. by rewrite Ht in Hn.
Qed.

(** The list of the queue: the records of the current name space, by identifier. *)
Definition lists (d : Disk) (l : list JobRecord) : Prop :=
  StronglySorted (cmp_lt id_compare) (jb_id <$> l) ∧ ∀ r, r ∈ l ↔ now d (jb_id r) = Some r.
Lemma now_id d id r : queue_ok dir d → now d id = Some r → jb_id r = id.
Proof. intros Hq Hr. by destruct (view_inv dir d (d_names d) id r Hq ltac:(by left) Hr) as (? & ? & _ & _ & _ & _ & ?). Qed.
Lemma Forall2_ids d ids l :
  Forall2 (λ id r, now d id = Some r ∧ jb_id r = id) ids l → jb_id <$> l = ids.
Proof. induction 1 as [|id r ids l [_ Hr] _ IH]; [done|]. by rewrite fmap_cons, Hr, IH. Qed.
Lemma list_of_ids d l ids :
  queue_ok dir d → job_ids (entries d) = Ok ids →
  Forall2 (λ id r, now d id = Some r ∧ jb_id r = id) (sort_by id_compare ids) l → lists d l.
Proof.
  intros Hq Hids Hl. apply (job_ids_inv d) in Hids as [He Hall]; [|done..]. split.
  - rewrite (Forall2_ids _ _ _ Hl). apply sort_by_strict; [apply _|].
    pose proof (NoDup_dir_entries d) as Hnd. rewrite He in Hnd. by apply NoDup_fmap_1 in Hnd.
  - intros r. split.
    + intros [i Hi]%list_elem_of_lookup. destruct (Forall2_lookup_r _ _ _ _ _ Hl Hi) as (id & _ & Hn & Hid). by rewrite Hid.
    + intros Hn. destruct (entry_job _ _ _ Hq Hn) as [_ Hin]. rewrite He in Hin.
      apply list_elem_of_fmap in Hin as (id & Hp%job_path_inj & Hid). subst id.
      rewrite <-(elem_of_sort_by id_compare) in Hid. apply list_elem_of_lookup in Hid as [i Hi].
      destruct (Forall2_lookup_l _ _ _ _ _ Hl Hi) as (r' & Hr' & Hn' & _). assert (r' = r) as -> by congruence.
      by eapply list_elem_of_lookup_2.
Qed.
Lemma list_records_inv d r d' : queue_ok dir d → list_records_locked dir d = (r, d') →
  same_files d d' ∧ ∀ l, r = Ok l → lists d l.
Proof.
  intros Hq. unfold list_records_locked, st_bind, st_lift. destruct (jio (read_dir dir) d) as [r1 d1] eqn:H1.
  apply jio_inv in H1 as (r1' & H1 & ->). apply read_dir_inv in H1 as [Hs1 Hl].
  destruct r1' as [l1|]; cbn [map_err]; [|by intros [= <- <-]]. specialize (Hl _ eq_refl) as ->.
  destruct (job_ids (entries d)) as [ids|] eqn:Hids; [|by intros [= <- <-]].
  intros H2. apply read_records_inv in H2 as [Hs2 H2]. split; [by eapply same_files_trans|].
  intros l Hl. eapply list_of_ids; [done|done|]. eapply Forall2_impl; [by apply H2|]. intros id r'. cbn.
  by rewrite (now_same _ _ _ Hs1).
Qed.
Lemma list_records_ok d : d_faults d = [] → queue_ok dir d → tidy d →
  ∃ l, list_records_locked dir d = (Ok l, d) ∧ lists d l.
Proof.
  intros Hf Hq Ht. destruct (job_ids_ok d (entries d) Hq Ht ltac:(done)) as [ids Hids].
  pose proof (job_ids_inv d _ _ Hq ltac:(done) Hids) as [_ Hall].
  destruct (read_records_ok (sort_by id_compare ids) d Hf Hq) as [l Hl].
  { apply Forall_forall. intros id Hid. rewrite (elem_of_sort_by id_compare) in Hid.
    rewrite Forall_forall in Hall. by apply Hall. }
  exists l. assert (list_records_locked dir d = (Ok l, d)) as Hrun.
  { unfold list_records_locked, st_bind, st_lift, jio, st_map_err. rewrite read_dir_ok by done. cbn [map_err].
    by rewrite Hids. }
  split; [done|]. by apply (list_records_inv _ _ _ Hq Hrun).
Qed.
End Reading.
End JobsListSpec.
