(* ===== verification/JobsOpsSpec.v ===== *)
(** * The operations of the job queue

    Every operation, with any calls failing, moves each job along the durable
    state machine in every name space a crash may find. *)

From Stdlib Require Import ZArith Lia Strings.Byte Strings.String.
From stdpp Require Import base tactics list gmap strings relations sorting.
From S2P Require Import Prelude Order Crc Core Format Codec CatalogCodec Catalog Chunk Disk DiskSpec Store Git Reader PublicationSpec Cache CacheSpec Checkout Workspace WorkspaceStore Jobs JobsSpec DirectorySpec JobsQueueSpec.
Import Crc Core Codec CatalogCodec Catalog Chunk Disk DiskSpec Git Reader PublicationSpec DirectorySpec Jobs JobsSpec JobsQueueSpec JobsListSpec.

#[local] Open Scope Z_scope.

Module JobsOpsSpec.

#[local] Set Warnings "-clear-no-such-hyp".

(** ** Operations as data *)

Inductive JobOp :=
| DoEnqueue (nonces : list Z) (ids : list (result IoErrorKind JobId)) (kind payload : bytes)
| DoEnqueueWithId (nonces : list Z) (id : JobId) (kind payload : bytes)
| DoClaim (nonces : list Z) (matches : JobRecord → bool)
| DoStart (nonces : list Z) (id : JobId)
| DoSucceed (nonces : list Z) (id : JobId)
| DoFail (nonces : list Z) (id : JobId) (error : bytes)
| DoRetry (nonces : list Z) (id : JobId)
| DoRecover (nonces : JobId → list Z)
| DoGet (id : JobId)
| DoList.
(** Identifiers are 16 bytes by their type. *)
Definition op_wf (o : JobOp) : Prop :=
  match o with
  | DoEnqueue _ ids _ _ => Forall (λ id, ∀ i, id = Ok i → jid_wf i) ids
  | DoEnqueueWithId _ id _ _ => jid_wf id
  | _ => True
  end.

Section Ops.
Context (dir : bytes).
Abbreviation now d := (view dir d (d_names d)).
Abbreviation JIO := (ST Disk JobError).

(** The record an operation reports to have stored. *)
Definition run_op (o : JobOp) : JIO (option JobRecord) :=
  match o with
  | DoEnqueue nonces ids kind payload => r ⇐ enqueue dir nonces ids kind payload; st_ret (Some r)
  | DoEnqueueWithId nonces id kind payload => r ⇐ enqueue_with_id dir nonces id kind payload; st_ret (Some r)
  | DoClaim nonces matches => claim_next_matching dir nonces matches
  | DoStart nonces id => r ⇐ start dir nonces id; st_ret (Some r)
  | DoSucceed nonces id => r ⇐ succeed dir nonces id; st_ret (Some r)
  | DoFail nonces id error => r ⇐ fail dir nonces id error; st_ret (Some r)
  | DoRetry nonces id => r ⇐ retry dir nonces id; st_ret (Some r)
  | DoRecover nonces => _ ⇐ recover_startup dir nonces; st_ret None
  | DoGet id => _ ⇐ get dir id; st_ret None
  | DoList => _ ⇐ list_ dir; st_ret None
  end.
(** A step of a history: an operation, whatever fails in it, or a crash. *)
Definition queue_step (d d' : Disk) : Prop :=
  (∃ o, op_wf o ∧ d' = (run_op o d).2) ∨ crash d d'.

(** ** Evolution *)

(** Every job has advanced, in every name space. *)
Record evolves (d d' : Disk) : Prop := {
  evolves_ok : queue_ok dir d';
  evolves_spaces : ∀ m', m' ∈ spaces d' → ∃ m, m ∈ spaces d ∧ ∀ id, advances id (view dir d m id) (view dir d' m' id) }.
(** [r] is found in every name space. *)
Definition durable (d : Disk) (r : JobRecord) : Prop := ∀ m, m ∈ spaces d → view dir d m (jb_id r) = Some r.

Lemma evolves_trans d1 d2 d3 : evolves d1 d2 → evolves d2 d3 → evolves d1 d3.
Proof.
  intros [_ H1] [Hq H2]. split; [done|]. intros m3 (m2 & Hm2 & Ha2)%H2. destruct (H1 m2 Hm2) as (m1 & Hm1 & Ha1).
  exists m1. split; [done|]. intros id. etrans; [apply Ha1|apply Ha2].
Qed.
Lemma quiet_evolves d d' : quiet dir d d' → evolves d d'.
Proof.
  intros [Hq _ Hs]. split; [done|]. intros m' (m & Hm & Hv)%Hs. exists m. split; [done|]. intros id. by rewrite Hv.
Qed.
Lemma same_evolves d d' : queue_ok dir d → same_files d d' → evolves d d'.
Proof. intros. by apply quiet_evolves, queue_quiet_same. Qed.
(** The record written continues the current one. *)
Definition continues (d : Disk) (r : JobRecord) : Prop :=
  match now d (jb_id r) with
  | Some r0 => transition r0 r
  | None => ∃ kind payload, r = queued (jb_id r) kind payload
  end.
Lemma wrote_evolves d r ok d' : wrote dir d r ok d' → continues d r → evolves d d' ∧ (ok = true → durable d' r).
Proof.
  intros [Hq _ Hs Hd] Hc. split; [split; [done|]|].
  - intros m' Hm'. destruct (Hs m' Hm') as [(m & Hm & Hv)|Hu]; [exists m|exists (d_names d)].
    + split; [done|]. intros id. by rewrite Hv.
    + split; [by left|]. intros id. rewrite Hu. case_decide as Hid; [|done]. subst id. unfold continues in Hc.
      destruct (now d (jb_id r)) as [r0|]; cbn; [by apply rtc_once|].
      destruct Hc as (k & p & ->). exists k, p. done.
  - intros Hok m Hm. rewrite (Hd Hok m Hm). by rewrite decide_True.
Qed.
Lemma crash_evolves d d' : queue_ok dir d → crash d d' → evolves d d'.
Proof.
  intros Hq Hc. destruct (crash_view _ _ _ Hq Hc) as (Hq' & Hsp & m & Hm & Hv). split; [done|]. rewrite Hsp.
  intros m' ->%list_elem_of_singleton. exists m. split; [done|]. intros id. by rewrite Hv.
Qed.

(** ** Each operation *)

Lemma capacity_same r r' : jb_kind r' = jb_kind r → jb_payload r' = jb_payload r →
  execution_failure_capacity r' = execution_failure_capacity r.
Proof. unfold execution_failure_capacity. by intros -> ->. Qed.

Lemma write_wrote d nonces r res d' :
  queue_ok dir d → job_wf r → execution_failure_capacity r ≠ 0 →
  write_record_locked dir nonces r d = (res, d') → wrote dir d r (is_ok res) d'.
Proof.
  intros Hq Hwf Hcap. unfold write_record_locked, st_bind, st_lift.
  destruct (encode_job_record r) as [b|e] eqn:He; [|intros [= <- <-]; by apply queue_quiet_wrote, queue_quiet_refl].
  pose proof He as (Hv & Hs & _)%encode_job_Ok. by apply replace_wrote.
Qed.
Lemma write_evolves d nonces r res d' :
  queue_ok dir d → job_wf r → execution_failure_capacity r ≠ 0 → continues d r →
  write_record_locked dir nonces r d = (res, d') → evolves d d' ∧ (is_ok res = true → durable d' r).
Proof. intros. eapply wrote_evolves; [|done]. by eapply write_wrote. Qed.

(** A change of one record that follows the state machine. *)
Definition legal (change : JobRecord → JResult JobRecord) : Prop :=
  ∀ r r', change r = Ok r' → transition r r' ∧ (is_u32 (jb_attempts r) → is_u32 (jb_attempts r')).
Lemma update_evolves d nonces id change res d' :
  legal change → queue_ok dir d → update dir nonces id change d = (res, d') →
  evolves d d' ∧ ∀ r, res = Ok r → jb_id r = id ∧ durable d' r.
Proof.
  intros Hl Hq. unfold update, st_bind, st_lift, st_ret.
  destruct (read_record_locked dir id d) as [r1 d1] eqn:H1. apply read_job_inv in H1 as [Hs H1].
  destruct r1 as [r0|]; [|intros [= <- <-]; by split; [apply same_evolves|]].
  destruct (H1 r0 eq_refl) as [Hn Hid]. destruct (change r0) as [r|] eqn:Hch; [|intros [= <- <-]; by split; [apply same_evolves|]].
  apply Hl in Hch as [Ht Hu]. pose proof (transition_keeps _ _ Ht) as (Hi & Hk & Hp & _).
  destruct (view_inv dir d (d_names d) id r0 Hq ltac:(by left) Hn) as (n & b & _ & _ & _ & ([Hwf Ha] & _ & _ & Hcap) & _).
  destruct (write_record_locked dir nonces r d1) as [r2 d2] eqn:Hw.
  pose proof (queue_quiet_same _ _ _ Hq Hs) as Q1. apply write_evolves in Hw as [He Hd]; [|apply Q1| | |].
  2: { split; [congruence|by apply Hu]. }
  2: { by rewrite (capacity_same r0). }
  2: { unfold continues. rewrite Hi, Hid, (now_same _ _ _ _ Hs), Hn. done. }
  assert (evolves d d2) as He2 by (eapply evolves_trans; [by apply quiet_evolves|done]).
  destruct r2 as [[]|]; intros [= <- <-]; (split; [done|]); [|done].
  intros r' [= <-]. split; [congruence|]. by apply Hd.
Qed.
Lemma begin_attempt_legal r r' : jb_state r = Queued → begin_attempt r = Ok r' →
  transition r r' ∧ (is_u32 (jb_attempts r) → is_u32 (jb_attempts r')).
Proof.
  intros Hq Hb. unfold begin_attempt in Hb. case_decide; [|done]. cbn in Hb. injection Hb as <-. split; [by constructor|].
  unfold in_width. cbn. lia.
Qed.
Lemma require_Ok r s t u : require_transition r s t = Ok u → jb_state r = s.
Proof. by intros H%ensure_Ok_inv%bool_decide_eq_true. Qed.
Lemma start_legal : legal (λ r, _ ← require_transition r Queued Running; begin_attempt r).
Proof. intros r r' Hr. apply bind_Ok_inv in Hr as ([] & Hs%require_Ok & Hr). by apply begin_attempt_legal. Qed.
Lemma succeed_legal : legal (λ r, _ ← require_transition r Running Succeeded; Ok (set_state r Succeeded (jb_attempts r) None)).
Proof. intros r r' Hr. apply bind_Ok_inv in Hr as ([] & Hs%require_Ok & Hr). injection Hr as <-. split; [by constructor|done]. Qed.
Lemma fail_legal e : legal (λ r, _ ← require_transition r Running Failed; Ok (set_state r Failed (jb_attempts r) (Some e))).
Proof. intros r r' Hr. apply bind_Ok_inv in Hr as ([] & Hs%require_Ok & Hr). injection Hr as <-. split; [by constructor|done]. Qed.
Lemma retry_legal :
  legal (λ r, _ ← require_transition r Failed Queued; Ok (set_state r Queued (jb_attempts r) (jb_last_error r))).
Proof. intros r r' Hr. apply bind_Ok_inv in Hr as ([] & Hs%require_Ok & Hr). injection Hr as <-. split; [by constructor|done]. Qed.

(** A new job. *)
Definition enqueue_fresh (nonces : list Z) (id : JobId) (kind payload : bytes) : JIO JobRecord :=
  let record := queued id kind payload in
  _ ⇐ st_lift (ensure_execution_failure_space record);
  _ ⇐ write_record_locked dir nonces record;
  st_ret record.
Lemma enqueue_fresh_evolves d nonces id kind payload res d' :
  queue_ok dir d → jid_wf id → path_exists d (job_path dir id) = false →
  enqueue_fresh nonces id kind payload d = (res, d') → evolves d d' ∧ ∀ r, res = Ok r → durable d' r.
Proof.
  intros Hq Hwf Hno. unfold enqueue_fresh, st_bind, st_lift, st_ret, ensure_execution_failure_space.
  destruct (ensure _ _) as [[]|] eqn:Hcap; [|intros [= <- <-]; by split; [apply same_evolves|]].
  apply ensure_Ok_inv, bool_decide_eq_true in Hcap.
  assert (now d id = None) as Hn.
  { unfold path_exists in Hno. apply bool_decide_eq_false in Hno. unfold view, content.
    destruct (d_names d !! job_path dir id); [by destruct Hno|done]. }
  destruct (write_record_locked _ _ _ d) as [r2 d2] eqn:Hw. apply write_evolves in Hw as [He Hd]; [|done| |done|].
  2: { split; [done|]. cbn. done. }
  2: { unfold continues. cbn. rewrite Hn. by eexists _, _. }
  destruct r2 as [[]|]; intros [= <- <-]; (split; [done|]); [|done]. intros r [= <-]. by apply Hd.
Qed.
Lemma enqueue_evolves d nonces ids kind payload res d' :
  queue_ok dir d → Forall (λ id, ∀ i, id = Ok i → jid_wf i) ids → enqueue dir nonces ids kind payload d = (res, d') →
  evolves d d' ∧ ∀ r, res = Ok r → durable d' r.
Proof.
  intros Hq. induction 1 as [|id ids Hid _ IH]; cbn [enqueue].
  { intros [= <- <-]. by split; [apply same_evolves|]. }
  unfold st_bind at 1, st_lift at 1. destruct id as [id|e]; cbn [map_err]; [|intros [= <- <-]; by split; [apply same_evolves|]].
  unfold st_bind at 1, st_get. destruct (path_exists _ _) eqn:Hp; [done|]. by apply enqueue_fresh_evolves; [|apply Hid|].
Qed.
Lemma enqueue_with_id_evolves d nonces id kind payload res d' :
  queue_ok dir d → jid_wf id → enqueue_with_id dir nonces id kind payload d = (res, d') →
  evolves d d' ∧ ∀ r, res = Ok r → durable d' r.
Proof.
  intros Hq Hwf. unfold enqueue_with_id, st_bind at 1, st_get. destruct (path_exists _ _) eqn:Hp; unfold st_bind at 1, st_lift at 1;
    cbn [negb ensure]; [intros [= <- <-]; by split; [apply same_evolves|]|]. by apply enqueue_fresh_evolves.
Qed.

Lemma claim_evolves d nonces matches res d' :
  queue_ok dir d → claim_next_matching dir nonces matches d = (res, d') →
  evolves d d' ∧ ∀ r, res = Ok (Some r) → durable d' r.
Proof.
  intros Hq. unfold claim_next_matching, st_bind at 1.
  destruct (list_records_locked dir d) as [r1 d1] eqn:H1. apply list_records_inv in H1 as [Hs Hl]; [|done].
  destruct r1 as [l|]; [|intros [= <- <-]; by split; [apply same_evolves|]]. destruct (Hl l eq_refl) as [_ Hin].
  destruct (List.find _ l) as [r0|] eqn:Hf; [|intros [= <- <-]; by split; [apply same_evolves|]].
  apply find_some in Hf as [Hr0%list_elem_of_In Hst]. apply andb_true_iff in Hst as [Hst%bool_decide_eq_true _].
  apply Hin in Hr0. unfold st_bind, st_lift, st_ret, ensure_execution_failure_space.
  destruct (ensure _ _) as [[]|] eqn:Hcap; [|intros [= <- <-]; by split; [apply same_evolves|]].
  apply ensure_Ok_inv, bool_decide_eq_true in Hcap.
  destruct (begin_attempt r0) as [r|] eqn:Hb; [|intros [= <- <-]; by split; [apply same_evolves|]].
  apply begin_attempt_legal in Hb as [Ht Hu]; [|done]. pose proof (transition_keeps _ _ Ht) as (Hi & Hk & Hp & _).
  destruct (view_inv dir d (d_names d) _ r0 Hq ltac:(by left) Hr0) as (n & b & _ & _ & _ & ([Hwf Ha] & _) & _).
  destruct (write_record_locked dir nonces r d1) as [r2 d2] eqn:Hw.
  pose proof (queue_quiet_same _ _ _ Hq Hs) as Q1. apply write_evolves in Hw as [He Hd]; [|apply Q1| | |].
  2: { split; [congruence|by apply Hu]. }
  2: { by rewrite (capacity_same r0). }
  2: { unfold continues. rewrite Hi, (now_same _ _ _ _ Hs), Hr0. done. }
  assert (evolves d d2) as He2 by (eapply evolves_trans; [by apply quiet_evolves|done]).
  destruct r2 as [[]|]; intros [= <- <-]; (split; [done|]); [|done]. intros r' [= <-]. by apply Hd.
Qed.

(** ** Startup *)

Lemma remove_temporaries_quiet l : ∀ d removed r d',
  queue_ok dir d → (∀ p, p ∈ l → p_dir p = dir) → remove_temporaries l removed d = (r, d') → quiet dir d d'.
Proof.
  induction l as [|p l IH]; intros d removed r d' Hq Hl; cbn [remove_temporaries].
  { intros [= <- <-]. by apply queue_quiet_refl. }
  unfold st_bind at 1, st_lift at 1. destruct (ensure _ _) as [[]|]; [|intros [= <- <-]; by apply queue_quiet_refl].
  destruct (is_temporary_name _) eqn:Ht; [|apply IH; [done|set_solver]].
  unfold st_bind. destruct (jio (remove_file p) d) as [r1 d1] eqn:H1. apply jio_inv in H1 as (r1' & H1 & ->).
  apply (queue_remove_quiet dir) in H1; [|done|].
  2: { intros [id ->]. by rewrite job_name_not_temporary in Ht. }
  destruct r1'; cbn [map_err]; [|by intros [= <- <-]]. intros H2. eapply queue_quiet_trans; [exact H1|].
  eapply IH; [apply H1|set_solver|exact H2].
Qed.
Lemma remove_stale_quiet d r d' : queue_ok dir d → remove_stale_temporaries_locked dir d = (r, d') → quiet dir d d'.
Proof.
  intros Hq. unfold remove_stale_temporaries_locked, st_bind. destruct (jio (read_dir dir) d) as [r1 d1] eqn:H1.
  apply jio_inv in H1 as (r1' & H1 & ->). apply read_dir_inv in H1 as [Hs1 Hl]. pose proof (queue_quiet_same _ _ _ Hq Hs1) as Q1.
  destruct r1' as [l|]; cbn [map_err]; [|by intros [= <- <-]]. specialize (Hl _ eq_refl) as ->.
  destruct (remove_temporaries _ _ d1) as [r2 d2] eqn:H2. apply remove_temporaries_quiet in H2 as Q2; [|apply Q1|].
  2: { by intros p [Hp _]%elem_of_entries. }
  pose proof (queue_quiet_trans _ _ _ _ Q1 Q2) as Q12. destruct r2 as [[]|]; [|by intros [= <- <-]..].
  intros H3. apply jio_inv in H3 as (r3' & H3 & _). apply (queue_sync_directory_quiet dir) in H3 as [Q3 _]; [|apply Q12].
  by eapply queue_quiet_trans.
Qed.

Definition requeued (r : JobRecord) : JobRecord := set_state r Queued (jb_attempts r) (jb_last_error r).
Lemma requeue_evolves nonces l : ∀ d k res d',
  queue_ok dir d → NoDup (jb_id <$> l) → Forall (λ r, now d (jb_id r) = Some r) l →
  requeue dir nonces l k d = (res, d') → evolves d d'.
Proof.
  induction l as [|r l IH]; intros d k res d' Hq Hnd Hall; cbn [requeue].
  { intros [= <- <-]. by apply same_evolves. }
  rewrite fmap_cons in Hnd. apply NoDup_cons in Hnd as [Hni Hnd]. apply Forall_cons in Hall as [Hr Hall].
  case_decide as Hst; [|by apply IH]. fold (requeued r). unfold st_bind.
  destruct (write_record_locked _ _ _ d) as [r1 d1] eqn:Hw.
  destruct (view_inv dir d (d_names d) _ r Hq ltac:(by left) Hr) as (n & b & _ & _ & _ & (Hwf & _ & _ & Hcap) & _).
  apply write_wrote in Hw; [|done..].
  assert (continues d (requeued r)) as Hc by (unfold continues; cbn; rewrite Hr; by constructor).
  destruct (wrote_evolves _ _ _ _ Hw Hc) as [He _]. destruct r1 as [[]|]; [|by intros [= <- <-]].
  intros Hrun. eapply evolves_trans; [exact He|]. eapply IH; [apply Hw|done| |exact Hrun].
  rewrite Forall_forall in Hall |- *. intros r' Hr'.
  rewrite (wrote_durable _ _ _ _ _ Hw eq_refl (d_names d1) ltac:(by left)). rewrite decide_False; [by apply Hall|].
  cbn. intros Heq. apply Hni. rewrite <-Heq. by apply list_elem_of_fmap_2.
Qed.
Lemma lists_nodup d l : lists dir d l → NoDup (jb_id <$> l).
Proof.
  intros [Hs _]. induction Hs as [|x k Hs IH Hx]; constructor; [|done]. intros Hin%list_elem_of_In.
  rewrite List.Forall_forall in Hx. specialize (Hx x Hin). unfold cmp_lt in Hx.
  by rewrite (proj2 (ord_eq (cmp:=id_compare) x x) eq_refl) in Hx.
Qed.
Lemma recover_evolves d nonces res d' : queue_ok dir d → recover_startup dir nonces d = (res, d') → evolves d d'.
Proof.
  intros Hq. unfold recover_startup, st_bind. destruct (remove_stale_temporaries_locked dir d) as [r1 d1] eqn:H1.
  apply remove_stale_quiet in H1 as Q1; [|done]. pose proof (quiet_evolves _ _ Q1) as E1.
  destruct r1; [|by intros [= <- <-]]. destruct (list_records_locked dir d1) as [r2 d2] eqn:H2.
  apply list_records_inv in H2 as [Hs2 Hl]; [|apply Q1]. pose proof (queue_quiet_same _ _ _ (quiet_ok _ _ _ Q1) Hs2) as Q2.
  assert (evolves d d2) as E2 by (eapply evolves_trans; [exact E1|by apply quiet_evolves]).
  destruct r2 as [l|]; [|by intros [= <- <-]]. specialize (Hl l eq_refl).
  intros H3. eapply evolves_trans; [exact E2|]. eapply requeue_evolves; [apply Q2|by eapply lists_nodup| |exact H3].
  apply Forall_forall. intros r Hr%Hl. by rewrite (now_same _ _ _ _ Hs2).
Qed.

(** ** Histories *)

Lemma run_op_evolves d o res d' : queue_ok dir d → op_wf o → run_op o d = (res, d') →
  evolves d d' ∧ ∀ r, res = Ok (Some r) → durable d' r.
Proof.
  assert (∀ (m : JIO JobRecord) res d', (r ⇐ m; st_ret (Some r)) d = (res, d') →
    (∀ res1 d1, m d = (res1, d1) → evolves d d1 ∧ ∀ r, res1 = Ok r → durable d1 r) →
    evolves d d' ∧ ∀ r, res = Ok (Some r) → durable d' r) as Hsome.
  { clear res d'. intros m res d' Hm Hspec. unfold st_bind, st_ret in Hm. destruct (m d) as [res1 d1].
    destruct (Hspec _ _ eq_refl) as [He Hd]. destruct res1 as [r|]; injection Hm as <- <-; (split; [done|]); [|done].
    intros r' [= <-]. by apply Hd. }
  assert (∀ A (m : JIO A) res d', (_ ⇐ m; st_ret None) d = (res, d') →
    (∀ res1 d1, m d = (res1, d1) → evolves d d1) → evolves d d' ∧ ∀ r, res = Ok (Some r) → durable d' r) as Hnone.
  { clear res d'. intros A m res d' Hm Hspec. unfold st_bind, st_ret in Hm. destruct (m d) as [res1 d1].
    specialize (Hspec _ _ eq_refl). destruct res1 as [r|]; by injection Hm as <- <-. }
  intros Hq Hwf. destruct o; cbn [run_op]; intros Hr.
  - eapply Hsome; [exact Hr|]. intros. by eapply enqueue_evolves.
  - eapply Hsome; [exact Hr|]. intros. by eapply enqueue_with_id_evolves.
  - by eapply claim_evolves.
  - eapply Hsome; [exact Hr|]. intros res1 d1 [He Hd]%update_evolves; [|apply start_legal|done]. naive_solver.
  - eapply Hsome; [exact Hr|]. intros res1 d1 [He Hd]%update_evolves; [|apply succeed_legal|done]. naive_solver.
  - eapply Hsome; [exact Hr|]. unfold fail, st_bind at 1, st_lift at 1. intros res1 d1.
    destruct (ensure _ _) as [[]|]; [|intros [= <- <-]; by split; [apply same_evolves|]].
    intros [He Hd]%update_evolves; [|apply fail_legal|done]. naive_solver.
  - eapply Hsome; [exact Hr|]. intros res1 d1 [He Hd]%update_evolves; [|apply retry_legal|done]. naive_solver.
  - eapply Hnone; [exact Hr|]. intros. by eapply recover_evolves.
  - eapply Hnone; [exact Hr|]. intros res1 d1 [Hs _]%read_job_inv. by apply same_evolves.
  - eapply Hnone; [exact Hr|]. intros res1 d1 [Hs _]%list_records_inv; [|done]. by apply same_evolves.
Qed.
Lemma history_evolves d d' : queue_ok dir d → rtc queue_step d d' → evolves d d'.
Proof.
  intros Hq Hh. induction Hh as [d|d d1 d2 Hs _ IH]; [by apply same_evolves|].
  assert (evolves d d1) as He.
  { destruct Hs as [(o & Hwf & ->)|Hc]; [|by apply crash_evolves]. destruct (run_op o d) as [res d1] eqn:Ho.
    by apply run_op_evolves in Ho as [? _]. }
  eapply evolves_trans; [exact He|]. apply IH, He.
Qed.

(** C15. The job queue only ever shows whole records that follow the state
    machine. Start from a sound directory (an empty one is) and run any
    sequence of [enqueue], [enqueue_with_id], [claim_next_matching], [start],
    [succeed], [fail], [retry], [recover_startup], [get] and [list], with any
    file-system calls failing and with crashes in between. In every name space
    that a crash may then find, every job file is synchronized, complete and
    valid under its own name, no job has disappeared, and each job has moved
    only along [Queued -> Running -> Succeeded|Failed], [Failed -> Queued] and
    the startup transition [Running -> Queued], with its attempts counted. *)
Theorem job_history_legal d d' :
  queue_ok dir d → rtc queue_step d d' →
  queue_ok dir d' ∧
  ∀ m', m' ∈ spaces d' → ∃ m, m ∈ spaces d ∧ ∀ id, advances id (view dir d m id) (view dir d' m' id).
Proof. intros Hq Hh. by destruct (history_evolves _ _ Hq Hh). Qed.

(** C8. A stored job is never lost. When an operation of the queue reports a
    record, then after any further history of operations, failing calls and
    crashes, [get] (once calls work) returns a record of that job which the
    state machine reaches from the reported one: with the same kind and payload,
    with no fewer attempts, and equal to it if it had succeeded. *)
Theorem acknowledged_job_survives d o r d1 d2 :
  queue_ok dir d → op_wf o → run_op o d = (Ok (Some r), d1) → rtc queue_step d1 d2 → d_faults d2 = [] →
  ∃ r', get dir (jb_id r) d2 = (Ok r', d2) ∧ rtc transition r r' ∧
    jb_kind r' = jb_kind r ∧ jb_payload r' = jb_payload r ∧ jb_attempts r ≤ jb_attempts r' ∧
    (jb_state r = Succeeded → r' = r).
Proof.
  intros Hq Hwf Hrun Hh Hf. destruct (run_op_evolves _ _ _ _ Hq Hwf Hrun) as [He Hd]. specialize (Hd r eq_refl).
  destruct (history_evolves _ _ (evolves_ok _ _ He) Hh) as [Hq2 Hs2].
  destruct (Hs2 (d_names d2) ltac:(by left)) as (m & Hm & Ha). specialize (Ha (jb_id r)). rewrite (Hd m Hm) in Ha.
  unfold get. rewrite read_record_ok by done. destruct (now d2 (jb_id r)) as [r'|]; cbn in Ha; [|done].
  exists r'. pose proof (transitions_keep _ _ Ha) as (_ & Hk & Hp & Hat). split_and!; try done.
  intros Hs. by apply succeeded_final.
Qed.
End Ops.

(** ** A run *)

Definition demo_dir : bytes := b_ "jobs".
Definition demo_id : JobId := mkJobId (replicate 16 x07).
Definition demo_empty : Disk := mkDisk [] ∅ [] [].
Definition demo_enqueued := run_op demo_dir (DoEnqueueWithId [0] demo_id (b_ "scrub") []) demo_empty.
(** After a crash the start is interrupted too: its directory sync fails. *)
Definition demo_restarted : Disk :=
  mkDisk (d_inodes demo_enqueued.2) (d_names demo_enqueued.2) [] (replicate 7 None ++ [Some (mkFault OtherIo 0)]).
Definition demo_started := run_op demo_dir (DoStart [1] demo_id) demo_restarted.
Definition demo_crashed : Disk := mkDisk (d_inodes demo_started.2) (d_names demo_started.2) [] [].
Definition demo_recovered := run_op demo_dir (DoRecover (λ _, [2])) demo_crashed.

Lemma demo_empty_ok : queue_ok demo_dir demo_empty.
Proof. apply Forall_singleton. apply map_Forall_empty. Qed.
Lemma demo_history : rtc (queue_step demo_dir) demo_enqueued.2 demo_recovered.2.
Proof.
  apply (rtc_l _ _ demo_restarted); [right; apply crash_synced; vm_compute; reflexivity|].
  apply (rtc_l _ _ demo_started.2); [left; by exists (DoStart [1] demo_id)|].
  apply (rtc_l _ _ demo_crashed); [right; apply crash_synced; vm_compute; reflexivity|].
  apply rtc_once. left. by exists (DoRecover (λ _, [2])).
Qed.
Definition demo_record : JobRecord := queued demo_id (b_ "scrub") [].
Lemma demo_enqueued_eq : demo_enqueued = (Ok (Some demo_record), demo_enqueued.2).
Proof.
  assert (demo_enqueued.1 = Ok (Some demo_record)) as Hd by (vm_compute; reflexivity). by rewrite <-Hd, <-surjective_pairing.
Qed.
(** The enqueued job, through a failed start and two crashes. *)
Lemma acknowledged_job_survives_witness :
  demo_started.1 = Err (JobIo OtherIo) ∧
  ∃ r', (get demo_dir demo_id demo_recovered.2).1 = Ok r' ∧ rtc transition demo_record r' ∧ jb_attempts r' = 1.
Proof.
  split; [vm_compute; reflexivity|].
  destruct (acknowledged_job_survives demo_dir demo_empty (DoEnqueueWithId [0] demo_id (b_ "scrub") [])
    demo_record demo_enqueued.2 demo_recovered.2) as (r' & Hg & Ht & _).
  - exact demo_empty_ok.
  - reflexivity.
  - exact demo_enqueued_eq.
  - exact demo_history.
  - vm_compute. reflexivity.
  - exists r'. change (jb_id demo_record) with demo_id in Hg. split; [by rewrite Hg|]. split; [exact Ht|].
    assert ((get demo_dir demo_id demo_recovered.2).1 = Ok (mkJob demo_id (b_ "scrub") [] Queued 1 None)) as Hv
      by (vm_compute; reflexivity).
    rewrite Hg in Hv. cbn in Hv. injection Hv as ->. reflexivity.
Defined.
Lemma job_history_legal_witness :
  queue_ok demo_dir demo_recovered.2 ∧
  ∃ m, m ∈ spaces demo_enqueued.2 ∧
    advances demo_id (view demo_dir demo_enqueued.2 m demo_id) (Some (mkJob demo_id (b_ "scrub") [] Queued 1 None)).
Proof.
  destruct (job_history_legal demo_dir demo_enqueued.2 demo_recovered.2) as [Hq Hs].
  - destruct (run_op_evolves demo_dir demo_empty (DoEnqueueWithId [0] demo_id (b_ "scrub") []) demo_enqueued.1 demo_enqueued.2)
      as [[Hq _] _]; [exact demo_empty_ok|reflexivity|unfold demo_enqueued; by destruct (run_op _ _ _)|exact Hq].
  - exact demo_history.
  - split; [exact Hq|]. destruct (Hs (d_names demo_recovered.2) (list_elem_of_here _ _)) as (m & Hm & Ha).
    exists m. split; [exact Hm|]. specialize (Ha demo_id).
    assert (view demo_dir demo_recovered.2 (d_names demo_recovered.2) demo_id =
      Some (mkJob demo_id (b_ "scrub") [] Queued 1 None)) as Hv by (vm_compute; reflexivity).
    by rewrite Hv in Ha.
Defined.
End JobsOpsSpec.
