(* ===== verification/JobsLiveSpec.v ===== *)
(** * Progress of the job queue

    When file-system calls work: startup always recovers the queue, and a
    claimed job always ends with a recorded outcome. *)

From Stdlib Require Import ZArith Lia Strings.Byte Strings.String.
From stdpp Require Import base tactics list gmap strings relations sorting.
From S2P Require Import Prelude Order Crc Core Format Codec CatalogCodec Catalog Chunk Disk DiskSpec Store Git Reader PublicationSpec Cache CacheSpec Checkout Workspace WorkspaceStore Jobs JobsSpec DirectorySpec JobsQueueSpec JobsOpsSpec.
Import Crc Core Codec CatalogCodec Catalog Chunk Disk DiskSpec Git Reader PublicationSpec DirectorySpec Jobs JobsSpec JobsQueueSpec JobsListSpec JobsOpsSpec.

#[local] Open Scope Z_scope.

Module JobsLiveSpec.

#[local] Set Warnings "-clear-no-such-hyp".

Section Live.
Context (dir : bytes) (Hdir : dir ≠ []).
Abbreviation now d := (view dir d (d_names d)).

(** A sound queue without temporary files, on a disk whose calls work. *)
Record ready (d : Disk) : Prop := {
  ready_faults : d_faults d = [];
  ready_queue : queue_ok dir d;
  ready_tidy : tidy dir d }.
(** Whatever a crash finds, it is the current queue. *)
Definition settled (d : Disk) : Prop := ∀ m, m ∈ spaces d → same_view dir d (d_names d) d m.

Lemma queueable_encode r : queueable r → ∃ b, encode_job_record r = Ok b ∧ blen b = job_size r.
Proof. intros (Hwf & Hv & Hs & _). exists (job_layout r). split; [by apply encode_job_Ok|by apply length_job_layout]. Qed.

Lemma write_progress d nonce nonces r : ready d → queueable r →
  ∃ d', write_record_locked dir (nonce :: nonces) r d = (Ok (), d') ∧ ready d' ∧ wrote dir d r true d'.
Proof.
  intros [Hf Hq Ht] Hr. destruct (queueable_encode r Hr) as (b & He & Hl). pose proof Hr as (_ & _ & Hs & _).
  assert (∃ d', write_record_locked dir (nonce :: nonces) r d = (Ok (), d') ∧ d_faults d' = [] ∧ tidy dir d')
    as (d' & Hw & Hf' & Ht').
  { eexists. split_and!.
    - unfold write_record_locked, st_bind at 1, st_lift. rewrite He. cbn [replace_record].
      unfold create_new at 1, io, pop_fault. rewrite Hf, Ht.
      unfold st_bind, write_at, pop_fault. cbn [d_faults set_inodes set_names]. rewrite Hf.
      rewrite decide_False by (unfold MAX_FILE_BYTES, MAX_JOB_RECORD_LEN, blen, Format.len in *; lia).
      unfold sync_file, io, pop_fault. cbn [d_faults set_inodes set_names update_inode]. rewrite Hf.
      unfold rename, io, pop_fault. cbn [d_faults d_names set_inodes set_names update_inode]. rewrite Hf.
      unfold update_inode, set_inodes, set_names. cbn [d_faults d_names d_inodes d_pending]. rewrite lookup_insert_eq.
      unfold sync_all_directory, st_bind, io, pop_fault. cbn [d_faults]. rewrite Hf.
      rewrite bool_decide_eq_true_2 by done. cbn [ensure d_faults d_names d_inodes d_pending]. reflexivity.
    - done.
    - intros id n. cbn. rewrite lookup_insert_ne by done.
      destruct (decide (temporary_path dir id n = temporary_path dir (jb_id r) nonce)) as [->|Hne].
      + apply lookup_delete_eq.
      + rewrite lookup_delete_ne, lookup_insert_ne by done. apply Ht. }
  exists d'. assert (wrote dir d r true d') as Hwr.
  { destruct Hr as (Hwf & _ & _ & Hcap). exact (write_wrote dir d _ r _ d' Hq Hwf Hcap Hw). }
  split; [done|]. split; [|done]. split; [done|apply Hwr|done].
Qed.
Lemma wrote_now_eq d r d' id : wrote dir d r true d' → now d' id = if decide (id = jb_id r) then Some r else now d id.
Proof. intros Hw. apply (wrote_durable _ _ _ _ _ Hw); [done|by left]. Qed.
Lemma wrote_settled d r d' : wrote dir d r true d' → settled d'.
Proof. intros Hw m Hm id. rewrite (wrote_now_eq _ _ _ _ Hw). by apply (wrote_durable _ _ _ _ _ Hw). Qed.

(** ** Startup *)

Lemma now_queueable d id r : queue_ok dir d → now d id = Some r → queueable r ∧ jb_id r = id.
Proof. intros Hq Hr. destruct (view_inv dir d (d_names d) id r Hq ltac:(by left) Hr) as (? & ? & _ & _ & _ & ? & ?). done. Qed.
Lemma requeued_queueable r : queueable r → queueable (requeued r).
Proof.
  intros (Hwf & (Hk & Hsz & He & _)%validate_iff & Hs & Hc). split_and!; [done| |done|done].
  apply validate_iff. split_and!; try done; cbn; tauto.
Qed.
Definition restarted (r : JobRecord) : JobRecord := if decide (jb_state r = Running) then requeued r else r.
Definition running (l : list JobRecord) : list JobRecord := filter (λ r, jb_state r = Running) l.

Lemma requeue_progress (nonces : JobId → list Z) l : (∀ id, nonces id ≠ []) → ∀ d k,
  ready d → NoDup (jb_id <$> l) → Forall (λ r, now d (jb_id r) = Some r) l →
  ∃ d', requeue dir nonces l k d = (Ok (k + Z.of_nat (length (running l))), d') ∧ ready d' ∧
    (settled d → settled d') ∧
    ∀ id, now d' id = if decide (id ∈ jb_id <$> l) then restarted <$> now d id else now d id.
Proof.
  intros Hne. induction l as [|r l IH]; intros d k Hrd Hnd Hall; cbn [requeue].
  { exists d. rewrite Z.add_0_r. split_and!; try done. }
  rewrite fmap_cons in Hnd |- *. apply NoDup_cons in Hnd as [Hni Hnd]. apply Forall_cons in Hall as [Hr Hall].
  unfold running. case_decide as Hst; [rewrite filter_cons_True by done|rewrite filter_cons_False by done]; fold (running l).
  - fold (requeued r). destruct (nonces (jb_id r)) as [|nonce ns] eqn:Hno; [by destruct (Hne (jb_id r))|].
    destruct (now_queueable _ _ _ (ready_queue _ Hrd) Hr) as [Hqr _].
    destruct (write_progress d nonce ns (requeued r) Hrd (requeued_queueable _ Hqr)) as (d1 & Hw & Hrd1 & Hwr).
    destruct (IH d1 (k + 1) Hrd1 Hnd) as (d2 & Hrun & Hrd2 & Hset & Hnow).
    { rewrite Forall_forall in Hall |- *. intros r' Hr'. rewrite (wrote_now_eq _ _ _ _ Hwr), decide_False; [by apply Hall|].
      cbn. intros Heq. apply Hni. rewrite <-Heq. by apply list_elem_of_fmap_2. }
    exists d2. unfold st_bind. rewrite Hw, Hrun. split; [do 2 f_equal; cbn [length]; lia|]. split; [done|].
    split; [intros _; apply Hset; by eapply wrote_settled|]. intros id. rewrite Hnow, (wrote_now_eq _ _ _ _ Hwr). cbn [jb_id requeued set_state].
    destruct (decide (id = jb_id r)) as [->|Hid].
    + rewrite decide_False by done. rewrite decide_True by (by left). rewrite Hr. cbn. unfold restarted. by rewrite decide_True.
    + destruct (decide (id ∈ jb_id <$> l)); [rewrite decide_True by (by right)|rewrite decide_False by (rewrite elem_of_cons; tauto)]; done.
  - destruct (IH d k Hrd Hnd Hall) as (d2 & Hrun & Hrd2 & Hset & Hnow). exists d2. split_and!; try done.
    intros id. rewrite Hnow. destruct (decide (id = jb_id r)) as [->|Hid].
    + rewrite decide_False by done. rewrite decide_True by (by left). rewrite Hr. cbn. unfold restarted. by rewrite decide_False.
    + destruct (decide (id ∈ jb_id <$> l)); [rewrite decide_True by (by right)|rewrite decide_False by (rewrite elem_of_cons; tauto)]; done.
Qed.

Lemma entry_utf8 d p : queue_ok dir d → p ∈ entries dir d → WorkspaceStore.is_utf8 (WorkspaceStore.file_name p) = true.
Proof.
  intros Hq Hp. destruct (entry_cases dir d p Hq Hp) as [(id & _ & -> & _)|(id & nonce & ->)];
    [apply job_name_utf8|apply temporary_name_utf8].
Qed.
Lemma remove_temporaries_progress l : ∀ d removed,
  d_faults d = [] → NoDup l → Forall (λ p, WorkspaceStore.is_utf8 (WorkspaceStore.file_name p) = true ∧ is_Some (d_names d !! p)) l →
  ∃ rem d', remove_temporaries l removed d = (Ok rem, d') ∧ d_faults d' = [] ∧ (rem = false → removed = false ∧ d' = d) ∧
    ∀ p, d_names d' !! p =
      if decide (p ∈ l ∧ is_temporary_name (WorkspaceStore.file_name p) = true) then None else d_names d !! p.
Proof.
  induction l as [|p l IH]; intros d removed Hf Hnd Hall; cbn [remove_temporaries].
  { exists removed, d. split_and!; done. }
  apply NoDup_cons in Hnd as [Hni Hnd]. apply Forall_cons in Hall as [[Hu [n Hn]] Hall].
  unfold st_bind at 1, st_lift at 1. rewrite Hu. cbn [ensure]. destruct (is_temporary_name _) eqn:Ht.
  - unfold st_bind, jio, st_map_err, remove_file, io, pop_fault. rewrite Hf, Hn. cbn [map_err].
    destruct (IH (set_names (delete p (d_names d)) d) true) as (rem & d' & -> & Hf' & Hrem & Hd'); [done|done| |].
    { apply Forall_forall. intros q Hq. rewrite Forall_forall in Hall. destruct (Hall q Hq) as [Huq Hsq]. split; [done|].
      cbn. rewrite lookup_delete_ne; [done|]. by intros ->. }
    exists rem, d'. split_and!; try done.
    + intros Hr. by destruct (Hrem Hr).
    + intros q. rewrite Hd'. cbn. destruct (decide (q = p)) as [->|Hne].
      * rewrite lookup_delete_eq. destruct (decide (p ∈ p :: l ∧ _)) as [_|Hno]; [by destruct (decide _)|]. destruct Hno. split; [by left|done].
      * rewrite lookup_delete_ne by done. destruct (decide (q ∈ l ∧ _)) as [?|Hno]; [rewrite decide_True by set_solver; done|].
        rewrite decide_False by set_solver. done.
  - destruct (IH d removed Hf Hnd Hall) as (rem & d' & -> & Hf' & Hrem & Hd'). exists rem, d'. split_and!; try done.
    intros q. rewrite Hd'. destruct (decide (q ∈ l ∧ _)) as [?|Hno]; [rewrite decide_True by set_solver; done|].
    rewrite decide_False; [done|]. intros [[->|?]%elem_of_cons ?]; [congruence|tauto].
Qed.
Lemma remove_stale_progress d : d_faults d = [] → queue_ok dir d →
  ∃ d', remove_stale_temporaries_locked dir d = (Ok (), d') ∧ ready d' ∧ quiet dir d d' ∧ (settled d → settled d').
Proof.
  intros Hf Hq. destruct (remove_temporaries_progress (entries dir d) d false Hf (NoDup_dir_entries dir d))
    as (rem & d1 & Hrm & Hf1 & Hsame & Hnames).
  { apply Forall_forall. intros p Hp. split; [by apply (entry_utf8 d)|]. by apply elem_of_entries in Hp as [_ ?]. }
  assert (quiet dir d d1) as Q1.
  { eapply remove_temporaries_quiet; [done| |exact Hrm]. by intros p [? _]%elem_of_entries. }
  assert (tidy dir d1) as Ht.
  { intros id nonce. rewrite Hnames. destruct (d_names d !! temporary_path dir id nonce) as [n|] eqn:Hn; [|by destruct (decide _)].
    rewrite decide_True; [done|]. split; [|apply temporary_name_temporary]. apply elem_of_entries. split; [done|by exists n]. }
  assert (remove_stale_temporaries_locked dir d =
    (if rem then jio (sync_all_directory dir) else st_ret ()) d1) as ->.
  { unfold remove_stale_temporaries_locked, st_bind, jio at 1, st_map_err. rewrite read_dir_ok by done. cbn [map_err].
    by rewrite Hrm. }
  destruct rem.
  - assert (∃ d2, sync_all_directory dir d1 = (Ok (), d2) ∧ d_faults d2 = [] ∧ d_names d2 = d_names d1) as (d2 & Hs & Hf2 & Hn2).
    { eexists. unfold sync_all_directory, st_bind, io, pop_fault. rewrite Hf1, bool_decide_eq_true_2 by done. cbn [ensure].
      rewrite Hf1. done. }
    destruct (queue_sync_directory_quiet dir d1 _ _ (quiet_ok _ _ _ Q1) Hs) as [Q2 Hall]. exists d2. unfold jio, st_map_err. rewrite Hs.
    split_and!; [done| |by eapply queue_quiet_trans|].
    + split; [done|apply Q2|]. intros id nonce. by rewrite Hn2.
    + intros _ m Hm id. rewrite (Hall eq_refl m Hm), (quiet_now _ _ _ Q2). done.
  - destruct (Hsame eq_refl) as [_ ->]. exists d. split_and!; [done|done|by apply queue_quiet_refl|done].
Qed.

(** Startup on a sound queue. *)
Lemma recover_progress (nonces : JobId → list Z) d :
  (∀ id, nonces id ≠ []) → d_faults d = [] → queue_ok dir d → settled d →
  ∃ l0 d', recover_startup dir nonces d = (Ok (Z.of_nat (length (running l0))), d') ∧ lists dir d l0 ∧ ready d' ∧
    ∀ m, m ∈ spaces d' → ∀ id, view dir d' m id = restarted <$> now d id.
Proof.
  intros Hne Hf Hq Hset. destruct (remove_stale_progress d Hf Hq) as (d1 & H1 & Hrd1 & Q1 & Hset1).
  destruct (list_records_ok dir d1) as (l & H2 & Hl); [apply Hrd1..|].
  destruct (requeue_progress nonces l Hne d1 0 Hrd1) as (d2 & H3 & Hrd2 & Hset2 & Hnow).
  { by eapply lists_nodup. }
  { apply Forall_forall. by intros r Hr%Hl. }
  exists l, d2. unfold recover_startup, st_bind. rewrite H1, H2, H3. split; [done|].
  assert (lists dir d l) as Hld.
  { destruct Hl as [Hs Hin]. split; [done|]. intros r. rewrite Hin. by rewrite (quiet_now _ _ _ Q1). }
  split_and!; [done|done|]. intros m Hm id. rewrite (Hset2 (Hset1 Hset) m Hm), Hnow.
  case_decide as Hid; [by rewrite (quiet_now _ _ _ Q1)|]. destruct (now d1 id) as [r|] eqn:Hr.
  - exfalso. apply Hid. pose proof (now_id dir d1 id r (ready_queue _ Hrd1) Hr) as <-. apply list_elem_of_fmap_2. by apply Hl.
  - rewrite (quiet_now _ _ _ Q1) in Hr. by rewrite Hr.
Qed.
Lemma crash_settled_queue d d' : crash d d' → settled d'.
Proof. destruct 1. intros m ->%list_elem_of_singleton. done. Qed.

(** C16. Startup recovers the queue after any crash. Take a sound queue, any
    history of operations with any failing calls and crashes, and one more
    crash; if calls then work, [open_with_recovery] succeeds. Afterwards every
    name space shows the queue that was found, with exactly the [Running] jobs
    turned to [Queued] (their attempts and diagnostics kept) and counted in the
    result; and the queue can be listed. *)
Theorem startup_recovers (nonces : JobId → list Z) created parent d0 dc d :
  queue_ok dir d0 → rtc (queue_step dir) d0 dc → crash dc d → d_faults d = [] →
  (∀ id, nonces id ≠ []) → parent ≠ [] →
  ∃ l0 l d', open_with_recovery dir nonces created parent d = (Ok (Z.of_nat (length (running l0))), d') ∧
    lists dir d l0 ∧
    (∀ m, m ∈ spaces d' → ∀ id, view dir d' m id = restarted <$> now d id) ∧
    list_ dir d' = (Ok l, d') ∧ Forall (λ r, jb_state r ≠ Running) l.
Proof.
  intros Hq0 Hh Hc Hf Hne Hpar. pose proof (evolves_ok _ _ _ (history_evolves _ _ _ Hq0 Hh)) as Hqc.
  pose proof (evolves_ok _ _ _ (crash_evolves _ _ _ Hqc Hc)) as Hq.
  set (d1 := if created then (sync_all_directory parent d).2 else d).
  assert (open_with_recovery dir nonces created parent d = recover_startup dir nonces d1 ∧ same_files d d1 ∧ d_faults d1 = [])
    as (-> & Hs & Hf1).
  { unfold open_with_recovery, create_dir_all, st_bind, jio, st_map_err, io, pop_fault. rewrite Hf. cbn [map_err]. rewrite Hf.
    cbn [map_err]. unfold d1. destruct created; [|done].
    unfold sync_all_directory, st_bind, io, pop_fault. rewrite Hf, bool_decide_eq_true_2 by done. cbn [ensure]. rewrite Hf.
    cbn [map_err snd]. split; [done|]. split; [|done]. destruct Hc. done. }
  destruct (recover_progress nonces d1 Hne Hf1) as (l0 & d' & Hrun & Hl0 & Hrd & Hv).
  { apply (quiet_ok dir d). by apply queue_quiet_same. }
  { intros m Hm id. pose proof (crash_settled_queue _ _ Hc) as Hset. unfold spaces in Hm.
    rewrite (same_names _ _ Hs), (same_pending _ _ Hs) in Hm. specialize (Hset m Hm id).
    unfold view, content, data in *. by rewrite (same_inodes _ _ Hs), (same_names _ _ Hs). }
  destruct (list_records_ok dir d') as (l & Hl & Hls); [apply Hrd..|]. exists l0, l, d'. split_and!; [done| | |done|].
  - destruct Hl0 as [Hs0 Hin]. split; [done|]. intros r. by rewrite Hin, (now_same _ _ _ _ Hs).
  - intros m Hm id. by rewrite (Hv m Hm), (now_same _ _ _ _ Hs).
  - apply Forall_forall. intros r Hr%Hls. rewrite (Hv _ ltac:(by left)) in Hr. apply fmap_Some in Hr as (r0 & _ & ->).
    unfold restarted. by case_decide.
Qed.

(** ** Execution *)

Lemma capacity_size r : execution_failure_capacity r ≠ 0 →
  JOB_HEADER_LEN + blen (jb_kind r) + blen (jb_payload r) + execution_failure_capacity r + JOB_TRAILER_LEN = MAX_JOB_RECORD_LEN ∧
  0 < execution_failure_capacity r.
Proof. unfold execution_failure_capacity, saturating_sub, blen, JOB_HEADER_LEN, JOB_TRAILER_LEN, MAX_JOB_RECORD_LEN. lia. Qed.
(** A record with another error that fits stays one the queue may hold. *)
Lemma set_state_queueable r s a e : queueable r → is_u32 a → a ≠ 0 →
  e ≠ Some [] → (s = Succeeded → e = None) → (s = Failed → e ≠ None) →
  blen (default [] e) ≤ Z.max (blen (error_bytes r)) (execution_failure_capacity r) →
  queueable (set_state r s a e).
Proof.
  intros ([Hid _] & (Hk & Hsz & _)%validate_iff & Hs & Hc) Ha Hnz He Hsu Hfa Hl.
  pose proof (capacity_size r Hc) as [Hcs Hpos].
  assert (job_size (set_state r s a e) ≤ MAX_JOB_RECORD_LEN) as Hs'.
  { unfold job_size in Hs |- *. unfold error_bytes at 1. cbn [jb_kind jb_payload jb_last_error set_state]. lia. }
  split; [by split|]. split; [|by split]. apply validate_iff. split_and!; cbn; try done; try (by apply Hsz); [|by right].
  unfold error_bytes. cbn [jb_last_error set_state].
  unfold blen, JOB_HEADER_LEN, JOB_TRAILER_LEN, MAX_JOB_RECORD_LEN in *. destruct Hsz as (_ & _ & Hsz). lia.
Qed.
Lemma bounded_error_ok r e : execution_failure_capacity r ≠ 0 →
  bounded_handler_error r e ≠ [] ∧ blen (bounded_handler_error r e) ≤ execution_failure_capacity r.
Proof.
  intros [_ Hpos]%capacity_size. unfold bounded_handler_error, blen. rewrite length_take. split; [|lia].
  set (m := if decide (e = []) then _ else e). assert (m ≠ []) as Hm by (unfold m; by case_decide).
  destruct m as [|x m]; [done|]. destruct (Z.to_nat _) eqn:Hz; [lia|done].
Qed.

(** One record changed, with calls that work. *)
Lemma update_progress d nonce nonces id change r r' :
  ready d → now d id = Some r → change r = Ok r' → queueable r' →
  ∃ d', update dir (nonce :: nonces) id change d = (Ok r', d') ∧ ready d' ∧ wrote dir d r' true d'.
Proof.
  intros Hrd Hr Hch Hq. destruct (write_progress d nonce nonces r' Hrd Hq) as (d' & Hw & Hrd' & Hwr).
  exists d'. unfold update, st_bind, st_lift, st_ret. rewrite read_record_ok, Hr, Hch, Hw by apply Hrd. done.
Qed.

(** The first queued job that is accepted, and its claimed record. *)
Definition next_job (matches : JobRecord → bool) (l : list JobRecord) : option JobRecord :=
  List.find (λ r, bool_decide (jb_state r = Queued) && matches r) l.
Definition claimed (r : JobRecord) : JobRecord := set_state r Running (jb_attempts r + 1) (jb_last_error r).
(** What is recorded of a handler's result. *)
Definition outcome (c : JobRecord) (h : HandlerResult) : JobRecord :=
  match h with
  | Handled => set_state c Succeeded (jb_attempts c) None
  | HandlerFailed message => set_state c Failed (jb_attempts c) (Some (bounded_handler_error c message))
  | HandlerPanicked => set_state c Failed (jb_attempts c) (Some (bounded_handler_error c (b_ "job handler panicked")))
  end.
Definition reported (c : JobRecord) (h : HandlerResult) : JobExecutionOutcome :=
  match h with
  | Handled => JobSucceeded (outcome c h)
  | HandlerFailed _ => JobFailed (outcome c h) HandlerError
  | HandlerPanicked => JobFailed (outcome c h) HandlerPanic
  end.

Lemma claimed_queueable r : queueable r → jb_attempts r + 1 < 2 ^ 32 → queueable (claimed r).
Proof.
  intros Hq Ha. pose proof Hq as ([_ Hu] & (_ & _ & He & _)%validate_iff & _). unfold in_width in Hu.
  apply set_state_queueable; try done; [unfold in_width; lia|lia|]. unfold error_bytes. lia.
Qed.
Lemma outcome_queueable r h : queueable r → jb_attempts r + 1 < 2 ^ 32 → queueable (outcome (claimed r) h).
Proof.
  intros Hq Ha. pose proof (claimed_queueable r Hq Ha) as Hc. pose proof Hc as ([_ Hu] & _ & _ & Hcap).
  pose proof Hq as ([_ Hu0] & _). unfold in_width in Hu0.
  assert (∀ e, queueable (set_state (claimed r) Failed (jb_attempts (claimed r)) (Some (bounded_handler_error (claimed r) e)))) as Hfail.
  { intros e. destruct (bounded_error_ok (claimed r) e Hcap) as [Hne Hl].
    apply set_state_queueable; try done; [cbn; lia|congruence|]. etrans; [exact Hl|lia]. }
  destruct h; [|apply Hfail..]. apply set_state_queueable; try done; [cbn; lia|].
  etrans; [|apply Z.le_max_l]. unfold blen. cbn. lia.
Qed.

Lemma claim_progress d nonce nonces matches :
  ready d → ∃ l, lists dir d l ∧
    match next_job matches l with
    | None => claim_next_matching dir (nonce :: nonces) matches d = (Ok None, d)
    | Some r => jb_attempts r + 1 < 2 ^ 32 →
        ∃ d', claim_next_matching dir (nonce :: nonces) matches d = (Ok (Some (claimed r)), d') ∧ ready d' ∧
          queueable r ∧ jb_state r = Queued ∧ wrote dir d (claimed r) true d'
    end.
Proof.
  intros Hrd. destruct (list_records_ok dir d) as (l & Hl & Hls); [apply Hrd..|]. exists l. split; [done|].
  assert (claim_next_matching dir (nonce :: nonces) matches d = match next_job matches l with
    | None => st_ret None
    | Some record =>
        _ ⇐ st_lift (ensure_execution_failure_space record);
        record ⇐ st_lift (begin_attempt record);
        _ ⇐ write_record_locked dir (nonce :: nonces) record;
        st_ret (Some record)
    end d) as -> by (unfold claim_next_matching, st_bind at 1; by rewrite Hl).
  destruct (next_job matches l) as [r|] eqn:Hn; [|done]. intros Ha.
  apply find_some in Hn as [Hin%list_elem_of_In Hst]. apply andb_true_iff in Hst as [Hst%bool_decide_eq_true _].
  apply Hls in Hin. destruct (now_queueable _ _ _ (ready_queue _ Hrd) Hin) as [Hq _]. pose proof Hq as (_ & _ & _ & Hcap).
  destruct (write_progress d nonce nonces (claimed r) Hrd (claimed_queueable r Hq Ha)) as (d' & Hw & Hrd' & Hwr).
  exists d'. unfold st_bind, st_lift, ensure_execution_failure_space. rewrite bool_decide_eq_true_2 by done. cbn [ensure].
  unfold begin_attempt. rewrite decide_True by done. cbn [ok_or mbind result_bind]. fold (claimed r). by rewrite Hw.
Qed.

(** C39. A claimed job ends with its outcome on disk. With calls that work and a
    directory without temporary files, [execute_next_matching] never fails
    unless the attempts counter is full: with no queued job that is accepted it
    changes nothing and calls no handler; otherwise it takes the accepted
    queued job of least identifier, hands the handler its [Running] record with
    the attempt counted, and whatever the handler does, an error of any length
    or a panic included, the job is then recorded as [Succeeded], or as
    [Failed] with a diagnostic that fits, in every name space a crash may find;
    every other job is unchanged. *)
Theorem execution_recorded {H} (handle : JobRecord → H → HandlerResult * H) matches d h n1 ns1 n2 ns2 :
  ready d → ∃ l, lists dir d l ∧
    match next_job matches l with
    | None => execute_next_matching dir (n1 :: ns1) (n2 :: ns2) matches handle (d, h) = (Ok Idle, (d, h))
    | Some r => jb_attempts r + 1 < 2 ^ 32 →
        let '(result, h') := handle (claimed r) h in
        ∃ d', execute_next_matching dir (n1 :: ns1) (n2 :: ns2) matches handle (d, h) =
            (Ok (reported (claimed r) result), (d', h')) ∧ ready d' ∧
          ∀ m, m ∈ spaces d' → ∀ id,
            view dir d' m id = if decide (id = jb_id r) then Some (outcome (claimed r) result) else now d id
    end.
Proof.
  intros Hrd. destruct (claim_progress d n1 ns1 matches Hrd) as (l & Hl & Hc). exists l. split; [done|].
  unfold execute_next_matching. cbn [fst snd]. destruct (next_job matches l) as [r|]; [|by rewrite Hc].
  intros Ha. destruct (Hc Ha) as (d1 & -> & Hrd1 & Hq & Hst & Hw1). destruct (handle (claimed r) h) as [res h'].
  assert (now d1 (jb_id (claimed r)) = Some (claimed r)) as Hn1 by (rewrite (wrote_now_eq _ _ _ _ Hw1); by rewrite decide_True).
  pose proof (outcome_queueable r res Hq Ha) as Hoq.
  assert (∀ d2, wrote dir d1 (outcome (claimed r) res) true d2 → ∀ m, m ∈ spaces d2 → ∀ id,
    view dir d2 m id = if decide (id = jb_id r) then Some (outcome (claimed r) res) else now d id) as Hfin.
  { intros d2 Hw2 m Hm id. rewrite (wrote_durable _ _ _ _ _ Hw2 eq_refl m Hm).
    assert (jb_id (outcome (claimed r) res) = jb_id r) as -> by (by destruct res). destruct (decide (id = jb_id r)) as [|Hne]; [done|].
    rewrite (wrote_now_eq _ _ _ _ Hw1). by rewrite decide_False. }
  assert (∀ e, bounded_handler_error (claimed r) e ≠ []) as Hb.
  { intros e. apply bounded_error_ok. by destruct (claimed_queueable r Hq Ha) as (_ & _ & _ & ?). }
  destruct res as [|message|]; cbn [outcome reported] in *.
  - edestruct (update_progress d1 n2 ns2) as (d2 & Hu & Hrd2 & Hw2); [done|exact Hn1| |exact Hoq|].
    2: { exists d2. unfold succeed, st_bind at 1. rewrite Hu. split_and!; [done|done|by apply Hfin]. }
    reflexivity.
  - edestruct (update_progress d1 n2 ns2) as (d2 & Hu & Hrd2 & Hw2); [done|exact Hn1| |exact Hoq|].
    2: { exists d2. unfold fail, st_bind at 1 2, st_lift at 1. rewrite bool_decide_eq_true_2 by apply Hb. cbn [ensure].
         rewrite Hu. split_and!; [done|done|by apply Hfin]. }
    reflexivity.
  - edestruct (update_progress d1 n2 ns2) as (d2 & Hu & Hrd2 & Hw2); [done|exact Hn1| |exact Hoq|].
    2: { exists d2. unfold fail, st_bind at 1 2, st_lift at 1. rewrite bool_decide_eq_true_2 by apply Hb. cbn [ensure].
         rewrite Hu. split_and!; [done|done|by apply Hfin]. }
    reflexivity.
Qed.
End Live.

(** ** Runs *)

Lemma demo_history_started : rtc (queue_step demo_dir) demo_empty demo_started.2.
Proof.
  apply (rtc_l _ _ demo_enqueued.2); [left; by exists (DoEnqueueWithId [0] demo_id (b_ "scrub") [])|].
  apply (rtc_l _ _ demo_restarted); [right; apply crash_synced; vm_compute; reflexivity|].
  apply rtc_once. left. by exists (DoStart [1] demo_id).
Qed.
(** The interrupted start is found and requeued. *)
Lemma startup_recovers_witness :
  (open_with_recovery demo_dir (λ _, [2]) true (b_ "state") demo_crashed).1 = Ok 1 ∧
  ∃ l0 l d', open_with_recovery demo_dir (λ _, [2]) true (b_ "state") demo_crashed = (Ok (Z.of_nat (length (running l0))), d') ∧
    list_ demo_dir d' = (Ok l, d') ∧ Forall (λ r, jb_state r ≠ Running) l.
Proof.
  split; [vm_compute; reflexivity|].
  destruct (startup_recovers demo_dir ltac:(discriminate) (λ _, [2]) true (b_ "state") demo_empty demo_started.2 demo_crashed)
    as (l0 & l & d' & Hr & _ & _ & Hl & Hall).
  - exact demo_empty_ok.
  - exact demo_history_started.
  - apply crash_synced. vm_compute. reflexivity.
  - reflexivity.
  - discriminate.
  - discriminate.
  - exists l0, l, d'. split; [exact Hr|]. split; [exact Hl|exact Hall].
Defined.

Definition demo_executed :=
  execute_next_matching demo_dir [1] [2] (λ _, true) (λ _ (calls : Z), (HandlerPanicked, calls + 1)) (demo_enqueued.2, 0).
Lemma demo_ready : ready demo_dir demo_enqueued.2.
Proof.
  split.
  - vm_compute. reflexivity.
  - destruct (run_op_evolves demo_dir demo_empty (DoEnqueueWithId [0] demo_id (b_ "scrub") []) demo_enqueued.1 demo_enqueued.2)
      as [[Hq _] _]; [exact demo_empty_ok|reflexivity|unfold demo_enqueued; by destruct (run_op _ _ _)|exact Hq].
  - assert (bool_decide (d_names demo_enqueued.2 = {[job_path demo_dir demo_id := 0%nat]}) = true) as Hn%bool_decide_eq_true
      by (vm_compute; reflexivity).
    intros id nonce. rewrite Hn. by apply lookup_singleton_ne.
Qed.
(** A handler that panics. *)
Lemma execution_recorded_witness :
  ready demo_dir demo_enqueued.2 ∧
  ∃ l, lists demo_dir demo_enqueued.2 l ∧
    match next_job (λ _, true) l with
    | None => demo_executed = (Ok Idle, (demo_enqueued.2, 0))
    | Some r => jb_attempts r + 1 < 2 ^ 32 → ∃ d',
        demo_executed = (Ok (reported (claimed r) HandlerPanicked), (d', 1)) ∧
        view demo_dir d' (d_names d') (jb_id r) = Some (outcome (claimed r) HandlerPanicked)
    end.
Proof.
  split; [exact demo_ready|].
  destruct (execution_recorded demo_dir ltac:(discriminate) (λ _ (calls : Z), (HandlerPanicked, calls + 1)) (λ _, true)
    demo_enqueued.2 0 1 [] 2 [] demo_ready) as (l & Hl & Hm).
  exists l. split; [exact Hl|]. destruct (next_job _ l) as [r|]; [|exact Hm]. intros Ha. destruct (Hm Ha) as (d' & Hx & _ & Hv).
  exists d'. split; [exact Hx|]. rewrite (Hv _ (list_elem_of_here _ _)). by rewrite decide_True.
Defined.
End JobsLiveSpec.
