(* ===== verification/JobJournal.v ===== *)
(** * The catalog's mirror of the job queue: [reflink-forest-daemon/src/lib.rs]

    [CatalogJobJournal]: operations of the queue whose result is then published
    in the catalog. Module [JobJournalSpec] relates the two after every
    operation. *)

From Stdlib Require Import ZArith Lia Strings.Byte Strings.String.
From stdpp Require Import base tactics list gmap strings relations sorting.
From S2P Require Import Prelude Order Crc Core Format Codec CatalogCodec CatalogCodecSpec Catalog CatalogSpec RocksSpec Chunk CatalogInterface Disk DiskSpec Store Git Reader Snapshot PublicationSpec Cache CacheSpec Checkout Workspace WorkspaceStore Jobs JobsSpec DirectorySpec JobsQueueSpec JobsOpsSpec.
Import Crc Core Codec CatalogCodec Catalog Chunk Disk Store Git Reader Jobs.

#[local] Open Scope Z_scope.

Module JobJournal.

Inductive CatalogJobJournalError :=
| CjJob (e : JobError)
| CjCatalog (e : CatalogError)
| MissingSnapshot (id : JobId)
| SnapshotIdMismatch (key record : JobId).

Section Journal.
Context `{Catalog C} (dir : bytes).
Abbreviation JJ := (ST (Sys C) CatalogJobJournalError).
Definition on_store {A} (act : ST Disk JobError A) : JJ A := λ s,
  let '(r, d) := act (sys_disk s) in (map_err CjJob r, mkSys d (sys_catalog s)).

Definition mirror_record (record : JobRecord) : JJ unit :=
  snapshot ⇐ st_lift (map_err CjJob (encode_job_record record));
  λ s, let '(r, c) := apply (sys_catalog s) (put_job batch_new (job_bytes (jb_id record)) snapshot) in
       (map_err CjCatalog r, mkSys (sys_disk s) c).
Fixpoint mirror_records (records : list JobRecord) : JJ unit :=
  match records with
  | [] => st_ret ()
  | r :: records => _ ⇐ mirror_record r; mirror_records records
  end.
Definition mirror_store : JJ Z :=
  records ⇐ on_store (list_ dir);
  _ ⇐ mirror_records records;
  st_ret (Z.of_nat (length records)).
Definition read_snapshot (c : C) (id : JobId) : result CatalogJobJournalError JobRecord :=
  snapshot ← ok_or (job c (job_bytes id)) (MissingSnapshot id);
  record ← map_err CjJob (decode_job_record snapshot);
  _ ← ensure (bool_decide (jb_id record = id)) (SnapshotIdMismatch id (jb_id record));
  Ok record.

(** A mutation of the queue, then its publication. *)
Definition mirrored (act : ST Disk JobError JobRecord) : JJ JobRecord :=
  record ⇐ on_store act;
  _ ⇐ mirror_record record;
  st_ret record.
Definition journal_enqueue (nonces : list Z) (ids : list (result IoErrorKind JobId)) (kind payload : bytes) : JJ JobRecord :=
  mirrored (enqueue dir nonces ids kind payload).
Definition journal_enqueue_with_id (nonces : list Z) (id : JobId) (kind payload : bytes) : JJ JobRecord :=
  mirrored (enqueue_with_id dir nonces id kind payload).
Definition journal_start (nonces : list Z) (id : JobId) : JJ JobRecord := mirrored (start dir nonces id).
Definition journal_succeed (nonces : list Z) (id : JobId) : JJ JobRecord := mirrored (succeed dir nonces id).
Definition journal_fail (nonces : list Z) (id : JobId) (error : bytes) : JJ JobRecord := mirrored (fail dir nonces id error).
Definition journal_retry (nonces : list Z) (id : JobId) : JJ JobRecord := mirrored (retry dir nonces id).
End Journal.
End JobJournal.

(** * What the catalog's mirror guarantees *)

Import Crc Core Codec CatalogCodec CatalogCodecSpec Catalog CatalogSpec RocksSpec CatalogInterface Chunk Disk DiskSpec Store Git Reader PublicationSpec DirectorySpec Jobs JobsSpec JobsQueueSpec JobsListSpec JobsOpsSpec JobJournal.

Module JobJournalSpec.

#[local] Set Warnings "-clear-no-such-hyp".

Section Journal.
Context `{CatalogLaws C} (dir : bytes).

(** The catalog has the snapshot of [r]. *)
Definition mirrors (f : View) (r : JobRecord) : Prop :=
  ∃ b, encode_job_record r = Ok b ∧ f (KJob (job_bytes (jb_id r))) = Some (VOpaque b).

Lemma mirror_record_spec (s : Sys C) f r res s' :
  holds_view (sys_catalog s) f → mirror_record r s = (res, s') →
  sys_disk s' = sys_disk s ∧
  ∃ f', holds_view (sys_catalog s') f' ∧ (same f' f ∨ mirrors f' r) ∧
    (∀ k, k ≠ KJob (job_bytes (jb_id r)) → f' k = f k) ∧ (is_ok res = true → mirrors f' r).
Proof.
  intros Hv. unfold mirror_record, st_bind, st_lift. destruct (encode_job_record r) as [b|e] eqn:He; cbn [map_err].
  2: { intros Heq. injection Heq as <- <-. split; [done|]. exists f. split_and!; try done. by left. }
  set (batch := put_job _ _ _).
  assert (Forall RocksSpec.op_wf batch) as Hb by (apply Forall_singleton; split; [done|by intros ? [= <-]]).
  pose proof (view_apply (sys_catalog s) f batch Hv Hb) as Ha.
  assert (∀ f', same f' (batch_effect f batch) →
    mirrors f' r ∧ ∀ k, k ≠ KJob (job_bytes (jb_id r)) → f' k = f k) as Heff.
  { intros f' Hs. split.
    - exists b. split; [done|]. rewrite (Hs _). unfold batch_effect, write_effect. cbn. by rewrite decide_True.
    - intros k Hk. rewrite (Hs _). unfold batch_effect, write_effect. cbn. by rewrite decide_False. }
  destruct (apply (sys_catalog s) batch) as [[[]|e] c]; cbn [map_err]; intros Heq; injection Heq as <- <-; (split; [done|]).
  - destruct Ha as (_ & f' & Hv' & [Hm Ho]%Heff). exists f'. split_and!; [done|by right|done|done].
  - destruct Ha as (f' & Hv' & [Hs|[Hm Ho]%Heff]); exists f'; (split_and!; [done| | |done]); [by left| |by right|done].
    intros k _. apply Hs.
Qed.
(** A mirrored record is read back, unless the catalog does not answer. *)
Lemma read_mirrored (c : C) f r : job_wf r → holds_view c f → mirrors f r →
  read_snapshot c (jb_id r) = match job c (job_bytes (jb_id r)) with Some _ => Ok r | None => Err (MissingSnapshot (jb_id r)) end.
Proof.
  intros Hwf Hv (b & He & Hf). unfold read_snapshot. destruct (job c (job_bytes (jb_id r))) as [b'|] eqn:Hj; [|done].
  pose proof (view_job c f _ _ Hv Hj) as Hf'. assert (b' = b) as -> by congruence. cbn [ok_or]. rewrite bind_Ok.
  rewrite (proj2 (decode_job_iff b r)) by done. cbn [map_err]. by rewrite bind_Ok, bool_decide_eq_true_2.
Qed.

(** What a journal operation returns is durable in the queue and in the catalog. *)
Lemma mirrored_spec (act : ST Disk JobError JobRecord) (s : Sys C) f res s' :
  (∀ res1 d1, act (sys_disk s) = (res1, d1) → evolves dir (sys_disk s) d1 ∧ ∀ r, res1 = Ok r → durable dir d1 r) →
  holds_view (sys_catalog s) f → mirrored act s = (res, s') →
  evolves dir (sys_disk s) (sys_disk s') ∧
  ∃ f', holds_view (sys_catalog s') f' ∧ (∀ k, (∀ id, k ≠ KJob id) → f' k = f k) ∧
    ∀ r, res = Ok r → durable dir (sys_disk s') r ∧ mirrors f' r.
Proof.
  intros Hact Hv. unfold mirrored, st_bind, on_store, st_ret.
  destruct (act (sys_disk s)) as [res1 d1]. destruct (Hact _ _ eq_refl) as [He Hd].
  destruct res1 as [r|e]; cbn [map_err].
  2: { intros Heq. injection Heq as <- <-. split; [done|]. exists f. done. }
  destruct (mirror_record r (mkSys d1 (sys_catalog s))) as [res2 s2] eqn:Hm.
  apply (mirror_record_spec _ f) in Hm as (Hdisk & f' & Hv' & _ & Ho & Hok); [|done]. cbn in Hdisk.
  destruct res2 as [[]|e]; intros Heq; injection Heq as <- <-; rewrite Hdisk; (split; [done|]); exists f'; (split_and!; [done| |]).
  - intros k Hk. by apply Ho.
  - intros r' [= <-]. split; [by apply Hd|by apply Hok].
  - intros k Hk. by apply Ho.
  - done.
Qed.
Lemma mirror_records_spec l : ∀ (s : Sys C) f res s', holds_view (sys_catalog s) f → NoDup (jb_id <$> l) →
  mirror_records l s = (res, s') → sys_disk s' = sys_disk s ∧
  ∃ f', holds_view (sys_catalog s') f' ∧ (∀ k, (∀ id, id ∈ jb_id <$> l → k ≠ KJob (job_bytes id)) → f' k = f k) ∧
    (is_ok res = true → Forall (mirrors f') l).
Proof.
  induction l as [|r l IH]; intros s f res s' Hv Hnd; cbn [mirror_records].
  { intros Heq. injection Heq as <- <-. split; [done|]. exists f. split_and!; done. }
  rewrite fmap_cons in Hnd |- *. apply NoDup_cons in Hnd as [Hni Hnd].
  unfold st_bind. destruct (mirror_record r s) as [res1 s1] eqn:H1.
  apply (mirror_record_spec s f) in H1 as (Hd1 & f1 & Hv1 & _ & Ho1 & Hok1); [|done].
  destruct res1 as [[]|e].
  2: { intros Heq. injection Heq as <- <-. split; [done|]. exists f1. split_and!; [done| |done].
       intros k Hk. apply Ho1, Hk. by left. }
  intros H2. apply (IH _ f1) in H2 as (Hd2 & f2 & Hv2 & Ho2 & Hok2); [|done..]. split; [congruence|].
  exists f2. split_and!; [done| |].
  - intros k Hk. rewrite Ho2, Ho1; [done|apply Hk; by left|]. intros id Hid. apply Hk. by right.
  - intros Hok. constructor; [|by apply Hok2]. destruct (Hok1 eq_refl) as (b & He & Hb). exists b. split; [done|].
    rewrite Ho2; [done|]. intros id Hid [= Heq]. apply Hni. destruct (jb_id r) as [x], id as [y]. cbn in Heq. by subst.
Qed.

(** The mirror is complete after startup reconciliation. *)
Lemma mirror_store_complete (s : Sys C) f k s' :
  queue_ok dir (sys_disk s) → holds_view (sys_catalog s) f → mirror_store dir s = (Ok k, s') →
  same_files (sys_disk s) (sys_disk s') ∧
  ∃ l f', lists dir (sys_disk s) l ∧ k = Z.of_nat (length l) ∧ holds_view (sys_catalog s') f' ∧
    ∀ id r, view dir (sys_disk s) (d_names (sys_disk s)) id = Some r →
      mirrors f' r ∧ read_snapshot (sys_catalog s') id =
        match job (sys_catalog s') (job_bytes id) with Some _ => Ok r | None => Err (MissingSnapshot id) end.
Proof.
  intros Hq Hv. unfold mirror_store, st_bind at 1, on_store.
  destruct (list_ dir (sys_disk s)) as [r1 d1] eqn:H1. unfold list_ in H1. apply list_records_inv in H1 as [Hs Hl]; [|done].
  destruct r1 as [l|]; cbn [map_err]; [|done]. specialize (Hl l eq_refl). unfold st_bind.
  destruct (mirror_records l _) as [r2 s2] eqn:H2. apply (mirror_records_spec l _ f) in H2 as (Hd2 & f' & Hv' & _ & Hok);
    [|done|by eapply lists_nodup].
  destruct r2 as [[]|]; [|done]. intros Heq. injection Heq as <- <-. cbn in Hd2. rewrite Hd2. split; [done|].
  exists l, f'. split_and!; [done|done|done|]. intros id r Hr.
  destruct (view_inv dir _ _ _ _ Hq ltac:(by left) Hr) as (n & b & _ & _ & _ & (Hwf & _) & <-).
  specialize (Hok eq_refl). rewrite Forall_forall in Hok. assert (mirrors f' r) as Hm by (apply Hok; by apply Hl).
  split; [done|]. by eapply read_mirrored.
Qed.
End Journal.
End JobJournalSpec.
