(* ===== verification/StateFile.v ===== *)
(** * One durable record in a file: [reflink-forest-daemon/src/lib.rs]

    The scrub schedule and the migration journal keep one fixed-size record
    each, with the same code: read at startup, replaced through a temporary
    file, stale temporary files removed. Module [StateFileSpec] proves that a
    replacement is atomic under failures and crashes. *)

From Stdlib Require Import ZArith Lia Strings.Byte Strings.String.
From stdpp Require Import base tactics list gmap strings.
From S2P Require Import Prelude Order Crc Core Format Codec CatalogCodec Catalog Chunk Disk DiskSpec Store Git Reader PublicationSpec Cache Checkout Workspace WorkspaceStore Jobs DirectorySpec JobsQueueSpec.
Import Crc Core Codec CatalogCodec Catalog Chunk Disk Git Reader.

#[local] Open Scope Z_scope.

Module StateFile.

Definition TEMP_SUFFIX : bytes := b_ ".tmp".

(** How an injected handler ends, besides its own effects. *)
Inductive CallResult := CallOk | CallError | CallPanic.

Section File.
Context (root record_file temp_prefix : bytes).
Context {E : Type} (io_error : IoErrorKind → E) (unsafe_file : bytes → E).

Definition record_path : Path := mkPath root record_file None.
Definition temporary (nonce : Z) : Path := mkPath root (temp_prefix ++ Store.hex 16 nonce) (Some "tmp"%string).

(** A missing file is no record. *)
Definition read_record_bytes (expected_len : Z) : ST Disk E (option bytes) := λ d,
  match open_file record_path d with
  | (Err NotFound, d) => (Ok None, d)
  | (Err e, d) => (Err (io_error e), d)
  | (Ok metadata, d) =>
      (_ ⇐ st_lift (ensure (bool_decide (blen (data d metadata) = expected_len)) (unsafe_file record_file));
       file ⇐ st_map_err io_error (open_file record_path);
       bytes ⇐ st_map_err io_error (read_file file);
       st_ret (Some bytes)) d
  end.

(** [nonces] are the values the counter gives, 32 in the code. *)
Fixpoint replace (bytes : bytes) (nonces : list Z) : DiskIO unit :=
  match nonces with
  | [] => st_lift (Err AlreadyExists)
  | nonce :: nonces => λ d,
      match create_new (temporary nonce) d with
      | (Err AlreadyExists, d) => replace bytes nonces d
      | (Err e, d) => (Err e, d)
      | (Ok file, d) =>
          match (_ ⇐ write_at file 0 bytes;
                 _ ⇐ sync_file file;
                 _ ⇐ rename (temporary nonce) record_path;
                 sync_all_directory root) d with
          | (Ok _, d) => (Ok (), d)
          | (Err e, d) => (Err e, (remove_file (temporary nonce) d).2)
          end
      end
  end.

Definition is_temporary (name : bytes) : bool :=
  Jobs.starts_with name temp_prefix && WorkspaceStore.ends_with name TEMP_SUFFIX.
Fixpoint remove_temporaries (entries : list Path) (removed : bool) : ST Disk E bool :=
  match entries with
  | [] => st_ret removed
  | p :: entries =>
      let name := WorkspaceStore.file_name p in
      _ ⇐ st_lift (ensure (WorkspaceStore.is_utf8 name) (unsafe_file name));
      if is_temporary name then _ ⇐ st_map_err io_error (remove_file p); remove_temporaries entries true
      else remove_temporaries entries removed
  end.
Definition remove_stale_temporaries : ST Disk E unit :=
  entries ⇐ st_map_err io_error (Jobs.read_dir root);
  removed ⇐ remove_temporaries entries false;
  if removed : bool then st_map_err io_error (sync_all_directory root) else st_ret ().
End File.
End StateFile.

(** * What a state file guarantees

    Whatever fails, a crash finds the old or the new record, and a replacement
    that succeeded is found after any crash. *)

Import Crc Core Codec CatalogCodec Catalog Chunk Disk DiskSpec Git Reader PublicationSpec DirectorySpec StateFile.

Module StateFileSpec.

#[local] Set Warnings "-clear-no-such-hyp".

Section File.
Context (root record_file temp_prefix : bytes) (record_len : Z).
(** The record's name is not a temporary one. *)
Context (plain_name : is_temporary temp_prefix record_file = false).
Context {E : Type} (io_error : IoErrorKind → E) (unsafe_file : bytes → E).
Abbreviation record_path := (record_path root record_file).
Abbreviation temporary := (temporary root temp_prefix).

(** The file tracked is the record; its length is fixed. *)
Definition is_record (p : Path) : Prop := p = record_path.
Definition other_file (p : Path) : Prop := p ≠ record_path.
Definition record_content (p : Path) (b : bytes) : Prop := blen b = record_len.
Lemma is_record_dir p : is_record p → p_dir p = root.
Proof. by intros ->. Qed.
Lemma other_not_record p : other_file p → ¬ is_record p.
Proof. done. Qed.
Definition file_ok : Disk → Prop := dir_ok root is_record other_file record_content.
(** The record one name space shows. *)
Definition record (d : Disk) (m : Names) : option bytes := content d m record_path.
Abbreviation now d := (record d (d_names d)).
Abbreviation quiet := (DirectorySpec.quiet root is_record other_file record_content).

(** What a replacement by [b] may have done. *)
Record replaced (d : Disk) (b : bytes) (ok : bool) (d' : Disk) : Prop := {
  replaced_ok : file_ok d';
  replaced_spaces : ∀ m', m' ∈ spaces d' → (∃ m, m ∈ spaces d ∧ record d' m' = record d m) ∨ record d' m' = Some b;
  replaced_durable : ok = true → ∀ m', m' ∈ spaces d' → record d' m' = Some b }.
(** Nothing new is shown. *)
Record kept (d d' : Disk) : Prop := {
  kept_ok : file_ok d';
  kept_spaces : ∀ m', m' ∈ spaces d' → ∃ m, m ∈ spaces d ∧ record d' m' = record d m;
  kept_now : now d' = now d }.
Lemma quiet_kept d d' : quiet d d' → kept d d'.
Proof.
  intros [Hq Hn Hs]. split; [done| |by apply Hn]. intros m' (m & Hm & Hv)%Hs. exists m. split; [done|]. by apply Hv.
Qed.
Lemma kept_same d d' : file_ok d → same_files d d' → kept d d'.
Proof. intros. by apply quiet_kept, quiet_same. Qed.
Lemma kept_replaced d b d' : kept d d' → replaced d b false d'.
Proof. intros [Hq Hs _]. split; [done| |done]. intros m Hm. left. by apply Hs. Qed.

Lemma replace_replaced b nonces d res d' :
  blen b = record_len → file_ok d → replace root record_file temp_prefix b nonces d = (res, d') →
  replaced d b (is_ok res) d'.
Proof.
  intros Hlen Hq Hrep.
  assert (wrote root is_record other_file record_content d record_path b (is_ok res) d') as [Hq' _ Hs Hd].
  { revert d Hq Hrep. induction nonces as [|nonce nonces IH]; intros d Hq Hrep; cbn [replace] in Hrep.
    { injection Hrep as <- <-. by apply quiet_wrote, quiet_refl. }
    assert (other_file (temporary nonce)) as Ht by done. destruct (create_new _ d) as [rc d1] eqn:Hc.
    destruct (create_quiet _ _ _ _ other_not_record _ _ _ _ Ht Hq Hc) as [Q1 _].
    destruct rc as [n|e].
    2: { destruct e; try (injection Hrep as <- <-; by apply quiet_wrote).
         eapply quiet_then_wrote; [exact Q1|]. apply (IH _ (quiet_ok _ _ _ _ _ _ Q1) Hrep). }
    destruct (st_bind _ _ d1) as [res1 d2] eqn:Hbody.
    assert (wrote root is_record other_file record_content d record_path b (is_ok res1)
      (if is_ok res1 then d2 else (remove_file (temporary nonce) d2).2)) as Hw.
    { by apply (replace_attempt_wrote _ _ _ _ is_record_dir other_not_record _ _ _ _ n d1). }
    destruct res1 as [[]|e]; by injection Hrep as <- <-. }
  assert (∀ m, DirectorySpec.updated is_record d record_path b d' m → record d' m = Some b) as Hu.
  { intros m Hu. unfold record. rewrite Hu by done. by rewrite decide_True. }
  split; [done| |by eauto]. intros m Hm. destruct (Hs m Hm) as [(m0 & Hm0 & Hv)|]; [left|right; by apply Hu].
  exists m0. split; [done|]. by apply Hv.
Qed.

Lemma record_crash d d' : file_ok d → crash d d' →
  file_ok d' ∧ spaces d' = [d_names d'] ∧ ∃ m, m ∈ spaces d ∧ now d' = record d m.
Proof.
  intros Hq Hc. destruct (crash_content _ _ _ _ is_record_dir other_not_record d d' Hq Hc) as (Hq' & Hsp & m & Hm & Hv).
  split_and!; [done|done|]. exists m. split; [done|]. by apply Hv.
Qed.

(** ** Startup *)

Lemma remove_temporaries_kept l : ∀ d removed r d',
  file_ok d → remove_temporaries temp_prefix io_error unsafe_file l removed d = (r, d') → quiet d d'.
Proof.
  induction l as [|p l IH]; intros d removed r d' Hq; cbn [remove_temporaries].
  { intros [= <- <-]. by apply quiet_refl. }
  unfold st_bind at 1, st_lift at 1. destruct (ensure _ _) as [[]|]; [|intros [= <- <-]; by apply quiet_refl].
  destruct (is_temporary temp_prefix (WorkspaceStore.file_name p)) eqn:Ht; [|by apply IH]. unfold st_bind, st_map_err.
  destruct (remove_file p d) as [r1 d1] eqn:H1.
  assert (¬ is_record p) as Hp.
  { intros ->. unfold WorkspaceStore.file_name in Ht. cbn in Ht. rewrite app_nil_r in Ht. congruence. }
  pose proof (remove_quiet _ _ _ _ _ _ _ _ Hq Hp H1) as Q1.
  destruct r1; cbn [map_err]; [|by intros [= <- <-]]. intros H2. eapply quiet_trans; [exact Q1|].
  by eapply IH; [apply Q1|].
Qed.
Lemma remove_stale_kept d r d' : file_ok d → remove_stale_temporaries root temp_prefix io_error unsafe_file d = (r, d') → quiet d d'.
Proof.
  intros Hq. unfold remove_stale_temporaries, st_bind, st_map_err. destruct (Jobs.read_dir root d) as [r1 d1] eqn:H1.
  apply JobsListSpec.read_dir_inv in H1 as [Hs1 _].
  pose proof (quiet_same _ _ _ _ _ _ Hq Hs1) as Q1.
  destruct r1 as [l|]; cbn [map_err]; [|by intros [= <- <-]].
  destruct (remove_temporaries _ _ _ _ _ d1) as [r2 d2] eqn:H2. apply remove_temporaries_kept in H2 as Q2; [|apply Q1].
  pose proof (quiet_trans _ _ _ _ _ _ _ Q1 Q2) as Q12. destruct r2 as [[]|]; [|by intros [= <- <-]..].
  destruct (sync_all_directory root d2) as [r3 d3] eqn:H3. intros [= <- <-].
  destruct (sync_directory_quiet _ _ _ _ is_record_dir _ _ _ (quiet_ok _ _ _ _ _ _ Q12) H3) as [Q3 _]. by eapply quiet_trans.
Qed.
Lemma read_record_inv d r d' : read_record_bytes root record_file io_error unsafe_file record_len d = (r, d') →
  same_files d d' ∧
  ∀ o, r = Ok o → (∀ b, o = Some b → now d = Some b) ∧ (Forall (λ f, ∀ x, f = Some x → f_kind x ≠ NotFound) (d_faults d) → o = now d).
Proof.
  unfold read_record_bytes. intros Hr. destruct (open_file _ d) as [r1 d1] eqn:H1.
  assert (r1 = Err NotFound → Forall (λ f, ∀ x, f = Some x → f_kind x ≠ NotFound) (d_faults d) → now d = None) as Hnone.
  { intros -> Hall. unfold open_file, io, pop_fault in H1. destruct (d_faults d) as [|[f|] fs].
    - destruct (d_names d !! record_path) as [n|] eqn:Hn; [done|]. unfold record, content. by rewrite Hn.
    - injection H1 as Hf <-. apply Forall_cons in Hall as [Hf' _]. by destruct (Hf' f eq_refl).
    - cbn in H1. destruct (d_names d !! record_path) as [n|] eqn:Hn; [done|]. unfold record, content. by rewrite Hn. }
  apply open_file_spec in H1 as [Hs1 _].
  destruct r1 as [n1|e].
  2: { destruct e; injection Hr as <- <-; (split; [done|]); try done. intros o [= <-]. split; [done|].
       intros Hall. symmetry. by apply Hnone. }
  unfold st_bind, st_lift, st_ret, st_map_err in Hr. destruct (ensure _ _); [|by injection Hr as <- <-].
  destruct (open_file _ d1) as [r2 d2] eqn:H2.
  apply open_file_spec in H2 as [Hs2 Hn2]. pose proof (same_files_trans _ _ _ Hs1 Hs2) as Hs.
  destruct r2 as [n2|]; cbn [map_err] in Hr; [|by injection Hr as <- <-].
  destruct (read_file n2 d2) as [r3 d3] eqn:H3. apply read_file_spec in H3 as [Hs3 Hb].
  pose proof (same_files_trans _ _ _ Hs Hs3) as Hs'.
  destruct r3 as [b|]; cbn [map_err] in Hr; [|by injection Hr as <- <-]. injection Hr as <- <-. split; [done|].
  assert (now d = Some b) as Hnow.
  { unfold record, content. rewrite <-(same_names _ _ Hs1), (Hn2 _ eq_refl). cbn.
    by rewrite <-(same_files_data _ _ _ Hs), <-(Hb _ eq_refl). }
  intros o [= <-]. split; [by intros b' [= <-]|done].
Qed.
End File.

Lemma pair_first {A B} (x : A * B) a : x.1 = a → x = (a, x.2).
Proof. by intros <-; destruct x. Qed.
Lemma pair_second {A B} (x : A * B) b : x.2 = b → x = (x.1, b).
Proof. by intros <-; destruct x. Qed.
End StateFileSpec.
