(* ===== verification/Scrub.v ===== *)
(** * The scrub schedule: [reflink-forest-daemon/src/lib.rs]

    [ScrubScheduleStore]: the schedule in memory and in its file, the claims of
    due scrubs, their completion and the recovery of interrupted ones. Module
    [ScrubSpec] holds what is proved of them. *)

From Stdlib Require Import ZArith Lia Strings.Byte Strings.String.
From stdpp Require Import base tactics list gmap strings.
From S2P Require Import Prelude Order Crc Core Format Codec CatalogCodec Catalog Chunk Disk DiskSpec Store Git Reader PublicationSpec Cache Checkout Workspace WorkspaceStore Jobs JobsSpec DirectorySpec StateFile.
Import Crc Core Codec CatalogCodec Catalog Chunk Disk Git Reader StateFile.

#[local] Open Scope Z_scope.

Module Scrub.

Definition SCRUB_RECORD_VERSION : Z := 1.
Definition SCRUB_RECORD_MAGIC : bytes := b_ "RFSSCRB1".
Definition SCRUB_RECORD_LEN : Z := 64.
Definition SCRUB_RECORD_FILE : bytes := b_ "scrub-schedule-v1".
Definition SCRUB_TEMP_PREFIX : bytes := b_ ".reflink-forest-scrub-".
Definition SCRUB_FLAG_LAST_STARTED : Z := 1.
Definition SCRUB_FLAG_LAST_COMPLETED : Z := 2.
Definition SCRUB_KNOWN_FLAGS : Z := Z.lor SCRUB_FLAG_LAST_STARTED SCRUB_FLAG_LAST_COMPLETED.
Definition MIN_SCRUB_INTERVAL_SECONDS : Z := 60.
Definition MAX_SCRUB_INTERVAL_SECONDS : Z := 366 * 24 * 60 * 60.
Definition MAX_CONSECUTIVE_SCRUB_FAILURES : Z := 1000000.

Inductive ScrubRunState := Idle | Running.
#[export] Instance ScrubRunState_eq_dec : EqDecision ScrubRunState.
Proof. solve_decision. Defined.
Definition run_tag (s : ScrubRunState) : Z := match s with Idle => 1 | Running => 2 end.
Definition run_from_tag (tag : Z) : option ScrubRunState :=
  if decide (tag = 1) then Some Idle else if decide (tag = 2) then Some Running else None.
Record ScrubScheduleState := mkScrub {
  ss_interval_seconds : Z; ss_next_due_unix_seconds : Z; ss_run_state : ScrubRunState;
  ss_last_started_unix_seconds : option Z; ss_last_completed_unix_seconds : option Z;
  ss_consecutive_failures : Z; ss_recovered_interrupted_runs : Z }.
#[export] Instance ScrubScheduleState_eq_dec : EqDecision ScrubScheduleState.
Proof. solve_decision. Defined.
Record ScrubScheduleStatus := mkScrubStatus { st_schedule : option ScrubScheduleState; st_due : bool }.
Inductive ScrubScheduleError :=
| ScIo (e : IoErrorKind)
| InvalidInterval (interval : Z)
| TimestampOverflow
| NotConfigured
| AlreadyRunning
| ScInvalidRecord (reason : string)
| ScUnsupportedVersion (version : Z)
| UnsafeScheduleFile (name : bytes)
| CounterOverflow.
Abbreviation SResult := (result ScrubScheduleError).

Definition validate_scrub_interval (interval : Z) : SResult unit :=
  ensure (bool_decide (MIN_SCRUB_INTERVAL_SECONDS ≤ interval ≤ MAX_SCRUB_INTERVAL_SECONDS)) (InvalidInterval interval).
Definition configured (interval now : Z) : SResult ScrubScheduleState :=
  _ ← validate_scrub_interval interval;
  next_due ← ok_or (checked_add now interval) TimestampOverflow;
  Ok (mkScrub interval next_due Idle None None 0 0).
Definition validate (s : ScrubScheduleState) : SResult unit :=
  _ ← validate_scrub_interval (ss_interval_seconds s);
  _ ← ensure (negb (bool_decide (ss_run_state s = Running) && bool_decide (ss_last_started_unix_seconds s = None)))
             (ScInvalidRecord "running scrub has no start timestamp");
  ensure (bool_decide (ss_consecutive_failures s ≤ MAX_CONSECUTIVE_SCRUB_FAILURES))
         (ScInvalidRecord "scrub failure count exceeds the durable limit").

(** ** The codec *)

Definition flag (o : option Z) (f : Z) : Z := match o with Some _ => f | None => 0 end.
(** The first 60 bytes. *)
Definition scrub_fields (s : ScrubScheduleState) : bytes :=
  be_encode 1 SCRUB_RECORD_VERSION ++ be_encode 1 (run_tag (ss_run_state s)) ++
  be_encode 1 (Z.lor (flag (ss_last_started_unix_seconds s) SCRUB_FLAG_LAST_STARTED)
                     (flag (ss_last_completed_unix_seconds s) SCRUB_FLAG_LAST_COMPLETED)) ++ zeros 1 ++
  SCRUB_RECORD_MAGIC ++ be_encode 8 (ss_interval_seconds s) ++ be_encode 8 (ss_next_due_unix_seconds s) ++
  be_encode 8 (default 0 (ss_last_started_unix_seconds s)) ++ be_encode 8 (default 0 (ss_last_completed_unix_seconds s)) ++
  be_encode 4 (ss_consecutive_failures s) ++ be_encode 8 (ss_recovered_interrupted_runs s) ++ zeros 4.
Definition encode_scrub_schedule_record (s : ScrubScheduleState) : SResult bytes :=
  _ ← validate s;
  Ok (scrub_fields s ++ be_encode 4 (crc32c (scrub_fields s))).
Definition decode_scrub_schedule_record (b : bytes) : SResult ScrubScheduleState :=
  _ ← ensure (bool_decide (blen b = SCRUB_RECORD_LEN)) (ScInvalidRecord "scrub schedule record length is invalid");
  _ ← ensure (bool_decide (index b 0 = SCRUB_RECORD_VERSION)) (ScUnsupportedVersion (index b 0));
  _ ← ensure (bool_decide (index b 3 = 0) && bool_decide (slice 4 8 b = SCRUB_RECORD_MAGIC))
             (ScInvalidRecord "scrub schedule header is invalid");
  _ ← ensure (bool_decide (Z.land (index b 2) (255 - SCRUB_KNOWN_FLAGS) = 0)) (ScInvalidRecord "scrub schedule flags are invalid");
  _ ← ensure (bool_decide (read_u32 b 60 = crc32c (take 60 b))) (ScInvalidRecord "scrub schedule checksum mismatch");
  let flags := index b 2 in
  let last_started := read_u64 b 28 in
  let last_completed := read_u64 b 36 in
  run_state ← ok_or (run_from_tag (index b 1)) (ScInvalidRecord "scrub schedule run state is invalid");
  let started := if decide (Z.land flags SCRUB_FLAG_LAST_STARTED ≠ 0) then Some last_started else None in
  let completed := if decide (Z.land flags SCRUB_FLAG_LAST_COMPLETED ≠ 0) then Some last_completed else None in
  let s := mkScrub (read_u64 b 12) (read_u64 b 20) run_state started completed (read_u32 b 44) (read_u64 b 48) in
  _ ← ensure (negb ((bool_decide (started = None) && bool_decide (last_started ≠ 0)) ||
                    (bool_decide (completed = None) && bool_decide (last_completed ≠ 0))))
             (ScInvalidRecord "scrub schedule has a timestamp without its presence flag");
  _ ← validate s;
  Ok s.

(** ** The store *)

Section Store.
Context (root : bytes).
(** The disk, and the schedule in memory. *)
Abbreviation ScrubIO := (ST (Disk * option ScrubScheduleState) ScrubScheduleError).

Definition read_scrub_schedule_record : ST Disk ScrubScheduleError (option ScrubScheduleState) :=
  bytes ⇐ read_record_bytes root SCRUB_RECORD_FILE ScIo UnsafeScheduleFile SCRUB_RECORD_LEN;
  match bytes with
  | None => st_ret None
  | Some b => s ⇐ st_lift (decode_scrub_schedule_record b); st_ret (Some s)
  end.
Definition write_locked (nonces : list Z) (s : ScrubScheduleState) : ST Disk ScrubScheduleError unit :=
  bytes ⇐ st_lift (encode_scrub_schedule_record s);
  st_map_err ScIo (replace root SCRUB_RECORD_FILE SCRUB_TEMP_PREFIX bytes nonces).
(** The schedule in memory becomes [s] before it is written. *)
Definition store_then_write {A} (nonces : list Z) (s : ScrubScheduleState) (a : A) : ScrubIO A := λ x,
  let '(r, d) := write_locked nonces s x.1 in
  (match r with Ok _ => Ok a | Err e => Err e end, (d, Some s)).

Definition configure_at (nonces : list Z) (interval now : Z) : ScrubIO ScrubScheduleState := λ x,
  match configured interval now with
  | Err e => (Err e, x)
  | Ok s =>
      let '(r, d) := write_locked nonces s x.1 in
      match r with Ok _ => (Ok s, (d, Some s)) | Err e => (Err e, (d, x.2)) end
  end.
Definition status_at (now : Z) (state : option ScrubScheduleState) : ScrubScheduleStatus :=
  mkScrubStatus state
    match state with
    | Some s => bool_decide (ss_run_state s = Idle) && bool_decide (ss_next_due_unix_seconds s ≤ now)
    | None => false
    end.

Definition started (s : ScrubScheduleState) (now : Z) : ScrubScheduleState :=
  mkScrub (ss_interval_seconds s) (ss_next_due_unix_seconds s) Running (Some now) (ss_last_completed_unix_seconds s)
    (ss_consecutive_failures s) (ss_recovered_interrupted_runs s).
Definition begin_if_due_at (nonces : list Z) (now : Z) : ScrubIO (option ScrubScheduleState) := λ x,
  match x.2 with
  | None => (Err NotConfigured, x)
  | Some s =>
      if decide (ss_run_state s = Running) then (Err AlreadyRunning, x)
      else if decide (now < ss_next_due_unix_seconds s) then (Ok None, x)
      else store_then_write nonces (started s now) (Some (started s now)) x
  end.

(** A completion changes the schedule field by field; an overflow leaves the
    fields already changed. *)
Definition finishing (s : ScrubScheduleState) (next_due now : Z) (failures : Z) : ScrubScheduleState :=
  mkScrub (ss_interval_seconds s) next_due Idle (ss_last_started_unix_seconds s) (Some now) failures
    (ss_recovered_interrupted_runs s).
Definition finish_at (nonces : list Z) (now : Z) (succeeded : bool) : ScrubIO ScrubScheduleState := λ x,
  match x.2 with
  | None => (Err NotConfigured, x)
  | Some s =>
      if decide (ss_run_state s ≠ Running) then (Err (ScInvalidRecord "cannot complete a scrub that is not running"), x)
      else match checked_add now (ss_interval_seconds s) with
      | None => (Err TimestampOverflow, (x.1, Some (finishing s (ss_next_due_unix_seconds s) now (ss_consecutive_failures s))))
      | Some next_due =>
          if succeeded then let s' := finishing s next_due now 0 in store_then_write nonces s' s' x
          else if decide (ss_consecutive_failures s + 1 ≤ MAX_CONSECUTIVE_SCRUB_FAILURES) then
            let s' := finishing s next_due now (ss_consecutive_failures s + 1) in store_then_write nonces s' s' x
          else (Err CounterOverflow, (x.1, Some (finishing s next_due now (ss_consecutive_failures s))))
      end
  end.
Definition complete_success_at (nonces : list Z) (now : Z) : ScrubIO ScrubScheduleState := finish_at nonces now true.
Definition complete_failure_at (nonces : list Z) (now : Z) : ScrubIO ScrubScheduleState := finish_at nonces now false.

Definition recovering (s : ScrubScheduleState) (now recovered : Z) : ScrubScheduleState :=
  mkScrub (ss_interval_seconds s) (Z.min (ss_next_due_unix_seconds s) now) Idle (ss_last_started_unix_seconds s)
    (ss_last_completed_unix_seconds s) (ss_consecutive_failures s) recovered.
Definition recover_startup_at (nonces : list Z) (now : Z) : ScrubIO Z := λ x,
  match x.2 with
  | None => (Ok 0, x)
  | Some s =>
      if decide (ss_run_state s ≠ Running) then (Ok 0, x)
      else match checked_add (ss_recovered_interrupted_runs s) 1 with
      | None => (Err CounterOverflow, (x.1, Some (recovering s now (ss_recovered_interrupted_runs s))))
      | Some n => store_then_write nonces (recovering s now n) 1 x
      end
  end.
(** The schedule in memory of the opened store. *)
Definition open (nonces : list Z) (now : Z) : ST Disk ScrubScheduleError (option ScrubScheduleState) := λ d,
  (state ⇐ read_scrub_schedule_record;
   _ ⇐ remove_stale_temporaries root SCRUB_TEMP_PREFIX ScIo UnsafeScheduleFile;
   λ d, match recover_startup_at nonces now (d, state) with
        | (Ok _, (d, state)) => (Ok state, d)
        | (Err e, (d, _)) => (Err e, d)
        end) d.

(** ** Execution *)

Inductive ScrubExecutionFailure := ScHandlerError | ScHandlerPanic.
Inductive ScrubExecutionOutcome :=
| NotDue
| ScSucceeded (schedule : ScrubScheduleState)
| ScFailed (schedule : ScrubScheduleState) (failure : ScrubExecutionFailure).
Definition execute_if_due_at {H} (claim_nonces final_nonces : list Z) (now : Z)
    (scrub : ScrubScheduleState → H → CallResult * H) :
    ST ((Disk * option ScrubScheduleState) * H) ScrubScheduleError ScrubExecutionOutcome := λ x,
  match begin_if_due_at claim_nonces now x.1 with
  | (Err e, y) => (Err e, (y, x.2))
  | (Ok None, y) => (Ok NotDue, (y, x.2))
  | (Ok (Some running), y) =>
      let '(result_, h) := scrub running x.2 in
      let '(r, y) :=
        match result_ with
        | CallOk => (s ⇐ complete_success_at final_nonces now; st_ret (ScSucceeded s)) y
        | CallError => (s ⇐ complete_failure_at final_nonces now; st_ret (ScFailed s ScHandlerError)) y
        | CallPanic => (s ⇐ complete_failure_at final_nonces now; st_ret (ScFailed s ScHandlerPanic)) y
        end in
      (r, (y, h))
  end.
End Store.
End Scrub.

(** * What the scrub schedule guarantees *)

Import Crc Core Codec CatalogCodec Catalog Chunk Disk DiskSpec Git Reader PublicationSpec DirectorySpec StateFile Scrub.

Module ScrubSpec.

#[local] Set Warnings "-clear-no-such-hyp".

(** ** The codec *)

Definition opt_u64 (o : option Z) : Prop := match o with Some z => is_u64 z | None => True end.
(** What the Rust types guarantee of a schedule. *)
Definition scrub_wf (s : ScrubScheduleState) : Prop :=
  is_u64 (ss_interval_seconds s) ∧ is_u64 (ss_next_due_unix_seconds s) ∧ opt_u64 (ss_last_started_unix_seconds s) ∧
  opt_u64 (ss_last_completed_unix_seconds s) ∧ is_u32 (ss_consecutive_failures s) ∧ is_u64 (ss_recovered_interrupted_runs s).
Lemma length_scrub_fields s : length (scrub_fields s) = 60%nat.
Proof. unfold scrub_fields. rewrite !length_app, !length_be_encode, !length_zeros. done. Qed.
Definition scrub_bytes (s : ScrubScheduleState) : bytes := scrub_fields s ++ be_encode 4 (crc32c (scrub_fields s)).
Lemma length_scrub_bytes s : length (scrub_bytes s) = 64%nat.
Proof. unfold scrub_bytes. by rewrite length_app, length_scrub_fields, length_be_encode. Qed.
Lemma length_scrub_magic : length SCRUB_RECORD_MAGIC = 8%nat.
Proof. done. Qed.
#[local] Hint Rewrite length_scrub_magic : len.
Lemma opt_u64_default o : opt_u64 o → is_u64 (default 0 o).
Proof. by destruct o. Qed.

Lemma bind_then_Ok {E A} (r : result E unit) (a : A) : r = Ok () → (_ ← r; Ok a) = Ok a.
Proof. by intros ->. Qed.
Lemma decode_encode_scrub s : scrub_wf s → validate s = Ok () → decode_scrub_schedule_record (scrub_bytes s) = Ok s.
Proof.
  intros (Hi & Hn & Hs & Hc & Hf & Hr) Hv. pose proof (length_scrub_fields s) as Hl.
  pose proof (length_scrub_bytes s) as Hlb. set (b := scrub_bytes s) in *.
  assert (∀ o n v, (o + n ≤ 60)%nat → slice o n (scrub_fields s) = v → slice o n b = v) as Hin.
  { intros o n v Hon <-. unfold b, scrub_bytes. apply slice_app_l. lia. }
  unfold scrub_fields in Hin.
  assert (index b 0 = 1 ∧ index b 3 = 0 ∧ index b 1 = run_tag (ss_run_state s) ∧
    index b 2 = Z.lor (flag (ss_last_started_unix_seconds s) 1) (flag (ss_last_completed_unix_seconds s) 2)) as (H0 & H3 & H1 & H2).
  { unfold b, scrub_bytes, scrub_fields.
    by destruct (ss_run_state s), (ss_last_started_unix_seconds s), (ss_last_completed_unix_seconds s). }
  assert (slice 4 8 b = SCRUB_RECORD_MAGIC) as H4 by (apply Hin; [lia|]; slice_simpl; done).
  assert (read_u64 b 12 = ss_interval_seconds s) as H12 by (apply read_be_of_slice; [done|]; apply Hin; [lia|]; slice_simpl; done).
  assert (read_u64 b 20 = ss_next_due_unix_seconds s) as H20 by (apply read_be_of_slice; [done|]; apply Hin; [lia|]; slice_simpl; done).
  assert (read_u64 b 28 = default 0 (ss_last_started_unix_seconds s)) as H28
    by (apply read_be_of_slice; [by apply opt_u64_default|]; apply Hin; [lia|]; slice_simpl; done).
  assert (read_u64 b 36 = default 0 (ss_last_completed_unix_seconds s)) as H36
    by (apply read_be_of_slice; [by apply opt_u64_default|]; apply Hin; [lia|]; slice_simpl; done).
  assert (read_u32 b 44 = ss_consecutive_failures s) as H44 by (apply read_be_of_slice; [done|]; apply Hin; [lia|]; slice_simpl; done).
  assert (read_u64 b 48 = ss_recovered_interrupted_runs s) as H48
    by (apply read_be_of_slice; [done|]; apply Hin; [lia|]; slice_simpl; done).
  assert (take 60 b = scrub_fields s) as Htk by (unfold b, scrub_bytes; rewrite <-Hl; apply take_app_length).
  assert (read_u32 b 60 = crc32c (scrub_fields s)) as H60.
  { apply read_be_of_slice; [apply crc32c_range|]. unfold b, scrub_bytes. rewrite slice_app_skip by lia. rewrite Hl.
    apply slice_exact, length_be_encode. }
  unfold decode_scrub_schedule_record. rewrite JobsSpec.pass by (unfold blen, SCRUB_RECORD_LEN; lia).
  rewrite JobsSpec.pass by done.
  rewrite (ensure_true (bool_decide _ && _)) by (rewrite andb_true_iff, !bool_decide_eq_true; done). rewrite bind_Ok.
  rewrite JobsSpec.pass by (rewrite H2; by destruct (ss_last_started_unix_seconds s), (ss_last_completed_unix_seconds s)).
  rewrite JobsSpec.pass by (by rewrite H60, Htk). cbv zeta. rewrite H1.
  assert (run_from_tag (run_tag (ss_run_state s)) = Some (ss_run_state s)) as -> by (by destruct (ss_run_state s)).
  cbn [ok_or]. rewrite bind_Ok, H2, H12, H20, H28, H36, H44, H48.
  clear -Hv. destruct s as [i n rs st co fa re]. cbn [ss_interval_seconds ss_next_due_unix_seconds ss_run_state
    ss_last_started_unix_seconds ss_last_completed_unix_seconds ss_consecutive_failures ss_recovered_interrupted_runs] in *.
  destruct st, co; exact (bind_then_Ok _ _ Hv).
Qed.

(** ** The store *)

Section Store.
Context (root : bytes).
Abbreviation file_ok := (StateFileSpec.file_ok root SCRUB_RECORD_FILE SCRUB_RECORD_LEN).
Abbreviation record := (StateFileSpec.record root SCRUB_RECORD_FILE).
Abbreviation replaced := (StateFileSpec.replaced root SCRUB_RECORD_FILE SCRUB_RECORD_LEN).
Abbreviation ScrubIO := (ST (Disk * option ScrubScheduleState) ScrubScheduleError).

(** Every crash finds the schedule [s]. *)
Definition durable (d : Disk) (s : ScrubScheduleState) : Prop :=
  file_ok d ∧ (∀ m, m ∈ spaces d → record d m = Some (scrub_bytes s)) ∧ scrub_wf s ∧ validate s = Ok ().
Lemma write_durable nonces s d d' : scrub_wf s → file_ok d → write_locked root nonces s d = (Ok (), d') → durable d' s.
Proof.
  intros Hwf Hq. unfold write_locked, st_bind, st_lift, encode_scrub_schedule_record.
  destruct (validate s) as [[]|e] eqn:Hv; cbn [mbind result_bind]; [|done]. fold (scrub_bytes s).
  unfold st_map_err. destruct (replace _ _ _ _ nonces d) as [r1 d1] eqn:Hr.
  apply StateFileSpec.replace_replaced with (record_len := SCRUB_RECORD_LEN) in Hr as [Hq' _ Hd];
    [|by unfold blen; rewrite length_scrub_bytes|done].
  destruct r1 as [[]|]; [|done]. intros [= <-]. split_and!; [done|by apply Hd|done|done].
Qed.
Lemma store_durable {A} nonces s (a : A) x a' x' : scrub_wf s → file_ok x.1 →
  store_then_write root nonces s a x = (Ok a', x') → a' = a ∧ durable x'.1 s ∧ x'.2 = Some s.
Proof.
  intros Hwf Hq. unfold store_then_write. destruct (write_locked root nonces s x.1) as [r d] eqn:Hw.
  destruct r as [[]|]; [|done]. intros [= <- <-]. split_and!; [done| |done]. by eapply write_durable.
Qed.

(** The schedules that operations report. *)
Inductive reports : Disk * option ScrubScheduleState → ScrubScheduleState → Disk → Prop :=
| by_configure nonces interval now x s x' : is_u64 now →
    configure_at root nonces interval now x = (Ok s, x') → reports x s x'.1
| by_begin nonces now x s x' : is_u64 now →
    begin_if_due_at root nonces now x = (Ok (Some s), x') → reports x s x'.1
| by_finish nonces now succeeded x s x' : is_u64 now →
    finish_at root nonces now succeeded x = (Ok s, x') → reports x s x'.1.
Lemma interval_u64 i : validate_scrub_interval i = Ok () → is_u64 i.
Proof.
  intros Hv%ensure_Ok_inv%bool_decide_eq_true. unfold MIN_SCRUB_INTERVAL_SECONDS, MAX_SCRUB_INTERVAL_SECONDS in Hv.
  unfold in_width. lia.
Qed.
Lemma checked_add_u64 a b c : 0 ≤ a → 0 ≤ b → checked_add a b = Some c → is_u64 c.
Proof. intros Ha Hb [-> Hc]%checked_add_inv. unfold in_width, u64_max in *. lia. Qed.
Lemma reports_durable x s d' : file_ok x.1 → (∀ s0, x.2 = Some s0 → scrub_wf s0) → reports x s d' → durable d' s.
Proof.
  intros Hq Hmem Hr. destruct Hr as [nonces interval now x s x' Hnow Hr|nonces now x s x' Hnow Hr|nonces now succeeded x s x' Hnow Hr].
  - unfold configure_at in Hr. destruct (configured interval now) as [s1|] eqn:Hc; [|done].
    destruct (write_locked root nonces s1 x.1) as [[[]|] d] eqn:Hw; [|done]. injection Hr as <- <-. cbn [fst].
    eapply write_durable; [|done|exact Hw]. unfold configured in Hc. apply bind_Ok_inv in Hc as ([] & Hi%interval_u64 & Hc).
    apply bind_Ok_inv in Hc as (n & Hn%ok_or_Ok_inv & [= <-]). unfold in_width in Hi, Hnow.
    apply checked_add_u64 in Hn; [|lia|lia]. split_and!; try done; unfold in_width in *; cbn; lia.
  - unfold begin_if_due_at in Hr. destruct (x.2) as [s0|] eqn:Hx; [|done]. repeat case_decide; try done.
    apply store_durable in Hr as ([= <-] & Hd & _); [done| |done].
    destruct (Hmem s0 eq_refl) as (? & ? & ? & ? & ? & ?). split_and!; done.
  - unfold finish_at in Hr. destruct (x.2) as [s0|] eqn:Hx; [|done]. case_decide; [done|].
    destruct (Hmem s0 eq_refl) as (Hi & Hn & Hs & Hc & Hf & Hre).
    destruct (checked_add now _) as [n|] eqn:Hca; [|done]. unfold in_width in Hi, Hnow. apply checked_add_u64 in Hca; [|lia|lia].
    destruct succeeded; [|case_decide as Hle; [|done]]; (apply store_durable in Hr as (<- & Hd & _); [done| |done]);
      split_and!; try done; cbn; unfold in_width in *; unfold MAX_CONSECUTIVE_SCRUB_FAILURES in *; lia.
Qed.

(** What a restart makes of a schedule. *)
Definition restarted (s : ScrubScheduleState) (now : Z) : ScrubScheduleState :=
  if decide (ss_run_state s = Running) then recovering s now (ss_recovered_interrupted_runs s + 1) else s.
Lemma open_durable nonces now d s mem d' :
  is_u64 now → durable d s → open root nonces now d = (Ok mem, d') → (mem = None → record d (d_names d) = None) →
  mem = Some (restarted s now) ∧ durable d' (restarted s now).
Proof.
  intros Hnow (Hq & Hall & Hwf & Hv) Ho Hnone. unfold open in Ho. apply st_bind_Ok in Ho as (state & d1 & Hrd & Ho).
  apply st_bind_Ok in Ho as ([] & d2 & Hrm & Ho). unfold read_scrub_schedule_record in Hrd.
  apply st_bind_Ok in Hrd as (ob & d3 & Hb & Hrd).
  apply StateFileSpec.read_record_inv in Hb as [Hs Hb]. destruct (Hb ob eq_refl) as [Hnw _].
  pose proof (Hall (d_names d) ltac:(by left)) as Hrec.
  assert (d1 = d3 ∧ (state = Some s ∨ state = None)) as [-> Hstate].
  { destruct ob as [b|]; [|injection Hrd as <- <-; by split; [|right]].
    apply st_bind_Ok in Hrd as (r & d6 & [Hr ->]%st_lift_Ok & [= <- <-]). split; [done|left].
    specialize (Hnw b eq_refl). rewrite Hrec in Hnw. injection Hnw as <-. rewrite decode_encode_scrub in Hr by done. congruence. }
  apply (StateFileSpec.remove_stale_kept root SCRUB_RECORD_FILE _ SCRUB_RECORD_LEN) in Hrm as Q; [|done|].
  2: { apply (quiet_ok _ _ _ _ _ _ (quiet_same _ _ _ _ _ _ Hq Hs)). }
  assert (durable d2 s) as Hd2.
  { pose proof (StateFileSpec.quiet_kept _ _ _ _ _ (quiet_trans _ _ _ _ _ _ _ (quiet_same _ _ _ _ _ _ Hq Hs) Q)) as [Hq2 Hsp _].
    split_and!; [done| |done|done]. intros m (m0 & Hm0 & ->)%Hsp. by apply Hall. }
  destruct Hstate as [->| ->].
  2: { cbn in Ho. injection Ho as <- <-. by rewrite Hnone in Hrec. }
  unfold recover_startup_at in Ho. cbn [snd] in Ho. unfold restarted.
  destruct (decide (ss_run_state s = Running)) as [Hrun|Hrun].
  2: { rewrite decide_True in Ho by done. by injection Ho as <- <-. }
  rewrite decide_False in Ho by (by intros ?). destruct (checked_add _ 1) as [n|] eqn:Hc; [|done].
  pose proof Hc as Hn%checked_add_u64; [|unfold scrub_wf, in_width in Hwf; lia|lia]. apply checked_add_inv in Hc as [-> _].
  destruct (store_then_write _ _ _ _ _) as [r [d4 mem']] eqn:Hw. destruct r as [k|]; [|done]. injection Ho as <- <-.
  assert (scrub_wf (recovering s now (ss_recovered_interrupted_runs s + 1))) as Hwf'.
  { destruct Hwf as (Hi & Hnx & Hst & Hco & Hf & Hre). split_and!; try done. unfold in_width in *. cbn. lia. }
  apply store_durable in Hw as (_ & Hd & Hm); [|done|by apply Hd2]. done.
Qed.

(** C17. A reported schedule survives a crash, and an interrupted scrub is due at
    once. When [configure_at], [begin_if_due_at] or a completion reported the
    schedule [s], then after any crash an [open] that succeeds (and whose calls
    do not deny that the record is there) returns exactly [s] if it was idle;
    if it was running, the same schedule made idle, due no later than the time
    of the restart and with one more interrupted run counted, so that a status
    at or after that time says a scrub is due. The result is durable again. *)
Theorem scrub_survives_restart x s d1 d2 nonces now mem d3 :
  file_ok x.1 → (∀ s0, x.2 = Some s0 → scrub_wf s0) → reports x s d1 →
  crash d1 d2 → is_u64 now → open root nonces now d2 = (Ok mem, d3) → (mem = None → record d2 (d_names d2) = None) →
  mem = Some (restarted s now) ∧
  (∀ m, m ∈ spaces d3 → record d3 m = Some (scrub_bytes (restarted s now))) ∧
  (ss_run_state s = Running → ∀ later, now ≤ later → (status_at later mem).(st_due) = true).
Proof.
  intros Hq Hmem Hrep Hc Hnow Ho Hnone. destruct (reports_durable _ _ _ Hq Hmem Hrep) as (Hq1 & Hall & Hwf & Hv).
  destruct (StateFileSpec.record_crash _ _ _ _ _ Hq1 Hc) as (Hq2 & Hsp & m & Hm & Heq).
  assert (durable d2 s) as Hd2.
  { split_and!; [done| |done|done]. rewrite Hsp. intros m' ->%list_elem_of_singleton. rewrite Heq. by apply Hall. }
  destruct (open_durable _ _ _ _ _ _ Hnow Hd2 Ho Hnone) as [-> (_ & Hd3 & _)]. split_and!; [done|done|].
  intros Hrun later Hl. unfold restarted. rewrite decide_True by done. cbn. apply bool_decide_eq_true. lia.
Qed.

(** A claim that cannot be written blocks all later scrubs.
    [begin_if_due_at] marks the schedule in memory as running before it writes
    the record and does not undo it: when the claim of a due scrub fails, no
    handler is called, and every later claim and every later execution, at any
    time and on any disk, fails with [AlreadyRunning], although no scrub runs.
    Only a restart ends this. *)
Theorem failed_claim_blocks_scrubs nonces now s d e x :
  ss_run_state s = Idle → ss_next_due_unix_seconds s ≤ now →
  begin_if_due_at root nonces now (d, Some s) = (Err e, x) →
  (∀ H (scrub : ScrubScheduleState → H → CallResult * H) final h,
     execute_if_due_at root nonces final now scrub ((d, Some s), h) = (Err e, (x, h))) ∧
  ∀ nonces' now' d',
    begin_if_due_at root nonces' now' (d', x.2) = (Err AlreadyRunning, (d', x.2)) ∧
    ∀ H (scrub : ScrubScheduleState → H → CallResult * H) final h,
      execute_if_due_at root nonces' final now' scrub ((d', x.2), h) = (Err AlreadyRunning, ((d', x.2), h)).
Proof.
  intros Hidle Hdue Hb.
  assert (∃ s', x.2 = Some s' ∧ ss_run_state s' = Running) as (s' & Hx & Hrun).
  { unfold begin_if_due_at in Hb. cbn [snd] in Hb. rewrite decide_False in Hb by congruence. rewrite decide_False in Hb by lia.
    unfold store_then_write in Hb. destruct (write_locked _ _ _ _) as [r d1]. destruct r; [done|]. injection Hb as _ <-.
    by eexists. }
  split; [intros; unfold execute_if_due_at; cbn [fst snd]; by rewrite Hb|]. intros nonces' now' d'.
  assert (begin_if_due_at root nonces' now' (d', x.2) = (Err AlreadyRunning, (d', x.2))) as Hb'.
  { unfold begin_if_due_at. cbn [snd]. by rewrite Hx, decide_True. }
  split; [done|]. intros. unfold execute_if_due_at. cbn [fst snd]. by rewrite Hb'.
Qed.
End Store.

(** ** Runs *)

Definition demo_root : bytes := b_ "state".
Definition demo_start : Disk * option ScrubScheduleState := (mkDisk [] ∅ [] [], None).
(** Every minute from time 0 on, and a scrub that starts at 60. *)
Definition demo_configured := configure_at demo_root [0] 60 0 demo_start.
Definition demo_begun := begin_if_due_at demo_root [1] 60 demo_configured.2.
Definition demo_state : ScrubScheduleState := mkScrub 60 60 Idle None None 0 0.
Definition demo_running : ScrubScheduleState := started demo_state 60.
Definition demo_crashed : Disk := mkDisk (d_inodes demo_begun.2.1) (d_names demo_begun.2.1) [] [].
Definition demo_opened := open demo_root [2] 100 demo_crashed.

Lemma demo_configured_eq : demo_configured = (Ok demo_state, demo_configured.2).
Proof. apply StateFileSpec.pair_first. vm_compute. reflexivity. Qed.
Lemma demo_configured_ok : StateFileSpec.file_ok demo_root SCRUB_RECORD_FILE SCRUB_RECORD_LEN demo_configured.2.1.
Proof.
  apply (reports_durable demo_root demo_start demo_state).
  - apply Forall_singleton, map_Forall_empty.
  - done.
  - apply (by_configure _ [0] 60 0); [done|exact demo_configured_eq].
Qed.
Lemma demo_memory : demo_configured.2.2 = Some demo_state.
Proof. vm_compute. reflexivity. Qed.
Lemma demo_state_wf : scrub_wf demo_state.
Proof. split_and!; done. Qed.
Lemma demo_memory_wf s : demo_configured.2.2 = Some s → scrub_wf s.
Proof. intros Hs. pose proof (eq_trans (eq_sym demo_memory) Hs) as [= <-]. exact demo_state_wf. Qed.
(** A crash interrupts the scrub; the restart makes it due at once. *)
Lemma scrub_survives_restart_witness :
  demo_opened.1 = Ok (Some (mkScrub 60 60 Idle (Some 60) None 0 1)) ∧
  (status_at 100 (Some (restarted demo_running 100))).(st_due) = true.
Proof.
  assert (demo_opened.1 = Ok (Some (restarted demo_running 100))) as He by (vm_compute; reflexivity). split; [exact He|].
  refine (proj2 (proj2 (scrub_survives_restart demo_root demo_configured.2 demo_running demo_begun.2.1 demo_crashed [2] 100
    (Some (restarted demo_running 100)) demo_opened.2 demo_configured_ok _ _ _ _ _ _)) _ 100 _).
  - exact demo_memory_wf.
  - refine (by_begin demo_root [1] 60 demo_configured.2 demo_running demo_begun.2 _ _); [split; lia|].
    apply (StateFileSpec.pair_first demo_begun). vm_compute. reflexivity.
  - refine (crash_synced demo_begun.2.1 [] _). vm_compute. reflexivity.
  - split; lia.
  - exact (StateFileSpec.pair_first demo_opened _ He).
  - discriminate.
  - reflexivity.
  - lia.
Defined.

(** The claim at 60 cannot create its temporary file. *)
Definition demo_faulty : Disk :=
  mkDisk (d_inodes demo_configured.2.1) (d_names demo_configured.2.1) [] [Some (mkFault OtherIo 0)].
Definition demo_unclaimed := begin_if_due_at demo_root [1] 60 (demo_faulty, Some demo_state).
Lemma failed_claim_blocks_scrubs_witness :
  demo_unclaimed.1 = Err (ScIo OtherIo) ∧
  begin_if_due_at demo_root [2] 120 (demo_faulty, demo_unclaimed.2.2) = (Err AlreadyRunning, (demo_faulty, demo_unclaimed.2.2)).
Proof.
  assert (demo_unclaimed.1 = Err (ScIo OtherIo)) as He by (vm_compute; reflexivity). split; [exact He|].
  refine (proj1 (proj2 (failed_claim_blocks_scrubs demo_root [1] 60 demo_state demo_faulty (ScIo OtherIo) demo_unclaimed.2 _ _ _)
    [2] 120 demo_faulty)).
  - reflexivity.
  - cbn. lia.
  - exact (StateFileSpec.pair_first demo_unclaimed _ He).
Defined.
End ScrubSpec.
