(* ===== verification/Migration.v ===== *)
(** * The migration journal: [reflink-forest-daemon/src/lib.rs]

    [MigrationStore]: the checkpoint of a format migration in memory and in its
    file, its transitions, and one worker turn. Module [MigrationSpec] holds
    what is proved of them. *)

From Stdlib Require Import ZArith Lia Strings.Byte Strings.String.
From stdpp Require Import base tactics list gmap strings relations.
From S2P Require Import Prelude Order Crc Core Format Codec CatalogCodec Catalog Chunk Disk DiskSpec Store Git Reader PublicationSpec Cache Checkout Workspace WorkspaceStore Jobs JobsSpec DirectorySpec StateFile.
Import Crc Core Codec CatalogCodec Catalog Chunk Disk Git Reader StateFile.

#[local] Open Scope Z_scope.

Module Migration.

Definition MIGRATION_RECORD_VERSION : Z := 1.
Definition MIGRATION_RECORD_MAGIC : bytes := b_ "RFSMIGR1".
Definition MIGRATION_RECORD_LEN : Z := 64.
Definition MIGRATION_RECORD_FILE : bytes := b_ "migration-state-v1".
Definition MIGRATION_TEMP_PREFIX : bytes := b_ ".reflink-forest-migration-".

Record MigrationId := mkMigrationId { mig_bytes : bytes }.
#[export] Instance MigrationId_eq_dec : EqDecision MigrationId.
Proof. solve_decision. Defined.
Inductive MigrationState := NotStarted | Copying | Validating | Published.
#[export] Instance MigrationState_eq_dec : EqDecision MigrationState.
Proof. solve_decision. Defined.
Definition migration_tag (s : MigrationState) : Z :=
  match s with NotStarted => 0 | Copying => 1 | Validating => 2 | Published => 3 end.
Definition from_record_tag (tag : Z) : option MigrationState :=
  if decide (tag = 1) then Some Copying
  else if decide (tag = 2) then Some Validating
  else if decide (tag = 3) then Some Published
  else None.
Definition is_partial (s : MigrationState) : bool := match s with Copying | Validating => true | _ => false end.
Record MigrationRecord := mkMigration {
  mr_id : MigrationId; mr_from_format_version : Z; mr_to_format_version : Z; mr_state : MigrationState;
  mr_transition_count : Z }.
#[export] Instance MigrationRecord_eq_dec : EqDecision MigrationRecord.
Proof. solve_decision. Defined.
Inductive MigrationError :=
| MgIo (e : IoErrorKind)
| MgInvalidRecord (reason : string)
| MgUnsupportedVersion (version : Z)
| InvalidTarget (from to : Z)
| AlreadyInProgress (r : MigrationRecord)
| NoResumableMigration
| MgInvalidTransition (from to : MigrationState)
| TransitionCountOverflow
| ActiveVersionMismatch (configured persisted : Z)
| UnsafeStateFile (name : bytes).
Abbreviation MResult := (result MigrationError).

Definition validate (r : MigrationRecord) : MResult unit :=
  _ ← ensure (negb (bool_decide (mr_from_format_version r = 0) || bool_decide (mr_to_format_version r = 0)))
             (MgInvalidRecord "format versions must be non-zero");
  _ ← ensure (bool_decide (mr_from_format_version r < mr_to_format_version r))
             (MgInvalidRecord "migration target format must be newer than the source");
  _ ← ensure (bool_decide (mr_state r ≠ NotStarted)) (MgInvalidRecord "not-started migrations are not persisted");
  ensure (bool_decide (mr_transition_count r ≠ 0)) (MgInvalidRecord "migration transition count is zero").
Definition active_format_version (r : MigrationRecord) : Z :=
  if decide (mr_state r = Published) then mr_to_format_version r else mr_from_format_version r.
Record MigrationStatus := mkMigrationStatus {
  mst_active_format_version : Z; mst_state : MigrationState; mst_migration : option MigrationRecord;
  mst_partial_migration : bool; mst_resumable : bool }.

(** ** The codec *)

(** The first 60 bytes. *)
Definition migration_fields (r : MigrationRecord) : bytes :=
  be_encode 1 MIGRATION_RECORD_VERSION ++ be_encode 1 (migration_tag (mr_state r)) ++ zeros 2 ++ MIGRATION_RECORD_MAGIC ++
  be_encode 2 (mr_from_format_version r) ++ be_encode 2 (mr_to_format_version r) ++ mig_bytes (mr_id r) ++
  be_encode 8 (mr_transition_count r) ++ zeros 20.
Definition encode_migration_record (r : MigrationRecord) : MResult bytes :=
  _ ← validate r;
  Ok (migration_fields r ++ be_encode 4 (crc32c (migration_fields r))).
Definition decode_migration_record (b : bytes) : MResult MigrationRecord :=
  _ ← ensure (bool_decide (blen b = MIGRATION_RECORD_LEN)) (MgInvalidRecord "migration record length is invalid");
  _ ← ensure (bool_decide (index b 0 = MIGRATION_RECORD_VERSION)) (MgUnsupportedVersion (index b 0));
  _ ← ensure (all_zero (slice 2 2 b) && bool_decide (slice 4 8 b = MIGRATION_RECORD_MAGIC))
             (MgInvalidRecord "migration record header is invalid");
  _ ← ensure (all_zero (slice 40 20 b)) (MgInvalidRecord "migration record reserved bytes are non-zero");
  _ ← ensure (bool_decide (read_u32 b 60 = crc32c (take 60 b))) (MgInvalidRecord "migration record checksum mismatch");
  state ← ok_or (from_record_tag (index b 1)) (MgInvalidRecord "migration record state is invalid");
  let r := mkMigration (mkMigrationId (slice 16 16 b)) (read_u16 b 12) (read_u16 b 14) state (read_u64 b 32) in
  _ ← validate r;
  Ok r.

(** ** The store *)

(** The configured format version, and the checkpoint in memory. *)
Record MigrationStore := mkMigrationStore { ms_configured : Z; ms_state : option MigrationRecord }.

Section Store.
Context (root : bytes).
Abbreviation MigIO := (ST (Disk * MigrationStore) MigrationError).

Definition read_migration_record : ST Disk MigrationError (option MigrationRecord) :=
  bytes ⇐ read_record_bytes root MIGRATION_RECORD_FILE MgIo UnsafeStateFile MIGRATION_RECORD_LEN;
  match bytes with
  | None => st_ret None
  | Some b => r ⇐ st_lift (decode_migration_record b); st_ret (Some r)
  end.
Definition write_record_locked (nonces : list Z) (r : MigrationRecord) : ST Disk MigrationError unit :=
  bytes ⇐ st_lift (encode_migration_record r);
  st_map_err MgIo (replace root MIGRATION_RECORD_FILE MIGRATION_TEMP_PREFIX bytes nonces).
Definition open (configured : Z) : ST Disk MigrationError MigrationStore :=
  _ ⇐ st_lift (ensure (bool_decide (configured ≠ 0)) (MgInvalidRecord "configured active format version is zero"));
  _ ⇐ remove_stale_temporaries root MIGRATION_TEMP_PREFIX MgIo UnsafeStateFile;
  record ⇐ read_migration_record;
  _ ⇐ st_lift match record with
              | Some r => ensure (bool_decide (active_format_version r = configured))
                            (ActiveVersionMismatch configured (active_format_version r))
              | None => Ok ()
              end;
  st_ret (mkMigrationStore configured record).
Definition status (s : MigrationStore) : MigrationStatus :=
  match ms_state s with
  | None => mkMigrationStatus (ms_configured s) NotStarted None false false
  | Some r =>
      mkMigrationStatus (active_format_version r) (mr_state r) (Some r) (is_partial (mr_state r)) (is_partial (mr_state r))
  end.

Definition begin_from (nonces : list Z) (id : MigrationId) (from to : Z) : MigIO MigrationRecord := λ x,
  if decide (to ≤ from) then (Err (InvalidTarget from to), x)
  else
    let r := mkMigration id from to Copying 1 in
    let '(res, d) := write_record_locked nonces r x.1 in
    match res with
    | Ok _ => (Ok r, (d, mkMigrationStore (ms_configured x.2) (Some r)))
    | Err e => (Err e, (d, x.2))
    end.
Definition begin_with_id (nonces : list Z) (id : MigrationId) (to : Z) : MigIO MigrationRecord := λ x,
  match ms_state x.2 with
  | Some existing =>
      if is_partial (mr_state existing) then (Err (AlreadyInProgress existing), x)
      else begin_from nonces id (active_format_version existing) to x
  | None => begin_from nonces id (ms_configured x.2) to x
  end.
(** [id] is what reading [/dev/urandom] gives. *)
Definition begin (nonces : list Z) (id : result IoErrorKind MigrationId) (to : Z) : MigIO MigrationRecord :=
  id ⇐ st_lift (map_err MgIo id);
  begin_with_id nonces id to.
Definition resume (s : MigrationStore) : MResult MigrationRecord :=
  match ms_state s with
  | Some r => if is_partial (mr_state r) then Ok r else Err NoResumableMigration
  | None => Err NoResumableMigration
  end.

(** The checkpoint in memory changes before it is written. *)
Definition transition (nonces : list Z) (expected target : MigrationState) : MigIO MigrationRecord := λ x,
  match ms_state x.2 with
  | None => (Err NoResumableMigration, x)
  | Some r =>
      if decide (mr_state r ≠ expected) then (Err (MgInvalidTransition (mr_state r) target), x)
      else
        let moved count := mkMigration (mr_id r) (mr_from_format_version r) (mr_to_format_version r) target count in
        let keep r := mkMigrationStore (ms_configured x.2) (Some r) in
        match checked_add (mr_transition_count r) 1 with
        | None => (Err TransitionCountOverflow, (x.1, keep (moved (mr_transition_count r))))
        | Some count =>
            let '(res, d) := write_record_locked nonces (moved count) x.1 in
            (match res with Ok _ => Ok (moved count) | Err e => Err e end, (d, keep (moved count)))
        end
  end.
Definition begin_validation (nonces : list Z) : MigIO MigrationRecord := transition nonces Copying Validating.
Definition publish (nonces : list Z) : MigIO MigrationRecord := transition nonces Validating Published.

(** ** One worker turn *)

Inductive MigrationExecutionPhase := PhaseCopying | VerifyingAndPublishing.
Inductive MigrationExecutionFailure := MgHandlerError | MgHandlerPanic.
Inductive MigrationExecutionOutcome :=
| MgIdle
| Advanced (r : MigrationRecord)
| MgPublished (r : MigrationRecord)
| MgFailed (r : MigrationRecord) (phase : MigrationExecutionPhase) (failure : MigrationExecutionFailure).
(** The two methods of a handler, over its own state. *)
Record MigrationHandler (H : Type) := mkMigrationHandler {
  h_copy : MigrationRecord → H → CallResult * H;
  h_verify_and_publish : MigrationRecord → H → CallResult * H }.
#[global] Arguments h_copy {H} _.
#[global] Arguments h_verify_and_publish {H} _.
Definition execute_once {H} (nonces : list Z) (handler : MigrationHandler H) :
    ST ((Disk * MigrationStore) * H) MigrationError MigrationExecutionOutcome := λ x,
  match ms_state x.1.2 with
  | None => (Ok MgIdle, x)
  | Some r =>
      match mr_state r with
      | NotStarted => (Ok MgIdle, x)
      | Published => (Ok (MgPublished r), x)
      | Copying =>
          let '(result_, h) := h_copy handler r x.2 in
          match result_ with
          | CallOk => let '(res, y) := (r ⇐ begin_validation nonces; st_ret (Advanced r)) x.1 in (res, (y, h))
          | CallError => (Ok (MgFailed r PhaseCopying MgHandlerError), (x.1, h))
          | CallPanic => (Ok (MgFailed r PhaseCopying MgHandlerPanic), (x.1, h))
          end
      | Validating =>
          let '(result_, h) := h_verify_and_publish handler r x.2 in
          match result_ with
          | CallOk => let '(res, y) := (r ⇐ publish nonces; st_ret (MgPublished r)) x.1 in (res, (y, h))
          | CallError => (Ok (MgFailed r VerifyingAndPublishing MgHandlerError), (x.1, h))
          | CallPanic => (Ok (MgFailed r VerifyingAndPublishing MgHandlerPanic), (x.1, h))
          end
      end
  end.
End Store.
End Migration.

(** * What the migration journal guarantees *)

Import Crc Core Codec CatalogCodec Catalog Chunk Disk DiskSpec Git Reader PublicationSpec DirectorySpec StateFile Migration.

Module MigrationSpec.

#[local] Set Warnings "-clear-no-such-hyp".

(** ** The codec *)

(** What the Rust types guarantee of a record, and what the store checks. *)
Definition migration_wf (r : MigrationRecord) : Prop :=
  length (mig_bytes (mr_id r)) = 16%nat ∧ is_u16 (mr_from_format_version r) ∧ is_u16 (mr_to_format_version r) ∧
  is_u64 (mr_transition_count r).
Lemma m_validate_iff r : validate r = Ok () ↔
  (mr_from_format_version r ≠ 0 ∧ mr_to_format_version r ≠ 0) ∧ mr_from_format_version r < mr_to_format_version r ∧
  mr_state r ≠ NotStarted ∧ mr_transition_count r ≠ 0.
Proof.
  unfold validate. split.
  - intros Hv. apply bind_Ok_inv in Hv as (_ & H1%ensure_Ok_inv & Hv).
    apply bind_Ok_inv in Hv as (_ & H2%ensure_Ok_inv%bool_decide_eq_true & Hv).
    apply bind_Ok_inv in Hv as (_ & H3%ensure_Ok_inv%bool_decide_eq_true & H4%ensure_Ok_inv%bool_decide_eq_true).
    apply negb_true_iff, orb_false_iff in H1 as [Ha%bool_decide_eq_false Hb%bool_decide_eq_false]. done.
  - intros ([Ha Hb] & H2 & H3 & H4). rewrite (bool_decide_eq_false_2 (mr_from_format_version r = 0)) by done.
    rewrite (bool_decide_eq_false_2 (mr_to_format_version r = 0)) by done. cbn [orb negb ensure]. rewrite bind_Ok.
    rewrite !JobsSpec.pass by done. by rewrite bool_decide_eq_true_2.
Qed.
Lemma length_fields r : migration_wf r → length (migration_fields r) = 60%nat.
Proof.
  intros (Hid & _). unfold migration_fields. rewrite !length_app, !length_be_encode, !length_zeros, Hid. done.
Qed.
Definition migration_bytes (r : MigrationRecord) : bytes := migration_fields r ++ be_encode 4 (crc32c (migration_fields r)).
Lemma length_migration_bytes r : migration_wf r → length (migration_bytes r) = 64%nat.
Proof. intros Hwf. unfold migration_bytes. by rewrite length_app, length_fields, length_be_encode. Qed.
Lemma length_migration_magic : length MIGRATION_RECORD_MAGIC = 8%nat.
Proof. done. Qed.
#[local] Hint Rewrite length_migration_magic : len.

(** One field of the record; the identifier has 16 bytes. *)
#[local] Ltac field_simpl :=
  repeat (rewrite slice_app_skip by solve_len); autorewrite with len;
  lazymatch goal with H : length (mig_bytes _) = 16%nat |- _ => rewrite ?H end; cbn [Nat.sub];
  first [ rewrite slice_app_exact by solve_len | rewrite slice_exact by solve_len ]; done.
Lemma decode_encode_migration r : migration_wf r → validate r = Ok () → decode_migration_record (migration_bytes r) = Ok r.
Proof.
  intros Hwf Hv. pose proof Hwf as (Hid & Hf & Ht & Hc). pose proof (length_fields r Hwf) as Hl.
  pose proof (length_migration_bytes r Hwf) as Hlb. set (b := migration_bytes r) in *.
  pose proof Hv as (_ & _ & Hst & _)%m_validate_iff.
  assert (∀ o n v, (o + n ≤ 60)%nat → slice o n (migration_fields r) = v → slice o n b = v) as Hin.
  { intros o n v Hon <-. unfold b, migration_bytes. apply slice_app_l. lia. }
  unfold migration_fields in Hin.
  assert (index b 0 = 1) as H0 by done.
  assert (index b 1 = migration_tag (mr_state r)) as H1.
  { unfold b, migration_bytes, migration_fields. by destruct (mr_state r). }
  assert (slice 2 2 b = zeros 2) as H2 by (apply Hin; [lia|]; field_simpl).
  assert (slice 4 8 b = MIGRATION_RECORD_MAGIC) as H4 by (apply Hin; [lia|]; field_simpl).
  assert (read_u16 b 12 = mr_from_format_version r) as H12 by (apply read_be_of_slice; [done|]; apply Hin; [lia|]; field_simpl).
  assert (read_u16 b 14 = mr_to_format_version r) as H14 by (apply read_be_of_slice; [done|]; apply Hin; [lia|]; field_simpl).
  assert (slice 16 16 b = mig_bytes (mr_id r)) as H16 by (apply Hin; [lia|]; field_simpl).
  assert (read_u64 b 32 = mr_transition_count r) as H32 by (apply read_be_of_slice; [done|]; apply Hin; [lia|]; field_simpl).
  assert (slice 40 20 b = zeros 20) as H40 by (apply Hin; [lia|]; field_simpl).
  assert (take 60 b = migration_fields r) as Htk by (unfold b, migration_bytes; rewrite <-Hl; apply take_app_length).
  assert (read_u32 b 60 = crc32c (migration_fields r)) as H60.
  { apply read_be_of_slice; [apply crc32c_range|]. unfold b, migration_bytes. rewrite slice_app_skip by lia. rewrite Hl.
    apply slice_exact, length_be_encode. }
  unfold decode_migration_record. rewrite JobsSpec.pass by (unfold blen, MIGRATION_RECORD_LEN; lia).
  rewrite JobsSpec.pass by done. rewrite (ensure_true (all_zero _ && _)) by (rewrite H2, H4, all_zero_zeros; by rewrite bool_decide_eq_true_2).
  rewrite bind_Ok, H40, all_zero_zeros. cbn [ensure]. rewrite bind_Ok, JobsSpec.pass by (by rewrite H60, Htk).
  assert (from_record_tag (index b 1) = Some (mr_state r)) as -> by (rewrite H1; by destruct (mr_state r)).
  cbn [ok_or]. rewrite bind_Ok, H12, H14, H16, H32. cbv zeta.
  assert (mkMigration (mkMigrationId (mig_bytes (mr_id r))) (mr_from_format_version r) (mr_to_format_version r) (mr_state r)
    (mr_transition_count r) = r) as -> by (by destruct r as [[]]).
  by rewrite Hv.
Qed.

(** ** Records and their transitions *)

(** The durable state machine; the count never falls. *)
Inductive mstep : MigrationRecord → MigrationRecord → Prop :=
| m_validating r c : mr_state r = Copying → mr_transition_count r ≤ c →
    mstep r (mkMigration (mr_id r) (mr_from_format_version r) (mr_to_format_version r) Validating c)
| m_published r c : mr_state r = Validating → mr_transition_count r ≤ c → mr_from_format_version r < mr_to_format_version r →
    mstep r (mkMigration (mr_id r) (mr_from_format_version r) (mr_to_format_version r) Published c)
| m_next r id to : mr_state r = Published → mr_to_format_version r < to →
    mstep r (mkMigration id (mr_to_format_version r) to Copying 1).
Lemma mstep_active r r' : mstep r r' → active_format_version r ≤ active_format_version r'.
Proof. destruct 1 as [r c Hs|r c Hs|r id to Hs]; unfold active_format_version; cbn; repeat case_decide; congruence || lia. Qed.
Lemma msteps_active r r' : rtc mstep r r' → active_format_version r ≤ active_format_version r'.
Proof. induction 1 as [|r1 r2 r3 H%mstep_active _ IH]; lia. Qed.

(** A record the store may hold. *)
Definition sound_record (r : MigrationRecord) : Prop := migration_wf r ∧ validate r = Ok ().

Section Store.
Context (root : bytes).
Abbreviation file_ok := (StateFileSpec.file_ok root MIGRATION_RECORD_FILE MIGRATION_RECORD_LEN).
Abbreviation record := (StateFileSpec.record root MIGRATION_RECORD_FILE).
Abbreviation replaced := (StateFileSpec.replaced root MIGRATION_RECORD_FILE MIGRATION_RECORD_LEN).

Lemma write_replaced nonces r d res d' : migration_wf r → file_ok d →
  write_record_locked root nonces r d = (res, d') → replaced d (migration_bytes r) (is_ok res) d' ∧ (is_ok res = true → validate r = Ok ()).
Proof.
  intros Hwf Hq. unfold write_record_locked, st_bind, st_lift, encode_migration_record.
  destruct (validate r) as [[]|e] eqn:Hv; cbn [mbind result_bind].
  2: { intros [= <- <-]. split; [|done]. by apply StateFileSpec.kept_replaced, StateFileSpec.kept_same. }
  fold (migration_bytes r). unfold st_map_err. destruct (replace _ _ _ _ nonces d) as [r1 d1] eqn:Hr. intros [= <- <-].
  apply StateFileSpec.replace_replaced with (record_len := MIGRATION_RECORD_LEN) in Hr; [|by unfold blen; rewrite length_migration_bytes|done].
  by destruct r1 as [[]|].
Qed.

(** Everything the disk may show, and the memory, continues [r0]. *)
Record since (r0 : MigrationRecord) (x : Disk * MigrationStore) : Prop := {
  since_ok : file_ok x.1;
  since_disk : ∀ m, m ∈ spaces x.1 → ∃ r, record x.1 m = Some (migration_bytes r) ∧ sound_record r ∧ rtc mstep r0 r;
  since_memory : ∃ r, ms_state x.2 = Some r ∧ sound_record r ∧ rtc mstep r0 r }.
Lemma replaced_since r0 x r ok d' s' :
  since r0 x → sound_record r → rtc mstep r0 r → replaced x.1 (migration_bytes r) ok d' →
  (∃ r, ms_state s' = Some r ∧ sound_record r ∧ rtc mstep r0 r) → since r0 (d', s').
Proof.
  intros [Hq Hd _] Hr Hs [Hq' Hsp _] Hm. split; [done| |done]. intros m Hm'. destruct (Hsp m Hm') as [(m0 & Hm0 & Heq)|Heq].
  - destruct (Hd m0 Hm0) as (r1 & Hr1 & ? & ?). exists r1. cbn [fst]. rewrite Heq. done.
  - by exists r.
Qed.

Lemma begin_from_since r0 nonces id from to x res x' :
  length (mig_bytes id) = 16%nat → is_u16 to → is_u16 from → from ≠ 0 →
  since r0 x → rtc mstep r0 (mkMigration id from to Copying 1) ∨ to ≤ from →
  begin_from root nonces id from to x = (res, x') → since r0 x'.
Proof.
  intros Hid Hto Hfrom Hnz Hx Hst. unfold begin_from. case_decide as Hle; [by intros [= <- <-]|].
  destruct Hst as [Hst|]; [|lia]. set (r := mkMigration id from to Copying 1) in *.
  assert (migration_wf r) as Hwf by (split_and!; [done|done|done|split; cbn; lia]).
  assert (validate r = Ok ()) as Hv.
  { apply m_validate_iff. unfold in_width in *. cbn. split_and!; [done|lia|lia|done|done]. }
  destruct (write_record_locked root nonces r x.1) as [w d] eqn:Hw.
  apply write_replaced in Hw as [Hrep _]; [|done|by apply Hx].
  destruct w as [[]|e]; intros [= <- <-]; eapply replaced_since; eauto; try done; [|by apply Hx]. by exists r.
Qed.
Lemma begin_since r0 nonces id to x res x' :
  length (mig_bytes id) = 16%nat → is_u16 to → since r0 x →
  begin_with_id root nonces id to x = (res, x') → since r0 x'.
Proof.
  intros Hid Hto Hx. pose proof (since_memory _ _ Hx) as (r & Hm & [Hwf Hv] & Hr). unfold begin_with_id. rewrite Hm.
  pose proof Hv as ([Hf0 Ht0] & Hlt & Hns & _)%m_validate_iff. pose proof Hwf as (_ & Hfu & Htu & _).
  destruct (is_partial (mr_state r)) eqn:Hp; [by intros [= <- <-]|].
  assert (mr_state r = Published) as Hst by (by destruct (mr_state r)).
  unfold active_format_version. rewrite decide_True by done. apply begin_from_since; try done.
  destruct (decide (mr_to_format_version r < to)); [left|right; lia]. eapply rtc_r; [exact Hr|]. by constructor.
Qed.
Lemma transition_since r0 nonces expected target x res x' :
  (∀ r c, mr_state r = expected → mr_transition_count r ≤ c → sound_record r →
    mstep r (mkMigration (mr_id r) (mr_from_format_version r) (mr_to_format_version r) target c)) → target ≠ NotStarted →
  since r0 x → transition root nonces expected target x = (res, x') → since r0 x'.
Proof.
  intros Hst Hne Hx. pose proof (since_memory _ _ Hx) as (r & Hm & Hsr & Hr). pose proof Hsr as [Hwf Hv]. unfold transition. rewrite Hm.
  case_decide as Hs; [by intros [= <- <-]|].
  pose proof Hv as (Hnz & Hlt & Hns & Hc0)%m_validate_iff. pose proof Hwf as (Hid & Hfu & Htu & Hcu).
  assert (∀ c, mr_transition_count r ≤ c → c ≤ u64_max →
    sound_record (mkMigration (mr_id r) (mr_from_format_version r) (mr_to_format_version r) target c) ∧
    rtc mstep r0 (mkMigration (mr_id r) (mr_from_format_version r) (mr_to_format_version r) target c)) as Hmoved.
  { intros c Hc Hmax. split; [split|].
    - split_and!; try done. unfold in_width in *. cbn. unfold u64_max in Hmax. lia.
    - apply m_validate_iff. cbn. split_and!; try done; try apply Hnz. unfold in_width in Hcu. lia.
    - eapply rtc_r; [exact Hr|]. by apply Hst. }
  destruct (checked_add _ 1) as [c|] eqn:Hc.
  - apply checked_add_inv in Hc as [-> Hc]. destruct (Hmoved (mr_transition_count r + 1) ltac:(lia) Hc) as [Hsm Hrm].
    set (r' := mkMigration _ _ _ target _) in *. destruct (write_record_locked root nonces r' x.1) as [w d] eqn:Hw.
    apply write_replaced in Hw as [Hrep _]; [|apply Hsm|by apply Hx]. intros [= <- <-].
    eapply replaced_since; eauto.
  - intros [= <- <-]. destruct (Hmoved (mr_transition_count r)) as [Hsm Hrm]; [lia| |].
    { unfold in_width in Hcu. unfold u64_max. lia. }
    destruct Hx as [Hq Hd _]. split; [done|done|]. by eexists.
Qed.
Lemma validation_since r0 nonces x res x' : since r0 x → begin_validation root nonces x = (res, x') → since r0 x'.
Proof. apply transition_since; [|done]. intros r c Hs Hc _. by constructor. Qed.
Lemma publish_since r0 nonces x res x' : since r0 x → publish root nonces x = (res, x') → since r0 x'.
Proof.
  apply transition_since; [|done]. intros r c Hs Hc [_ (_ & Hlt & _)%m_validate_iff]. by constructor.
Qed.
Lemma execute_since {H} r0 nonces (handler : MigrationHandler H) x h res x' h' :
  since r0 x → execute_once root nonces handler (x, h) = (res, (x', h')) → since r0 x'.
Proof.
  intros Hx. unfold execute_once. cbn [fst snd]. destruct (ms_state x.2) as [r|]; [|by intros [= <- <- <-]].
  destruct (mr_state r).
  - by intros [= <- <- <-].
  - destruct (h_copy handler r h) as [[] h1]; [|by intros [= <- <- <-]..]. unfold st_bind, st_ret.
    destruct (begin_validation root nonces x) as [r1 x1] eqn:Ht. apply (validation_since r0) in Ht; [|done].
    destruct r1; by intros [= <- <- <-].
  - destruct (h_verify_and_publish handler r h) as [[] h1]; [|by intros [= <- <- <-]..]. unfold st_bind, st_ret.
    destruct (publish root nonces x) as [r1 x1] eqn:Ht. apply (publish_since r0) in Ht; [|done].
    destruct r1; by intros [= <- <- <-].
  - by intros [= <- <- <-].
Qed.

(** What opening the journal finds. *)
Lemma open_inv configured d s d' : file_ok d → open root configured d = (Ok s, d') →
  StateFileSpec.kept root MIGRATION_RECORD_FILE MIGRATION_RECORD_LEN d d' ∧
  (∀ r, ms_state s = Some r → ∃ b, record d (d_names d) = Some b ∧ decode_migration_record b = Ok r).
Proof.
  intros Hq Ho. unfold open in Ho. apply st_bind_Ok in Ho as ([] & d1 & [_ ->]%st_lift_Ok & Ho).
  apply st_bind_Ok in Ho as ([] & d2 & Hrm & Ho). apply st_bind_Ok in Ho as (o & d3 & Hrd & Ho).
  apply st_bind_Ok in Ho as ([] & d4 & [_ ->]%st_lift_Ok & [= <- <-]).
  apply (StateFileSpec.remove_stale_kept root MIGRATION_RECORD_FILE _ MIGRATION_RECORD_LEN) in Hrm as Q; [|done|done].
  unfold read_migration_record in Hrd. apply st_bind_Ok in Hrd as (ob & d5 & Hb & Hrd).
  apply StateFileSpec.read_record_inv in Hb as [Hs Hb]. destruct (Hb ob eq_refl) as [Hnow _].
  assert (d3 = d5 ∧ ∀ r, o = Some r → ∃ b, ob = Some b ∧ decode_migration_record b = Ok r) as [-> Hdec].
  { destruct ob as [b|]; [|injection Hrd as <- <-; done].
    apply st_bind_Ok in Hrd as (r & d6 & [Hr ->]%st_lift_Ok & [= <- <-]). split; [done|]. intros r' [= <-]. by exists b. }
  split.
  - apply StateFileSpec.quiet_kept. eapply quiet_trans; [exact Q|]. by apply quiet_same; [apply Q|].
  - cbn. intros r Hr. destruct (Hdec r Hr) as (b & -> & Hd). exists b. split; [|done].
    rewrite <-(Hnow b eq_refl). symmetry. by apply (quiet_now _ _ _ _ _ _ Q).
Qed.

(** ** Histories *)

(** A step: an operation, whatever fails in it, a change of what will fail, or
    a restart whose calls do not deny that the record is there. *)
Inductive migration_step : Disk * MigrationStore → Disk * MigrationStore → Prop :=
| ms_begin nonces id to x : length (mig_bytes id) = 16%nat → is_u16 to →
    migration_step x (begin_with_id root nonces id to x).2
| ms_validate nonces x : migration_step x (begin_validation root nonces x).2
| ms_publish nonces x : migration_step x (publish root nonces x).2
| ms_execute H nonces (handler : MigrationHandler H) x h : migration_step x (execute_once root nonces handler (x, h)).2.1
| ms_faults d d' s : same_files d d' → migration_step (d, s) (d', s)
| ms_restart d s configured d1 s' d2 : crash d d1 → open root configured d1 = (Ok s', d2) →
    (ms_state s' = None → record d1 (d_names d1) = None) → migration_step (d, s) (d2, s').

Lemma kept_since r0 d d' s s' :
  since r0 (d, s) → StateFileSpec.kept root MIGRATION_RECORD_FILE MIGRATION_RECORD_LEN d d' →
  (∃ r, ms_state s' = Some r ∧ sound_record r ∧ rtc mstep r0 r) → since r0 (d', s').
Proof.
  intros [Hq Hd _] [Hq' Hs _] Hm. split; [done| |done]. intros m (m0 & Hm0 & Heq)%Hs. cbn [fst]. rewrite Heq. by apply Hd.
Qed.
Lemma step_since r0 x x' : since r0 x → migration_step x x' → since r0 x'.
Proof.
  intros Hx Hs. destruct Hs as [nonces id to x Hid Hto|nonces x|nonces x|H nonces handler x h|d d' s Hsame|d s configured d1 s' d2 Hc Ho Hnone].
  - destruct (begin_with_id _ _ _ _ x) as [r x'] eqn:Hr. by eapply begin_since.
  - destruct (begin_validation _ _ x) as [r x'] eqn:Hr. by eapply validation_since.
  - destruct (publish _ _ x) as [r x'] eqn:Hr. by eapply publish_since.
  - destruct (execute_once _ _ _ _) as [r [x' h']] eqn:Hr. by eapply execute_since.
  - eapply kept_since; [done| |apply Hx]. apply StateFileSpec.kept_same; [apply Hx|done].
  - destruct (StateFileSpec.record_crash _ _ _ _ _ (since_ok _ _ Hx) Hc) as (Hq1 & Hsp & m & Hm & Heq). cbn [fst] in *.
    destruct (since_disk _ _ Hx m Hm) as (r & Hr & Hsr & Hrr). cbn [fst] in *. rewrite Hr in Heq.
    assert (since r0 (d1, mkMigrationStore 0 (Some r))) as H1.
    { split; [done| |by exists r]. cbn [fst]. rewrite Hsp. intros m' ->%list_elem_of_singleton. by exists r. }
    destruct (open_inv _ _ _ _ Hq1 Ho) as [Hk Hmem]. eapply kept_since; [exact H1|exact Hk|].
    destruct (ms_state s') as [r'|] eqn:Hms; [|by rewrite Hnone in Heq].
    destruct (Hmem r' eq_refl) as (b & Hb & Hd). rewrite Heq in Hb. injection Hb as <-.
    rewrite decode_encode_migration in Hd by apply Hsr. injection Hd as <-. by exists r.
Qed.

(** A checkpoint that was reported. *)
Definition acknowledged (x : Disk * MigrationStore) (r : MigrationRecord) : Prop :=
  ∃ x0, file_ok x0.1 ∧ (∀ r0, ms_state x0.2 = Some r0 → sound_record r0) ∧ is_u16 (ms_configured x0.2) ∧
    ((∃ nonces id to, length (mig_bytes id) = 16%nat ∧ is_u16 to ∧ begin_with_id root nonces id to x0 = (Ok r, x)) ∨
     (∃ nonces, begin_validation root nonces x0 = (Ok r, x)) ∨ (∃ nonces, publish root nonces x0 = (Ok r, x))).
Lemma written_since nonces r x0 d s : migration_wf r → file_ok x0 →
  write_record_locked root nonces r x0 = (Ok (), d) → ms_state s = Some r → since r (d, s).
Proof.
  intros Hwf Hq Hw Hs. apply write_replaced in Hw as [[Hq' _ Hd] Hv]; [|done|done]. specialize (Hv eq_refl).
  split; [done| |by exists r]. intros m Hm. exists r. split; [by apply Hd|done].
Qed.
Lemma acknowledged_since x r : acknowledged x r → since r x.
Proof.
  intros (x0 & Hq & Hmem & Hcfg & Hcase).
  assert (∀ nonces expected target, transition root nonces expected target x0 = (Ok r, x) → since r x) as Htr.
  { intros nonces expected target. unfold transition. destruct (ms_state x0.2) as [r0|] eqn:Hm; [|done].
    destruct (Hmem r0 eq_refl) as [(Hid & Hf & Ht & Hc) _]. case_decide; [done|].
    destruct (checked_add _ 1) as [c|] eqn:Hca; [|done]. apply checked_add_inv in Hca as [-> Hca].
    destruct (write_record_locked _ _ _ _) as [[[]|e] d] eqn:Hw; [|done]. intros [= <- <-].
    eapply written_since; [|exact Hq|exact Hw|done]. split_and!; try done. unfold in_width, u64_max in *. cbn. lia. }
  destruct Hcase as [(nonces & id & to & Hid & Hto & Hb)|[[nonces Hb]|[nonces Hb]]]; [|by eapply Htr..].
  assert (∀ from, is_u16 from → begin_from root nonces id from to x0 = (Ok r, x) → since r x) as Hbf.
  { intros from Hfrom. unfold begin_from. case_decide; [done|].
    destruct (write_record_locked _ _ _ _) as [[[]|e] d] eqn:Hw; [|done]. intros [= <- <-].
    eapply written_since; [|exact Hq|exact Hw|done]. split_and!; done. }
  unfold begin_with_id in Hb. destruct (ms_state x0.2) as [r0|] eqn:Hm; [|by apply (Hbf _ Hcfg Hb)].
  destruct (is_partial _); [done|]. eapply Hbf; [|exact Hb]. destruct (Hmem r0 eq_refl) as [(_ & Hf & Ht & _) _].
  unfold active_format_version. by case_decide.
Qed.

(** C13. A reported migration checkpoint is never lost, and the active format
    never goes back. When [begin_with_id], [begin_validation] or [publish]
    returned the record [r], then after any history of journal operations and
    worker turns with any calls failing, of crashes and of restarts, the record
    in every name space a crash may find decodes to one that the state machine
    reaches from [r]: copying, validating, published, then a migration to a
    newer format that starts where the last one ended. Its active format
    version is at least that of [r]; the same holds for the checkpoint in
    memory. *)
Theorem acknowledged_migration_survives x r x' :
  acknowledged x r → rtc migration_step x x' →
  (∀ m, m ∈ spaces x'.1 → ∃ b r', record x'.1 m = Some b ∧ decode_migration_record b = Ok r' ∧ rtc mstep r r' ∧
     active_format_version r ≤ active_format_version r') ∧
  ∃ r', ms_state x'.2 = Some r' ∧ rtc mstep r r' ∧ active_format_version r ≤ active_format_version r'.
Proof.
  intros Ha Hh. assert (since r x') as Hx.
  { apply acknowledged_since in Ha. induction Hh as [|x1 x2 x3 Hs _ IH]; [done|]. by eapply IH, step_since. }
  split.
  - intros m Hm. destruct (since_disk _ _ Hx m Hm) as (r' & Hr & [Hwf Hv] & Hs). exists (migration_bytes r'), r'.
    split_and!; [done|by apply decode_encode_migration|done|by apply msteps_active].
  - destruct (since_memory _ _ Hx) as (r' & Hr & _ & Hs). exists r'. split_and!; [done|done|by apply msteps_active].
Qed.

(** A failed publication is reported as published. [transition] changes the
    checkpoint in memory before it writes the record and does not undo it: when
    [publish] fails from a validating checkpoint, whatever the error, [status]
    reports the target format as active and no migration to resume, and every
    later worker turn reports the migration as published, without calling the
    handler and without writing anything. *)
Theorem failed_publish_reports_published nonces r configured d e x :
  mr_state r = Validating →
  publish root nonces (d, mkMigrationStore configured (Some r)) = (Err e, x) →
  (status x.2).(mst_active_format_version) = mr_to_format_version r ∧
  (status x.2).(mst_resumable) = false ∧
  ∃ r', mr_state r' = Published ∧ mr_id r' = mr_id r ∧
    ∀ H nonces' (handler : MigrationHandler H) h,
      execute_once root nonces' handler (x, h) = (Ok (MgPublished r'), (x, h)).
Proof.
  intros Hs. unfold publish, transition. cbn [snd fst ms_state ms_configured]. rewrite decide_False by (by intros ?).
  destruct (checked_add _ 1) as [c|].
  - destruct (write_record_locked _ _ _ _) as [[[]|e'] d'] eqn:Hw; [done|]. intros [= <- <-].
    split_and!; [done|done|]. eexists. split_and!; [| |intros; unfold execute_once; cbn; done]; done.
  - intros [= <- <-]. split_and!; [done|done|]. eexists. split_and!; [| |intros; unfold execute_once; cbn; done]; done.
Qed.
End Store.

(** ** Runs *)

Definition demo_root : bytes := b_ "state".
Definition demo_migration : MigrationId := mkMigrationId (replicate 16 x09).
Definition demo_start : Disk * MigrationStore := (mkDisk [] ∅ [] [], mkMigrationStore 1 None).
Definition demo_begun := begin_with_id demo_root [0] demo_migration 2 demo_start.
Definition demo_validating := begin_validation demo_root [1] demo_begun.2.
(** The publication cannot create its temporary file. *)
Definition with_fault (x : Disk * MigrationStore) : Disk * MigrationStore :=
  (mkDisk (d_inodes x.1) (d_names x.1) (d_pending x.1) [Some (mkFault OtherIo 0)], x.2).
Lemma fault_step x : migration_step demo_root x (with_fault x).
Proof. destruct x as [d s]. by apply ms_faults. Qed.
Definition demo_unpublished := publish demo_root [2] (with_fault demo_validating.2).
Definition validating_record : MigrationRecord := mkMigration demo_migration 1 2 Validating 2.

Lemma failed_publish_reports_published_witness :
  demo_unpublished.1 = Err (MgIo OtherIo) ∧
  (status demo_unpublished.2.2).(mst_active_format_version) = 2 ∧
  bool_decide (StateFileSpec.record demo_root MIGRATION_RECORD_FILE demo_unpublished.2.1 (d_names demo_unpublished.2.1) =
    Some (migration_bytes validating_record)) = true.
Proof.
  assert (demo_unpublished.1 = Err (MgIo OtherIo)) as He by (vm_compute; reflexivity). split; [exact He|].
  assert ((with_fault demo_validating.2).2 = mkMigrationStore 1 (Some validating_record)) as Hm by (vm_compute; reflexivity).
  destruct (failed_publish_reports_published demo_root [2] validating_record 1 (with_fault demo_validating.2).1 (MgIo OtherIo)
    demo_unpublished.2) as (Ha & _).
  - reflexivity.
  - rewrite <-(StateFileSpec.pair_second _ _ Hm). exact (StateFileSpec.pair_first demo_unpublished _ He).
  - split; [exact Ha|]. vm_compute. reflexivity.
Defined.

Definition copying_record : MigrationRecord := mkMigration demo_migration 1 2 Copying 1.
Lemma demo_acknowledged : acknowledged demo_root demo_begun.2 copying_record.
Proof.
  exists demo_start. split; [apply Forall_singleton, map_Forall_empty|]. split; [done|]. split; [done|].
  left. exists [0], demo_migration, 2. split; [done|]. split; [done|].
  apply (StateFileSpec.pair_first demo_begun). vm_compute. reflexivity.
Qed.
(** The checkpoint after a validation and a publication that failed. *)
Lemma acknowledged_migration_survives_witness :
  ∃ r', ms_state demo_unpublished.2.2 = Some r' ∧ rtc mstep copying_record r' ∧ 1 ≤ active_format_version r'.
Proof.
  destruct (acknowledged_migration_survives demo_root demo_begun.2 copying_record demo_unpublished.2 demo_acknowledged)
    as [_ (r' & Hm & Hr & Ha)].
  - apply (rtc_l _ _ demo_validating.2); [apply ms_validate|].
    apply (rtc_l _ _ (with_fault demo_validating.2)); [apply fault_step|].
    apply rtc_once. apply ms_publish.
  - exists r'. split; [exact Hm|]. split; [exact Hr|exact Ha].
Defined.
End MigrationSpec.
