(* ===== verification/Btrfs.v ===== *)
(** * Loopback images and mounts: [reflink-forest-btrfs/src/lib.rs]

    The privileged executor, the initialization of images and instance
    markers, and the probes of a mount. A program that calls the host is a tree
    of calls whose answers it branches on: the theorems hold for every host. *)

From Stdlib Require Import ZArith Lia Strings.Byte Strings.String.
From stdpp Require Import base tactics list gmap strings.
From S2P Require Import Prelude Order Core Format Codec CatalogCodec Catalog Chunk Disk Store Git Reader Cache Checkout Workspace WorkspaceStore Jobs.
Import Core Codec CatalogCodec Chunk Git Reader.

#[local] Open Scope Z_scope.

Module Btrfs.

(** ** Paths and text *)

(** A [PathBuf] is what its [components] give, which is what [Path] compares. *)
Inductive Component := RootDir | CurDir | ParentDir | Normal (name : bytes).
#[export] Instance Component_eq_dec : EqDecision Component.
Proof. solve_decision. Defined.
Abbreviation PathBuf := (list Component).
Definition component (part : bytes) : option Component :=
  if decide (part = []) then None
  else if decide (part = b_ ".") then None
  else if decide (part = b_ "..") then Some ParentDir
  else Some (Normal part).
Definition path_of_bytes (b : bytes) : PathBuf :=
  let parts := split x2f b in
  (match b with
   | x2f :: _ => [RootDir]
   | _ => match parts with p :: _ => if decide (p = b_ ".") then [CurDir] else [] | [] => [] end
   end) ++ omap component parts.
Definition component_bytes (c : Component) : bytes :=
  match c with RootDir => [] | CurDir => b_ "." | ParentDir => b_ ".." | Normal name => name end.
Fixpoint join_components (l : PathBuf) : bytes :=
  match l with
  | [] => []
  | [c] => component_bytes c
  | c :: l => component_bytes c ++ b_ "/" ++ join_components l
  end.
Definition path_bytes (p : PathBuf) : bytes := if decide (p = [RootDir]) then b_ "/" else join_components p.
Definition path_parent (p : PathBuf) : option PathBuf :=
  match last p with
  | Some RootDir | None => None
  | Some _ => Some (removelast p)
  end.
Definition path_file_name (p : PathBuf) : option bytes :=
  match last p with Some (Normal name) => Some name | _ => None end.
Definition path_contains (p : PathBuf) (b : byte) : bool := existsb (λ c, bool_decide (b ∈ component_bytes c)) p.
Definition path_starts_with (p prefix : PathBuf) : bool := bool_decide (take (length prefix) p = prefix).

(** [str::split_once] at one byte, [str::lines]. *)
Fixpoint split_once (sep : byte) (b : bytes) : option (bytes * bytes) :=
  match b with
  | [] => None
  | x :: b =>
      if decide (x = sep) then Some ([], b)
      else match split_once sep b with Some (l, r) => Some (x :: l, r) | None => None end
  end.
Definition strip_cr (line : bytes) : bytes := default line (Jobs.strip_suffix line [x0d]).
Definition lines (b : bytes) : list bytes :=
  let parts := split x0a b in
  map strip_cr (removelast parts) ++ match last parts with Some [] | None => [] | Some l => [l] end.
(** One line terminator at the end, if there is one. *)
Definition strip_newline (b : bytes) : bytes :=
  match Jobs.strip_suffix b [x0d; x0a] with
  | Some b => b
  | None => default b (Jobs.strip_suffix b [x0a])
  end.

(** ** Data *)

Inductive BtrfsError :=
| BIo (e : IoErrorKind)
| InvalidMountRoot
| NonEmptyTarget (p : PathBuf)
| NotBtrfs (p : PathBuf)
| SymlinkMountRoot (p : PathBuf)
| CommandFailed (program : bytes) (status : option Z) (stderr : bytes)
| ExistingPath (p : PathBuf)
| UnsafeImagePath (p : PathBuf)
| InvalidMarker
| IdentityMismatch
| DuplicateLoopAssociation (device : bytes)
| InvalidLoopDevice (device : bytes)
| InvalidSize
| LoopBackingMismatch (device : bytes) (backing : PathBuf)
| InvalidCommandOutput (reason : string)
| ShrinkNotSupported (current requested : Z).
Abbreviation BResult := (result BtrfsError).

Inductive ImageAllocation := Sparse | Reserved.
Record InstanceMarker := mkMarker { instance_uuid : bytes; filesystem_uuid : bytes; label : bytes }.
#[export] Instance InstanceMarker_eq_dec : EqDecision InstanceMarker.
Proof. solve_decision. Defined.
Definition MARKER_MAGIC : bytes := b_ "RFSINST" ++ [x00].
Definition MARKER_VERSION : Z := 1.
Definition MARKER_FIXED_LEN : Z := 8 + 2 + 16 + 16 + 2.
Definition MAX_BTRFS_LABEL_BYTES : Z := 255.

Inductive PrivilegedPlan :=
| ListLoops
| AttachLoop (image : PathBuf)
| InspectLoopBacking (device : bytes)
| InspectFilesystem (device : bytes)
| FormatBtrfs (device label : bytes)
| Mount (device : bytes) (mount_root : PathBuf)
| GrowImage (image : PathBuf) (size : Z)
| RefreshLoopCapacity (device : bytes)
| ResizeFilesystem (mount_root : PathBuf)
| ShowQgroups (mount_root : PathBuf)
| ProbeTrim (mount_root : PathBuf).
#[export] Instance PrivilegedPlan_eq_dec : EqDecision PrivilegedPlan.
Proof. solve_decision. Defined.
Record Command := mkCommand { program : bytes; args : list bytes }.
Definition command (plan : PrivilegedPlan) : Command :=
  match plan with
  | ListLoops => mkCommand (b_ "losetup") [b_ "--all"]
  | AttachLoop image => mkCommand (b_ "losetup") [b_ "--find"; b_ "--show"; b_ "--nooverlap"; path_bytes image]
  | InspectLoopBacking device =>
      mkCommand (b_ "losetup") [b_ "--list"; b_ "--noheadings"; b_ "--raw"; b_ "--output"; b_ "BACK-FILE"; device]
  | InspectFilesystem device => mkCommand (b_ "blkid") [b_ "--output"; b_ "export"; b_ "--match-token"; b_ "TYPE=btrfs"; device]
  | FormatBtrfs device label => mkCommand (b_ "mkfs.btrfs") [b_ "--force"; b_ "--label"; label; device]
  | Mount device mount_root =>
      mkCommand (b_ "mount") [b_ "-t"; b_ "btrfs"; b_ "-o"; b_ "noatime,compress=zstd"; device; path_bytes mount_root]
  | GrowImage image size => mkCommand (b_ "truncate") [b_ "--size"; to_string size; path_bytes image]
  | RefreshLoopCapacity device => mkCommand (b_ "losetup") [b_ "--set-capacity"; device]
  | ResizeFilesystem mount_root => mkCommand (b_ "btrfs") [b_ "filesystem"; b_ "resize"; b_ "max"; path_bytes mount_root]
  | ShowQgroups mount_root => mkCommand (b_ "btrfs") [b_ "qgroup"; b_ "show"; b_ "--raw"; path_bytes mount_root]
  | ProbeTrim mount_root => mkCommand (b_ "fstrim") [b_ "--dry-run"; b_ "--verbose"; path_bytes mount_root]
  end.
Definition program_name (plan : PrivilegedPlan) : bytes :=
  match plan with
  | ListLoops | AttachLoop _ | InspectLoopBacking _ | RefreshLoopCapacity _ => b_ "losetup"
  | InspectFilesystem _ => b_ "blkid"
  | FormatBtrfs _ _ => b_ "mkfs.btrfs"
  | Mount _ _ => b_ "mount"
  | GrowImage _ _ => b_ "truncate"
  | ResizeFilesystem _ => b_ "btrfs filesystem resize"
  | ShowQgroups _ => b_ "btrfs qgroup show"
  | ProbeTrim _ => b_ "fstrim --dry-run"
  end.
Record CommandOutput := mkOutput { stdout : bytes; stderr : bytes }.
Definition success (out : bytes) : CommandOutput := mkOutput out [].
Record InspectedFilesystem := mkInspected { if_filesystem_uuid : bytes; if_label : bytes }.

(** ** Parsers of command output *)

Definition is_loop_device (device : bytes) : bool :=
  match strip_prefix (b_ "/dev/loop") device with
  | Some n => bool_decide (n ≠ []) && forallb is_ascii_digit n
  | None => false
  end.
Definition parse_loop_association (output : bytes) : option bytes :=
  head (omap (λ line, match split_once x3a line with
                      | Some (device, _) => if is_loop_device device then Some device else None
                      | None => None
                      end) (lines output)).
Definition hex_pair (x y : byte) : option byte :=
  hi ← Cache.hex_nibble x;
  lo ← Cache.hex_nibble y;
  Some (byte_of_Z (Z.lor (Z.shiftl hi 4) lo)).
(** [pair] is the first byte of a pair, [index] the hexadecimal digits seen. *)
Fixpoint uuid_loop (position index : nat) (pair : byte) (acc value : bytes) : option (nat * bytes) :=
  match value with
  | [] => Some (index, acc)
  | x :: value =>
      if bool_decide (position ∈ [8; 13; 18; 23]%nat)
      then if decide (x = x2d) then uuid_loop (S position) index pair acc value else None
      else if decide (32 ≤ index)%nat then None
      else if Nat.even index then uuid_loop (S position) (S index) x acc value
      else b ← hex_pair pair x; uuid_loop (S position) (S index) pair (acc ++ [b]) value
  end.
Definition parse_filesystem_uuid (value : bytes) : option bytes :=
  if decide (length value ≠ 36%nat) then None
  else '(index, bytes) ← uuid_loop 0 0 x00 [] value;
       if decide (index = 32%nat) then Some bytes else None.

Fixpoint listed_devices (ls : list bytes) (devices : list bytes) : BResult (list bytes) :=
  match ls with
  | [] => Ok devices
  | line :: ls =>
      '(device, _) ← ok_or (split_once x3a line) (InvalidCommandOutput "malformed losetup --all line");
      _ ← ensure (is_loop_device device && bool_decide (device ∉ devices)) (InvalidCommandOutput "invalid or duplicate loop device");
      listed_devices ls (devices ++ [device])
  end.
Definition parse_loop_device_listing (output : bytes) : BResult (list bytes) :=
  _ ← ensure (WorkspaceStore.is_utf8 output) (InvalidCommandOutput "losetup --all is not UTF-8");
  listed_devices (lines output) [].
Definition parse_attached_loop_device (output : bytes) : BResult bytes :=
  _ ← ensure (WorkspaceStore.is_utf8 output) (InvalidCommandOutput "losetup device is not UTF-8");
  let device := strip_newline output in
  _ ← ensure (is_loop_device device && bool_decide (device ≠ [])) (InvalidCommandOutput "invalid losetup --show device");
  Ok device.
Definition parse_single_backing_path (output : bytes) : BResult PathBuf :=
  let output := strip_newline output in
  _ ← ensure (bool_decide (output ≠ []) && bool_decide (x0a ∉ output) && bool_decide (x0d ∉ output))
             (InvalidCommandOutput "invalid loop backing path");
  Ok (path_of_bytes output).

(** The identifier, the label and whether the type was seen. *)
Fixpoint blkid_fields (ls : list bytes) (uuid name : option bytes) (btrfs : bool) : BResult (option bytes * option bytes * bool) :=
  match ls with
  | [] => Ok (uuid, name, btrfs)
  | line :: ls =>
      '(key, value) ← ok_or (split_once x3d line) (InvalidCommandOutput "malformed blkid export line");
      if decide (key = b_ "UUID") then
        u ← ok_or (parse_filesystem_uuid value) (InvalidCommandOutput "invalid Btrfs UUID");
        _ ← ensure (bool_decide (uuid = None)) (InvalidCommandOutput "duplicate Btrfs UUID");
        blkid_fields ls (Some u) name btrfs
      else if decide (key = b_ "LABEL") then
        _ ← ensure (bool_decide (name = None)) (InvalidCommandOutput "duplicate Btrfs label");
        blkid_fields ls uuid (Some value) btrfs
      else if decide (key = b_ "TYPE") then
        _ ← ensure (bool_decide (value = b_ "btrfs")) (InvalidCommandOutput "non-Btrfs blkid type");
        blkid_fields ls uuid name true
      else blkid_fields ls uuid name btrfs
  end.
Definition parse_blkid_export_identity (output : bytes) : BResult InspectedFilesystem :=
  _ ← ensure (WorkspaceStore.is_utf8 output) (InvalidCommandOutput "blkid output is not UTF-8");
  '(uuid, name, btrfs) ← blkid_fields (lines output) None None false;
  _ ← ensure btrfs (InvalidCommandOutput "missing Btrfs type");
  uuid ← ok_or uuid (InvalidCommandOutput "missing Btrfs UUID");
  name ← ok_or name (InvalidCommandOutput "missing Btrfs label");
  Ok (mkInspected uuid name).

(** ** Calls of the host *)

Inductive FileType := Regular | Directory | Symlink | OtherType.
#[export] Instance FileType_eq_dec : EqDecision FileType.
Proof. solve_decision. Defined.
Record FileMetadata := mkMetadata { m_type : FileType; m_len : Z }.
(** The code keeps a file open over some of these calls; it is named by its path. *)
Inductive HostCall :=
| Run (plan : PrivilegedPlan)
| Canonicalize (p : PathBuf)
| SymlinkMetadata (p : PathBuf)
| MetadataOf (p : PathBuf)
| IsDir (p : PathBuf)
| Exists (p : PathBuf)
| CreateNew (p : PathBuf)
| SetLen (p : PathBuf) (size : Z)
| PosixFallocate (p : PathBuf) (size : Z)
| WriteAll (p : PathBuf) (data : bytes)
| SyncAll (p : PathBuf)
| OpenRead (p : PathBuf)
| OpenWrite (p : PathBuf)
| ReadFile (p : PathBuf)
| RemoveFile (p : PathBuf)
| CreateDirAll (p : PathBuf)
| Ficlone (source destination : PathBuf)
| Statfs (p : PathBuf)
| SubvolumeCreate (p : PathBuf).
(** What the host answers: a runner may fail with any error. *)
Definition answer (c : HostCall) : Type :=
  match c with
  | Run _ => BResult CommandOutput
  | Canonicalize _ => result IoErrorKind PathBuf
  | SymlinkMetadata _ | MetadataOf _ => result IoErrorKind FileMetadata
  | IsDir _ | Exists _ => bool
  | ReadFile _ => result IoErrorKind bytes
  | Statfs _ => result IoErrorKind Z
  | SubvolumeCreate _ => result IoErrorKind (option (option Z * bytes))
  | _ => result IoErrorKind unit
  end.

(** A program either ends or makes a call and goes on with its answer. *)
Inductive Prog (A : Type) : Type :=
| Return (r : BResult A)
| Ask (c : HostCall) (k : answer c → Prog A).
#[global] Arguments Return {A} _.
#[global] Arguments Ask {A} _ _.
(** Goes on with the outcome, whether or not it is an error. *)
Fixpoint attempt {A B} (m : Prog A) (f : BResult A → Prog B) : Prog B :=
  match m with
  | Return r => f r
  | Ask c k => Ask c (λ x, attempt (k x) f)
  end.
Definition stop {A} (e : BtrfsError) : Prog A := Return (Err e).
Definition bind {A B} (m : Prog A) (f : A → Prog B) : Prog B :=
  attempt m (λ r, match r with Ok a => f a | Err e => stop e end).
Definition give {A} (a : A) : Prog A := Return (Ok a).
Definition check (c : bool) (e : BtrfsError) : Prog unit := Return (ensure c e).
Definition io {A} (r : result IoErrorKind A) : Prog A := Return (map_err BIo r).
Declare Scope prog_scope.
Notation "x ↤ m ; k" := (bind m (λ x, k)) (at level 20, m at level 100, k at level 200, only parsing) : prog_scope.
Open Scope prog_scope.
Definition run (plan : PrivilegedPlan) : Prog CommandOutput := Ask (Run plan) Return.
Definition canonicalize (p : PathBuf) : Prog PathBuf := Ask (Canonicalize p) io.
Definition symlink_metadata (p : PathBuf) : Prog FileMetadata := Ask (SymlinkMetadata p) io.
Definition is_dir (p : PathBuf) : Prog bool := Ask (IsDir p) give.
Definition create_new (p : PathBuf) : Prog unit := Ask (CreateNew p) io.
Definition write_all (p : PathBuf) (data : bytes) : Prog unit := Ask (WriteAll p data) io.
Definition sync_all (p : PathBuf) : Prog unit := Ask (SyncAll p) io.
Definition remove_file (p : PathBuf) : Prog unit := Ask (RemoveFile p) io.
Definition read_file (p : PathBuf) : Prog bytes := Ask (ReadFile p) io.
(** [File::open(p)?.sync_all()?]. *)
Definition sync_directory (p : PathBuf) : Prog unit := _ ↤ Ask (OpenRead p) io; sync_all p.

(** ** Paths of new files and of images *)

Definition checked_new_file_path (p : PathBuf) : Prog PathBuf :=
  parent ↤ Return (ok_or (path_parent p) (UnsafeImagePath p));
  parent ↤ canonicalize parent;
  dir ↤ is_dir parent;
  name ↤ Return (match dir, path_file_name p with true, Some name => Ok name | _, _ => Err (UnsafeImagePath p) end);
  let result_ := parent ++ [Normal name] in
  attempt (symlink_metadata result_) (λ r, if is_ok r then stop (ExistingPath result_) else give result_).
Definition checked_new_file_path_in_parent (p configured_parent : PathBuf) : Prog PathBuf :=
  configured_parent ↤ canonicalize configured_parent;
  dir ↤ is_dir configured_parent;
  _ ↤ check dir (UnsafeImagePath configured_parent);
  parent ↤ Return (ok_or (path_parent p) (UnsafeImagePath p));
  candidate_parent ↤ canonicalize parent;
  name ↤ Return (ok_or (path_file_name p) (UnsafeImagePath p));
  _ ↤ check (bool_decide (candidate_parent = configured_parent)) (UnsafeImagePath p);
  let candidate := configured_parent ++ [Normal name] in
  attempt (symlink_metadata candidate) (λ r,
    match r with
    | Ok _ => stop (ExistingPath candidate)
    | Err (BIo NotFound) => give candidate
    | Err e => stop e
    end).
Definition validate_btrfs_label (name : bytes) : BResult unit :=
  ensure (bool_decide (name ≠ []) && bool_decide (blen name ≤ MAX_BTRFS_LABEL_BYTES) &&
          bool_decide (x00 ∉ name) && bool_decide (x0a ∉ name) && bool_decide (x0d ∉ name)) InvalidMarker.
Definition validate_backing_image (image configured_parent : PathBuf) : Prog PathBuf :=
  parent ↤ canonicalize configured_parent;
  metadata ↤ symlink_metadata image;
  _ ↤ check (bool_decide (m_type metadata = Regular)) (UnsafeImagePath image);
  image ↤ canonicalize image;
  _ ↤ check (path_starts_with image parent) (UnsafeImagePath image);
  give image.
Definition checked_mount_root (p : PathBuf) : Prog PathBuf :=
  metadata ↤ symlink_metadata p;
  _ ↤ check (bool_decide (m_type metadata = Directory)) InvalidMountRoot;
  canonicalize p.
Definition checked_probe_root (p : PathBuf) : Prog PathBuf :=
  metadata ↤ symlink_metadata p;
  _ ↤ check (bool_decide (m_type metadata ≠ Symlink)) (SymlinkMountRoot p);
  _ ↤ check (bool_decide (m_type metadata = Directory)) InvalidMountRoot;
  canonicalize p.

(** ** Images and markers *)

(** [size as off_t]. *)
Definition as_off_t (size : Z) : Z := if decide (size < 2 ^ 63) then size else size - 2 ^ 64.
Definition create_sparse_image (p : PathBuf) (logical_size : Z) : Prog unit :=
  _ ↤ check (bool_decide (logical_size ≠ 0)) (BIo InvalidInput);
  parent ↤ Return (ok_or (path_parent p) (BIo InvalidInput));
  _ ↤ create_new p;
  _ ↤ Ask (SetLen p logical_size) io;
  _ ↤ sync_all p;
  sync_directory parent.
(** The parent exists, since the path was checked. *)
Definition reserve_image (p : PathBuf) (size : Z) : Prog unit :=
  _ ↤ create_new p;
  _ ↤ attempt (Ask (PosixFallocate p (as_off_t size)) io) (λ r,
        match r with
        | Ok _ => give ()
        | Err e => attempt (remove_file p) (λ _, stop e)
        end);
  _ ↤ sync_all p;
  sync_directory (default [] (path_parent p)).
Definition initialize_loopback_image (p : PathBuf) (size : Z) (allocation : ImageAllocation) : Prog PathBuf :=
  _ ↤ check (bool_decide (size ≠ 0)) InvalidSize;
  path ↤ checked_new_file_path p;
  _ ↤ match allocation with Sparse => create_sparse_image path size | Reserved => reserve_image path size end;
  give path.
Definition write_instance_marker (p : PathBuf) (marker : InstanceMarker) : Prog PathBuf :=
  _ ↤ Return (validate_btrfs_label (label marker));
  path ↤ checked_new_file_path p;
  _ ↤ create_new path;
  _ ↤ write_all path MARKER_MAGIC;
  _ ↤ write_all path (be_encode 2 MARKER_VERSION);
  _ ↤ write_all path (instance_uuid marker);
  _ ↤ write_all path (filesystem_uuid marker);
  _ ↤ write_all path (be_encode 2 (blen (label marker) mod 2 ^ 16));
  _ ↤ write_all path (label marker);
  _ ↤ sync_all path;
  _ ↤ sync_directory (default [] (path_parent path));
  give path.
Definition decode_instance_marker (data : bytes) : BResult InstanceMarker :=
  _ ← ensure (bool_decide (MARKER_FIXED_LEN ≤ blen data) && bool_decide (slice 0 8 data = MARKER_MAGIC) &&
              bool_decide (read_u16 data 8 = MARKER_VERSION)) InvalidMarker;
  _ ← ensure (bool_decide (blen data = MARKER_FIXED_LEN + read_u16 data 42)) InvalidMarker;
  let name := drop (Z.to_nat MARKER_FIXED_LEN) data in
  _ ← ensure (WorkspaceStore.is_utf8 name) InvalidMarker;
  _ ← ensure (bool_decide (name ≠ [])) InvalidMarker;
  Ok (mkMarker (slice 10 16 data) (slice 26 16 data) name).
Definition read_instance_marker (p : PathBuf) : Prog InstanceMarker :=
  metadata ↤ symlink_metadata p;
  _ ↤ check (bool_decide (m_type metadata = Regular)) InvalidMarker;
  _ ↤ check (bool_decide (MARKER_FIXED_LEN ≤ m_len metadata ≤ MARKER_FIXED_LEN + u16_max)) InvalidMarker;
  data ↤ read_file p;
  Return (decode_instance_marker data).
Definition verify_instance_identity (marker : InstanceMarker) (uuid name : bytes) : BResult unit :=
  ensure (bool_decide (filesystem_uuid marker = uuid) && bool_decide (label marker = name)) IdentityMismatch.

(** ** Plans *)

Definition plan_attach (image configured_parent : PathBuf) (losetup_output : bytes) : Prog PrivilegedPlan :=
  image ↤ validate_backing_image image configured_parent;
  match parse_loop_association losetup_output with
  | Some device => stop (DuplicateLoopAssociation device)
  | None => give (AttachLoop image)
  end.
Definition plan_mount (device : bytes) (mount_root : PathBuf) : Prog PrivilegedPlan :=
  _ ↤ check (is_loop_device device) (InvalidLoopDevice device);
  metadata ↤ symlink_metadata mount_root;
  _ ↤ check (bool_decide (m_type metadata = Directory)) InvalidMountRoot;
  mount_root ↤ canonicalize mount_root;
  give (Mount device mount_root).
Definition plan_grow (image configured_parent : PathBuf) (size : Z) : Prog PrivilegedPlan :=
  _ ↤ check (bool_decide (size ≠ 0)) InvalidSize;
  image ↤ validate_backing_image image configured_parent;
  give (GrowImage image size).
Definition show_qgroups (mount_root : PathBuf) : Prog PrivilegedPlan :=
  mount_root ↤ checked_mount_root mount_root; give (ShowQgroups mount_root).
Definition probe_trim (mount_root : PathBuf) : Prog PrivilegedPlan :=
  mount_root ↤ checked_mount_root mount_root; give (ProbeTrim mount_root).

(** ** Configurations *)

Record LoopbackInitializationConfig := mkInitialization {
  in_image : PathBuf; in_marker_path : PathBuf; in_size : Z; in_allocation : ImageAllocation; in_label : bytes;
  in_instance_uuid : bytes }.
Definition initialization_new (image configured_parent marker_path : PathBuf) (size : Z) (allocation : ImageAllocation)
    (name uuid : bytes) : Prog LoopbackInitializationConfig :=
  _ ↤ check (bool_decide (size ≠ 0)) InvalidSize;
  _ ↤ Return (validate_btrfs_label name);
  image ↤ checked_new_file_path_in_parent image configured_parent;
  marker_path ↤ checked_new_file_path_in_parent marker_path configured_parent;
  _ ↤ check (bool_decide (image ≠ marker_path)) (UnsafeImagePath image);
  give (mkInitialization image marker_path size allocation name uuid).
Record InitializedLoopback := mkInitialized {
  il_image : PathBuf; il_marker_path : PathBuf; il_marker : InstanceMarker; il_device : bytes }.
Record PrivilegedExecutorConfig := mkConfig { cf_image : PathBuf; cf_mount_root : PathBuf; cf_marker : InstanceMarker }.
Definition config_new (image configured_parent mount_root : PathBuf) (marker : InstanceMarker) : Prog PrivilegedExecutorConfig :=
  _ ↤ Return (validate_btrfs_label (label marker));
  image ↤ validate_backing_image image configured_parent;
  _ ↤ check (negb (path_contains image x0a || path_contains image x0d)) (UnsafeImagePath image);
  mount_root ↤ checked_mount_root mount_root;
  give (mkConfig image mount_root marker).

(** ** The executor *)

Definition inspect_loop_backing (device : bytes) : Prog PathBuf :=
  output ↤ run (InspectLoopBacking device);
  backing ↤ Return (parse_single_backing_path (stdout output));
  canonicalize backing.
Definition initialize_new_loopback (i : LoopbackInitializationConfig) : Prog InitializedLoopback :=
  image ↤ initialize_loopback_image (in_image i) (in_size i) (in_allocation i);
  output ↤ run (AttachLoop image);
  device ↤ Return (parse_attached_loop_device (stdout output));
  backing ↤ inspect_loop_backing device;
  _ ↤ check (bool_decide (backing = image)) (LoopBackingMismatch device backing);
  _ ↤ run (FormatBtrfs device (in_label i));
  output ↤ run (InspectFilesystem device);
  inspected ↤ Return (parse_blkid_export_identity (stdout output));
  _ ↤ check (bool_decide (if_label inspected = in_label i)) IdentityMismatch;
  let marker := mkMarker (in_instance_uuid i) (if_filesystem_uuid inspected) (if_label inspected) in
  _ ↤ write_instance_marker (in_marker_path i) marker;
  give (mkInitialized image (in_marker_path i) marker device).

Section Executor.
Context (config : PrivilegedExecutorConfig).

Fixpoint matching_devices (devices matches : list bytes) : Prog (list bytes) :=
  match devices with
  | [] => give matches
  | device :: devices =>
      backing ↤ inspect_loop_backing device;
      matching_devices devices (if decide (backing = cf_image config) then matches ++ [device] else matches)
  end.
Definition attach_or_reuse : Prog bytes :=
  output ↤ run ListLoops;
  devices ↤ Return (parse_loop_device_listing (stdout output));
  matches ↤ matching_devices devices [];
  match matches with
  | [device] => give device
  | [] =>
      output ↤ run (AttachLoop (cf_image config));
      device ↤ Return (parse_attached_loop_device (stdout output));
      backing ↤ inspect_loop_backing device;
      _ ↤ check (bool_decide (backing = cf_image config)) (LoopBackingMismatch device backing);
      give device
  | _ :: duplicate :: _ => stop (DuplicateLoopAssociation duplicate)
  end.
Definition verify_loop_identity (device : bytes) : Prog InspectedFilesystem :=
  output ↤ run (InspectFilesystem device);
  inspected ↤ Return (parse_blkid_export_identity (stdout output));
  _ ↤ Return (verify_instance_identity (cf_marker config) (if_filesystem_uuid inspected) (if_label inspected));
  give inspected.
Definition mount : Prog bytes :=
  device ↤ attach_or_reuse;
  _ ↤ verify_loop_identity device;
  _ ↤ run (Mount device (cf_mount_root config));
  give device.
Definition grow (size : Z) : Prog unit :=
  _ ↤ check (bool_decide (size ≠ 0)) InvalidSize;
  metadata ↤ Ask (MetadataOf (cf_image config)) io;
  _ ↤ check (bool_decide (m_len metadata < size)) (ShrinkNotSupported (m_len metadata) size);
  device ↤ attach_or_reuse;
  _ ↤ verify_loop_identity device;
  _ ↤ run (GrowImage (cf_image config) size);
  _ ↤ run (RefreshLoopCapacity device);
  _ ↤ run (ResizeFilesystem (cf_mount_root config));
  give ().
End Executor.

(** ** The clone-domain probe and the native layout *)

Record CloneDomainProbe := mkProbe { reflink_succeeded : bool; mutation_isolated : bool }.
Definition probe_path (root : PathBuf) (nonce : Z) : PathBuf := root ++ [Normal (b_ ".reflink-forest-probe-" ++ dec_digits 39 nonce [])].
Definition SOURCE_BYTES : bytes := b_ "reflink-forest source bytes".
Definition CHANGED_BYTES : bytes := b_ "reflink-forest changed-byte".
Definition probe_body (source destination : PathBuf) : Prog CloneDomainProbe :=
  _ ↤ create_new source;
  _ ↤ write_all source SOURCE_BYTES;
  _ ↤ sync_all source;
  _ ↤ create_new destination;
  _ ↤ Ask (Ficlone source destination) io;
  data ↤ read_file destination;
  _ ↤ check (bool_decide (data = SOURCE_BYTES)) IdentityMismatch;
  _ ↤ Ask (OpenWrite destination) io;
  _ ↤ write_all destination CHANGED_BYTES;
  _ ↤ sync_all destination;
  data ↤ read_file source;
  _ ↤ check (bool_decide (data = SOURCE_BYTES)) IdentityMismatch;
  give (mkProbe true true).
(** [nonce] is the clock's nanoseconds since the epoch, a [u128]. *)
Definition probe_clone_domain (cache_root staging_root : PathBuf) (nonce : Z) : Prog CloneDomainProbe :=
  cache_root ↤ checked_probe_root cache_root;
  staging_root ↤ checked_probe_root staging_root;
  let source := probe_path cache_root nonce in
  let destination := probe_path staging_root nonce in
  attempt (probe_body source destination) (λ result_,
  attempt (remove_file source) (λ source_removed,
  attempt (remove_file destination) (λ destination_removed,
    _ ↤ (if is_ok source_removed then sync_directory cache_root else give ());
    _ ↤ (if is_ok destination_removed then sync_directory staging_root else give ());
    Return result_))).

Record NativeLayout := mkLayout { l_mount_root : PathBuf; l_cache : PathBuf; l_staging : PathBuf; l_trash : PathBuf; l_workspaces : PathBuf }.
Definition internal (mount_root : PathBuf) (name : string) : PathBuf := mount_root ++ [Normal (b_ "internal"); Normal (b_ name)].
Definition native_layout (mount_root : PathBuf) : Prog NativeLayout :=
  metadata ↤ symlink_metadata mount_root;
  _ ↤ check (bool_decide (m_type metadata ≠ Symlink)) (SymlinkMountRoot mount_root);
  _ ↤ check (bool_decide (m_type metadata = Directory)) InvalidMountRoot;
  give (mkLayout mount_root (internal mount_root "cache") (internal mount_root "staging") (internal mount_root "trash")
          (mount_root ++ [Normal (b_ "workspaces")])).
Definition BTRFS_SUPER_MAGIC : Z := 2435016766.
Definition verify_btrfs_mount (mount_root : PathBuf) : Prog unit :=
  metadata ↤ symlink_metadata mount_root;
  _ ↤ check (bool_decide (m_type metadata ≠ Symlink)) (SymlinkMountRoot mount_root);
  _ ↤ check (bool_decide (m_type metadata = Directory)) InvalidMountRoot;
  _ ↤ check (negb (path_contains mount_root x00)) InvalidMountRoot;
  f_type ↤ Ask (Statfs mount_root) io;
  check (bool_decide (f_type = BTRFS_SUPER_MAGIC)) (NotBtrfs mount_root).
(** A process that was started ends with success, or with a status and its
    error output. *)
Definition run_btrfs_subvolume_create (p : PathBuf) : Prog unit :=
  failure ↤ Ask (SubvolumeCreate p) io;
  match failure with
  | None => give ()
  | Some (status, stderr) => stop (CommandFailed (b_ "btrfs subvolume create") status stderr)
  end.
Fixpoint each {A} (f : A → Prog unit) (l : list A) : Prog unit :=
  match l with
  | [] => give ()
  | a :: l => _ ↤ f a; each f l
  end.
Definition layout_paths (l : NativeLayout) : list PathBuf := [l_cache l; l_staging l; l_trash l; l_workspaces l].
Definition initialize_native (l : NativeLayout) : Prog unit :=
  _ ↤ verify_btrfs_mount (l_mount_root l);
  _ ↤ each (λ p, present ↤ Ask (Exists p) give; check (negb present) (NonEmptyTarget p)) (layout_paths l);
  _ ↤ Ask (CreateDirAll (l_mount_root l ++ [Normal (b_ "internal")])) io;
  each run_btrfs_subvolume_create (layout_paths l).
End Btrfs.
