(* ===== verification/BtrfsSpec.v ===== *)
(** * What the privileged executor guarantees

    Whatever the host answers, each privileged command is run only after the
    checks that justify it. *)

From Stdlib Require Import ZArith Lia Strings.Byte Strings.String.
From stdpp Require Import base tactics list gmap strings.
From S2P Require Import Prelude Order Core Format Codec CatalogCodec Catalog Chunk Disk Store Git Reader Cache Checkout Workspace WorkspaceStore Jobs Btrfs.
Import Core Codec CatalogCodec Chunk Git Reader Btrfs.

#[local] Open Scope Z_scope.

Module BtrfsSpec.

#[local] Set Warnings "-clear-no-such-hyp".

(** ** Histories *)

(** A call that was made, and what the host answered. *)
Inductive Event := Happened (c : HostCall) (x : answer c).
Definition call_of (e : Event) : HostCall := match e with Happened c _ => c end.
(** [p] makes the calls of [l] and ends with [r]. *)
Fixpoint trace {A} (p : Prog A) (l : list Event) (r : BResult A) : Prop :=
  match p with
  | Return r' => l = [] ∧ r = r'
  | Ask c k => ∃ x l', l = Happened c x :: l' ∧ trace (k x) l' r
  end.
(** The history against one host, whose answers may depend on the past. *)
Fixpoint play {A} (host : list Event → ∀ c, answer c) (past : list Event) (p : Prog A) : list Event * BResult A :=
  match p with
  | Return r => ([], r)
  | Ask c k =>
      let x := host past c in
      let '(l, r) := play host (past ++ [Happened c x]) (k x) in (Happened c x :: l, r)
  end.
Lemma play_trace {A} host (p : Prog A) : ∀ past, trace p (play host past p).1 (play host past p).2.
Proof.
  induction p as [r|c k IH]; intros past; cbn [play trace]; [done|]. specialize (IH (host past c) (past ++ [Happened c (host past c)])).
  destruct (play host _ (k _)) as [l r]. by exists (host past c), l.
Qed.

(** ** Reasoning over histories *)

(** Every call is made in a past that [guard] allows, and the end satisfies [post]. *)
Fixpoint ensures {A} (guard : list Event → HostCall → Prop) (past : list Event) (p : Prog A)
    (post : list Event → BResult A → Prop) : Prop :=
  match p with
  | Return r => post past r
  | Ask c k => guard past c ∧ ∀ x, ensures guard (past ++ [Happened c x]) (k x) post
  end.
Lemma ensures_trace {A} guard (p : Prog A) post : ∀ past l r,
  ensures guard past p post → trace p l r →
  (∀ l1 c x l2, l = l1 ++ Happened c x :: l2 → guard (past ++ l1) c) ∧ post (past ++ l) r.
Proof.
  induction p as [r'|c k IH]; intros past l r; cbn [ensures trace].
  - intros Hp [-> ->]. rewrite app_nil_r. split; [|done]. by intros [] ? ? ?.
  - intros [Hg Hk] (x & l' & -> & Ht). destruct (IH x (past ++ [Happened c x]) l' r (Hk x) Ht) as [Hall Hpost].
    rewrite <-app_assoc in Hpost. split; [|done]. intros [|e l1] c' x' l2 Heq.
    + rewrite app_nil_r. pose proof (f_equal (option_map call_of) (f_equal head Heq)) as [= <-]. done.
    + injection Heq as He ->. subst e. specialize (Hall l1 c' x' l2 eq_refl). by rewrite <-app_assoc in Hall.
Qed.
Lemma ensures_attempt {A B} guard (m : Prog A) (f : BResult A → Prog B) post : ∀ past,
  ensures guard past m (λ past r, ensures guard past (f r) post) → ensures guard past (attempt m f) post.
Proof. induction m as [r|c k IH]; intros past; cbn [ensures attempt]; [done|]. intros [Hg Hk]. eauto. Qed.
Lemma ensures_bind {A B} guard (m : Prog A) (f : A → Prog B) past post :
  ensures guard past m (λ past r, match r with Ok a => ensures guard past (f a) post | Err e => post past (Err e) end) →
  ensures guard past (bind m f) post.
Proof.
  intros H. apply ensures_attempt. revert H. revert past. induction m as [[a|e]|c k IH]; intros past; cbn [ensures]; [done|done|].
  intros [Hg Hk]. eauto.
Qed.
Lemma ensures_mono {A} guard (p : Prog A) (post post' : list Event → BResult A → Prop) : ∀ past,
  (∀ l r, post (past ++ l) r → post' (past ++ l) r) → ensures guard past p post → ensures guard past p post'.
Proof.
  induction p as [r|c k IH]; intros past Himp; cbn [ensures].
  - specialize (Himp [] r). by rewrite app_nil_r in Himp.
  - intros [Hg Hk]. split; [done|]. intros x. apply (IH x); [|done]. intros l r. rewrite <-app_assoc. apply Himp.
Qed.

Lemma ensures_run {A} (guard : list Event → HostCall → Prop) past plan (f : CommandOutput → Prog A) (post : list Event → BResult A → Prop) :
  guard past (Run plan) → (∀ out, ensures guard (past ++ [Happened (Run plan) (Ok out)]) (f out) post) →
  (∀ e, post (past ++ [Happened (Run plan) (Err e)]) (Err e)) → ensures guard past (bind (run plan) f) post.
Proof. intros Hg Hok Herr. split; [done|]. intros [out|e]; [apply Hok|apply Herr]. Qed.
Lemma ensures_ask {A B} (guard : list Event → HostCall → Prop) past c (k : answer c → Prog A) (f : A → Prog B) post :
  guard past c → (∀ x, ensures guard (past ++ [Happened c x]) (bind (k x) f) post) → ensures guard past (bind (Ask c k) f) post.
Proof. by split. Qed.
Lemma ensures_return {A B} (guard : list Event → HostCall → Prop) past (r : BResult A) (f : A → Prog B) (post : list Event → BResult B → Prop) :
  (∀ a, r = Ok a → ensures guard past (f a) post) → (∀ e, r = Err e → post past (Err e)) →
  ensures guard past (bind (Return r) f) post.
Proof. intros Hok Herr. destruct r as [a|e]; [by apply Hok|by apply Herr]. Qed.

(** ** What was checked *)

(** The device was found to be backed by the file [image]. *)
Definition backed (image : PathBuf) (device : bytes) (l : list Event) : Prop :=
  ∃ l1 l2 out p, l = l1 ++ [Happened (Run (InspectLoopBacking device)) (Ok out); Happened (Canonicalize p) (Ok image)] ++ l2 ∧
    parse_single_backing_path (stdout out) = Ok p.
(** The device was found to hold the file system [uuid] with the label [name]. *)
Definition identified (uuid name device : bytes) (l : list Event) : Prop :=
  ∃ l1 l2 out, l = l1 ++ [Happened (Run (InspectFilesystem device)) (Ok out)] ++ l2 ∧
    parse_blkid_export_identity (stdout out) = Ok (mkInspected uuid name).
(** A command succeeded. *)
Definition done_ (plan : PrivilegedPlan) (l : list Event) : Prop := ∃ out, Happened (Run plan) (Ok out) ∈ l.
Lemma backed_app image device l l' : backed image device l → backed image device (l ++ l').
Proof. intros (l1 & l2 & out & p & -> & Hp). exists l1, (l2 ++ l'), out, p. by rewrite <-!app_assoc. Qed.
Lemma backed_after image device l0 l : backed image device l → backed image device (l0 ++ l).
Proof. intros (l1 & l2 & out & p & -> & Hp). exists (l0 ++ l1), l2, out, p. by rewrite <-!app_assoc. Qed.
Lemma identified_app uuid name device l l' : identified uuid name device l → identified uuid name device (l ++ l').
Proof. intros (l1 & l2 & out & -> & Hp). exists l1, (l2 ++ l'), out. by rewrite <-!app_assoc. Qed.
Lemma done_app plan l l' : done_ plan l → done_ plan (l ++ l').
Proof. intros [out Ho]. exists out. apply elem_of_app. by left. Qed.

Section Executor.
Context (config : PrivilegedExecutorConfig).
Abbreviation image := (cf_image config).
Abbreviation marker := (cf_marker config).

(** First the backing file, then the identity. *)
Definition verified (device : bytes) (l : list Event) : Prop :=
  is_loop_device device = true ∧
  ∃ l1 l2, l = l1 ++ l2 ∧ backed image device l1 ∧ identified (filesystem_uuid marker) (label marker) device l2.
(** No listed device is backed by the image. *)
Definition unattached (l : list Event) : Prop :=
  ∃ out devices, Happened (Run ListLoops) (Ok out) ∈ l ∧ parse_loop_device_listing (stdout out) = Ok devices ∧
    ∀ device, device ∈ devices → ∃ other, other ≠ image ∧ backed other device l.
(** The calls the executor may make after [past] to mount, or to grow to a size. *)
Definition permitted (target : option Z) (past : list Event) (c : HostCall) : Prop :=
  match c with
  | Run ListLoops | Canonicalize _ => True
  | Run (InspectLoopBacking device) | Run (InspectFilesystem device) => is_loop_device device = true
  | Run (AttachLoop p) => p = image ∧ unattached past
  | Run (Mount device root) => target = None ∧ root = cf_mount_root config ∧ verified device past
  | MetadataOf p => is_Some target ∧ p = image
  | Run (GrowImage p size) =>
      target = Some size ∧ p = image ∧ (∃ device, verified device past) ∧
      ∃ m, Happened (MetadataOf image) (Ok m) ∈ past ∧ m_len m < size
  | Run (RefreshLoopCapacity device) => verified device past ∧ ∃ size, target = Some size ∧ done_ (GrowImage image size) past
  | Run (ResizeFilesystem root) => root = cf_mount_root config ∧ ∃ device, verified device past ∧ done_ (RefreshLoopCapacity device) past
  | _ => False
  end.

(** ** The executor *)

Lemma listed_loop ls : ∀ acc devices, listed_devices ls acc = Ok devices → Forall (λ d, is_loop_device d = true) acc →
  Forall (λ d, is_loop_device d = true) devices.
Proof.
  induction ls as [|line ls IH]; intros acc devices; cbn [listed_devices]; [by intros [= <-]|]. intros H Hacc.
  apply bind_Ok_inv in H as ([device rest] & _ & H). apply bind_Ok_inv in H as ([] & [Hd _]%ensure_Ok_inv%andb_true_iff & H).
  apply (IH _ _ H), Forall_app. split; [done|]. by apply Forall_singleton.
Qed.
Lemma listing_loop out devices : parse_loop_device_listing out = Ok devices → Forall (λ d, is_loop_device d = true) devices.
Proof. intros H. apply bind_Ok_inv in H as ([] & _ & H). by apply (listed_loop _ _ _ H). Qed.
Lemma attached_loop out device : parse_attached_loop_device out = Ok device → is_loop_device device = true.
Proof.
  intros H. apply bind_Ok_inv in H as ([] & _ & H). apply bind_Ok_inv in H as ([] & [Hd _]%ensure_Ok_inv%andb_true_iff & [= <-]).
  done.
Qed.

(** A program goes on from [past]: [post] sees what it added. *)
Definition adds {A} (past : list Event) (post : list Event → BResult A → Prop) (l' : list Event) (r : BResult A) : Prop :=
  ∃ l, l' = past ++ l ∧ post l r.
Lemma adds_nil {A} past (post : list Event → BResult A → Prop) r : post [] r → adds past post past r.
Proof. exists []. by rewrite app_nil_r. Qed.
Lemma inspect_ensures (guard : list Event → HostCall → Prop) device past :
  (∀ past, guard past (Run (InspectLoopBacking device))) → (∀ past p, guard past (Canonicalize p)) →
  ensures guard past (inspect_loop_backing device) (adds past (λ l r, ∀ b, r = Ok b → backed b device l)).
Proof.
  intros Hi Hc. cbn. split; [done|]. intros [out|e]; cbn; [|by eexists; split].
  destruct (parse_single_backing_path (stdout out)) as [p|e] eqn:Hp; cbn; [|by eexists; split].
  split; [done|]. intros [b|e]; cbn; rewrite <-app_assoc; eexists; (split; [done|]); [|done].
  intros b' [= <-]. by exists [], [], out, p.
Qed.
Lemma matching_ensures target devices : ∀ past matches,
  Forall (λ d, is_loop_device d = true) devices →
  ensures (permitted target) past (matching_devices config devices matches) (adds past (λ l r, ∀ ms, r = Ok ms →
    (∀ d, d ∈ ms → d ∈ matches ∨ (d ∈ devices ∧ backed image d l)) ∧
    (∀ d, d ∈ devices → d ∉ ms → ∃ other, other ≠ image ∧ backed other d l) ∧ (∀ d, d ∈ matches → d ∈ ms))).
Proof.
  induction devices as [|device devices IH]; intros past matches Hd; cbn [matching_devices].
  { exists []. rewrite app_nil_r. split; [done|]. intros ms [= <-]. split_and!; [by left|set_solver|done]. }
  apply Forall_cons in Hd as [Hd Hds]. apply ensures_bind.
  eapply ensures_mono; [|by apply inspect_ensures]. intros l r (l1 & Heq & Hb). apply app_inv_head in Heq as <-.
  destruct r as [backing|e]; [|by exists l]. specialize (Hb backing eq_refl).
  eapply ensures_mono; [|by apply IH]. intros l' r (l2 & Heq & Hms). exists (l ++ l'). rewrite <-app_assoc. split; [done|].
  apply app_inv_head in Heq as <-. intros ms Hr. destruct (Hms ms Hr) as (Hin & Hout & Hkeep). clear Hms. split_and!.
  - intros d Hdm. destruct (Hin d Hdm) as [Hm|[Hm Hbk]].
    + case_decide; [|by left]. apply elem_of_app in Hm as [Hm| ->%list_elem_of_singleton]; [by left|]. subst backing.
      right. split; [by left|by apply backed_app].
    + right. split; [by right|by apply backed_after].
  - intros d [->|Hdd]%elem_of_cons Hn.
    + exists backing. split; [|by apply backed_app]. intros ->. apply Hn, Hkeep. rewrite decide_True by done. set_solver.
    + destruct (Hout d Hdd Hn) as (other & Ho & Hbk). exists other. split; [done|by apply backed_after].
  - intros d Hdm. apply Hkeep. case_decide; set_solver.
Qed.
Lemma attach_ensures target past :
  ensures (permitted target) past (attach_or_reuse config)
    (adds past (λ l r, ∀ d, r = Ok d → is_loop_device d = true ∧ backed image d l)).
Proof.
  unfold attach_or_reuse. apply ensures_run; [done| |by intros; eexists; split]. intros out.
  apply ensures_return; [|by intros; eexists; split]. intros devices Hp.
  pose proof (listing_loop _ _ Hp) as Hds. set (listed := Happened (Run ListLoops) (Ok out)).
  apply ensures_bind. eapply ensures_mono; [|by apply matching_ensures]. intros l r (l1 & Heq & Hms). apply app_inv_head in Heq as <-.
  rewrite <-app_assoc. destruct r as [ms|e]; [|by eexists; split]. destruct (Hms ms eq_refl) as (Hin & Hout & _).
  destruct ms as [|d [|d' ms]]; [|eexists; split; [done|]; intros ? [= <-]|by eexists; split].
  2: { destruct (Hin d) as [[]%not_elem_of_nil|[Hd Hb]]; [by left|]. rewrite Forall_forall in Hds. split; [by apply Hds|by apply backed_after]. }
  apply ensures_run; [| |intros; rewrite <-app_assoc; by eexists; split].
  { split; [done|]. exists out, devices. split_and!; [set_solver|done|]. intros d Hd.
    destruct (Hout d Hd) as (other & Ho & Hb); [set_solver|]. exists other. split; [done|by do 2 apply backed_after]. }
  intros out'. rewrite <-app_assoc. apply ensures_return; [|by intros; eexists; split]. intros d Hd%attached_loop.
  apply ensures_bind. eapply ensures_mono; [|by apply inspect_ensures]. intros l' r (l1 & Heq & Hb). apply app_inv_head in Heq as <-.
  rewrite <-app_assoc. destruct r as [backing|e]; [|by eexists; split].
  apply ensures_return; [|by intros; eexists; split]. intros [] Hbk%ensure_Ok_inv%bool_decide_eq_true.
  eexists; split; [done|]. intros ? [= <-]. split; [done|]. subst backing. by apply backed_after, Hb.
Qed.
(** The device that the executor derives and verifies. *)
Lemma verified_ensures {A} target past (k : bytes → Prog A) post :
  (∀ past' e, post past' (Err e)) →
  (∀ device l, verified device (past ++ l) → ensures (permitted target) (past ++ l) (k device) post) →
  ensures (permitted target) past (bind (attach_or_reuse config) (λ device, bind (verify_loop_identity config device) (λ _, k device))) post.
Proof.
  intros Herr Hk. apply ensures_bind. eapply ensures_mono; [|by apply attach_ensures]. intros l r (l1 & Heq & Hd).
  apply app_inv_head in Heq as <-. destruct r as [device|e]; [|done]. destruct (Hd device eq_refl) as [Hdev Hb]. cbn.
  split; [done|]. intros [out|e]; cbn; [|done].
  destruct (parse_blkid_export_identity (stdout out)) as [[uuid name]|e] eqn:Hp; cbn; [|done].
  unfold verify_instance_identity. destruct (bool_decide (filesystem_uuid marker = uuid) && bool_decide (label marker = name)) eqn:Hm;
    cbn; [|done].
  apply andb_true_iff in Hm as [<-%bool_decide_eq_true <-%bool_decide_eq_true]. rewrite <-app_assoc. apply Hk. split; [done|].
  exists (past ++ l), [Happened (Run (InspectFilesystem device)) (Ok out)]. rewrite <-app_assoc. split_and!; [done|by apply backed_after|].
  by exists [], [], out.
Qed.
Lemma verified_app device l l' : verified device l → verified device (l ++ l').
Proof.
  intros [Hd (l1 & l2 & -> & Hb & Hi)]. split; [done|]. exists l1, (l2 ++ l'). rewrite <-app_assoc. split_and!; [done|done|].
  by apply identified_app.
Qed.
Lemma mount_ensures : ensures (permitted None) [] (mount config)
  (λ l r, ∀ device, r = Ok device → verified device l ∧ done_ (Mount device (cf_mount_root config)) l).
Proof.
  apply (verified_ensures None []); [done|]. intros device l Hv. cbn [app] in *. cbn. split; [by split_and!|].
  intros [out|e]; cbn; [|done]. intros d [= <-]. split; [by apply verified_app|]. exists out. set_solver.
Qed.
Lemma grow_ensures size : ensures (permitted (Some size)) [] (grow config size)
  (λ l r, r = Ok () → ∃ device, verified device l ∧ done_ (GrowImage image size) l ∧ done_ (RefreshLoopCapacity device) l ∧
     done_ (ResizeFilesystem (cf_mount_root config)) l).
Proof.
  unfold grow. apply ensures_return; [|done]. intros _ _. apply ensures_ask; [by split; [exists size|]|]. intros x.
  apply ensures_return; [|done]. intros m ->%map_err_Ok_inv. apply ensures_return; [|done].
  intros _ Hlt%ensure_Ok_inv%bool_decide_eq_true. apply verified_ensures; [done|]. intros device l Hv.
  set (past := [] ++ [Happened (MetadataOf image) (Ok m)]) in *. apply ensures_run; [|intros o1|done].
  { split_and!; [done|done|by exists device|]. exists m. split; [by left|done]. }
  apply ensures_run; [|intros o2|done].
  { split; [by apply verified_app|]. exists size. split; [done|]. exists o1. set_solver. }
  apply ensures_run; [|intros o3 _|done].
  { split; [done|]. exists device. split; [by do 2 apply verified_app|]. exists o2. set_solver. }
  exists device. split_and!; [by do 3 apply verified_app| | |]; [exists o1|exists o2|exists o3]; set_solver.
Qed.

(** C6. Privileged commands run only on the verified device. Whatever the host
    answers, in every history of [mount] each call is one of: listing the loop
    devices; inspecting the backing file or the file system of a [/dev/loop]
    device; canonicalizing a path; attaching the configured image, once every
    listed device was found to be backed by another file; and mounting, at the
    configured root, a device that was first found to be backed by the
    configured image and then to hold the file system with the UUID and label
    of the instance marker. [grow] makes instead of the mount, in this order
    and each after the success of the one before: the growth of the image to
    the requested size, larger than the length the host reported, the refresh
    of that device's capacity and the resize at the configured root. When they
    succeed, these commands succeeded. *)
Theorem privileged_calls_guarded size :
  (∀ l r, trace (mount config) l r →
     (∀ l1 c x l2, l = l1 ++ Happened c x :: l2 → permitted None l1 c) ∧
     (∀ device, r = Ok device → verified device l ∧ done_ (Mount device (cf_mount_root config)) l)) ∧
  (∀ l r, trace (grow config size) l r →
     (∀ l1 c x l2, l = l1 ++ Happened c x :: l2 → permitted (Some size) l1 c) ∧
     (r = Ok () → ∃ device, verified device l ∧ done_ (GrowImage image size) l ∧ done_ (RefreshLoopCapacity device) l ∧
        done_ (ResizeFilesystem (cf_mount_root config)) l)).
Proof.
  split; intros l r Ht.
  - destruct (ensures_trace _ _ _ [] _ _ mount_ensures Ht) as [Hg Hp]. done.
  - destruct (ensures_trace _ _ _ [] _ _ (grow_ensures size) Ht) as [Hg Hp]. done.
Qed.
End Executor.

(** ** Markers *)

Lemma uuid_loop_length value : ∀ position index pair acc n b,
  uuid_loop position index pair acc value = Some (n, b) → length acc = Nat.div2 index → length b = Nat.div2 n.
Proof.
  induction value as [|x value IH]; intros position index pair acc n b; cbn [uuid_loop]; [by intros [= -> ->]|].
  case_bool_decide; [case_decide; [apply IH|done]|]. case_decide; [done|]. destruct (Nat.even index) eqn:He.
  - intros Hu Hl. eapply IH; [exact Hu|]. rewrite Hl. apply Nat.even_spec in He as [k ->].
    by rewrite Nat.div2_double, Nat.div2_succ_double.
  - intros (y & Hy & Hu)%bind_Some Hl. eapply IH; [exact Hu|]. rewrite length_app, Hl. cbn [length].
    rewrite <-Nat.negb_odd in He. apply negb_false_iff, Nat.odd_spec in He as [k ->].
    replace (2 * k + 1)%nat with (S (2 * k)) by lia. change (Nat.div2 (S (S (2 * k)))) with (S (Nat.div2 (2 * k))).
    rewrite Nat.div2_succ_double, Nat.div2_double. lia.
Qed.
Lemma parsed_uuid_length value b : parse_filesystem_uuid value = Some b → length b = 16%nat.
Proof.
  unfold parse_filesystem_uuid. case_decide; [done|]. intros ([n b'] & Hu & Hb)%bind_Some. case_decide; [|done].
  injection Hb as ->. subst n. by apply uuid_loop_length in Hu.
Qed.
Lemma blkid_uuid ls : ∀ uuid name btrfs uuid' name' btrfs',
  blkid_fields ls uuid name btrfs = Ok (uuid', name', btrfs') → (∀ u, uuid = Some u → length u = 16%nat) →
  ∀ u, uuid' = Some u → length u = 16%nat.
Proof.
  induction ls as [|line ls IH]; intros uuid name btrfs uuid' name' btrfs'; cbn [blkid_fields]; [by intros [= -> -> ->]|].
  intros H Hu. apply bind_Ok_inv in H as ([key value] & _ & H).
  destruct (decide (key = b_ "UUID")); [|destruct (decide (key = b_ "LABEL")); [|destruct (decide (key = b_ "TYPE"))]].
  - apply bind_Ok_inv in H as (u & Hp%ok_or_Ok_inv%parsed_uuid_length & H). apply bind_Ok_inv in H as ([] & _ & H).
    apply (IH _ _ _ _ _ _ H). by intros ? [= <-].
  - apply bind_Ok_inv in H as ([] & _ & H). by apply (IH _ _ _ _ _ _ H).
  - apply bind_Ok_inv in H as ([] & _ & H). by apply (IH _ _ _ _ _ _ H).
  - by apply (IH _ _ _ _ _ _ H).
Qed.
Lemma identity_uuid out i : parse_blkid_export_identity out = Ok i → length (if_filesystem_uuid i) = 16%nat.
Proof.
  intros H. apply bind_Ok_inv in H as ([] & _ & H). apply bind_Ok_inv in H as ([[uuid name] btrfs] & Hf & H).
  apply bind_Ok_inv in H as ([] & _ & H). apply bind_Ok_inv in H as (u & Hu%ok_or_Ok_inv & H).
  apply bind_Ok_inv in H as (n & _ & [= <-]). by apply (blkid_uuid _ _ _ _ _ _ _ Hf).
Qed.

(** The bytes of a marker, in the pieces that are written. *)
Definition marker_pieces (m : InstanceMarker) : list bytes :=
  [MARKER_MAGIC; be_encode 2 MARKER_VERSION; instance_uuid m; filesystem_uuid m; be_encode 2 (blen (label m) mod 2 ^ 16); label m].
Definition marker_bytes (m : InstanceMarker) : bytes := concat (marker_pieces m).
Lemma marker_bytes_app m : marker_bytes m =
  MARKER_MAGIC ++ be_encode 2 MARKER_VERSION ++ instance_uuid m ++ filesystem_uuid m ++ be_encode 2 (blen (label m) mod 2 ^ 16) ++ label m.
Proof. unfold marker_bytes, marker_pieces. cbn [concat]. by rewrite app_nil_r. Qed.
Lemma label_bounds name : validate_btrfs_label name = Ok () → name ≠ [] ∧ blen name ≤ 255.
Proof.
  intros H%ensure_Ok_inv. apply andb_true_iff in H as [H _]. apply andb_true_iff in H as [H _]. apply andb_true_iff in H as [H _].
  by apply andb_true_iff in H as [?%bool_decide_eq_true ?%bool_decide_eq_true].
Qed.
Lemma length_marker_magic : length MARKER_MAGIC = 8%nat.
Proof. done. Qed.
#[local] Hint Rewrite length_marker_magic : len.
Lemma marker_round_trip m :
  length (instance_uuid m) = 16%nat → length (filesystem_uuid m) = 16%nat → validate_btrfs_label (label m) = Ok () →
  WorkspaceStore.is_utf8 (label m) = true → decode_instance_marker (marker_bytes m) = Ok m.
Proof.
  intros Hi Hf [Hne Hle]%label_bounds Hu. destruct m as [iu fu name]. cbn [instance_uuid filesystem_uuid label] in *.
  unfold blen in Hle.
  assert (length (marker_bytes (mkMarker iu fu name)) = (44 + length name)%nat) as Hlen.
  { rewrite marker_bytes_app. cbn [instance_uuid filesystem_uuid label]. rewrite !length_app, !length_be_encode, Hi, Hf. done. }
  set (b := marker_bytes (mkMarker iu fu name)) in *.
  assert (slice 0 8 b = MARKER_MAGIC) as H0 by done.
  assert (read_u16 b 8 = MARKER_VERSION) as H8 by done.
  assert (slice 10 16 b = iu ∧ slice 26 16 b = fu ∧ slice 42 2 b = be_encode 2 (blen name mod 2 ^ 16) ∧ drop 44 b = name)
    as (H10 & H26 & H42 & H44).
  { unfold b. rewrite marker_bytes_app. cbn [instance_uuid filesystem_uuid label]. split_and!.
    - rewrite !slice_app_skip by (rewrite ?length_be_encode, ?length_marker_magic; lia). rewrite length_be_encode, length_marker_magic.
      by apply slice_app_exact.
    - rewrite !slice_app_skip by (rewrite ?length_be_encode, ?length_marker_magic, ?Hi; lia).
      rewrite length_be_encode, length_marker_magic, Hi. by apply slice_app_exact.
    - rewrite !slice_app_skip by (rewrite ?length_be_encode, ?length_marker_magic, ?Hi, ?Hf; lia).
      rewrite length_be_encode, length_marker_magic, Hi, Hf. by apply slice_app_exact, length_be_encode.
    - rewrite !app_assoc. rewrite drop_app_length'; [done|]. by rewrite !length_app, !length_be_encode, Hi, Hf. }
  assert (read_u16 b 42 = blen name) as Hr.
  { rewrite Z.mod_small in H42 by (unfold blen; lia). apply read_be_of_slice; [|done]. unfold in_width, blen. lia. }
  unfold decode_instance_marker. rewrite H0, H8, Hr, H10, H26. unfold blen in *. rewrite Hlen.
  change (Z.to_nat MARKER_FIXED_LEN) with 44%nat. rewrite H44, Hu.
  rewrite !bool_decide_eq_true_2 by first [done|unfold MARKER_FIXED_LEN; lia]. done.
Qed.

(** ** Initialization *)

Definition created (p : PathBuf) (l : list Event) : Prop := Happened (CreateNew p) (Ok ()) ∈ l.
Definition is_run (e : Event) : bool := match call_of e with Run _ => true | _ => false end.
Definition is_format (e : Event) : bool := match call_of e with Run (FormatBtrfs _ _) => true | _ => false end.
(** The file [p] was created, attached as [device], and [device] was found to be backed by it. *)
Definition fresh (p : PathBuf) (device : bytes) (l : list Event) : Prop :=
  is_loop_device device = true ∧
  ∃ l1 l2 out, l = l1 ++ [Happened (Run (AttachLoop p)) (Ok out)] ++ l2 ∧ created p l1 ∧
    parse_attached_loop_device (stdout out) = Ok device ∧ backed p device l2.
Section Initialization.
Context (i : LoopbackInitializationConfig).
(** The device was formatted, and then found to hold the new file system. *)
Definition formatted (device uuid : bytes) (l : list Event) : Prop :=
  ∃ l1 l2 out, l = l1 ++ [Happened (Run (FormatBtrfs device (in_label i))) (Ok out)] ++ l2 ∧ (∃ p, fresh p device l1) ∧
    identified uuid (in_label i) device l2.
(** The calls the initialization may make after [past]. *)
Definition allowed (past : list Event) (c : HostCall) : Prop :=
  match c with
  | Canonicalize _ | IsDir _ | SymlinkMetadata _ | SyncAll _ | OpenRead _ => True
  | SetLen p _ | PosixFallocate p _ | RemoveFile p => created p past
  | Run (AttachLoop p) => created p past
  | Run (InspectLoopBacking device) => is_loop_device device = true ∧ existsb is_format past = false
  | Run (FormatBtrfs device name) => name = in_label i ∧ (∃ p, fresh p device past) ∧ existsb is_format past = false
  | Run (InspectFilesystem device) => (∃ p, fresh p device past) ∧ done_ (FormatBtrfs device (in_label i)) past
  | CreateNew _ => existsb is_run past = false ∨ ∃ device uuid, formatted device uuid past
  | WriteAll _ _ => ∃ device uuid, formatted device uuid past
  | _ => False
  end.

Lemma existsb_app_not (f : Event → bool) l l' : existsb f l = false → existsb f l' = false → existsb f (l ++ l') = false.
Proof. intros Hl Hl'. by rewrite existsb_app, Hl, Hl'. Qed.
(** The path of a new file: a child of a canonical directory, with the given name. *)
#[local] Ltac added := intros; eexists; (split; [done|]); (split; [done|]); try done.
Lemma new_path_ensures p past :
  ensures allowed past (checked_new_file_path p) (adds past (λ l r, existsb is_run l = false ∧
    ∀ q, r = Ok q → path_file_name q = path_file_name p)).
Proof.
  unfold checked_new_file_path. apply ensures_return; [intros parent _|intros; apply adds_nil; by split].
  apply ensures_ask; [done|]. intros x. apply ensures_return; [intros parent' _|added].
  apply ensures_ask; [done|]. intros dir. apply ensures_return; [intros dir' [= ->]|done]. rewrite <-app_assoc.
  apply ensures_return; [|added]. intros name Hn.
  assert (path_file_name p = Some name) as Hname by (destruct dir', (path_file_name p); congruence).
  split; [done|]. intros [m|e]; cbn [io map_err attempt is_ok ensures]; rewrite <-app_assoc; added.
  intros q [= <-]. unfold path_file_name at 1. by rewrite last_snoc.
Qed.

Lemma created_app p l l' : created p l → created p (l ++ l').
Proof. intros. apply elem_of_app. by left. Qed.
Lemma created_now p l : created p (l ++ [Happened (CreateNew p) (Ok ())]).
Proof. apply elem_of_app. right. by left. Qed.
(** Without commands, and the file created in the end. *)
Definition made (p : PathBuf) (l : list Event) (r : BResult unit) : Prop :=
  existsb is_run l = false ∧ (r = Ok () → created p l).
Lemma sync_ensures d p past :
  existsb is_run past = false → created p past → ensures allowed past (sync_directory d) (made p).
Proof.
  intros Hr Hc. assert (∀ l r, existsb is_run l = false → made p (past ++ l) r) as Hm.
  { intros l r Hl. split; [by apply existsb_app_not|]. intros _. by apply created_app. }
  apply ensures_ask; [done|]. intros x. apply ensures_return; [intros _ _|by intros; apply Hm].
  split; [done|]. intros y. rewrite <-app_assoc. by apply Hm.
Qed.
Lemma created_ensures (k : Prog unit) p past :
  existsb is_run past = false →
  (∀ past', existsb is_run past' = false → created p past' → ensures allowed past' k (made p)) →
  ensures allowed past (bind (create_new p) (λ _, k)) (made p).
Proof.
  intros Hr Hk. apply ensures_ask; [by left|]. intros x.
  assert (existsb is_run (past ++ [Happened (CreateNew p) x]) = false) as Hr' by (by apply existsb_app_not).
  apply ensures_return; [|intros e He; by split]. intros [] ->%map_err_Ok_inv. apply Hk; [done|apply created_now].
Qed.
(** A step on the file that was created. *)
Lemma file_ensures c (f : answer c → result IoErrorKind unit) (k : Prog unit) p past :
  (∀ x, is_run (Happened c x) = false) → (∀ past, created p past → allowed past c) →
  existsb is_run past = false → created p past →
  (∀ past', existsb is_run past' = false → created p past' → ensures allowed past' k (made p)) →
  ensures allowed past (bind (Ask c (λ x, io (f x))) (λ _, k)) (made p).
Proof.
  intros Hnr Hg Hr Hc Hk. apply ensures_ask; [by apply Hg|]. intros x.
  assert (existsb is_run (past ++ [Happened c x]) = false) as Hr' by (apply existsb_app_not; [done|]; cbn; by rewrite Hnr).
  apply ensures_return; [|intros e He; by split]. intros _ _. apply Hk; [done|by apply created_app].
Qed.
Lemma image_ensures p size allocation :
  ensures allowed [] (initialize_loopback_image p size allocation) (λ l r, existsb is_run l = false ∧ ∀ q, r = Ok q → created q l).
Proof.
  unfold initialize_loopback_image. apply ensures_return; [intros _ _|done]. apply ensures_bind.
  eapply ensures_mono; [|apply new_path_ensures]. intros l r (l1 & Heq & Hr & _). apply app_inv_head in Heq as <-.
  destruct r as [q|e]; [|done]. apply ensures_bind. cbn [app].
  apply (ensures_mono _ _ (made q)).
  { intros l' [[]|e] [Hr' Hc]; [|done]. split; [done|]. intros ? [= <-]. by apply Hc. }
  destruct allocation.
  - unfold create_sparse_image. apply ensures_return; [intros _ _|done]. apply ensures_return; [intros parent _|done].
    apply created_ensures; [done|]. intros p1 Hr1 Hc1. apply (file_ensures (SetLen q size) (λ x, x)); [done|done|done|done|].
    intros p2 Hr2 Hc2. apply (file_ensures (SyncAll q) (λ x, x)); [done|done|done|done|]. intros p3 Hr3 Hc3. by apply sync_ensures.
  - unfold reserve_image. apply created_ensures; [done|]. intros p1 Hr1 Hc1. apply ensures_bind. split; [done|].
    intros [[]|e]; cbn [io map_err attempt].
    + apply (file_ensures (SyncAll q) (λ x, x)); [done|done|by apply existsb_app_not|by apply created_app|].
      intros p3 Hr3 Hc3. by apply sync_ensures.
    + split; [by apply created_app|]. intros x. cbn. split; [|done]. by do 2 (apply existsb_app_not; [|done]).
Qed.

(** The calls that write the marker [m] to the new file [p]. *)
Definition marker_events (p : PathBuf) (m : InstanceMarker) : list Event :=
  Happened (CreateNew p) (Ok ()) ::
  map (λ data, Happened (WriteAll p data) (Ok ())) (marker_pieces m) ++
  [Happened (SyncAll p) (Ok ()); Happened (OpenRead (default [] (path_parent p))) (Ok ());
   Happened (SyncAll (default [] (path_parent p))) (Ok ())].
Lemma identified_after uuid name device l0 l : identified uuid name device l → identified uuid name device (l0 ++ l).
Proof. intros (l1 & l2 & out & -> & Hp). exists (l0 ++ l1), l2, out. by rewrite <-!app_assoc. Qed.
Lemma formatted_app device uuid l l' : formatted device uuid l → formatted device uuid (l ++ l').
Proof.
  intros (l1 & l2 & out & -> & Hf & Hi). exists l1, (l2 ++ l'), out. rewrite <-!app_assoc. split_and!; [done|done|by apply identified_app].
Qed.
Lemma fresh_app p device l l' : fresh p device l → fresh p device (l ++ l').
Proof.
  intros [Hd (l1 & l2 & out & -> & Hc & Hp & Hb)]. split; [done|]. exists l1, (l2 ++ l'), out. rewrite <-!app_assoc.
  split_and!; [done|done|done|by apply backed_app].
Qed.
#[local] Ltac marker_step :=
  apply ensures_ask;
  [ first [ exact I | do 2 eexists; repeat apply formatted_app; eassumption | right; do 2 eexists; repeat apply formatted_app; eassumption ] | ];
  intros x; apply ensures_return; [intros [] ->%map_err_Ok_inv|intros; rewrite <-?app_assoc; by eexists; split].
Lemma marker_ensures p m device uuid past :
  formatted device uuid past →
  ensures allowed past (write_instance_marker p m) (adds past (λ l r, ∀ q, r = Ok q →
    validate_btrfs_label (label m) = Ok () ∧ path_file_name q = path_file_name p ∧
    ∃ l0, l = l0 ++ marker_events q m)).
Proof.
  intros Hf. unfold write_instance_marker. apply ensures_return; [|by intros; apply adds_nil]. intros [] Hv.
  apply ensures_bind. eapply ensures_mono; [|apply new_path_ensures]. intros l r (l1 & Heq & _ & Hn). apply app_inv_head in Heq as <-.
  destruct r as [q|e]; [|by exists l]. specialize (Hn q eq_refl). do 8 marker_step. apply ensures_bind.
  marker_step. split; [exact I|]. intros [[]|e]; cbn [io map_err ensures]; rewrite <-?app_assoc; eexists; (split; [done|]); [|done].
  intros ? [= <-]. split_and!; [done|done|]. by exists l.
Qed.

(** What a successful initialization did. *)
Definition initialized (l : list Event) (x : InitializedLoopback) : Prop :=
  ∃ q uuid l0, l = l0 ++ marker_events q (il_marker x) ∧ formatted (il_device x) uuid l0 ∧
    il_marker x = mkMarker (in_instance_uuid i) uuid (in_label i) ∧ length uuid = 16%nat ∧
    validate_btrfs_label (in_label i) = Ok () ∧ path_file_name q = path_file_name (in_marker_path i).
Lemma init_ensures : ensures allowed [] (initialize_new_loopback i) (λ l r, ∀ x, r = Ok x → initialized l x).
Proof.
  unfold initialize_new_loopback. apply ensures_bind. eapply ensures_mono; [|apply image_ensures]. intros l r [Hr Hc]. cbn [app] in *.
  destruct r as [image|e]; [|done]. specialize (Hc image eq_refl).
  apply ensures_run; [done|intros out|done]. apply ensures_return; [|done]. intros device Hp. pose proof (attached_loop _ _ Hp) as Hd.
  assert (∀ e, is_format e = true → is_run e = true) as Himp by (intros [[] x]; cbn; congruence).
  assert (existsb is_format l = false) as Hnf.
  { clear -Hr Himp. induction l as [|e l IH]; [done|]. cbn in *. apply orb_false_iff in Hr as [He Hr]. rewrite (IH Hr), orb_false_r.
    destruct (is_format e) eqn:Hf; [|done]. by rewrite Himp in He. }
  set (attached := Happened (Run (AttachLoop image)) (Ok out)).
  unfold inspect_loop_backing. apply ensures_bind, ensures_run; [|intros out2|done].
  { split; [done|]. by apply existsb_app_not. }
  apply ensures_return; [|done]. intros p Hpp. split; [done|]. intros [backing|e]; cbn [io map_err ensures]; [|done].
  apply ensures_return; [|done]. intros [] ->%ensure_Ok_inv%bool_decide_eq_true. rewrite <-!app_assoc. cbn [app].
  set (inspected := [attached; _; _]).
  assert (fresh image device (l ++ inspected)) as Hfr.
  { split; [done|]. exists l, [Happened (Run (InspectLoopBacking device)) (Ok out2); Happened (Canonicalize p) (Ok image)], out.
    split_and!; [done|done|done|]. by exists [], [], out2, p. }
  apply ensures_run; [|intros out3|done].
  { split_and!; [done|by exists image|by apply existsb_app_not]. }
  apply ensures_run; [|intros out4|done].
  { split; [exists image; by apply fresh_app|]. exists out3. set_solver. }
  apply ensures_return; [|done]. intros [uuid name] Hid. apply ensures_return; [|done].
  cbn [if_label if_filesystem_uuid]. intros [] ->%ensure_Ok_inv%bool_decide_eq_true.
  assert (formatted device uuid (((l ++ inspected) ++ [Happened (Run (FormatBtrfs device (in_label i))) (Ok out3)]) ++
    [Happened (Run (InspectFilesystem device)) (Ok out4)])) as Hform.
  { exists (l ++ inspected), [Happened (Run (InspectFilesystem device)) (Ok out4)], out3. rewrite <-!app_assoc.
    split_and!; [done|by exists image|]. by exists [], [], out4. }
  apply ensures_bind. eapply ensures_mono; [|by apply (marker_ensures _ _ device uuid)]. intros l' r (l1 & Heq & Hm).
  apply app_inv_head in Heq as <-. destruct r as [q|e]; [|done]. destruct (Hm q eq_refl) as (Hv & Hn & l0 & ->).
  intros x [= <-]. exists q, uuid. eexists. rewrite app_assoc. split; [done|]. split_and!; [|done| |done|done].
  - by apply formatted_app.
  - by apply (identity_uuid _ _ Hid).
Qed.

(** C7. Only a new image is formatted, and the marker comes last. Whatever the
    host answers, in every history of [initialize_new_loopback] a file system
    is made at most once, with the configured label, on a loop device that was
    returned for attaching a file created in this history and then found to be
    backed by that very file. Only a file created here is resized or removed.
    Nothing is written, and no second file is created, before the format
    succeeded and the new file system was found with the configured label. On success the last calls create the
    marker, write it, and synchronize it and its directory; the bytes written
    decode to the returned marker, with the UUID that was found. *)
Theorem format_only_new_image l r :
  length (in_instance_uuid i) = 16%nat → WorkspaceStore.is_utf8 (in_label i) = true → trace (initialize_new_loopback i) l r →
  (∀ l1 c x l2, l = l1 ++ Happened c x :: l2 → allowed l1 c) ∧
  (∀ x, r = Ok x → initialized l x ∧ decode_instance_marker (marker_bytes (il_marker x)) = Ok (il_marker x)).
Proof.
  intros Hu Hl Ht. destruct (ensures_trace _ _ _ [] _ _ init_ensures Ht) as [Hg Hp]. split; [done|]. intros x Hx.
  specialize (Hp x Hx). split; [done|]. destruct Hp as (q & uuid & l0 & _ & _ & -> & Hlen & Hv & _). by apply marker_round_trip.
Qed.
End Initialization.

(** ** The native layout and the probe *)

(** The root is on Btrfs and no target exists. *)
Definition clear_target (l : NativeLayout) (past : list Event) : Prop :=
  Happened (Statfs (l_mount_root l)) (Ok BTRFS_SUPER_MAGIC) ∈ past ∧
  ∀ p, p ∈ layout_paths l → Happened (Exists p) false ∈ past.
Definition native_allowed (l : NativeLayout) (past : list Event) (c : HostCall) : Prop :=
  match c with
  | SymlinkMetadata _ | Statfs _ | Exists _ => True
  | CreateDirAll p => p = l_mount_root l ++ [Normal (b_ "internal")] ∧ clear_target l past
  | SubvolumeCreate p => p ∈ layout_paths l ∧ clear_target l past
  | _ => False
  end.
Lemma each_ensures {A} guard (f : A → Prog unit) (Q : A → list Event → Prop) (I : list Event → Prop) l : ∀ past,
  (∀ a past, a ∈ l → I past → ensures guard past (f a) (λ past' r, ∀ u, r = Ok u → I past' ∧ Q a past')) →
  (∀ a past e, Q a past → Q a (past ++ e)) → I past →
  ensures guard past (each f l) (λ past' r, ∀ u, r = Ok u → I past' ∧ ∀ a, a ∈ l → Q a past').
Proof.
  induction l as [|a l IH]; intros past Hf Hmono HI; cbn [each].
  { intros u _. split; [done|]. by intros a ?%not_elem_of_nil. }
  apply ensures_bind. eapply ensures_mono; [|apply Hf; [by left|done]]. intros l1 r Hr. destruct r as [u|e]; [|done].
  destruct (Hr u eq_refl) as [HI' HQ]. eapply ensures_mono; [|apply IH; [|done|exact HI']].
  - intros l2 r' Hr' u' Hu'. destruct (Hr' u' Hu') as [? Hall]. split; [done|]. intros a' [->|Ha]%elem_of_cons; [by apply Hmono|by apply Hall].
  - intros a' past' Ha'. apply Hf. by right.
Qed.
(** Subvolumes are created only on Btrfs and only where nothing exists. *)
Lemma native_guarded l h r : trace (initialize_native l) h r →
  ∀ l1 c x l2, h = l1 ++ Happened c x :: l2 → native_allowed l l1 c.
Proof.
  assert (ensures (native_allowed l) [] (initialize_native l) (λ _ _, True)) as H.
  { unfold initialize_native. apply ensures_bind.
    apply (ensures_mono _ _ (λ past r, ∀ u, r = Ok u → Happened (Statfs (l_mount_root l)) (Ok BTRFS_SUPER_MAGIC) ∈ past)).
    2: { unfold verify_btrfs_mount. apply ensures_ask; [done|]. intros x. do 4 (apply ensures_return; [intros ? _|done]).
         apply ensures_ask; [done|]. intros y. apply ensures_return; [intros t ->%map_err_Ok_inv|done].
         intros u Hu%ensure_Ok_inv%bool_decide_eq_true. subst t. set_solver. }
    intros past [u|e] Hs; [|done]. specialize (Hs u eq_refl). apply ensures_bind.
    eapply ensures_mono; [|apply (each_ensures _ _ (λ p past, Happened (Exists p) false ∈ past)
      (λ past, Happened (Statfs (l_mount_root l)) (Ok BTRFS_SUPER_MAGIC) ∈ past)); [|set_solver|exact Hs]].
    2: { intros p past' _ Hp. apply ensures_ask; [done|]. intros x. apply ensures_return; [intros ? [= <-]|done]. intros u' Hu'.
         apply ensure_Ok_inv, negb_true_iff in Hu' as ->. set_solver. }
    intros past' [u'|e] Hs'; [|done]. destruct (Hs' u' eq_refl) as [H1 H2].
    apply ensures_ask; [by split|]. intros x. apply ensures_return; [intros ? _|done].
    eapply ensures_mono; [|apply (each_ensures _ _ (λ _ _, True) (clear_target l)); [|done|]]; [done| |].
    - intros p q Hp Hq. split; [by split|]. intros y. apply ensures_return; [intros [[]|] _|done]; [done|]. intros ? _. split; [|done].
      destruct Hq as [Hq1 Hq2]. split; [set_solver|]. intros p' Hp'. specialize (Hq2 p' Hp'). set_solver.
    - split; [set_solver|]. intros p Hp. specialize (H2 p Hp). set_solver. }
  intros Ht. by destruct (ensures_trace _ _ _ [] _ _ H Ht) as [Hg _].
Qed.

(** The calls of a probe that succeeds: the clone reads as its source, and the
    source still does after the clone was overwritten. *)
Definition probe_events (source destination : PathBuf) : list Event :=
  [Happened (CreateNew source) (Ok ()); Happened (WriteAll source SOURCE_BYTES) (Ok ()); Happened (SyncAll source) (Ok ());
   Happened (CreateNew destination) (Ok ()); Happened (Ficlone source destination) (Ok ());
   Happened (ReadFile destination) (Ok SOURCE_BYTES); Happened (OpenWrite destination) (Ok ());
   Happened (WriteAll destination CHANGED_BYTES) (Ok ()); Happened (SyncAll destination) (Ok ());
   Happened (ReadFile source) (Ok SOURCE_BYTES)].
Abbreviation anything := (λ (_ : list Event) (_ : HostCall), True).
#[local] Ltac probe_step :=
  apply ensures_ask; [exact I|]; intros x; apply ensures_return; [intros ? ->%map_err_Ok_inv|intros; rewrite <-?app_assoc; by eexists; split].
#[local] Ltac probe_check :=
  apply ensures_return; [intros [] ->%ensure_Ok_inv%bool_decide_eq_true|intros; rewrite <-?app_assoc; by eexists; split].
Lemma probe_body_ensures source destination past :
  ensures anything past (probe_body source destination) (adds past (λ l r, ∀ x, r = Ok x →
    x = mkProbe true true ∧ l = probe_events source destination)).
Proof.
  unfold probe_body. do 6 probe_step. probe_check. do 4 probe_step. probe_check. cbn [ensures give]. rewrite <-!app_assoc.
  eexists. split; [done|]. intros x [= <-]. split; [done|]. by repeat match goal with u : unit |- _ => destruct u end.
Qed.
Lemma probe_root_ensures p past post : (∀ l c, post (past ++ l) (Ok c)) → (∀ l e, post l (Err e)) →
  ensures anything past (checked_probe_root p) post.
Proof.
  intros Hok Herr. unfold checked_probe_root. apply ensures_ask; [done|]. intros y.
  apply ensures_return; [intros m _|by intros]. do 2 (apply ensures_return; [intros _ _|by intros]).
  split; [done|]. intros [c|e]; cbn [io map_err ensures]; [|apply Herr]. rewrite <-app_assoc. apply (Hok _ c).
Qed.
(** A probe reports success only with this evidence, and removes both files. *)
Lemma probe_evidence cache_root staging_root nonce l x : trace (probe_clone_domain cache_root staging_root nonce) l (Ok x) →
  x = mkProbe true true ∧ ∃ l1 l2 cache staging r1 r2,
    l = l1 ++ probe_events (probe_path cache nonce) (probe_path staging nonce) ++
        Happened (RemoveFile (probe_path cache nonce)) r1 :: Happened (RemoveFile (probe_path staging nonce)) r2 :: l2.
Proof.
  set (post := λ (l : list Event) (r : BResult CloneDomainProbe), ∀ x, r = Ok x → x = mkProbe true true ∧ ∃ l1 l2 cache staging r1 r2,
    l = l1 ++ probe_events (probe_path cache nonce) (probe_path staging nonce) ++
        Happened (RemoveFile (probe_path cache nonce)) r1 :: Happened (RemoveFile (probe_path staging nonce)) r2 :: l2).
  intros Ht. enough (ensures anything [] (probe_clone_domain cache_root staging_root nonce) post) as H.
  { by apply (ensures_trace _ _ _ [] _ _ H Ht). }
  unfold probe_clone_domain. apply ensures_bind, probe_root_ensures; [|done]. intros la cache. cbn [app].
  apply ensures_bind, probe_root_ensures; [|done]. intros lb staging. apply ensures_attempt.
  eapply ensures_mono; [|apply probe_body_ensures]. intros l1 r (l1' & Heq & Hr). apply app_inv_head in Heq as <-.
  split; [done|]. intros r1. split; [done|]. intros r2. cbn [io attempt ensures]. rewrite <-!app_assoc. cbn [app].
  set (h := la ++ lb ++ l1 ++ _).
  assert (∀ l2, post (h ++ l2) r) as Hend.
  { intros l2 x' Hx. destruct (Hr x' Hx) as [-> ->]. split; [done|]. exists (la ++ lb), l2, cache, staging, r1, r2.
    unfold h. by rewrite <-!app_assoc. }
  assert (∀ (b : bool) d (k : Prog CloneDomainProbe) l2, (∀ l3, ensures anything (h ++ l2 ++ l3) k post) →
    ensures anything (h ++ l2) (bind (if b then sync_directory d else give ()) (λ _, k)) post) as Hsync.
  { intros b d k l2 Hk. destruct b; [|specialize (Hk []); by rewrite app_nil_r in Hk].
    apply ensures_bind, ensures_ask; [done|]. intros y. apply ensures_return; [intros _ _|done]. split; [done|].
    intros z. rewrite <-!app_assoc. destruct z as [[]|e]; [apply Hk|done]. }
  rewrite <-(app_nil_r h). apply Hsync. intros l3. apply Hsync. intros l4. apply Hend.
Qed.

(** ** Runs *)

Definition demo_uuid : bytes := b_ "00112233-4455-6677-8899-aabbccddeeff".
(** A host where everything works; [image] backs the only loop device. *)
Definition demo_host (past : list Event) (c : HostCall) : answer c :=
  match c return answer c with
  | Run (AttachLoop _) => Ok (success (b_ "/dev/loop7" ++ [x0a]))
  | Run (InspectLoopBacking _) => Ok (success (b_ "/images/forest.img" ++ [x0a]))
  | Run (InspectFilesystem _) => Ok (success (b_ "UUID=" ++ demo_uuid ++ [x0a] ++ b_ "LABEL=forest" ++ [x0a] ++ b_ "TYPE=btrfs" ++ [x0a]))
  | Run _ => Ok (success [])
  | Canonicalize p => Ok p
  | SymlinkMetadata _ => Err NotFound
  | MetadataOf _ => Ok (mkMetadata Regular 100)
  | IsDir _ => true
  | Exists _ => false
  | ReadFile _ => Ok []
  | Statfs _ => Ok BTRFS_SUPER_MAGIC
  | SubvolumeCreate _ => Ok None
  | CreateNew _ | SetLen _ _ | PosixFallocate _ _ | WriteAll _ _ | SyncAll _ | OpenRead _ | OpenWrite _ | RemoveFile _
  | CreateDirAll _ | Ficlone _ _ => Ok ()
  end.
Definition demo_image : PathBuf := path_of_bytes (b_ "/images/forest.img").
Definition demo_initialization : LoopbackInitializationConfig :=
  mkInitialization demo_image (path_of_bytes (b_ "/images/forest.marker")) 1048576 Sparse (b_ "forest") (replicate 16 x01).
Definition demo_marker : InstanceMarker :=
  mkMarker (replicate 16 x01) (default [] (parse_filesystem_uuid demo_uuid)) (b_ "forest").
Definition demo_initialized := play demo_host [] (initialize_new_loopback demo_initialization).
Lemma format_only_new_image_witness :
  demo_initialized.2 = Ok (mkInitialized demo_image (path_of_bytes (b_ "/images/forest.marker")) demo_marker (b_ "/dev/loop7")) ∧
  decode_instance_marker (marker_bytes demo_marker) = Ok demo_marker.
Proof.
  assert (demo_initialized.2 = Ok (mkInitialized demo_image (path_of_bytes (b_ "/images/forest.marker")) demo_marker (b_ "/dev/loop7")))
    as He by (vm_compute; reflexivity).
  split; [exact He|].
  destruct (format_only_new_image demo_initialization demo_initialized.1 demo_initialized.2) as [_ Hx].
  - reflexivity.
  - vm_compute. reflexivity.
  - apply play_trace.
  - exact (proj2 (Hx _ He)).
Defined.
Definition demo_config : PrivilegedExecutorConfig := mkConfig demo_image (path_of_bytes (b_ "/forest")) demo_marker.
Definition demo_mounted := play demo_host [] (mount demo_config).
Definition demo_grown := play demo_host [] (grow demo_config 200).
Lemma privileged_calls_guarded_witness :
  demo_mounted.2 = Ok (b_ "/dev/loop7") ∧ verified demo_config (b_ "/dev/loop7") demo_mounted.1 ∧
  demo_grown.2 = Ok () ∧ done_ (GrowImage demo_image 200) demo_grown.1.
Proof.
  assert (demo_mounted.2 = Ok (b_ "/dev/loop7")) as Hm by (vm_compute; reflexivity).
  assert (demo_grown.2 = Ok ()) as Hg by (vm_compute; reflexivity).
  destruct (privileged_calls_guarded demo_config 200) as [Hmount Hgrow]. split; [exact Hm|]. split.
  - exact (proj1 (proj2 (Hmount _ _ (play_trace demo_host _ [])) _ Hm)).
  - split; [exact Hg|]. destruct (proj2 (Hgrow _ _ (play_trace demo_host _ [])) Hg) as (_ & _ & H & _). exact H.
Defined.
End BtrfsSpec.
