(* ===== verification/BtrfsDiagnostics.v ===== *)
(** * Diagnostics of a mount: [reflink-forest-btrfs/src/lib.rs]

    The parsers of quota, trim and free-space reports, and what they
    guarantee. *)

From Stdlib Require Import ZArith Lia Strings.Byte Strings.String.
From stdpp Require Import base tactics list gmap strings.
From S2P Require Import Prelude Order Core Format Codec CatalogCodec Catalog Chunk Disk Store Git Reader Cache Checkout Workspace WorkspaceStore Jobs Btrfs.
Import Core Codec CatalogCodec Chunk Git Reader Btrfs.

#[local] Open Scope Z_scope.

Module BtrfsDiagnostics.

(** ** Text of the standard library *)

(** The length of the white-space character that [b] starts with, or 0. *)
Definition whitespace_prefix (b : bytes) : nat :=
  match b with
  | [] => 0
  | x :: b =>
      if WorkspaceStore.in_range 9 13 x || bool_decide (x = x20) then 1
      else match b with
      | [] => 0
      | y :: b =>
          if bool_decide (x = xc2) && (bool_decide (y = x85) || bool_decide (y = xa0)) then 2
          else match b with
          | [] => 0
          | z :: _ =>
              if (bool_decide (x = xe1) && bool_decide (y = x9a) && bool_decide (z = x80)) ||
                 (bool_decide (x = xe2) && bool_decide (y = x80) &&
                  (WorkspaceStore.in_range 128 138 z || bool_decide (z = xa8) || bool_decide (z = xa9) || bool_decide (z = xaf))) ||
                 (bool_decide (x = xe2) && bool_decide (y = x81) && bool_decide (z = x9f)) ||
                 (bool_decide (x = xe3) && bool_decide (y = x80) && bool_decide (z = x80)) then 3
              else 0
          end
      end
  end%nat.
Fixpoint trim_start (fuel : nat) (b : bytes) : bytes :=
  match fuel, whitespace_prefix b with
  | S fuel, S n => trim_start fuel (drop (S n) b)
  | _, _ => b
  end.
(** The length of the white-space character that [b] ends with, or 0. *)
Definition whitespace_suffix (b : bytes) : nat :=
  let suffix n := if decide (n ≤ length b ∧ whitespace_prefix (drop (length b - n) b) = n)%nat then n else O in
  (suffix 1 `max` (suffix 2 `max` suffix 3))%nat.
Fixpoint trim_end_fuel (fuel : nat) (b : bytes) : bytes :=
  match fuel, whitespace_suffix b with
  | S fuel, S n => trim_end_fuel fuel (take (length b - S n) b)
  | _, _ => b
  end.
(** [str::trim_end] and [str::trim]: a step for every byte is enough. *)
Definition trim_end (b : bytes) : bytes := trim_end_fuel (length b) b.
Definition trim (b : bytes) : bytes := trim_end (trim_start (length b) b).
Definition is_ascii_whitespace (b : byte) : bool := bool_decide (b ∈ [x20; x09; x0a; x0c; x0d]).
(** [str::split_ascii_whitespace]. *)
Fixpoint ascii_fields (current : bytes) (b : bytes) : list bytes :=
  match b with
  | [] => if decide (current = []) then [] else [current]
  | x :: b =>
      if is_ascii_whitespace x then (if decide (current = []) then [] else [current]) ++ ascii_fields [] b
      else ascii_fields (current ++ [x]) b
  end.
Definition split_ascii_whitespace (b : bytes) : list bytes := ascii_fields [] b.
Definition checked_mul (a b : Z) : option Z := if decide (a * b ≤ u64_max) then Some (a * b) else None.

(** ** Outcomes *)

Inductive DiagnosticOutcome (T : Type) := Supported (value : T) | Unsupported | Unknown.
#[global] Arguments Supported {T} _.
#[global] Arguments Unsupported {T}.
#[global] Arguments Unknown {T}.
Definition is_supported {T} (o : DiagnosticOutcome T) : bool := match o with Supported _ => true | _ => false end.
Record QgroupId := mkQgroupId { q_level : Z; q_subvolume_id : Z }.
Record QgroupUsage := mkQgroup {
  q_id : QgroupId; q_referenced_bytes : Z; q_exclusive_bytes : Z; q_max_referenced_bytes : option Z; q_max_exclusive_bytes : option Z }.
Record TrimDiagnostics := mkTrim { reclaimable_bytes : Z }.

Definition to_ascii_lowercase (b : byte) : byte := if decide (65 ≤ byte_to_Z b ≤ 90) then byte_of_Z (byte_to_Z b + 32) else b.
Fixpoint contains_ascii_case_insensitive (haystack needle : bytes) : bool :=
  match haystack with
  | [] => false
  | _ :: rest =>
      (bool_decide (length needle ≤ length haystack)%nat &&
       bool_decide (map to_ascii_lowercase (take (length needle) haystack) = needle)) ||
      contains_ascii_case_insensitive rest needle
  end.
Definition UNSUPPORTED_MESSAGES : list bytes :=
  [b_ "quota not enabled"; b_ "quotas not enabled"; b_ "qgroup not enabled"; b_ "quotas are not enabled";
   b_ "operation not supported"; b_ "discard operation is not supported"; b_ "not supported"].
Definition diagnostic_failure_kind {T} (stderr stdout : bytes) : DiagnosticOutcome T :=
  if existsb (λ message, contains_ascii_case_insensitive stderr message || contains_ascii_case_insensitive stdout message)
       UNSUPPORTED_MESSAGES
  then Unsupported else Unknown.

(** ** Quota groups *)

Definition parse_qgroup_id (value : bytes) : option QgroupId :=
  '(level, subvolume) ← split_once x2f value;
  level ← parse_u64 level;
  subvolume ← parse_u64 subvolume;
  Some (mkQgroupId level subvolume).
Definition parse_qgroup_limit (value : bytes) : option (option Z) :=
  if decide (value = b_ "none") then Some None else Some <$> parse_u64 value.
Definition is_qgroup_separator (line : bytes) : bool := forallb (λ b, bool_decide (b = x2d) || is_ascii_whitespace b) line.
(** One data line: five columns. *)
Definition parse_qgroup_line (line : bytes) : option QgroupUsage :=
  match split_ascii_whitespace line with
  | [id; referenced; exclusive; max_referenced; max_exclusive] =>
      id ← parse_qgroup_id id;
      referenced ← parse_u64 referenced;
      exclusive ← parse_u64 exclusive;
      max_referenced ← parse_qgroup_limit max_referenced;
      max_exclusive ← parse_qgroup_limit max_exclusive;
      Some (mkQgroup id referenced exclusive max_referenced max_exclusive)
  | _ => None
  end.
Fixpoint qgroup_lines (ls : list bytes) (qgroups : list QgroupUsage) : DiagnosticOutcome (list QgroupUsage) :=
  match ls with
  | [] => Supported qgroups
  | line :: ls =>
      let line := trim line in
      if bool_decide (line = []) || Jobs.starts_with line (b_ "qgroupid") || is_qgroup_separator line then qgroup_lines ls qgroups
      else match parse_qgroup_line line with
           | Some q => qgroup_lines ls (qgroups ++ [q])
           | None => Unknown
           end
  end.
Definition parse_qgroup_diagnostics (stdout stderr : bytes) (success : bool) : DiagnosticOutcome (list QgroupUsage) :=
  if negb success then diagnostic_failure_kind stderr stdout
  else if negb (WorkspaceStore.is_utf8 stdout) then Unknown
  else qgroup_lines (lines stdout) [].

(** ** Trim estimates *)

Definition trim_unit_multiplier (unit_ : bytes) : option Z :=
  if decide (unit_ = b_ "B") then Some 1
  else if decide (unit_ = b_ "KiB") then Some (2 ^ 10)
  else if decide (unit_ = b_ "MiB") then Some (2 ^ 20)
  else if decide (unit_ = b_ "GiB") then Some (2 ^ 30)
  else if decide (unit_ = b_ "TiB") then Some (2 ^ 40)
  else if decide (unit_ = b_ "PiB") then Some (2 ^ 50)
  else if decide (unit_ = b_ "EiB") then Some (2 ^ 60)
  else None.
Definition whole_bytes (whole : bytes) (multiplier : Z) : option Z :=
  if bool_decide (whole ≠ []) && forallb is_ascii_digit whole then w ← parse_u64 whole; checked_mul w multiplier else None.
(** [10.checked_pow] of at most 6 does not overflow. *)
Definition fraction_bytes (fractional : bytes) (multiplier : Z) : option Z :=
  if forallb is_ascii_digit fractional then
    f ← parse_u64 fractional;
    p ← checked_mul f multiplier;
    Some (p / 10 ^ blen fractional)
  else None.
Definition parse_trim_bytes (number : bytes) (multiplier : Z) : option Z :=
  match split_once x2e number with
  | Some (whole, fractional) =>
      if bool_decide (fractional ≠ []) && bool_decide (blen fractional ≤ 6) then
        w ← whole_bytes whole multiplier;
        f ← fraction_bytes fractional multiplier;
        checked_add w f
      else None
  | None => whole_bytes number multiplier
  end.
Definition parse_trim_line (line : bytes) : option Z :=
  '(mount_root, estimate) ← split_once x3a line;
  if decide (mount_root = []) then None
  else
    estimate ← Jobs.strip_suffix (trim estimate) (b_ "(dry run) trimmed");
    match split_ascii_whitespace (trim_end estimate) with
    | [number; unit_] => m ← trim_unit_multiplier unit_; parse_trim_bytes number m
    | _ => None
    end.
Fixpoint trim_lines (ls : list bytes) (estimate : option Z) : DiagnosticOutcome TrimDiagnostics :=
  match ls with
  | [] => match estimate with Some n => Supported (mkTrim n) | None => Unknown end
  | line :: ls =>
      if decide (trim line = []) then trim_lines ls estimate
      else match parse_trim_line line, estimate with
           | Some value, None => trim_lines ls (Some value)
           | _, _ => Unknown
           end
  end.
Definition parse_trim_diagnostics (stdout stderr : bytes) (success : bool) : DiagnosticOutcome TrimDiagnostics :=
  if negb success then diagnostic_failure_kind stderr stdout
  else if negb (WorkspaceStore.is_utf8 stdout) then Unknown
  else trim_lines (lines stdout) None.

(** ** Free space *)

Definition parse_available_bytes (output : bytes) : option Z :=
  head (omap (λ line, parse_u64 (trim line)) (drop 1 (lines output))).

(** ** Estimates *)

Lemma checked_mul_inv a b c : checked_mul a b = Some c → c = a * b ∧ a * b ≤ u64_max.
Proof. unfold checked_mul. case_decide; naive_solver. Qed.
Lemma whole_bytes_inv whole m v : whole_bytes whole m = Some v →
  whole ≠ [] ∧ forallb is_ascii_digit whole = true ∧ v = digits_value 0 whole * m.
Proof.
  unfold whole_bytes. destruct (bool_decide (whole ≠ []) && forallb is_ascii_digit whole) eqn:Hd; [|done].
  apply andb_true_iff in Hd as [Hne%bool_decide_eq_true Hd]. intros (w & Hw & [-> _]%checked_mul_inv)%bind_Some.
  rewrite parse_u64_digits in Hw by done. case_decide; [|done]. by injection Hw as <-.
Qed.
(** An estimate with a fraction is the exact product, rounded down to bytes. *)
Lemma trim_bytes_exact number whole fractional m v :
  split_once x2e number = Some (whole, fractional) → parse_trim_bytes number m = Some v →
  v = (digits_value 0 whole * 10 ^ blen fractional + digits_value 0 fractional) * m / 10 ^ blen fractional ∧ v ≤ u64_max.
Proof.
  intros Hs. unfold parse_trim_bytes. rewrite Hs.
  destruct (bool_decide (fractional ≠ []) && bool_decide (blen fractional ≤ 6)) eqn:Hf; [|done].
  apply andb_true_iff in Hf as [Hne%bool_decide_eq_true _].
  intros (w & (_ & _ & ->)%whole_bytes_inv & (f & Hfr & Hv)%bind_Some)%bind_Some. apply checked_add_inv in Hv as [-> Hv]. split; [|done].
  unfold fraction_bytes in Hfr. destruct (forallb is_ascii_digit fractional) eqn:Hd; [|done].
  apply bind_Some in Hfr as (f' & Hf' & (p & [-> _]%checked_mul_inv & [= <-])%bind_Some).
  rewrite parse_u64_digits in Hf' by done. case_decide; [|done]. injection Hf' as <-.
  assert (0 < 10 ^ blen fractional) by (apply Z.pow_pos_nonneg; unfold blen; lia).
  rewrite <-Z.div_add_l by lia. f_equal. lia.
Qed.
(** The product of the fraction and the unit overflows before it is divided: an
    estimate that fits is rejected when it has enough digits. *)
Lemma long_fraction_rejected :
  parse_trim_bytes (b_ "0.5") (2 ^ 60) = Some (2 ^ 59) ∧ parse_trim_bytes (b_ "0.50") (2 ^ 60) = None.
Proof. split; vm_compute; reflexivity. Qed.

(** ** Reports *)

(** A failed command is never reported as support. *)
Lemma failure_not_supported stdout stderr :
  is_supported (parse_qgroup_diagnostics stdout stderr false) = false ∧ is_supported (parse_trim_diagnostics stdout stderr false) = false.
Proof. unfold parse_qgroup_diagnostics, parse_trim_diagnostics, diagnostic_failure_kind. cbn [negb]. by destruct (existsb _ _). Qed.
Definition usage_wf (q : QgroupUsage) : Prop :=
  is_u64 (q_level (q_id q)) ∧ is_u64 (q_subvolume_id (q_id q)) ∧ is_u64 (q_referenced_bytes q) ∧ is_u64 (q_exclusive_bytes q) ∧
  (∀ n, q_max_referenced_bytes q = Some n → is_u64 n) ∧ (∀ n, q_max_exclusive_bytes q = Some n → is_u64 n).
Lemma parse_limit_bound b o n : parse_qgroup_limit b = Some o → o = Some n → is_u64 n.
Proof.
  unfold parse_qgroup_limit. case_decide; [by intros [= <-]|]. intros (v & Hv & ->)%fmap_Some_1 [= ->].
  by eapply parse_u64_bound.
Qed.
Lemma qgroup_line_wf line q : parse_qgroup_line line = Some q → usage_wf q.
Proof.
  unfold parse_qgroup_line. destruct (split_ascii_whitespace line) as [|a [|b [|c [|d [|e []]]]]]; try done.
  intros (id & Hid & (r & Hr & (x & Hx & (mr & Hmr & (me & Hme & [= <-])%bind_Some)%bind_Some)%bind_Some)%bind_Some)%bind_Some.
  apply bind_Some in Hid as ([l s] & _ & (lv & Hl & (sv & Hs & [= <-])%bind_Some)%bind_Some).
  split_and!; cbn; eauto using parse_u64_bound, parse_limit_bound.
Qed.
(** A quota report that is accepted has only counters that fit. *)
Lemma qgroups_wf stdout stderr qs : parse_qgroup_diagnostics stdout stderr true = Supported qs → Forall usage_wf qs.
Proof.
  unfold parse_qgroup_diagnostics. cbn [negb]. destruct (negb _); [done|]. generalize (lines stdout) as ls.
  assert (∀ ls acc, Forall usage_wf acc → qgroup_lines ls acc = Supported qs → Forall usage_wf qs) as H; [|intros ls; by apply H].
  induction ls as [|line ls IH]; intros acc Hacc; cbn [qgroup_lines]; [by intros [= <-]|]. cbv zeta.
  destruct (_ || _); [by apply IH|]. destruct (parse_qgroup_line (trim line)) as [q|] eqn:Hq; [|done].
  apply IH, Forall_app. split; [done|]. by apply Forall_singleton, (qgroup_line_wf _ _ Hq).
Qed.

(** ** Examples *)

Lemma trim_example : parse_trim_diagnostics (b_ "/mnt: 1.5 GiB (dry run) trimmed" ++ [x0a]) [] true = Supported (mkTrim 1610612736).
Proof. vm_compute. reflexivity. Qed.
Lemma qgroup_example :
  parse_qgroup_diagnostics (b_ "qgroupid rfer excl max_rfer max_excl" ++ [x0a] ++ b_ "-------- ---- ---- -------- --------" ++ [x0a] ++
    b_ "0/5  16384 8192 none 1048576" ++ [x0d; x0a]) [] true = Supported [mkQgroup (mkQgroupId 0 5) 16384 8192 None (Some 1048576)].
Proof. vm_compute. reflexivity. Qed.
Lemma failure_example : @diagnostic_failure_kind TrimDiagnostics (b_ "fstrim: /mnt: the Discard operation is NOT supported") [] = Unsupported.
Proof. vm_compute. reflexivity. Qed.
End BtrfsDiagnostics.
