(* ===== verification/Service.v ===== *)
(** * The daemon's requests and telemetry: [reflink-forest-daemon/src/lib.rs]

    The socket protocol (framing, parsing, execution of commands, responses),
    the status of the service, and the bounded event buffer with its
    metrics. Module [ServiceSpec] holds the theorems. *)

From Stdlib Require Import ZArith Lia Strings.Byte Strings.String.
From stdpp Require Import base tactics list gmap strings relations.
From S2P Require Import Prelude Order Crc Core Format Codec CatalogCodec Catalog Chunk Disk DiskSpec Store Git GitSpec Reader PublicationSpec DirectorySpec Cache CacheSpec Checkout Workspace WorkspaceStore Jobs JobsSpec JobsQueueSpec JobsOpsSpec StateFile Scrub Migration.
Import Crc Core Codec CatalogCodec Catalog Chunk Disk Git Reader Jobs.

#[local] Open Scope Z_scope.

Module Service.

(** ** Events *)

Definition saturating_inc (n : Z) : Z := Z.min (n + 1) u64_max.
Record OperationJobMetadata := mkJobMetadata { om_id : JobId; om_state : JobState; om_attempts : Z }.
Definition job_metadata (r : JobRecord) : OperationJobMetadata := mkJobMetadata (jb_id r) (jb_state r) (jb_attempts r).
Inductive MaintenanceOperationKind := CacheReconcile | CacheEvict | VerifyColdChunk | UnsupportedKind.
Record ScrubOperationMetadata := mkScrubMetadata {
  sm_interval_seconds : Z; sm_next_due_unix_seconds : Z; sm_run_state : Scrub.ScrubRunState; sm_consecutive_failures : Z;
  sm_recovered_interrupted_runs : Z }.
Definition scrub_metadata (s : Scrub.ScrubScheduleState) : ScrubOperationMetadata :=
  mkScrubMetadata (Scrub.ss_interval_seconds s) (Scrub.ss_next_due_unix_seconds s) (Scrub.ss_run_state s)
    (Scrub.ss_consecutive_failures s) (Scrub.ss_recovered_interrupted_runs s).
Record MigrationOperationMetadata := mkMigrationMetadata {
  mm_id : Migration.MigrationId; mm_from_format_version : Z; mm_to_format_version : Z; mm_state : Migration.MigrationState;
  mm_transition_count : Z }.
Definition migration_metadata (r : Migration.MigrationRecord) : MigrationOperationMetadata :=
  mkMigrationMetadata (Migration.mr_id r) (Migration.mr_from_format_version r) (Migration.mr_to_format_version r)
    (Migration.mr_state r) (Migration.mr_transition_count r).
Inductive OperationEventFailure := EvHandlerError | EvHandlerPanic.
Inductive OperationEventOutcome := EvIdle | EvSucceeded | EvFailed (failure : OperationEventFailure) | PersistenceFailure.
Inductive OperationEvent :=
| EvJob (job : option OperationJobMetadata) (outcome : OperationEventOutcome)
| EvMaintenance (job : option OperationJobMetadata) (kind : MaintenanceOperationKind) (outcome : OperationEventOutcome)
| EvScrub (schedule : option ScrubOperationMetadata) (outcome : OperationEventOutcome)
| EvMigration (migration : option MigrationOperationMetadata) (outcome : OperationEventOutcome).

Definition job_failure (f : JobExecutionFailure) : OperationEventFailure :=
  match f with HandlerError => EvHandlerError | HandlerPanic => EvHandlerPanic end.
Definition job_operation_event (r : result JobError JobExecutionOutcome) : OperationEvent :=
  match r with
  | Ok Idle => EvJob None EvIdle
  | Ok (JobSucceeded job) => EvJob (Some (job_metadata job)) EvSucceeded
  | Ok (JobFailed job failure) => EvJob (Some (job_metadata job)) (EvFailed (job_failure failure))
  | Err _ => EvJob None PersistenceFailure
  end.
Definition CACHE_RECONCILE_JOB_KIND : bytes := b_ "cache-reconcile-v1".
Definition CACHE_EVICT_JOB_KIND : bytes := b_ "cache-evict-v1".
Definition VERIFY_COLD_CHUNK_JOB_KIND : bytes := b_ "verify-cold-chunk-v1".
Definition maintenance_operation_kind (r : JobRecord) : MaintenanceOperationKind :=
  if decide (jb_kind r = CACHE_RECONCILE_JOB_KIND) then CacheReconcile
  else if decide (jb_kind r = CACHE_EVICT_JOB_KIND) then CacheEvict
  else if decide (jb_kind r = VERIFY_COLD_CHUNK_JOB_KIND) then VerifyColdChunk
  else UnsupportedKind.
Definition maintenance_operation_event (r : result JobError JobExecutionOutcome) : OperationEvent :=
  match r with
  | Ok Idle => EvMaintenance None UnsupportedKind EvIdle
  | Ok (JobSucceeded job) => EvMaintenance (Some (job_metadata job)) (maintenance_operation_kind job) EvSucceeded
  | Ok (JobFailed job failure) =>
      EvMaintenance (Some (job_metadata job)) (maintenance_operation_kind job) (EvFailed (job_failure failure))
  | Err _ => EvMaintenance None UnsupportedKind PersistenceFailure
  end.
Definition scrub_operation_event (r : result Scrub.ScrubScheduleError Scrub.ScrubExecutionOutcome) : OperationEvent :=
  match r with
  | Ok Scrub.NotDue => EvScrub None EvIdle
  | Ok (Scrub.ScSucceeded s) => EvScrub (Some (scrub_metadata s)) EvSucceeded
  | Ok (Scrub.ScFailed s failure) =>
      EvScrub (Some (scrub_metadata s))
        (EvFailed match failure with Scrub.ScHandlerError => EvHandlerError | Scrub.ScHandlerPanic => EvHandlerPanic end)
  | Err _ => EvScrub None PersistenceFailure
  end.
Definition migration_operation_event (r : result Migration.MigrationError Migration.MigrationExecutionOutcome) : OperationEvent :=
  match r with
  | Ok Migration.MgIdle => EvMigration None EvIdle
  | Ok (Migration.Advanced m) | Ok (Migration.MgPublished m) => EvMigration (Some (migration_metadata m)) EvSucceeded
  | Ok (Migration.MgFailed m _ failure) =>
      EvMigration (Some (migration_metadata m))
        (EvFailed match failure with Migration.MgHandlerError => EvHandlerError | Migration.MgHandlerPanic => EvHandlerPanic end)
  | Err _ => EvMigration None PersistenceFailure
  end.

(** ** Sinks *)

Definition DEFAULT_OPERATION_EVENT_CAPACITY : Z := 256.
Definition MAX_OPERATION_EVENT_CAPACITY : Z := 4096.
Inductive OperationEventBufferError := ZeroCapacity | CapacityTooLarge (requested maximum : Z).
Record BoundedOperationEvents := mkBuffer { bo_capacity : Z; bo_events : list OperationEvent; bo_dropped_events : Z }.
Definition buffer_new (capacity : Z) : result OperationEventBufferError BoundedOperationEvents :=
  _ ← ensure (bool_decide (capacity ≠ 0)) ZeroCapacity;
  _ ← ensure (bool_decide (capacity ≤ MAX_OPERATION_EVENT_CAPACITY)) (CapacityTooLarge capacity MAX_OPERATION_EVENT_CAPACITY);
  Ok (mkBuffer capacity [] 0).
Definition buffer_record (b : BoundedOperationEvents) (e : OperationEvent) : BoundedOperationEvents :=
  let b := if decide (Z.of_nat (length (bo_events b)) = bo_capacity b)
           then mkBuffer (bo_capacity b) (tail (bo_events b)) (saturating_inc (bo_dropped_events b)) else b in
  mkBuffer (bo_capacity b) (bo_events b ++ [e]) (bo_dropped_events b).

Record OperationEventMetricsSnapshot := mkMetrics {
  mt_total : Z; mt_jobs : Z; mt_maintenance : Z; mt_scrubs : Z; mt_migrations : Z;
  mt_idle : Z; mt_succeeded : Z; mt_handler_errors : Z; mt_handler_panics : Z; mt_persistence_failures : Z }.
Definition metrics_default : OperationEventMetricsSnapshot := mkMetrics 0 0 0 0 0 0 0 0 0 0.
Definition record_outcome (m : OperationEventMetricsSnapshot) (o : OperationEventOutcome) : OperationEventMetricsSnapshot :=
  let '(mkMetrics total jobs maintenance scrubs migrations idle succeeded errors panics persistence) := m in
  match o with
  | EvIdle => mkMetrics total jobs maintenance scrubs migrations (saturating_inc idle) succeeded errors panics persistence
  | EvSucceeded => mkMetrics total jobs maintenance scrubs migrations idle (saturating_inc succeeded) errors panics persistence
  | EvFailed EvHandlerError =>
      mkMetrics total jobs maintenance scrubs migrations idle succeeded (saturating_inc errors) panics persistence
  | EvFailed EvHandlerPanic =>
      mkMetrics total jobs maintenance scrubs migrations idle succeeded errors (saturating_inc panics) persistence
  | PersistenceFailure =>
      mkMetrics total jobs maintenance scrubs migrations idle succeeded errors panics (saturating_inc persistence)
  end.
Definition metrics_record (m : OperationEventMetricsSnapshot) (e : OperationEvent) : OperationEventMetricsSnapshot :=
  let '(mkMetrics total jobs maintenance scrubs migrations idle succeeded errors panics persistence) := m in
  let total := saturating_inc total in
  match e with
  | EvJob _ o =>
      record_outcome (mkMetrics total (saturating_inc jobs) maintenance scrubs migrations idle succeeded errors panics persistence) o
  | EvMaintenance _ _ o =>
      record_outcome (mkMetrics total jobs (saturating_inc maintenance) scrubs migrations idle succeeded errors panics persistence) o
  | EvScrub _ o =>
      record_outcome (mkMetrics total jobs maintenance (saturating_inc scrubs) migrations idle succeeded errors panics persistence) o
  | EvMigration _ o =>
      record_outcome (mkMetrics total jobs maintenance scrubs (saturating_inc migrations) idle succeeded errors panics persistence) o
  end.
Record InMemoryOperationTelemetry := mkTelemetry { te_events : BoundedOperationEvents; te_metrics : OperationEventMetricsSnapshot }.
Definition telemetry_new (capacity : Z) : result OperationEventBufferError InMemoryOperationTelemetry :=
  events ← buffer_new capacity;
  Ok (mkTelemetry events metrics_default).
Definition telemetry_record (t : InMemoryOperationTelemetry) (e : OperationEvent) : InMemoryOperationTelemetry :=
  mkTelemetry (buffer_record (te_events t) e) (metrics_record (te_metrics t) e).

(** ** Commands *)

Definition MAX_SOCKET_REQUEST_LEN : Z := 16 * 1024.
Definition OPERATIONAL_GC_JOB_KIND : bytes := b_ "operational-gc-v1".
Definition CACHE_PRESSURE_JOB_KIND : bytes := b_ "cache-pressure-v1".
Inductive DaemonCommand :=
| Status
| EnqueueOperationalGc
| EnqueueCachePressure (projected_allocation_bytes : Z)
| Enqueue (kind payload : bytes)
| Get (id : JobId)
| Start (id : JobId)
| Succeed (id : JobId)
| Fail (id : JobId) (error : bytes)
| Retry (id : JobId).
Inductive DaemonCommandParseError := Invalid | Unsupported.
Abbreviation PResult := (result DaemonCommandParseError).

Definition parse_command_job_id (value : bytes) : PResult JobId := ok_or (parse_hex value) Invalid.
Definition parse_decimal_u64 (value : bytes) : PResult Z :=
  _ ← ensure (bool_decide (value ≠ []) && forallb is_ascii_digit value) Invalid;
  ok_or (parse_u64 value) Invalid.
Definition parse_hex_bytes (value : bytes) (allow_empty : bool) : PResult bytes :=
  _ ← ensure ((allow_empty || bool_decide (value ≠ [])) && Nat.even (length value)) Invalid;
  ok_or (hex_bytes value) Invalid.
Definition word (field : bytes) (s : string) : bool := bool_decide (field = b_ s).
Definition parse_fields (fields : list bytes) : PResult DaemonCommand :=
  match fields with
  | [a] => if word a "status" then Ok Status else Err Unsupported
  | [a; b] => if word a "maintenance" && word b "gc" then Ok EnqueueOperationalGc else Err Unsupported
  | [a; b; c] =>
      if word a "maintenance" && word b "cache-pressure" then n ← parse_decimal_u64 c; Ok (EnqueueCachePressure n)
      else if negb (word a "job") then Err Unsupported
      else if word b "get" then id ← parse_command_job_id c; Ok (Get id)
      else if word b "start" then id ← parse_command_job_id c; Ok (Start id)
      else if word b "succeed" then id ← parse_command_job_id c; Ok (Succeed id)
      else if word b "retry" then id ← parse_command_job_id c; Ok (Retry id)
      else Err Unsupported
  | [a; b; c; d] =>
      if negb (word a "job") then Err Unsupported
      else if word b "enqueue" then kind ← parse_hex_bytes c false; payload ← parse_hex_bytes d true; Ok (Enqueue kind payload)
      else if word b "fail" then id ← parse_command_job_id c; error ← parse_hex_bytes d false; Ok (Fail id error)
      else Err Unsupported
  | _ => Err Unsupported
  end.
Definition parse_daemon_command (request : bytes) : PResult DaemonCommand :=
  _ ← ensure (bool_decide (request ≠ []) && negb (existsb (λ b, bool_decide (b ∈ [x0a; x0d; x09])) request)) Invalid;
  let fields := split x20 request in
  _ ← ensure (negb (existsb (λ f, bool_decide (f = [])) fields)) Invalid;
  parse_fields fields.

(** ** Responses *)

Definition job_state_name (s : JobState) : bytes :=
  match s with Queued => b_ "queued" | Running => b_ "running" | Succeeded => b_ "succeeded" | Failed => b_ "failed" end.
Definition migration_state_name (s : Migration.MigrationState) : bytes :=
  match s with
  | Migration.NotStarted => b_ "not-started"
  | Migration.Copying => b_ "copying"
  | Migration.Validating => b_ "validating"
  | Migration.Published => b_ "published"
  end.
Definition newline : bytes := [x0a].
Definition render_job_response (r : JobRecord) : bytes :=
  b_ "ok job id=" ++ Cache.hex (job_bytes (jb_id r)) ++ b_ " state=" ++ job_state_name (jb_state r) ++
  b_ " attempts=" ++ to_string (jb_attempts r) ++ newline.
Definition job_error_response (e : JobError) : bytes :=
  match e with
  | JobNotFound _ => b_ "error job-not-found" ++ newline
  | InvalidTransition _ _ _ => b_ "error invalid-transition" ++ newline
  | InvalidRecord _ | JobUnsupportedVersion _ => b_ "error invalid-job" ++ newline
  | JobIo _ | JobAlreadyExists _ | AttemptOverflow _ | UnsafeJobDirectoryEntry _ => b_ "error job-store" ++ newline
  end.

(** ** The service *)

Record JobStateCounts := mkCounts { jc_queued : Z; jc_running : Z; jc_succeeded : Z; jc_failed : Z }.
Definition count_job (c : JobStateCounts) (r : JobRecord) : JobStateCounts :=
  match jb_state r with
  | Queued => mkCounts (jc_queued c + 1) (jc_running c) (jc_succeeded c) (jc_failed c)
  | Running => mkCounts (jc_queued c) (jc_running c + 1) (jc_succeeded c) (jc_failed c)
  | Succeeded => mkCounts (jc_queued c) (jc_running c) (jc_succeeded c + 1) (jc_failed c)
  | Failed => mkCounts (jc_queued c) (jc_running c) (jc_succeeded c) (jc_failed c + 1)
  end.
Record DaemonMetricsSnapshot := mkSnapshot {
  dm_jobs : JobStateCounts; dm_recovered_on_startup : Z; dm_accepted_requests : Z; dm_rejected_requests : Z }.
(** Paths are left out of the status. *)
Record DaemonStatus := mkStatus {
  ds_metrics : DaemonMetricsSnapshot; ds_scrub : Scrub.ScrubScheduleStatus; ds_migration : Migration.MigrationStatus }.
Inductive DaemonError := DaIo (e : IoErrorKind) | AlreadyRunning | UnauthorizedPeer | InvalidSocketPath.
Inductive DaemonConfigError :=
| CfIo (e : IoErrorKind)
| MissingDirectory (path : bytes)
| SymlinkDirectory (path : bytes)
| NotDirectory (path : bytes)
| WrongOwner (path : bytes) (expected_uid actual_uid : Z)
| UnsafePermissions (path : bytes) (mode : Z).
Inductive DaemonServiceError :=
| DsConfig (e : DaemonConfigError)
| DsDaemon (e : DaemonError)
| DsJob (e : JobError)
| DsScrub (e : Scrub.ScrubScheduleError)
| DsMigration (e : Migration.MigrationError)
| StoreAlreadyInUse (path : bytes).
(** The service besides its disk. *)
Record DaemonService := mkService {
  sv_scrubs : option Scrub.ScrubScheduleState; sv_migrations : Migration.MigrationStore;
  sv_recovered_on_startup : Z; sv_accepted_requests : Z; sv_rejected_requests : Z }.
(** What one request draws: counter values, random identifiers and the clock. *)
Record Draws := mkDraws { dw_nonces : list Z; dw_ids : list (result IoErrorKind JobId); dw_now : result Scrub.ScrubScheduleError Z }.

Section Service.
Context (dir : bytes).
Abbreviation SIO := (ST (Disk * DaemonService)).
Definition on_jobs {A} (act : ST Disk JobError A) : SIO JobError A := λ x, let '(r, d) := act x.1 in (r, (d, x.2)).

Definition enqueue_operational_gc (w : Draws) : ST Disk JobError JobRecord :=
  enqueue dir (dw_nonces w) (dw_ids w) OPERATIONAL_GC_JOB_KIND [].
Definition enqueue_cache_pressure (w : Draws) (projected : Z) : ST Disk JobError JobRecord :=
  enqueue dir (dw_nonces w) (dw_ids w) CACHE_PRESSURE_JOB_KIND (be_encode 8 projected).
Definition metrics_snapshot : SIO DaemonServiceError DaemonMetricsSnapshot := λ x,
  let '(r, d) := list_ dir x.1 in
  (match r with
   | Ok records => Ok (mkSnapshot (foldl count_job (mkCounts 0 0 0 0) records) (sv_recovered_on_startup x.2)
                         (sv_accepted_requests x.2) (sv_rejected_requests x.2))
   | Err e => Err (DsJob e)
   end, (d, x.2)).
Definition status (w : Draws) : SIO DaemonServiceError DaemonStatus :=
  metrics ⇐ metrics_snapshot;
  now ⇐ st_lift (map_err DsScrub (dw_now w));
  st_get (λ x, mkStatus metrics (Scrub.status_at now (sv_scrubs x.2)) (Migration.status (sv_migrations x.2))).
Definition bit (b : bool) : bytes := if b then b_ "1" else b_ "0".
Definition render_status (t : DaemonStatus) : bytes :=
  let m := ds_metrics t in
  let schedule := Scrub.st_schedule (ds_scrub t) in
  let g := ds_migration t in
  b_ "ok status queued=" ++ to_string (jc_queued (dm_jobs m)) ++ b_ " running=" ++ to_string (jc_running (dm_jobs m)) ++
  b_ " succeeded=" ++ to_string (jc_succeeded (dm_jobs m)) ++ b_ " failed=" ++ to_string (jc_failed (dm_jobs m)) ++
  b_ " recovered=" ++ to_string (dm_recovered_on_startup m) ++ b_ " accepted=" ++ to_string (dm_accepted_requests m) ++
  b_ " rejected=" ++ to_string (dm_rejected_requests m) ++
  b_ " scrub_state=" ++ match schedule with
                        | None => b_ "disabled"
                        | Some s => match Scrub.ss_run_state s with Scrub.Idle => b_ "idle" | Scrub.Running => b_ "running" end
                        end ++
  b_ " scrub_due=" ++ bit (Scrub.st_due (ds_scrub t)) ++
  b_ " scrub_next_due=" ++ match schedule with None => b_ "none" | Some s => to_string (Scrub.ss_next_due_unix_seconds s) end ++
  b_ " scrub_recovered=" ++ to_string match schedule with None => 0 | Some s => Scrub.ss_recovered_interrupted_runs s end ++
  b_ " migration_state=" ++ migration_state_name (Migration.mst_state g) ++
  b_ " migration_active_version=" ++ to_string (Migration.mst_active_format_version g) ++
  b_ " migration_target_version=" ++
    match Migration.mst_migration g with None => b_ "none" | Some r => to_string (Migration.mr_to_format_version r) end ++
  b_ " migration_partial=" ++ bit (Migration.mst_partial_migration g) ++
  b_ " migration_resumable=" ++ bit (Migration.mst_resumable g) ++ newline.
Definition status_error (e : DaemonServiceError) : JobError :=
  match e with DsJob e => e | _ => InvalidRecord "daemon metrics are unavailable" end.
Definition respond (act : ST Disk JobError JobRecord) : SIO JobError bytes :=
  on_jobs (r ⇐ act; st_ret (render_job_response r)).
Definition execute (w : Draws) (c : DaemonCommand) : SIO JobError bytes :=
  match c with
  | Status => t ⇐ st_map_err status_error (status w); st_ret (render_status t)
  | EnqueueOperationalGc => respond (enqueue_operational_gc w)
  | EnqueueCachePressure projected => respond (enqueue_cache_pressure w projected)
  | Enqueue kind payload => respond (enqueue dir (dw_nonces w) (dw_ids w) kind payload)
  | Get id => respond (get dir id)
  | Start id => respond (start dir (dw_nonces w) id)
  | Succeed id => respond (succeed dir (dw_nonces w) id)
  | Fail id error => respond (fail dir (dw_nonces w) id error)
  | Retry id => respond (retry dir (dw_nonces w) id)
  end.
(** [fetch_add] wraps. *)
Definition accept (s : DaemonService) : DaemonService :=
  mkService (sv_scrubs s) (sv_migrations s) (sv_recovered_on_startup s) ((sv_accepted_requests s + 1) mod 2 ^ 64) (sv_rejected_requests s).
Definition reject (s : DaemonService) : DaemonService :=
  mkService (sv_scrubs s) (sv_migrations s) (sv_recovered_on_startup s) (sv_accepted_requests s) ((sv_rejected_requests s + 1) mod 2 ^ 64).
Definition handle_socket_command (w : Draws) (request : bytes) (x : Disk * DaemonService) : bytes * (Disk * DaemonService) :=
  match parse_daemon_command request with
  | Ok command =>
      match execute w command x with
      | (Ok response, (d, s)) => (response, (d, accept s))
      | (Err e, (d, s)) => (job_error_response e, (d, reject s))
      end
  | Err Unsupported => (b_ "error unsupported-request" ++ newline, (x.1, reject x.2))
  | Err Invalid => (b_ "error invalid-request" ++ newline, (x.1, reject x.2))
  end.

(** ** Framing *)

(** [take(MAX + 1).read_until(b'\n')] on what the peer sends. *)
Fixpoint read_until (sep : byte) (b : bytes) : bytes :=
  match b with
  | [] => []
  | x :: b => x :: if decide (x = sep) then [] else read_until sep b
  end.
Definition read_request (sent : bytes) : bytes := read_until x0a (take (Z.to_nat (MAX_SOCKET_REQUEST_LEN + 1)) sent).
Definition serve_one_with (w : Draws) (sent : bytes) (x : Disk * DaemonService) : bytes * (Disk * DaemonService) :=
  match strip_suffix (read_request sent) [x0a] with
  | Some line =>
      if bool_decide (blen line ≤ MAX_SOCKET_REQUEST_LEN) && bool_decide (x0a ∉ line) && bool_decide (x0d ∉ line) &&
         WorkspaceStore.is_utf8 line
      then handle_socket_command w line x
      else (b_ "error invalid-request" ++ newline, x)
  | None => (b_ "error invalid-request" ++ newline, x)
  end.
End Service.
End Service.

(** * What the service guarantees *)

Import DiskSpec DirectorySpec JobsSpec JobsQueueSpec JobsListSpec JobsOpsSpec Service.

Module ServiceSpec.

#[local] Set Warnings "-clear-no-such-hyp".

(** ** The protocol *)

(** One request line per command. *)
Definition command_fields (c : DaemonCommand) : list bytes :=
  match c with
  | Status => [b_ "status"]
  | EnqueueOperationalGc => [b_ "maintenance"; b_ "gc"]
  | EnqueueCachePressure n => [b_ "maintenance"; b_ "cache-pressure"; to_string n]
  | Enqueue kind payload => [b_ "job"; b_ "enqueue"; Cache.hex kind; Cache.hex payload]
  | Get id => [b_ "job"; b_ "get"; Cache.hex (job_bytes id)]
  | Start id => [b_ "job"; b_ "start"; Cache.hex (job_bytes id)]
  | Succeed id => [b_ "job"; b_ "succeed"; Cache.hex (job_bytes id)]
  | Fail id error => [b_ "job"; b_ "fail"; Cache.hex (job_bytes id); Cache.hex error]
  | Retry id => [b_ "job"; b_ "retry"; Cache.hex (job_bytes id)]
  end.
Fixpoint unwords (fields : list bytes) : bytes :=
  match fields with
  | [] => []
  | [f] => f
  | f :: fields => f ++ x20 :: unwords fields
  end.
(** The commands that a request can express. *)
Definition expressible (c : DaemonCommand) : Prop :=
  match c with
  | Status | EnqueueOperationalGc => True
  | EnqueueCachePressure n => is_u64 n
  | Enqueue kind payload => kind ≠ [] ∧ payload ≠ []
  | Get id | Start id | Succeed id | Retry id => jid_wf id
  | Fail id error => jid_wf id ∧ error ≠ []
  end.

(** A field has no separator, no line break and no tab. *)
Definition plain (b : byte) : bool := bool_decide (b ∉ [x20; x0a; x0d; x09]).
Lemma plain_hex b : forallb plain (Cache.hex b) = true.
Proof.
  pose proof (CacheSpec.hex_digits_only b) as H. revert H. generalize (Cache.hex b) as l. induction l as [|x l IH]; [done|]. cbn.
  intros [Hx Hl]%andb_true_iff. rewrite (IH Hl), andb_true_r. by destruct x.
Qed.
Lemma plain_digits b : forallb is_ascii_digit b = true → forallb plain b = true.
Proof. induction b as [|x b IH]; [done|]. cbn. intros [Hx Hb]%andb_true_iff. rewrite (IH Hb), andb_true_r. by destruct x. Qed.
Lemma to_string_digits z : is_u64 z → to_string z ≠ [] ∧ forallb is_ascii_digit (to_string z) = true.
Proof.
  intros Hz. destruct (digits_spec 20 z []) as (d & Hd & Hne & Hall & _); [unfold in_width in Hz; cbn; lia|lia|].
  unfold to_string. rewrite Hd, app_nil_r. done.
Qed.
Lemma plain_not_in f x : forallb plain f = true → plain x = false → x ∉ f.
Proof. rewrite forallb_forall. intros Hf Hx Hin%list_elem_of_In%Hf. congruence. Qed.
Lemma unwords_cons f g fields : unwords (f :: g :: fields) = f ++ x20 :: unwords (g :: fields).
Proof. done. Qed.
Lemma split_unwords fields : fields ≠ [] → Forall (λ f, forallb plain f = true) fields → split x20 (unwords fields) = fields.
Proof.
  induction fields as [|f fields IH]; [done|]. intros _ [Hf Hfs]%Forall_cons. pose proof (plain_not_in f x20 Hf eq_refl) as Hn.
  destruct fields as [|g fields]; [by cbn; rewrite GitSpec.split_last|]. rewrite unwords_cons, GitSpec.split_line by done. f_equal. by apply IH.
Qed.
Lemma unwords_clean fields : Forall (λ f, forallb plain f = true) fields →
  existsb (λ b, bool_decide (b ∈ [x0a; x0d; x09])) (unwords fields) = false.
Proof.
  assert (∀ f, forallb plain f = true → existsb (λ b, bool_decide (b ∈ [x0a; x0d; x09])) f = false) as Hone.
  { induction f as [|x f IH]; [done|]. cbn. intros [Hx Hf]%andb_true_iff. rewrite (IH Hf), orb_false_r. by destruct x. }
  induction fields as [|f fields IH]; [done|]. intros [Hf Hfs]%Forall_cons. destruct fields as [|g fields]; [by apply Hone|].
  rewrite unwords_cons, existsb_app, (Hone f Hf). cbn [existsb orb]. by rewrite (IH Hfs).
Qed.
Lemma parse_unwords fields : fields ≠ [] → Forall (λ f, f ≠ [] ∧ forallb plain f = true) fields →
  parse_daemon_command (unwords fields) = parse_fields fields.
Proof.
  intros Hne Hall. assert (Forall (λ f, forallb plain f = true) fields) as Hp by (by eapply Forall_impl; [exact Hall|intros ? []]).
  unfold parse_daemon_command. rewrite unwords_clean by done. rewrite split_unwords by done.
  rewrite bool_decide_eq_true_2. 2: { destruct fields as [|f [|]]; [done| |]; cbn; apply Forall_cons in Hall as [[Hf _] _]; [done|]. by destruct f. }
  cbn [andb negb ensure]. rewrite bind_Ok. cbv zeta.
  assert (existsb (λ f, bool_decide (f = [])) fields = false) as ->; [|done].
  clear Hne Hp. induction Hall as [|f fs [Hf _] _ IH]; [done|]. cbn. by rewrite bool_decide_eq_false_2, IH.
Qed.
Lemma parse_hex_hex b allow : b ≠ [] → parse_hex_bytes (Cache.hex b) allow = Ok b.
Proof.
  intros Hb. unfold parse_hex_bytes. rewrite CacheSpec.length_hex_name, Nat.even_mul, hex_bytes_hex. cbn [Nat.even orb].
  rewrite bool_decide_eq_true_2 by (by destruct b). by rewrite orb_true_r.
Qed.
Lemma parse_id_hex id : jid_wf id → parse_command_job_id (Cache.hex (job_bytes id)) = Ok id.
Proof.
  intros Hid. unfold parse_command_job_id, parse_hex. rewrite CacheSpec.length_hex_name, Hid, decide_True by done.
  rewrite hex_bytes_hex. by destruct id.
Qed.
Lemma hex_nonempty b : b ≠ [] → Cache.hex b ≠ [].
Proof. by destruct b. Qed.
Lemma id_nonempty id : jid_wf id → job_bytes id ≠ [].
Proof. intros Hid He. unfold jid_wf in Hid. by rewrite He in Hid. Qed.
#[local] Arguments to_string : simpl never.
Lemma parse_command_fields c : expressible c → parse_daemon_command (unwords (command_fields c)) = Ok c.
Proof.
  assert (∀ id, jid_wf id → Cache.hex (job_bytes id) ≠ [] ∧ forallb plain (Cache.hex (job_bytes id)) = true) as Hid
    by (intros; split; [by apply hex_nonempty, id_nonempty|apply plain_hex]).
  assert (∀ b, b ≠ [] → Cache.hex b ≠ [] ∧ forallb plain (Cache.hex b) = true) as Hhex
    by (intros; split; [by apply hex_nonempty|apply plain_hex]).
  intros He. rewrite parse_unwords; [|by destruct c|].
  - destruct c; cbn in He |- *; rewrite ?parse_id_hex by naive_solver; try done.
    2: { destruct He. by rewrite (parse_hex_hex kind), (parse_hex_hex payload). }
    2: { destruct He as [_ He]. rewrite (parse_hex_hex error false He). vm_compute. reflexivity. }
    unfold parse_decimal_u64. destruct (to_string_digits _ He) as [Hne ->]. rewrite bool_decide_eq_true_2 by done. cbn.
    by rewrite parse_to_string.
  - assert (∀ n, is_u64 n → to_string n ≠ [] ∧ forallb plain (to_string n) = true) as Hdec
      by (intros n [? ?]%to_string_digits; split; [done|by apply plain_digits]).
    destruct c; cbn [expressible command_fields] in *; repeat (apply Forall_cons; split); try apply Forall_nil;
      first [done|by apply Hid|by apply Hid, He|by apply Hhex|by apply Hhex, He|by apply Hdec].
Qed.
Lemma hex_bytes_length n : ∀ v b, length v = (2 * n)%nat → hex_bytes v = Some b → length b = n.
Proof.
  induction n as [|n IH]; intros v b Hl Hb.
  { destruct v; [|done]. by injection Hb as <-. }
  destruct v as [|x [|y v]]; [cbn in Hl; lia|cbn in Hl; lia|]. cbn [hex_bytes] in Hb.
  apply bind_Some in Hb as (h & _ & (l & _ & (r & Hr & [= <-])%bind_Some)%bind_Some). cbn in Hl |- *. f_equal. apply (IH v r); [lia|done].
Qed.
Lemma parsed_id v id : parse_command_job_id v = Ok id → jid_wf id.
Proof.
  intros H%ok_or_Ok_inv. unfold parse_hex in H. case_decide as Hl; [|done]. apply fmap_Some in H as (b & Hb & ->).
  by apply (hex_bytes_length 16) in Hb.
Qed.
Lemma parsed_bytes v allow b : v ≠ [] → parse_hex_bytes v allow = Ok b → b ≠ [].
Proof.
  intros Hv H. apply bind_Ok_inv in H as ([] & [_ Hev]%ensure_Ok_inv%andb_true_iff & Hb%ok_or_Ok_inv).
  apply Nat.even_spec in Hev as [n Hn]. pose proof (hex_bytes_length n v b Hn Hb) as Hl. intros ->. cbn in Hl. subst n. by destruct v.
Qed.
Lemma parsed_expressible request c : parse_daemon_command request = Ok c → expressible c.
Proof.
  intros H. apply bind_Ok_inv in H as ([] & _ & H). cbv zeta in H. apply bind_Ok_inv in H as ([] & Hne%ensure_Ok_inv%negb_true_iff & H).
  assert (∀ f, f ∈ split x20 request → f ≠ []) as Hf.
  { intros f Hin ->. apply not_true_iff_false in Hne. apply Hne, existsb_exists. exists []. by rewrite <-list_elem_of_In. }
  clear Hne. revert Hf H. generalize (split x20 request) as fields. intros fields Hf H.
  unfold parse_fields in H. destruct fields as [|a [|b [|c1 [|d [|]]]]]; try done.
  - destruct (word a _); [|done]. by injection H as <-.
  - destruct (_ && _); [|done]. by injection H as <-.
  - destruct (_ && _).
    + apply bind_Ok_inv in H as (n & Hn & [= <-]). apply bind_Ok_inv in Hn as (_ & _ & Hn%ok_or_Ok_inv). by eapply parse_u64_bound.
    + destruct (negb _); [done|]. repeat (destruct (word b _); [apply bind_Ok_inv in H as (id & Hid%parsed_id & [= <-]); done|]). done.
  - destruct (negb _); [done|]. destruct (word b _); [|destruct (word b _); [|done]].
    + apply bind_Ok_inv in H as (k & Hk & H). apply bind_Ok_inv in H as (pl & Hp & [= <-]).
      split; eapply parsed_bytes; try eassumption; apply Hf; set_solver.
    + apply bind_Ok_inv in H as (id & Hid%parsed_id & H). apply bind_Ok_inv in H as (e & He & [= <-]).
      split; [done|]. eapply parsed_bytes; [|exact He]. apply Hf. set_solver.
Qed.

(** The socket protocol expresses exactly these commands. Some request
    parses to the command [c] if and only if its identifier has 16 bytes, its
    number is a [u64], and its kind, error and payload are not empty; one such
    request is the words of [c], in lower-case hexadecimal and decimal, with
    single spaces. In particular no request enqueues a job with an empty
    payload, although the parser of byte fields is told to allow one. *)
Theorem commands_expressible c :
  (expressible c ↔ ∃ request, parse_daemon_command request = Ok c) ∧
  (expressible c → parse_daemon_command (unwords (command_fields c)) = Ok c).
Proof.
  split; [|apply parse_command_fields]. split; [eauto using parse_command_fields|]. intros [request H]. by eapply parsed_expressible.
Qed.

(** ** Requests *)

Section Requests.
Context (dir : bytes).
Abbreviation now d := (view dir d (d_names d)).

(** The operation of the queue that a command runs. *)
Definition command_op (w : Draws) (c : DaemonCommand) : JobOp :=
  match c with
  | Status => DoList
  | EnqueueOperationalGc => DoEnqueue (dw_nonces w) (dw_ids w) OPERATIONAL_GC_JOB_KIND []
  | EnqueueCachePressure n => DoEnqueue (dw_nonces w) (dw_ids w) CACHE_PRESSURE_JOB_KIND (be_encode 8 n)
  | Enqueue kind payload => DoEnqueue (dw_nonces w) (dw_ids w) kind payload
  | Get id => DoGet id
  | Start id => DoStart (dw_nonces w) id
  | Succeed id => DoSucceed (dw_nonces w) id
  | Fail id error => DoFail (dw_nonces w) id error
  | Retry id => DoRetry (dw_nonces w) id
  end.
(** Random identifiers have 16 bytes. *)
Definition draws_wf (w : Draws) : Prop := Forall (λ id, ∀ i, id = Ok i → jid_wf i) (dw_ids w).
Lemma command_op_wf w c : draws_wf w → JobsOpsSpec.op_wf (command_op w c).
Proof. by destruct c. Qed.
(** What a response to a job command says. *)
Definition reported (c : DaemonCommand) (d : Disk) (response : bytes) : Prop :=
  match c with
  | Status => ∃ t, response = render_status t
  | Get id => ∃ r, response = render_job_response r ∧ jb_id r = id ∧ now d id = Some r
  | _ => ∃ r, response = render_job_response r ∧ durable dir d r
  end.
Lemma execute_spec w c x res x' : draws_wf w → queue_ok dir x.1 → execute dir w c x = (res, x') →
  x' = ((run_op dir (command_op w c) x.1).2, x.2) ∧ ∀ response, res = Ok response → reported c x'.1 response.
Proof.
  intros Hw Hq.
  assert (∀ act o, (∀ d, run_op dir o d = (r ⇐ act; st_ret (Some r)) d) → JobsOpsSpec.op_wf o → respond act x = (res, x') →
    x' = ((run_op dir o x.1).2, x.2) ∧ ∀ response, res = Ok response → ∃ r, response = render_job_response r ∧ durable dir x'.1 r) as Hact.
  { intros act o Ho Hwf. unfold respond, on_jobs. destruct (run_op dir o x.1) as [ro d] eqn:Hr. pose proof Hr as Hr'.
    rewrite Ho in Hr'. unfold st_bind, st_ret in Hr' |- *. apply run_op_evolves in Hr as [_ Hd]; [|done|done].
    destruct (act x.1) as [[r|e] d1]; injection Hr' as <- <-; intros [= <- <-]; (split; [done|]); [|done].
    intros response [= <-]. exists r. split; [done|]. by apply Hd. }
  destruct c; cbn [execute command_op]; intros He;
    try (lazymatch type of He with respond ?act _ = _ => lazymatch goal with |- _ = ((run_op _ ?o _).2, _) ∧ _ =>
           exact (Hact act o (λ _, eq_refl) Hw He) || exact (Hact act o (λ _, eq_refl) I He) end end).
  - unfold status, metrics_snapshot, st_map_err, st_bind, st_lift, st_get, st_ret in He. cbn [run_op]. unfold st_bind, st_ret.
    destruct (list_ dir x.1) as [[l|e] d]; [|by injection He as <- <-].
    destruct (dw_now w) as [n|e]; cbn [map_err] in He; injection He as <- <-; (split; [done|]); [|done].
    intros response [= <-]. by eexists.
  - unfold respond, on_jobs, st_bind, st_ret in He. cbn [run_op]. unfold st_bind, st_ret. destruct (get dir id x.1) as [r d] eqn:Hg.
    pose proof Hg as [Hs Hrec]%read_job_inv. destruct r as [r|e]; injection He as <- <-; (split; [done|]); [|done].
    intros response [= <-]. exists r. destruct (Hrec r eq_refl) as [Hn Hid]. split_and!; [done|done|].
    by rewrite (now_same _ _ _ _ Hs).
Qed.

Definition is_ok_response (response : bytes) : bool := starts_with response (b_ "ok ").
Lemma reported_ok c d response : reported c d response → is_ok_response response = true.
Proof. destruct c; cbn [reported]; [intros [t ->]| | | |intros (r & -> & _)| | | |]; try done; by intros (r & -> & _). Qed.
Lemma job_error_not_ok e : is_ok_response (job_error_response e) = false.
Proof. by destruct e. Qed.
(** What one request did. *)
Record served (w : Draws) (line : bytes) (c : DaemonCommand) (x : Disk * DaemonService) (response : bytes) (x' : Disk * DaemonService) : Prop := {
  served_parse : parse_daemon_command line = Ok c;
  served_disk : x'.1 = (run_op dir (command_op w c) x.1).2;
  served_reported : reported c x'.1 response;
  served_counted : x'.2 = accept x.2 }.
Lemma handle_spec w line x response x' : draws_wf w → queue_ok dir x.1 → handle_socket_command dir w line x = (response, x') →
  evolves dir x.1 x'.1 ∧
  ((∃ c, served w line c x response x') ∨ (is_ok_response response = false ∧ x'.2 = reject x.2)).
Proof.
  intros Hw Hq. unfold handle_socket_command. destruct (parse_daemon_command line) as [c|[]] eqn:Hp.
  2-3: (intros [= <- <-]; cbn [fst snd]; split; [by apply same_evolves|by right]).
  destruct (execute dir w c x) as [res [d s]] eqn:He. destruct (execute_spec _ _ _ _ _ Hw Hq He) as [[= -> ->] Hrep].
  assert (evolves dir x.1 (run_op dir (command_op w c) x.1).2) as Hev.
  { destruct (run_op dir (command_op w c) x.1) as [ro d] eqn:Hr. eapply run_op_evolves; [done|by apply command_op_wf|exact Hr]. }
  destruct res as [resp|e]; intros [= <- <-]; (split; [done|]).
  - left. exists c. by split; [| |apply Hrep|].
  - right. split; [apply job_error_not_ok|done].
Qed.

(** C40. Requests reach nothing but the job queue. Whatever bytes the peer sends
    and whatever calls fail, one served request changes at most the queue, by
    one operation of it, so that every job in every name space a crash may find
    only advances; the scrub schedule and the migration journal stay as they
    are. A response that begins with [ok] is given only when the first line
    parsed to a command of the protocol and that command succeeded: it is
    counted as accepted, and the record it shows is then durable (for [get], it
    is the current one). Any other response leaves the accepted count alone. *)
Theorem socket_requests_safe w sent x response x' :
  draws_wf w → queue_ok dir x.1 → serve_one_with dir w sent x = (response, x') →
  evolves dir x.1 x'.1 ∧ sv_scrubs x'.2 = sv_scrubs x.2 ∧ sv_migrations x'.2 = sv_migrations x.2 ∧
  (is_ok_response response = true → ∃ line c, read_request sent = line ++ newline ∧ served w line c x response x') ∧
  (is_ok_response response = false → x'.2 = reject x.2 ∨ x' = x).
Proof.
  intros Hw Hq. unfold serve_one_with.
  assert (∀ r, (r, x) = (response, x') → is_ok_response r = false → evolves dir x.1 x'.1 ∧ sv_scrubs x'.2 = sv_scrubs x.2 ∧
    sv_migrations x'.2 = sv_migrations x.2 ∧
    (is_ok_response response = true → ∃ line c, read_request sent = line ++ newline ∧ served w line c x response x') ∧
    (is_ok_response response = false → x'.2 = reject x.2 ∨ x' = x)) as Hsame.
  { intros r [= -> <-] Hr. split_and!; [by apply same_evolves|done|done|congruence|by right]. }
  destruct (strip_suffix _ _) as [line|] eqn:Hline; [|intros Hx; by apply (Hsame _ Hx)].
  destruct (_ && _); [|intros Hx; by apply (Hsame _ Hx)]. clear Hsame.
  assert (read_request sent = line ++ newline) as Hread.
  { unfold strip_suffix, WorkspaceStore.ends_with in Hline. destruct (bool_decide _ && bool_decide _) eqn:Hb; [|done].
    apply andb_true_iff in Hb as [_ Hd%bool_decide_eq_true]. injection Hline as <-. unfold newline.
    rewrite <-(take_drop (length (read_request sent) - length [x0a]) (read_request sent)) at 1. by rewrite Hd. }
  intros [Hev Hcase]%handle_spec; [|done|done]. destruct Hcase as [[c Hs]|[Hr Hx]].
  - pose proof (reported_ok _ _ _ (served_reported _ _ _ _ _ _ Hs)) as Hok. rewrite (served_counted _ _ _ _ _ _ Hs).
    split_and!; [done|done|done| |congruence]. intros _. by exists line, c.
  - rewrite Hx. split_and!; [done|done|done|congruence|by left].
Qed.
End Requests.

(** ** Telemetry *)

(** The buffer holds the latest events, at most its capacity, and counts the others. *)
Definition buffer_of (capacity : Z) (events : list OperationEvent) : BoundedOperationEvents :=
  mkBuffer capacity (drop (length events - Z.to_nat capacity) events) (Z.min (Z.of_nat (length events - Z.to_nat capacity)) u64_max).
Lemma buffer_records capacity events e : 0 < capacity →
  buffer_record (buffer_of capacity events) e = buffer_of capacity (events ++ [e]).
Proof.
  intros Hc. unfold buffer_record, buffer_of, saturating_inc. cbn [bo_capacity bo_events bo_dropped_events].
  rewrite length_drop, length_app. cbn [length]. case_decide as Hl; cbn [bo_capacity bo_events bo_dropped_events]; f_equal.
  - rewrite drop_app_le by lia. f_equal. destruct (drop _ events) as [|a l] eqn:Hd.
    { apply (f_equal length) in Hd. rewrite length_drop in Hd. cbn in Hd. lia. }
    cbn [tail]. replace (length events + 1 - Z.to_nat capacity)%nat with (S (length events - Z.to_nat capacity)) by lia.
    rewrite <-Nat.add_1_r, <-drop_drop, Hd. done.
  - unfold u64_max in *. lia.
  - rewrite drop_app_le by lia. f_equal. f_equal. lia.
  - lia.
Qed.
(** After any sequence of events. *)
Lemma telemetry_window capacity b events : 0 ≤ capacity → buffer_new capacity = Ok b →
  foldl buffer_record b events = buffer_of capacity events ∧ (length (bo_events (foldl buffer_record b events)) ≤ 4096)%nat.
Proof.
  intros Hpos Hn. apply bind_Ok_inv in Hn as ([] & Hnz%ensure_Ok_inv%bool_decide_eq_true & Hn).
  apply bind_Ok_inv in Hn as ([] & Hmax%ensure_Ok_inv%bool_decide_eq_true & [= <-]).
  assert (foldl buffer_record (mkBuffer capacity [] 0) events = buffer_of capacity events) as ->.
  { induction events as [|e events IH] using rev_ind; [by cbn|]. rewrite foldl_app, IH. apply buffer_records. lia. }
  split; [done|]. cbn. rewrite length_drop. unfold MAX_OPERATION_EVENT_CAPACITY in Hmax. lia.
Qed.
(** The counters by component and by outcome both add up to the total, while none of them saturates. *)
Definition balanced (m : OperationEventMetricsSnapshot) : Prop :=
  mt_total m = mt_jobs m + mt_maintenance m + mt_scrubs m + mt_migrations m ∧
  mt_total m = mt_idle m + mt_succeeded m + mt_handler_errors m + mt_handler_panics m + mt_persistence_failures m ∧
  0 ≤ mt_jobs m ∧ 0 ≤ mt_maintenance m ∧ 0 ≤ mt_scrubs m ∧ 0 ≤ mt_migrations m ∧
  0 ≤ mt_idle m ∧ 0 ≤ mt_succeeded m ∧ 0 ≤ mt_handler_errors m ∧ 0 ≤ mt_handler_panics m ∧ 0 ≤ mt_persistence_failures m.
Lemma metrics_balanced events : Z.of_nat (length events) ≤ u64_max →
  balanced (foldl metrics_record metrics_default events) ∧ mt_total (foldl metrics_record metrics_default events) = Z.of_nat (length events).
Proof.
  induction events as [|e events IH] using rev_ind; [intros _; split; [done|done]|]. rewrite length_app. cbn [length]. intros Hl.
  destruct IH as [Hb Ht]; [lia|]. rewrite foldl_app. cbn [foldl]. destruct (foldl _ _ _) as [t j ma s mi i su he hp pf].
  unfold balanced in *. cbn in Hb, Ht.
  assert (∀ n, 0 ≤ n → n ≤ t → saturating_inc n = n + 1) as Hinc by (intros; unfold saturating_inc; lia).
  destruct e as [? o|? ? o|? o|? o]; destruct o as [| |[]|]; cbn; rewrite !Hinc by lia; lia.
Qed.

(** ** A run *)

Definition demo_draws : Draws := mkDraws [0] [Ok (mkJobId (replicate 16 xab))] (Ok 1000).
Definition demo_service : DaemonService := mkService None (Migration.mkMigrationStore 1 None) 0 0 0.
Definition demo_served := serve_one_with demo_dir demo_draws (b_ "maintenance gc" ++ newline) (demo_empty, demo_service).
Lemma socket_requests_safe_witness :
  is_ok_response demo_served.1 = true ∧ sv_accepted_requests demo_served.2.2 = 1 ∧
  ∃ line c, read_request (b_ "maintenance gc" ++ newline) = line ++ newline ∧
    served demo_dir demo_draws line c (demo_empty, demo_service) demo_served.1 demo_served.2.
Proof.
  assert (is_ok_response demo_served.1 = true) as Hok by (vm_compute; reflexivity). split; [exact Hok|].
  split; [vm_compute; reflexivity|].
  refine (proj1 (proj2 (proj2 (proj2 (socket_requests_safe demo_dir demo_draws (b_ "maintenance gc" ++ newline) (demo_empty, demo_service)
    demo_served.1 demo_served.2 _ _ _)))) Hok).
  - apply Forall_singleton. intros i [= <-]. reflexivity.
  - exact demo_empty_ok.
  - exact (surjective_pairing demo_served).
Defined.
End ServiceSpec.
