(* ===== verification/Workers.v ===== *)
(** * The workers of the job queue: [reflink-forest-daemon/src/lib.rs]

    The handlers that carry out queued jobs: cache and chunk maintenance,
    trusted imports and checkouts with their startup recovery, and the
    coordinator of garbage collection and cache pressure. Module [Reserve]:
    imports and compaction behind the capacity coordinator of the cache. *)

From Stdlib Require Import ZArith Lia Strings.Byte Strings.String.
From stdpp Require Import base tactics list gmap strings.
From S2P Require Import Prelude Order Core Format Codec CatalogCodec Catalog Chunk Disk Store Git Reader Snapshot Import Mark Generation Cache CacheSpec Checkout Workspace WorkspaceStore Jobs Service.
Import Core Format Codec CatalogCodec Catalog Chunk Disk Store Git Reader Snapshot Mark Generation Cache Jobs.

#[local] Open Scope Z_scope.

Module Workers.

(** [{state:?}] *)
Definition job_state_debug (s : JobState) : bytes :=
  match s with
  | Queued => b_ "Queued" | Running => b_ "Running" | Succeeded => b_ "Succeeded" | Failed => b_ "Failed"
  end.
(** [Result::map(|_| ())] of a handler, with its error rendered. *)
Definition handled {A E H} (show : E → bytes) (x : result E A * H) : HandlerResult * H :=
  match x.1 with
  | Ok _ => (Handled, x.2)
  | Err e => (HandlerFailed (show e), x.2)
  end.
Definition be_payload (n : nat) (payload : bytes) : option Z :=
  if decide (length payload = n) then Some (be_decode payload) else None.

(** ** Cache and chunk maintenance *)

Record ColdChunkTarget := mkColdChunk { ct_generation : Z; ct_chunk_id : Z; ct_path : Path }.
Inductive MaintenanceConfigurationError := DuplicateColdChunk (generation chunk_id : Z).
Inductive MaintenanceJobOutcome :=
| CacheReconciled (r : CacheReconciliation)
| CacheEvicted (e : CacheEviction)
| ColdChunkVerified (generation chunk_id records : Z).
Inductive MaintenanceJobError :=
| MjInvalidJobState (s : JobState)
| MjInvalidPayload (reason : string)
| MjUnsupportedKind (kind : bytes)
| UnconfiguredColdChunk (generation chunk_id : Z)
| MjCache (e : CacheError)
| MjStore (e : StoreError).

(** The inventory of [MaintenanceJobHandler]; its cache is state. *)
Fixpoint cold_chunk_inventory (cold_chunks : gmap (Z * Z) Path) (chunks : list ColdChunkTarget)
    : result MaintenanceConfigurationError (gmap (Z * Z) Path) :=
  match chunks with
  | [] => Ok cold_chunks
  | chunk :: chunks =>
      let key := (ct_generation chunk, ct_chunk_id chunk) in
      match cold_chunks !! key with
      | Some _ => Err (DuplicateColdChunk key.1 key.2)
      | None => cold_chunk_inventory (<[key := ct_path chunk]> cold_chunks) chunks
      end
  end.
Definition maintenance_new (chunks : list ColdChunkTarget) := cold_chunk_inventory ∅ chunks.

Definition VERIFY_COLD_CHUNK_PAYLOAD_LEN : nat := 12.
Definition decode_cache_evict_payload (payload : bytes) : result MaintenanceJobError Z :=
  ok_or (be_payload 8 payload) (MjInvalidPayload "cache eviction payload must be exactly 8 bytes").
Definition encode_cold_chunk_payload (generation chunk_id : Z) : bytes := be_encode 4 generation ++ be_encode 8 chunk_id.
Definition decode_cold_chunk_payload (payload : bytes) : result MaintenanceJobError (Z * Z) :=
  _ ← ensure (bool_decide (length payload = VERIFY_COLD_CHUNK_PAYLOAD_LEN))
             (MjInvalidPayload "cold chunk verification payload must be exactly 12 bytes");
  Ok (be_decode (take 4 payload), be_decode (drop 4 payload)).

Section Maintenance.
Context `{Digests} `{Zstd} {C : Type}.
Context (show_cache : CacheError → bytes) (show_store : StoreError → bytes).
Context (cold_chunks : gmap (Z * Z) Path).

(** The cache, and the disk with the cold chunks. *)
Abbreviation MState := (Cache * Sys C)%type.
Definition maintenance_execute (job : JobRecord) : ST MState MaintenanceJobError MaintenanceJobOutcome := λ x,
  if decide (jb_state job ≠ Running) then (Err (MjInvalidJobState (jb_state job)), x)
  else if decide (jb_kind job = Service.CACHE_RECONCILE_JOB_KIND) then
    if decide (jb_payload job ≠ []) then (Err (MjInvalidPayload "cache reconciliation payload must be empty"), x)
    else let '(r, c) := reconcile x.1 in (Ok (CacheReconciled r), (c, x.2))
  else if decide (jb_kind job = Service.CACHE_EVICT_JOB_KIND) then
    match decode_cache_evict_payload (jb_payload job) with
    | Err e => (Err e, x)
    | Ok target => let '(r, c) := evict_to x.1 target in (e ← map_err MjCache r; Ok (CacheEvicted e), (c, x.2))
    end
  else if decide (jb_kind job = Service.VERIFY_COLD_CHUNK_JOB_KIND) then
    match decode_cold_chunk_payload (jb_payload job) with
    | Err e => (Err e, x)
    | Ok (generation, chunk_id) =>
        match cold_chunks !! (generation, chunk_id) with
        | None => (Err (UnconfiguredColdChunk generation chunk_id), x)
        | Some path =>
            let '(r, s) := verify_chunk path x.2 in
            (records ← map_err MjStore r; Ok (ColdChunkVerified generation chunk_id records), (x.1, s))
        end
    end
  else (Err (MjUnsupportedKind (jb_kind job)), x).

Definition maintenance_error_text (e : MaintenanceJobError) : bytes :=
  match e with
  | MjInvalidJobState s => b_ "maintenance job must be running before execution, found " ++ job_state_debug s
  | MjInvalidPayload reason => b_ "invalid maintenance job payload: " ++ b_ reason
  | MjUnsupportedKind kind => b_ "unsupported maintenance job kind: " ++ to_string (blen kind) ++ b_ " bytes"
  | UnconfiguredColdChunk generation chunk_id =>
      b_ "cold chunk generation " ++ to_string generation ++ b_ ", chunk " ++ to_string chunk_id ++ b_ " is not configured"
  | MjCache e => b_ "cache maintenance failed: " ++ show_cache e
  | MjStore e => b_ "cold-store maintenance failed: " ++ show_store e
  end.
Definition maintenance_handle (job : JobRecord) (x : MState) : HandlerResult * MState :=
  handled maintenance_error_text (maintenance_execute job x).
Definition is_legacy_maintenance_job (job : JobRecord) : bool :=
  bool_decide (jb_kind job = Service.CACHE_RECONCILE_JOB_KIND) || bool_decide (jb_kind job = Service.CACHE_EVICT_JOB_KIND) ||
  bool_decide (jb_kind job = Service.VERIFY_COLD_CHUNK_JOB_KIND).
Definition maintenance_execute_next (dir : bytes) (claim final : list Z) : ST (Disk * MState) JobError JobExecutionOutcome :=
  execute_next_matching dir claim final is_legacy_maintenance_job maintenance_handle.
End Maintenance.

(** [execute_next_with_events]: the sink is told, and what it does is ignored. *)
Definition with_events {S X} (record : Service.OperationEvent → S → S)
    (event : result JobError JobExecutionOutcome → Service.OperationEvent)
    (act : ST X JobError JobExecutionOutcome) : ST (X * S) JobError JobExecutionOutcome := λ x,
  let '(r, y) := act x.1 in (r, (y, record (event r) x.2)).

Section Enqueue.
Context (dir : bytes) (nonces : list Z) (ids : list (result IoErrorKind JobId)).
Definition enqueue_cache_reconcile : ST Disk JobError JobRecord := enqueue dir nonces ids Service.CACHE_RECONCILE_JOB_KIND [].
Definition enqueue_cache_eviction (target : Z) : ST Disk JobError JobRecord :=
  enqueue dir nonces ids Service.CACHE_EVICT_JOB_KIND (be_encode 8 target).
Definition enqueue_cold_chunk_verification (generation chunk_id : Z) : ST Disk JobError JobRecord :=
  enqueue dir nonces ids Service.VERIFY_COLD_CHUNK_JOB_KIND (encode_cold_chunk_payload generation chunk_id).
End Enqueue.

(** ** Trusted imports and checkouts *)

Definition TRUSTED_IMPORT_JOB_KIND : bytes := b_ "trusted-import-v1".
Definition TRUSTED_CHECKOUT_JOB_KIND : bytes := b_ "trusted-checkout-v1".
Definition MAX_IMPORT_CHECKOUT_STARTUP_TARGETS : Z := 4096.
Record TrustedOperationId := mkTrustedOperation { to_job_id : JobId }.

(** The workspace roots are directories of the shelf of workspaces. *)
Record ImportCheckoutConfig := mkICConfig {
  ic_cache_root : bytes; ic_workspace_manifests_root : bytes;
  ic_workspace_root : option bytes; ic_workspace_trash_root : option bytes;
  ic_snapshot_manifests : list Path; ic_workspace_ids : list WorkspaceId }.
Inductive ImportCheckoutConfigurationError := DuplicateStartupTarget | TooManyStartupTargets (maximum : Z).
Definition ic_config_new (cache_root manifests_root : bytes) : ImportCheckoutConfig :=
  mkICConfig cache_root manifests_root None None [] [].
Definition set_workspace_publication_roots (c : ImportCheckoutConfig) (workspaces trash : bytes) : ImportCheckoutConfig :=
  mkICConfig (ic_cache_root c) (ic_workspace_manifests_root c) (Some workspaces) (Some trash)
    (ic_snapshot_manifests c) (ic_workspace_ids c).
Definition reserve_startup_target (c : ImportCheckoutConfig) : result ImportCheckoutConfigurationError unit :=
  ensure (bool_decide (Z.min (Z.of_nat (length (ic_snapshot_manifests c)) + Z.of_nat (length (ic_workspace_ids c))) u64_max
                       < MAX_IMPORT_CHECKOUT_STARTUP_TARGETS))
         (TooManyStartupTargets MAX_IMPORT_CHECKOUT_STARTUP_TARGETS).
Definition add_snapshot_manifest (c : ImportCheckoutConfig) (path : Path)
    : result ImportCheckoutConfigurationError ImportCheckoutConfig :=
  _ ← ensure (negb (bool_decide (path ∈ ic_snapshot_manifests c))) DuplicateStartupTarget;
  _ ← reserve_startup_target c;
  Ok (mkICConfig (ic_cache_root c) (ic_workspace_manifests_root c) (ic_workspace_root c) (ic_workspace_trash_root c)
        (ic_snapshot_manifests c ++ [path]) (ic_workspace_ids c)).
Definition add_workspace (c : ImportCheckoutConfig) (id : WorkspaceId)
    : result ImportCheckoutConfigurationError ImportCheckoutConfig :=
  _ ← ensure (negb (bool_decide (id ∈ ic_workspace_ids c))) DuplicateStartupTarget;
  _ ← reserve_startup_target c;
  Ok (mkICConfig (ic_cache_root c) (ic_workspace_manifests_root c) (ic_workspace_root c) (ic_workspace_trash_root c)
        (ic_snapshot_manifests c) (ic_workspace_ids c ++ [id])).

Record ImportCheckoutStartup := mkICStartup {
  is_snapshots_published : Z; is_snapshots_already_ready : Z; is_ready_workspaces : Z; is_absent_workspaces : Z;
  is_incomplete_workspaces_recovered : Z; is_incomplete_visible_workspaces_withdrawn : Z }.
Definition ic_startup_default : ImportCheckoutStartup := mkICStartup 0 0 0 0 0 0.
Inductive ImportCheckoutStartupError :=
| SuSnapshot (e : SnapshotPublicationError)
| SuWorkspace (e : Workspace.WorkspaceManifestError)
| SuWorkspaceReconciliation (e : WorkspaceStore.WorkspaceReconciliationError).

Section Startup.
Context `{Catalog C} `{WorkspaceStore.WorkspaceTree T}.
Abbreviation Site := (Sys C * Checkout.Shelf T)%type.

Fixpoint reconcile_snapshots (paths : list Path) (s : ImportCheckoutStartup)
    : ST Site ImportCheckoutStartupError ImportCheckoutStartup :=
  match paths with
  | [] => st_ret s
  | path :: paths =>
      status ⇐ WorkspaceStore.on_sys SuSnapshot (reconcile_snapshot_publication path);
      reconcile_snapshots paths
        match status with
        | Published => mkICStartup (is_snapshots_published s + 1) (is_snapshots_already_ready s) (is_ready_workspaces s)
                         (is_absent_workspaces s) (is_incomplete_workspaces_recovered s) (is_incomplete_visible_workspaces_withdrawn s)
        | AlreadyReady => mkICStartup (is_snapshots_published s) (is_snapshots_already_ready s + 1) (is_ready_workspaces s)
                         (is_absent_workspaces s) (is_incomplete_workspaces_recovered s) (is_incomplete_visible_workspaces_withdrawn s)
        end
  end.
Fixpoint load_workspaces (root : bytes) (ids : list WorkspaceId) (s : ImportCheckoutStartup)
    : ST Site ImportCheckoutStartupError ImportCheckoutStartup :=
  match ids with
  | [] => st_ret s
  | id :: ids =>
      loaded ⇐ WorkspaceStore.on_sys SuWorkspace (WorkspaceStore.load_ready_workspace root id);
      load_workspaces root ids
        match loaded with
        | Some _ => mkICStartup (is_snapshots_published s) (is_snapshots_already_ready s) (is_ready_workspaces s + 1)
                      (is_absent_workspaces s) (is_incomplete_workspaces_recovered s) (is_incomplete_visible_workspaces_withdrawn s)
        | None => mkICStartup (is_snapshots_published s) (is_snapshots_already_ready s) (is_ready_workspaces s)
                      (is_absent_workspaces s + 1) (is_incomplete_workspaces_recovered s) (is_incomplete_visible_workspaces_withdrawn s)
        end
  end.
Definition reconcile_import_checkout_startup (c : ImportCheckoutConfig) (candidates : WorkspaceId → list bytes)
    : ST Site ImportCheckoutStartupError ImportCheckoutStartup :=
  s ⇐ reconcile_snapshots (ic_snapshot_manifests c) ic_startup_default;
  match ic_workspace_root c, ic_workspace_trash_root c with
  | Some _, Some _ =>
      r ⇐ st_map_err SuWorkspaceReconciliation
            (WorkspaceStore.reconcile_workspace_publications (ic_workspace_manifests_root c) candidates);
      st_ret (mkICStartup (is_snapshots_published s) (is_snapshots_already_ready s) (WorkspaceStore.ready_workspaces r)
                (is_absent_workspaces s) (is_incomplete_workspaces_recovered s)
                (WorkspaceStore.incomplete_workspaces_withdrawn r))
  | None, None => load_workspaces (ic_workspace_manifests_root c) (ic_workspace_ids c) s
  | _, _ => st_lift (Err (SuWorkspaceReconciliation
              (WorkspaceStore.UnsafeWorkspacePath (Some (ic_workspace_manifests_root c)))))
  end.
End Startup.

(** The implementation that is given to the daemon; [Op] is its state. *)
Class TrustedImportCheckoutOperations (Op E : Type) := {
  reconcile_incomplete_workspaces : ST Op E Z;
  trusted_import : TrustedOperationId → ST Op E unit;
  checkout_cache_bytes : TrustedOperationId → ST Op E Z;
  materialize_checkout : TrustedOperationId → Cache → Op → result E unit * Cache * Op }.
Inductive ImportCheckoutOperationOutcome := Imported | CheckedOut (admission : CapacityAdmission).
Inductive ImportCheckoutJobError (E : Type) :=
| IjInvalidJobState (s : JobState)
| ClientPayloadRejected
| UnsupportedJobKind
| IjCapacity (e : CapacityAdmissionError)
| IjOperation (e : E).
Arguments IjInvalidJobState {E}.
Arguments ClientPayloadRejected {E}.
Arguments UnsupportedJobKind {E}.
Arguments IjCapacity {E}.
Arguments IjOperation {E}.
Inductive ImportCheckoutOrchestratorError (E : Type) :=
| OrCache (e : CacheError)
| OrStartup (e : ImportCheckoutStartupError)
| OrOperations (e : E).
Arguments OrCache {E}.
Arguments OrStartup {E}.
Arguments OrOperations {E}.

Section Orchestrator.
Context `{TrustedImportCheckoutOperations Op E}.
Context (meter : CapacityMeter) (policy : ReservePolicy).
Context (show_capacity : CapacityAdmissionError → bytes) (show_operation : E → bytes).

(** The implementation's state and the cache. *)
Abbreviation OState := (Op * Cache)%type.
Definition trusted_execute (job : JobRecord) : ST OState (ImportCheckoutJobError E) ImportCheckoutOperationOutcome := λ x,
  if decide (jb_state job ≠ Running) then (Err (IjInvalidJobState (jb_state job)), x)
  else if decide (jb_payload job ≠ []) then (Err ClientPayloadRejected, x)
  else
    let operation := mkTrustedOperation (jb_id job) in
    if decide (jb_kind job = TRUSTED_IMPORT_JOB_KIND) then
      let '(r, o) := trusted_import operation x.1 in (_ ← map_err IjOperation r; Ok Imported, (o, x.2))
    else if decide (jb_kind job = TRUSTED_CHECKOUT_JOB_KIND) then
      match checkout_cache_bytes operation x.1 with
      | (Err e, o) => (Err (IjOperation e), (o, x.2))
      | (Ok projected, o) =>
          match with_admission meter policy x.2 projected
                  (λ c, let '(r, c, o) := materialize_checkout operation c o in (Ok (r, o), c)) with
          | (Err e, c) => (Err (IjCapacity e), (o, c))
          | (Ok (admission, (r, o)), c) => (_ ← map_err IjOperation r; Ok (CheckedOut admission), (o, c))
          end
      end
    else (Err UnsupportedJobKind, x).
Definition trusted_error_text (e : ImportCheckoutJobError E) : bytes :=
  match e with
  | IjInvalidJobState s => b_ "trusted import/checkout job must be running before execution, found " ++ job_state_debug s
  | ClientPayloadRejected => b_ "trusted import/checkout job payload is rejected"
  | UnsupportedJobKind => b_ "unsupported trusted import/checkout job kind"
  | IjCapacity e => b_ "checkout cache admission failed: " ++ show_capacity e
  | IjOperation e => b_ "trusted operation failed: " ++ show_operation e
  end.
Definition trusted_handle (job : JobRecord) (x : OState) : HandlerResult * OState :=
  handled trusted_error_text (trusted_execute job x).
Definition is_trusted_import_checkout_job (job : JobRecord) : bool :=
  bool_decide (jb_kind job = TRUSTED_IMPORT_JOB_KIND) || bool_decide (jb_kind job = TRUSTED_CHECKOUT_JOB_KIND).
Definition trusted_execute_next (dir : bytes) (claim final : list Z) : ST (Disk * OState) JobError JobExecutionOutcome :=
  execute_next_matching dir claim final is_trusted_import_checkout_job trusted_handle.
End Orchestrator.

(** [opened]: what [Cache::open] gives for the configured root. *)
Definition orchestrator_open `{Catalog C} `{WorkspaceStore.WorkspaceTree T} `{TrustedImportCheckoutOperations Op E}
    (config : ImportCheckoutConfig) (candidates : WorkspaceId → list bytes) (opened : CResult Cache)
    : ST (Sys C * Checkout.Shelf T * Op) (ImportCheckoutOrchestratorError E) (Cache * ImportCheckoutStartup) := λ x,
  match reconcile_import_checkout_startup config candidates x.1 with
  | (Err e, site) => (Err (OrStartup e), (site, x.2))
  | (Ok s, site) =>
      match reconcile_incomplete_workspaces x.2 with
      | (Err e, o) => (Err (OrOperations e), (site, o))
      | (Ok recovered, o) =>
          (cache ← map_err OrCache opened;
           Ok (cache, mkICStartup (is_snapshots_published s) (is_snapshots_already_ready s) (is_ready_workspaces s)
                        (is_absent_workspaces s) recovered (is_incomplete_visible_workspaces_withdrawn s)), (site, o))
      end
  end.
Definition enqueue_trusted_import (dir : bytes) (nonces : list Z) (ids : list (result IoErrorKind JobId)) :=
  enqueue dir nonces ids TRUSTED_IMPORT_JOB_KIND [].
Definition enqueue_trusted_checkout (dir : bytes) (nonces : list Z) (ids : list (result IoErrorKind JobId)) :=
  enqueue dir nonces ids TRUSTED_CHECKOUT_JOB_KIND [].

(** ** Operational maintenance *)

Record OperationalMaintenanceConfig := mkOMConfig {
  om_cache_root : bytes; om_generation_state_root : bytes; om_generations_root : bytes; om_trash_root : bytes }.
Definition generation_path (c : OperationalMaintenanceConfig) (generation : Z) : bytes :=
  child (om_generations_root c) (b_ "generation-" ++ to_string generation).
Record OperationalMaintenanceStartup := mkOMStartup { ou_cache : CacheReconciliation; ou_active_generation : option Z }.
Inductive GenerationRetirement :=
| Retired (path : bytes)
| DeferredByPin (generation : Z)
| DeferredByActiveReaders (generation : Z).
Record OperationalGcOutcome := mkGcOutcome {
  go_marked_objects : Z; go_compaction : CompactionOutcome; go_retirement : GenerationRetirement }.
Inductive OperationalMaintenanceError :=
| OmCache (e : CacheError)
| OmCapacity (e : CapacityAdmissionError)
| OmMaintenance (e : MaintenanceError)
| OmMark (e : MarkError)
| AllocationTooLarge (bytes : Z)
| GenerationExhausted (generation : Z).

Section Coordinator.
Context `{Digests} `{Zstd} `{Catalog C}.
Context (config : OperationalMaintenanceConfig) (meter : CapacityMeter) (policy : ReservePolicy).
Definition generations : GenerationManager := mkGenerationManager (om_generation_state_root config).

(** [opened]: what [Cache::open] gives for the configured root. The catalog and
    the disk are the state. *)
Definition coordinator_open (opened : CResult Cache) (nonce : bytes)
    : ST (Sys C) OperationalMaintenanceError (Cache * OperationalMaintenanceStartup) :=
  cache ⇐ st_lift (map_err OmCache opened);
  let '(reconciliation, cache) := reconcile cache in
  _ ⇐ st_map_err OmMaintenance (on_manager (manager_open generations));
  active ⇐ st_map_err OmMaintenance (reconcile_active_generation generations nonce);
  st_ret (cache, mkOMStartup reconciliation active).

Definition with_cache_admission {T} (projected : Z) (allocate : Cache → CResult T * Cache)
    : ST Cache OperationalMaintenanceError (CapacityAdmission * T) := λ c,
  let '(r, c) := with_admission meter policy c projected allocate in (map_err OmCapacity r, c).
Definition relieve_cache_pressure (projected : Z) : ST Cache OperationalMaintenanceError CapacityAdmission :=
  r ⇐ with_cache_admission projected (λ c, (Ok (), c));
  st_ret r.1.
Definition publish_cache_blob (id : ContentId) (b : bytes)
    : ST Cache OperationalMaintenanceError (CapacityAdmission * (bytes * bytes * bytes)) :=
  projected ⇐ st_lift (ok_or (u64_try_from (Format.len b)) (AllocationTooLarge (Format.len b)));
  with_cache_admission projected (λ c, publish_blob c id b).

Definition retire_published_generation (nonce nonce' : bytes) (source target : Z)
    : ST (Sys C) OperationalMaintenanceError GenerationRetirement := λ s,
  match retire_compacted_generation generations nonce nonce' source target (generation_path config source)
          (om_trash_root config) s with
  | (Ok path, s) => (Ok (Retired path), s)
  | (Err (PinnedGeneration g), s) => (Ok (DeferredByPin g), s)
  | (Err (ActiveReaders g), s) => (Ok (DeferredByActiveReaders g), s)
  | (Err e, s) => (Err (OmMaintenance e), s)
  end.
Definition retry_generation_retirement (nonce nonce' : bytes) (source target : Z) :=
  retire_published_generation nonce nonce' source target.

Context `{SnapshotManifestSource M} `{CompactionReader R} `{CompactionWriter W}.
Abbreviation World := (World (C := C) (R := R) (W := W)).

(** The names drawn for the files that are replaced. *)
Record GcNonces := mkGcNonces { gn_publish : bytes; gn_reconcile : bytes; gn_retire : bytes }.
(** The mark phase always ends; the last branch is never taken. *)
Definition mark_live (manifests : M) (retained : list RetainedObjectRef) (limits : MarkLimits)
    : ST World OperationalMaintenanceError (list (ContentId * ObjectLocation)) := λ x,
  match completed_mark_set (sys_catalog (wd_sys x)) manifests retained limits (wd_reader x) with
  | Some (r, rd) => (map_err OmMark r, mkWorld (wd_sys x) rd (wd_writer x))
  | None => (Err (OmMark NoCurrentGeneration), x)
  end.
Definition run_gc_once (n : GcNonces) (manifests : M) (retained : list RetainedObjectRef) (limits : MarkLimits)
    : ST World OperationalMaintenanceError OperationalGcOutcome :=
  current ⇐ st_get (λ x, current_generation (sys_catalog (wd_sys x)));
  source ⇐ st_lift (ok_or current (OmMark NoCurrentGeneration));
  target ⇐ st_lift (ok_or (if decide (source + 1 ≤ u32_max) then Some (source + 1) else None) (GenerationExhausted source));
  marked ⇐ mark_live manifests retained limits;
  compaction ⇐ st_map_err OmMaintenance (compact_completed_mark_set generations (gn_publish n) source target marked);
  retirement ⇐ (λ x, let '(r, s) := retire_published_generation (gn_reconcile n) (gn_retire n) source target (wd_sys x) in
                     (r, mkWorld s (wd_reader x) (wd_writer x)));
  st_ret (mkGcOutcome (Z.of_nat (length marked)) compaction retirement).
End Coordinator.

(** ** Its jobs *)

Inductive OperationalMaintenanceJobError :=
| OjInvalidJobState (s : JobState)
| OjInvalidPayload (reason : string)
| OjUnsupportedKind (kind : bytes)
| RetainedObjects (error : bytes)
| OjOperational (e : OperationalMaintenanceError).
Definition is_operational_gc_job (job : JobRecord) : bool := bool_decide (jb_kind job = Service.OPERATIONAL_GC_JOB_KIND).
Definition is_cache_pressure_job (job : JobRecord) : bool := bool_decide (jb_kind job = Service.CACHE_PRESSURE_JOB_KIND).
Definition CACHE_PRESSURE_PAYLOAD_LEN : nat := 8.
Definition decode_cache_pressure_payload (payload : bytes) : result OperationalMaintenanceJobError Z :=
  ok_or (be_payload CACHE_PRESSURE_PAYLOAD_LEN payload) (OjInvalidPayload "cache-pressure payload must be exactly 8 bytes").

Section OperationalJobs.
Context `{Digests} `{Zstd} `{Catalog C} `{SnapshotManifestSource M} `{CompactionReader R} `{CompactionWriter W}.
Context (config : OperationalMaintenanceConfig) (meter : CapacityMeter) (policy : ReservePolicy).
Context (show_cache : CacheError → bytes) (show_capacity : CapacityAdmissionError → bytes)
  (show_maintenance : MaintenanceError → bytes) (show_mark : MarkError → bytes).
Abbreviation World := (World (C := C) (R := R) (W := W)).

Definition operational_error_text (e : OperationalMaintenanceError) : bytes :=
  match e with
  | OmCache e => b_ "operational cache failure: " ++ show_cache e
  | OmCapacity e => b_ "cache admission refused: " ++ show_capacity e
  | OmMaintenance e => b_ "maintenance failure: " ++ show_maintenance e
  | OmMark e => b_ "GC mark failure: " ++ show_mark e
  | AllocationTooLarge n =>
      b_ "cache allocation of " ++ to_string n ++ b_ " bytes cannot be represented in the capacity policy"
  | GenerationExhausted g =>
      b_ "cannot compact generation " ++ to_string g ++ b_ ": no higher generation number remains"
  end.
Definition operational_job_error_text (e : OperationalMaintenanceJobError) : bytes :=
  match e with
  | OjInvalidJobState s => b_ "operational maintenance job must be running before execution, found " ++ job_state_debug s
  | OjInvalidPayload reason => b_ "invalid operational maintenance job payload: " ++ b_ reason
  | OjUnsupportedKind kind => b_ "unsupported operational maintenance job kind: " ++ to_string (blen kind) ++ b_ " bytes"
  | RetainedObjects error => b_ "trusted retained-object source failed: " ++ error
  | OjOperational e => b_ "operational maintenance failed: " ++ operational_error_text e
  end.

Definition pressure_execute (job : JobRecord) : ST Cache OperationalMaintenanceJobError CapacityAdmission :=
  _ ⇐ st_lift (ensure (bool_decide (jb_state job = Running)) (OjInvalidJobState (jb_state job)));
  _ ⇐ st_lift (ensure (bool_decide (jb_kind job = Service.CACHE_PRESSURE_JOB_KIND)) (OjUnsupportedKind (jb_kind job)));
  projected ⇐ st_lift (decode_cache_pressure_payload (jb_payload job));
  st_map_err OjOperational (relieve_cache_pressure meter policy projected).
Definition pressure_handle (job : JobRecord) (c : Cache) : HandlerResult * Cache :=
  handled operational_job_error_text (pressure_execute job c).
Definition pressure_execute_next (dir : bytes) (claim final : list Z) : ST (Disk * Cache) JobError JobExecutionOutcome :=
  execute_next_matching dir claim final is_cache_pressure_job pressure_handle.

(** [retained]: what the trusted source of retained objects answers. *)
Context (n : GcNonces) (manifests : M) (retained : result bytes (list RetainedObjectRef)) (limits : MarkLimits).
Definition gc_execute (job : JobRecord) : ST World OperationalMaintenanceJobError OperationalGcOutcome :=
  _ ⇐ st_lift (ensure (bool_decide (jb_state job = Running)) (OjInvalidJobState (jb_state job)));
  _ ⇐ st_lift (ensure (bool_decide (jb_kind job = Service.OPERATIONAL_GC_JOB_KIND)) (OjUnsupportedKind (jb_kind job)));
  _ ⇐ st_lift (ensure (bool_decide (jb_payload job = [])) (OjInvalidPayload "operational GC payload must be empty"));
  retained ⇐ st_lift (map_err RetainedObjects retained);
  st_map_err OjOperational (run_gc_once config n manifests retained limits).
Definition gc_handle (job : JobRecord) (x : World) : HandlerResult * World :=
  handled operational_job_error_text (gc_execute job x).
Definition gc_execute_next (dir : bytes) (claim final : list Z) : ST (Disk * World) JobError JobExecutionOutcome :=
  execute_next_matching dir claim final is_operational_gc_job gc_handle.
End OperationalJobs.
End Workers.

(** * Work under reserve admission

    The imports of [reflink-forest-import/src/lib.rs] and the compaction of
    [reflink-forest-maintenance/src/lib.rs] that first ask the capacity
    coordinator of the cache. *)

Import Core Format Codec CatalogCodec Catalog Chunk Disk Store Git Reader Snapshot Import_ Mark Generation Cache CacheSpec.

Module Reserve.

Section Reserve.
Context `{Digests} `{Zstd} `{Catalog C} (meter : CapacityMeter) (policy : ReservePolicy).

(** An import whose walk has not ended is the error [None]. *)
Definition import_local_refs_with_codec_and_reserve_admission `{GitBackend B} (cache : Cache) (projected : Z)
    (backend : B) (repo : RepoId) (generation chunk_id : Z) (codec : Format.Codec) (s : ChunkWriter * Sys C)
    : result (CapacityAdmissionOperationError (option ImportError)) (CapacityAdmission * ImportResult) * Cache *
      (ChunkWriter * Sys C) :=
  with_reserve_admission meter policy cache projected
    (λ s, match import_local_refs_with_codec backend repo generation chunk_id codec s with
          | Some (r, s) => (map_err Some r, s)
          | None => (Err None, s)
          end) s.
Definition import_local_refs_with_reserve_admission `{GitBackend B} (cache : Cache) (projected : Z)
    (backend : B) (repo : RepoId) (generation chunk_id : Z) (s : ChunkWriter * Sys C) :=
  import_local_refs_with_codec_and_reserve_admission cache projected backend repo generation chunk_id
    DEFAULT_IMPORT_CODEC s.

Definition compact_completed_mark_set_with_reserve_admission `{CompactionReader R} `{CompactionWriter W}
    (cache : Cache) (projected : Z) (m : GenerationManager) (nonce : bytes) (source target : Z)
    (live : list (ContentId * ObjectLocation)) (x : World)
    : result (CapacityAdmissionOperationError MaintenanceError) (CapacityAdmission * CompactionOutcome) * Cache * World :=
  with_reserve_admission meter policy cache projected
    (compact_completed_mark_set (C := C) (R := R) (W := W) m nonce source target live) x.

(** An import under admission that succeeds is an import, and one that is
    refused leaves the writer, the disk and the catalog untouched. *)
Theorem reserved_import `{GitBackend B} cache projected (backend : B) repo generation chunk_id codec s r cache' s' :
  import_local_refs_with_codec_and_reserve_admission cache projected backend repo generation chunk_id codec s = (r, cache', s') →
  match r with
  | Err (Admission _) => s' = s
  | Err (Operation None) => s' = s
  | Err (Operation (Some e)) => import_local_refs_with_codec backend repo generation chunk_id codec s = Some (Err e, s')
  | Ok (a, t) => import_local_refs_with_codec backend repo generation chunk_id codec s = Some (Ok t, s') ∧
      meter cache' = Ok (ad_admitted a) ∧ keeps_reserves policy (ad_admitted a) projected
  end.
Proof.
  unfold import_local_refs_with_codec_and_reserve_admission. intros Hw.
  apply with_reserve_inv in Hw as [_ Hw]. destruct r as [[a t]|[e|[e|]]]; [|done|..].
  - destruct Hw as [Ho Hm]. destruct (import_local_refs_with_codec _ _ _ _ _ _) as [[[t'|e] s1]|]; cbn in Ho; try done.
    by injection Ho as -> ->.
  - destruct Hw as [Ho _]. destruct (import_local_refs_with_codec _ _ _ _ _ _) as [[[t'|e'] s1]|]; cbn in Ho; try done.
    by injection Ho as -> ->.
  - destruct Hw as [Ho _]. destruct (import_local_refs_with_codec _ _ _ _ _ _) as [[[t'|e'] s1]|]; cbn in Ho; try done.
    by injection Ho as ->.
Qed.
End Reserve.
End Reserve.
