(* ===== verification/WorkersSpec.v ===== *)
(** * What the workers of the job queue guarantee

    A worker touches only the jobs it accepts and records how they end; what a
    collection job does to the catalog and the generations; which jobs a
    client's request can start. *)

From Stdlib Require Import ZArith Lia Strings.Byte Strings.String.
From stdpp Require Import base tactics list gmap strings relations.
From S2P Require Import Prelude Order Core Format Codec CatalogCodec CatalogCodecSpec Catalog CatalogSpec RocksSpec CatalogInterface Chunk Disk DiskSpec Store Git Reader Snapshot SnapshotSpec PublicationSpec Mark Generation CompactionSpec LeaseSpec Cache CacheSpec Checkout Workspace WorkspaceStore WorkspaceStoreSpec WorkspaceReconcileSpec Jobs JobsSpec JobsQueueSpec JobsOpsSpec JobsLiveSpec Service Workers.
Import Core Format Codec CatalogCodec CatalogCodecSpec Catalog CatalogSpec CatalogInterface Chunk Disk DiskSpec Store Git Reader Snapshot Mark MarkSpec Generation CompactionSpec LeaseSpec Cache Jobs JobsSpec JobsQueueSpec JobsListSpec JobsOpsSpec JobsLiveSpec Workers.

#[local] Open Scope Z_scope.

Module WorkersSpec.

(** ** One turn of a worker *)

(** The record of the same job. *)
Definition same_job (r r' : JobRecord) : Prop :=
  jb_id r' = jb_id r ∧ jb_kind r' = jb_kind r ∧ jb_payload r' = jb_payload r.
Section Turn.
Context (dir : bytes).

Lemma claim_accepts d nonces matches c d' : claim_next_matching dir nonces matches d = (Ok (Some c), d') →
  ∃ r0, matches r0 = true ∧ same_job r0 c ∧ jb_state c = Running.
Proof.
  unfold claim_next_matching. intros Hc. apply bind_Ok_split in Hc as (l & d1 & _ & Hc).
  destruct (List.find _ l) as [r0|] eqn:Hf; [|done]. apply find_some in Hf as [_ [_ Hm]%andb_true_iff].
  apply bind_Ok_split in Hc as ([] & d2 & _ & Hc). apply bind_Ok_split in Hc as (r & d3 & Hb & Hc).
  apply bind_Ok_split in Hc as ([] & d4 & _ & Hc). injection Hc as -> _. exists r0. split; [done|].
  unfold st_lift, begin_attempt in Hb. case_decide; [|done]. cbn in Hb. by injection Hb as <- _.
Qed.
Lemma update_changes d nonces id change r d' : update dir nonces id change d = (Ok r, d') →
  ∃ r0, view dir d (d_names d) id = Some r0 ∧ change r0 = Ok r.
Proof.
  unfold update. intros Hu. apply bind_Ok_split in Hu as (r0 & d1 & Hr & Hu). exists r0.
  apply read_job_inv in Hr as [_ Hr]. split; [by apply Hr|].
  apply bind_Ok_split in Hu as (r1 & d2 & Hch & Hu). apply bind_Ok_split in Hu as ([] & d3 & _ & Hu).
  injection Hu as -> _. unfold st_lift in Hch. congruence.
Qed.

(** The update that records how a job ended. *)
Definition records (c : JobRecord) (res : HandlerResult) (act : ST Disk JobError JobRecord) : Prop :=
  ∀ d r d', queue_ok dir d → durable dir d c → act d = (r, d') →
    evolves dir d d' ∧ ∀ job, r = Ok job → job = outcome c res ∧ durable dir d' job.
Lemma update_records c res nonces change : legal change → (∀ r, change c = Ok r → r = outcome c res) →
  records c res (update dir nonces (jb_id c) change).
Proof.
  intros Hl Hch d r d' Hq Hdur Hu. destruct (update_evolves dir _ _ _ _ _ _ Hl Hq Hu) as [Hev Hok]. split; [done|].
  intros job ->. split; [|by apply Hok]. apply update_changes in Hu as (r0 & Hv & Hr).
  rewrite (Hdur (d_names d)) in Hv by (by left). injection Hv as <-. by apply Hch.
Qed.
Lemma succeed_records c nonces : records c Handled (succeed dir nonces (jb_id c)).
Proof.
  apply update_records; [apply succeed_legal|]. intros r Hr. apply bind_Ok_inv in Hr as (u & _ & Hr). by injection Hr as <-.
Qed.
Lemma fail_records c res nonces e : outcome c res = set_state c Failed (jb_attempts c) (Some e) →
  records c res (fail dir nonces (jb_id c) e).
Proof.
  intros Ho d r d' Hq Hdur. unfold fail, st_bind, st_lift. destruct (ensure _ _) as [u|err].
  - apply update_records; [apply fail_legal| |done|done]. intros r1 Hr.
    apply bind_Ok_inv in Hr as (v & _ & Hr). injection Hr as <-. by rewrite Ho.
  - intros [= <- <-]. split; [|done]. apply quiet_evolves. by apply queue_quiet_refl.
Qed.

(** Whatever fails, a turn advances jobs along the state machine; it calls the
    handler at most once, with a running job that it accepts, and reports the
    recorded outcome. *)
Lemma turn_spec {H} (handle : JobRecord → H → HandlerResult * H) claim final matches d h r d' h' :
  queue_ok dir d → execute_next_matching dir claim final matches handle (d, h) = (r, (d', h')) →
  evolves dir d d' ∧
  (h' = h ∧ (∀ out, r = Ok out → out = Idle) ∨
   ∃ r0 c res, matches r0 = true ∧ same_job r0 c ∧ jb_state c = Running ∧ handle c h = (res, h') ∧
     ∀ out, r = Ok out → out = reported c res ∧ durable dir d' (outcome c res)).
Proof.
  intros Hq He. unfold execute_next_matching in He. cbn [fst snd] in He.
  destruct (claim_next_matching dir claim matches d) as [rc d1] eqn:Hc.
  pose proof (claim_evolves dir _ _ _ _ _ Hq Hc) as [Hev Hdur].
  destruct rc as [[c|]|e]; [|injection He as <- <- <-; split; [done|]; left; split; congruence..].
  apply claim_accepts in Hc as (r0 & Hm & Hsame & Hrun). specialize (Hdur c eq_refl).
  destruct (handle c h) as [res h1] eqn:Hh.
  assert (∀ act mk r2 d2, records c res act → mk (outcome c res) = reported c res →
    st_bind act (λ job, st_ret (mk job)) d1 = (r2, d2) → evolves dir d d2 ∧
      ∀ out, r2 = Ok out → out = reported c res ∧ durable dir d2 (outcome c res)) as Hfin.
  { intros act mk r2 d2 Ha Hmk Hb. unfold st_bind in Hb. destruct (act d1) as [r3 d3] eqn:H3.
    apply Ha in H3 as [He3 Ho]; [|apply Hev|done].
    destruct r3 as [job|e]; injection Hb as <- <-; (split; [by eapply evolves_trans|]); [|done].
    intros out [= <-]. destruct (Ho job eq_refl) as [-> Hd]. by rewrite Hmk. }
  destruct (match res with Handled => _ | HandlerFailed _ => _ | HandlerPanicked => _ end) as [r2 d2] eqn:Hres.
  injection He as <- <- <-.
  assert (evolves dir d d2 ∧ ∀ out, r2 = Ok out → out = reported c res ∧ durable dir d2 (outcome c res)) as [Hev2 Hout].
  { destruct res as [|message|]; (eapply Hfin; [| |exact Hres]); try reflexivity;
      [apply succeed_records|by apply fail_records..]. }
  split; [done|]. right. by exists r0, c, res.
Qed.
End Turn.

(** ** Routing, payloads and configuration *)

(** No job is accepted by two workers. *)
Lemma workers_disjoint job :
  (Z.b2z (is_legacy_maintenance_job job) + Z.b2z (is_trusted_import_checkout_job job) +
   Z.b2z (is_operational_gc_job job) + Z.b2z (is_cache_pressure_job job) ≤ 1).
Proof.
  unfold is_legacy_maintenance_job, is_trusted_import_checkout_job, is_operational_gc_job, is_cache_pressure_job.
  generalize (jb_kind job). intros k.
  assert (∀ K (P : bytes → Prop), P K → (k ≠ K → P k) → P k) as Hcase by (intros K P HK Hne; destruct (decide (k = K)); by subst || auto).
  apply (Hcase Service.CACHE_RECONCILE_JOB_KIND); [by vm_compute|]. intros H1.
  apply (Hcase Service.CACHE_EVICT_JOB_KIND); [by vm_compute|]. intros H2.
  apply (Hcase Service.VERIFY_COLD_CHUNK_JOB_KIND); [by vm_compute|]. intros H3.
  apply (Hcase TRUSTED_IMPORT_JOB_KIND); [by vm_compute|]. intros H4.
  apply (Hcase TRUSTED_CHECKOUT_JOB_KIND); [by vm_compute|]. intros H5.
  apply (Hcase Service.OPERATIONAL_GC_JOB_KIND); [by vm_compute|]. intros H6.
  rewrite !bool_decide_eq_false_2 by done. cbn. case_bool_decide; cbn; lia.
Qed.
Lemma be_payload_exact (n : nat) payload z :
  be_payload n payload = Some z ↔ payload = be_encode n z ∧ in_width (8 * Z.of_nat n) z.
Proof.
  unfold be_payload. split.
  - case_decide as Hl; [|done]. intros [= <-]. split; [symmetry; by apply be_encode_decode|]. rewrite <-Hl. apply be_decode_range.
  - intros [-> Hz]. rewrite decide_True by apply length_be_encode. by rewrite be_decode_encode.
Qed.
Lemma cold_chunk_payload_exact payload g k :
  decode_cold_chunk_payload payload = Ok (g, k) ↔ payload = encode_cold_chunk_payload g k ∧ is_u32 g ∧ is_u64 k.
Proof.
  unfold decode_cold_chunk_payload, encode_cold_chunk_payload. split.
  - intros Hd. apply bind_Ok_inv in Hd as ([] & Hl%ensure_Ok_inv%bool_decide_eq_true & [= <- <-]).
    unfold VERIFY_COLD_CHUNK_PAYLOAD_LEN in Hl.
    assert (length (take 4 payload) = 4%nat ∧ length (drop 4 payload) = 8%nat) as [Ht Hdr]
      by (rewrite length_take, length_drop; lia).
    split_and!.
    + rewrite !be_encode_decode by done. by rewrite take_drop.
    + pose proof (be_decode_range (take 4 payload)) as Hr. by rewrite Ht in Hr.
    + pose proof (be_decode_range (drop 4 payload)) as Hr. by rewrite Hdr in Hr.
  - intros (-> & Hg & Hk). rewrite take_app_length', drop_app_length' by (by rewrite length_be_encode).
    rewrite !be_decode_encode by done. unfold ensure. rewrite bool_decide_eq_true_2; [done|].
    by rewrite length_app, !length_be_encode.
Qed.
(** An inventory is accepted exactly when it names each chunk once. *)
Lemma inventory_exact chunks : ∀ m,
  is_ok (cold_chunk_inventory m chunks) = true ↔
    NoDup ((λ c, (ct_generation c, ct_chunk_id c)) <$> chunks) ∧
    Forall (λ c, m !! (ct_generation c, ct_chunk_id c) = None) chunks.
Proof.
  induction chunks as [|c chunks IH]; intros m; cbn [cold_chunk_inventory fmap list_fmap].
  { split; [|done]. intros _. split; constructor. }
  rewrite NoDup_cons, Forall_cons. destruct (m !! _) as [p|] eqn:Hm; [split; [done|]; by intros (_ & ? & _)|].
  rewrite IH, !Forall_forall, list_elem_of_fmap. split.
  - intros [Hnd Hall]. split_and!; [|done|done|].
    + intros (c' & Heq & Hin). specialize (Hall c' Hin). by rewrite <-Heq, lookup_insert_eq in Hall.
    + intros c' Hin. specialize (Hall c' Hin). by apply lookup_insert_None in Hall as [? _].
  - intros ([Hnin Hnd] & _ & Hall). split; [done|]. intros c' Hin. rewrite lookup_insert_ne; [by apply Hall|].
    intros Heq. apply Hnin. by exists c'.
Qed.
(** Startup targets are distinct and bounded. *)
Definition config_ok (c : ImportCheckoutConfig) : Prop :=
  NoDup (ic_snapshot_manifests c) ∧ NoDup (ic_workspace_ids c) ∧
  Z.of_nat (length (ic_snapshot_manifests c)) + Z.of_nat (length (ic_workspace_ids c)) ≤ MAX_IMPORT_CHECKOUT_STARTUP_TARGETS.
Lemma reserve_bound c u : reserve_startup_target c = Ok u →
  Z.of_nat (length (ic_snapshot_manifests c)) + Z.of_nat (length (ic_workspace_ids c)) < MAX_IMPORT_CHECKOUT_STARTUP_TARGETS.
Proof.
  intros Hb%ensure_Ok_inv%bool_decide_eq_true. unfold MAX_IMPORT_CHECKOUT_STARTUP_TARGETS, u64_max in *. lia.
Qed.
Lemma add_snapshot_ok c p c' : config_ok c → add_snapshot_manifest c p = Ok c' → config_ok c'.
Proof.
  intros (Hs & Hw & _) Ha. apply bind_Ok_inv in Ha as ([] & Hnin%ensure_Ok_inv%negb_true_iff%bool_decide_eq_false & Ha).
  apply bind_Ok_inv in Ha as ([] & Hb%reserve_bound & [= <-]). split_and!; cbn; [|done|rewrite length_app; cbn; lia].
  apply NoDup_app. split_and!; [done| |apply NoDup_singleton]. by intros q Hq ->%list_elem_of_singleton.
Qed.
Lemma add_workspace_ok c id c' : config_ok c → add_workspace c id = Ok c' → config_ok c'.
Proof.
  intros (Hs & Hw & _) Ha. apply bind_Ok_inv in Ha as ([] & Hnin%ensure_Ok_inv%negb_true_iff%bool_decide_eq_false & Ha).
  apply bind_Ok_inv in Ha as ([] & Hb%reserve_bound & [= <-]). split_and!; cbn; [done| |rewrite length_app; cbn; lia].
  apply NoDup_app. split_and!; [done| |apply NoDup_singleton]. by intros q Hq ->%list_elem_of_singleton.
Qed.

(** ** Collection *)

Section Collection.
Context `{Digests} `{Zstd} `{CatalogLaws C} `{SnapshotManifestSource M} `{CompactionReader R} `{CompactionWriterLaws W}.
Context (config : OperationalMaintenanceConfig).
Abbreviation World := (World (C := C) (R := R) (W := W)).
Abbreviation m := (generations config).
Abbreviation disk x := (sys_disk (wd_sys x)).
Abbreviation catalog x := (sys_catalog (wd_sys x)).

(** A generation is retained by a pin of the catalog or by a reader's lease. *)
Definition pinned (f : View) (g : Z) : Prop :=
  (∃ w, f (KWorkspacePin w) = Some (VGeneration g)) ∨ (∃ id, f (KGcPin id) = Some (VGeneration g)).
Definition leased (d : Disk) (g : Z) : Prop := ∃ p, p_dir p = generation_leases m g ∧ is_Some (d_names d !! p).

Lemma leased_keeps d d' g : leased d g → (∀ q, safe m q → keeps q d d') → leased d' g.
Proof.
  intros (p & Hp & [k Hk]) Hkeep. exists p. split; [done|]. exists k. apply Hkeep; [|done].
  pose proof (lease_safe m g []) as Hs. unfold safe in *. by rewrite Hp.
Qed.

Lemma reconcile_active_keeps nonce (s : Sys C) r s' : reconcile_active_generation m nonce s = (r, s') →
  sys_catalog s' = sys_catalog s ∧ ∀ q, safe m q → keeps q (sys_disk s) (sys_disk s').
Proof.
  unfold reconcile_active_generation, st_bind, st_get, on_manager, st_ret. destruct (current_generation _) as [g|].
  - intros Hr. split; [destruct (publish_active _ _ _ _) as [[u|e] d1]; by injection Hr as _ <-|].
    intros q Hq. pose proof (keeping_publish m q nonce g Hq (sys_disk s)) as Hk.
    destruct (publish_active _ _ _ _) as [[u|e] d1]; by injection Hr as _ <-.
  - by intros [= _ <-].
Qed.

(** Retirement changes nothing in the catalog; a pinned or leased generation
    stays where it is, however the call ends. *)
Lemma retire_compacted_keeps nonce nonce' source target gp trash (s : Sys C) f r s' :
  holds_view (sys_catalog s) f → retire_compacted_generation m nonce nonce' source target gp trash s = (r, s') →
  sys_catalog s' = sys_catalog s ∧
  (pinned f source ∨ leased (sys_disk s) source → ∀ q, safe m q → keeps q (sys_disk s) (sys_disk s')).
Proof.
  intros Hv. unfold retire_compacted_generation.
  unfold st_bind at 1, st_lift at 1. destruct (ensure _ _) as [u|e]; [|by intros [= _ <-]].
  unfold st_bind at 1, st_get at 1. unfold st_bind at 1, st_lift at 1. destruct (ensure _ _) as [u'|e]; [|by intros [= _ <-]].
  unfold st_bind at 1. destruct (gc_roots (sys_catalog s)) as [roots|e] eqn:Hroots; cbn [map_err]; [|by intros [= _ <-]].
  unfold st_bind at 1, st_lift at 1. destruct (ensure _ _) as [u''|e] eqn:Hpins; [|by intros [= _ <-]].
  apply ensure_Ok_inv, negb_true_iff in Hpins.
  unfold st_bind at 1. destruct (reconcile_active_generation m nonce s) as [r1 s1] eqn:Hst1.
  apply reconcile_active_keeps in Hst1 as [Hc1 Hk1]. destruct r1 as [g|e]; [|intros [= _ <-]; by auto].
  unfold on_manager. destruct (retire_generation _ _ _ _ _ _) as [r2 d2] eqn:Hret. intros [= _ <-]. split; [done|].
  intros [Hp|Hl] q Hq; cbn [sys_disk].
  - exfalso. assert (∀ root, root_in f root → pins source root = false) as Hnone.
    { intros root Hin. apply (view_roots _ _ _ Hv Hroots) in Hin. destruct (pins source root) eqn:E; [|done].
      rewrite <-Hpins. symmetry. apply existsb_exists. exists root. split; [by apply list_elem_of_In|done]. }
    destruct Hp as [[w Hw]|[id Hid]].
    + pose proof (Hnone (GcWorkspacePin w source) Hw) as Hf. cbn in Hf. by case_bool_decide.
    + pose proof (Hnone (GcExplicitPin (mkGcPin id source)) Hid) as Hf. cbn in Hf. by case_bool_decide.
  - destruct (leased_keeps _ _ _ Hl Hk1) as (p & Hp & [k Hk]). pose proof (lease_safe m source []) as Hs.
    destruct (retire_refuses m p k nonce' source gp trash (sys_disk s1) Hp Hk) as [_ Hkeep].
    { unfold safe in *. by rewrite Hp. }
    etrans; [by apply Hk1|]. specialize (Hkeep q Hq). by rewrite Hret in Hkeep.
Qed.
Lemma retire_published_keeps nonce nonce' source target (s : Sys C) f r s' :
  holds_view (sys_catalog s) f → retire_published_generation config nonce nonce' source target s = (r, s') →
  sys_catalog s' = sys_catalog s ∧
  (pinned f source ∨ leased (sys_disk s) source → ∀ q, safe m q → keeps q (sys_disk s) (sys_disk s')).
Proof.
  intros Hv. unfold retire_published_generation. destruct (retire_compacted_generation _ _ _ _ _ _ _ s) as [r1 s1] eqn:Hr.
  apply (retire_compacted_keeps _ _ _ _ _ _ _ f) in Hr; [|done]. destruct r1 as [path|[]]; by intros [= _ <-].
Qed.

(** Compaction touches no file outside the manager's directory. *)
Lemma compact_keeps nonce source target live (x : World) r x' :
  compact_completed_mark_set m nonce source target live x = (r, x') → ∀ q, safe m q → keeps q (disk x) (disk x').
Proof.
  intros Hc q Hq. unfold compact_completed_mark_set in Hc.
  unfold st_bind at 1, st_lift at 1 in Hc. destruct (ensure _ _) as [u|e]; [|by injection Hc as _ <-].
  unfold st_bind at 1, st_get in Hc. unfold st_bind at 1, st_lift at 1 in Hc. destruct (ensure _ _) as [u'|e]; [|by injection Hc as _ <-].
  unfold st_bind at 1, st_lift at 1 in Hc. destruct (check_live source None live) as [u2|e]; [|by injection Hc as _ <-].
  unfold st_bind at 1 in Hc. destruct (copy_live target live x) as [r1 x1] eqn:Hst1. apply copy_live_spec in Hst1 as [Hs1 _].
  rewrite <-Hs1. destruct r1 as [shadows|e]; [|by injection Hc as _ <-].
  unfold st_bind at 1, on_writer in Hc. destruct (cw_sync_data (wd_writer x1)) as [[u3|e] w2]; cbn [map_err] in Hc; [|by injection Hc as _ <-].
  unfold st_bind at 1 in Hc. destruct (verify_shadows shadows _) as [r3 x3] eqn:Hst3. apply verify_shadows_spec in Hst3 as [Hs3 _].
  cbn [wd_sys] in Hs3. rewrite <-Hs3. destruct r3 as [u4|e]; [|by injection Hc as _ <-].
  unfold st_bind at 1, on_sys, publish_generation, st_bind in Hc.
  destruct (apply (catalog x3) _) as [[u5|e] c]; cbn [map_err] in Hc; [|by injection Hc as _ <-].
  unfold on_manager in Hc. cbn [sys_disk sys_catalog] in Hc. pose proof (keeping_publish m q nonce target Hq (disk x3)) as Hk.
  destruct (publish_active _ _ _ _) as [[u6|e] d6]; by injection Hc as _ <-.
Qed.

(** What a collection keeps, from world [x] with records [f] to [x'] with
    [f']: each location is an old one or that of a verified record of the next
    generation; other records are unchanged; and while a pin or a lease holds
    the current generation, no file outside the manager's directory is moved. *)
Record kept (x : World) (f : View) (x' : World) (f' : View) : Prop := {
  kept_view : holds_view (catalog x') f';
  kept_locations id l : f' (KObject id) = Some (VLocation l) → f (KObject id) = Some (VLocation l) ∨
    ∃ g, current_generation (catalog x) = Some g ∧ ol_generation l = g + 1 ∧ held (wd_writer x') id l;
  kept_records k : (∀ id, k ≠ KObject id) → k ≠ KMeta CURRENT_GENERATION_META_KEY → f' k = f k;
  kept_files g : current_generation (catalog x) = Some g → pinned f g ∨ leased (disk x) g →
    ∀ q, safe m q → keeps q (disk x) (disk x') }.
(** The next generation is current and holds all that is reached. *)
Definition moved (manifests : M) content retained (x : World) (f : View) (x' : World) (f' : View) : Prop :=
  ∃ g, current_generation (catalog x) = Some g ∧
    f' (KMeta CURRENT_GENERATION_META_KEY) = Some (VOpaque (be_encode 4 (g + 1))) ∧
    ∀ ref id, reached_ref (catalog x) content (ready_reference f manifests retained) ref →
      oid_alias (catalog x) (ro_repository ref) (ro_oid ref) = Some id →
      ∃ l, f' (KObject id) = Some (VLocation l) ∧ ol_generation l = g + 1 ∧ held (wd_writer x') id l.

Lemma unchanged_kept (x x' : World) f : holds_view (catalog x) f → wd_sys x' = wd_sys x → kept x f x' f.
Proof. intros Hv Hs. split; rewrite ?Hs; [done|auto|done|]. by intros g _ _ q _ k. Qed.

Lemma mark_live_spec manifests retained limits (x : World) r x' :
  mark_live manifests retained limits x = (r, x') →
  wd_sys x' = wd_sys x ∧ wd_writer x' = wd_writer x ∧
  ∀ live, r = Ok live → completed_mark_set (catalog x) manifests retained limits (wd_reader x) = Some (Ok live, wd_reader x').
Proof.
  unfold mark_live. destruct (completed_mark_set _ _ _ _ _) as [[[live|e] rd]|]; cbn; intros Heq; injection Heq as <- <-; cbn;
    (split_and!; [done|done|]); try done. by intros live' [= <-].
Qed.

Context (content : ContentId → option (ObjectKind * bytes)).
(** What the objects and their names in the catalog are assumed to be. *)
Definition collectable (x : World) : Prop :=
  reader_stable (R := R) (catalog x) content ∧ unique_aliases (catalog x) ∧ one_format (catalog x) content ∧
  ∀ id l, object_location (catalog x) id = Some l → ContentId_wf id.

Lemma gc_once_spec n manifests retained limits (x : World) f r x' :
  holds_view (catalog x) f → collectable x → run_gc_once config n manifests retained limits x = (r, x') →
  ∃ f', kept x f x' f' ∧ (is_ok r = true → moved manifests content retained x f x' f').
Proof.
  intros Hv (Hst & Hua & Hof & Hwf). unfold run_gc_once. unfold st_bind at 1, st_get at 1. unfold st_bind at 1, st_lift at 1.
  destruct (current_generation (catalog x)) as [g|] eqn:Hg; cbn [ok_or];
    [|intros [= <- <-]; exists f; split; [by apply unchanged_kept|done]].
  unfold st_bind at 1, st_lift at 1. destruct (decide _) as [Hmax|]; cbn [ok_or];
    [|intros [= <- <-]; exists f; split; [by apply unchanged_kept|done]].
  unfold st_bind at 1. destruct (mark_live _ _ _ x) as [rm x1] eqn:Hmark. apply mark_live_spec in Hmark as (Hs1 & Hw1 & Hlive).
  destruct rm as [live|e]; [|intros [= <- <-]; exists f; split; [by apply unchanged_kept|done]].
  specialize (Hlive live eq_refl). unfold st_bind at 1, st_map_err.
  destruct (compact_completed_mark_set _ _ _ _ _ x1) as [rc x2] eqn:Hc.
  pose proof (compact_keeps _ _ _ _ _ _ _ Hc) as Hk2.
  assert (Forall (λ p, ContentId_wf p.1) live) as Hlwf.
  { destruct (mark_set_spec _ _ _ _ _ _ _ _ _ Hv Hst Hua Hof Hlive) as (_ & Hloc & _). apply Forall_forall.
    intros [id l] [Hl _]%Hloc. by eapply Hwf. }
  rewrite <-Hs1 in Hv, Hst, Hua, Hof, Hlive.
  destruct (collection_keeps_reachable _ _ _ _ _ _ _ _ _ _ _ _ _ _ _ Hv Hst Hua Hof Hlive Hlwf Hc)
    as (f' & Hv' & Hloc & Hrec & Hreach & Hcur). rewrite Hs1 in *.
  assert (∀ x3, wd_writer x3 = wd_writer x2 → catalog x3 = catalog x2 →
    (pinned f g ∨ leased (disk x) g → ∀ q, safe m q → keeps q (disk x2) (disk x3)) → kept x f x3 f') as Hkept.
  { intros x3 Hw3 Hc3 Hf3. split; [by rewrite Hc3| |done|].
    - intros id l [Hl|[Hl Hh]]%Hloc; [by left|right]. exists g. by rewrite Hw3.
    - intros g' Hg' Hp q Hq. assert (g' = g) as -> by congruence. etrans; [by apply Hk2|]. by apply Hf3. }
  destruct rc as [out|e]; cbn [map_err]; [|intros [= <- <-]; exists f'; split; [by apply Hkept|done]].
  specialize (Hcur eq_refl). specialize (Hreach eq_refl).
  unfold st_bind at 1. destruct (retire_published_generation _ _ _ _ _ (wd_sys x2)) as [rr s3] eqn:Hr.
  apply (retire_published_keeps _ _ _ _ _ f') in Hr as [Hc3 Hk3]; [|done].
  assert (kept x f (mkWorld s3 (wd_reader x2) (wd_writer x2)) f') as Hfin.
  { apply Hkept; [done|done|]. cbn [wd_sys]. intros Hp. apply Hk3. destruct Hp as [[[w Hw]|[id Hid]]|Hl].
    - left. left. exists w. by rewrite Hrec.
    - left. right. exists id. by rewrite Hrec.
    - right. eapply leased_keeps; [exact Hl|done]. }
  destruct rr as [ret|e]; intros Heq; injection Heq as <- <-; exists f'; (split; [done|]); [|done]. intros _. by exists g.
Qed.

Context (show_cache : CacheError → bytes) (show_capacity : CapacityAdmissionError → bytes)
  (show_maintenance : MaintenanceError → bytes) (show_mark : MarkError → bytes).
Abbreviation gc_turn := (gc_execute_next config show_cache show_capacity show_maintenance show_mark).
Abbreviation gc_handler := (gc_handle config show_cache show_capacity show_maintenance show_mark).

Lemma gc_handle_spec n manifests retained limits job (x : World) f res x' :
  holds_view (catalog x) f → collectable x → gc_handler n manifests retained limits job x = (res, x') →
  (x' = x ∧ res ≠ Handled) ∨
  jb_state job = Running ∧ jb_payload job = [] ∧ ∃ refs f', retained = Ok refs ∧ kept x f x' f' ∧
    (res = Handled → moved manifests content refs x f x' f').
Proof.
  intros Hv Hc. unfold gc_handle, handled. destruct (gc_execute _ _ _ _ _ job x) as [rg xg] eqn:Hg.
  intros Hh. assert (x' = xg ∧ (res = Handled → is_ok rg = true)) as [-> Hres]
    by (destruct rg; cbn in Hh; injection Hh; by intros <- <-). clear Hh.
  assert (is_ok rg = false → res ≠ Handled) as Hne by (intros Hf ->; by rewrite Hres in Hf).
  unfold gc_execute in Hg. unfold st_bind at 1, st_lift at 1 in Hg.
  destruct (ensure _ _) as [u|e] eqn:Hrun; [|injection Hg as <- <-; left; auto].
  unfold st_bind at 1, st_lift at 1 in Hg. destruct (ensure _ _) as [u1|e] in Hg; [|injection Hg as <- <-; left; auto].
  unfold st_bind at 1, st_lift at 1 in Hg. destruct (ensure _ _) as [u2|e] eqn:Hp in Hg; [|injection Hg as <- <-; left; auto].
  unfold st_bind at 1, st_lift at 1 in Hg. destruct retained as [refs|e]; cbn [map_err] in Hg; [|injection Hg as <- <-; left; auto].
  unfold st_map_err in Hg. destruct (run_gc_once _ _ _ _ _ x) as [r1 x1] eqn:Hgc.
  destruct (gc_once_spec _ _ _ _ _ _ _ _ Hv Hc Hgc) as (f' & Hk & Hm). right.
  apply ensure_Ok_inv, bool_decide_eq_true in Hrun. apply ensure_Ok_inv, bool_decide_eq_true in Hp.
  split; [done|]. split; [done|]. exists refs, f'. injection Hg as <- <-. split; [done|]. split; [done|].
  intros Hok%Hres. apply Hm. by destruct r1.
Qed.

(** C4. A garbage-collection job keeps everything reachable. Assume that the
    reader always gives the same content for an ID, that no two repositories
    bind one Git object ID to different content, and that repositories of
    different hash algorithms share only blobs. One turn of the
    collection worker, with any calls of the queue, the disk, the catalog, the
    reader and the writer failing: every job only advances, in every name space
    a crash may find; each location in the catalog is an old one or that of a
    record the writer verified in the next generation; other records of the
    catalog are unchanged; and while a workspace pin, an operational pin or a
    lease holds the current generation, no file outside the manager's own
    directory is moved or removed. When the turn reports that the job
    succeeded, the job is durably recorded so, had no payload, the next
    generation is current, and the content of every object reached from a
    ready snapshot or a retained reference is located in it at a verified
    record. *)
Theorem gc_job_keeps_reachable dir claim final n manifests retained limits d (x : World) f r d' x' :
  queue_ok dir d → holds_view (catalog x) f → collectable x →
  gc_turn n manifests retained limits dir claim final (d, x) = (r, (d', x')) →
  evolves dir d d' ∧ ∃ f', kept x f x' f' ∧
    (r = Ok Idle → x' = x) ∧
    ∀ job, r = Ok (JobSucceeded job) →
      durable dir d' job ∧ jb_state job = Succeeded ∧ jb_kind job = Service.OPERATIONAL_GC_JOB_KIND ∧ jb_payload job = [] ∧
      ∃ refs, retained = Ok refs ∧ moved manifests content refs x f x' f'.
Proof.
  intros Hq Hv Hc Ht. apply turn_spec in Ht as [He Ht]; [|done]. split; [done|].
  destruct Ht as [[-> Hidle]|(r0 & c & res & Hm & (_ & Hkind & _) & Hrun & Hh & Hout)].
  - exists f. split; [by apply unchanged_kept|]. split; [done|]. intros job Hj. by apply Hidle in Hj.
  - apply bool_decide_eq_true in Hm. 
    destruct (gc_handle_spec _ _ _ _ _ _ _ _ _ Hv Hc Hh) as [[-> Hres]|(_ & Hp & refs & f' & Hr & Hk & Hmv)].
    + exists f. split; [by apply unchanged_kept|]. split; [done|]. intros job [Hj _]%Hout. by destruct res.
    + exists f'. split; [done|]. split; [intros [Hj _]%Hout; by destruct res|].
      intros job [Hj Hd]%Hout. destruct res; try done. injection Hj as ->. cbn in *.
      split_and!; [done|done|congruence|done|]. exists refs. by auto.
Qed.
End Collection.

(** ** Jobs of clients *)

(** A call that reads: the catalog and the files stay as they are. *)
Section Reading.
Context {C : Type}.
Definition reading {A E} (act : ST (Sys C) E A) : Prop := ∀ s,
  sys_catalog (act s).2 = sys_catalog s ∧ same_files (sys_disk s) (sys_disk (act s).2).
Lemma reading_bind {A B E} (a : ST (Sys C) E A) (k : A → ST (Sys C) E B) :
  reading a → (∀ x, reading (k x)) → reading (st_bind a k).
Proof.
  intros Ha Hk s. destruct (Ha s) as [Hc Hs]. unfold st_bind. destruct (a s) as [[x|e] s1]; cbn in *; [|done].
  destruct (Hk x s1) as [Hc1 Hs1]. split; [congruence|by eapply same_files_trans].
Qed.
Lemma reading_lift {A E} (r : result E A) : reading (st_lift r).
Proof. intros s. split; [done|apply same_files_refl]. Qed.
Lemma reading_ret {A E} (x : A) : reading (E := E) (st_ret x).
Proof. intros s. split; [done|apply same_files_refl]. Qed.
Lemma reading_lifted {A} (r : result StoreError A) : reading (lifted r).
Proof. apply reading_lift. Qed.
Lemma reading_open p : reading (on_disk (open_file p)).
Proof.
  intros s. unfold on_disk. destruct (open_file p (sys_disk s)) as [r d] eqn:Ho. by apply open_file_spec in Ho as [Hs _].
Qed.
Lemma reading_read n : reading (on_disk (read_file n)).
Proof.
  intros s. unfold on_disk. destruct (read_file n (sys_disk s)) as [r d] eqn:Ho. by apply read_file_spec in Ho as [Hs _].
Qed.
Lemma reading_try {A} (act : ST (Sys C) StoreError A) : reading act → reading (try_ok act).
Proof. intros Ha s. destruct (Ha s) as [Hc Hs]. unfold try_ok. by destruct (act s) as [[x|e] s1]. Qed.
Create HintDb reading.
#[local] Hint Resolve reading_lift reading_ret reading_lifted reading_open reading_read reading_try : reading.
#[local] Hint Extern 2 (reading (st_bind _ _)) => (apply reading_bind; [|intros]) : reading.

Context `{Digests} `{Zstd}.
Lemma reading_verify_sealed n : reading (verify_sealed n).
Proof. unfold verify_sealed. auto with reading. Qed.
#[local] Hint Resolve reading_verify_sealed : reading.
Lemma reading_verify_chunk p : reading (verify_chunk p).
Proof.
  unfold verify_chunk, verify_sealed_chunk. destruct (is_sealed_path p); [auto 10 with reading|].
  do 5 (apply reading_bind; [auto with reading|intros]). case_match; auto with reading.
Qed.
End Reading.

Section Clients.
Context `{Digests} `{Zstd} `{Catalog C} `{SnapshotManifestSource M} `{CompactionReader R} `{CompactionWriter W}
  `{TrustedImportCheckoutOperations Op E}.
Context (config : OperationalMaintenanceConfig) (meter : CapacityMeter) (policy : ReservePolicy) (cold_chunks : gmap (Z * Z) Path).
Context (show_cache : CacheError → bytes) (show_store : StoreError → bytes) (show_capacity : CapacityAdmissionError → bytes)
  (show_maintenance : MaintenanceError → bytes) (show_mark : MarkError → bytes) (show_operation : E → bytes).

Lemma handled_state {A X F} (show : F → bytes) (r : result F A) (x : X) res x' :
  handled show (r, x) = (res, x') → x' = x.
Proof. unfold handled. by destruct r; intros [= _ <-]. Qed.
Lemma maintenance_harmless job c (s : Sys C) res c' s' : jb_payload job ≠ [] ∨ jb_kind job ≠ Service.CACHE_RECONCILE_JOB_KIND →
  maintenance_handle show_cache show_store cold_chunks job (c, s) = (res, (c', s')) →
  CacheSpec.thinner c c' ∧ sys_catalog s' = sys_catalog s ∧ same_files (sys_disk s) (sys_disk s').
Proof.
  intros Hp. unfold maintenance_handle. destruct (maintenance_execute cold_chunks job (c, s)) as [r [c1 s1]] eqn:Hx.
  intros Hh%handled_state. injection Hh as -> ->. unfold maintenance_execute in Hx. cbn [fst snd] in Hx.
  assert (∀ r0 r1 : result MaintenanceJobError MaintenanceJobOutcome, (r0, (c, s)) = (r1, (c1, s1)) →
    CacheSpec.thinner c c1 ∧ sys_catalog s1 = sys_catalog s ∧ same_files (sys_disk s) (sys_disk s1)) as Hsame.
  { intros r0 r1 [= _ <- <-]. split_and!; [apply CacheSpec.thinner_refl|done|apply same_files_refl]. }
  case_decide; [by eapply Hsame|]. case_decide; [destruct Hp; [rewrite decide_True in Hx by done; by eapply Hsame|done]|].
  case_decide.
  { destruct (decode_cache_evict_payload _) as [target|e]; [|by eapply Hsame].
    destruct (evict_to c target) as [r2 c2] eqn:He. apply CacheSpec.evict_to_thinner in He. injection Hx as _ <- <-.
    split_and!; [done|done|apply same_files_refl]. }
  case_decide; [|by eapply Hsame]. destruct (decode_cold_chunk_payload _) as [[g k]|e]; [|by eapply Hsame].
  destruct (cold_chunks !! (g, k)) as [path|]; [|by eapply Hsame].
  pose proof (reading_verify_chunk path s) as Hr. destruct (verify_chunk path s) as [r2 s2]. injection Hx as _ <- <-.
  split; [apply CacheSpec.thinner_refl|exact Hr].
Qed.
Lemma pressure_harmless job c res c' :
  pressure_handle meter policy show_cache show_capacity show_maintenance show_mark job c = (res, c') → CacheSpec.thinner c c'.
Proof.
  unfold pressure_handle. destruct (pressure_execute meter policy job c) as [r c1] eqn:Hx. intros ->%handled_state.
  unfold pressure_execute in Hx. unfold st_bind at 1, st_lift at 1 in Hx.
  destruct (ensure _ _) as [u|e]; [|injection Hx as _ <-; apply CacheSpec.thinner_refl].
  unfold st_bind at 1, st_lift at 1 in Hx. destruct (ensure _ _) as [u1|e]; [|injection Hx as _ <-; apply CacheSpec.thinner_refl].
  unfold st_bind at 1, st_lift at 1 in Hx.
  destruct (decode_cache_pressure_payload _) as [projected|e]; [|injection Hx as _ <-; apply CacheSpec.thinner_refl].
  unfold st_map_err, relieve_cache_pressure, with_cache_admission, st_bind, with_admission in Hx.
  destruct (admit_locked meter policy c projected) as [[a|e] c2] eqn:Ha; apply CacheSpec.admit_locked_inv in Ha as [Ht _];
    by injection Hx as _ <-.
Qed.

(** A job with the kind and payload of a job that the request creates: the
    operation of the queue that its command runs is the enqueuing of such a
    job. *)
Definition requested (request : bytes) (job : JobRecord) : Prop :=
  ∃ w c nonces ids, Service.parse_daemon_command request = Ok c ∧
    Service.ServiceSpec.command_op w c = DoEnqueue nonces ids (jb_kind job) (jb_payload job).
Lemma requested_cases request job : requested request job →
  jb_payload job ≠ [] ∨
  Service.parse_daemon_command request = Ok Service.EnqueueOperationalGc ∧ jb_kind job = Service.OPERATIONAL_GC_JOB_KIND.
Proof.
  intros (w & c & nonces & ids & Hreq & Hop). pose proof (Service.ServiceSpec.parsed_expressible _ _ Hreq) as He.
  destruct c; try discriminate Hop; injection Hop as _ _ <- <-.
  - by right.
  - left. discriminate.
  - left. apply He.
Qed.

(** C9. What a client creates over the socket starts no import, checkout or
    unasked collection. Take a job that any request creates: [job enqueue],
    [maintenance gc] or [maintenance cache-pressure]. Handed to the worker of
    trusted imports and checkouts it fails, and the trusted implementation and
    its cache are what they were. Handed to the collection worker it fails with
    the catalog, the disk, the reader and the writer unchanged, unless the
    request was [maintenance gc], which is how a client asks for a collection.
    Handed to the cache and chunk workers it removes at most regular leaves of
    the derived cache; files and catalog stay as they are. (Jobs the daemon
    created itself are not covered: a client may start or retry them.) *)
Theorem client_jobs_harmless request job n manifests retained limits : requested request job →
  (∀ o : Op * Cache, ∃ e, trusted_handle meter policy show_capacity show_operation job o = (HandlerFailed e, o)) ∧
  (Service.parse_daemon_command request ≠ Ok Service.EnqueueOperationalGc → ∀ x : World (C := C) (R := R) (W := W), ∃ e,
     gc_handle config show_cache show_capacity show_maintenance show_mark n (manifests : M) retained limits job x =
       (HandlerFailed e, x)) ∧
  (∀ c res c', pressure_handle meter policy show_cache show_capacity show_maintenance show_mark job c = (res, c') →
     CacheSpec.thinner c c') ∧
  (∀ c (s : Sys C) res c' s', maintenance_handle show_cache show_store cold_chunks job (c, s) = (res, (c', s')) →
     CacheSpec.thinner c c' ∧ sys_catalog s' = sys_catalog s ∧ same_files (sys_disk s) (sys_disk s')).
Proof.
  intros Hreq%requested_cases. split_and!.
  - intros o. unfold trusted_handle, trusted_execute, handled. case_decide; [by eexists|].
    case_decide; [by eexists|]. destruct Hreq as [?|[_ ->]]; [done|]. by eexists.
  - intros Hgc x. destruct Hreq as [Hne|[? _]]; [|done]. unfold gc_handle, gc_execute, handled. unfold st_bind, st_lift, ensure.
    case_bool_decide; [|by eexists]. case_bool_decide; [|by eexists]. case_bool_decide; [done|by eexists].
  - apply pressure_harmless.
  - intros c s res c' s'. apply maintenance_harmless. destruct Hreq as [?|[_ ->]]; [by left|right; discriminate].
Qed.
End Clients.

(** ** Startup of imports and checkouts *)

(** The file at [p] is the snapshot manifest [sm]. *)
Definition snapshot_at (d : Disk) (p : Path) (sm : SnapshotManifest) : Prop :=
  ∃ n, d_names d !! p = Some n ∧ decode_snapshot_manifest_bytes (data d n) = Ok sm.
(** Reads keep files, and do not make later calls deny that a file exists. *)
Definition calm (d d' : Disk) : Prop :=
  same_files d d' ∧ (WorkspaceReconcileSpec.honest_disk d → WorkspaceReconcileSpec.honest_disk d').
#[export] Instance calm_refl : Reflexive calm.
Proof. split; [apply same_files_refl|done]. Qed.
#[export] Instance calm_trans : Transitive calm.
Proof. intros d1 d2 d3 [H1 Hh1] [H2 Hh2]. split; [by eapply same_files_trans|auto]. Qed.
Lemma calm_pop d : calm d (pop_fault d).2.
Proof.
  split; [apply pop_same|]. unfold WorkspaceReconcileSpec.honest_disk, pop_fault. destruct (d_faults d) as [|o fs] eqn:Hf;
    cbn; [by rewrite Hf|]. by intros [_ ?]%Forall_cons.
Qed.
Lemma calm_io {A} (act : DiskIO A) d r d' : (∀ d0, (act d0).2 = d0) → io act d = (r, d') → calm d d'.
Proof.
  intros Ha. pose proof (calm_pop d) as Hc. unfold io. destruct (pop_fault d) as [[f|] d1]; [by intros [= _ <-]|].
  intros Hd. specialize (Ha d1). rewrite Hd in Ha. cbn in *. by subst.
Qed.
Lemma read_snapshot_calm p d r d' : read_snapshot_manifest p d = (r, d') →
  calm d d' ∧ ∀ sm, r = Ok sm → snapshot_at d p sm.
Proof.
  unfold read_snapshot_manifest, on_file, st_map_err, st_bind, st_lift.
  destruct (open_file p d) as [r1 d1] eqn:H1. assert (calm d d1) as Hc1 by (eapply calm_io; [|exact H1]; done). apply open_file_spec in H1 as [_ H1].
  destruct r1 as [n|e]; cbn [map_err]; [|intros [= <- <-]; by split].
  destruct (read_file n d1) as [r2 d2] eqn:H2. assert (calm d1 d2) as Hc2 by (eapply calm_io; [|exact H2]; done). apply read_file_spec in H2 as [_ H2].
  assert (calm d d2) as Hc by (etrans; eassumption).
  destruct r2 as [b|e]; cbn [map_err]; [|intros [= <- <-]; by split].
  destruct (ensure _ _); intros [= <- <-]; (split; [done|]); [|done]. intros sm Hsm. exists n. split; [by apply H1|].
  rewrite (H2 b eq_refl) in Hsm. by rewrite <-(same_files_data d d1 n (proj1 Hc1)).
Qed.

Section Startup.
Context `{CatalogLaws C} `{WorkspaceStore.WorkspaceTree T}.
Abbreviation Site := (Sys C * Checkout.Shelf T)%type.

(** The snapshot of a manifest among [paths] has become ready; nothing else
    has changed. *)
Definition readied (d : Disk) (paths : list Path) (f f' : View) : Prop := ∀ k,
  f' k = f k ∨ f' k = Some (VVisibility Ready) ∧ ∃ p sm, p ∈ paths ∧ snapshot_at d p sm ∧ k = PublicationSpec.snapshot_key sm.

Lemma snapshot_at_same d d' p sm : same_files d d' → snapshot_at d' p sm → snapshot_at d p sm.
Proof. intros [Hi Hn _] (n & Hp & Hd). exists n. unfold data in *. by rewrite Hi, Hn in *. Qed.
Lemma reconcile_snapshot_spec p (s : Sys C) f r s' : holds_view (sys_catalog s) f →
  reconcile_snapshot_publication p s = (r, s') →
  calm (sys_disk s) (sys_disk s') ∧ ∃ f', holds_view (sys_catalog s') f' ∧ readied (sys_disk s) [p] f f' ∧
    (is_ok r = true → ∃ sm, snapshot_at (sys_disk s) p sm ∧ f' (PublicationSpec.snapshot_key sm) = Some (VVisibility Ready)).
Proof.
  intros Hv. unfold reconcile_snapshot_publication, st_bind, on_manifest.
  destruct (read_snapshot_manifest p (sys_disk s)) as [rm d1] eqn:Hr. apply read_snapshot_calm in Hr as [Hc Hat].
  destruct rm as [sm|e]; cbn [map_err].
  2: { intros [= <- <-]. split; [done|]. exists f. split; [done|]. split; [|done]. intros k. by left. }
  specialize (Hat sm eq_refl). assert (SnapshotSpec.manifest_wf sm) as Hwf.
  { destruct Hat as (n & _ & Hd). by apply SnapshotSpec.decode_manifest_iff in Hd as [? _]. }
  destruct (PublicationSpec.finish_persisted_spec sm (mkSys d1 (sys_catalog s)) f Hwf Hv) as (f' & Hv' & [Ho Hk] & Hd & Hok).
  intros Hf. rewrite Hf in *. cbn [fst snd sys_disk] in *. rewrite Hd. split; [done|]. exists f'. split; [done|]. split.
  - intros k. destruct (decide (k = PublicationSpec.snapshot_key sm)) as [->|Hne]; [|left; by apply Ho].
    destruct Hk as [Hk|Hk]; [by left|right]. split; [done|]. exists p, sm. split_and!; [by left|done|done].
  - intros Hr. exists sm. split; [done|]. destruct r as [status|]; [|done]. by apply (Hok status).
Qed.
Lemma readied_trans d d' p paths f f1 f' : same_files d d' →
  readied d [p] f f1 → readied d' paths f1 f' → readied d (p :: paths) f f'.
Proof.
  intros Hs Hp Hps k. destruct (Hps k) as [->|(Hk & q & sm & Hq & Hat & ->)].
  - destruct (Hp k) as [->|(Hk & q & sm & ->%list_elem_of_singleton & Hat & ->)]; [by left|right].
    split; [done|]. exists p, sm. split_and!; [by left|done|done].
  - right. split; [done|]. exists q, sm. split_and!; [by right|by eapply snapshot_at_same|done].
Qed.
(** The counters of snapshots grow, the others are kept. *)
Definition counts_snapshots (s0 s : ImportCheckoutStartup) (n : Z) : Prop :=
  is_snapshots_published s + is_snapshots_already_ready s = is_snapshots_published s0 + is_snapshots_already_ready s0 + n.
Lemma reconcile_snapshots_spec paths : ∀ s0 (x : Site) f r x', holds_view (sys_catalog x.1) f →
  reconcile_snapshots paths s0 x = (r, x') →
  x'.2 = x.2 ∧ calm (sys_disk x.1) (sys_disk x'.1) ∧
  ∃ f', holds_view (sys_catalog x'.1) f' ∧ readied (sys_disk x.1) paths f f' ∧
    ∀ s, r = Ok s → counts_snapshots s0 s (Z.of_nat (length paths)) ∧
      ∀ p, p ∈ paths → ∃ sm, snapshot_at (sys_disk x.1) p sm ∧
        f' (PublicationSpec.snapshot_key sm) = Some (VVisibility Ready).
Proof.
  induction paths as [|p paths IH]; intros s0 [s sh] f r x' Hv; cbn [reconcile_snapshots fst snd].
  { intros [= <- <-]. split; [done|]. split; [reflexivity|]. exists f. split; [done|]. split; [intros k; by left|].
    intros s1 [= <-]. split; [unfold counts_snapshots; cbn; lia|]. by intros p ?%elem_of_nil. }
  unfold st_bind, WorkspaceStore.on_sys. cbn [fst snd].
  destruct (reconcile_snapshot_publication p s) as [r1 s1] eqn:Hone.
  apply (reconcile_snapshot_spec p s f) in Hone as (Hc1 & f1 & Hv1 & Hrd1 & Hok1); [|done].
  destruct r1 as [status|e]; cbn [map_err].
  2: { intros [= <- <-]. cbn. split; [done|]. split; [done|]. exists f1. split; [done|]. split; [|done].
       eapply readied_trans; [apply same_files_refl|done|]. intros k. by left. }
  destruct (Hok1 eq_refl) as (sm & Hat & Hready).
  intros (Hsh & Hc2 & f' & Hv' & Hrd2 & Hok2)%(IH _ (s1, sh) f1); [|done]. cbn in *.
  split; [done|]. split; [by etrans|]. exists f'. split; [done|]. split; [by eapply readied_trans; [apply Hc1|..]|].
  intros s2 Hs2. destruct (Hok2 s2 Hs2) as [Hn Hall]. split.
  { unfold counts_snapshots in *. destruct status; cbn in Hn; lia. }
  intros q [->|Hq]%elem_of_cons.
  - exists sm. split; [done|]. destruct (Hrd2 (PublicationSpec.snapshot_key sm)) as [->|[Hk _]]; done.
  - destruct (Hall q Hq) as (sm' & Hat' & Hk). exists sm'. split; [|done]. eapply snapshot_at_same; [apply Hc1|done].
Qed.

(** C10. Startup leaves nothing half published. When the recovery of imports and
    checkouts succeeds with publication roots configured (calls that deny the
    existence of what is there excepted): files are as before; in the catalog
    only snapshots of configured manifests have changed, to ready; the manifest
    of every configured path is whole and its snapshot is ready, and they are
    as many as the report counts; a workspace that is no longer visible is one
    whose manifest had no ready records; and, if no two manifests name the same
    workspace, a workspace with a manifest is visible exactly when it is ready,
    by the catalog that startup leaves. *)
Theorem startup_settles config workspaces trash candidates (s : Sys C) (sh : Checkout.Shelf T) f rep s' sh' :
  ic_workspace_root config = Some workspaces → ic_workspace_trash_root config = Some trash →
  WorkspaceReconcileSpec.honest sh → WorkspaceReconcileSpec.honest_disk (sys_disk s) → holds_view (sys_catalog s) f →
  reconcile_import_checkout_startup config candidates (s, sh) = (Ok rep, (s', sh')) →
  let d := sys_disk s in let root := ic_workspace_manifests_root config in
  same_files d (sys_disk s') ∧
  (∃ f', holds_view (sys_catalog s') f' ∧ readied d (ic_snapshot_manifests config) f f' ∧
     ∀ p, p ∈ ic_snapshot_manifests config → ∃ sm, snapshot_at d p sm ∧
       f' (PublicationSpec.snapshot_key sm) = Some (VVisibility Ready)) ∧
  is_snapshots_published rep + is_snapshots_already_ready rep = Z.of_nat (length (ic_snapshot_manifests config)) ∧
  (∀ n, Checkout.sh_workspaces sh' !! n = Checkout.sh_workspaces sh !! n ∨
    Checkout.sh_workspaces sh' !! n = None ∧ ∃ p wm, WorkspaceReconcileSpec.listed d root p ∧
      WorkspaceStoreSpec.manifest_at d p wm ∧ Workspace.wm_name wm = n ∧
      ¬ WorkspaceReconcileSpec.ready_for root (sys_catalog s') d wm) ∧
  ∀ p, WorkspaceReconcileSpec.listed d root p → ∃ wm, WorkspaceStoreSpec.manifest_at d p wm ∧
    ((∀ p p' m m', WorkspaceReconcileSpec.listed d root p → WorkspaceReconcileSpec.listed d root p' →
        WorkspaceStoreSpec.manifest_at d p m → WorkspaceStoreSpec.manifest_at d p' m' →
        Workspace.wm_name m = Workspace.wm_name m' → p = p') →
     WorkspaceReconcileSpec.agrees root (sys_catalog s') d wm sh').
Proof.
  intros Hw Ht Hh Hhd Hv. unfold reconcile_import_checkout_startup. rewrite Hw, Ht. unfold st_bind at 1.
  destruct (reconcile_snapshots _ _ (s, sh)) as [r1 [s1 sh1]] eqn:Hsn.
  apply (reconcile_snapshots_spec _ _ _ f) in Hsn as (Hsh & [Hs1 Hhd1] & f' & Hv' & Hrd & Hok); [|done]. cbn in *. subst sh1.
  destruct r1 as [rep1|e]; [|done]. destruct (Hok rep1 eq_refl) as [Hn Hall].
  unfold st_bind, st_map_err. destruct (WorkspaceStore.reconcile_workspace_publications _ _ _) as [r2 [s2 sh2]] eqn:Hr.
  destruct r2 as [wr|e]; cbn [map_err]; [|done]. intros Heq. injection Heq as <- <- <-.
  destruct (WorkspaceReconcileSpec.reconcile_settles _ _ _ _ _ _ _ Hh (Hhd1 Hhd) Hr) as (Hc2 & Hs2 & Hgone & Hag).
  rewrite Hc2. split; [by eapply same_files_trans|]. split; [by exists f'|]. split; [exact Hn|].
  pose proof (λ p, WorkspaceReconcileSpec.listed_same _ _ (ic_workspace_manifests_root config) p Hs1) as Hlist.
  pose proof (λ p wm, WorkspaceReconcileSpec.manifest_at_same _ _ p wm Hs1) as Hman.
  pose proof (λ c wm, WorkspaceReconcileSpec.ready_for_same (ic_workspace_manifests_root config) c _ _ wm Hs1) as Hready.
  split.
  - intros n. destruct (Hgone n) as [->|(Hnone & p & wm & Hl & Hm & Hnm & Hnr)]; [by left|right]. split; [done|].
    exists p, wm. by rewrite Hlist, Hman, Hready.
  - intros p Hp. destruct (Hag p) as (wm & Hm & Ha); [by rewrite <-Hlist|]. exists wm. split; [by rewrite Hman|].
    intros Hdist. unfold WorkspaceReconcileSpec.agrees in *. rewrite Hready. apply Ha.
    intros q q' mq mq'. rewrite <-!Hlist, <-!Hman. apply Hdist.
Qed.
End Startup.
(** ** Runs *)

Section Demo.
#[local] Existing Instance WorkspaceReconcileSpec.demo_tree.
(** A snapshot whose publication stopped before it became ready, beside a ready
    workspace. *)
Definition begun : Sys InMemoryCatalog :=
  (st_bind (begin_snapshot_publication PublicationSpec.demo_manifest) (λ _,
     on_manifest (write_snapshot_manifest [mkPath (b_ "snapshots") (b_ "t") None] PublicationSpec.demo_path PublicationSpec.demo_manifest))
     WorkspaceReconcileSpec.demo_ready.2).2.
Definition startup_config : ImportCheckoutConfig :=
  set_workspace_publication_roots
    (match add_snapshot_manifest (ic_config_new (b_ "cache") WorkspaceReconcileSpec.demo_root) PublicationSpec.demo_path with
     | Ok c => c
     | Err _ => ic_config_new [] []
     end) (b_ "workspaces") (b_ "trash").
Definition started :=
  reconcile_import_checkout_startup startup_config WorkspaceReconcileSpec.demo_candidates (begun, WorkspaceReconcileSpec.demo_shelf).
(** The snapshot becomes ready and the workspace stays visible. *)
Lemma startup_settles_witness :
  started.1 = Ok (mkICStartup 1 0 1 0 0 0) ∧
  ∃ f', holds_view (sys_catalog started.2.1) f' ∧
    ∀ p, p ∈ [PublicationSpec.demo_path] → ∃ sm, snapshot_at (sys_disk begun) p sm ∧
      f' (PublicationSpec.snapshot_key sm) = Some (VVisibility Ready).
Proof.
  assert (started.1 = Ok (mkICStartup 1 0 1 0 0 0)) as Hok by (vm_compute; reflexivity). split; [exact Hok|].
  destruct (startup_settles startup_config (b_ "workspaces") (b_ "trash") WorkspaceReconcileSpec.demo_candidates begun
    WorkspaceReconcileSpec.demo_shelf (stored (sys_catalog begun)) (mkICStartup 1 0 1 0 0 0) started.2.1 started.2.2)
    as (_ & (f' & Hv & _ & Hall) & _).
  - reflexivity.
  - reflexivity.
  - constructor.
  - assert (d_faults (sys_disk begun) = []) as Hf by (vm_compute; reflexivity).
    unfold WorkspaceReconcileSpec.honest_disk. rewrite Hf. constructor.
  - intros k. reflexivity.
  - rewrite <-Hok. unfold started. destruct (reconcile_import_checkout_startup _ _ _) as [r [s sh]]. reflexivity.
  - exists f'. split; [exact Hv|exact Hall].
Defined.

#[local] Existing Instance toy_digests.
#[local] Existing Instance toy_zstd.
#[local] Existing Instance demo_reader.
#[local] Existing Instance demo_writer.
#[local] Existing Instance demo_writer_laws.
#[local] Instance demo_operations : TrustedImportCheckoutOperations Z unit := {|
  reconcile_incomplete_workspaces n := (Ok 0, n);
  trusted_import _ n := (Ok (), n + 1);
  checkout_cache_bytes _ n := (Ok 1, n);
  materialize_checkout _ c n := (Ok (), c, n + 1) |}.
Definition client_request : bytes :=
  Service.ServiceSpec.unwords (Service.ServiceSpec.command_fields (Service.Enqueue TRUSTED_IMPORT_JOB_KIND [x00])).
Definition client_job : JobRecord := mkJob JobsOpsSpec.demo_id TRUSTED_IMPORT_JOB_KIND [x00] Running 1 None.
(** A client asks for an import, with the shortest payload it can send. *)
Lemma client_jobs_harmless_witness :
  Service.parse_daemon_command client_request = Ok (Service.Enqueue TRUSTED_IMPORT_JOB_KIND [x00]) ∧
  ∃ e, trusted_handle (E := unit) (λ _, Err OtherIo) (mkPolicy 0 0) (λ _, []) (λ _, []) client_job (7, mkCache ∅ [] []) =
    (HandlerFailed e, (7, mkCache ∅ [] [])).
Proof.
  split; [vm_compute; reflexivity|].
  assert (requested client_request client_job) as Hreq.
  { exists (Service.mkDraws [] [] (Ok 0)), (Service.Enqueue TRUSTED_IMPORT_JOB_KIND [x00]), [], []. split; vm_compute; reflexivity. }
  destruct (client_jobs_harmless (C := InMemoryCatalog) (M := RepoId → SnapshotId → result string SnapshotManifest) (R := unit)
    (W := list (ContentId * ObjectLocation)) (Op := Z) (E := unit) (mkOMConfig [] [] [] []) (λ _, Err OtherIo) (mkPolicy 0 0) ∅
    (λ _, []) (λ _, []) (λ _, []) (λ _, []) (λ _, []) (λ _, []) client_request client_job
    (mkGcNonces [] [] []) demo_manifests (Ok []) (mkMarkLimits 1 1 1) Hreq) as [Ht _].
  apply Ht.
Defined.

Definition gc_config : OperationalMaintenanceConfig := mkOMConfig (b_ "/cache") (b_ "/gc") (b_ "/generations") (b_ "/trash").
Definition gc_op : JobOp := DoEnqueueWithId [0] JobsOpsSpec.demo_id Service.OPERATIONAL_GC_JOB_KIND [].
Definition gc_queued := run_op JobsOpsSpec.demo_dir gc_op JobsOpsSpec.demo_empty.
Definition gc_turned (x : World (C := InMemoryCatalog) (R := unit) (W := list (ContentId * ObjectLocation))) :=
  gc_execute_next gc_config (λ _, []) (λ _, []) (λ _, []) (λ _, []) (mkGcNonces (b_ "1") (b_ "2") (b_ "3"))
    demo_manifests (Ok []) (mkMarkLimits 10 10 10) JobsOpsSpec.demo_dir [1] [2] (gc_queued.2, x).

Lemma gc_queued_ok : queue_ok JobsOpsSpec.demo_dir gc_queued.2.
Proof.
  destruct (run_op_evolves JobsOpsSpec.demo_dir JobsOpsSpec.demo_empty gc_op gc_queued.1 gc_queued.2) as [[Hq _] _];
    [exact demo_empty_ok|reflexivity|unfold gc_queued; by destruct (run_op _ _ _)|exact Hq].
Qed.
Lemma gc_collectable : collectable demo_content demo_world.
Proof.
  split; [exact demo_stable|]. split; [exact demo_unique|]. split; [exact demo_one_format|].
  assert (map_Forall (λ id _, ContentId_wf id) (im_objects demo_catalog)) as Hall
    by (apply (bool_decide_unpack _); vm_compute; exact I).
  intros id l Hl. by apply (Hall id l).
Qed.
(** The job succeeds, and the blob of the live tree is in generation 2. *)
Lemma gc_job_keeps_reachable_witness :
  match (gc_turned demo_world).1 with Ok (JobSucceeded job) => jb_state job = Succeeded | _ => False end ∧
  ∃ f l, f (KObject (CompactionSpec.demo_id Blob demo_blob)) = Some (VLocation l) ∧ ol_generation l = 2 ∧
    holds_view (sys_catalog (wd_sys (gc_turned demo_world).2.2)) f.
Proof.
  assert (match (gc_turned demo_world).1 with Ok (JobSucceeded job) => jb_state job = Succeeded | _ => False end) as Hok
    by (vm_compute; reflexivity). split; [exact Hok|].
  destruct (gc_job_keeps_reachable gc_config demo_content (λ _, []) (λ _, []) (λ _, []) (λ _, []) JobsOpsSpec.demo_dir [1] [2]
    (mkGcNonces (b_ "1") (b_ "2") (b_ "3")) demo_manifests (Ok []) (mkMarkLimits 10 10 10) gc_queued.2 demo_world
    (stored demo_catalog) (gc_turned demo_world).1 (gc_turned demo_world).2.1 (gc_turned demo_world).2.2)
    as (_ & f & Hk & _ & Hs).
  - exact gc_queued_ok.
  - intros k. reflexivity.
  - exact gc_collectable.
  - unfold gc_turned. destruct (gc_execute_next _ _ _ _ _ _ _ _ _ _ _ _ _) as [r [d' x']]. reflexivity.
  - destruct (gc_turned demo_world).1 as [[|job|]|] eqn:Hr; try destruct Hok.
    destruct (Hs job eq_refl) as (_ & _ & _ & _ & refs & Hrefs & g & Hg & _ & Hreach). injection Hrefs as <-.
    assert (g = 1) as -> by (vm_compute in Hg; congruence).
    destruct (Hreach (mkRetained demo_repo (demo_oid Blob demo_blob)) (CompactionSpec.demo_id Blob demo_blob)) as (l & Hl & Hg2 & _).
    + apply (reached_reference _ _ _ (mkRetained demo_repo (demo_oid Tree demo_tree)) [demo_oid Blob demo_blob]);
        [|exists (CompactionSpec.demo_id Tree demo_tree), Tree, demo_tree; split_and!; vm_compute; reflexivity|left].
      apply reached_base. right. exists demo_snapshot, demo_manifest,
        (mkPersistedRef (b_ "refs/heads/main") Branch (demo_oid Tree demo_tree)).
      split_and!; [vm_compute; reflexivity|reflexivity|left|reflexivity].
    + vm_compute. reflexivity.
    + exists f, l. split; [exact Hl|]. split; [exact Hg2|]. apply Hk.
Defined.
End Demo.
End WorkersSpec.
