(* ===== verification/OperationLog.v ===== *)
(** * The log of operations: [reflink-forest-daemon/src/structured_log.rs]

    One line of JSON per event, appended to a file and synchronized. Module
    [OperationLogSpec] proves that lines are short, determine their events and
    survive crashes once accepted, and what a torn append does to the next
    line. *)

From Stdlib Require Import ZArith Lia Strings.Byte Strings.String.
From stdpp Require Import base tactics list gmap strings.
From S2P Require Import Prelude Order Core Format Chunk Disk DiskSpec Git Reader PublicationSpec Generation LeaseSpec Cache CacheSpec Jobs JobsSpec JobsQueueSpec Scrub Migration Service.
Import Core Chunk Disk Git Reader Jobs.

#[local] Open Scope Z_scope.

Module OperationLog.

Definition STRUCTURED_OPERATION_LOG_VERSION : Z := 1.
Definition MAX_STRUCTURED_OPERATION_EVENT_BYTES : Z := 1024.

(** JSON text, written with apostrophes for its quotation marks. *)
Definition js (s : string) : bytes := map (λ b, if decide (b = x27) then x22 else b) (b_ s).

Definition outcome_name (o : Service.OperationEventOutcome) : bytes :=
  match o with
  | Service.EvIdle => b_ "idle"
  | Service.EvSucceeded => b_ "succeeded"
  | Service.EvFailed Service.EvHandlerError => b_ "handler_error"
  | Service.EvFailed Service.EvHandlerPanic => b_ "handler_panic"
  | Service.PersistenceFailure => b_ "persistence_failure"
  end.
Definition log_job_state_name (s : JobState) : bytes :=
  match s with
  | Queued => b_ "queued" | Running => b_ "running" | Succeeded => b_ "succeeded" | Failed => b_ "failed"
  end.
Definition maintenance_kind_name (k : Service.MaintenanceOperationKind) : bytes :=
  match k with
  | Service.CacheReconcile => b_ "cache_reconcile"
  | Service.CacheEvict => b_ "cache_evict"
  | Service.VerifyColdChunk => b_ "verify_cold_chunk"
  | Service.UnsupportedKind => b_ "unsupported"
  end.
Definition scrub_run_state_name (s : Scrub.ScrubRunState) : bytes :=
  match s with Scrub.Idle => b_ "idle" | Scrub.Running => b_ "running" end.
Definition log_migration_state_name (s : Migration.MigrationState) : bytes :=
  match s with
  | Migration.NotStarted => b_ "not_started"
  | Migration.Copying => b_ "copying"
  | Migration.Validating => b_ "validating"
  | Migration.Published => b_ "published"
  end.

Definition append_job_metadata (job : option Service.OperationJobMetadata) : bytes :=
  match job with
  | None => js "null"
  | Some job =>
      js "{'id':'" ++ Cache.hex (job_bytes (Service.om_id job)) ++ js "','state':'" ++
      log_job_state_name (Service.om_state job) ++ js "','attempts':" ++ to_string (Service.om_attempts job) ++ js "}"
  end.
Definition schedule_text (schedule : option Service.ScrubOperationMetadata) : bytes :=
  match schedule with
  | None => js "null"
  | Some s =>
      js "{'interval_seconds':" ++ to_string (Service.sm_interval_seconds s) ++
      js ",'next_due_unix_seconds':" ++ to_string (Service.sm_next_due_unix_seconds s) ++
      js ",'run_state':'" ++ scrub_run_state_name (Service.sm_run_state s) ++
      js "','consecutive_failures':" ++ to_string (Service.sm_consecutive_failures s) ++
      js ",'recovered_interrupted_runs':" ++ to_string (Service.sm_recovered_interrupted_runs s) ++ js "}"
  end.
Definition migration_text (migration : option Service.MigrationOperationMetadata) : bytes :=
  match migration with
  | None => js "null"
  | Some m =>
      js "{'id':'" ++ Cache.hex (Migration.mig_bytes (Service.mm_id m)) ++
      js "','from_format_version':" ++ to_string (Service.mm_from_format_version m) ++
      js ",'to_format_version':" ++ to_string (Service.mm_to_format_version m) ++
      js ",'state':'" ++ log_migration_state_name (Service.mm_state m) ++
      js "','transition_count':" ++ to_string (Service.mm_transition_count m) ++ js "}"
  end.
Definition event_text (event : Service.OperationEvent) : bytes :=
  js "{'version':" ++ to_string STRUCTURED_OPERATION_LOG_VERSION ++
  match event with
  | Service.EvJob job outcome =>
      js ",'event':'job','outcome':'" ++ outcome_name outcome ++ js "','job':" ++ append_job_metadata job
  | Service.EvMaintenance job kind outcome =>
      js ",'event':'maintenance','outcome':'" ++ outcome_name outcome ++ js "','kind':'" ++ maintenance_kind_name kind ++
      js "','job':" ++ append_job_metadata job
  | Service.EvScrub schedule outcome =>
      js ",'event':'scrub','outcome':'" ++ outcome_name outcome ++ js "','schedule':" ++ schedule_text schedule
  | Service.EvMigration migration outcome =>
      js ",'event':'migration','outcome':'" ++ outcome_name outcome ++ js "','migration':" ++ migration_text migration
  end ++ js "}" ++ [x0a].

Inductive StructuredOperationLogError :=
| LogIo (e : IoErrorKind)
| UnsafeLogDirectory (path : bytes)
| UnsafeLogFile (path : Path)
| EventTooLarge (length maximum : Z).
Definition encode_event (event : Service.OperationEvent) : result StructuredOperationLogError bytes :=
  let b := event_text event in
  _ ← ensure (bool_decide (blen b ≤ MAX_STRUCTURED_OPERATION_EVENT_BYTES))
             (EventTooLarge (blen b) MAX_STRUCTURED_OPERATION_EVENT_BYTES);
  Ok b.

(** ** The file *)

Record StructuredOperationLog := mkLog { lo_path : Path; lo_file : nat; lo_events_written : Z }.
Inductive NodeKind := NodeFile | NodeDirectory | NodeSymlink | NodeOther.
Abbreviation LIO := (ST Disk StructuredOperationLogError).
Definition log_io {A} (act : DiskIO A) : LIO A := st_map_err LogIo act.

Definition log_parent (path : Path) : result StructuredOperationLogError bytes :=
  _ ← ensure (bool_decide (p_dir path ≠ [])) (UnsafeLogDirectory []); Ok (p_dir path).
(** [parent_metadata] and [metadata]: what [symlink_metadata] answers for the
    parent and for the file. *)
Definition log_open (parent_metadata metadata : result IoErrorKind NodeKind) (path : Path) : LIO StructuredOperationLog :=
  parent ⇐ st_lift (log_parent path);
  kind ⇐ st_lift (map_err LogIo parent_metadata);
  _ ⇐ st_lift (ensure (match kind with NodeDirectory => true | _ => false end) (UnsafeLogDirectory parent));
  existed ⇐ st_lift (match metadata with
                     | Ok NodeFile => Ok true
                     | Ok _ => Err (UnsafeLogFile path)
                     | Err NotFound => Ok false
                     | Err e => Err (LogIo e)
                     end);
  file ⇐ log_io (Generation.open_or_create path);
  _ ⇐ (if existed : bool then st_ret ()
       else _ ⇐ log_io (sync_file file); log_io (sync_all_directory parent));
  st_ret (mkLog path file 0).
(** [write_all] to a file opened with [append(true)]. *)
Definition append_all (file : nat) (b : bytes) : DiskIO unit := λ d, write_at file (Format.len (data d file)) b d.
Definition log_append (event : Service.OperationEvent) : ST (StructuredOperationLog * Disk) StructuredOperationLogError unit := λ x,
  let '(log, d) := x in
  match (encoded ⇐ st_lift (encode_event event);
         _ ⇐ log_io (append_all (lo_file log) encoded);
         log_io (sync_file (lo_file log))) d with
  | (Ok _, d) => (Ok (), (mkLog (lo_path log) (lo_file log) (Service.saturating_inc (lo_events_written log)), d))
  | (Err e, d) => (Err e, (log, d))
  end.

(** [DurableOperationEventSink]: failures are counted. *)
Record DurableOperationEventSink := mkSink { sk_log : StructuredOperationLog; sk_append_failures : Z }.
Definition sink_record (event : Service.OperationEvent) (x : DurableOperationEventSink * Disk) : DurableOperationEventSink * Disk :=
  match log_append event (sk_log x.1, x.2) with
  | (Ok _, (log, d)) => (mkSink log (sk_append_failures x.1), d)
  | (Err _, (log, d)) => (mkSink log (Service.saturating_inc (sk_append_failures x.1)), d)
  end.
End OperationLog.

(** * What the log guarantees *)

Import Service OperationLog PublicationSpec DiskSpec JobsSpec JobsQueueSpec.

Module OperationLogSpec.

(** ** Lines *)

Definition job_meta_wf (j : OperationJobMetadata) : Prop := jid_wf (om_id j) ∧ is_u32 (om_attempts j).
Definition scrub_meta_wf (s : ScrubOperationMetadata) : Prop :=
  is_u64 (sm_interval_seconds s) ∧ is_u64 (sm_next_due_unix_seconds s) ∧ is_u32 (sm_consecutive_failures s) ∧
  is_u64 (sm_recovered_interrupted_runs s).
Definition migration_meta_wf (g : MigrationOperationMetadata) : Prop :=
  length (Migration.mig_bytes (mm_id g)) = 16%nat ∧ is_u16 (mm_from_format_version g) ∧ is_u16 (mm_to_format_version g) ∧
  is_u64 (mm_transition_count g).
Definition option_wf {A} (P : A → Prop) (o : option A) : Prop := ∀ x, o = Some x → P x.
(** The fields have the widths of their types. *)
Definition event_wf (e : OperationEvent) : Prop :=
  match e with
  | EvJob job _ | EvMaintenance job _ _ => option_wf job_meta_wf job
  | EvScrub schedule _ => option_wf scrub_meta_wf schedule
  | EvMigration migration _ => option_wf migration_meta_wf migration
  end.

Lemma length_dec_digits fuel : ∀ z acc, (length (dec_digits fuel z acc) ≤ fuel + length acc)%nat.
Proof.
  induction fuel as [|fuel IH]; intros z acc; cbn [dec_digits]; [lia|]. case_decide; [cbn; lia|].
  etrans; [apply IH|]. cbn. lia.
Qed.
Lemma length_to_string z : (length (to_string z) ≤ 20)%nat.
Proof. etrans; [apply length_dec_digits|]. cbn. lia. Qed.
Lemma length_hex_16 b : length b = 16%nat → length (Cache.hex b) = 32%nat.
Proof. intros Hb. rewrite CacheSpec.length_hex_name. lia. Qed.
(** Lengths of constant text, of numbers and of names. *)
Ltac text_lengths :=
  rewrite ?length_app, ?length_hex_16 by done;
  repeat match goal with
  | |- context [length (js ?s)] => let n := eval vm_compute in (length (js s)) in change (length (js s)) with n
  | |- context [length (to_string ?z)] =>
      let n := fresh "n" in pose proof (length_to_string z); set (n := length (to_string z)) in *; clearbody n
  end.
Lemma length_outcome o : (length (outcome_name o) ≤ 19)%nat.
Proof. destruct o as [| |[]|]; vm_compute; lia. Qed.
Lemma length_kind k : (length (maintenance_kind_name k) ≤ 17)%nat.
Proof. destruct k; vm_compute; lia. Qed.
Lemma length_job_meta job : option_wf job_meta_wf job → (length (append_job_metadata job) ≤ 120)%nat.
Proof.
  intros Hwf. destruct job as [j|]; [|vm_compute; lia]. destruct (Hwf j eq_refl) as [Hid _]. cbn [append_job_metadata].
  assert (length (log_job_state_name (om_state j)) ≤ 9)%nat by (destruct (om_state j); vm_compute; lia). text_lengths. lia.
Qed.
Lemma length_schedule schedule : (length (schedule_text schedule) ≤ 240)%nat.
Proof.
  destruct schedule as [s|]; [|vm_compute; lia]. cbn [schedule_text].
  assert (length (scrub_run_state_name (sm_run_state s)) ≤ 9)%nat by (destruct (sm_run_state s); vm_compute; lia). text_lengths. lia.
Qed.
Lemma length_migration g : option_wf migration_meta_wf g → (length (migration_text g) ≤ 240)%nat.
Proof.
  intros Hwf. destruct g as [g|]; [|vm_compute; lia]. destruct (Hwf g eq_refl) as [Hid _]. cbn [migration_text].
  assert (length (log_migration_state_name (mm_state g)) ≤ 11)%nat by (destruct (mm_state g); vm_compute; lia). text_lengths. lia.
Qed.
(** The bound on lines is never met. *)
Lemma encode_event_ok e : event_wf e → encode_event e = Ok (event_text e).
Proof.
  intros Hwf. unfold encode_event, ensure. rewrite bool_decide_eq_true_2; [done|].
  unfold MAX_STRUCTURED_OPERATION_EVENT_BYTES, blen. assert (length (event_text e) ≤ 1024)%nat as Hl; [|lia].
  unfold event_text. destruct e as [job o|job k o|s o|g o]; cbn in Hwf; pose proof (length_outcome o).
  - pose proof (length_job_meta _ Hwf). text_lengths. cbn [length]. lia.
  - pose proof (length_job_meta _ Hwf). pose proof (length_kind k). text_lengths. cbn [length]. lia.
  - pose proof (length_schedule s). text_lengths. cbn [length]. lia.
  - pose proof (length_migration _ Hwf). text_lengths. cbn [length]. lia.
Qed.

(** Text up to the first byte outside [P] is determined. *)
Definition stops (P : byte → bool) (r : bytes) : Prop := match r with [] => True | x :: _ => P x = false end.
Lemma token_split P a : ∀ a' r r', forallb P a = true → forallb P a' = true → stops P r → stops P r' →
  a ++ r = a' ++ r' → a = a' ∧ r = r'.
Proof.
  induction a as [|x a IH]; intros [|x' a'] r r' Ha Ha' Hr Hr' Heq; cbn in *; [done| | |].
  - subst r. apply andb_true_iff in Ha' as [Hx _]. cbn in Hr. congruence.
  - subst r'. apply andb_true_iff in Ha as [Hx _]. cbn in Hr'. congruence.
  - apply andb_true_iff in Ha as [_ Ha], Ha' as [_ Ha']. injection Heq as -> Heq.
    destruct (IH a' r r') as [-> ->]; done.
Qed.
Definition unquoted (b : byte) : bool := bool_decide (b ≠ x22).
Lemma unquoted_hex b : forallb unquoted (Cache.hex b) = true.
Proof. induction b as [|x b IH]; [done|]. rewrite CacheSpec.hex_cons. cbn [forallb]. rewrite IH. by destruct x. Qed.
Lemma digits_to_string z : is_u64 z → forallb is_ascii_digit (to_string z) = true.
Proof. intros Hz. by apply ServiceSpec.to_string_digits. Qed.
Lemma to_string_inj z z' : is_u64 z → is_u64 z' → to_string z = to_string z' → z = z'.
Proof. intros Hz Hz' Heq. pose proof (parse_to_string z Hz) as Hp. rewrite Heq, parse_to_string in Hp by done. by injection Hp. Qed.
Lemma hex_inj b b' : Cache.hex b = Cache.hex b' → b = b'.
Proof. intros Heq. pose proof (JobsListSpec.hex_bytes_hex b) as Hb. rewrite Heq, JobsListSpec.hex_bytes_hex in Hb. by injection Hb. Qed.
Lemma u32_u64 z : is_u32 z → is_u64 z.
Proof. unfold in_width. lia. Qed.
Lemma u16_u64 z : is_u16 z → is_u64 z.
Proof. unfold in_width. lia. Qed.
#[local] Hint Resolve u32_u64 u16_u64 : core.

(** Constant text, then a name, a number or an identifier. *)
Lemma name_inj {A} (f : A → bytes) x x' c r r' : (∀ x, forallb unquoted (f x) = true) → Inj (=) (=) f →
  stops unquoted r → stops unquoted r' → c ++ f x ++ r = c ++ f x' ++ r' → x = x' ∧ r = r'.
Proof.
  intros Hf Hi Hr Hr' Heq%app_inv_head. destruct (token_split unquoted (f x) (f x') r r') as [Hx ->]; [done..|].
  split; [|done]. by apply Hi.
Qed.
Lemma number_inj z z' c r r' : is_u64 z → is_u64 z' → stops is_ascii_digit r → stops is_ascii_digit r' →
  c ++ to_string z ++ r = c ++ to_string z' ++ r' → z = z' ∧ r = r'.
Proof.
  intros Hz Hz' Hr Hr' Heq%app_inv_head.
  destruct (token_split is_ascii_digit (to_string z) (to_string z') r r') as [Hx ->]; [by apply digits_to_string..|done|done|done|].
  split; [|done]. by apply to_string_inj.
Qed.
#[local] Instance hex_Inj : Inj (=) (=) Cache.hex.
Proof. intros b b'. apply hex_inj. Qed.
Ltac name_cases := let H := fresh in intros [] []; vm_compute; intros H; (done || discriminate H).
#[local] Instance outcome_Inj : Inj (=) (=) outcome_name.
Proof. intros [| |[]|] [| |[]|]; vm_compute; intros H; (done || discriminate H). Qed.
#[local] Instance kind_Inj : Inj (=) (=) maintenance_kind_name.
Proof. name_cases. Qed.
#[local] Instance job_state_Inj : Inj (=) (=) log_job_state_name.
Proof. name_cases. Qed.
#[local] Instance scrub_state_Inj : Inj (=) (=) scrub_run_state_name.
Proof. name_cases. Qed.
#[local] Instance migration_state_Inj : Inj (=) (=) log_migration_state_name.
Proof. name_cases. Qed.
Lemma unquoted_outcome o : forallb unquoted (outcome_name o) = true.
Proof. by destruct o as [| |[]|]. Qed.
Lemma unquoted_kind k : forallb unquoted (maintenance_kind_name k) = true.
Proof. by destruct k. Qed.
Lemma unquoted_job_state s : forallb unquoted (log_job_state_name s) = true.
Proof. by destruct s. Qed.
Lemma unquoted_scrub_state s : forallb unquoted (scrub_run_state_name s) = true.
Proof. by destruct s. Qed.
Lemma unquoted_migration_state s : forallb unquoted (log_migration_state_name s) = true.
Proof. by destruct s. Qed.
#[local] Hint Resolve unquoted_hex unquoted_outcome unquoted_kind unquoted_job_state unquoted_scrub_state unquoted_migration_state : core.
(** The next name or number of two equal texts. *)
Ltac next_name H E := apply name_inj in H as [E H]; [|auto|apply _|reflexivity|reflexivity].
Ltac next_number H E := apply number_inj in H as [E H]; [|auto|auto|reflexivity|reflexivity].

Lemma job_meta_inj j j' : option_wf job_meta_wf j → option_wf job_meta_wf j' → append_job_metadata j = append_job_metadata j' → j = j'.
Proof.
  intros Hj Hj' H. destruct j as [[[id] s n]|], j' as [[[id'] s' n']|]; [|discriminate H..|done].
  destruct (Hj _ eq_refl) as [_ Hn], (Hj' _ eq_refl) as [_ Hn']. cbn [append_job_metadata om_id om_state om_attempts job_bytes] in *.
  next_name H Eid. next_name H Es. next_number H En. by subst.
Qed.
Lemma schedule_inj s s' : option_wf scrub_meta_wf s → option_wf scrub_meta_wf s' → schedule_text s = schedule_text s' → s = s'.
Proof.
  intros Hs Hs' H. destruct s as [[a b c e f]|], s' as [[a' b' c' e' f']|]; [|discriminate H..|done].
  destruct (Hs _ eq_refl) as (? & ? & ? & ?), (Hs' _ eq_refl) as (? & ? & ? & ?).
  cbn [schedule_text sm_interval_seconds sm_next_due_unix_seconds sm_run_state sm_consecutive_failures sm_recovered_interrupted_runs] in *.
  next_number H Ea. next_number H Eb. next_name H Ec. next_number H Ee. next_number H Ef. by subst.
Qed.
Lemma migration_inj g g' : option_wf migration_meta_wf g → option_wf migration_meta_wf g' → migration_text g = migration_text g' → g = g'.
Proof.
  intros Hg Hg' H. destruct g as [[[a] b c e f]|], g' as [[[a'] b' c' e' f']|]; [|discriminate H..|done].
  destruct (Hg _ eq_refl) as (? & ? & ? & ?), (Hg' _ eq_refl) as (? & ? & ? & ?).
  cbn [migration_text mm_id mm_from_format_version mm_to_format_version mm_state mm_transition_count Migration.mig_bytes] in *.
  next_name H Ea. next_number H Eb. next_number H Ec. next_name H Ee. next_number H Ef. by subst.
Qed.
(** Two events with the same line are the same. *)
Lemma event_text_inj e e' : event_wf e → event_wf e' → event_text e = event_text e' → e = e'.
Proof.
  intros He He' H. unfold event_text in H. apply app_inv_head, app_inv_head in H.
  destruct e as [j o|j k o|s o|g o], e' as [j' o'|j' k' o'|s' o'|g' o']; cbn [event_wf] in He, He'; try discriminate H;
    rewrite <-!app_assoc in H; next_name H Eo.
  - apply app_inv_head, app_inv_tail in H. apply job_meta_inj in H; [|done..]. by subst.
  - next_name H Ek. apply app_inv_head, app_inv_tail in H. apply job_meta_inj in H; [|done..]. by subst.
  - apply app_inv_head, app_inv_tail in H. apply schedule_inj in H; [|done..]. by subst.
  - apply app_inv_head, app_inv_tail in H. apply migration_inj in H; [|done..]. by subst.
Qed.

(** ** Whole lines *)

Definition unbroken (b : byte) : bool := bool_decide (b ≠ x0a).
Lemma digits_unbroken b : forallb is_ascii_digit b = true → forallb unbroken b = true.
Proof. induction b as [|x b IH]; [done|]. cbn. intros [Hx Hb]%andb_true_iff. rewrite (IH Hb), andb_true_r. by destruct x. Qed.
Lemma unbroken_hex b : forallb unbroken (Cache.hex b) = true.
Proof. induction b as [|x b IH]; [done|]. rewrite CacheSpec.hex_cons. cbn [forallb]. rewrite IH. by destruct x. Qed.
Lemma unbroken_number z : is_u64 z → forallb unbroken (to_string z) = true.
Proof. intros Hz. by apply digits_unbroken, digits_to_string. Qed.
Ltac unbroken_text := rewrite ?forallb_app, ?unbroken_hex, ?unbroken_number by auto; reflexivity.
Lemma unbroken_job j : option_wf job_meta_wf j → forallb unbroken (append_job_metadata j) = true.
Proof. intros Hj. destruct j as [j|]; [|done]. destruct (Hj j eq_refl). cbn [append_job_metadata]. destruct (om_state j); unbroken_text. Qed.
Lemma unbroken_schedule s : option_wf scrub_meta_wf s → forallb unbroken (schedule_text s) = true.
Proof. intros Hs. destruct s as [s|]; [|done]. destruct (Hs s eq_refl) as (? & ? & ? & ?). cbn [schedule_text]. destruct (sm_run_state s); unbroken_text. Qed.
Lemma unbroken_migration g : option_wf migration_meta_wf g → forallb unbroken (migration_text g) = true.
Proof. intros Hg. destruct g as [g|]; [|done]. destruct (Hg g eq_refl) as (? & ? & ? & ?). cbn [migration_text]. destruct (mm_state g); unbroken_text. Qed.
(** An event is one line. *)
Lemma event_line e : event_wf e → ∃ body, event_text e = body ++ [x0a] ∧ forallb unbroken body = true.
Proof.
  intros He. unfold event_text. rewrite !app_assoc. eexists. split; [reflexivity|].
  destruct e as [j o|j k o|s o|g o]; cbn [event_wf] in He; rewrite !forallb_app.
  - rewrite (unbroken_job j He). by destruct o as [| |[]|].
  - rewrite (unbroken_job j He). by destruct o as [| |[]|], k.
  - rewrite (unbroken_schedule s He). by destruct o as [| |[]|].
  - rewrite (unbroken_migration g He). by destruct o as [| |[]|].
Qed.
Definition log_text (es : list OperationEvent) : bytes := concat (event_text <$> es).
(** The log determines the events. *)
Lemma log_text_inj es : ∀ es', Forall event_wf es → Forall event_wf es' → log_text es = log_text es' → es = es'.
Proof.
  induction es as [|e es IH]; intros [|e' es'] Hes Hes' Heq; [done| | |].
  - apply Forall_cons in Hes' as [(b & Hb & _)%event_line _]. unfold log_text in Heq. cbn [fmap list_fmap concat] in Heq. rewrite Hb in Heq. by destruct b.
  - apply Forall_cons in Hes as [(b & Hb & _)%event_line _]. unfold log_text in Heq. cbn [fmap list_fmap concat] in Heq. rewrite Hb in Heq. by destruct b.
  - apply Forall_cons in Hes as [He Hes], Hes' as [He' Hes']. unfold log_text in Heq. cbn [fmap list_fmap concat] in Heq.
    destruct (event_line e He) as (b & Hb & Hu), (event_line e' He') as (b' & Hb' & Hu').
    rewrite Hb, Hb', <-!app_assoc in Heq. apply (token_split unbroken) in Heq as [Hbb Heq]; [|done|done|reflexivity|reflexivity].
    injection Heq as Heq. f_equal; [|by apply IH]. apply event_text_inj; [done|done|]. by rewrite Hb, Hb', Hbb.
Qed.

(** ** The file *)

(** Every name space a crash may find has the log; its contents are [synced],
    synchronized, and then [more]. *)
Definition writing (d : Disk) (log : StructuredOperationLog) (synced more : bytes) : Prop :=
  Forall (λ m : Names, m !! lo_path log = Some (lo_file log)) (d_names d :: d_pending d) ∧
  d_inodes d !! lo_file log = Some (mkInode (synced ++ more) synced).
(** The same, with contents [b], all of them synchronized. *)
Definition holding (d : Disk) (log : StructuredOperationLog) (b : bytes) : Prop :=
  Forall (λ m : Names, m !! lo_path log = Some (lo_file log)) (d_names d :: d_pending d) ∧
  d_inodes d !! lo_file log = Some (mkInode b b).
Lemma holding_writing d log b : holding d log b ↔ writing d log b [].
Proof. unfold holding, writing. by rewrite app_nil_r. Qed.
Lemma patch_end (b v : bytes) : patch (Z.to_nat (Format.len b)) v b = b ++ v.
Proof.
  unfold patch, Format.len. rewrite Nat2Z.id, Nat.sub_diag. cbn [zeros replicate]. rewrite app_nil_r.
  unfold put. rewrite firstn_all, drop_ge, app_nil_r by lia. done.
Qed.
(** An accepted append leaves its line synchronized, a failed one at most a part
    of its line. *)
Lemma append_writing e log d s x r log' d' : event_wf e → writing d log s x → log_append e (log, d) = (r, (log', d')) →
  lo_path log' = lo_path log ∧
  if is_ok r then writing d' log' (s ++ x ++ event_text e) []
  else ∃ p, p `prefix_of` event_text e ∧ writing d' log' s (x ++ p).
Proof.
  intros He [Hn Hi]. unfold log_append. rewrite (encode_event_ok e He). unfold st_bind at 1, st_lift.
  unfold st_bind, log_io, st_map_err, append_all. unfold data at 1. rewrite Hi. cbn [fmap option_fmap option_map default i_data].
  destruct (write_at _ _ _ d) as [r1 d1] eqn:Hw. unfold write_at in Hw. pose proof (pop_same d) as Hp.
  destruct (pop_fault d) as [f0 d0]. cbn in Hp.
  assert (∀ v, writing (update_inode (lo_file log) (λ i, mkInode (patch (Z.to_nat (Format.len (s ++ x))) v (i_data i)) (i_synced i)) d0)
    log s (x ++ v)) as Hwr.
  { intros v. unfold writing. cbn. rewrite (same_names _ _ Hp), (same_pending _ _ Hp), (same_inodes _ _ Hp).
    split; [done|]. rewrite list_lookup_alter_eq, Hi. cbn. by rewrite patch_end, app_assoc. }
  case_decide as Hm; [injection Hw as <- <-; cbn [map_err]; intros [= <- <- <-]; split; [done|]; exists []; split; [apply prefix_nil|];
    rewrite app_nil_r; unfold writing; by rewrite (same_names _ _ Hp), (same_pending _ _ Hp), (same_inodes _ _ Hp)|].
  destruct f0 as [f0|]; injection Hw as <- <-; cbn [map_err].
  { intros [= <- <- <-]. split; [done|]. exists (take (f_written f0) (event_text e)). split; [apply prefix_take|apply Hwr]. }
  specialize (Hwr (event_text e)). revert Hwr. generalize (update_inode (lo_file log)
    (λ i, mkInode (patch (Z.to_nat (Format.len (s ++ x))) (event_text e) (i_data i)) (i_synced i)) d0) as d1. intros d1 [Hn1 Hi1].
  unfold sync_file. destruct (io_spec (λ d, (Ok (), update_inode (lo_file log) (λ i, mkInode (i_data i) (i_data i)) d)) d1)
    as [(e2 & d2 & -> & Hs2)|(d2 & Hs2 & ->)]; cbn [map_err]; intros [= <- <- <-]; (split; [done|]); cbn [is_ok].
  - exists (event_text e). split; [done|]. unfold writing. by rewrite (same_names _ _ Hs2), (same_pending _ _ Hs2), (same_inodes _ _ Hs2).
  - unfold writing. cbn. rewrite (same_names _ _ Hs2), (same_pending _ _ Hs2), (same_inodes _ _ Hs2). split; [done|].
    rewrite list_lookup_alter_eq, Hi1. cbn. by rewrite app_nil_r.
Qed.
Lemma open_creates parent path d log d' : log_open parent (Err NotFound) path d = (Ok log, d') →
  d_names d !! path = None → holding d' log [] ∧ lo_path log = path ∧ lo_events_written log = 0.
Proof.
  unfold log_open, log_parent. intros Ho Hnone.
  unfold st_bind at 1, st_lift at 1 in Ho. destruct (ensure _ _) as [u|]; [|done]. cbn [mbind result_bind] in Ho.
  unfold st_bind at 1, st_lift at 1 in Ho. destruct parent as [kind|]; [|done]. cbn [map_err] in Ho.
  unfold st_bind at 1, st_lift at 1 in Ho. destruct (ensure _ _) as [u1|]; [|done].
  unfold st_bind at 1, st_lift at 1 in Ho.
  unfold st_bind, log_io, st_map_err, st_ret in Ho.
  destruct (Generation.open_or_create path d) as [[n|] d1] eqn:H1; cbn [map_err] in Ho; [|done].
  destruct (sync_file n d1) as [[u2|] d2] eqn:H2; cbn [map_err] in Ho; [|done].
  destruct (sync_all_directory (p_dir path) d2) as [[u3|] d3] eqn:H3; cbn [map_err] in Ho; [|done]. injection Ho as <- <-.
  apply io_ok in H1 as (d0 & Hs0 & H1). rewrite (same_names _ _ Hs0), Hnone in H1. injection H1 as <- <-.
  destruct u2. apply (sync_ok _ []) in H2 as [Hi Hn]; [|cbn; by rewrite lookup_app_r, Nat.sub_diag].
  assert (d_names d2 !! path = Some (length (d_inodes d0))) as Hp by (rewrite Hn; cbn; by rewrite lookup_insert_eq).
  pose proof (LeaseSpec.keeping_sync_directory path (p_dir path) d2 _ Hp) as Hp3. rewrite H3 in Hp3. cbn in Hp3.
  destruct u3. apply (sync_directory_ok path d2 d3 (length (d_inodes d0)) []) in H3 as (n & Hall & Hin); [|done|done].
  apply Forall_cons in Hall as Hhd. destruct Hhd as [Hhd _]. assert (n = length (d_inodes d0)) as -> by congruence. done.
Qed.

(** Appends each event, as the sink does; whether each was accepted. *)
Fixpoint append_events (es : list OperationEvent) (x : StructuredOperationLog * Disk)
    : list (OperationEvent * bool) * (StructuredOperationLog * Disk) :=
  match es with
  | [] => ([], x)
  | e :: es =>
      let '(r, x) := log_append e x in
      let '(history, x) := append_events es x in
      ((e, is_ok r) :: history, x)
  end.
(** What an append left: its line, or a part of it when it failed. *)
Definition left_by (a : OperationEvent * bool) (p : bytes) : Prop :=
  if a.2 then p = event_text a.1 else p `prefix_of` event_text a.1.
Lemma append_events_writing es : ∀ log d s x history log' d', Forall event_wf es → writing d log s x →
  append_events es (log, d) = (history, (log', d')) →
  history.*1 = es ∧ lo_path log' = lo_path log ∧ ∃ s' x', writing d' log' s' x' ∧ s `prefix_of` s' ∧
    (∀ h1 e h2, history = h1 ++ (e, true) :: h2 →
       ∃ ps, Forall2 left_by h1 ps ∧ (s ++ x ++ concat ps ++ event_text e) `prefix_of` s') ∧
    (x = [] → Forall (λ a, a.2 = true) history → x' = [] ∧ s' = s ++ log_text es).
Proof.
  induction es as [|e es IH]; intros log d s x history log' d' Hes Hw Ha; cbn [append_events] in Ha.
  { injection Ha as <- <- <-. split; [done|]. split; [done|]. exists s, x. split; [done|]. split; [done|].
    split; [by intros [] ? ?|]. intros -> _. unfold log_text. cbn. by rewrite app_nil_r. }
  apply Forall_cons in Hes as [He Hes]. destruct (log_append e (log, d)) as [r [log1 d1]] eqn:H1.
  destruct (append_events es (log1, d1)) as [h [log2 d2]] eqn:H2. injection Ha as <- <- <-.
  destruct (append_writing _ _ _ _ _ _ _ _ He Hw H1) as [Hp Hr]. destruct (is_ok r).
  - destruct (IH _ _ _ _ _ _ _ Hes Hr H2) as (E & Hp' & s' & x' & Hw' & Hpre & Hall & Hex). cbn. rewrite E, Hp', Hp.
    split; [done|]. split; [done|]. exists s', x'. split; [done|]. split; [etrans; [|exact Hpre]; by apply prefix_app_r|]. split.
    + intros [|a h1] e0 h2 Hh; cbn in Hh; injection Hh as <- Hh.
      * exists []. split; [constructor|exact Hpre].
      * destruct (Hall _ _ _ Hh) as (ps & Hps & Hpp). exists (event_text e :: ps). split; [by constructor|].
        cbn [concat app] in *. rewrite <-!app_assoc in Hpp. by rewrite <-?app_assoc.
    + intros -> Hf%Forall_cons. destruct Hf as [_ Hf]. destruct (Hex eq_refl Hf) as [-> ->]. split; [done|].
      unfold log_text. rewrite app_nil_l. rewrite <-app_assoc. reflexivity.
  - destruct Hr as (p & Hpp & Hr). destruct (IH _ _ _ _ _ _ _ Hes Hr H2) as (E & Hp' & s' & x' & Hw' & Hpre & Hall & _). cbn.
    rewrite E, Hp', Hp. split; [done|]. split; [done|]. exists s', x'. split; [done|]. split; [done|]. split.
    + intros [|a h1] e0 h2 Hh; cbn in Hh; [discriminate Hh|]. injection Hh as <- Hh.
      destruct (Hall _ _ _ Hh) as (ps & Hps & Hq). exists (p :: ps). split; [by constructor|].
      cbn [concat]. rewrite <-!app_assoc in Hq. by rewrite <-?app_assoc.
    + intros _ Hf%Forall_cons. by destruct Hf.
Qed.
Lemma writing_crash d log s x d2 : writing d log s x → crash d d2 →
  d_names d2 !! lo_path log = Some (lo_file log) ∧ s `prefix_of` data d2 (lo_file log).
Proof.
  intros [Hall Hi] Hc. destruct Hc as [d names inodes faults Hn Hsurv]. rewrite Forall_forall in Hall. split; [by apply Hall|].
  destruct (Forall2_lookup_l _ _ _ _ _ Hsurv Hi) as (i' & Hi' & _ & _ & Hpre & _). unfold data. cbn. rewrite Hi'. cbn.
  apply Hpre; [by apply prefix_app_r|done].
Qed.

(** C23. The log keeps the line of every event it accepted. From a log whose
    contents are synchronized, append any events one after the other, any of
    the appends failing: no line exceeds the bound, so only the file system
    refuses one. After any crash, for each accepted event, the file starts with
    what it held before, then what each earlier append left, then the line of
    the event; an earlier append left its line when it was accepted, and
    otherwise some first part of it, which nothing separates from the line that
    follows. When no append failed, the file is what it held before and then
    exactly one line per event, and no other events have these lines. *)
Theorem log_keeps_events es log d b history log' d' d2 : Forall event_wf es → holding d log b →
  append_events es (log, d) = (history, (log', d')) → crash d' d2 →
  history.*1 = es ∧
  (∀ h1 e h2, history = h1 ++ (e, true) :: h2 → ∃ n ps, d_names d2 !! lo_path log = Some n ∧ Forall2 left_by h1 ps ∧
     (b ++ concat ps ++ event_text e) `prefix_of` data d2 n) ∧
  (Forall (λ a, a.2 = true) history → durable_file d2 (lo_path log) (b ++ log_text es)) ∧
  Forall (λ e, encode_event e = Ok (event_text e) ∧ ∃ body, event_text e = body ++ [x0a] ∧ forallb unbroken body = true) es ∧
  ∀ es', Forall event_wf es' → log_text es' = log_text es → es' = es.
Proof.
  intros Hes Hh%holding_writing Ha Hc.
  destruct (append_events_writing _ _ _ _ _ _ _ _ Hes Hh Ha) as (E & Hp & s' & x' & Hw & _ & Hall & Hex).
  destruct (writing_crash _ _ _ _ _ Hw Hc) as [Hn Hpre]. rewrite Hp in Hn. split_and!.
  - done.
  - intros h1 e h2 Hh1. destruct (Hall _ _ _ Hh1) as (ps & Hps & Hpp). exists (lo_file log'), ps. split_and!; [done|done|by etrans].
  - intros Hf. destruct (Hex eq_refl Hf) as [-> ->]. apply holding_writing in Hw. apply (durable_file_crash d'); [done|].
    exists (lo_file log'). by rewrite <-Hp.
  - eapply Forall_impl; [exact Hes|]. intros e He. split; [by apply encode_event_ok|by apply event_line].
  - intros es' Hes' Heq. by apply log_text_inj.
Qed.

(** ** Runs *)

Definition demo_path : Path := mkPath (b_ "state") (b_ "operations") None.
Definition demo_open := log_open (Ok NodeDirectory) (Err NotFound) demo_path (mkDisk [] ∅ [] []).
Definition demo_log : StructuredOperationLog := match demo_open.1 with Ok log => log | Err _ => mkLog demo_path 0 0 end.
Definition demo_event (n : Z) : OperationEvent :=
  EvJob (Some (mkJobMetadata (mkJobId (replicate 16 x1a)) Failed n)) (EvFailed EvHandlerError).
Definition demo_disk (faults : list (option Fault)) : Disk := mkDisk (d_inodes demo_open.2) (d_names demo_open.2) [] faults.
Definition demo_appended (faults : list (option Fault)) := append_events [demo_event 7; demo_event 8] (demo_log, demo_disk faults).
Lemma demo_event_wf n : is_u32 n → event_wf (demo_event n).
Proof. by intros Hn j [= <-]. Qed.
(** Both events are accepted; with a write that stops inside the first line,
    only the second. *)
Lemma log_keeps_events_witness :
  (demo_appended []).1 = [(demo_event 7, true); (demo_event 8, true)] ∧
  (∀ d2, crash (demo_appended []).2.2 d2 → durable_file d2 demo_path (log_text [demo_event 7; demo_event 8])) ∧
  (demo_appended [Some (mkFault OtherIo 20)]).1 = [(demo_event 7, false); (demo_event 8, true)].
Proof.
  assert ((demo_appended []).1 = [(demo_event 7, true); (demo_event 8, true)]) as Hok by (vm_compute; reflexivity).
  split; [exact Hok|]. split; [|vm_compute; reflexivity]. intros d2 Hc.
  destruct (log_keeps_events [demo_event 7; demo_event 8] demo_log (demo_disk []) [] (demo_appended []).1 (demo_appended []).2.1
    (demo_appended []).2.2 d2) as (_ & _ & Hd & _).
  - repeat (apply Forall_cons; split); [apply demo_event_wf; split; [discriminate|reflexivity]..|apply Forall_nil; exact I].
  - split; [repeat constructor|vm_compute; reflexivity].
  - unfold demo_appended. destruct (append_events _ _) as [r [l d]]. reflexivity.
  - exact Hc.
  - apply Hd. rewrite Hok. repeat constructor.
Defined.

(** A torn append spoils the next line. After an append that stopped inside its
    line, the next event is accepted and reported as durable, but its text
    follows the fragment on one line: no whole line of the file is that of the
    event. *)
Definition torn : StructuredOperationLog * Disk :=
  (log_append (demo_event 7) (demo_log, demo_disk [Some (mkFault OtherIo 20)])).2.
Theorem torn_append_spoils_line :
  is_ok (log_append (demo_event 8) torn).1 = true ∧
  ∀ body, event_text (demo_event 8) = body ++ [x0a] →
    body ∉ split x0a (data (log_append (demo_event 8) torn).2.2 (lo_file demo_log)).
Proof.
  split; [vm_compute; reflexivity|]. intros body Hb.
  assert (body = take (length (event_text (demo_event 8)) - 1) (event_text (demo_event 8))) as ->
    by (rewrite Hb, length_app, Nat.add_sub, take_app_length; done).
  apply (bool_decide_unpack _). vm_compute. exact I.
Qed.
End OperationLogSpec.
