(* ===== verification/Lifecycle.v ===== *)
(** * Starting and stopping the daemon: [reflink-forest-daemon/src/lib.rs], [production.rs]

    The private directories, the instance locks, the control socket, the
    startup that recovers durable state before the socket is bound, the end of a
    service, and the start of the production service. Module [LifecycleSpec]
    proves that daemons exclude each other and that the socket is bound last. *)

From Stdlib Require Import ZArith Lia Strings.Byte Strings.String.
From stdpp Require Import base tactics list gmap strings relations.
From S2P Require Import Prelude Order Core Format Chunk Disk Git Reader Generation Jobs Scrub Migration Service Codec CatalogCodec Catalog Store RocksCatalog Backup Btrfs BtrfsSpec.
Import Core CatalogCodec Chunk Disk Git Reader Generation Jobs Service Btrfs.

#[local] Open Scope Z_scope.
#[local] Existing Instance RocksCatalog.RocksDbCatalog_Catalog.

Module Lifecycle.

(** ** The host *)

Inductive FileType := FtFile | FtDirectory | FtSymlink (target : bytes) | FtSocket.
#[export] Instance FileType_eq_dec : EqDecision FileType.
Proof. solve_decision. Defined.
Record Node := mkNode { nd_type : FileType; nd_uid : Z; nd_mode : Z }.
Abbreviation Nodes := (gmap bytes Node).
(** Directory entries by path, the files that are locked, by their paths, and
    the calls that fail. *)
Record Host := mkHost { ho_nodes : Nodes; ho_locks : gset bytes; ho_faults : list (option IoErrorKind) }.
Abbreviation HIO := (ST Host IoErrorKind).
Definition host_io {A} (act : HIO A) : HIO A := λ h,
  match ho_faults h with
  | [] => act h
  | Some e :: fs => (Err e, mkHost (ho_nodes h) (ho_locks h) fs)
  | None :: fs => act (mkHost (ho_nodes h) (ho_locks h) fs)
  end.
Definition set_nodes (m : Nodes) (h : Host) : Host := mkHost m (ho_locks h) (ho_faults h).
Definition set_locks (l : gset bytes) (h : Host) : Host := mkHost (ho_nodes h) l (ho_faults h).

(** The target of the link at [p]. *)
Definition link (p : bytes) (h : Host) : option bytes :=
  match ho_nodes h !! p with Some (mkNode (FtSymlink t) _ _) => Some t | _ => None end.
(** Links are followed as often as the kernel follows them. *)
Fixpoint follow (fuel : nat) (p : bytes) (h : Host) : option bytes :=
  match link p h with
  | None => Some p
  | Some t => match fuel with 0%nat => None | S fuel => follow fuel t h end
  end.
Definition MAXSYMLINKS : nat := 40.
Definition resolve : bytes → Host → option bytes := follow MAXSYMLINKS.
Definition node_at (p : bytes) (h : Host) : option Node := q ← resolve p h; ho_nodes h !! q.

Section Calls.
(** The user of the process, and the mode of new directories and sockets. *)
Context (uid umask_mode : Z).

Definition symlink_metadata (p : bytes) : HIO Node := host_io (λ h, (ok_or (ho_nodes h !! p) NotFound, h)).
(** The parents of the directory are taken to be there. *)
Definition mkdir_all (p : bytes) : HIO unit := host_io (λ h,
  match ho_nodes h !! p with
  | None => (Ok (), set_nodes (<[p := mkNode FtDirectory uid umask_mode]> (ho_nodes h)) h)
  | Some _ => (ensure (bool_decide (nd_type <$> node_at p h = Some FtDirectory)) AlreadyExists, h)
  end).
Definition chmod (mode : Z) (n : Node) : Node := mkNode (nd_type n) (nd_uid n) mode.
Definition set_permissions (p : bytes) (mode : Z) : HIO unit := host_io (λ h,
  match resolve p h with
  | None => (Err OtherIo, h)
  | Some q => (_ ← ok_or (ho_nodes h !! q) NotFound; Ok (), set_nodes (alter (chmod mode) q (ho_nodes h)) h)
  end).
Definition socket_exists (p : bytes) (h : Host) : bool := bool_decide (is_Some (node_at p h)).
Definition unlink (p : bytes) : HIO unit := host_io (λ h,
  match ho_nodes h !! p with
  | None => (Err NotFound, h)
  | Some n => if decide (nd_type n = FtDirectory) then (Err OtherIo, h)
              else (Ok (), set_nodes (delete p (ho_nodes h)) h)
  end).
Definition listen (p : bytes) : HIO unit := host_io (λ h,
  match ho_nodes h !! p with
  | Some _ => (Err OtherIo, h)
  | None => (Ok (), set_nodes (<[p := mkNode FtSocket uid umask_mode]> (ho_nodes h)) h)
  end).

(** ** Directories *)

Record DaemonConfig := mkConfig { dc_runtime_dir : bytes; dc_state_root : bytes }.
Abbreviation CIO := (ST Host DaemonConfigError).
Definition validate_owned_private_directory (p : bytes) : CIO unit := λ h,
  match symlink_metadata p h with
  | (Err NotFound, h) => (Err (MissingDirectory p), h)
  | (Err e, h) => (Err (CfIo e), h)
  | (Ok n, h) =>
      (_ ← ensure (match nd_type n with FtSymlink _ => false | _ => true end) (SymlinkDirectory p);
       _ ← ensure (bool_decide (nd_type n = FtDirectory)) (NotDirectory p);
       _ ← ensure (bool_decide (nd_uid n = uid)) (WrongOwner p uid (nd_uid n));
       ensure (bool_decide (Z.land (nd_mode n) 63 = 0) && bool_decide (Z.land (nd_mode n) 448 = 448))
              (UnsafePermissions p (nd_mode n)), h)
  end.
Definition create_owned_private_directory (p : bytes) : CIO unit := λ h,
  match symlink_metadata p h with
  | (Ok _, h) => validate_owned_private_directory p h
  | (Err NotFound, h) =>
      (_ ⇐ st_map_err CfIo (mkdir_all p);
       _ ⇐ st_map_err CfIo (set_permissions p 448);
       validate_owned_private_directory p) h
  | (Err e, h) => (Err (CfIo e), h)
  end.
Definition config_validate (c : DaemonConfig) : CIO unit :=
  _ ⇐ validate_owned_private_directory (dc_runtime_dir c);
  validate_owned_private_directory (dc_state_root c).
Definition prepare (c : DaemonConfig) : CIO unit :=
  _ ⇐ create_owned_private_directory (dc_runtime_dir c);
  _ ⇐ create_owned_private_directory (dc_state_root c);
  config_validate c.

(** ** Locks *)

(** [InstanceLock] holds the locked file. *)
Record InstanceLock := mkLock { lk_file : bytes }.
(** The file is created if it is not there, also behind a link. *)
Definition open_lock_file (p : bytes) : HIO bytes := host_io (λ h,
  match resolve p h with
  | None => (Err OtherIo, h)
  | Some q =>
      match ho_nodes h !! q with
      | None => (Ok q, set_nodes (<[q := mkNode FtFile uid 384]> (ho_nodes h)) h)
      | Some n => (_ ← ensure (bool_decide (nd_type n = FtFile)) OtherIo; Ok q, h)
      end
  end).
(** [flock] with [LOCK_EX | LOCK_NB]; [None] stands for [WouldBlock]. *)
Definition flock (q : bytes) : HIO (option InstanceLock) := host_io (λ h,
  if decide (q ∈ ho_locks h) then (Ok None, h) else (Ok (Some (mkLock q)), set_locks ({[q]} ∪ ho_locks h) h)).
Definition acquire_lock (p : bytes) : ST Host DaemonError InstanceLock :=
  file ⇐ st_map_err DaIo (open_lock_file p);
  lock ⇐ st_map_err DaIo (flock file);
  st_lift (ok_or lock AlreadyRunning).
Definition release (l : InstanceLock) (h : Host) : Host := set_locks (ho_locks h ∖ {[lk_file l]}) h.
(** A lock is dropped when what follows fails. *)
Definition guarded {E A} (l : InstanceLock) (act : ST Host E A) : ST Host E A := λ h,
  match act h with
  | (Ok a, h) => (Ok a, h)
  | (Err e, h) => (Err e, release l h)
  end.

(** ** The socket *)

Definition daemon_lock (c : DaemonConfig) : bytes := child (dc_runtime_dir c) (b_ "daemon.lock").
Definition socket_path (c : DaemonConfig) : bytes := child (dc_runtime_dir c) (b_ "daemon.sock").
Definition instance_lock (c : DaemonConfig) : bytes := child (dc_state_root c) (b_ "instance.lock").
Abbreviation DIO := (ST Host DaemonError).
Definition bind_socket (c : DaemonConfig) : DIO unit :=
  present ⇐ st_get (socket_exists (socket_path c));
  _ ⇐ (if present : bool then
         n ⇐ st_map_err DaIo (symlink_metadata (socket_path c));
         _ ⇐ st_lift (ensure (bool_decide (nd_type n = FtSocket)) InvalidSocketPath);
         st_map_err DaIo (unlink (socket_path c))
       else st_ret ());
  _ ⇐ st_map_err DaIo (listen (socket_path c));
  st_map_err DaIo (set_permissions (socket_path c) 384).
Definition daemon_bind (c : DaemonConfig) : DIO InstanceLock :=
  _ ⇐ st_map_err DaIo (mkdir_all (dc_runtime_dir c));
  _ ⇐ st_map_err DaIo (set_permissions (dc_runtime_dir c) 448);
  lock ⇐ acquire_lock (daemon_lock c);
  guarded lock (_ ⇐ bind_socket c; st_ret lock).
(** [peer]: the answer of [getsockopt(SO_PEERCRED)], the length it wrote and
    the user. *)
Definition UCRED_LEN : Z := 12.
Definition ensure_same_uid (peer : result IoErrorKind (Z * Z)) : result DaemonError unit :=
  '(length, peer_uid) ← map_err DaIo peer;
  ensure (bool_decide (length = UCRED_LEN) && bool_decide (peer_uid = uid)) UnauthorizedPeer.

(** ** Startup *)

(** The host's entries and locks, and the disk with the durable state. *)
Abbreviation Site := (Host * Disk)%type.
Abbreviation LIO := (ST Site DaemonServiceError).
Definition on_host {E A} (f : E → DaemonServiceError) (act : ST Host E A) : LIO A := λ x,
  let '(r, h) := act x.1 in (map_err f r, (h, x.2)).
Definition on_disk {A} (act : ST Disk DaemonServiceError A) : LIO A := λ x,
  let '(r, d) := act x.2 in (r, (x.1, d)).
(** Names drawn for files, whether the directory of jobs was absent, and the clock. *)
Record StartupDraws := mkStartupDraws {
  sd_requeue : JobId → list Z; sd_created : bool; sd_now : result Scrub.ScrubScheduleError Z; sd_scrub : list Z }.
Definition jobs_dir (c : DaemonConfig) : bytes := child (dc_state_root c) (b_ "jobs").
Definition recover (c : DaemonConfig) (w : StartupDraws) : ST Disk DaemonServiceError DaemonService :=
  recovered ⇐ st_map_err DsJob (open_with_recovery (jobs_dir c) (sd_requeue w) (sd_created w) (dc_state_root c));
  now ⇐ st_lift (map_err DsScrub (sd_now w));
  scrubs ⇐ st_map_err DsScrub (Scrub.open (dc_state_root c) (sd_scrub w) now);
  migrations ⇐ st_map_err DsMigration (Migration.open (dc_state_root c) Format.FORMAT_VERSION);
  st_ret (mkService scrubs migrations recovered 0 0).
Record DaemonServiceStartup := mkStartup { su_config : DaemonConfig; su_service : DaemonService; su_store_lock : InstanceLock }.
(** A [DaemonService] that runs, with its socket and its locks. *)
Record Running := mkRunning {
  ru_config : DaemonConfig; ru_service : DaemonService; ru_daemon_lock : InstanceLock; ru_store_lock : InstanceLock }.
(** The lock of the state root is dropped when what follows fails. *)
Definition guarded_site {E A} (l : InstanceLock) (act : ST Site E A) : ST Site E A := λ x,
  match act x with
  | (Ok a, x) => (Ok a, x)
  | (Err e, (h, d)) => (Err e, (release l h, d))
  end.
Definition acquire (c : DaemonConfig) (w : StartupDraws) : LIO DaemonServiceStartup :=
  _ ⇐ on_host DsConfig (prepare c);
  lock ⇐ on_host (λ e, match e with AlreadyRunning => StoreAlreadyInUse (dc_state_root c) | e => DsDaemon e end)
           (acquire_lock (instance_lock c));
  guarded_site lock (s ⇐ on_disk (recover c w); st_ret (mkStartup c s lock)).
(** [DaemonServiceStartup::bind] consumes the startup, with its lock. *)
Definition bind (s : DaemonServiceStartup) : LIO Running :=
  guarded_site (su_store_lock s)
    (lock ⇐ on_host DsDaemon (daemon_bind (su_config s));
     st_ret (mkRunning (su_config s) (su_service s) lock (su_store_lock s))).
Definition start_service (c : DaemonConfig) (w : StartupDraws) : LIO Running :=
  s ⇐ acquire c w;
  bind s.
(** The end of a service: the socket goes, then the locks. *)
Definition drop_service (r : Running) (h : Host) : Host :=
  release (ru_store_lock r) (release (ru_daemon_lock r) (unlink (socket_path (ru_config r)) h).2).

(** ** The production service *)

Record ProductionDaemonConfig := mkProduction { pc_daemon : DaemonConfig; pc_mount_root : PathBuf; pc_catalog_root : PathBuf }.
Inductive ProductionDaemonServiceError :=
| PsDaemon (e : DaemonServiceError)
| PsBtrfs (e : BtrfsError)
| InvalidCatalogRoot (p : PathBuf)
| InvalidColdTierSource (p : PathBuf)
| CatalogOpen (e : IoErrorKind + string)
| PsCatalog (e : CatalogError)
| PsStore (e : StoreError)
| PsBackup (e : Backup.BackupError)
| PsObjectLocationRebuildInProgress.
Record ProductionStartup := mkProductionStartup {
  ps_layout : NativeLayout; ps_clone_domain : CloneDomainProbe; ps_current_generation : option Z }.
(** The database engine of the catalog. *)
Context {DB : Type} `{!RocksCatalog.Engine DB}.
Record ProductionDaemonService := mkProductionService {
  pd_daemon : Running; pd_catalog : DB; pd_catalog_root : PathBuf; pd_startup : ProductionStartup }.
Definition native_preflight (mount_root : PathBuf) (nonce : Z) : Prog (NativeLayout * CloneDomainProbe) :=
  (_ ↤ verify_btrfs_mount mount_root;
   layout ↤ native_layout mount_root;
   clone_domain ↤ probe_clone_domain (l_cache layout) (l_staging layout) nonce;
   give (layout, clone_domain)).

(** What the mounted file system answers, and what opening a database gives. *)
Context (metadata : PathBuf → result IoErrorKind Btrfs.FileType) (canonical : PathBuf → result IoErrorKind PathBuf).
Context (open_existing : PathBuf → result string DB).
Definition checked_catalog_root (layout : NativeLayout) (configured : PathBuf) : result ProductionDaemonServiceError PathBuf :=
  type ← map_err (CatalogOpen ∘ inl) (metadata configured);
  _ ← ensure (bool_decide (type = Btrfs.Directory)) (InvalidCatalogRoot configured);
  mount_root ← map_err (CatalogOpen ∘ inl) (canonical (l_mount_root layout));
  catalog_root ← map_err (CatalogOpen ∘ inl) (canonical configured);
  _ ← ensure (path_starts_with catalog_root mount_root) (InvalidCatalogRoot configured);
  Ok catalog_root.
Definition reconcile_catalog_startup (db : DB) : result ProductionDaemonServiceError (option Z) :=
  _ ← map_err PsCatalog (RocksCatalog.validate db);
  state ← map_err PsCatalog (RocksCatalog.read_object_location_rebuild_state db);
  _ ← ensure (bool_decide (state ≠ InProgress)) PsObjectLocationRebuildInProgress;
  Ok (Catalog.current_generation db).
(** [preflight]: the answer of the preflight that is passed in. *)
Definition production_checks (c : ProductionDaemonConfig) (preflight : PathBuf → BResult (NativeLayout * CloneDomainProbe))
    : result ProductionDaemonServiceError (DB * PathBuf * ProductionStartup) :=
  '(layout, clone_domain) ← map_err PsBtrfs (preflight (pc_mount_root c));
  catalog_root ← checked_catalog_root layout (pc_catalog_root c);
  catalog ← map_err (CatalogOpen ∘ inr) (open_existing catalog_root);
  current_generation ← reconcile_catalog_startup catalog;
  Ok (catalog, catalog_root, mkProductionStartup layout clone_domain current_generation).
Definition start_with_preflight (c : ProductionDaemonConfig) (w : StartupDraws)
    (preflight : PathBuf → BResult (NativeLayout * CloneDomainProbe))
    : ST Site ProductionDaemonServiceError ProductionDaemonService :=
  startup ⇐ st_map_err PsDaemon (acquire (pc_daemon c) w);
  checked ⇐ guarded_site (su_store_lock startup) (st_lift (production_checks c preflight));
  daemon ⇐ st_map_err PsDaemon (bind startup);
  st_ret (mkProductionService daemon checked.1.1 checked.1.2 checked.2).
Definition start_production (host : list BtrfsSpec.Event → ∀ call, answer call) (nonce : Z) (c : ProductionDaemonConfig)
    (w : StartupDraws) : ST Site ProductionDaemonServiceError ProductionDaemonService :=
  start_with_preflight c w (λ root, (BtrfsSpec.play host [] (native_preflight root nonce)).2).

(** The root of a checkpoint must hold the catalog of the service. *)
Definition checked_cold_tier_source (s : ProductionDaemonService) (source catalog : PathBuf)
    : result ProductionDaemonServiceError PathBuf :=
  type ← map_err (λ _, InvalidColdTierSource source) (metadata source);
  _ ← ensure (bool_decide (type = Btrfs.Directory)) (InvalidColdTierSource source);
  source ← map_err (λ _, InvalidColdTierSource source) (canonical source);
  type ← map_err (λ _, InvalidColdTierSource source) (metadata (source ++ catalog));
  _ ← ensure (bool_decide (type = Btrfs.Directory)) (InvalidColdTierSource source);
  catalog ← map_err (λ _, InvalidColdTierSource source) (canonical (source ++ catalog));
  _ ← ensure (bool_decide (catalog = pd_catalog_root s)) (InvalidColdTierSource source);
  Ok source.
End Calls.
End Lifecycle.

(** * What startup guarantees *)

Module LifecycleSpec.
Import Lifecycle.

Section Fleet.
Context (uid umask_mode : Z).

(** ** What calls keep *)

Definition private (p : bytes) (h : Host) : Prop :=
  ∃ mode, ho_nodes h !! p = Some (mkNode FtDirectory uid mode) ∧ Z.land mode 63 = 0 ∧ Z.land mode 448 = 448.
Definition serving (p : bytes) (h : Host) : Prop := ho_nodes h !! p = Some (mkNode FtSocket uid 384).
Definition socket_at (p : bytes) (h : Host) : Prop := nd_type <$> ho_nodes h !! p = Some FtSocket.
(** Links and private directories stay, and so do the sockets other than that
    at [s]. *)
Record kept (s : option bytes) (h h' : Host) : Prop := mkKept {
  kept_link p : link p h' = link p h;
  kept_private p : private p h → private p h';
  kept_serving p : s ≠ Some p → serving p h → serving p h';
  kept_socket p : s ≠ Some p → socket_at p h' → socket_at p h }.
#[local] Instance kept_preorder s : PreOrder (kept s).
Proof.
  split; [by intros h; constructor; auto|]. intros h h1 h2 [L P S K] [L' P' S' K']. constructor; auto.
  intros p. by rewrite L', L.
Qed.
Lemma kept_any s h h' : kept None h h' → kept s h h'.
Proof. intros [L P S K]. constructor; auto. Qed.
(** The same entries. *)
Lemma entries_kept s h h' : ho_nodes h' = ho_nodes h → kept s h h'.
Proof. intros E. constructor; unfold private, serving, socket_at, link; rewrite E; auto. Qed.
(** A new entry that is not a link. *)
Lemma kept_insert s p n h : ho_nodes h !! p = None → (∀ t, nd_type n ≠ FtSymlink t) → nd_type n ≠ FtSocket ∨ s = Some p →
  kept s h (set_nodes (<[p := n]> (ho_nodes h)) h).
Proof.
  intros Hp Hl Hs. constructor; unfold private, serving, socket_at, link; cbn; intros q.
  - destruct (decide (p = q)) as [->|]; [|by rewrite lookup_insert_ne]. rewrite lookup_insert_eq, Hp.
    destruct n as [[] ??]; cbn in *; try done. by destruct (Hl target).
  - intros (m & Hm & ?). exists m. rewrite lookup_insert_ne by congruence. done.
  - intros _ Hq. by rewrite lookup_insert_ne by congruence.
  - destruct (decide (p = q)) as [->|]; [|by rewrite lookup_insert_ne]. rewrite lookup_insert_eq. cbn.
    destruct Hs as [Hs| ->]; congruence.
Qed.
(** A new mode. *)
Lemma kept_chmod s p mode h : (nd_type <$> ho_nodes h !! p = Some FtDirectory ∧ mode = 448) ∨ s = Some p ∧ socket_at p h →
  kept s h (set_nodes (alter (chmod mode) p (ho_nodes h)) h).
Proof.
  intros Hc. constructor; unfold private, serving, socket_at, link; cbn; intros q;
    (destruct (decide (p = q)) as [->|]; [|by rewrite lookup_alter_ne]); rewrite lookup_alter_eq.
  - destruct (ho_nodes h !! q) as [[]|]; [|done]. by destruct nd_type.
  - intros (m & Hm & ?). unfold socket_at in Hc. rewrite Hm in *. cbn in *.
    destruct Hc as [[_ ->]|[_ Hc]]; [|done]. by exists 448.
  - intros Hs Hq. rewrite Hq in Hc. cbn in Hc. destruct Hc as [[Hc _]|[Hc _]]; [done|congruence].
  - intros _. by destruct (ho_nodes h !! q).
Qed.
Lemma kept_unlink s p h : s = Some p → link p h = None → kept s h (unlink p h).2.
Proof.
  intros -> Hl. unfold unlink, host_io.
  assert (∀ h0, ho_nodes h0 = ho_nodes h → kept (Some p) h
    (match ho_nodes h0 !! p with
     | None => (Err NotFound, h0)
     | Some n => if decide (nd_type n = FtDirectory) then (Err OtherIo, h0) else (Ok (), set_nodes (delete p (ho_nodes h0)) h0)
     end : result IoErrorKind unit * Host).2) as Hk.
  { intros h0 E. destruct (ho_nodes h0 !! p) as [n|] eqn:Hn; [|by apply entries_kept]. case_decide as Hd; [by apply entries_kept|].
    constructor; unfold private, serving, socket_at, link; cbn; rewrite E in *; intros q;
      (destruct (decide (p = q)) as [->|]; [|by rewrite lookup_delete_ne]); rewrite lookup_delete_eq.
    - by unfold link in Hl.
    - intros (m & Hm & _). rewrite Hn in Hm. injection Hm as ->. done.
    - done.
    - done. }
  destruct (ho_faults h) as [|[e|] fs]; [by apply Hk|by apply entries_kept|by apply (Hk (mkHost _ _ _))].
Qed.

(** Links decide what paths resolve to. *)
Lemma resolve_kept s h h' p : kept s h h' → resolve p h' = resolve p h.
Proof.
  intros K. unfold resolve. generalize MAXSYMLINKS. intros n. revert p. induction n as [|n IH]; intros p; cbn;
    rewrite (kept_link _ _ _ K); destruct (link p h); auto.
Qed.
Lemma resolve_plain p h : link p h = None → resolve p h = Some p.
Proof. intros Hl. unfold resolve, MAXSYMLINKS. cbn. by rewrite Hl. Qed.

(** ** Programs *)

(** The entries change as in [kept] and the locks stay. *)
Definition still s h h' : Prop := kept s h h' ∧ ho_locks h' = ho_locks h.
#[local] Instance still_preorder s : PreOrder (still s).
Proof. split; [by intros h; split|]. intros h h1 h2 [K L] [K' L']. split; [by etrans|by rewrite L', L]. Qed.
Lemma still_any s h h' : still None h h' → still s h h'.
Proof. intros [K L]. split; [by apply kept_any|done]. Qed.
Lemma bind_keeps {E A B} (R : Host → Host → Prop) `{!PreOrder R} (m : ST Host E A) (k : A → ST Host E B) h :
  R h (m h).2 → (∀ a h1, m h = (Ok a, h1) → R h1 (k a h1).2) → R h (st_bind m k h).2.
Proof. intros Hm Hk. unfold st_bind. destruct (m h) as [[a|e] h1] eqn:E1; [|done]. etrans; [exact Hm|]. by apply Hk. Qed.
Lemma map_err_keeps {E F A} (R : Host → Host → Prop) (f : E → F) (m : ST Host E A) h :
  R h (m h).2 → R h (st_map_err f m h).2.
Proof. unfold st_map_err. by destruct (m h). Qed.
Lemma host_io_keeps {A} s (act : HIO A) h : (∀ fs, still s h (act (mkHost (ho_nodes h) (ho_locks h) fs)).2) → still s h (host_io act h).2.
Proof.
  intros Ha. unfold host_io. destruct h as [n l [|[e|] fs]]; cbn in *; [apply Ha|by split; [apply entries_kept|]|apply Ha].
Qed.
Lemma host_io_ok {A} (act : HIO A) h a h' : host_io act h = (Ok a, h') →
  ∃ fs, act (mkHost (ho_nodes h) (ho_locks h) fs) = (Ok a, h').
Proof. unfold host_io. destruct h as [n l [|[e|] fs]]; cbn; [by exists []|done|by exists fs]. Qed.
(** ** Calls *)

Lemma symlink_metadata_keeps p h : still None h (symlink_metadata p h).2.
Proof. apply host_io_keeps. intros fs. by split; [apply entries_kept|]. Qed.
Lemma mkdir_all_keeps p h : still None h (mkdir_all uid umask_mode p h).2.
Proof.
  apply host_io_keeps. intros fs. cbn. destruct (ho_nodes h !! p) eqn:Hp; (split; [|done]); [by apply entries_kept|].
  etrans; [by apply (entries_kept None h (mkHost (ho_nodes h) (ho_locks h) fs))|].
  apply (kept_insert None p _ (mkHost _ _ _)); [done|done|by left].
Qed.
Lemma node_at_kept h h' p : ho_nodes h' = ho_nodes h → node_at p h' = node_at p h.
Proof. intros E. unfold node_at. rewrite (resolve_kept None h h') by by apply entries_kept. destruct (resolve p h); [|done]. cbn. by rewrite E. Qed.
Lemma mkdir_all_ok p h h1 : mkdir_all uid umask_mode p h = (Ok (), h1) → nd_type <$> node_at p h1 = Some FtDirectory.
Proof.
  intros [fs Hm]%host_io_ok. cbn in Hm. destruct (ho_nodes h !! p) as [n|] eqn:Hp.
  - unfold ensure in Hm. case_bool_decide as Hd; [|done]. injection Hm as <-. done.
  - injection Hm as <-. unfold node_at. rewrite resolve_plain; [|unfold link; cbn; by rewrite lookup_insert_eq].
    cbn. by rewrite lookup_insert_eq.
Qed.
Lemma set_permissions_keeps s p mode h :
  (∀ q, resolve p h = Some q →
    (nd_type <$> ho_nodes h !! q = Some FtDirectory ∧ mode = 448) ∨ s = Some q ∧ socket_at q h ∨ ho_nodes h !! q = None) →
  still s h (set_permissions p mode h).2.
Proof.
  intros Hc. apply host_io_keeps. intros fs. set (h0 := mkHost _ _ _). assert (kept s h h0) as K by by apply entries_kept.
  rewrite (resolve_kept _ _ _ p K). destruct (resolve p h) as [q|]; [|done]. split; [|done]. etrans; [exact K|].
  destruct (Hc q eq_refl) as [?|[?|Hn]]; [apply kept_chmod; by left|apply kept_chmod; by right|]. apply entries_kept.
  cbn. apply alter_id. by rewrite Hn.
Qed.
(** A directory that was just made gets its mode. *)
Lemma set_directory_keeps p h0 h : mkdir_all uid umask_mode p h0 = (Ok (), h) → still None h (set_permissions p 448 h).2.
Proof.
  intros Hm%mkdir_all_ok. apply set_permissions_keeps. intros q Hq. left. unfold node_at in Hm. by rewrite Hq in Hm.
Qed.
Lemma validate_directory_spec p h r h' : validate_owned_private_directory uid p h = (r, h') →
  still None h h' ∧ (r = Ok () → private p h').
Proof.
  unfold validate_owned_private_directory. pose proof (symlink_metadata_keeps p h) as K.
  destruct (symlink_metadata p h) as [[n|[]] h1] eqn:Hs; try by intros [= <- <-].
  intros [= <- <-]. split; [done|]. apply host_io_ok in Hs as [fs Hs]. injection Hs as Hn <-. cbn in Hn |- *.
  destruct (ho_nodes h !! p) as [n'|] eqn:Hp; [|done]. injection Hn as ->. unfold ensure, mbind, result_bind.
  destruct n as [[] u m]; cbn; try done. repeat case_bool_decide; try done. intros _. subst. by exists m.
Qed.
Lemma create_directory_spec p h r h' : create_owned_private_directory uid umask_mode p h = (r, h') →
  still None h h' ∧ (r = Ok () → private p h').
Proof.
  unfold create_owned_private_directory. pose proof (symlink_metadata_keeps p h) as K.
  assert (∀ h0, still None h h0 → validate_owned_private_directory uid p h0 = (r, h') → still None h h' ∧ (r = Ok () → private p h')) as Hv.
  { intros h0 K0 [K1 Hp]%validate_directory_spec. split; [by etrans|done]. }
  destruct (symlink_metadata p h) as [[n|[]] h1]; [exact (Hv h1 K)|..]; try by intros [= <- <-].
  intros Hb.
  unfold st_bind, st_map_err in Hb. pose proof (mkdir_all_keeps p h1) as K1.
  destruct (mkdir_all uid umask_mode p h1) as [[[]|e] h2] eqn:Hm; cbn in *; [|injection Hb as <- <-; split; [by etrans|done]].
  pose proof (set_directory_keeps _ _ _ Hm) as K2. destruct (set_permissions p 448 h2) as [[u|e] h3]; cbn in *.
  - apply (Hv h3); [|done]. by do 2 (etrans; [eassumption|]).
  - injection Hb as <- <-. split; [|done]. by do 2 (etrans; [eassumption|]).
Qed.
Lemma prepare_spec c h r h' : prepare uid umask_mode c h = (r, h') →
  still None h h' ∧ (r = Ok () → private (dc_runtime_dir c) h' ∧ private (dc_state_root c) h').
Proof.
  unfold prepare, config_validate, st_bind.
  destruct (create_owned_private_directory _ _ (dc_runtime_dir c) h) as [r1 h1] eqn:H1. apply create_directory_spec in H1 as [K1 _].
  destruct r1 as [u1|e1]; [|by intros [= <- <-]].
  destruct (create_owned_private_directory _ _ (dc_state_root c) h1) as [r2 h2] eqn:H2. apply create_directory_spec in H2 as [K2 _].
  assert (still None h h2) as K by by etrans. destruct r2 as [u2|e2]; [|by intros [= <- <-]].
  destruct (validate_owned_private_directory uid (dc_runtime_dir c) h2) as [r3 h3] eqn:H3.
  apply validate_directory_spec in H3 as [K3 Hr]. destruct r3 as [[]|e3]; [|intros [= <- <-]; split; [by etrans|done]].
  intros [K4 Hs]%validate_directory_spec. split; [by do 2 (etrans; [eassumption|])|]. intros ->. split; [|by apply Hs].
  apply K4. by apply Hr.
Qed.

(** ** Locks *)

(** [l] is the lock of [p], was free and is taken. *)
Definition taken (p : bytes) (l : InstanceLock) (h h' : Host) : Prop :=
  resolve p h = Some (lk_file l) ∧ (lk_file l ∉ ho_locks h) ∧ ho_locks h' = {[lk_file l]} ∪ ho_locks h.
Lemma open_lock_file_spec p h r h' : open_lock_file uid p h = (r, h') →
  still None h h' ∧ (∀ q, r = Ok q → resolve p h = Some q).
Proof.
  intros Ho. assert (h' = (open_lock_file uid p h).2) as -> by by rewrite Ho. split.
  - apply host_io_keeps. intros fs. set (h0 := mkHost _ _ _). assert (kept None h h0) as K by by apply entries_kept.
    rewrite (resolve_kept _ _ _ p K). destruct (resolve p h) as [q|]; [|done]. cbn [ho_nodes].
    change (ho_nodes h) with (ho_nodes h0). destruct (ho_nodes h0 !! q) eqn:Hq; [done|]. split; [|done]. etrans; [exact K|].
    apply kept_insert; [done|done|by left].
  - intros q ->. apply host_io_ok in Ho as [fs Ho]. assert (kept None h (mkHost (ho_nodes h) (ho_locks h) fs)) as K by by apply entries_kept.
    rewrite (resolve_kept _ _ _ p K) in Ho. destruct (resolve p h) as [q'|]; [|done].
    destruct (ho_nodes _ !! q'); [|by injection Ho as ->]. unfold ensure in Ho. case_bool_decide; [|done]. by injection Ho as ->.
Qed.
Lemma acquire_lock_spec p h r h' : acquire_lock uid p h = (r, h') →
  kept None h h' ∧ match r with Ok l => taken p l h h' | Err _ => ho_locks h' = ho_locks h end.
Proof.
  unfold acquire_lock, st_bind, st_map_err. destruct (open_lock_file uid p h) as [r1 h1] eqn:H1.
  apply open_lock_file_spec in H1 as [[K1 L1] Hq]. destruct r1 as [q|e1]; cbn [map_err]; [|by intros [= <- <-]].
  specialize (Hq q eq_refl). unfold flock, host_io, st_lift.
  assert (∀ h2, ho_nodes h2 = ho_nodes h1 → kept None h h2) as Hk.
  { intros h2 E. etrans; [exact K1|]. by apply entries_kept. }
  destruct h1 as [n1 l1 [|[e|] fs]]; cbn in *; subst l1; try case_decide as Hd; cbn; intros [= <- <-];
    (split; [by apply Hk|]); try done.
Qed.
Lemma release_taken p l h h1 h2 : taken p l h h1 → ho_locks h2 = ho_locks h1 → ho_locks (release l h2) = ho_locks h.
Proof. intros (_ & Hn & E1) E2. cbn. rewrite E2, E1, difference_union_distr_l_L, difference_diag_L, union_empty_l_L. apply difference_disjoint_L. clear E1 E2. set_solver. Qed.

(** ** Binding the socket *)

Lemma unlink_locks p h : ho_locks (unlink p h).2 = ho_locks h.
Proof.
  unfold unlink, host_io. destruct (ho_faults h) as [|[e|] fs]; cbn; [| done |];
    (destruct (ho_nodes h !! p) as [n|]; [|done]); by case_decide.
Qed.
(** The old socket goes. *)
Lemma replace_keeps p h :
  still (Some p) h ((n ⇐ st_map_err DaIo (symlink_metadata p);
    _ ⇐ st_lift (ensure (bool_decide (nd_type n = FtSocket)) InvalidSocketPath); st_map_err DaIo (unlink p)) h).2.
Proof.
  apply (bind_keeps (still (Some p))); [apply map_err_keeps, still_any, symlink_metadata_keeps|].
  intros n h1 Hs%st_map_err_Ok. apply (bind_keeps (still (Some p))); [done|]. intros [] h2 [Hn ->]%st_lift_Ok.
  unfold ensure in Hn. case_bool_decide as Ht; [|done]. apply map_err_keeps. split; [|apply unlink_locks]. apply kept_unlink; [done|].
  apply host_io_ok in Hs as [fs Hs]. injection Hs as Hs <-. unfold link. cbn in *.
  destruct (ho_nodes h !! p) as [[]|]; [|done]. injection Hs as <-. cbn in Ht. by subst.
Qed.
Lemma listen_spec p h r h' : listen uid umask_mode p h = (r, h') →
  still (Some p) h h' ∧ (r = Ok () → ho_nodes h' !! p = Some (mkNode FtSocket uid umask_mode)).
Proof.
  intros Ho. assert (h' = (listen uid umask_mode p h).2) as -> by by rewrite Ho. split.
  - apply host_io_keeps. intros fs. set (h0 := mkHost _ _ _). change (ho_nodes h) with (ho_nodes h0).
    destruct (ho_nodes h0 !! p) eqn:Hp; [by split; [apply entries_kept|]|]. split; [|done].
    etrans; [by apply (entries_kept _ h h0)|]. apply kept_insert; [done|done|by right].
  - intros ->. rewrite Ho. cbn. apply host_io_ok in Ho as [fs Ho]. cbn in Ho. destruct (ho_nodes h !! p); [done|].
    injection Ho as <-. cbn. by rewrite lookup_insert_eq.
Qed.
Lemma set_socket_spec p h r h' : ho_nodes h !! p = Some (mkNode FtSocket uid umask_mode) →
  set_permissions p 384 h = (r, h') → still (Some p) h h' ∧ (r = Ok () → serving p h').
Proof.
  intros Hp Ho. assert (resolve p h = Some p) as Hr by (apply resolve_plain; unfold link; by rewrite Hp).
  assert (h' = (set_permissions p 384 h).2) as -> by by rewrite Ho. split.
  - apply set_permissions_keeps. intros q. rewrite Hr. intros [= <-]. right. left. split; [done|]. unfold socket_at. by rewrite Hp.
  - intros ->. rewrite Ho. cbn. apply host_io_ok in Ho as [fs Ho].
    rewrite (resolve_kept None h), Hr in Ho by by apply entries_kept. cbn in Ho. rewrite Hp in Ho. injection Ho as <-.
    unfold serving. cbn. by rewrite lookup_alter_eq, Hp.
Qed.
Definition held (p : bytes) (h : Host) : Prop := ∃ q, resolve p h = Some q ∧ q ∈ ho_locks h.
Lemma held_not_taken p l h h' : held p h → taken p l h h' → False.
Proof. intros (q & Hq & Hin) (Hq' & Hn & _). rewrite Hq in Hq'. by injection Hq' as ->. Qed.
Lemma held_still h h' p : still None h h' → held p h → held p h'.
Proof. intros [K L] (q & Hq & Hin). exists q. by rewrite (resolve_kept _ _ _ _ K), L. Qed.
Lemma taken_still p l h h1 h2 h3 s : still None h h1 → still s h2 h3 → taken p l h1 h2 → taken p l h h3.
Proof. intros [K L] [_ L'] (Hr & Hn & E). unfold taken. rewrite <-(resolve_kept _ _ _ _ K), <-L, L'. done. Qed.
Lemma bind_socket_spec c h r h' : bind_socket uid umask_mode c h = (r, h') →
  still (Some (socket_path c)) h h' ∧ (r = Ok () → serving (socket_path c) h').
Proof.
  unfold bind_socket, st_bind at 1, st_get at 1.
  match goal with |- st_bind ?m ?k h = _ → _ => assert (still (Some (socket_path c)) h (m h).2) as K1 end.
  { destruct (socket_exists (socket_path c) h); [apply replace_keeps|done]. }
  unfold st_bind at 1. revert K1. match goal with |- context [(?m h).2] => destruct (m h) as [[u|e] h1] end; intros K1;
    [|by intros [= <- <-]]. cbn in K1.
  unfold st_bind, st_map_err. destruct (listen _ _ _ h1) as [r2 h2] eqn:H2. apply listen_spec in H2 as [K2 Hs2].
  assert (still (Some (socket_path c)) h h2) as K by by etrans. destruct r2 as [[]|e]; cbn [map_err]; [|by intros [= <- <-]].
  destruct (set_permissions _ 384 h2) as [r3 h3] eqn:H3. apply (set_socket_spec _ _ _ _ (Hs2 eq_refl)) in H3 as [K3 Hs3].
  intros [= <- <-]. split; [by etrans|]. intros Hr. apply Hs3. by destruct r3 as [[]|].
Qed.
(** A lock is taken and given back when what follows fails. *)
Lemma guarded_socket_spec c l h0 h r h' : taken (daemon_lock c) l h0 h → kept None h0 h →
  guarded l (_ ⇐ bind_socket uid umask_mode c; st_ret l) h = (r, h') →
  kept (Some (socket_path c)) h0 h' ∧
  match r with
  | Ok l => taken (daemon_lock c) l h0 h' ∧ serving (socket_path c) h'
  | Err _ => ho_locks h' = ho_locks h0
  end.
Proof.
  intros Hl K0. unfold guarded, st_bind, st_ret. destruct (bind_socket _ _ c h) as [r1 h1] eqn:H1.
  apply bind_socket_spec in H1 as [[K1 L1] Hs]. assert (kept (Some (socket_path c)) h0 h1) as K by (etrans; [by apply kept_any|done]).
  destruct r1 as [[]|e]; intros [= <- <-].
  - split; [done|]. split; [|by apply Hs]. by eapply (taken_still _ _ h0 h0 h h1).
  - split; [|by eapply release_taken]. etrans; [exact K|]. by apply entries_kept.
Qed.
Lemma make_runtime_spec c h {A} (k : ST Host DaemonError A) r h' :
  (_ ⇐ st_map_err DaIo (mkdir_all uid umask_mode (dc_runtime_dir c)); _ ⇐ st_map_err DaIo (set_permissions (dc_runtime_dir c) 448); k) h = (r, h') →
  (still None h h' ∧ ∃ e, r = Err e) ∨ ∃ h1, still None h h1 ∧ k h1 = (r, h').
Proof.
  unfold st_bind, st_map_err. pose proof (mkdir_all_keeps (dc_runtime_dir c) h) as K1.
  destruct (mkdir_all _ _ _ h) as [[[]|e] h1] eqn:H1; cbn [map_err]; cbn in K1; [|intros [= <- <-]; left; eauto].
  pose proof (set_directory_keeps _ _ _ H1) as K2. destruct (set_permissions _ 448 h1) as [[u|e] h2]; cbn [map_err]; cbn in K2.
  - intros Hk. right. exists h2. split; [by etrans|done].
  - intros [= <- <-]. left. split; [by etrans|eauto].
Qed.
Lemma daemon_bind_spec c h r h' : daemon_bind uid umask_mode c h = (r, h') →
  kept (Some (socket_path c)) h h' ∧ (held (daemon_lock c) h → kept None h h') ∧
  match r with
  | Ok l => taken (daemon_lock c) l h h' ∧ serving (socket_path c) h'
  | Err _ => ho_locks h' = ho_locks h
  end.
Proof.
  intros [[[K L] [e ->]]|(h1 & [K L] & Hk)]%make_runtime_spec; [split; [by apply kept_any|done]|].
  unfold st_bind at 1 in Hk. destruct (acquire_lock uid (daemon_lock c) h1) as [rl h2] eqn:Hl.
  apply acquire_lock_spec in Hl as [K2 Hl]. assert (kept None h h2) as K0 by by etrans.
  destruct rl as [l|e]; [|injection Hk as <- <-; split; [by apply kept_any|]; split; [done|by rewrite Hl]].
  assert (taken (daemon_lock c) l h h2) as Ht by by eapply (taken_still _ _ h h1 h2 h2 None).
  destruct (guarded_socket_spec _ _ _ _ _ _ Ht K0 Hk) as [K3 Hr]. split; [done|]. split; [|done].
  intros Hh. by destruct (held_not_taken _ _ _ _ Hh Ht).
Qed.

(** ** Starting *)

Lemma acquire_spec c w h d r h' d' : acquire uid umask_mode c w (h, d) = (r, (h', d')) →
  kept None h h' ∧ (held (instance_lock c) h → d' = d) ∧
  match r with
  | Ok s => su_config s = c ∧ taken (instance_lock c) (su_store_lock s) h h' ∧ recover c w d = (Ok (su_service s), d') ∧
            private (dc_runtime_dir c) h' ∧ private (dc_state_root c) h'
  | Err _ => ho_locks h' = ho_locks h
  end.
Proof.
  unfold acquire. unfold st_bind at 1, on_host at 1. cbn [fst snd].
  destruct (prepare uid umask_mode c h) as [r1 h1] eqn:H1. apply prepare_spec in H1 as [K1 Hp].
  destruct r1 as [[]|e]; cbn [map_err]; [|intros [= <- <- <-]; by destruct K1]. destruct (Hp eq_refl) as [Hp1 Hp2].
  unfold st_bind at 1, on_host at 1. cbn [fst snd]. destruct (acquire_lock uid (instance_lock c) h1) as [r2 h2] eqn:H2.
  apply acquire_lock_spec in H2 as [K2 Hl]. assert (kept None h h2) as K by (destruct K1; by etrans).
  destruct r2 as [l|e]; cbn [map_err]; [|intros [= <- <- <-]; rewrite Hl; by destruct K1].
  assert (taken (instance_lock c) l h h2) as Ht by by eapply (taken_still _ _ h h1 h2 h2 None).
  unfold guarded_site, st_bind, on_disk, st_ret. cbn [fst snd].
  destruct (recover c w d) as [[s|e] d1] eqn:Hr; intros [= <- <- <-].
  - split; [done|]. split; [intros Hh; by destruct (held_not_taken _ _ _ _ Hh Ht)|]. split_and!; try done; by apply K2.
  - split; [etrans; [exact K|]; by apply entries_kept|].
    split; [intros Hh; by destruct (held_not_taken _ _ _ _ Hh Ht)|by eapply release_taken].
Qed.

(** The locks of a new service were free and are taken. *)
Definition locks_added (run : Running) (h h' : Host) : Prop :=
  resolve (instance_lock (ru_config run)) h = Some (lk_file (ru_store_lock run)) ∧
  resolve (daemon_lock (ru_config run)) h = Some (lk_file (ru_daemon_lock run)) ∧
  (lk_file (ru_store_lock run) ∉ ho_locks h) ∧
  (lk_file (ru_daemon_lock run) ∉ {[lk_file (ru_store_lock run)]} ∪ ho_locks h) ∧
  ho_locks h' = {[lk_file (ru_daemon_lock run)]} ∪ ({[lk_file (ru_store_lock run)]} ∪ ho_locks h).
Lemma bind_spec s h0 h d r h' d' : taken (instance_lock (su_config s)) (su_store_lock s) h0 h → kept None h0 h →
  bind uid umask_mode s (h, d) = (r, (h', d')) →
  d' = d ∧ kept (Some (socket_path (su_config s))) h h' ∧ kept (Some (socket_path (su_config s))) h0 h' ∧
  (held (daemon_lock (su_config s)) h0 → is_ok r = false ∧ kept None h0 h') ∧
  match r with
  | Ok run => ru_config run = su_config s ∧ ru_service run = su_service s ∧ locks_added run h0 h' ∧
              serving (socket_path (su_config s)) h'
  | Err _ => ho_locks h' = ho_locks h0
  end.
Proof.
  intros Ht K0. unfold bind, guarded_site, st_bind, on_host, st_ret. cbn [fst snd].
  destruct (daemon_bind uid umask_mode (su_config s) h) as [r1 h1] eqn:H1. apply daemon_bind_spec in H1 as (K1 & Hh & Hr).
  assert (kept (Some (socket_path (su_config s))) h0 h1) as K by (etrans; [by apply kept_any|done]).
  assert (held (daemon_lock (su_config s)) h0 → held (daemon_lock (su_config s)) h) as Hheld.
  { intros (q & Hq & Hin). exists q. rewrite (resolve_kept _ _ _ _ K0). destruct Ht as (_ & _ & ->). split; [done|]. by apply elem_of_union_r. }
  destruct r1 as [l|e]; cbn [map_err]; intros [= <- <- <-]; (split; [done|]).
  - destruct Hr as [Hl Hs]. split; [done|]. split; [done|]. split; [intros Hd%Hheld; by destruct (held_not_taken _ _ _ _ Hd Hl)|].
    split_and!; try done. destruct Ht as (Hr1 & Hn1 & E1), Hl as (Hr2 & Hn2 & E2).
    rewrite (resolve_kept _ _ _ _ K0), E1 in *. split_and!; done.
  - split; [etrans; [exact K1|]; by apply entries_kept|]. split; [etrans; [exact K|]; by apply entries_kept|].
    split; [|by eapply release_taken]. intros Hd%Hheld. split; [done|]. etrans; [exact K0|]. etrans; [by apply Hh|]. by apply entries_kept.
Qed.

(** What starting a service does, whether or not it succeeds. *)
Record started (c : DaemonConfig) (w : StartupDraws) (h : Host) (d : Disk) (r : option Running) (h' : Host) (d' : Disk) : Prop := mkStarted {
  started_kept : kept (Some (socket_path c)) h h';
  started_store_held : held (instance_lock c) h → r = None ∧ d' = d ∧ kept None h h';
  started_daemon_held : held (daemon_lock c) h → r = None ∧ kept None h h';
  started_result :
    match r with
    | Some run => ru_config run = c ∧ recover c w d = (Ok (ru_service run), d') ∧ locks_added run h h' ∧
                  private (dc_runtime_dir c) h' ∧ private (dc_state_root c) h' ∧ serving (socket_path c) h'
    | None => ho_locks h' = ho_locks h
    end }.
Lemma started_failed c w h d h' d' : kept None h h' → (held (instance_lock c) h → d' = d) → ho_locks h' = ho_locks h →
  started c w h d None h' d'.
Proof. intros K Hd L. constructor; [by apply kept_any|auto|auto|done]. Qed.
(** Both ways of starting: acquire the state root, check, bind. *)
Definition attempt_start {E A} (f : DaemonServiceError → E) (check : result E A) (c : DaemonConfig) (w : StartupDraws) : ST (Host * Disk) E (Running * A) :=
  s ⇐ st_map_err f (acquire uid umask_mode c w);
  a ⇐ guarded_site (su_store_lock s) (st_lift check);
  r ⇐ st_map_err f (bind uid umask_mode s);
  st_ret (r, a).
Definition ok_fst {E A B} (r : result E (A * B)) : option A := match r with Ok x => Some x.1 | Err _ => None end.
Lemma attempt_started {E A} f (check : result E A) c w h d r h' d' : attempt_start f check c w (h, d) = (r, (h', d')) →
  started c w h d (ok_fst r) h' d' ∧ match r with Ok x => check = Ok x.2 | Err _ => is_ok check = false → kept None h h' end.
Proof.
  unfold attempt_start. unfold st_bind at 1, st_map_err at 1.
  destruct (acquire uid umask_mode c w (h, d)) as [r1 [h1 d1]] eqn:H1. apply acquire_spec in H1 as (K1 & Hd & Hr).
  destruct r1 as [s|e]; cbn [map_err]; [|intros [= <- <- <-]; split; [by apply started_failed|done]].
  destruct Hr as (Hc & Ht & Hrec & Hp1 & Hp2). unfold st_bind at 1, guarded_site, st_lift. destruct check as [a|e].
  2: { intros [= <- <- <-]. assert (kept None h (release (su_store_lock s) h1)) by (etrans; [exact K1|]; by apply entries_kept).
       split; [|done]. apply started_failed; [done|done|by eapply release_taken]. }
  unfold st_bind, st_map_err, st_ret. destruct (bind uid umask_mode s (h1, d1)) as [r2 [h2 d2]] eqn:H2. rewrite <-Hc in Ht.
  destruct (bind_spec _ _ _ _ _ _ _ Ht K1 H2) as (-> & K2 & K3 & Hh & Hr). rewrite Hc in *.
  assert (held (instance_lock c) h → False) as Hfree by (intros Hheld; by destruct (held_not_taken _ _ _ _ Hheld Ht)).
  destruct r2 as [run|e]; cbn [map_err]; intros [= <- <- <-]; (split; [|done]).
  - destruct Hr as (E1 & E2 & Hl & Hs). constructor; [done|intros Hf; by destruct (Hfree Hf)|intros Hf; by destruct (Hh Hf)|].
    cbn. rewrite E2. split_and!; try done; by apply K2.
  - constructor; [done|intros Hf; by destruct (Hfree Hf)|intros Hf; by destruct (Hh Hf)|done].
Qed.
Lemma start_service_started c w h d r h' d' : start_service uid umask_mode c w (h, d) = (r, (h', d')) →
  started c w h d (ok r) h' d'.
Proof.
  intros Hs. destruct (attempt_started id (Ok ()) c w h d (run ← r; Ok (run, ())) h' d') as [H1 _]; [|by destruct r].
  revert Hs. unfold start_service, attempt_start, st_bind, st_map_err, guarded_site, st_lift, st_ret.
  destruct (acquire uid umask_mode c w (h, d)) as [[s|e] [h1 d1]]; cbn [map_err]; [|by intros [= <- <- <-]].
  destruct (bind uid umask_mode s (h1, d1)) as [[run|e] [h2 d2]]; cbn [map_err]; by intros [= <- <- <-].
Qed.

Section Production.
Context {DB : Type} `{!RocksCatalog.Engine DB}.
Context (metadata : PathBuf → result IoErrorKind Btrfs.FileType) (canonical : PathBuf → result IoErrorKind PathBuf).
Context (open_existing : PathBuf → result string DB).
#[local] Abbreviation start_production_with := (start_with_preflight uid umask_mode metadata canonical open_existing).
#[local] Abbreviation checks := (production_checks metadata canonical open_existing).

Lemma start_production_started c w preflight h d r h' d' : start_production_with c w preflight (h, d) = (r, (h', d')) →
  started (pc_daemon c) w h d (pd_daemon <$> ok r) h' d' ∧
  match r with
  | Ok s => checks c preflight = Ok (pd_catalog s, pd_catalog_root s, pd_startup s)
  | Err _ => is_ok (checks c preflight) = false → kept None h h'
  end.
Proof.
  unfold start_with_preflight. intros Hs.
  destruct (attempt_start PsDaemon (checks c preflight) (pc_daemon c) w (h, d)) as [r1 [h1 d1]] eqn:Ha.
  pose proof (attempt_started _ _ _ _ _ _ _ _ _ Ha) as [H1 H2].
  assert (h1 = h' ∧ d1 = d' ∧ r = (x ← r1; Ok (mkProductionService x.1 x.2.1.1 x.2.1.2 x.2.2))) as (-> & -> & ->).
  { revert Hs Ha. unfold attempt_start, st_bind, st_map_err, guarded_site, st_lift, st_ret.
    destruct (acquire uid umask_mode (pc_daemon c) w (h, d)) as [[s|e] [h2 d2]]; cbn [map_err]; [|by intros [= <- <- <-] [= <- <- <-]].
    destruct (checks c preflight) as [a|e]; [|by intros [= <- <- <-] [= <- <- <-]].
    destruct (bind uid umask_mode s (h2, d2)) as [[run|e] [h3 d3]]; cbn [map_err]; by intros [= <- <- <-] [= <- <- <-]. }
  destruct r1 as [[run [[db root] st]]|e]; done.
Qed.
Lemma checks_ok c preflight db root st : checks c preflight = Ok (db, root, st) →
  preflight (pc_mount_root c) = Ok (ps_layout st, ps_clone_domain st) ∧
  (∃ mount_root, canonical (l_mount_root (ps_layout st)) = Ok mount_root ∧ canonical (pc_catalog_root c) = Ok root ∧
                 path_starts_with root mount_root = true) ∧
  open_existing root = Ok db ∧ RocksCatalog.validate db = Ok () ∧
  RocksCatalog.read_object_location_rebuild_state db = Ok CatalogCodec.Idle ∧ ps_current_generation st = Catalog.current_generation db.
Proof.
  unfold production_checks, checked_catalog_root, reconcile_catalog_startup, mbind, result_bind, ensure. intros Hc.
  repeat match type of Hc with
  | match map_err _ ?x with _ => _ end = _ => let E := fresh "E" in destruct x eqn:E; cbn [map_err] in Hc; [|done]
  | context [match map_err _ ?x with _ => _ end] => let E := fresh "E" in destruct x eqn:E; cbn [map_err] in Hc; [|done]
  | context [if ?b then _ else _] => let E := fresh "E" in destruct b eqn:E; [|done]
  | context [let '(_, _) := ?p in _] => destruct p
  end.
  injection Hc as <- <- <-. cbn.
  repeat match goal with u : unit |- _ => destruct u end.
  match goal with s : ObjectLocationRebuildState |- _ => destruct s; [|done] end. split_and!; try done. eauto.
Qed.
End Production.

(** ** Daemons on one host *)

Definition locks_of (run : Running) : list bytes := [lk_file (ru_daemon_lock run); lk_file (ru_store_lock run)].
Abbreviation FleetState := (Host * Disk * list Running)%type.
Definition joined (r : option Running) (live : list Running) : list Running := option_list r ++ live.
(** A start, an orderly end, a process that is killed, and work: the disk and
    the calls that will fail may become anything. *)
Inductive step : FleetState → FleetState → Prop :=
| StepStart c w h d live r h' d' : start_service uid umask_mode c w (h, d) = (r, (h', d')) →
    step (h, d, live) (h', d', joined (ok r) live)
| StepProduction {DB} (engine : RocksCatalog.Engine DB) metadata canonical (open_existing : PathBuf → result string DB) c w preflight
    h d live r h' d' :
    start_with_preflight uid umask_mode metadata canonical open_existing c w preflight (h, d) = (r, (h', d')) →
    step (h, d, live) (h', d', joined (pd_daemon <$> ok r) live)
| StepStop run h d live live' : live ≡ₚ run :: live' → step (h, d, live) (drop_service run h, d, live')
| StepKill run h d live live' : live ≡ₚ run :: live' →
    step (h, d, live) (release (ru_store_lock run) (release (ru_daemon_lock run) h), d, live')
| StepWork h d live fs d' : step (h, d, live) (mkHost (ho_nodes h) (ho_locks h) fs, d', live).

Definition settled (h : Host) (run : Running) : Prop :=
  resolve (instance_lock (ru_config run)) h = Some (lk_file (ru_store_lock run)) ∧
  resolve (daemon_lock (ru_config run)) h = Some (lk_file (ru_daemon_lock run)) ∧
  private (dc_runtime_dir (ru_config run)) h ∧ private (dc_state_root (ru_config run)) h ∧
  serving (socket_path (ru_config run)) h.
(** The locks that are held are those of the live services, each once. *)
Definition fleet_ok (h : Host) (live : list Running) : Prop :=
  ho_locks h = list_to_set (live ≫= locks_of) ∧ NoDup (live ≫= locks_of) ∧ Forall (settled h) live.

Lemma settled_kept s h h' run : kept s h h' → s ≠ Some (socket_path (ru_config run)) → settled h run → settled h' run.
Proof.
  intros K Hs (H1 & H2 & H4 & H5 & H6). unfold settled. rewrite !(resolve_kept _ _ _ _ K).
  destruct K as [_ P S _]. split_and!; auto.
Qed.
Lemma child_inj_l p q n : child p n = child q n → p = q.
Proof. unfold child. apply app_inv_tail. Qed.
Lemma locks_in run live : run ∈ live → lk_file (ru_daemon_lock run) ∈ live ≫= locks_of ∧ lk_file (ru_store_lock run) ∈ live ≫= locks_of.
Proof. intros Hin. split; apply list_elem_of_bind; exists run; (split; [|done]); unfold locks_of; rewrite !elem_of_cons; auto. Qed.
Lemma live_held h live run : fleet_ok h live → run ∈ live →
  held (instance_lock (ru_config run)) h ∧ held (daemon_lock (ru_config run)) h.
Proof.
  intros (E & _ & Hall) Hin. rewrite Forall_forall in Hall. destruct (Hall run Hin) as (H1 & H2 & _).
  destruct (locks_in _ _ Hin) as [Hd Hs]. split; eexists; rewrite E, elem_of_list_to_set; done.
Qed.
(** A path names one lock, so services share neither root. *)
Lemma live_distinct h live run run' live' : fleet_ok h live → live ≡ₚ run :: live' → run' ∈ live' →
  dc_state_root (ru_config run) ≠ dc_state_root (ru_config run') ∧ dc_runtime_dir (ru_config run) ≠ dc_runtime_dir (ru_config run').
Proof.
  intros (_ & Hnd & Hall) Hp Hin. rewrite Hp in Hnd, Hall. cbn in Hnd.
  apply Forall_cons in Hall as [(H1 & H2 & _) Hall]. rewrite Forall_forall in Hall. destruct (Hall run' Hin) as (H1' & H2' & _).
  destruct (locks_in _ _ Hin) as [Hd Hs]. apply NoDup_cons in Hnd as [Hn1 Hnd]. apply NoDup_cons in Hnd as [Hn2 _].
  split; intros E; [apply Hn2|apply Hn1, list_elem_of_further].
  - unfold instance_lock in *. rewrite E, H1' in H1. by injection H1 as <-.
  - unfold daemon_lock in *. rewrite E, H2' in H2. by injection H2 as <-.
Qed.
Lemma fleet_started c w h d live r h' d' : fleet_ok h live → started c w h d r h' d' → fleet_ok h' (joined r live).
Proof.
  intros Hf [K Hst Hda Hr]. pose proof Hf as (E & Hnd & Hall).
  assert (Forall (settled h') live) as Hall'.
  { rewrite Forall_forall in Hall |- *. intros run Hin. destruct (decide (socket_path c = socket_path (ru_config run))) as [Es|Hs].
    - apply child_inj_l in Es. destruct (live_held _ _ _ Hf Hin) as [_ Hh]. unfold daemon_lock in *. rewrite <-Es in Hh.
      destruct (Hda Hh) as [_ K']. apply (settled_kept None h); auto.
    - apply (settled_kept (Some (socket_path c)) h); [done|congruence|auto]. }
  destruct r as [run|]; cbn [joined option_list]; [|split; [by rewrite Hr|done]].
  destruct Hr as (<- & _ & (R1 & R2 & N1 & N2 & L) & P1 & P2 & S). unfold joined, fleet_ok. cbn [option_list app mbind list_bind locks_of].
  rewrite E in N1, N2, L. rewrite not_elem_of_union, not_elem_of_singleton in N2. destruct N2 as [N2 N3].
  rewrite elem_of_list_to_set in N1, N3. split_and!.
  - rewrite L. done.
  - apply NoDup_cons. split; [|by apply NoDup_cons]. by apply not_elem_of_cons.
  - apply Forall_cons. split; [|done]. unfold settled. by rewrite !(resolve_kept _ _ _ _ K).
Qed.
(** The end of a service, with or without its socket. *)
Lemma fleet_ended h h1 live run live' : fleet_ok h live → live ≡ₚ run :: live' →
  kept (Some (socket_path (ru_config run))) h h1 → ho_locks h1 = ho_locks h →
  fleet_ok (release (ru_store_lock run) (release (ru_daemon_lock run) h1)) live'.
Proof.
  intros Hf Hp K L. pose proof Hf as (E & Hnd & Hall). rewrite Hp in E, Hnd, Hall. cbn [mbind list_bind locks_of app] in E, Hnd.
  apply NoDup_cons in Hnd as [N1 Hnd]. apply NoDup_cons in Hnd as [N2 Hnd]. apply not_elem_of_cons in N1 as [N0 N1].
  apply Forall_cons in Hall as [_ Hall]. split; [|split; [done|]].
  - cbn. rewrite L, E. cbn. apply set_eq. intros q.
    rewrite !elem_of_difference, !elem_of_union, !elem_of_singleton, !elem_of_list_to_set. split; [tauto|].
    intros Hq. split; [split; [tauto|]|]; intros ->; done.
  - rewrite Forall_forall in Hall |- *. intros run' Hin. destruct (live_distinct _ _ _ _ _ Hf Hp Hin) as [_ Hd].
    apply (settled_kept (Some (socket_path (ru_config run))) h); [etrans; [exact K|]; by apply entries_kept| |auto].
    intros [= Es%child_inj_l]. done.
Qed.
Lemma step_ok h d live h' d' live' : fleet_ok h live → step (h, d, live) (h', d', live') → fleet_ok h' live'.
Proof.
  intros Hf Hs. inversion Hs; subst.
  - eapply fleet_started; [done|]. by eapply start_service_started.
  - eapply fleet_started; [done|]. by eapply start_production_started.
  - unfold drop_service. eapply fleet_ended; [done|done| |apply unlink_locks]. apply kept_unlink; [done|].
    destruct Hf as (_ & _ & Hall). match goal with Hp : live ≡ₚ _ |- _ => rewrite Hp in Hall end.
    apply Forall_cons in Hall as [(_ & _ & _ & _ & Hsv) _]. unfold link. by rewrite Hsv.
  - eapply fleet_ended; [done|done|reflexivity|done].
  - destruct Hf as (E & Hnd & Hall). split; [done|]. split; [done|]. eapply Forall_impl; [exact Hall|].
    intros run Hrun. apply (settled_kept None h); [by apply entries_kept|done|done].
Qed.
Lemma reachable_ok h0 d0 h d live : ho_locks h0 = ∅ → rtc step (h0, d0, []) (h, d, live) → fleet_ok h live.
Proof.
  intros H0 Hr. assert (fleet_ok h0 []) as Hf by (split; [done|]; split; constructor).
  remember (h0, d0, []) as x eqn:Ex. remember (h, d, live) as y eqn:Ey.
  assert (∀ h0 d0 l0, x = (h0, d0, l0) → fleet_ok h0 l0 → fleet_ok h live) as Hgo; [|by eapply Hgo].
  clear Ex Hf H0. induction Hr as [x|x [[h1 d1] l1] z Hs Hr IH]; intros h2 d2 l2 Ex Hf; subst.
  - by injection Ex as <- <- <-.
  - eapply IH; [done|done|]. by eapply step_ok.
Qed.

(** C11. Daemons exclude each other. Start daemons with any configurations, plain
    or production, any of them failing at any call, stop or kill some, and let
    the others work. Then the live ones have state roots and runtime directories
    of their own, all private directories of the user, and each serves its
    socket, which only the user may open. A further start succeeds only on roots
    no live daemon has, after durable state was recovered; one that fails leaves
    the held locks as they were, and a live daemon's state root untouched. *)
Theorem daemons_exclude_each_other h0 d0 h d live : ho_locks h0 = ∅ → rtc step (h0, d0, []) (h, d, live) →
  (∀ run live' run', live ≡ₚ run :: live' → run' ∈ live' →
     dc_state_root (ru_config run) ≠ dc_state_root (ru_config run') ∧
     dc_runtime_dir (ru_config run) ≠ dc_runtime_dir (ru_config run')) ∧
  Forall (λ run, private (dc_runtime_dir (ru_config run)) h ∧ private (dc_state_root (ru_config run)) h ∧
                 serving (socket_path (ru_config run)) h) live ∧
  ∀ c w, match start_service uid umask_mode c w (h, d) with
  | (Ok run, (h', d')) =>
      recover c w d = (Ok (ru_service run), d') ∧ serving (socket_path c) h' ∧
      ∀ run', run' ∈ live → dc_state_root c ≠ dc_state_root (ru_config run') ∧ dc_runtime_dir c ≠ dc_runtime_dir (ru_config run')
  | (Err _, (h', d')) =>
      ho_locks h' = ho_locks h ∧ Forall (λ run, serving (socket_path (ru_config run)) h') live ∧
      ∀ run', run' ∈ live → dc_state_root c = dc_state_root (ru_config run') → d' = d
  end.
Proof.
  intros H0 Hr. pose proof (reachable_ok _ _ _ _ _ H0 Hr) as Hf. split; [intros ???; by apply live_distinct with h|].
  split; [destruct Hf as (_ & _ & Hall); eapply Forall_impl; [exact Hall|]; by intros run (_ & _ & Hrun)|].
  intros c w. destruct (start_service uid umask_mode c w (h, d)) as [r [h' d']] eqn:Hs. apply start_service_started in Hs.
  pose proof (fleet_started _ _ _ _ _ _ _ _ Hf Hs) as Hf'. destruct Hs as [_ Hst _ Hres]. destruct r as [run|e]; cbn in Hres, Hf'.
  - destruct Hres as (<- & Hrec & _ & _ & _ & Hsv). split; [done|]. split; [done|]. intros run' Hin. by eapply live_distinct.
  - split; [done|]. split; [destruct Hf' as (_ & _ & Hall); eapply Forall_impl; [exact Hall|]; by intros run (_ & _ & _ & _ & Hrun)|].
    intros run' Hin Ec. destruct (live_held _ _ _ Hf Hin) as [Hh _]. unfold instance_lock in *. rewrite <-Ec in Hh. by apply Hst.
Qed.

(** C12. A production daemon serves only what it checked. When it starts, durable
    state was recovered, the preflight of the mount succeeded, the catalog lies
    below the mounted root, opens, every entry of it decodes and no rebuild of
    its locations is in progress, and then the socket was bound. When it fails,
    the held locks are as they were, and when a check fails no socket appears. *)
Theorem production_binds_last {DB} (engine : RocksCatalog.Engine DB) metadata canonical (open_existing : PathBuf → result string DB)
    c w preflight h d :
  match start_with_preflight uid umask_mode metadata canonical open_existing c w preflight (h, d) with
  | (Ok s, (h', d')) =>
      recover (pc_daemon c) w d = (Ok (ru_service (pd_daemon s)), d') ∧
      preflight (pc_mount_root c) = Ok (ps_layout (pd_startup s), ps_clone_domain (pd_startup s)) ∧
      (∃ mount_root, canonical (l_mount_root (ps_layout (pd_startup s))) = Ok mount_root ∧
         canonical (pc_catalog_root c) = Ok (pd_catalog_root s) ∧ path_starts_with (pd_catalog_root s) mount_root = true) ∧
      open_existing (pd_catalog_root s) = Ok (pd_catalog s) ∧ RocksCatalog.validate (pd_catalog s) = Ok () ∧
      RocksCatalog.read_object_location_rebuild_state (pd_catalog s) = Ok CatalogCodec.Idle ∧
      serving (socket_path (pc_daemon c)) h'
  | (Err _, (h', d')) =>
      ho_locks h' = ho_locks h ∧
      (is_ok (production_checks metadata canonical open_existing c preflight) = false → ∀ p, socket_at p h' → socket_at p h)
  end.
Proof.
  destruct (start_with_preflight _ _ _ _ _ c w preflight (h, d)) as [r [h' d']] eqn:Hs.
  apply start_production_started in Hs as [[_ _ _ Hres] Hc]. destruct r as [s|e]; cbn in Hres.
  - destruct Hres as (_ & Hrec & _ & _ & _ & Hsv). apply checks_ok in Hc as (H1 & H2 & H4 & H5 & H6 & _). by split_and!.
  - split; [done|]. intros Hno p. by apply (Hc Hno).
Qed.
End Fleet.

(** ** Runs *)

Definition demo_config : DaemonConfig := mkConfig (b_ "/run/forest") (b_ "/var/forest").
Definition demo_rival : DaemonConfig := mkConfig (b_ "/run/other") (b_ "/var/forest").
Definition demo_draws : StartupDraws := mkStartupDraws (λ _, [1]) true (Ok 100) [2].
Definition demo_host : Host := mkHost ∅ ∅ [].
Definition demo_disk : Disk := mkDisk [] ∅ [] [].
Definition demo_started := start_service 1000 493 demo_config demo_draws (demo_host, demo_disk).
Definition demo_live : list Running := option_list (ok demo_started.1).
Lemma demo_reached : rtc (step 1000 493) (demo_host, demo_disk, []) (demo_started.2.1, demo_started.2.2, demo_live).
Proof.
  apply rtc_once. unfold demo_live. destruct demo_started as [r [h' d']] eqn:Hs. cbn [fst snd].
  rewrite <-(app_nil_r (option_list (ok r))). by apply StepStart with demo_config demo_draws.
Qed.
(** The rival is refused and the state root keeps its contents; once the first
    daemon has ended, the rival starts. *)
Lemma daemons_exclude_each_other_witness :
  length demo_live = 1%nat ∧
  (start_service 1000 493 demo_rival demo_draws demo_started.2).1 = Err (StoreAlreadyInUse (b_ "/var/forest")) ∧
  (start_service 1000 493 demo_rival demo_draws demo_started.2).2.2 = demo_started.2.2 ∧
  match demo_live with
  | run :: _ => is_ok (start_service 1000 493 demo_rival demo_draws (drop_service run demo_started.2.1, demo_started.2.2)).1 = true
  | [] => False
  end.
Proof.
  split; [vm_compute; reflexivity|]. split; [vm_compute; reflexivity|]. split; [|vm_compute; reflexivity].
  destruct (daemons_exclude_each_other 1000 493 demo_host demo_disk demo_started.2.1 demo_started.2.2 demo_live) as (_ & _ & Hs).
  - reflexivity.
  - exact demo_reached.
  - specialize (Hs demo_rival demo_draws). rewrite <-surjective_pairing in Hs.
    assert (∃ run, demo_live = [run] ∧ dc_state_root (ru_config run) = b_ "/var/forest") as (run & Hl & Hr).
    { eexists. split; vm_compute; reflexivity. }
    rewrite Hl in Hs. destruct (start_service 1000 493 demo_rival demo_draws demo_started.2) as [[r|e] [h' d']] eqn:E.
    + assert (is_ok (start_service 1000 493 demo_rival demo_draws demo_started.2).1 = false) as Hf by (vm_compute; reflexivity).
      rewrite E in Hf. discriminate Hf.
    + destruct Hs as (_ & _ & Hd). apply (Hd run); [by apply list_elem_of_here|by rewrite Hr].
Defined.
End LifecycleSpec.
